(* ===== verification/_CoqProject ===== *)
-Q . S2P
Prelude.v
JsString.v
JsRegex.v
JsNumber.v
JsValue.v
EmailPattern.v
RuleMatcher.v
RuleActions.v
MailTypes.v
MailMessage.v
MailThread.v
MailMailbox.v
JsDate.v
Dayjs.v
CalEvent.v
CalRecurrence.v
Contact.v
VCard.v
QueryParser.v
Proc.v
ContactTable.v
MailDb.v
MailRollup.v
Ingest.v
Imap.v
ImapOps.v
ImapInvariant.v
IngestSpecs.v
IngestQueues.v
IngestTheorems.v
IngestRace.v
ImapSpecs.v
ImapSync.v
ImapFolders.v
Discovery.v
DiscoverySpecs.v
RulesProcessor.v
DeltaFetch.v
DeltaSpecs.v
Backfill.v
BackfillSpecs.v
ImapWorker.v
ITip.v
ITipProcessor.v
MailActions.v
MailActionsSpecs.v
WebWorker.v
DavCard.v
DavMirror.v
DavSync.v
DavSyncSpecs.v
DavWrite.v
DavWriteSpecs.v
DayLayout.v
CalActions.v
CalActionsSpecs.v
CalViews.v
CalViewsSpecs.v
ItipMail.v
ItipMailSpecs.v
WebRules.v
WebRulesSpecs.v
WebLabels.v
WebLabelsSpecs.v
S3Store.v
S3StoreSpecs.v
DriveFiles.v
DriveFilesSpecs.v
InboundHooks.v
InboundSpecs.v
SmtpRouter.v
SendMail.v
SendMailSpecs.v
SearchIndex.v
SearchSpecs.v
