(* ===== verification/Prelude.v ===== *)
(** * Lurus Mail: a verification library

    The repository is a platform whose TypeScript half is a mail client: a worker that talks to
    IMAP, SMTP and DAV servers and fills a PostgreSQL database, a web application that reads
    it, and packages both share.  This library models the logic of that half, under
    [src/modules/mail/webmail/].  The paths below are relative to that directory.

    ** The program

    - [packages/core] holds pure functions on rules, messages, threads, mailboxes, events,
      recurrence, contacts and vCards.
    - [apps/worker] runs jobs from queues.  [lib/imap] keeps one client for each identity,
      fetches new and old mail, finds and makes folders, and carries out flags, moves and
      deletions.  Every message that is fetched goes to [lib/message-payload-parser.ts], which
      stores it and announces it to the queues of the search index, the rules, the webhooks
      and the calendar.  [lib/rules] runs the rules of the identity on it, and
      [lib/dav/calendar] reads the invitations it carries.
    - [packages/common] recomputes the summary row of a thread in a mailbox; everything that
      changes messages goes through it or repeats its aggregates.
    - [lib/dav] keeps contacts and events on a DAV server and reads them back; [send-mail.ts] sends
      drafts; [lib/search] keeps the index of messages.
    - [apps/web] parses search queries and lays out calendars; its server actions change the same
      tables for a signed-in user, under row level security, and leave the rest to jobs.

    ** The files, in order, and the code they model

    Languages and runtime:
    - [Prelude]: tactics, the sort of arrays with its laws, cascades, lemmas on lists.
    - [JsString], [JsRegex], [JsNumber], [JsValue], [JsDate]: strings, regular expressions,
      doubles, JSON values and dates of JavaScript.  The matcher of expressions is executable
      and proved equal to its declarative meaning.
    - [Dayjs]: the date library as a class with laws, with instances.
    - [Proc]: procedures with state and exceptions, and properties of their runs.

    [packages/core]:
    - [EmailPattern], [RuleMatcher] ([rules/matcher.ts]), [RuleActions] ([rules/actions.ts]);
    - [MailTypes], [MailMessage], [MailThread] (the tree of a conversation on a heap of nodes),
      [MailMailbox];
    - [CalEvent], [CalRecurrence]; [Contact], [VCard].

    [apps/web]: [QueryParser] ([lib/search/query-parser.ts]), [DayLayout]
    ([components/dashboard/calendars/client-helpers.ts]).

    The worker:
    - [MailDb], [ContactTable]: the tables the worker reads and writes (one list of records per
      table of [packages/db/src/drizzle/schema.ts]), the queues, the clients and their traffic,
      the buffers and the quotas: one state for all its components.
    - [MailRollup] ([packages/common/src/mail.ts]).
    - [Ingest] ([lib/message-payload-parser.ts]), with [IngestSpecs], [IngestQueues],
      [IngestTheorems] and [IngestRace].
    - [Imap] ([lib/imap/imap-client.ts]); [ImapOps] ([imap-flags.ts], [imap-move.ts],
      [imap-delete.ts], [imap-idle-sync.ts]) with [ImapInvariant] and [ImapSpecs]; [ImapSync]
      ([imap-sync-mailbox.ts]); [ImapFolders] ([imap-new-folder.ts], [imap-delete-folder.ts]);
      [DeltaFetch] ([imap-delta-fetch.ts]) with [DeltaSpecs]; [Backfill]
      ([backfill/backfill-full.ts]) with [BackfillSpecs].
    - [RulesProcessor] ([lib/rules/]).
    - [ImapWorker] ([server/plugins/smtp-worker.ts]): the handler of the queue, and all runs of
      the worker.
    - [InboundHooks] ([server/routes/api/v1/hooks/]) with [InboundSpecs].
    - [Discovery] ([backfill/discover/]) with [DiscoverySpecs].
    - [ITip], [ITipProcessor] ([lib/dav/calendar/]); [ItipMail] ([dav-itip-notify.ts],
      [dav-itip-reply.ts]) with [ItipMailSpecs].
    - [DavCard], [DavSync] ([lib/dav/sync/], [lib/dav/calendar/dav-sync-calendar-db.ts]) with
      [DavMirror] and [DavSyncSpecs]; [DavWrite] ([lib/dav/dav-create-contact.ts] and its
      neighbours) with [DavWriteSpecs]; these and the invitations have tables of their own.
    - [SmtpRouter] ([lib/smtp/]); [SendMail] ([server/plugins/send-mail.ts]) with [SendMailSpecs].
    - [SearchIndex] ([lib/search/], [server/plugins/search.ts]) with [SearchSpecs].

    Server actions of [apps/web]:
    - [MailActions] ([lib/actions/mailbox.ts]) with [MailActionsSpecs], on the tables of the
      worker; [WebWorker]: all runs of both.
    - [CalActions], [CalViews] ([lib/actions/calendar.ts]) with [CalActionsSpecs] and
      [CalViewsSpecs], on tables of their own.
    - [WebRules] ([lib/actions/mail-rules.ts]) with [WebRulesSpecs], whose tables the worker's rules
      read; [WebLabels] ([lib/actions/labels.ts]) with [WebLabelsSpecs].
    - [DriveFiles] ([lib/actions/drive.ts], and of the worker [lib/dav/drive/] and
      [server/routes/webdav/]) with [DriveFilesSpecs]; its clouds are buckets of [S3Store]
      ([packages/providers/src/store/s3.ts]) with [S3StoreSpecs].

    ** How state and operations correspond

    An [async] function is a procedure: a function from the store to the store it leaves and its
    outcome, a value or an error.  [try]/[catch]/[finally], early returns and transactions are
    combinators of [Proc] and [MailDb].  A statement of Drizzle is read as the SQL it stands for,
    with the unique keys, references and cascades that can make it fail.  A promise of ImapFlow
    is an event in the traffic, fulfilled or not as the class [ImapServer] says; theorems hold
    for every instance, so for every behaviour of the servers.  The queue's worker runs its jobs
    one after the other, which is why jobs are run to their end; the one place where the
    interleaving of two calls decides the result, the flush of the buffers, has a step relation
    of its own ([IngestRace]).

    ** What the theorems show

    - Core: matching and merging of rules, validation, the conversation tree (termination with
      cyclic replies, completeness without), snippets, recurrence (termination, order, round
      trip of its text), duplicates of contacts, the round trip of vCards.
    - Web: a formatted query parses back but for its quoted values, and a date in a query means the
      day typed or, east of Greenwich, the day before; no two fragments of a day overlap in a column.
    - Stored threads: the rows of [mailbox_threads] agree with the messages in every state the
      operations of [ImapWorker.worker_step] reach, for every behaviour of the servers, and every
      command on messages they send is sent under the lock of a mailbox.
    - Mail: fetching new mail and old mail loses none (within the stated conditions), catches up
      when nothing fails, stores a message once, announces it exactly once when no other call runs
      in between.  The hooks of Mailgun, Postmark and SendGrid deliver to the identity of the first
      recipient, in the box their verdict chooses.
    - Rules: a run performs the actions of its plan, throws exactly when the plan repeats a
      label, and its matcher agrees with the one of [packages/core].
      A form becomes the rule it describes, and users of the form leave each other's rules alone.
    - Labels: their tables stay sound, deletions below a label included.
    - Jobs: what flags, moves, deletions and new folders do, on every branch.
    - Invitations: what a request, a reply and a cancellation change, and that they change only
      rows of the owner, except where a finding says otherwise.  Invitations go to every guest, and
      an answer that is mailed arrives at the event of the organizer, if its uid is a uuid.
    - Folders: discovery keeps the mailboxes of an identity a forest that mirrors the paths, with a
      row for every folder; no mailbox is its own ancestor.
    - DAV: contacts and events follow the objects of the server, a second run does nothing, and a
      calendar that fails does not keep the others from it.  What a job writes is not read back:
      the run after it does nothing, if the server stores what it is sent ([CardServer] says what a
      server does, [tags_puts] what this needs, [book_server] is one).
    - Web and worker together: the rows of threads stay consistent however users' actions on stored
      mail, the jobs on flags, moves, deletions and folders, notifications, rules and the storing of
      incoming mail alternate ([WebWorker.mail_step] says what is left out);
      counts of unread threads, snoozing and waking, and the keys of mailing lists.
    - Outgoing mail: a draft is handed over at most once, and what a send leaves in every case.
    - Search: after the jobs of flags the documents agree with the messages, for mailboxes on a
      server; rebuilding ends.
    - Calendar: the guests of an event after it is stored; its hours and days on the views.
    - Drive: a token writes once, without percent signs only below the home of its maker, and what
      was uploaded under plain names is served; a folder that is deleted from a bucket is empty, the rest is as before.
    Theorems that show a defect are in the files of their component and in the findings of the
    manifest.

    ** Bounds and fuel

    - [JsRegex.star_loop], [re_scan], [re_split_loop]: the length of the text; every turn
      consumes a character, and the results do not depend on more fuel ([re_scan_fuel]).
    - [JsString.dec_digits]: the binary logarithm ([log2_fuel_enough]).
      [JsNumber.decimal_exponent] and [shortest_digits]: constants for 53 bits.
    - [MailThread.sortChildren], [walk]: the number of messages, enough by
      [buildThreadTree_spec], cycles included.
    - [CalRecurrence.occurrences_loop]: a bound computed from the range; [generateOccurrences_spec]
      shows that it is reached for every rule with a positive interval.
    - [ImapSync.sync_loop]: the windows between the last uid and the top; enough by
      [syncMailbox_no_loss] and [sync_loop_total].
    - [ImapFolders.replace_all_loop]: the length of the text.
    - [Discovery.parent_chain]: the length of the path, enough by [ensureParentChain_eq].
    - [cascade] ([MailActions.with_children]): the number of rows, enough by [cascade_closed].
    - [SearchIndex.rebuild_loop]: the number of rows and one more, enough by [rebuild_spec].
    - [S3Store.delete_pages]: an argument; the number of objects and one more is enough by
      [folder_deletion_empties].  [batches]: the number of keys.
    - [CalViews.slot_loop], [day_loop]: an argument; [hours] and [days] of each event are enough by
      [eventsBySlot_tiles] and [eventsByDay_buckets].

    ** Not modelled

    - Third-party code: ImapFlow, nodemailer, mailparser, ical.js, the schemas generated from
      tables, Typesense, the vault, [slugify], collation, [new URL], [rrule], the mailers of the
      providers, the client of S3 and the WebDAV server.  What the code relies on is a parameter or a named
      hypothesis, with a concrete instance in the witness.
    - The loss of the connections to the database and the queues.
    - Code units above 255.
    - The server actions not named above and the user interface of the web application, the
      adapters of mail providers, and everything in Go.
    The components of the manifest give the reason for each. *)

From stdpp Require Export base tactics list gmap sorting.
From Stdlib Require Export ZArith Lia Ascii.

(** ** Automation *)

Create HintDb webmail.
Create Rewrite HintDb webmail.

(** Turn boolean tests in the context into propositions. *)
Ltac bool_to_prop :=
  repeat match goal with
  | H : (_ && _)%bool = true |- _ => apply andb_prop in H as [? ?]
  | H : (_ || _)%bool = false |- _ => apply orb_false_elim in H as [? ?]
  | H : negb _ = true |- _ => apply negb_true_iff in H
  | H : negb _ = false |- _ => apply negb_false_iff in H
  | H : (_ <=? _)%Z = true |- _ => apply Z.leb_le in H
  | H : (_ <=? _)%Z = false |- _ => apply Z.leb_gt in H
  | H : (_ <? _)%Z = true |- _ => apply Z.ltb_lt in H
  | H : (_ <? _)%Z = false |- _ => apply Z.ltb_ge in H
  | H : (_ =? _)%Z = true |- _ => apply Z.eqb_eq in H
  | H : (_ =? _)%Z = false |- _ => apply Z.eqb_neq in H
  | H : bool_decide _ = true |- _ => apply bool_decide_eq_true in H
  | H : bool_decide _ = false |- _ => apply bool_decide_eq_false in H
  end.

(** Case analysis on the innermost boolean test of the goal. *)
Ltac case_if :=
  match goal with
  | |- context [if ?b then _ else _] =>
      lazymatch b with
      | context [if _ then _ else _] => fail
      | _ => let E := fresh "E" in destruct b eqn:E
      end
  end.

Ltac zsolve := bool_to_prop; try lia.

(** ** JavaScript's [Array.prototype.sort]

    A comparator returns a number; only its sign matters.  ECMAScript requires the sort to
    be stable, so for a consistent comparator the result is determined: the insertion sort
    below, which keeps equal elements in their original order. *)

Class Comparator {A} (cmp : A → A → Z) : Prop := {
  cmp_flip : ∀ x y, (cmp x y ≤ 0 ↔ 0 ≤ cmp y x)%Z;
  cmp_le_trans : ∀ x y z, (cmp x y ≤ 0 → cmp y z ≤ 0 → cmp x z ≤ 0)%Z;
}.

Section Sort.
Context {A : Type} (cmp : A → A → Z).

Fixpoint insert_by (x : A) (l : list A) : list A :=
  match l with
  | [] => [x]
  | y :: l' => if (cmp x y <=? 0)%Z then x :: l else y :: insert_by x l'
  end.

Definition sort_by (l : list A) : list A := foldr insert_by [] l.

Definition sorted_by : list A → Prop := StronglySorted (λ x y, (cmp x y ≤ 0)%Z).

(** The subsequence of the elements a comparator cannot tell from [x]. *)
Definition ties (x : A) : list A → list A := filter (λ y, cmp x y = 0%Z).

Lemma insert_by_perm x l : insert_by x l ≡ₚ x :: l.
Proof.
  induction l as [|y l IH]; simpl; [done|].
  destruct (cmp x y <=? 0)%Z; [done|]. rewrite IH. by constructor.
Qed.

Lemma sort_by_perm l : sort_by l ≡ₚ l.
Proof. induction l as [|x l IH]; simpl; [done|]. by rewrite insert_by_perm, IH. Qed.

Lemma sort_by_length l : length (sort_by l) = length l.
Proof. apply Permutation_length, sort_by_perm. Qed.

Lemma elem_of_sort_by x l : x ∈ sort_by l ↔ x ∈ l.
Proof. by rewrite sort_by_perm. Qed.

Lemma sort_by_nil l : sort_by l = [] ↔ l = [].
Proof.
  split; [|by intros ->]. intros H. apply Permutation_nil_r.
  by rewrite <- (sort_by_perm l), H.
Qed.

Context `{!Comparator cmp}.

Lemma cmp_total x y : (cmp x y ≤ 0 ∨ cmp y x ≤ 0)%Z.
Proof. destruct (Z.le_gt_cases (cmp x y) 0); [by left|]. right. apply cmp_flip. lia. Qed.

Lemma insert_by_sorted x l : sorted_by l → sorted_by (insert_by x l).
Proof.
  unfold sorted_by. induction 1 as [|y l Hl IH Hy]; simpl; [by repeat constructor|].
  destruct (cmp x y <=? 0)%Z eqn:E; zsolve.
  - constructor; [by constructor|]. constructor; [done|].
    eapply Forall_impl; [exact Hy|]. intros z Hz. by eapply cmp_le_trans.
  - constructor; [done|]. rewrite insert_by_perm. constructor; [|done].
    destruct (cmp_total x y); lia || done.
Qed.

Lemma sort_by_sorted l : sorted_by (sort_by l).
Proof. induction l; simpl; [constructor|]. by apply insert_by_sorted. Qed.

Lemma cmp_refl x : cmp x x = 0%Z.
Proof. destruct (cmp_total x x) as [H|H]; pose proof (proj1 (cmp_flip x x) H); lia. Qed.

Lemma cmp_eq_sym x y : cmp x y = 0%Z → cmp y x = 0%Z.
Proof.
  intros H. pose proof (cmp_flip x y). pose proof (cmp_flip y x). lia.
Qed.

Lemma ties_insert_by x y l : ties x (insert_by y l) = ties x (y :: l).
Proof.
  unfold ties. induction l as [|z l IH]; simpl; [done|].
  destruct (cmp y z <=? 0)%Z eqn:E; [done|]. zsolve. rewrite !filter_cons, IH, filter_cons.
  repeat case_decide; try done.
  assert (cmp y z ≤ 0)%Z; [|lia].
  apply cmp_le_trans with x; [rewrite cmp_eq_sym; lia|lia].
Qed.

(** Stability: elements the comparator identifies keep their order. *)
Lemma sort_by_stable x l : ties x (sort_by l) = ties x l.
Proof.
  induction l as [|y l IH]; simpl; [done|]. rewrite ties_insert_by.
  unfold ties in *. by rewrite !filter_cons, IH.
Qed.

Lemma sort_by_sorted_id l : sorted_by l → sort_by l = l.
Proof.
  unfold sorted_by. induction 1 as [|x l Hl IH Hx]; simpl; [done|]. rewrite IH.
  destruct l as [|y l]; simpl; [done|]. inversion Hx as [|?? Hxy _]; subst.
  by rewrite (proj2 (Z.leb_le _ _) Hxy).
Qed.

Lemma sort_by_idemp l : sort_by (sort_by l) = sort_by l.
Proof. apply sort_by_sorted_id, sort_by_sorted. Qed.

(** The first element of a sorted array is minimal. *)
Lemma sort_by_hd_min x y l l' : sort_by l = x :: l' → y ∈ l → (cmp x y ≤ 0)%Z.
Proof.
  intros Hs Hy. pose proof (sort_by_sorted l) as Hsort.
  rewrite <- (elem_of_sort_by y l), Hs in Hy.
  rewrite Hs in Hsort. inversion Hsort as [|?? _ Hall]; subst.
  apply elem_of_cons in Hy as [->|Hy]; [rewrite cmp_refl; lia|].
  by eapply Forall_forall in Hall.
Qed.

(** The last element of a sorted array is maximal. *)
Lemma sort_by_last_max x y l : last (sort_by l) = Some x → y ∈ l → (cmp y x ≤ 0)%Z.
Proof.
  intros Hs Hy. pose proof (sort_by_sorted l) as Hsort.
  rewrite <- (elem_of_sort_by y l) in Hy. revert Hs Hy Hsort.
  generalize (sort_by l). clear l. intros l. unfold sorted_by.
  induction l as [|z l IH]; [done|]. intros Hl Hy Hsort.
  inversion Hsort as [|?? Hs' Hall]; subst.
  destruct l as [|z' l]; simplify_list_eq.
  - apply list_elem_of_singleton in Hy as ->. rewrite cmp_refl. lia.
  - apply elem_of_cons in Hy as [->|Hy]; [|by apply IH].
    rewrite Forall_forall in Hall. apply Hall.
    apply last_Some in Hl as [l' ->]. set_solver.
Qed.
End Sort.

(** The comparators of the source are differences of an integer key, or a flipped one. *)
#[export] Instance cmp_by_key {A} (f : A → Z) : Comparator (λ x y, f x - f y)%Z.
Proof. split; intros; lia. Qed.

#[export] Instance cmp_by_key_desc {A} (f : A → Z) : Comparator (λ x y, f y - f x)%Z.
Proof. split; intros; lia. Qed.

Lemma cmp_on {A B} (f : A → B) (c : B → B → Z) `{!Comparator c} : Comparator (λ x y, c (f x) (f y)).
Proof. split; intros; [apply cmp_flip|by eapply cmp_le_trans]. Qed.

(** [a || b] of two comparators: the second decides the ties of the first. *)
Definition cmp_or {A} (c1 c2 : A → A → Z) (x y : A) : Z := if (c1 x y =? 0)%Z then c2 x y else c1 x y.

#[export] Instance cmp_or_comparator {A} (c1 c2 : A → A → Z) `{!Comparator c1, !Comparator c2} :
  Comparator (cmp_or c1 c2).
Proof.
  split; unfold cmp_or.
  - intros a b. pose proof (cmp_flip (cmp := c1) a b). pose proof (cmp_flip (cmp := c1) b a).
    pose proof (cmp_flip (cmp := c2) a b). repeat case_match; zsolve.
  - intros a b c.
    pose proof (cmp_flip (cmp := c1) a b). pose proof (cmp_flip (cmp := c1) b a).
    pose proof (cmp_flip (cmp := c1) b c). pose proof (cmp_flip (cmp := c1) c b).
    pose proof (cmp_flip (cmp := c1) a c). pose proof (cmp_flip (cmp := c1) c a).
    pose proof (cmp_le_trans (cmp := c1) a b c). pose proof (cmp_le_trans (cmp := c1) b c a).
    pose proof (cmp_le_trans (cmp := c1) c a b). pose proof (cmp_le_trans (cmp := c2) a b c).
    repeat case_match; zsolve.
Qed.

Lemma concat_longer {A} (l : list (list A)) x : x ∈ l → length x ≤ length (concat l).
Proof.
  induction l as [|y l IH]; [set_solver|]. simpl. rewrite length_app.
  intros [-> | Hx]%elem_of_cons; [lia|]. specialize (IH Hx). lia.
Qed.

(** A key no row has: one longer than all of them. *)
Lemma longer_fresh {A} (a : A) (l : list (list A)) : a :: concat l ∉ l.
Proof. intros H%concat_longer. simpl in H. lia. Qed.

Lemma filter_none {A} (P : A → Prop) `{!∀ x, Decision (P x)} (l : list A) :
  (∀ a, a ∈ l → ¬ P a) → filter P l = [].
Proof.
  induction l as [|x l IH]; intros Hn; [done|].
  rewrite filter_cons_False by (apply Hn; set_solver). apply IH. set_solver.
Qed.

Lemma sort_by_key_stable {A} (f : A → Z) (l : list A) (k : Z) :
  filter (λ a, f a = k) (sort_by (λ x y, f x - f y)%Z l) = filter (λ a, f a = k) l.
Proof.
  destruct (decide (Exists (λ a, f a = k) l)) as [Hx|Hx].
  - apply Exists_exists in Hx as (x & _ & <-).
    pose proof (sort_by_stable (λ x y, f x - f y)%Z x l) as H. unfold ties in H.
    rewrite !(list_filter_iff (λ y, f x - f y = 0)%Z (λ a, f a = f x)) in H by lia. done.
  - assert (∀ l' : list A, (∀ a, a ∈ l' → a ∈ l) → filter (λ a, f a = k) l' = []) as Hnil.
    { intros l' Hl'. apply filter_none. intros a Ha Hk. apply Hx, Exists_exists.
      exists a. auto. }
    rewrite !Hnil; [done|done|]. intros a. by rewrite elem_of_sort_by.
Qed.

(** In a sorted array, an earlier element never exceeds a later one. *)
Lemma sorted_by_before {A} (cmp : A → A → Z) l1 a l2 b l3 :
  sorted_by cmp (l1 ++ a :: l2 ++ b :: l3) → (cmp a b ≤ 0)%Z.
Proof.
  unfold sorted_by. induction l1 as [|x l1 IH]; simpl; intros H; inversion H as [|?? Hs Hall]; subst.
  - rewrite Forall_forall in Hall. apply Hall. set_solver.
  - by apply IH.
Qed.

Lemma sort_by_ext {A} (cmp cmp' : A → A → Z) l :
  (∀ x y, cmp x y = cmp' x y) → sort_by cmp l = sort_by cmp' l.
Proof.
  intros H. assert (∀ x l, insert_by cmp x l = insert_by cmp' x l) as Hi.
  { intros x l'. induction l' as [|y l' IH]; simpl; [done|]. by rewrite H, IH. }
  induction l as [|x l IH]; simpl; [done|]. by rewrite IH, Hi.
Qed.

(** Sorting and selecting commute. *)
Lemma filter_sort_by {A} (cmp : A → A → Z) `{!Comparator cmp} (P : A → Prop) `{!∀ x, Decision (P x)} l :
  filter P (sort_by cmp l) = sort_by cmp (filter P l).
Proof.
  assert (∀ x l, sorted_by cmp l → filter P (insert_by cmp x l) =
    if decide (P x) then insert_by cmp x (filter P l) else filter P l) as Hi.
  { unfold sorted_by. intros x l'. induction 1 as [|y l' Hl IH Hy]; simpl.
    - rewrite filter_cons, filter_nil. by case_decide.
    - destruct (cmp x y <=? 0)%Z eqn:E.
      + rewrite filter_cons. case_decide; [|done].
        destruct (filter P (y :: l')) as [|z k] eqn:Ez; [done|]. simpl.
        assert (cmp x z ≤ 0)%Z as Hz; [|by rewrite (proj2 (Z.leb_le _ _) Hz)].
        apply Z.leb_le in E. assert (z ∈ y :: l') as [->|Hz]%elem_of_cons; [|done|].
        { assert (z ∈ filter P (y :: l')) as Hz by (rewrite Ez; set_solver).
          by apply list_elem_of_filter in Hz as [_ ?]. }
        rewrite Forall_forall in Hy. eapply cmp_le_trans; eauto.
      + rewrite !filter_cons, IH. destruct (decide (P y)); simpl; rewrite ?E; by case_decide. }
  induction l as [|x l IH]; simpl; [done|].
  rewrite Hi by apply sort_by_sorted, _. rewrite filter_cons, IH. by case_decide.
Qed.

Lemma sort_by_ext_in {A} (cmp cmp' : A → A → Z) l :
  (∀ x y, x ∈ l → y ∈ l → cmp x y = cmp' x y) → sort_by cmp l = sort_by cmp' l.
Proof.
  intros H. induction l as [|x l IH]; simpl; [done|]. rewrite IH by (intros; apply H; set_solver).
  assert (∀ k, (∀ y, y ∈ k → y ∈ l) → insert_by cmp x k = insert_by cmp' x k) as Hi.
  { induction k as [|y k IHk]; intros Hk; simpl; [done|].
    rewrite (H x y) by set_solver. rewrite IHk by set_solver. done. }
  apply Hi. intros y. by rewrite elem_of_sort_by.
Qed.

#[export] Hint Resolve sort_by_perm sort_by_sorted : webmail.

(** ** JavaScript's [Map] and [Set]: insertion-ordered, updated in place *)

Abbreviation jsmap K V := (list (K * V)).

Section JsMap.
Context {K V : Type} `{!EqDecision K}.

Fixpoint jm_get (k : K) (m : jsmap K V) : option V :=
  match m with
  | [] => None
  | (k', v) :: m' => if decide (k = k') then Some v else jm_get k m'
  end.

Definition jm_has (k : K) (m : jsmap K V) : bool := bool_decide (is_Some (jm_get k m)).

(** [map.set(k, v)]: an existing key keeps its position. *)
Fixpoint jm_set (k : K) (v : V) (m : jsmap K V) : jsmap K V :=
  match m with
  | [] => [(k, v)]
  | (k', v') :: m' => if decide (k = k') then (k', v) :: m' else (k', v') :: jm_set k v m'
  end.

Lemma jm_get_set_eq k v m : jm_get k (jm_set k v m) = Some v.
Proof. induction m as [|[k' v'] m IH]; simpl; repeat (case_decide; simpl); done. Qed.

Lemma jm_get_set_ne k k' v m : k ≠ k' → jm_get k' (jm_set k v m) = jm_get k' m.
Proof.
  intros Hne. induction m as [|[k2 v2] m IH]; simpl.
  - by rewrite decide_False by done.
  - case_decide; subst; simpl; repeat case_decide; congruence.
Qed.

Lemma jm_get_set k k' v m :
  jm_get k' (jm_set k v m) = if decide (k = k') then Some v else jm_get k' m.
Proof. case_decide; subst; [apply jm_get_set_eq|by apply jm_get_set_ne]. Qed.

Lemma jm_get_None k m : jm_get k m = None ↔ k ∉ m.*1.
Proof.
  induction m as [|[k' v'] m IH]; csimpl; [set_solver|].
  rewrite not_elem_of_cons, <- IH. case_decide; split; naive_solver.
Qed.

Lemma jm_get_elem_of k v m : jm_get k m = Some v → (k, v) ∈ m.
Proof.
  induction m as [|[k' v'] m IH]; simpl; [done|].
  case_decide; intros; simplify_eq; set_solver.
Qed.

Lemma jm_elem_of_get k v m : NoDup m.*1 → (k, v) ∈ m → jm_get k m = Some v.
Proof.
  induction m as [|[k' v'] m IH]; simpl; [set_solver|].
  rewrite NoDup_cons, elem_of_cons. intros [Hk Hnd] [Heq|Hin]; simplify_eq.
  - by rewrite decide_True.
  - rewrite decide_False; [by apply IH|]. intros ->. apply Hk.
    apply list_elem_of_fmap. by exists (k', v).
Qed.

Lemma jm_set_keys k v m :
  (jm_set k v m).*1 = if decide (k ∈ m.*1) then m.*1 else m.*1 ++ [k].
Proof.
  induction m as [|[k' v'] m IH]; csimpl; [done|].
  destruct (decide (k = k')) as [->|Hne]; csimpl.
  - rewrite decide_True; [done|]. set_solver.
  - rewrite IH. repeat case_decide; set_solver.
Qed.

Lemma jm_set_NoDup k v m : NoDup m.*1 → NoDup (jm_set k v m).*1.
Proof.
  intros Hnd. rewrite jm_set_keys. case_decide; [done|].
  apply NoDup_app. split; [done|]. split; [|apply NoDup_singleton]. set_solver.
Qed.

Lemma jm_set_fresh k v m : k ∉ m.*1 → jm_set k v m = m ++ [(k, v)].
Proof.
  induction m as [|[k' v'] m IH]; simpl; [done|]. rewrite not_elem_of_cons.
  intros [??]. rewrite decide_False by done. by rewrite IH.
Qed.
End JsMap.

Lemma jm_get_map {K V W} `{!EqDecision K} (f : V → W) k (m : jsmap K V) :
  jm_get k (map (λ p, (p.1, f p.2)) m) = f <$> jm_get k m.
Proof. induction m as [|[k' v] m IH]; [done|]. simpl. by case_decide. Qed.

(** [new Set(l)]: the distinct elements, in the order of their first occurrence. *)
Lemma filter_elem {A} (p : A → bool) l x : x ∈ List.filter p l ↔ x ∈ l ∧ p x = true.
Proof. by rewrite list_elem_of_In, List.filter_In, <- list_elem_of_In. Qed.

Lemma existsb_false {A} (p : A → bool) (l : list A) : existsb p l = false → ∀ x, x ∈ l → p x = false.
Proof.
  intros E x Hx. destruct (p x) eqn:Ep; [|done]. rewrite <- E. symmetry. apply existsb_exists. exists x. by rewrite <- list_elem_of_In.
Qed.

Section JsSet.
Context {A : Type} `{!EqDecision A}.

Definition set_add (x : A) (s : list A) : list A := if decide (x ∈ s) then s else s ++ [x].

Definition set_of_list (l : list A) : list A := foldl (λ s x, set_add x s) [] l.

Lemma elem_of_set_add x y s : x ∈ set_add y s ↔ x = y ∨ x ∈ s.
Proof. unfold set_add. case_decide; set_solver. Qed.

Lemma set_add_NoDup x s : NoDup s → NoDup (set_add x s).
Proof.
  intros Hs. unfold set_add. case_decide; [done|]. apply NoDup_app.
  split; [done|]. split; [set_solver|apply NoDup_singleton].
Qed.

Lemma foldl_set_add s l :
  (∀ x, x ∈ foldl (λ s x, set_add x s) s l ↔ x ∈ s ∨ x ∈ l) ∧
  (NoDup s → NoDup (foldl (λ s x, set_add x s) s l)).
Proof.
  revert s. induction l as [|y l IH]; intros s; simpl; [set_solver|].
  destruct (IH (set_add y s)) as [H1 H2]. split.
  - intros x. rewrite H1, elem_of_set_add. set_solver.
  - intros Hs. by apply H2, set_add_NoDup.
Qed.

Lemma elem_of_set_of_list x l : x ∈ set_of_list l ↔ x ∈ l.
Proof. unfold set_of_list. rewrite (proj1 (foldl_set_add [] l)). set_solver. Qed.

Lemma set_of_list_NoDup l : NoDup (set_of_list l).
Proof. apply (foldl_set_add [] l), NoDup_nil_2. Qed.

Lemma foldl_set_add_id s l : NoDup (s ++ l) → foldl (λ s x, set_add x s) s l = s ++ l.
Proof.
  revert s. induction l as [|y l IH]; intros s Hnd; simpl; [by rewrite app_nil_r|].
  unfold set_add at 2. rewrite decide_False.
  - rewrite IH, <- app_assoc; [done|]. by rewrite <- app_assoc.
  - apply NoDup_app in Hnd as (_ & Hd & _). intros Hy. apply (Hd y Hy). set_solver.
Qed.

Lemma set_of_list_id l : NoDup l → set_of_list l = l.
Proof. intros Hl. by apply (foldl_set_add_id []). Qed.
End JsSet.

#[export] Hint Resolve set_of_list_NoDup : webmail.

(** Grouping by a key, as the source does it: [existing = grouped.get(key) || [];
    existing.push(item); grouped.set(key, existing)] for every item. *)
Section GroupBy.
Context {A K : Type} `{!EqDecision K} (key : A → K).

Definition group_add (g : jsmap K (list A)) (a : A) : jsmap K (list A) :=
  jm_set (key a) (default [] (jm_get (key a) g) ++ [a]) g.

Definition group_by (l : list A) : jsmap K (list A) := foldl group_add [] l.

Definition items_of (k : K) (l : list A) : list A := filter (λ a, key a = k) l.

Lemma group_by_get l k :
  jm_get k (group_by l) = if decide (items_of k l = []) then None else Some (items_of k l).
Proof.
  unfold group_by. induction l as [|a l IH] using rev_ind; [done|].
  rewrite foldl_app. simpl. unfold group_add at 1. rewrite jm_get_set. unfold items_of in *.
  rewrite filter_app, filter_cons, filter_nil. destruct (decide (key a = k)) as [<-|Hne].
  - rewrite IH. rewrite (decide_False (P := _ ++ [a] = [])) by (intros [_ ?]%app_eq_nil; done).
    destruct (decide (filter _ l = [])) as [Hd|Hd]; [by rewrite Hd|done].
  - by rewrite app_nil_r.
Qed.

Lemma group_by_keys l : (group_by l).*1 = set_of_list (key <$> l).
Proof.
  unfold group_by, set_of_list. induction l as [|a l IH] using rev_ind; [done|].
  rewrite fmap_app, !foldl_app. simpl. unfold group_add at 1. rewrite jm_set_keys, IH. done.
Qed.
End GroupBy.

(** ** Lists *)

Lemma filter_ext_in {A} (P Q : A → Prop) `{!∀ x, Decision (P x), !∀ x, Decision (Q x)} (l : list A) :
  (∀ x, x ∈ l → P x ↔ Q x) → filter P l = filter Q l.
Proof.
  induction l as [|x l IH]; [done|]. intros HPQ. rewrite !filter_cons, IH by set_solver.
  destruct (HPQ x) as [H1 H2]; [set_solver|]. by repeat case_decide; try tauto.
Qed.

Lemma find_app {A} (p : A → bool) l k :
  List.find p (l ++ k) = match List.find p l with Some x => Some x | None => List.find p k end.
Proof. induction l as [|x l IH]; [done|]. cbn. by destruct (p x). Qed.

Lemma filter_all {A} (P : A → Prop) `{!∀ x, Decision (P x)} (l : list A) :
  (∀ x, x ∈ l → P x) → filter P l = l.
Proof.
  induction l as [|x l IH]; [done|]. intros HP. by rewrite filter_cons, decide_True, IH by set_solver.
Qed.

Lemma map_filter {A B} (f : A → B) (P : A → Prop) (K : B → Prop) `{!∀ x, Decision (P x), !∀ k, Decision (K k)} l :
  (∀ x, P x ↔ K (f x)) → map f (filter P l) = filter K (map f l).
Proof.
  intros HP. induction l as [|x l IH]; [done|]. cbn [map]. rewrite !filter_cons. specialize (HP x).
  repeat case_decide; try tauto; cbn [map]; by rewrite IH.
Qed.

Lemma NoDup_map_filter {A B} (f : A → B) (P : A → Prop) `{!∀ x, Decision (P x)} (l : list A) :
  NoDup (map f l) → NoDup (map f (filter P l)).
Proof.
  induction l as [|x l IH]; simpl; [done|]. intros [Hn Hl]%NoDup_cons. rewrite filter_cons.
  case_decide; [|auto]. simpl. apply NoDup_cons. split; [|auto]. intros (y & E & Hy)%list_elem_of_fmap.
  apply Hn. rewrite E. apply list_elem_of_fmap. exists y. split; [done|]. by apply list_elem_of_filter in Hy as [_ ?].
Qed.

Lemma NoDup_map_inj {A B} (f : A → B) (l : list A) x y :
  NoDup (map f l) → x ∈ l → y ∈ l → f x = f y → x = y.
Proof.
  induction l as [|z l IH]; simpl; [set_solver|]. intros [Hn Hl]%NoDup_cons.
  assert (∀ w, w ∈ l → f w ≠ f z) as Hz.
  { intros w Hw E. apply Hn. rewrite <- E. by apply list_elem_of_fmap_2. }
  intros [-> |Hx]%elem_of_cons [-> |Hy]%elem_of_cons E; auto.
  - by destruct (Hz y).
  - by destruct (Hz x).
Qed.

Lemma Forall2_map_eq {A B C} (f : A → C) (h : B → C) l k :
  Forall2 (λ x y, h y = f x) l k → map h k = map f l.
Proof. induction 1; simpl; by f_equal. Qed.

Lemma mapM_cons_Some {A B} (f : A → option B) x l y k :
  f x = Some y → mapM f l = Some k → mapM f (x :: l) = Some (y :: k).
Proof. intros Hx Hl. simpl. by rewrite Hx, Hl. Qed.

Lemma app_sep_inj {A} (c : A) u v x y :
  c ∉ u → c ∉ v → u ++ c :: x = v ++ c :: y → u = v ∧ x = y.
Proof.
  revert v. induction u as [|a u IH]; intros [|b v]; simpl; rewrite ?not_elem_of_cons;
    naive_solver.
Qed.

(** ** Cascades

    Rows refer to rows of their own kind: [cascade] adds to some keys those of all rows below them, in rounds; as many
    rounds as there are rows are enough, also when the references run in a circle. *)

Section Cascade.
Context {A K : Type} `{!EqDecision K} (key : A → K) (parent : A → option K).

Fixpoint cascade (rounds : nat) (rows : list A) (ks : list K) : list K :=
  match rounds with
  | O => ks
  | S rounds =>
      match List.filter (λ r, negb (bool_decide (key r ∈ ks)) &&
                              match parent r with Some p => bool_decide (p ∈ ks) | None => false end) rows with
      | [] => ks
      | below => cascade rounds rows (ks ++ map key below)
      end
  end.

Definition downwards_closed (rows : list A) (ks : list K) : Prop :=
  ∀ r p, r ∈ rows → parent r = Some p → p ∈ ks → key r ∈ ks.

Definition outside (rows : list A) (ks : list K) : list A := List.filter (λ r, negb (bool_decide (key r ∈ ks))) rows.

Lemma outside_shrinks rows ks ks' r :
  r ∈ outside rows ks → key r ∈ ks' → length (outside rows (ks ++ ks')) < length (outside rows ks).
Proof.
  intros Hr Hin. unfold outside in *.
  assert (List.filter (λ r, negb (bool_decide (key r ∈ ks ++ ks'))) rows =
    List.filter (λ r, negb (bool_decide (key r ∈ ks'))) (List.filter (λ r, negb (bool_decide (key r ∈ ks))) rows)) as ->.
  { clear. induction rows as [|b l IH]; [done|]. simpl. rewrite IH. clear IH.
    destruct (bool_decide (key b ∈ ks)) eqn:E; bool_to_prop; simpl.
    - by rewrite bool_decide_true by set_solver.
    - by rewrite (bool_decide_ext (key b ∈ ks ++ ks') (key b ∈ ks')) by set_solver. }
  revert Hr. induction (List.filter _ rows) as [|b l IH]; [by intros ?%elem_of_nil|]. simpl.
  intros [-> | Hr]%elem_of_cons.
  - rewrite (bool_decide_true (key b ∈ ks')) by done. simpl. apply Nat.lt_succ_r, List.filter_length_le.
  - specialize (IH Hr). destruct (negb _); simpl; lia.
Qed.

Lemma cascade_closed_from rounds rows ks :
  length (outside rows ks) ≤ rounds → downwards_closed rows (cascade rounds rows ks).
Proof.
  revert ks. induction rounds as [|rounds IH]; intros ks Hf; cbn [cascade].
  - intros r p Hr _ _. destruct (decide (key r ∈ ks)) as [|Hn]; [done|]. exfalso.
    assert (r ∈ outside rows ks) as Hin.
    { apply list_elem_of_In, List.filter_In. split; [by apply list_elem_of_In|]. by rewrite bool_decide_false. }
    destruct (outside rows ks); [by apply elem_of_nil in Hin|simpl in Hf; lia].
  - destruct (List.filter _ rows) as [|x below] eqn:E.
    + intros r p Hr Hp Hin. destruct (decide (key r ∈ ks)) as [|Hn]; [done|]. exfalso.
      assert (In r []) as []. rewrite <- E. apply List.filter_In. split; [by apply list_elem_of_In|].
      by rewrite Hp, bool_decide_false, bool_decide_true.
    + apply IH. assert (length (outside rows (ks ++ map key (x :: below))) < length (outside rows ks)) as Hlt; [|lia].
      assert (In x (x :: below)) as Hx by by left. rewrite <- E in Hx. apply List.filter_In in Hx as [Hx Hc].
      apply andb_prop in Hc as [Hc _]. apply outside_shrinks with (r := x); [|set_solver].
      apply list_elem_of_In, List.filter_In. done.
Qed.

Lemma cascade_closed rows ks : downwards_closed rows (cascade (length rows) rows ks).
Proof. apply cascade_closed_from. unfold outside. apply List.filter_length_le. Qed.

Lemma cascade_start rounds rows ks k : k ∈ ks → k ∈ cascade rounds rows ks.
Proof.
  revert ks. induction rounds as [|rounds IH]; intros ks Hk; cbn [cascade]; [done|].
  destruct (List.filter _ rows); [done|]. apply IH, elem_of_app. by left.
Qed.
End Cascade.
