(* ===== verification/JsString.v ===== *)
(** * JavaScript strings

    A string is the list of its code units.  The code units are those of Latin-1 (0 to 255):
    that covers every header name, separator and pattern of the source, and the operations
    below agree with ECMAScript on it, except that [toUpperCase] leaves U+00B5 and U+00FF
    (whose upper-case forms are outside Latin-1) alone. *)

From stdpp Require Import base list.
From Stdlib Require Import Strings.Byte.
From S2P Require Import Prelude.

Abbreviation jsstr := (list ascii).

(** String literals: ["Inbox"%js]. *)
Inductive lit : Set := LNil | LCons (a : ascii) (l : lit).

Definition lit_of_bytes (l : list Byte.byte) : lit :=
  foldr (λ b, LCons (ascii_of_byte b)) LNil l.

Fixpoint bytes_of_lit (l : lit) : list Byte.byte :=
  match l with LNil => [] | LCons a l => byte_of_ascii a :: bytes_of_lit l end.

Definition bytes_of_lit_opt (l : lit) : option (list Byte.byte) := Some (bytes_of_lit l).

Declare Scope js_scope.
Delimit Scope js_scope with js.
#[warnings="-via-type-mismatch"]
String Notation list lit_of_bytes bytes_of_lit_opt
  (via lit mapping [[nil] => LNil, [cons] => LCons]) : js_scope.

(** ** Characters *)

Definition code (a : ascii) : Z := Z.of_N (N_of_ascii a).
Definition of_code (z : Z) : ascii := ascii_of_N (Z.to_N z).

Definition in_range (lo hi : Z) (a : ascii) : bool := ((lo <=? code a) && (code a <=? hi))%Z.

Definition is_upper (a : ascii) : bool :=
  in_range 65 90 a || in_range 192 214 a || in_range 216 222 a.
Definition is_lower (a : ascii) : bool :=
  in_range 97 122 a || in_range 224 246 a || in_range 248 254 a.

Definition lower (a : ascii) : ascii := if is_upper a then of_code (code a + 32) else a.

(** U+00DF expands to two letters. *)
Definition upper (a : ascii) : jsstr :=
  if is_lower a then [of_code (code a - 32)] else if (code a =? 223)%Z then "SS"%js else [a].

(** WhiteSpace and LineTerminator: the class [\s], and what [trim] removes. *)
Definition is_space (a : ascii) : bool :=
  in_range 9 13 a || (code a =? 32)%Z || (code a =? 160)%Z.

Definition is_digit : ascii → bool := in_range 48 57.
Definition is_ascii_upper : ascii → bool := in_range 65 90.
Definition is_ascii_lower : ascii → bool := in_range 97 122.
Definition is_word (a : ascii) : bool :=
  is_digit a || is_ascii_upper a || is_ascii_lower a || (code a =? 95)%Z.

Definition is_ch (c a : ascii) : bool := bool_decide (a = c).
Definition is_one_of (cs : jsstr) (a : ascii) : bool := bool_decide (a ∈ cs).

(** The quotation mark, the line feed, the carriage return. *)
Definition dquote : ascii := of_code 34.
Definition newline : ascii := of_code 10.
Definition creturn : ascii := of_code 13.

(** ** Methods of [String.prototype] *)

(** A string is truthy unless it is empty. *)
Definition truthy (s : jsstr) : bool := match s with [] => false | _ => true end.

(** [a || b] on strings. *)
Definition js_or (a b : jsstr) : jsstr := if truthy a then a else b.

(** [s || undefined]. *)
Definition or_undefined (s : jsstr) : option jsstr := if truthy s then Some s else None.

(** [o || b] on an optional string, [o ?? b]. *)
Definition opt_or (o : option jsstr) (b : jsstr) : jsstr :=
  match o with Some s => js_or s b | None => b end.

(** An optional string in a condition. *)
Definition opt_truthy (o : option jsstr) : bool := match o with Some s => truthy s | None => false end.

Definition toLowerCase (s : jsstr) : jsstr := lower <$> s.
Definition toUpperCase (s : jsstr) : jsstr := flat_map upper s.

Fixpoint trim_start (s : jsstr) : jsstr :=
  match s with a :: s' => if is_space a then trim_start s' else s | [] => [] end.

Definition trim_end (s : jsstr) : jsstr := reverse (trim_start (reverse s)).
Definition trim (s : jsstr) : jsstr := trim_end (trim_start s).

(** [s.substring(i, j)]: both arguments clamped to the string, then swapped if needed. *)
Definition clamp (z : Z) (n : nat) : nat := Nat.min (Z.to_nat z) n.

Definition substring (s : jsstr) (i j : Z) : jsstr :=
  let a := clamp i (length s) in
  let b := clamp j (length s) in
  take (Nat.max a b - Nat.min a b) (drop (Nat.min a b) s).

Definition substring_from (s : jsstr) (i : Z) : jsstr := drop (clamp i (length s)) s.

(** [s.slice(i, j)]: negative arguments count from the end. *)
Definition rel_index (z : Z) (n : nat) : nat :=
  if (z <? 0)%Z then Z.to_nat (Z.of_nat n + z) else Nat.min (Z.to_nat z) n.

Definition slice (s : jsstr) (i j : Z) : jsstr :=
  let a := rel_index i (length s) in take (rel_index j (length s) - a) (drop a s).

Definition slice_from (s : jsstr) (i : Z) : jsstr := drop (rel_index i (length s)) s.

Fixpoint startsWith (s p : jsstr) {struct p} : bool :=
  match p, s with
  | [], _ => true
  | a :: p', b :: s' => bool_decide (a = b) && startsWith s' p'
  | _, [] => false
  end.

Definition endsWith (s p : jsstr) : bool := startsWith (reverse s) (reverse p).

Fixpoint indexOf (s p : jsstr) : option nat :=
  if startsWith s p then Some 0
  else match s with [] => None | _ :: s' => S <$> indexOf s' p end.

Definition includes (s p : jsstr) : bool := bool_decide (is_Some (indexOf s p)).

(** [s.replace(p, w)] for a string [p]: the first occurrence only. *)
Definition replace_first (p w s : jsstr) : jsstr :=
  match indexOf s p with
  | Some i => take i s ++ w ++ drop (i + length p) s
  | None => s
  end.

(** The position of the last occurrence of a character. *)
Fixpoint lastIndexOf (s : jsstr) (c : ascii) : option nat :=
  match s with
  | [] => None
  | a :: s' =>
      match lastIndexOf s' c with
      | Some n => Some (S n)
      | None => if decide (a = c) then Some 0 else None
      end
  end.

(** [s.split(c)] for a one-character separator: never empty. *)
Fixpoint split (c : ascii) (s : jsstr) : list jsstr :=
  match s with
  | [] => [[]]
  | a :: s' =>
      if decide (a = c) then [] :: split c s'
      else match split c s' with w :: ws => (a :: w) :: ws | [] => [[a]] end
  end.

Fixpoint join (sep : jsstr) (l : list jsstr) : jsstr :=
  match l with
  | [] => []
  | [w] => w
  | w :: ws => w ++ sep ++ join sep ws
  end.

(** The maximal runs of characters outside [p], in order ([cur] is the run being read). *)
Fixpoint runs (p : ascii → bool) (s cur : jsstr) : list jsstr :=
  match s with
  | [] => if decide (cur = []) then [] else [cur]
  | a :: s =>
      if p a then (if decide (cur = []) then [] else [cur]) ++ runs p s []
      else runs p s (cur ++ [a])
  end.

Definition padStart (n : nat) (c : ascii) (s : jsstr) : jsstr := replicate (n - length s) c ++ s.

(** A string between quotation marks, in messages. *)
Definition quoted (s : jsstr) : jsstr := dquote :: s ++ [dquote].

(** ** Integers in decimal *)

Definition digit_char (n : Z) : ascii := of_code (48 + n).
Definition digit_val (a : ascii) : Z := (code a - 48)%Z.

Fixpoint dec_digits (fuel : nat) (n : Z) (acc : jsstr) : jsstr :=
  match fuel with
  | O => acc
  | S f =>
      let acc' := digit_char (n `mod` 10) :: acc in
      if (n <? 10)%Z then acc' else dec_digits f (n `div` 10) acc'
  end.

(** [String(n)] of an integer below 10^21 in absolute value; the number of binary digits of
    [n] is fuel enough for its decimal digits. *)
Definition nat_to_str (n : Z) : jsstr := dec_digits (S (Z.to_nat (Z.log2 n))) n [].
Definition int_to_str (z : Z) : jsstr :=
  if (z <? 0)%Z then "-"%js ++ nat_to_str (- z) else nat_to_str z.

Definition digits_to_int (s : jsstr) : Z := foldl (λ n a, 10 * n + digit_val a)%Z 0%Z s.

Fixpoint span {A} (p : A → bool) (l : list A) : list A * list A :=
  match l with
  | a :: l' => if p a then let '(u, v) := span p l' in (a :: u, v) else ([], l)
  | [] => ([], [])
  end.

(** [parseInt(s, 10)]: [None] is NaN. *)
Definition parse_digits (s : jsstr) : option Z :=
  match (span is_digit s).1 with [] => None | ds => Some (digits_to_int ds) end.

Definition parseInt (s : jsstr) : option Z :=
  match trim_start s with
  | a :: s' =>
      if decide (a = "-"%char) then Z.opp <$> parse_digits s'
      else if decide (a = "+"%char) then parse_digits s'
      else parse_digits (a :: s')
  | [] => None
  end.

(** ** Lemmas: characters

    A boolean fact about every character is checked by running it on all 256. *)

Lemma ascii_check (p : ascii → bool) :
  forallb p (map ascii_of_nat (seq 0 256)) = true → ∀ a, p a = true.
Proof.
  intros H a. rewrite forallb_forall in H. apply H. apply in_map_iff.
  exists (nat_of_ascii a). split; [apply ascii_nat_embedding|].
  apply in_seq. pose proof (nat_ascii_bounded a). lia.
Qed.

Ltac by_ascii p := apply (ascii_check p); vm_compute; reflexivity.

Lemma lower_idemp a : lower (lower a) = lower a.
Proof.
  apply (bool_decide_unpack _). apply Is_true_true.
  by_ascii (λ a, bool_decide (lower (lower a) = lower a)).
Qed.

Lemma lower_space a : is_space (lower a) = is_space a.
Proof.
  apply eqb_prop. by_ascii (λ a, Bool.eqb (is_space (lower a)) (is_space a)).
Qed.

Lemma code_of_code z : (0 ≤ z < 256)%Z → code (of_code z) = z.
Proof. intros Hz. unfold code, of_code. rewrite N_ascii_embedding; lia. Qed.

Lemma digit_val_char n : (0 ≤ n < 10)%Z → digit_val (digit_char n) = n.
Proof. intros Hn. unfold digit_val, digit_char. rewrite code_of_code; lia. Qed.

Lemma is_digit_char n : (0 ≤ n < 10)%Z → is_digit (digit_char n) = true.
Proof.
  intros Hn. unfold is_digit, in_range, digit_char. rewrite code_of_code by lia.
  apply andb_true_intro. split; apply Z.leb_le; lia.
Qed.

Lemma digit_not_space a : is_digit a = true → is_space a = false.
Proof.
  intros H. apply negb_true_iff. revert H. apply implb_true_iff.
  by_ascii (λ a, implb (is_digit a) (negb (is_space a))).
Qed.

Lemma digit_not_sign a : is_digit a = true → a ≠ "-"%char ∧ a ≠ "+"%char.
Proof. intros H. by split; intros ->. Qed.

(** ** Lemmas: case, trimming, truthiness *)

Lemma truthy_spec s : truthy s = true ↔ s ≠ [].
Proof. by destruct s. Qed.

Lemma truthy_false s : truthy s = false ↔ s = [].
Proof. by destruct s. Qed.

Lemma toLowerCase_idemp s : toLowerCase (toLowerCase s) = toLowerCase s.
Proof.
  unfold toLowerCase. rewrite <- list_fmap_compose. apply list_fmap_ext.
  intros ? a _. apply lower_idemp.
Qed.

Lemma toLowerCase_app s t : toLowerCase (s ++ t) = toLowerCase s ++ toLowerCase t.
Proof. apply fmap_app. Qed.

Lemma toLowerCase_length s : length (toLowerCase s) = length s.
Proof. apply length_fmap. Qed.

Lemma toLowerCase_reverse s : toLowerCase (reverse s) = reverse (toLowerCase s).
Proof. apply fmap_reverse. Qed.

Lemma trim_start_lower s : trim_start (toLowerCase s) = toLowerCase (trim_start s).
Proof. induction s as [|a s IH]; csimpl; [done|]. rewrite lower_space. by case_if. Qed.

Lemma trim_lower s : trim (toLowerCase s) = toLowerCase (trim s).
Proof.
  unfold trim, trim_end.
  by rewrite trim_start_lower, <- toLowerCase_reverse, trim_start_lower, toLowerCase_reverse.
Qed.

Lemma trim_start_id a s : is_space a = false → trim_start (a :: s) = a :: s.
Proof. simpl. by intros ->. Qed.

Lemma trim_start_split s :
  ∃ w, s = w ++ trim_start s ∧ Forall (λ a, is_space a = true) w.
Proof.
  induction s as [|a s (w & Hs & Hw)]; simpl; [by exists []|].
  destruct (is_space a) eqn:E.
  - exists (a :: w). simpl. rewrite <- Hs. auto.
  - by exists [].
Qed.

Lemma trim_start_hd s a s' : trim_start s = a :: s' → is_space a = false.
Proof.
  induction s as [|b s IH]; simpl; [done|]. case_if; [done|]. intros. by simplify_eq.
Qed.

Lemma trim_start_idemp s : trim_start (trim_start s) = trim_start s.
Proof.
  destruct (trim_start s) as [|a s'] eqn:E; [done|]. by apply trim_start_id, trim_start_hd with s s'.
Qed.

(** A string that neither starts nor ends with white space is its own trim. *)
Definition no_edge_space (s : jsstr) : Prop :=
  (∀ a, head s = Some a → is_space a = false) ∧ (∀ a, last s = Some a → is_space a = false).

Lemma trim_start_no_edge s : (∀ a, head s = Some a → is_space a = false) → trim_start s = s.
Proof. destruct s as [|a s]; [done|]. intros H. by apply trim_start_id, H. Qed.

Lemma trim_no_edge s : no_edge_space s → trim s = s.
Proof.
  intros [Hh Hl]. unfold trim, trim_end. rewrite (trim_start_no_edge s) by done.
  rewrite trim_start_no_edge; [apply reverse_involutive|].
  intros a Ha. apply Hl. by rewrite head_reverse in Ha.
Qed.

Lemma trim_start_last s a : last (trim_start s) = Some a → last s = Some a.
Proof.
  induction s as [|b s IH]; simpl; [done|]. case_if; [|done].
  intros H%IH. by destruct s.
Qed.

Lemma trim_edges s : no_edge_space (trim s).
Proof.
  unfold trim, trim_end. set (t := trim_start s). split.
  - intros a Ha. rewrite head_reverse in Ha. apply trim_start_last in Ha.
    rewrite last_reverse in Ha. destruct t as [|b t'] eqn:E; [done|]. simpl in Ha.
    simplify_eq. by apply (trim_start_hd s a t').
  - intros a Ha. rewrite last_reverse in Ha.
    destruct (trim_start (reverse t)) as [|b r] eqn:E; [done|]. simpl in Ha. simplify_eq.
    by apply trim_start_hd in E.
Qed.

Lemma trim_idemp s : trim (trim s) = trim s.
Proof. apply trim_no_edge, trim_edges. Qed.

Lemma trim_start_nil s : trim_start s = [] ↔ Forall (λ a, is_space a = true) s.
Proof.
  induction s as [|a s IH]; simpl; [by split; constructor|].
  rewrite Forall_cons. destruct (is_space a) eqn:E; [naive_solver|]. naive_solver.
Qed.

Lemma trim_nil s : trim s = [] ↔ Forall (λ a, is_space a = true) s.
Proof.
  unfold trim, trim_end.
  assert (∀ t : jsstr, reverse t = [] ↔ t = []) as Hr.
  { intros t. split; [|by intros ->]. intros H. by rewrite <- (reverse_involutive t), H. }
  rewrite Hr, trim_start_nil, Forall_reverse, <- trim_start_nil, trim_start_idemp.
  apply trim_start_nil.
Qed.

#[export] Hint Rewrite toLowerCase_idemp trim_idemp toLowerCase_length : webmail.

(** ** Lemmas: searching *)

Lemma startsWith_spec s p : startsWith s p = true ↔ p `prefix_of` s.
Proof.
  revert s. induction p as [|a p IH]; intros s; simpl.
  - split; [intros _; apply prefix_nil|by intros _].
  - destruct s as [|b s]; simpl.
    + split; [done|]. by intros ?%prefix_nil_not.
    + rewrite andb_true_iff, bool_decide_eq_true, IH.
      split; [intros [-> ?]; by apply prefix_cons|].
      intros H. split; [by apply prefix_cons_inv_1 in H|by apply prefix_cons_inv_2 in H].
Qed.

Lemma endsWith_spec s p : endsWith s p = true ↔ p `suffix_of` s.
Proof. unfold endsWith. by rewrite startsWith_spec, <- suffix_prefix_reverse. Qed.

Lemma indexOf_Some s p n :
  indexOf s p = Some n → p `prefix_of` drop n s ∧ ∀ m, m < n → ¬ p `prefix_of` drop m s.
Proof.
  revert n. induction s as [|a s IH]; intros n; simpl;
    destruct (startsWith _ p) eqn:E; intros H; simplify_eq.
  1, 2: apply startsWith_spec in E; by split; [|lia].
  apply fmap_Some in H as (m & Hm & ->). destruct (IH m Hm) as [H1 H2].
  split; [done|]. intros [|k] Hk; simpl.
  - rewrite <- startsWith_spec. by rewrite E.
  - apply H2. lia.
Qed.

Lemma indexOf_None s p n : indexOf s p = None → ¬ p `prefix_of` drop n s.
Proof.
  revert n. induction s as [|a s IH]; intros n; simpl;
    destruct (startsWith _ p) eqn:E; intros H; simplify_eq.
  - rewrite drop_nil, <- startsWith_spec. by rewrite E.
  - apply fmap_None in H. destruct n; simpl; [|by apply IH].
    rewrite <- startsWith_spec. by rewrite E.
Qed.

Lemma includes_spec s p : includes s p = true ↔ ∃ u v, s = u ++ p ++ v.
Proof.
  unfold includes. rewrite bool_decide_eq_true. split.
  - intros [n Hn]. apply indexOf_Some in Hn as [[v Hv] _].
    exists (take n s), v. by rewrite <- Hv, take_drop.
  - intros (u & v & ->). destruct (indexOf _ p) eqn:E; [by eexists|].
    exfalso. apply (indexOf_None _ _ (length u) E). rewrite drop_app_length. by exists v.
Qed.

Lemma includes_nil s : includes s [] = true.
Proof. apply includes_spec. by exists [], s. Qed.

Lemma includes_refl s : includes s s = true.
Proof. apply includes_spec. exists [], []. by rewrite app_nil_r. Qed.

Lemma startsWith_includes s p : startsWith s p = true → includes s p = true.
Proof. rewrite startsWith_spec, includes_spec. intros [v ->]. by exists [], v. Qed.

Lemma endsWith_includes s p : endsWith s p = true → includes s p = true.
Proof.
  rewrite endsWith_spec, includes_spec. intros [u ->]. exists u, []. by rewrite app_nil_r.
Qed.

Lemma lastIndexOf_None s c : lastIndexOf s c = None ↔ c ∉ s.
Proof.
  induction s as [|a s IH]; simpl; [set_solver|].
  rewrite not_elem_of_cons. destruct (lastIndexOf s c); [naive_solver|].
  case_decide; naive_solver.
Qed.

Lemma lastIndexOf_app s c t : c ∉ t → lastIndexOf (s ++ c :: t) c = Some (length s).
Proof.
  intros Ht. induction s as [|a s IH]; simpl; [|by rewrite IH].
  apply lastIndexOf_None in Ht. rewrite Ht. by rewrite decide_True.
Qed.

Lemma includes_elem s a : includes s [a] = true ↔ a ∈ s.
Proof.
  rewrite includes_spec. split; [intros (u & v & ->); set_solver|].
  intros (u & v & ->)%list_elem_of_split. by exists u, v.
Qed.

Lemma elem_of_trim (s : jsstr) a : a ∈ s → is_space a = false → a ∈ trim s.
Proof.
  intros Hs Ha. assert (∀ t, a ∈ t → a ∈ trim_start t) as Hstart.
  { intros t. induction t as [|b t IH]; simpl; [done|]. rewrite elem_of_cons.
    intros [->|?]; [rewrite Ha; set_solver|]. case_if; set_solver. }
  unfold trim, trim_end. apply elem_of_reverse, Hstart, elem_of_reverse, Hstart, Hs.
Qed.

Lemma replace_first_id p w s : includes s p = false → replace_first p w s = s.
Proof.
  unfold includes, replace_first. rewrite bool_decide_eq_false.
  destruct (indexOf s p); [|done]. intros H. by destruct H.
Qed.

(** A text without one of the characters of [p] is left alone. *)
Lemma replace_first_fresh a p w s : a ∈ p → a ∉ s → replace_first p w s = s.
Proof.
  intros Hp Hs. apply replace_first_id. apply not_true_iff_false.
  rewrite includes_spec. intros (u & v & ->). set_solver.
Qed.

Lemma replace_first_prefix p w s : replace_first p w (p ++ s) = w ++ s.
Proof.
  unfold replace_first. assert (indexOf (p ++ s) p = Some 0) as ->.
  { assert (startsWith (p ++ s) p = true) as H by (apply startsWith_spec; by exists s).
    destruct (p ++ s); simpl in *; by rewrite H. }
  simpl. by rewrite drop_app_length.
Qed.

(** ** Lemmas: substrings *)

Lemma take_clamp n (s : jsstr) : take (Nat.min n (length s)) s = take n s.
Proof.
  destruct (Nat.min_spec n (length s)) as [[_ ->]|[H ->]]; [done|]. by rewrite firstn_all, take_ge.
Qed.

Lemma substring_prefix s n : substring s 0 n = take (Z.to_nat n) s.
Proof.
  unfold substring, clamp. cbv zeta. change (Z.to_nat 0) with 0.
  by rewrite Nat.min_0_l, Nat.max_0_l, Nat.min_0_l, Nat.sub_0_r, drop_0, take_clamp.
Qed.

Lemma trim_skip w s : Forall (λ a, is_space a = true) w → trim (w ++ s) = trim s.
Proof.
  intros Hw. unfold trim. f_equal. induction Hw as [|a w Ha Hw IH]; simpl; [done|].
  by rewrite Ha.
Qed.

(** ** Lemmas: splitting and joining *)

Lemma split_not_nil c s : split c s ≠ [].
Proof. destruct s as [|a s]; simpl; [done|]. case_decide; [done|]. by destruct (split c s). Qed.

Lemma split_no_sep c s : c ∉ s → split c s = [s].
Proof.
  induction s as [|a s IH]; simpl; [done|]. rewrite not_elem_of_cons. intros [? ?].
  rewrite decide_False by done. by rewrite IH.
Qed.

Lemma split_app_sep c s t : c ∉ s → split c (s ++ c :: t) = s :: split c t.
Proof.
  induction s as [|a s IH]; simpl; [by rewrite decide_True|].
  rewrite not_elem_of_cons. intros [? ?]. rewrite decide_False by done. by rewrite IH.
Qed.

Lemma split_join c ws : ws ≠ [] → Forall (λ w, c ∉ w) ws → split c (join [c] ws) = ws.
Proof.
  intros Hne. induction 1 as [|w ws Hw Hws IH]; [done|]. destruct ws as [|w' ws]; simpl.
  - by apply split_no_sep.
  - rewrite split_app_sep by done. f_equal. by apply IH.
Qed.

Lemma join_cons sep (w : jsstr) ws :
  join sep (w :: ws) = w ++ match ws with [] => [] | _ => sep ++ join sep ws end.
Proof. destruct ws; simpl; [by rewrite app_nil_r|done]. Qed.

Lemma join_Forall (P : ascii → Prop) sep ws :
  Forall P sep → (∀ w, w ∈ ws → Forall P w) → Forall P (join sep ws).
Proof.
  intros Hsep. induction ws as [|w ws IH]; intros Hws; [constructor|]. rewrite join_cons.
  apply Forall_app. split; [apply Hws; set_solver|]. destruct ws; [constructor|].
  apply Forall_app. split; [done|]. apply IH. set_solver.
Qed.

Lemma join_split c s : join [c] (split c s) = s.
Proof.
  induction s as [|a s IH]; simpl; [done|]. pose proof (split_not_nil c s) as Hne.
  case_decide as Ha; [subst|].
  - simpl. destruct (split c s); [done|]. by rewrite IH.
  - destruct (split c s) as [|w [|w' ws]]; [done| |]; simpl in *; by rewrite <- IH.
Qed.

Lemma runs_not_nil p s cur : cur ≠ [] → runs p s cur ≠ [].
Proof.
  revert cur. induction s as [|a s IH]; intros cur Hc; simpl; [by rewrite decide_False|].
  destruct (p a); [by rewrite decide_False by done|]. apply IH. by destruct cur.
Qed.

Lemma runs_spec p s cur w :
  Forall (λ a, p a = false) cur → w ∈ runs p s cur → w ≠ [] ∧ Forall (λ a, p a = false) w.
Proof.
  revert cur. induction s as [|a s IH]; intros cur Hcur; simpl.
  - case_decide; [set_solver|]. by intros ->%list_elem_of_singleton.
  - destruct (p a) eqn:Ea.
    + intros [Hw|Hw]%elem_of_app; [|by apply (IH [])].
      case_decide; [set_solver|]. by apply list_elem_of_singleton in Hw as ->.
    + apply IH. apply Forall_app. auto.
Qed.

(** The runs of joined runs are the runs. *)
Lemma runs_skip p w s cur :
  Forall (λ a, p a = false) w → runs p (w ++ s) cur = runs p s (cur ++ w).
Proof.
  intros Hw. revert cur. induction Hw as [|a w Ha Hw IH]; intros cur; simpl; [by rewrite app_nil_r|].
  rewrite Ha, IH. by rewrite <- app_assoc.
Qed.

Lemma runs_join p ws :
  p "-"%char = true → (∀ w, w ∈ ws → w ≠ [] ∧ Forall (λ a, p a = false) w) →
  runs p (join "-"%js ws) [] = ws.
Proof.
  intros Hp. induction ws as [|w ws IH]; intros Hws; [done|].
  destruct (Hws w) as [Hne Hw]; [set_solver|]. rewrite join_cons, runs_skip by done.
  destruct ws as [|w' ws]; simpl; [by rewrite decide_False|].
  rewrite Hp, decide_False by done. simpl. f_equal. apply IH. set_solver.
Qed.

Lemma split_Forall_no_sep c s : Forall (λ w, c ∉ w) (split c s).
Proof.
  induction s as [|a s IH]; simpl; [repeat constructor; set_solver|].
  case_decide; [constructor; [set_solver|done]|].
  destruct (split c s) as [|w ws]; [repeat constructor; set_solver|].
  inversion_clear IH. constructor; [|done]. set_solver.
Qed.

Lemma span_app {A} (p : A → bool) u v :
  Forall (λ a, p a = true) u → (∀ a, head v = Some a → p a = false) →
  span p (u ++ v) = (u, v).
Proof.
  intros Hu Hv. induction Hu as [|a u Ha Hu IH]; simpl.
  - destruct v as [|b v]; [done|]. simpl. by rewrite (Hv b eq_refl).
  - by rewrite Ha, IH.
Qed.

(** ** Lemmas: decimal round trip *)

Lemma digits_to_int_app s a :
  digits_to_int (s ++ [a]) = (10 * digits_to_int s + digit_val a)%Z.
Proof. unfold digits_to_int. by rewrite foldl_app. Qed.

Lemma dec_digits_spec fuel n acc :
  (0 ≤ n < 10 ^ Z.of_nat fuel)%Z →
  ∃ ds, dec_digits fuel n acc = ds ++ acc ∧ digits_to_int ds = n ∧
        Forall (λ a, is_digit a = true) ds ∧ (0 < fuel → ds ≠ []).
Proof.
  revert n acc. induction fuel as [|f IH]; intros n acc Hn; simpl.
  - exists []. repeat split; [|done|lia]. simpl in Hn. change (digits_to_int []) with 0%Z. lia.
  - pose proof (Z.mod_pos_bound n 10 ltac:(lia)) as Hm.
    pose proof (Z.div_mod n 10 ltac:(lia)) as Hd.
    destruct (n <? 10)%Z eqn:E; zsolve.
    + exists [digit_char (n mod 10)]. rewrite Z.mod_small by lia.
      repeat split; [|repeat constructor; apply is_digit_char; lia|done].
      unfold digits_to_int. simpl. rewrite digit_val_char; lia.
    + destruct (IH (n / 10)%Z (digit_char (n mod 10) :: acc)) as (ds & -> & Hv & Hds & _).
      { split; [apply Z.div_pos; lia|]. apply Z.div_lt_upper_bound; [lia|].
        rewrite Nat2Z.inj_succ, Z.pow_succ_r in Hn; lia. }
      exists (ds ++ [digit_char (n mod 10)]). split; [by rewrite <- app_assoc|].
      split; [|split; [|intros _; by destruct ds]].
      * rewrite digits_to_int_app, digit_val_char by lia. lia.
      * apply Forall_app. split; [done|]. repeat constructor. apply is_digit_char; lia.
Qed.

Lemma log2_fuel_enough n : (0 ≤ n)%Z → (n < 10 ^ Z.of_nat (S (Z.to_nat (Z.log2 n))))%Z.
Proof.
  intros Hn. destruct (Z.eq_dec n 0) as [->|]; [vm_compute; done|].
  pose proof (Z.log2_spec n ltac:(lia)) as [_ H].
  eapply Z.lt_le_trans; [exact H|]. rewrite Nat2Z.inj_succ, Z2Nat.id by apply Z.log2_nonneg.
  apply Z.pow_le_mono_l. lia.
Qed.

Lemma nat_to_str_spec n :
  (0 ≤ n)%Z →
  digits_to_int (nat_to_str n) = n ∧ Forall (λ a, is_digit a = true) (nat_to_str n) ∧
  nat_to_str n ≠ [].
Proof.
  intros Hn. unfold nat_to_str.
  destruct (dec_digits_spec (S (Z.to_nat (Z.log2 n))) n []) as (ds & -> & ? & ? & Hne).
  { split; [done|]. by apply log2_fuel_enough. }
  rewrite app_nil_r. repeat split; [done|done|]. apply Hne. lia.
Qed.

Lemma span_digits_all s :
  Forall (λ a, is_digit a = true) s → (span is_digit s).1 = s.
Proof. intros Hs. by rewrite <- (app_nil_r s) at 1; rewrite span_app. Qed.

Lemma parse_digits_nat n : (0 ≤ n)%Z → parse_digits (nat_to_str n) = Some n.
Proof.
  intros Hn. destruct (nat_to_str_spec n Hn) as (Hv & Hd & Hne).
  unfold parse_digits. rewrite span_digits_all by done. rewrite <- Hv at 2.
  by destruct (nat_to_str n).
Qed.

Lemma nat_to_str_cons n : (0 ≤ n)%Z → ∃ a s, nat_to_str n = a :: s ∧ is_digit a = true.
Proof.
  intros Hn. destruct (nat_to_str_spec n Hn) as (_ & Hd & Hne).
  destruct (nat_to_str n) as [|a s]; [done|]. inversion Hd. eauto.
Qed.

(** Printing an integer and parsing it back is the identity. *)
Lemma parseInt_int_to_str z : parseInt (int_to_str z) = Some z.
Proof.
  unfold int_to_str. destruct (z <? 0)%Z eqn:E; zsolve.
  - unfold parseInt. simpl. rewrite parse_digits_nat by lia. simpl. f_equal. lia.
  - destruct (nat_to_str_cons z E) as (a & s & Hs & Ha). unfold parseInt.
    rewrite Hs, trim_start_id by (by apply digit_not_space).
    destruct (digit_not_sign a Ha). rewrite !decide_False by done.
    rewrite <- Hs. by apply parse_digits_nat.
Qed.

Lemma int_to_str_chars z : Forall (λ a, is_digit a = true ∨ a = "-"%char) (int_to_str z).
Proof.
  assert (∀ n, (0 ≤ n)%Z → Forall (λ a, is_digit a = true ∨ a = "-"%char) (nat_to_str n)).
  { intros n Hn. destruct (nat_to_str_spec n Hn) as (_ & Hd & _).
    eapply Forall_impl; [exact Hd|]. auto. }
  unfold int_to_str. destruct (z <? 0)%Z eqn:E; zsolve; [|by apply H].
  simpl. constructor; [by right|]. apply H. lia.
Qed.

Lemma int_to_str_not_nil z : int_to_str z ≠ [].
Proof.
  unfold int_to_str. destruct (z <? 0)%Z eqn:E; zsolve; [done|].
  by destruct (nat_to_str_cons z E) as (a & s & -> & _).
Qed.

#[export] Hint Resolve includes_nil includes_refl split_not_nil : webmail.

(** ** Tactics *)

(** Evaluate the string comparisons between literals, then split on the others. *)
Ltac decide_closed :=
  repeat match goal with
  | |- context [@bool_decide ?P ?D] =>
      let b := eval vm_compute in (@bool_decide P D) in
      lazymatch b with
      | true => change (@bool_decide P D) with true
      | false => change (@bool_decide P D) with false
      end
  end; cbv beta iota.
