(* ===== verification/JsRegex.v ===== *)
(** * JavaScript regular expressions

    Every pattern of the source is written down as a value of [regex] and run by the
    backtracking matcher of ECMAScript (continuation-passing, ordered choice, greedy and
    lazy repetition, an iteration that consumes nothing is refused).  [sem] is the
    declarative meaning of a pattern; the matcher is proved sound and complete for it. *)

From stdpp Require Import base list.
From S2P Require Import Prelude JsString.

#[local] Arguments Nat.eqb : simpl never.

(** ** Definitions *)

Inductive regex : Type :=
| REps                             (* the empty pattern *)
| RChr (p : ascii → bool)          (* one character of a class *)
| RSeq (r1 r2 : regex)
| RAlt (r1 r2 : regex)
| RStar (greedy : bool) (r : regex)
| RGroup (n : nat) (r : regex)     (* capturing group [n] *)
| RBegin | REnd                    (* [^] and [$] *)
| RAhead (r : regex).              (* [(?=r)] *)

(** What the groups have captured, latest first. *)
Abbreviation caps := (list (nat * jsstr)).

Record mres := MRes { m_end : nat; m_rest : jsstr; m_caps : caps }.

Section Star.
Context (body : nat → jsstr → caps → (nat → jsstr → caps → option mres) → option mres).
Context (greedy : bool) (k : nat → jsstr → caps → option mres).

(** [fuel] bounds the iterations: each consumes a character. *)
Fixpoint star_loop (fuel : nat) (i : nat) (s : jsstr) (c : caps) : option mres :=
  match fuel with
  | O => k i s c
  | S f =>
      let again := body i s c (λ i' s' c', if i' =? i then None else star_loop f i' s' c') in
      let stop := k i s c in
      if greedy then match again with Some x => Some x | None => stop end
      else match stop with Some x => Some x | None => again end
  end.
End Star.

Fixpoint rmatch (r : regex) (i : nat) (s : jsstr) (c : caps)
    (k : nat → jsstr → caps → option mres) : option mres :=
  match r with
  | REps => k i s c
  | RChr p => match s with a :: s' => if p a then k (S i) s' c else None | [] => None end
  | RSeq r1 r2 => rmatch r1 i s c (λ i' s' c', rmatch r2 i' s' c' k)
  | RAlt r1 r2 => match rmatch r1 i s c k with Some x => Some x | None => rmatch r2 i s c k end
  | RStar g r' => star_loop (rmatch r') g k (length s) i s c
  | RGroup n r' => rmatch r' i s c (λ i' s' c', k i' s' ((n, take (i' - i) s) :: c'))
  | RBegin => if i =? 0 then k i s c else None
  | REnd => match s with [] => k i s c | _ => None end
  | RAhead r' =>
      match rmatch r' i s c (λ i' s' c', Some (MRes i' s' c')) with
      | Some m => k i s (m_caps m)
      | None => None
      end
  end.

Definition match_at (r : regex) (i : nat) (s : jsstr) : option mres :=
  rmatch r i s [] (λ i' s' c', Some (MRes i' s' c')).

(** A match: where it starts, its text, the groups, and what follows it. *)
Record rmatch_info := RM { rm_index : nat; rm_text : jsstr; rm_caps : caps; rm_after : jsstr }.

Definition group (n : nat) (c : caps) : option jsstr := jm_get n c.

(** [regex.exec(s)] without the [g] flag, from index [i]: the leftmost match. *)
Fixpoint re_search (r : regex) (i : nat) (s : jsstr) : option rmatch_info :=
  match match_at r i s with
  | Some m => Some (RM i (take (m_end m - i) s) (m_caps m) (m_rest m))
  | None => match s with [] => None | _ :: s' => re_search r (S i) s' end
  end.

Definition re_exec (r : regex) (s : jsstr) : option rmatch_info := re_search r 0 s.
Definition re_test (r : regex) (s : jsstr) : bool := bool_decide (is_Some (re_exec r s)).

(** All matches of the [g] flag, each with the text skipped before it, and the text after
    the last.  After an empty match the search goes on one character further. *)
Fixpoint re_scan (fuel : nat) (r : regex) (i : nat) (s gap : jsstr) :
    list (jsstr * rmatch_info) * jsstr :=
  match fuel with
  | O => ([], gap ++ s)
  | S f =>
      match match_at r i s with
      | Some m =>
          let info := RM i (take (m_end m - i) s) (m_caps m) (m_rest m) in
          if m_end m =? i then
            match s with
            | [] => ([(gap, info)], [])
            | a :: s' => let '(ms, t) := re_scan f r (S i) s' [a] in ((gap, info) :: ms, t)
            end
          else let '(ms, t) := re_scan f r (m_end m) (m_rest m) [] in ((gap, info) :: ms, t)
      | None =>
          match s with
          | [] => ([], gap)
          | a :: s' => re_scan f r (S i) s' (gap ++ [a])
          end
      end
  end.

Definition re_scan_all (r : regex) (s : jsstr) : list (jsstr * rmatch_info) * jsstr :=
  re_scan (S (length s)) r 0 s [].

(** [s.match(/r/g) || []] *)
Definition re_match_all (r : regex) (s : jsstr) : list jsstr :=
  map (λ p, rm_text p.2) (re_scan_all r s).1.

(** [s.replace(/r/g, f)] *)
Definition re_replace_all (r : regex) (f : rmatch_info → jsstr) (s : jsstr) : jsstr :=
  let '(ms, t) := re_scan_all r s in
  flat_map (λ p, p.1 ++ f p.2) ms ++ t.

(** [s.replace(/r/, f)]: the first match only. *)
Definition re_replace_first (r : regex) (f : rmatch_info → jsstr) (s : jsstr) : jsstr :=
  match re_exec r s with
  | Some m => take (rm_index m) s ++ f m ++ rm_after m
  | None => s
  end.

(** [s.split(/r/)]: the matches separate the pieces; an empty match splits only between two
    characters, and never right after the last separator.  [cur] is the piece being read. *)
Fixpoint re_split_loop (fuel : nat) (r : regex) (q : nat) (s cur : jsstr) : list jsstr :=
  match fuel with
  | O => [cur ++ s]
  | S f =>
      match s with
      | [] => [cur]
      | a :: s' =>
          match match_at r q s with
          | Some m =>
              if m_end m =? q then
                match cur with
                | [] => re_split_loop f r (S q) s' [a]
                | _ => cur :: re_split_loop f r (S q) s' [a]
                end
              else cur :: re_split_loop f r (m_end m) (m_rest m) []
          | None => re_split_loop f r (S q) s' (cur ++ [a])
          end
      end
  end.

Definition re_split (r : regex) (s : jsstr) : list jsstr :=
  match s with
  | [] => match match_at r 0 [] with Some _ => [] | None => [[]] end
  | _ => re_split_loop (S (length s)) r 0 s []
  end.

(** *** Building patterns *)

Definition rchar (a : ascii) : regex := RChr (is_ch a).
Definition rany : regex := RChr (λ _, true).
Definition rset (cs : jsstr) : regex := RChr (is_one_of cs).
Definition rnot (p : ascii → bool) : regex := RChr (λ a, negb (p a)).

(** The [i] flag: a character matches a class when one of its case variants does. *)
Definition ci (p : ascii → bool) (a : ascii) : bool :=
  p a || p (lower a) || existsb p (upper a).

Fixpoint rlit (s : jsstr) : regex :=
  match s with [] => REps | [a] => rchar a | a :: s' => RSeq (rchar a) (rlit s') end.

Fixpoint rlit_ci (s : jsstr) : regex :=
  match s with
  | [] => REps
  | [a] => RChr (ci (is_ch a))
  | a :: s' => RSeq (RChr (ci (is_ch a))) (rlit_ci s')
  end.

Definition rstar : regex → regex := RStar true.
Definition rlazy : regex → regex := RStar false.
Definition rplus (r : regex) : regex := RSeq r (RStar true r).
Definition ropt (r : regex) : regex := RAlt r REps.

Fixpoint rseq (l : list regex) : regex :=
  match l with [] => REps | [r] => r | r :: l' => RSeq r (rseq l') end.

Fixpoint ralt (l : list regex) : regex :=
  match l with [] => REps | [r] => r | r :: l' => RAlt r (ralt l') end.

(** [r{n}] and [r{n,}] *)
Definition rtimes (n : nat) (r : regex) : regex := rseq (replicate n r).
Definition ratleast (n : nat) (r : regex) : regex := RSeq (rtimes n r) (RStar true r).

(** *** Meaning *)

Section StarSem.
Context (P : nat → jsstr → jsstr → Prop).

(** Repetition: each iteration consumes at least one character. *)
Inductive star_sem : nat → jsstr → jsstr → Prop :=
| star_stop i v : star_sem i [] v
| star_iter i u1 u2 v :
    u1 ≠ [] → P i u1 (u2 ++ v) → star_sem (i + length u1) u2 v → star_sem i (u1 ++ u2) v.
End StarSem.

(** [sem r i u v]: standing at index [i], the pattern can consume [u] when [v] follows. *)
Fixpoint sem (r : regex) (i : nat) (u v : jsstr) : Prop :=
  match r with
  | REps => u = []
  | RChr p => ∃ a, u = [a] ∧ p a = true
  | RSeq r1 r2 => ∃ u1 u2, u = u1 ++ u2 ∧ sem r1 i u1 (u2 ++ v) ∧ sem r2 (i + length u1) u2 v
  | RAlt r1 r2 => sem r1 i u v ∨ sem r2 i u v
  | RStar _ r' => star_sem (sem r') i u v
  | RGroup _ r' => sem r' i u v
  | RBegin => u = [] ∧ i = 0
  | REnd => u = [] ∧ v = []
  | RAhead r' => u = [] ∧ ∃ u' v', v = u' ++ v' ∧ sem r' i u' v'
  end.

(** ** Soundness and completeness of the matcher *)

(** A matcher of [P] runs its continuation only where [P] allows. *)
Definition sound_for (P : nat → jsstr → jsstr → Prop)
    (body : nat → jsstr → caps → (nat → jsstr → caps → option mres) → option mres) : Prop :=
  ∀ i s c k x, body i s c k = Some x →
    ∃ u v c', s = u ++ v ∧ P i u v ∧ k (i + length u) v c' = Some x.

Definition complete_for (P : nat → jsstr → jsstr → Prop)
    (body : nat → jsstr → caps → (nat → jsstr → caps → option mres) → option mres) : Prop :=
  ∀ i u v c k, P i u v → (∀ c', is_Some (k (i + length u) v c')) → is_Some (body i (u ++ v) c k).

Lemma star_loop_sound P body g fuel :
  sound_for P body → sound_for (star_sem P) (λ i s c k, star_loop body g k fuel i s c).
Proof.
  intros Hb. induction fuel as [|f IH]; intros i s c k x; simpl.
  - intros Hk. exists [], s, c. rewrite Nat.add_0_r. repeat split; [constructor|done].
  - assert (k i s c = Some x → ∃ u v c',
      s = u ++ v ∧ star_sem P i u v ∧ k (i + length u) v c' = Some x) as Hstop.
    { intros Hk. exists [], s, c. rewrite Nat.add_0_r. repeat split; [constructor|done]. }
    assert (body i s c (λ i' s' c', if i' =? i then None else star_loop body g k f i' s' c')
      = Some x → ∃ u v c', s = u ++ v ∧ star_sem P i u v ∧ k (i + length u) v c' = Some x)
      as Hagain.
    { intros H. apply Hb in H as (u1 & v1 & c1 & -> & HP & H).
      destruct (i + length u1 =? i) eqn:E; [done|]. apply Nat.eqb_neq in E.
      apply IH in H as (u2 & v & c' & -> & Hs & Hk). exists (u1 ++ u2), v, c'.
      rewrite length_app, Nat.add_assoc, <- app_assoc. repeat split; [|done].
      constructor; [|done|done]. intros ->. simpl in E. lia. }
    destruct g; [destruct (body _ _ _ _) eqn:E|destruct (k i s c) eqn:E];
      intros; simplify_eq; auto.
Qed.

Lemma star_loop_complete P body g fuel i u v c k :
  complete_for P body → length u ≤ fuel → star_sem P i u v →
  (∀ c', is_Some (k (i + length u) v c')) →
  is_Some (star_loop body g k fuel i (u ++ v) c).
Proof.
  intros Hb. revert i u v c. induction fuel as [|f IH]; intros i u v c Hlen Hs Hk; simpl.
  - destruct u; simpl in Hlen; [|lia]. rewrite Nat.add_0_r in Hk. apply Hk.
  - assert (is_Some (k i (u ++ v) c) ∨ is_Some (body i (u ++ v) c
      (λ i' s' c', if i' =? i then None else star_loop body g k f i' s' c'))) as Hor.
    { inversion Hs as [|? u1 u2 ? Hne HP Hrest]; subst; [left|right].
      - rewrite Nat.add_0_r in Hk. apply Hk.
      - rewrite <- app_assoc. apply Hb; [done|]. intros c'.
        assert (0 < length u1) by (destruct u1; simpl; [done|lia]).
        destruct (i + length u1 =? i) eqn:E; [apply Nat.eqb_eq in E; lia|].
        rewrite length_app in Hlen. apply IH; [lia|done|].
        intros c2. rewrite <- Nat.add_assoc, <- length_app. apply Hk. }
    destruct g.
    + destruct (body _ _ _ _) eqn:E; [by eexists|]. destruct Hor as [|[? ?]]; done.
    + destruct (k i (u ++ v) c) eqn:E; [by eexists|]. destruct Hor as [[? ?]|]; done.
Qed.

Lemma rmatch_sound r : sound_for (sem r) (rmatch r).
Proof.
  induction r as [|p|r1 IH1 r2 IH2|r1 IH1 r2 IH2|g r IH|n r IH| | |r IH];
    intros i s c k x; simpl.
  - intros Hk. exists [], s, c. by rewrite Nat.add_0_r.
  - destruct s as [|a s]; [done|]. destruct (p a) eqn:E; [|done]. intros Hk.
    exists [a], s, c. simpl. rewrite Nat.add_1_r. eauto.
  - intros H. apply IH1 in H as (u1 & v1 & c1 & -> & Hs1 & H).
    apply IH2 in H as (u2 & v & c' & -> & Hs2 & H).
    exists (u1 ++ u2), v, c'. rewrite length_app, Nat.add_assoc, <- app_assoc. eauto 10.
  - destruct (rmatch r1 i s c k) eqn:E.
    + intros ?; simplify_eq. apply IH1 in E as (u & v & c' & ? & ? & ?). eauto 10.
    + intros H. apply IH2 in H as (u & v & c' & ? & ? & ?). eauto 10.
  - intros H. by apply (star_loop_sound _ _ g (length s) IH) in H.
  - intros H. apply IH in H as (u & v & c' & ? & ? & ?). eauto 10.
  - destruct (i =? 0) eqn:E; [|done]. intros Hk. exists [], s, c.
    apply Nat.eqb_eq in E. by rewrite Nat.add_0_r.
  - destruct s; [|done]. intros Hk. exists [], [], c. by rewrite Nat.add_0_r.
  - destruct (rmatch r i s c _) as [m|] eqn:E; [|done]. intros Hk.
    apply IH in E as (u' & v' & c' & -> & Hs & _).
    exists [], (u' ++ v'), (m_caps m). rewrite Nat.add_0_r. eauto 10.
Qed.

Lemma rmatch_complete r : complete_for (sem r) (rmatch r).
Proof.
  induction r as [|p|r1 IH1 r2 IH2|r1 IH1 r2 IH2|g r IH|n r IH| | |r IH];
    intros i u v c k Hs Hk; simpl in *.
  - subst. rewrite Nat.add_0_r in Hk. apply Hk.
  - destruct Hs as (a & -> & Ha). simpl. rewrite Ha. rewrite Nat.add_1_r in Hk. apply Hk.
  - destruct Hs as (u1 & u2 & -> & Hs1 & Hs2). rewrite <- app_assoc. apply IH1; [done|].
    intros c1. apply IH2; [done|]. intros c2. rewrite <- Nat.add_assoc, <- length_app. apply Hk.
  - destruct (rmatch r1 i (u ++ v) c k) eqn:E; [by eexists|].
    destruct Hs as [Hs|Hs]; [|by apply IH2].
    destruct (IH1 i u v c k Hs Hk) as [? H]. by rewrite E in H.
  - apply star_loop_complete with (sem r); [done| |done|done]. rewrite length_app. lia.
  - apply IH; [done|]. intros c'. apply Hk.
  - destruct Hs as [-> ->]. apply Hk.
  - destruct Hs as [-> ->]. rewrite Nat.add_0_r in Hk. apply Hk.
  - destruct Hs as (-> & u' & v' & -> & Hs). rewrite Nat.add_0_r in Hk. simpl.
    destruct (IH i u' v' c (λ i' s' c', Some (MRes i' s' c')) Hs) as [m ->]; [by eexists|].
    apply Hk.
Qed.

(** ** Searching *)

Lemma match_at_Some r i s m :
  match_at r i s = Some m →
  ∃ u, s = u ++ m_rest m ∧ m_end m = i + length u ∧ sem r i u (m_rest m).
Proof.
  intros H. apply rmatch_sound in H as (u & v & c & -> & Hs & Hm). simplify_eq. by exists u.
Qed.

Lemma match_at_None r i u v : match_at r i (u ++ v) = None → ¬ sem r i u v.
Proof.
  intros H Hs. destruct (rmatch_complete r i u v [] (λ i s c, Some (MRes i s c)) Hs) as [m Hm];
    [by eexists|]. unfold match_at in H. congruence.
Qed.

Lemma take_sub_app (i : nat) (u v : jsstr) : take (i + length u - i) (u ++ v) = u.
Proof. rewrite Nat.add_comm, Nat.add_sub. apply take_app_length. Qed.

Lemma re_search_Some r i s m :
  re_search r i s = Some m →
  ∃ pre, s = pre ++ rm_text m ++ rm_after m ∧ rm_index m = i + length pre ∧
         sem r (rm_index m) (rm_text m) (rm_after m).
Proof.
  assert (∀ i s m', match_at r i s = Some m' → ∃ pre,
    s = pre ++ take (m_end m' - i) s ++ m_rest m' ∧ i = i + length pre ∧
    sem r i (take (m_end m' - i) s) (m_rest m')) as Hat.
  { clear. intros i s m' (u & Hu & He & Hs)%match_at_Some. exists [].
    rewrite He. rewrite Hu at 1 2 3. rewrite take_sub_app, Nat.add_0_r. done. }
  revert i. induction s as [|a s IH]; intros i; simpl; destruct (match_at r i _) as [m'|] eqn:E.
  1, 3: intros ?; simplify_eq; simpl; by apply Hat in E.
  - done.
  - intros (pre & -> & Hi & Hs)%IH. exists (a :: pre). simpl. rewrite Hi in *.
    by rewrite <- Nat.add_succ_comm.
Qed.

Lemma re_search_None r i s pre u v :
  re_search r i s = None → s = pre ++ u ++ v → ¬ sem r (i + length pre) u v.
Proof.
  revert i pre. induction s as [|a s IH]; intros i pre; simpl;
    destruct (match_at r i _) as [m'|] eqn:E; try done; intros H Hs.
  - destruct pre; [|done]. destruct u; [|done]. simpl in *. subst v.
    rewrite Nat.add_0_r. by apply match_at_None.
  - destruct pre as [|b pre]; simpl in *.
    + rewrite Nat.add_0_r. apply match_at_None. by rewrite <- Hs.
    + simplify_eq. rewrite <- Nat.add_succ_comm. by eapply IH.
Qed.

(** [r.test(s)] holds exactly when some part of [s] has the meaning of [r]. *)
Lemma re_test_spec r s :
  re_test r s = true ↔ ∃ pre u v, s = pre ++ u ++ v ∧ sem r (length pre) u v.
Proof.
  unfold re_test. rewrite bool_decide_eq_true. split.
  - intros [m Hm]. apply re_search_Some in Hm as (pre & -> & Hi & Hs). rewrite Hi in Hs. eauto 10.
  - intros (pre & u & v & -> & Hs). destruct (re_exec r _) eqn:E; [by eexists|].
    by apply (re_search_None _ _ _ pre u v) in E.
Qed.

(** ** Global matching loses no text *)

Lemma re_scan_rejoin fuel r i s gap :
  length s < fuel →
  let '(ms, t) := re_scan fuel r i s gap in
  flat_map (λ p, p.1 ++ rm_text p.2) ms ++ t = gap ++ s.
Proof.
  revert i s gap. induction fuel as [|f IH]; intros i s gap Hlen; [lia|]. cbn [re_scan].
  destruct (match_at r i s) as [m|] eqn:E.
  - apply match_at_Some in E as (u & Hu & He & _). rewrite He.
    destruct (i + length u =? i) eqn:Ez.
    + apply Nat.eqb_eq in Ez. assert (u = []) as -> by (destruct u; simpl in *; [done|lia]).
      simpl. rewrite Nat.add_0_r, Nat.sub_diag. destruct s as [|a s]; simpl;
        [by rewrite !app_nil_r|].
      simpl in Hlen. specialize (IH (S i) s [a] ltac:(lia)).
      destruct (re_scan f r (S i) s [a]) as [ms t]. simpl. rewrite app_nil_r, <- app_assoc, IH.
      done.
    + apply Nat.eqb_neq in Ez. assert (length (m_rest m) < f).
      { rewrite Hu, length_app in Hlen. lia. }
      specialize (IH (i + length u) (m_rest m) [] ltac:(lia)).
      destruct (re_scan f r (i + length u) (m_rest m) []) as [ms t]. simpl in *.
      rewrite Hu at 1. rewrite take_sub_app. rewrite <- !app_assoc, IH. by rewrite <- Hu.
  - destruct s as [|a s]; simpl; [by rewrite app_nil_r|]. simpl in Hlen.
    specialize (IH (S i) s (gap ++ [a]) ltac:(lia)).
    destruct (re_scan f r (S i) s (gap ++ [a])) as [ms t]. by rewrite IH, <- app_assoc.
Qed.

(** Replacing every match by its own text is the identity. *)
Lemma re_replace_all_id r s : re_replace_all r rm_text s = s.
Proof.
  unfold re_replace_all, re_scan_all.
  pose proof (re_scan_rejoin (S (length s)) r 0 s [] ltac:(lia)) as H.
  by destruct (re_scan _ r 0 s []).
Qed.

(** ** Replacing a single class, and runs of a class *)

Fixpoint collapse (p : ascii → bool) (w : jsstr) (inrun : bool) (s : jsstr) : jsstr :=
  match s with
  | [] => []
  | a :: s' =>
      if p a then (if inrun then [] else w) ++ collapse p w true s' else a :: collapse p w false s'
  end.

Lemma re_scan_class p w fuel i s gap :
  length s < fuel →
  let '(ms, t) := re_scan fuel (RChr p) i s gap in
  flat_map (λ q, q.1 ++ w) ms ++ t = gap ++ flat_map (λ a, if p a then w else [a]) s.
Proof.
  revert i s gap. induction fuel as [|f IH]; intros i s gap Hlen; [lia|].
  destruct s as [|a s]; simpl; [by rewrite app_nil_r|]. simpl in Hlen. unfold match_at. simpl.
  destruct (p a); simpl.
  - rewrite (proj2 (Nat.eqb_neq (S i) i)) by lia.
    specialize (IH (S i) s [] ltac:(lia)). destruct (re_scan f _ (S i) s []) as [ms t].
    simpl in *. by rewrite <- !app_assoc, IH.
  - specialize (IH (S i) s (gap ++ [a]) ltac:(lia)).
    destruct (re_scan f _ (S i) s (gap ++ [a])) as [ms t]. by rewrite IH, <- app_assoc.
Qed.

Lemma re_replace_class p w s :
  re_replace_all (RChr p) (λ _, w) s = flat_map (λ a, if p a then w else [a]) s.
Proof.
  unfold re_replace_all, re_scan_all.
  pose proof (re_scan_class p w (S (length s)) 0 s [] ltac:(lia)) as H.
  by destruct (re_scan _ _ 0 s []).
Qed.

Lemma flat_map_drop_filter (p : ascii → bool) s :
  flat_map (λ a, if p a then [] else [a]) s = filter (λ a, p a = false) s.
Proof.
  induction s as [|a s IH]; simpl; [done|]. rewrite filter_cons, IH.
  destruct (p a); repeat case_decide; done.
Qed.

(** [s.replace(/[p]/g, '')] *)
Lemma re_remove_class p s :
  re_replace_all (RChr p) (λ _, []) s = filter (λ a, p a = false) s.
Proof. by rewrite re_replace_class, flat_map_drop_filter. Qed.

Lemma star_class_loop p fuel i s c :
  length s ≤ fuel →
  star_loop (rmatch (RChr p)) true (λ i s c, Some (MRes i s c)) fuel i s c =
  Some (MRes (i + length (span p s).1) (span p s).2 c).
Proof.
  revert i s. induction fuel as [|f IH]; intros i s Hlen; destruct s as [|a s]; simpl in *.
  - by rewrite Nat.add_0_r.
  - lia.
  - by rewrite Nat.add_0_r.
  - destruct (p a); simpl; [|by rewrite Nat.add_0_r].
    destruct (S i =? i) eqn:E; [apply Nat.eqb_eq in E; lia|].
    rewrite IH by lia. destruct (span p s) as [u v]. simpl. by rewrite Nat.add_succ_r.
Qed.

Lemma plus_class_match p i a s :
  match_at (rplus (RChr p)) i (a :: s) =
  if p a then Some (MRes (S i + length (span p s).1) (span p s).2 []) else None.
Proof.
  change (match_at (rplus (RChr p)) i (a :: s)) with
    (if p a then star_loop (rmatch (RChr p)) true (λ i s c, Some (MRes i s c))
       (length s) (S i) s [] else None).
  destruct (p a); [|done]. by rewrite star_class_loop.
Qed.

Lemma span_collapse p w s : collapse p w true s = collapse p w true (span p s).2.
Proof.
  induction s as [|a s IH]; simpl; [done|]. destruct (p a) eqn:E; simpl.
  - rewrite IH. by destruct (span p s).
  - by rewrite E.
Qed.

Lemma collapse_boundary p w s :
  (∀ a, head s = Some a → p a = false) → collapse p w true s = collapse p w false s.
Proof. destruct s as [|a s]; [done|]. intros H. simpl. by rewrite (H a eq_refl). Qed.

Lemma span_length {A} (p : A → bool) s :
  length s = length (span p s).1 + length (span p s).2 ∧
  (∀ a, head (span p s).2 = Some a → p a = false).
Proof.
  induction s as [|a s [IH1 IH2]]; simpl; [done|]. destruct (p a) eqn:E; simpl.
  - destruct (span p s) as [u v]. simpl in *. split; [lia|done].
  - split; [done|]. intros. by simplify_eq.
Qed.

Lemma re_scan_plus p w fuel i s gap :
  length s < fuel →
  let '(ms, t) := re_scan fuel (rplus (RChr p)) i s gap in
  flat_map (λ q, q.1 ++ w) ms ++ t = gap ++ collapse p w false s.
Proof.
  revert i s gap. induction fuel as [|f IH]; intros i s gap Hlen; [lia|].
  destruct s as [|a s]; [simpl; by rewrite app_nil_r|]. simpl in Hlen. cbn [re_scan collapse].
  rewrite plus_class_match. destruct (p a) eqn:Ea.
  - cbn [m_end m_rest m_caps].
    destruct (S i + length (span p s).1 =? i) eqn:E; [apply Nat.eqb_eq in E; lia|].
    destruct (span_length p s) as [Hl Hh].
    specialize (IH (S i + length (span p s).1) (span p s).2 [] ltac:(lia)).
    destruct (re_scan f _ _ (span p s).2 []) as [ms t]. simpl in *.
    rewrite span_collapse, collapse_boundary by done. by rewrite <- !app_assoc, IH.
  - specialize (IH (S i) s (gap ++ [a]) ltac:(lia)).
    destruct (re_scan f _ (S i) s (gap ++ [a])) as [ms t]. by rewrite IH, <- app_assoc.
Qed.

(** [s.replace(/[p]+/g, w)]: each maximal run becomes one [w]. *)
Lemma re_replace_plus p w s :
  re_replace_all (rplus (RChr p)) (λ _, w) s = collapse p w false s.
Proof.
  unfold re_replace_all, re_scan_all.
  pose proof (re_scan_plus p w (S (length s)) 0 s [] ltac:(lia)) as H.
  by destruct (re_scan _ _ 0 s []).
Qed.

Lemma collapse_Forall (P : ascii → Prop) p w b s :
  Forall P w → Forall (λ a, p a = false → P a) s → Forall P (collapse p w b s).
Proof.
  intros Hw Hs. revert b. induction Hs as [|a s Ha Hs IH]; intros b; simpl; [constructor|].
  destruct (p a) eqn:E; [|by constructor; auto].
  apply Forall_app. split; [by destruct b; auto|apply IH].
Qed.

(** ** Every global match has the pattern's meaning *)

Lemma re_scan_sem r fuel i s gap p :
  p ∈ (re_scan fuel r i s gap).1 → sem r (rm_index p.2) (rm_text p.2) (rm_after p.2).
Proof.
  revert i s gap. induction fuel as [|f IH]; intros i s gap; simpl; [set_solver|].
  destruct (match_at r i s) as [m|] eqn:E.
  - apply match_at_Some in E as (u & Hu & He & Hs).
    assert (∀ g, p = (g, RM i (take (m_end m - i) s) (m_caps m) (m_rest m)) →
      sem r (rm_index p.2) (rm_text p.2) (rm_after p.2)) as Hp.
    { intros g ->. simpl. rewrite He. rewrite Hu at 1. by rewrite take_sub_app. }
    destruct (m_end m =? i); [destruct s as [|a s]; [set_solver|]|].
    + destruct (re_scan f r (S i) s [a]) as [ms t] eqn:Er. simpl. rewrite elem_of_cons.
      intros [?|Hin]; [eauto|]. apply (IH (S i) s [a]). by rewrite Er.
    + destruct (re_scan f r (m_end m) (m_rest m) []) as [ms t] eqn:Er. simpl.
      rewrite elem_of_cons. intros [?|Hin]; [eauto|].
      apply (IH (m_end m) (m_rest m) []). by rewrite Er.
  - destruct s as [|a s]; [set_solver|]. apply IH.
Qed.

Lemma re_match_all_sem r s w : w ∈ re_match_all r s → ∃ i v, sem r i w v.
Proof.
  unfold re_match_all. rewrite list_elem_of_In, in_map_iff. intros (p & <- & Hp).
  apply list_elem_of_In, re_scan_sem in Hp. eauto.
Qed.

(** ** Stepping through the global matches *)

(** When only [u] can be matched, [u] is matched. *)
Lemma match_at_unique r i u v :
  sem r i u v → (∀ u' v', u ++ v = u' ++ v' → sem r i u' v' → u' = u) →
  ∃ c, match_at r i (u ++ v) = Some (MRes (i + length u) v c).
Proof.
  intros Hs Hu. destruct (match_at r i (u ++ v)) as [m|] eqn:E;
    [|by apply match_at_None in E].
  apply match_at_Some in E as (u' & Heq & He & Hs'). apply Hu in Hs'; [|done]. subst u'.
  apply app_inv_head in Heq. exists (m_caps m). by rewrite Heq, <- He; destruct m.
Qed.

Lemma re_scan_fuel r f1 f2 i s gap :
  length s < f1 → length s < f2 → re_scan f1 r i s gap = re_scan f2 r i s gap.
Proof.
  revert f2 i s gap. induction f1 as [|f1 IH]; intros [|f2] i s gap H1 H2; [lia..|]. simpl.
  destruct (match_at r i s) as [m|] eqn:E.
  - apply match_at_Some in E as (u & Hu & He & _). rewrite He.
    destruct (i + length u =? i) eqn:Ez.
    + destruct s as [|a s]; [done|]. simpl in *. by rewrite (IH f2) by lia.
    + apply Nat.eqb_neq in Ez. rewrite Hu, length_app in H1, H2. by rewrite (IH f2) by lia.
  - destruct s as [|a s]; [done|]. simpl in *. by apply IH; lia.
Qed.

Definition scan_texts (r : regex) (i : nat) (s gap : jsstr) : list jsstr :=
  map (λ p, rm_text p.2) (re_scan (S (length s)) r i s gap).1.

Lemma re_match_all_texts r s : re_match_all r s = scan_texts r 0 s [].
Proof. done. Qed.

Lemma scan_texts_hit r i u v c gap :
  match_at r i (u ++ v) = Some (MRes (i + length u) v c) → u ≠ [] →
  scan_texts r i (u ++ v) gap = u :: scan_texts r (i + length u) v [].
Proof.
  intros Hm Hu. unfold scan_texts at 1. cbn [re_scan]. rewrite Hm. cbn [m_end m_rest m_caps].
  assert (0 < length u) by (destruct u; simpl; [done|lia]).
  rewrite (proj2 (Nat.eqb_neq _ _)) by lia.
  rewrite (re_scan_fuel r (length (u ++ v)) (S (length v))) by (rewrite ?length_app; lia).
  unfold scan_texts. destruct (re_scan (S (length v)) r _ v []) as [ms t]. cbn [fst map].
  by rewrite take_sub_app.
Qed.

Lemma scan_texts_miss r i a s gap :
  match_at r i (a :: s) = None →
  scan_texts r i (a :: s) gap = scan_texts r (S i) s (gap ++ [a]).
Proof. intros Hm. unfold scan_texts. cbn [length]. cbn [re_scan]. by rewrite Hm. Qed.

Lemma scan_texts_nil r i gap : match_at r i [] = None → scan_texts r i [] gap = [].
Proof. intros Hm. unfold scan_texts. simpl. by rewrite Hm. Qed.

(** A pattern that begins with [^] matches at most once. *)
Lemma re_scan_anchored r fuel i s gap :
  (∀ i s, 0 < i → match_at r i s = None) → 0 < i → length s < fuel →
  re_scan fuel r i s gap = ([], gap ++ s).
Proof.
  intros Hr. revert i s gap. induction fuel as [|f IH]; intros i s gap Hi Hlen; [lia|].
  simpl. rewrite Hr by done. destruct s as [|a s]; [by rewrite app_nil_r|]. simpl in Hlen.
  rewrite IH by lia. by rewrite <- app_assoc.
Qed.

Lemma re_replace_anchored r w s :
  (∀ i s, 0 < i → match_at r i s = None) →
  re_replace_all r (λ _, w) s =
  match match_at r 0 s with
  | Some m => if m_end m =? 0 then w ++ s else w ++ m_rest m
  | None => s
  end.
Proof.
  intros Hr. unfold re_replace_all, re_scan_all. cbn [re_scan].
  destruct (match_at r 0 s) as [m|] eqn:E.
  - apply match_at_Some in E as (u & Hu & He & _).
    destruct (m_end m =? 0) eqn:Ez.
    + destruct s as [|a s]; [simpl; by rewrite !app_nil_r|].
      rewrite re_scan_anchored by (done || simpl; lia). simpl. by rewrite app_nil_r.
    + apply Nat.eqb_neq in Ez. rewrite re_scan_anchored; [|done|lia|].
      * simpl. by rewrite app_nil_r.
      * rewrite Hu, length_app. lia.
  - destruct s as [|a s]; [done|]. rewrite re_scan_anchored; [done|done|lia|simpl; lia].
Qed.

Lemma match_at_begin r i s : 0 < i → match_at (RSeq RBegin r) i s = None.
Proof.
  intros Hi. unfold match_at. simpl. by rewrite (proj2 (Nat.eqb_neq i 0)) by lia.
Qed.

(** ** Case-insensitive literals *)

Lemma ci_lower c a : is_ascii_lower c = true → ci (is_ch c) a = bool_decide (lower a = c).
Proof.
  intros Hc. apply eqb_prop. revert a. apply ascii_check. revert Hc.
  apply implb_true_iff. revert c. apply (ascii_check (λ c, implb (is_ascii_lower c)
    (forallb (λ a, Bool.eqb (ci (is_ch c) a) (bool_decide (lower a = c)))
       (map ascii_of_nat (seq 0 256))))).
  vm_compute. reflexivity.
Qed.

Lemma sem_lit_ci w i u v :
  Forall (λ c, is_ascii_lower c = true) w → w ≠ [] →
  sem (rlit_ci w) i u v ↔ toLowerCase u = w.
Proof.
  assert (∀ c i u v, is_ascii_lower c = true →
    sem (RChr (ci (is_ch c))) i u v ↔ toLowerCase u = [c]) as Hone.
  { intros c i' u' v' Hc. simpl. split.
    - intros (a & -> & Ha). rewrite ci_lower in Ha by done.
      apply bool_decide_eq_true in Ha. simpl. by rewrite Ha.
    - destruct u' as [|a [|b u']]; simpl; intros ?; simplify_eq. exists a.
      split; [done|]. rewrite ci_lower by done. by apply bool_decide_eq_true. }
  intros Hw Hne. revert i u v. induction Hw as [|c w Hc Hw IH]; [done|]. intros i u v.
  destruct w as [|c' w]; [by apply Hone|].
  change (sem (rlit_ci (c :: c' :: w)) i u v) with (∃ u1 u2, u = u1 ++ u2 ∧
    sem (RChr (ci (is_ch c))) i u1 (u2 ++ v) ∧ sem (rlit_ci (c' :: w)) (i + length u1) u2 v).
  split.
  - intros (u1 & u2 & -> & H1%Hone & H2%IH); [|done..]. by rewrite toLowerCase_app, H1, H2.
  - destruct u as [|a u]; [done|]. intros H. simpl in H. simplify_eq.
    exists [a], u. split; [done|]. split; [by apply Hone|]. by apply IH.
Qed.

(** ** Counted repetition of a class *)

Lemma sem_times_class n p i u v :
  0 < n → sem (rtimes n (RChr p)) i u v ↔ length u = n ∧ Forall (λ a, p a = true) u.
Proof.
  destruct n as [|n]; [lia|]. intros _. revert i u v. induction n as [|n IH]; intros i u v.
  - simpl. split; [intros (a & -> & Ha); auto|].
    destruct u as [|a [|]]; simpl; intros [? H]; try lia. inversion H; subst. eauto.
  - change (sem (rtimes (S (S n)) (RChr p)) i u v) with (∃ u1 u2, u = u1 ++ u2 ∧
      sem (RChr p) i u1 (u2 ++ v) ∧ sem (rtimes (S n) (RChr p)) (i + length u1) u2 v).
    setoid_rewrite IH. split.
    + intros (u1 & u2 & -> & (a & -> & Ha) & Hl & Hu). simpl. split; [lia|by constructor].
    + destruct u as [|a u]; simpl; intros [? H]; [lia|]. inversion H; subst.
      exists [a], u. split; [done|]. split; [by exists a|]. split; [lia|done].
Qed.

(** A run of exactly [n] characters of a class is matched in one way. *)
Lemma times_hit n p i u rest c k :
  length u = n → n ≠ 0 → Forall (λ a, p a = true) u →
  rmatch (rtimes n (RChr p)) i (u ++ rest) c k = k (i + n) rest c.
Proof.
  intros <- Hn Hu. revert i Hn. induction Hu as [|a u Ha Hu IH]; intros i Hn; [done|].
  destruct u as [|b u]; [cbn; rewrite Ha; f_equal; lia|].
  specialize (IH (S i) ltac:(done)). cbn [rtimes replicate length rseq] in *.
  cbn [app rmatch] in *. rewrite Ha. rewrite IH. f_equal. simpl. lia.
Qed.

(** ** Replacing a text of two characters *)

Fixpoint replace2 (x y : ascii) (w s : jsstr) : jsstr :=
  match s with
  | [] => []
  | a :: s' =>
      match s' with
      | b :: s'' => if bool_decide (a = x ∧ b = y) then w ++ replace2 x y w s'' else a :: replace2 x y w s'
      | [] => [a]
      end
  end.

Lemma lit2_match x y i s :
  match_at (rlit [x; y]) i s =
  match s with
  | a :: b :: s' => if bool_decide (a = x ∧ b = y) then Some (MRes (S (S i)) s' []) else None
  | _ => None
  end.
Proof.
  unfold match_at. simpl. unfold is_ch. destruct s as [|a [|b s]]; [done| |].
  - by case_bool_decide.
  - repeat case_bool_decide; try done; naive_solver.
Qed.

Lemma re_scan_lit2 x y w fuel i s gap :
  length s < fuel →
  let '(ms, t) := re_scan fuel (rlit [x; y]) i s gap in
  flat_map (λ q, q.1 ++ w) ms ++ t = gap ++ replace2 x y w s.
Proof.
  revert i s gap. induction fuel as [|f IH]; intros i s gap Hlen; [lia|].
  destruct s as [|a s]; cbn [re_scan]; rewrite lit2_match; [simpl; by rewrite app_nil_r|].
  simpl in Hlen. destruct s as [|b s]; simpl replace2; simpl in Hlen.
  - specialize (IH (S i) [] (gap ++ [a]) ltac:(simpl; lia)).
    destruct (re_scan f _ (S i) [] (gap ++ [a])) as [ms t]. by rewrite IH, app_nil_r.
  - case_bool_decide as Hab; cbn [m_end m_rest].
    + replace (S (S i) =? i) with false by (symmetry; apply Nat.eqb_neq; lia).
      specialize (IH (S (S i)) s [] ltac:(lia)).
      destruct (re_scan f _ (S (S i)) s []) as [ms t]. simpl in *. by rewrite <- !app_assoc, IH.
    + specialize (IH (S i) (b :: s) (gap ++ [a]) ltac:(simpl; lia)).
      destruct (re_scan f _ (S i) (b :: s) (gap ++ [a])) as [ms t]. by rewrite IH, <- app_assoc.
Qed.

Lemma re_replace_lit2 x y w s : re_replace_all (rlit [x; y]) (λ _, w) s = replace2 x y w s.
Proof.
  unfold re_replace_all, re_scan_all.
  pose proof (re_scan_lit2 x y w (S (length s)) 0 s [] ltac:(lia)) as H.
  by destruct (re_scan _ _ 0 s []).
Qed.

Lemma replace2_hit x y w s : replace2 x y w (x :: y :: s) = w ++ replace2 x y w s.
Proof. simpl. by rewrite bool_decide_true. Qed.

Lemma replace2_miss x y w b s : b ≠ y → replace2 x y w (x :: b :: s) = x :: replace2 x y w (b :: s).
Proof. intros H. cbn [replace2]. rewrite bool_decide_false; [done|]. naive_solver. Qed.

Lemma replace2_skip x y w a s : a ≠ x → replace2 x y w (a :: s) = a :: replace2 x y w s.
Proof.
  intros H. destruct s as [|b s]; [done|]. cbn [replace2].
  rewrite bool_decide_false; [done|]. naive_solver.
Qed.

(** ** Greedy runs in front of a continuation *)

(** When the continuation accepts the end of the run, no backtracking happens. *)
Lemma star_greedy p k fuel i u rest c x :
  Forall (λ a, p a = true) u → (∀ a, head rest = Some a → p a = false) → length u ≤ fuel →
  k (i + length u) rest c = Some x →
  star_loop (rmatch (RChr p)) true k fuel i (u ++ rest) c = Some x.
Proof.
  intros Hu Hr. revert fuel i. induction Hu as [|a u Ha Hu IH]; intros fuel i Hf Hk.
  - simpl length in Hk. rewrite Nat.add_0_r in Hk. destruct fuel as [|f]; simpl; [done|].
    destruct rest as [|b rest]; simpl; [done|]. by rewrite (Hr b eq_refl).
  - simpl in Hf. destruct fuel as [|f]; [lia|]. simpl. rewrite Ha.
    replace (S i =? i) with false by (symmetry; apply Nat.eqb_neq; lia).
    rewrite IH; [done|lia|]. simpl in Hk. by rewrite Nat.add_succ_r in Hk.
Qed.

Lemma plus_greedy p k i u rest c x :
  Forall (λ a, p a = true) u → u ≠ [] → (∀ a, head rest = Some a → p a = false) →
  k (i + length u) rest c = Some x → rmatch (rplus (RChr p)) i (u ++ rest) c k = Some x.
Proof.
  intros Hu Hne Hr Hk. destruct u as [|a u]; [done|]. inversion Hu; subst.
  change (rmatch (rplus (RChr p)) i ((a :: u) ++ rest) c k) with
    (if p a then star_loop (rmatch (RChr p)) true k (length (u ++ rest)) (S i) (u ++ rest) c else None).
  rewrite H1. apply star_greedy; [done|done|rewrite length_app; lia|].
  simpl in Hk. by rewrite Nat.add_succ_r in Hk.
Qed.

(** ** Stepping through the global matches, with their groups *)

Definition scan_from (r : regex) (i : nat) (s gap : jsstr) : list (jsstr * rmatch_info) * jsstr :=
  re_scan (S (length s)) r i s gap.

Lemma scan_from_hit r i u v c gap :
  match_at r i (u ++ v) = Some (MRes (i + length u) v c) → u ≠ [] →
  scan_from r i (u ++ v) gap =
  (let '(ms, t) := scan_from r (i + length u) v [] in ((gap, RM i u c v) :: ms, t)).
Proof.
  intros Hm Hu. unfold scan_from at 1. cbn [re_scan]. rewrite Hm. cbn [m_end m_rest m_caps].
  assert (0 < length u) by (destruct u; simpl; [done|lia]).
  rewrite (proj2 (Nat.eqb_neq _ _)) by lia.
  rewrite (re_scan_fuel r (length (u ++ v)) (S (length v))) by (rewrite ?length_app; lia).
  by rewrite take_sub_app.
Qed.

Lemma scan_from_miss r i a s gap :
  match_at r i (a :: s) = None → scan_from r i (a :: s) gap = scan_from r (S i) s (gap ++ [a]).
Proof. intros Hm. unfold scan_from. cbn [length]. cbn [re_scan]. by rewrite Hm. Qed.

(** A text in which nothing matches. *)
Lemma scan_from_none r i s gap :
  (∀ j u w, w ++ u = s → match_at r j u = None) → scan_from r i s gap = ([], gap ++ s).
Proof.
  revert i gap. induction s as [|a s IH]; intros i gap Hn.
  - unfold scan_from. simpl. by rewrite (Hn i [] []), app_nil_r.
  - rewrite scan_from_miss by by apply (Hn i (a :: s) []).
    rewrite IH, <- app_assoc; [done|]. intros j u w <-. by apply (Hn j u (a :: w)).
Qed.
