(* ===== verification/JsNumber.v ===== *)
(** * JavaScript numbers

    A number is an IEEE 754 double, in the Standard Library's executable [spec_float]
    (53 bits of precision, maximal exponent 1024).  Here are the conversions the source
    relies on: [Number(s)], [String(n)], comparison and the arithmetic it applies. *)

From stdpp Require Import base list.
From Stdlib Require Import Floats.SpecFloat.
From S2P Require Import Prelude JsString.

Local Open Scope Z_scope.

Abbreviation num := spec_float.

(** ** Conversions *)

Definition num_of_Z (z : Z) : num := binary_normalize 53 1024 z 0 false.

(** The double nearest to [p / q] ([0 < p], [0 < q]): the quotient is computed to at least
    56 bits, its last bit sticky, and rounded once. *)
Definition num_of_ratio (neg : bool) (p q : Z) : num :=
  let d := Z.log2 q - Z.log2 p + 57 in
  let p' := if 0 <=? d then Z.shiftl p d else p in
  let q' := if 0 <=? d then q else Z.shiftl q (- d) in
  let m := 2 * (p' / q') + (if p' mod q' =? 0 then 0 else 1) in
  binary_normalize 53 1024 (if neg then - m else m) (- d - 1) neg.

(** The double nearest to [m * 10 ^ e]. *)
Definition num_of_decimal (neg : bool) (m e : Z) : num :=
  if m =? 0 then S754_zero neg
  else if 400 <? e then S754_infinity neg
  else if e + Z.log2 m + 1 <? -400 then S754_zero neg
  else if 0 <=? e then
    binary_normalize 53 1024 (if neg then - (m * 10 ^ e) else m * 10 ^ e) 0 neg
  else num_of_ratio neg m (10 ^ (- e)).

Definition is_hex (a : ascii) : bool := is_digit a || in_range 65 70 a || in_range 97 102 a.
Definition hex_val (a : ascii) : Z :=
  if is_digit a then digit_val a else if in_range 65 70 a then code a - 55 else code a - 87.

Definition radix_int (b : Z) (s : jsstr) : Z := foldl (λ n a, b * n + hex_val a) 0 s.

(** A non-decimal literal after its prefix. *)
Definition parse_radix (b : Z) (s : jsstr) : num :=
  if truthy s && forallb (λ a, is_hex a && (hex_val a <? b)) s
  then num_of_Z (radix_int b s) else S754_nan.

(** The exponent part of a decimal literal, up to the end of the string. *)
Definition parse_exponent (s : jsstr) : option Z :=
  match s with
  | [] => Some 0
  | a :: s' =>
      if is_one_of "eE"%js a then
        let '(neg, ds) :=
          match s' with
          | b :: s'' => if is_ch "-" b then (true, s'') else if is_ch "+" b then (false, s'')
                        else (false, s')
          | [] => (false, [])
          end in
        if truthy ds && forallb is_digit ds
        then Some (if (neg : bool) then - digits_to_int ds else digits_to_int ds) else None
      else None
  end.

Definition parse_unsigned_decimal (neg : bool) (s : jsstr) : num :=
  if bool_decide (s = "Infinity"%js) then S754_infinity neg
  else
    let '(ds, r) := span is_digit s in
    let '(fs, r') := match r with
      | a :: r1 => if is_ch "." a then span is_digit r1 else ([], r)
      | [] => ([], [])
      end in
    if truthy (ds ++ fs) then
      match parse_exponent r' with
      | Some e => num_of_decimal neg (digits_to_int (ds ++ fs)) (e - Z.of_nat (length fs))
      | None => S754_nan
      end
    else S754_nan.

(** [Number(s)] (StringToNumber). *)
Definition string_to_number (s : jsstr) : num :=
  match trim s with
  | [] => S754_zero false
  | a :: t =>
      match t with
      | b :: u =>
          if is_ch "0" a && is_one_of "xX"%js b then parse_radix 16 u
          else if is_ch "0" a && is_one_of "oO"%js b then parse_radix 8 u
          else if is_ch "0" a && is_one_of "bB"%js b then parse_radix 2 u
          else if is_ch "-" a then parse_unsigned_decimal true t
          else if is_ch "+" a then parse_unsigned_decimal false t
          else parse_unsigned_decimal false (a :: t)
      | [] => parse_unsigned_decimal false [a]
      end
  end.

(** [String(n)]: the shortest decimal that reads back as [n]. *)
Definition is_finite_num (x : num) : bool :=
  match x with S754_zero _ | S754_finite _ _ _ => true | _ => false end.

(** The [n] with [10 ^ (n - 1) <= p / q < 10 ^ n], searched upwards from an estimate. *)
Fixpoint decimal_exponent (fuel : nat) (p q n : Z) : Z :=
  match fuel with
  | O => n
  | S f =>
      if (if 0 <=? n then p <? q * 10 ^ n else p * 10 ^ (- n) <? q) then n
      else decimal_exponent f p q (n + 1)
  end.

(** The [k]-digit decimals (or [10 ^ k]) around [p / q], those that round back to [x], the closer first. *)
Definition digits_candidate (x : num) (p q n k : Z) : option Z :=
  let s := k - n in
  let p' := if 0 <=? s then p * 10 ^ s else p in
  let q' := if 0 <=? s then q else q * 10 ^ (- s) in
  let f := p' / q' in
  let back c := (c <=? 10 ^ k) && (0 <? c) && SFeqb (num_of_decimal false c (n - k)) x in
  let lo_first := 2 * (p' mod q') <=? q' in
  let a := if lo_first then f else f + 1 in
  let b := if lo_first then f + 1 else f in
  if back a then Some a else if back b then Some b else None.

(** The digits, how many they are, and the exponent. *)
Fixpoint shortest_digits (fuel : nat) (x : num) (p q n k : Z) : Z * Z * Z :=
  match fuel with
  | O => (p / q, k, n)
  | S f =>
      match digits_candidate x p q n k with
      | Some d => if d =? 10 ^ k then (1, 1, n + 1) else (d, k, n)
      | None => shortest_digits f x p q n (k + 1)
      end
  end.

Definition repeat_zero (n : Z) : jsstr := replicate (Z.to_nat n) "0"%char.

(** Number::toString, from the digits [d] (there are [k]) and the exponent [n]. *)
Definition layout_number (d k n : Z) : jsstr :=
  let ds := nat_to_str d in
  if (k <=? n) && (n <=? 21) then ds ++ repeat_zero (n - k)
  else if (0 <? n) && (n <=? 21) then take (Z.to_nat n) ds ++ "."%js ++ drop (Z.to_nat n) ds
  else if (-6 <? n) && (n <=? 0) then "0."%js ++ repeat_zero (- n) ++ ds
  else
    let e := n - 1 in
    let es := (if 0 <=? e then "e+"%js else "e-"%js) ++ nat_to_str (Z.abs e) in
    take 1 ds ++ (if 1 <? k then "."%js ++ drop 1 ds else []) ++ es.

Definition number_to_string (x : num) : jsstr :=
  match x with
  | S754_nan => "NaN"%js
  | S754_zero _ => "0"%js
  | S754_infinity neg => (if neg then "-"%js else []) ++ "Infinity"%js
  | S754_finite neg m e =>
      let p := if 0 <=? e then Z.pos m * 2 ^ e else Z.pos m in
      let q := if 0 <=? e then 1 else 2 ^ (- e) in
      let est := (Z.log2 p - Z.log2 q) * 30103 / 100000 - 1 in
      let n := decimal_exponent 6 p q est in
      let '(d, k, n') := shortest_digits 17 (S754_finite false m e) p q n 1 in
      (if neg then "-"%js else []) ++ layout_number d k n'
  end.

(** ** Operators *)

Definition num_eqb : num → num → bool := SFeqb.
Definition num_ltb : num → num → bool := SFltb.
Definition num_leb : num → num → bool := SFleb.
Definition num_gtb (x y : num) : bool := SFltb y x.
Definition num_geb (x y : num) : bool := SFleb y x.
Definition num_add : num → num → num := SFadd 53 1024.
Definition num_sub : num → num → num := SFsub 53 1024.
Definition num_mul : num → num → num := SFmul 53 1024.
Definition num_div : num → num → num := SFdiv 53 1024.
Definition num_zero : num := S754_zero false.

(** A number is truthy unless it is zero or NaN. *)
Definition num_truthy (x : num) : bool :=
  match x with S754_zero _ | S754_nan => false | _ => true end.

(** [Math.floor(x)] as an integer, for a finite [x]. *)
Definition num_floor (x : num) : option Z :=
  match x with
  | S754_zero _ => Some 0
  | S754_finite neg m e =>
      let z := if (neg : bool) then Z.neg m else Z.pos m in
      Some (if 0 <=? e then z * 2 ^ e else z / 2 ^ (- e))
  | _ => None
  end.

(** ** Lemmas: comparison *)

Lemma SFcompare_flip x y :
  SFcompare y x = CompOpp <$> SFcompare x y.
Proof.
  assert (∀ p q, Pos.compare_cont Eq q p = CompOpp (Pos.compare_cont Eq p q)) as Hp.
  { intros p q. by rewrite Pos.compare_cont_antisym. }
  destruct x as [[]|[]| |[] m e], y as [[]|[]| |[] m' e']; try done; simpl;
    rewrite (Z.compare_antisym e e'), (Hp m m'); destruct (e ?= e'); simpl; try done;
    by rewrite ?CompOpp_involutive.
Qed.

Lemma SFcompare_total x y :
  is_finite_num x = true → is_finite_num y = true → ∃ c, SFcompare x y = Some c.
Proof.
  destruct x as [[]|[]| |[] m e], y as [[]|[]| |[] m' e']; simpl; intros; try done; eauto;
    destruct (e ?= e'); eauto.
Qed.

(** On finite numbers the five comparisons of the source are those of a total order. *)
Lemma num_order_finite x y :
  is_finite_num x = true → is_finite_num y = true →
  num_geb x y = negb (num_ltb x y) ∧ num_leb x y = negb (num_gtb x y) ∧
  num_eqb x y = num_leb x y && num_geb x y.
Proof.
  intros Hx Hy. destruct (SFcompare_total x y Hx Hy) as [c Hc].
  unfold num_geb, num_ltb, num_leb, num_gtb, num_eqb, SFltb, SFleb, SFeqb.
  rewrite (SFcompare_flip x y), Hc. by destruct c.
Qed.

(** ** The order of the numbers *)

Definition is_number (x : num) : bool := match x with S754_nan => false | _ => true end.

(** Where a number stands: its sign class, exponent and mantissa. *)
Definition num_rank (x : num) : Z * Z * Z :=
  match x with
  | S754_infinity true => (-2, 0, 0)
  | S754_finite true m e => (-1, - e, Z.neg m)
  | S754_zero _ => (0, 0, 0)
  | S754_finite false m e => (1, e, Z.pos m)
  | S754_infinity false => (2, 0, 0)
  | S754_nan => (3, 0, 0)
  end.

(** The comparison of two numbers, which is the sign of their difference when both are finite. *)
Definition num_cmp : num → num → Z :=
  cmp_or (λ x y, (num_rank x).1.1 - (num_rank y).1.1)
    (cmp_or (λ x y, (num_rank x).1.2 - (num_rank y).1.2) (λ x y, (num_rank x).2 - (num_rank y).2)).

#[export] Instance num_cmp_comparator : Comparator num_cmp.
Proof. unfold num_cmp. repeat apply cmp_or_comparator; by apply cmp_by_key. Qed.

Lemma SFcompare_rank x y :
  is_number x = true → is_number y = true → SFcompare x y = Some (num_cmp x y ?= 0).
Proof.
  destruct x as [[]|[]| |[] m e], y as [[]|[]| |[] m' e']; simpl; intros; try done;
    unfold num_cmp, cmp_or; simpl; f_equal.
  - destruct (Z.compare_spec e e'); [subst|..].
    + rewrite Z.sub_diag. simpl. change (Pos.compare_cont Eq m m') with (m ?= m')%positive.
      destruct (Pos.compare_spec m m'); simpl; subst; symmetry;
        [apply Z.compare_eq_iff|apply Z.compare_gt_iff|apply Z.compare_lt_iff]; lia.
    + rewrite (proj2 (Z.eqb_neq _ _)) by lia. symmetry. apply Z.compare_gt_iff. lia.
    + rewrite (proj2 (Z.eqb_neq _ _)) by lia. symmetry. apply Z.compare_lt_iff. lia.
  - destruct (Z.compare_spec e e'); [subst|..].
    + rewrite Z.sub_diag. simpl. change (Pos.compare_cont Eq m m') with (m ?= m')%positive.
      destruct (Pos.compare_spec m m'); simpl; subst; symmetry;
        [apply Z.compare_eq_iff|apply Z.compare_lt_iff|apply Z.compare_gt_iff]; lia.
    + rewrite (proj2 (Z.eqb_neq _ _)) by lia. symmetry. apply Z.compare_lt_iff. lia.
    + rewrite (proj2 (Z.eqb_neq _ _)) by lia. symmetry. apply Z.compare_gt_iff. lia.
Qed.

Lemma num_leb_cmp x y : is_number x = true → is_number y = true → num_leb x y = (num_cmp x y <=? 0).
Proof. intros Hx Hy. unfold num_leb, SFleb. by rewrite SFcompare_rank. Qed.

Lemma num_ltb_cmp x y : is_number x = true → is_number y = true → num_ltb x y = (num_cmp x y <? 0).
Proof. intros Hx Hy. unfold num_ltb, SFltb. by rewrite SFcompare_rank. Qed.

(** ** Sums of finite numbers are numbers *)

Lemma shr_nonneg m r s n :
  0 ≤ m → 0 ≤ shr_m (SpecFloat.iter_pos shr_1 n {| shr_m := m; shr_r := r; shr_s := s |}).
Proof.
  revert m r s. assert (∀ k mrs, 0 ≤ shr_m mrs → 0 ≤ shr_m (SpecFloat.iter_pos shr_1 k mrs)) as H; [|intros; by apply H].
  assert (∀ mrs, 0 ≤ shr_m mrs → 0 ≤ shr_m (shr_1 mrs)) as H1 by (intros [[|[]|[]] ? ?]; simpl; lia).
  induction k as [k IH|k IH|]; intros mrs Hm; simpl; [apply IH, IH, H1, Hm|apply IH, IH, Hm|apply H1, Hm].
Qed.

Lemma shr_fexp_nonneg m e l : 0 ≤ m → 0 ≤ shr_m (shr_fexp 53 1024 m e l).1.
Proof.
  intros Hm. unfold shr_fexp, shr. assert (0 ≤ shr_m (shr_record_of_loc m l)) as H by (by destruct l as [|[]]).
  destruct (_ - e)%Z as [|n|n]; simpl; [done| |done]. destruct (shr_record_of_loc m l). by apply shr_nonneg.
Qed.

Lemma round_aux_number s m e l : 0 ≤ m → is_number (binary_round_aux 53 1024 s m e l) = true.
Proof.
  intros Hm. unfold binary_round_aux. pose proof (shr_fexp_nonneg m e l Hm) as H1. destruct (shr_fexp _ _ m e l) as [r e1]. simpl in H1.
  assert (0 ≤ round_nearest_even (shr_m r) (loc_of_shr_record r)) as H2.
  { unfold round_nearest_even. destruct (loc_of_shr_record r) as [|[]]; [lia|destruct (Z.even _); lia|lia|lia]. }
  pose proof (shr_fexp_nonneg _ e1 loc_Exact H2) as H3. destruct (shr_fexp _ _ _ e1 _) as [r2 e2]. simpl in H3.
  destruct (shr_m r2); [done|by destruct (_ <=? _)|lia].
Qed.

Lemma num_add_number x y : is_finite_num x = true → is_finite_num y = true → is_number (num_add x y) = true.
Proof.
  intros Hx Hy. destruct x as [[]| | |sx mx ex], y as [[]| | |sy my ey]; try done. unfold num_add, SFadd, binary_normalize.
  destruct (_ + _)%Z; [done|..]; unfold binary_round; destruct (shl_align _ _ _); by apply round_aux_number.
Qed.

Lemma finite_is_number x : is_finite_num x = true → is_number x = true.
Proof. by destruct x. Qed.
