(* ===== verification/JsValue.v ===== *)
(** * JavaScript values of JSON-like data, and the conversions [String], [Boolean] *)

From stdpp Require Import base list.
From Stdlib Require Import Floats.SpecFloat.
From S2P Require Import Prelude JsString JsNumber.

(** A value of type [unknown] as the code receives it: an object is the list of its own
    properties. *)
Inductive jsval : Type :=
| VUndef
| VNull
| VBool (b : bool)
| VNum (n : num)
| VStr (s : jsstr)
| VArr (l : list jsval)
| VObj (fields : list (jsstr * jsval)).

Section JsvalInd.
Context (P : jsval → Prop).
Context (Hundef : P VUndef) (Hnull : P VNull) (Hbool : ∀ b, P (VBool b)) (Hnum : ∀ n, P (VNum n)).
Context (Hstr : ∀ s, P (VStr s)) (Harr : ∀ l, Forall P l → P (VArr l)).
Context (Hobj : ∀ fs, Forall (λ f, P f.2) fs → P (VObj fs)).

(** Induction that reaches the items of arrays and the properties of objects. *)
Fixpoint jsval_induction (v : jsval) : P v :=
  match v with
  | VUndef => Hundef
  | VNull => Hnull
  | VBool b => Hbool b
  | VNum n => Hnum n
  | VStr s => Hstr s
  | VArr l =>
      Harr l ((fix go l : Forall P l :=
        match l with
        | [] => Forall_nil_2 P
        | x :: l' => Forall_cons_2 P x l' (jsval_induction x) (go l')
        end) l)
  | VObj fs =>
      Hobj fs ((fix go fs : Forall (λ f, P f.2) fs :=
        match fs with
        | [] => Forall_nil_2 _
        | f :: fs' => Forall_cons_2 (λ f, P f.2) f fs' (jsval_induction f.2) (go fs')
        end) fs)
  end.
End JsvalInd.

(** [x?.name]: [undefined] on anything that is not an object with that property. *)
Definition get_prop (v : jsval) (name : jsstr) : jsval :=
  match v with
  | VObj fs => default VUndef (jm_get name fs)
  | _ => VUndef
  end.

Definition is_nullish (v : jsval) : bool :=
  match v with VUndef | VNull => true | _ => false end.

(** [a ?? b] *)
Definition nullish_or (a b : jsval) : jsval := if is_nullish a then b else a.

(** [Boolean(v)] *)
Definition js_truthy (v : jsval) : bool :=
  match v with
  | VUndef | VNull => false
  | VBool b => b
  | VNum n => num_truthy n
  | VStr s => truthy s
  | VArr _ | VObj _ => true
  end.

(** [String(v)]; an array joins its items with commas, skipping [null] and [undefined]. *)
Fixpoint js_to_string (v : jsval) : jsstr :=
  match v with
  | VUndef => "undefined"%js
  | VNull => "null"%js
  | VBool b => if b then "true"%js else "false"%js
  | VNum n => number_to_string n
  | VStr s => s
  | VArr l =>
      join ","%js
        (map (λ x, match x with VUndef | VNull => [] | _ => js_to_string x end) l)
  | VObj _ => "[object Object]"%js
  end.

(** A text column: NULL is [null]. *)
Definition nullable (o : option jsstr) : jsval := match o with Some s => VStr s | None => VNull end.

(** [Number(v)] *)
Definition js_number (v : jsval) : num :=
  match v with
  | VUndef => S754_nan
  | VNull => num_zero
  | VBool b => if b then num_of_Z 1 else num_zero
  | VNum n => n
  | _ => string_to_number (js_to_string v)
  end.

(** ** The validators' result [{ valid: errors.length === 0, errors }] *)

Record validation := Validation { valid : bool; errors : list jsstr }.

Definition validation_of (errs : list jsstr) : validation :=
  Validation (bool_decide (errs = [])) errs.

(** [if (b) errors.push(msg)] *)
Definition push_if (b : bool) (msg : jsstr) : list jsstr := if b then [msg] else [].

Lemma push_if_nil b msg : push_if b msg = [] ↔ b = false.
Proof. by destruct b. Qed.

Lemma validation_of_valid errs : valid (validation_of errs) = true ↔ errs = [].
Proof. apply bool_decide_eq_true. Qed.

Lemma flat_map_nil {A B} (f : A → list B) l : flat_map f l = [] ↔ ∀ x, x ∈ l → f x = [].
Proof.
  induction l as [|x l IH]; simpl; [set_solver|]. rewrite app_nil, IH.
  split; [intros [??] y [->|]%elem_of_cons; auto|]. intros H. split; [|intros y ?]; apply H; set_solver.
Qed.
