(* ===== verification/EmailPattern.v ===== *)
(** * The e-mail patterns

    [/[A-Z0-9._%+-]+@[A-Z0-9.-]+\.[A-Z]{2,}/gi] finds addresses in a header (rules, messages);
    [/^[^\s@]+@[^\s@]+\.[^\s@]+$/] checks an address a user typed (rule actions, calendar,
    contacts). *)

From stdpp Require Import base list.
From S2P Require Import Prelude JsString JsRegex.

Definition local_part (a : ascii) : bool :=
  is_ascii_upper a || is_digit a || is_one_of "._%+-"%js a.
Definition domain_part (a : ascii) : bool :=
  is_ascii_upper a || is_digit a || is_one_of ".-"%js a.

(** [/[A-Z0-9._%+-]+@[A-Z0-9.-]+\.[A-Z]{2,}/gi] *)
Definition email_re : regex :=
  rseq [rplus (RChr (ci local_part)); rchar "@"; rplus (RChr (ci domain_part)); rchar ".";
        ratleast 2 (RChr (ci is_ascii_upper))].

Definition address_char (a : ascii) : bool := negb (is_space a || is_ch "@" a).

Definition simple_email_re : regex :=
  rseq [RBegin; rplus (RChr address_char); rchar "@"; rplus (RChr address_char); rchar ".";
        rplus (RChr address_char); REnd].

(** Non-empty and without blanks or at signs. *)
Definition address_word (w : jsstr) : Prop := w ≠ [] ∧ Forall (λ a, address_char a = true) w.

Lemma sem_star_class p i u v : star_sem (sem (RChr p)) i u v ↔ Forall (λ a, p a = true) u.
Proof.
  split.
  - induction 1 as [|i u1 u2 v _ (a & -> & Ha) _ IH]; [constructor|]. by constructor.
  - intros Hu. revert i. induction Hu as [|a u Ha Hu IH]; intros i; [constructor|].
    change (a :: u) with ([a] ++ u). constructor; [done|by exists a|apply IH].
Qed.

Lemma sem_plus_class p i u v :
  sem (rplus (RChr p)) i u v ↔ u ≠ [] ∧ Forall (λ a, p a = true) u.
Proof.
  change (sem (rplus (RChr p)) i u v) with (∃ u1 u2, u = u1 ++ u2 ∧
    sem (RChr p) i u1 (u2 ++ v) ∧ star_sem (sem (RChr p)) (i + length u1) u2 v).
  split.
  - intros (u1 & u2 & -> & (a & -> & Ha) & Hs%sem_star_class). split; [done|]. by constructor.
  - intros [Hne Hu]. destruct u as [|a u]; [done|]. inversion_clear Hu.
    exists [a], u. split; [done|]. split; [by exists a|by apply sem_star_class].
Qed.

Lemma sem_char c i u v : sem (rchar c) i u v ↔ u = [c].
Proof.
  simpl. split; [intros (a & -> & Ha%bool_decide_eq_true); by rewrite Ha|].
  intros ->. exists c. split; [done|]. by apply bool_decide_eq_true.
Qed.

(** The pattern accepts exactly [word@word.word]. *)
(** Two words around one at sign, the second with a dot inside. *)
Definition simple_address (s : jsstr) : Prop :=
  ∃ u d t, s = u ++ "@"%js ++ d ++ "."%js ++ t ∧
           address_word u ∧ address_word d ∧ address_word t.

Lemma simple_email_spec s : re_test simple_email_re s = true ↔ simple_address s.
Proof.
  unfold simple_address. rewrite re_test_spec. unfold simple_email_re, address_word. cbn [rseq].
  split.
  - intros (pre & w & v & -> & H).
    destruct H as (e & w1 & -> & [-> Hpre] & u & w2 & -> & Hu%sem_plus_class & a & w3 & -> &
      Ha%sem_char & d & w4 & -> & Hd%sem_plus_class & b & w5 & -> & Hb%sem_char & t & w6 & -> &
      Ht%sem_plus_class & -> & ->).
    apply nil_length_inv in Hpre as ->. subst a b. exists u, d, t. by rewrite !app_nil_r.
  - intros (u & d & t & -> & Hu & Hd & Ht). exists [], (u ++ "@"%js ++ d ++ "."%js ++ t), [].
    split; [by rewrite app_nil_r|].
    exists [], (u ++ "@"%js ++ d ++ "."%js ++ t). split; [done|]. split; [done|].
    exists u, ("@"%js ++ d ++ "."%js ++ t). split; [done|]. rewrite sem_plus_class. split; [done|].
    exists "@"%js, (d ++ "."%js ++ t). rewrite sem_char. split; [done|]. split; [done|].
    exists d, ("."%js ++ t). rewrite sem_plus_class. split; [done|]. split; [done|].
    exists "."%js, t. rewrite sem_char. split; [done|]. split; [done|].
    exists t, []. rewrite sem_plus_class. split; [by rewrite app_nil_r|]. split; [done|]. done.
Qed.

Lemma email_re_at i u v : sem email_re i u v → "@"%char ∈ u.
Proof.
  unfold email_re. cbn [rseq]. intros (u1 & u2 & -> & _ & u3 & u4 & -> & (a & -> & Ha) & _).
  apply bool_decide_eq_true in Ha. set_solver.
Qed.

