(* ===== verification/RuleMatcher.v ===== *)
(** * Mail rules: types and matcher ([packages/core/src/rules/types.ts], [matcher.ts])

    A rule's condition compares a field of the message with a value of unknown type.  The
    [RegExp] constructor for patterns typed by users is the parameter [regexp_i]: [None]
    when it throws, otherwise the compiled pattern's [test]. *)

From stdpp Require Import base list.
From Stdlib Require Import Floats.SpecFloat.
From S2P Require Import Prelude JsString JsRegex JsNumber JsValue EmailPattern.

(** ** Types *)

(** [RuleFieldSchema] *)
Definition RuleFieldSchema : list jsstr :=
  ["from"; "to"; "cc"; "bcc"; "reply_to"; "subject"; "text"; "snippet"; "list_id";
   "subscription_key"; "has_attachments"; "size_bytes"]%js.

(** [RuleOperatorSchema] *)
Definition RuleOperatorSchema : list jsstr :=
  ["exists"; "not_exists"; "eq"; "not_eq"; "contains"; "not_contains"; "starts_with";
   "ends_with"; "regex"; "gt"; "gte"; "lt"; "lte"; "in"; "not_in"]%js.

(** A condition as it arrives: the matcher tests [field] and [op] at run time, so they are
    strings and not an enumeration. *)
Record RuleCondition := { field : jsstr; op : jsstr; value : jsval }.

Record RuleMatch := { version : num; logic : jsstr; conditions : list RuleCondition }.

(** The message, with [null] and absent optional scalars both [None]. *)
Record MessageForRules := {
  from : jsval; to : jsval; cc : jsval; bcc : jsval; replyTo : jsval;
  subject : option jsstr; text : option jsstr; snippet : option jsstr;
  listId : option jsstr; subscriptionKey : option jsstr;
  hasAttachments : option bool; sizeBytes : option num;
  headersJson : option (list (jsstr * jsval));
}.

(** ** [extractEmails] *)

Definition pushEmail (e : jsval) : list jsstr :=
  match e with
  | VStr s => if truthy s then map toLowerCase (re_match_all email_re s) else []
  | _ => []
  end.

(** The [address] of an object, pushed when it is a string with an at sign. *)
Definition pushAddress (v : jsval) : list jsstr :=
  match get_prop v "address"%js with
  | VStr a => if includes a "@"%js then [toLowerCase (trim a)] else []
  | _ => []
  end.

Fixpoint walk (x : jsval) : list jsstr :=
  match x with
  | VUndef | VNull | VBool _ | VNum _ => []
  | VStr _ => pushEmail x
  | VArr items => flat_map walk items
  | VObj _ =>
      pushAddress x ++
      (match get_prop x "value"%js with VArr items => flat_map pushAddress items | _ => [] end) ++
      (match get_prop x "text"%js with VStr t => pushEmail (VStr t) | _ => [] end)
  end.

Definition extractEmails (v : jsval) : jsstr := join ", "%js (set_of_list (walk v)).

(** ** Conversions *)

Definition asLowerString (v : jsval) : jsstr :=
  if is_nullish v then [] else toLowerCase (trim (js_to_string v)).

Definition isEmptyValue (v : jsval) : bool :=
  match v with
  | VUndef | VNull => true
  | VStr s => bool_decide (trim s = [])
  | _ => false
  end.

Definition toNumber (v : jsval) : num :=
  let n := match v with VNum n => n | _ => string_to_number (js_to_string v) end in
  if is_finite_num n then n else num_zero.

Definition toBool (v : jsval) : bool :=
  match v with
  | VBool b => b
  | VNum n => negb (num_eqb n num_zero)
  | _ =>
      let s := asLowerString v in
      if bool_decide (s = "true"%js) then true
      else if bool_decide (s = "false"%js) then false
      else truthy s
  end.

(** ** [getMessageFieldValue] *)

Definition header (m : MessageForRules) (name : jsstr) : jsval :=
  match headersJson m with Some fs => get_prop (VObj fs) name | None => VUndef end.

Definition str_or_empty (o : option jsstr) : jsval := VStr (default [] o).

Definition getMessageFieldValue (m : MessageForRules) (f : jsstr) : jsval :=
  if bool_decide (f = "from"%js) then VStr (extractEmails (nullish_or (from m) (header m "from"%js)))
  else if bool_decide (f = "to"%js) then VStr (extractEmails (nullish_or (to m) (header m "to"%js)))
  else if bool_decide (f = "cc"%js) then VStr (extractEmails (nullish_or (cc m) (header m "cc"%js)))
  else if bool_decide (f = "bcc"%js) then VStr (extractEmails (nullish_or (bcc m) (header m "bcc"%js)))
  else if bool_decide (f = "reply_to"%js) then
    VStr (extractEmails (nullish_or (replyTo m) (header m "reply-to"%js)))
  else if bool_decide (f = "subject"%js) then str_or_empty (subject m)
  else if bool_decide (f = "text"%js) then str_or_empty (text m)
  else if bool_decide (f = "snippet"%js) then str_or_empty (snippet m)
  else if bool_decide (f = "list_id"%js) then str_or_empty (listId m)
  else if bool_decide (f = "subscription_key"%js) then str_or_empty (subscriptionKey m)
  else if bool_decide (f = "has_attachments"%js) then VBool (default false (hasAttachments m))
  else if bool_decide (f = "size_bytes"%js) then VNum (default num_zero (sizeBytes m))
  else VStr [].

(** ** [evaluateCondition], [evaluateMatch], [validateRuleMatch] *)

(** [array.map(toNumber).includes(l)] *)
Definition includes_number (l : num) (items : list jsval) : bool :=
  existsb (λ x, num_eqb (toNumber x) l) items.

Definition includes_string (l : jsstr) (items : list jsval) : bool :=
  bool_decide (l ∈ map asLowerString items).

Definition evaluateNumeric (op : jsstr) (l r : num) (right : jsval) : bool :=
  if bool_decide (op = "eq"%js) then num_eqb l r
  else if bool_decide (op = "not_eq"%js) then negb (num_eqb l r)
  else if bool_decide (op = "gt"%js) then num_gtb l r
  else if bool_decide (op = "gte"%js) then num_geb l r
  else if bool_decide (op = "lt"%js) then num_ltb l r
  else if bool_decide (op = "lte"%js) then num_leb l r
  else if bool_decide (op = "in"%js) then
    match right with VArr items => includes_number l items | _ => false end
  else if bool_decide (op = "not_in"%js) then
    match right with VArr items => negb (includes_number l items) | _ => false end
  else false.

Section Matcher.
(** [new RegExp(pattern, 'i')] *)
Context (regexp_i : jsstr → option (jsstr → bool)).

Definition tryRegex (pattern : jsstr) : option (jsstr → bool) := regexp_i pattern.

Definition evaluateText (op : jsstr) (left right : jsval) : bool :=
  let l := asLowerString left in
  let rStr := asLowerString right in
  if bool_decide (op = "eq"%js) then bool_decide (l = rStr)
  else if bool_decide (op = "not_eq"%js) then bool_decide (l ≠ rStr)
  else if bool_decide (op = "contains"%js) then
    if truthy rStr then includes l rStr else false
  else if bool_decide (op = "not_contains"%js) then
    if truthy rStr then negb (includes l rStr) else true
  else if bool_decide (op = "starts_with"%js) then
    if truthy rStr then startsWith l rStr else false
  else if bool_decide (op = "ends_with"%js) then
    if truthy rStr then endsWith l rStr else false
  else if bool_decide (op = "regex"%js) then
    match (if truthy rStr then tryRegex (js_to_string right) else None) with
    | Some re => re (js_to_string (nullish_or left (VStr [])))
    | None => false
    end
  else if bool_decide (op = "in"%js) then
    match right with VArr items => includes_string l items | _ => false end
  else if bool_decide (op = "not_in"%js) then
    match right with VArr items => negb (includes_string l items) | _ => true end
  else false.

Definition evaluateCondition (m : MessageForRules) (c : RuleCondition) : bool :=
  let left := getMessageFieldValue m (field c) in
  let right := value c in
  if bool_decide (op c = "exists"%js) then negb (isEmptyValue left)
  else if bool_decide (op c = "not_exists"%js) then isEmptyValue left
  else if bool_decide (field c = "has_attachments"%js) then
    let l := toBool left in
    let r := toBool right in
    if bool_decide (op c = "eq"%js) then Bool.eqb l r
    else if bool_decide (op c = "not_eq"%js) then negb (Bool.eqb l r)
    else false
  else if bool_decide (field c = "size_bytes"%js) then
    evaluateNumeric (op c) (toNumber left) (toNumber right) right
  else evaluateText (op c) left right.

Definition evaluateMatch (m : MessageForRules) (match_ : RuleMatch) : bool :=
  let results := map (evaluateCondition m) (conditions match_) in
  if bool_decide (logic match_ = "any"%js) then existsb id results else forallb id results.

Definition conditionErrors (c : RuleCondition) : list jsstr :=
  push_if (negb (bool_decide (field c ∈ RuleFieldSchema))) ("Invalid field: "%js ++ field c) ++
  push_if (negb (bool_decide (op c ∈ RuleOperatorSchema))) ("Invalid operator: "%js ++ op c) ++
  push_if (negb (bool_decide (op c ∈ ["exists"; "not_exists"]%js)) &&
           match value c with VUndef => true | _ => false end)
    ("Condition "%js ++ field c ++ " "%js ++ op c ++ " requires a value"%js) ++
  (if bool_decide (op c = "regex"%js) && js_truthy (value c) then
     push_if (bool_decide (tryRegex (js_to_string (value c)) = None :> option (jsstr → bool)))
       ("Invalid regex pattern: "%js ++ js_to_string (value c))
   else []).

Definition validateRuleMatch (match_ : RuleMatch) : validation :=
  validation_of (
    push_if (negb (num_eqb (version match_) (num_of_Z 1))) "Unsupported rule version"%js ++
    push_if (negb (bool_decide (logic match_ ∈ ["all"; "any"]%js)))
      ("Invalid rule logic: must be "%js ++ quoted "all"%js ++ " or "%js ++ quoted "any"%js) ++
    push_if (bool_decide (conditions match_ = [])) "At least one condition is required"%js ++
    flat_map conditionErrors (conditions match_)).
End Matcher.

(** ** Specification: the condition that says the opposite *)

Definition with_op (c : RuleCondition) (o : jsstr) : RuleCondition :=
  {| field := field c; op := o; value := value c |}.

Definition is_array (v : jsval) : bool := match v with VArr _ => true | _ => false end.

(** The opposite of an operator, and where the two are opposite: order comparisons on the
    numeric field, [contains] on text fields, [in] with a list. *)
Definition opposite_ops : list (jsstr * jsstr) :=
  [("exists", "not_exists"); ("not_exists", "exists"); ("eq", "not_eq"); ("not_eq", "eq");
   ("gt", "lte"); ("lte", "gt"); ("lt", "gte"); ("gte", "lt");
   ("contains", "not_contains"); ("not_contains", "contains");
   ("in", "not_in"); ("not_in", "in")]%js.

Definition negatable (c : RuleCondition) : bool :=
  let numeric := bool_decide (field c = "size_bytes"%js) in
  let boolean := bool_decide (field c = "has_attachments"%js) in
  if bool_decide (op c ∈ ["gt"; "gte"; "lt"; "lte"]%js) then numeric
  else if bool_decide (op c ∈ ["contains"; "not_contains"]%js) then negb numeric && negb boolean
  else if bool_decide (op c ∈ ["in"; "not_in"]%js) then negb boolean && is_array (value c)
  else true.

Definition negation (c : RuleCondition) : option RuleCondition :=
  if negatable c then with_op c <$> jm_get (op c) opposite_ops else None.

(** ** Theorems *)

Lemma toNumber_finite v : is_finite_num (toNumber v) = true.
Proof. unfold toNumber. by case_if. Qed.

Section MatcherTheorems.
Context (regexp_i : jsstr → option (jsstr → bool)).
Implicit Types (m : MessageForRules) (c : RuleCondition).

Lemma evaluateNumeric_opposite l r v :
  is_finite_num l = true → is_finite_num r = true →
  let ev o := evaluateNumeric o l r v in
  ev "not_eq"%js = negb (ev "eq"%js) ∧ ev "lte"%js = negb (ev "gt"%js) ∧
  ev "gte"%js = negb (ev "lt"%js) ∧
  (is_array v = true → ev "not_in"%js = negb (ev "in"%js)).
Proof.
  intros Hl Hr ev. destruct (num_order_finite l r Hl Hr) as (H1 & H2 & _).
  unfold ev, evaluateNumeric. decide_closed. repeat split; try done. by destruct v.
Qed.

Lemma evaluateText_opposite left right :
  let ev o := evaluateText regexp_i o left right in
  ev "not_eq"%js = negb (ev "eq"%js) ∧
  ev "not_contains"%js = negb (ev "contains"%js) ∧
  (is_array right = true → ev "not_in"%js = negb (ev "in"%js)).
Proof.
  intros ev. unfold ev, evaluateText. cbv zeta.
  generalize (asLowerString left) (asLowerString right). intros l r. decide_closed. repeat split.
  - apply bool_decide_not.
  - by case_if.
  - by destruct right.
Qed.

Lemma evaluateCondition_opposite m c d :
  negation c = Some d →
  evaluateCondition regexp_i m d = negb (evaluateCondition regexp_i m c).
Proof.
  destruct c as [f o v]. unfold negation, negatable. cbn [field op value].
  intros H. match type of H with (if ?b then _ else _) = _ => destruct b eqn:Hn; [|done] end.
  apply fmap_Some in H as (o' & Ho & ->). apply jm_get_elem_of in Ho.
  revert Hn. unfold evaluateCondition, with_op. cbn [field op value].
  pose proof (evaluateNumeric_opposite (toNumber (getMessageFieldValue m f)) (toNumber v) v
    (toNumber_finite _) (toNumber_finite _)) as (N1 & N2 & N3 & N4).
  pose proof (evaluateText_opposite (getMessageFieldValue m f) v) as (T1 & T2 & T3).
  unfold opposite_ops in Ho.
  repeat (apply elem_of_cons in Ho as [Ho|Ho]; [simplify_eq|]); [..|set_solver];
    decide_closed; intros Hn; bool_to_prop; simplify_eq;
    repeat case_bool_decide; try done;
    rewrite ?N1, ?N2, ?N3, ?N4, ?T1, ?T2, ?T3, ?negb_involutive by done; done.
Qed.

(** Operators come in opposite pairs: on every message, a condition and its negation
    ([exists]/[not_exists], [eq]/[not_eq], [gt]/[lte] and [lt]/[gte] on the numeric field,
    [contains]/[not_contains] on text fields, [in]/[not_in] with a list) never agree. *)
Theorem evaluateCondition_negation m c d :
  negation c = Some d →
  evaluateCondition regexp_i m d = negb (evaluateCondition regexp_i m c).
Proof. apply evaluateCondition_opposite. Qed.
Lemma evaluateMatch_spec m mt :
  evaluateMatch regexp_i m mt = true ↔
  if bool_decide (logic mt = "any"%js)
  then ∃ c, c ∈ conditions mt ∧ evaluateCondition regexp_i m c = true
  else ∀ c, c ∈ conditions mt → evaluateCondition regexp_i m c = true.
Proof.
  unfold evaluateMatch. destruct (bool_decide _).
  - rewrite existsb_exists. split.
    + intros (b & Hb & Ht). apply in_map_iff in Hb as (c & <- & Hc). exists c.
      by rewrite list_elem_of_In.
    + intros (c & Hc & Ht). exists true. rewrite in_map_iff. split; [|done].
      exists c. by rewrite <- list_elem_of_In.
  - rewrite forallb_forall. split.
    + intros H c Hc. apply H, in_map_iff. exists c. by rewrite <- list_elem_of_In.
    + intros H b (c & <- & Hc)%in_map_iff. by apply H, list_elem_of_In.
Qed.

(** De Morgan for rules: replacing every condition of an [all] rule by its negation and
    [all] by [any] gives the rule that fires exactly when the first does not. *)
Theorem evaluateMatch_de_morgan m cs ds v w :
  Forall2 (λ c d, negation c = Some d) cs ds →
  evaluateMatch regexp_i m {| version := v; logic := "any"%js; conditions := ds |} =
  negb (evaluateMatch regexp_i m {| version := w; logic := "all"%js; conditions := cs |}).
Proof.
  intros H. unfold evaluateMatch. cbn [logic conditions]. decide_closed.
  induction H as [|c d cs ds Hcd _ IH]; simpl; [done|].
  rewrite IH, (evaluateCondition_opposite m c d) by done. unfold id. by rewrite negb_andb.
Qed.

(** What is compared is the trimmed lower-case text of the value. *)
Lemma asLowerString_canonical s : asLowerString (VStr (toLowerCase (trim s))) = asLowerString (VStr s).
Proof.
  unfold asLowerString. simpl.
  by rewrite trim_lower, toLowerCase_idemp, trim_idemp.
Qed.

(** Text conditions ignore the case and the surrounding blanks of the value a user typed,
    for every operator but [regex]. *)
Theorem evaluateCondition_value_canonical m f o s :
  o ≠ "regex"%js → f ≠ "size_bytes"%js →
  evaluateCondition regexp_i m {| field := f; op := o; value := VStr (toLowerCase (trim s)) |} =
  evaluateCondition regexp_i m {| field := f; op := o; value := VStr s |}.
Proof.
  intros Ho Hf. unfold evaluateCondition. cbn [field op value].
  rewrite (bool_decide_false (f = "size_bytes"%js)) by done.
  unfold toBool at 2 4, evaluateText. rewrite asLowerString_canonical.
  by rewrite (bool_decide_false (o = "regex"%js)) by done.
Qed.

(** The text operators are ordered: a value that is not blank and equals the field is also
    its prefix and its suffix, and a prefix or a suffix is contained in the field. *)
Theorem evaluateText_implications left right :
  let ev o := evaluateText regexp_i o left right = true in
  asLowerString right ≠ [] →
  (ev "eq"%js → ev "starts_with"%js ∧ ev "ends_with"%js) ∧
  (ev "starts_with"%js ∨ ev "ends_with"%js → ev "contains"%js).
Proof.
  intros ev Hr. unfold ev, evaluateText. cbv zeta. revert Hr.
  generalize (asLowerString left) (asLowerString right). intros l r Hr. decide_closed.
  rewrite (proj2 (truthy_spec r)) by done. rewrite bool_decide_eq_true. split.
  - intros ->. by rewrite startsWith_spec, endsWith_spec.
  - intros [?|?]; [by apply startsWith_includes|by apply endsWith_includes].
Qed.

(** Every part of [conditionErrors] that may be non-empty. *)
Lemma conditionErrors_nil c :
  conditionErrors regexp_i c = [] ↔
  field c ∈ RuleFieldSchema ∧ op c ∈ RuleOperatorSchema ∧
  (op c ∉ ["exists"; "not_exists"]%js → value c ≠ VUndef) ∧
  (op c = "regex"%js → js_truthy (value c) = true → is_Some (regexp_i (js_to_string (value c)))).
Proof.
  unfold conditionErrors. rewrite !app_nil, !push_if_nil, !negb_false_iff, !bool_decide_eq_true.
  rewrite andb_false_iff, negb_false_iff, bool_decide_eq_true.
  assert ((match value c with VUndef => true | _ => false end = false) ↔ value c ≠ VUndef) as ->
    by (by destruct (value c)).
  destruct (decide (op c = "regex"%js)) as [Ho|Ho].
  - rewrite (bool_decide_true (op c = _)) by done. destruct (js_truthy (value c)); simpl.
    + rewrite push_if_nil, bool_decide_eq_false, <- not_eq_None_Some. unfold tryRegex.
      destruct (decide (op c ∈ ["exists"; "not_exists"]%js)); naive_solver.
    + destruct (decide (op c ∈ ["exists"; "not_exists"]%js)); naive_solver.
  - rewrite (bool_decide_false (op c = _)) by done. simpl.
    destruct (decide (op c ∈ ["exists"; "not_exists"]%js)); naive_solver.
Qed.

(** [validateRuleMatch] accepts exactly the matches with version 1, a known logic, at least
    one condition, and conditions whose field and operator are known, whose value is present
    unless the operator is an existence test, and whose pattern compiles. *)
Theorem validateRuleMatch_spec mt :
  valid (validateRuleMatch regexp_i mt) = true ↔
  num_eqb (version mt) (num_of_Z 1) = true ∧ logic mt ∈ ["all"; "any"]%js ∧
  conditions mt ≠ [] ∧
  ∀ c, c ∈ conditions mt →
    field c ∈ RuleFieldSchema ∧ op c ∈ RuleOperatorSchema ∧
    (op c ∉ ["exists"; "not_exists"]%js → value c ≠ VUndef) ∧
    (op c = "regex"%js → js_truthy (value c) = true → is_Some (regexp_i (js_to_string (value c)))).
Proof.
  unfold validateRuleMatch. rewrite validation_of_valid, !app_nil, !push_if_nil, flat_map_nil.
  rewrite !negb_false_iff, bool_decide_eq_true, bool_decide_eq_false.
  setoid_rewrite conditionErrors_nil. done.
Qed.
End MatcherTheorems.

(** ** Addresses *)

Definition good_address (x : jsstr) : Prop := toLowerCase x = x ∧ "@"%char ∈ x.

Lemma lower_at_elem s : "@"%char ∈ s → "@"%char ∈ toLowerCase s.
Proof. intros H. apply list_elem_of_fmap. by exists "@"%char. Qed.

Lemma pushEmail_good v x : x ∈ pushEmail v → good_address x.
Proof.
  destruct v as [| | | |s| |]; simpl; try set_solver. case_if; [|set_solver].
  rewrite list_elem_of_In, in_map_iff. intros (w & <- & Hw).
  apply list_elem_of_In, re_match_all_sem in Hw as (i & v & Hs).
  split; [apply toLowerCase_idemp|]. by eapply lower_at_elem, email_re_at.
Qed.

Lemma pushAddress_good v x : x ∈ pushAddress v → good_address x.
Proof.
  unfold pushAddress. destruct (get_prop v _) as [| | | |a| |]; try set_solver.
  case_if; [|set_solver]. intros ->%list_elem_of_singleton.
  split; [apply toLowerCase_idemp|]. apply lower_at_elem, elem_of_trim; [|done].
  by apply includes_elem.
Qed.

Lemma flat_map_good {A} (f : A → list jsstr) l x :
  (∀ v, v ∈ l → ∀ x, x ∈ f v → good_address x) → x ∈ flat_map f l → good_address x.
Proof.
  intros Hf. rewrite list_elem_of_In, in_flat_map. intros (v & Hv & Hx).
  eapply Hf; by apply list_elem_of_In.
Qed.

Lemma walk_good v x : x ∈ walk v → good_address x.
Proof.
  revert x. induction v as [| | | | |l IH|fs _] using jsval_induction; intros x;
    try (simpl; set_solver).
  - apply pushEmail_good.
  - apply flat_map_good. intros v Hv. rewrite Forall_forall in IH. by apply IH.
  - cbn [walk]. rewrite !elem_of_app. intros [H|[H|H]]; [by eapply pushAddress_good| |].
    + destruct (get_prop _ _); try set_solver. revert H. apply flat_map_good.
      intros v _ y. apply pushAddress_good.
    + destruct (get_prop _ _); try set_solver. by eapply pushEmail_good.
Qed.

(** Whatever the header looks like (string, address object, list of either, nested), the
    addresses [extractEmails] joins are distinct, in lower case, and each has an at sign. *)
Theorem extractEmails_addresses v :
  ∃ l, extractEmails v = join ", "%js l ∧ NoDup l ∧
       ∀ x, x ∈ l → toLowerCase x = x ∧ "@"%char ∈ x.
Proof.
  exists (set_of_list (walk v)). split; [done|]. split; [apply set_of_list_NoDup|].
  intros x Hx. rewrite elem_of_set_of_list in Hx. by apply walk_good in Hx.
Qed.

(** ** Witnesses *)

Definition ex_no_regexp : jsstr → option (jsstr → bool) := λ _, None.
Definition ex_msg : MessageForRules := {|
  from := VStr "Ann <ann@x.io>"%js; to := VUndef; cc := VUndef; bcc := VUndef; replyTo := VUndef;
  subject := Some "Weekly report"%js; text := None; snippet := None; listId := None;
  subscriptionKey := None; hasAttachments := None; sizeBytes := None; headersJson := None |}.
Definition ex_c1 : RuleCondition := {| field := "subject"%js; op := "contains"%js; value := VStr "report"%js |}.
Definition ex_c2 : RuleCondition := {| field := "from"%js; op := "in"%js; value := VArr [VStr "bob@x.io"%js] |}.
Definition ex_d1 := with_op ex_c1 "not_contains"%js.
Definition ex_d2 := with_op ex_c2 "not_in"%js.

Lemma evaluateCondition_negation_witness :
  negation ex_c1 = Some ex_d1 ∧ evaluateCondition ex_no_regexp ex_msg ex_c1 = true ∧
  evaluateCondition ex_no_regexp ex_msg ex_d1 = negb (evaluateCondition ex_no_regexp ex_msg ex_c1).
Proof.
  split; [reflexivity|]. split; [vm_compute; reflexivity|].
  apply (evaluateCondition_negation ex_no_regexp ex_msg ex_c1 ex_d1). reflexivity.
Defined.

Lemma evaluateMatch_de_morgan_witness :
  evaluateMatch ex_no_regexp ex_msg {| version := num_of_Z 1; logic := "any"%js; conditions := [ex_d1; ex_d2] |} =
  negb (evaluateMatch ex_no_regexp ex_msg
    {| version := num_of_Z 1; logic := "all"%js; conditions := [ex_c1; ex_c2] |}).
Proof.
  apply (evaluateMatch_de_morgan ex_no_regexp ex_msg [ex_c1; ex_c2] [ex_d1; ex_d2]).
  repeat constructor.
Defined.

Lemma evaluateCondition_value_canonical_witness :
  evaluateCondition ex_no_regexp ex_msg
    {| field := "subject"%js; op := "contains"%js; value := VStr (toLowerCase (trim " REPORT "%js)) |} =
  evaluateCondition ex_no_regexp ex_msg
    {| field := "subject"%js; op := "contains"%js; value := VStr " REPORT "%js |}.
Proof.
  apply (evaluateCondition_value_canonical ex_no_regexp ex_msg); decide_closed; discriminate.
Defined.

Lemma evaluateText_implications_witness :
  evaluateText ex_no_regexp "contains"%js (VStr "Weekly report"%js) (VStr "weekly"%js) = true.
Proof.
  apply (evaluateText_implications ex_no_regexp (VStr "Weekly report"%js) (VStr "weekly"%js)).
  - discriminate.
  - left. vm_compute. reflexivity.
Defined.
