(* ===== verification/RuleActions.v ===== *)
(** * Mail rules: actions ([packages/core/src/rules/actions.ts])

    Validation, ordering and merging of the actions of the rules that matched. *)

From stdpp Require Import base list.
From S2P Require Import Prelude JsString JsRegex JsNumber JsValue EmailPattern RuleMatcher.

(** ** Types *)

(** [RuleActionTypeSchema] *)
Definition RuleActionTypeSchema : list jsstr :=
  ["move_to_mailbox"; "add_label"; "remove_label"; "mark_read"; "mark_unread"; "star";
   "unstar"; "archive"; "trash"; "delete"; "forward"; "reply"; "skip_inbox";
   "mark_important"; "mark_not_important"]%js.

Record RuleAction := { type : jsstr; value : option jsstr }.

Record MailRule := {
  rule_id : jsstr; rule_ownerId : jsstr; rule_identityId : jsstr; rule_name : jsstr;
  rule_description : option jsstr; rule_match : RuleMatch; rule_actions : list RuleAction;
  rule_isEnabled : bool; rule_stopProcessing : bool; rule_order : num;
  rule_createdAt : Z; rule_updatedAt : Z;
}.

Record ActionResult := { ar_action : RuleAction; ar_success : bool; ar_error : option jsstr }.

Record RuleResult := {
  rr_rule : MailRule; rr_matched : bool; rr_actions : list ActionResult; rr_stopProcessing : bool;
}.

(** ** [validateRuleActions] *)

Definition requirementErrors (a : RuleAction) : list jsstr :=
  if bool_decide (type a = "move_to_mailbox"%js) then
    push_if (negb (opt_truthy (value a))) "move_to_mailbox requires a mailbox ID"%js
  else if bool_decide (type a ∈ ["add_label"; "remove_label"]%js) then
    push_if (negb (opt_truthy (value a))) (type a ++ " requires a label ID"%js)
  else if bool_decide (type a = "forward"%js) then
    push_if (match value a with
             | Some v => negb (truthy v) || negb (re_test simple_email_re v)
             | None => true
             end) "forward requires a valid email address"%js
  else [].

(** The conflicts looked for at one action, given the types seen so far (its own included). *)
Definition conflictErrors (t : jsstr) (actionTypes : list jsstr) : list jsstr :=
  let has x := bool_decide (x ∈ actionTypes) in
  push_if (bool_decide (t = "mark_read"%js) && has "mark_unread"%js)
    "Cannot have both mark_read and mark_unread actions"%js ++
  push_if (bool_decide (t = "star"%js) && has "unstar"%js)
    "Cannot have both star and unstar actions"%js ++
  push_if (bool_decide (t = "mark_important"%js) && has "mark_not_important"%js)
    "Cannot have both mark_important and mark_not_important actions"%js ++
  push_if (bool_decide (t = "archive"%js) && has "trash"%js)
    "Cannot have both archive and trash actions"%js ++
  push_if (bool_decide (t = "delete"%js) && (has "archive"%js || has "trash"%js))
    "Cannot combine delete with archive or trash"%js.

Fixpoint actionsErrors (actionTypes : list jsstr) (actions : list RuleAction) : list jsstr :=
  match actions with
  | [] => []
  | a :: rest =>
      let actionTypes' := set_add (type a) actionTypes in
      push_if (bool_decide (type a ∈ actionTypes)) ("Duplicate action: "%js ++ type a) ++
      requirementErrors a ++ conflictErrors (type a) actionTypes' ++
      actionsErrors actionTypes' rest
  end.

Definition validateRuleActions (actions : list RuleAction) : validation :=
  match actions with
  | [] => Validation false ["At least one action is required"%js]
  | _ => validation_of (actionsErrors [] actions)
  end.

(** ** Descriptions, priorities, classification *)

Definition describeAction (a : RuleAction) : jsstr :=
  if bool_decide (type a = "forward"%js) then
    "Forward to "%js ++ default "undefined"%js (value a)
  else
    default (type a) (jm_get (type a)
      [("move_to_mailbox", "Move to folder"); ("add_label", "Add label");
       ("remove_label", "Remove label"); ("mark_read", "Mark as read");
       ("mark_unread", "Mark as unread"); ("star", "Add star"); ("unstar", "Remove star");
       ("archive", "Archive"); ("trash", "Move to trash"); ("delete", "Delete permanently");
       ("reply", "Send auto-reply"); ("skip_inbox", "Skip inbox");
       ("mark_important", "Mark as important");
       ("mark_not_important", "Mark as not important")]%js).

Definition priorities : list (jsstr * Z) :=
  [("add_label"%js, 1); ("remove_label"%js, 2);
   ("mark_read"%js, 10); ("mark_unread"%js, 10); ("star"%js, 11); ("unstar"%js, 11);
   ("mark_important"%js, 12); ("mark_not_important"%js, 12);
   ("skip_inbox"%js, 20);
   ("move_to_mailbox"%js, 30); ("archive"%js, 31); ("trash"%js, 32);
   ("forward"%js, 40); ("reply"%js, 41);
   ("delete"%js, 100)]%Z.

Definition getActionPriority (t : jsstr) : Z := default 50%Z (jm_get t priorities).

Definition sortActionsByPriority (actions : list RuleAction) : list RuleAction :=
  sort_by (λ a b, getActionPriority (type a) - getActionPriority (type b))%Z actions.

Definition isFlsagModifyingAction (t : jsstr) : bool :=
  bool_decide (t ∈ ["mark_read"; "mark_unread"; "star"; "unstar"; "mark_important";
                    "mark_not_important"]%js).
Definition isMovingAction (t : jsstr) : bool :=
  bool_decide (t ∈ ["move_to_mailbox"; "archive"; "trash"; "delete"]%js).
Definition isExternalAction (t : jsstr) : bool := bool_decide (t ∈ ["forward"; "reply"]%js).

(** ** [mergeRuleResults] *)

Record Merged := { appliedRules : list MailRule; allActions : list RuleAction; merge_errors : list jsstr }.

(** One action result, added to what was collected. *)
Definition merge_action (name : jsstr) (acc : list RuleAction * list jsstr) (r : ActionResult) :
    list RuleAction * list jsstr :=
  if ar_success r then (acc.1 ++ [ar_action r], acc.2)
  else match ar_error r with
       | Some e => if truthy e then (acc.1, acc.2 ++ ["Rule "%js ++ quoted name ++ ": "%js ++ e]) else acc
       | None => acc
       end.

Fixpoint merge_loop (results : list RuleResult) (acc : Merged) : Merged :=
  match results with
  | [] => acc
  | r :: rest =>
      if negb (rr_matched r) then merge_loop rest acc
      else
        let '(acts, errs) :=
          foldl (merge_action (rule_name (rr_rule r))) (allActions acc, merge_errors acc)
            (rr_actions r) in
        let acc' := {| appliedRules := appliedRules acc ++ [rr_rule r];
                       allActions := acts; merge_errors := errs |} in
        if rr_stopProcessing r then acc' else merge_loop rest acc'
  end.

Definition mergeRuleResults (results : list RuleResult) : Merged :=
  merge_loop results {| appliedRules := []; allActions := []; merge_errors := [] |}.

(** ** Specifications *)

(** [x] is rejected when [y] came before it. *)
Definition conflicts : list (jsstr * jsstr) :=
  [("mark_read", "mark_unread"); ("star", "unstar"); ("mark_important", "mark_not_important");
   ("archive", "trash"); ("delete", "archive"); ("delete", "trash")]%js.

(** What an action needs to carry. *)
Definition requirement (a : RuleAction) : Prop :=
  (type a ∈ ["move_to_mailbox"; "add_label"; "remove_label"]%js → opt_truthy (value a) = true) ∧
  (type a = "forward"%js → ∃ v, value a = Some v ∧ re_test simple_email_re v = true).

(** The results that are looked at: up to the first matched rule that stops. *)
Fixpoint processed (results : list RuleResult) : list RuleResult :=
  match results with
  | [] => []
  | r :: rest => if rr_matched r && rr_stopProcessing r then [r] else r :: processed rest
  end.

Definition succeeded (r : RuleResult) : list RuleAction :=
  flat_map (λ x, if ar_success x then [ar_action x] else []) (rr_actions r).

Definition reported (r : RuleResult) : list jsstr :=
  flat_map (λ x, if ar_success x then [] else
    match ar_error x with
    | Some e => push_if (truthy e) ("Rule "%js ++ quoted (rule_name (rr_rule r)) ++ ": "%js ++ e)
    | None => []
    end) (rr_actions r).

(** ** Theorems *)

Lemma foldl_merge_action r acc :
  foldl (merge_action (rule_name (rr_rule r))) acc (rr_actions r) =
  (acc.1 ++ succeeded r, acc.2 ++ reported r).
Proof.
  unfold succeeded, reported. revert acc. induction (rr_actions r) as [|x l IH]; intros [a e]; simpl.
  - by rewrite !app_nil_r.
  - rewrite IH. unfold merge_action. destruct (ar_success x); simpl; [by rewrite <- app_assoc|].
    destruct (ar_error x) as [s|]; simpl; [|done]. destruct (truthy s); simpl; [|done].
    by rewrite <- app_assoc.
Qed.

Lemma merge_loop_spec results acc :
  let ms := filter (λ r, rr_matched r = true) (processed results) in
  merge_loop results acc =
  {| appliedRules := appliedRules acc ++ map rr_rule ms;
     allActions := allActions acc ++ flat_map succeeded ms;
     merge_errors := merge_errors acc ++ flat_map reported ms |}.
Proof.
  revert acc. induction results as [|r rest IH]; intros acc; simpl.
  - rewrite !app_nil_r. by destruct acc.
  - destruct (rr_matched r) eqn:Em; simpl.
    + rewrite foldl_merge_action. destruct (rr_stopProcessing r); simpl;
        rewrite filter_cons_True by done; simpl.
      * by rewrite !app_nil_r.
      * rewrite IH. simpl. by rewrite <- !app_assoc.
    + rewrite IH. by rewrite filter_cons_False by congruence.
Qed.

(** Merging keeps, in order, the rules that matched up to and including the first matched
    rule that stops processing, all their successful actions, and one message per failed action
    that carries an error; later rules contribute nothing. *)
Theorem mergeRuleResults_spec results :
  let ms := filter (λ r, rr_matched r = true) (processed results) in
  mergeRuleResults results =
  {| appliedRules := map rr_rule ms; allActions := flat_map succeeded ms;
     merge_errors := flat_map reported ms |}.
Proof. apply merge_loop_spec. Qed.

Lemma requirementErrors_nil a : requirementErrors a = [] ↔ requirement a.
Proof.
  unfold requirementErrors, requirement.
  destruct (decide (type a = "move_to_mailbox"%js)) as [->|H1].
  { decide_closed. rewrite push_if_nil, negb_false_iff. set_solver. }
  rewrite (bool_decide_false (type a = _)) by done. case_bool_decide as H2.
  { rewrite push_if_nil, negb_false_iff. split; [|set_solver].
    intros Hv. split; [done|]. intros Hf. rewrite Hf in H2. set_solver. }
  case_bool_decide as H3.
  - rewrite push_if_nil. split.
    + intros H. split; [set_solver|]. intros _. destruct (value a) as [v|]; [|done].
      apply orb_false_elim in H as [_ H]. exists v. by apply negb_false_iff in H.
    + intros [_ H]. destruct (H H3) as (v & -> & Hv). rewrite Hv.
      destruct v; [by vm_compute in Hv|done].
  - split; [|done]. intros _. split; [set_solver|done].
Qed.

Lemma conflictErrors_nil t seen :
  conflictErrors t seen = [] ↔ ∀ y, (t, y) ∈ conflicts → y ∉ seen.
Proof.
  unfold conflictErrors. rewrite !app_nil, !push_if_nil, !andb_false_iff, orb_false_iff,
    !bool_decide_eq_false. unfold conflicts. split.
  - intros H y Hy. repeat (apply elem_of_cons in Hy as [Hy|Hy]; [simplify_eq; naive_solver|]).
    set_solver.
  - intros H.
    assert (∀ x y, (x, y) ∈ conflicts → t ≠ x ∨ y ∉ seen) as Hxy.
    { intros x y Hin. destruct (decide (t = x)) as [->|]; [right; by apply H|by left]. }
    destruct (decide (t = "delete"%js)) as [->|Hd].
    + do 4 (split; [by left|]). right. split; apply H; set_solver.
    + do 4 (split; [apply Hxy; unfold conflicts; set_solver|]). by left.
Qed.

(** Types of the actions, read with the types seen before them. *)
Definition no_conflict (seen : list jsstr) (ts : list jsstr) : Prop :=
  ∀ l1 x l2 y, ts = l1 ++ x :: l2 → (x, y) ∈ conflicts → y ∉ seen ++ l1.

Lemma conflicts_irrefl x : (x, x) ∉ conflicts.
Proof.
  unfold conflicts. intros H. repeat (apply elem_of_cons in H as [H|H]; [simplify_eq|]). set_solver.
Qed.

Lemma actionsErrors_nil seen actions :
  actionsErrors seen actions = [] ↔
  NoDup (map type actions) ∧ (∀ a, a ∈ actions → type a ∉ seen) ∧
  (∀ a, a ∈ actions → requirement a) ∧ no_conflict seen (map type actions).
Proof.
  revert seen. induction actions as [|a rest IH]; intros seen; simpl.
  { split; [|done]. intros _. split; [constructor|]. split; [set_solver|]. split; [set_solver|].
    intros [|] ????; done. }
  rewrite !app_nil, push_if_nil, bool_decide_eq_false, requirementErrors_nil,
    conflictErrors_nil, IH, NoDup_cons.
  assert (type a ∉ map type rest ↔ ∀ b, b ∈ rest → type b ≠ type a) as Hfresh.
  { rewrite list_elem_of_In, in_map_iff. setoid_rewrite list_elem_of_In. naive_solver. }
  rewrite Hfresh. split.
  - intros (Hs & Hr & Hc & Hnd & Hseen & Hreq & Hnc). split; [split; [|done]|].
    { intros b Hb Heq. apply (Hseen b Hb). rewrite elem_of_set_add. auto. }
    split; [|split].
    + intros b [->|Hb]%elem_of_cons; [done|]. intros H. apply (Hseen b Hb), elem_of_set_add. auto.
    + intros b [->|Hb]%elem_of_cons; auto.
    + intros [|z l1] x l2 y Heq Hxy; simplify_eq/=.
      * rewrite app_nil_r. intros H. apply (Hc y Hxy), elem_of_set_add. auto.
      * specialize (Hnc l1 x l2 y H0 Hxy). rewrite not_elem_of_app, elem_of_set_add in Hnc.
        set_solver.
  - intros ((Hf & Hnd) & Hseen & Hreq & Hnc). split; [apply Hseen; set_solver|].
    split; [apply Hreq; set_solver|]. split; [|split; [done|split; [|split]]].
    + intros y Hy. rewrite elem_of_set_add. intros [->|Hin]; [by eapply conflicts_irrefl|].
      apply (Hnc [] (type a) (map type rest) y); [done|done|]. by rewrite app_nil_r.
    + intros b Hb. rewrite elem_of_set_add. intros [H|H]; [by apply (Hf b Hb)|].
      apply (Hseen b); set_solver.
    + intros b Hb. apply Hreq; set_solver.
    + intros l1 x l2 y Heq Hxy. rewrite Heq in Hnc.
      specialize (Hnc (type a :: l1) x l2 y eq_refl Hxy).
      rewrite not_elem_of_app, elem_of_set_add in *. set_solver.
Qed.

(** [validateRuleActions] accepts exactly the non-empty lists of actions of distinct types,
    each carrying what it needs, in which no action comes after one it conflicts with. *)
Theorem validateRuleActions_spec actions :
  valid (validateRuleActions actions) = true ↔
  actions ≠ [] ∧ NoDup (map type actions) ∧ (∀ a, a ∈ actions → requirement a) ∧
  ∀ l1 x l2 y, map type actions = l1 ++ x :: l2 → (x, y) ∈ conflicts → y ∉ l1.
Proof.
  destruct actions as [|a rest]; [by split; [|intros [? _]]|].
  unfold validateRuleActions. rewrite validation_of_valid, actionsErrors_nil.
  unfold no_conflict. simpl. set_solver.
Qed.

(** The conflict check depends on the order: for each conflicting pair the list is rejected
    in one order and accepted in the other (the required values being present). *)
Theorem validateRuleActions_order_dependent x y :
  (x, y) ∈ conflicts →
  let act t := {| type := t; value := None |} in
  valid (validateRuleActions [act x; act y]) = true ∧
  valid (validateRuleActions [act y; act x]) = false.
Proof.
  unfold conflicts. intros H.
  repeat (apply elem_of_cons in H as [H|H]; [simplify_eq; vm_compute; done|]). set_solver.
Qed.

Lemma validateRuleActions_order_dependent_witness :
  ("mark_read", "mark_unread")%js ∈ conflicts ∧
  valid (validateRuleActions [{| type := "mark_read"%js; value := None |};
                              {| type := "mark_unread"%js; value := None |}]) = true.
Proof.
  split; [vm_compute; left|].
  apply (validateRuleActions_order_dependent "mark_read"%js "mark_unread"%js). vm_compute; left.
Defined.

Lemma priority_delete t :
  (getActionPriority "delete"%js ≤ getActionPriority t)%Z → t = "delete"%js.
Proof.
  unfold getActionPriority. change (default _ (jm_get "delete"%js priorities)) with 100%Z.
  destruct (jm_get t priorities) as [n|] eqn:E; simpl; [|lia].
  apply jm_get_elem_of in E. unfold priorities in E. intros H.
  repeat (apply elem_of_cons in E as [E|E]; [simplify_eq; done || lia|]). set_solver.
Qed.

(** Sorting by priority keeps every action, never runs a higher number before a lower one,
    keeps the order of actions of equal priority, and puts a [delete] after all others. *)
Theorem sortActionsByPriority_spec actions :
  let s := sortActionsByPriority actions in
  s ≡ₚ actions ∧
  (∀ l1 a l2 b l3, s = l1 ++ a :: l2 ++ b :: l3 →
     (getActionPriority (type a) ≤ getActionPriority (type b))%Z) ∧
  (∀ p, filter (λ a, getActionPriority (type a) = p) s =
        filter (λ a, getActionPriority (type a) = p) actions) ∧
  (∀ l1 a l2 b l3, s = l1 ++ a :: l2 ++ b :: l3 → type a = "delete"%js → type b = "delete"%js).
Proof.
  intros s. unfold s, sortActionsByPriority.
  split; [apply sort_by_perm|]. assert (∀ l1 a l2 b l3,
    sort_by (λ a b, getActionPriority (type a) - getActionPriority (type b))%Z actions =
      l1 ++ a :: l2 ++ b :: l3 →
    (getActionPriority (type a) ≤ getActionPriority (type b))%Z) as Hle.
  { intros l1 a l2 b l3 H.
    pose proof (sort_by_sorted (λ a b, getActionPriority (type a) - getActionPriority (type b))%Z
      actions) as Hs. rewrite H in Hs. apply sorted_by_before in Hs. lia. }
  split; [exact Hle|]. split; [apply (sort_by_key_stable (λ a, getActionPriority (type a)))|].
  intros l1 a l2 b l3 H Ha. apply Hle in H. rewrite Ha in H. by apply priority_delete in H.
Qed.
