(* ===== verification/MailTypes.v ===== *)
(** * Mail: data types ([packages/core/src/mail/types.ts])

    The types zod infers from the schemas.  A date is its [getTime()] in milliseconds, a
    nullable or optional property is an [option]; counters and orders are integers. *)

From stdpp Require Import base list.
From S2P Require Import Prelude JsString.

Record Address := { email : jsstr; addr_name : option jsstr }.

#[export] Instance Address_eq_dec : EqDecision Address.
Proof. solve_decision. Defined.

Record Message := {
  id : jsstr; threadId : jsstr; mailboxId : jsstr; ownerId : jsstr;
  messageId : option jsstr; inReplyTo : option jsstr; references : list jsstr;
  subject : jsstr; from : Address; to : list Address;
  cc : option (list Address); bcc : option (list Address); replyTo : option Address;
  date : Z; text : option jsstr; html : option jsstr; snippet : jsstr;
  seen : bool; flagged : bool; answered : bool; draft : bool; hasAttachments : bool;
  sizeBytes : Z; createdAt : Z; updatedAt : Z;
}.

Record Thread := {
  th_id : jsstr; th_ownerId : jsstr; th_subject : jsstr; th_snippet : jsstr;
  th_messageCount : Z; th_unreadCount : Z; th_starred : bool; th_hasAttachments : bool;
  th_latestMessageAt : Z; th_participants : list Address; th_createdAt : Z; th_updatedAt : Z;
}.

(** A role is one of the strings [inbox], [sent], [drafts], [trash], [spam], [archive],
    [custom]; code that receives a mailbox compares it as a string. *)
Record Mailbox := {
  mb_id : jsstr; mb_identityId : jsstr; mb_ownerId : jsstr; mb_name : jsstr; mb_slug : jsstr;
  mb_role : jsstr; mb_icon : option jsstr; mb_color : option jsstr;
  mb_unreadCount : Z; mb_totalCount : Z; mb_order : Z; mb_isSystem : bool; mb_isHidden : bool;
  mb_createdAt : Z; mb_updatedAt : Z;
}.

Record ComposeAttachment := { att_filename : jsstr; att_contentType : jsstr; att_content : jsstr }.

Record ComposeRequest := {
  cr_identityId : jsstr; cr_to : list Address; cr_cc : option (list Address);
  cr_bcc : option (list Address); cr_subject : jsstr; cr_text : option jsstr;
  cr_html : option jsstr; cr_inReplyTo : option jsstr; cr_references : option (list jsstr);
  cr_attachments : option (list ComposeAttachment); cr_scheduledAt : option Z;
  cr_saveToDrafts : option bool;
}.
