(* ===== verification/MailMessage.v ===== *)
(** * Mail: messages ([packages/core/src/mail/message.ts])

    [Buffer.from(content, 'base64').length] belongs to the Node runtime: it is the parameter
    [base64_length] of [validateComposeRequest]. *)

From stdpp Require Import base list.
From S2P Require Import Prelude JsString JsRegex JsValue EmailPattern MailTypes.

(** ** Addresses *)

(** What [extractEmails] accepts: nothing, a header, an address, or a list of addresses. *)
Inductive email_source :=
| SNone
| SString (s : jsstr)
| SAddress (address name : option jsstr)
| SList (value : list (option jsstr * option jsstr)).

Definition no_name (e : jsstr) : Address := {| email := e; addr_name := None |}.

(** [filter((v) => v.address)] then [map]. *)
Definition list_addresses (value : list (option jsstr * option jsstr)) : list Address :=
  flat_map (λ v, match v.1 with
    | Some a => if truthy a then [{| email := toLowerCase a; addr_name := v.2 |}] else []
    | None => []
    end) value.

Definition extractEmails (value : email_source) : list Address :=
  match value with
  | SNone => []
  | SString s => if truthy s then map (λ e, no_name (toLowerCase e)) (re_match_all email_re s) else []
  | SList value => list_addresses value
  | SAddress address name => list_addresses [(address, name)]
  end.

(** ** Snippets *)

Definition quote_s : jsstr := [dquote].

(** [/<tag[^>]*>[\s\S]*?<\/tag>/gi] *)
Definition element_re (tag : jsstr) : regex :=
  rseq [rlit_ci ("<"%js ++ tag); rstar (rnot (is_ch ">")); rchar ">"; rlazy rany;
        rlit_ci ("</"%js ++ tag ++ ">"%js)].

(** [/<[^>]+>/g] *)
Definition tag_re : regex := rseq [rchar "<"; rplus (rnot (is_ch ">")); rchar ">"].

Definition replace_lit (p w s : jsstr) : jsstr := re_replace_all (rlit p) (λ _, w) s.

Arguments replace_lit (p w)%_js_scope s.

Definition strip_html (html : jsstr) : jsstr :=
  replace_lit "&#39;" "'"
   (replace_lit "&quot;" quote_s
    (replace_lit "&gt;" ">"
     (replace_lit "&lt;" "<"
      (replace_lit "&amp;" "&"
       (replace_lit "&nbsp;" " "
        (re_replace_all tag_re (λ _, " "%js)
         (re_replace_all (element_re "script"%js) (λ _, [])
          (re_replace_all (element_re "style"%js) (λ _, []) html)))))))).

(** [content.replace(/\s+/g, ' ').trim()] *)
Definition squash (s : jsstr) : jsstr :=
  trim (re_replace_all (rplus (RChr is_space)) (λ _, " "%js) s).

Definition generateSnippet (text html : option jsstr) (maxLength : Z) : jsstr :=
  let content := default [] text in
  let content :=
    match html with
    | Some h => if negb (truthy content) && truthy h then strip_html h else content
    | None => content
    end in
  let content := squash content in
  if (maxLength <? Z.of_nat (length content))%Z
  then substring content 0 (maxLength - 3) ++ "..."%js
  else content.

Definition hasAttachments (contentType : option jsstr) : bool :=
  match contentType with
  | None => false
  | Some c =>
      if truthy c then
        includes (toLowerCase c) "multipart/mixed"%js || includes (toLowerCase c) "attachment"%js
      else false
  end.

(** ** Threading headers *)

(** [/<([^>]+)>/] *)
Definition angle_re : regex :=
  rseq [rchar "<"; RGroup 1 (rplus (rnot (is_ch ">"))); rchar ">"].

Definition parseInReplyTo (inReplyTo : option jsstr) : option jsstr :=
  match inReplyTo with
  | None => None
  | Some s =>
      if truthy s then
        match re_exec angle_re s with
        | Some m => group 1 (rm_caps m)
        | None => Some (trim s)
        end
      else None
  end.

Definition parseReferences (references : option jsstr) : list jsstr :=
  match references with
  | None => []
  | Some s => if truthy s then map (λ ref, slice ref 1 (-1)) (re_match_all tag_re s) else []
  end.

(** ** Display *)

Definition formatAddress (a : Address) : jsstr :=
  match addr_name a with
  | Some n => if truthy n then n ++ " <"%js ++ email a ++ ">"%js else email a
  | None => email a
  end.

Definition formatAddresses (addresses : list Address) : jsstr :=
  join ", "%js (map formatAddress addresses).

(** ** Compose requests *)

Definition MAX_ATTACHMENT_SIZE : Z := (25 * 1024 * 1024)%Z.

Definition validateComposeRequest (base64_length : jsstr → Z) (r : ComposeRequest) : validation :=
  validation_of (
    push_if (bool_decide (cr_to r = [])) "At least one recipient is required"%js ++
    push_if (negb (truthy (trim (cr_subject r)))) "Subject is required"%js ++
    push_if (negb (opt_truthy (trim <$> cr_text r)) && negb (opt_truthy (trim <$> cr_html r)))
      "Message body is required"%js ++
    flat_map (λ att, push_if (MAX_ATTACHMENT_SIZE <? base64_length (att_content att))%Z
        ("Attachment "%js ++ quoted (att_filename att) ++ " exceeds maximum size of 25MB"%js))
      (default [] (cr_attachments r))).

(** ** Subjects *)

(** [/^(re|fw|fwd):\s*/i] *)
Definition reply_re : regex :=
  rseq [RBegin; RGroup 1 (ralt [rlit_ci "re"; rlit_ci "fw"; rlit_ci "fwd"]%js); rchar ":";
        rstar (RChr is_space)].

Definition isReply (subject : jsstr) : bool := re_test reply_re subject.

Definition cleanSubject (subject : jsstr) : jsstr :=
  trim (re_replace_all reply_re (λ _, []) subject).

Definition compareByDate (a b : Message) (ascending : bool) : Z :=
  let diff := (date a - date b)%Z in if ascending then diff else (- diff)%Z.

(** ** Snippets: theorems *)

(** The only white space is single blanks. *)
Definition single_spaced (s : jsstr) : Prop :=
  (∀ a, a ∈ s → is_space a = true → a = " "%char) ∧
  (∀ u a b v, s = u ++ a :: b :: v → is_space a = true → is_space b = false).

Lemma single_spaced_infix u s v : single_spaced (u ++ s ++ v) → single_spaced s.
Proof.
  intros [H1 H2]. split; [intros a Ha; apply H1; set_solver|].
  intros u' a b v' ->. apply (H2 (u ++ u') a b (v' ++ v)). by rewrite <- !app_assoc.
Qed.

Lemma single_spaced_cons a s :
  single_spaced (a :: s) ↔
  (is_space a = true → a = " "%char ∧ ∀ b, head s = Some b → is_space b = false) ∧ single_spaced s.
Proof.
  split.
  - intros H. split; [|by apply (single_spaced_infix [a] s []); rewrite app_nil_r].
    destruct H as [H1 H2]. intros Ha. split; [apply H1; set_solver|].
    intros b Hb. destruct s as [|b' s]; simplify_eq/=. by apply (H2 [] a b s).
  - intros [Ha [H1 H2]]. split.
    + intros b [->|Hb]%elem_of_cons; [naive_solver|by apply H1].
    + intros [|c u] x y v Heq Hx; simplify_eq/=; [by apply Ha|]. by apply (H2 u x y v).
Qed.

Lemma collapse_single_spaced s b :
  single_spaced (collapse is_space " "%js b s) ∧
  (b = true → ∀ a, head (collapse is_space " "%js b s) = Some a → is_space a = false).
Proof.
  revert b. induction s as [|a s IH]; intros b; simpl.
  - split; [|done]. split; [set_solver|]. by intros [].
  - destruct (is_space a) eqn:E.
    + destruct (IH true) as [H1 H2]. destruct b; simpl; [auto|].
      split; [|done]. apply single_spaced_cons. auto.
    + split; [|intros _ ? [= <-]; done]. apply single_spaced_cons. split; [congruence|apply IH].
Qed.

Lemma trim_infix s : ∃ u v, s = u ++ trim s ++ v.
Proof.
  destruct (trim_start_split s) as (u & Hu & _).
  destruct (trim_start_split (reverse (trim_start s))) as (v & Hv & _).
  exists u, (reverse v). unfold trim, trim_end. rewrite <- reverse_app, <- Hv, reverse_involutive.
  done.
Qed.

Lemma squash_single_spaced s : single_spaced (squash s) ∧ no_edge_space (squash s).
Proof.
  unfold squash. split; [|apply trim_edges]. rewrite re_replace_plus.
  destruct (trim_infix (collapse is_space " "%js false s)) as (u & v & H).
  apply (single_spaced_infix u _ v). rewrite <- H. apply collapse_single_spaced.
Qed.

Lemma single_spaced_no_space s : (∀ a, a ∈ s → is_space a = false) → single_spaced s.
Proof.
  intros H. split; [intros a Ha Hs; by rewrite H in Hs|].
  intros u a b v -> Ha. rewrite H in Ha; [done|]. set_solver.
Qed.

Lemma single_spaced_dots s n : single_spaced s → single_spaced (take n s ++ "..."%js).
Proof.
  revert n. induction s as [|a s IH]; intros n H.
  - rewrite take_nil. apply single_spaced_no_space. simpl. intros a Ha.
    repeat (apply elem_of_cons in Ha as [->|Ha]; [done|]). set_solver.
  - apply single_spaced_cons in H as [Ha Hs]. destruct n as [|n]; [apply (IH 0 Hs)|].
    simpl. apply single_spaced_cons. split; [|by apply IH].
    intros H. destruct (Ha H) as [? Hb]. split; [done|]. intros b.
    destruct s as [|b' s]; [destruct n; by intros [= <-]|].
    destruct n; [by intros [= <-]|]. intros [= <-]. by apply Hb.
Qed.

(** A snippet fits the requested length (when that leaves room for the ellipsis), its only
    white space is single blanks, it never starts with one, and it is the whole squashed content
    when that is short enough. *)
Theorem generateSnippet_spec text html n :
  (3 ≤ n)%Z →
  let s := generateSnippet text html n in
  (Z.of_nat (length s) ≤ n)%Z ∧ single_spaced s ∧ (∀ a, head s = Some a → is_space a = false).
Proof.
  intros Hn s. unfold s, generateSnippet. clear s.
  match goal with |- context [squash ?x] => set (c := squash x); pose proof (squash_single_spaced x)
    as [Hs [Hh _]] end. fold c in Hs, Hh.
  destruct (n <? Z.of_nat (length c))%Z eqn:E; zsolve; [|done].
  rewrite substring_prefix. split; [|split].
  - rewrite length_app, length_take. simpl. lia.
  - by apply single_spaced_dots.
  - intros a. destruct c as [|b c']; [simpl in E; lia|].
    destruct (Z.to_nat (n - 3)); simpl; intros [= <-]; [done|by apply Hh].
Qed.

Lemma generateSnippet_spec_witness :
  (3 ≤ 12)%Z ∧ generateSnippet (Some "hello   world  again"%js) None 12 = "hello wor..."%js ∧
  (Z.of_nat (length (generateSnippet (Some "hello   world  again"%js) None 12)) ≤ 12)%Z.
Proof.
  split; [done|]. split; [vm_compute; reflexivity|].
  apply (generateSnippet_spec (Some "hello   world  again"%js) None 12). done.
Defined.

(** ** References: theorems *)

Definition reference (r : jsstr) : Prop := r ≠ [] ∧ ">"%char ∉ r.

#[export] Instance reference_dec r : Decision (reference r).
Proof. unfold reference. apply _. Defined.

Definition bracket (r : jsstr) : jsstr := "<"%js ++ r ++ ">"%js.

Lemma sem_tag i u v : sem tag_re i u v ↔ ∃ r, u = bracket r ∧ reference r.
Proof.
  assert (∀ w : jsstr, Forall (λ a, negb (is_ch ">" a) = true) w ↔ ">"%char ∉ w) as Hw.
  { intros w. rewrite Forall_forall. setoid_rewrite negb_true_iff.
    setoid_rewrite bool_decide_eq_false. naive_solver. }
  unfold tag_re, reference, bracket. cbn [rseq].
  change (sem (RSeq ?a (RSeq ?b ?c)) i u v) with (∃ u1 u2, u = u1 ++ u2 ∧ sem a i u1 (u2 ++ v) ∧
    ∃ u3 u4, u2 = u3 ++ u4 ∧ sem b (i + length u1) u3 (u4 ++ v) ∧
      sem c (i + length u1 + length u3) u4 v).
  setoid_rewrite sem_char. setoid_rewrite sem_plus_class. setoid_rewrite Hw. naive_solver.
Qed.

Lemma bracket_inj r r' x y :
  reference r → reference r' → bracket r ++ x = bracket r' ++ y → r = r' ∧ x = y.
Proof.
  intros [_ Hr] [_ Hr'] H. unfold bracket in H. rewrite <- !app_assoc in H. simplify_eq/=.
  by apply app_sep_inj in H.
Qed.

Lemma tag_re_hit i r v :
  reference r → ∃ c, match_at tag_re i (bracket r ++ v) =
    Some (MRes (i + length (bracket r)) v c).
Proof.
  intros Hr. apply match_at_unique; [apply sem_tag; eauto|].
  intros u' v' Heq (r' & -> & Hr')%sem_tag. by apply bracket_inj in Heq as [-> _].
Qed.

Lemma tag_re_miss i a s : a ≠ "<"%char → match_at tag_re i (a :: s) = None.
Proof.
  intros Ha. destruct (match_at tag_re i (a :: s)) as [m|] eqn:E; [|done].
  apply match_at_Some in E as (u & Hu & _ & (r & -> & _)%sem_tag). by simplify_eq/=.
Qed.

Lemma scan_references i refs gap :
  Forall reference refs →
  scan_texts tag_re i (join " "%js (map bracket refs)) gap = map bracket refs.
Proof.
  intros Hrefs. revert i gap. induction Hrefs as [|r refs Hr Hrefs IH]; intros i gap.
  { by apply scan_texts_nil. }
  destruct refs as [|r' refs].
  - simpl join. rewrite <- (app_nil_r (bracket r)) at 1.
    destruct (tag_re_hit i r [] Hr) as [c Hc]. rewrite (scan_texts_hit _ _ _ _ c) by done.
    by rewrite scan_texts_nil.
  - change (join " "%js (map bracket (r :: r' :: refs))) with
      (bracket r ++ " "%char :: join " "%js (map bracket (r' :: refs))).
    destruct (tag_re_hit i r (" "%char :: join " "%js (map bracket (r' :: refs))) Hr) as [c Hc].
    rewrite (scan_texts_hit _ _ _ _ c) by done. rewrite scan_texts_miss by by apply tag_re_miss.
    by rewrite IH.
Qed.

Lemma slice_bracket r : slice (bracket r) 1 (-1) = r.
Proof.
  unfold slice, rel_index, bracket. simpl. rewrite length_app. simpl.
  replace (Z.to_nat (Z.of_nat (S (length r + 1)) + -1) - 1) with (length r) by lia.
  rewrite drop_0. apply take_app_length.
Qed.

(** Reading back a References header written the standard way (message ids between angle
    brackets, separated by blanks) yields exactly the ids, in order. *)
Theorem parseReferences_roundtrip refs :
  Forall reference refs →
  parseReferences (Some (join " "%js (map bracket refs))) = refs.
Proof.
  intros Hrefs. unfold parseReferences. destruct (truthy _) eqn:E.
  - rewrite re_match_all_texts, scan_references, map_map by done.
    rewrite (map_ext _ (λ r, r) slice_bracket). apply map_id.
  - apply truthy_false in E. destruct refs as [|r [|]]; done.
Qed.

Lemma parseReferences_roundtrip_witness :
  parseReferences (Some "<a@x> <b@y>"%js) = ["a@x"; "b@y"]%js.
Proof.
  apply (parseReferences_roundtrip ["a@x"; "b@y"]%js).
  apply (bool_decide_unpack _). vm_compute. exact I.
Defined.

(** ** Subjects: theorems *)

Definition reply_words : list jsstr := ["re"; "fw"; "fwd"]%js.

Lemma sem_reply i u v :
  sem reply_re i u v ↔
  i = 0 ∧ ∃ p w, u = p ++ ":"%char :: w ∧ toLowerCase p ∈ reply_words ∧
    Forall (λ a, is_space a = true) w.
Proof.
  unfold reply_re. cbn [rseq ralt].
  change (sem (RSeq RBegin ?r) i u v) with (∃ u1 u2, u = u1 ++ u2 ∧ (u1 = [] ∧ i = 0) ∧
    sem r (i + length u1) u2 v).
  assert (∀ j u v, sem (RSeq (RGroup 1 (RAlt (rlit_ci "re"%js) (RAlt (rlit_ci "fw"%js)
    (rlit_ci "fwd"%js)))) (RSeq (rchar ":") (rstar (RChr is_space)))) j u v ↔
    ∃ p w, u = p ++ ":"%char :: w ∧ toLowerCase p ∈ reply_words ∧
      Forall (λ a, is_space a = true) w) as Hr.
  { intros j u' v'.
    change (sem (RSeq (RGroup 1 (RAlt ?a (RAlt ?b ?c))) (RSeq ?d (rstar (RChr ?p)))) j u' v') with
      (∃ u1 u2, u' = u1 ++ u2 ∧ (sem a j u1 (u2 ++ v') ∨ sem b j u1 (u2 ++ v') ∨
         sem c j u1 (u2 ++ v')) ∧
       ∃ u3 u4, u2 = u3 ++ u4 ∧ sem d (j + length u1) u3 (u4 ++ v') ∧
         star_sem (sem (RChr p)) (j + length u1 + length u3) u4 v').
    setoid_rewrite sem_char. setoid_rewrite sem_star_class.
    unfold reply_words. split.
    - intros (p & u2 & -> & Hp & u3 & w & -> & -> & Hw). exists p, w. split; [done|].
      rewrite !sem_lit_ci in Hp by (first [done | repeat constructor]). set_solver.
    - intros (p & w & -> & Hp & Hw). exists p, (":"%char :: w). split; [done|].
      rewrite !sem_lit_ci by (first [done | repeat constructor]). split; [set_solver|].
      by exists ":"%js, w. }
  setoid_rewrite Hr. split.
  - intros (u1 & u2 & -> & [-> ->] & p & w & -> & Hp & Hw).
    split; [done|]. by exists p, w.
  - intros [-> (p & w & -> & Hp & Hw)]. exists [], (p ++ ":"%char :: w).
    split_and!; try done. by exists p, w.
Qed.

Lemma reply_word_no_colon p : toLowerCase p ∈ reply_words → ":"%char ∉ p.
Proof.
  intros Hp Hc. assert (":"%char ∈ toLowerCase p) as H.
  { apply list_elem_of_fmap. by exists ":"%char. }
  unfold reply_words in Hp.
  repeat (apply elem_of_cons in Hp as [Hp|Hp];
    [rewrite Hp in H; repeat (apply elem_of_cons in H as [H|H]; [done|]); set_solver|]).
  set_solver.
Qed.

Lemma isReply_spec s :
  isReply s = true ↔ ∃ p t, s = p ++ ":"%char :: t ∧ toLowerCase p ∈ reply_words.
Proof.
  unfold isReply. rewrite re_test_spec. setoid_rewrite sem_reply. split.
  - intros (pre & u & v & -> & H0 & p & w & -> & Hp & Hw). apply nil_length_inv in H0 as ->.
    exists p, (w ++ v). by rewrite <- app_assoc.
  - intros (p & t & -> & Hp). exists [], (p ++ ":"%js), t. simpl.
    split; [by rewrite <- app_assoc|]. split; [done|]. exists p, []. auto.
Qed.

(** [cleanSubject] removes exactly one reply or forward prefix, in any case, and the blanks
    around what is left; a subject without a prefix is only trimmed. *)
Theorem cleanSubject_spec s :
  (∀ p t, s = p ++ ":"%char :: t → toLowerCase p ∈ reply_words → cleanSubject s = trim t) ∧
  (isReply s = false → cleanSubject s = trim s).
Proof.
  unfold cleanSubject.
  assert (∀ i t, 0 < i → match_at reply_re i t = None) as Hanch by (intros; by apply match_at_begin).
  rewrite re_replace_anchored by done. destruct (match_at reply_re 0 s) as [m|] eqn:E.
  - apply match_at_Some in E as (u & Hu & He & (_ & p & w & -> & Hp & Hw)%sem_reply).
    rewrite He, length_app. simpl. rewrite Nat.add_succ_r. simpl.
    split.
    + intros q t Hs Hq. rewrite Hu, <- app_assoc in Hs. simpl in Hs.
      apply app_sep_inj in Hs as [-> <-]; [|by apply reply_word_no_colon..].
      by rewrite trim_skip.
    + intros Hn. exfalso. assert (isReply s = true); [|congruence].
      apply isReply_spec. exists p, (w ++ m_rest m). split; [|done].
      rewrite Hu at 1. by rewrite <- app_assoc.
  - split; [|done]. intros p t -> Hp. exfalso. change (p ++ ":"%char :: t) with
      (p ++ ":"%js ++ t) in E. rewrite app_assoc in E.
    apply match_at_None in E. apply E, sem_reply. split; [done|]. exists p, []. auto.
Qed.

Lemma cleanSubject_spec_witness :
  isReply "Re: Re: Hi"%js = true ∧ cleanSubject "Re: Re: Hi"%js = "Re: Hi"%js.
Proof.
  split; [vm_compute; reflexivity|].
  apply (proj1 (cleanSubject_spec "Re: Re: Hi"%js) "Re"%js " Re: Hi"%js); [reflexivity|].
  vm_compute. left.
Defined.

(** ** Compose requests: theorems *)

(** A compose request is valid exactly when it has a recipient, a subject and a body that
    are not blank, and no attachment above 25 MB. *)
Theorem validateComposeRequest_spec base64_length r :
  valid (validateComposeRequest base64_length r) = true ↔
  cr_to r ≠ [] ∧ trim (cr_subject r) ≠ [] ∧
  ((∃ t, cr_text r = Some t ∧ trim t ≠ []) ∨ (∃ h, cr_html r = Some h ∧ trim h ≠ [])) ∧
  ∀ atts att, cr_attachments r = Some atts → att ∈ atts →
    (base64_length (att_content att) ≤ MAX_ATTACHMENT_SIZE)%Z.
Proof.
  assert (∀ o, opt_truthy (trim <$> o) = true ↔ ∃ t, o = Some t ∧ trim t ≠ []) as Ho.
  { intros [t|]; simpl; rewrite ?truthy_spec; naive_solver. }
  unfold validateComposeRequest. rewrite validation_of_valid, !app_nil, !push_if_nil, flat_map_nil.
  rewrite bool_decide_eq_false, negb_false_iff, truthy_spec, andb_false_iff, !negb_false_iff, !Ho.
  setoid_rewrite push_if_nil. setoid_rewrite Z.ltb_ge.
  destruct (cr_attachments r) as [atts|]; simpl; [naive_solver|].
  split; [naive_solver|]. intros (? & ? & ? & _). repeat split; try done. set_solver.
Qed.
