(* ===== verification/MailThread.v ===== *)
(** * Mail: threads ([packages/core/src/mail/thread.ts])

    The nodes [buildThreadTree] links are shared mutable objects: the model keeps them in a
    heap.  After the creation loop the map [nodeMap] holds exactly one node per message id and
    no other reference to a node exists, so the id is the reference. *)

From stdpp Require Import base list gmap.
From S2P Require Import Prelude JsString JsRegex MailTypes MailMessage.

(** ** Grouping *)

(** [b.date.getTime() - a.date.getTime()] *)
Definition newest_first (a b : Message) : Z := (date b - date a)%Z.

(** [if (!map.has(a.email)) map.set(a.email, a)] *)
Definition add_participant (m : jsmap jsstr Address) (a : Address) : jsmap jsstr Address :=
  if jm_has (email a) m then m else jm_set (email a) a m.

Definition participantMap (messages : list Message) : jsmap jsstr Address :=
  foldl (λ m msg, foldl add_participant (add_participant m (from msg)) (to msg)) [] messages.

Record Aggregates := {
  ag_unreadCount : Z; ag_starred : bool; ag_hasAttachments : bool; ag_messageCount : Z;
}.

Definition unread (messages : list Message) : Z :=
  Z.of_nat (length (filter (λ m, seen m = false) messages)).

Definition calculateThreadAggregates (messages : list Message) : Aggregates := {|
  ag_unreadCount := unread messages;
  ag_starred := existsb flagged messages;
  ag_hasAttachments := existsb MailTypes.hasAttachments messages;
  ag_messageCount := Z.of_nat (length messages);
|}.

Definition groupMessagesIntoThread (messages : list Message) : option Thread :=
  let sorted := sort_by newest_first messages in
  match head sorted, last sorted with
  | Some latest, Some oldest => Some {|
      th_id := threadId latest;
      th_ownerId := ownerId latest;
      th_subject := cleanSubject (subject latest);
      th_snippet := snippet latest;
      th_messageCount := Z.of_nat (length messages);
      th_unreadCount := unread messages;
      th_starred := existsb flagged messages;
      th_hasAttachments := existsb MailTypes.hasAttachments messages;
      th_latestMessageAt := date latest;
      th_participants := (participantMap messages).*2;
      th_createdAt := createdAt oldest;
      th_updatedAt := updatedAt latest;
    |}
  | _, _ => None
  end.

(** ** Membership *)

Definition threadMessageIds (threadMessages : list Message) : list jsstr :=
  flat_map (λ m, match messageId m with Some i => if truthy i then [i] else [] | None => [] end)
    threadMessages.

Definition isMessageInThread (message : Message) (threadMessages : list Message) : bool :=
  existsb (λ tm, opt_truthy (messageId tm) &&
      (bool_decide (inReplyTo tm = messageId message) ||
       bool_decide (default [] (messageId message) ∈ references tm))) threadMessages ||
  match inReplyTo message with
  | Some r => truthy r && bool_decide (r ∈ threadMessageIds threadMessages)
  | None => false
  end ||
  existsb (λ ref, bool_decide (ref ∈ threadMessageIds threadMessages)) (references message).

(** ** The conversation tree *)

Record ThreadNode := { tn_message : Message; tn_children : list jsstr; tn_depth : Z }.

Record Tree := { nodes : gmap jsstr ThreadNode; roots : list jsstr }.

(** An array of nodes: the roots, or the children of a node. *)
Definition array (t : Tree) (a : option jsstr) : list jsstr :=
  match a with
  | None => roots t
  | Some r => match nodes t !! r with Some n => tn_children n | None => [] end
  end.

Definition set_children (l : list jsstr) (n : ThreadNode) : ThreadNode :=
  {| tn_message := tn_message n; tn_children := l; tn_depth := tn_depth n |}.

Definition set_depth (d : Z) (n : ThreadNode) : ThreadNode :=
  {| tn_message := tn_message n; tn_children := tn_children n; tn_depth := d |}.

Definition set_array (t : Tree) (a : option jsstr) (l : list jsstr) : Tree :=
  match a with
  | None => {| nodes := nodes t; roots := l |}
  | Some r => {| nodes := alter (set_children l) r (nodes t); roots := roots t |}
  end.

Definition messageMap (messages : list Message) : gmap jsstr Message :=
  foldl (λ mm msg, match messageId msg with
    | Some i => if truthy i then <[i := msg]> mm else mm
    | None => mm
    end) ∅ messages.

Definition new_node (msg : Message) : ThreadNode :=
  {| tn_message := msg; tn_children := []; tn_depth := 0 |}.

Definition nodeMap (messages : list Message) : gmap jsstr ThreadNode :=
  foldl (λ h msg, <[id msg := new_node msg]> h) ∅ messages.

(** The id of the node a message reference leads to, when there is one. *)
Definition lookup_node (mm : gmap jsstr Message) (h : gmap jsstr ThreadNode) (ref : jsstr)
    : option jsstr :=
  match mm !! ref with
  | Some p => if bool_decide (is_Some (h !! id p)) then Some (id p) else None
  | None => None
  end.

(** The first reference that leads to a node. *)
Fixpoint first_node (mm : gmap jsstr Message) (h : gmap jsstr ThreadNode) (refs : list jsstr)
    : option jsstr :=
  match refs with
  | [] => None
  | ref :: refs =>
      match lookup_node mm h ref with Some p => Some p | None => first_node mm h refs end
  end.

Definition findParent (mm : gmap jsstr Message) (h : gmap jsstr ThreadNode) (msg : Message)
    : option jsstr :=
  match (match inReplyTo msg with
         | Some r => if truthy r then lookup_node mm h r else None
         | None => None
         end) with
  | Some p => Some p
  | None => first_node mm h (reverse (references msg))
  end.

Definition depth_of (t : Tree) (r : jsstr) : Z :=
  match nodes t !! r with Some n => tn_depth n | None => 0 end.

(** One turn of the linking loop. *)
Definition link (mm : gmap jsstr Message) (t : Tree) (msg : Message) : Tree :=
  let p := findParent mm (nodes t) msg in
  let t := set_array t p (array t p ++ [id msg]) in
  match p with
  | Some r => {| nodes := alter (set_depth (depth_of t r + 1)) (id msg) (nodes t); roots := roots t |}
  | None => t
  end.

Definition linkAll (messages : list Message) : Tree :=
  foldl (link (messageMap messages)) {| nodes := nodeMap messages; roots := [] |} messages.

Definition date_of (t : Tree) (r : jsstr) : Z :=
  match nodes t !! r with Some n => date (tn_message n) | None => 0 end.

(** [a.message.date.getTime() - b.message.date.getTime()] *)
Definition by_date (t : Tree) (a b : jsstr) : Z := (date_of t a - date_of t b)%Z.

(** [sortChildren]: sort the array in place, then those of its nodes.  The fuel bounds the
    depth of the call stack; [None] stands for its overflow. *)
Fixpoint sortChildren (fuel : nat) (t : Tree) (a : option jsstr) : option Tree :=
  match fuel with
  | 0 => None
  | S fuel =>
      let l := sort_by (by_date t) (array t a) in
      foldl (λ acc r, acc ≫= λ t, sortChildren fuel t (Some r)) (Some (set_array t a l)) l
  end.

Definition buildThreadTree (fuel : nat) (messages : list Message) : option Tree :=
  sortChildren fuel (linkAll messages) None.

(** [walk] of [flattenThreadTree], on the array [a]. *)
Fixpoint walk (fuel : nat) (t : Tree) (l : list jsstr) : option (list Message) :=
  match fuel with
  | 0 => None
  | S fuel =>
      @concat Message <$> mapM (λ r, n ← nodes t !! r; rest ← walk fuel t (tn_children n);
                            Some (tn_message n :: rest)) l
  end.

Definition flattenThreadTree (fuel : nat) (t : Tree) : option (list Message) :=
  walk fuel t (roots t).

Definition getThreadPreview (messages : list Message) (count : Z) : list Message :=
  take (rel_index count (length messages)) (sort_by newest_first messages).

(** ** Grouping: theorems *)

Lemma elem_of_participantMap_step (m : jsmap jsstr Address) a :
  (add_participant m a).*1 = set_add (email a) m.*1.
Proof.
  unfold add_participant, jm_has, set_add. destruct (decide (email a ∈ m.*1)) as [H|H].
  - rewrite bool_decide_true; [done|]. destruct (jm_get (email a) m) eqn:E; [done|].
    by apply jm_get_None in E.
  - rewrite bool_decide_false; [|by rewrite (proj2 (jm_get_None _ _) H); intros [? ?]].
    rewrite jm_set_keys. by rewrite decide_False.
Qed.

Lemma add_participant_email (m : jsmap jsstr Address) a :
  (∀ k v, (k, v) ∈ m → email v = k) → ∀ k v, (k, v) ∈ add_participant m a → email v = k.
Proof.
  intros H k v. unfold add_participant. case_if; [by apply H|].
  unfold jm_has in E. apply bool_decide_eq_false in E.
  rewrite jm_set_fresh by (apply jm_get_None; destruct (jm_get _ _); [by destruct E; eauto|done]).
  intros [?|Hv]%elem_of_app; [by apply H|]. apply list_elem_of_singleton in Hv. by simplify_eq.
Qed.

(** The addresses the participants are collected from, in order. *)
Definition mentioned (messages : list Message) : list Address :=
  flat_map (λ msg, from msg :: to msg) messages.

Lemma participantMap_mentioned messages :
  participantMap messages = foldl add_participant [] (mentioned messages).
Proof.
  unfold participantMap. generalize (@nil (jsstr * Address)).
  induction messages as [|msg ms IH]; intros m; simpl; [done|]. by rewrite foldl_app, IH.
Qed.

Lemma participants_emails messages :
  email <$> (participantMap messages).*2 = set_of_list (email <$> mentioned messages).
Proof.
  assert (∀ l m, (foldl add_participant m l).*1 = foldl (λ s x, set_add x s) m.*1 (email <$> l)) as H1.
  { induction l as [|a l IH]; intros m; simpl; [done|]. by rewrite IH, elem_of_participantMap_step. }
  assert (∀ l m, (∀ k v, (k, v) ∈ m → email v = k) →
    ∀ k v, (k, v) ∈ foldl add_participant m l → email v = k) as H2.
  { induction l as [|a l IH]; intros m Hm; simpl; [done|]. by apply IH, add_participant_email. }
  rewrite participantMap_mentioned. unfold set_of_list. rewrite <- (H1 _ []).
  rewrite <- list_fmap_compose. apply list_fmap_ext. intros i [k v] Hi.
  apply list_elem_of_lookup_2 in Hi. simpl. eapply H2; [|exact Hi]. set_solver.
Qed.

#[export] Instance newest_first_comparator : Comparator newest_first := cmp_by_key_desc date.

(** A thread is built exactly from a non-empty list; its latest date is the greatest of
    its messages and is that of the message naming the thread, its creation date belongs to a
    message with the least date, its counters are those [calculateThreadAggregates] recomputes,
    and its participants are the senders and recipients, each address once, in the order of
    their first occurrence. *)
Theorem groupMessagesIntoThread_spec messages :
  match groupMessagesIntoThread messages with
  | None => messages = []
  | Some th =>
      messages ≠ [] ∧
      (∃ m, m ∈ messages ∧ th_id th = threadId m ∧ th_latestMessageAt th = date m ∧
            ∀ m', m' ∈ messages → (date m' ≤ date m)%Z) ∧
      (∃ m, m ∈ messages ∧ th_createdAt th = createdAt m ∧
            ∀ m', m' ∈ messages → (date m ≤ date m')%Z) ∧
      calculateThreadAggregates messages =
        {| ag_unreadCount := th_unreadCount th; ag_starred := th_starred th;
           ag_hasAttachments := th_hasAttachments th; ag_messageCount := th_messageCount th |} ∧
      email <$> th_participants th = set_of_list (email <$> mentioned messages)
  end.
Proof.
  unfold groupMessagesIntoThread. destruct messages as [|m0 ms] eqn:E; [done|]. rewrite <- E.
  destruct (sort_by newest_first messages) as [|latest l] eqn:Es.
  { apply sort_by_nil in Es. congruence. }
  destruct (last (latest :: l)) as [oldest|] eqn:El; [|by apply last_None in El]. simpl.
  split; [congruence|]. split; [|split; [|split; [done|apply participants_emails]]].
  - exists latest. rewrite <- (elem_of_sort_by newest_first), Es. split; [set_solver|].
    split; [done|]. split; [done|]. intros m' Hm'.
    pose proof (sort_by_hd_min _ _ _ _ _ Es Hm') as H. unfold newest_first in H. lia.
  - exists oldest. rewrite <- (elem_of_sort_by newest_first), Es. split.
    { apply last_Some in El as [l' ->]. set_solver. }
    split; [done|]. intros m' Hm'. rewrite <- Es in El.
    pose proof (sort_by_last_max _ _ _ _ El Hm') as H. unfold newest_first in H. lia.
Qed.

(** For a message with a Message-ID, membership in a thread is a link by id: a message of the
    thread replies to it or references it, or it replies to or references one of the thread. *)
Theorem isMessageInThread_spec message threadMessages mid :
  messageId message = Some mid →
  isMessageInThread message threadMessages = true ↔
  ∃ tm i, tm ∈ threadMessages ∧ messageId tm = Some i ∧ i ≠ [] ∧
    (inReplyTo tm = Some mid ∨ mid ∈ references tm ∨
     inReplyTo message = Some i ∨ i ∈ references message).
Proof.
  intros Hmid. unfold isMessageInThread. rewrite Hmid. simpl default.
  assert (∀ i, i ∈ threadMessageIds threadMessages ↔
    ∃ tm, tm ∈ threadMessages ∧ messageId tm = Some i ∧ i ≠ []) as Hids.
  { intros i. unfold threadMessageIds. rewrite list_elem_of_In, in_flat_map.
    setoid_rewrite <- list_elem_of_In. split.
    - intros (tm & Htm & Hi). exists tm. destruct (messageId tm) as [j|]; [|set_solver].
      destruct (truthy j) eqn:Ej; [|set_solver]. apply truthy_spec in Ej. set_solver.
    - intros (tm & Htm & Ei & Hi). exists tm. split; [done|]. rewrite Ei.
      rewrite (proj2 (truthy_spec i)) by done. set_solver. }
  rewrite !orb_true_iff, !existsb_exists. setoid_rewrite <- list_elem_of_In.
  setoid_rewrite andb_true_iff. setoid_rewrite orb_true_iff. setoid_rewrite bool_decide_eq_true.
  setoid_rewrite Hids. unfold opt_truthy. split.
  - intros [[(tm & Htm & Ht & Hl)|Hr]|(r & Hr & tm & Htm & Hi & Hne)].
    + destruct (messageId tm) as [i|] eqn:Ei; [|done]. apply truthy_spec in Ht.
      exists tm, i. naive_solver.
    + destruct (inReplyTo message) as [r|]; [|done].
      apply andb_true_iff in Hr as [_ Hr]. apply bool_decide_eq_true, Hids in Hr.
      destruct Hr as (tm & Htm & Hi & Hne). exists tm, r. auto 10.
    + exists tm, r. auto 10.
  - intros (tm & i & Htm & Hi & Hne & H).
    destruct H as [H|[H|[H|H]]]; [left; left|left; left|left; right|right].
    + exists tm. rewrite Hi. apply truthy_spec in Hne. auto.
    + exists tm. rewrite Hi. apply truthy_spec in Hne. auto.
    + rewrite H, bool_decide_true by (apply Hids; eauto). by rewrite (proj2 (truthy_spec i)).
    + exists i. eauto.
Qed.

(** ** The conversation tree: theorems *)

Section Trees.
Context (ms : list Message).
Hypothesis ids_NoDup : NoDup (id <$> ms).

(** The parent of a message, and the ids under a parent in message order. *)
Definition parent (m : Message) : option jsstr := findParent (messageMap ms) (nodeMap ms) m.

Definition kids (l : list Message) (a : option jsstr) : list jsstr :=
  id <$> filter (λ m, parent m = a) l.

Lemma nodeMap_spec r n : nodeMap ms !! r = Some n ↔ ∃ m, m ∈ ms ∧ id m = r ∧ n = new_node m.
Proof.
  unfold nodeMap. revert ids_NoDup. induction ms as [|m l IH] using rev_ind.
  { simpl. rewrite lookup_empty. set_solver. }
  rewrite foldl_app, fmap_app. simpl. intros (Hnd & Hd & _)%NoDup_app.
  destruct (decide (id m = r)) as [<-|Hne].
  - rewrite lookup_insert_eq. split; [intros [= <-]; exists m; set_solver|].
    intros (m' & Hm' & Hid & ->). f_equal. f_equal.
    apply elem_of_app in Hm' as [Hm'|Hm']; [|set_solver]. exfalso.
    apply (Hd (id m)); [|set_solver]. rewrite <- Hid. by apply list_elem_of_fmap_2.
  - rewrite lookup_insert_ne, IH by done. set_solver.
Qed.

Lemma findParent_ids m p : parent m = Some p → p ∈ id <$> ms.
Proof.
  assert (∀ ref p, lookup_node (messageMap ms) (nodeMap ms) ref = Some p → p ∈ id <$> ms) as H1.
  { unfold lookup_node. intros ref q. destruct (_ !! ref) as [m'|]; [|done].
    case_if; [|done]. intros [= <-]. apply bool_decide_eq_true in E as [n Hn].
    apply nodeMap_spec in Hn as (m2 & ? & <- & _). by apply list_elem_of_fmap_2. }
  assert (∀ refs p, first_node (messageMap ms) (nodeMap ms) refs = Some p → p ∈ id <$> ms) as H2.
  { induction refs as [|ref refs IH]; simpl; [done|]. intros q.
    destruct (lookup_node _ _ ref) eqn:E; [|apply IH]. intros [= <-]. by eapply H1. }
  unfold parent, findParent. intros H. destruct (inReplyTo m) as [r|]; [|by eapply H2].
  destruct (truthy r); [|by eapply H2].
  destruct (lookup_node _ _ r) eqn:E; [|by eapply H2]. simplify_eq. by eapply H1.
Qed.

(** Only the set of nodes matters to [findParent]. *)
Lemma findParent_dom mm h h' m :
  (∀ r, is_Some (h !! r) ↔ is_Some (h' !! r)) → findParent mm h m = findParent mm h' m.
Proof.
  intros H. assert (∀ r, lookup_node mm h r = lookup_node mm h' r) as H1.
  { intros r. unfold lookup_node. destruct (mm !! r); [|done].
    by rewrite (bool_decide_ext _ _ (H _)). }
  unfold findParent.
  assert (∀ refs, first_node mm h refs = first_node mm h' refs) as H2.
  { induction refs as [|r refs IH]; simpl; [done|]. by rewrite H1, IH. }
  rewrite H2. destruct (inReplyTo m); [|done]. by rewrite H1.
Qed.

(** The nodes of a tree hold the messages, each under its own id. *)
Definition holds (t : Tree) : Prop :=
  ∀ r, match nodes t !! r with
       | Some n => tn_message n ∈ ms ∧ id (tn_message n) = r
       | None => r ∉ id <$> ms
       end.

Lemma holds_alter t t' f r :
  nodes t' = alter f r (nodes t) → (∀ n, tn_message (f n) = tn_message n) → holds t → holds t'.
Proof.
  intros Ht' Hf H r'. specialize (H r'). rewrite Ht'.
  destruct (decide (r = r')) as [<-|]; [rewrite lookup_alter_eq|by rewrite lookup_alter_ne].
  destruct (nodes t !! r); simpl; [|done]. by rewrite Hf.
Qed.

Lemma holds_set_array t a l : holds t → holds (set_array t a l).
Proof.
  intros H. destruct a as [r|]; simpl; [|done].
  by apply (holds_alter t _ (set_children l) r).
Qed.

Lemma array_set_array t a l b :
  holds t → match a with Some r => r ∈ id <$> ms | None => True end →
  array (set_array t a l) b = if decide (a = b) then l else array t b.
Proof.
  intros Ht Ha. destruct a as [r|], b as [r'|]; simpl; try done.
  destruct (decide (r = r')) as [<-|Hne].
  - rewrite decide_True, lookup_alter_eq by done. specialize (Ht r).
    by destruct (nodes t !! r).
  - rewrite decide_False by congruence. by rewrite lookup_alter_ne.
Qed.

Lemma array_set_depth t f r b :
  (∀ n, tn_children (f n) = tn_children n) →
  array {| nodes := alter f r (nodes t); roots := roots t |} b = array t b.
Proof.
  intros Hf. destruct b as [r'|]; simpl; [|done].
  destruct (decide (r = r')) as [<-|]; [rewrite lookup_alter_eq|by rewrite lookup_alter_ne].
  destruct (nodes t !! r); simpl; [|done]. by rewrite Hf.
Qed.

Lemma holds_dom t r : holds t → is_Some (nodes t !! r) ↔ is_Some (nodeMap ms !! r).
Proof.
  intros Ht. specialize (Ht r). split.
  - intros [n Hn]. rewrite Hn in Ht. destruct Ht as [Hm Hr]. exists (new_node (tn_message n)).
    apply nodeMap_spec. eauto.
  - intros [n (m & Hm & <- & ->)%nodeMap_spec]. destruct (nodes t !! id m); [done|].
    destruct Ht. by apply list_elem_of_fmap_2.
Qed.

(** Linking puts every message in the array of its parent, in message order. *)
Lemma linkAll_arrays : holds (linkAll ms) ∧ ∀ a, array (linkAll ms) a = kids ms a.
Proof.
  unfold linkAll. assert (holds {| nodes := nodeMap ms; roots := [] |}) as H0.
  { intros r. simpl. destruct (nodeMap ms !! r) as [n|] eqn:E.
    - by apply nodeMap_spec in E as (m & ? & ? & ->).
    - intros (m & -> & Hm)%list_elem_of_fmap.
      assert (nodeMap ms !! id m = Some (new_node m)); [|congruence]. apply nodeMap_spec. eauto. }
  assert (∀ l t done, holds t → (∀ a, array t a = kids done a) →
    holds (foldl (link (messageMap ms)) t l) ∧
    ∀ a, array (foldl (link (messageMap ms)) t l) a = kids (done ++ l) a) as Hgen.
  { induction l as [|m l IH]; intros t done Ht Ha; simpl; [by rewrite app_nil_r|].
    rewrite cons_middle, app_assoc. apply IH; clear IH.
    - unfold link. case_match; [|by apply holds_set_array].
      eapply holds_alter; [done| |by apply holds_set_array]. done.
    - intros a. unfold link. rewrite (findParent_dom _ _ (nodeMap ms)) by (intros; by apply holds_dom).
      fold (parent m). unfold kids. rewrite filter_app, fmap_app, filter_cons, filter_nil.
      destruct (parent m) as [p|] eqn:Ep.
      + rewrite array_set_depth by done.
        rewrite array_set_array by (done || by eapply findParent_ids).
        repeat case_decide; simplify_eq; rewrite ?app_nil_r, ?Ha; done.
      + rewrite array_set_array by done.
        repeat case_decide; simplify_eq; rewrite ?app_nil_r, ?Ha; done. }
  apply (Hgen ms _ []); [done|]. intros [r|]; simpl; [|done].
  destruct (nodeMap ms !! r) as [n|] eqn:E; [|done]. by apply nodeMap_spec in E as (m & _ & _ & ->).
Qed.

(** A message is rooted at depth [k] when its chain of [k] parents ends in a root. *)
Inductive rooted : jsstr → nat → Prop :=
| rooted_root r : r ∈ kids ms None → rooted r 0
| rooted_step r p k : r ∈ kids ms (Some p) → rooted p k → rooted r (S k).

Inductive upn : nat → jsstr → jsstr → Prop :=
| upn_O x : upn 0 x x
| upn_S j x p r : x ∈ kids ms (Some p) → upn j p r → upn (S j) x r.

Lemma elem_of_kids r a : r ∈ kids ms a ↔ ∃ m, m ∈ ms ∧ id m = r ∧ parent m = a.
Proof.
  unfold kids. rewrite list_elem_of_fmap. setoid_rewrite list_elem_of_filter. naive_solver.
Qed.

Lemma message_eq m m' : m ∈ ms → m' ∈ ms → id m = id m' → m = m'.
Proof.
  intros [i Hi]%list_elem_of_lookup [j Hj]%list_elem_of_lookup Heq.
  assert (i = j) as ->; [|congruence].
  eapply NoDup_lookup; [apply ids_NoDup|rewrite list_lookup_fmap, Hi; done|].
  rewrite list_lookup_fmap, Hj. simpl. by rewrite Heq.
Qed.

Lemma kids_unique r a b : r ∈ kids ms a → r ∈ kids ms b → a = b.
Proof.
  intros (m & ? & Hm & <-)%elem_of_kids (m' & ? & Hm' & <-)%elem_of_kids.
  by rewrite (message_eq m m') by congruence.
Qed.

Lemma kids_NoDup a : NoDup (kids ms a).
Proof.
  unfold kids. eapply sublist_NoDup; [exact ids_NoDup|].
  apply fmap_sublist, sublist_filter.
Qed.

Lemma rooted_unique r j k : rooted r j → rooted r k → j = k.
Proof.
  intros H. revert k. induction H as [r Hr|r p j Hr _ IH]; intros k Hk; inversion Hk as [? H1|? q ? H1]; subst.
  - done.
  - by pose proof (kids_unique _ _ _ Hr H1).
  - by pose proof (kids_unique _ _ _ Hr H1).
  - pose proof (kids_unique _ _ _ Hr H1). simplify_eq. f_equal. eauto.
Qed.

Lemma upn_unique j x r r' : upn j x r → upn j x r' → r = r'.
Proof.
  intros H. revert r'. induction H as [|j x p r Hp _ IH]; intros r' Hr'; inversion Hr' as [|? ? q ? Hq]; subst.
  - done.
  - pose proof (kids_unique _ _ _ Hp Hq). simplify_eq. auto.
Qed.

(** A chain of parents visits a message at most once. *)
Lemma rooted_bound r k : rooted r k → k < length ms.
Proof.
  intros H. assert (∃ l, length l = S k ∧ NoDup l ∧ l ⊆ (id <$> ms) ∧
    ∀ x, x ∈ l → ∃ j, j ≤ k ∧ rooted x j) as (l & Hl & Hnd & Hsub & _).
  { assert (∀ r a, r ∈ kids ms a → r ∈ id <$> ms) as Hk.
    { intros ? ? (m & ? & <- & _)%elem_of_kids. by apply list_elem_of_fmap_2. }
    induction H as [r Hr|r p k Hr Hp IH].
    - exists [r]. split; [done|]. split; [apply NoDup_singleton|]. split; [set_solver|].
      intros x ->%list_elem_of_singleton. exists 0. split; [lia|by constructor].
    - destruct IH as (l & Hl & Hnd & Hsub & Hx). exists (r :: l). simpl.
      assert (rooted r (S k)) as Hrk by by econstructor.
      split; [lia|]. split; [|split; [set_solver|]].
      + constructor; [|done]. intros Hin. destruct (Hx r Hin) as (j & ? & Hj).
        pose proof (rooted_unique _ _ _ Hj Hrk). lia.
      + intros x [->|Hin]%elem_of_cons; [eauto|]. destruct (Hx x Hin) as (j & ? & ?).
        exists j. auto. }
  assert (length l ≤ length (id <$> ms)) as Hlen.
  { apply submseteq_length, NoDup_submseteq; [done|]. intros x Hx. by apply Hsub. }
  rewrite length_fmap in Hlen. lia.
Qed.

(** What hangs under an array. *)
Inductive below : option jsstr → jsstr → Prop :=
| below_kid a r : r ∈ kids ms a → below a r
| below_deep a r x : r ∈ kids ms a → below (Some r) x → below a x.

Definition under (r x : jsstr) : Prop := x = r ∨ below (Some r) x.

Lemma below_inv a x : below a x ↔ ∃ r, r ∈ kids ms a ∧ under r x.
Proof.
  unfold under. split.
  - intros H; inversion H; subst; eauto.
  - intros (r & Hr & [->|H]); [by apply below_kid|by eapply below_deep].
Qed.

Lemma upn_kid j x r p : upn j x r → r ∈ kids ms (Some p) → upn (S j) x p.
Proof.
  induction 1 as [x|j x q r Hq _ IH]; intros Hr; [econstructor; [done|constructor]|].
  econstructor; [done|]. auto.
Qed.

Lemma rooted_upn j x r k : upn j x r → rooted r k → rooted x (j + k).
Proof. induction 1; simpl; [done|]. intros. econstructor; eauto. Qed.

Lemma under_upn r x : under r x → ∃ j, upn j x r.
Proof.
  intros [->|H]; [exists 0; constructor|]. remember (Some r) as a eqn:Ha.
  revert r Ha. induction H as [a y Hy|a y x Hy _ IH]; intros r ->.
  - exists 1. econstructor; [done|constructor].
  - destruct (IH y eq_refl) as [j Hj]. exists (S j). by eapply upn_kid.
Qed.

Lemma under_unique k r r' x : rooted r k → rooted r' k → under r x → under r' x → r = r'.
Proof.
  intros Hr Hr' [j Hj]%under_upn [j' Hj']%under_upn.
  pose proof (rooted_upn _ _ _ _ Hj Hr). pose proof (rooted_upn _ _ _ _ Hj' Hr').
  assert (j = j') as <- by (assert (j + k = j' + k) by (by eapply rooted_unique); lia).
  by eapply upn_unique.
Qed.

Lemma below_rooted x : below None x ↔ ∃ k, rooted x k.
Proof.
  split.
  - intros (r & Hr & [j Hj]%under_upn)%below_inv. exists (j + 0).
    eapply rooted_upn; [done|]. by constructor.
  - intros [k H]. assert (∃ r, r ∈ kids ms None ∧ under r x) as ?; [|by apply below_inv].
    assert (∀ r x y, under r x → y ∈ kids ms (Some x) → under r y) as Htr.
    { intros r z y [->|H']; [right; by constructor|]. intros Hy. right.
      remember (Some r) as a eqn:Ha. clear Ha. induction H' as [a z Hz|a z' z Hz Hz' IH].
      - eapply below_deep; [done|by constructor].
      - eapply below_deep; [done|]. by apply IH. }
    induction H as [r Hr|r p k Hr _ (r0 & Hr0 & IH)]; [exists r; split; [done|by left]|].
    exists r0. eauto.
Qed.

(** *** Sorting the arrays in place *)

Definition date_at (r : jsstr) : Z := date_of (linkAll ms) r.

(** The children as the sort leaves them. *)
Definition sorted_kids (a : option jsstr) : list jsstr :=
  sort_by (λ r r', date_at r - date_at r')%Z (kids ms a).

Lemma date_of_holds t r : holds t → date_of t r = date_at r.
Proof.
  intros Ht. destruct linkAll_arrays as [Hl _]. unfold date_at, date_of.
  specialize (Ht r). specialize (Hl r).
  destruct (nodes t !! r) as [n|], (nodes (linkAll ms) !! r) as [n'|]; try done.
  - destruct Ht as [Hm Hi], Hl as [Hm' Hi']. rewrite (message_eq (tn_message n) (tn_message n'));
      congruence.
  - destruct Ht as [Hm <-]. destruct Hl. by apply list_elem_of_fmap_2.
  - destruct Hl as [Hm <-]. destruct Ht. by apply list_elem_of_fmap_2.
Qed.

(** Some arrays are already sorted, the others are still in message order. *)
Definition sorting (t : Tree) : Prop :=
  holds t ∧ ∀ a, array t a = kids ms a ∨ array t a = sorted_kids a.

Lemma sorting_sort t a : sorting t → sort_by (by_date t) (array t a) = sorted_kids a.
Proof.
  intros [Ht Ha]. rewrite (sort_by_ext _ (λ r r', date_at r - date_at r')%Z).
  - destruct (Ha a) as [->| ->]; [done|]. apply sort_by_idemp, _.
  - intros x y. unfold by_date. by rewrite !date_of_holds.
Qed.

Lemma sorting_perm t a : sorting t → array t a ≡ₚ kids ms a.
Proof. intros [_ Ha]. destruct (Ha a) as [->| ->]; [done|]. apply sort_by_perm. Qed.

Lemma elem_of_sorted_kids r a : r ∈ sorted_kids a ↔ r ∈ kids ms a.
Proof. apply elem_of_sort_by. Qed.

(** Depth of an array in the tree. *)
Definition level (a : option jsstr) (k : nat) : Prop :=
  match a with None => k = 0 | Some r => ∃ j, k = S j ∧ rooted r j end.

Lemma level_kid a k r : level a k → r ∈ kids ms a → rooted r k ∧ level (Some r) (S k).
Proof.
  intros Hl Hr. assert (rooted r k) as H; [|split; [done|by exists k]].
  destruct a as [p|]; [|simpl in Hl; subst; by constructor].
  destruct Hl as (j & -> & Hj). by econstructor.
Qed.

Lemma level_bound a k : level a k → k ≤ length ms.
Proof.
  destruct a; simpl; [|lia]. intros (j & -> & Hj). by apply rooted_bound in Hj.
Qed.

Lemma level_ids a k : level a k → match a with Some r => r ∈ id <$> ms | None => True end.
Proof.
  destruct a as [r|]; [|done]. intros (j & -> & Hj).
  inversion Hj as [? H|? ? ? H]; subst; apply elem_of_kids in H as (m & ? & <- & _);
    by apply list_elem_of_fmap_2.
Qed.

(** [t'] is [t] with some more arrays sorted. *)
Definition keeps_sorted (t t' : Tree) : Prop :=
  ∀ b, array t b = sorted_kids b → array t' b = sorted_kids b.

Definition sorted_under (t : Tree) (a : option jsstr) : Prop :=
  array t a = sorted_kids a ∧ ∀ r, below a r → array t (Some r) = sorted_kids (Some r).

Lemma sorting_set_array t a k :
  level a k → sorting t →
  let t' := set_array t a (sorted_kids a) in
  sorting t' ∧ keeps_sorted t t' ∧ array t' a = sorted_kids a.
Proof.
  intros Hl [Ht Ha] t'. assert (∀ b, array t' b = if decide (a = b) then sorted_kids a else array t b) as H.
  { intros b. apply array_set_array; [done|]. by eapply level_ids. }
  split; [split; [by apply holds_set_array|]|split].
  - intros b. rewrite H. case_decide; subst; auto.
  - intros b Hb. rewrite H. case_decide; subst; auto.
  - rewrite H. by rewrite decide_True.
Qed.

Lemma sortChildren_sorts fuel t a k :
  sorting t → level a k → length ms < fuel + k →
  ∃ t', sortChildren fuel t a = Some t' ∧ sorting t' ∧ keeps_sorted t t' ∧ sorted_under t' a.
Proof.
  revert t a k. induction fuel as [|fuel IH]; intros t a k Ht Hl Hf.
  { apply level_bound in Hl. lia. }
  simpl. rewrite sorting_sort by done.
  destruct (sorting_set_array t a k Hl Ht) as (Ht' & Hk & Ha). revert Ht' Hk Ha.
  generalize (set_array t a (sorted_kids a)). intros t0 Ht0 Hk Ha.
  assert (∀ l t0, sorting t0 → (∀ r, r ∈ l → r ∈ kids ms a) →
    ∃ t', foldl (λ acc r, acc ≫= λ t, sortChildren fuel t (Some r)) (Some t0) l = Some t' ∧
      sorting t' ∧ keeps_sorted t0 t' ∧ ∀ r, r ∈ l → sorted_under t' (Some r)) as Hfold.
  { clear Ht0 Hk Ha t0. induction l as [|r l IHl]; intros t0 Ht0 Hr; simpl.
    - exists t0. split; [done|]. split; [done|]. split; [by intros ?|set_solver].
    - destruct (level_kid a k r Hl) as [_ Hlr]; [set_solver|].
      destruct (IH t0 (Some r) (S k) Ht0 Hlr) as (t1 & -> & Ht1 & Hk1 & Hu1); [lia|].
      destruct (IHl t1 Ht1) as (t2 & -> & Ht2 & Hk2 & Hu2); [set_solver|].
      exists t2. split; [done|]. split; [done|]. split; [intros b Hb; auto|].
      intros r' [->|Hr']%elem_of_cons; [|by apply Hu2]. destruct Hu1 as [H1 H2].
      split; [auto|]. intros x Hx. auto. }
  destruct (Hfold (sorted_kids a) t0 Ht0) as (t' & -> & Ht' & Hk' & Hu).
  { intros r. by rewrite elem_of_sorted_kids. }
  exists t'. split; [done|]. split; [done|]. split; [intros b Hb; auto|].
  split; [auto|]. intros x (r & Hr & Hx)%below_inv.
  destruct (Hu r) as [H1 H2]; [by rewrite elem_of_sorted_kids|].
  destruct Hx as [->|Hx]; auto.
Qed.

(** *** Walking the tree *)

Lemma walk_cons fuel t r l n sub out :
  nodes t !! r = Some n → walk fuel t (tn_children n) = Some sub →
  walk (S fuel) t l = Some out →
  walk (S fuel) t (r :: l) = Some ((tn_message n :: sub) ++ out).
Proof.
  intros Hn Hsub Hout. simpl in *. rewrite Hn. simpl. rewrite Hsub. simpl.
  apply fmap_Some in Hout as (segs & Hsegs & ->). by rewrite Hsegs.
Qed.

Lemma walk_spec fuel t k l :
  sorting t → NoDup l → (∀ r, r ∈ l → rooted r k) → k ≤ length ms → length ms < fuel + k →
  ∃ out, walk fuel t l = Some out ∧ (∀ m, m ∈ out → m ∈ ms) ∧ NoDup (id <$> out) ∧
    ∀ x, x ∈ id <$> out ↔ ∃ r, r ∈ l ∧ under r x.
Proof.
  intros Ht. revert k l. induction fuel as [|fuel IH]; intros k l Hl Hr Hk Hf; [lia|].
  induction Hl as [|r l Hnin Hl IHl].
  { exists []. split; [done|]. split; [set_solver|]. split; [constructor|]. set_solver. }
  destruct IHl as (out & Hout & Hms & Hnd & Hx); [set_solver|].
  assert (rooted r k) as Hrk by (apply Hr; set_solver).
  pose proof (sorting_perm t (Some r) Ht) as Hperm. simpl in Hperm.
  destruct Ht as [Hh _]. pose proof (Hh r) as Hn.
  destruct (nodes t !! r) as [n|] eqn:En.
  2:{ destruct Hn. apply (level_ids (Some r) (S k)). by exists k. }
  destruct Hn as [Hnm Hnr].
  assert (∀ c, c ∈ tn_children n ↔ c ∈ kids ms (Some r)) as Hc by (intros; by rewrite Hperm).
  destruct (IH (S k) (tn_children n)) as (sub & Hsub & Hsm & Hsnd & Hsx).
  { rewrite Hperm. apply kids_NoDup. }
  { intros c Hcc%Hc. by econstructor. }
  { apply rooted_bound in Hrk. lia. }
  { lia. }
  assert (∀ x, x ∈ id <$> tn_message n :: sub ↔ under r x) as Hseg.
  { intros x. csimpl. rewrite elem_of_cons, Hsx, Hnr. unfold under at 2.
    rewrite (below_inv (Some r)). setoid_rewrite Hc. done. }
  exists ((tn_message n :: sub) ++ out). split; [by apply walk_cons|].
  rewrite fmap_app. split; [set_solver|]. split.
  - apply NoDup_app. split; [|split; [|done]].
    + csimpl. constructor; [|done]. rewrite Hsx, Hnr. intros (c & Hcc%Hc & Hu).
      destruct (under_upn _ _ Hu) as [j Hj].
      assert (rooted r (j + S k)) as H by (eapply rooted_upn; [done|by econstructor]).
      pose proof (rooted_unique _ _ _ H Hrk). lia.
    + intros x Hxs%Hseg (r' & Hr' & Hu)%Hx. apply Hnin.
      rewrite (under_unique k r r' x); [done|done|apply Hr; set_solver|done|done].
  - intros x. rewrite elem_of_app, Hseg, Hx. set_solver.
Qed.

Lemma build_and_flatten :
  let fuel := S (length ms) in
  ∃ t out, buildThreadTree fuel ms = Some t ∧ flattenThreadTree fuel t = Some out ∧
    NoDup (id <$> out) ∧ (∀ m, m ∈ out ↔ m ∈ ms ∧ ∃ k, rooted (id m) k) ∧
    roots t = sorted_kids None ∧
    ∀ r k, rooted r k → array t (Some r) = sorted_kids (Some r).
Proof.
  intros fuel. destruct linkAll_arrays as [Hh Ha].
  destruct (sortChildren_sorts fuel (linkAll ms) None 0) as (t & Ht & Hs & _ & [H0 Hu]).
  { split; [done|]. auto. } { done. } { unfold fuel. lia. }
  assert (∀ r, r ∈ roots t ↔ r ∈ kids ms None) as Hroots.
  { intros r. change (roots t) with (array t None). by rewrite H0, elem_of_sorted_kids. }
  destruct (walk_spec fuel t 0 (roots t)) as (out & Hout & Hms & Hnd & Hx); [done|..].
  { change (NoDup (array t None)). rewrite (sorting_perm t None Hs). apply kids_NoDup. }
  { intros r Hr%Hroots. by constructor. } { lia. } { unfold fuel. lia. }
  exists t, out. split; [done|]. split; [done|]. split; [done|]. split; [|split; [done|]].
  - assert (∀ x, x ∈ id <$> out ↔ ∃ k, rooted x k) as Hxr.
    { intros x. rewrite Hx, <- below_rooted, below_inv. by setoid_rewrite Hroots. }
    intros m. rewrite <- Hxr. split.
    + intros Hm. split; [by apply Hms|]. by apply list_elem_of_fmap_2.
    + intros [Hm (m' & Heq & Hm')%list_elem_of_fmap]. by rewrite (message_eq m m'); auto.
  - intros r k Hr. apply Hu. apply below_rooted. eauto.
Qed.

(** Parents of a rank below that of their replies: no cycle. *)
Lemma ranked_rooted (rank : jsstr → nat) :
  (∀ m p, m ∈ ms → parent m = Some p → rank p < rank (id m)) →
  ∀ m, m ∈ ms → ∃ k, rooted (id m) k.
Proof.
  intros Hrank m. remember (rank (id m)) as n eqn:Hn. revert m Hn.
  induction (lt_wf n) as [n _ IH]. intros m -> Hm. destruct (parent m) as [p|] eqn:Ep.
  - pose proof (findParent_ids m p Ep) as (m' & -> & Hm')%list_elem_of_fmap.
    destruct (IH _ (Hrank m _ Hm Ep) m' eq_refl Hm') as [k Hk]. exists (S k).
    eapply rooted_step; [|exact Hk]. apply elem_of_kids. eauto.
  - exists 0. constructor. apply elem_of_kids. eauto.
Qed.
End Trees.

(** C34: With distinct ids, [buildThreadTree] terminates (its recursion is never deeper than the
    number of messages, cycles of replies included) and so does [flattenThreadTree]; the flat
    list holds, once each, exactly the messages whose chain of parents ends in a message
    without parent, and the roots and the children of each such message are its replies sorted
    by date. *)
Theorem buildThreadTree_spec ms :
  NoDup (id <$> ms) →
  let fuel := S (length ms) in
  ∃ t out, buildThreadTree fuel ms = Some t ∧ flattenThreadTree fuel t = Some out ∧
    NoDup (id <$> out) ∧ (∀ m, m ∈ out ↔ m ∈ ms ∧ ∃ k, rooted ms (id m) k) ∧
    roots t = sorted_kids ms None ∧
    ∀ r k, rooted ms r k → array t (Some r) = sorted_kids ms (Some r).
Proof. apply build_and_flatten. Qed.

(** When the replies form no cycle (each parent has a smaller rank than its replies, as with
    parents that were sent before), the conversation view is a permutation of the messages:
    none is lost or repeated. *)
Theorem flattenThreadTree_complete ms (rank : jsstr → nat) :
  NoDup (id <$> ms) →
  (∀ m p, m ∈ ms → parent ms m = Some p → rank p < rank (id m)) →
  ∃ t out, buildThreadTree (S (length ms)) ms = Some t ∧
    flattenThreadTree (S (length ms)) t = Some out ∧ out ≡ₚ ms.
Proof.
  intros Hnd Hrank. destruct (build_and_flatten ms Hnd) as (t & out & Ht & Hout & Hond & Hm & _).
  exists t, out. split; [done|]. split; [done|]. apply NoDup_Permutation.
  - by eapply NoDup_fmap_1.
  - by eapply NoDup_fmap_1.
  - intros m. rewrite Hm. split; [by intros [? _]|]. intros Hin. split; [done|].
    by apply (ranked_rooted ms Hnd rank).
Qed.

(** ** Witnesses *)

Definition ex_message (i mid reply : jsstr) (d : Z) : Message := {|
  id := i; threadId := "t"%js; mailboxId := "m"%js; ownerId := "o"%js;
  messageId := if truthy mid then Some mid else None;
  inReplyTo := if truthy reply then Some reply else None; references := [];
  subject := "Re: Hi"%js; from := no_name "a@x.io"%js; to := [no_name "b@x.io"%js];
  cc := None; bcc := None; replyTo := None; date := d; text := None; html := None;
  snippet := "s"%js; seen := false; flagged := false; answered := false; draft := false;
  MailTypes.hasAttachments := false; sizeBytes := 0; createdAt := d; updatedAt := d |}.

Definition ex_root := ex_message "1"%js "m1"%js [] 10.
Definition ex_reply := ex_message "2"%js "m2"%js "m1"%js 20.
Definition ex_self := ex_message "3"%js "m3"%js "m3"%js 30.
Definition ex_bare := ex_message "4"%js [] [] 40.

Lemma isMessageInThread_spec_witness :
  isMessageInThread ex_reply [ex_root] = true.
Proof.
  apply (isMessageInThread_spec ex_reply [ex_root] "m2"%js eq_refl).
  exists ex_root, "m1"%js. split; [left|]. split; [reflexivity|]. split; [discriminate|].
  right; right; left. reflexivity.
Defined.

Lemma buildThreadTree_spec_witness :
  ∃ t out, buildThreadTree 4 [ex_reply; ex_self; ex_root] = Some t ∧
    flattenThreadTree 4 t = Some out ∧ NoDup (id <$> out).
Proof.
  destruct (buildThreadTree_spec [ex_reply; ex_self; ex_root]) as (t & out & Ht & Hout & Hnd & _).
  - apply (bool_decide_unpack _). vm_compute. exact I.
  - exists t, out. split; [exact Ht|]. split; [exact Hout|exact Hnd].
Defined.

Lemma flattenThreadTree_complete_witness :
  ∃ t out, buildThreadTree 3 [ex_reply; ex_root] = Some t ∧
    flattenThreadTree 3 t = Some out ∧ out ≡ₚ [ex_reply; ex_root].
Proof.
  apply (flattenThreadTree_complete [ex_reply; ex_root]
    (λ i, if bool_decide (i = "1"%js) then 0 else 1)).
  - apply (bool_decide_unpack _). vm_compute. exact I.
  - intros m p Hm Hp. apply elem_of_cons in Hm as [->|Hm].
    + vm_compute in Hp. injection Hp as <-. vm_compute. constructor.
    + apply elem_of_cons in Hm as [->|Hm]; [vm_compute in Hp; discriminate|].
      by apply not_elem_of_nil in Hm.
Defined.

(** A message that names itself as its parent is in no tree: the conversation loses it. *)
Lemma self_reply_lost :
  (t ← buildThreadTree 4 [ex_self]; flattenThreadTree 4 t) = Some [].
Proof. vm_compute. reflexivity. Qed.

(** The depth of a reply that is linked before its parent is stale: a list with the newest
    message first shows a reply to a reply at depth 1. *)
Lemma depth_depends_on_order :
  let m1 := ex_message "1"%js "m1"%js [] 10 in
  let m2 := ex_message "2"%js "m2"%js "m1"%js 20 in
  let m3 := ex_message "3"%js "m3"%js "m2"%js 30 in
  depth_of (linkAll [m1; m2; m3]) "3"%js = 2%Z ∧ depth_of (linkAll [m3; m2; m1]) "3"%js = 1%Z.
Proof. vm_compute. split; reflexivity. Qed.

(** Two messages without Message-ID and In-Reply-To: [null === null] puts one in any thread with
    a message that replies to nothing. *)
Lemma no_ids_in_thread : isMessageInThread ex_bare [ex_root] = true.
Proof. vm_compute. reflexivity. Qed.
