(* ===== verification/MailMailbox.v ===== *)
(** * Mail: mailboxes ([packages/core/src/mail/mailbox.ts]) *)

From stdpp Require Import base list.
From S2P Require Import Prelude JsString JsRegex MailTypes.

Definition SYSTEM_MAILBOX_SLUGS : list jsstr :=
  ["inbox"; "sent"; "drafts"; "trash"; "spam"; "archive"]%js.

Definition isSystemMailbox (mailbox : Mailbox) : bool :=
  mb_isSystem mailbox || bool_decide (mb_slug mailbox ∈ SYSTEM_MAILBOX_SLUGS).

Definition getMailboxRole (slug : jsstr) : jsstr :=
  if bool_decide (slug ∈ SYSTEM_MAILBOX_SLUGS) then slug else "custom"%js.

Definition icons : list (jsstr * jsstr) :=
  [("inbox", "inbox"); ("sent", "send"); ("drafts", "file-text"); ("trash", "trash-2");
   ("spam", "alert-triangle"); ("archive", "archive"); ("custom", "folder")]%js.

Definition getMailboxIcon (role : jsstr) : jsstr := opt_or (jm_get role icons) "folder"%js.

Definition default_order : list (jsstr * Z) :=
  [("inbox", 0); ("drafts", 1); ("sent", 2); ("spam", 3); ("trash", 4); ("archive", 5);
   ("custom", 100)]%js%Z.

Definition getMailboxOrder (role : jsstr) : Z := default 100%Z (jm_get role default_order).

Definition compareMailboxes (a b : Mailbox) : Z :=
  if negb (Bool.eqb (mb_isSystem a) (mb_isSystem b)) then if mb_isSystem a then -1 else 1
  else mb_order a - mb_order b.

Definition sortMailboxes (mailboxes : list Mailbox) : list Mailbox :=
  sort_by compareMailboxes mailboxes.

Definition canDeleteMailbox (mailbox : Mailbox) : bool :=
  negb (mb_isSystem mailbox) && bool_decide (mb_role mailbox = "custom"%js).

Definition canRenameMailbox (mailbox : Mailbox) : bool :=
  negb (mb_isSystem mailbox) && bool_decide (mb_role mailbox = "custom"%js).

(** ** Names and slugs *)

(** The class of angle brackets, colon, double quote, slashes, bar, question mark and star. *)
Definition forbidden : list ascii :=
  ["<"; ">"; ":"; dquote; "/"; "\"; "|"; "?"; "*"]%char.

Definition reserved : list jsstr :=
  ["inbox"; "sent"; "drafts"; "trash"; "spam"; "archive"; "all"; "starred"]%js.

(** The error, when the name is not valid. *)
Definition validateMailboxName (name : jsstr) : option jsstr :=
  if negb (truthy name) || (length (trim name) =? 0) then Some "Mailbox name is required"%js
  else if 100 <? length name then Some "Mailbox name must be 100 characters or less"%js
  else if re_test (RChr (λ a, bool_decide (a ∈ forbidden))) name then
    Some "Mailbox name contains invalid characters"%js
  else if bool_decide (toLowerCase name ∈ reserved) then Some "This mailbox name is reserved"%js
  else None.

(** [[^a-z0-9]] *)
Definition separator (a : ascii) : bool := negb (is_ascii_lower a || is_digit a).

(** [/^-|-$/g] *)
Definition edge_re : regex := RAlt (RSeq RBegin (rchar "-")) (RSeq (rchar "-") REnd).

Definition generateMailboxSlug (name : jsstr) : jsstr :=
  substring
    (re_replace_all edge_re (λ _, [])
      (re_replace_all (rplus (RChr separator)) (λ _, "-"%js) (toLowerCase name))) 0 50.

Definition calculateMailboxStats (threads : list (Z * Z)) : Z * Z :=
  foldl (λ acc th, (acc.1 + th.1, acc.2 + th.2)%Z) (0%Z, 0%Z) threads.

(** ** Trimming one dash at each end *)

Fixpoint drop_last (c : ascii) (s : jsstr) : jsstr :=
  match s with
  | [] => []
  | [a] => if bool_decide (a = c) then [] else [a]
  | a :: s => a :: drop_last c s
  end.

Definition drop_first (c : ascii) (s : jsstr) : jsstr :=
  match s with a :: s' => if bool_decide (a = c) then s' else s | [] => [] end.

(** ** Slugs: theorems *)

#[local] Arguments Nat.eqb : simpl never.

Lemma edge_match i a s :
  match_at edge_re i (a :: s) =
  if bool_decide (a = "-"%char) && ((i =? 0) || bool_decide (s = [])) then Some (MRes (S i) s [])
  else None.
Proof.
  unfold match_at, edge_re. cbn [rmatch rchar]. unfold is_ch.
  destruct (i =? 0), (decide (a = "-"%char)) as [->|Hne]; rewrite ?bool_decide_true by done;
    rewrite ?(bool_decide_false (a = _)) by done; simpl; try done; by destruct s.
Qed.

Lemma edge_match_nil i : match_at edge_re i [] = None.
Proof. unfold match_at. simpl. by destruct (i =? 0). Qed.

Lemma edge_scan fuel i s gap :
  length s < fuel → 0 < i →
  let '(ms, t) := re_scan fuel edge_re i s gap in
  flat_map (λ q, q.1 ++ []) ms ++ t = gap ++ drop_last "-" s.
Proof.
  revert i s gap. induction fuel as [|f IH]; intros i s gap Hlen Hi; [lia|].
  destruct s as [|a s]; cbn [re_scan]; [by rewrite edge_match_nil, app_nil_r|].
  rewrite edge_match. rewrite (proj2 (Nat.eqb_neq i 0)) by lia. simpl orb. simpl in Hlen.
  destruct (decide (s = [])) as [->|Hs].
  - rewrite (bool_decide_true ([] = [])), andb_true_r by done. case_bool_decide; simpl.
    + rewrite (proj2 (Nat.eqb_neq (S i) i)) by lia. destruct f; [lia|]. cbn [re_scan].
      rewrite edge_match_nil. simpl. rewrite bool_decide_true, !app_nil_r by done. done.
    + destruct f; [lia|]. cbn [re_scan]. rewrite edge_match_nil. simpl.
      by rewrite bool_decide_false.
  - rewrite (bool_decide_false (s = [])), andb_false_r by done.
    specialize (IH (S i) s (gap ++ [a]) ltac:(lia) ltac:(lia)).
    destruct (re_scan f edge_re (S i) s (gap ++ [a])) as [ms t]. rewrite IH, <- app_assoc.
    by destruct s.
Qed.

Lemma edge_replace s :
  re_replace_all edge_re (λ _, []) s = drop_last "-" (drop_first "-" s).
Proof.
  unfold re_replace_all, re_scan_all. destruct s as [|a s]; [done|]. cbn [re_scan].
  rewrite edge_match. simpl orb. rewrite andb_true_r. simpl drop_first.
  destruct (bool_decide (a = "-"%char)) eqn:E; cbn [m_end m_rest].
  - change (1 =? 0) with false. cbv iota.
    pose proof (edge_scan (S (length s)) 1 s [] ltac:(lia) ltac:(lia)) as H.
    change (length (a :: s)) with (S (length s)).
    destruct (re_scan (S (length s)) edge_re 1 s []) as [ms t]. simpl. by rewrite H.
  - pose proof (edge_scan (S (length s)) 1 s [a] ltac:(lia) ltac:(lia)) as H.
    change (length (a :: s)) with (S (length s)). simpl app.
    destruct (re_scan (S (length s)) edge_re 1 s [a]) as [ms t]. rewrite H. simpl.
    destruct s; [by rewrite E|done].
Qed.

Lemma drop_last_app s c t : t ≠ [] → drop_last c (s ++ t) = s ++ drop_last c t.
Proof.
  intros Ht. induction s as [|a s IH]; [done|]. simpl. rewrite <- IH.
  destruct s, t; done.
Qed.

Lemma drop_last_id s c : c ∉ s → drop_last c s = s.
Proof.
  induction s as [|a s IH]; [done|]. rewrite not_elem_of_cons. intros [Ha Hs]. simpl.
  rewrite IH by done. destruct s; [by rewrite bool_decide_false by congruence|done].
Qed.

(** Collapsing and trimming leave exactly the runs. *)
Lemma collapse_runs (p : ascii → bool) s :
  p "-"%char = true →
  (∀ cur, cur ≠ [] → "-"%char ∉ cur →
    drop_last "-" (cur ++ collapse p "-"%js false s) = join "-"%js (runs p s cur)) ∧
  drop_last "-" ("-"%char :: collapse p "-"%js true s) =
    match runs p s [] with [] => [] | ws => "-"%js ++ join "-"%js ws end.
Proof.
  intros Hp. induction s as [|a s [IH1 IH2]]; simpl.
  - split; [|done]. intros cur Hc Hd. rewrite app_nil_r, decide_False by done.
    by apply drop_last_id.
  - destruct (p a) eqn:Ea; simpl; [split; [|done]|split].
    + intros cur Hc Hd. rewrite decide_False, drop_last_app by done.
      change ([cur] ++ runs p s []) with (cur :: runs p s []).
      rewrite join_cons. f_equal. rewrite IH2. by destruct (runs p s []).
    + intros cur Hc Hd. rewrite <- IH1; [by rewrite <- app_assoc|by destruct cur|].
      intros [?|Ha]%elem_of_app; [done|]. apply list_elem_of_singleton in Ha. congruence.
    + pose proof (runs_not_nil p s [a] ltac:(done)) as Hne.
      assert ("-"%char ∉ [a]) as Ha by (intros ?%list_elem_of_singleton; congruence).
      pose proof (IH1 [a] ltac:(done) Ha) as H. simpl in H. simpl. rewrite H.
      by destruct (runs p s [a]).
Qed.

Lemma slug_join (p : ascii → bool) s :
  p "-"%char = true →
  drop_last "-" (drop_first "-" (collapse p "-"%js false s)) = join "-"%js (runs p s []).
Proof.
  intros Hp. destruct s as [|a s]; [done|]. simpl. destruct (p a) eqn:Ea; simpl.
  - destruct (collapse_runs p s Hp) as [_ H].
    destruct (collapse p "-"%js true s) as [|b x] eqn:Ec; [by destruct (runs p s [])|].
    change (drop_last "-" ("-"%char :: b :: x)) with ("-"%char :: drop_last "-" (b :: x)) in H.
    destruct (runs p s []); by simplify_eq/=.
  - rewrite bool_decide_false by congruence.
    destruct (collapse_runs p s Hp) as [H _]. apply (H [a]); [done|].
    intros Ha%list_elem_of_singleton. congruence.
Qed.

Lemma slug_runs name :
  generateMailboxSlug name = take 50 (join "-"%js (runs separator (toLowerCase name) [])).
Proof.
  unfold generateMailboxSlug. by rewrite re_replace_plus, edge_replace, slug_join, substring_prefix.
Qed.

Definition slug_char (a : ascii) : Prop := separator a = false.

Lemma lower_slug_char a : separator a = false → lower a = a.
Proof.
  intros H. apply (bool_decide_eq_true (lower a = a)). apply negb_true_iff in H. revert H.
  apply implb_true_iff. revert a.
  by_ascii (λ a, implb (negb (separator a)) (bool_decide (lower a = a))).
Qed.

(** The slug of a name is the maximal runs of letters and digits of the name in lower case,
    joined by single dashes, cut at 50 characters; and a slug that was not cut is its own slug. *)
Theorem generateMailboxSlug_spec name :
  let full := join "-"%js (runs separator (toLowerCase name) []) in
  generateMailboxSlug name = take 50 full ∧
  (∀ w, w ∈ runs separator (toLowerCase name) [] → w ≠ [] ∧ Forall slug_char w) ∧
  (length full ≤ 50 → generateMailboxSlug (generateMailboxSlug name) = generateMailboxSlug name).
Proof.
  intros full. assert (∀ w, w ∈ runs separator (toLowerCase name) [] →
    w ≠ [] ∧ Forall slug_char w) as Hw by (intros w; by apply runs_spec).
  split; [apply slug_runs|]. split; [done|]. intros Hlen.
  rewrite !slug_runs. fold full. rewrite (take_ge full) by done.
  assert (toLowerCase full = full) as ->.
  { unfold toLowerCase. rewrite <- (list_fmap_id full) at 2. apply Forall_fmap_ext.
    apply join_Forall; [by repeat constructor|]. intros w [_ H]%Hw.
    eapply Forall_impl; [exact H|]. apply lower_slug_char. }
  unfold full. by rewrite runs_join, take_ge.
Qed.

(** ** Names: theorems *)

Lemma re_test_class p s : re_test (RChr p) s = true ↔ ∃ a, a ∈ s ∧ p a = true.
Proof.
  rewrite re_test_spec. split.
  - intros (pre & u & v & -> & a & -> & Ha). exists a. split; [set_solver|done].
  - intros (a & Ha & Hp). apply list_elem_of_split in Ha as (u & v & ->).
    exists u, [a], v. split; [done|]. by exists a.
Qed.

(** A mailbox name is accepted exactly when it is not blank, has at most 100 characters, none
    of them forbidden, and is not a reserved name in any case. *)
Theorem validateMailboxName_spec name :
  validateMailboxName name = None ↔
  trim name ≠ [] ∧ length name ≤ 100 ∧ (∀ a, a ∈ name → a ∉ forbidden) ∧
  toLowerCase name ∉ reserved.
Proof.
  unfold validateMailboxName.
  assert (negb (truthy name) || (length (trim name) =? 0) = false ↔ trim name ≠ []) as H1.
  { rewrite orb_false_iff, negb_false_iff, truthy_spec, Nat.eqb_neq. split.
    - intros [_ H] Ht. by rewrite Ht in H.
    - intros H. split; [intros ->; by destruct H|]. by destruct (trim name). }
  assert (re_test (RChr (λ a, bool_decide (a ∈ forbidden))) name = false ↔
    ∀ a, a ∈ name → a ∉ forbidden) as H2.
  { rewrite <- not_true_iff_false, re_test_class. setoid_rewrite bool_decide_eq_true.
    naive_solver. }
  rewrite <- H1, <- H2. destruct (negb (truthy name) || (length (trim name) =? 0)); [naive_solver|].
  destruct (100 <? length name) eqn:E; [apply Nat.ltb_lt in E; naive_solver lia|].
  apply Nat.ltb_ge in E. destruct (re_test _ name); [naive_solver|].
  case_bool_decide; naive_solver.
Qed.

(** An accepted name can still have the slug of a system folder: the reserved names are
    compared before trimming and before the other characters are dropped. *)
Lemma accepted_name_system_slug :
  validateMailboxName " inbox"%js = None ∧ generateMailboxSlug " inbox"%js = "inbox"%js ∧
  getMailboxRole (generateMailboxSlug " inbox"%js) = "inbox"%js.
Proof. vm_compute. auto. Qed.

(** A cut slug can end in a dash, which the pattern meant to remove. *)
Lemma cut_slug_dash :
  let name := replicate 49 "a"%char ++ " b"%js in
  last (generateMailboxSlug name) = Some "-"%char.
Proof. vm_compute. reflexivity. Qed.

(** ** Order: theorems *)

#[export] Instance compareMailboxes_comparator : Comparator compareMailboxes.
Proof.
  split; unfold compareMailboxes; intros.
  - destruct (mb_isSystem x), (mb_isSystem y); simpl; lia.
  - destruct (mb_isSystem x), (mb_isSystem y), (mb_isSystem z); simpl in *; lia.
Qed.

Lemma compareMailboxes_tie x y :
  compareMailboxes x y = 0%Z ↔ mb_isSystem y = mb_isSystem x ∧ mb_order y = mb_order x.
Proof.
  unfold compareMailboxes. destruct (mb_isSystem x), (mb_isSystem y); simpl; naive_solver lia.
Qed.

(** Sorting keeps every mailbox once, puts the system folders first and each group in
    increasing order, and mailboxes of the same group and order keep their places. *)
Theorem sortMailboxes_spec l :
  sortMailboxes l ≡ₚ l ∧
  (∀ l1 a l2 b l3, sortMailboxes l = l1 ++ a :: l2 ++ b :: l3 →
    (mb_isSystem b = true → mb_isSystem a = true) ∧
    (mb_isSystem a = mb_isSystem b → (mb_order a ≤ mb_order b)%Z)) ∧
  (∀ s o, filter (λ m, mb_isSystem m = s ∧ mb_order m = o) (sortMailboxes l) =
          filter (λ m, mb_isSystem m = s ∧ mb_order m = o) l).
Proof.
  split; [apply sort_by_perm|]. split.
  - intros l1 a l2 b l3 Hs. pose proof (sort_by_sorted compareMailboxes l) as H.
    unfold sortMailboxes in Hs. rewrite Hs in H. apply sorted_by_before in H.
    unfold compareMailboxes in H. destruct (mb_isSystem a), (mb_isSystem b); simpl in H;
      split; done || lia.
  - intros s o. destruct (decide (Exists (λ m, mb_isSystem m = s ∧ mb_order m = o) l)) as [Hx|Hx].
    + apply Exists_exists in Hx as (x & _ & <- & <-).
      pose proof (sort_by_stable compareMailboxes x l) as H. unfold ties in H.
      by rewrite !(list_filter_iff (λ y, compareMailboxes x y = 0%Z)
        (λ m, mb_isSystem m = mb_isSystem x ∧ mb_order m = mb_order x)) in H
        by (intros; apply compareMailboxes_tie).
    + assert (∀ k, (∀ a, a ∈ k → a ∈ l) →
        filter (λ m, mb_isSystem m = s ∧ mb_order m = o) k = []) as Hnil.
      { intros k Hk. apply filter_none. intros a Ha Hm. apply Hx, Exists_exists. eauto. }
      rewrite !Hnil; [done|done|]. intros a. apply elem_of_sort_by.
Qed.

(** ** Counters: theorems *)

(** The statistics are sums: those of two batches of threads add up, in any order. *)
Theorem calculateMailboxStats_spec l l' :
  calculateMailboxStats (l ++ l') =
    ((calculateMailboxStats l).1 + (calculateMailboxStats l').1,
     (calculateMailboxStats l).2 + (calculateMailboxStats l').2)%Z ∧
  (l ≡ₚ l' → calculateMailboxStats l = calculateMailboxStats l').
Proof.
  assert (∀ l, calculateMailboxStats l =
    (foldr (λ th s, th.1 + s) 0 l, foldr (λ th s, th.2 + s) 0 l)%Z) as H.
  { intros k. unfold calculateMailboxStats. rewrite <- (Z.add_0_l (foldr (λ th s, th.1 + s)%Z _ _)).
    rewrite <- (Z.add_0_l (foldr (λ th s, th.2 + s)%Z _ _)). generalize 0%Z at 1 3 as a.
    generalize 0%Z at 1 3 as b. revert k.
    induction k as [|th k IH]; intros b a; simpl; [by rewrite !Z.add_0_r|].
    rewrite IH. f_equal; lia. }
  split.
  - rewrite !H. simpl. induction l as [|th l IH]; simpl; [done|]. injection IH as H1 H2.
    f_equal; lia.
  - intros Hp. rewrite !H. induction Hp; simpl in *; simplify_eq/=; try done; try f_equal; lia || congruence.
Qed.
