(* ===== verification/JsDate.v ===== *)
(** * JavaScript dates: instants in milliseconds and the proleptic Gregorian calendar

    A [Date] is its time value.  The calendar functions are the closed formulas over eras of
    400 years; they are proved inverse to each other.  The local time zone of the runtime is a
    class: its offset at an instant and the instant of a local time. *)

From stdpp Require Import base list.
From S2P Require Import Prelude JsString.

#[local] Open Scope Z_scope.

Definition msPerDay : Z := 86400000.

Definition Day (t : Z) : Z := t / msPerDay.
Definition TimeWithinDay (t : Z) : Z := t mod msPerDay.
Definition WeekDay (t : Z) : Z := (Day t + 4) mod 7.

(** ** Civil dates and day numbers *)

Record civil := Civil { c_year : Z; c_month : Z; c_day : Z }.

#[export] Instance civil_eq_dec : EqDecision civil.
Proof. solve_decision. Defined.

Definition leap (y : Z) : bool :=
  (y mod 4 =? 0) && (negb (y mod 100 =? 0) || (y mod 400 =? 0)).

Definition days_in_month (y m : Z) : Z :=
  if m =? 2 then (if leap y then 29 else 28)
  else if (m =? 4) || (m =? 6) || (m =? 9) || (m =? 11) then 30 else 31.

Definition valid_civil (c : civil) : bool :=
  (1 <=? c_month c) && (c_month c <=? 12) &&
  (1 <=? c_day c) && (c_day c <=? days_in_month (c_year c) (c_month c)).

(** Days before the year [yoe] of an era, years starting in March. *)
Definition year_start (yoe : Z) : Z := 365 * yoe + yoe / 4 - yoe / 100.

(** Day of a year starting in March. *)
Definition day_of_year (m d : Z) : Z :=
  (153 * (if m >? 2 then m - 3 else m + 9) + 2) / 5 + d - 1.

Definition days_of_civil (c : civil) : Z :=
  let y := if c_month c <=? 2 then c_year c - 1 else c_year c in
  let doe := year_start (y mod 400) + day_of_year (c_month c) (c_day c) in
  146097 * (y / 400) + doe - 719468.

(** Year of an era from the day of the era. *)
Definition year_of_era (doe : Z) : Z := (doe - doe / 1460 + doe / 36524 - doe / 146096) / 365.

Definition month_day (doy : Z) : Z * Z :=
  let mp := (5 * doy + 2) / 153 in
  ((if mp <? 10 then mp + 3 else mp - 9), doy - (153 * mp + 2) / 5 + 1).

Definition civil_of_days (z : Z) : civil :=
  let n := z + 719468 in
  let doe := n mod 146097 in
  let yoe := year_of_era doe in
  let '(m, d) := month_day (doe - year_start yoe) in
  Civil (400 * (n / 146097) + yoe + (if m <=? 2 then 1 else 0)) m d.

Definition civil_of_time (t : Z) : civil := civil_of_days (Day t).

(** [MakeDay]: months outside 0..11 carry into the year, days outside the month into the
    following or preceding months. *)
Definition MakeDay (year month0 day : Z) : Z :=
  days_of_civil (Civil (year + month0 / 12) (month0 mod 12 + 1) 1) + day - 1.

(** ** The local time zone *)

Class TimeZone := {
  (** offset from UTC, in milliseconds, at an instant *)
  offset_at : Z → Z;
  (** the instant a local time value denotes *)
  to_utc : Z → Z;
}.

(** What the runtime guarantees of local times that exist and are not ambiguous. *)
Class TimeZoneLaws (tz : TimeZone) : Prop := {
  local_to_utc : ∀ t, to_utc t + offset_at (to_utc t) = t;
}.

(** A zone without daylight saving time. *)
Definition fixed_zone (off : Z) : TimeZone := {| offset_at := λ _, off; to_utc := λ t, t - off |}.

Lemma fixed_zone_laws off : TimeZoneLaws (fixed_zone off).
Proof. constructor. intros t. simpl. lia. Qed.

Section Local.
Context {tz : TimeZone}.

Definition LocalTime (t : Z) : Z := t + offset_at t.

Definition getFullYear (t : Z) : Z := c_year (civil_of_time (LocalTime t)).
Definition getMonth (t : Z) : Z := c_month (civil_of_time (LocalTime t)) - 1.
Definition getDate (t : Z) : Z := c_day (civil_of_time (LocalTime t)).

(** [new Date(year, month, day)]; a year from 0 to 99 means one of the twentieth century. *)
Definition new_Date_ymd (year month0 day : Z) : Z :=
  let y := if (0 <=? year) && (year <=? 99) then 1900 + year else year in
  to_utc (msPerDay * MakeDay y month0 day).

(** [date.setDate(day)]: same local month and time of day. *)
Definition setDate (t day : Z) : Z :=
  let l := LocalTime t in
  let c := civil_of_time l in
  to_utc (msPerDay * MakeDay (c_year c) (c_month c - 1) day + TimeWithinDay l).
End Local.

(** ** Printing and reading dates *)

Definition pad2 (n : Z) : jsstr := padStart 2 "0" (nat_to_str n).
Definition pad4 (n : Z) : jsstr := padStart 4 "0" (nat_to_str n).

(** The year as [toISOString] prints it: with a sign and six digits outside of 0 to 9999. *)
Definition iso_year (y : Z) : jsstr :=
  if (0 <=? y) && (y <=? 9999) then pad4 y
  else (if y <? 0 then "-"%js else "+"%js) ++ padStart 6 "0" (nat_to_str (Z.abs y)).

(** The date part of [toISOString]. *)
Definition iso_text (c : civil) : jsstr :=
  iso_year (c_year c) ++ "-"%js ++ pad2 (c_month c) ++ "-"%js ++ pad2 (c_day c).
Definition iso_date (t : Z) : jsstr := iso_text (civil_of_time t).

(** ** Theorems *)

Lemma div_step d k : 0 < k → d / k ≤ (d + 1) / k ≤ d / k + 1.
Proof. intros Hk. split; Z.to_euclidean_division_equations; nia. Qed.

(** The quotient in [year_of_era] never decreases inside an era. *)
Definition year_numerator (d : Z) : Z := d - d / 1460 + d / 36524 - d / 146096.

Lemma year_numerator_step d : 0 ≤ d → d + 1 < 146097 → year_numerator d ≤ year_numerator (d + 1).
Proof. intros Hd Hb. unfold year_numerator. Z.to_euclidean_division_equations. lia. Qed.

Lemma year_of_era_mono a b : 0 ≤ a → a ≤ b → b < 146097 → year_of_era a ≤ year_of_era b.
Proof.
  intros Ha Hab Hb. unfold year_of_era. fold (year_numerator a) (year_numerator b).
  apply Z.div_le_mono; [lia|]. revert Hb. pattern b. revert b Hab.
  apply Zlt_lower_bound_ind. intros b IH Hab Hb.
  destruct (Z.eq_dec a b) as [->|Hne]; [lia|].
  etrans; [apply (IH (b - 1)); lia|].
  pose proof (year_numerator_step (b - 1) ltac:(lia) ltac:(lia)) as H.
  by replace (b - 1 + 1) with b in H by lia.
Qed.

Definition zrange (n : nat) : list Z := map Z.of_nat (seq 0 n).

Lemma zrange_check (p : Z → bool) (n : nat) z :
  forallb p (zrange n) = true → 0 ≤ z < Z.of_nat n → p z = true.
Proof.
  intros H Hz. rewrite forallb_forall in H. apply H. apply in_map_iff.
  exists (Z.to_nat z). split; [lia|]. apply in_seq. lia.
Qed.

Definition year_length (yoe : Z) : Z :=
  if (yoe + 1) mod 4 =? 0 then (if negb ((yoe + 1) mod 100 =? 0) || (yoe =? 399) then 366 else 365)
  else 365.

Lemma year_bounds yoe :
  0 ≤ yoe < 400 →
  year_of_era (year_start yoe) = yoe ∧
  year_of_era (year_start yoe + year_length yoe - 1) = yoe ∧
  0 ≤ year_start yoe ∧ year_start yoe + year_length yoe ≤ 146097 ∧
  (yoe < 399 → year_start (yoe + 1) = year_start yoe + year_length yoe) ∧
  (yoe = 399 → year_start yoe + year_length yoe = 146097).
Proof.
  intros Hy. apply (bool_decide_unpack _). apply Is_true_true.
  refine (zrange_check (λ yoe, bool_decide _) 400 yoe _ Hy). vm_compute. reflexivity.
Qed.

(** The year of an era is the one whose days contain the day. *)
Lemma year_of_era_spec yoe doe :
  0 ≤ yoe < 400 → year_start yoe ≤ doe < year_start yoe + year_length yoe →
  year_of_era doe = yoe.
Proof.
  intros Hy Hd. destruct (year_bounds yoe Hy) as (H1 & H2 & H3 & H4 & _).
  pose proof (year_of_era_mono (year_start yoe) doe ltac:(lia) ltac:(lia) ltac:(lia)).
  pose proof (year_of_era_mono doe (year_start yoe + year_length yoe - 1) ltac:(lia) ltac:(lia) ltac:(lia)).
  lia.
Qed.

(** Every day of an era lies in one of its years. *)
Lemma era_day_year doe :
  0 ≤ doe < 146097 → ∃ yoe, 0 ≤ yoe < 400 ∧ year_start yoe ≤ doe < year_start yoe + year_length yoe.
Proof.
  intros Hd. assert (∀ n : nat, (n <= 400)%nat → year_start 0 ≤ doe →
    (∃ yoe, 0 ≤ yoe < Z.of_nat n ∧ year_start yoe ≤ doe < year_start yoe + year_length yoe) ∨
    (n = 400%nat → False) ∧ year_start (Z.of_nat n) ≤ doe) as H.
  { induction n as [|n IH]; intros Hn H0; [right; split; [lia|done]|].
    destruct (IH ltac:(lia) H0) as [(yoe & ? & ?)|[_ Hle]]; [left; exists yoe; lia|].
    destruct (year_bounds (Z.of_nat n) ltac:(lia)) as (_ & _ & _ & _ & Hs & He).
    destruct (Z_lt_ge_dec doe (year_start (Z.of_nat n) + year_length (Z.of_nat n))) as [Hlt|Hge].
    - left. exists (Z.of_nat n). lia.
    - right. destruct (Nat.eq_dec n 399) as [->|Hne]; [rewrite He in Hge by lia; lia|].
      split; [lia|]. replace (Z.of_nat (S n)) with (Z.of_nat n + 1) by lia. rewrite Hs; lia. }
  destruct (H 400%nat ltac:(lia)) as [(yoe & Hy & Hb)|[Hf _]];
    [change (year_start 0) with 0; lia|by exists yoe|].
  by destruct Hf.
Qed.

(** ** Months *)

Lemma month_day_spec doy :
  0 ≤ doy < 366 →
  let '(m, d) := month_day doy in
  day_of_year m d = doy ∧ 1 ≤ m ≤ 12 ∧ 1 ≤ d ≤ 31 ∧
  (m = 2 → d = 29 ↔ doy = 365) ∧ (m = 2 → d ≤ 29) ∧ (m = 4 ∨ m = 6 ∨ m = 9 ∨ m = 11 → d ≤ 30) ∧
  (doy = 365 → m = 2).
Proof.
  intros Hd. destruct (month_day doy) as [m d] eqn:E. revert E.
  assert (let '(m, d) := month_day doy in bool_decide (day_of_year m d = doy ∧ 1 ≤ m ≤ 12 ∧ 1 ≤ d ≤ 31 ∧
    (m = 2 → d = 29 ↔ doy = 365) ∧ (m = 2 → d ≤ 29) ∧ (m = 4 ∨ m = 6 ∨ m = 9 ∨ m = 11 → d ≤ 30) ∧
    (doy = 365 → m = 2)) = true) as H.
  { refine (zrange_check (λ doy, let '(m, d) := month_day doy in bool_decide _) 366 doy _ Hd).
    vm_compute. reflexivity. }
  intros E. rewrite E in H. by apply bool_decide_eq_true in H.
Qed.

Definition longest (m : Z) : Z :=
  if m =? 2 then 29 else if (m =? 4) || (m =? 6) || (m =? 9) || (m =? 11) then 30 else 31.

Definition doy_ok (m d : Z) : bool :=
  bool_decide (month_day (day_of_year m d) = (m, d) ∧ 0 ≤ day_of_year m d < 366 ∧
    (day_of_year m d = 365 → m = 2 ∧ d = 29)).

Lemma day_of_year_spec m d :
  1 ≤ m ≤ 12 → 1 ≤ d ≤ longest m →
  month_day (day_of_year m d) = (m, d) ∧ 0 ≤ day_of_year m d < 366 ∧
  (day_of_year m d = 365 → m = 2 ∧ d = 29).
Proof.
  intros Hm Hd.
  assert (d < 32) as H32 by (unfold longest in Hd; repeat case_match; lia).
  assert (implb ((1 <=? m) && (1 <=? d) && (d <=? longest m)) (doy_ok m d) = true) as H.
  { refine (zrange_check (λ d, implb ((1 <=? m) && (1 <=? d) && (d <=? longest m)) (doy_ok m d))
      32 d _ ltac:(lia)).
    refine (zrange_check (λ m, forallb (λ d, implb ((1 <=? m) && (1 <=? d) && (d <=? longest m))
      (doy_ok m d)) (zrange 32)) 13 m _ ltac:(lia)).
    vm_compute. reflexivity. }
  rewrite (proj2 (Z.leb_le 1 m)), (proj2 (Z.leb_le 1 d)), (proj2 (Z.leb_le d (longest m))) in H by lia.
  by apply bool_decide_eq_true in H.
Qed.

Lemma mod_shift e y k n : 0 < n → k = n * (k / n) → (k * e + y) mod n = y mod n.
Proof.
  intros Hn Hk. rewrite Hk. replace (n * (k / n) * e + y) with (y + (k / n * e) * n) by ring.
  by rewrite Z.mod_add by lia.
Qed.

Lemma leap_year_length e yoe :
  0 ≤ yoe < 400 → leap (400 * e + yoe + 1) = (year_length yoe =? 366).
Proof.
  intros Hy. unfold leap, year_length. rewrite <- !Z.add_assoc.
  rewrite !(mod_shift e (yoe + 1) 400) by (done || reflexivity).
  destruct ((yoe + 1) mod 4 =? 0); simpl; [|done].
  destruct (negb ((yoe + 1) mod 100 =? 0)); simpl; [done|].
  destruct (yoe =? 399) eqn:E; zsolve.
  - by subst.
  - rewrite Z.mod_small by lia. destruct (yoe + 1 =? 0) eqn:E'; zsolve.
Qed.

Lemma days_in_month_longest y m :
  days_in_month y m = if (m =? 2) && negb (leap y) then 28 else longest m.
Proof. unfold days_in_month, longest. by destruct (m =? 2), (leap y). Qed.

Lemma year_length_cases yoe : year_length yoe = 365 ∨ year_length yoe = 366.
Proof. unfold year_length. repeat case_match; auto. Qed.

(** The day number of the civil date of a day is the day, and the date is valid. *)
Lemma civil_of_days_spec z :
  days_of_civil (civil_of_days z) = z ∧ valid_civil (civil_of_days z) = true.
Proof.
  unfold civil_of_days. set (n := z + 719468).
  pose proof (Z.mod_pos_bound n 146097 ltac:(lia)) as Hb.
  destruct (era_day_year _ Hb) as (yoe & Hy & Hd).
  rewrite (year_of_era_spec yoe) by done.
  pose proof (year_length_cases yoe).
  assert (0 ≤ n mod 146097 - year_start yoe < 366) as Hdoy by lia.
  pose proof (month_day_spec _ Hdoy) as Hmd.
  destruct (month_day (n mod 146097 - year_start yoe)) as [m d].
  destruct Hmd as (H1 & H2 & H3 & H4 & H5 & H6 & H7).
  set (e := n / 146097) in *. pose proof (Z.div_mod n 146097 ltac:(lia)) as Hdm. fold e in Hdm.
  split.
  - unfold days_of_civil. cbn [c_year c_month c_day].
    replace (if m <=? 2 then 400 * e + yoe + (if m <=? 2 then 1 else 0) - 1
      else 400 * e + yoe + (if m <=? 2 then 1 else 0)) with (yoe + e * 400)
      by (destruct (m <=? 2); lia).
    rewrite Z.mod_add, Z.div_add, (Z.mod_small yoe), (Z.div_small yoe), H1 by lia.
    unfold n in *. lia.
  - unfold valid_civil. cbn [c_year c_month c_day]. rewrite days_in_month_longest.
    rewrite !andb_true_iff, !Z.leb_le. split; [lia|].
    destruct (Z.eq_dec m 2) as [->|Hm].
    + change (2 <=? 2) with true. cbv iota. rewrite leap_year_length by done. simpl.
      unfold longest. specialize (H4 eq_refl). specialize (H5 eq_refl).
      destruct (year_length yoe =? 366) eqn:E; zsolve; simpl; lia.
    + rewrite (proj2 (Z.eqb_neq m 2)) by done. simpl. unfold longest.
      rewrite (proj2 (Z.eqb_neq m 2)) by done.
      destruct ((m =? 4) || (m =? 6) || (m =? 9) || (m =? 11)) eqn:E; [|lia].
      rewrite !orb_true_iff, !Z.eqb_eq in E. apply H6. lia.
Qed.

Lemma civil_of_days_of_civil c :
  valid_civil c = true → civil_of_days (days_of_civil c) = c.
Proof.
  destruct c as [y m d]. unfold valid_civil. cbn [c_year c_month c_day].
  rewrite !andb_true_iff, !Z.leb_le, days_in_month_longest. intros [[[Hm1 Hm2] Hd1] Hd2].
  assert (d ≤ longest m) as Hd.
  { revert Hd2. destruct (m =? 2) eqn:E; zsolve; simpl; [|done]. subst m.
    destruct (leap y); simpl; [done|]. unfold longest. simpl. lia. }
  destruct (day_of_year_spec m d) as (H1 & H2 & H3); [lia..|].
  unfold days_of_civil. cbn [c_year c_month c_day].
  set (y' := if m <=? 2 then y - 1 else y).
  pose proof (Z.mod_pos_bound y' 400 ltac:(lia)) as Hy. pose proof (Z.div_mod y' 400 ltac:(lia)) as Hdm.
  set (yoe := y' mod 400) in *. set (e := y' / 400) in *.
  destruct (year_bounds yoe Hy) as (_ & _ & Hs0 & Hs & _).
  assert (day_of_year m d < year_length yoe) as Hlen.
  { destruct (year_length_cases yoe) as [Hl|Hl]; [|lia].
    destruct (Z.eq_dec (day_of_year m d) 365) as [E|]; [|lia]. apply H3 in E as [-> ->].
    exfalso. unfold y' in *. simpl in Hdm, Hd2.
    replace y with (400 * e + yoe + 1) in Hd2 by lia.
    rewrite leap_year_length, Hl in Hd2 by done. simpl in Hd2. lia. }
  unfold civil_of_days.
  replace (146097 * e + (year_start yoe + day_of_year m d) - 719468 + 719468) with
    (year_start yoe + day_of_year m d + e * 146097) by lia.
  rewrite Z.mod_add, Z.div_add by lia.
  rewrite (Z.mod_small (year_start yoe + _)), (Z.div_small (year_start yoe + _)) by lia.
  rewrite (year_of_era_spec yoe) by lia.
  replace (year_start yoe + day_of_year m d - year_start yoe) with (day_of_year m d) by lia.
  rewrite H1. f_equal. unfold y' in *. destruct (m <=? 2); lia.
Qed.

Lemma MakeDay_valid y m d :
  1 ≤ m ≤ 12 → MakeDay y (m - 1) d = days_of_civil (Civil y m d).
Proof.
  intros Hm. unfold MakeDay. rewrite Z.div_small, Z.mod_small by lia.
  replace (m - 1 + 1) with m by lia. rewrite Z.add_0_r. unfold days_of_civil, day_of_year.
  cbn [c_year c_month c_day]. lia.
Qed.

Lemma Day_of_midnight n r : 0 ≤ r < msPerDay → Day (msPerDay * n + r) = n.
Proof.
  intros Hr. unfold Day. rewrite Z.mul_comm, Z.div_add_l by (unfold msPerDay; lia).
  rewrite Z.div_small by done. lia.
Qed.

(** The local calendar day of [new Date(y, m - 1, d)] is the date asked for. *)
Lemma local_date_of_new_Date {tz : TimeZone} `{!TimeZoneLaws tz} y m d :
  100 ≤ y → valid_civil (Civil y m d) = true →
  civil_of_time (LocalTime (new_Date_ymd y (m - 1) d)) = Civil y m d.
Proof.
  intros Hy Hv. unfold new_Date_ymd.
  replace ((0 <=? y) && (y <=? 99)) with false
    by (symmetry; apply andb_false_iff; right; apply Z.leb_gt; lia).
  unfold LocalTime. rewrite local_to_utc.
  assert (1 ≤ m ≤ 12) as Hm.
  { unfold valid_civil in Hv. cbn [c_month] in Hv. rewrite !andb_true_iff, !Z.leb_le in Hv. lia. }
  rewrite MakeDay_valid by done. unfold civil_of_time.
  rewrite <- (Z.add_0_r (msPerDay * _)), Day_of_midnight by (unfold msPerDay; lia).
  by apply civil_of_days_of_civil.
Qed.

(** ** Months in sequence *)

(** The first day of month [i], counted from January of year 0. *)
Definition month_start (i : Z) : Z := days_of_civil (Civil (i / 12) (i mod 12 + 1) 1).

Lemma days_of_civil_month y m d :
  1 ≤ m ≤ 12 → days_of_civil (Civil y m d) = month_start (12 * y + (m - 1)) + d - 1.
Proof.
  intros Hm. unfold month_start.
  replace ((12 * y + (m - 1)) / 12) with y by (Z.to_euclidean_division_equations; lia).
  replace ((12 * y + (m - 1)) mod 12) with (m - 1) by (Z.to_euclidean_division_equations; lia).
  replace (m - 1 + 1) with m by lia. unfold days_of_civil, day_of_year.
  cbn [c_year c_month c_day]. lia.
Qed.

(** March follows February by the length of February. *)
Lemma march_start y : days_of_civil (Civil y 3 1) = days_of_civil (Civil y 2 1) + days_in_month y 2.
Proof.
  unfold days_of_civil. cbn [c_year c_month c_day].
  change (3 <=? 2) with false. change (2 <=? 2) with true. cbv iota.
  change (day_of_year 3 1) with 0. change (day_of_year 2 1) with 337.
  pose proof (Z.mod_pos_bound (y - 1) 400 ltac:(lia)) as Hb.
  pose proof (Z.div_mod (y - 1) 400 ltac:(lia)) as Hdm.
  set (yoe := (y - 1) mod 400) in *. set (e := (y - 1) / 400) in *.
  assert (days_in_month y 2 = year_length yoe - 337) as ->.
  { unfold days_in_month. simpl. replace y with (400 * e + yoe + 1) by lia.
    rewrite leap_year_length by done. destruct (year_length_cases yoe) as [-> | ->]; done. }
  destruct (year_bounds yoe Hb) as (_ & _ & _ & _ & Hs & He).
  destruct (Z.eq_dec yoe 399) as [Heq|Hne].
  - replace y with (0 + (e + 1) * 400) by lia. rewrite Z.mod_add, Z.div_add by lia.
    change (0 mod 400) with 0. change (0 / 400) with 0. change (year_start 0) with 0.
    specialize (He Heq). lia.
  - replace y with (yoe + 1 + e * 400) at 1 2 by lia. rewrite Z.mod_add, Z.div_add by lia.
    rewrite (Z.div_small (yoe + 1)), (Z.mod_small (yoe + 1)), Hs by lia. lia.
Qed.

Lemma month_start_S y m :
  1 ≤ m ≤ 12 → month_start (12 * y + m) = month_start (12 * y + (m - 1)) + days_in_month y m.
Proof.
  intros Hm. destruct (Z.eq_dec m 2) as [->|H2].
  - pose proof (march_start y) as H. rewrite !days_of_civil_month in H by lia.
    replace (3 - 1) with 2 in H by lia. lia.
  - destruct (Z.eq_dec m 12) as [->|H12].
    + replace (12 * y + 12) with (12 * (y + 1) + (1 - 1)) by lia.
      pose proof (days_of_civil_month (y + 1) 1 1 ltac:(lia)).
      pose proof (days_of_civil_month y 12 1 ltac:(lia)).
      unfold days_of_civil in *. cbn [c_year c_month c_day] in *.
      change (1 <=? 2) with true in *. change (12 <=? 2) with false in *. cbv iota in *. replace (y + 1 - 1) with y in * by lia.
      change (day_of_year 1 1) with 306 in *. change (day_of_year 12 1) with 275 in *.
      change (days_in_month y 12) with 31. lia.
    + replace (12 * y + m) with (12 * y + ((m + 1) - 1)) by lia.
      pose proof (days_of_civil_month y (m + 1) 1 ltac:(lia)).
      pose proof (days_of_civil_month y m 1 ltac:(lia)).
      unfold days_of_civil, days_in_month in *. cbn [c_year c_month c_day] in *.
      revert H H0. generalize (month_start (12 * y + (m + 1 - 1))) (month_start (12 * y + (m - 1))).
      unfold day_of_year. intros s s' H H0.
      assert (m = 1 ∨ m = 3 ∨ m = 4 ∨ m = 5 ∨ m = 6 ∨ m = 7 ∨ m = 8 ∨ m = 9 ∨ m = 10 ∨ m = 11)
        as Hin by lia.
      repeat destruct Hin as [->|Hin]; [..|subst m]; simpl in *; Z.to_euclidean_division_equations; lia.
Qed.

Lemma days_in_month_bounds y m : 28 ≤ days_in_month y m ≤ 31.
Proof. unfold days_in_month. repeat case_match; lia. Qed.

Lemma month_start_step i : month_start i + 28 ≤ month_start (i + 1).
Proof.
  pose proof (Z.mod_pos_bound i 12 ltac:(lia)). pose proof (Z.div_mod i 12 ltac:(lia)).
  pose proof (month_start_S (i / 12) (i mod 12 + 1) ltac:(lia)) as HS.
  pose proof (days_in_month_bounds (i / 12) (i mod 12 + 1)).
  replace (12 * (i / 12) + (i mod 12 + 1)) with (i + 1) in HS by lia.
  replace (12 * (i / 12) + (i mod 12 + 1 - 1)) with i in HS by lia. lia.
Qed.

Lemma month_start_mono i j : i ≤ j → month_start i + 28 * (j - i) ≤ month_start j.
Proof.
  revert j. apply Zlt_lower_bound_ind. intros j IH Hij.
  destruct (Z.eq_dec i j) as [->|Hne]; [lia|].
  specialize (IH (j - 1) ltac:(lia)). pose proof (month_start_step (j - 1)) as Hs.
  replace (j - 1 + 1) with j in Hs by lia. lia.
Qed.

(** A date in a later month is a later day. *)
Lemma later_month y m d y' m' d' :
  valid_civil (Civil y m d) = true → 1 ≤ m' ≤ 12 → 1 ≤ d' →
  12 * y + m < 12 * y' + m' → days_of_civil (Civil y m d) < days_of_civil (Civil y' m' d').
Proof.
  unfold valid_civil. cbn [c_year c_month c_day]. rewrite !andb_true_iff, !Z.leb_le.
  intros [[[Hm1 Hm2] Hd1] Hd2] Hm' Hd' Hlt. rewrite !days_of_civil_month by lia.
  pose proof (month_start_S y m ltac:(lia)) as HS.
  pose proof (month_start_mono (12 * y + m) (12 * y' + (m' - 1)) ltac:(lia)). lia.
Qed.

(** ** Dates as text *)

Lemma pad2_spec n :
  0 ≤ n < 100 →
  let s := padStart 2 "0" (int_to_str n) in
  length s = 2%nat ∧ Forall (λ a, is_digit a = true) s ∧ parseInt s = Some n.
Proof.
  intros Hn s. assert (bool_decide (length s = 2%nat ∧ Forall (λ a, is_digit a = true) s ∧
    parseInt s = Some n) = true) as H; [|by apply bool_decide_eq_true in H].
  refine (zrange_check (λ n, let s := padStart 2 "0" (int_to_str n) in
    bool_decide (length s = 2%nat ∧ Forall (λ a, is_digit a = true) s ∧ parseInt s = Some n))
    100 n _ Hn).
  vm_compute. reflexivity.
Qed.

Lemma year4_spec y :
  1000 ≤ y < 10000 →
  length (int_to_str y) = 4%nat ∧ Forall (λ a, is_digit a = true) (int_to_str y) ∧
  parseInt (int_to_str y) = Some y.
Proof.
  intros Hy. split; [|split; [|apply parseInt_int_to_str]].
  - unfold int_to_str. rewrite (proj2 (Z.ltb_ge y 0)) by lia. unfold nat_to_str.
    assert (2 ^ 9 ≤ y) as H9 by (simpl; lia). apply Z.log2_le_pow2 in H9; [|lia].
    destruct (Z.to_nat (Z.log2 y)) as [|[|[|f]]] eqn:E; [lia..|]. cbn [dec_digits].
    rewrite !Z.div_div by lia.
    rewrite (proj2 (Z.ltb_ge y 10)), (proj2 (Z.ltb_ge (y / 10) 10)), (proj2 (Z.ltb_ge (y / (10 * 10)) 10)),
      (proj2 (Z.ltb_lt (y / (10 * 10 * 10)) 10)) by (Z.to_euclidean_division_equations; lia).
    done.
  - unfold int_to_str. rewrite (proj2 (Z.ltb_ge y 0)) by lia.
    by destruct (nat_to_str_spec y ltac:(lia)) as (_ & Hd & _).
Qed.

(** [YYYY-MM-DD] *)
Definition date_text (c : civil) : jsstr :=
  int_to_str (c_year c) ++ "-"%js ++ padStart 2 "0" (int_to_str (c_month c)) ++ "-"%js ++
  padStart 2 "0" (int_to_str (c_day c)).

Lemma valid_civil_bounds c : valid_civil c = true → 1 ≤ c_month c ≤ 12 ∧ 1 ≤ c_day c ≤ 31.
Proof.
  unfold valid_civil. rewrite !andb_true_iff, !Z.leb_le.
  pose proof (days_in_month_bounds (c_year c) (c_month c)). lia.
Qed.

(** The three numbers of a date text, and where they are. *)
Lemma date_text_parts c :
  1000 ≤ c_year c < 10000 → valid_civil c = true →
  ∃ y m d, date_text c = y ++ "-"%char :: m ++ "-"%char :: d ∧
    length y = 4%nat ∧ length m = 2%nat ∧ length d = 2%nat ∧
    Forall (λ a, is_digit a = true) y ∧ Forall (λ a, is_digit a = true) m ∧
    Forall (λ a, is_digit a = true) d ∧
    parseInt y = Some (c_year c) ∧ parseInt m = Some (c_month c) ∧ parseInt d = Some (c_day c).
Proof.
  intros Hy Hv%valid_civil_bounds. destruct (year4_spec _ Hy) as (? & ? & ?).
  destruct (pad2_spec (c_month c)) as (? & ? & ?); [lia|].
  destruct (pad2_spec (c_day c)) as (? & ? & ?); [lia|].
  eexists _, _, _. split; [reflexivity|]. done.
Qed.

Lemma padStart_full n x w : length w = n → padStart n x w = w.
Proof. intros <-. unfold padStart. by rewrite Nat.sub_diag. Qed.

(** The text of a date of four-digit year is the date part of [toISOString]. *)
Lemma date_text_iso c : 1000 ≤ c_year c < 10000 → valid_civil c = true → date_text c = iso_text c.
Proof.
  intros Hy Hv%valid_civil_bounds. destruct (year4_spec _ Hy) as (Hl & _ & _).
  unfold date_text, iso_text, iso_year. rewrite andb_true_intro by lia. unfold pad4, pad2.
  assert (∀ z, 0 ≤ z → int_to_str z = nat_to_str z) as Hp.
  { intros z Hz. unfold int_to_str. by rewrite (proj2 (Z.ltb_ge _ _)) by lia. }
  rewrite !Hp in * by lia. by rewrite (padStart_full 4) by done.
Qed.
