(* ===== verification/Dayjs.v ===== *)
(** * The date library the calendar code calls

    [dayjs] is a package outside the repository: its operations are the fields of a class, the
    documented facts the theorems need are laws.  The instance builds them from the calendar of
    JsDate for a zone at a fixed distance from UTC; the witnesses run on it. *)

From stdpp Require Import base list.
From S2P Require Import Prelude JsString JsDate.

#[local] Open Scope Z_scope.

Class Dayjs := {
  (** [dayjs(t).add(n, unit)] *)
  dj_add : Z → Z → jsstr → Z;
  (** [.day()], [.date()], [.month()] *)
  dj_day : Z → Z;
  dj_date : Z → Z;
  dj_month : Z → Z;
  (** [dayjs(a).isSame(b, 'day')] *)
  dj_isSameDay : Z → Z → bool;
  (** [dayjs(t).format(f)] and [dayjs(t).utc().format(f)] *)
  dj_format : Z → jsstr → jsstr;
  dj_utc_format : Z → jsstr → jsstr;
  (** [dayjs(s, f)]; [None] is the invalid date *)
  dj_parse : jsstr → jsstr → option Z;
}.

Definition units : list jsstr := ["day"; "week"; "month"; "year"]%js.

(** Adding a positive number of units gives a later date, by at least [dj_step] (in a zone with
    daylight saving time a day can have 23 hours); a weekday is a number from 0 to 6. *)
Class DayjsLaws (D : Dayjs) := {
  dj_step : Z;
  dj_step_pos : 0 < dj_step;
  dj_add_later : ∀ t n u, u ∈ units → 1 ≤ n → t + dj_step ≤ dj_add t n u;
  dj_day_range : ∀ t, 0 ≤ dj_day t < 7;
}.

(** ** An instance *)

Section Fixed.
Context (off : Z).

(** The last day of the month when the month has no such day. *)
Definition clamp_day (y m d : Z) : Z := Z.min d (days_in_month y m).

Definition add_months (t n : Z) : Z :=
  let l := t + off in
  let c := civil_of_time l in
  let months := 12 * c_year c + (c_month c - 1) + n in
  let y := months / 12 in
  let m := months mod 12 + 1 in
  msPerDay * days_of_civil (Civil y m (clamp_day y m (c_day c))) + TimeWithinDay l - off.

Definition fixed_add (t n : Z) (u : jsstr) : Z :=
  if bool_decide (u = "day"%js) then t + n * msPerDay
  else if bool_decide (u = "week"%js) then t + 7 * n * msPerDay
  else if bool_decide (u = "month"%js) then add_months t n
  else add_months t (12 * n).

Definition two_digits (n : Z) : jsstr := pad2 n.

Definition compact (l : Z) : jsstr :=
  let c := civil_of_time l in
  let s := TimeWithinDay l / 1000 in
  pad4 (c_year c) ++ pad2 (c_month c) ++ pad2 (c_day c) ++ "T"%js ++
  pad2 (s / 3600) ++ pad2 (s / 60 mod 60) ++ pad2 (s mod 60).

Definition digits (s : jsstr) (i n : nat) : Z := digits_to_int (take n (drop i s)).

Definition parse_compact (s : jsstr) : Z :=
  msPerDay * days_of_civil (Civil (digits s 0 4) (digits s 4 2) (digits s 6 2)) +
  1000 * (3600 * digits s 9 2 + 60 * digits s 11 2 + digits s 13 2) - off.

Definition fixed_dayjs : Dayjs := {|
  dj_add := fixed_add;
  dj_day t := WeekDay (t + off);
  dj_date t := c_day (civil_of_time (t + off));
  dj_month t := c_month (civil_of_time (t + off)) - 1;
  dj_isSameDay a b := bool_decide (Day (a + off) = Day (b + off));
  dj_format t f := if bool_decide (f = "YYYY-MM-DD"%js) then iso_date (t + off) else compact (t + off);
  dj_utc_format t f := compact t;
  dj_parse s f := if bool_decide (length s < 8)%nat then None else Some (parse_compact s);
|}.
End Fixed.

Definition utc_dayjs : Dayjs := fixed_dayjs 0.

(** ** The instance satisfies the laws *)

Lemma add_months_later off t n : 1 ≤ n → t + 1 ≤ add_months off t n.
Proof.
  intros Hn. unfold add_months. set (l := t + off). destruct (civil_of_time l) as [y m d] eqn:E.
  cbn [c_year c_month c_day].
  destruct (civil_of_days_spec (Day l)) as [Hl Hv]. fold (civil_of_time l) in Hl, Hv.
  rewrite E in Hl, Hv.
  assert (1 ≤ m ≤ 12 ∧ 1 ≤ d) as [Hm Hd].
  { unfold valid_civil in Hv. cbn [c_year c_month c_day] in Hv.
    rewrite !andb_true_iff, !Z.leb_le in Hv. lia. }
  set (months := 12 * y + (m - 1) + n).
  pose proof (Z.mod_pos_bound months 12 ltac:(lia)). pose proof (Z.div_mod months 12 ltac:(lia)).
  pose proof (days_in_month_bounds (months / 12) (months mod 12 + 1)).
  assert (days_of_civil (Civil y m d) <
    days_of_civil (Civil (months / 12) (months mod 12 + 1) (clamp_day (months / 12) (months mod 12 + 1) d))).
  { apply later_month; [done|lia|unfold clamp_day; lia|]. unfold months in *. lia. }
  pose proof (Z.div_mod l msPerDay ltac:(unfold msPerDay; lia)) as Hdl.
  fold (Day l) (TimeWithinDay l) in Hdl. unfold msPerDay in *. lia.
Qed.

Definition fixed_dayjs_laws off : DayjsLaws (fixed_dayjs off).
Proof.
  refine {| dj_step := 1 |}; [lia| |].
  - intros t n u Hu Hn. simpl. unfold fixed_add.
    assert (u ∈ units → True) as _ by done. unfold msPerDay.
    repeat case_bool_decide; try lia; apply add_months_later; lia.
  - intros t. simpl. unfold WeekDay. apply Z.mod_pos_bound. lia.
Defined.
