(* ===== verification/CalEvent.v ===== *)
(** * Calendar: events ([packages/core/src/calendar/types.ts], [event.ts])

    Dates are instants in milliseconds.  The current time, [Math.random] and the date library
    are arguments. *)

From stdpp Require Import base list.
From S2P Require Import Prelude JsString JsRegex JsNumber JsValue EmailPattern JsDate Dayjs.

#[local] Open Scope Z_scope.

(** ** Types *)

(** What [parseInt] returns: an integer or [NaN]. *)
Inductive jsint := JInt (z : Z) | JNaN.

#[export] Instance jsint_eq_dec : EqDecision jsint.
Proof. solve_decision. Defined.

Record Attendee := {
  at_email : jsstr; at_name : option jsstr; at_status : jsstr; at_role : jsstr;
  at_isOrganizer : bool;
}.

(** A [Date] made from a string: [None] is the invalid date. *)
Abbreviation date_value := (option Z).

Record RecurrenceRule := {
  freq : jsstr; interval : jsint; count : option jsint; until : option date_value;
  byDay : option (list jsstr); byMonthDay : option (list jsint);
  byMonth : option (list jsint); bySetPos : option (list jsint); wkst : option jsstr;
}.

Record Reminder := { rm_method : jsstr; rm_minutes : Z }.

Record Event := {
  ev_id : jsstr; ev_calendarId : jsstr; ev_ownerId : jsstr; ev_uid : jsstr;
  ev_summary : jsstr; ev_description : option jsstr; ev_location : option jsstr;
  ev_start : Z; ev_end : Z; ev_allDay : bool; ev_timezone : jsstr;
  ev_recurrenceRule : option RecurrenceRule; ev_recurrenceId : option Z;
  ev_attendees : list Attendee; ev_organizer : option Attendee; ev_status : jsstr;
  ev_visibility : jsstr; ev_busy : bool; ev_reminders : list Reminder; ev_color : option jsstr;
  ev_createdAt : Z; ev_updatedAt : Z;
}.

(** A request comes from outside: its parts may be missing whatever the type says. *)
Record EventRequest := {
  rq_calendarId : jsstr; rq_summary : option jsstr; rq_description : option jsstr;
  rq_location : option jsstr; rq_start : option Z; rq_end : option Z; rq_allDay : option bool;
  rq_timezone : option jsstr; rq_recurrenceRule : option RecurrenceRule;
  rq_attendees : option (list (jsstr * option jsstr)); rq_reminders : option (list Reminder);
  rq_visibility : option jsstr;
}.

(** ** Operations *)

(** [random36] is [Math.random().toString(36)]. *)
Definition generateEventUid (now : Z) (random36 domain : jsstr) : jsstr :=
  int_to_str now ++ "-"%js ++ substring random36 2 15 ++ "@"%js ++ domain.

(** [Math.round(x / 60000)]: the nearest integer, halves upwards. *)
Definition getEventDuration (event : Event) : Z :=
  (2 * (ev_end event - ev_start event) + 60000) / 120000.

Definition isEventNow (now : Z) (event : Event) : bool :=
  (ev_start event <=? now) && (now <? ev_end event).
Definition isEventPast (now : Z) (event : Event) : bool := ev_end event <? now.
Definition isEventFuture (now : Z) (event : Event) : bool := now <? ev_start event.

Section WithDayjs.
Context {D : Dayjs}.

Definition isMultiDayEvent (event : Event) : bool :=
  negb (dj_isSameDay (ev_start event) (ev_end event)).

Definition formatEventTimeRange (event : Event) : jsstr :=
  let start := ev_start event in
  let end_ := ev_end event in
  if ev_allDay event then
    let last := dj_add end_ (-1) "day"%js in
    if dj_isSameDay start last then dj_format start "MMM D, YYYY"%js
    else dj_format start "MMM D"%js ++ " - "%js ++ dj_format last "MMM D, YYYY"%js
  else if dj_isSameDay start end_ then
    dj_format start "MMM D, YYYY"%js ++ " "%js ++ dj_format start "h:mm A"%js ++ " - "%js ++
    dj_format end_ "h:mm A"%js
  else dj_format start "MMM D, h:mm A"%js ++ " - "%js ++ dj_format end_ "MMM D, h:mm A YYYY"%js.

Definition dateKey (event : Event) : jsstr := dj_format (ev_start event) "YYYY-MM-DD"%js.

Definition groupEventsByDate (events : list Event) : jsmap jsstr (list Event) :=
  group_by dateKey events.
End WithDayjs.

Definition validateEventRequest (r : EventRequest) : validation :=
  validation_of (
    push_if (negb (opt_truthy (trim <$> rq_summary r))) "Event title is required"%js ++
    push_if (bool_decide (rq_start r = None)) "Start time is required"%js ++
    push_if (bool_decide (rq_end r = None)) "End time is required"%js ++
    push_if (match rq_start r, rq_end r with Some s, Some e => e <=? s | _, _ => false end)
      "End time must be after start time"%js ++
    flat_map (λ a, push_if (negb (re_test simple_email_re a.1)) ("Invalid attendee email: "%js ++ a.1))
      (default [] (rq_attendees r))).

Definition in_date_range (start end_ : Z) (event : Event) : bool :=
  if (start <=? ev_start event) && (ev_start event <? end_) then true
  else if (start <? ev_end event) && (ev_end event <=? end_) then true
  else if (ev_start event <=? start) && (end_ <=? ev_end event) then true
  else false.

Definition filterEventsByDateRange (events : list Event) (start end_ : Z) : list Event :=
  filter (λ e, in_date_range start end_ e = true) events.

Definition compareStart (ascending : bool) (a b : Event) : Z :=
  let diff := ev_start a - ev_start b in if ascending then diff else - diff.

Definition sortEventsByStartTime (events : list Event) (ascending : bool) : list Event :=
  sort_by (compareStart ascending) events.

Definition conflicts_with (event existing : Event) : bool :=
  if bool_decide (ev_id existing = ev_id event) then false
  else if negb (ev_busy event) || negb (ev_busy existing) then false
  else (ev_start event <? ev_end existing) && (ev_start existing <? ev_end event).

Definition findEventConflicts (event : Event) (existingEvents : list Event) : list Event :=
  filter (λ e, conflicts_with event e = true) existingEvents.

Record ResponseSummary := {
  accepted : Z; declined : Z; tentative : Z; pending : Z; total : Z;
}.

Definition count_response (s : ResponseSummary) (a : Attendee) : ResponseSummary :=
  if at_isOrganizer a then s
  else if bool_decide (at_status a = "accepted"%js) then
    {| accepted := accepted s + 1; declined := declined s; tentative := tentative s;
       pending := pending s; total := total s |}
  else if bool_decide (at_status a = "declined"%js) then
    {| accepted := accepted s; declined := declined s + 1; tentative := tentative s;
       pending := pending s; total := total s |}
  else if bool_decide (at_status a = "tentative"%js) then
    {| accepted := accepted s; declined := declined s; tentative := tentative s + 1;
       pending := pending s; total := total s |}
  else
    {| accepted := accepted s; declined := declined s; tentative := tentative s;
       pending := pending s + 1; total := total s |}.

Definition getAttendeeResponseSummary (attendees : list Attendee) : ResponseSummary :=
  foldl count_response
    {| accepted := 0; declined := 0; tentative := 0; pending := 0;
       total := Z.of_nat (length attendees) |} attendees.

(** ** Ranges and conflicts: theorems *)

(** Two half-open intervals share an instant. *)
Definition overlaps (s1 e1 s2 e2 : Z) : Prop := s1 < e2 ∧ s2 < e1.

Lemma in_date_range_overlaps start end_ event :
  start < end_ → ev_start event < ev_end event →
  in_date_range start end_ event = true ↔ overlaps (ev_start event) (ev_end event) start end_.
Proof.
  intros Hr He. unfold in_date_range, overlaps.
  repeat case_if; rewrite ?andb_true_iff, ?andb_false_iff, ?Z.leb_le, ?Z.ltb_lt, ?Z.leb_gt, ?Z.ltb_ge in *;
    split; done || lia.
Qed.

(** The three tests of [filterEventsByDateRange] (starts inside, ends inside, spans) together
    select exactly the events that overlap the range, for events that are not empty. *)
Theorem filterEventsByDateRange_overlap events start end_ :
  start < end_ → Forall (λ e, ev_start e < ev_end e) events →
  ∀ e, e ∈ filterEventsByDateRange events start end_ ↔
       e ∈ events ∧ overlaps (ev_start e) (ev_end e) start end_.
Proof.
  intros Hr Hall e. rewrite Forall_forall in Hall. unfold filterEventsByDateRange.
  rewrite list_elem_of_filter. split.
  - intros [Hin He]. split; [done|]. by apply in_date_range_overlaps; auto.
  - intros [He Ho]. split; [|done]. by apply in_date_range_overlaps; auto.
Qed.

(** Conflicts are the busy events with another id that overlap the event; the relation is
    symmetric, and adding an event without conflicts to a calendar without conflicts keeps it so. *)
Theorem findEventConflicts_spec event existingEvents :
  (∀ e, e ∈ findEventConflicts event existingEvents ↔
    e ∈ existingEvents ∧ ev_id e ≠ ev_id event ∧ ev_busy event = true ∧ ev_busy e = true ∧
    overlaps (ev_start event) (ev_end event) (ev_start e) (ev_end e)) ∧
  (∀ e, findEventConflicts event [e] = [] ↔ findEventConflicts e [event] = []) ∧
  (findEventConflicts event existingEvents = [] →
   (∀ a, a ∈ existingEvents → findEventConflicts a existingEvents = []) →
   ∀ a, a ∈ event :: existingEvents → findEventConflicts a (event :: existingEvents) = []).
Proof.
  assert (∀ a b, conflicts_with a b = true ↔ ev_id b ≠ ev_id a ∧ ev_busy a = true ∧
    ev_busy b = true ∧ overlaps (ev_start a) (ev_end a) (ev_start b) (ev_end b)) as Hc.
  { intros a b. unfold conflicts_with, overlaps. case_bool_decide as Hi; [naive_solver|].
    destruct (ev_busy a), (ev_busy b); simpl; try naive_solver.
    rewrite andb_true_iff, !Z.ltb_lt. naive_solver. }
  assert (∀ a b, conflicts_with a b = true ↔ conflicts_with b a = true) as Hsym.
  { intros a b. rewrite !Hc. unfold overlaps. naive_solver. }
  assert (∀ a l, findEventConflicts a l = [] ↔ ∀ b, b ∈ l → ¬ conflicts_with a b = true) as Hn.
  { intros a l. unfold findEventConflicts. split.
    - intros H b Hb Hcb. assert (b ∈ @nil Event); [|set_solver]. rewrite <- H.
      by apply list_elem_of_filter.
    - intros H. by apply filter_none. }
  split; [|split].
  - intros e. unfold findEventConflicts. rewrite list_elem_of_filter, Hc. naive_solver.
  - intros e. rewrite !Hn. setoid_rewrite list_elem_of_singleton.
    split; intros H b ->; rewrite Hsym; by apply H.
  - rewrite !Hn. intros He Hl a Ha. apply Hn. intros b Hb.
    apply elem_of_cons in Ha as [->|Ha], Hb as [->|Hb].
    + rewrite Hc. naive_solver.
    + by apply He.
    + rewrite Hsym. by apply He.
    + apply Hl in Ha. rewrite Hn in Ha. by apply Ha.
Qed.

#[export] Instance compareStart_comparator asc : Comparator (compareStart asc).
Proof. unfold compareStart. split; intros; destruct asc; lia. Qed.

(** Every event is in exactly one group, the one of its formatted start day, in the order of
    the list; the groups are in the order of their first events and none is empty. *)
Theorem groupEventsByDate_spec {D : Dayjs} events :
  (groupEventsByDate events).*1 = set_of_list (dateKey <$> events) ∧
  ∀ k, jm_get k (groupEventsByDate events) =
       if decide (k ∈ dateKey <$> events) then Some (filter (λ e, dateKey e = k) events) else None.
Proof.
  split; [apply group_by_keys|]. intros k. unfold groupEventsByDate. rewrite group_by_get.
  unfold items_of. repeat case_decide; try done.
  - exfalso. destruct (proj1 (list_elem_of_fmap _ _ _) H0) as (e & -> & He).
    assert (e ∈ @nil Event); [|set_solver]. rewrite <- H. by apply list_elem_of_filter.
  - exfalso. apply H. apply filter_none. intros e He <-. apply H0. by apply list_elem_of_fmap_2.
Qed.

(** ** The response summary: theorem *)

Definition tally (p : Attendee → bool) (l : list Attendee) : Z := Z.of_nat (length (filter (λ a, p a = true) l)).

Lemma tally_cons p a l : tally p (a :: l) = (if p a then 1 else 0) + tally p l.
Proof.
  unfold tally. rewrite filter_cons. destruct (p a); [rewrite decide_True by done|]; simpl; lia.
Qed.

Definition guest (a : Attendee) : bool := negb (at_isOrganizer a).

Definition guest_status (st : jsstr) (a : Attendee) : bool :=
  guest a && bool_decide (at_status a = st).

Lemma count_responses l s :
  let s' := foldl count_response s l in
  accepted s' + declined s' + tentative s' + pending s' =
    accepted s + declined s + tentative s + pending s + tally guest l ∧
  accepted s' = accepted s + tally (guest_status "accepted"%js) l ∧
  declined s' = declined s + tally (guest_status "declined"%js) l ∧
  tentative s' = tentative s + tally (guest_status "tentative"%js) l ∧ total s' = total s.
Proof.
  revert s. induction l as [|a l IH]; intros s; [unfold tally; simpl; lia|]. simpl foldl.
  rewrite !tally_cons. destruct (IH (count_response s a)) as (H1 & H2 & H3 & H4 & H5).
  cbv zeta in *. clear IH. unfold count_response, guest_status, guest in *.
  destruct (at_isOrganizer a); simpl in *; [lia|].
  case_bool_decide as E1; [rewrite E1 in *; decide_closed; simpl in *; lia|].
  case_bool_decide as E2; [rewrite E2 in *; decide_closed; simpl in *; lia|].
  case_bool_decide as E3; simpl in *; lia.
Qed.

(** The response summary counts every attendee that is not an organizer exactly once, whatever
    its status, and each counter is the number of those with its status. *)
Theorem getAttendeeResponseSummary_spec attendees :
  let s := getAttendeeResponseSummary attendees in
  accepted s + declined s + tentative s + pending s = tally guest attendees ∧
  accepted s = tally (guest_status "accepted"%js) attendees ∧
  declined s = tally (guest_status "declined"%js) attendees ∧
  tentative s = tally (guest_status "tentative"%js) attendees ∧
  total s = Z.of_nat (length attendees).
Proof.
  intros s. unfold s, getAttendeeResponseSummary.
  match goal with |- context [foldl _ ?i _] => pose proof (count_responses attendees i) as H end.
  cbv zeta in H. simpl in *. lia.
Qed.

(** An event request is valid exactly when it has a title that is not blank, a start, a later
    end, and every guest has an address of the accepted form. *)
Theorem validateEventRequest_spec r :
  valid (validateEventRequest r) = true ↔
  (∃ t, rq_summary r = Some t ∧ trim t ≠ []) ∧
  (∃ s e, rq_start r = Some s ∧ rq_end r = Some e ∧ s < e) ∧
  ∀ a, a ∈ default [] (rq_attendees r) → simple_address a.1.
Proof.
  unfold validateEventRequest. rewrite validation_of_valid, !app_nil, !push_if_nil, flat_map_nil.
  setoid_rewrite push_if_nil. setoid_rewrite negb_false_iff. setoid_rewrite simple_email_spec.
  rewrite !bool_decide_eq_false.
  assert (opt_truthy (trim <$> rq_summary r) = true ↔ ∃ t, rq_summary r = Some t ∧ trim t ≠ []) as ->.
  { destruct (rq_summary r); simpl; rewrite ?truthy_spec; naive_solver. }
  destruct (rq_start r) as [s|], (rq_end r) as [e|]; rewrite ?Z.leb_gt; naive_solver.
Qed.

(** ** Witnesses *)

Definition ex_event (i : jsstr) (s e : Z) : Event := {|
  ev_id := i; ev_calendarId := "c"%js; ev_ownerId := "o"%js; ev_uid := "u"%js;
  ev_summary := "Call"%js; ev_description := None; ev_location := None; ev_start := s; ev_end := e;
  ev_allDay := false; ev_timezone := "UTC"%js; ev_recurrenceRule := None; ev_recurrenceId := None;
  ev_attendees := []; ev_organizer := None; ev_status := "confirmed"%js;
  ev_visibility := "public"%js; ev_busy := true; ev_reminders := []; ev_color := None;
  ev_createdAt := 0; ev_updatedAt := 0 |}.

Lemma filterEventsByDateRange_overlap_witness :
  ex_event "1"%js 5 15 ∈ filterEventsByDateRange [ex_event "1"%js 5 15; ex_event "2"%js 20 30] 10 20.
Proof.
  apply (filterEventsByDateRange_overlap [ex_event "1"%js 5 15; ex_event "2"%js 20 30] 10 20).
  - reflexivity.
  - repeat constructor.
  - split; [left|split; reflexivity].
Defined.
