(* ===== verification/CalRecurrence.v ===== *)
(** * Calendar: recurrence rules ([packages/core/src/calendar/recurrence.ts]) *)

From stdpp Require Import base list.
From S2P Require Import Prelude JsString JsRegex JsDate Dayjs CalEvent.

#[local] Open Scope Z_scope.

Definition REVERSE_DAY_MAP : list (Z * jsstr) :=
  [(0, "SU"); (1, "MO"); (2, "TU"); (3, "WE"); (4, "TH"); (5, "FR"); (6, "SA")]%js.

(** ** Numbers *)

(** [parseInt(v, 10)] of a string or [undefined]. *)
Definition parse_jsint (v : option jsstr) : jsint :=
  match v with
  | Some s => match parseInt s with Some z => JInt z | None => JNaN end
  | None => JNaN
  end.

Definition jsint_str (n : jsint) : jsstr :=
  match n with JInt z => int_to_str z | JNaN => "NaN"%js end.

Definition jsint_truthy (n : jsint) : bool :=
  match n with JInt z => negb (z =? 0) | JNaN => false end.

(** [rule.interval || 1] *)
Definition interval_or_1 (rule : RecurrenceRule) : Z :=
  match interval rule with JInt z => if z =? 0 then 1 else z | JNaN => 1 end.

Section WithDayjs.
Context {D : Dayjs}.

(** ** Dates *)

Definition parseICalDate (value : jsstr) : date_value :=
  if (length value =? 8)%nat then dj_parse value "YYYYMMDD"%js
  else dj_parse (replace_first "Z"%js [] value) "YYYYMMDDTHHmmss"%js.

Definition formatICalDate (d : date_value) : jsstr :=
  match d with
  | Some t => dj_utc_format t "YYYYMMDDTHHmmss"%js
  | None => "Invalid Date"%js
  end ++ "Z"%js.

(** ** [parseRRule] *)

(** [Partial<RecurrenceRule>], under construction. *)
Record PRule := {
  p_freq : option jsstr; p_interval : jsint; p_count : option jsint;
  p_until : option date_value; p_byDay : option (list jsstr);
  p_byMonthDay : option (list jsint); p_byMonth : option (list jsint);
  p_bySetPos : option (list jsint); p_wkst : option jsstr;
}.

Definition initial_rule : PRule := {|
  p_freq := None; p_interval := JInt 1; p_count := None; p_until := None; p_byDay := None;
  p_byMonthDay := None; p_byMonth := None; p_bySetPos := None; p_wkst := Some "MO"%js |}.

Definition int_list (v : jsstr) : list jsint := map (λ w, parse_jsint (Some w)) (split "," v).

(** The switch on the key; [None] is a thrown TypeError (a method of [undefined]). *)
Definition assign (r : PRule) (key : jsstr) (value : option jsstr) : option PRule :=
  let '(Build_PRule fr itv ct un bd bmd bm bsp wk) := r in
  if bool_decide (key = "FREQ"%js) then
    v ← value; Some (Build_PRule (Some (toLowerCase v)) itv ct un bd bmd bm bsp wk)
  else if bool_decide (key = "INTERVAL"%js) then
    Some (Build_PRule fr (parse_jsint value) ct un bd bmd bm bsp wk)
  else if bool_decide (key = "COUNT"%js) then
    Some (Build_PRule fr itv (Some (parse_jsint value)) un bd bmd bm bsp wk)
  else if bool_decide (key = "UNTIL"%js) then
    v ← value; Some (Build_PRule fr itv ct (Some (parseICalDate v)) bd bmd bm bsp wk)
  else if bool_decide (key = "BYDAY"%js) then
    v ← value; Some (Build_PRule fr itv ct un (Some (split "," v)) bmd bm bsp wk)
  else if bool_decide (key = "BYMONTHDAY"%js) then
    v ← value; Some (Build_PRule fr itv ct un bd (Some (int_list v)) bm bsp wk)
  else if bool_decide (key = "BYMONTH"%js) then
    v ← value; Some (Build_PRule fr itv ct un bd bmd (Some (int_list v)) bsp wk)
  else if bool_decide (key = "BYSETPOS"%js) then
    v ← value; Some (Build_PRule fr itv ct un bd bmd bm (Some (int_list v)) wk)
  else if bool_decide (key = "WKST"%js) then
    Some (Build_PRule fr itv ct un bd bmd bm bsp value)
  else Some r.

(** One turn of the loop: [const [key, value] = part.split('=')]. *)
Definition apply_part (r : PRule) (part : jsstr) : option PRule :=
  let words := split "=" part in
  assign r (default [] (head words)) (head (tail words)).

Definition apply_parts (r : option PRule) (parts : list jsstr) : option PRule :=
  foldl (λ r part, r ≫= λ r, apply_part r part) r parts.

Definition parseRRule (rrule : jsstr) : option RecurrenceRule :=
  r ← apply_parts (Some initial_rule) (split ";" (replace_first "RRULE:"%js [] rrule));
  f ← p_freq r;
  if truthy f then Some {|
    freq := f; interval := p_interval r; count := p_count r; until := p_until r;
    byDay := p_byDay r; byMonthDay := p_byMonthDay r; byMonth := p_byMonth r;
    bySetPos := p_bySetPos r; wkst := p_wkst r |}
  else None.

(** ** [toRRuleString] *)

(** [if (l?.length) parts.push(key + l.join(','))] *)
Definition list_part (key : jsstr) (l : option (list jsstr)) : list jsstr :=
  match l with Some (w :: ws) => [key ++ join ","%js (w :: ws)] | _ => [] end.

Definition int_list_part (key : jsstr) (l : option (list jsint)) : list jsstr :=
  list_part key (map jsint_str <$> l).

Definition rrule_parts (rule : RecurrenceRule) : list jsstr :=
  ["FREQ="%js ++ toUpperCase (freq rule)] ++
  (if jsint_truthy (interval rule) && negb (bool_decide (interval rule = JInt 1))
   then ["INTERVAL="%js ++ jsint_str (interval rule)] else []) ++
  match count rule with
  | Some c => if jsint_truthy c then ["COUNT="%js ++ jsint_str c] else []
  | None => []
  end ++
  match until rule with Some d => ["UNTIL="%js ++ formatICalDate d] | None => [] end ++
  list_part "BYDAY="%js (byDay rule) ++
  int_list_part "BYMONTHDAY="%js (byMonthDay rule) ++
  int_list_part "BYMONTH="%js (byMonth rule) ++
  int_list_part "BYSETPOS="%js (bySetPos rule) ++
  match wkst rule with
  | Some w => if truthy w && negb (bool_decide (w = "MO"%js)) then ["WKST="%js ++ w] else []
  | None => []
  end.

Definition toRRuleString (rule : RecurrenceRule) : jsstr := join ";"%js (rrule_parts rule).

(** ** [generateOccurrences] *)

Definition advanceByFrequency (date : Z) (rule : RecurrenceRule) : Z :=
  let interval := interval_or_1 rule in
  if bool_decide (freq rule = "daily"%js) then dj_add date interval "day"%js
  else if bool_decide (freq rule = "weekly"%js) then dj_add date interval "week"%js
  else if bool_decide (freq rule = "monthly"%js) then dj_add date interval "month"%js
  else if bool_decide (freq rule = "yearly"%js) then dj_add date interval "year"%js
  else dj_add date 1 "day"%js.

(** [if (l?.length) ...]: the test [p] when there is a list. *)
Definition if_listed {A} (l : option (list A)) (p : list A → bool) : bool :=
  match l with Some (x :: xs) => p (x :: xs) | _ => true end.

(** The three filters of a date in the range. *)
Definition passes_filters (rule : RecurrenceRule) (current : Z) : bool :=
  if_listed (byDay rule) (λ l,
    existsb (λ d, includes d (default "undefined"%js (jm_get (dj_day current) REVERSE_DAY_MAP))) l) &&
  if_listed (byMonthDay rule) (λ l, bool_decide (JInt (dj_date current) ∈ l)) &&
  if_listed (byMonth rule) (λ l, bool_decide (JInt (dj_month current + 1) ∈ l)).

(** [rule.count && count >= rule.count] *)
Definition count_reached (rule : RecurrenceRule) (n : Z) : bool :=
  match count rule with Some (JInt c) => negb (c =? 0) && (c <=? n) | _ => false end.

(** [rule.until && date > rule.until] *)
Definition beyond_until (rule : RecurrenceRule) (date : Z) : bool :=
  match until rule with Some (Some u) => u <? date | _ => false end.

Fixpoint occurrences_loop (fuel : nat) (rule : RecurrenceRule)
    (rangeStart rangeEnd maxOccurrences current n : Z) (occurrences : list Z) : option (list Z) :=
  match fuel with
  | O => None
  | S fuel =>
      let continue := occurrences_loop fuel rule rangeStart rangeEnd maxOccurrences
        (advanceByFrequency current rule) in
      if negb (n <? maxOccurrences) then Some occurrences
      else if rangeEnd <? current then Some occurrences
      else if count_reached rule n then Some occurrences
      else if beyond_until rule current then Some occurrences
      else if rangeStart <=? current then
        if passes_filters rule current then continue (n + 1) (occurrences ++ [current])
        else continue n occurrences
      else continue (n + 1) occurrences
  end.

Definition generateOccurrences (fuel : nat) (event : Event)
    (rangeStart rangeEnd maxOccurrences : Z) : option (list Z) :=
  match ev_recurrenceRule event with
  | None => Some [ev_start event]
  | Some rule => occurrences_loop fuel rule rangeStart rangeEnd maxOccurrences (ev_start event) 0 []
  end.

(** ** [describeRecurrence] *)

Definition dayNames : list (jsstr * jsstr) :=
  [("SU", "Sun"); ("MO", "Mon"); ("TU", "Tue"); ("WE", "Wed"); ("TH", "Thu"); ("FR", "Fri");
   ("SA", "Sat")]%js.

Definition day_name (d : jsstr) : jsstr :=
  opt_or (jm_get (re_replace_all (RChr (λ a, is_ch "-" a || is_digit a)) (λ _, []) d) dayNames) d.

Definition until_text (rule : RecurrenceRule) : jsstr :=
  match until rule with
  | Some (Some t) => ", until "%js ++ dj_format t "MMM D, YYYY"%js
  | Some None => ", until Invalid Date"%js
  | None => []
  end.

Definition describeRecurrence (rule : RecurrenceRule) : jsstr :=
  let interval := interval_or_1 rule in
  let f := freq rule in
  (if interval =? 1 then
     if bool_decide (f = "daily"%js) then "Daily"%js
     else if bool_decide (f = "weekly"%js) then "Weekly"%js
     else if bool_decide (f = "monthly"%js) then "Monthly"%js else "Yearly"%js
   else "Every "%js ++ int_to_str interval ++ " "%js ++
     (if bool_decide (f = "daily"%js) then "days"%js
      else if bool_decide (f = "weekly"%js) then "weeks"%js
      else if bool_decide (f = "monthly"%js) then "months"%js else "years"%js)) ++
  match byDay rule with
  | Some (d :: ds) => " on "%js ++ join ", "%js (map day_name (d :: ds))
  | _ => []
  end ++
  match count rule with
  | Some c => if jsint_truthy c then ", "%js ++ jsint_str c ++ " times"%js else until_text rule
  | None => until_text rule
  end.
End WithDayjs.

(** ** Occurrences: theorems *)

Section Occurrences.
Context {D : Dayjs} {L : DayjsLaws D} (rule : RecurrenceRule) (start rangeStart rangeEnd max : Z).
Hypothesis interval_pos : 1 ≤ interval_or_1 rule.

(** The dates the rule steps through. *)
Definition series (k : nat) : Z := Nat.iter k (λ d, advanceByFrequency d rule) start.

(** A date the rule is meant to produce in the range. *)
Definition expected (d : Z) : Prop :=
  rangeStart ≤ d ≤ rangeEnd ∧ beyond_until rule d = false ∧ passes_filters rule d = true.

Lemma advance_later d : d + dj_step ≤ advanceByFrequency d rule.
Proof.
  unfold advanceByFrequency. repeat case_bool_decide; apply dj_add_later; try lia;
    unfold units; set_solver.
Qed.

Lemma series_S k : series k + dj_step ≤ series (S k).
Proof. apply advance_later. Qed.

Lemma series_mono j k : (j < k)%nat → series j < series k.
Proof.
  pose proof dj_step_pos. induction 1 as [|k _ IH]; [pose proof (series_S j); lia|].
  pose proof (series_S k). lia.
Qed.

Lemma beyond_until_mono d d' : d ≤ d' → beyond_until rule d = true → beyond_until rule d' = true.
Proof.
  unfold beyond_until. destruct (until rule) as [[u|]|]; [|done..].
  rewrite !Z.ltb_lt. lia.
Qed.

(** What the loop adds from step [k] on, with the counter at [n]. *)
Definition loop_adds (k : nat) (n : Z) (l : list Z) : Prop :=
  StronglySorted Z.lt l ∧
  (∀ d, d ∈ l → expected d ∧ ∃ j, (k ≤ j)%nat ∧ d = series j) ∧
  (n ≤ max → n + Z.of_nat (length l) ≤ max) ∧
  (∀ c, count rule = Some (JInt c) → c ≠ 0 → n ≤ c → n + Z.of_nat (length l) ≤ c) ∧
  (∀ j, (k ≤ j)%nat → Z.of_nat j < max →
    (∀ c, count rule = Some (JInt c) → c ≠ 0 → Z.of_nat j < c) →
    expected (series j) → series j ∈ l).

(** No later step can add anything. *)
Lemma adds_nothing k n : n ≤ Z.of_nat k →
  (max ≤ n ∨ rangeEnd < series k ∨ count_reached rule n = true ∨ beyond_until rule (series k) = true) →
  loop_adds k n [].
Proof.
  intros Hn Hstop. split; [constructor|]. split; [set_solver|]. simpl.
  split; [lia|]. split; [intros; lia|]. intros j Hj Hm Hc (Hr & Hu & _). exfalso.
  assert (series k ≤ series j) as Hkj.
  { destruct (decide (k = j)) as [->|]; [lia|]. pose proof (series_mono k j). lia. }
  destruct Hstop as [?|[?|[H|H]]]; [lia|lia| |].
  - unfold count_reached in H. destruct (count rule) as [[c|]|]; [|done..].
    rewrite andb_true_iff, negb_true_iff, Z.eqb_neq, Z.leb_le in H.
    specialize (Hc c eq_refl). lia.
  - apply (beyond_until_mono _ (series j)) in H; [congruence|done].
Qed.

Lemma adds_later k n n' l :
  n ≤ n' → n' ≤ n + 1 → (n < max) → count_reached rule n = false →
  loop_adds (S k) n' l → ¬ expected (series k) → loop_adds k n l.
Proof.
  intros H1 H2 Hm Hr (Ha & Hb & Hc & Hd & He) Hx. split; [done|].
  split; [intros d Hin; destruct (Hb d Hin) as (? & j & ? & ?); split; [done|]; exists j; split; [lia|done]|].
  split; [lia|]. split.
  - intros c Hcr Hc0 Hn. specialize (Hd c Hcr Hc0). unfold count_reached in Hr. rewrite Hcr in Hr.
    rewrite (proj2 (Z.eqb_neq c 0)) in Hr by done. simpl in Hr. apply Z.leb_gt in Hr. lia.
  - intros j Hj Hjm Hjc Hex. apply He; try done.
    destruct (decide (k = j)) as [->|]; [done|lia].
Qed.

Lemma adds_here k n l :
  n < max → count_reached rule n = false → expected (series k) →
  loop_adds (S k) (n + 1) l → loop_adds k n (series k :: l).
Proof.
  intros Hm Hr Hx (Ha & Hb & Hc & Hd & He). split; [|split; [|split; [|split]]].
  - constructor; [done|]. apply Forall_forall. intros d Hin.
    destruct (Hb d Hin) as (_ & j & Hj & ->). apply series_mono. lia.
  - intros d [->|Hin]%elem_of_cons; [split; [done|]; by exists k|].
    destruct (Hb d Hin) as (? & j & ? & ->). split; [done|]. exists j. split; [lia|done].
  - simpl. lia.
  - intros c Hcr Hc0 Hn. specialize (Hd c Hcr Hc0). unfold count_reached in Hr. rewrite Hcr in Hr.
    rewrite (proj2 (Z.eqb_neq c 0)) in Hr by done. simpl in Hr. apply Z.leb_gt in Hr. simpl. lia.
  - intros j Hj Hjm Hjc Hex. destruct (decide (k = j)) as [->|]; [set_solver|].
    apply elem_of_cons. right. apply He; try done. lia.
Qed.

Lemma occurrences_loop_spec fuel k n acc :
  n ≤ Z.of_nat k → rangeEnd < series k + dj_step * (Z.of_nat fuel - 1) → (1 ≤ fuel)%nat →
  ∃ l, occurrences_loop fuel rule rangeStart rangeEnd max (series k) n acc = Some (acc ++ l) ∧
       loop_adds k n l.
Proof.
  pose proof dj_step_pos as Hpos. revert k n acc.
  induction fuel as [|fuel IH]; intros k n acc Hn Hf Hf1; [lia|]. simpl.
  assert (∀ H : max ≤ n ∨ rangeEnd < series k ∨ count_reached rule n = true ∨
      beyond_until rule (series k) = true,
    ∃ l, Some acc = Some (acc ++ l) ∧ loop_adds k n l) as Hstop.
  { intros H. exists []. rewrite app_nil_r. split; [done|]. by apply adds_nothing. }
  destruct (n <? max) eqn:E1; simpl; [|apply Hstop; zsolve].
  destruct (rangeEnd <? series k) eqn:E2; [apply Hstop; zsolve|].
  destruct (count_reached rule n) eqn:E3; [apply Hstop; auto|].
  destruct (beyond_until rule (series k)) eqn:E4; [apply Hstop; auto|]. zsolve.
  change (advanceByFrequency (series k) rule) with (series (S k)).
  pose proof (series_S k) as HS.
  assert (1 ≤ fuel)%nat as Hf' by (destruct fuel; simpl in Hf; lia).
  assert (rangeEnd < series (S k) + dj_step * (Z.of_nat fuel - 1)) as Hf2 by nia.
  destruct (rangeStart <=? series k) eqn:E5; zsolve;
    [destruct (passes_filters rule (series k)) eqn:E6|].
  - destruct (IH (S k) (n + 1) (acc ++ [series k])) as (l & -> & Hl); [lia|done..|].
    exists (series k :: l). split; [by rewrite <- app_assoc|]. apply adds_here; try done.
  - destruct (IH (S k) n acc) as (l & -> & Hl); [lia|done..|].
    exists l. split; [done|]. apply (adds_later k n n); try done; try lia.
    intros (_ & _ & ?). congruence.
  - destruct (IH (S k) (n + 1) acc) as (l & -> & Hl); [lia|done..|].
    exists l. split; [done|]. apply (adds_later k n (n + 1)); try done; try lia.
    intros ([? _] & _). lia.
Qed.

(** Before the range only the counter moves. *)
Lemma loop_before_range fuel k n l :
  (∀ j, (k ≤ j)%nat → Z.of_nat j < max → series j < rangeStart) → n = Z.of_nat k →
  occurrences_loop fuel rule rangeStart rangeEnd max (series k) n [] = Some l → l = [].
Proof.
  intros Hb. revert k n Hb. induction fuel as [|fuel IH]; intros k n Hb Hn; simpl; [done|].
  destruct (n <? max) eqn:E1; simpl; [|by intros [= <-]].
  destruct (rangeEnd <? series k); [by intros [= <-]|].
  destruct (count_reached rule n); [by intros [= <-]|].
  destruct (beyond_until rule (series k)); [by intros [= <-]|]. zsolve.
  specialize (Hb k) as Hk. rewrite (proj2 (Z.leb_gt _ _)) by lia.
  apply (IH (S k) (n + 1)); [|lia]. intros j Hj. apply Hb. lia.
Qed.
End Occurrences.

(** C35: [generateOccurrences] terminates on every rule with a positive interval (each turn moves
    the date forward, filtered ones included), and returns increasing dates of the rule's series
    that are in the range, not after [until] and pass the filters; at most [maxOccurrences] and at
    most [COUNT] of them; and every such date among the first [maxOccurrences] (and the first
    [COUNT]) of the series is returned. *)
Theorem generateOccurrences_spec {D : Dayjs} {L : DayjsLaws D} event rule rangeStart rangeEnd max :
  ev_recurrenceRule event = Some rule → 1 ≤ interval_or_1 rule → 0 ≤ max →
  let start := ev_start event in
  let fuel := (2 + Z.to_nat ((rangeEnd - start) / dj_step))%nat in
  ∃ l, generateOccurrences fuel event rangeStart rangeEnd max = Some l ∧
    StronglySorted Z.lt l ∧
    (∀ d, d ∈ l → expected rule rangeStart rangeEnd d ∧ ∃ j, d = series rule start j) ∧
    Z.of_nat (length l) ≤ max ∧
    (∀ c, count rule = Some (JInt c) → 0 < c → Z.of_nat (length l) ≤ c) ∧
    (∀ j, Z.of_nat j < max → (∀ c, count rule = Some (JInt c) → c ≠ 0 → Z.of_nat j < c) →
      expected rule rangeStart rangeEnd (series rule start j) → series rule start j ∈ l).
Proof.
  intros Hr Hi Hmax start fuel. unfold generateOccurrences. rewrite Hr.
  pose proof dj_step_pos as Hpos.
  destruct (occurrences_loop_spec rule start rangeStart rangeEnd max Hi fuel 0 0 [])
    as (l & Hl & Ha & Hb & Hc & Hd & He).
  - done.
  - change (series rule start 0) with start. unfold fuel.
    assert (dj_step ≠ 0) as Hne by lia.
    pose proof (Z.div_mod (rangeEnd - start) dj_step Hne) as Hdm.
    pose proof (Z.mod_pos_bound (rangeEnd - start) dj_step Hpos).
    set (q := (rangeEnd - start) / dj_step) in *.
    assert (dj_step * (q + 1) ≤ dj_step * (Z.of_nat (2 + Z.to_nat q) - 1)); [|lia].
    apply Z.mul_le_mono_nonneg_l; lia.
  - unfold fuel. lia.
  - exists l. split; [done|]. split; [done|]. split.
    + intros d Hin. destruct (Hb d Hin) as (? & j & _ & ?). eauto.
    + split; [lia|]. split; [intros c Hcr Hc0; specialize (Hd c Hcr ltac:(lia) ltac:(lia)); lia|].
      intros j. apply He. lia.
Qed.

(** The limit counts the dates before the range too: when the first [maxOccurrences] dates of
    the series (100 by default) precede the range, nothing is returned, whatever the range
    contains. *)
Theorem generateOccurrences_limit_before_range {D : Dayjs} event rule rangeStart rangeEnd max fuel l :
  ev_recurrenceRule event = Some rule →
  (∀ j, Z.of_nat j < max → series rule (ev_start event) j < rangeStart) →
  generateOccurrences fuel event rangeStart rangeEnd max = Some l → l = [].
Proof.
  intros Hr Hb. unfold generateOccurrences. rewrite Hr.
  apply (loop_before_range rule (ev_start event) rangeStart rangeEnd max fuel 0 0); [|done].
  intros j _. apply Hb.
Qed.

(** ** Reading back a printed rule *)

Lemma replace_first_last a w s : a ∉ s → replace_first [a] w (s ++ [a]) = s ++ w.
Proof.
  intros Hs. unfold replace_first. assert (indexOf (s ++ [a]) [a] = Some (length s)) as ->.
  { induction s as [|b s IH]; simpl; [by rewrite bool_decide_true|].
    rewrite not_elem_of_cons in Hs. destruct Hs as [Hb Hs].
    rewrite bool_decide_false by done. simpl. by rewrite IH. }
  rewrite take_app_length. rewrite drop_ge by (rewrite length_app; done). by rewrite app_nil_r.
Qed.

Section RoundTrip.
Context {D : Dayjs}.

(** Text that cannot be taken for a separator. *)
Definition separators : list ascii := [";"; "="; ","; ":"]%char.

Definition plain (w : jsstr) : Prop := Forall (λ a, a ∉ separators) w.

#[export] Instance plain_dec w : Decision (plain w).
Proof. unfold plain. apply _. Defined.

Definition is_int (n : jsint) : Prop := match n with JInt _ => True | JNaN => False end.

(** The rules the printer is made for; a limit date must be one the date library reads back. *)
Record printable (rule : RecurrenceRule) : Prop := {
  pr_freq : freq rule ∈ ["daily"; "weekly"; "monthly"; "yearly"]%js;
  pr_interval : ∃ z, interval rule = JInt z ∧ z ≠ 0;
  pr_count : count rule = None ∨ ∃ z, count rule = Some (JInt z) ∧ z ≠ 0;
  pr_until : until rule = None ∨ ∃ t, until rule = Some (Some t) ∧
    (let w := dj_utc_format t "YYYYMMDDTHHmmss"%js in
     plain w ∧ ("Z"%char ∉ w) ∧ length w ≠ 7%nat ∧ dj_parse w "YYYYMMDDTHHmmss"%js = Some t);
  pr_byDay : byDay rule = None ∨ ∃ l, byDay rule = Some l ∧ l ≠ [] ∧ Forall plain l;
  pr_byMonthDay : byMonthDay rule = None ∨ ∃ l, byMonthDay rule = Some l ∧ l ≠ [] ∧ Forall is_int l;
  pr_byMonth : byMonth rule = None ∨ ∃ l, byMonth rule = Some l ∧ l ≠ [] ∧ Forall is_int l;
  pr_bySetPos : bySetPos rule = None ∨ ∃ l, bySetPos rule = Some l ∧ l ≠ [] ∧ Forall is_int l;
  pr_wkst : ∃ w, wkst rule = Some w ∧ w ≠ [] ∧ plain w;
}.

Lemma plain_no c w : c ∈ separators → plain w → c ∉ w.
Proof. unfold plain. rewrite Forall_forall. intros Hc Hw Hin. by apply (Hw c). Qed.

Lemma plain_int z : plain (int_to_str z).
Proof.
  eapply Forall_impl; [apply int_to_str_chars|]. intros a [Ha| ->].
  - intros Hin. revert Ha. unfold separators in Hin.
    repeat (apply elem_of_cons in Hin as [->|Hin]; [done|]). set_solver.
  - apply (bool_decide_unpack _). vm_compute. exact I.
Qed.

Lemma plain_jsint n : is_int n → plain (jsint_str n).
Proof. destruct n; [intros; apply plain_int|done]. Qed.

Lemma parse_jsint_str n : is_int n → parse_jsint (Some (jsint_str n)) = n.
Proof. destruct n as [z|]; [|done]. intros _. simpl. by rewrite parseInt_int_to_str. Qed.

Lemma apply_part_assign r key v :
  "="%char ∉ key → "="%char ∉ v → apply_part r (key ++ "="%char :: v) = assign r key (Some v).
Proof. intros Hk Hv. unfold apply_part. by rewrite split_app_sep, split_no_sep. Qed.

Lemma split_plain_list l : l ≠ [] → Forall plain l → split "," (join ","%js l) = l.
Proof.
  intros Hl Hp. apply split_join; [done|]. eapply Forall_impl; [exact Hp|].
  intros w. apply plain_no. unfold separators. set_solver.
Qed.

Lemma int_list_printed l :
  l ≠ [] → Forall is_int l → int_list (join ","%js (map jsint_str l)) = l.
Proof.
  intros Hl Hi. unfold int_list. rewrite split_plain_list.
  - induction Hi as [|n l Hn Hi IH]; [done|]. cbn [map]. f_equal; [by apply parse_jsint_str|].
    destruct l; [done|]. by apply IH.
  - by destruct l.
  - clear Hl. induction Hi; constructor; [by apply plain_jsint|done].
Qed.

(** What may appear in a value: anything but [=], [;] and [:]. *)
Definition value_char (a : ascii) : Prop := a ∉ ["="; ";"; ":"]%char.

Lemma plain_value w : plain w → Forall value_char w.
Proof.
  intros H. eapply Forall_impl; [exact H|]. unfold separators, value_char. intros a. set_solver.
Qed.

Lemma join_value l : Forall plain l → Forall value_char (join ","%js l).
Proof.
  intros H. apply join_Forall.
  - repeat constructor. unfold value_char. apply (bool_decide_unpack _). vm_compute. exact I.
  - intros w Hw. rewrite Forall_forall in H. by apply plain_value, H.
Qed.

Definition part_char (a : ascii) : Prop := a ∉ [";"; ":"]%char.

(** A part [key=value] sets what the switch says, and has no separator of parts. *)
Definition sets (r : PRule) (parts : list jsstr) (r' : PRule) : Prop :=
  apply_parts (Some r) parts = Some r' ∧ Forall (Forall part_char) parts.

Lemma sets_nil r : sets r [] r.
Proof. split; [done|constructor]. Qed.

Lemma sets_app r p1 r1 p2 r2 : sets r p1 r1 → sets r1 p2 r2 → sets r (p1 ++ p2) r2.
Proof.
  unfold sets, apply_parts. intros [H1 F1] [H2 F2]. rewrite foldl_app, H1. split; [done|].
  by apply Forall_app.
Qed.

Lemma sets_one r key v r' :
  forallb (λ a, negb (bool_decide (a ∈ ["="; ";"; ":"]%char))) key = true →
  Forall value_char v → assign r key (Some v) = Some r' → sets r [key ++ "="%char :: v] r'.
Proof.
  intros Hk Hv Ha. rewrite forallb_forall in Hk.
  assert (∀ a, a ∈ key → a ∉ ["="; ";"; ":"]%char) as Hk'.
  { intros a Hin%list_elem_of_In. specialize (Hk a Hin). apply negb_true_iff in Hk.
    by apply bool_decide_eq_false in Hk. }
  rewrite Forall_forall in Hv. unfold value_char in Hv. split.
  - unfold apply_parts. simpl. rewrite apply_part_assign; [by rewrite Ha|..].
    + intros Hin. apply (Hk' _ Hin). set_solver.
    + intros Hin. apply (Hv _ Hin). set_solver.
  - constructor; [|constructor]. apply Forall_forall. intros a Hin. unfold part_char.
    rewrite elem_of_app, elem_of_cons in Hin. destruct Hin as [Hin|[->|Hin]].
    + specialize (Hk' a Hin). set_solver.
    + apply (bool_decide_unpack _). vm_compute. exact I.
    + specialize (Hv a Hin). set_solver.
Qed.

End RoundTrip.

Ltac set_part key :=
  apply (sets_one _ key); [vm_compute; reflexivity| |unfold assign; decide_closed; cbn [mbind option_bind]].

Section Parts.
Context {D : Dayjs}.

Lemma list_part_join key l : l ≠ [] → list_part key (Some l) = [key ++ join ","%js l].
Proof. by destruct l. Qed.

Lemma sets_int_list key l r r' :
  forallb (λ a, negb (bool_decide (a ∈ ["="; ";"; ":"]%char))) key = true →
  l ≠ [] → Forall is_int l →
  assign r key (Some (join ","%js (map jsint_str l))) = Some r' →
  sets r (int_list_part (key ++ "="%js) (Some l)) r'.
Proof.
  intros Hk Hl Hi Ha. unfold int_list_part. simpl fmap. rewrite list_part_join by by destruct l.
  rewrite <- app_assoc. apply sets_one; [done| |done]. apply join_value. clear Hl Ha.
  induction Hi; constructor; [by apply plain_jsint|done].
Qed.

Variable fr : option jsstr.

Lemma sets_interval n ct un bd bmd bm bsp wk :
  (∃ z, n = JInt z ∧ z ≠ 0) →
  sets (Build_PRule fr (JInt 1) ct un bd bmd bm bsp wk)
    (if jsint_truthy n && negb (bool_decide (n = JInt 1)) then ["INTERVAL="%js ++ jsint_str n] else [])
    (Build_PRule fr n ct un bd bmd bm bsp wk).
Proof.
  intros (z & -> & Hz). simpl jsint_truthy. rewrite (proj2 (Z.eqb_neq z 0)) by done. simpl.
  case_bool_decide as E; simpl; [rewrite E; apply sets_nil|].
  change ("INTERVAL="%js ++ ?v) with ("INTERVAL"%js ++ "="%char :: v). set_part "INTERVAL"%js.
  - apply plain_value, plain_int.
  - simpl. by rewrite parseInt_int_to_str.
Qed.

Lemma sets_count c itv un bd bmd bm bsp wk :
  c = None ∨ (∃ z, c = Some (JInt z) ∧ z ≠ 0) →
  sets (Build_PRule fr itv None un bd bmd bm bsp wk)
    (match c with Some c => if jsint_truthy c then ["COUNT="%js ++ jsint_str c] else [] | None => [] end)
    (Build_PRule fr itv c un bd bmd bm bsp wk).
Proof.
  intros [->|(z & -> & Hz)]; [apply sets_nil|]. simpl jsint_truthy.
  rewrite (proj2 (Z.eqb_neq z 0)) by done. simpl.
  change ("COUNT="%js ++ ?v) with ("COUNT"%js ++ "="%char :: v). set_part "COUNT"%js.
  - apply plain_value, plain_int.
  - simpl. by rewrite parseInt_int_to_str.
Qed.

Lemma sets_until u itv ct bd bmd bm bsp wk :
  u = None ∨ (∃ t, u = Some (Some t) ∧
    (let w := dj_utc_format t "YYYYMMDDTHHmmss"%js in
     plain w ∧ ("Z"%char ∉ w) ∧ length w ≠ 7%nat ∧ dj_parse w "YYYYMMDDTHHmmss"%js = Some t)) →
  sets (Build_PRule fr itv ct None bd bmd bm bsp wk)
    (match u with Some d => ["UNTIL="%js ++ formatICalDate d] | None => [] end)
    (Build_PRule fr itv ct u bd bmd bm bsp wk).
Proof.
  intros [->|(t & -> & Hp & Hz & Hl & Ht)]; [apply sets_nil|]. simpl formatICalDate.
  change ("UNTIL="%js ++ ?v) with ("UNTIL"%js ++ "="%char :: v). set_part "UNTIL"%js.
  - apply Forall_app. split; [by apply plain_value|]. repeat constructor.
    unfold value_char. apply (bool_decide_unpack _). vm_compute. exact I.
  - repeat f_equal. unfold parseICalDate, formatICalDate. rewrite length_app. simpl length.
    rewrite (proj2 (Nat.eqb_neq _ _)) by lia. by rewrite replace_first_last, app_nil_r.
Qed.

Lemma sets_byDay l itv ct un bmd bm bsp wk :
  l = None ∨ (∃ k, l = Some k ∧ k ≠ [] ∧ Forall plain k) →
  sets (Build_PRule fr itv ct un None bmd bm bsp wk) (list_part "BYDAY="%js l)
    (Build_PRule fr itv ct un l bmd bm bsp wk).
Proof.
  intros [->|(k & -> & Hk & Hp)]; [apply sets_nil|]. rewrite list_part_join by done.
  change ("BYDAY="%js ++ ?v) with ("BYDAY"%js ++ "="%char :: v). set_part "BYDAY"%js.
  - by apply join_value.
  - by rewrite split_plain_list.
Qed.

(** An optional list of numbers under a key the switch stores with [store]. *)
Lemma sets_ints key (store : option (list jsint) → PRule) l :
  l = None ∨ (∃ k, l = Some k ∧ k ≠ [] ∧ Forall is_int k) →
  forallb (λ a, negb (bool_decide (a ∈ ["="; ";"; ":"]%char))) key = true →
  (∀ v, assign (store None) key (Some v) = Some (store (Some (int_list v)))) →
  sets (store None) (int_list_part (key ++ "="%js) l) (store l).
Proof.
  intros [->|(k & -> & Hk & Hi)] Hkey Ha; [apply sets_nil|].
  apply sets_int_list; [done..|]. by rewrite Ha, int_list_printed.
Qed.

Lemma sets_wkst w itv ct un bd bmd bm bsp :
  (∃ k, w = Some k ∧ k ≠ [] ∧ plain k) →
  sets (Build_PRule fr itv ct un bd bmd bm bsp (Some "MO"%js))
    (match w with
     | Some w => if truthy w && negb (bool_decide (w = "MO"%js)) then ["WKST="%js ++ w] else []
     | None => []
     end)
    (Build_PRule fr itv ct un bd bmd bm bsp w).
Proof.
  intros (k & -> & Hk & Hp). rewrite (proj2 (truthy_spec k)) by done. simpl andb.
  case_bool_decide as E; simpl; [rewrite E; apply sets_nil|].
  change ("WKST="%js ++ ?v) with ("WKST"%js ++ "="%char :: v). set_part "WKST"%js.
  - by apply plain_value.
  - done.
Qed.

Lemma sets_parts rule :
  printable rule → fr = Some (freq rule) →
  sets (Build_PRule fr (JInt 1) None None None None None None (Some "MO"%js))
    (tail (rrule_parts rule))
    (Build_PRule fr (interval rule) (count rule) (until rule) (byDay rule) (byMonthDay rule)
       (byMonth rule) (bySetPos rule) (wkst rule)).
Proof.
  intros [Hf Hi Hc Hu Hd Hmd Hm Hs Hw] _. unfold rrule_parts. simpl tail.
  eapply sets_app; [by apply sets_interval|]. eapply sets_app; [by apply sets_count|].
  eapply sets_app; [by apply sets_until|]. eapply sets_app; [by apply sets_byDay|].
  eapply sets_app.
  { apply (sets_ints "BYMONTHDAY"%js (λ x, Build_PRule fr _ _ _ _ x None None (Some "MO"%js)));
      [done|by vm_compute|done]. }
  eapply sets_app.
  { apply (sets_ints "BYMONTH"%js (λ x, Build_PRule fr _ _ _ _ _ x None (Some "MO"%js)));
      [done|by vm_compute|done]. }
  eapply sets_app.
  { apply (sets_ints "BYSETPOS"%js (λ x, Build_PRule fr _ _ _ _ _ _ x (Some "MO"%js)));
      [done|by vm_compute|done]. }
  by apply sets_wkst.
Qed.
End Parts.

Lemma sets_freq {D : Dayjs} f :
  f ∈ ["daily"; "weekly"; "monthly"; "yearly"]%js →
  sets initial_rule ["FREQ="%js ++ toUpperCase f]
    (Build_PRule (Some f) (JInt 1) None None None None None None (Some "MO"%js)) ∧ truthy f = true.
Proof.
  intros Hf. split; [|by repeat (apply elem_of_cons in Hf as [->|Hf]; [done|]); set_solver].
  change ("FREQ="%js ++ ?v) with ("FREQ"%js ++ "="%char :: v). set_part "FREQ"%js.
  - assert (plain (toUpperCase f)); [|by apply plain_value].
    repeat (apply elem_of_cons in Hf as [->|Hf]; [apply (bool_decide_unpack _); vm_compute; exact I|]).
    set_solver.
  - repeat (apply elem_of_cons in Hf as [->|Hf]; [vm_compute; reflexivity|]). set_solver.
Qed.

(** [parseRRule] reads back what [toRRuleString] prints, with or without the [RRULE:] prefix:
    every field survives, the ones left out because they have the default value included. *)
Theorem parseRRule_toRRuleString {D : Dayjs} rule :
  printable rule →
  parseRRule (toRRuleString rule) = Some rule ∧
  parseRRule ("RRULE:"%js ++ toRRuleString rule) = Some rule.
Proof.
  intros Hp. pose proof (pr_freq _ Hp) as Hf. destruct (sets_freq _ Hf) as [HF Ht].
  pose proof (sets_app _ _ _ _ _ HF (sets_parts (Some (freq rule)) rule Hp eq_refl)) as [Ha Hc].
  change (["FREQ="%js ++ toUpperCase (freq rule)] ++ tail (rrule_parts rule)) with
    (rrule_parts rule) in Ha, Hc.
  assert (split ";" (toRRuleString rule) = rrule_parts rule) as Hsplit.
  { unfold toRRuleString. apply split_join; [done|]. eapply Forall_impl; [exact Hc|].
    intros w Hw Hin. rewrite Forall_forall in Hw. apply (Hw ";"%char Hin). set_solver. }
  assert (":"%char ∉ toRRuleString rule) as Hno.
  { intros Hin. assert (Forall part_char (toRRuleString rule) → False) as Hx.
    { intros H. rewrite Forall_forall in H. apply (H ":"%char Hin). set_solver. }
    assert (∀ l, Forall (Forall part_char) l → Forall (λ a, a ≠ ":"%char) (join ";"%js l)) as Hj.
    { intros l Hl. apply join_Forall; [by repeat constructor|]. intros w Hw.
      rewrite Forall_forall in Hl. eapply Forall_impl; [by apply Hl|].
      intros a Ha' ->. apply Ha'. set_solver. }
    specialize (Hj _ Hc). rewrite Forall_forall in Hj. by apply (Hj ":"%char Hin). }
  assert (replace_first "RRULE:"%js [] (toRRuleString rule) = toRRuleString rule) as Hid.
  { apply (replace_first_fresh ":"%char); [set_solver|done]. }
  unfold parseRRule. rewrite Hid, replace_first_prefix. simpl app. rewrite Hsplit, Ha. simpl.
  rewrite Ht. by destruct rule.
Qed.

(** ** Witnesses *)

Definition ex_rule (f : jsstr) (c : option jsint) (u : option date_value) (days : option (list jsstr))
    : RecurrenceRule := {|
  freq := f; interval := JInt 1; count := c; until := u; byDay := days; byMonthDay := None;
  byMonth := None; bySetPos := None; wkst := Some "MO"%js |}.

Definition ex_daily : RecurrenceRule := ex_rule "daily"%js None None None.

Definition ex_recurring (r : RecurrenceRule) : Event := {|
  ev_id := "1"%js; ev_calendarId := "c"%js; ev_ownerId := "o"%js; ev_uid := "u"%js;
  ev_summary := "Call"%js; ev_description := None; ev_location := None; ev_start := 0;
  ev_end := 3600000; ev_allDay := false; ev_timezone := "UTC"%js; ev_recurrenceRule := Some r;
  ev_recurrenceId := None; ev_attendees := []; ev_organizer := None; ev_status := "confirmed"%js;
  ev_visibility := "public"%js; ev_busy := true; ev_reminders := []; ev_color := None;
  ev_createdAt := 0; ev_updatedAt := 0 |}.

Lemma generateOccurrences_spec_witness :
  ∃ l, generateOccurrences (D := utc_dayjs) (2 + Z.to_nat ((3 * msPerDay - 0) / 1))
         (ex_recurring ex_daily) 0 (3 * msPerDay) 100 = Some l ∧ Z.of_nat (length l) ≤ 100.
Proof.
  destruct (generateOccurrences_spec (D := utc_dayjs) (L := fixed_dayjs_laws 0)
    (ex_recurring ex_daily) ex_daily 0 (3 * msPerDay) 100 eq_refl) as (l & Hl & _ & _ & Hlen & _).
  - vm_compute. discriminate.
  - discriminate.
  - exists l. split; [exact Hl|exact Hlen].
Defined.

Lemma generateOccurrences_limit_before_range_witness :
  ∃ l, generateOccurrences (D := utc_dayjs) 10 (ex_recurring ex_daily)
         (5 * msPerDay) (9 * msPerDay) 3 = Some l ∧ l = [].
Proof.
  eexists. split; [vm_compute; reflexivity|].
  apply (generateOccurrences_limit_before_range (D := utc_dayjs) (ex_recurring ex_daily) ex_daily
    (5 * msPerDay) (9 * msPerDay) 3 10); [reflexivity| |vm_compute; reflexivity].
  intros j Hj. destruct j as [|[|[|j]]]; [reflexivity..|lia].
Defined.

Definition ex_weekly : RecurrenceRule :=
  ex_rule "weekly"%js (Some (JInt 12)) (Some (Some 1735689600000)) (Some ["MO"; "WE"]%js).

Lemma parseRRule_toRRuleString_witness :
  toRRuleString (D := utc_dayjs) ex_weekly =
    "FREQ=WEEKLY;COUNT=12;UNTIL=20250101T000000Z;BYDAY=MO,WE"%js ∧
  parseRRule (D := utc_dayjs) (toRRuleString (D := utc_dayjs) ex_weekly) = Some ex_weekly.
Proof.
  split; [vm_compute; reflexivity|]. apply (parseRRule_toRRuleString (D := utc_dayjs) ex_weekly).
  split; unfold ex_weekly, ex_rule; cbn [freq interval count until byDay byMonthDay byMonth bySetPos wkst].
  - right; left.
  - exists 1. split; [reflexivity|discriminate].
  - right. exists 12. split; [reflexivity|discriminate].
  - right. exists 1735689600000. split; [reflexivity|]. vm_compute dj_utc_format.
    split; [apply (bool_decide_unpack _); vm_compute; exact I|].
    split; [apply (bool_decide_unpack _); vm_compute; exact I|].
    split; [discriminate|vm_compute; reflexivity].
  - right. exists ["MO"; "WE"]%js. split; [reflexivity|]. split; [discriminate|].
    apply (bool_decide_unpack _). vm_compute. exact I.
  - left. reflexivity.
  - left. reflexivity.
  - left. reflexivity.
  - exists "MO"%js. split; [reflexivity|]. split; [discriminate|].
    apply (bool_decide_unpack _). vm_compute. exact I.
Defined.

(** In a zone east of Greenwich a printed and reread rule ends hours earlier: the limit is printed
    in UTC and read as local time. *)
Lemma until_shifts_in_local_time :
  let D := fixed_dayjs (8 * 3600000) in
  until <$> parseRRule (D := D) (toRRuleString (D := D) ex_weekly) =
    Some (Some (Some (1735689600000 - 8 * 3600000))).
Proof. vm_compute. reflexivity. Qed.

(** [COUNT] counts the steps before the range even when a filter would drop them: three Thursdays
    from the start, but none of them when only the second week is shown. *)
Lemma count_depends_on_range :
  let r := ex_rule "daily"%js (Some (JInt 3)) None (Some ["TH"]%js) in
  let gen a b := generateOccurrences (D := utc_dayjs) 100 (ex_recurring r) (a * msPerDay) (b * msPerDay) 100 in
  gen 0 20 = Some [0; 7 * msPerDay; 14 * msPerDay] ∧ gen 4 20 = Some [].
Proof. vm_compute. split; reflexivity. Qed.
