(* ===== verification/Contact.v ===== *)
(** * Contacts ([packages/core/src/contacts/types.ts], [contact.ts])

    [String.prototype.localeCompare] (the collation of the runtime) and [new URL] are arguments. *)

From stdpp Require Import base list.
From S2P Require Import Prelude JsString JsRegex JsValue EmailPattern.

(** ** Types *)

(** A phone number or an email address; in a request the flag can be present although the type
    does not list it. *)
Record Entry := { en_type : jsstr; en_value : jsstr; en_isPrimary : option bool }.

Record PostalAddress := {
  pa_type : jsstr; street : option jsstr; city : option jsstr; state : option jsstr;
  postalCode : option jsstr; country : option jsstr; formatted : option jsstr;
  pa_isPrimary : option bool;
}.

Record Contact := {
  ct_id : jsstr; ct_ownerId : jsstr; ct_uid : jsstr; ct_prefix : option jsstr;
  ct_firstName : option jsstr; ct_middleName : option jsstr; ct_lastName : option jsstr;
  ct_suffix : option jsstr; ct_nickname : option jsstr; displayName : jsstr;
  ct_company : option jsstr; ct_jobTitle : option jsstr; ct_department : option jsstr;
  ct_emails : list Entry; ct_phones : list Entry; ct_addresses : list PostalAddress;
  ct_birthday : option Z; ct_anniversary : option Z; ct_website : option jsstr;
  ct_notes : option jsstr; ct_photoUrl : option jsstr; ct_labels : list jsstr;
  ct_isFavorite : bool; ct_createdAt : Z; ct_updatedAt : Z;
}.

(** A date of a request may be the invalid [Date]: [Some None]. *)
Record ContactRequest := {
  prefix : option jsstr; firstName : option jsstr; middleName : option jsstr;
  lastName : option jsstr; suffix : option jsstr; nickname : option jsstr;
  company : option jsstr; jobTitle : option jsstr; department : option jsstr;
  emails : option (list Entry); phones : option (list Entry);
  addresses : option (list PostalAddress); birthday : option (option Z);
  anniversary : option (option Z); website : option jsstr; notes : option jsstr;
  labels : option (list jsstr);
}.

(** ** Names *)

Definition generateContactUid (now : Z) (random36 domain : jsstr) : jsstr :=
  int_to_str now ++ "-"%js ++ substring random36 2 15 ++ "@"%js ++ domain.

(** [if (o) parts.push(o)] *)
Definition push_truthy (o : option jsstr) : list jsstr :=
  match o with Some s => if truthy s then [s] else [] | None => [] end.

(** [l.find((e) => e.isPrimary) || l[0]] *)
Definition primary (l : list Entry) : option Entry :=
  match List.find (λ e, default false (en_isPrimary e)) l with
  | Some e => Some e
  | None => head l
  end.

Definition generateDisplayName (c : ContactRequest) : jsstr :=
  let parts := push_truthy (prefix c) ++ push_truthy (firstName c) ++ push_truthy (middleName c) ++
               push_truthy (lastName c) ++ push_truthy (suffix c) in
  match parts with
  | _ :: _ => join " "%js parts
  | [] =>
      match push_truthy (nickname c), push_truthy (company c) with
      | [n], _ => n
      | _, [n] => n
      | _, _ => match primary (default [] (emails c)) with
                | Some e => en_value e
                | None => "Unknown Contact"%js
                end
      end
  end.

Definition getPrimaryEmail (c : Contact) : option Entry := primary (ct_emails c).
Definition getPrimaryPhone (c : Contact) : option Entry := primary (ct_phones c).

(** [s.trim().split(/\s+/)] *)
Definition words (s : jsstr) : list jsstr :=
  match runs is_space (trim s) [] with [] => [[]] | ws => ws end.

Definition getContactInitials (c : Contact) : jsstr :=
  let name := displayName c in
  let ws := words name in
  if 2 <=? length ws then
    toUpperCase (take 1 (default [] (head ws)) ++ take 1 (default [] (last ws)))
  else toUpperCase (substring name 0 2).

(** ** Validation *)

(** The characters a phone number may be written with: blanks, dash, parentheses, dot. *)
Definition phone_filler (a : ascii) : bool :=
  is_space a || bool_decide (a ∈ ["-"; "("; ")"; "."]%char).

Definition validateContactRequest (valid_url : jsstr → bool) (r : ContactRequest) : validation :=
  let hasName := opt_truthy (firstName r) || opt_truthy (lastName r) || opt_truthy (nickname r) ||
                 opt_truthy (company r) in
  let hasEmail := match emails r with Some (_ :: _) => true | _ => false end in
  validation_of (
    push_if (negb hasName && negb hasEmail) "Contact must have a name or email address"%js ++
    flat_map (λ e, push_if (negb (re_test simple_email_re (en_value e)))
      ("Invalid email address: "%js ++ en_value e)) (default [] (emails r)) ++
    flat_map (λ p, push_if (truthy (en_value p) &&
        (length (re_replace_all (RChr phone_filler) (λ _, []) (en_value p)) <? 7))
      ("Invalid phone number: "%js ++ en_value p)) (default [] (phones r)) ++
    match website r with
    | Some w => if truthy w then push_if (negb (valid_url w)) "Invalid website URL"%js else []
    | None => []
    end).

(** ** Searching, sorting, grouping *)

(** [s.replace(/\D/g, '')] *)
Definition digits_of (s : jsstr) : jsstr :=
  re_replace_all (RChr (λ a, negb (is_digit a))) (λ _, []) s.

Definition contact_matches (q : jsstr) (c : Contact) : bool :=
  if includes (toLowerCase (displayName c)) q then true
  else if existsb (λ e, includes (toLowerCase (en_value e)) q) (ct_emails c) then true
  else if existsb (λ p, includes (digits_of (en_value p)) (digits_of q)) (ct_phones c) then true
  else if match ct_company c with Some s => includes (toLowerCase s) q | None => false end then true
  else match ct_notes c with Some s => includes (toLowerCase s) q | None => false end.

Definition searchContacts (contacts : list Contact) (query : jsstr) : list Contact :=
  let q := trim (toLowerCase query) in
  if truthy q then filter (λ c, contact_matches q c = true) contacts else contacts.

Inductive sort_field := ByDisplayName | ByLastName | ByCompany.

Definition sort_key (f : sort_field) (c : Contact) : jsstr :=
  toLowerCase (opt_or (match f with
    | ByDisplayName => Some (displayName c)
    | ByLastName => ct_lastName c
    | ByCompany => ct_company c
    end) (displayName c)).

Definition sortContacts (localeCompare : jsstr → jsstr → Z) (contacts : list Contact)
    (f : sort_field) : list Contact :=
  sort_by (λ a b, localeCompare (sort_key f a) (sort_key f b)) contacts.

Definition letterKey (c : Contact) : jsstr :=
  let firstChar := toUpperCase (take 1 (displayName c)) in
  if existsb is_ascii_upper firstChar then firstChar else "#"%js.

Definition groupContactsByLetter (contacts : list Contact) : jsmap jsstr (list Contact) :=
  group_by letterKey contacts.

(** ** Duplicates *)

Definition areContactsSimilar (a b : Contact) : bool :=
  let aEmails := map (λ e, toLowerCase (en_value e)) (ct_emails a) in
  let aPhones := map (λ p, digits_of (en_value p)) (ct_phones a) in
  existsb (λ e, bool_decide (toLowerCase (en_value e) ∈ aEmails)) (ct_emails b) ||
  existsb (λ p, bool_decide (digits_of (en_value p) ∈ aPhones)) (ct_phones b) ||
  bool_decide (toLowerCase (displayName a) = toLowerCase (displayName b)).

(** The inner loop: the later contacts that match [c] and are not processed, each marked. *)
Fixpoint collect (c : Contact) (rest : list Contact) (processed : list jsstr) :
    list Contact * list jsstr :=
  match rest with
  | [] => ([], processed)
  | d :: rest =>
      if bool_decide (ct_id d ∈ processed) then collect c rest processed
      else if areContactsSimilar c d then
        let '(ms, p) := collect c rest (set_add (ct_id d) processed) in (d :: ms, p)
      else collect c rest processed
  end.

Fixpoint duplicates_loop (contacts : list Contact) (processed : list jsstr) : list (list Contact) :=
  match contacts with
  | [] => []
  | c :: rest =>
      if bool_decide (ct_id c ∈ processed) then duplicates_loop rest processed
      else
        let '(ms, p) := collect c rest processed in
        match ms with
        | [] => duplicates_loop rest p
        | _ => (c :: ms) :: duplicates_loop rest (set_add (ct_id c) p)
        end
  end.

Definition findPotentialDuplicates (contacts : list Contact) : list (list Contact) :=
  duplicates_loop contacts [].

(** ** Duplicates: theorems *)

Lemma collect_spec c rest processed :
  NoDup (ct_id <$> rest) →
  let '(ms, p) := collect c rest processed in
  ms `sublist_of` rest ∧
  (∀ d, d ∈ ms → (ct_id d ∉ processed) ∧ areContactsSimilar c d = true) ∧
  (∀ i, i ∈ p ↔ i ∈ processed ∨ i ∈ ct_id <$> ms) ∧
  (∀ d, d ∈ rest → areContactsSimilar c d = true → ct_id d ∈ p).
Proof.
  revert processed. induction rest as [|d rest IH]; intros processed Hnd; [set_solver|].
  csimpl in *. apply NoDup_cons in Hnd as [Hd Hnd]. simpl.
  destruct (bool_decide (ct_id d ∈ processed)) eqn:Ep.
  - apply bool_decide_eq_true in Ep. specialize (IH processed Hnd).
    destruct (collect c rest processed) as [ms p]. destruct IH as (H1 & H2 & H3 & H4).
    split; [by apply sublist_cons|]. split; [done|]. split; [done|].
    intros d' [->|Hin]%elem_of_cons Hs; [apply H3; auto|auto].
  - apply bool_decide_eq_false in Ep. destruct (areContactsSimilar c d) eqn:Es.
    + specialize (IH (set_add (ct_id d) processed) Hnd).
      destruct (collect c rest _) as [ms p]. destruct IH as (H1 & H2 & H3 & H4).
      setoid_rewrite elem_of_set_add in H2. setoid_rewrite elem_of_set_add in H3.
      split; [by apply sublist_skip|]. split; [|split].
      * intros d' [->|Hin]%elem_of_cons; [done|]. destruct (H2 d' Hin). naive_solver.
      * intros i. rewrite H3. csimpl. set_solver.
      * intros d' [->|Hin]%elem_of_cons Hs; [apply H3; auto|auto].
    + specialize (IH processed Hnd).
      destruct (collect c rest processed) as [ms p]. destruct IH as (H1 & H2 & H3 & H4).
      split; [by apply sublist_cons|]. split; [done|]. split; [done|].
      intros d' [->|Hin]%elem_of_cons Hs; [congruence|auto].
Qed.

Definition similar_group (g : list Contact) : Prop :=
  ∃ c ms, g = c :: ms ∧ ms ≠ [] ∧ ∀ d, d ∈ ms → areContactsSimilar c d = true.

(** What the outer loop finds among [contacts] when [processed] was found before. *)
Definition finds (contacts : list Contact) (processed : list jsstr) (groups : list (list Contact)) : Prop :=
  let ids := ct_id <$> mjoin groups in
  (∀ g, g ∈ groups → similar_group g) ∧ NoDup ids ∧
  (∀ c, c ∈ mjoin groups → c ∈ contacts ∧ ct_id c ∉ processed) ∧
  (∀ l1 a l2 b l3, contacts = l1 ++ a :: l2 ++ b :: l3 → areContactsSimilar a b = true →
    (ct_id a ∈ processed ∨ ct_id a ∈ ids) ∨ (ct_id b ∈ processed ∨ ct_id b ∈ ids)).

Lemma finds_skip c rest processed groups :
  finds rest processed groups →
  (ct_id c ∈ processed ∨
   ∀ b, b ∈ rest → areContactsSimilar c b = true → ct_id b ∈ processed) →
  finds (c :: rest) processed groups.
Proof.
  intros (H1 & H2 & H3 & H4) Hc. split; [done|]. split; [done|]. split; [set_solver|].
  intros [|x l1] a l2 b l3 Heq Hs; simplify_eq/=; [|by eapply H4].
  destruct Hc as [Hc|Hc]; [auto|]. right; left. apply Hc; [set_solver|done].
Qed.

Lemma finds_group c ms rest processed p groups :
  NoDup (ct_id <$> c :: rest) → ct_id c ∉ processed → ms ≠ [] → ms `sublist_of` rest →
  (∀ d, d ∈ ms → (ct_id d ∉ processed) ∧ areContactsSimilar c d = true) →
  (∀ i, i ∈ p ↔ i ∈ processed ∨ i ∈ ct_id <$> ms) →
  (∀ d, d ∈ rest → areContactsSimilar c d = true → ct_id d ∈ p) →
  finds rest (set_add (ct_id c) p) groups → finds (c :: rest) processed ((c :: ms) :: groups).
Proof.
  csimpl. rewrite NoDup_cons. intros [Hc Hnd] Hcp Hne Hsub Hms Hp Hall (H1 & H2 & H3 & H4).
  setoid_rewrite elem_of_set_add in H3. setoid_rewrite elem_of_set_add in H4.
  setoid_rewrite Hp in H3. setoid_rewrite Hp in H4. setoid_rewrite Hp in Hall.
  assert (∀ i, i ∈ ct_id <$> mjoin ((c :: ms) :: groups) ↔
    i = ct_id c ∨ i ∈ ct_id <$> ms ∨ i ∈ ct_id <$> mjoin groups) as Hids.
  { intros i. simpl. csimpl. rewrite fmap_app, elem_of_cons, elem_of_app. done. }
  assert (∀ x, x ∈ ct_id <$> mjoin groups → x ≠ ct_id c ∧ (x ∉ processed) ∧ (x ∉ ct_id <$> ms)) as Hg.
  { intros x (d & -> & Hd)%list_elem_of_fmap. destruct (H3 d Hd) as [_ Hn]. tauto. }
  split; [|split; [|split]].
  - intros g [->|Hin]%elem_of_cons; [|auto]. exists c, ms. split; [done|]. split; [done|].
    intros d Hd. by apply Hms.
  - simpl. csimpl. rewrite fmap_app. apply NoDup_cons. split.
    + rewrite elem_of_app. intros [Hin|Hin]; [|by apply Hg in Hin as [? _]].
      apply Hc. apply list_elem_of_fmap in Hin as (d & -> & Hd).
      apply list_elem_of_fmap_2. by eapply elem_of_submseteq; [|apply sublist_submseteq].
    + apply NoDup_app. split; [|split; [|done]].
      * eapply sublist_NoDup; [exact Hnd|]. by apply fmap_sublist.
      * intros x Hx Hx'. apply Hg in Hx'. tauto.
  - intros d. simpl. rewrite elem_of_cons, elem_of_app. intros [->|[Hd|Hd]].
    + split; [set_solver|done].
    + split; [apply elem_of_cons; right; by eapply elem_of_submseteq; [|apply sublist_submseteq]|]. by apply Hms.
    + destruct (H3 d Hd) as [? Hn]. split; [set_solver|]. tauto.
  - intros [|x l1] a l2 b l3 Heq Hs; simplify_eq/=; setoid_rewrite Hids; [left; auto|].
    destruct (H4 l1 a l2 b l3 eq_refl Hs) as [H|H]; tauto.
Qed.

Lemma duplicates_loop_spec contacts processed :
  NoDup (ct_id <$> contacts) → finds contacts processed (duplicates_loop contacts processed).
Proof.
  revert processed. induction contacts as [|c rest IH]; intros processed Hnd.
  - split; [set_solver|]. split; [constructor|]. split; [set_solver|].
    by intros [|? ?] ? ? ? ? ?.
  - pose proof Hnd as Hnd'. csimpl in Hnd'. apply NoDup_cons in Hnd' as [_ Hrest]. simpl.
    case_bool_decide as Hc; [apply finds_skip; auto|].
    pose proof (collect_spec c rest processed Hrest) as Hcol.
    destruct (collect c rest processed) as [ms p]. destruct Hcol as (Hsub & Hms & Hp & Hall).
    destruct ms as [|m ms].
    + destruct (IH p Hrest) as (H1 & H2 & H3 & H4).
      assert (∀ i, i ∈ p ↔ i ∈ processed) as Hpp by (intros i; rewrite Hp; set_solver).
      apply finds_skip; [|right; intros b Hb Hs; by apply Hpp, Hall].
      split; [done|]. split; [done|]. setoid_rewrite Hpp in H3. by setoid_rewrite Hpp in H4.
    + apply (finds_group c (m :: ms) rest processed p); try done. by apply IH.
Qed.

(** With distinct ids, the groups of potential duplicates have at least two contacts, the first
    similar to all the others; no contact is in two groups; and of two similar contacts at least
    one is in a group. *)
Theorem findPotentialDuplicates_spec contacts :
  NoDup (ct_id <$> contacts) →
  let groups := findPotentialDuplicates contacts in
  (∀ g, g ∈ groups → similar_group g) ∧
  NoDup (ct_id <$> mjoin groups) ∧
  (∀ c, c ∈ mjoin groups → c ∈ contacts) ∧
  (∀ l1 a l2 b l3, contacts = l1 ++ a :: l2 ++ b :: l3 → areContactsSimilar a b = true →
    ct_id a ∈ ct_id <$> mjoin groups ∨ ct_id b ∈ ct_id <$> mjoin groups).
Proof.
  intros Hnd groups. destruct (duplicates_loop_spec contacts [] Hnd) as (H1 & H2 & H3 & H4).
  split; [done|]. split; [done|]. split; [intros c Hc; by apply H3|].
  intros l1 a l2 b l3 Heq Hs. destruct (H4 l1 a l2 b l3 Heq Hs) as [[?|?]|[?|?]]; auto; set_solver.
Qed.

(** ** Search: theorems *)

Lemma digits_of_filter s : digits_of s = filter (λ a, negb (is_digit a) = false) s.
Proof. apply re_remove_class. Qed.

(** Searching returns, in order, the contacts whose name, an address, company or notes contain
    the query in any case, or one of whose phone numbers contains its digits; but when the query
    has no digit, every contact with a phone number is returned. *)
Theorem searchContacts_spec contacts query :
  let q := trim (toLowerCase query) in
  (q = [] → searchContacts contacts query = contacts) ∧
  (∀ c, q ≠ [] → c ∈ searchContacts contacts query ↔ c ∈ contacts ∧
    (includes (toLowerCase (displayName c)) q = true ∨
     (∃ e, e ∈ ct_emails c ∧ includes (toLowerCase (en_value e)) q = true) ∨
     (∃ p, p ∈ ct_phones c ∧ includes (digits_of (en_value p)) (digits_of q) = true) ∨
     (∃ s, s ∈ [ct_company c; ct_notes c] ∧ includes (toLowerCase (default [] s)) q = true))) ∧
  (∀ c, q ≠ [] → digits_of q = [] → c ∈ contacts → ct_phones c ≠ [] →
    c ∈ searchContacts contacts query).
Proof.
  intros q. unfold searchContacts. fold q.
  assert (∀ c, q ≠ [] → contact_matches q c = true ↔
    (includes (toLowerCase (displayName c)) q = true ∨
     (∃ e, e ∈ ct_emails c ∧ includes (toLowerCase (en_value e)) q = true) ∨
     (∃ p, p ∈ ct_phones c ∧ includes (digits_of (en_value p)) (digits_of q) = true) ∨
     (∃ s, s ∈ [ct_company c; ct_notes c] ∧ includes (toLowerCase (default [] s)) q = true))) as Hm.
  { intros c Hq. assert (includes (toLowerCase []) q = false) as Hnil by by destruct q.
    assert (∀ o : option jsstr, (match o with Some s => includes (toLowerCase s) q | None => false end)
      = includes (toLowerCase (default [] o)) q) as Ho by (by intros [s|]).
    unfold contact_matches. rewrite !Ho. setoid_rewrite list_elem_of_In. rewrite <- !existsb_exists.
    simpl. repeat case_match; rewrite ?orb_false_r, ?orb_true_iff; naive_solver. }
  split; [by intros ->|]. split.
  - intros c Hq. rewrite (proj2 (truthy_spec q)), list_elem_of_filter, Hm by done. tauto.
  - intros c Hq Hd Hc Hp. rewrite (proj2 (truthy_spec q)), list_elem_of_filter, Hm by done.
    split; [|done]. right; right; left. destruct (ct_phones c) as [|p ps]; [done|].
    exists p. split; [set_solver|]. rewrite Hd. apply includes_nil.
Qed.

(** ** Sorting, grouping, validation: theorems *)

(** A collation: consistent and total, as the comparator of a sort has to be. *)
#[export] Instance sort_key_comparator (localeCompare : jsstr → jsstr → Z)
  `{!Comparator localeCompare} f : Comparator (λ a b, localeCompare (sort_key f a) (sort_key f b)).
Proof.
  split; intros.
  - apply cmp_flip.
  - by eapply cmp_le_trans.
Qed.

(** With a consistent collation, sorting keeps every contact once, orders them by the chosen
    field (the display name where it is missing) without regard to case, and contacts the
    collation cannot tell apart keep their order. *)
Theorem sortContacts_spec localeCompare `{!Comparator localeCompare} contacts f :
  let sorted := sortContacts localeCompare contacts f in
  sorted ≡ₚ contacts ∧
  (∀ l1 a l2 b l3, sorted = l1 ++ a :: l2 ++ b :: l3 →
    (localeCompare (sort_key f a) (sort_key f b) ≤ 0)%Z) ∧
  ∀ c, filter (λ d, localeCompare (sort_key f c) (sort_key f d) = 0%Z) sorted =
       filter (λ d, localeCompare (sort_key f c) (sort_key f d) = 0%Z) contacts.
Proof.
  intros sorted. split; [apply sort_by_perm|]. split.
  - intros l1 a l2 b l3 Hs. pose proof (sort_by_sorted
      (λ a b, localeCompare (sort_key f a) (sort_key f b)) contacts) as H.
    fold (sortContacts localeCompare contacts f) in H. fold sorted in H. rewrite Hs in H.
    by apply sorted_by_before in H.
  - intros c. apply (sort_by_stable (λ a b, localeCompare (sort_key f a) (sort_key f b)) c contacts).
Qed.

(** A contact request is valid exactly when it has a name, a company or an address, every
    address has the accepted form, every phone number that is not empty keeps seven characters
    without its fillers, and the website, when there is one, is a URL. *)
Theorem validateContactRequest_spec valid_url r :
  valid (validateContactRequest valid_url r) = true ↔
  ((∃ s, Some s ∈ [firstName r; lastName r; nickname r; company r] ∧ s ≠ []) ∨
   default [] (emails r) ≠ []) ∧
  (∀ e, e ∈ default [] (emails r) → simple_address (en_value e)) ∧
  (∀ p, p ∈ default [] (phones r) → en_value p ≠ [] →
    7 ≤ length (filter (λ a, phone_filler a = false) (en_value p))) ∧
  (∀ w, website r = Some w → w ≠ [] → valid_url w = true).
Proof.
  unfold validateContactRequest. rewrite validation_of_valid, !app_nil, !push_if_nil, !flat_map_nil.
  setoid_rewrite push_if_nil. setoid_rewrite negb_false_iff. setoid_rewrite simple_email_spec.
  setoid_rewrite re_remove_class. setoid_rewrite andb_false_iff. setoid_rewrite negb_false_iff.
  setoid_rewrite Nat.ltb_ge.
  assert (∀ o, opt_truthy o = true ↔ ∃ s, o = Some s ∧ s ≠ []) as Ho.
  { intros [s|]; simpl; rewrite ?truthy_spec; naive_solver. }
  assert (match emails r with Some (_ :: _) => true | _ => false end = true ↔
    default [] (emails r) ≠ []) as -> by (destruct (emails r) as [[|? ?]|]; naive_solver).
  rewrite !orb_true_iff, !Ho.
  assert (match website r with Some w => if truthy w then push_if (negb (valid_url w))
      "Invalid website URL"%js else [] | None => [] end = [] ↔
    ∀ w, website r = Some w → w ≠ [] → valid_url w = true) as ->.
  { destruct (website r) as [w|]; [|naive_solver]. destruct (truthy w) eqn:E.
    - rewrite push_if_nil, negb_false_iff. apply truthy_spec in E. naive_solver.
    - apply truthy_false in E as ->. naive_solver. }
  assert ((∃ s, Some s ∈ [firstName r; lastName r; nickname r; company r] ∧ s ≠ []) ↔
    ((((∃ s, firstName r = Some s ∧ s ≠ []) ∨ ∃ s, lastName r = Some s ∧ s ≠ []) ∨
      ∃ s, nickname r = Some s ∧ s ≠ []) ∨ ∃ s, company r = Some s ∧ s ≠ [])) as ->.
  { setoid_rewrite elem_of_cons. setoid_rewrite elem_of_cons. setoid_rewrite elem_of_cons.
    setoid_rewrite list_elem_of_singleton. naive_solver. }
  assert (∀ p, truthy (en_value p) = false ∨ 7 ≤ length (filter (λ a, phone_filler a = false) (en_value p))
    ↔ (en_value p ≠ [] → 7 ≤ length (filter (λ a, phone_filler a = false) (en_value p)))) as Hp.
  { intros p. rewrite <- not_true_iff_false, truthy_spec.
    destruct (decide (en_value p = [])) as [->|]; naive_solver. }
  setoid_rewrite Hp. done.
Qed.

(** ** Witnesses *)

Definition ex_contact (i name mail phone : jsstr) : Contact := {|
  ct_id := i; ct_ownerId := "o"%js; ct_uid := "u"%js; ct_prefix := None; ct_firstName := None;
  ct_middleName := None; ct_lastName := None; ct_suffix := None; ct_nickname := None;
  displayName := name; ct_company := None; ct_jobTitle := None; ct_department := None;
  ct_emails := [{| en_type := "home"%js; en_value := mail; en_isPrimary := None |}];
  ct_phones := [{| en_type := "home"%js; en_value := phone; en_isPrimary := None |}];
  ct_addresses := []; ct_birthday := None; ct_anniversary := None; ct_website := None;
  ct_notes := None; ct_photoUrl := None; ct_labels := []; ct_isFavorite := false;
  ct_createdAt := 0; ct_updatedAt := 0 |}.

Definition ex_contacts : list Contact :=
  [ex_contact "1"%js "Ann"%js "ann@x.io"%js "555-1234567"%js;
   ex_contact "2"%js "Bob"%js "bob@x.io"%js "555 7654321"%js;
   ex_contact "3"%js "Ann Lee"%js "ANN@x.io"%js "555-0000000"%js].

Lemma findPotentialDuplicates_spec_witness :
  map (map ct_id) (findPotentialDuplicates ex_contacts) = [["1"; "3"]]%js ∧
  NoDup (ct_id <$> mjoin (findPotentialDuplicates ex_contacts)).
Proof.
  split; [vm_compute; reflexivity|]. apply (findPotentialDuplicates_spec ex_contacts).
  apply (bool_decide_unpack _). vm_compute. exact I.
Defined.

Lemma sortContacts_spec_witness :
  sortContacts (λ a b, Z.of_nat (length a) - Z.of_nat (length b))%Z ex_contacts ByDisplayName ≡ₚ
  ex_contacts.
Proof.
  apply (sortContacts_spec (λ a b, Z.of_nat (length a) - Z.of_nat (length b))%Z
    (Comparator0 := cmp_by_key (λ s : jsstr, Z.of_nat (length s))) ex_contacts ByDisplayName).
Defined.

(** Numbers without digits are equal once normalized: two unrelated contacts are duplicates. *)
Lemma phones_without_digits_similar :
  areContactsSimilar (ex_contact "1"%js "Ann"%js "ann@x.io"%js "n/a"%js)
    (ex_contact "2"%js "Bob"%js "bob@x.io"%js "unknown"%js) = true.
Proof. vm_compute. reflexivity. Qed.

(** The initials of a one-word name with a leading blank start with the blank. *)
Lemma initials_leading_blank :
  getContactInitials (ex_contact "1"%js " Bob"%js "b@x.io"%js "1"%js) = " B"%js.
Proof. vm_compute. reflexivity. Qed.
