(* ===== verification/VCard.v ===== *)
(** * Contacts: vCards ([packages/core/src/contacts/vcard.ts])

    Nothing in [parseVCard] can throw, so its [null] result does not occur: it is a total
    function.  The reading of a date that is not in the calendar ([new Date('2024-13-45')]) is
    left to the runtime by the language standard: it is the argument [legacy_date]. *)

From stdpp Require Import base list.
From S2P Require Import Prelude JsString JsRegex EmailPattern JsDate Contact.

(** ** Lines *)

(** [/\r?\n/] *)
Definition newline_re : regex := RSeq (ropt (rchar creturn)) (rchar newline).

(** [/^[ \t]/.test(l)] *)
Definition folded (l : jsstr) : bool :=
  re_test (RSeq RBegin (RChr (λ a, bool_decide (a = " "%char ∨ a = "009"%char)))) l.

(** The loop that joins continuation lines to [line]. *)
Fixpoint join_folded (line : jsstr) (lines : list jsstr) : list jsstr :=
  match lines with
  | [] => [line]
  | l :: ls => if folded l then join_folded (line ++ substring_from l 1) ls else line :: join_folded l ls
  end.

Definition logical_lines (vcard : jsstr) : list jsstr :=
  match re_split newline_re vcard with [] => [] | l :: ls => join_folded l ls end.

(** ** Dates *)

Section Dates.
Context {tz : TimeZone} (legacy_date : jsstr → option Z).

(** [/^\d{4}-\d{2}-\d{2}$/] and [/^\d{8}$/] *)
Definition digits_re (n : nat) : regex := rtimes n (RChr is_digit).
Definition dashed_date_re : regex :=
  rseq [RBegin; digits_re 4; rchar "-"; digits_re 2; rchar "-"; digits_re 2; REnd].
Definition compact_date_re : regex := rseq [RBegin; digits_re 8; REnd].

Definition int_at (s : jsstr) (i j : Z) : Z := default 0%Z (parseInt (substring s i j)).

(** [new Date("YYYY-MM-DD")]: midnight UTC. *)
Definition date_of_dashed (value : jsstr) : option Z :=
  let c := Civil (int_at value 0 4) (int_at value 5 7) (int_at value 8 10) in
  if valid_civil c then Some (msPerDay * days_of_civil c)%Z else legacy_date value.

(** [None] is [undefined], [Some None] the invalid date. *)
Definition parseVCardDate (value : jsstr) : option (option Z) :=
  if re_test dashed_date_re value then Some (date_of_dashed value)
  else if re_test compact_date_re value then
    Some (Some (new_Date_ymd (int_at value 0 4) (int_at value 4 6 - 1) (int_at value 6 8)))
  else None.

Definition formatVCardDate (date : Z) : jsstr :=
  int_to_str (getFullYear date) ++ "-"%js ++ padStart 2 "0" (int_to_str (getMonth date + 1)) ++
  "-"%js ++ padStart 2 "0" (int_to_str (getDate date)).

(** ** [parseVCard] *)

Definition empty_request : ContactRequest := {|
  prefix := None; firstName := None; middleName := None; lastName := None; suffix := None;
  nickname := None; company := None; jobTitle := None; department := None; emails := Some [];
  phones := Some []; addresses := Some []; birthday := None; anniversary := None; website := None;
  notes := None; labels := Some [] |}.

(** [w || undefined], for a word that may be missing. *)
Definition word_or_undefined (ws : list jsstr) (i : nat) : option jsstr :=
  match ws !! i with Some w => if truthy w then Some w else None | None => None end.

(** [typeParam || 'other'] *)
Definition type_of (params : list jsstr) : jsstr :=
  match List.find (λ p, startsWith p "TYPE="%js) params with
  | Some p =>
      let t := toLowerCase (default [] (head (split "," (substring_from p 5)))) in
      if truthy t then t else "other"%js
  | None => "other"%js
  end.

(** [value.replace(/\\n/g, '\n').replace(/\\,/g, ',')] *)
Definition unescape_note (value : jsstr) : jsstr :=
  re_replace_all (rlit "\,"%js) (λ _, ","%js)
    (re_replace_all (rlit "\n"%js) (λ _, [newline]) value).

Definition new_entry (params : list jsstr) (value : jsstr) : Entry :=
  {| en_type := type_of params; en_value := value; en_isPrimary := None |}.

(** The switch on the property name. *)
Definition set_property (c : ContactRequest) (name : jsstr) (params : list jsstr) (value : jsstr) :
    ContactRequest :=
  let '(Build_ContactRequest pr fi mi la su ni co jo de em ph ad bi an we no lb) := c in
  let ws := split ";" value in
  if bool_decide (name = "N"%js) then
    Build_ContactRequest (word_or_undefined ws 3) (word_or_undefined ws 1) (word_or_undefined ws 2)
      (word_or_undefined ws 0) (word_or_undefined ws 4) ni co jo de em ph ad bi an we no lb
  else if bool_decide (name = "NICKNAME"%js) then
    Build_ContactRequest pr fi mi la su (Some value) co jo de em ph ad bi an we no lb
  else if bool_decide (name = "ORG"%js) then
    Build_ContactRequest pr fi mi la su ni (word_or_undefined ws 0) jo (word_or_undefined ws 1)
      em ph ad bi an we no lb
  else if bool_decide (name = "TITLE"%js) then
    Build_ContactRequest pr fi mi la su ni co (Some value) de em ph ad bi an we no lb
  else if bool_decide (name = "EMAIL"%js) then
    Build_ContactRequest pr fi mi la su ni co jo de (Some (default [] em ++ [new_entry params value]))
      ph ad bi an we no lb
  else if bool_decide (name = "TEL"%js) then
    Build_ContactRequest pr fi mi la su ni co jo de em
      (Some (default [] ph ++ [new_entry params value])) ad bi an we no lb
  else if bool_decide (name = "ADR"%js) then
    let a := {| pa_type := type_of params; street := word_or_undefined ws 2;
      city := word_or_undefined ws 3; state := word_or_undefined ws 4;
      postalCode := word_or_undefined ws 5; country := word_or_undefined ws 6;
      formatted := None; pa_isPrimary := None |} in
    Build_ContactRequest pr fi mi la su ni co jo de em ph (Some (default [] ad ++ [a])) bi an we no lb
  else if bool_decide (name = "BDAY"%js) then
    Build_ContactRequest pr fi mi la su ni co jo de em ph ad (parseVCardDate value) an we no lb
  else if bool_decide (name = "ANNIVERSARY"%js) then
    Build_ContactRequest pr fi mi la su ni co jo de em ph ad bi (parseVCardDate value) we no lb
  else if bool_decide (name = "URL"%js) then
    Build_ContactRequest pr fi mi la su ni co jo de em ph ad bi an (Some value) no lb
  else if bool_decide (name = "NOTE"%js) then
    Build_ContactRequest pr fi mi la su ni co jo de em ph ad bi an we (Some (unescape_note value)) lb
  else if bool_decide (name = "CATEGORIES"%js) then
    Build_ContactRequest pr fi mi la su ni co jo de em ph ad bi an we no
      (Some (map trim (split "," value)))
  else c.

(** A property line; one without a colon is skipped. *)
Definition parse_property (c : ContactRequest) (line : jsstr) : ContactRequest :=
  match indexOf line ":"%js with
  | None => c
  | Some colonIndex =>
      let parts := split ";" (take colonIndex line) in
      set_property c (toUpperCase (default [] (head parts))) (tail parts) (drop (S colonIndex) line)
  end.

Fixpoint parse_lines (inVCard : bool) (c : ContactRequest) (lines : list jsstr) : ContactRequest :=
  match lines with
  | [] => c
  | line :: lines =>
      if startsWith line "BEGIN:VCARD"%js then parse_lines true c lines
      else if startsWith line "END:VCARD"%js then c
      else if inVCard then parse_lines inVCard (parse_property c line) lines
      else parse_lines inVCard c lines
  end.

Definition parseVCard (vcard : jsstr) : ContactRequest :=
  parse_lines false empty_request (logical_lines vcard).

(** [/(?=BEGIN:VCARD)/i] *)
Definition begin_re : regex := RAhead (rlit_ci "begin:vcard"%js).

Definition parseVCards (content : jsstr) : list ContactRequest :=
  flat_map (λ v, if truthy (trim v) then [parseVCard v] else []) (re_split begin_re content).

(** ** [generateVCard] *)

Definition escapeVCardValue (value : jsstr) : jsstr :=
  re_replace_all (rchar newline) (λ _, "\n"%js)
    (re_replace_all (rchar ";") (λ _, "\;"%js)
      (re_replace_all (rchar ",") (λ _, "\,"%js)
        (re_replace_all (rchar "\") (λ _, "\\"%js) value))).

Definition or_empty (o : option jsstr) : jsstr := opt_or o [].

(** [if (o) lines.push(key + f(o))] *)
Definition line_if (key : jsstr) (f : jsstr → jsstr) (o : option jsstr) : list jsstr :=
  match o with Some s => if truthy s then [key ++ f s] else [] | None => [] end.

Definition entry_line (key : jsstr) (e : Entry) : jsstr :=
  key ++ ";TYPE="%js ++ toUpperCase (en_type e) ++ ":"%js ++ en_value e.

Definition address_line (a : PostalAddress) : jsstr :=
  "ADR;TYPE="%js ++ toUpperCase (pa_type a) ++ ":"%js ++
  join ";"%js [[]; []; or_empty (street a); or_empty (city a); or_empty (state a);
               or_empty (postalCode a); or_empty (country a)].

(** [if (labels.length > 0) lines.push(...)] *)
Definition categories_line (l : list jsstr) : list jsstr :=
  match l with [] => [] | w :: ws => ["CATEGORIES:"%js ++ join ","%js (w :: ws)] end.

Definition vcard_lines (c : Contact) : list jsstr :=
  ["BEGIN:VCARD"%js; "VERSION:3.0"%js] ++
  ["UID:"%js ++ ct_uid c] ++
  ["N:"%js ++ join ";"%js [or_empty (ct_lastName c); or_empty (ct_firstName c);
     or_empty (ct_middleName c); or_empty (ct_prefix c); or_empty (ct_suffix c)]] ++
  ["FN:"%js ++ escapeVCardValue (displayName c)] ++
  line_if "NICKNAME:"%js escapeVCardValue (ct_nickname c) ++
  (if opt_truthy (ct_company c) || opt_truthy (ct_department c) then
     ["ORG:"%js ++ escapeVCardValue (or_empty (ct_company c)) ++ ";"%js ++
      escapeVCardValue (or_empty (ct_department c))] else []) ++
  line_if "TITLE:"%js escapeVCardValue (ct_jobTitle c) ++
  map (entry_line "EMAIL"%js) (ct_emails c) ++
  map (entry_line "TEL"%js) (ct_phones c) ++
  map address_line (ct_addresses c) ++
  match ct_birthday c with Some d => ["BDAY:"%js ++ formatVCardDate d] | None => [] end ++
  match ct_anniversary c with Some d => ["ANNIVERSARY:"%js ++ formatVCardDate d] | None => [] end ++
  line_if "URL:"%js (λ s, s) (ct_website c) ++
  line_if "NOTE:"%js escapeVCardValue (ct_notes c) ++
  categories_line (ct_labels c) ++
  ["REV:"%js ++ formatVCardDate (ct_updatedAt c)] ++
  ["END:VCARD"%js].

Definition crlf : jsstr := [creturn; newline].

Definition generateVCard (c : Contact) : jsstr := join crlf (vcard_lines c).

Definition generateVCards (contacts : list Contact) : jsstr := join crlf (map generateVCard contacts).
End Dates.

(** ** Lines: lemmas *)

Lemma newline_match q a s :
  match_at newline_re q (a :: s) =
  if bool_decide (a = newline) then Some (MRes (S q) s [])
  else if bool_decide (a = creturn) then
    match s with
    | b :: s' => if bool_decide (b = newline) then Some (MRes (S (S q)) s' []) else None
    | [] => None
    end
  else None.
Proof.
  unfold match_at, newline_re, ropt. cbn [rmatch rchar]. unfold is_ch.
  destruct (decide (a = creturn)) as [->|Hc].
  - rewrite (bool_decide_true (creturn = creturn)) by done.
    rewrite !(bool_decide_false (creturn = newline)) by done.
    destruct s as [|b s]; [done|]. by case_bool_decide.
  - rewrite !(bool_decide_false (a = creturn)) by done. by case_bool_decide.
Qed.

Lemma split_line fuel q w rest cur :
  newline ∉ w → length w < fuel →
  re_split_loop (S fuel) newline_re q (w ++ crlf ++ rest) cur =
  (cur ++ w) :: re_split_loop (fuel - length w) newline_re (q + length w + 2) rest [].
Proof.
  revert fuel q cur. induction w as [|a w IH]; intros fuel q cur Hw Hf.
  - cbn [app re_split_loop crlf]. rewrite newline_match.
    rewrite (bool_decide_false (creturn = newline)), !bool_decide_true by done. cbn [m_end m_rest].
    replace (S (S q) =? q) with false by (symmetry; apply Nat.eqb_neq; lia).
    rewrite app_nil_r. simpl length. rewrite Nat.sub_0_r. do 2 f_equal. lia.
  - apply not_elem_of_cons in Hw as [Ha Hw]. simpl in Hf. destruct fuel as [|fuel]; [lia|].
    assert (match_at newline_re q ((a :: w) ++ crlf ++ rest) = None) as Hm.
    { cbn [app]. rewrite newline_match. rewrite bool_decide_false by congruence.
      case_bool_decide; [|done]. destruct w as [|b w]; cbn [app crlf];
        rewrite bool_decide_false; [done|done|done|].
      apply not_elem_of_cons in Hw as [Hb _]. congruence. }
    change (re_split_loop (S (S fuel)) newline_re q ((a :: w) ++ crlf ++ rest) cur) with
      (match match_at newline_re q ((a :: w) ++ crlf ++ rest) with
       | Some m => if m_end m =? q then
           match cur with
           | [] => re_split_loop (S fuel) newline_re (S q) (w ++ crlf ++ rest) [a]
           | _ => cur :: re_split_loop (S fuel) newline_re (S q) (w ++ crlf ++ rest) [a]
           end else cur :: re_split_loop (S fuel) newline_re (m_end m) (m_rest m) []
       | None => re_split_loop (S fuel) newline_re (S q) (w ++ crlf ++ rest) (cur ++ [a])
       end).
    rewrite Hm, IH by (done || lia). rewrite <- app_assoc. simpl. do 2 f_equal. lia.
Qed.

Lemma split_last fuel q w cur :
  newline ∉ w → length w < fuel → re_split_loop fuel newline_re q w cur = [cur ++ w].
Proof.
  revert fuel q cur. induction w as [|a w IH]; intros [|fuel] q cur Hw Hf; simpl in Hf; try lia.
  - simpl. by rewrite app_nil_r.
  - apply not_elem_of_cons in Hw as [Ha Hw]. cbn [re_split_loop]. rewrite newline_match.
    rewrite bool_decide_false by congruence.
    assert (match w with b :: s' => if bool_decide (b = newline) then Some (MRes (S (S q)) s' []) else None
      | [] => None end = None) as ->.
    { destruct w as [|b w]; [done|]. apply not_elem_of_cons in Hw as [Hb _].
      by rewrite bool_decide_false by congruence. }
    destruct (bool_decide (a = creturn)); rewrite IH by (done || lia); by rewrite <- app_assoc.
Qed.

(** The lines of a text joined by CRLF are the lines. *)
Lemma split_lines_join lines fuel q :
  lines ≠ [] → Forall (λ l, newline ∉ l) lines → length (join crlf lines) < fuel →
  re_split_loop fuel newline_re q (join crlf lines) [] = lines.
Proof.
  intros Hne Hall. revert fuel q. induction Hall as [|l lines Hl Hall IH]; [done|].
  intros fuel q Hf. destruct lines as [|l' lines].
  - simpl join in *. by rewrite split_last.
  - change (join crlf (l :: l' :: lines)) with (l ++ crlf ++ join crlf (l' :: lines)) in *.
    rewrite !length_app in Hf. change (length crlf) with 2 in Hf.
    destruct fuel as [|fuel]; [lia|]. rewrite split_line by (done || lia). simpl app. f_equal.
    apply IH; [done|]. lia.
Qed.

Lemma re_split_lines lines :
  lines ≠ [] → Forall (λ l, newline ∉ l) lines → join crlf lines ≠ [] →
  re_split newline_re (join crlf lines) = lines.
Proof.
  intros Hne Hall Hj. unfold re_split. destruct (join crlf lines) as [|a s] eqn:E; [done|].
  rewrite <- E. apply split_lines_join; [done|done|]. rewrite E. simpl. lia.
Qed.

Lemma folded_head l :
  folded l = match l with a :: _ => bool_decide (a = " "%char ∨ a = "009"%char) | [] => false end.
Proof.
  apply eq_true_iff_eq. unfold folded. rewrite re_test_spec. split.
  - intros (pre & u & v & -> & u1 & u2 & -> & [-> Hp] & a & -> & Ha).
    apply nil_length_inv in Hp as ->. done.
  - destruct l as [|a l]; [done|]. intros Ha. exists [], [a], l. split; [done|].
    exists [], [a]. split; [done|]. split; [done|]. by exists a.
Qed.

Lemma join_folded_id l ls : Forall (λ l, folded l = false) ls → join_folded l ls = l :: ls.
Proof. intros H. revert l. induction H as [|l' ls Hl H IH]; intros l; simpl; [done|]. by rewrite Hl, IH. Qed.

(** ** Properties: lemmas *)

Fixpoint differs (s p : jsstr) : bool :=
  match s, p with
  | a :: s, b :: p => if bool_decide (a = b) then differs s p else true
  | _, _ => false
  end.

Lemma differs_startsWith s v p : differs s p = true → startsWith (s ++ v) p = false.
Proof.
  revert p. induction s as [|a s IH]; intros [|b p]; simpl; try done.
  case_bool_decide as H; [subst b; rewrite bool_decide_true by done; apply IH|].
  by rewrite bool_decide_false by congruence.
Qed.

(** A line that is neither a delimiter nor a continuation. *)
Definition ordinary (l : jsstr) : Prop :=
  startsWith l "BEGIN:VCARD"%js = false ∧ startsWith l "END:VCARD"%js = false ∧
  folded l = false ∧ newline ∉ l.

(** A property key that can begin such a line. *)
Definition good_key (key : jsstr) : bool :=
  differs key "BEGIN:VCARD"%js && differs key "END:VCARD"%js &&
  match key with a :: _ => is_ascii_upper a | [] => false end &&
  forallb (λ a, negb (bool_decide (a = newline ∨ a = ":"%char))) key.

Lemma good_key_no_colon key : good_key key = true → (":"%char ∉ key) ∧ (newline ∉ key).
Proof.
  unfold good_key. rewrite !andb_true_iff, forallb_forall. intros [_ H].
  split; intros Hin%list_elem_of_In; specialize (H _ Hin); by apply negb_true_iff, bool_decide_eq_false in H; auto.
Qed.

Lemma good_key_ordinary key v : good_key key = true → newline ∉ v → ordinary (key ++ v).
Proof.
  intros Hk Hv. destruct (good_key_no_colon key Hk) as [_ Hn]. unfold good_key in Hk.
  rewrite !andb_true_iff in Hk. destruct Hk as [[[Hb He] Hu] _].
  split; [by apply differs_startsWith|]. split; [by apply differs_startsWith|].
  split; [|set_solver]. rewrite folded_head. destruct key as [|a key]; [done|]. simpl.
  apply bool_decide_eq_false. intros [-> | ->]; done.
Qed.

Lemma indexOf_char a u v : a ∉ u → indexOf (u ++ a :: v) [a] = Some (length u).
Proof.
  induction u as [|b u IH]; simpl; [by rewrite bool_decide_true|].
  rewrite not_elem_of_cons. intros [Hb Hu]. rewrite bool_decide_false by congruence. simpl.
  by rewrite IH.
Qed.

Section Effects.
Context {tz : TimeZone} (legacy_date : jsstr → option Z).

Lemma parse_property_kv c key v :
  ":"%char ∉ key →
  parse_property legacy_date c (key ++ ":"%char :: v) =
  set_property legacy_date c (toUpperCase (default [] (head (split ";" key)))) (tail (split ";" key)) v.
Proof.
  intros Hk. unfold parse_property. rewrite indexOf_char by done.
  rewrite take_app_length. f_equal. rewrite cons_middle, app_assoc.
  rewrite <- (drop_app_length (key ++ ":"%js) v) at 2. f_equal. rewrite length_app. simpl. lia.
Qed.

(** A segment of ordinary lines and what it does to the contact. *)
Definition effect (c : ContactRequest) (seg : list jsstr) (c' : ContactRequest) : Prop :=
  foldl (parse_property legacy_date) c seg = c' ∧ Forall ordinary seg.

Lemma effect_nil c : effect c [] c.
Proof. split; [done|constructor]. Qed.

Lemma effect_app c s1 c1 s2 c2 : effect c s1 c1 → effect c1 s2 c2 → effect c (s1 ++ s2) c2.
Proof.
  unfold effect. intros [<- F1] [<- F2]. rewrite foldl_app. split; [done|]. by apply Forall_app.
Qed.

Lemma effect_one c key v c' :
  good_key key = true → newline ∉ v →
  set_property legacy_date c (toUpperCase (default [] (head (split ";" key)))) (tail (split ";" key)) v = c' →
  effect c [key ++ ":"%char :: v] c'.
Proof.
  intros Hk Hv <-. destruct (good_key_no_colon key Hk) as [Hc _]. split.
  - simpl. by apply parse_property_kv.
  - constructor; [|constructor]. apply good_key_ordinary; [done|]. by apply not_elem_of_cons.
Qed.

Lemma parse_ordinary_lines c seg c' :
  effect c seg c' → parse_lines legacy_date true c (seg ++ ["END:VCARD"%js]) = c'.
Proof.
  intros [<- H]. revert c. induction H as [|l seg (Hb & He & _) H IH]; intros c; [done|].
  cbn [app parse_lines foldl]. by rewrite Hb, He, IH.
Qed.

End Effects.

(** ** Plain values: lemmas *)

Definition special : list ascii := ["\"; ","; ";"; newline]%char.

Definition clean (s : jsstr) : Prop := Forall (λ a, a ∉ special) s.

#[export] Instance clean_dec s : Decision (clean s).
Proof. unfold clean. apply _. Defined.

Definition clean_opt (o : option jsstr) : Prop := clean (or_empty o).

(** [o] as it is read back: the empty text is no text. *)
Definition norm (o : option jsstr) : option jsstr := if opt_truthy o then o else None.

Lemma clean_no a s : a ∈ special → clean s → a ∉ s.
Proof. unfold clean. rewrite Forall_forall. intros Ha Hs Hin. by apply (Hs a). Qed.

Lemma clean_newline s : clean s → newline ∉ s.
Proof. apply clean_no. unfold special. set_solver. Qed.

Lemma replace_char_fresh a w s : a ∉ s → re_replace_all (rchar a) (λ _, w) s = s.
Proof.
  intros Ha. unfold rchar. rewrite re_replace_class. induction s as [|b s IH]; [done|]. simpl.
  apply not_elem_of_cons in Ha as [Hb Hs]. unfold is_ch at 1. rewrite bool_decide_false by congruence.
  simpl. f_equal. by apply IH.
Qed.

Lemma escape_clean s : clean s → escapeVCardValue s = s.
Proof.
  intros Hs. unfold escapeVCardValue.
  rewrite (replace_char_fresh "\"), (replace_char_fresh ","), (replace_char_fresh ";"),
    (replace_char_fresh newline); try done; apply clean_no; try done; unfold special; set_solver.
Qed.

Lemma escape_newline s : newline ∉ escapeVCardValue s.
Proof.
  unfold escapeVCardValue. set (t := re_replace_all (rchar ";") _ _). unfold rchar.
  rewrite re_replace_class. clearbody t. induction t as [|b t IH]; simpl; [set_solver|].
  unfold is_ch at 1. case_bool_decide as Hb; simpl.
  - rewrite not_elem_of_cons, not_elem_of_cons. done.
  - rewrite not_elem_of_cons. split; [congruence|done].
Qed.

Lemma word_norm (ws : list jsstr) i o : ws !! i = Some (or_empty o) → word_or_undefined ws i = norm o.
Proof.
  intros H. unfold word_or_undefined, norm. rewrite H. by destruct o as [[|a s]|].
Qed.

(** ** Dates: lemmas *)

Lemma sem_date_re i y m d :
  Forall (λ a, is_digit a = true) y → Forall (λ a, is_digit a = true) m →
  Forall (λ a, is_digit a = true) d → length y = 4 → length m = 2 → length d = 2 →
  i = 0 → sem dashed_date_re i (y ++ "-"%char :: m ++ "-"%char :: d) [].
Proof.
  intros Hy Hm Hd Ly Lm Ld ->. unfold dashed_date_re. cbn [rseq].
  exists [], (y ++ "-"%char :: m ++ "-"%char :: d). split; [done|]. split; [done|].
  exists y, ("-"%char :: m ++ "-"%char :: d). split; [done|].
  split; [by apply sem_times_class; [lia|]|].
  exists ["-"%char], (m ++ "-"%char :: d). split; [done|]. split; [by apply sem_char|].
  exists m, ("-"%char :: d). split; [done|]. split; [by apply sem_times_class; [lia|]|].
  exists ["-"%char], d. split; [done|]. split; [by apply sem_char|].
  exists d, []. split; [by rewrite app_nil_r|]. split; [by apply sem_times_class; [lia|]|]. done.
Qed.

Section DateRoundTrip.
Context {tz : TimeZone} (legacy_date : jsstr → option Z).

Lemma substring_mid (u v w : jsstr) i j :
  length u = Z.to_nat i → Z.to_nat j = length u + length v → (0 ≤ i ≤ j)%Z →
  substring (u ++ v ++ w) i j = v.
Proof.
  intros Hi Hj Hij. unfold substring, clamp. rewrite !length_app, <- Hi, Hj.
  rewrite (Nat.min_l (length u)) by lia. rewrite (Nat.min_l (length u + length v)) by lia.
  rewrite Nat.max_r, Nat.min_l by lia. rewrite drop_app_length.
  replace (length u + length v - length u) with (length v) by lia. apply take_app_length.
Qed.

Lemma parseVCardDate_text c :
  (1000 ≤ c_year c < 10000)%Z → valid_civil c = true →
  parseVCardDate legacy_date (date_text c) = Some (Some (msPerDay * days_of_civil c)%Z).
Proof.
  intros Hy Hv. destruct (date_text_parts c Hy Hv)
    as (y & m & d & -> & Ly & Lm & Ld & Fy & Fm & Fd & Py & Pm & Pd).
  unfold parseVCardDate. assert (re_test dashed_date_re (y ++ "-"%char :: m ++ "-"%char :: d) = true) as ->.
  { apply re_test_spec. exists [], (y ++ "-"%char :: m ++ "-"%char :: d), [].
    split; [by rewrite app_nil_r|]. by apply sem_date_re. }
  unfold date_of_dashed, int_at.
  assert (substring (y ++ "-"%char :: m ++ "-"%char :: d) 0 4 = y) as ->.
  { rewrite substring_prefix. change (Z.to_nat 4) with 4. rewrite <- Ly. apply take_app_length. }
  assert (substring (y ++ "-"%char :: m ++ "-"%char :: d) 5 7 = m) as ->.
  { rewrite cons_middle, app_assoc. apply substring_mid; rewrite ?length_app, ?Ly, ?Lm; simpl; lia. }
  assert (substring (y ++ "-"%char :: m ++ "-"%char :: d) 8 10 = d) as ->.
  { rewrite (cons_middle "-"%char y), (cons_middle "-"%char m), !app_assoc.
    rewrite <- (app_nil_r d) at 1. apply substring_mid; rewrite ?length_app, ?Ly, ?Lm, ?Ld; simpl; lia. }
  rewrite Py, Pm, Pd. simpl. destruct c as [cy cm cd]. simpl. by rewrite Hv.
Qed.

(** A date the format writes with a year of four digits. *)
Definition date_ok (t : Z) : Prop := (1000 ≤ getFullYear t < 10000)%Z.

Lemma formatVCardDate_text t : formatVCardDate t = date_text (civil_of_time (LocalTime t)).
Proof. unfold formatVCardDate, date_text, getFullYear, getMonth, getDate. by rewrite Z.sub_add. Qed.

Lemma date_read_back t :
  date_ok t →
  parseVCardDate legacy_date (formatVCardDate t) = Some (Some (msPerDay * Day (LocalTime t))%Z).
Proof.
  intros Hy. rewrite formatVCardDate_text.
  destruct (civil_of_days_spec (Day (LocalTime t))) as [H1 H2].
  rewrite parseVCardDate_text; [|done|done]. unfold civil_of_time. by rewrite H1.
Qed.

Lemma formatVCardDate_newline t : newline ∉ formatVCardDate t.
Proof.
  assert (∀ z, newline ∉ int_to_str z) as Hi.
  { intros z Hin. pose proof (int_to_str_chars z) as H. rewrite Forall_forall in H.
    destruct (H _ Hin); done. }
  assert (∀ z, newline ∉ padStart 2 "0" (int_to_str z)) as Hp.
  { intros z. unfold padStart. intros [Hr|Hr]%elem_of_app; [|by eapply Hi].
    by apply elem_of_replicate in Hr as [? _]. }
  unfold formatVCardDate. rewrite !not_elem_of_app. repeat split; try apply Hi; try apply Hp;
    by intros ?%list_elem_of_singleton.
Qed.
End DateRoundTrip.

(** ** What each segment of lines restores *)

Section Segments.
Context {tz : TimeZone} (legacy_date : jsstr → option Z).
Abbreviation eff := (effect legacy_date).

(** A key that is its property name, as read by the parser. *)
Definition plain_key (key : jsstr) : bool :=
  good_key key && bool_decide (split ";" key = [key]) && bool_decide (toUpperCase key = key).

Lemma eff_plain c key v c' :
  plain_key key = true → newline ∉ v → set_property legacy_date c key [] v = c' →
  eff c [key ++ ":"%char :: v] c'.
Proof.
  unfold plain_key. rewrite !andb_true_iff, !bool_decide_eq_true. intros [[Hk Hs] Hu] Hv Hc.
  apply effect_one; [done|done|]. rewrite Hs. simpl. by rewrite Hu.
Qed.

(** An optional text under a key whose setter is [store]. *)
Lemma eff_line_if key f (store : option jsstr → ContactRequest) o :
  plain_key key = true →
  (∀ s, o = Some s → (newline ∉ f s) ∧
     set_property legacy_date (store None) key [] (f s) = store (Some s)) →
  eff (store None) (line_if (key ++ ":"%js) f o) (store (norm o)).
Proof.
  intros Hk Hs. unfold line_if, norm. destruct o as [s|]; simpl; [|apply effect_nil].
  destruct (truthy s); [|apply effect_nil]. rewrite <- app_assoc.
  destruct (Hs s eq_refl) as [Hn Hset]. by apply eff_plain.
Qed.

Definition known_types : list jsstr := ["home"; "work"; "mobile"; "fax"; "other"]%js.

Lemma typed_key key t :
  key ∈ ["EMAIL"; "TEL"; "ADR"]%js → t ∈ known_types →
  let k := key ++ ";TYPE="%js ++ toUpperCase t in
  good_key k = true ∧ toUpperCase (default [] (head (split ";" k))) = key ∧
  type_of (tail (split ";" k)) = t.
Proof.
  intros Hk Ht. pose (P := λ key t, let k := key ++ ";TYPE="%js ++ toUpperCase t in
    good_key k && bool_decide (toUpperCase (default [] (head (split ";" k))) = key) &&
    bool_decide (type_of (tail (split ";" k)) = t)).
  assert (forallb (λ key, forallb (P key) known_types) ["EMAIL"; "TEL"; "ADR"]%js = true) as H
    by (vm_compute; reflexivity).
  rewrite forallb_forall in H. specialize (H key ltac:(by apply list_elem_of_In)).
  rewrite forallb_forall in H. specialize (H t ltac:(by apply list_elem_of_In)).
  unfold P in H. cbv beta zeta in *. rewrite !andb_true_iff, !bool_decide_eq_true in H. tauto.
Qed.

(** An entry as it is read back: without the flag of the primary one. *)
Definition bare (e : Entry) : Entry :=
  {| en_type := en_type e; en_value := en_value e; en_isPrimary := None |}.

Definition entry_ok (e : Entry) : Prop := en_type e ∈ known_types ∧ newline ∉ en_value e.

Lemma eff_entries key (store : list Entry → ContactRequest) acc l :
  key ∈ ["EMAIL"; "TEL"]%js →
  (∀ acc params v, set_property legacy_date (store acc) key params v =
     store (acc ++ [new_entry params v])) →
  Forall entry_ok l → eff (store acc) (map (entry_line key) l) (store (acc ++ map bare l)).
Proof.
  intros Hk Hs Hl. revert acc. induction Hl as [|e l [Ht Hv] Hl IH]; intros acc; simpl.
  { rewrite app_nil_r. apply effect_nil. }
  destruct (typed_key key (en_type e)) as (H1 & H2 & H3); [set_solver|done|].
  apply (effect_app legacy_date (store acc) [entry_line key e] (store (acc ++ [bare e]))).
  - assert (entry_line key e = (key ++ ";TYPE="%js ++ toUpperCase (en_type e)) ++ ":"%char :: en_value e)
      as -> by (unfold entry_line; by rewrite <- !app_assoc).
    apply effect_one; [done|done|].
    rewrite H2, Hs. unfold new_entry, bare. by rewrite H3.
  - replace (acc ++ bare e :: map bare l) with ((acc ++ [bare e]) ++ map bare l)
      by (by rewrite <- app_assoc). apply IH.
Qed.

Definition bare_address (a : PostalAddress) : PostalAddress := {|
  pa_type := pa_type a; street := norm (street a); city := norm (city a); state := norm (state a);
  postalCode := norm (postalCode a); country := norm (country a); formatted := None;
  pa_isPrimary := None |}.

(** A word of a structured value. *)
Definition word_ok (o : option jsstr) : Prop := (";"%char ∉ or_empty o) ∧ (newline ∉ or_empty o).

Definition address_ok (a : PostalAddress) : Prop :=
  pa_type a ∈ known_types ∧
  Forall word_ok [street a; city a; state a; postalCode a; country a].

Lemma structured l :
  l ≠ [] → Forall word_ok l →
  split ";" (join ";"%js (map or_empty l)) = map or_empty l ∧
  newline ∉ join ";"%js (map or_empty l).
Proof.
  intros Hl Hok. split.
  - apply split_join; [by destruct l|]. clear Hl. induction Hok as [|o l [Ho _] _ IH]; by constructor.
  - clear Hl. intros Hin. assert (Forall (λ a, a ≠ newline) (join ";"%js (map or_empty l))) as H.
    { apply join_Forall; [by repeat constructor|]. intros w (o & <- & Ho)%list_elem_of_In%in_map_iff.
      apply list_elem_of_In in Ho. rewrite Forall_forall in Hok. destruct (Hok o Ho) as [_ Hn].
      apply Forall_forall. intros a Ha ->. done. }
    rewrite Forall_forall in H. by apply (H newline Hin).
Qed.

Lemma eff_addresses (store : list PostalAddress → ContactRequest) acc l :
  (∀ acc params v, set_property legacy_date (store acc) "ADR"%js params v =
     store (acc ++ [{| pa_type := type_of params; street := word_or_undefined (split ";" v) 2;
       city := word_or_undefined (split ";" v) 3; state := word_or_undefined (split ";" v) 4;
       postalCode := word_or_undefined (split ";" v) 5; country := word_or_undefined (split ";" v) 6;
       formatted := None; pa_isPrimary := None |}])) →
  Forall address_ok l → eff (store acc) (map address_line l) (store (acc ++ map bare_address l)).
Proof.
  intros Hs Hl. revert acc. induction Hl as [|a l [Ht Hw] Hl IH]; intros acc; simpl.
  { rewrite app_nil_r. apply effect_nil. }
  destruct (typed_key "ADR"%js (pa_type a)) as (H1 & H2 & H3); [set_solver|done|].
  destruct (structured [None; None; street a; city a; state a; postalCode a; country a]) as [Hsp Hn].
  { done. } { by do 2 (constructor; [split; apply not_elem_of_nil|]). }
  apply (effect_app legacy_date (store acc) [address_line a] (store (acc ++ [bare_address a]))).
  - assert (address_line a = ("ADR"%js ++ ";TYPE="%js ++ toUpperCase (pa_type a)) ++ ":"%char ::
      join ";"%js (map or_empty [None; None; street a; city a; state a; postalCode a; country a]))
      as -> by (unfold address_line; by rewrite <- !app_assoc).
    apply effect_one; [done|done|].
    rewrite H2, Hs. do 3 f_equal. rewrite Hsp, H3. unfold bare_address. f_equal; by apply word_norm.
  - replace (acc ++ bare_address a :: map bare_address l) with
      ((acc ++ [bare_address a]) ++ map bare_address l) by (by rewrite <- app_assoc). apply IH.
Qed.
End Segments.

(** ** Notes: lemmas *)

Definition note_ok (s : jsstr) : Prop := ("\"%char ∉ s) ∧ (";"%char ∉ s).

Definition escape_comma (a : ascii) : jsstr := if bool_decide (a = ","%char) then "\,"%js else [a].

Definition escape_both (a : ascii) : jsstr :=
  if bool_decide (a = newline) then "\n"%js else escape_comma a.

Lemma escape_note s : note_ok s → escapeVCardValue s = flat_map escape_both s.
Proof.
  intros [Hb Hs]. unfold escapeVCardValue. rewrite (replace_char_fresh "\") by done.
  assert (re_replace_all (rchar ",") (λ _, "\,"%js) s = flat_map escape_comma s) as ->.
  { unfold rchar. rewrite re_replace_class. apply flat_map_ext. intros a. unfold is_ch, escape_comma.
    by repeat case_bool_decide; subst. }
  rewrite (replace_char_fresh ";").
  - unfold rchar. rewrite re_replace_class. clear Hb Hs. induction s as [|a s IH]; [done|]. simpl.
    rewrite flat_map_app, IH. f_equal. unfold escape_both, escape_comma, is_ch.
    destruct (decide (a = newline)) as [->|Hn]; [done|]. rewrite (bool_decide_false (a = newline)) by done.
    case_bool_decide; simpl; [done|]. by rewrite bool_decide_false.
  - intros Hin. apply list_elem_of_In, in_flat_map in Hin as (a & Ha & Hin).
    apply list_elem_of_In in Ha, Hin. unfold escape_comma in Hin.
    case_bool_decide; [|apply list_elem_of_singleton in Hin; congruence].
    by repeat (apply elem_of_cons in Hin as [Hin|Hin]; [done|]); apply not_elem_of_nil in Hin.
Qed.

Lemma unescape_escape s : note_ok s → unescape_note (escapeVCardValue s) = s.
Proof.
  intros Hs. rewrite escape_note by done. destruct Hs as [Hb _]. unfold unescape_note.
  change (rlit "\n"%js) with (rlit ["\"; "n"]%char).
  change (rlit "\,"%js) with (rlit ["\"; ","]%char). rewrite !re_replace_lit2.
  assert (replace2 "\" "n" [newline] (flat_map escape_both s) = flat_map escape_comma s) as ->.
  { induction s as [|a s IH]; [done|]. apply not_elem_of_cons in Hb as [Ha Hb]. simpl.
    unfold escape_both at 1, escape_comma at 1 2. case_bool_decide as E1; [subst a|case_bool_decide as E2; [subst a|]].
    - change ("\n"%js ++ ?t) with ("\"%char :: "n"%char :: t). rewrite replace2_hit, IH by done. done.
    - change ("\,"%js ++ ?t) with ("\"%char :: ","%char :: t).
      rewrite replace2_miss, replace2_skip, IH by done. done.
    - simpl app. rewrite replace2_skip, IH by done. done. }
  induction s as [|a s IH]; [done|]. apply not_elem_of_cons in Hb as [Ha Hb]. simpl.
  unfold escape_comma at 1. case_bool_decide as E1; [subst a|].
  - change ("\,"%js ++ ?t) with ("\"%char :: ","%char :: t). rewrite replace2_hit, IH by done. done.
  - simpl app. rewrite replace2_skip, IH by done. done.
Qed.

(** ** The round trip *)

Section RoundTrip.
Context {tz : TimeZone} (legacy_date : jsstr → option Z).
Abbreviation eff := (effect legacy_date).

(** The contacts the format can carry: no separator in the structured or escaped fields (the
    parser does not undo the escapes, but for commas and line ends of notes), no line end in the
    others, known types, years of four digits. *)
Record exportable (c : Contact) : Prop := {
  ex_uid : newline ∉ ct_uid c;
  ex_names : Forall word_ok [ct_lastName c; ct_firstName c; ct_middleName c; ct_prefix c; ct_suffix c];
  ex_texts : Forall clean_opt [ct_nickname c; ct_company c; ct_department c; ct_jobTitle c];
  ex_emails : Forall entry_ok (ct_emails c);
  ex_phones : Forall entry_ok (ct_phones c);
  ex_addresses : Forall address_ok (ct_addresses c);
  ex_birthday : ∀ d, ct_birthday c = Some d → date_ok d;
  ex_anniversary : ∀ d, ct_anniversary c = Some d → date_ok d;
  ex_website : newline ∉ or_empty (ct_website c);
  ex_notes : note_ok (or_empty (ct_notes c));
  ex_labels : Forall (λ l, trim l = l ∧ (","%char ∉ l) ∧ (newline ∉ l)) (ct_labels c);
}.

(** Midnight UTC of the local calendar day. *)
Definition day_of (t : Z) : Z := (msPerDay * Day (LocalTime t))%Z.

Definition restored (c : Contact) : ContactRequest := {|
  prefix := norm (ct_prefix c); firstName := norm (ct_firstName c);
  middleName := norm (ct_middleName c); lastName := norm (ct_lastName c);
  suffix := norm (ct_suffix c); nickname := norm (ct_nickname c); company := norm (ct_company c);
  jobTitle := norm (ct_jobTitle c); department := norm (ct_department c);
  emails := Some (map bare (ct_emails c)); phones := Some (map bare (ct_phones c));
  addresses := Some (map bare_address (ct_addresses c));
  birthday := (λ d, Some (day_of d)) <$> ct_birthday c;
  anniversary := (λ d, Some (day_of d)) <$> ct_anniversary c;
  website := norm (ct_website c); notes := norm (ct_notes c); labels := Some (ct_labels c) |}.

(** Evaluate the switch of the parser on a closed key. *)
Ltac run_switch := unfold set_property; decide_closed; cbv beta iota zeta.

Ltac plain_line k :=
  apply (eff_plain legacy_date _ k); [vm_compute; reflexivity| |run_switch].

Lemma eff_ignored c key v :
  key ∈ ["VERSION"; "UID"; "FN"; "REV"]%js → newline ∉ v → eff c [key ++ ":"%char :: v] c.
Proof.
  intros Hk Hv. destruct c.
  repeat (apply elem_of_cons in Hk as [->|Hk]; [apply eff_plain; [vm_compute; reflexivity|done|reflexivity]|]).
  by apply not_elem_of_nil in Hk.
Qed.

Lemma eff_names c0 c :
  Forall word_ok [ct_lastName c; ct_firstName c; ct_middleName c; ct_prefix c; ct_suffix c] →
  let '(Build_ContactRequest _ _ _ _ _ ni co jo de em ph ad bi an we no lb) := c0 in
  eff c0 ["N:"%js ++ join ";"%js [or_empty (ct_lastName c); or_empty (ct_firstName c);
     or_empty (ct_middleName c); or_empty (ct_prefix c); or_empty (ct_suffix c)]]
    (Build_ContactRequest (norm (ct_prefix c)) (norm (ct_firstName c)) (norm (ct_middleName c))
       (norm (ct_lastName c)) (norm (ct_suffix c)) ni co jo de em ph ad bi an we no lb).
Proof.
  intros Hok. destruct c0. apply structured in Hok as [Hs Hn]; [|done].
  change ("N:"%js ++ ?v) with ("N"%js ++ ":"%char :: v). plain_line "N"%js; [done|].
  change (map or_empty _) with [or_empty (ct_lastName c); or_empty (ct_firstName c);
     or_empty (ct_middleName c); or_empty (ct_prefix c); or_empty (ct_suffix c)] in Hs.
  rewrite Hs. f_equal; by apply word_norm.
Qed.

Lemma clean_some o s : clean_opt o → o = Some s → clean s.
Proof. intros H ->. unfold clean_opt, or_empty in H. simpl in H. destruct s; [constructor|done]. Qed.

Lemma eff_org pr fi mi la su ni jo em ph ad bi an we no lb co de :
  clean_opt co → clean_opt de →
  eff (Build_ContactRequest pr fi mi la su ni None jo None em ph ad bi an we no lb)
    (if opt_truthy co || opt_truthy de then
       ["ORG:"%js ++ escapeVCardValue (or_empty co) ++ ";"%js ++ escapeVCardValue (or_empty de)] else [])
    (Build_ContactRequest pr fi mi la su ni (norm co) jo (norm de) em ph ad bi an we no lb).
Proof.
  intros Hc Hd. destruct (opt_truthy co || opt_truthy de) eqn:E.
  - rewrite !escape_clean by done.
    change ("ORG:"%js ++ ?v) with ("ORG"%js ++ ":"%char :: v). plain_line "ORG"%js.
    + rewrite !not_elem_of_app. split; [by apply clean_newline|]. split; [|by apply clean_newline].
      by intros ?%list_elem_of_singleton.
    + change (";"%js ++ ?v) with (";"%char :: v).
      rewrite split_app_sep, split_no_sep by (apply clean_no; [unfold special; set_solver|done]).
      f_equal; by apply word_norm.
  - apply orb_false_elim in E as [E1 E2]. unfold norm. rewrite E1, E2. apply effect_nil.
Qed.

(** A date line; the setter is [store]. *)
Lemma eff_date key (store : option (option Z) → ContactRequest) o :
  plain_key key = true → (∀ d, o = Some d → date_ok d) →
  (∀ v, set_property legacy_date (store None) key [] v = store (parseVCardDate legacy_date v)) →
  eff (store None) (match o with Some d => [key ++ ":"%char :: formatVCardDate d] | None => [] end)
    (store ((λ d, Some (day_of d)) <$> o)).
Proof.
  intros Hk Hd Hs. destruct o as [d|]; [|apply effect_nil]. apply eff_plain; [done|..].
  - apply formatVCardDate_newline.
  - rewrite Hs, date_read_back; [done|]. by apply Hd.
Qed.

Lemma eff_labels pr fi mi la su ni co jo de em ph ad bi an we no l :
  Forall (λ l, trim l = l ∧ (","%char ∉ l) ∧ (newline ∉ l)) l →
  eff (Build_ContactRequest pr fi mi la su ni co jo de em ph ad bi an we no (Some []))
    (categories_line l)
    (Build_ContactRequest pr fi mi la su ni co jo de em ph ad bi an we no (Some l)).
Proof.
  intros Hl. destruct l as [|w l]; [apply effect_nil|].
  unfold categories_line. change ("CATEGORIES:"%js ++ ?v) with ("CATEGORIES"%js ++ ":"%char :: v).
  plain_line "CATEGORIES"%js.
  - assert (Forall (λ a, a ≠ newline) (join ","%js (w :: l))) as H.
    { apply join_Forall; [by repeat constructor|]. intros x Hx. rewrite Forall_forall in Hl.
      destruct (Hl x Hx) as (_ & _ & Hn). apply Forall_forall. by intros a Ha ->. }
    intros Hin. rewrite Forall_forall in H. by apply (H newline Hin).
  - rewrite split_join; [|done|]; [|eapply Forall_impl; [exact Hl|]; by intros x (_ & ? & _)].
    do 2 f_equal. rewrite <- (map_id (w :: l)) at 2. apply map_ext_Forall.
    eapply Forall_impl; [exact Hl|]. by intros x (? & _).
Qed.

(** The lines between the delimiters. *)
Definition body (c : Contact) : list jsstr :=
  ["VERSION:3.0"%js] ++ (["UID:"%js ++ ct_uid c] ++
  (["N:"%js ++ join ";"%js [or_empty (ct_lastName c); or_empty (ct_firstName c);
     or_empty (ct_middleName c); or_empty (ct_prefix c); or_empty (ct_suffix c)]] ++
  (["FN:"%js ++ escapeVCardValue (displayName c)] ++
  (line_if "NICKNAME:"%js escapeVCardValue (ct_nickname c) ++
  ((if opt_truthy (ct_company c) || opt_truthy (ct_department c) then
     ["ORG:"%js ++ escapeVCardValue (or_empty (ct_company c)) ++ ";"%js ++
      escapeVCardValue (or_empty (ct_department c))] else []) ++
  (line_if "TITLE:"%js escapeVCardValue (ct_jobTitle c) ++
  (map (entry_line "EMAIL"%js) (ct_emails c) ++
  (map (entry_line "TEL"%js) (ct_phones c) ++
  (map address_line (ct_addresses c) ++
  (match ct_birthday c with Some d => ["BDAY"%js ++ ":"%char :: formatVCardDate d] | None => [] end ++
  (match ct_anniversary c with
   | Some d => ["ANNIVERSARY"%js ++ ":"%char :: formatVCardDate d] | None => [] end ++
  (line_if "URL:"%js (λ s, s) (ct_website c) ++
  (line_if "NOTE:"%js escapeVCardValue (ct_notes c) ++
  (categories_line (ct_labels c) ++
  ["REV:"%js ++ formatVCardDate (ct_updatedAt c)])))))))))))))).

Lemma vcard_lines_body c : vcard_lines c = "BEGIN:VCARD"%js :: body c ++ ["END:VCARD"%js].
Proof. unfold vcard_lines, body. rewrite <- !app_assoc. reflexivity. Qed.

Lemma eff_clean_line key (store : option jsstr → ContactRequest) o :
  plain_key key = true → clean_opt o →
  (∀ s, set_property legacy_date (store None) key [] s = store (Some s)) →
  eff (store None) (line_if (key ++ ":"%js) escapeVCardValue o) (store (norm o)).
Proof.
  intros Hk Hc Hs. apply eff_line_if; [done|]. intros s Ho. split; [apply escape_newline|].
  rewrite escape_clean; [done|]. by eapply clean_some.
Qed.

(** The contact after the name line. *)
Abbreviation stage c := (Build_ContactRequest (norm (ct_prefix c)) (norm (ct_firstName c))
  (norm (ct_middleName c)) (norm (ct_lastName c)) (norm (ct_suffix c))).

Lemma eff_body_texts c :
  exportable c → eff empty_request
    (["VERSION:3.0"%js] ++ (["UID:"%js ++ ct_uid c] ++
     (["N:"%js ++ join ";"%js [or_empty (ct_lastName c); or_empty (ct_firstName c);
        or_empty (ct_middleName c); or_empty (ct_prefix c); or_empty (ct_suffix c)]] ++
     (["FN:"%js ++ escapeVCardValue (displayName c)] ++
     (line_if "NICKNAME:"%js escapeVCardValue (ct_nickname c) ++
     ((if opt_truthy (ct_company c) || opt_truthy (ct_department c) then
        ["ORG:"%js ++ escapeVCardValue (or_empty (ct_company c)) ++ ";"%js ++
         escapeVCardValue (or_empty (ct_department c))] else []) ++
      line_if "TITLE:"%js escapeVCardValue (ct_jobTitle c)))))))
    (stage c (norm (ct_nickname c)) (norm (ct_company c)) (norm (ct_jobTitle c))
       (norm (ct_department c)) (Some []) (Some []) (Some []) None None None None (Some [])).
Proof.
  intros [Hu Hn Ht _ _ _ _ _ _ _ _]. rewrite !Forall_cons in Ht. destruct Ht as (T1 & T2 & T3 & T4 & _).
  eapply effect_app.
  { apply (eff_ignored _ "VERSION"%js "3.0"%js); [set_solver|].
    apply (bool_decide_unpack _). vm_compute. exact I. }
  eapply effect_app; [by apply (eff_ignored _ "UID"%js); [set_solver|]|].
  eapply effect_app; [by apply (eff_names empty_request c)|].
  eapply effect_app; [by apply (eff_ignored _ "FN"%js); [set_solver|apply escape_newline]|].
  eapply effect_app.
  { by apply (eff_clean_line "NICKNAME"%js
      (λ x, stage c x None None None (Some []) (Some []) (Some []) None None None None (Some []))). }
  eapply effect_app; [by apply eff_org|].
  by apply (eff_clean_line "TITLE"%js (λ x, stage c (norm (ct_nickname c)) (norm (ct_company c)) x
    (norm (ct_department c)) (Some []) (Some []) (Some []) None None None None (Some []))).
Qed.

Lemma eff_body_rest c ni co jo de :
  exportable c → eff
    (stage c ni co jo de (Some []) (Some []) (Some []) None None None None (Some []))
    (map (entry_line "EMAIL"%js) (ct_emails c) ++
     (map (entry_line "TEL"%js) (ct_phones c) ++
     (map address_line (ct_addresses c) ++
     (match ct_birthday c with Some d => ["BDAY"%js ++ ":"%char :: formatVCardDate d] | None => [] end ++
     (match ct_anniversary c with
      | Some d => ["ANNIVERSARY"%js ++ ":"%char :: formatVCardDate d] | None => [] end ++
     (line_if "URL:"%js (λ s, s) (ct_website c) ++
     (line_if "NOTE:"%js escapeVCardValue (ct_notes c) ++
     (categories_line (ct_labels c) ++
     ["REV:"%js ++ formatVCardDate (ct_updatedAt c)]))))))))
    (stage c ni co jo de (Some (map bare (ct_emails c))) (Some (map bare (ct_phones c)))
       (Some (map bare_address (ct_addresses c)))
       ((λ d, Some (day_of d)) <$> ct_birthday c) ((λ d, Some (day_of d)) <$> ct_anniversary c)
       (norm (ct_website c)) (norm (ct_notes c)) (Some (ct_labels c))).
Proof.
  intros [_ _ _ He Hp Ha Hb Hv Hw Ho Hl].
  set (E := Some (map bare (ct_emails c))). set (P := Some (map bare (ct_phones c))).
  set (A := Some (map bare_address (ct_addresses c))).
  set (B := (λ d, Some (day_of d)) <$> ct_birthday c).
  set (V := (λ d, Some (day_of d)) <$> ct_anniversary c).
  eapply effect_app; [by apply (eff_entries _ "EMAIL"%js (λ x, stage c ni co jo de (Some x)
    (Some []) (Some []) None None None None (Some [])) []); [set_solver| |]|].
  eapply effect_app; [by apply (eff_entries _ "TEL"%js (λ x, stage c ni co jo de E
    (Some x) (Some []) None None None None (Some [])) []); [set_solver| |]|].
  eapply effect_app; [by apply (eff_addresses _ (λ x, stage c ni co jo de E P (Some x)
    None None None None (Some [])) [])|].
  eapply effect_app; [by apply (eff_date "BDAY"%js (λ x, stage c ni co jo de E P A x
    None None None (Some [])))|].
  eapply effect_app; [by apply (eff_date "ANNIVERSARY"%js (λ x, stage c ni co jo de E P A B x
    None None (Some [])))|].
  eapply effect_app.
  { apply (eff_line_if _ "URL"%js (λ s, s) (λ x, stage c ni co jo de E P A B V x None (Some []))); [done|].
    intros s Hs. split; [|done]. rewrite Hs in Hw. by destruct s. }
  eapply effect_app.
  { apply (eff_line_if _ "NOTE"%js escapeVCardValue
      (λ x, stage c ni co jo de E P A B V (norm (ct_website c)) x (Some []))); [done|].
    intros s Hs. split; [apply escape_newline|]. rewrite Hs in Ho.
    assert (note_ok s) by (by destruct s). run_switch. by rewrite unescape_escape. }
  eapply effect_app; [by apply eff_labels|].
  apply (eff_ignored _ "REV"%js); [set_solver|apply formatVCardDate_newline].
Qed.

Lemma eff_body c : exportable c → eff empty_request (body c) (restored c).
Proof.
  intros Hc. pose proof (effect_app _ _ _ _ _ _ (eff_body_texts c Hc) (eff_body_rest c _ _ _ _ Hc)) as H.
  rewrite <- !app_assoc in H. exact H.
Qed.

(** C36: Importing the vCard of an exportable contact gives back its fields: names, company, title,
    addresses and numbers in order with their types, labels, notes with commas and line ends, and
    birthdays as midnight UTC of their local day. *)
Theorem parseVCard_generateVCard c :
  exportable c → parseVCard legacy_date (generateVCard c) = restored c.
Proof.
  intros Hc. pose proof (eff_body c Hc) as Heff. unfold parseVCard, generateVCard, logical_lines.
  rewrite vcard_lines_body.
  assert (Forall (λ l, folded l = false ∧ newline ∉ l) (body c ++ ["END:VCARD"%js])) as Hall.
  { apply Forall_app. split.
    - destruct Heff as [_ H]. eapply Forall_impl; [exact H|]. by intros l (_ & _ & ? & ?).
    - constructor; [|constructor]. split; [by rewrite folded_head|].
      apply (bool_decide_unpack _). vm_compute. exact I. }
  rewrite re_split_lines.
  - rewrite join_folded_id; [|eapply Forall_impl; [exact Hall|]; by intros l [? _]].
    change (parse_lines legacy_date false empty_request ("BEGIN:VCARD"%js :: body c ++ ["END:VCARD"%js]))
      with (parse_lines legacy_date true empty_request (body c ++ ["END:VCARD"%js])).
    by apply parse_ordinary_lines.
  - done.
  - constructor; [apply (bool_decide_unpack _); vm_compute; exact I|].
    eapply Forall_impl; [exact Hall|]. by intros l [_ ?].
  - by destruct (body c).
Qed.
End RoundTrip.

(** ** Witnesses *)

Definition ex_card (nick note : jsstr) (bday : option Z) : Contact := {|
  ct_id := "1"%js; ct_ownerId := "o"%js; ct_uid := "u@x"%js; ct_prefix := None;
  ct_firstName := Some "Ann"%js; ct_middleName := None; ct_lastName := Some "Lee"%js;
  ct_suffix := None; ct_nickname := Some nick; displayName := "Ann Lee"%js;
  ct_company := Some "Lurus"%js; ct_jobTitle := None; ct_department := None;
  ct_emails := [{| en_type := "work"%js; en_value := "ann@x.io"%js; en_isPrimary := Some true |}];
  ct_phones := []; ct_addresses := [{| pa_type := "home"%js; street := Some "1 Main St"%js;
    city := Some "Oslo"%js; state := None; postalCode := None; country := None; formatted := None;
    pa_isPrimary := None |}];
  ct_birthday := bday; ct_anniversary := None; ct_website := None; ct_notes := Some note;
  ct_photoUrl := None; ct_labels := ["vip"; "team a"]%js; ct_isFavorite := false;
  ct_createdAt := 0; ct_updatedAt := 0 |}.

Definition no_legacy : jsstr → option Z := λ _, None.

Lemma parseVCard_generateVCard_witness :
  parseVCard (tz := fixed_zone 0) no_legacy
    (generateVCard (tz := fixed_zone 0) (ex_card "An"%js "a, b"%js (Some 642902400000%Z))) =
  restored (tz := fixed_zone 0) (ex_card "An"%js "a, b"%js (Some 642902400000%Z)).
Proof.
  apply (parseVCard_generateVCard (tz := fixed_zone 0) no_legacy). split;
    try (apply (bool_decide_unpack _); vm_compute; exact I);
    try (intros d Hd; injection Hd as <-; vm_compute; split; [intros H; discriminate|reflexivity]);
    try (intros d Hd; discriminate).
Defined.

(** The escapes of the other fields are not undone: a comma comes back with its backslash. *)
Lemma nickname_not_unescaped :
  nickname (parseVCard (tz := fixed_zone 0) no_legacy
    (generateVCard (tz := fixed_zone 0) (ex_card "Lee, Ann"%js "n"%js None))) = Some "Lee\, Ann"%js.
Proof. vm_compute. reflexivity. Qed.

(** West of Greenwich a birthday moves to the day before each time a contact is exported and
    imported: it is written as a local day and read as midnight UTC. *)
Lemma birthday_drifts :
  let tz := fixed_zone (-5 * 3600000) in
  let local_midnight := (642902400000 + 5 * 3600000)%Z in
  formatVCardDate (tz := tz) local_midnight = "1990-05-17"%js ∧
  birthday (parseVCard (tz := tz) no_legacy (generateVCard (tz := tz)
    (ex_card "An"%js "n"%js (Some local_midnight)))) = Some (Some 642902400000%Z) ∧
  formatVCardDate (tz := tz) 642902400000 = "1990-05-16"%js.
Proof. vm_compute. auto. Qed.

(** Any text before the first card is imported as an empty contact. *)
Lemma preamble_is_a_contact :
  parseVCards (tz := fixed_zone 0) no_legacy ("exported"%js ++ crlf ++ "BEGIN:VCARD"%js ++ crlf ++
    "TITLE:Dr"%js ++ crlf ++ "END:VCARD"%js) =
  [empty_request; set_property (tz := fixed_zone 0) no_legacy empty_request "TITLE"%js [] "Dr"%js].
Proof. vm_compute. reflexivity. Qed.
