(* ===== verification/QueryParser.v ===== *)
(** * Search: the query language ([apps/web/lib/search/query-parser.ts])

    [now] is the current instant and [date_parse] is [Date.parse] ([None] is NaN). *)

From stdpp Require Import base list.
From S2P Require Import Prelude JsString JsRegex JsNumber EmailPattern JsDate.

Record SearchFilter := { f_type : jsstr; f_value : jsstr; f_negated : option bool }.
Record ParsedQuery := { filters : list SearchFilter; freeText : jsstr }.

#[export] Instance SearchFilter_eq_dec : EqDecision SearchFilter.
Proof. solve_decision. Defined.
#[export] Instance ParsedQuery_eq_dec : EqDecision ParsedQuery.
Proof. solve_decision. Defined.

(** ** Sizes *)

Definition SIZE_UNITS : list (jsstr * Z) :=
  [("b", 1); ("kb", 1024); ("k", 1024); ("mb", 1024 * 1024); ("m", 1024 * 1024);
   ("gb", 1024 * 1024 * 1024); ("g", 1024 * 1024 * 1024)]%js%Z.

(** [/^(\d+(?:\.\d+)?)\s*(b|kb?|mb?|gb?)?$/i] *)
Definition size_re : regex :=
  rseq [RBegin;
        RGroup 1 (RSeq (rplus (RChr is_digit)) (ropt (RSeq (rchar ".") (rplus (RChr is_digit)))));
        rstar (RChr is_space);
        ropt (RGroup 2 (ralt [rlit_ci "b"; rseq [rlit_ci "k"; ropt (rlit_ci "b")];
          rseq [rlit_ci "m"; ropt (rlit_ci "b")]; rseq [rlit_ci "g"; ropt (rlit_ci "b")]]%js));
        REnd].

(** [None] is [null]; the number is what [Math.floor] gives ([None]: not finite). *)
Definition parseSize (value : jsstr) : option (option Z) :=
  match re_exec size_re value with
  | None => None
  | Some m =>
      let n := string_to_number (default [] (group 1 (rm_caps m))) in
      let unit := toLowerCase (opt_or (group 2 (rm_caps m)) "b"%js) in
      let multiplier := default 1%Z (jm_get unit SIZE_UNITS) in
      Some (num_floor (num_mul n (num_of_Z multiplier)))
  end.

Definition size_text (z : option Z) : jsstr :=
  match z with Some z => number_to_string (num_of_Z z) | None => "Infinity"%js end.

(** ** Dates *)

Definition rdigits (n k : nat) : regex := RGroup n (rtimes k (RChr is_digit)).

Definition ymd_dash_re : regex :=
  rseq [RBegin; rdigits 1 4; rchar "-"; rdigits 2 2; rchar "-"; rdigits 3 2; REnd].
Definition ymd_slash_re : regex :=
  rseq [RBegin; rdigits 1 4; rchar "/"; rdigits 2 2; rchar "/"; rdigits 3 2; REnd].
Definition mdy_slash_re : regex :=
  rseq [RBegin; rdigits 1 2; rchar "/"; rdigits 2 2; rchar "/"; rdigits 3 4; REnd].

Definition int_group (n : nat) (m : rmatch_info) : Z :=
  default 0%Z (parseInt (default [] (group n (rm_caps m)))).

Definition relative : list (jsstr * Z) :=
  [("today", 0); ("yesterday", 1); ("1d", 1); ("7d", 7); ("1w", 7); ("30d", 30); ("1m", 30);
   ("90d", 90); ("3m", 90); ("1y", 365)]%js%Z.

(** Lower-case names every plain object inherits: [name in relative] holds for them too, and
    what they name is not a number. *)
Definition inherited : list jsstr := ["constructor"; "__proto__"]%js.

Section WithZone.
Context {tz : TimeZone} (now : Z) (date_parse : jsstr → option Z).

(** [None] is [null], [Some None] the invalid date. *)
Definition parseDate (value : jsstr) : option (option Z) :=
  match re_exec ymd_dash_re value with
  | Some m => Some (Some (new_Date_ymd (int_group 1 m) (int_group 2 m - 1) (int_group 3 m)))
  | None =>
  match re_exec ymd_slash_re value with
  | Some m => Some (Some (new_Date_ymd (int_group 1 m) (int_group 2 m - 1) (int_group 3 m)))
  | None =>
  match re_exec mdy_slash_re value with
  | Some m => Some (Some (new_Date_ymd (int_group 3 m) (int_group 1 m - 1) (int_group 2 m)))
  | None =>
      let lower := toLowerCase value in
      match jm_get lower relative with
      | Some daysAgo => Some (Some (setDate now (getDate now - daysAgo)))
      | None => if bool_decide (lower ∈ inherited) then Some None else None
      end
  end end end.

(** ** [parseSearchQuery] *)

(** [operatorRegex]: an optional dash, a word, a colon, then a quoted text (group 3) or a run of
    characters that are not blank (group 4). *)
Definition operatorRegex : regex :=
  rseq [RGroup 1 (ropt (rchar "-")); RGroup 2 (rplus (RChr is_word)); rchar ":";
        RAlt (rseq [rchar dquote; RGroup 3 (rplus (rnot (is_ch dquote))); rchar dquote])
             (RGroup 4 (rplus (RChr (λ a, negb (is_space a)))))].

(** [phraseRegex]: a text between double quotes. *)
Definition phraseRegex : regex :=
  rseq [rchar dquote; RGroup 1 (rplus (rnot (is_ch dquote))); rchar dquote].

Definition all_matches (r : regex) (s : jsstr) : list rmatch_info := (re_scan_all r s).1.*2.

Definition cap (n : nat) (m : rmatch_info) : jsstr := default [] (group n (rm_caps m)).

(** [match[3] || match[4]] *)
Definition operator_value (m : rmatch_info) : jsstr := opt_or (group 3 (rm_caps m)) (cap 4 m).

(** The switch on one operator: the filters it adds, [None] when [toISOString] throws.  The text
    the default case adds to [freeText] is overwritten at the end of the function. *)
Definition operator_filters (negated : bool) (operator value : jsstr) : option (list SearchFilter) :=
  let filter v := {| f_type := operator; f_value := v; f_negated := Some negated |} in
  if bool_decide (operator ∈ ["from"; "to"; "subject"; "label"; "in"]%js) then Some [filter value]
  else if bool_decide (operator = "has"%js) then
    if bool_decide (value ∈ ["attachment"; "attachments"]%js) then Some [filter "attachment"%js]
    else Some []
  else if bool_decide (operator = "is"%js) then
    if bool_decide (value ∈ ["unread"; "read"; "starred"; "flagged"]%js) then Some [filter value]
    else Some []
  else if bool_decide (operator ∈ ["after"; "before"]%js) then
    match parseDate value with
    | Some (Some d) => Some [filter (iso_date d)]
    | Some None => None
    | None => Some []
    end
  else if bool_decide (operator ∈ ["larger"; "smaller"]%js) then
    match parseSize value with Some z => Some [filter (size_text z)] | None => Some [] end
  else Some [].

Definition match_filters (m : rmatch_info) : option (list SearchFilter) :=
  operator_filters (bool_decide (cap 1 m = "-"%js)) (toLowerCase (cap 2 m)) (operator_value m).

(** [None]: a RangeError. *)
Definition parseSearchQuery (query : jsstr) : option ParsedQuery :=
  let phrases := map (cap 1) (all_matches phraseRegex query) in
  let processedQuery := re_replace_all phraseRegex (λ _, []) query in
  fs ← mapM match_filters (all_matches operatorRegex processedQuery);
  let processedQuery := trim (re_replace_all operatorRegex (λ _, []) processedQuery) in
  let textParts := List.filter truthy (processedQuery :: phrases) in
  Some {| filters := concat fs; freeText := trim (join " "%js textParts) |}.

(** ** [formatSearchQuery] *)

Definition format_filter (f : SearchFilter) : jsstr :=
  (if default false (f_negated f) then "-"%js else []) ++ f_type f ++ ":"%js ++
  (if includes (f_value f) " "%js then quoted (f_value f) else f_value f).

Definition formatSearchQuery (parsed : ParsedQuery) : jsstr :=
  join " "%js (map format_filter (filters parsed) ++
    (if truthy (freeText parsed) then [freeText parsed] else [])).

(** ** [toTypesenseFilter] *)

(** [new Date(value).getTime() / 1000] as text *)
Definition seconds_text (value : jsstr) : jsstr :=
  match date_parse value with
  | Some t => number_to_string (num_div (num_of_Z t) (num_of_Z 1000))
  | None => "NaN"%js
  end.

Definition bool_text (b : bool) : jsstr := if b then "true"%js else "false"%js.

Definition typesense_condition (f : SearchFilter) : list jsstr :=
  let negated := default false (f_negated f) in
  let v := f_value f in
  if bool_decide (f_type f = "from"%js) then ["fromEmail:"%js ++ v]
  else if bool_decide (f_type f = "to"%js) then ["toEmail:"%js ++ v]
  else if bool_decide (f_type f = "is"%js) then
    if bool_decide (v = "unread"%js) then ["isRead:"%js ++ bool_text negated]
    else if bool_decide (v = "read"%js) then ["isRead:"%js ++ bool_text (negb negated)]
    else if bool_decide (v ∈ ["starred"; "flagged"]%js) then ["isStarred:"%js ++ bool_text (negb negated)]
    else []
  else if bool_decide (f_type f = "has"%js) then
    if bool_decide (v = "attachment"%js) then ["hasAttachment:"%js ++ bool_text (negb negated)] else []
  else if bool_decide (f_type f = "after"%js) then ["createdAt:>"%js ++ seconds_text v]
  else if bool_decide (f_type f = "before"%js) then ["createdAt:<"%js ++ seconds_text v]
  else if bool_decide (f_type f = "larger"%js) then ["sizeBytes:>"%js ++ v]
  else if bool_decide (f_type f = "smaller"%js) then ["sizeBytes:<"%js ++ v]
  else [].

(** [q] and [filterBy]. *)
Definition toTypesenseFilter (parsed : ParsedQuery) : jsstr * option jsstr :=
  let conditions := flat_map typesense_condition (filters parsed) in
  (js_or (freeText parsed) "*"%js,
   match conditions with [] => None | _ => Some (join " && "%js conditions) end).
End WithZone.

(** ** [highlightQuery] *)

Inductive part_kind := POperator | PValue | PText.
Record HighlightedPart := { hp_kind : part_kind; hp_text : jsstr }.

(** [if (text.trim()) parts.push(...)] *)
Definition text_part (s : jsstr) : list HighlightedPart :=
  if truthy (trim s) then [{| hp_kind := PText; hp_text := trim s |}] else [].

Definition highlightQuery (query : jsstr) : list HighlightedPart :=
  let '(ms, rest) := re_scan_all operatorRegex query in
  flat_map (λ p,
    text_part p.1 ++
    [{| hp_kind := POperator; hp_text := cap 1 p.2 ++ cap 2 p.2 ++ ":"%js |};
     {| hp_kind := PValue; hp_text := operator_value p.2 |}]) ms ++
  text_part rest.

(** ** Reading back a formatted query *)

(** Texts a value can be: no quotes, and no blanks but spaces. *)
Definition writable (v : jsstr) : Prop :=
  v ≠ [] ∧ Forall (λ a, is_space a = true → a = " "%char) v ∧ dquote ∉ v.

#[export] Instance writable_dec v : Decision (writable v).
Proof. unfold writable. apply _. Defined.

(** Values that are formatted with quotes. *)
Definition spaced (f : SearchFilter) : bool := includes (f_value f) " "%js.

(** A filter with an operator as the parser spells it. *)
Definition word_filter (f : SearchFilter) : Prop :=
  f_type f ≠ [] ∧ Forall (λ a, is_word a = true) (f_type f) ∧ toLowerCase (f_type f) = f_type f ∧
  writable (f_value f).

(** The operators whose value is kept as typed. *)
Definition kept_filter (f : SearchFilter) : Prop :=
  f_type f ∈ ["from"; "to"; "subject"; "label"; "in"]%js ∧ writable (f_value f) ∧ is_Some (f_negated f).

#[export] Instance kept_filter_dec f : Decision (kept_filter f).
Proof. unfold kept_filter. apply _. Defined.

Lemma kept_word f : kept_filter f → word_filter f.
Proof.
  intros (Ht & Hv & _). unfold word_filter. repeat (apply elem_of_cons in Ht as [->|Ht];
    [split; [done|]; split; [repeat constructor|by split]|]).
  by apply not_elem_of_nil in Ht.
Qed.

(** Free text without operators and phrases. *)
Definition plain_text (t : jsstr) : Prop := trim t = t ∧ (":"%char ∉ t) ∧ (dquote ∉ t).

(** The operator with its colon, and with its value. *)
Definition stem (f : SearchFilter) : jsstr :=
  (if default false (f_negated f) then "-"%js else []) ++ f_type f ++ ":"%js.
Definition token (f : SearchFilter) : jsstr :=
  (if default false (f_negated f) then "-"%js else []) ++ f_type f ++ ":"%char :: f_value f.

(** What is left of a formatted filter when the phrases are taken out. *)
Definition stripped (f : SearchFilter) : jsstr := if spaced f then stem f else token f.

Lemma format_filter_eq f : format_filter f = if spaced f then stem f ++ quoted (f_value f) else token f.
Proof. unfold format_filter, spaced, stem, token. destruct (includes _ _); by rewrite <- ?app_assoc. Qed.

Lemma words_have_no a (t : jsstr) : is_word a = false → Forall (λ a, is_word a = true) t → a ∉ t.
Proof. intros Ha Ht Hin. rewrite Forall_forall in Ht. apply Ht in Hin. congruence. Qed.

Lemma unspaced_word f : word_filter f → spaced f = false →
  f_value f ≠ [] ∧ Forall (λ a, negb (is_space a) = true) (f_value f) ∧ dquote ∉ f_value f.
Proof.
  intros (_ & _ & _ & Hne & Hv & Hq) Hs. split; [done|]. split; [|done]. apply Forall_forall. intros a Ha.
  destruct (is_space a) eqn:E; [|done]. rewrite Forall_forall in Hv. pose proof (Hv a Ha E) as ->.
  unfold spaced in Hs. apply not_true_iff_false in Hs. by rewrite includes_elem in Hs.
Qed.

Lemma dquote_not_in_stem f : word_filter f → dquote ∉ stem f.
Proof.
  intros (_ & Ht%(words_have_no dquote) & _); [|done]. unfold stem. destruct (default false (f_negated f)); set_solver.
Qed.

Lemma dquote_not_in_token f : word_filter f → dquote ∉ token f.
Proof.
  intros (_ & Ht%(words_have_no dquote) & _ & _ & _ & Hq); [|done]. unfold token.
  destruct (default false (f_negated f)); set_solver.
Qed.

(** The groups of the match of a token that starts at [i]. *)
Definition token_caps (f : SearchFilter) : caps :=
  [(4, f_value f); (2, f_type f); (1, if default false (f_negated f) then "-"%js else [])].

(** The pattern after the optional dash. *)
Definition operator_tail : regex :=
  rseq [RGroup 2 (rplus (RChr is_word)); rchar ":";
        RAlt (rseq [rchar dquote; RGroup 3 (rplus (rnot (is_ch dquote))); rchar dquote])
             (RGroup 4 (rplus (RChr (λ a, negb (is_space a)))))].

Lemma operator_tail_hit j t v rest c :
  t ≠ [] → Forall (λ a, is_word a = true) t →
  v ≠ [] ∧ Forall (λ a, negb (is_space a) = true) v ∧ dquote ∉ v →
  (∀ a, head rest = Some a → is_space a = true) →
  rmatch operator_tail j (t ++ ":"%char :: v ++ rest) c (λ i s c, Some (MRes i s c)) =
  Some (MRes (j + length t + 1 + length v) rest ((4, v) :: (2, t) :: c)).
Proof.
  intros Hne Hw (Hvne & Hv & Hq) Hr. unfold operator_tail. cbn [rseq rmatch].
  apply plus_greedy; [done|done|by intros a [= <-]|].
  cbn [rmatch rchar]. unfold is_ch at 1. rewrite bool_decide_true by done.
  destruct v as [|a v]; [done|]. cbn [app].
  unfold is_ch at 1. rewrite bool_decide_false by (intros ->; apply Hq; set_solver).
  change (a :: v ++ rest) with ((a :: v) ++ rest).
  apply plus_greedy; [done|done|intros b Hb; by rewrite (Hr b Hb)|].
  rewrite !take_sub_app. do 2 f_equal. lia.
Qed.

Lemma operator_hit f i rest :
  word_filter f → spaced f = false → (∀ a, head rest = Some a → is_space a = true) →
  match_at operatorRegex i (token f ++ rest) =
    Some (MRes (i + length (token f)) rest (token_caps f)).
Proof.
  intros Hf Hs Hr. pose proof (unspaced_word f Hf Hs) as Hv. destruct Hf as (Hne & Hw & _).
  unfold match_at. change operatorRegex with (RSeq (RGroup 1 (RAlt (rchar "-") REps)) operator_tail).
  assert (∀ j c, rmatch operator_tail j (f_type f ++ ":"%char :: f_value f ++ rest) c
    (λ i s c, Some (MRes i s c)) = Some (MRes (j + length (f_type f) + 1 + length (f_value f)) rest
      ((4, f_value f) :: (2, f_type f) :: c))) as Hcore by (intros; by apply operator_tail_hit).
  revert Hcore. generalize operator_tail. intros R Hcore. cbn [rmatch rchar].
  unfold token_caps, token. destruct (default false (f_negated f)).
  - rewrite <- !app_assoc. cbn [app]. unfold is_ch. rewrite bool_decide_true by done.
    replace (S i - i) with 1 by lia. rewrite Hcore. simpl take. do 2 f_equal.
    cbn [length]. rewrite length_app. cbn [length]. lia.
  - rewrite <- !app_assoc. cbn [app]. destruct (f_type f) as [|a t] eqn:Et; [done|]. cbn [app].
    inversion Hw as [|? ? Ha _]; subst. unfold is_ch. rewrite bool_decide_false by by intros ->.
    rewrite Nat.sub_diag. rewrite Hcore. simpl take. do 2 f_equal.
    cbn [length]. rewrite length_app. cbn [length]. lia.
Qed.

Lemma sem_operator_colon i u v : sem operatorRegex i u v → ":"%char ∈ u.
Proof.
  unfold operatorRegex. cbn [rseq]. intros (u1 & u2 & -> & _ & u3 & u4 & -> & _ & u5 & u6 & -> & H & _).
  apply sem_char in H as ->. set_solver.
Qed.

Lemma sem_phrase_quote i u v : sem phraseRegex i u v → dquote ∈ u.
Proof.
  unfold phraseRegex. cbn [rseq]. intros (u1 & u2 & -> & H & _). apply sem_char in H as ->. set_solver.
Qed.

(** A pattern whose matches all contain [c] matches nothing in a text without it. *)
Lemma scan_without c r i s gap :
  (∀ i u v, sem r i u v → c ∈ u) → c ∉ s → scan_from r i s gap = ([], gap ++ s).
Proof.
  intros Hr Hs. apply scan_from_none. intros j u w <-.
  destruct (match_at r j u) as [m|] eqn:E; [|done]. exfalso.
  apply match_at_Some in E as (x & Hu & _ & H%Hr). apply Hs. rewrite Hu. set_solver.
Qed.

(** *** The phrases *)

Lemma scan_skip r i u s gap :
  (∀ j w v, v ≠ [] → u = w ++ v → match_at r j (v ++ s) = None) →
  scan_from r i (u ++ s) gap = scan_from r (i + length u) s (gap ++ u).
Proof.
  revert i gap. induction u as [|a u IH]; intros i gap Hu; [by rewrite Nat.add_0_r, app_nil_r|].
  cbn [app]. rewrite scan_from_miss by by apply (Hu i [] (a :: u)).
  rewrite IH by (intros j w v Hv ->; by apply (Hu j (a :: w))). rewrite <- app_assoc. simpl. f_equal. lia.
Qed.

Lemma phrase_skip i u s gap :
  dquote ∉ u → scan_from phraseRegex i (u ++ s) gap = scan_from phraseRegex (i + length u) s (gap ++ u).
Proof.
  intros Hu. apply scan_skip. intros j w [|a v] Hv ->; [done|]. cbn [app]. unfold match_at, phraseRegex.
  cbn [rseq rmatch rchar]. unfold is_ch at 1. rewrite bool_decide_false; [done|]. intros ->. set_solver.
Qed.

Lemma phrase_hit i v s :
  v ≠ [] → dquote ∉ v →
  match_at phraseRegex i (quoted v ++ s) = Some (MRes (i + length (quoted v)) s [(1, v)]).
Proof.
  intros Hne Hq. unfold match_at, phraseRegex, quoted. cbn [rseq rmatch rchar app]. unfold is_ch at 1.
  rewrite bool_decide_true by done. rewrite <- app_assoc. apply plus_greedy; [|done| |].
  - apply Forall_forall. intros a Ha. unfold is_ch. rewrite bool_decide_false by by intros ->. done.
  - intros a [= <-]. unfold is_ch. by rewrite bool_decide_true.
  - cbn [app]. unfold is_ch. rewrite bool_decide_true by done. rewrite take_sub_app. f_equal. f_equal.
    cbn [length]. rewrite length_app. simpl. lia.
Qed.

(** A text with its matches taken out. *)
Definition rest_of (sc : list (jsstr * rmatch_info) * jsstr) : jsstr := flat_map (λ p, p.1 ++ []) sc.1 ++ sc.2.

Definition texts (t : jsstr) : list jsstr := if truthy t then [t] else [].

(** The words after the first. *)
Definition and_words (ws : list jsstr) : jsstr := match ws with [] => [] | _ => " "%char :: join " "%js ws end.

Lemma join_and w ws : join " "%js (w :: ws) = w ++ and_words ws.
Proof. rewrite join_cons. by destruct ws. Qed.

Lemma phrase_piece f i s gap :
  word_filter f →
  rest_of (scan_from phraseRegex i (format_filter f ++ s) gap) =
    if spaced f then gap ++ stem f ++ rest_of (scan_from phraseRegex (i + length (format_filter f)) s [])
    else rest_of (scan_from phraseRegex (i + length (format_filter f)) s (gap ++ token f)).
Proof.
  intros Hf. rewrite format_filter_eq. destruct (spaced f) eqn:E.
  - rewrite <- app_assoc, phrase_skip by by apply dquote_not_in_stem.
    destruct Hf as (_ & _ & _ & Hne & _ & Hq). rewrite (scan_from_hit _ _ _ _ [(1, f_value f)]); [|by apply phrase_hit|done].
    rewrite length_app, Nat.add_assoc. destruct (scan_from phraseRegex _ s []) as [ms rest]. unfold rest_of. simpl.
    by rewrite app_nil_r, <- !app_assoc.
  - by rewrite phrase_skip by by apply dquote_not_in_token.
Qed.

Lemma phrases_out fs t i gap :
  Forall word_filter fs → dquote ∉ t →
  rest_of (scan_from phraseRegex i (join " "%js (map format_filter fs ++ texts t)) gap) =
    gap ++ join " "%js (map stripped fs ++ texts t).
Proof.
  intros Hfs Ht. revert i gap. induction Hfs as [|f fs Hf Hfs IH]; intros i gap.
  - assert (join " "%js (map format_filter [] ++ texts t) = t) as -> by by destruct t.
    assert (join " "%js (map stripped [] ++ texts t) = t) as -> by by destruct t.
    by rewrite (scan_without dquote) by (apply sem_phrase_quote || done).
  - cbn [map app]. rewrite !join_and, phrase_piece by done.
    assert (∀ i gap, rest_of (scan_from phraseRegex i (and_words (map format_filter fs ++ texts t)) gap) =
      gap ++ and_words (map stripped fs ++ texts t)) as Hand.
    { intros j g. assert ((map format_filter fs ++ texts t = [] ∧ map stripped fs ++ texts t = []) ∨
        (map format_filter fs ++ texts t ≠ [] ∧ map stripped fs ++ texts t ≠ [])) as [[-> ->]|[H1 H2]].
      { destruct fs; [simpl; destruct (texts t); [by left|by right]|by right]. }
      - by rewrite (scan_without dquote) by (apply sem_phrase_quote || apply not_elem_of_nil).
      - assert (∀ ws, ws ≠ [] → and_words ws = " "%js ++ join " "%js ws) as Hw by by intros [|? ?].
        rewrite !Hw by done. rewrite phrase_skip by set_solver. by rewrite IH, <- app_assoc. }
    rewrite !Hand. unfold stripped at 3. destruct (spaced f); by rewrite <- ?app_assoc.
Qed.

(** *** The operators *)

Lemma sem_operator_shape i u v : sem operatorRegex i u v →
  ∃ p a w, u = p ++ ":"%char :: a :: w ∧ (":"%char ∉ p) ∧ is_space a = false.
Proof.
  unfold operatorRegex. cbn [rseq]. intros (u1 & u2 & -> & Hd & u3 & u4 & -> & Hw & u5 & u6 & -> & H & Hv).
  apply sem_char in H as ->. change (sem (RGroup 2 (rplus (RChr is_word))) (i + length u1) u3
    ((":"%js ++ u6) ++ v)) with (sem (rplus (RChr is_word)) (i + length u1) u3 ((":"%js ++ u6) ++ v)) in Hw.
  apply sem_plus_class in Hw as [_ Hw%(words_have_no ":")]; [|done].
  assert (":"%char ∉ u1 ++ u3) as Hp.
  { destruct Hd as [H| ->]; [apply sem_char in H as ->|]; set_solver. }
  destruct Hv as [Hv|Hv].
  - destruct Hv as (u7 & u8 & -> & H & _). apply sem_char in H as ->. exists (u1 ++ u3), dquote, u8.
    split; [by rewrite <- app_assoc|done].
  - change (sem (rplus (RChr (λ a, negb (is_space a)))) (i + length u1 + length u3 + length (":"%js)) u6 v) in Hv.
    apply sem_plus_class in Hv as [Hne Hall]. destruct u6 as [|a u6]; [done|].
    inversion Hall as [|? ? Ha _]; subst. exists (u1 ++ u3), a, u6. split; [by rewrite <- app_assoc|].
    split; [done|]. by apply negb_true_iff in Ha.
Qed.

Lemma first_occurrence {A} (a : A) p q x y : a ∉ p → a ∉ q → p ++ a :: x = q ++ a :: y → x = y.
Proof.
  revert q. induction p as [|b p IH]; intros [|c q] Hp Hq E; simplify_eq/=; [done|set_solver|set_solver|].
  apply (IH q); [set_solver..|done].
Qed.

(** An operator with a blank after its colon is passed over. *)
Lemma operator_skip f i s gap :
  word_filter f → (∀ a, head s = Some a → is_space a = true) →
  scan_from operatorRegex i (stem f ++ s) gap = scan_from operatorRegex (i + length (stem f)) s (gap ++ stem f).
Proof.
  intros (_ & Ht%(words_have_no ":") & _) Hs; [|done]. apply scan_skip. intros j w v Hv E.
  assert (∃ q, v = q ++ ":"%js ∧ ":"%char ∉ q) as (q & -> & Hq).
  { destruct (exists_last Hv) as (q & a & ->). unfold stem in E. rewrite !app_assoc in E.
    apply app_inj_tail in E as [E <-]. exists q. split; [done|]. intros Hin.
    assert (":"%char ∈ (if default false (f_negated f) then "-"%js else []) ++ f_type f) as H.
    { rewrite E. set_solver. }
    destruct (default false (f_negated f)); set_solver. }
  destruct (match_at operatorRegex j ((q ++ ":"%js) ++ s)) as [m|] eqn:Em; [|done]. exfalso.
  apply match_at_Some in Em as (u & Hu & _ & (p & a & x & -> & Hp & Ha)%sem_operator_shape).
  rewrite <- !app_assoc in Hu. apply (first_occurrence ":"%char) in Hu as ->; [|done|done].
  specialize (Hs a eq_refl). congruence.
Qed.

Section Reading.
Context {tz : TimeZone} (now : Z).

(** What the parser makes of a filter that is not quoted. *)
Definition reading (f : SearchFilter) : option (list SearchFilter) :=
  operator_filters now (default false (f_negated f)) (f_type f) (f_value f).

Lemma token_filters f i after :
  word_filter f → match_filters now (RM i (token f) (token_caps f) after) = reading f.
Proof.
  intros (_ & _ & Hl & Hv & _). unfold match_filters, token_caps, operator_value, cap, group, reading. simpl.
  rewrite Hl. by destruct (default false (f_negated f)).
Qed.

Lemma operator_piece f i s gap :
  word_filter f → (∀ a, head s = Some a → is_space a = true) →
  scan_from operatorRegex i (stripped f ++ s) gap =
    if spaced f then scan_from operatorRegex (i + length (stripped f)) s (gap ++ stem f)
    else let '(ms, t) := scan_from operatorRegex (i + length (stripped f)) s [] in
         ((gap, RM i (token f) (token_caps f) s) :: ms, t).
Proof.
  intros Hf Hs. unfold stripped. destruct (spaced f) eqn:E; [by apply operator_skip|].
  apply scan_from_hit; [by apply operator_hit|]. unfold token. by destruct (default _ _), (f_type f).
Qed.

Lemma scan_query fs t out i gap :
  Forall word_filter fs → ":"%char ∉ t → mapM reading (List.filter (negb ∘ spaced) fs) = Some out →
  let sc := scan_from operatorRegex i (join " "%js (map stripped fs ++ texts t)) gap in
  mapM (match_filters now) sc.1.*2 = Some out ∧
  (Forall (λ f, spaced f = false) fs →
   ∃ blanks, rest_of sc = gap ++ blanks ++ t ∧ Forall (λ a, is_space a = true) blanks).
Proof.
  intros Hfs Ht. revert out i gap. induction Hfs as [|f fs Hf Hfs IH]; intros out i gap Hout.
  - assert (join " "%js (map stripped [] ++ texts t) = t) as -> by by destruct t.
    rewrite (scan_without ":"); [|apply sem_operator_colon|done]. split; [done|]. intros _. by exists [].
  - cbn [map app]. rewrite join_and. cbv zeta.
    assert (∀ out i gap, mapM reading (List.filter (negb ∘ spaced) fs) = Some out →
      let sc := scan_from operatorRegex i (and_words (map stripped fs ++ texts t)) gap in
      mapM (match_filters now) sc.1.*2 = Some out ∧
      (Forall (λ f, spaced f = false) fs →
       ∃ blanks, rest_of sc = gap ++ blanks ++ t ∧ Forall (λ a, is_space a = true) blanks)) as Hand.
    { clear -IH. intros out i gap Hout. destruct (map stripped fs ++ texts t) as [|w ws] eqn:E.
      - assert (fs = []) as -> by by destruct fs. assert (t = []) as -> by by destruct t.
        cbn [and_words]. rewrite (scan_without ":") by (apply sem_operator_colon || apply not_elem_of_nil).
        split; [exact Hout|]. intros _. by exists [].
      - cbn [and_words]. rewrite scan_from_miss by done. destruct (IH out (S i) (gap ++ " "%js) Hout) as [H1 H2].
        split; [exact H1|]. intros Hs. destruct (H2 Hs) as (bl & Hb & Hbl). exists (" "%js ++ bl).
        split; [by rewrite Hb, <- !app_assoc|by constructor]. }
    rewrite operator_piece by (done || (intros a; destruct (map stripped fs ++ texts t); by intros [= <-])).
    cbn [List.filter compose] in Hout. unfold compose in Hout. destruct (spaced f) eqn:E; cbn [negb] in Hout.
    + destruct (Hand out (i + length (stripped f)) (gap ++ stem f) Hout) as [H1 _]. split; [exact H1|].
      intros Hs. inversion Hs; congruence.
    + cbn [mapM] in Hout. apply bind_Some in Hout as (o & Ho & (out' & Hout & [= <-])%bind_Some).
      destruct (Hand out' (i + length (stripped f)) [] Hout) as [H1 H2].
      destruct (scan_from operatorRegex _ (and_words _) []) as [ms rest]. cbn [fst] in *. split.
      * cbn [fmap list_fmap snd]. apply mapM_cons_Some; [by rewrite token_filters|exact H1].
      * intros Hs. inversion Hs as [|? ? _ Hs']; subst. destruct (H2 Hs') as (bl & Hb & Hbl). exists bl.
        split; [|done]. unfold rest_of in *. cbn [flat_map fst snd] in *. by rewrite app_nil_r, <- app_assoc, Hb.
Qed.

(** Reading a formatted query: the quoted filters are lost, the others are read. *)
Lemma parse_format fs t out :
  Forall word_filter fs → plain_text t → mapM reading (List.filter (negb ∘ spaced) fs) = Some out →
  ∃ t', parseSearchQuery now (formatSearchQuery {| filters := fs; freeText := t |}) =
          Some {| filters := concat out; freeText := t' |} ∧
    (Forall (λ f, spaced f = false) fs → t' = t).
Proof.
  intros Hfs (Htrim & Hc & Hq) Hout. unfold formatSearchQuery. cbn [filters freeText].
  change (if truthy t then [t] else []) with (texts t). set (Q := join " "%js (map format_filter fs ++ texts t)).
  assert (re_replace_all phraseRegex (λ _, []) Q = join " "%js (map stripped fs ++ texts t)) as HQ.
  { unfold re_replace_all, re_scan_all. pose proof (phrases_out fs t 0 [] Hfs Hq) as H. fold Q in H.
    unfold scan_from in H. by destruct (re_scan _ _ _ Q _). }
  destruct (scan_query fs t out 0 [] Hfs Hc Hout) as [Hm Hb].
  change (mapM (match_filters now) (all_matches operatorRegex (join " "%js (map stripped fs ++ texts t))) = Some out) in Hm.
  unfold parseSearchQuery. rewrite HQ, Hm. cbn [mbind option_bind].
  eexists. split; [reflexivity|]. intros Hs. destruct (Hb Hs) as (bl & Hrest & Hbl).
  assert (re_replace_all operatorRegex (λ _, []) (join " "%js (map stripped fs ++ texts t)) = bl ++ t) as ->.
  { unfold re_replace_all, re_scan_all. fold (scan_from operatorRegex 0 (join " "%js (map stripped fs ++ texts t)) []).
    unfold rest_of in Hrest. by destruct (scan_from operatorRegex _ _ _). }
  assert (all_matches phraseRegex Q = []) as ->.
  { unfold all_matches, re_scan_all. fold (scan_from phraseRegex 0 Q []).
    rewrite (scan_without dquote); [done|apply sem_phrase_quote|]. unfold Q. intros Hin.
    assert (Forall (λ a, a ≠ dquote) (join " "%js (map format_filter fs ++ texts t))) as H.
    { apply join_Forall; [by repeat constructor|]. intros w Hw. apply Forall_forall. intros a Ha ->.
      apply elem_of_app in Hw as [(f & -> & Hf)%list_elem_of_fmap|Hw].
      - rewrite Forall_forall in Hs, Hfs. rewrite format_filter_eq, Hs in Ha by done.
        by apply (dquote_not_in_token f) in Ha; [|apply Hfs].
      - unfold texts in Hw. destruct (truthy t); [|set_solver]. by apply list_elem_of_singleton in Hw as ->. }
    rewrite Forall_forall in H. by apply (H dquote). }
  rewrite trim_skip, Htrim by done. cbn [map List.filter].
  destruct (truthy t) eqn:E; simpl; [done|]. by apply truthy_false in E as ->.
Qed.

Lemma kept_reading fs :
  Forall kept_filter fs → mapM reading fs = Some (map (λ f, [f]) fs).
Proof.
  induction 1 as [|f fs (Ht & _ & [b Hb]) _ IH]; [done|]. simpl map. apply mapM_cons_Some; [|done].
  unfold reading, operator_filters. rewrite bool_decide_true by done. destruct f as [ty v n]. simpl in *. by subst n.
Qed.

(** C38: Typing back a formatted query, for filters of the operators whose value is kept as typed
    ([from], [to], [subject], [label], [in], negated or not) and free text without colons and quotes
    and without blanks at its ends.  The values are not empty and hold no quotes, and no blanks but
    spaces.  Read back are exactly the filters whose value has no space: a value with a space is
    formatted in quotes, and the parser takes what is in quotes for a phrase before it looks for
    operators, so that filter is lost.  The query comes back as it was, filters and free text, just
    when no value has a space. *)
Theorem parseSearchQuery_formatSearchQuery q :
  Forall kept_filter (filters q) → plain_text (freeText q) →
  (∃ t, parseSearchQuery now (formatSearchQuery q) =
          Some {| filters := List.filter (λ f, negb (includes (f_value f) " "%js)) (filters q); freeText := t |}) ∧
  (parseSearchQuery now (formatSearchQuery q) = Some q ↔
     ∀ f, f ∈ filters q → includes (f_value f) " "%js = false).
Proof.
  destruct q as [fs t]. intros Hfs Ht. cbn [filters freeText] in *.
  assert (Forall word_filter fs) as Hw by (eapply Forall_impl; [exact Hfs|apply kept_word]).
  assert (Forall kept_filter (List.filter (negb ∘ spaced) fs)) as Hkept.
  { rewrite Forall_forall in *. intros f Hf%list_elem_of_In%List.filter_In. apply Hfs, list_elem_of_In, Hf. }
  destruct (parse_format fs t _ Hw Ht (kept_reading _ Hkept)) as (t' & -> & Hback).
  assert (concat (map (λ f, [f]) (List.filter (negb ∘ spaced) fs)) = List.filter (negb ∘ spaced) fs) as ->.
  { clear. induction (List.filter _ fs) as [|f l IH]; simpl; [done|]. by rewrite IH. }
  split; [by exists t'|]. split.
  - intros [= E _] f Hf. rewrite <- E in Hf. apply list_elem_of_In, List.filter_In in Hf as [_ Hn].
    by apply negb_true_iff in Hn.
  - intros Hs. rewrite Hback by by apply Forall_forall. f_equal. f_equal. clear -Hs. induction fs as [|f fs IH]; [done|].
    cbn [List.filter]. unfold compose at 1, spaced at 1. rewrite Hs by set_solver. simpl. f_equal. apply IH. set_solver.
Qed.
End Reading.

Lemma parseSearchQuery_formatSearchQuery_witness :
  let f v := {| f_type := "from"%js; f_value := v; f_negated := Some true |} in
  let q := {| filters := [f "amy@x.io"; f "amy lee"]%js; freeText := "tax return"%js |} in
  (∃ t, @parseSearchQuery (fixed_zone 0) 0 (formatSearchQuery q) = Some {| filters := [f "amy@x.io"%js]; freeText := t |}) ∧
  @parseSearchQuery (fixed_zone 0) 0 (formatSearchQuery q) ≠ Some q.
Proof.
  intros f q. destruct (@parseSearchQuery_formatSearchQuery (fixed_zone 0) 0 q) as [H1 H2].
  - apply (bool_decide_unpack _). vm_compute. exact I.
  - split_and!; [reflexivity|apply (bool_decide_unpack _); vm_compute; exact I..].
  - split; [exact H1|]. rewrite H2. intros Hno. specialize (Hno (f "amy lee"%js)).
    by discriminate Hno; repeat constructor.
Defined.

(** A value that needs quotes is formatted with quotes, and reading it back loses it: the quoted
    text is taken for a phrase before the operators are looked for. *)
Lemma quoted_value_lost :
  let q := {| filters := [ {| f_type := "from"%js; f_value := "amy lee"%js; f_negated := Some false |} ];
              freeText := [] |} in
  @parseSearchQuery (fixed_zone 0) 0 (formatSearchQuery q) =
    Some {| filters := []; freeText := "from: amy lee"%js |}.
Proof. vm_compute. reflexivity. Qed.

(** ** Dates in queries *)

Lemma parseDate_date_text {tz : TimeZone} now c :
  (1000 ≤ c_year c < 10000)%Z → valid_civil c = true →
  parseDate now (date_text c) = Some (Some (new_Date_ymd (c_year c) (c_month c - 1) (c_day c))).
Proof.
  intros Hy Hv. destruct (date_text_parts c Hy Hv) as (y & m & d & -> & Hly & Hlm & Hld & Hdy & Hdm &
    Hdd & Py & Pm & Pd).
  unfold parseDate, re_exec.
  assert (match_at ymd_dash_re 0 (y ++ "-"%char :: m ++ "-"%char :: d) =
    Some (MRes 10 [] [(3, d); (2, m); (1, y)])) as Hm.
  { unfold match_at, ymd_dash_re. cbn [rseq rmatch rdigits rchar]. simpl Nat.eqb. cbv iota.
    rewrite times_hit by done. unfold is_ch. rewrite bool_decide_true by done.
    rewrite times_hit by done. rewrite bool_decide_true by done.
    rewrite <- (app_nil_r d) at 1. rewrite times_hit by done.
    cbn [Nat.add Nat.sub]. by rewrite (take_app_length' y), (take_app_length' m), (take_ge d) by lia. }
  assert (∃ a s, y ++ "-"%char :: m ++ "-"%char :: d = a :: s) as (a & s & E) by (destruct y; [done|]; eauto).
  rewrite E in Hm |- *. cbn [re_search]. rewrite Hm. unfold int_group, group.
  cbn [rm_caps jm_get default]. simpl. rewrite Py, Pm, Pd. done.
Qed.

(** The day before a date. *)
Definition previous_day (c : civil) : civil := civil_of_days (days_of_civil c - 1).

(** Where the local clock is ahead of UTC, [after:] and [before:] with a date store the day
    before the one typed (the local midnight read in UTC); elsewhere they store the date typed. *)
Lemma after_before_date off now negated op c :
  op = "after"%js ∨ op = "before"%js → (-msPerDay < off < msPerDay)%Z →
  (1000 ≤ c_year c < 10000)%Z → valid_civil c = true →
  @operator_filters (fixed_zone off) now negated op (date_text c) =
    Some [ {| f_type := op; f_negated := Some negated;
              f_value := iso_text (if (0 <? off)%Z then previous_day c else c) |} ].
Proof.
  intros Hop Hoff Hy Hv.
  assert (iso_date (@new_Date_ymd (fixed_zone off) (c_year c) (c_month c - 1) (c_day c)) =
    iso_text (if (0 <? off)%Z then previous_day c else c)) as Hd.
  { unfold iso_date. f_equal. unfold new_Date_ymd, civil_of_time. rewrite andb_false_intro2 by lia.
    rewrite MakeDay_valid by by apply valid_civil_bounds in Hv as [? _].
    cbn [to_utc fixed_zone]. destruct c as [y m d]. cbn [c_year c_month c_day].
    set (n := days_of_civil _). destruct (0 <? off)%Z eqn:E.
    - replace (msPerDay * n - off)%Z with (msPerDay * (n - 1) + (msPerDay - off))%Z by lia.
      rewrite Day_of_midnight by lia. done.
    - replace (msPerDay * n - off)%Z with (msPerDay * n + - off)%Z by lia.
      rewrite Day_of_midnight by lia. by apply civil_of_days_of_civil. }
  unfold operator_filters. rewrite parseDate_date_text, Hd by done. by destruct Hop as [-> | ->].
Qed.

Lemma date_text_writable c : (1000 ≤ c_year c < 10000)%Z → valid_civil c = true →
  writable (date_text c) ∧ includes (date_text c) " "%js = false.
Proof.
  intros Hy Hv. destruct (date_text_parts c Hy Hv) as (y & m & d & -> & Hly & _ & _ & Hdy & Hdm & Hdd & _).
  assert (Forall (λ a, is_digit a || is_ch "-" a = true) (y ++ "-"%char :: m ++ "-"%char :: d)) as Hall.
  { rewrite !Forall_app, !Forall_cons, Forall_app, Forall_cons.
    repeat split; try (eapply Forall_impl; [eassumption|]; intros a ->; done). }
  assert (∀ a, is_space a = true → a ∉ y ++ "-"%char :: m ++ "-"%char :: d) as Hsp.
  { intros a Ha Hin. rewrite Forall_forall in Hall. specialize (Hall a Hin).
    apply orb_true_iff in Hall as [Hd|Hd].
    - revert Ha Hd. unfold is_space, is_digit, in_range. lia.
    - apply bool_decide_eq_true in Hd as ->. done. }
  split; [split; [by destruct y|split]|].
  - apply Forall_forall. intros a Hin Ha. by destruct (Hsp a Ha).
  - intros Hin. rewrite Forall_forall in Hall. by specialize (Hall _ Hin).
  - apply not_true_iff_false. rewrite includes_elem. by apply Hsp.
Qed.

(** C39: A query with a date of the years 1000 to 9999 typed as YYYY-MM-DD after [after:] or
    [before:], negated or not, and with free text without colons and quotes and without blanks at its
    ends, or none, for a local clock at a fixed distance from UTC of less than a day.  The parser gives
    one filter with the free text.  Where the local clock is ahead of UTC the filter holds the day
    before the one typed (the local midnight is read in UTC); elsewhere it holds the day typed. *)
Theorem dated_query_spec off now (negated : bool) (op : jsstr) c (t : jsstr) :
  op = "after"%js ∨ op = "before"%js → (-msPerDay < off < msPerDay)%Z →
  (1000 ≤ c_year c < 10000)%Z → valid_civil c = true → plain_text t →
  @parseSearchQuery (fixed_zone off) now
    ((if negated then "-"%js else []) ++ op ++ ":"%js ++ date_text c ++ (if truthy t then " "%js ++ t else [])) =
  Some {| filters := [ {| f_type := op; f_value := iso_text (if (0 <? off)%Z then previous_day c else c);
                          f_negated := Some negated |} ];
          freeText := t |}.
Proof.
  intros Hop Hoff Hy Hv Ht. destruct (date_text_writable c Hy Hv) as [Hw Hs].
  set (f := {| f_type := op; f_value := date_text c; f_negated := Some negated |}).
  assert (word_filter f) as Hf.
  { split; [by destruct Hop as [-> | ->]|]. split; [destruct Hop as [-> | ->]; repeat constructor|].
    split; [by destruct Hop as [-> | ->]|exact Hw]. }
  assert (mapM (@reading (fixed_zone off) now) (List.filter (negb ∘ spaced) [f]) = Some [[ {| f_type := op;
    f_value := iso_text (if (0 <? off)%Z then previous_day c else c); f_negated := Some negated |} ]]) as Hout.
  { cbn [List.filter]. unfold compose, spaced. simpl f_value. rewrite Hs. cbn [negb mapM].
    unfold reading. simpl. by rewrite (after_before_date off). }
  destruct (@parse_format (fixed_zone off) now [f] t _ (Forall_cons_2 _ _ _ Hf (Forall_nil_2 _)) Ht Hout) as (t' & E & Hback).
  rewrite Hback in E by (apply Forall_singleton; exact Hs). etransitivity; [|exact E]. f_equal.
  unfold formatSearchQuery, format_filter. simpl. rewrite Hs, <- !app_assoc. destruct (truthy t); simpl; by rewrite ?app_nil_r.
Qed.

Lemma dated_query_spec_witness :
  @parseSearchQuery (fixed_zone (8 * 3600000)) 0 "-after:2024-03-01 tax return"%js =
    Some {| filters := [ {| f_type := "after"%js; f_value := "2024-02-29"%js; f_negated := Some true |} ];
            freeText := "tax return"%js |}.
Proof.
  refine (dated_query_spec (8 * 3600000) 0 true "after"%js (Civil 2024 3 1) "tax return"%js _ _ _ _ _);
    [by left|done..|]. split_and!; [reflexivity|apply (bool_decide_unpack _); vm_compute; exact I..].
Defined.

(** A name every object inherits is taken for a relative date and the date is invalid. *)
Lemma inherited_name_throws :
  @parseSearchQuery (fixed_zone 0) 0 "after:constructor"%js = None.
Proof. vm_compute. reflexivity. Qed.

(** ** The limits of the values *)

(** A size that is too large for a number is kept as the text Infinity. *)
Lemma large_size_is_infinite :
  @operator_filters (fixed_zone 0) 0 false "larger"%js (repeat "9"%char 320) =
    Some [ {| f_type := "larger"%js; f_value := "Infinity"%js; f_negated := Some false |} ].
Proof. vm_compute. reflexivity. Qed.

(** A date past the year 9999 is kept with the sign and six digits of [toISOString]. *)
Lemma large_year_is_signed :
  @operator_filters (fixed_zone 0) 0 false "after"%js "9999-12-99"%js =
    Some [ {| f_type := "after"%js; f_value := "+010000-03-08"%js; f_negated := Some false |} ].
Proof. vm_compute. reflexivity. Qed.

(** Only the flags take account of the dash: a negated sender, recipient, date or size gives the
    condition of the plain one. *)
Lemma typesense_ignores_negation dp t v :
  t ∈ ["from"; "to"; "after"; "before"; "larger"; "smaller"]%js → ∀ n n',
  typesense_condition dp {| f_type := t; f_value := v; f_negated := n |} =
  typesense_condition dp {| f_type := t; f_value := v; f_negated := n' |}.
Proof.
  intros Ht n n'. repeat (apply elem_of_cons in Ht as [-> |Ht]; [reflexivity|]).
  by apply not_elem_of_nil in Ht.
Qed.
