(* ===== verification/Proc.v ===== *)
(** * Procedures: state and exceptions

    An [async] function of the worker that is run to its end is a function from the store to the
    store it leaves and its outcome: a value, or an error that was thrown.  Properties of runs
    are preorders between the store before and after, proved along the structure of the
    procedure. *)

From stdpp Require Import base list.
From S2P Require Import Prelude.

Inductive outcome (A : Type) := Done (a : A) | Threw.
Arguments Done {A} _.
Arguments Threw {A}.

Definition prog (S A : Type) : Type := S → S * outcome A.

#[export] Instance proc_ret {S} : MRet (prog S) := λ A a s, (s, Done a).
#[export] Instance proc_bind {S} : MBind (prog S) := λ A B f p s,
  match p s with (s', Done a) => f a s' | (s', Threw) => (s', Threw) end.

Definition read {S} : prog S S := λ s, (s, Done s).
Definition throw {S A} : prog S A := λ s, (s, Threw).
Definition modify {S} (f : S → S) : prog S unit := λ s, (f s, Done tt).
Definition or_throw {S A} (o : option A) : prog S A := match o with Some a => mret a | None => throw end.

(** [try { p } catch { h }] *)
Definition catch {S A} (p h : prog S A) : prog S A := λ s,
  match p s with (s', Done a) => (s', Done a) | (s', Threw) => h s' end.

(** [try { p } finally { q }] where [q] does not throw *)
Definition finally {S A} (p : prog S A) (q : prog S unit) : prog S A := λ s, let (s', o) := p s in ((q s').1, o).

(** [for (const x of l) await f(x)] *)
Fixpoint each {S A} (f : A → prog S unit) (l : list A) : prog S unit :=
  match l with
  | [] => mret tt
  | x :: l' => _ ← f x; each f l'
  end.

(** ** Reasoning on procedures

    A property of runs as a preorder between the store before and after, proved along the
    structure of the procedure. *)

Section Steps.
Context {S : Type} (R : S → S → Prop) `{!PreOrder R}.

Definition steps {A} (p : prog S A) : Prop := ∀ s, R s (p s).1.

Lemma steps_ret {A} (a : A) : steps (mret a).
Proof. intros s. simpl. reflexivity. Qed.

Lemma steps_read : steps read.
Proof. intros s. simpl. reflexivity. Qed.

Lemma steps_throw {A} : steps (throw (A := A)).
Proof. intros s. simpl. reflexivity. Qed.

Lemma steps_modify f : (∀ s, R s (f s)) → steps (modify f).
Proof. intros Hf s. apply Hf. Qed.

Lemma steps_bind {A B} (p : prog S A) (f : A → prog S B) :
  steps p → (∀ a, steps (f a)) → steps (p ≫= f).
Proof.
  intros Hp Hf s. unfold mbind, proc_bind. pose proof (Hp s) as H. destruct (p s) as [s' [a|]]; [|done].
  simpl in H. etrans; [exact H|apply Hf].
Qed.

Lemma steps_bind_at {A B} (p : prog S A) (f : A → prog S B) s :
  R s (p s).1 → (∀ a, steps (f a)) → R s ((p ≫= f) s).1.
Proof.
  intros H Hf. unfold mbind, proc_bind. destruct (p s) as [s' [a|]]; [|done]. simpl in H. etrans; [exact H|apply Hf].
Qed.

(** What was read from the store can be used. *)
Lemma steps_bind_read {B} (f : S → prog S B) : (∀ s, R s (f s s).1) → steps (read ≫= f).
Proof. intros Hf s. apply Hf. Qed.

Lemma steps_catch {A} (p h : prog S A) : steps p → steps h → steps (catch p h).
Proof.
  intros Hp Hh s. unfold catch. pose proof (Hp s) as H. destruct (p s) as [s' [a|]]; [done|].
  simpl in H. etrans; [exact H|apply Hh].
Qed.

Lemma steps_finally {A} (p : prog S A) q : steps p → steps q → steps (finally p q).
Proof.
  intros Hp Hq s. unfold finally. pose proof (Hp s) as H. destruct (p s) as [s' o]. simpl in *.
  etrans; [exact H|apply Hq].
Qed.

Lemma steps_each {A} (f : A → prog S unit) l : (∀ x, x ∈ l → steps (f x)) → steps (each f l).
Proof.
  induction l as [|x l IH]; intros Hf; cbn [each]; [apply steps_ret|].
  apply steps_bind; [apply Hf; set_solver|]. intros _. apply IH. set_solver.
Qed.
End Steps.

Lemma bind_Done {S A B} (p : prog S A) (f : A → prog S B) s s' b :
  (p ≫= f) s = (s', Done b) → ∃ a s1, p s = (s1, Done a) ∧ f a s1 = (s', Done b).
Proof. unfold mbind, proc_bind. destruct (p s) as [s1 [a|]]; [|done]. by exists a, s1. Qed.

Lemma bind_run {S A B} (p : prog S A) (f : A → prog S B) s s' a : p s = (s', Done a) → (p ≫= f) s = f a s'.
Proof. unfold mbind, proc_bind. by intros ->. Qed.

Lemma or_throw_bind {S A B} (o : option A) (f : A → prog S B) s :
  (or_throw o ≫= f) s = match o with Some a => f a s | None => (s, Threw) end.
Proof. by destruct o. Qed.

Lemma read_bind {S B} (f : S → prog S B) s : (read ≫= f) s = f s s.
Proof. done. Qed.

Lemma each_app_run {S A} (f : A → prog S unit) l1 l2 s s1 :
  each f l1 s = (s1, Done tt) → each f (l1 ++ l2) s = each f l2 s1.
Proof.
  revert s. induction l1 as [|x l1 IH]; intros s; cbn [each app]; [by intros [= <-]|].
  unfold mbind, proc_bind. destruct (f x s) as [s2 [u|]]; [apply IH|done].
Qed.

(** A procedure that never throws. *)
Definition total {S A} (p : prog S A) : Prop := ∀ s, ∃ a, (p s).2 = Done a.

Lemma total_bind {S A B} (p : prog S A) (f : A → prog S B) : total p → (∀ a, total (f a)) → total (p ≫= f).
Proof.
  intros Hp Hf s. unfold mbind, proc_bind. destruct (Hp s) as [a Ha]. destruct (p s) as [s' o].
  simpl in Ha. subst o. apply Hf.
Qed.

Lemma total_catch {S A} (p h : prog S A) : total h → total (catch p h).
Proof. intros Hh s. unfold catch. destruct (p s) as [s' [a|]]; simpl; [by exists a|apply Hh]. Qed.

Lemma total_each {S A} (f : A → prog S unit) l : (∀ x, total (f x)) → total (each f l).
Proof.
  intros Hf. induction l as [|x l IH]; intros s; [by exists tt|]. cbn [each]. unfold mbind, proc_bind.
  destruct (Hf x s) as [u Hu]. destruct (f x s) as [s' o]. simpl in Hu. subst o. apply IH.
Qed.

(** An invariant of the store, as the preorder it induces. *)
Definition preserving {S} (I : S → Prop) (s s' : S) : Prop := I s → I s'.

#[export] Instance preserving_preorder {S} (I : S → Prop) : PreOrder (preserving I).
Proof. unfold preserving. split; [intros s|intros s1 s2 s3]; auto. Qed.

(** ** Runs with a result

    A run from a store where [I] holds goes to a store where it holds again, related to the first
    by [R]; if it ends without an error the result satisfies [Q]. *)

Section Runs.
Context {S : Type} (R : S → S → Prop) `{!PreOrder R} (I : S → Prop).

Definition achieves {A} (p : prog S A) (s : S) (Q : A → S → Prop) : Prop :=
  R s (p s).1 ∧ I (p s).1 ∧ match (p s).2 with Done a => Q a (p s).1 | Threw => True end.

Lemma achieves_ret {A} (a : A) s (Q : A → S → Prop) : I s → Q a s → achieves (mret a) s Q.
Proof. intros Hs Hq. repeat split; [simpl; reflexivity|done..]. Qed.

Lemma achieves_throw {A} s (Q : A → S → Prop) : I s → achieves throw s Q.
Proof. intros Hs. repeat split; [simpl; reflexivity|done]. Qed.

Lemma achieves_modify f s (Q : unit → S → Prop) : R s (f s) → I (f s) → Q tt (f s) → achieves (modify f) s Q.
Proof. done. Qed.

Lemma achieves_bind {A B} (p : prog S A) (f : A → prog S B) s (P : A → S → Prop) (Q : B → S → Prop) :
  achieves p s P → (∀ a s1, R s s1 → I s1 → P a s1 → achieves (f a) s1 Q) → achieves (p ≫= f) s Q.
Proof.
  intros (H1 & H2 & H3) Hf. unfold achieves, mbind, proc_bind. destruct (p s) as [s1 [a|]]; [|done].
  destruct (Hf a s1 H1 H2 H3) as (G1 & G2 & G3). simpl in H1. split; [by etrans|done].
Qed.

Lemma achieves_read {B} (f : S → prog S B) s (Q : B → S → Prop) : achieves (f s) s Q → achieves (read ≫= f) s Q.
Proof. done. Qed.

Lemma achieves_catch {A} (p h : prog S A) s (Q : A → S → Prop) :
  achieves p s Q → (∀ s1, R s s1 → I s1 → achieves h s1 Q) → achieves (catch p h) s Q.
Proof.
  intros (H1 & H2 & H3) Hh. unfold achieves, catch. destruct (p s) as [s1 [a|]]; [done|].
  destruct (Hh s1 H1 H2) as (G1 & G2 & G3). simpl in H1. split; [by etrans|done].
Qed.

Lemma achieves_weaken {A} (p : prog S A) s (P Q : A → S → Prop) :
  achieves p s P → (∀ a s1, R s s1 → I s1 → P a s1 → Q a s1) → achieves p s Q.
Proof.
  intros (H1 & H2 & H3) Hpq. split; [done|]. split; [done|]. destruct (p s) as [s1 [a|]]; [|done].
  by apply Hpq.
Qed.

Lemma achieves_steps {A} (T : S → S → Prop) (p : prog S A) s (Q : A → S → Prop) :
  steps T p → achieves p s Q → achieves p s (λ a s', Q a s' ∧ T s s').
Proof. intros Ht (H1 & H2 & H3). specialize (Ht s). unfold achieves. by destruct (p s) as [s' [a|]]. Qed.
End Runs.

#[export] Hint Extern 0 (PreOrder _) => apply _ : webmail.
#[export] Hint Resolve steps_ret steps_read steps_throw steps_bind steps_catch steps_finally steps_each
  : webmail.

(** Follow the structure of a procedure down to its operations. *)
Ltac run_steps :=
  repeat first
    [ progress intros
    | solve [auto with webmail]
    | apply steps_bind | apply steps_catch | apply steps_finally | apply steps_each
    | match goal with
      | |- steps _ (if ?b then _ else _) => destruct b eqn:?
      | |- steps _ (match ?x with _ => _ end) => destruct x eqn:?
      end ].
