(* ===== verification/ContactTable.v ===== *)
(** * The table [contacts] ([packages/db/src/drizzle/schema.ts]), as the worker fills it *)

From stdpp Require Import base list.
From S2P Require Import Prelude JsString.

(** [emails] is the list of the addresses. *)
Record ContactRow := {
  ct_id : jsstr; ct_ownerId : jsstr; ct_firstName : jsstr; ct_lastName : option jsstr; ct_emails : list jsstr;
}.
