(* ===== verification/MailDb.v ===== *)
(** * The worker's store: the tables the rules read and write, and the job queues

    A table ([packages/db/src/drizzle/schema.ts]) is the list of its rows, in the order the
    database returns them when a query asks for none; the statements the code builds with
    Drizzle are read as the SQL they stand for.  A queue is the list of the jobs added to it.
    Failures of the connections are left out; the errors of constraints are not. *)

From stdpp Require Import base list.
From S2P Require Import Prelude JsString JsNumber JsValue RuleMatcher ContactTable.
From S2P Require Export Proc.

(** ** Rows *)

(** [metaData] is an object or NULL; [m_seen], [m_flagged] and [m_answered] are the IMAP flags. *)
Record MessageRow := {
  m_id : jsstr; m_ownerId : jsstr; m_mailboxId : jsstr; m_threadId : jsstr; m_messageId : jsstr;
  m_inReplyTo : option jsstr; m_references : option (list jsstr); m_replyTo : jsval;
  m_subject : option jsstr; m_snippet : option jsstr; m_text : option jsstr; m_html : option jsstr;
  m_from : jsval; m_to : jsval; m_cc : jsval; m_bcc : jsval; m_date : option Z;
  m_sizeBytes : option Z; m_seen : bool; m_answered : bool; m_flagged : bool; m_hasAttachments : bool;
  m_headersJson : option (list (jsstr * jsval)); m_metaData : option (list (jsstr * jsval));
  m_rawStorageKey : option jsstr; m_createdAt : Z; m_updatedAt : Z;
}.

Record ThreadRow := { t_id : jsstr; t_ownerId : jsstr; t_lastMessageDate : option Z }.

(** The column [participants]: names and addresses by role. *)
Record Mini := { n : option jsstr; e : jsstr }.
Record Participants := { p_from : list Mini; p_to : list Mini; p_cc : list Mini; p_bcc : list Mini }.

Record MailboxThreadRow := {
  mt_threadId : jsstr; mt_mailboxId : jsstr; mt_ownerId : jsstr; mt_identityId : jsstr;
  mt_identityPublicId : jsstr; mt_mailboxSlug : option jsstr; mt_subject : option jsstr;
  mt_previewText : option jsstr; mt_lastActivityAt : Z; mt_firstMessageAt : option Z;
  mt_messageCount : Z; mt_unreadCount : Z; mt_hasAttachments : bool; mt_starred : bool;
  mt_participants : option Participants; mt_snoozedUntil : option Z; mt_unsnoozedAt : option Z; mt_updatedAt : Z;
}.

Record ThreadLabelRow := {
  tl_threadId : jsstr; tl_mailboxId : jsstr; tl_labelId : jsstr; tl_ownerId : jsstr;
}.

Record MailboxRow := {
  mb_id : jsstr; mb_identityId : jsstr; mb_ownerId : jsstr; mb_parentId : option jsstr; mb_kind : jsstr;
  mb_name : option jsstr; mb_slug : option jsstr; mb_isDefault : bool;
  mb_metaData : option (list (jsstr * jsval));
}.

Record MailboxSyncRow := {
  sy_id : jsstr; sy_identityId : jsstr; sy_mailboxId : jsstr; lastSeenUid : Z; backfillCursorUid : Z;
  phase : jsstr; syncedAt : option Z; sy_updatedAt : Z;
}.

Record IdentityRow := {
  id_id : jsstr; id_ownerId : jsstr; id_publicId : jsstr; id_kind : jsstr; smtpAccountId : option jsstr;
  id_metaData : option (list (jsstr * jsval));
}.

(** [match] is a JSON column: [None] is a JSON [null]. *)
Record MailRuleRow := {
  r_id : jsstr; r_identityId : jsstr; r_enabled : bool; r_priority : Z; r_stopProcessing : bool;
  r_match : option RuleMatch;
}.

(** [params] is reduced to its [labelId]. *)
Record MailRuleActionRow := { a_ruleId : jsstr; a_actionType : jsstr; a_order : Z; a_labelId : option jsstr }.

(** ** Jobs: the arguments of [queue.add] *)

Record JobOptions := {
  attempts : Z; backoff_delay : Z; removeOnComplete : bool; removeOnFail : bool; jobId : option jsstr;
}.

Record Job := { queue : jsstr; job_name : jsstr; job_data : list (jsstr * jsval); job_opts : JobOptions }.

(** ** IMAP: what the worker sends to a server *)

(** The methods of an ImapFlow client the code calls; [Connect] carries host, port, secure, user,
    password and keep-alive, [Release] is the call of a lock's [release]. *)
Inductive ImapCommand :=
| Connect (options : list jsval)
| Logout
| Lock (path : jsstr)
| Release (path : jsstr)
| FlagsAdd (uids : list num) (flag : jsstr)
| FlagsRemove (uids : list num) (flag : jsstr)
| Move (uids : list num) (destination : option jsstr)
| Delete (uids : list num)
| SearchAll
| ListBoxes
| Create (path : jsstr)
| Subscribe (path : jsstr)
| OpenBox (path : jsstr)
| DeleteBox (path : jsstr)
| Fetch (first last : Z).

(** A command sent by a client, and whether its promise was fulfilled. *)
Record ImapEvent := { client : nat; command : ImapCommand; fulfilled : bool }.

(** ** What incoming mail fills *)

Record SubscriptionRow := {
  su_ownerId : jsstr; su_subscriptionKey : jsstr; su_listId : option jsstr; su_unsubscribeHttpUrl : option jsstr;
  su_unsubscribeMailto : option jsstr; su_oneClick : bool; su_lastSeenAt : Z;
}.

Record AttachmentRow := {
  att_id : jsstr; att_ownerId : jsstr; att_messageId : jsstr; att_bucketId : jsstr; att_path : jsstr;
  att_filenameOriginal : option jsstr; att_contentType : jsstr; att_sizeBytes : Z; att_cid : option jsstr;
  att_isInline : bool; att_checksum : option jsstr;
}.

(** The entries of the buffers of [message-payload-parser.ts]. *)
Record SearchJob := { sj_messageId : jsstr; sj_contactId : jsstr; sj_ownerId : jsstr }.
Record IcsJob := { ij_messageId : jsstr; ij_messageAttachmentId : jsstr; ij_mailboxId : jsstr }.

Record Buffers := {
  searchBuffer : list SearchJob; webhookBuffer : list (MessageRow * jsstr); icsBuffer : list IcsJob;
  rulesBuffer : list jsstr; flushTimer : bool;
}.

(** What an identity may still fetch, in bytes, and until when (an instant). *)
Record IdentityQuota := { limit : num; expiresAt : Z }.

(** [uploads] are the paths of the objects put into the storage, [identityQuotaMap] is the map of
    [backfill-full.ts]. *)
Record Ingest := {
  contacts : list ContactRow; mailSubscriptions : list SubscriptionRow; messageAttachments : list AttachmentRow;
  uploads : list jsstr; buffers : Buffers; identityQuotaMap : jsmap jsstr IdentityQuota;
}.

(** ** The store *)

(** [labels] are known by their ids; [imapInstances] is the worker's map from
    identities to connected clients, [timers] the identities [setTimeout] will reconnect, [imap] the
    commands sent so far; [ticks] counts the calls of [new Date()]. *)
Record MailDb := {
  messages : list MessageRow; mailboxes : list MailboxRow; threads : list ThreadRow;
  identities : list IdentityRow; labels : list jsstr;
  mailRules : list MailRuleRow; mailRuleActions : list MailRuleActionRow;
  mailboxThreads : list MailboxThreadRow; mailboxThreadLabels : list ThreadLabelRow;
  mailboxSync : list MailboxSyncRow; jobs : list Job; imap : list ImapEvent;
  imapInstances : jsmap jsstr nat; timers : list jsstr; ticks : nat; ingest : Ingest;
}.

Definition set_messages (f : list MessageRow → list MessageRow) (s : MailDb) : MailDb :=
  {| messages := f (messages s); mailboxes := mailboxes s; threads := threads s;
     identities := identities s; labels := labels s; mailRules := mailRules s;
     mailRuleActions := mailRuleActions s; mailboxThreads := mailboxThreads s;
     mailboxThreadLabels := mailboxThreadLabels s; mailboxSync := mailboxSync s; jobs := jobs s;
     imap := imap s; imapInstances := imapInstances s; timers := timers s; ticks := ticks s; ingest := ingest s |}.

Definition set_mailboxThreads (f : list MailboxThreadRow → list MailboxThreadRow) (s : MailDb) : MailDb :=
  {| messages := messages s; mailboxes := mailboxes s; threads := threads s; identities := identities s;
     labels := labels s; mailRules := mailRules s; mailRuleActions := mailRuleActions s;
     mailboxThreads := f (mailboxThreads s); mailboxThreadLabels := mailboxThreadLabels s;
     mailboxSync := mailboxSync s; jobs := jobs s; imap := imap s; imapInstances := imapInstances s;
     timers := timers s; ticks := ticks s; ingest := ingest s |}.

Definition set_threadLabels (f : list ThreadLabelRow → list ThreadLabelRow) (s : MailDb) : MailDb :=
  {| messages := messages s; mailboxes := mailboxes s; threads := threads s; identities := identities s;
     labels := labels s; mailRules := mailRules s; mailRuleActions := mailRuleActions s;
     mailboxThreads := mailboxThreads s; mailboxThreadLabels := f (mailboxThreadLabels s);
     mailboxSync := mailboxSync s; jobs := jobs s; imap := imap s; imapInstances := imapInstances s;
     timers := timers s; ticks := ticks s; ingest := ingest s |}.

Definition set_threads (f : list ThreadRow → list ThreadRow) (s : MailDb) : MailDb :=
  {| messages := messages s; mailboxes := mailboxes s; threads := f (threads s);
     identities := identities s; labels := labels s; mailRules := mailRules s;
     mailRuleActions := mailRuleActions s; mailboxThreads := mailboxThreads s;
     mailboxThreadLabels := mailboxThreadLabels s; mailboxSync := mailboxSync s; jobs := jobs s;
     imap := imap s; imapInstances := imapInstances s; timers := timers s; ticks := ticks s; ingest := ingest s |}.

Definition set_mailboxes (f : list MailboxRow → list MailboxRow) (s : MailDb) : MailDb :=
  {| messages := messages s; mailboxes := f (mailboxes s); threads := threads s;
     identities := identities s; labels := labels s; mailRules := mailRules s;
     mailRuleActions := mailRuleActions s; mailboxThreads := mailboxThreads s;
     mailboxThreadLabels := mailboxThreadLabels s; mailboxSync := mailboxSync s; jobs := jobs s;
     imap := imap s; imapInstances := imapInstances s; timers := timers s; ticks := ticks s; ingest := ingest s |}.

Definition set_mailboxSync (f : list MailboxSyncRow → list MailboxSyncRow) (s : MailDb) : MailDb :=
  {| messages := messages s; mailboxes := mailboxes s; threads := threads s; identities := identities s;
     labels := labels s; mailRules := mailRules s; mailRuleActions := mailRuleActions s;
     mailboxThreads := mailboxThreads s; mailboxThreadLabels := mailboxThreadLabels s;
     mailboxSync := f (mailboxSync s); jobs := jobs s; imap := imap s; imapInstances := imapInstances s;
     timers := timers s; ticks := ticks s; ingest := ingest s |}.

Definition set_jobs (f : list Job → list Job) (s : MailDb) : MailDb :=
  {| messages := messages s; mailboxes := mailboxes s; threads := threads s; identities := identities s;
     labels := labels s; mailRules := mailRules s; mailRuleActions := mailRuleActions s;
     mailboxThreads := mailboxThreads s; mailboxThreadLabels := mailboxThreadLabels s;
     mailboxSync := mailboxSync s; jobs := f (jobs s); imap := imap s; imapInstances := imapInstances s;
     timers := timers s; ticks := ticks s; ingest := ingest s |}.

Definition set_imap (f : list ImapEvent → list ImapEvent) (s : MailDb) : MailDb :=
  {| messages := messages s; mailboxes := mailboxes s; threads := threads s; identities := identities s;
     labels := labels s; mailRules := mailRules s; mailRuleActions := mailRuleActions s;
     mailboxThreads := mailboxThreads s; mailboxThreadLabels := mailboxThreadLabels s;
     mailboxSync := mailboxSync s; jobs := jobs s; imap := f (imap s); imapInstances := imapInstances s;
     timers := timers s; ticks := ticks s; ingest := ingest s |}.

Definition set_instances (f : jsmap jsstr nat → jsmap jsstr nat) (s : MailDb) : MailDb :=
  {| messages := messages s; mailboxes := mailboxes s; threads := threads s; identities := identities s;
     labels := labels s; mailRules := mailRules s; mailRuleActions := mailRuleActions s;
     mailboxThreads := mailboxThreads s; mailboxThreadLabels := mailboxThreadLabels s;
     mailboxSync := mailboxSync s; jobs := jobs s; imap := imap s; imapInstances := f (imapInstances s);
     timers := timers s; ticks := ticks s; ingest := ingest s |}.

Definition set_timers (f : list jsstr → list jsstr) (s : MailDb) : MailDb :=
  {| messages := messages s; mailboxes := mailboxes s; threads := threads s; identities := identities s;
     labels := labels s; mailRules := mailRules s; mailRuleActions := mailRuleActions s;
     mailboxThreads := mailboxThreads s; mailboxThreadLabels := mailboxThreadLabels s;
     mailboxSync := mailboxSync s; jobs := jobs s; imap := imap s; imapInstances := imapInstances s;
     timers := f (timers s); ticks := ticks s; ingest := ingest s |}.

Definition tick (s : MailDb) : MailDb :=
  {| messages := messages s; mailboxes := mailboxes s; threads := threads s; identities := identities s;
     labels := labels s; mailRules := mailRules s; mailRuleActions := mailRuleActions s;
     mailboxThreads := mailboxThreads s; mailboxThreadLabels := mailboxThreadLabels s;
     mailboxSync := mailboxSync s; jobs := jobs s; imap := imap s; imapInstances := imapInstances s;
     timers := timers s; ticks := S (ticks s); ingest := ingest s |}.

Definition set_ingest (f : Ingest → Ingest) (s : MailDb) : MailDb :=
  {| messages := messages s; mailboxes := mailboxes s; threads := threads s; identities := identities s;
     labels := labels s; mailRules := mailRules s; mailRuleActions := mailRuleActions s;
     mailboxThreads := mailboxThreads s; mailboxThreadLabels := mailboxThreadLabels s;
     mailboxSync := mailboxSync s; jobs := jobs s; imap := imap s; imapInstances := imapInstances s;
     timers := timers s; ticks := ticks s; ingest := f (ingest s) |}.

Definition set_contacts (f : list ContactRow → list ContactRow) : MailDb → MailDb := set_ingest (λ g,
  {| contacts := f (contacts g); mailSubscriptions := mailSubscriptions g;
     messageAttachments := messageAttachments g; uploads := uploads g; buffers := buffers g; identityQuotaMap := identityQuotaMap g |}).
Definition set_subscriptions (f : list SubscriptionRow → list SubscriptionRow) : MailDb → MailDb := set_ingest (λ g,
  {| contacts := contacts g; mailSubscriptions := f (mailSubscriptions g);
     messageAttachments := messageAttachments g; uploads := uploads g; buffers := buffers g; identityQuotaMap := identityQuotaMap g |}).
Definition set_attachments (f : list AttachmentRow → list AttachmentRow) : MailDb → MailDb := set_ingest (λ g,
  {| contacts := contacts g; mailSubscriptions := mailSubscriptions g;
     messageAttachments := f (messageAttachments g); uploads := uploads g; buffers := buffers g; identityQuotaMap := identityQuotaMap g |}).
Definition set_uploads (f : list jsstr → list jsstr) : MailDb → MailDb := set_ingest (λ g,
  {| contacts := contacts g; mailSubscriptions := mailSubscriptions g;
     messageAttachments := messageAttachments g; uploads := f (uploads g); buffers := buffers g; identityQuotaMap := identityQuotaMap g |}).
Definition set_buffers (f : Buffers → Buffers) : MailDb → MailDb := set_ingest (λ g,
  {| contacts := contacts g; mailSubscriptions := mailSubscriptions g;
     messageAttachments := messageAttachments g; uploads := uploads g; buffers := f (buffers g); identityQuotaMap := identityQuotaMap g |}).

Definition set_quotas (f : jsmap jsstr IdentityQuota → jsmap jsstr IdentityQuota) : MailDb → MailDb := set_ingest (λ g,
  {| contacts := contacts g; mailSubscriptions := mailSubscriptions g;
     messageAttachments := messageAttachments g; uploads := uploads g; buffers := buffers g;
     identityQuotaMap := f (identityQuotaMap g) |}).

Definition no_buffers : Buffers :=
  {| searchBuffer := []; webhookBuffer := []; icsBuffer := []; rulesBuffer := []; flushTimer := false |}.
Definition no_ingest : Ingest :=
  {| contacts := []; mailSubscriptions := []; messageAttachments := []; uploads := []; buffers := no_buffers;
     identityQuotaMap := [] |}.

Abbreviation proc := (prog MailDb).

(** [UPDATE ... SET f WHERE p] *)
Definition update_where {A} (p : A → bool) (f : A → A) (rows : list A) : list A :=
  map (λ r, if p r then f r else r) rows.

(** [queue.add(name, data, opts)] *)
Definition add_job (j : Job) : proc unit := modify (set_jobs (λ l, l ++ [j])).

(** [new Date()], with [clock] the instants the calls see. *)
Definition new_Date (clock : nat → Z) : proc Z := λ s, (tick s, Done (clock (ticks s))).

(** [db.transaction]: if the body throws the tables are as before; what is not in the database
    (jobs, IMAP, the clock) stays. *)
Definition rollback (s s' : MailDb) : MailDb :=
  {| messages := messages s; mailboxes := mailboxes s; threads := threads s; identities := identities s;
     labels := labels s; mailRules := mailRules s; mailRuleActions := mailRuleActions s;
     mailboxThreads := mailboxThreads s; mailboxThreadLabels := mailboxThreadLabels s;
     mailboxSync := mailboxSync s; jobs := jobs s'; imap := imap s'; imapInstances := imapInstances s';
     timers := timers s'; ticks := ticks s';
     ingest := {| contacts := contacts (ingest s); mailSubscriptions := mailSubscriptions (ingest s);
                  messageAttachments := messageAttachments (ingest s); uploads := uploads (ingest s');
                  buffers := buffers (ingest s'); identityQuotaMap := identityQuotaMap (ingest s') |} |}.

Definition transaction {A} (p : proc A) : proc A := λ s,
  match p s with (s', Done a) => (s', Done a) | (s', Threw) => (rollback s s', Threw) end.

Ltac unfold_proc := unfold mbind, proc_bind, mret, proc_ret, modify, add_job, new_Date, read, throw.

(** ** Columns *)

(** The unique keys [(mailbox_id, message_id)] and [(thread_id, mailbox_id)]. *)
Definition message_key (r : MessageRow) : jsstr * jsstr := (m_mailboxId r, m_messageId r).
Definition thread_key (r : MailboxThreadRow) : jsstr * jsstr := (mt_threadId r, mt_mailboxId r).

Definition msg_in (threadId mailboxId : jsstr) (r : MessageRow) : bool :=
  bool_decide (m_threadId r = threadId) && bool_decide (m_mailboxId r = mailboxId).

Definition row_in (threadId mailboxId : jsstr) (r : MailboxThreadRow) : bool :=
  bool_decide (mt_threadId r = threadId) && bool_decide (mt_mailboxId r = mailboxId).

(** [count( * ) filter (where seen = false)] *)
Definition unread_in (threadId mailboxId : jsstr) (rows : list MessageRow) : Z :=
  Z.of_nat (length (filter (λ r, m_seen r = false) (filter (λ r, msg_in threadId mailboxId r = true) rows))).

(** [bool_or(flagged)]: [None] (NULL) without rows. *)
Definition any_flagged (threadId mailboxId : jsstr) (rows : list MessageRow) : option bool :=
  match filter (λ r, msg_in threadId mailboxId r = true) rows with
  | [] => None
  | rs => Some (existsb m_flagged rs)
  end.

(** [SET seen, flagged, answered] (those given) and [updatedAt] *)
Definition with_flags (seen flagged answered : option bool) (now : Z) (r : MessageRow) : MessageRow :=
  {| m_id := m_id r; m_ownerId := m_ownerId r; m_mailboxId := m_mailboxId r; m_threadId := m_threadId r;
     m_messageId := m_messageId r; m_inReplyTo := m_inReplyTo r; m_references := m_references r;
     m_replyTo := m_replyTo r; m_subject := m_subject r; m_snippet := m_snippet r; m_text := m_text r;
     m_html := m_html r;
     m_from := m_from r; m_to := m_to r; m_cc := m_cc r; m_bcc := m_bcc r; m_date := m_date r;
     m_sizeBytes := m_sizeBytes r; m_seen := default (m_seen r) seen;
     m_answered := default (m_answered r) answered; m_flagged := default (m_flagged r) flagged;
     m_hasAttachments := m_hasAttachments r; m_headersJson := m_headersJson r;
     m_metaData := m_metaData r; m_rawStorageKey := m_rawStorageKey r; m_createdAt := m_createdAt r;
     m_updatedAt := now |}.

Definition set_seen (now : Z) : MessageRow → MessageRow := with_flags (Some true) None None now.
Definition set_flagged (now : Z) : MessageRow → MessageRow := with_flags None (Some true) None now.

(** [SET mailboxId, metaData, updatedAt] *)
Definition with_location (mailboxId : jsstr) (meta : option (list (jsstr * jsval))) (now : Z)
    (r : MessageRow) : MessageRow :=
  {| m_id := m_id r; m_ownerId := m_ownerId r; m_mailboxId := mailboxId; m_threadId := m_threadId r;
     m_messageId := m_messageId r; m_inReplyTo := m_inReplyTo r; m_references := m_references r;
     m_replyTo := m_replyTo r; m_subject := m_subject r; m_snippet := m_snippet r; m_text := m_text r;
     m_html := m_html r;
     m_from := m_from r; m_to := m_to r; m_cc := m_cc r; m_bcc := m_bcc r; m_date := m_date r;
     m_sizeBytes := m_sizeBytes r; m_seen := m_seen r; m_answered := m_answered r; m_flagged := m_flagged r;
     m_hasAttachments := m_hasAttachments r; m_headersJson := m_headersJson r;
     m_metaData := meta; m_rawStorageKey := m_rawStorageKey r; m_createdAt := m_createdAt r;
     m_updatedAt := now |}.

(** [SET mailboxId, mailboxSlug, unreadCount, starred, updatedAt] *)
Definition with_row (mailboxId : jsstr) (slug : option jsstr) (unread : Z) (starred : bool) (now : Z)
    (r : MailboxThreadRow) : MailboxThreadRow :=
  {| mt_threadId := mt_threadId r; mt_mailboxId := mailboxId; mt_ownerId := mt_ownerId r;
     mt_identityId := mt_identityId r; mt_identityPublicId := mt_identityPublicId r; mt_mailboxSlug := slug;
     mt_subject := mt_subject r; mt_previewText := mt_previewText r; mt_lastActivityAt := mt_lastActivityAt r;
     mt_firstMessageAt := mt_firstMessageAt r; mt_messageCount := mt_messageCount r; mt_unreadCount := unread;
     mt_hasAttachments := mt_hasAttachments r; mt_starred := starred; mt_participants := mt_participants r;
     mt_snoozedUntil := mt_snoozedUntil r; mt_unsnoozedAt := mt_unsnoozedAt r; mt_updatedAt := now |}.

Definition set_aggregates (unread : Z) (starred : bool) (now : Z) (r : MailboxThreadRow) : MailboxThreadRow :=
  with_row (mt_mailboxId r) (mt_mailboxSlug r) unread starred now r.
Definition set_unread (unread now : Z) (r : MailboxThreadRow) : MailboxThreadRow :=
  set_aggregates unread (mt_starred r) now r.

(** ** Lemmas *)

Lemma msg_in_spec t b r : msg_in t b r = true ↔ m_threadId r = t ∧ m_mailboxId r = b.
Proof. unfold msg_in. by rewrite andb_true_iff, !bool_decide_eq_true. Qed.

Lemma row_in_spec t b r : row_in t b r = true ↔ mt_threadId r = t ∧ mt_mailboxId r = b.
Proof. unfold row_in. by rewrite andb_true_iff, !bool_decide_eq_true. Qed.

Lemma update_where_none {A} (p : A → bool) f (l : list A) : (∀ x, x ∈ l → p x = false) → update_where p f l = l.
Proof.
  intros Hp. unfold update_where. induction l as [|x l IH]; [done|]. simpl.
  rewrite Hp, IH; [done|set_solver|set_solver].
Qed.

Lemma update_where_twice {A} (p q : A → bool) f g (l : list A) :
  (∀ x, q x = true → p x = true ∧ g (f x) = g x) → (∀ x, p (f x) = p x) →
  update_where p g (update_where q f l) = update_where p g l.
Proof.
  intros Hq Hp. unfold update_where. rewrite map_map. apply map_ext. intros x. destruct (q x) eqn:E; [|done].
  destruct (Hq x E) as [E1 E2]. by rewrite Hp, E1.
Qed.

Lemma elem_of_update_where {A} (p : A → bool) f (l : list A) x :
  x ∈ update_where p f l → ∃ y, y ∈ l ∧ x = if p y then f y else y.
Proof. unfold update_where. intros (y & -> & Hy)%list_elem_of_fmap. by exists y. Qed.

Lemma update_where_length {A} p (f : A → A) rows : length (update_where p f rows) = length rows.
Proof. apply length_map. Qed.

(** An update that leaves a selection alone. *)
Lemma filter_update_other {A} (q p : A → bool) (f : A → A) rows :
  (∀ r, p r = true → q (f r) = q r) → (∀ r, p r = true → q r = false) →
  filter (λ r, q r = true) (update_where p f rows) = filter (λ r, q r = true) rows.
Proof.
  intros Hq Hp. unfold update_where. induction rows as [|r rows IH]; simpl; [done|].
  rewrite !filter_cons, IH. destruct (p r) eqn:E; [|done]. rewrite Hq by done.
  by rewrite !decide_False by (rewrite Hp by done; done).
Qed.

(** An update of exactly a selection. *)
Lemma filter_update_same {A} (p : A → bool) (f : A → A) rows :
  (∀ r, p (f r) = p r) →
  filter (λ r, p r = true) (update_where p f rows) = map f (filter (λ r, p r = true) rows).
Proof.
  intros Hp. unfold update_where. induction rows as [|r rows IH]; simpl; [done|].
  rewrite !filter_cons. destruct (p r) eqn:E.
  - rewrite decide_True by by rewrite Hp. rewrite decide_True by done. simpl. by rewrite IH.
  - by rewrite decide_False, decide_False, IH by congruence.
Qed.

(** ** The aggregates of threads *)

(** Every row of [mailbox_threads] holds the number of unread messages of its thread and whether
    one of them is starred. *)
Definition aggregates (s : MailDb) : Prop :=
  Forall (λ r, mt_unreadCount r = unread_in (mt_threadId r) (mt_mailboxId r) (messages s) ∧
               mt_starred r = default false (any_flagged (mt_threadId r) (mt_mailboxId r) (messages s)))
    (mailboxThreads s).

#[export] Instance aggregates_dec s : Decision (aggregates s).
Proof. unfold aggregates. apply _. Defined.

Lemma any_flagged_rows t b rows rows' :
  map m_flagged (filter (λ r, msg_in t b r = true) rows) =
  map m_flagged (filter (λ r, msg_in t b r = true) rows') →
  any_flagged t b rows = any_flagged t b rows'.
Proof.
  unfold any_flagged. intros H. set (l := filter _ rows) in *. set (k := filter _ rows') in *.
  assert (∀ l, existsb m_flagged l = existsb id (map m_flagged l)) as He.
  { clear. induction l as [|r l IH]; simpl; [done|]. by rewrite IH. }
  destruct l as [|r l], k as [|r' k]; simplify_eq/=; [done|]. rewrite !He. congruence.
Qed.

(** The other rows keep their aggregates when a thread's messages change. *)
Lemma unread_in_other t b t' b' f rows :
  (∀ r, msg_in t b (f r) = msg_in t b r) → (∀ r, msg_in t' b' (f r) = msg_in t' b' r) →
  (t, b) ≠ (t', b') → unread_in t' b' (update_where (msg_in t b) f rows) = unread_in t' b' rows ∧
  any_flagged t' b' (update_where (msg_in t b) f rows) = any_flagged t' b' rows.
Proof.
  intros Hf Hf' Hne. assert (filter (λ r, msg_in t' b' r = true) (update_where (msg_in t b) f rows) =
    filter (λ r, msg_in t' b' r = true) rows) as E.
  { apply filter_update_other; [done|]. intros r [<- <-]%msg_in_spec.
    apply not_true_iff_false. rewrite msg_in_spec. intros [? ?]. by apply Hne; f_equal. }
  unfold unread_in, any_flagged. by rewrite E.
Qed.

Lemma aggregates_update t b f g s :
  (∀ r, msg_in t b (f r) = msg_in t b r) → (∀ t' b' r, msg_in t' b' (f r) = msg_in t' b' r) →
  (∀ r, mt_threadId (g r) = mt_threadId r ∧ mt_mailboxId (g r) = mt_mailboxId r) →
  (∀ r, row_in t b r = true → mt_starred r = default false (any_flagged t b (messages s)) →
     let ms := update_where (msg_in t b) f (messages s) in
     mt_unreadCount (g r) = unread_in t b ms ∧ mt_starred (g r) = default false (any_flagged t b ms)) →
  aggregates s →
  aggregates (set_mailboxThreads (update_where (row_in t b) g) (set_messages (update_where (msg_in t b) f) s)).
Proof.
  intros Hf Hf' Hg Hnew Hs. unfold aggregates in *. simpl. apply Forall_map.
  eapply Forall_impl; [exact Hs|]. intros r [Hu Hst]. simpl.
  destruct (row_in t b r) eqn:E.
  - destruct (Hg r) as [-> ->]. pose proof E as [Ht Hb]%row_in_spec. rewrite Ht, Hb in *.
    by apply Hnew.
  - destruct (unread_in_other t b (mt_threadId r) (mt_mailboxId r) f (messages s)) as [-> ->]; try done.
    intros [= -> ->]. apply not_true_iff_false in E. apply E, row_in_spec. done.
Qed.

(** ** Transactions *)

Lemma steps_transaction (R : MailDb → MailDb → Prop) {A} (p : proc A) :
  (∀ s s', R s s' → R s (rollback s s')) → steps R p → steps R (transaction p).
Proof.
  intros Hr Hp s. unfold transaction. pose proof (Hp s) as H. destruct (p s) as [s' [a|]]; [done|].
  by apply Hr.
Qed.
