(* ===== verification/MailRollup.v ===== *)
(** * The summary of a thread in a mailbox ([packages/common/src/mail.ts])

    [upsertMailboxThreadItem] recomputes the row of [mailbox_threads] of a message's thread from
    the messages of its mailbox and merges it into the stored row; ties of the query's order are
    in the order of the table. *)

From stdpp Require Import base list.
From S2P Require Import Prelude JsString JsRegex JsNumber JsValue RuleMatcher MailDb.

(** ** [generateSnippet], [buildParticipantsSnapshot] *)

Definition generateSnippet (text : jsstr) : option jsstr :=
  if truthy text then Some (slice (re_replace_all (rplus (RChr is_space)) (λ _, " "%js) text) 0 100)
  else None.

(** The address columns are NULL or an object of the type [AddressObjectJSON]. *)
Definition address_values (addrObj : jsval) : list jsval :=
  match get_prop addrObj "value"%js with VArr l => l | _ => [] end.

(** [v || null] on a text *)
Definition text_or_null (v : jsval) : option jsstr := match v with VStr s => or_undefined s | _ => None end.

Definition extract (addrObj : jsval) : list Mini :=
  take 5 (omap (λ a, (λ x, {| n := text_or_null (get_prop a "name"%js); e := x |}) <$>
                       text_or_null (get_prop a "address"%js)) (address_values addrObj)).

Definition buildParticipantsSnapshot (m : MessageRow) : Participants :=
  {| p_from := extract (m_from m); p_to := extract (m_to m);
     p_cc := extract (m_cc m); p_bcc := extract (m_bcc m) |}.

(** ** The participants of the thread *)

(** What is collected under one key, and the addresses seen. *)
Record Bucket := { items : list Mini; seenAddr : list jsstr }.

Definition full (b : Bucket) : bool := 5 <=? length (items b).

(** [for (const p of snap[k])] *)
Fixpoint add_snap (snap : list Mini) (b : Bucket) : Bucket :=
  match snap with
  | [] => b
  | p :: rest =>
      let email := toLowerCase (e p) in
      if negb (truthy email) || bool_decide (email ∈ seenAddr b) then add_snap rest b
      else
        let b' := {| items := items b ++ [p]; seenAddr := set_add email (seenAddr b) |} in
        if full b' then b' else add_snap rest b'
  end.

Definition add_row (snap : list Mini) (b : Bucket) : Bucket := if full b then b else add_snap snap b.

Record Buckets := { b_from : Bucket; b_to : Bucket; b_cc : Bucket; b_bcc : Bucket }.

Fixpoint collect_rows (rows : list MessageRow) (b : Buckets) : Buckets :=
  match rows with
  | [] => b
  | r :: rest =>
      let snap := buildParticipantsSnapshot r in
      let b' := {| b_from := add_row (p_from snap) (b_from b); b_to := add_row (p_to snap) (b_to b);
                   b_cc := add_row (p_cc snap) (b_cc b); b_bcc := add_row (p_bcc snap) (b_bcc b) |} in
      if full (b_from b') && full (b_to b') && full (b_cc b') && full (b_bcc b') then b'
      else collect_rows rest b'
  end.

Definition empty_bucket : Bucket := {| items := []; seenAddr := [] |}.
Definition empty_buckets : Buckets :=
  {| b_from := empty_bucket; b_to := empty_bucket; b_cc := empty_bucket; b_bcc := empty_bucket |}.

Definition participants_of (rows : list MessageRow) : Participants :=
  let b := collect_rows rows empty_buckets in
  {| p_from := items (b_from b); p_to := items (b_to b); p_cc := items (b_cc b); p_bcc := items (b_bcc b) |}.

(** ** [upsertMailboxThreadItem] *)

Definition coalesceDate (r : MessageRow) : Z := default (m_createdAt r) (m_date r).

(** The messages of the thread in the mailbox, the newest first. *)
Definition thread_rows (s : MailDb) (msg : MessageRow) (mbx : MailboxRow) : list MessageRow :=
  sort_by (λ a b, coalesceDate b - coalesceDate a)%Z
    (filter (λ m, m_ownerId m = m_ownerId msg ∧ m_threadId m = m_threadId msg ∧ m_mailboxId m = mb_id mbx)
       (messages s)).

Definition payload (now : Z) (msg : MessageRow) (mbx : MailboxRow) (ident : IdentityRow) (rows : list MessageRow)
    (newest oldest : MessageRow) : MailboxThreadRow :=
  {| mt_threadId := m_threadId msg; mt_mailboxId := mb_id mbx; mt_ownerId := mb_ownerId mbx;
     mt_identityId := mb_identityId mbx; mt_identityPublicId := id_publicId ident;
     mt_mailboxSlug := mb_slug mbx;
     mt_subject := Some (js_or (trim (default [] (m_subject newest))) "(no subject)"%js);
     mt_previewText :=
       match m_snippet newest with
       | Some s => Some s
       | None => generateSnippet (opt_or (m_text newest) (default [] (m_html newest)))
       end;
     mt_lastActivityAt := coalesceDate newest; mt_firstMessageAt := Some (coalesceDate oldest);
     mt_messageCount := Z.of_nat (length rows);
     mt_unreadCount := foldl (λ acc r, acc + (if m_seen r then 0 else 1))%Z 0%Z rows;
     mt_hasAttachments := existsb m_hasAttachments rows; mt_starred := existsb m_flagged rows;
     mt_participants := Some (participants_of rows);
     mt_snoozedUntil := None; mt_unsnoozedAt := None; mt_updatedAt := now |}.

(** [ON CONFLICT DO UPDATE SET ...]: [old] is the stored row, [new] is [EXCLUDED].
    [jsonb_strip_nulls (NULL || x)] is NULL; otherwise the keys of the new object replace all four. *)
Definition merge_row (now : Z) (old new : MailboxThreadRow) : MailboxThreadRow :=
  {| mt_threadId := mt_threadId old; mt_mailboxId := mt_mailboxId old; mt_ownerId := mt_ownerId old;
     mt_identityId := mt_identityId new; mt_identityPublicId := mt_identityPublicId new;
     mt_mailboxSlug := mt_mailboxSlug new;
     mt_subject := match mt_subject new with Some s => Some s | None => mt_subject old end;
     mt_previewText := match mt_previewText new with Some s => Some s | None => mt_previewText old end;
     mt_lastActivityAt := Z.max (mt_lastActivityAt new) (mt_lastActivityAt old);
     mt_firstMessageAt :=
       match mt_firstMessageAt new, mt_firstMessageAt old with
       | Some a, Some b => Some (Z.min a b)
       | Some a, None => Some a
       | None, o => o
       end;
     mt_messageCount := mt_messageCount new; mt_unreadCount := mt_unreadCount new;
     mt_hasAttachments := mt_hasAttachments old || mt_hasAttachments new;
     mt_starred := mt_starred old || mt_starred new;
     mt_participants := match mt_participants old with Some _ => mt_participants new | None => None end;
     mt_snoozedUntil := mt_snoozedUntil old; mt_unsnoozedAt := mt_unsnoozedAt old; mt_updatedAt := now |}.

Definition same_key (a b : MailboxThreadRow) : bool :=
  bool_decide (mt_threadId a = mt_threadId b) && bool_decide (mt_mailboxId a = mt_mailboxId b).

Fixpoint upsert (now : Z) (row : MailboxThreadRow) (table : list MailboxThreadRow) : list MailboxThreadRow :=
  match table with
  | [] => [row]
  | old :: rest => if same_key old row then merge_row now old row :: rest else old :: upsert now row rest
  end.

Section Upsert.
Context (clock : nat → Z).

(** The instant is both [new Date()] and the database's [now()]. *)
Definition upsertMailboxThreadItem (messageId : jsstr) : proc (jsstr * jsstr) :=
  s ← read;
  msg ← or_throw (List.find (λ m, bool_decide (m_id m = messageId)) (messages s));
  mbx ← or_throw (List.find (λ b, bool_decide (mb_id b = m_mailboxId msg)) (mailboxes s));
  ident ← or_throw (List.find (λ i, bool_decide (id_id i = mb_identityId mbx)) (identities s));
  let rows := match thread_rows s msg mbx with [] => [msg] | rs => rs end in
  let newest := default msg (head rows) in
  let oldest := default msg (last rows) in
  now ← new_Date clock;
  _ ← modify (set_mailboxThreads (upsert now (payload now msg mbx ident rows newest oldest)));
  mret (m_threadId msg, mb_id mbx).
End Upsert.

(** ** Specification: the participants *)

(** The first mention of each address, upper and lower case alike, leaving out [seen]. *)
Fixpoint first_mentions (seen : list jsstr) (l : list Mini) : list Mini :=
  match l with
  | [] => []
  | p :: rest =>
      let email := toLowerCase (e p) in
      if negb (truthy email) || bool_decide (email ∈ seen) then first_mentions seen rest
      else p :: first_mentions (email :: seen) rest
  end.

Definition mentions (f : Participants → list Mini) (rows : list MessageRow) : list Mini :=
  flat_map (λ r, f (buildParticipantsSnapshot r)) rows.

(** A bucket under construction: at most five items, the addresses seen known. *)
Definition bucket_ok (b : Bucket) : Prop := length (items b) ≤ 5.

(** What a bucket ends with when [l] is still to come. *)
Definition will_hold (b : Bucket) (l : list Mini) : list Mini :=
  take 5 (items b ++ first_mentions (seenAddr b) l).

Lemma first_mentions_ext s1 s2 l :
  (∀ x, x ∈ s1 ↔ x ∈ s2) → first_mentions s1 l = first_mentions s2 l.
Proof.
  revert s1 s2. induction l as [|p l IH]; intros s1 s2 H; simpl; [done|].
  rewrite (bool_decide_ext _ _ (H (toLowerCase (e p)))).
  destruct (_ || _); [by apply IH|]. f_equal. apply IH. set_solver.
Qed.

Lemma will_hold_full b l : bucket_ok b → full b = true → will_hold b l = items b.
Proof.
  unfold bucket_ok, full, will_hold. intros Hb Hf%Nat.leb_le.
  rewrite take_app_le by lia. by rewrite take_ge by lia.
Qed.

Lemma add_snap_spec snap b more :
  bucket_ok b → full b = false →
  bucket_ok (add_snap snap b) ∧ will_hold (add_snap snap b) more = will_hold b (snap ++ more).
Proof.
  revert b. induction snap as [|p rest IH]; intros b Hb Hf; simpl; [done|].
  set (email := toLowerCase (e p)). set (b' := {| items := _; seenAddr := _ |}).
  destruct (negb (truthy email) || bool_decide (email ∈ seenAddr b)) eqn:E.
  - destruct (IH b Hb Hf) as [H1 H2]. split; [done|]. rewrite H2. unfold will_hold. simpl.
    fold email. by rewrite E.
  - assert (bucket_ok b') as Hb'.
    { unfold bucket_ok, full, b' in *. simpl. rewrite length_app. apply Nat.leb_gt in Hf. simpl. lia. }
    assert (∀ l, will_hold b' l = will_hold b (p :: l)) as Hw.
    { intros l. unfold will_hold, b'. simpl. fold email. rewrite E, <- app_assoc. simpl. do 2 f_equal.
      f_equal. apply first_mentions_ext. intros x. rewrite elem_of_set_add, elem_of_cons. done. }
    destruct (full b') eqn:F.
    + split; [done|]. rewrite <- Hw, !will_hold_full by done. done.
    + destruct (IH b' Hb' F) as [H1 H2]. split; [done|]. by rewrite H2, Hw.
Qed.

Lemma add_row_spec snap b more :
  bucket_ok b → bucket_ok (add_row snap b) ∧ will_hold (add_row snap b) more = will_hold b (snap ++ more).
Proof.
  intros Hb. unfold add_row. destruct (full b) eqn:F; [|by apply add_snap_spec].
  by rewrite !will_hold_full by done.
Qed.

Lemma will_hold_nil b : bucket_ok b → will_hold b [] = items b.
Proof. intros Hb. unfold will_hold. simpl. rewrite app_nil_r. by apply take_ge. Qed.

(** A bucket of each key, after all the rows. *)
Definition collected (get : Buckets → Bucket) (f : Participants → list Mini) rows b : Prop :=
  items (get (collect_rows rows b)) = will_hold (get b) (mentions f rows).

Lemma collect_rows_spec rows b :
  bucket_ok (b_from b) → bucket_ok (b_to b) → bucket_ok (b_cc b) → bucket_ok (b_bcc b) →
  collected b_from p_from rows b ∧ collected b_to p_to rows b ∧
  collected b_cc p_cc rows b ∧ collected b_bcc p_bcc rows b.
Proof.
  unfold collected. revert b. induction rows as [|r rest IH]; intros b H1 H2 H3 H4.
  { simpl. by rewrite !will_hold_nil. }
  cbn [collect_rows]. set (snap := buildParticipantsSnapshot r). set (b' := Build_Buckets _ _ _ _).
  assert (∀ f, mentions f (r :: rest) = f snap ++ mentions f rest) as Hm by done. rewrite !Hm.
  destruct (add_row_spec (p_from snap) (b_from b) (mentions p_from rest) H1) as [O1 W1].
  destruct (add_row_spec (p_to snap) (b_to b) (mentions p_to rest) H2) as [O2 W2].
  destruct (add_row_spec (p_cc snap) (b_cc b) (mentions p_cc rest) H3) as [O3 W3].
  destruct (add_row_spec (p_bcc snap) (b_bcc b) (mentions p_bcc rest) H4) as [O4 W4].
  rewrite <- W1, <- W2, <- W3, <- W4. destruct (_ && _) eqn:F; [|by apply (IH b')].
  repeat (apply andb_true_iff in F as [F ?]). by rewrite !will_hold_full.
Qed.

(** The participants of a thread are, for each of from, to, cc and bcc, the first five
    addresses mentioned in its messages from the newest to the oldest, each once whatever its case;
    stopping the loop early loses none of them. *)
Theorem participants_of_spec rows :
  let first5 f := take 5 (first_mentions [] (mentions f rows)) in
  participants_of rows =
  {| p_from := first5 p_from; p_to := first5 p_to; p_cc := first5 p_cc; p_bcc := first5 p_bcc |}.
Proof.
  assert (bucket_ok empty_bucket) as He by (unfold bucket_ok; simpl; lia).
  destruct (collect_rows_spec rows empty_buckets He He He He) as (H1 & H2 & H3 & H4).
  unfold collected in *. unfold participants_of. by rewrite H1, H2, H3, H4.
Qed.

(** ** Theorems on the upsert *)

Lemma upsert_keys now row table :
  map (λ r, (mt_threadId r, mt_mailboxId r)) (upsert now row table) =
  if decide ((mt_threadId row, mt_mailboxId row) ∈ map (λ r, (mt_threadId r, mt_mailboxId r)) table)
  then map (λ r, (mt_threadId r, mt_mailboxId r)) table
  else map (λ r, (mt_threadId r, mt_mailboxId r)) table ++ [(mt_threadId row, mt_mailboxId row)].
Proof.
  induction table as [|old table IH]; [done|]. cbn [upsert map].
  destruct (same_key old row) eqn:E; unfold same_key in E.
  - bool_to_prop. rewrite decide_True; [done|]. apply elem_of_cons. left. congruence.
  - cbn [map]. rewrite IH. apply andb_false_iff in E. repeat rewrite bool_decide_eq_false in E.
    destruct (decide (_ ∈ map _ table)) as [Hin|Hin].
    + rewrite decide_True; [done|]. apply elem_of_cons. by right.
    + rewrite decide_False; [done|]. rewrite elem_of_cons. intros [Heq|?]; [|done]. injection Heq. intros. destruct E; congruence.
Qed.

Lemma upsert_lookup now row table :
  NoDup (map (λ r, (mt_threadId r, mt_mailboxId r)) table) →
  let get := List.find (λ r, same_key r row) in
  get (upsert now row table) = Some (match get table with Some old => merge_row now old row | None => row end) ∧
  filter (λ r, same_key r row = false) (upsert now row table) = filter (λ r, same_key r row = false) table.
Proof.
  intros Hnd. cbv zeta. assert (same_key row row = true) as Hself.
  { unfold same_key. by rewrite !bool_decide_true. }
  induction table as [|old table IH]; simpl.
  { rewrite Hself. split; [done|]. by rewrite filter_cons_False by congruence. }
  apply NoDup_cons in Hnd as [Hn Hnd].
  destruct (same_key old row) eqn:E.
  - simpl. assert (same_key (merge_row now old row) row = true) as -> by exact E. split; [done|].
    rewrite !filter_cons_False; [done|congruence|]. change (same_key old row ≠ false). congruence.
  - simpl. rewrite E. destruct (IH Hnd) as [-> Hf]. split; [done|].
    by rewrite !filter_cons_True, Hf.
Qed.

Lemma find_Some_spec {A} (p : A → bool) l x : List.find p l = Some x → x ∈ l ∧ p x = true.
Proof. intros [? ?]%List.find_some. split; [by apply list_elem_of_In|done]. Qed.

Lemma unread_fold rows z :
  foldl (λ acc r, acc + (if m_seen r then 0 else 1))%Z z rows =
  (z + Z.of_nat (length (filter (λ r, m_seen r = false) rows)))%Z.
Proof.
  revert z. induction rows as [|r rows IH]; intros z; simpl; [lia|]. rewrite IH, filter_cons.
  destruct (m_seen r); simpl; lia.
Qed.

(** The messages a summary is about. *)
Definition in_summary (msg : MessageRow) (mbx : MailboxRow) (m : MessageRow) : Prop :=
  m_ownerId m = m_ownerId msg ∧ m_threadId m = m_threadId msg ∧ m_mailboxId m = mb_id mbx.

#[export] Instance in_summary_dec msg mbx m : Decision (in_summary msg mbx m).
Proof. unfold in_summary. apply _. Defined.

(** A row that summarises [ms], merged into the row [old] if there was one. *)
Record summarises (old : option MailboxThreadRow) (ms : list MessageRow) (row : MailboxThreadRow) : Prop := {
  s_count : mt_messageCount row = Z.of_nat (length ms);
  s_unread : mt_unreadCount row = Z.of_nat (length (filter (λ m, m_seen m = false) ms));
  s_starred : mt_starred row = true ↔ (∃ m, m ∈ ms ∧ m_flagged m = true) ∨
    match old with Some o => mt_starred o = true | None => False end;
  s_attachments : mt_hasAttachments row = true ↔ (∃ m, m ∈ ms ∧ m_hasAttachments m = true) ∨
    match old with Some o => mt_hasAttachments o = true | None => False end;
  s_last : (∀ m, m ∈ ms → coalesceDate m ≤ mt_lastActivityAt row)%Z ∧
    ((∃ m, m ∈ ms ∧ coalesceDate m = mt_lastActivityAt row) ∨
     match old with Some o => mt_lastActivityAt o = mt_lastActivityAt row | None => False end);
  s_first : ∃ t, mt_firstMessageAt row = Some t ∧ (∀ m, m ∈ ms → t ≤ coalesceDate m)%Z ∧
    ((∃ m, m ∈ ms ∧ coalesceDate m = t) ∨
     match old with Some o => mt_firstMessageAt o = Some t | None => False end);
}.

Lemma payload_summarises now msg mbx ident ms newest oldest :
  let rows := sort_by (λ a b, coalesceDate b - coalesceDate a)%Z ms in
  head rows = Some newest → last rows = Some oldest →
  summarises None ms (payload now msg mbx ident rows newest oldest).
Proof.
  intros rows Hn Ho. assert (∀ m, m ∈ rows ↔ m ∈ ms) as Hin by (intros; apply elem_of_sort_by).
  assert (rows ≡ₚ ms) as Hp by apply sort_by_perm.
  assert (newest ∈ ms) as Hnin by by apply Hin, head_Some_elem_of.
  assert (oldest ∈ ms) as Hoin by by apply Hin, last_Some_elem_of.
  assert (∀ p, existsb p rows = true ↔ (∃ m, m ∈ ms ∧ p m = true) ∨ False) as He.
  { intros p. rewrite existsb_exists. setoid_rewrite <- list_elem_of_In. setoid_rewrite Hin. naive_solver. }
  constructor; cbn [payload mt_messageCount mt_unreadCount mt_starred mt_hasAttachments mt_lastActivityAt
    mt_firstMessageAt].
  - by rewrite Hp.
  - rewrite unread_fold. by rewrite Hp.
  - apply He.
  - apply He.
  - split; [|left; eauto]. intros m Hm. destruct rows as [|r rs] eqn:E; [done|]. injection Hn as ->.
    pose proof (sort_by_hd_min _ newest m ms rs E Hm). lia.
  - eexists. split; [done|]. split; [|left; eauto]. intros m Hm.
    pose proof (sort_by_last_max _ oldest m ms Ho Hm). lia.
Qed.

Lemma merge_summarises now old ms row :
  summarises None ms row → summarises (Some old) ms (merge_row now old row).
Proof.
  intros [Hc Hu Hs Ha [Hl Hl'] (t & Ht & Hf & Hf')].
  constructor; cbn [merge_row mt_messageCount mt_unreadCount mt_starred mt_hasAttachments mt_lastActivityAt
    mt_firstMessageAt]; [done|done| | | |].
  - rewrite orb_true_iff, Hs. naive_solver.
  - rewrite orb_true_iff, Ha. naive_solver.
  - split; [intros m Hm; specialize (Hl m Hm); lia|].
    destruct (Z.max_spec (mt_lastActivityAt row) (mt_lastActivityAt old)) as [[_ ->]|[_ ->]]; [by right|].
    left. naive_solver.
  - rewrite Ht. destruct (mt_firstMessageAt old) as [b|]; [|exists t; naive_solver].
    eexists. split; [done|]. split; [intros m Hm; specialize (Hf m Hm); lia|].
    destruct (Z.min_spec t b) as [[_ ->]|[_ ->]]; [left|by right]. naive_solver.
Qed.

Lemma thread_rows_ne s msg mbx :
  msg ∈ messages s → m_mailboxId msg = mb_id mbx → thread_rows s msg mbx ≠ [].
Proof.
  intros Hin Hm Hnil. assert (msg ∈ thread_rows s msg mbx) as H; [|rewrite Hnil in H; set_solver].
  apply elem_of_sort_by, list_elem_of_filter. done.
Qed.

(** What the upsert does when the message, its mailbox and its identity are there. *)
Lemma upsert_run clock messageId s msg mbx ident :
  List.find (λ m, bool_decide (m_id m = messageId)) (messages s) = Some msg →
  List.find (λ b, bool_decide (mb_id b = m_mailboxId msg)) (mailboxes s) = Some mbx →
  List.find (λ i, bool_decide (id_id i = mb_identityId mbx)) (identities s) = Some ident →
  let now := clock (ticks s) in
  let rows := thread_rows s msg mbx in
  let row0 := payload now msg mbx ident rows (default msg (head rows)) (default msg (last rows)) in
  upsertMailboxThreadItem clock messageId s =
    (set_mailboxThreads (upsert now row0) (tick s), Done (m_threadId msg, mb_id mbx)) ∧
  summarises None (filter (in_summary msg mbx) (messages s)) row0.
Proof.
  intros Hmsg Hmbx Hid now rows row0. pose proof Hmsg as [Hin _]%find_Some_spec.
  pose proof Hmbx as [_ Hb%bool_decide_eq_true]%find_Some_spec.
  assert (rows ≠ []) as Hne by by apply thread_rows_ne.
  assert (∀ k : list MessageRow, k ≠ [] → match k with [] => [msg] | m :: l => m :: l end = k) as Hk by by intros [].
  split.
  - unfold upsertMailboxThreadItem. unfold_proc. rewrite Hmsg. cbn [or_throw]. unfold_proc. rewrite Hmbx.
    cbn [or_throw]. unfold_proc. rewrite Hid. cbn [or_throw]. unfold_proc. fold rows. rewrite (Hk rows Hne). done.
  - apply payload_summarises.
    + change (head rows = Some (default msg (head rows))). destruct (head rows) eqn:E; [done|].
      by apply head_None in E.
    + change (last rows = Some (default msg (last rows))). destruct (last rows) eqn:E; [done|].
      by apply last_None in E.
Qed.

(** The upsert leaves one row for the thread in the mailbox that summarises exactly the
    messages of the thread there: their number, how many are unread, the star and attachment flags
    (accumulated with the stored ones), the times of the newest and the oldest (never going
    backwards); the other rows stay, and it throws only without the message, its mailbox or its
    identity. *)
Theorem upsertMailboxThreadItem_spec clock messageId s msg mbx ident :
  NoDup (map (λ r, (mt_threadId r, mt_mailboxId r)) (mailboxThreads s)) →
  List.find (λ m, bool_decide (m_id m = messageId)) (messages s) = Some msg →
  List.find (λ b, bool_decide (mb_id b = m_mailboxId msg)) (mailboxes s) = Some mbx →
  List.find (λ i, bool_decide (id_id i = mb_identityId mbx)) (identities s) = Some ident →
  let key r := bool_decide (mt_threadId r = m_threadId msg) && bool_decide (mt_mailboxId r = mb_id mbx) in
  ∃ s' row, upsertMailboxThreadItem clock messageId s = (s', Done (m_threadId msg, mb_id mbx)) ∧
    messages s' = messages s ∧
    List.find key (mailboxThreads s') = Some row ∧
    summarises (List.find key (mailboxThreads s)) (filter (in_summary msg mbx) (messages s)) row ∧
    filter (λ r, key r = false) (mailboxThreads s') = filter (λ r, key r = false) (mailboxThreads s) ∧
    NoDup (map (λ r, (mt_threadId r, mt_mailboxId r)) (mailboxThreads s')).
Proof.
  intros Hnd Hmsg Hmbx Hid key. destruct (upsert_run clock messageId s msg mbx ident Hmsg Hmbx Hid) as [Hrun Hsum].
  rewrite Hrun. set (row0 := payload _ _ _ _ _ _ _) in *. set (now := clock (ticks s)).
  destruct (upsert_lookup now row0 (mailboxThreads s) Hnd) as [Hget Hoth].
  change (λ r, same_key r row0) with key in *.
  eexists _, _. split; [done|]. split; [done|]. split; [exact Hget|]. split; [|split; [exact Hoth|]].
  - destruct (List.find key (mailboxThreads s)); [by apply merge_summarises|exact Hsum].
  - simpl. rewrite upsert_keys. case_decide as Hin'; [done|].
    apply NoDup_app. split; [done|]. split; [|apply NoDup_singleton].
    by intros k Hk' ->%list_elem_of_singleton.
Qed.

Definition ex_msg (i : jsstr) (d : Z) (seen flagged : bool) (who : jsstr) : MessageRow := {|
  m_id := i; m_ownerId := "u"%js; m_mailboxId := "b"%js; m_threadId := "t"%js; m_messageId := i; m_inReplyTo := None;
  m_references := None; m_replyTo := VNull; m_subject := Some "Hi"%js; m_snippet := None; m_text := Some "hello"%js;
  m_html := None; m_from := VObj [("value", VArr [VObj [("address", VStr who)]])]%js; m_to := VNull; m_cc := VNull;
  m_bcc := VNull; m_date := Some d; m_sizeBytes := None; m_seen := seen; m_answered := false; m_flagged := flagged;
  m_hasAttachments := false; m_headersJson := None; m_metaData := None; m_rawStorageKey := None;
  m_createdAt := 0; m_updatedAt := 0 |}.

Definition ex_box : MailboxRow := {|
  mb_id := "b"%js; mb_identityId := "i"%js; mb_ownerId := "u"%js; mb_parentId := None; mb_kind := "inbox"%js;
  mb_name := None; mb_slug := None; mb_isDefault := true; mb_metaData := None |}.

Definition ex_identity : IdentityRow :=
  {| id_id := "i"%js; id_ownerId := "u"%js; id_publicId := "p"%js; id_kind := "email"%js; smtpAccountId := None; id_metaData := None |}.

Definition ex_store : MailDb := {|
  messages := [ex_msg "1"%js 10 true false "a@x"%js; ex_msg "2"%js 30 false true "A@x"%js;
               ex_msg "3"%js 20 false false "b@x"%js];
  mailboxes := [ex_box]; threads := [ {| t_id := "t"%js; t_ownerId := "u"%js; t_lastMessageDate := None |} ];
  identities := [ex_identity]; labels := []; mailRules := []; mailRuleActions := []; mailboxThreads := [];
  mailboxThreadLabels := []; mailboxSync := []; jobs := []; imap := []; imapInstances := []; timers := []; ticks := 99; ingest := no_ingest |}.

Lemma ex_upsert :
  map (λ w, (mt_messageCount w, mt_unreadCount w, mt_starred w, mt_lastActivityAt w, mt_firstMessageAt w,
             map e (default [] (p_from <$> mt_participants w))))
    (mailboxThreads (upsertMailboxThreadItem Z.of_nat "1"%js ex_store).1) =
  [(3, 2, true, 30, Some 10, ["A@x"; "b@x"]%js)]%Z.
Proof. vm_compute. reflexivity. Qed.

Lemma upsertMailboxThreadItem_spec_witness :
  ∃ s' row, upsertMailboxThreadItem Z.of_nat "1"%js ex_store = (s', Done ("t"%js, "b"%js)) ∧
    messages s' = messages ex_store ∧
    List.find (λ r, bool_decide (mt_threadId r = "t"%js) && bool_decide (mt_mailboxId r = "b"%js))
      (mailboxThreads s') = Some row ∧ mt_unreadCount row = 2%Z.
Proof.
  destruct (upsertMailboxThreadItem_spec Z.of_nat "1"%js ex_store (ex_msg "1"%js 10 true false "a@x"%js) ex_box
    ex_identity) as (s' & row & H1 & H2 & H3 & H4 & _); [constructor|reflexivity|reflexivity|reflexivity|].
  exists s', row. split; [exact H1|]. split; [exact H2|]. split; [exact H3|].
  rewrite (s_unread _ _ _ H4). vm_compute. reflexivity.
Defined.

(** The flags accumulate: a star is never taken away by the upsert. *)
Lemma star_never_cleared now old new : mt_starred old = true → mt_starred (merge_row now old new) = true.
Proof. intros H. simpl. by rewrite H. Qed.

(** The participants of the new row replace the stored ones, key by key. *)
Lemma participants_replaced now old new :
  is_Some (mt_participants old) → mt_participants (merge_row now old new) = mt_participants new.
Proof. intros [p Hp]. simpl. by rewrite Hp. Qed.
