(* ===== verification/Ingest.v ===== *)
(** * Storing an incoming message ([apps/worker/lib/message-payload-parser.ts])

    [parseAndStoreEmail] finds or makes the thread, inserts the message, notes the mailing list
    and the contact, recomputes the row of [mailbox_threads], stores the attachments and leaves
    the work for the other queues in buffers that are flushed by size or by a timer. *)

From stdpp Require Import base list.
From S2P Require Import Prelude JsString JsRegex JsNumber JsValue RuleMatcher ContactTable MailDb MailRollup.

(** ** A parsed message ([mailparser]) *)

Inductive References := NoReferences | OneReference (r : jsstr) | ManyReferences (l : list jsstr).

Record Attachment := {
  a_filename : option jsstr; a_contentType : option jsstr; a_contentDisposition : option jsstr;
  a_checksum : option jsstr; a_cid : option jsstr; a_size : option Z; a_length : Z;
}.

(** [pm_html] is [None] for [false] too; the addresses are objects of the type [AddressObject]. *)
Record ParsedMail := {
  pm_messageId : option jsstr; pm_inReplyTo : option jsstr; pm_references : References;
  pm_subject : option jsstr; pm_text : option jsstr; pm_html : option jsstr;
  pm_from : jsval; pm_to : jsval; pm_cc : jsval; pm_bcc : jsval; pm_replyTo : jsval; pm_date : option Z;
  pm_headers : list (jsstr * jsval); pm_attachments : list Attachment;
}.

Inductive Mode := live | backfill.

#[export] Instance Mode_eq_dec : EqDecision Mode.
Proof. solve_decision. Defined.

Record StoreOptions := {
  so_ownerId : jsstr; so_mailboxId : jsstr; so_rawStorageKey : jsstr; so_metaData : option (list (jsstr * jsval));
  so_seen : option bool; so_answered : option bool; so_flagged : option bool; so_mode : Mode;
}.

(** ** Buffers *)

Definition SEARCH_BATCH_SIZE : nat := 100.
Definition WEBHOOK_BATCH_SIZE : nat := 100.
Definition RULES_BATCH_SIZE : nat := 100.
Definition CALENDAR_BATCH_SIZE : nat := 100.

Definition set_search (f : list SearchJob → list SearchJob) : MailDb → MailDb := set_buffers (λ b,
  {| searchBuffer := f (searchBuffer b); webhookBuffer := webhookBuffer b; icsBuffer := icsBuffer b;
     rulesBuffer := rulesBuffer b; flushTimer := flushTimer b |}).
Definition set_webhook (f : list (MessageRow * jsstr) → list (MessageRow * jsstr)) : MailDb → MailDb :=
  set_buffers (λ b,
  {| searchBuffer := searchBuffer b; webhookBuffer := f (webhookBuffer b); icsBuffer := icsBuffer b;
     rulesBuffer := rulesBuffer b; flushTimer := flushTimer b |}).
Definition set_ics (f : list IcsJob → list IcsJob) : MailDb → MailDb := set_buffers (λ b,
  {| searchBuffer := searchBuffer b; webhookBuffer := webhookBuffer b; icsBuffer := f (icsBuffer b);
     rulesBuffer := rulesBuffer b; flushTimer := flushTimer b |}).
Definition set_rules (f : list jsstr → list jsstr) : MailDb → MailDb := set_buffers (λ b,
  {| searchBuffer := searchBuffer b; webhookBuffer := webhookBuffer b; icsBuffer := icsBuffer b;
     rulesBuffer := f (rulesBuffer b); flushTimer := flushTimer b |}).
Definition set_timer (t : bool) : MailDb → MailDb := set_buffers (λ b,
  {| searchBuffer := searchBuffer b; webhookBuffer := webhookBuffer b; icsBuffer := icsBuffer b;
     rulesBuffer := rulesBuffer b; flushTimer := t |}).

(** [queue.add(name, data, opts)] without attempts, delay and id: 0 stands for those. *)
Definition batch_job (q name : jsstr) (data : list (jsstr * jsval)) (onComplete onFail : bool) : proc unit :=
  add_job {| queue := q; job_name := name; job_data := data;
             job_opts := {| attempts := 0; backoff_delay := 0; removeOnComplete := onComplete;
                            removeOnFail := onFail; jobId := None |} |}.

Definition ics_item (j : IcsJob) : jsval :=
  VObj [("messageId", VStr (ij_messageId j)); ("messageAttachmentId", VStr (ij_messageAttachmentId j));
        ("mailboxId", VStr (ij_mailboxId j))]%js.

Section Flush.
(** A row of [messages] as JSON. *)
Context (row_json : MessageRow → jsval).

Definition flush_search : proc unit :=
  s ← read;
  let l := searchBuffer (buffers (ingest s)) in
  match l with
  | [] => mret tt
  | first :: _ =>
      _ ← batch_job "search-ingest"%js "addBatch"%js
            [("messageIds"%js, VArr (map (λ j, VStr (sj_messageId j)) l))] true false;
      _ ← batch_job "dav-worker"%js "dav:create-contacts-batch"%js
            [("contactIds"%js, VArr (map (λ j, VStr (sj_contactId j)) l)); ("ownerId"%js, VStr (sj_ownerId first))]
            true true;
      modify (set_search (λ _, []))
  end.

Definition flush_ics : proc unit :=
  s ← read;
  match icsBuffer (buffers (ingest s)) with
  | [] => mret tt
  | l =>
      _ ← batch_job "dav-worker"%js "dav:calendar:itip-ingest-batch"%js [("items"%js, VArr (map ics_item l))] true true;
      modify (set_ics (λ _, []))
  end.

Definition flush_webhook : proc unit :=
  s ← read;
  match webhookBuffer (buffers (ingest s)) with
  | [] => mret tt
  | l =>
      _ ← each (λ j, batch_job "common-worker"%js "webhook:message.received"%js
                       [("message", row_json j.1); ("rawEmail", VStr j.2)]%js false false) l;
      modify (set_webhook (λ _, []))
  end.

Definition flush_rules : proc unit :=
  s ← read;
  match rulesBuffer (buffers (ingest s)) with
  | [] => mret tt
  | l =>
      _ ← each (λ i, batch_job "common-worker"%js "rules:processor"%js [("messageId"%js, VStr i)] false false) l;
      modify (set_rules (λ _, []))
  end.

(** The queues accept every job (the [catch] is for the loss of the connection).  The flush runs
    here from its start to its end; the code waits for the queue between reading a buffer and
    emptying it, and what other calls do meanwhile is modelled step by step in [IngestRace]. *)
Definition flushBatches : proc unit :=
  _ ← flush_search; _ ← flush_ics; _ ← flush_webhook; flush_rules.

Definition scheduleFlush : proc unit :=
  s ← read;
  if flushTimer (buffers (ingest s)) then mret tt else modify (set_timer true).

(** The function the timer runs. *)
Definition flush_timer : proc unit :=
  _ ← modify (set_timer false);
  flushBatches.

Definition flush_or_schedule (full : bool) : proc unit := if full then flushBatches else scheduleFlush.
End Flush.

(** ** The thread of a message *)

(** [Array.isArray(references) ? references : references ? [references] : []] *)
Definition reference_list (r : References) : list jsstr :=
  match r with NoReferences => [] | OneReference s => if truthy s then [s] else [] | ManyReferences l => l end.

Definition in_reply_to (p : ParsedMail) : option jsstr := pm_inReplyTo p ≫= λ s, or_undefined (trim s).

Definition candidates (p : ParsedMail) : list jsstr :=
  set_of_list (filter (λ s, truthy s = true) (option_list (in_reply_to p) ++ reference_list (pm_references p))).

(** [ORDER BY date DESC]: NULL comes first. *)
Definition newest_first (a b : MessageRow) : Z :=
  match m_date a, m_date b with
  | None, None => 0
  | None, Some _ => -1
  | Some _, None => 1
  | Some x, Some y => (y - x)%Z
  end.

Definition parent_messages (ownerId : jsstr) (p : ParsedMail) (s : MailDb) : list MessageRow :=
  sort_by newest_first
    (filter (λ m, m_ownerId m = ownerId ∧ m_messageId m ∈ candidates p) (messages s)).

(** [inReplyTo ? parentMsgs.find((m) => m.messageId === inReplyTo) : parentMsgs[0]] *)
Definition chosen_parent (ownerId : jsstr) (p : ParsedMail) (s : MailDb) : option MessageRow :=
  match in_reply_to p with
  | Some i => List.find (λ m, bool_decide (m_messageId m = i)) (parent_messages ownerId p s)
  | None => head (parent_messages ownerId p s)
  end.

Definition existing_thread (ownerId : jsstr) (p : ParsedMail) (s : MailDb) : option ThreadRow :=
  chosen ← chosen_parent ownerId p s;
  if negb (truthy (m_threadId chosen)) then None
  else List.find (λ t, bool_decide (t_id t = m_threadId chosen)) (threads s).

Section Threads.
(** The instants of [new Date()] and the ids given to new rows. *)
Context (clock : nat → Z) (new_id : MailDb → jsstr).

Definition createOrInitializeThread (ownerId : jsstr) (p : ParsedMail) : proc ThreadRow :=
  transaction
    (s ← read;
     match existing_thread ownerId p s with
     | Some t => mret t
     | None =>
         last ← match pm_date p with Some d => mret d | None => new_Date clock end;
         let row := {| t_id := new_id s; t_ownerId := ownerId; t_lastMessageDate := Some last |} in
         _ ← modify (set_threads (λ l, l ++ [row]));
         mret row
     end).
End Threads.

(** ** The contact of the sender *)

Record FromAddress := { fa_email : jsstr; fa_name : option jsstr }.

Definition getFromAddress (p : ParsedMail) : option FromAddress :=
  from ← head (address_values (pm_from p));
  address ← text_or_null (get_prop from "address"%js);
  Some {| fa_email := toLowerCase (trim address);
          fa_name := or_undefined (trim (default [] (text_or_null (get_prop from "name"%js)))) |}.

(** [displayName.split(" ").filter(Boolean)], first and other words *)
Definition name_words (displayName : jsstr) : list jsstr := filter (λ w, truthy w = true) (split " "%char displayName).

Definition last_name (ws : list jsstr) : option jsstr :=
  match ws with _ :: (_ :: _) as rest => Some (join " "%js rest) | _ => None end.

Definition has_address (ownerId email : jsstr) (c : ContactRow) : bool :=
  bool_decide (ct_ownerId c = ownerId) && bool_decide (email ∈ ct_emails c).

Definition set_names (first : jsstr) (last : option jsstr) (c : ContactRow) : ContactRow :=
  {| ct_id := ct_id c; ct_ownerId := ct_ownerId c; ct_firstName := first; ct_lastName := last; ct_emails := ct_emails c |}.

Definition upsertContactsFromMessage (new_id : MailDb → jsstr) (ownerId : jsstr) (p : ParsedMail) :
    proc (option jsstr) :=
  match getFromAddress p with
  | None => mret None
  | Some addr =>
      s ← read;
      match List.find (has_address ownerId (fa_email addr)) (contacts (ingest s)) with
      | None =>
          let ws := from_option name_words [] (fa_name addr) in
          let row := {| ct_id := new_id s; ct_ownerId := ownerId;
                        ct_firstName := opt_or (head ws) "Unknown"%js; ct_lastName := last_name ws;
                        ct_emails := [fa_email addr] |} in
          _ ← modify (set_contacts (λ l, l ++ [row]));
          mret (Some (ct_id row))
      | Some contact =>
          let hasName := truthy (ct_firstName contact) || opt_truthy (ct_lastName contact) in
          match fa_name addr with
          | Some displayName =>
              if hasName then mret (Some (ct_id contact))
              else
                let ws := name_words displayName in
                let first := js_or (opt_or (head ws) (ct_firstName contact)) "Unknown"%js in
                _ ← modify (set_contacts (update_where (λ c, bool_decide (ct_id c = ct_id contact))
                                            (set_names first (last_name ws))));
                mret (Some (ct_id contact))
          | None => mret (Some (ct_id contact))
          end
      end
  end.

(** ** Mailing lists *)

Record Url := { u_protocol : jsstr; u_host : jsstr; u_pathname : jsstr }.

Definition header (p : ParsedMail) (name : jsstr) : jsval := default VUndef (jm_get name (pm_headers p)).

(** [/^<|>$/g], [/\s+/g], [/mailto:([^>\s,]+)/i], [/\/+$/] *)
Definition angle_re : regex := RAlt (RSeq RBegin (rchar "<")) (RSeq (rchar ">") REnd).
Definition spaces_re : regex := rplus (RChr is_space).
Definition mailto_re : regex :=
  RSeq (rlit_ci "mailto:"%js) (RGroup 1 (rplus (RChr (λ a, negb (is_ch ">"%char a || is_space a || is_ch ","%char a))))).
Definition slashes_re : regex := RSeq (rplus (rchar "/")) REnd.

Definition raw_list_id (p : ParsedMail) : option jsstr :=
  or_undefined (trim (js_to_string (nullish_or (header p "list-id"%js) (VStr [])))).

Definition unsubscribe_url (p : ParsedMail) : option jsstr :=
  let u := get_prop (header p "list"%js) "unsubscribe"%js in
  match text_or_null (get_prop u "url"%js) with
  | Some s => Some s
  | None => text_or_null (get_prop u "href"%js)
  end.

Definition unsubscribe_post (p : ParsedMail) : option jsstr :=
  or_undefined (toLowerCase (js_to_string (nullish_or
    (get_prop (get_prop (header p "list"%js) "unsubscribe-post"%js) "name"%js) (VStr [])))).

Definition unsubscribe_mailto (p : ParsedMail) : option jsstr :=
  match header p "list-unsubscribe"%js with
  | VStr s =>
      if includes (toLowerCase s) "mailto:"%js then
        or_undefined (toLowerCase (trim (default [] (re_exec mailto_re s ≫= λ m, group 1 (rm_caps m)))))
      else None
  | _ => None
  end.

Definition clean_list_id (raw : jsstr) : jsstr :=
  toLowerCase (re_replace_all spaces_re (λ _, []) (re_replace_all angle_re (λ _, []) raw)).

Section Subscriptions.
(** [new URL(text)]; [None] when it throws. *)
Context (parse_url : jsstr → option Url) (clock : nat → Z).

Definition url_key (url : jsstr) : option jsstr :=
  (λ u, let path := js_or (re_replace_first slashes_re (λ _, []) (js_or (u_pathname u) "/"%js)) "/"%js in
        u_protocol u ++ "//"%js ++ u_host u ++ path) <$> parse_url url.

Definition subscription_key (p : ParsedMail) : option jsstr :=
  match raw_list_id p, unsubscribe_url p, unsubscribe_mailto p with
  | Some raw, _, _ => (λ c, "list-id:"%js ++ c) <$> or_undefined (clean_list_id raw)
  | None, Some url, _ => url_key url
  | None, None, Some m => Some ("mailto:"%js ++ m)
  | None, None, None =>
      addr ← getFromAddress p;
      if includes (fa_email addr) "@"%js then
        Some ("from-domain:"%js ++ default "undefined"%js (split "@"%char (fa_email addr) !! 1))
      else None
  end.

Definition same_subscription (a b : SubscriptionRow) : bool :=
  bool_decide (su_ownerId a = su_ownerId b) && bool_decide (su_subscriptionKey a = su_subscriptionKey b).

(** [ON CONFLICT (owner_id, subscription_key) DO UPDATE] sets every column of the new row. *)
Fixpoint upsert_subscription (row : SubscriptionRow) (l : list SubscriptionRow) : list SubscriptionRow :=
  match l with
  | [] => [row]
  | old :: rest => if same_subscription old row then row :: rest else old :: upsert_subscription row rest
  end.

Definition ingestMailSubscriptionFromMessage (ownerId : jsstr) (p : ParsedMail) : proc unit :=
  match raw_list_id p, unsubscribe_url p, unsubscribe_mailto p with
  | None, None, None => mret tt
  | _, _, _ =>
      match subscription_key p with
      | None => mret tt
      | Some key =>
          now ← new_Date clock;
          modify (set_subscriptions (upsert_subscription
            {| su_ownerId := ownerId; su_subscriptionKey := key; su_listId := raw_list_id p;
               su_unsubscribeHttpUrl := unsubscribe_url p; su_unsubscribeMailto := unsubscribe_mailto p;
               su_oneClick := match unsubscribe_post p with Some s => includes s "one-click"%js | None => false end;
               su_lastSeenAt := now |}))
      end
  end.
End Subscriptions.

(** ** Attachments *)

(** [generateFileName], with the uuid given. *)
Definition file_extension (a : Attachment) : jsstr :=
  js_or (from_option (λ f, toLowerCase (default [] (last (split "."%char f)))) [] (a_filename a))
    (js_or (default [] (a_contentType a ≫= λ t, split "/"%char t !! 1 ≫= λ x, head (split "+"%char x))) "bin"%js).

Definition generateFileName (uuid : jsstr) (a : Attachment) : jsstr := uuid ++ "."%js ++ file_extension a.

Definition isIcsAttachment (a : Attachment) : bool :=
  let ct := toLowerCase (default [] (a_contentType a)) in
  let name := toLowerCase (default [] (a_filename a)) in
  startsWith ct "text/calendar"%js || bool_decide (ct = "application/ics"%js) || endsWith name ".ics"%js.

(** [attachment.checksum || `${attachment.size}:${attachment.contentType}`] *)
Definition ics_key (a : Attachment) : jsstr :=
  opt_or (a_checksum a)
    (from_option int_to_str "undefined"%js (a_size a) ++ ":"%js ++ default "undefined"%js (a_contentType a)).

Definition attachment_row (id ownerId messageId path : jsstr) (a : Attachment) : AttachmentRow := {|
  att_id := id; att_ownerId := ownerId; att_messageId := messageId; att_bucketId := "attachments"%js; att_path := path;
  att_filenameOriginal := a_filename a ≫= or_undefined;
  att_contentType := opt_or (a_contentType a) "application/octet-stream"%js;
  att_sizeBytes := default (a_length a) (a_size a); att_cid := a_cid a ≫= or_undefined;
  att_isInline := bool_decide (a_contentDisposition a = Some "inline"%js) || opt_truthy (a_cid a);
  att_checksum := a_checksum a ≫= or_undefined |}.

Section Store.
Context (clock : nat → Z) (new_id : MailDb → jsstr).
(** [simpleParser]; [None] when it throws. *)
Context (simpleParser : jsstr → option ParsedMail).
(** [new URL], [randomUUID], the storage, the schemas of the tables, a row as JSON. *)
Context (parse_url : jsstr → option Url) (uuid : MailDb → jsstr) (upload_ok : list jsstr → jsstr → bool).
Context (message_ok : MessageRow → bool) (attachment_ok : AttachmentRow → bool) (row_json : MessageRow → jsval).

(** [supabase.storage.from(bucket).upload(path, ...)]: whether there is no error. *)
Definition upload (path : jsstr) : proc bool :=
  s ← read;
  if upload_ok (uploads (ingest s)) path then
    _ ← modify (set_uploads (λ l, l ++ [path]));
    mret true
  else mret false.

(** One attachment; [seen] are the calendars already passed on. *)
Definition store_attachment (o : StoreOptions) (messageId : jsstr) (seen : list jsstr) (a : Attachment) :
    proc (list jsstr) :=
  s ← read;
  let objectPath := "private/"%js ++ so_ownerId o ++ "/"%js ++ messageId ++ "/"%js ++ generateFileName (uuid s) a in
  ok ← upload objectPath;
  match ok with
  | false => throw
  | true =>
      s ← read;
      let row := attachment_row (new_id s) (so_ownerId o) messageId objectPath a in
      if negb (attachment_ok row) then throw
      else
        _ ← modify (set_attachments (λ l, l ++ [row]));
        if negb (bool_decide (so_mode o = live) && isIcsAttachment a) then mret seen
        else if bool_decide (ics_key a ∈ seen) then mret seen
        else
          _ ← modify (set_ics (λ l, l ++ [ {| ij_messageId := messageId; ij_messageAttachmentId := att_id row;
                                             ij_mailboxId := so_mailboxId o |} ]));
          s ← read;
          _ ← flush_or_schedule row_json (CALENDAR_BATCH_SIZE <=? length (icsBuffer (buffers (ingest s))));
          mret (set_add (ics_key a) seen)
  end.

Fixpoint store_attachments (o : StoreOptions) (messageId : jsstr) (seen : list jsstr) (l : list Attachment) :
    proc unit :=
  match l with
  | [] => mret tt
  | a :: rest =>
      seen ← store_attachment o messageId seen a;
      store_attachments o messageId seen rest
  end.

(** ** [parseAndStoreEmail] *)

(** [parsed.messageId || String(headers.get("message-id") || "").trim()] *)
Definition message_id_of (p : ParsedMail) : jsstr :=
  let h := header p "message-id"%js in
  opt_or (pm_messageId p) (trim (js_to_string (if js_truthy h then h else VStr []))).

(** The row inserted; [None] when the schema refuses it.  The id that [message_id_of] takes from the
    headers is not put into it. *)
Definition message_row (id threadId : jsstr) (now : Z) (o : StoreOptions) (p : ParsedMail) : option MessageRow :=
  mid ← pm_messageId p;
  let text_or_html := opt_or (pm_text p) (opt_or (pm_html p) []) in
  let row := {|
    m_id := id; m_ownerId := so_ownerId o; m_mailboxId := so_mailboxId o; m_threadId := threadId; m_messageId := mid;
    m_inReplyTo := pm_inReplyTo p;
    m_references := match pm_references p with
                    | NoReferences => None
                    | OneReference s => if truthy s then Some [s] else None
                    | ManyReferences l => Some l
                    end;
    m_replyTo := if is_nullish (pm_replyTo p) then VArr [] else pm_replyTo p; m_subject := pm_subject p;
    m_snippet := generateSnippet text_or_html; m_text := pm_text p; m_html := Some (opt_or (pm_html p) []);
    m_from := nullish_or (pm_from p) VNull; m_to := nullish_or (pm_to p) VNull; m_cc := nullish_or (pm_cc p) VNull;
    m_bcc := nullish_or (pm_bcc p) VNull; m_date := pm_date p; m_sizeBytes := None;
    m_seen := default false (so_seen o); m_answered := default false (so_answered o);
    m_flagged := default false (so_flagged o);
    m_hasAttachments := 0 <? length (pm_attachments p); m_headersJson := Some (pm_headers p);
    m_metaData := so_metaData o; m_rawStorageKey := Some (so_rawStorageKey o); m_createdAt := now; m_updatedAt := now |} in
  if message_ok row then Some row else None.

(** [INSERT ... ON CONFLICT (mailbox_id, message_id) DO NOTHING RETURNING]; the mailbox must exist. *)
Definition insert_message (row : MessageRow) : proc (option MessageRow) :=
  s ← read;
  if negb (bool_decide (m_mailboxId row ∈ map mb_id (mailboxes s))) then throw
  else if bool_decide (message_key row ∈ map message_key (messages s)) then mret None
  else
    _ ← modify (set_messages (λ l, l ++ [row]));
    mret (Some row).

Definition set_lastMessageDate (d : Z) (t : ThreadRow) : ThreadRow :=
  {| t_id := t_id t; t_ownerId := t_ownerId t; t_lastMessageDate := Some d |}.

(** The instant is the message's [createdAt]. *)
Definition touch_thread (threadId : jsstr) (msgDate : Z) : proc unit :=
  s ← read;
  match List.find (λ t, bool_decide (t_id t = threadId)) (threads s) ≫= t_lastMessageDate with
  | Some last => if (last <? msgDate)%Z
                 then modify (set_threads (update_where (λ t, bool_decide (t_id t = threadId)) (set_lastMessageDate msgDate)))
                 else mret tt
  | None => modify (set_threads (update_where (λ t, bool_decide (t_id t = threadId)) (set_lastMessageDate msgDate)))
  end.

(** What is left to the other queues. *)
Definition announce (o : StoreOptions) (raw : jsstr) (contactId : option jsstr) (row : MessageRow) : proc unit :=
  _ ← modify (set_search (λ l, l ++ [ {| sj_messageId := m_id row; sj_contactId := default "null"%js contactId;
                                        sj_ownerId := so_ownerId o |} ]));
  s ← read;
  _ ← flush_or_schedule row_json (SEARCH_BATCH_SIZE <=? length (searchBuffer (buffers (ingest s))));
  if bool_decide (so_mode o = live) then
    _ ← modify (set_webhook (λ l, l ++ [(row, raw)]));
    _ ← modify (set_rules (λ l, l ++ [m_id row]));
    s ← read;
    let b := buffers (ingest s) in
    flush_or_schedule row_json
      ((WEBHOOK_BATCH_SIZE <=? length (webhookBuffer b)) || (RULES_BATCH_SIZE <=? length (rulesBuffer b)))
  else mret tt.

(** After the insertion. *)
Definition after_insert (o : StoreOptions) (raw : jsstr) (p : ParsedMail) (threadId : jsstr) (row : MessageRow) :
    proc unit :=
  _ ← ingestMailSubscriptionFromMessage parse_url clock (so_ownerId o) p;
  contactId ← upsertContactsFromMessage new_id (so_ownerId o) p;
  _ ← upsertMailboxThreadItem clock (m_id row);
  _ ← touch_thread threadId (m_createdAt row);
  _ ← store_attachments o (m_id row) [] (pm_attachments p);
  announce o raw contactId row.

Definition parseAndStoreEmail (raw : jsstr) (o : StoreOptions) : proc (option MessageRow) :=
  p ← or_throw (simpleParser raw);
  _ ← upload (so_rawStorageKey o);
  if negb (truthy (message_id_of p)) then mret None
  else
    thread ← createOrInitializeThread clock new_id (so_ownerId o) p;
    now ← new_Date clock;
    s ← read;
    row ← or_throw (message_row (new_id s) (t_id thread) now o p);
    inserted ← insert_message row;
    match inserted with
    | None => mret None
    | Some message =>
        _ ← after_insert o raw p (t_id thread) message;
        mret (Some message)
    end.
End Store.
