(* ===== verification/Imap.v ===== *)
(** * The worker's IMAP connections ([apps/worker/lib/imap/imap-client.ts], [stalwart.ts])

    ImapFlow is not under [src/]: a server is the class below, any function from the commands
    sent so far to the client's state and to whether the next promise is fulfilled.  What the
    code adds to it (one client per identity, reconnection, the locks of mailboxes) is modelled
    here, with the shape of the traffic it produces. *)

From stdpp Require Import base list.
From Stdlib Require Import Floats.SpecFloat.
From S2P Require Import Prelude JsString JsNumber JsValue RuleMatcher MailDb.

(** ** ImapFlow *)

(** A message as [client.fetch] yields it: [uid], [id], [envelope.messageId], the text of [source], [flags],
    [size], [internalDate]. *)
Record FetchMessage := {
  f_uid : Z; f_id : jsstr; f_messageId : option jsstr; f_source : option jsstr; f_flags : list jsstr;
  f_size : option Z; f_internalDate : jsval;
}.

(** A folder as [client.list] yields it. *)
Record ImapBox := {
  bx_path : jsstr; bx_pathAsListed : option jsstr; bx_name : jsstr; bx_delimiter : option jsstr;
  bx_specialUse : option jsstr; bx_flags : list jsstr; bx_listed : bool;
}.

Class ImapServer := {
  (** [client.authenticated], [client.usable] *)
  authenticated : list ImapEvent → nat → bool;
  usable : list ImapEvent → nat → bool;
  (** whether the promise of the command is fulfilled *)
  accepts : list ImapEvent → nat → ImapCommand → bool;
  (** [client.search({ all: true }, { uid: true })] *)
  search_all : list ImapEvent → nat → list num;
  (** [box.uidNext] and [box.uidValidity] of [client.mailboxOpen(path)] *)
  uidNext : list ImapEvent → nat → jsstr → option Z;
  uidValidity : list ImapEvent → nat → jsstr → Z;
  (** what [client.fetch] yields for a range of uids, and whether it ends without an error *)
  fetched : list ImapEvent → nat → Z → Z → list FetchMessage * bool;
  (** [client.list()] *)
  list_boxes : list ImapEvent → nat → list ImapBox;
  (** [String(err?.message)] of a refused command *)
  rejection : list ImapEvent → nat → ImapCommand → jsstr;
}.

Section Client.
Context `{ImapServer}.

Definition send (c : nat) (cmd : ImapCommand) : proc unit := λ s,
  let ok := accepts (imap s) c cmd in
  (set_imap (λ l, l ++ [ {| client := c; command := cmd; fulfilled := ok |} ]) s,
   if ok then Done tt else Threw).

(** [lock.release()] *)
Definition release (c : nat) (path : jsstr) : proc unit :=
  modify (set_imap (λ l, l ++ [ {| client := c; command := Release path; fulfilled := true |} ])).

(** [const lock = await client.getMailboxLock(path); try { body } finally { lock.release() }] *)
Definition with_lock {A} (c : nat) (path : jsstr) (body : proc A) : proc A :=
  _ ← send c (Lock path);
  finally body (release c path).

(** [!client?.authenticated || !client?.usable], negated *)
Definition ready (o : option nat) : proc (option nat) := λ s,
  (s, Done (match o with
            | Some c => if authenticated (imap s) c && usable (imap s) c then Some c else None
            | None => None
            end)).

(** ** [imap-client.ts] *)

Definition jm_delete {V} (k : jsstr) (m : jsmap jsstr V) : jsmap jsstr V := filter (λ e, e.1 ≠ k) m.

Definition safeReconnect (identityId : jsstr) : proc unit :=
  s ← read;
  _ ← match jm_get identityId (imapInstances s) with
      | Some existing =>
          _ ← catch (send existing Logout) (mret tt);
          modify (set_instances (jm_delete identityId))
      | None => mret tt
      end;
  modify (set_timers (λ l, l ++ [identityId])).

(** [isStalwartHost]: [None] when [host.endsWith] throws. *)
Definition isStalwartHost (host : jsval) : option bool :=
  match host with
  | VStr h =>
      Some (bool_decide (h = "stalwart.mail.svc.cluster.local"%js) ||
            endsWith h ".mail.svc.cluster.local"%js ||
            bool_decide (h = "mail.lurus.cn"%js) || bool_decide (h = "mail.lurus.local"%js))
  | _ => None
  end.

(** The options of [new ImapFlow]: host, port, secure, user, pass, keepAlive. *)
Definition connect_options (credentials : jsval) : option (list jsval) :=
  let host := get_prop credentials "IMAP_HOST"%js in
  let port := get_prop credentials "IMAP_PORT"%js in
  let secure := get_prop credentials "IMAP_SECURE"%js in
  (λ isStalwart : bool,
       [host;
        if isStalwart then (if js_truthy port then port else VNum (num_of_Z 143)) else port;
        VBool (if isStalwart then false
               else match secure with
                    | VStr t => bool_decide (t = "true"%js)
                    | VBool b => b
                    | _ => false
                    end);
        get_prop credentials "IMAP_USERNAME"%js; get_prop credentials "IMAP_PASSWORD"%js;
        VBool isStalwart]) <$> isStalwartHost host.

(** The credentials an identity's account has in the vault, parsed; [None] when
    [decryptAdminSecrets] or [JSON.parse] throws. *)
Context (credentials_of : IdentityRow → option jsval).

(** The second half: no client to reuse. *)
Definition connect (identityId : jsstr) : proc (option nat) :=
  catch
    (s ← read;
     match List.find (λ r, bool_decide (id_id r = identityId)) (identities s) with
     | None => mret None
     | Some identity =>
         if negb (opt_truthy (smtpAccountId identity)) then mret None
         else
           credentials ← or_throw (credentials_of identity);
           options ← or_throw (connect_options credentials);
           let c := length (imap s) in
           connected ← catch (_ ← send c (Connect options); mret true)
                             (_ ← safeReconnect identityId; mret false);
           match connected with
           | true => _ ← modify (set_instances (jm_set identityId c)); mret (Some c)
           | false => mret None
           end
     end)
    (_ ← safeReconnect identityId; mret None).

(** The [try] around the check of the existing client has nothing that can throw. *)
Definition initSmtpClient (identityId : jsstr) : proc (option nat) :=
  s ← read;
  match jm_get identityId (imapInstances s) with
  | Some existing =>
      if authenticated (imap s) existing && usable (imap s) existing then mret (Some existing)
      else connect identityId
  | None => connect identityId
  end.

(** [initSmtpClient], then the test most callers make. *)
Definition ready_client (identityId : jsstr) : proc (option nat) :=
  o ← initSmtpClient identityId;
  ready o.

(** The handlers of the events [close] and [error]. *)
Definition cleanup (identityId : jsstr) : proc unit :=
  _ ← modify (set_instances (jm_delete identityId));
  safeReconnect identityId.
End Client.

(** ** [initSmtpClient] *)

Section Connections.
Context `{ImapServer} (credentials_of : IdentityRow → option jsval).

Lemma safeReconnect_total i : total (safeReconnect i).
Proof.
  intros s. unfold safeReconnect, read, mbind, proc_bind, modify.
  destruct (jm_get i (imapInstances s)) as [c|]; [|by exists tt].
  unfold catch. destruct (send c Logout s) as [s' [u|]]; by exists tt.
Qed.

Lemma initSmtpClient_total i : total (initSmtpClient credentials_of i).
Proof.
  assert (total (connect credentials_of i)) as Hc.
  { unfold connect. apply total_catch. intros s. unfold mbind, proc_bind.
    destruct (safeReconnect_total i s) as [u Hu]. destruct (safeReconnect i s) as [s' o].
    simpl in Hu. subst o. by exists None. }
  intros s. unfold initSmtpClient, read, mbind, proc_bind. destruct (jm_get i (imapInstances s)) as [c|]; [|apply Hc].
  destruct (_ && _); [by eexists|apply Hc].
Qed.

Lemma ready_client_total i : total (ready_client credentials_of i).
Proof.
  intros s. unfold ready_client, ready, mbind, proc_bind. destruct (initSmtpClient_total i s) as [o Ho].
  destruct (initSmtpClient credentials_of i s) as [s' o']. simpl in Ho. subst o'. by eexists.
Qed.
End Connections.

(** ** The traffic *)

(** The commands that act on the messages of the open mailbox. *)
Definition mailbox_command (cmd : ImapCommand) : bool :=
  match cmd with
  | FlagsAdd _ _ | FlagsRemove _ _ | Move _ _ | Delete _ | SearchAll | OpenBox _ | Fetch _ _ => true
  | _ => false
  end.

Definition lock_command (cmd : ImapCommand) : bool :=
  match cmd with Lock _ | Release _ => true | _ => false end.

(** A sequence of sessions: every command on messages is sent by the client that holds the lock of
    a mailbox, no lock is taken while another is held, and every lock is released. *)
Inductive tidy : list ImapEvent → Prop :=
| tidy_nil : tidy []
| tidy_plain e l : mailbox_command (command e) || lock_command (command e) = false → tidy l → tidy (e :: l)
| tidy_refused c p l : tidy l → tidy ({| client := c; command := Lock p; fulfilled := false |} :: l)
| tidy_session c p body l :
    Forall (λ e, client e = c ∧ mailbox_command (command e) = true) body → tidy l →
    tidy ({| client := c; command := Lock p; fulfilled := true |} :: body ++
          {| client := c; command := Release p; fulfilled := true |} :: l).

Lemma tidy_app l k : tidy l → tidy k → tidy (l ++ k).
Proof.
  intros Hl Hk. induction Hl as [|e l He Hl IH|c p l Hl IH|c p body l Hb Hl IH]; simpl;
    [done|by constructor..|].
  rewrite <- app_assoc. by constructor.
Qed.

(** The locks held after some traffic. *)
Definition hold_event (h : list (nat * jsstr)) (e : ImapEvent) : list (nat * jsstr) :=
  match command e with
  | Lock p => if fulfilled e then (client e, p) :: h else h
  | Release p => filter (λ q, q ≠ (client e, p)) h
  | _ => h
  end.

Definition held : list ImapEvent → list (nat * jsstr) := foldl hold_event [].

Lemma hold_body h body :
  Forall (λ e, mailbox_command (command e) = true) body → foldl hold_event h body = h.
Proof.
  induction 1 as [|e body He _ IH]; [done|]. simpl. rewrite <- IH at 2. f_equal.
  unfold hold_event. by destruct (command e).
Qed.

Lemma tidy_releases l k : held k = [] → tidy l → held (k ++ l) = [].
Proof.
  unfold held. rewrite foldl_app. intros -> Hl.
  induction Hl as [|e l He Hl IH|c p l Hl IH|c p body l Hb Hl IH]; simpl; [done|..].
  - rewrite <- IH. f_equal. unfold hold_event. by destruct (command e).
  - exact IH.
  - rewrite foldl_app, (hold_body _ body) by (eapply Forall_impl; [exact Hb|naive_solver]).
    simpl. trans (foldl hold_event [] l); [f_equal|exact IH]. unfold hold_event. simpl.
    by rewrite filter_cons, decide_False by naive_solver.
Qed.

(** The traffic a run adds is tidy. *)
Definition tidily (s s' : MailDb) : Prop := ∃ l, imap s' = imap s ++ l ∧ tidy l.

#[export] Instance tidily_preorder : PreOrder tidily.
Proof.
  split.
  - intros s. exists []. rewrite app_nil_r. by repeat constructor.
  - intros s1 s2 s3 (l & H1 & Hl) (k & H2 & Hk). exists (l ++ k).
    rewrite H2, H1, app_assoc. split; [done|by apply tidy_app].
Qed.

(** A run inside a session: it only sends commands on messages, by the client of the lock. *)
Definition inside (c : nat) (s s' : MailDb) : Prop :=
  ∃ l, imap s' = imap s ++ l ∧ Forall (λ e, client e = c ∧ mailbox_command (command e) = true) l.

#[export] Instance inside_preorder c : PreOrder (inside c).
Proof.
  split.
  - intros s. exists []. rewrite app_nil_r. by repeat constructor.
  - intros s1 s2 s3 (l & H1 & Hl) (k & H2 & Hk). exists (l ++ k).
    rewrite H2, H1, app_assoc. split; [done|by apply Forall_app].
Qed.

Section Traffic.
Context `{ImapServer} (credentials_of : IdentityRow → option jsval).

Lemma tidy_modify f : (∀ s, imap (f s) = imap s) → steps tidily (modify f).
Proof. intros Hf s. exists []. simpl. rewrite Hf, app_nil_r. by repeat constructor. Qed.

Lemma inside_modify c f : (∀ s, imap (f s) = imap s) → steps (inside c) (modify f).
Proof. intros Hf s. exists []. simpl. rewrite Hf, app_nil_r. by repeat constructor. Qed.

Lemma tidy_new_Date clock : steps tidily (new_Date clock).
Proof. intros s. exists []. simpl. rewrite app_nil_r. by repeat constructor. Qed.

Lemma inside_new_Date c clock : steps (inside c) (new_Date clock).
Proof. intros s. exists []. simpl. rewrite app_nil_r. by repeat constructor. Qed.

Lemma tidy_send c cmd : mailbox_command cmd || lock_command cmd = false → steps tidily (send c cmd).
Proof. intros Hc s. eexists. split; [reflexivity|]. by repeat constructor. Qed.

Lemma inside_send c cmd : mailbox_command cmd = true → steps (inside c) (send c cmd).
Proof. intros Hc s. eexists. split; [reflexivity|]. by repeat constructor. Qed.

Lemma tidy_with_lock {A} c path (body : proc A) : steps (inside c) body → steps tidily (with_lock c path body).
Proof.
  intros Hb s. unfold with_lock, send, mbind, proc_bind. destruct (accepts _ _ _).
  - set (s1 := set_imap _ s). unfold finally. destruct (Hb s1) as (l & Hl & Hin).
    destruct (body s1) as [s2 o]. unfold tidily. simpl in *. rewrite Hl. eexists. split.
    + rewrite <- !app_assoc. reflexivity.
    + simpl. by repeat constructor.
  - eexists. split; [reflexivity|]. by repeat constructor.
Qed.

Lemma tidy_transaction {A} (p : proc A) : steps tidily p → steps tidily (transaction p).
Proof. apply steps_transaction. done. Qed.

Lemma tidy_ready o : steps tidily (ready o).
Proof. intros s. simpl. reflexivity. Qed.

Hint Resolve tidy_modify tidy_send tidy_ready : webmail.

Lemma tidy_safeReconnect i : steps tidily (safeReconnect i).
Proof.
  unfold safeReconnect. run_steps.
Qed.

Lemma tidy_initSmtpClient i : steps tidily (initSmtpClient credentials_of i).
Proof.
  assert (steps tidily (connect credentials_of i)) as Hc.
  { pose proof tidy_safeReconnect. unfold connect, or_throw. run_steps. }
  unfold initSmtpClient. run_steps.
Qed.

Lemma tidy_ready_client i : steps tidily (ready_client credentials_of i).
Proof. pose proof tidy_initSmtpClient. unfold ready_client. run_steps. Qed.
End Traffic.

#[export] Hint Resolve tidy_modify inside_modify tidy_new_Date inside_new_Date tidy_send inside_send
  tidy_with_lock tidy_transaction tidy_ready tidy_ready_client tidy_initSmtpClient : webmail.
