(* ===== verification/ImapOps.v ===== *)
(** * The worker's IMAP jobs ([apps/worker/lib/imap/imap-flags.ts], [imap-move.ts], [imap-delete.ts])
    and the notifications of a server ([imap-idle-sync.ts])

    Each operation talks to the server under the locks of the mailboxes concerned and then
    changes the database in one transaction.  Operations are run to their end one after the
    other, as the queue's worker runs its jobs. *)

From stdpp Require Import base list.
From Stdlib Require Import Floats.SpecFloat.
From S2P Require Import Prelude JsString JsNumber JsValue RuleMatcher MailDb Imap.

(** ** Where a message is on the server: [metaData.imap] *)

Definition imap_of (meta : option (list (jsstr * jsval))) : jsval :=
  match meta with Some fs => get_prop (VObj fs) "imap"%js | None => VUndef end.

Definition imap_uid (meta : option (list (jsstr * jsval))) : num := js_number (get_prop (imap_of meta) "uid"%js).

(** [imap?.mailboxPath as string | undefined], when it is truthy *)
Definition imap_path (meta : option (list (jsstr * jsval))) : option jsstr :=
  match get_prop (imap_of meta) "mailboxPath"%js with VStr p => or_undefined p | _ => None end.

Record UidEntry := { e_path : jsstr; e_id : jsstr; e_uid : num }.

Definition uid_entry (r : MessageRow) : option UidEntry :=
  if num_truthy (imap_uid (m_metaData r)) then
    (λ p, {| e_path := p; e_id := m_id r; e_uid := imap_uid (m_metaData r) |}) <$> imap_path (m_metaData r)
  else None.

(** The messages by mailbox, in the order of the first message of each. *)
Definition by_path (rows : list MessageRow) : jsmap jsstr (list UidEntry) :=
  group_by e_path (omap uid_entry rows).

Definition find_mailbox (mailboxId : jsstr) (s : MailDb) : option MailboxRow :=
  List.find (λ r, bool_decide (mb_id r = mailboxId)) (mailboxes s).

(** The values of a unique key, after a statement. *)
Definition unique {K} `{EqDecision K} (keys : list K) : proc unit :=
  if bool_decide (NoDup keys) then mret tt else throw.

Section Ops.
Context `{ImapServer} (credentials_of : IdentityRow → option jsval) (clock : nat → Z).
(** [jsonb ->> key] on a value that is neither text nor null. *)
Context (jsonb_out : jsval → jsstr).

(** ** [mailSetFlags] *)

(** Add or delete, and which flag. *)
Definition opToAction (op : jsstr) : option (bool * jsstr) :=
  if bool_decide (op = "read"%js) then Some (true, "\Seen"%js)
  else if bool_decide (op = "unread"%js) then Some (false, "\Seen"%js)
  else if bool_decide (op = "flag"%js) then Some (true, "\Flagged"%js)
  else if bool_decide (op = "unflag"%js) then Some (false, "\Flagged"%js)
  else if bool_decide (op = "answered"%js) then Some (true, "\Answered"%js)
  else if bool_decide (op = "unanswered"%js) then Some (false, "\Answered"%js)
  else None.

(** The columns [update] sets. *)
Definition flag_update (op : jsstr) : Z → MessageRow → MessageRow :=
  with_flags
    (if bool_decide (op = "unread"%js) then Some false else if bool_decide (op = "read"%js) then Some true else None)
    (if bool_decide (op = "unflag"%js) then Some false else if bool_decide (op = "flag"%js) then Some true else None)
    None.

(** [coalesce(date, created_at)] *)
Definition message_time (r : MessageRow) : Z := default (m_createdAt r) (m_date r).

(** Recompute the aggregates of a thread in a mailbox. *)
Definition refresh_aggregates (threadId mailboxId : jsstr) (now : Z) : proc unit :=
  s ← read;
  modify (set_mailboxThreads (update_where (row_in threadId mailboxId)
    (set_aggregates (unread_in threadId mailboxId (messages s))
       (default false (any_flagged threadId mailboxId (messages s))) now))).

Definition send_flags (c : nat) (action : bool * jsstr) (g : jsstr * list UidEntry) : proc unit :=
  let uids := sort_by num_cmp (map e_uid g.2) in
  match uids with
  | [] => mret tt
  | _ =>
      catch (with_lock c g.1 (send c (if action.1 then FlagsAdd uids action.2 else FlagsRemove uids action.2)))
            (mret tt)
  end.

Definition set_thread_flags (threadId mailboxId op : jsstr) : proc unit :=
  transaction
    (now ← new_Date clock;
     _ ← modify (set_messages (update_where (msg_in threadId mailboxId) (flag_update op now)));
     now2 ← new_Date clock;
     refresh_aggregates threadId mailboxId now2).

Definition mailSetFlags (threadId mailboxId op : jsstr) : proc unit :=
  s ← read;
  match find_mailbox mailboxId s with
  | None => mret tt
  | Some mailbox =>
      o ← ready_client credentials_of (mb_identityId mailbox);
      match o with
      | None => mret tt
      | Some c =>
          s ← read;
          let threadMessages :=
            sort_by (λ a b, message_time b - message_time a)%Z
              (filter (λ r, msg_in threadId mailboxId r = true) (messages s)) in
          match threadMessages, opToAction op with
          | [], _ | _, None => mret tt
          | _, Some action =>
              _ ← each (send_flags c action) (by_path threadMessages);
              set_thread_flags threadId mailboxId op
          end
      end
  end.

(** ** [moveMail] *)

(** [jsonb_set(coalesce(meta, '{}'), '{imap,mailboxPath}', to_jsonb(path), true)]: the last key is
    created, [imap] is not; NULL for a NULL path; an array under [imap] is an error. *)
Definition set_mailboxPath (path : option jsstr) (meta : option (list (jsstr * jsval))) :
    option (option (list (jsstr * jsval))) :=
  match path with
  | None => Some None
  | Some p =>
      let fs := default [] meta in
      match jm_get "imap"%js fs with
      | Some (VObj im) => Some (Some (jm_set "imap"%js (VObj (jm_set "mailboxPath"%js (VStr p) im)) fs))
      | Some (VArr _) => None
      | _ => Some (Some fs)
      end
  end.

Definition move_row (destination : jsstr) (path : option (option jsstr)) (now : Z) (r : MessageRow) :
    option MessageRow :=
  (λ meta, with_location destination meta now r) <$>
    match path with Some p => set_mailboxPath p (m_metaData r) | None => Some (m_metaData r) end.

Definition move_thread_row (destination : jsstr) (slug : jsstr) (now : Z) (r : MailboxThreadRow) :
    MailboxThreadRow :=
  with_row destination (Some slug) (mt_unreadCount r) (mt_starred r) now r.

Record MoveJob := {
  mv_threadId : jsstr; mv_mailboxId : jsstr; mv_op : jsstr; mv_toMailboxId : option jsstr; mv_moveImap : bool;
}.

Definition move_destination (job : MoveJob) (src : MailboxRow) (s : MailDb) : option MailboxRow :=
  if bool_decide (mv_op job = "move"%js) then
    match mv_toMailboxId job with
    | Some t =>
        if negb (truthy t) || bool_decide (t = mv_mailboxId job) then None
        else List.find (λ r, bool_decide (mb_id r = t) && bool_decide (mb_identityId r = mb_identityId src))
               (mailboxes s)
    | None => None
    end
  else
    List.find (λ r, bool_decide (mb_identityId r = mb_identityId src) && bool_decide (mb_kind r = mv_op job))
      (mailboxes s).

(** [metaData?.imap?.path ?? name] *)
Definition destination_path (r : MailboxRow) : option jsstr :=
  match nullish_or (get_prop (imap_of (mb_metaData r)) "path"%js) (nullable (mb_name r)) with
  | VUndef | VNull => None
  | v => Some (js_to_string v)
  end.

Definition move_group (c : nat) (destPath : option jsstr) (g : jsstr * list UidEntry) : proc unit :=
  match map e_uid g.2 with
  | [] => mret tt
  | uids => with_lock c g.1 (send c (Move uids destPath))
  end.

Definition move_on_server (identityId : jsstr) (destPath : option jsstr) (rows : list MessageRow) : proc unit :=
  match by_path rows with
  | [] => mret tt
  | groups =>
      o ← ready_client credentials_of identityId;
      match o with
      | None => mret tt
      | Some c => catch (each (move_group c destPath) groups) (mret tt)
      end
  end.

(** The transaction; the unique keys are [(mailbox_id, message_id)] and [(thread_id, mailbox_id)]. *)
Definition move_in_db (job : MoveJob) (dest : MailboxRow) : proc unit :=
  transaction
    (now ← new_Date clock;
     s ← read;
     let path := if mv_moveImap job then Some (destination_path dest) else None in
     rows ← or_throw (mapM (λ r,
       if msg_in (mv_threadId job) (mv_mailboxId job) r then move_row (mb_id dest) path now r else Some r)
       (messages s));
     _ ← unique (map message_key rows);
     _ ← modify (set_messages (λ _, rows));
     now2 ← new_Date clock;
     let slug := if bool_decide (mv_op job = "move"%js) then default "custom"%js (mb_slug dest) else mv_op job in
     let threadRows := update_where (row_in (mv_threadId job) (mv_mailboxId job))
                         (move_thread_row (mb_id dest) slug now2) (mailboxThreads s) in
     _ ← unique (map thread_key threadRows);
     modify (set_mailboxThreads (λ _, threadRows))).

Definition moveMail (job : MoveJob) : proc unit :=
  s ← read;
  match find_mailbox (mv_mailboxId job) s with
  | None => mret tt
  | Some srcMailbox =>
      match move_destination job srcMailbox s with
      | None => mret tt
      | Some dest =>
          let threadMsgs := filter (λ r, msg_in (mv_threadId job) (mv_mailboxId job) r = true) (messages s) in
          match threadMsgs with
          | [] => mret tt
          | _ =>
              _ ← (if mv_moveImap job
                   then move_on_server (mb_identityId srcMailbox) (destination_path dest) threadMsgs
                   else mret tt);
              move_in_db job dest
          end
      end
  end.

(** ** [deleteMail] *)

Definition deleteUids (c : nat) (g : jsstr * list num) : proc unit :=
  match g.2 with
  | [] => mret tt
  | uids => with_lock c g.1 (send c (Delete uids))
  end.

Definition collectUidsByMailboxPath (rows : list MessageRow) : jsmap jsstr (list num) :=
  map (λ g, (g.1, map e_uid g.2)) (by_path rows).

(** [DELETE FROM messages]; the rows of their attachments go too. *)
Definition delete_messages (ids : list jsstr) : proc unit :=
  modify (λ s, set_attachments (filter (λ a, att_messageId a ∉ ids)) (set_messages (filter (λ r, m_id r ∉ ids)) s)).

Definition delete_thread_rows (mailboxId : jsstr) (ids : list jsstr) : proc unit :=
  modify (set_mailboxThreads (filter (λ r, ¬ (mt_mailboxId r = mailboxId ∧ mt_threadId r ∈ ids)))).

(** [DELETE FROM threads] where no message is left; the rows that refer to them go too. *)
Definition orphans (ids : list jsstr) (s : MailDb) : list jsstr :=
  filter (λ t, t ∈ ids ∧ t ∉ map m_threadId (messages s)) (map t_id (threads s)).

Definition delete_orphans (ids : list jsstr) : proc unit :=
  s ← read;
  let gone := orphans ids s in
  _ ← modify (set_threads (filter (λ t, t_id t ∉ gone)));
  _ ← modify (set_mailboxThreads (filter (λ r, mt_threadId r ∉ gone)));
  modify (set_threadLabels (filter (λ r, tl_threadId r ∉ gone))).

Record DeleteJob := {
  dl_mailboxId : jsstr; dl_threadId : list jsstr; dl_emptyAll : bool; dl_imapDelete : bool;
}.

(** [metaData?.imap?.path || name || ""] *)
Definition mailbox_path (r : MailboxRow) : jsstr :=
  let p := get_prop (imap_of (mb_metaData r)) "path"%js in
  if js_truthy p then js_to_string p else default [] (mb_name r).

Definition empty_on_server (c : nat) (path : jsstr) : proc unit :=
  catch
    (with_lock c path
       (_ ← send c SearchAll;
        s ← read;
        match search_all (imap s) c with
        | [] => mret tt
        | allUids => send c (Delete allUids)
        end))
    (mret tt).

Definition empty_in_db (mailboxId : jsstr) : proc unit :=
  s ← read;
  let rows := filter (λ r, m_mailboxId r = mailboxId) (messages s) in
  let affected := set_of_list (map m_threadId rows) in
  transaction
    (_ ← delete_messages (map m_id rows);
     match affected with
     | [] => mret tt
     | _ => _ ← delete_thread_rows mailboxId affected; delete_orphans affected
     end).

(** After the client: everything, or the threads given.  [dl_threadId] is the array the field
    stands for: a single id is an array of one. *)
Definition delete_with (job : DeleteJob) (box : MailboxRow) (o : option nat) : proc unit :=
  let mailboxId := dl_mailboxId job in
  if dl_emptyAll job then
    _ ← match o with Some c => empty_on_server c (mailbox_path box) | None => mret tt end;
    empty_in_db mailboxId
  else
    let threadIds := filter (λ t, truthy t = true) (dl_threadId job) in
    match threadIds with
    | [] => mret tt
    | _ =>
        s ← read;
        let msgRows := filter (λ r, m_mailboxId r = mailboxId ∧ m_threadId r ∈ threadIds) (messages s) in
        _ ← match o with
            | Some c => catch (each (deleteUids c) (collectUidsByMailboxPath msgRows)) (mret tt)
            | None => mret tt
            end;
        transaction
          (_ ← delete_messages (map m_id msgRows);
           _ ← delete_thread_rows mailboxId threadIds;
           delete_orphans threadIds)
    end.

Definition deleteMail (job : DeleteJob) : proc unit :=
  if negb (truthy (dl_mailboxId job)) then mret tt else
  s ← read;
  match find_mailbox (dl_mailboxId job) s with
  | None => mret tt
  | Some box =>
      o ← (if dl_imapDelete job then ready_client credentials_of (mb_identityId box) else mret None);
      if dl_imapDelete job && bool_decide (o = None) then mret tt else delete_with job box o
  end.

(** ** Notifications *)

(** [v ->> key] *)
Definition json_text (v : jsval) : option jsstr :=
  match v with VUndef | VNull => None | VStr s => Some s | _ => Some (jsonb_out v) end.

(** [text::bigint]: [None] is the error of a text that is not a 64-bit integer. *)
Definition bigint_in (t : jsstr) : option Z :=
  let digits neg ds :=
    match parse_digits ds with
    | Some n => let z := (if neg : bool then - n else n)%Z in
                if ((- 2 ^ 63 <=? z) && (z <? 2 ^ 63))%Z then Some z else None
    | None => None
    end in
  match trim t with
  | a :: ds => if is_ch "-" a then digits true ds else if is_ch "+" a then digits false ds else digits false (a :: ds)
  | [] => None
  end.

(** The uid of a row as the database sees it: NULL, or a number, or an error. *)
Definition row_uid (r : MessageRow) : option (option Z) :=
  match json_text (get_prop (imap_of (m_metaData r)) "uid"%js) with
  | None => Some None
  | Some t => Some <$> bigint_in t
  end.

Definition mailbox_at (identityId path : jsstr) (s : MailDb) : option MailboxRow :=
  List.find (λ r, bool_decide (mb_identityId r = identityId) &&
    bool_decide (json_text (get_prop (imap_of (mb_metaData r)) "path"%js) = Some path)) (mailboxes s).

(** The first message of the mailbox with that uid; a uid that cannot be cast is an error of the query. *)
Definition message_at (mailboxId : jsstr) (uid : Z) (s : MailDb) : proc (option MessageRow) :=
  let rows := filter (λ r, m_mailboxId r = mailboxId) (messages s) in
  match mapM row_uid rows with
  | None => throw
  | Some _ => mret (List.find (λ r, bool_decide (row_uid r = Some (Some uid))) rows)
  end.

Definition handleFlagsUpdate (identityId : jsstr) (uid : Z) (mailboxPath : jsstr)
    (isFlagged isSeen isAnswered : bool) : proc unit :=
  transaction
    (s ← read;
     match mailbox_at identityId mailboxPath s with
     | None => mret tt
     | Some mailbox =>
         o ← message_at (mb_id mailbox) uid s;
         match o with
         | None => mret tt
         | Some message =>
             if Bool.eqb (m_flagged message) isFlagged && Bool.eqb (m_seen message) isSeen then mret tt
             else
               now ← new_Date clock;
               _ ← modify (set_messages (update_where (λ r, bool_decide (m_id r = m_id message))
                     (with_flags (Some isSeen) (Some isFlagged) (Some isAnswered) now)));
               refresh_aggregates (m_threadId message) (mb_id mailbox) now
         end
     end).

Definition handleExpunge (identityId mailboxPath : jsstr) (uid : Z) : proc unit :=
  transaction
    (s ← read;
     match mailbox_at identityId mailboxPath s with
     | None => mret tt
     | Some mailbox =>
         o ← message_at (mb_id mailbox) uid s;
         match o with
         | None => mret tt
         | Some message =>
             _ ← delete_messages [m_id message];
             s ← read;
             match filter (λ r, msg_in (m_threadId message) (mb_id mailbox) r = true) (messages s) with
             | [] =>
                 modify (set_mailboxThreads
                   (filter (λ r, row_in (m_threadId message) (mb_id mailbox) r = false)))
             | _ =>
                 now ← new_Date clock;
                 refresh_aggregates (m_threadId message) (mb_id mailbox) now
             end
         end
     end).
End Ops.
