(* ===== verification/ImapInvariant.v ===== *)
(** * What the worker keeps true of the stored threads

    The rows of [mailbox_threads] summarise [messages]: one row for each thread and mailbox that
    has a message, with the number of its unread messages and whether one is starred.  Every
    IMAP job and notification keeps it so, whatever the server does. *)

From stdpp Require Import base list.
From S2P Require Import Prelude JsString JsNumber JsValue RuleMatcher MailDb Imap ImapOps.

Definition msg_key (r : MessageRow) : jsstr * jsstr := (m_threadId r, m_mailboxId r).

(** The messages of a thread in a mailbox. *)
Definition group (k : jsstr * jsstr) (rows : list MessageRow) : list MessageRow :=
  filter (λ r, msg_in k.1 k.2 r = true) rows.

(** What a row should hold. *)
Definition summary (rows : list MessageRow) : Z * bool :=
  (Z.of_nat (length (filter (λ r, m_seen r = false) rows)), existsb m_flagged rows).

Definition stored (r : MailboxThreadRow) : Z * bool := (mt_unreadCount r, mt_starred r).

Record consistent (s : MailDb) : Prop := {
  unique_ids : NoDup (map m_id (messages s));
  unique_rows : NoDup (map thread_key (mailboxThreads s));
  rows_mirror : ∀ k, k ∈ map thread_key (mailboxThreads s) ↔ k ∈ map msg_key (messages s);
  threads_exist : Forall (λ r, m_threadId r ∈ map t_id (threads s)) (messages s);
  rows_summarise : Forall (λ r, stored r = summary (group (thread_key r) (messages s))) (mailboxThreads s);
}.

(** The tables it speaks of. *)
Definition same_tables (s s' : MailDb) : Prop :=
  messages s' = messages s ∧ mailboxThreads s' = mailboxThreads s ∧ threads s' = threads s.

Lemma consistent_same s s' : same_tables s s' → preserving consistent s s'.
Proof. intros (H1 & H2 & H3) []. constructor; by rewrite ?H1, ?H2, ?H3. Qed.

Lemma msg_in_key k r : msg_in k.1 k.2 r = true ↔ msg_key r = k.
Proof. rewrite msg_in_spec. unfold msg_key. destruct k; simpl. intuition congruence. Qed.

Lemma row_in_key k r : row_in k.1 k.2 r = true ↔ thread_key r = k.
Proof. rewrite row_in_spec. unfold thread_key. destruct k; simpl. intuition congruence. Qed.

Lemma group_spec k r rows : r ∈ group k rows ↔ r ∈ rows ∧ msg_key r = k.
Proof. unfold group. rewrite list_elem_of_filter, msg_in_key. tauto. Qed.

Lemma any_flagged_group k rows : default false (any_flagged k.1 k.2 rows) = existsb m_flagged (group k rows).
Proof. unfold any_flagged, group. by destruct (filter _ rows). Qed.

Lemma unread_group k rows : unread_in k.1 k.2 rows = Z.of_nat (length (filter (λ r, m_seen r = false) (group k rows))).
Proof. done. Qed.

(** The invariant of the rules processor is the last part. *)
Lemma aggregates_summarise s :
  aggregates s ↔ Forall (λ r, stored r = summary (group (thread_key r) (messages s))) (mailboxThreads s).
Proof.
  unfold aggregates, stored, summary. apply Forall_iff. intros r.
  rewrite <- (unread_group (thread_key r)), <- (any_flagged_group (thread_key r)). simpl. split; [intros [-> ->]; done|].
  by intros [= -> ->].
Qed.

(** ** Flags *)

(** Messages of one group change or go, some are left, and the row of the group is computed again. *)
Lemma consistent_resummarise t b now s s' :
  NoDup (map m_id (messages s')) →
  (∀ k, k ∈ map msg_key (messages s') ↔ k ∈ map msg_key (messages s)) →
  Forall (λ r, m_threadId r ∈ map t_id (threads s)) (messages s') →
  (∀ k, k ≠ (t, b) → group k (messages s') = group k (messages s)) →
  threads s' = threads s →
  mailboxThreads s' = update_where (row_in t b)
    (set_aggregates (unread_in t b (messages s')) (default false (any_flagged t b (messages s'))) now)
    (mailboxThreads s) →
  preserving consistent s s'.
Proof.
  intros Hid Hkeys Hthreads Hg Ht Hrows [H1 H2 H3 H4 H5].
  assert (map thread_key (mailboxThreads s') = map thread_key (mailboxThreads s)) as Erow.
  { rewrite Hrows. unfold update_where. rewrite map_map. apply map_ext. intros r. by destruct (row_in t b r). }
  constructor.
  - done.
  - by rewrite Erow.
  - intros k. by rewrite Erow, H3, Hkeys.
  - by rewrite Ht.
  - rewrite Hrows. unfold update_where. apply Forall_map. eapply Forall_impl; [exact H5|].
    intros r Hr. simpl. destruct (row_in t b r) eqn:E.
    + apply row_in_spec in E as [<- <-]. unfold stored, summary. simpl.
      rewrite (any_flagged_group (thread_key r)). done.
    + rewrite Hr, Hg; [done|]. intros Ek. apply (row_in_key (t, b)) in Ek. simpl in Ek. congruence.
Qed.

Lemma consistent_refresh t b now f s s' :
  messages s' = map f (messages s) → threads s' = threads s →
  (∀ r, r ∈ messages s → m_id (f r) = m_id r ∧ msg_key (f r) = msg_key r) →
  (∀ r, r ∈ messages s → msg_key r ≠ (t, b) → f r = r) →
  mailboxThreads s' = update_where (row_in t b)
    (set_aggregates (unread_in t b (messages s')) (default false (any_flagged t b (messages s'))) now)
    (mailboxThreads s) →
  preserving consistent s s'.
Proof.
  intros Hm Ht Hf Hid Hrows Hs.
  refine (consistent_resummarise t b now s s' _ _ _ _ Ht Hrows Hs); rewrite Hm.
  - rewrite map_map, (map_ext_in _ m_id); [apply Hs|]. intros r Hr%list_elem_of_In. by apply Hf.
  - intros k. rewrite map_map, (map_ext_in _ msg_key); [done|]. intros r Hr%list_elem_of_In. by apply Hf.
  - apply Forall_map, Forall_forall. intros r Hr. simpl. destruct (Hf r Hr) as [_ [= -> _]].
    pose proof (threads_exist s Hs) as H4. rewrite Forall_forall in H4. auto.
  - intros k Hk. clear -Hf Hid Hk. induction (messages s) as [|r rows IH]; [done|].
    specialize (IH (λ r' Hr, Hf r' (list_elem_of_further _ _ _ Hr)) (λ r' Hr, Hid r' (list_elem_of_further _ _ _ Hr))).
    unfold group in *. simpl. rewrite !filter_cons, IH. destruct (decide (msg_key r = (t, b))) as [E|E].
    + destruct (Hf r) as [_ Hkr]; [set_solver|].
      rewrite !decide_False; [done|rewrite msg_in_key; congruence..].
    + by rewrite Hid by (done || set_solver).
Qed.

(** ** Deletion *)

(** Whole groups of messages go, with their rows, and threads without messages. *)
Lemma consistent_restrict (K : jsstr * jsstr → Prop) `{!∀ k, Decision (K k)} s s' :
  messages s' = filter (λ r, K (msg_key r)) (messages s) →
  mailboxThreads s' = filter (λ r, K (thread_key r)) (mailboxThreads s) →
  (∀ r, r ∈ messages s' → m_threadId r ∈ map t_id (threads s) → m_threadId r ∈ map t_id (threads s')) →
  preserving consistent s s'.
Proof.
  intros Hm Hrows Ht [H1 H2 H3 H4 H5].
  constructor.
  - rewrite Hm. by apply NoDup_map_filter.
  - rewrite Hrows, (map_filter _ _ K) by done. by apply NoDup_filter.
  - intros k. rewrite Hrows, Hm, !(map_filter _ _ K), !list_elem_of_filter, H3 by done. done.
  - apply Forall_forall. intros r Hr. apply (Ht r Hr). rewrite Forall_forall in H4.
    rewrite Hm in Hr. apply list_elem_of_filter in Hr as [_ Hr]. auto.
  - rewrite Hrows, Hm. apply Forall_forall. intros r [HK Hr]%list_elem_of_filter.
    rewrite Forall_forall in H5. rewrite (H5 r Hr). f_equal. unfold group. rewrite list_filter_filter.
    apply list_filter_iff. intros m. rewrite msg_in_key. split; [intros Hk; split; [done|]|tauto].
    by rewrite Hk.
Qed.

(** ** Moves *)

(** The same flags, one by one. *)
Lemma summary_ext l l' :
  Forall2 (λ r r', m_seen r' = m_seen r ∧ m_flagged r' = m_flagged r) l l' → summary l' = summary l.
Proof.
  unfold summary. induction 1 as [|r r' l l' [E1 E2] _ IH]; [done|]. simpl. rewrite !filter_cons, E1, E2.
  injection IH as IH ->. f_equal. repeat case_decide; simpl; lia.
Qed.

(** The messages of a group go to another mailbox with their row; that the keys of the rows stay
    unique says the thread had no row there. *)
Lemma consistent_move (g : jsstr * jsstr → jsstr * jsstr) s s' :
  Forall2 (λ r r', m_id r' = m_id r ∧ m_threadId r' = m_threadId r ∧ m_seen r' = m_seen r ∧
    m_flagged r' = m_flagged r ∧ msg_key r' = g (msg_key r)) (messages s) (messages s') →
  Forall2 (λ r r', stored r' = stored r ∧ thread_key r' = g (thread_key r))
    (mailboxThreads s) (mailboxThreads s') →
  threads s' = threads s → NoDup (map thread_key (mailboxThreads s')) →
  preserving consistent s s'.
Proof.
  intros Hm Hrows Ht Hnd [H1 H2 H3 H4 H5].
  assert (map thread_key (mailboxThreads s') = map g (map thread_key (mailboxThreads s))) as Er.
  { rewrite map_map. by apply Forall2_map_eq; eapply Forall2_impl; [exact Hrows|naive_solver]. }
  assert (map msg_key (messages s') = map g (map msg_key (messages s))) as Ek.
  { rewrite map_map. by apply Forall2_map_eq; eapply Forall2_impl; [exact Hm|naive_solver]. }
  constructor.
  - erewrite Forall2_map_eq; [exact H1|]. eapply Forall2_impl; [exact Hm|naive_solver].
  - done.
  - intros k. rewrite Er, Ek. setoid_rewrite list_elem_of_fmap. by setoid_rewrite H3.
  - rewrite Ht. clear -Hm H4. induction Hm as [|r r' l l' (_ & E & _)]; [done|].
    apply Forall_cons in H4 as [??]. constructor; [congruence|auto].
  - eapply Forall2_Forall_r; [exact Hrows|]. apply Forall_forall. intros r Hr r' [E1 E2].
    rewrite Forall_forall in H5. rewrite E1, E2, (H5 r Hr). symmetry. apply summary_ext.
    assert (thread_key r ∈ map thread_key (mailboxThreads s)) as Hin by by apply list_elem_of_fmap_2.
    rewrite Er in Hnd.
    assert (∀ m, m ∈ messages s → g (msg_key m) = g (thread_key r) → msg_key m = thread_key r) as Hinj.
    { intros m Hmm Hg. apply (NoDup_map_inj g (map thread_key (mailboxThreads s))); try done.
      apply H3. by apply list_elem_of_fmap_2. }
    clear -Hm Hinj. unfold group. induction Hm as [|m m' l l' (_ & _ & E1 & E2 & E3) _ IH]; [constructor|].
    rewrite !filter_cons. specialize (IH (λ m Hmm, Hinj m (list_elem_of_further _ _ _ Hmm))).
    destruct (decide (msg_key m = thread_key r)) as [E|E].
    + rewrite !decide_True by (rewrite msg_in_key; congruence). by constructor.
    + rewrite !decide_False; [done|..]; rewrite msg_in_key; [|done]. rewrite E3. intros Hg.
      apply E, Hinj; [set_solver|done].
Qed.

(** ** The operations *)

#[export] Instance same_tables_preorder : PreOrder same_tables.
Proof. split; unfold same_tables; [done|]. intros s1 s2 s3. intuition congruence. Qed.

Abbreviation keeps_consistent := (steps (preserving consistent)).

Lemma keeps_same {A} (p : proc A) : steps same_tables p → keeps_consistent p.
Proof. intros Hp s. exact (consistent_same _ _ (Hp s)). Qed.

(** A transaction that throws leaves the tables as they were: only its end matters. *)
Lemma preserving_transaction {A} (p : proc A) s :
  match p s with (s', Done _) => preserving consistent s s' | (_, Threw) => True end →
  preserving consistent s (transaction p s).1.
Proof. unfold transaction. destruct (p s) as [s' [a|]]; [done|]. intros _. by apply consistent_same. Qed.

Lemma keeps_transaction {A} (p : proc A) :
  (∀ s, match p s with (s', Done _) => preserving consistent s s' | (_, Threw) => True end) →
  keeps_consistent (transaction p).
Proof. intros Hp s. apply preserving_transaction, Hp. Qed.

(** What was read still holds after commands that leave the tables alone. *)
Lemma keeps_bind_same {A B} (p : proc A) (f : A → proc B) s :
  steps same_tables p → (∀ a s', same_tables s s' → preserving consistent s' (f a s').1) →
  preserving consistent s ((p ≫= f) s).1.
Proof.
  intros Hp Hf. unfold mbind, proc_bind. specialize (Hp s). destruct (p s) as [s' [a|]]; simpl in Hp.
  - intros Hs. apply Hf; [done|]. by eapply (consistent_same s s').
  - by apply consistent_same.
Qed.

Section Same.
Context `{ImapServer} (credentials_of : IdentityRow → option jsval) (clock : nat → Z).

Lemma same_modify f : (∀ s, same_tables s (f s)) → steps same_tables (modify f).
Proof. intros Hf s. apply Hf. Qed.

Lemma same_send c cmd : steps same_tables (send c cmd).
Proof. done. Qed.

Lemma same_with_lock {A} c path (p : proc A) : steps same_tables p → steps same_tables (with_lock c path p).
Proof. intros Hp. unfold with_lock. run_steps; done. Qed.

Lemma same_new_Date : steps same_tables (new_Date clock).
Proof. done. Qed.

Hint Resolve same_send same_modify : webmail.

Lemma same_safeReconnect i : steps same_tables (safeReconnect i).
Proof. unfold safeReconnect. run_steps; by apply same_modify. Qed.

Lemma same_ready_client i : steps same_tables (ready_client credentials_of i).
Proof.
  assert (∀ o, steps same_tables (ready o)) by done.
  pose proof same_safeReconnect. unfold ready_client, initSmtpClient, connect, or_throw.
  run_steps; by apply same_modify.
Qed.
End Same.

#[export] Hint Resolve same_send same_with_lock same_new_Date same_ready_client keeps_same : webmail.

Section Operations.
Context `{ImapServer} (credentials_of : IdentityRow → option jsval) (clock : nat → Z).
Context (jsonb_out : jsval → jsstr).

Lemma flag_update_keys op now r : m_id (flag_update op now r) = m_id r ∧ msg_key (flag_update op now r) = msg_key r.
Proof. done. Qed.

Lemma set_thread_flags_consistent t b op : keeps_consistent (set_thread_flags clock t b op).
Proof.
  apply keeps_transaction. intros s. unfold refresh_aggregates. unfold_proc. simpl.
  apply (consistent_refresh t b (clock (S (ticks s)))
    (λ r, if msg_in t b r then flag_update op (clock (ticks s)) r else r)); try done.
  - intros r _. by destruct (msg_in t b r).
  - intros r _ Hne. destruct (msg_in t b r) eqn:E; [|done]. by apply (msg_in_key (t, b)) in E.
Qed.

Lemma mailSetFlags_consistent t b op : keeps_consistent (mailSetFlags credentials_of clock t b op).
Proof.
  pose proof set_thread_flags_consistent. unfold mailSetFlags, send_flags. run_steps.
Qed.

Lemma move_in_db_consistent job dest : keeps_consistent (move_in_db clock job dest).
Proof.
  apply keeps_transaction. intros s. unfold or_throw, unique. unfold_proc. simpl.
  destruct (mapM _ _) as [rows|] eqn:Erows; [|done].
  destruct (bool_decide (NoDup (map message_key rows))); [|done]. case_bool_decide as Hnd; [|done].
  set (t := mv_threadId job) in *. set (b := mv_mailboxId job) in *.
  apply (consistent_move (λ k, if decide (k = (t, b)) then (t, mb_id dest) else k)); try done.
  - apply mapM_Some in Erows. eapply Forall2_impl; [exact Erows|]. intros r r' Hr.
    simpl in Hr. destruct (msg_in t b r) eqn:E in Hr.
    + apply (msg_in_key (t, b)) in E. unfold move_row in Hr. apply fmap_Some in Hr as (m & _ & ->).
      rewrite decide_True by done. injection E as <- _. done.
    + injection Hr as <-. rewrite decide_False; [done|]. intros Hk. by apply (msg_in_key (t, b)) in Hk; simpl in Hk; congruence.
  - simpl. unfold update_where. apply Forall2_fmap_r, Forall_Forall2_diag, Forall_forall. intros r _. simpl.
    destruct (row_in t b r) eqn:E.
    + apply (row_in_key (t, b)) in E. rewrite decide_True by done. split; [done|].
      injection E as Et _. unfold thread_key. simpl. by rewrite Et.
    + rewrite decide_False; [done|]. intros Hk. apply (row_in_key (t, b)) in Hk. simpl in Hk. congruence.
Qed.

Lemma moveMail_consistent job : keeps_consistent (moveMail credentials_of clock job).
Proof. pose proof move_in_db_consistent. unfold moveMail, move_on_server, move_group. run_steps. Qed.
(** The threads without messages go, and what refers to them: nothing the invariant speaks of. *)
Lemma delete_orphans_consistent ids s s' :
  (delete_orphans ids s).1 = s' → preserving consistent s s'.
Proof.
  unfold delete_orphans. unfold_proc. simpl. intros <- Hs.
  assert (∀ t, t ∈ orphans ids s → t ∉ map m_threadId (messages s)) as Ho.
  { intros t. unfold orphans. rewrite list_elem_of_filter. tauto. }
  apply (consistent_restrict (λ k, k.1 ∉ orphans ids s) s); simpl; [|done| |done].
  - symmetry. apply filter_all. intros m Hm Hin.
    apply (Ho _ Hin). by apply list_elem_of_fmap_2.
  - intros m Hm Ht. rewrite (map_filter t_id _ (λ t, t ∉ orphans ids s)) by done. apply list_elem_of_filter. split; [|done].
    intros Hin. apply (Ho _ Hin). by apply list_elem_of_fmap_2.
Qed.

(** Ids name their messages: deleting the ids of a selection deletes the selection. *)
Lemma delete_selected (P : MessageRow → Prop) `{!∀ r, Decision (P r)} rows :
  NoDup (map m_id rows) →
  filter (λ r, m_id r ∉ map m_id (filter P rows)) rows = filter (λ r, ¬ P r) rows.
Proof.
  intros Hnd. apply filter_ext_in. intros r Hr. rewrite list_elem_of_fmap.
  setoid_rewrite list_elem_of_filter. split.
  - intros Hn HP. apply Hn. by exists r.
  - intros HP (r' & Hid & HP' & Hr'). apply HP. by rewrite (NoDup_map_inj m_id rows r r').
Qed.

(** The groups of a mailbox and some threads are deleted, then the threads left empty. *)
Lemma delete_groups_consistent (P : MessageRow → Prop) `{!∀ r, Decision (P r)} b ids s :
  (∀ r, r ∈ messages s → P r ↔ m_mailboxId r = b ∧ m_threadId r ∈ ids) →
  match (_ ← delete_messages (map m_id (filter P (messages s))); _ ← delete_thread_rows b ids;
         delete_orphans ids) s with
  | (s', Done _) => preserving consistent s s'
  | (_, Threw) => True
  end.
Proof.
  intros HP. unfold delete_messages, delete_thread_rows. unfold_proc.
  match goal with |- match delete_orphans ids ?s1 with _ => _ end => set (s1' := s1) end.
  pose proof (delete_orphans_consistent ids s1' _ eq_refl) as Ho.
  destruct (delete_orphans ids s1') as [s2 [[]|]]; [|done]. simpl in Ho.
  intros Hs. apply Ho. subst s1'.
  apply (consistent_restrict (λ k, ¬ (k.2 = b ∧ k.1 ∈ ids)) s); simpl; [|done|done|done].
  rewrite delete_selected by apply Hs. apply filter_ext_in. intros r Hr. by rewrite HP.
Qed.

Lemma empty_in_db_consistent b : keeps_consistent (empty_in_db b).
Proof.
  unfold empty_in_db. apply steps_bind_read. intros s. apply preserving_transaction.
  set (rows := filter _ (messages s)). destruct (set_of_list (map m_threadId rows)) as [|t ids] eqn:E.
  - assert (rows = []) as ->.
    { destruct rows as [|r rows]; [done|]. assert (m_threadId r ∈ set_of_list (map m_threadId (r :: rows))) as Hin.
      { apply elem_of_set_of_list. set_solver. }
      rewrite E in Hin. set_solver. }
    unfold delete_messages. unfold_proc. apply consistent_same. split; [|done]. simpl.
    apply filter_all. set_solver.
  - rewrite <- E. subst rows. apply delete_groups_consistent. intros r Hr. rewrite elem_of_set_of_list.
    split; [|tauto]. intros Hb. split; [done|]. apply list_elem_of_fmap_2. by apply list_elem_of_filter.
Qed.

Lemma same_empty_on_server c path : steps same_tables (empty_on_server c path).
Proof.
  unfold empty_on_server. apply steps_catch; [apply _| |auto with webmail]. apply same_with_lock. run_steps.
Qed.

Lemma delete_with_consistent job box o : keeps_consistent (delete_with job box o).
Proof.
  unfold delete_with. destruct (dl_emptyAll job).
  - pose proof empty_in_db_consistent. pose proof same_empty_on_server. run_steps.
  - destruct (filter _ (dl_threadId job)) as [|t ids]; [auto with webmail|]. set (ids' := t :: ids).
    apply steps_bind_read. intros s. apply keeps_bind_same.
    { unfold deleteUids. run_steps. }
    intros _ s' Hsame. destruct Hsame as (Hm & _ & _). rewrite <- Hm. apply preserving_transaction.
    by apply delete_groups_consistent.
Qed.

Lemma deleteMail_consistent job : keeps_consistent (deleteMail credentials_of job).
Proof. pose proof delete_with_consistent. unfold deleteMail. run_steps. Qed.

Lemma message_at_spec b uid s s' o :
  message_at jsonb_out b uid s s' = (s', Done o) →
  match o with Some m => m ∈ messages s ∧ m_mailboxId m = b | None => True end.
Proof.
  unfold message_at. destruct (mapM _ _); [|done]. intros [= <-].
  destruct (List.find _ _) as [m|] eqn:E; [|done]. apply List.find_some in E as [Hm _].
  apply list_elem_of_In, list_elem_of_filter in Hm. tauto.
Qed.

Lemma message_at_pure b uid s s' : (message_at jsonb_out b uid s s').1 = s'.
Proof. unfold message_at. by destruct (mapM _ _). Qed.

Lemma handleFlagsUpdate_consistent i uid path fl se an :
  keeps_consistent (handleFlagsUpdate clock jsonb_out i uid path fl se an).
Proof.
  apply keeps_transaction. intros s. unfold read, mbind, proc_bind.
  destruct (mailbox_at _ _ _ s) as [mb|]; [|by apply consistent_same].
  destruct (message_at jsonb_out (mb_id mb) uid s s) as [s0 [o|]] eqn:E; [|done].
  pose proof (message_at_pure (mb_id mb) uid s s) as Hp. rewrite E in Hp. simpl in Hp. subst s0.
  apply message_at_spec in E. destruct o as [m|]; [|by apply consistent_same]. destruct E as [Hm Hb].
  destruct (_ && _); [by apply consistent_same|]. unfold refresh_aggregates. unfold_proc. simpl.
  intros Hs. refine (consistent_refresh (m_threadId m) (mb_id mb) (clock (ticks s))
    (λ r, if bool_decide (m_id r = m_id m) then with_flags (Some se) (Some fl) (Some an) (clock (ticks s)) r else r)
    s _ _ _ _ _ _ Hs); try done.
  - intros r _. by case_bool_decide.
  - intros r Hr Hne. case_bool_decide as Hid; [|done]. exfalso. apply Hne.
    rewrite (NoDup_map_inj m_id (messages s) r m) by (done || apply Hs). unfold msg_key. by rewrite Hb.
Qed.

Lemma handleExpunge_consistent i path uid : keeps_consistent (handleExpunge clock jsonb_out i path uid).
Proof.
  apply keeps_transaction. intros s. unfold read, mbind, proc_bind.
  destruct (mailbox_at _ _ _ s) as [mb|]; [|by apply consistent_same].
  destruct (message_at jsonb_out (mb_id mb) uid s s) as [s0 [o|]] eqn:E; [|done].
  pose proof (message_at_pure (mb_id mb) uid s s) as Hp. rewrite E in Hp. simpl in Hp. subst s0.
  apply message_at_spec in E. destruct o as [m|]; [|by apply consistent_same]. destruct E as [Hm Hb].
  unfold delete_messages. unfold_proc.
  set (rest := filter (λ r, m_id r ∉ [m_id m]) (messages s)).
  change (messages (set_attachments _ (set_messages _ s))) with rest.
  assert (NoDup (map m_id (messages s)) → ∀ r, r ∈ messages s → m_id r ∉ [m_id m] ↔ r ≠ m) as Hother.
  { intros Hnd r Hr. rewrite list_elem_of_singleton. split; [by intros ? ->|].
    intros Hne Hid. by apply Hne, (NoDup_map_inj m_id (messages s)). }
  set (k := (m_threadId m, mb_id mb)).
  change (filter (λ r, msg_in (m_threadId m) (mb_id mb) r = true) rest) with (group k rest).
  assert (msg_key m = k) as Hk by by unfold msg_key; rewrite Hb.
  destruct (group k rest) as [|r0 l] eqn:Eg; simpl; intros Hs; specialize (Hother (unique_ids s Hs)).
  - refine (consistent_restrict (λ k', k' ≠ k) s _ _ _ _ Hs); simpl; [| |done].
    + apply filter_ext_in. intros r Hr. rewrite Hother by done. split; [|by intros Hn ->].
      intros Hne Hkr. assert (r ∈ group k rest) as Hin; [|rewrite Eg in Hin; set_solver].
      apply group_spec. split; [|done]. apply list_elem_of_filter. by rewrite Hother.
    + apply filter_ext_in. intros r _. rewrite <- not_true_iff_false. apply not_iff_compat, (row_in_key k).
  - refine (consistent_resummarise (m_threadId m) (mb_id mb) (clock (ticks s)) s _ _ _ _ _ _ _ Hs); simpl;
      try done; fold rest.
    + apply NoDup_map_filter, Hs.
    + intros k'. rewrite !list_elem_of_fmap. split.
      * intros (r & -> & [_ Hr]%list_elem_of_filter). by exists r.
      * intros (r & -> & Hr). destruct (decide (m_id r = m_id m)) as [Hid|Hne].
        { rewrite (NoDup_map_inj m_id (messages s) r m) by (done || apply Hs). exists r0. assert (r0 ∈ group k rest) as [Hr0 Hkr0]%group_spec by (rewrite Eg; set_solver). by rewrite Hk. }
        exists r. split; [done|]. apply list_elem_of_filter. split; [set_solver|done].
    + apply Forall_forall. intros r [_ Hr]%list_elem_of_filter.
      pose proof (threads_exist s Hs) as H4. rewrite Forall_forall in H4. auto.
    + intros k' Hk'. unfold group, rest. rewrite list_filter_filter. apply filter_ext_in. intros r Hr.
      rewrite msg_in_key, Hother by done. split; [tauto|]. intros E. split; [done|]. intros ->.
      apply Hk'. by rewrite <- E.
Qed.
(** ** What [mailSetFlags] and [moveMail] do to the tables *)

Lemma send_flags_total c a g : total (send_flags c a g).
Proof.
  intros s. unfold send_flags. destruct (sort_by _ _); [by exists tt|]. apply total_catch. intros s'. by exists tt.
Qed.

(** The server is reached: the commands leave the tables alone, then the transaction runs. *)
Lemma mailSetFlags_run t b op s mb c :
  find_mailbox b s = Some mb → (ready_client credentials_of (mb_identityId mb) s).2 = Done (Some c) →
  group (t, b) (messages s) ≠ [] → is_Some (opToAction op) →
  ∃ s1, same_tables s s1 ∧ mailSetFlags credentials_of clock t b op s = set_thread_flags clock t b op s1.
Proof.
  intros Hmb Hc Hg [a Ha]. unfold mailSetFlags, read, mbind, proc_bind. rewrite Hmb.
  pose proof (same_ready_client credentials_of (mb_identityId mb) s) as Hs.
  destruct (ready_client _ _ s) as [s1 o]. simpl in *. subst o. rewrite Ha.
  pose proof Hs as (Hm & _ & _). rewrite Hm. set (key := λ a b : MessageRow, _).
  destruct (sort_by key _) as [|m ms] eqn:E; [by apply sort_by_nil in E|]. set (groups := by_path _).
  destruct (total_each _ groups (send_flags_total c a) s1) as [u Hu].
  assert (steps same_tables (each (send_flags c a) groups)) as Hsame by (unfold send_flags; run_steps).
  specialize (Hsame s1). destruct (each _ groups s1) as [s2 o]. simpl in *. subst o.
  exists s2. split; [by trans s1|done].
Qed.

(** Otherwise nothing changes. *)
Lemma mailSetFlags_skips t b op s :
  (∀ mb, find_mailbox b s = Some mb →
    (∀ c, (ready_client credentials_of (mb_identityId mb) s).2 ≠ Done (Some c)) ∨
    group (t, b) (messages s) = [] ∨ opToAction op = None) →
  same_tables s (mailSetFlags credentials_of clock t b op s).1.
Proof.
  intros Hno. unfold mailSetFlags, read, mbind, proc_bind. destruct (find_mailbox b s) as [mb|]; [|done].
  specialize (Hno mb eq_refl). pose proof (same_ready_client credentials_of (mb_identityId mb) s) as Hs.
  destruct (ready_client _ _ s) as [s1 [[c|]|]]; try done. simpl in Hs, Hno.
  pose proof Hs as (Hm & _ & _). rewrite Hm. fold (group (t, b) (messages s)).
  destruct Hno as [Hc|[Hg|Ha]]; [by destruct (Hc c)| |].
  - change (filter _ (messages s)) with (group (t, b) (messages s)). by rewrite Hg.
  - rewrite Ha. by destruct (sort_by _ _).
Qed.
End Operations.
