(* ===== verification/IngestSpecs.v ===== *)
(** * What storing a message does

    The invariant of the stored threads, the choice of the thread, duplicates, and what happens
    when an attachment cannot be stored. *)

From stdpp Require Import base list.
From S2P Require Import Prelude JsString JsRegex JsNumber JsValue RuleMatcher ContactTable MailDb MailRollup.
From S2P Require Import Imap ImapOps ImapInvariant Ingest.

(** ** The invariant of the threads *)

Lemma upsert_thread_keys now row0 table :
  map thread_key (upsert now row0 table) =
  if decide (thread_key row0 ∈ map thread_key table) then map thread_key table
  else map thread_key table ++ [thread_key row0].
Proof. apply upsert_keys. Qed.

(** The row of the key is the new one, merged into the old one; the others stay. *)
Lemma elem_of_upsert now row0 table r :
  NoDup (map thread_key table) → r ∈ upsert now row0 table →
  (thread_key r ≠ thread_key row0 ∧ r ∈ table) ∨ r = row0 ∨
  ∃ old, old ∈ table ∧ thread_key old = thread_key row0 ∧ r = merge_row now old row0.
Proof.
  induction table as [|old table IH]; intros Hnd Hr; cbn [upsert map] in *.
  - apply list_elem_of_singleton in Hr. by right; left.
  - apply NoDup_cons in Hnd as [Hn Hnd]. destruct (same_key old row0) eqn:E; unfold same_key in E.
    + bool_to_prop. assert (thread_key old = thread_key row0) as Ek by (unfold thread_key; congruence).
      apply elem_of_cons in Hr as [-> | Hr].
      { right. right. exists old. split; [apply list_elem_of_here|done]. }
      left. split; [|by apply list_elem_of_further].
      intros Hk. apply Hn. rewrite Ek, <- Hk. by apply list_elem_of_fmap_2.
    + apply elem_of_cons in Hr as [-> | Hr].
      * left. split; [|apply list_elem_of_here]. unfold thread_key. intros [= E1 E2]. rewrite E1, E2, !bool_decide_eq_true_2 in E by done.
        done.
      * destruct (IH Hnd Hr) as [[? ?]|[?|(o & ? & ? & ?)]]; [|by right; left|].
        { left. split; [done|by apply list_elem_of_further]. }
        right. right. exists o. split; [by apply list_elem_of_further|done].
Qed.

Lemma group_snoc k rows m : group k (rows ++ [m]) = if decide (msg_key m = k) then group k rows ++ [m] else group k rows.
Proof.
  unfold group. rewrite filter_app, filter_cons. simpl. destruct (decide (msg_key m = k)) as [E|E].
  - by rewrite decide_True by (by apply msg_in_key).
  - rewrite decide_False, app_nil_r; [done|]. by rewrite msg_in_key.
Qed.

Lemma existsb_app_r {A} (p : A → bool) l k : existsb p l || existsb p (l ++ k) = existsb p (l ++ k).
Proof. rewrite existsb_app. by destruct (existsb p l). Qed.

(** A message is added and the row of its group computed again. *)
Lemma consistent_insert now row0 m s s' :
  messages s' = messages s ++ [m] → mailboxThreads s' = upsert now row0 (mailboxThreads s) →
  (∀ t, t ∈ map t_id (threads s) → t ∈ map t_id (threads s')) →
  m_id m ∉ map m_id (messages s) → m_threadId m ∈ map t_id (threads s') →
  thread_key row0 = msg_key m → stored row0 = summary (group (msg_key m) (messages s')) →
  preserving consistent s s'.
Proof.
  intros Hm Hrows Ht Hid Hthread Hk Hsum [H1 H2 H3 H4 H5]. rewrite Hm in *. constructor.
  - rewrite Hm, map_app. apply NoDup_app. split; [done|]. split; [|apply NoDup_singleton].
    intros x Hx ->%list_elem_of_singleton. done.
  - rewrite Hrows, upsert_thread_keys. case_decide as Hin; [done|]. apply NoDup_app. split; [done|].
    split; [|apply NoDup_singleton]. intros x Hx ->%list_elem_of_singleton. done.
  - intros k. rewrite Hrows, upsert_thread_keys, Hm, map_app, elem_of_app, <- H3. cbn [map].
    rewrite list_elem_of_singleton, <- Hk. case_decide; [|rewrite elem_of_app, list_elem_of_singleton; done].
    split; [by left|]. by intros [?| ->].
  - rewrite Hm. apply Forall_app. split; [|by apply Forall_singleton]. eapply Forall_impl; [exact H4|]. auto.
  - rewrite Hrows, Hm. apply Forall_forall. intros r Hr. rewrite Forall_forall in H5.
    destruct (elem_of_upsert _ _ _ _ H2 Hr) as [[Hne Hin]|[->|(old & Hin & Eo & ->)]].
    + rewrite group_snoc, decide_False by congruence. auto.
    + by rewrite Hk.
    + change (thread_key (merge_row now old row0)) with (thread_key old). rewrite Eo, Hk, <- Hsum.
      specialize (H5 old Hin). unfold stored in *. cbn [merge_row mt_unreadCount mt_starred]. f_equal.
      rewrite Eo, Hk in H5. unfold summary in *. injection H5 as _ ->. injection Hsum as _ ->.
      rewrite group_snoc, decide_True by done. apply existsb_app_r.
Qed.

(** ** What each part leaves alone *)

(** The mail tables. *)
Definition quiet (s s' : MailDb) : Prop :=
  same_tables s s' ∧ mailboxes s' = mailboxes s ∧ identities s' = identities s ∧ mailboxSync s' = mailboxSync s.

#[export] Instance quiet_preorder : PreOrder quiet.
Proof.
  split; unfold quiet; [done|]. intros s1 s2 s3 (T1 & E1 & F1 & G1) (T2 & E2 & F2 & G2).
  split; [by trans s2|]. split; [congruence|]. split; congruence.
Qed.

Lemma quiet_modify f : (∀ s, quiet s (f s)) → steps quiet (modify f).
Proof. intros Hf s. apply Hf. Qed.

Lemma quiet_ingest f : steps quiet (modify (set_ingest f)).
Proof. done. Qed.

Lemma quiet_job j : steps quiet (add_job j).
Proof. done. Qed.

#[export] Hint Resolve quiet_modify quiet_ingest quiet_job : webmail.

Section Quiet.
Context (clock : nat → Z) (new_id : MailDb → jsstr) (parse_url : jsstr → option Url) (uuid : MailDb → jsstr).
Context (upload_ok : list jsstr → jsstr → bool) (attachment_ok : AttachmentRow → bool) (row_json : MessageRow → jsval).

Lemma quiet_new_Date : steps quiet (new_Date clock).
Proof. done. Qed.

Hint Resolve quiet_new_Date : webmail.

Lemma quiet_flush : steps quiet (flushBatches row_json).
Proof.
  unfold flushBatches, flush_search, flush_ics, flush_webhook, flush_rules, batch_job. run_steps; done.
Qed.

Lemma quiet_flush_or_schedule full : steps quiet (flush_or_schedule row_json full).
Proof. pose proof quiet_flush. unfold flush_or_schedule, scheduleFlush. run_steps; done. Qed.

Lemma quiet_upload path : steps quiet (upload upload_ok path).
Proof. unfold upload. run_steps; done. Qed.

Hint Resolve quiet_flush_or_schedule quiet_upload : webmail.

Lemma quiet_subscription ownerId p : steps quiet (ingestMailSubscriptionFromMessage parse_url clock ownerId p).
Proof. unfold ingestMailSubscriptionFromMessage. run_steps; done. Qed.

Lemma quiet_contacts ownerId p : steps quiet (upsertContactsFromMessage new_id ownerId p).
Proof. unfold upsertContactsFromMessage. run_steps; done. Qed.

Lemma quiet_attachments o i seen l :
  steps quiet (store_attachments new_id uuid upload_ok attachment_ok row_json o i seen l).
Proof.
  revert seen. induction l as [|a l IH]; intros seen; cbn [store_attachments]; [auto with webmail|].
  unfold store_attachment. run_steps; done.
Qed.

Lemma quiet_announce o raw c row : steps quiet (announce row_json o raw c row).
Proof. unfold announce. run_steps; done. Qed.
End Quiet.

#[export] Hint Resolve quiet_new_Date quiet_flush quiet_flush_or_schedule quiet_upload quiet_subscription
  quiet_contacts quiet_attachments quiet_announce : webmail.

(** Contacts and lists never fail. *)
Lemma total_subscription parse_url clock ownerId p : total (ingestMailSubscriptionFromMessage parse_url clock ownerId p).
Proof.
  intros s. unfold ingestMailSubscriptionFromMessage.
  destruct (raw_list_id p), (unsubscribe_url p), (unsubscribe_mailto p); try (by exists tt);
    destruct (subscription_key parse_url p); by exists tt.
Qed.

Lemma total_contacts new_id ownerId p : total (upsertContactsFromMessage new_id ownerId p).
Proof.
  intros s. unfold upsertContactsFromMessage. destruct (getFromAddress p) as [a|]; [|by eexists].
  unfold_proc. destruct (List.find _ _) as [c|]; [|by eexists].
  destruct (fa_name a); [|by eexists]. destruct (_ || _); by eexists.
Qed.

(** ** The stored threads *)

Section Threads.
Context (clock : nat → Z) (new_id : MailDb → jsstr).

(** The thread found, or the one added at the end. *)
Lemma create_thread_run ownerId p s :
  ∃ t s', createOrInitializeThread clock new_id ownerId p s = (s', Done t) ∧
    messages s' = messages s ∧ mailboxThreads s' = mailboxThreads s ∧ mailboxes s' = mailboxes s ∧
    identities s' = identities s ∧ mailboxSync s' = mailboxSync s ∧ ingest s' = ingest s ∧ jobs s' = jobs s ∧
    match existing_thread ownerId p s with
    | Some t' => t = t' ∧ threads s' = threads s
    | None => t_id t = new_id s ∧ t_ownerId t = ownerId ∧ threads s' = threads s ++ [t]
    end.
Proof.
  unfold createOrInitializeThread, transaction. unfold_proc. destruct (existing_thread ownerId p s) as [t|] eqn:E.
  - exists t, s. by repeat split.
  - destruct (pm_date p) as [d|]; eexists _, _; (split; [reflexivity|]); by repeat split.
Qed.

End Threads.

Lemma existing_thread_in ownerId p s t : existing_thread ownerId p s = Some t → t ∈ threads s.
Proof.
  unfold existing_thread. intros (m & _ & H)%bind_Some. destruct (negb _); [done|].
  by apply List.find_some in H as [H%list_elem_of_In _].
Qed.

Lemma touch_thread_run i d s :
  ∃ s', touch_thread i d s = (s', Done tt) ∧ messages s' = messages s ∧ mailboxThreads s' = mailboxThreads s ∧
    map t_id (threads s') = map t_id (threads s) ∧ mailboxes s' = mailboxes s ∧ identities s' = identities s ∧
    mailboxSync s' = mailboxSync s ∧ ingest s' = ingest s ∧ jobs s' = jobs s.
Proof.
  assert (∀ l, map t_id (update_where (λ t, bool_decide (t_id t = i)) (set_lastMessageDate d) l) = map t_id l) as Hm.
  { intros l. unfold update_where. rewrite map_map. apply map_ext. intros t. by case_bool_decide. }
  unfold touch_thread. unfold_proc. case_match; [case_match|].
  all: eexists; (split; [reflexivity|]); repeat split; simpl; auto.
Qed.

(** What the invariant needs of a message that is stored: its mailbox exists, with its identity, and
    the messages there are its owner's. *)
Record can_store (o : StoreOptions) (s : MailDb) : Prop := {
  cs_box : ∃ mbx ident, List.find (λ b, bool_decide (mb_id b = so_mailboxId o)) (mailboxes s) = Some mbx ∧
    List.find (λ i, bool_decide (id_id i = mb_identityId mbx)) (identities s) = Some ident;
  cs_owner : ∀ m, m ∈ messages s → m_mailboxId m = so_mailboxId o → m_ownerId m = so_ownerId o;
}.

Lemma can_store_quiet o s s' :
  messages s' = messages s → mailboxes s' = mailboxes s → identities s' = identities s → can_store o s → can_store o s'.
Proof. intros E1 E2 E3 []. split; by rewrite ?E1, ?E2, ?E3. Qed.

Lemma find_fresh i l (m : MessageRow) :
  i ∉ map m_id l → m_id m = i → List.find (λ m, bool_decide (m_id m = i)) (l ++ [m]) = Some m.
Proof.
  intros Hn Hm. induction l as [|x l IH]; simpl.
  - by rewrite bool_decide_eq_true_2.
  - cbn [map] in Hn. apply not_elem_of_cons in Hn as [Hx Hn]. rewrite bool_decide_eq_false_2 by congruence. auto.
Qed.

(** The rows after a message was stored: those of before, with their owners, and the one of its
    thread, which belongs to the owner of the mailbox. *)
Definition rows_from (m : MessageRow) (s s' : MailDb) : Prop :=
  ∀ r, r ∈ mailboxThreads s' →
    (∃ r0, r0 ∈ mailboxThreads s ∧ thread_key r0 = thread_key r ∧ mt_ownerId r0 = mt_ownerId r) ∨
    (thread_key r = msg_key m ∧ ∃ b, b ∈ mailboxes s ∧ mb_id b = m_mailboxId m ∧ mt_ownerId r = mb_ownerId b).

Lemma upsert_elem now row0 l r : r ∈ upsert now row0 l →
  r = row0 ∨ ∃ r0, r0 ∈ l ∧ thread_key r0 = thread_key r ∧ mt_ownerId r0 = mt_ownerId r.
Proof.
  induction l as [|x l IH]; simpl; [intros ->%list_elem_of_singleton; by left|].
  destruct (same_key x row0).
  - intros [-> | Hr]%elem_of_cons; right; [exists x|exists r]; (split; [set_solver|done]).
  - intros [-> | Hr]%elem_of_cons; [right; exists x; split; [set_solver|done]|].
    destruct (IH Hr) as [?|(r0 & ? & ?)]; [by left|right]. exists r0. split; [set_solver|done].
Qed.

(** The insertion and the row computed after it. *)
Lemma insert_and_upsert clock o m s s1 :
  can_store o s → m_mailboxId m = so_mailboxId o → m_ownerId m = so_ownerId o →
  m_id m ∉ map m_id (messages s) → m_threadId m ∈ map t_id (threads s) →
  quiet (set_messages (λ l, l ++ [m]) s) s1 →
  ∃ s2 k, upsertMailboxThreadItem clock (m_id m) s1 = (s2, Done k) ∧ messages s2 = messages s ++ [m] ∧
    threads s2 = threads s ∧ ingest s2 = ingest s1 ∧ jobs s2 = jobs s1 ∧ mailboxSync s2 = mailboxSync s ∧
    preserving consistent s s2 ∧ rows_from m s s2.
Proof.
  intros Hcs Hb Ho Hid Ht ((Em & Er & Et) & Eb & Ei & Es). simpl in *.
  destruct Hcs as [(mbx & ident & Hbox & Hident) Howner].
  destruct (upsert_run clock (m_id m) s1 m mbx ident) as [Hrun Hsum].
  { rewrite Em. by apply find_fresh. }
  { by rewrite Eb, Hb. }
  { by rewrite Ei. }
  rewrite Hrun. set (row0 := payload _ _ _ _ _ _ _) in *. set (now := clock _) in *.
  pose proof Hbox as [_ Hbid%bool_decide_eq_true]%List.find_some.
  eexists _, _. split; [reflexivity|]. simpl. split; [done|]. split; [done|]. split; [done|]. split; [done|].
  split; [done|]. split.
  2:{ intros r Hr. simpl in Hr. rewrite Er in Hr. apply upsert_elem in Hr as [-> | ?]; [right|by left].
      split; [unfold thread_key, msg_key, row0; simpl; congruence|]. exists mbx. split; [|split; [congruence|done]].
      apply List.find_some in Hbox as [? _]. by apply list_elem_of_In. }
  assert (filter (in_summary m mbx) (messages s1) = group (msg_key m) (messages s1)) as Ef.
  { unfold group. apply filter_ext_in. intros x Hx. rewrite msg_in_key. unfold in_summary, msg_key.
    rewrite Em in Hx. split; [intros (? & ? & ?); congruence|]. intros [= E1 E2]. split; [|split; congruence].
    apply elem_of_app in Hx as [Hx| ->%list_elem_of_singleton]; [|done]. rewrite Ho. apply Howner; congruence. }
  rewrite Ef in Hsum. apply (consistent_insert now row0 m); simpl; try done.
  - by rewrite Er.
  - by rewrite Et.
  - by rewrite Et.
  - unfold thread_key, msg_key, row0. simpl. congruence.
  - unfold stored, summary. f_equal; [apply Hsum|]. apply eq_iff_eq_true. rewrite (s_starred _ _ _ Hsum), existsb_exists.
    setoid_rewrite <- list_elem_of_In. naive_solver.
Qed.

(** ** The run, up to the attachments *)

(** Besides the mail tables, the buffers and the queues. *)
Definition calm (s s' : MailDb) : Prop :=
  quiet s s' ∧ buffers (ingest s') = buffers (ingest s) ∧ jobs s' = jobs s.

#[export] Instance calm_preorder : PreOrder calm.
Proof.
  split; unfold calm; [done|]. intros s1 s2 s3 (Q1 & B1 & J1) (Q2 & B2 & J2).
  split; [by trans s2|]. split; congruence.
Qed.

Section Run.
Context (clock : nat → Z) (new_id : MailDb → jsstr) (simpleParser : jsstr → option ParsedMail).
Context (parse_url : jsstr → option Url) (uuid : MailDb → jsstr) (upload_ok : list jsstr → jsstr → bool).
Context (message_ok : MessageRow → bool) (attachment_ok : AttachmentRow → bool) (row_json : MessageRow → jsval).

Lemma calm_new_Date : steps calm (new_Date clock).
Proof. done. Qed.

Lemma calm_upload path : steps calm (upload upload_ok path).
Proof. intros s. unfold upload. unfold_proc. by destruct (upload_ok _ _). Qed.

Lemma calm_subscription ownerId p : steps calm (ingestMailSubscriptionFromMessage parse_url clock ownerId p).
Proof.
  intros s. unfold ingestMailSubscriptionFromMessage. unfold_proc.
  destruct (raw_list_id p), (unsubscribe_url p), (unsubscribe_mailto p); try done; by destruct (subscription_key _ _).
Qed.

Lemma calm_contacts ownerId p : steps calm (upsertContactsFromMessage new_id ownerId p).
Proof.
  intros s. unfold upsertContactsFromMessage. unfold_proc. destruct (getFromAddress p) as [a|]; [|done].
  destruct (List.find _ _); [|done]. destruct (fa_name a); [|done]. by destruct (_ || _).
Qed.

Abbreviation parse := (parseAndStoreEmail clock new_id simpleParser parse_url uuid upload_ok message_ok
  attachment_ok row_json).

(** The attachments and what follows. *)
Definition finish (o : StoreOptions) (raw : jsstr) (p : ParsedMail) (m : MessageRow) (c : option jsstr) :
    proc (option MessageRow) :=
  _ ← store_attachments new_id uuid upload_ok attachment_ok row_json o (m_id m) [] (pm_attachments p);
  _ ← announce row_json o raw c m;
  mret (Some m).

Context (Hfresh : ∀ s, new_id s ∉ map m_id (messages s)).

(** The message does not get into the table: only a thread may have been added. *)
Record refused (s s' : MailDb) : Prop := {
  rf_messages : messages s' = messages s; rf_rows : mailboxThreads s' = mailboxThreads s;
  rf_threads : ∃ l, threads s' = threads s ++ l ∧ length l ≤ 1;
  rf_sync : mailboxSync s' = mailboxSync s;
  rf_buffers : buffers (ingest s') = buffers (ingest s); rf_jobs : jobs s' = jobs s;
}.

(** The message and its row are there. *)
Record accepted_as (o : StoreOptions) (p : ParsedMail) (m : MessageRow) (s s' : MailDb) : Prop := {
  ac_messages : messages s' = messages s ++ [m];
  ac_new : message_key m ∉ map message_key (messages s);
  ac_box : m_mailboxId m = so_mailboxId o; ac_owner : m_ownerId m = so_ownerId o;
  ac_id : pm_messageId p = Some (m_messageId m);
  ac_rows : preserving consistent s s'; ac_from : rows_from m s s';
  ac_sync : mailboxSync s' = mailboxSync s;
  ac_buffers : buffers (ingest s') = buffers (ingest s); ac_jobs : jobs s' = jobs s;
}.

(** The message holds what the mail says. *)
Record carries (p : ParsedMail) (m : MessageRow) : Prop := {
  cy_messageId : pm_messageId p = Some (m_messageId m); cy_inReplyTo : m_inReplyTo m = pm_inReplyTo p;
  cy_subject : m_subject m = pm_subject p; cy_text : m_text m = pm_text p;
  cy_html : m_html m = Some (default [] (pm_html p));
  cy_from : m_from m = nullish_or (pm_from p) VNull; cy_to : m_to m = nullish_or (pm_to p) VNull;
  cy_cc : m_cc m = nullish_or (pm_cc p) VNull; cy_bcc : m_bcc m = nullish_or (pm_bcc p) VNull;
  cy_date : m_date m = pm_date p; cy_headers : m_headersJson m = Some (pm_headers p);
  cy_attachments : m_hasAttachments m = true ↔ pm_attachments p ≠ [];
}.

Lemma message_row_spec id t now o p m :
  message_row message_ok id t now o p = Some m →
  m_id m = id ∧ m_threadId m = t ∧ m_mailboxId m = so_mailboxId o ∧ m_ownerId m = so_ownerId o ∧
  pm_messageId p = Some (m_messageId m) ∧ message_ok m = true ∧ carries p m.
Proof.
  unfold message_row. destruct (pm_messageId p) as [mid|] eqn:Emid; [|done]. cbn [mbind option_bind].
  match goal with |- (if message_ok ?r then _ else _) = _ → _ => set (row := r) end.
  destruct (message_ok row) eqn:E; [|done]. intros [= <-]. do 6 (split; [done|]).
  split; try done; cbn [m_html m_hasAttachments].
  - f_equal. destruct (pm_html p) as [[|c h]|]; reflexivity.
  - destruct (pm_attachments p); simpl; split; done.
Qed.

(** The insertion, what follows up to the attachments. *)
Lemma after_insert_run o raw p t m s :
  can_store o s → m_mailboxId m = so_mailboxId o → m_ownerId m = so_ownerId o →
  m_id m ∉ map m_id (messages s) → m_threadId m ∈ map t_id (threads s) →
  ∃ c s', (_ ← after_insert clock new_id parse_url uuid upload_ok attachment_ok row_json o raw p t m; mret (Some m))
            (set_messages (λ l, l ++ [m]) s) = finish o raw p m c s' ∧
    messages s' = messages s ++ [m] ∧ (preserving consistent s s' ∧ rows_from m s s') ∧ mailboxSync s' = mailboxSync s ∧
    buffers (ingest s') = buffers (ingest s) ∧ jobs s' = jobs s.
Proof.
  intros Hcs Hb Ho Hid Ht. unfold after_insert, finish. unfold mbind, proc_bind.
  set (s0 := set_messages _ s). pose proof (calm_subscription (so_ownerId o) p s0) as H1.
  destruct (total_subscription parse_url clock (so_ownerId o) p s0) as [u Hu].
  destruct (ingestMailSubscriptionFromMessage _ _ _ _ s0) as [s1 o1]. simpl in H1, Hu. subst o1. clear u.
  pose proof (calm_contacts (so_ownerId o) p s1) as H2.
  destruct (total_contacts new_id (so_ownerId o) p s1) as [c Hc].
  destruct (upsertContactsFromMessage _ _ _ s1) as [s2 o2]. simpl in H2, Hc. subst o2.
  assert (calm s0 s2) as (Hq & Hbuf & Hjobs) by by trans s1.
  destruct (insert_and_upsert clock o m s s2 Hcs Hb Ho Hid Ht Hq) as (s3 & k & -> & Hm & Hth & Hin & Hj & Hsy & Hcon & Hfrom).
  destruct (touch_thread_run t (m_createdAt m) s3) as (s4 & -> & Em & Er & Et & _ & _ & Es & Ein & Ej).
  exists c, s4. split.
  { by destruct (store_attachments _ _ _ _ _ _ _ _ _ s4) as [s5 [u|]]. }
  change (jobs s0) with (jobs s) in Hjobs. change (buffers (ingest s0)) with (buffers (ingest s)) in Hbuf.
  split; [congruence|]. split; [split; [|by intros r; rewrite Er; apply Hfrom]|split; [congruence|split; [|congruence]]].
  - intros Hs. eapply (consistent_restrict (λ _, True) s3); [| | |by apply Hcon].
    + rewrite Em. symmetry. by apply filter_all.
    + rewrite Er. symmetry. by apply filter_all.
    + intros r _. by rewrite Et.
  - rewrite Ein, Hin. done.
Qed.

(** Why nothing was stored and nothing thrown: no Message-ID, or one that is there already. *)
Definition skipped (raw : jsstr) (o : StoreOptions) (s : MailDb) : Prop :=
  ∃ p, simpleParser raw = Some p ∧
    (truthy (message_id_of p) = false ∨
     ∃ mid, pm_messageId p = Some mid ∧ (so_mailboxId o, mid) ∈ map message_key (messages s)).

(** Up to the insertion: the message is refused, or it is new and is inserted into a store that has
    at most one thread more. *)
Record inserting (o : StoreOptions) (p : ParsedMail) (m : MessageRow) (s s1 : MailDb) : Prop := {
  in_messages : messages s1 = messages s; in_rows : mailboxThreads s1 = mailboxThreads s;
  in_threads : ∃ l, threads s1 = threads s ++ l ∧ length l ≤ 1;
  in_boxes : mailboxes s1 = mailboxes s; in_identities : identities s1 = identities s;
  in_sync : mailboxSync s1 = mailboxSync s;
  in_buffers : buffers (ingest s1) = buffers (ingest s); in_jobs : jobs s1 = jobs s;
  in_id : m_id m ∉ map m_id (messages s); in_key : message_key m ∉ map message_key (messages s);
  in_thread : m_threadId m ∈ map t_id (threads s1);
  in_box : m_mailboxId m = so_mailboxId o; in_owner : m_ownerId m = so_ownerId o;
  in_messageId : pm_messageId p = Some (m_messageId m); in_known : m_mailboxId m ∈ map mb_id (mailboxes s);
  in_mail : carries p m;
}.

Lemma parse_head raw o s :
  (refused s (parse raw o s).1 ∧
     (((parse raw o s).2 = Done None ∧ skipped raw o s) ∨ (parse raw o s).2 = Threw)) ∨
  ∃ p m s1, simpleParser raw = Some p ∧ inserting o p m s s1 ∧
    parse raw o s = (_ ← after_insert clock new_id parse_url uuid upload_ok attachment_ok row_json o raw p (m_threadId m) m;
                     mret (Some m)) (set_messages (λ l, l ++ [m]) s1).
Proof.
  unfold parseAndStoreEmail. unfold mbind, proc_bind.
  destruct (simpleParser raw) as [p|] eqn:Ep; cbn [or_throw].
  2:{ left. split; [|by right]. constructor; try done. exists []. simpl. rewrite app_nil_r. split; [done|lia]. }
  unfold mret, proc_ret. pose proof (calm_upload (so_rawStorageKey o) s) as Hup.
  assert (total (upload upload_ok (so_rawStorageKey o))) as Htot.
  { intros s'. unfold upload. unfold_proc. destruct (upload_ok _ _); by eexists. }
  destruct (Htot s) as [b Hb]. destruct (upload _ _ s) as [s0 o0]. simpl in Hup, Hb. subst o0.
  destruct Hup as (((Em & Er & Et) & Eb & Ei & Esy) & Ebuf & Ejobs).
  destruct (truthy (message_id_of p)) eqn:Eid; cbn [negb].
  2:{ left. split.
      - constructor; try done. exists []. rewrite app_nil_r. split; [done|simpl; lia].
      - left. split; [done|]. exists p. by split; [|left]. }
  destruct (create_thread_run clock new_id (so_ownerId o) p s0)
    as (t & s1 & -> & Fm & Fr & Fb & Fi & Fsy & Fin & Fj & Fth).
  assert (∃ l, threads s1 = threads s ++ l ∧ length l ≤ 1) as Hl.
  { destruct (existing_thread _ _ s0).
    - destruct Fth as [_ Fth]. exists []. rewrite app_nil_r. simpl. split; [congruence|lia].
    - destruct Fth as (_ & _ & Fth). exists [t]. simpl. split; [congruence|lia]. }
  assert (refused s (tick s1)) as Href by (constructor; simpl; congruence || done).
  unfold new_Date, read. destruct (message_row _ _ _ _ o p) as [m|] eqn:Erow; cbn [or_throw]; [|left; by split; [|right]].
  unfold mret, proc_ret. apply message_row_spec in Erow as (Hid & Hmt & Hmb & Hmo & Hmid & _ & Hmail).
  unfold insert_message, read. unfold mbind, proc_bind. case_bool_decide as Hbox; cbn [negb]; [|left; by split; [|right]].
  case_bool_decide as Hkey.
  { left. split; [exact Href|]. left. split; [done|]. exists p. split; [done|]. right. exists (m_messageId m).
    split; [done|]. unfold message_key in Hkey at 1. rewrite Hmb in Hkey. simpl in Hkey. by rewrite Fm, Em in Hkey. }
  right. exists p, m, (tick s1). split; [done|]. rewrite Hmt. split; [|done].
  constructor; simpl in *; try congruence || done.
  - rewrite Hid, <- Em, <- Fm. apply (Hfresh (tick s1)).
  - rewrite Hmt. destruct (existing_thread (so_ownerId o) p s0) eqn:Et'.
    + destruct Fth as [-> Fth]. rewrite Fth. apply existing_thread_in in Et'. by apply list_elem_of_fmap_2.
    + destruct Fth as (_ & _ & ->). rewrite map_app. apply elem_of_app. right. by apply list_elem_of_singleton.
Qed.

(** Whatever is in the store: at most the message is added. *)
Lemma parse_adds raw o s :
  mailboxSync (parse raw o s).1 = mailboxSync s ∧
  ((messages (parse raw o s).1 = messages s ∧
     (((parse raw o s).2 = Done None ∧ skipped raw o s) ∨ (parse raw o s).2 = Threw)) ∨
   ∃ p m, simpleParser raw = Some p ∧ carries p m ∧ m_ownerId m = so_ownerId o ∧
     m_mailboxId m = so_mailboxId o ∧ message_key m ∉ map message_key (messages s) ∧
     m_id m ∉ map m_id (messages s) ∧ messages (parse raw o s).1 = messages s ++ [m]).
Proof.
  destruct (parse_head raw o s) as [[Hr Ho]|(p & m & s1 & Hp & [Em _ _ _ _ Es _ _ Hid Hkey _ Hbox Ho _ _ Hmail] & ->)].
  { split; [apply Hr|]. left. split; [apply Hr|done]. }
  assert (steps (λ s s', messages s' = messages s ∧ mailboxSync s' = mailboxSync s)
    (after_insert clock new_id parse_url uuid upload_ok attachment_ok row_json o raw p (m_threadId m) m)) as Hst.
  { assert (PreOrder (λ s s', messages s' = messages s ∧ mailboxSync s' = mailboxSync s)) as Hpre.
    { split; [done|]. intros s2 s3 s4 [-> ->] [-> ->]. done. }
    assert (∀ A (q : proc A), steps quiet q → steps (λ s s', messages s' = messages s ∧ mailboxSync s' = mailboxSync s) q) as Hq.
    { intros A q Hq s2. destruct (Hq s2) as ((? & _) & _ & _ & ?). done. }
    unfold after_insert. apply steps_bind; [apply _|apply Hq, quiet_subscription|]. intros _.
    apply steps_bind; [apply _|apply Hq, (quiet_contacts clock)|]. intros contactId.
    apply steps_bind; [apply _|unfold upsertMailboxThreadItem, or_throw; run_steps; done|]. intros _.
    apply steps_bind; [apply _| |intros _].
    { intros s2. destruct (touch_thread_run (m_threadId m) (m_createdAt m) s2) as (s3 & -> & ? & _ & _ & _ & _ & ? & _).
      done. }
    apply steps_bind; [apply _|apply Hq, (quiet_attachments clock)|]. intros _. apply Hq, (quiet_announce clock). }
  unfold mbind, proc_bind. set (s2 := set_messages _ s1). destruct (Hst s2) as [E1 E2].
  destruct (after_insert _ _ _ _ _ _ _ _ _ _ _ _ s2) as [s3 out]. simpl in E1, E2.
  assert (mailboxSync s3 = mailboxSync s ∧ messages s3 = messages s ++ [m]) as [F1 F2] by (split; congruence).
  destruct out as [u|]; simpl; (split; [done|]); right; by exists p, m.
Qed.

Lemma parse_cases raw o s :
  can_store o s →
  (refused s (parse raw o s).1 ∧
     (((parse raw o s).2 = Done None ∧ skipped raw o s) ∨ (parse raw o s).2 = Threw)) ∨
  ∃ p m c s1, simpleParser raw = Some p ∧ accepted_as o p m s s1 ∧ parse raw o s = finish o raw p m c s1.
Proof.
  intros Hcs. destruct (parse_head raw o s) as [?|(p & m & s1 & Hp & [Em Er Et Eb Ei Es Ebuf Ej Hid Hkey Hth Hbox Ho Hmid _ _] & ->)];
    [by left|right].
  destruct (after_insert_run o raw p (m_threadId m) m s1) as (c & s2 & E & Gm & (Gc & Gf) & Gs & Gb & Gj);
    [by eapply can_store_quiet|done|done|by rewrite Em|done|].
  exists p, m, c, s2. split; [done|]. split; [|exact E].
  assert (preserving consistent s s1) as Hc1.
  { intros Hs. eapply (consistent_restrict (λ _, True) s); [| | |done].
    - rewrite Em. symmetry. by apply filter_all.
    - rewrite Er. symmetry. by apply filter_all.
    - intros r _ Hin. destruct Et as (l & -> & _). rewrite map_app. apply elem_of_app. by left. }
  constructor; try congruence; [intros Hs; by apply Gc, Hc1|].
  intros r Hr. specialize (Gf r Hr). by rewrite Er, Eb in Gf.
Qed.
End Run.
