(* ===== verification/IngestQueues.v ===== *)
(** * The buffers of incoming mail and the queues they go to

    What a queue will receive is the stream of what its jobs hold already and what is still in
    the buffer.  Flushing moves the boundary and changes no stream; a stored message enters the
    streams once. *)

From stdpp Require Import base list.
From S2P Require Import Prelude JsString JsRegex JsNumber JsValue RuleMatcher ContactTable MailDb MailRollup.
From S2P Require Import Imap ImapOps ImapInvariant Ingest IngestSpecs.

(** ** Streams *)

(** The array, or the value, in a field of the jobs of a name. *)
Definition job_values (name field : jsstr) (j : Job) : list jsval :=
  if bool_decide (job_name j = name) then
    match get_prop (VObj (job_data j)) field with VArr l => l | _ => [] end
  else [].

Definition job_value (name field : jsstr) (j : Job) : list jsval :=
  if bool_decide (job_name j = name) then [get_prop (VObj (job_data j)) field] else [].

Definition stream (f : Job → list jsval) (g : Buffers → list jsval) (s : MailDb) : list jsval :=
  flat_map f (jobs s) ++ g (buffers (ingest s)).

Definition search_stream : MailDb → list jsval :=
  stream (job_values "addBatch"%js "messageIds"%js) (λ b, map (λ j, VStr (sj_messageId j)) (searchBuffer b)).
Definition contact_stream : MailDb → list jsval :=
  stream (job_values "dav:create-contacts-batch"%js "contactIds"%js)
    (λ b, map (λ j, VStr (sj_contactId j)) (searchBuffer b)).
Definition ics_stream : MailDb → list jsval :=
  stream (job_values "dav:calendar:itip-ingest-batch"%js "items"%js) (λ b, map ics_item (icsBuffer b)).
Definition webhook_stream : MailDb → list jsval :=
  stream (job_value "webhook:message.received"%js "rawEmail"%js) (λ b, map (λ j, VStr j.2) (webhookBuffer b)).
Definition rules_stream : MailDb → list jsval :=
  stream (job_value "rules:processor"%js "messageId"%js) (λ b, map VStr (rulesBuffer b)).

(** Nothing is left in the buffers. *)
Definition drained (s : MailDb) : Prop :=
  let b := buffers (ingest s) in
  searchBuffer b = [] ∧ icsBuffer b = [] ∧ webhookBuffer b = [] ∧ rulesBuffer b = [].

(** The streams of mail, and the one of the calendars. *)
Definition same_mail (s s' : MailDb) : Prop :=
  search_stream s' = search_stream s ∧ contact_stream s' = contact_stream s ∧
  webhook_stream s' = webhook_stream s ∧ rules_stream s' = rules_stream s.
Definition same_streams (s s' : MailDb) : Prop := same_mail s s' ∧ ics_stream s' = ics_stream s.

#[export] Instance same_mail_preorder : PreOrder same_mail.
Proof. split; unfold same_mail; [done|]. intros s1 s2 s3 (?&?&?&?) (?&?&?&?). repeat split; congruence. Qed.

#[export] Instance same_streams_preorder : PreOrder same_streams.
Proof.
  split; unfold same_streams; [done|]. intros s1 s2 s3 [H1 E1] [H2 E2]. split; [by trans s2|congruence].
Qed.

(** ** Flushing *)

Lemma each_jobs {A} (f : A → Job) l s : each (λ x, add_job (f x)) l s = (set_jobs (λ js, js ++ map f l) s, Done tt).
Proof.
  revert s. induction l as [|x l IH]; intros s; cbn [each map].
  - unfold_proc. destruct s. unfold set_jobs. simpl. by rewrite app_nil_r.
  - unfold mbind, proc_bind. change (add_job (f x) s) with (set_jobs (λ js, js ++ [f x]) s, Done tt). cbv beta iota.
    rewrite IH. unfold set_jobs. simpl. by rewrite <- app_assoc.
Qed.

(** A stream reads one value, or none, of every job of a batch. *)
Lemma flat_map_batch {A B C} (F : B → list C) (f : A → B) g js l :
  (∀ x, F (f x) = [g x]) → flat_map F (js ++ map f l) = flat_map F js ++ map g l.
Proof. intros Hf. rewrite flat_map_app. f_equal. induction l as [|x l IH]; [done|]. simpl. by rewrite Hf, IH. Qed.

Lemma flat_map_no_batch {A B C} (F : B → list C) (f : A → B) js l :
  (∀ x, F (f x) = []) → flat_map F (js ++ map f l) = flat_map F js.
Proof.
  intros Hf. rewrite flat_map_app, <- app_nil_r. f_equal. induction l as [|x l IH]; [done|]. simpl. by rewrite Hf, IH.
Qed.

(** Which jobs a stream reads. *)
Lemma job_values_hit name field q data o l :
  get_prop (VObj data) field = VArr l →
  job_values name field {| queue := q; job_name := name; job_data := data; job_opts := o |} = l.
Proof. intros E. unfold job_values. simpl in *. by rewrite bool_decide_eq_true_2, E. Qed.

Lemma job_values_miss name name' field q data o :
  name' ≠ name → job_values name field {| queue := q; job_name := name'; job_data := data; job_opts := o |} = [].
Proof. intros E. unfold job_values. simpl. by rewrite bool_decide_eq_false_2. Qed.

Lemma job_value_hit name field q data o v :
  get_prop (VObj data) field = v →
  job_value name field {| queue := q; job_name := name; job_data := data; job_opts := o |} = [v].
Proof. intros E. unfold job_value. simpl in *. by rewrite bool_decide_eq_true_2, E. Qed.

Lemma job_value_miss name name' field q data o :
  name' ≠ name → job_value name field {| queue := q; job_name := name'; job_data := data; job_opts := o |} = [].
Proof. intros E. unfold job_value. simpl. by rewrite bool_decide_eq_false_2. Qed.

Ltac read_jobs :=
  repeat first [ rewrite (job_values_hit _ _ _ _ _ _ eq_refl) | rewrite (job_value_hit _ _ _ _ _ _ eq_refl)
               | rewrite job_values_miss by discriminate | rewrite job_value_miss by discriminate
               | rewrite app_nil_r | rewrite <- app_assoc | progress cbn [app] ];
  try done.

Ltac streams :=
  unfold same_streams, same_mail, search_stream, contact_stream, ics_stream, webhook_stream, rules_stream, stream;
  cbn [jobs ingest buffers set_search set_ics set_webhook set_rules set_timer set_buffers set_ingest set_jobs
       searchBuffer icsBuffer webhookBuffer rulesBuffer];
  rewrite ?flat_map_app; cbn [flat_map].

(** The same, for a batch of jobs: which field does the stream read? *)
Ltac batch_streams :=
  unfold same_streams, same_mail, search_stream, contact_stream, ics_stream, webhook_stream, rules_stream, stream;
  cbn [jobs ingest buffers set_search set_ics set_webhook set_rules set_timer set_buffers set_ingest set_jobs
       searchBuffer icsBuffer webhookBuffer rulesBuffer];
  repeat split;
  first [ rewrite flat_map_no_batch by (intros x; read_jobs); done
        | erewrite flat_map_batch by (intros x; read_jobs) ].

Section Flush.
Context (row_json : MessageRow → jsval).

Lemma flush_search_spec s :
  ∃ s', flush_search s = (s', Done tt) ∧ same_streams s s' ∧
    let b := buffers (ingest s) in let b' := buffers (ingest s') in
    searchBuffer b' = [] ∧ icsBuffer b' = icsBuffer b ∧ webhookBuffer b' = webhookBuffer b ∧ rulesBuffer b' = rulesBuffer b.
Proof.
  unfold flush_search, batch_job. unfold_proc. destruct (searchBuffer (buffers (ingest s))) as [|j l] eqn:E.
  - exists s. by repeat split.
  - eexists. split; [reflexivity|]. split; [|done]. streams. rewrite E. by repeat split; read_jobs.
Qed.

Lemma flush_ics_spec s :
  ∃ s', flush_ics s = (s', Done tt) ∧ same_streams s s' ∧
    let b := buffers (ingest s) in let b' := buffers (ingest s') in
    icsBuffer b' = [] ∧ searchBuffer b' = searchBuffer b ∧ webhookBuffer b' = webhookBuffer b ∧ rulesBuffer b' = rulesBuffer b.
Proof.
  unfold flush_ics, batch_job. unfold_proc. destruct (icsBuffer (buffers (ingest s))) as [|j l] eqn:E.
  - exists s. by repeat split.
  - eexists. split; [reflexivity|]. split; [|done]. streams. rewrite E. by repeat split; read_jobs.
Qed.

Lemma flush_webhook_spec s :
  ∃ s', flush_webhook row_json s = (s', Done tt) ∧ same_streams s s' ∧
    let b := buffers (ingest s) in let b' := buffers (ingest s') in
    webhookBuffer b' = [] ∧ searchBuffer b' = searchBuffer b ∧ icsBuffer b' = icsBuffer b ∧ rulesBuffer b' = rulesBuffer b.
Proof.
  unfold flush_webhook, batch_job, read. unfold mbind, proc_bind.
  destruct (webhookBuffer (buffers (ingest s))) as [|j l] eqn:E.
  - exists s. by repeat split.
  - rewrite each_jobs. eexists. split; [reflexivity|]. split; [|done]. batch_streams. by rewrite E, app_nil_r.
Qed.

Lemma flush_rules_spec s :
  ∃ s', flush_rules s = (s', Done tt) ∧ same_streams s s' ∧
    let b := buffers (ingest s) in let b' := buffers (ingest s') in
    rulesBuffer b' = [] ∧ searchBuffer b' = searchBuffer b ∧ icsBuffer b' = icsBuffer b ∧ webhookBuffer b' = webhookBuffer b.
Proof.
  unfold flush_rules, batch_job, read. unfold mbind, proc_bind.
  destruct (rulesBuffer (buffers (ingest s))) as [|j l] eqn:E.
  - exists s. by repeat split.
  - rewrite each_jobs. eexists. split; [reflexivity|]. split; [|done]. batch_streams. by rewrite E, app_nil_r.
Qed.

Lemma flush_spec s :
  ∃ s', flushBatches row_json s = (s', Done tt) ∧ same_streams s s' ∧ drained s'.
Proof.
  unfold flushBatches. unfold mbind, proc_bind.
  destruct (flush_search_spec s) as (s1 & -> & S1 & A1 & A2 & A3 & A4).
  destruct (flush_ics_spec s1) as (s2 & -> & S2 & B1 & B2 & B3 & B4).
  destruct (flush_webhook_spec s2) as (s3 & -> & S3 & C1 & C2 & C3 & C4).
  destruct (flush_rules_spec s3) as (s4 & -> & S4 & D1 & D2 & D3 & D4).
  exists s4. split; [done|]. split; [etrans; [exact S1|]; etrans; [exact S2|]; by etrans|].
  unfold drained. cbv zeta. repeat split; congruence.
Qed.

(** Flushing empties the buffers and loses and repeats nothing: every queue gets what was left
    for it, after what it had, in order. *)
Theorem flushBatches_exactly_once s :
  (flushBatches row_json s).2 = Done tt ∧ same_streams s (flushBatches row_json s).1 ∧
  drained (flushBatches row_json s).1.
Proof. by destruct (flush_spec s) as (s' & -> & ? & ?). Qed.
End Flush.

(** ** Storing a message *)

Section Announce.
Context (new_id uuid : MailDb → jsstr) (upload_ok : list jsstr → jsstr → bool).
Context (attachment_ok : AttachmentRow → bool) (row_json : MessageRow → jsval).

Lemma flush_or_schedule_spec full s :
  ∃ s', flush_or_schedule row_json full s = (s', Done tt) ∧ same_streams s s'.
Proof.
  destruct full; simpl.
  - destruct (flush_spec row_json s) as (s' & ? & ? & _). by exists s'.
  - unfold scheduleFlush. unfold_proc. destruct (flushTimer _); eexists; (split; [reflexivity|]); by repeat split.
Qed.

Lemma mail_attachment o i seen a :
  steps same_mail (store_attachment new_id uuid upload_ok attachment_ok row_json o i seen a).
Proof.
  assert (∀ x, steps same_mail (flush_or_schedule row_json x)) as Hf.
  { intros x s. by destruct (flush_or_schedule_spec x s) as (s' & -> & H & _). }
  unfold store_attachment, upload. run_steps; done.
Qed.

Lemma mail_attachments o i seen l :
  steps same_mail (store_attachments new_id uuid upload_ok attachment_ok row_json o i seen l).
Proof.
  revert seen. induction l as [|a l IH]; intros seen; cbn [store_attachments]; [auto with webmail|].
  pose proof (λ seen, mail_attachment o i seen a). run_steps; auto.
Qed.

(** The streams of mail with one more message. *)
Definition announced (o : StoreOptions) (raw : jsstr) (c : option jsstr) (m : MessageRow) (s s' : MailDb) : Prop :=
  let when_live v := if bool_decide (so_mode o = live) then [v] else [] in
  search_stream s' = search_stream s ++ [VStr (m_id m)] ∧
  contact_stream s' = contact_stream s ++ [VStr (default "null"%js c)] ∧
  webhook_stream s' = webhook_stream s ++ when_live (VStr raw) ∧
  rules_stream s' = rules_stream s ++ when_live (VStr (m_id m)).

Lemma announced_from o raw c m s0 s s' : same_mail s0 s → announced o raw c m s s' → announced o raw c m s0 s'.
Proof. intros (E1 & E2 & E3 & E4) (F1 & F2 & F3 & F4). repeat split; congruence. Qed.

Lemma announce_run o raw c m s :
  ∃ s', announce row_json o raw c m s = (s', Done tt) ∧ announced o raw c m s s' ∧ ics_stream s' = ics_stream s.
Proof.
  unfold announce. unfold mbind, proc_bind, modify, read. set (s1 := set_search _ s).
  destruct (flush_or_schedule_spec (SEARCH_BATCH_SIZE <=? length (searchBuffer (buffers (ingest s1)))) s1)
    as (s2 & -> & (A1 & A2 & A3 & A4) & A5).
  assert (search_stream s1 = search_stream s ++ [VStr (m_id m)] ∧
          contact_stream s1 = contact_stream s ++ [VStr (default "null"%js c)]) as [B1 B2].
  { unfold search_stream, contact_stream, stream. simpl. by rewrite !map_app, !app_assoc. }
  unfold announced. case_bool_decide.
  - set (s3 := set_rules _ _). destruct (flush_or_schedule_spec
      ((WEBHOOK_BATCH_SIZE <=? length (webhookBuffer (buffers (ingest s3))))
       || (RULES_BATCH_SIZE <=? length (rulesBuffer (buffers (ingest s3))))) s3) as (s4 & -> & (C1 & C2 & C3 & C4) & C5).
    exists s4. split; [done|]. rewrite C1, C2, C3, C4, C5.
    assert (webhook_stream s3 = webhook_stream s2 ++ [VStr raw] ∧ rules_stream s3 = rules_stream s2 ++ [VStr (m_id m)])
      as [D1 D2].
    { unfold webhook_stream, rules_stream, stream. simpl. by rewrite !map_app, !app_assoc. }
    rewrite D1, D2, A3, A4. repeat split; [by rewrite <- B1, <- A1|by rewrite <- B2, <- A2|].
    exact A5.
  - exists s2. split; [done|]. rewrite !app_nil_r. repeat split; try congruence; done.
Qed.
End Announce.
