(* ===== verification/IngestTheorems.v ===== *)
(** * Properties of [parseAndStoreEmail]

    The thread a message joins, the invariant of the stored threads, that a message is stored
    once, and that it is announced to the other queues once. *)

From stdpp Require Import base list.
From S2P Require Import Prelude JsString JsRegex JsNumber JsValue RuleMatcher ContactTable MailDb MailRollup.
From S2P Require Import Imap ImapOps ImapInvariant Ingest IngestSpecs IngestQueues.

(** ** The choice of the thread *)

#[export] Instance newest_first_comparator : Comparator newest_first.
Proof.
  split; unfold newest_first.
  - intros x y. destruct (m_date x), (m_date y); lia.
  - intros x y z. destruct (m_date x), (m_date y), (m_date z); lia.
Qed.

(** The ids a message answers to: the one of In-Reply-To alone, if it has one. *)
Definition answers_to (p : ParsedMail) : list jsstr :=
  match in_reply_to p with Some i => [i] | None => reference_list (pm_references p) end.

Definition is_parent (ownerId : jsstr) (p : ParsedMail) (s : MailDb) (m : MessageRow) : Prop :=
  m ∈ messages s ∧ m_ownerId m = ownerId ∧ m_messageId m ∈ answers_to p ∧ m_messageId m ≠ [].

Lemma in_reply_to_truthy p i : in_reply_to p = Some i → truthy i = true.
Proof.
  unfold in_reply_to, or_undefined. intros (x & _ & H)%bind_Some. by destruct (truthy (trim x)) eqn:E; simplify_eq/=.
Qed.

Lemma elem_of_candidates p i :
  i ∈ candidates p ↔ truthy i = true ∧ (in_reply_to p = Some i ∨ i ∈ reference_list (pm_references p)).
Proof.
  unfold candidates. rewrite elem_of_set_of_list, list_elem_of_filter, elem_of_app.
  enough (i ∈ option_list (in_reply_to p) ↔ in_reply_to p = Some i) by tauto.
  destruct (in_reply_to p); simpl; set_solver.
Qed.

Lemma find_hd_min {A} `{!Comparator (A := A) cmp} (q : A → bool) l x :
  sorted_by cmp l → List.find q l = Some x → ∀ y, y ∈ l → q y = true → (cmp x y ≤ 0)%Z.
Proof.
  unfold sorted_by. induction 1 as [|z l Hl IH Hz]; [done|]. simpl. destruct (q z) eqn:E.
  - intros [= ->] y [-> |Hy]%elem_of_cons _; [by rewrite (cmp_refl cmp); lia|]. by eapply Forall_forall in Hz.
  - intros Hx y [-> |Hy]%elem_of_cons Hq; [congruence|auto].
Qed.

(** The chosen message is the newest of the parents. *)
Lemma chosen_parent_spec ownerId p s :
  match chosen_parent ownerId p s with
  | Some m => is_parent ownerId p s m ∧ ∀ m', is_parent ownerId p s m' → (newest_first m m' ≤ 0)%Z
  | None => ∀ m, ¬ is_parent ownerId p s m
  end.
Proof.
  assert (∀ m, m ∈ parent_messages ownerId p s ↔
    m ∈ messages s ∧ m_ownerId m = ownerId ∧ m_messageId m ∈ candidates p) as Hin.
  { intros m. unfold parent_messages. rewrite elem_of_sort_by, list_elem_of_filter. tauto. }
  assert (∀ i : jsstr, truthy i = true ↔ i ≠ []) as Ht by (intros []; split; done).
  unfold chosen_parent, is_parent, answers_to. destruct (in_reply_to p) as [i|] eqn:Ei.
  - pose proof (in_reply_to_truthy _ _ Ei) as Hi. destruct (List.find _ _) as [m|] eqn:E.
    + pose proof E as [Hm%list_elem_of_In Hid%bool_decide_eq_true]%List.find_some.
      apply Hin in Hm as (Hm & Ho & _). split.
      { split; [done|]. split; [done|]. rewrite Hid. split; [by apply list_elem_of_singleton|by apply Ht]. }
      intros m' (Hm' & Ho' & Hi'%list_elem_of_singleton & _). refine (find_hd_min _ _ m (sort_by_sorted _ _) E m' _ _).
      { apply Hin. rewrite elem_of_candidates, Hi'. auto. }
      by apply bool_decide_eq_true.
    + intros m (Hm & Ho & Hid%list_elem_of_singleton & _).
      eapply List.find_none in E; [|apply list_elem_of_In, Hin; rewrite elem_of_candidates, Hid; auto].
      by rewrite Hid, bool_decide_eq_true_2 in E.
  - assert (∀ m, m ∈ parent_messages ownerId p s ↔ is_parent ownerId p s m) as Hpar.
    { intros m. unfold is_parent, answers_to. rewrite Hin, elem_of_candidates, Ei, Ht. intuition congruence. }
    unfold is_parent, answers_to in Hpar. rewrite Ei in Hpar.
    destruct (parent_messages ownerId p s) as [|m l] eqn:E; cbn [head].
    { intros m Hm%Hpar. by apply not_elem_of_nil in Hm. }
    split; [apply Hpar, list_elem_of_here|]. intros m' Hm'%Hpar. unfold parent_messages in E.
    refine (sort_by_hd_min newest_first m m' _ l E _). rewrite <- E, elem_of_sort_by in Hm'. exact Hm'.
Qed.

(** A message joins the thread of the newest of its owner's messages it answers to; if there is
    none it starts a thread, whatever other references it has.  The stored messages stay. *)
Theorem createOrInitializeThread_spec clock new_id ownerId p s :
  (∀ m, m ∈ messages s → m_threadId m ≠ [] ∧ m_threadId m ∈ map t_id (threads s)) →
  ∃ t s', createOrInitializeThread clock new_id ownerId p s = (s', Done t) ∧ messages s' = messages s ∧
    (( ∃ m, is_parent ownerId p s m ∧ (∀ m', is_parent ownerId p s m' → (newest_first m m' ≤ 0)%Z) ∧
         t_id t = m_threadId m ∧ t ∈ threads s ∧ threads s' = threads s )
     ∨ ( (∀ m, ¬ is_parent ownerId p s m) ∧ t_id t = new_id s ∧ t_ownerId t = ownerId ∧
         threads s' = threads s ++ [t] )).
Proof.
  intros Hth. destruct (create_thread_run clock new_id ownerId p s) as (t & s' & E & Em & _ & _ & _ & _ & _ & _ & Et).
  exists t, s'. split; [exact E|]. split; [exact Em|]. pose proof (chosen_parent_spec ownerId p s) as Hc.
  unfold existing_thread in Et. destruct (chosen_parent ownerId p s) as [m|]; cbn [mbind option_bind] in Et.
  - left. destruct Hc as [Hm Hmin]. exists m. split; [done|]. split; [done|].
    destruct (Hth m (proj1 Hm)) as [Hne Hin]. assert (truthy (m_threadId m) = true) as Htr by by destruct (m_threadId m).
    rewrite Htr in Et. cbn [negb] in Et. destruct (List.find _ _) as [t'|] eqn:Ef.
    + destruct Et as [-> Et]. apply List.find_some in Ef as [Hin'%list_elem_of_In Hid%bool_decide_eq_true]. done.
    + apply list_elem_of_fmap in Hin as (t' & Hid & Hin). eapply List.find_none in Ef; [|by apply list_elem_of_In].
      by rewrite <- Hid, bool_decide_eq_true_2 in Ef.
  - by right.
Qed.

(** ** [parseAndStoreEmail] *)

Section Parse.
Context (clock : nat → Z) (new_id : MailDb → jsstr) (simpleParser : jsstr → option ParsedMail).
Context (parse_url : jsstr → option Url) (uuid : MailDb → jsstr) (upload_ok : list jsstr → jsstr → bool).
Context (message_ok : MessageRow → bool) (attachment_ok : AttachmentRow → bool) (row_json : MessageRow → jsval).
Abbreviation parse := (parseAndStoreEmail clock new_id simpleParser parse_url uuid upload_ok message_ok
  attachment_ok row_json).
Abbreviation finish := (finish new_id uuid upload_ok attachment_ok row_json).

(** The ids of new rows are new. *)
Definition fresh_ids : Prop := ∀ s, new_id s ∉ map m_id (messages s).

Context (Hfresh : fresh_ids).

(** The attachments, the announcement: the mail tables stay, and the message is announced unless an
    attachment fails. *)
Lemma finish_spec o raw p m c s :
  quiet s (finish o raw p m c s).1 ∧
  (((finish o raw p m c s).2 = Done (Some m) ∧ announced o raw c m s (finish o raw p m c s).1) ∨
   ((finish o raw p m c s).2 = Threw ∧ same_mail s (finish o raw p m c s).1)).
Proof.
  split.
  { assert (steps quiet (finish o raw p m c)) as Hq; [|apply Hq].
    pose proof (quiet_attachments clock new_id uuid upload_ok attachment_ok row_json).
    pose proof (quiet_announce clock row_json). unfold IngestSpecs.finish. run_steps. }
  unfold IngestSpecs.finish. unfold mbind, proc_bind.
  pose proof (mail_attachments new_id uuid upload_ok attachment_ok row_json o (m_id m) [] (pm_attachments p) s) as Hm.
  destruct (store_attachments _ _ _ _ _ _ _ _ _ s) as [s1 [u|]]; [|by right].
  destruct (announce_run row_json o raw c m s1) as (s2 & -> & Ha & _). left. split; [done|].
  by eapply announced_from.
Qed.

Lemma quiet_consistent s s' : quiet s s' → preserving consistent s s'.
Proof. intros [H _]. by apply consistent_same. Qed.

Lemma refused_consistent s s' : refused s s' → preserving consistent s s'.
Proof.
  intros [Em Er (l & Et & _) _ _ _] Hs. eapply (consistent_restrict (λ _, True) s); [| | |exact Hs].
  - rewrite Em. symmetry. by apply filter_all.
  - rewrite Er. symmetry. by apply filter_all.
  - intros r _ Hr. rewrite Et, map_app. apply elem_of_app. by left.
Qed.

Lemma streams_same s s' : buffers (ingest s') = buffers (ingest s) → jobs s' = jobs s → same_streams s s'.
Proof.
  intros Eb Ej. repeat split; unfold search_stream, contact_stream, webhook_stream, rules_stream, ics_stream, stream;
    by rewrite Eb, Ej.
Qed.

(** What a call may do to the messages, and with which outcome. *)
Lemma parse_outcome raw o s :
  can_store o s →
  let s' := (parse raw o s).1 in
  (messages s' = messages s ∧ same_streams s s' ∧
     (((parse raw o s).2 = Done None ∧ skipped simpleParser raw o s) ∨ (parse raw o s).2 = Threw)) ∨
  ∃ p m c, simpleParser raw = Some p ∧ pm_messageId p = Some (m_messageId m) ∧
    m_mailboxId m = so_mailboxId o ∧ m_ownerId m = so_ownerId o ∧
    message_key m ∉ map message_key (messages s) ∧ messages s' = messages s ++ [m] ∧
    (((parse raw o s).2 = Done (Some m) ∧ announced o raw c m s s') ∨
     ((parse raw o s).2 = Threw ∧ same_mail s s')).
Proof.
  intros Hcs. destruct (parse_cases clock new_id simpleParser parse_url uuid upload_ok message_ok attachment_ok
    row_json Hfresh raw o s Hcs) as [[Hr Ho]|(p & m & c & s1 & Hp & Hac & ->)].
  - left. split; [apply Hr|]. split; [by apply streams_same; apply Hr|done].
  - right. exists p, m, c. destruct (finish_spec o raw p m c s1) as [((Em & _) & _) Hf].
    assert (same_streams s s1) as [Hst _] by by apply streams_same; apply Hac. destruct Hac as [Am An Ab Ao Ai _ _ _ _ _].
    repeat (split; [congruence || done|]).
    destruct Hf as [[-> Ha]|[-> Ha]]; [left|right]; (split; [done|]); [by eapply announced_from|by trans s1].
Qed.

(** C8: Storing a message keeps the rows of [mailbox_threads] what they should be, also when it fails
    half-way. *)
Theorem parseAndStoreEmail_consistent raw o s :
  can_store o s → consistent s → consistent (parse raw o s).1.
Proof.
  intros Hcs Hs. destruct (parse_cases clock new_id simpleParser parse_url uuid upload_ok message_ok attachment_ok
    row_json Hfresh raw o s Hcs) as [[Hr _]|(p & m & c & s1 & _ & Hac & ->)].
  - by apply (refused_consistent s).
  - eapply quiet_consistent; [apply finish_spec|]. by apply (ac_rows _ _ _ _ _ Hac).
Qed.

(** C6: A message is announced to the index, the contacts, the webhooks and the rules exactly when the
    call returns it, and then once; backfilled mail goes to the first two only.  A call that returns
    nothing, or throws, announces nothing.  This is so for a call that runs from its start to its end
    without another call, or the flush of the timer, in between, into a mailbox that there is with its
    identity and that holds only its owner's mail; announced is what is in the buffers or the jobs.
    (While a flush waits for its queues, a push can be lost and a batch be sent twice: the race is
    modelled in the file IngestRace.) *)
Theorem parseAndStoreEmail_announces raw o s :
  can_store o s →
  match parse raw o s with
  | (s', Done (Some m)) => messages s' = messages s ++ [m] ∧ ∃ c, announced o raw c m s s'
  | (s', Done None) => messages s' = messages s ∧ same_streams s s' ∧ skipped simpleParser raw o s
  | (s', Threw) => same_mail s s' ∧ (messages s' = messages s ∨ ∃ m, messages s' = messages s ++ [m])
  end.
Proof.
  intros Hcs. pose proof (parse_outcome raw o s Hcs) as H. cbv zeta in H. destruct (parse raw o s) as [s' out].
  simpl in H. destruct H as [(Em & Hst & [[-> Hsk]| ->])|(p & m & c & _ & _ & _ & _ & _ & Em & [[-> Ha]|[-> Ha]])].
  - done.
  - split; [apply Hst|by left].
  - split; [done|by exists c].
  - split; [done|right; by exists m].
Qed.

(** C29: Once the Message-ID of a mail is in a mailbox, storing it there again changes no message and no
    row, announces nothing and returns nothing. *)
Theorem parseAndStoreEmail_once raw o p mid s :
  can_store o s → simpleParser raw = Some p → pm_messageId p = Some mid →
  (so_mailboxId o, mid) ∈ map message_key (messages s) →
  refused s (parse raw o s).1 ∧ same_streams s (parse raw o s).1 ∧
  ((parse raw o s).2 = Done None ∨ (parse raw o s).2 = Threw).
Proof.
  intros Hcs Hp Hmid Hin. destruct (parse_cases clock new_id simpleParser parse_url uuid upload_ok message_ok
    attachment_ok row_json Hfresh raw o s Hcs) as [[Hr Ho]|(p' & m & c & s1 & Hp' & [_ An Ab _ Ai _ _ _ _ _] & _)].
  - split; [done|]. split; [by apply streams_same; apply Hr|]. destruct Ho as [[? _]|?]; auto.
  - destruct An. unfold message_key in *. rewrite Ab. by replace (m_messageId m) with mid by congruence.
Qed.
End Parse.

(** ** Concrete runs *)

(** An id longer than all others. *)
Definition ex_new_id (s : MailDb) : jsstr := concat (map m_id (messages s)) ++ "x"%js.

Lemma ex_fresh : fresh_ids ex_new_id.
Proof. intros s Hin%concat_longer. unfold ex_new_id in Hin. rewrite length_app in Hin. simpl in Hin. lia. Qed.

Definition ex_attachment : Attachment := {|
  a_filename := Some "a.pdf"%js; a_contentType := Some "application/pdf"%js; a_contentDisposition := None;
  a_checksum := None; a_cid := None; a_size := Some 9%Z; a_length := 9 |}.

Definition ex_parsed (mid : option jsstr) (inReplyTo : option jsstr) (refs : References) (l : list Attachment) : ParsedMail := {|
  pm_messageId := mid; pm_inReplyTo := inReplyTo; pm_references := refs; pm_subject := Some "Hi"%js;
  pm_text := Some "hello"%js; pm_html := None; pm_from := VObj [("value", VArr [VObj [("address", VStr "Ann@x.org")]])]%js;
  pm_to := VUndef; pm_cc := VUndef; pm_bcc := VUndef; pm_replyTo := VUndef; pm_date := Some 50%Z;
  pm_headers := [("message-id", VStr "n4")]%js; pm_attachments := l |}.

Definition ex_options : StoreOptions := {|
  so_ownerId := "u"%js; so_mailboxId := "b"%js; so_rawStorageKey := "eml/1"%js; so_metaData := None;
  so_seen := Some false; so_answered := None; so_flagged := None; so_mode := live |}.

Abbreviation ex_parse u p := (parseAndStoreEmail Z.of_nat ex_new_id (λ _, Some p) (λ _, None) ex_new_id u
  (λ _, true) (λ _, true) (λ _, VNull) [] ex_options).

Definition all_uploads : list jsstr → jsstr → bool := λ _ _, true.

(** The store of [MailRollup], without a row in [mailbox_threads]; with one; and a mail answering "2". *)
Definition ex_start : MailDb := (upsertMailboxThreadItem Z.of_nat "1"%js MailRollup.ex_store).1.
Definition ex_mail4 : ParsedMail := ex_parsed (Some "n4"%js) (Some "2"%js) NoReferences [ex_attachment].

Lemma ex_can_store : can_store ex_options ex_start.
Proof.
  split; [by eexists _, _|]. apply (Forall_forall (λ m, m_mailboxId m = _ → m_ownerId m = _)). by repeat constructor.
Qed.

Lemma ex_start_consistent : consistent ex_start.
Proof.
  constructor.
  - apply (bool_decide_unpack _). vm_compute. exact I.
  - apply (bool_decide_unpack _). vm_compute. exact I.
  - intros k. unfold thread_key, msg_key. simpl. set_solver.
  - apply (bool_decide_unpack _). vm_compute. exact I.
  - apply (bool_decide_unpack _). vm_compute. exact I.
Qed.

(** The mail joins the thread of the message it answers, and is announced. *)
Lemma ex_stored :
  let r := ex_parse all_uploads ex_mail4 ex_start in
  map m_threadId (messages r.1) = ["t"; "t"; "t"; "t"]%js ∧ length (threads r.1) = 1 ∧
  map (λ w, (mt_messageCount w, mt_unreadCount w)) (mailboxThreads r.1) = [(4, 3)]%Z ∧
  length (search_stream r.1) = 1 ∧ length (rules_stream r.1) = 1.
Proof. by vm_compute. Qed.

Lemma createOrInitializeThread_spec_witness :
  (∀ m, m ∈ messages ex_start → m_threadId m ≠ [] ∧ m_threadId m ∈ map t_id (threads ex_start)) ∧
  ∃ t s', createOrInitializeThread Z.of_nat ex_new_id "u"%js ex_mail4 ex_start = (s', Done t) ∧
    messages s' = messages ex_start.
Proof.
  assert (∀ m, m ∈ messages ex_start → m_threadId m ≠ [] ∧ m_threadId m ∈ map t_id (threads ex_start)) as Hth.
  { apply (Forall_forall (λ m, m_threadId m ≠ [] ∧ m_threadId m ∈ map t_id (threads ex_start))).
    apply (bool_decide_unpack _). vm_compute. exact I. }
  split; [exact Hth|]. destruct (createOrInitializeThread_spec Z.of_nat ex_new_id "u"%js ex_mail4 ex_start Hth)
    as (t & s' & H1 & H2 & _). by exists t, s'.
Defined.

Lemma parseAndStoreEmail_consistent_witness : consistent (ex_parse all_uploads ex_mail4 ex_start).1.
Proof.
  exact (parseAndStoreEmail_consistent Z.of_nat ex_new_id (λ _, Some ex_mail4) (λ _, None) ex_new_id all_uploads
    (λ _, true) (λ _, true) (λ _, VNull) ex_fresh [] ex_options ex_start ex_can_store ex_start_consistent).
Defined.

Lemma parseAndStoreEmail_announces_witness :
  ∃ m c, (ex_parse all_uploads ex_mail4 ex_start).2 = Done (Some m) ∧
    announced ex_options [] c m ex_start (ex_parse all_uploads ex_mail4 ex_start).1.
Proof.
  pose proof (parseAndStoreEmail_announces Z.of_nat ex_new_id (λ _, Some ex_mail4) (λ _, None) ex_new_id all_uploads
    (λ _, true) (λ _, true) (λ _, VNull) ex_fresh [] ex_options ex_start ex_can_store) as H.
  assert (∃ m, (ex_parse all_uploads ex_mail4 ex_start).2 = Done (Some m)) as [m Hm].
  { eexists. vm_compute. reflexivity. }
  destruct (parseAndStoreEmail _ _ _ _ _ _ _ _ _ _ _ _) as [s' out]. simpl in *. subst out. destruct H as [_ [c Hc]]. by exists m, c.
Defined.

Lemma parseAndStoreEmail_once_witness :
  let s := (ex_parse all_uploads ex_mail4 ex_start).1 in
  ("b", "n4")%js ∈ map message_key (messages s) ∧ messages (ex_parse all_uploads ex_mail4 s).1 = messages s.
Proof.
  set (s := (ex_parse all_uploads ex_mail4 ex_start).1). cbv zeta.
  assert (("b", "n4")%js ∈ map message_key (messages s)) as Hin by (apply (bool_decide_unpack _); vm_compute; exact I).
  split; [exact Hin|].
  assert (can_store ex_options s) as Hcs.
  { split; [by eexists _, _|]. apply (Forall_forall (λ m, m_mailboxId m = _ → m_ownerId m = _)). by repeat constructor. }
  destruct (parseAndStoreEmail_once Z.of_nat ex_new_id (λ _, Some ex_mail4) (λ _, None) ex_new_id all_uploads
    (λ _, true) (λ _, true) (λ _, VNull) ex_fresh [] ex_options ex_mail4 "n4"%js s Hcs eq_refl eq_refl Hin) as [Hr _].
  exact (rf_messages _ _ Hr).
Defined.

(** ** What goes wrong *)

(** A mail whose In-Reply-To is not stored starts a thread, though one of its references is. *)
Lemma references_forgotten :
  length (threads (ex_parse all_uploads (ex_parsed (Some "n4"%js) (Some "unknown"%js) (ManyReferences ["2"; "unknown"]%js) [])
                     ex_start).1) = 2.
Proof. by vm_compute. Qed.

(** Storing a mail that is there leaves a thread without messages. *)
Lemma duplicate_leaves_a_thread :
  let r := ex_parse all_uploads (ex_parsed (Some "2"%js) None NoReferences []) ex_start in
  r.2 = Done None ∧ map t_id (threads r.1) = ["t"; "123x"]%js ∧ map m_threadId (messages r.1) = ["t"; "t"; "t"]%js.
Proof. by vm_compute. Qed.

(** The Message-ID found in the headers is not stored: the schema refuses the row. *)
Lemma header_id_throws : (ex_parse all_uploads (ex_parsed None None NoReferences []) ex_start).2 = Threw.
Proof. by vm_compute. Qed.

(** If an attachment is not stored the message is, but no other queue ever hears of it: the next
    attempt takes it for a duplicate. *)
Lemma message_never_announced :
  let fails := λ (_ : list jsstr) path, negb (startsWith path "private/"%js) in
  let r := ex_parse fails ex_mail4 ex_start in
  let r' := ex_parse all_uploads ex_mail4 r.1 in
  r.2 = Threw ∧ length (messages r.1) = 4 ∧ r'.2 = Done None ∧ length (messages r'.1) = 4 ∧
  search_stream r'.1 = [] ∧ rules_stream r'.1 = [].
Proof. by vm_compute. Qed.
