(* ===== verification/IngestRace.v ===== *)
(** * Flushing a buffer while mail comes in ([apps/worker/lib/message-payload-parser.ts])

    [flushBatches] awaits the queue between reading a buffer and emptying it, and nothing keeps
    other calls of [parseAndStoreEmail], or other flushes, from running meanwhile.  The steps
    between two awaits are the steps of a relation here, for the buffer of the search queue. *)

From stdpp Require Import base list relations.
From S2P Require Import Prelude JsString.

(** The buffer, what the jobs added hold, the flushes that await the queue, and the messages
    that were pushed while none did. *)
Record FlushState := { buffer : list jsstr; sent : list jsstr; awaiting : nat; quiet_pushes : list jsstr }.

Definition flush_start : FlushState := {| buffer := []; sent := []; awaiting := 0; quiet_pushes := [] |}.

(** [searchBuffer.push(...)] *)
Definition push (i : jsstr) (s : FlushState) : FlushState := {|
  buffer := buffer s ++ [i]; sent := sent s; awaiting := awaiting s;
  quiet_pushes := if awaiting s =? 0 then quiet_pushes s ++ [i] else quiet_pushes s |}.

(** [if (searchBuffer.length) { messageIds = ...; await searchIngestQueue.add("addBatch", { messageIds }) }] *)
Definition begin_flush (s : FlushState) : option FlushState :=
  match buffer s with
  | [] => None
  | l => Some {| buffer := l; sent := sent s ++ l; awaiting := S (awaiting s); quiet_pushes := quiet_pushes s |}
  end.

(** [searchBuffer = []] *)
Definition end_flush (s : FlushState) : option FlushState :=
  match awaiting s with
  | O => None
  | S n => Some {| buffer := []; sent := sent s; awaiting := n; quiet_pushes := quiet_pushes s |}
  end.

Inductive flush_step : FlushState → FlushState → Prop :=
| step_push i s : flush_step s (push i s)
| step_begin s s' : begin_flush s = Some s' → flush_step s s'
| step_end s s' : end_flush s = Some s' → flush_step s s'.

Definition reachable (s : FlushState) : Prop := rtc flush_step flush_start s.

(** What is not lost is in a job or still in the buffer; while a flush awaits it is in a job. *)
Definition safe (s : FlushState) : Prop :=
  ∀ i, i ∈ quiet_pushes s → i ∈ sent s ∨ awaiting s = 0 ∧ i ∈ buffer s.

Lemma safe_step s s' : safe s → flush_step s s' → safe s'.
Proof.
  intros Hs Hst. destruct Hst as [i s|s s' E|s s' E]; intros j.
  - unfold safe, push in *. simpl. destruct (Nat.eqb_spec (awaiting s) 0) as [Ea|Ea].
    + rewrite Ea, !elem_of_app, list_elem_of_singleton. intros [Hj| ->]; [|tauto].
      destruct (Hs j Hj) as [?|[_ ?]]; tauto.
    + intros Hj. destruct (Hs j Hj) as [?|[? _]]; [by left|done].
  - unfold begin_flush in E. destruct (buffer s) as [|k l] eqn:Eb; [done|]. injection E as <-. simpl.
    rewrite elem_of_app. intros Hj. left. destruct (Hs j Hj) as [?|[_ Hb]]; [by left|right]. by rewrite Eb in Hb.
  - unfold end_flush in E. destruct (awaiting s) as [|n] eqn:Ea; [done|]. injection E as <-. simpl. intros Hj. left.
    destruct (Hs j Hj) as [?|[Ha _]]; [done|congruence].
Qed.

(** C30: Whatever the interleaving, a message pushed while no flush awaits the queue is not lost: it is
    in a job, or still in the buffer with no flush under way that would empty it. *)
Theorem flush_keeps_quiet_pushes s :
  reachable s → ∀ i, i ∈ quiet_pushes s → i ∈ sent s ∨ awaiting s = 0 ∧ i ∈ buffer s.
Proof.
  intros Hr. enough (safe s) by done. unfold reachable in Hr. remember flush_start as s0 eqn:E0.
  assert (safe s0) as Hs0 by (subst; intros i Hi; by apply not_elem_of_nil in Hi). clear E0.
  induction Hr as [s|s s1 s2 Hst _ IH]; [done|]. apply IH. by eapply safe_step.
Qed.

(** Runs, for the examples. *)
Inductive move := Push (i : jsstr) | Begin | End_.

Definition play (m : move) (s : FlushState) : option FlushState :=
  match m with Push i => Some (push i s) | Begin => begin_flush s | End_ => end_flush s end.

Definition play_all (l : list move) (s : FlushState) : option FlushState := foldl (λ o m, o ≫= play m) (Some s) l.

Lemma play_reachable l s s' : reachable s → play_all l s = Some s' → reachable s'.
Proof.
  unfold play_all. revert s. induction l as [|m l IH]; intros s Hr; simpl; [by intros [= <-]|].
  destruct (play m s) as [s1|] eqn:E.
  - apply IH. eapply rtc_r; [exact Hr|]. destruct m; simpl in E; [injection E as <-; constructor|by constructor..].
  - intros Hn. exfalso. revert Hn. clear. induction l as [|m l IH]; simpl; [done|exact IH].
Qed.

Lemma flush_keeps_quiet_pushes_witness :
  ∃ s, reachable s ∧ quiet_pushes s = ["a"; "c"]%js ∧ sent s = ["a"]%js ∧ ("c"%js ∈ sent s ∨ awaiting s = 0 ∧ "c"%js ∈ buffer s).
Proof.
  destruct (play_all [Push "a"; Begin; Push "b"; End_; Push "c"]%js flush_start) as [s|] eqn:E; [|vm_compute in E; discriminate].
  assert (Hr : reachable s) by (eapply play_reachable; [apply rtc_refl|exact E]).
  pose proof (flush_keeps_quiet_pushes s Hr "c"%js) as H. vm_compute in E. injection E as <-.
  eexists. split; [exact Hr|]. split; [reflexivity|]. split; [reflexivity|]. apply H.
  apply list_elem_of_further, list_elem_of_here.
Defined.

(** A message pushed during the await is in no job and no longer in the buffer. *)
Lemma push_during_flush_is_lost :
  ∃ s, reachable s ∧ awaiting s = 0 ∧ buffer s = [] ∧ sent s = ["a"]%js ∧
    play_all [Push "a"; Begin; Push "b"; End_]%js flush_start = Some s.
Proof.
  destruct (play_all [Push "a"; Begin; Push "b"; End_]%js flush_start) as [s|] eqn:E; [|vm_compute in E; discriminate].
  exists s. split; [eapply play_reachable; [apply rtc_refl|exact E]|]. vm_compute in E. injection E as <-. done.
Qed.

(** Two flushes at the same time, by size and by the timer, send everything twice. *)
Lemma overlapping_flushes_send_twice :
  sent <$> play_all [Push "a"; Begin; Begin; End_; End_]%js flush_start = Some ["a"; "a"]%js.
Proof. by vm_compute. Qed.
