(* ===== verification/ImapSpecs.v ===== *)
(** * What each IMAP job does

    The effect of [mailSetFlags], [moveMail] and [deleteMail] on the tables and on a server that
    fulfils every command. *)

From stdpp Require Import base list.
From Stdlib Require Import Floats.SpecFloat.
From S2P Require Import Prelude JsString JsNumber JsValue RuleMatcher MailDb Imap ImapOps ImapInvariant.

Section Specs.
Context `{ImapServer} (credentials_of : IdentityRow → option jsval) (clock : nat → Z).

(** ** [mailSetFlags] *)

(** The job never throws.  It changes the database exactly when the mailbox exists, its server
    can be reached, the thread has messages and the operation is known: then the flag is set on
    every message of the thread in the mailbox and the row of the thread is computed again.  If
    the server cannot be reached the change is lost. *)
Theorem mailSetFlags_spec t b op s :
  let r := mailSetFlags credentials_of clock t b op s in
  r.2 = Done tt ∧
  match find_mailbox b s with
  | Some mb =>
      match (ready_client credentials_of (mb_identityId mb) s).2, group (t, b) (messages s), opToAction op with
      | Done (Some _), _ :: _, Some _ =>
          ∃ now now2,
            messages r.1 = update_where (msg_in t b) (flag_update op now) (messages s) ∧
            mailboxThreads r.1 = update_where (row_in t b)
              (set_aggregates (unread_in t b (messages r.1)) (default false (any_flagged t b (messages r.1))) now2)
              (mailboxThreads s) ∧
            threads r.1 = threads s
      | _, _, _ => same_tables s r.1
      end
  | None => same_tables s r.1
  end.
Proof.
  cbv zeta. split.
  { unfold mailSetFlags, read, mbind, proc_bind. destruct (find_mailbox b s) as [mb|]; [|done].
    pose proof (ready_client_total credentials_of (mb_identityId mb) s) as [o Ho].
    destruct (ready_client _ _ s) as [s1 o1]. simpl in Ho. subst o1. destruct o as [c|]; [|done].
    destruct (sort_by _ _) as [|m ms]; [done|]. destruct (opToAction op) as [a|]; [|done].
    set (groups := by_path _). destruct (total_each _ groups (send_flags_total c a) s1) as [u Hu].
    destruct (each _ groups s1) as [s2 o2]. simpl in Hu. by subst o2. }
  destruct (find_mailbox b s) as [mb|] eqn:Hmb; [|by apply mailSetFlags_skips; rewrite Hmb].
  destruct (ready_client credentials_of (mb_identityId mb) s).2 as [[c|]|] eqn:Hc,
    (group (t, b) (messages s)) as [|m ms] eqn:Hg, (opToAction op) as [a|] eqn:Ha;
    try (apply mailSetFlags_skips; rewrite Hmb; intros ? [= <-]; rewrite Hc, Hg, Ha; naive_solver).
  destruct (mailSetFlags_run credentials_of clock t b op s mb c) as (s1 & (H1 & H2 & H3) & ->); try done.
  { by rewrite Hg. }
  unfold set_thread_flags, transaction, refresh_aggregates. unfold_proc. simpl. rewrite <- H1, <- H2, <- H3.
  by eexists _, _.
Qed.
(** *** The commands *)

(** The events of one session. *)
Definition session (c : nat) (path : jsstr) (cmd : ImapCommand) : list ImapEvent :=
  map (λ x, {| client := c; command := x; fulfilled := true |}) [Lock path; cmd; Release path].

Definition obliging : Prop := ∀ l c cmd, accepts l c cmd = true.

Lemma session_traffic c path cmd s :
  obliging → imap (with_lock c path (send c cmd) s).1 = imap s ++ session c path cmd ∧
  (with_lock c path (send c cmd) s).2 = Done tt.
Proof.
  intros Ho. unfold with_lock, send, finally, release, modify, mbind, proc_bind. rewrite !Ho. simpl.
  rewrite ?Ho. simpl. by rewrite <- !app_assoc.
Qed.

(** A loop whose passes each add some events. *)
Lemma each_traffic {A} (f : A → proc unit) (ev : A → list ImapEvent) l s :
  (∀ x s, x ∈ l → imap (f x s).1 = imap s ++ ev x ∧ (f x s).2 = Done tt) →
  imap (each f l s).1 = imap s ++ flat_map ev l ∧ (each f l s).2 = Done tt.
Proof.
  revert s. induction l as [|x l IH]; intros s Hf; [simpl; by rewrite app_nil_r|]. cbn [each flat_map].
  unfold mbind, proc_bind. destruct (Hf x s) as [E1 E2]; [set_solver|].
  destruct (f x s) as [s1 o]. simpl in *. subst o.
  destruct (IH s1) as [-> ->]; [intros; apply Hf; set_solver|]. by rewrite E1, app_assoc.
Qed.

(** The uids of the thread's messages in a mailbox of the server, in increasing order. *)
Definition uids_at (path : jsstr) (rows : list MessageRow) : list num :=
  sort_by num_cmp (map e_uid (filter (λ e, e_path e = path) (omap uid_entry rows))).

Lemma by_path_get path rows l :
  (path, l) ∈ by_path rows → l = filter (λ e, e_path e = path) (omap uid_entry rows) ∧ l ≠ [].
Proof.
  intros Hin. assert (NoDup (by_path rows).*1) as Hnd.
  { unfold by_path. rewrite group_by_keys. apply set_of_list_NoDup. }
  apply (jm_elem_of_get _ _ _ Hnd) in Hin. unfold by_path in Hin. rewrite group_by_get in Hin.
  unfold items_of in Hin. by case_decide; simplify_eq.
Qed.

Lemma set_thread_flags_imap t b op s : imap (set_thread_flags clock t b op s).1 = imap s.
Proof. done. Qed.

(** On a server that fulfils every command, each of its mailboxes that holds messages of the
    thread gets one command, under its lock, for exactly their uids in increasing order. *)
Theorem mailSetFlags_commands t b op s mb c a :
  obliging → find_mailbox b s = Some mb →
  (ready_client credentials_of (mb_identityId mb) s).2 = Done (Some c) →
  group (t, b) (messages s) ≠ [] → opToAction op = Some a →
  let rows := sort_by (λ x y, message_time y - message_time x)%Z (group (t, b) (messages s)) in
  imap (mailSetFlags credentials_of clock t b op s).1 =
  imap (ready_client credentials_of (mb_identityId mb) s).1 ++
  flat_map (λ path, session c path
      (if a.1 then FlagsAdd (uids_at path rows) a.2 else FlagsRemove (uids_at path rows) a.2))
    (set_of_list (map e_path (omap uid_entry rows))).
Proof.
  intros Ho Hmb Hc Hg Ha rows. unfold mailSetFlags, read, mbind, proc_bind. rewrite Hmb.
  pose proof (same_ready_client credentials_of (mb_identityId mb) s) as (Hm & _ & _).
  destruct (ready_client _ _ s) as [s1 o]. simpl in *. subst o. rewrite Ha, Hm.
  change (sort_by _ (filter _ (messages s))) with rows.
  destruct rows as [|m ms] eqn:E; [by apply sort_by_nil in E|]. rewrite <- E. clear E m ms.
  destruct (each_traffic (send_flags c a)
    (λ g, session c g.1 (let uids := sort_by num_cmp (map e_uid g.2) in
       if a.1 then FlagsAdd uids a.2 else FlagsRemove uids a.2)) (by_path rows) s1) as [E1 E2].
  { intros [path l] s2 Hin. apply by_path_get in Hin as [_ Hl]. unfold send_flags. simpl.
    destruct (sort_by num_cmp (map e_uid l)) eqn:E; [apply sort_by_nil in E; by destruct l|].
    unfold catch. rewrite <- E.
    destruct (session_traffic c path (if a.1 then FlagsAdd (sort_by num_cmp (map e_uid l)) a.2
      else FlagsRemove (sort_by num_cmp (map e_uid l)) a.2) s2 Ho) as [E1 E2].
    destruct (with_lock _ _ _ s2) as [s3 o]. simpl in *. by subst o. }
  destruct (each _ (by_path rows) s1) as [s2 o]. simpl in *. subst o.
  rewrite set_thread_flags_imap, E1. f_equal.
  rewrite <- (group_by_keys e_path (omap uid_entry rows)). fold (by_path rows).
  assert (∀ g, g ∈ by_path rows → map e_uid g.2 = map e_uid (filter (λ e, e_path e = g.1) (omap uid_entry rows))) as Hg2.
  { intros [path l] Hin. by apply by_path_get in Hin as [-> _]. }
  clear -Hg2. unfold uids_at. induction (by_path rows) as [|g gs IH]; [done|]. cbn [flat_map fmap list_fmap].
  rewrite Hg2 by set_solver. f_equal. apply IH. set_solver.
Qed.
(** ** [moveMail] *)

(** The uids of the thread's messages in a mailbox of the server, in the order of the rows. *)
Definition moved_uids (path : jsstr) (rows : list MessageRow) : list num :=
  map e_uid (filter (λ e, e_path e = path) (omap uid_entry rows)).

(** What the server is told when the messages [rows] go to the folder [dest]: for each of its
    mailboxes that holds some of them one command, under its lock, for exactly their uids. *)
Definition move_traffic (c : nat) (dest : option jsstr) (rows : list MessageRow) : list ImapEvent :=
  flat_map (λ path, session c path (Move (moved_uids path rows) dest))
    (set_of_list (map e_path (omap uid_entry rows))).

Lemma move_on_server_traffic i dest rows s c :
  obliging → omap uid_entry rows ≠ [] → (ready_client credentials_of i s).2 = Done (Some c) →
  imap (move_on_server credentials_of i dest rows s).1 =
    imap (ready_client credentials_of i s).1 ++ move_traffic c dest rows.
Proof.
  intros Ho Hne Hc. unfold move_on_server, move_traffic.
  rewrite <- (group_by_keys e_path (omap uid_entry rows)). fold (by_path rows).
  assert (by_path rows ≠ []) as Hb.
  { intros E. pose proof (group_by_keys e_path (omap uid_entry rows)) as Hk. fold (by_path rows) in Hk. rewrite E in Hk.
    destruct (omap uid_entry rows) as [|x l]; [done|].
    assert (e_path x ∈ []) as Hin; [|by apply not_elem_of_nil in Hin].
    change (@nil jsstr) with (@nil (jsstr * list UidEntry)).*1. rewrite Hk. apply elem_of_set_of_list. set_solver. }
  destruct (by_path rows) as [|g gs] eqn:E; [done|]. rewrite <- E in *. clear E g gs Hb.
  unfold mbind, proc_bind. destruct (ready_client _ _ s) as [s1 o]. simpl in Hc |- *. subst o.
  destruct (each_traffic (move_group c dest) (λ g, session c g.1 (Move (map e_uid g.2) dest)) (by_path rows) s1)
    as [E1 E2].
  { intros [path l] s2 Hin. apply by_path_get in Hin as [_ Hl]. unfold move_group. simpl.
    destruct (map e_uid l) eqn:E; [by destruct l|]. rewrite <- E. by apply session_traffic. }
  unfold catch. destruct (each _ (by_path rows) s1) as [s2 o]. simpl in *. subst o. simpl. rewrite E1. f_equal.
  assert (∀ g, g ∈ by_path rows → moved_uids g.1 rows = map e_uid g.2) as Hg2.
  { intros [path l] Hin. by apply by_path_get in Hin as [-> _]. }
  clear -Hg2. induction (by_path rows) as [|g gs IH]; [done|]. cbn [flat_map fmap list_fmap].
  rewrite Hg2 by set_solver. f_equal. apply IH. set_solver.
Qed.

Lemma moveMail_run job s src d :
  find_mailbox (mv_mailboxId job) s = Some src → move_destination job src s = Some d →
  group (mv_threadId job, mv_mailboxId job) (messages s) ≠ [] →
  let rows := group (mv_threadId job, mv_mailboxId job) (messages s) in
  let s1 := if mv_moveImap job
            then (move_on_server credentials_of (mb_identityId src) (destination_path d) rows s).1 else s in
  same_tables s s1 ∧ moveMail credentials_of clock job s = move_in_db clock job d s1.
Proof.
  intros Hsrc Hd Hg. cbv zeta. unfold moveMail, read, mbind, proc_bind. rewrite Hsrc, Hd.
  change (filter _ (messages s)) with (group (mv_threadId job, mv_mailboxId job) (messages s)).
  destruct (group _ (messages s)) as [|m ms]; [done|]. destruct (mv_moveImap job); [|by split].
  set (p := move_on_server _ _ _ _).
  assert (steps same_tables p) as Hs by (unfold p, move_on_server, move_group; run_steps).
  assert (total p) as Ht.
  { intros s0. unfold p, move_on_server. destruct (by_path _) as [|g gs]; [by exists tt|].
    unfold mbind, proc_bind. destruct (ready_client_total credentials_of (mb_identityId src) s0) as [o Ho].
    destruct (ready_client _ _ s0) as [s1 o1]. simpl in Ho. subst o1. destruct o as [c|]; [|by exists tt].
    apply total_catch. intros s2. by exists tt. }
  specialize (Hs s). destruct (Ht s) as [u Hu]. destruct (p s) as [s1 o]. simpl in *. by subst o.
Qed.

Lemma move_in_db_imap job d s : imap (move_in_db clock job d s).1 = imap s.
Proof.
  unfold move_in_db, transaction, or_throw, unique. unfold_proc. destruct (mapM _ _); [|done].
  destruct (bool_decide _); [|done]. by case_bool_decide.
Qed.

(** What a transaction that ends has done. *)
Lemma move_in_db_done job d s s' :
  move_in_db clock job d s = (s', Done tt) →
  ∃ now now2,
    Forall2 (λ r r', (if msg_in (mv_threadId job) (mv_mailboxId job) r
        then move_row (mb_id d) (if mv_moveImap job then Some (destination_path d) else None) now r
        else Some r) = Some r') (messages s) (messages s') ∧
    mailboxThreads s' = update_where (row_in (mv_threadId job) (mv_mailboxId job))
      (move_thread_row (mb_id d) (if bool_decide (mv_op job = "move"%js) then default "custom"%js (mb_slug d)
         else mv_op job) now2) (mailboxThreads s) ∧
    NoDup (map thread_key (mailboxThreads s')).
Proof.
  unfold move_in_db, transaction, or_throw, unique. unfold_proc. cbn [ticks tick messages].
  destruct (mapM _ _) as [rows|] eqn:Erows; [|done]. destruct (bool_decide (NoDup (map message_key rows))); [|done].
  case_bool_decide as Hnd; [|done]. intros [= <-]. eexists _, _. split; [by apply mapM_Some in Erows|].
  split; [reflexivity|]. exact Hnd.
Qed.

Lemma transaction_threw {A} (p : proc A) s s' : transaction p s = (s', Threw) → same_tables s s'.
Proof. unfold transaction. destruct (p s) as [s1 [a|]]; [done|]. by intros [= <-]. Qed.

Lemma move_in_db_threw job d s s' : move_in_db clock job d s = (s', Threw) → same_tables s s'.
Proof. apply transaction_threw. Qed.

(** The groups after the messages of one have moved to another that was empty. *)
Lemma groups_moved k t d now path rows rows' :
  k.1 = t → k.2 ≠ d → group (t, d) rows = [] →
  Forall2 (λ r r', (if msg_in k.1 k.2 r then move_row d path now r else Some r) = Some r') rows rows' →
  group k rows' = [] ∧ map m_id (group (t, d) rows') = map m_id (group k rows) ∧
  ∀ k', k' ≠ k → k' ≠ (t, d) → group k' rows' = group k' rows.
Proof.
  intros Ht Hd Hg Hm. assert (∀ r, r ∈ rows → msg_key r ≠ (t, d)) as Hno.
  { intros r Hr Hk. assert (r ∈ group (t, d) rows) as Hin by by apply group_spec. rewrite Hg in Hin. set_solver. }
  clear Hg. induction Hm as [|r r' l l' E _ IH]; [done|].
  destruct IH as (IH1 & IH2 & IH3); [set_solver|]. specialize (Hno r (list_elem_of_here _ _)).
  unfold group in *. destruct (msg_in k.1 k.2 r) eqn:Ek.
  - unfold move_row in E. apply fmap_Some in E as (meta & _ & ->). pose proof Ek as Hk%msg_in_key.
    assert (msg_key (with_location d meta now r) = (t, d)) as Hk' by (rewrite <- Ht, <- Hk; done).
    setoid_rewrite filter_cons. repeat split.
    + rewrite decide_False; [done|]. rewrite msg_in_key, Hk'. intros <-. by apply Hd.
    + rewrite decide_True by by rewrite msg_in_key. rewrite (decide_True _ _ Ek). simpl. by f_equal.
    + intros k' H1 H2. rewrite !decide_False; [by apply IH3|..]; rewrite msg_in_key; congruence.
  - injection E as <-. assert (msg_key r ≠ k) as Hk by (intros Hk%msg_in_key; congruence).
    setoid_rewrite filter_cons. repeat split.
    + by rewrite decide_False by by rewrite msg_in_key.
    + rewrite (decide_False (P := msg_in (t, d).1 (t, d).2 r = true)) by by rewrite msg_in_key.
      by rewrite decide_False by congruence.
    + intros k' H1 H2. by rewrite IH3.
Qed.
(** A row of the destination for the same thread makes the key of the moved row a duplicate. *)
Lemma move_conflict (f : MailboxThreadRow → MailboxThreadRow) k k' rows :
  k ≠ k' → k ∈ map thread_key rows → k' ∈ map thread_key rows →
  (∀ r, thread_key r = k → thread_key (f r) = k') →
  ¬ NoDup (map thread_key (update_where (row_in k.1 k.2) f rows)).
Proof.
  intros Hne (r1 & E1 & Hr1)%list_elem_of_fmap (r2 & E2 & Hr2)%list_elem_of_fmap Hf Hnd.
  unfold update_where in Hnd. rewrite map_map in Hnd.
  apply Hne. rewrite E1, E2. f_equal.
  apply (NoDup_map_inj _ _ r1 r2 Hnd Hr1 Hr2). simpl.
  rewrite (proj2 (row_in_key k r1)) by done. rewrite Hf by done.
  destruct (row_in k.1 k.2 r2) eqn:E; [|done]. apply row_in_key in E. by rewrite Hf.
Qed.

(** C33: Moving a thread that has messages in a mailbox to another mailbox, where the rows of threads
    are true to the messages.  If the job ends, every
    message of the thread has gone from the first mailbox to the second and no other group of
    messages has changed; if it throws, the tables are as before.  It throws whenever the thread
    already has messages in the second mailbox.  The server is told in either case: if it can be
    reached, fulfils every command and has some of the messages, each of its mailboxes that holds
    any gets one move of exactly their uids to the path of the destination, under its lock; a job
    that does not ask for it tells the server nothing. *)
Theorem moveMail_spec job s src d :
  consistent s → find_mailbox (mv_mailboxId job) s = Some src → move_destination job src s = Some d →
  mb_id d ≠ mv_mailboxId job →
  let k := (mv_threadId job, mv_mailboxId job) in
  let k' := (mv_threadId job, mb_id d) in
  group k (messages s) ≠ [] →
  let r := moveMail credentials_of clock job s in
  (r.2 = Done tt →
    group k (messages r.1) = [] ∧ map m_id (group k' (messages r.1)) = map m_id (group k (messages s)) ∧
    (∀ k0, k0 ≠ k → k0 ≠ k' → group k0 (messages r.1) = group k0 (messages s))) ∧
  (r.2 = Threw → same_tables s r.1) ∧
  (group k' (messages s) ≠ [] → r.2 = Threw) ∧
  (mv_moveImap job = false → imap r.1 = imap s) ∧
  (∀ c, mv_moveImap job = true → obliging → (ready_client credentials_of (mb_identityId src) s).2 = Done (Some c) →
    omap uid_entry (group k (messages s)) ≠ [] →
    imap r.1 = imap (ready_client credentials_of (mb_identityId src) s).1 ++
               move_traffic c (destination_path d) (group k (messages s))).
Proof.
  intros Hs Hsrc Hd Hne k k' Hg. cbv zeta.
  destruct (moveMail_run job s src d Hsrc Hd Hg) as (Hsame & ->). set (s1 := if mv_moveImap job then _ else s) in *.
  assert (∀ g, group g (messages s) ≠ [] → g ∈ map thread_key (mailboxThreads s)) as Hrow.
  { intros g Hgg. apply (rows_mirror s Hs). destruct (group g (messages s)) as [|m ms] eqn:E; [done|].
    assert (m ∈ group g (messages s)) as [Hm <-]%group_spec by (rewrite E; set_solver).
    by apply list_elem_of_fmap_2. }
  assert (k ≠ k') as Hkk by (intros [=]; congruence). pose proof Hsame as (E1 & E2 & _).
  pose proof (move_in_db_imap job d s1) as Himap.
  destruct (move_in_db clock job d s1) as [s' o] eqn:E. simpl in Himap |- *. rewrite Himap.
  split; [|split; [|split; [|split]]].
  - intros ->. apply move_in_db_done in E as (now & now2 & Hm & Hr & Hnd). rewrite E1 in Hm. rewrite E2 in Hr.
    eapply (groups_moved k (mv_threadId job) (mb_id d)); try done.
    destruct (group k' (messages s)) as [|m ms] eqn:Eg; [done|]. exfalso. revert Hnd. rewrite Hr.
    apply (move_conflict _ k k'); [done|by apply Hrow|apply Hrow; by rewrite Eg|].
    intros r [= Et _]. unfold thread_key. simpl. by rewrite Et.
  - intros ->. trans s1; [done|]. by apply move_in_db_threw in E.
  - intros Hg'. destruct o as [[]|]; [exfalso|done].
    apply move_in_db_done in E as (now & now2 & _ & Hr & Hnd). revert Hnd. rewrite Hr, E2.
    apply (move_conflict _ k k'); [done|by apply Hrow..|].
    intros r [= Et _]. unfold thread_key. simpl. by rewrite Et.
  - unfold s1. by intros ->.
  - unfold s1. intros c -> Ho Hc Hu. by apply move_on_server_traffic.
Qed.

(** A moved message keeps the uid it had in the old mailbox, next to the path of the new one. *)
Lemma moved_uid_is_stale p meta meta' :
  set_mailboxPath (Some p) meta = Some meta' → imap_uid meta' = imap_uid meta.
Proof.
  unfold set_mailboxPath, imap_uid, imap_of. destruct meta as [fs|]; simpl; [|by intros [= <-]].
  destruct (jm_get "imap"%js fs) as [[]|] eqn:E; intros [= <-]; simpl; rewrite ?E; try done.
  rewrite jm_get_set_eq. simpl. by rewrite jm_get_set_ne by done.
Qed.
(** ** [deleteMail] *)

(** The groups a job is about. *)
Definition deleted (job : DeleteJob) (k : jsstr * jsstr) : Prop :=
  k.2 = dl_mailboxId job ∧ (dl_emptyAll job = true ∨ k.1 ∈ filter (λ t, truthy t = true) (dl_threadId job)).

#[export] Instance deleted_dec job k : Decision (deleted job k).
Proof. unfold deleted. apply _. Defined.

(** What the transaction leaves. *)
Definition after_delete (K : jsstr * jsstr → Prop) `{!∀ k, Decision (K k)} (s s' : MailDb) : Prop :=
  messages s' = filter (λ m, ¬ K (msg_key m)) (messages s) ∧
  mailboxThreads s' = filter (λ r, ¬ K (thread_key r)) (mailboxThreads s) ∧
  ∀ m, m ∈ messages s → K (msg_key m) → m_threadId m ∉ map m_threadId (messages s') → m_threadId m ∉ map t_id (threads s').

Lemma delete_groups_done (P : MessageRow → Prop) `{!∀ r, Decision (P r)}
    (K : jsstr * jsstr → Prop) `{!∀ k, Decision (K k)} b ids s :
  consistent s →
  (∀ m, m ∈ messages s → P m ↔ K (msg_key m)) →
  (∀ m, m ∈ messages s → K (msg_key m) ↔ m_mailboxId m = b ∧ m_threadId m ∈ ids) →
  let r := (_ ← delete_messages (map m_id (filter P (messages s))); _ ← delete_thread_rows b ids;
            delete_orphans ids) s in
  r.2 = Done tt ∧ after_delete K s r.1.
Proof.
  intros Hs HP HK. unfold delete_messages, delete_thread_rows, delete_orphans. unfold_proc. simpl.
  split; [done|]. unfold after_delete. cbn [messages mailboxThreads threads set_threadLabels set_mailboxThreads
    set_threads set_messages set_attachments set_ingest]. rewrite delete_selected by apply Hs.
  assert (filter (λ r, ¬ P r) (messages s) = filter (λ m, ¬ K (msg_key m)) (messages s)) as Em.
  { apply filter_ext_in. intros m Hm. by rewrite HP. }
  assert (∀ r, r ∈ mailboxThreads s → K (thread_key r) ↔ mt_mailboxId r = b ∧ mt_threadId r ∈ ids) as Hrow.
  { intros r Hr. assert (thread_key r ∈ map msg_key (messages s)) as (m & Hk & Hm)%list_elem_of_fmap.
    { apply (rows_mirror s Hs). by apply list_elem_of_fmap_2. }
    rewrite Hk, HK by done. by injection Hk as -> ->. }
  split; [done|]. rewrite Em. split.
  - rewrite list_filter_filter. apply filter_ext_in. intros r Hr. rewrite (Hrow r Hr). split; [tauto|].
    intros Hn. split; [|done]. unfold orphans. rewrite list_elem_of_filter. intros [[Hin Hno] _]. apply Hno.
    assert (thread_key r ∈ map msg_key (messages s)) as (m & Hk & Hm)%list_elem_of_fmap.
    { apply (rows_mirror s Hs). by apply list_elem_of_fmap_2. }
    simpl. rewrite delete_selected, Em by apply Hs. rewrite <- (Hrow r Hr), Hk in Hn.
    injection Hk as -> _. apply list_elem_of_fmap_2. by apply list_elem_of_filter.
  - intros m Hm HKm Hno (t & Et & [Hout _]%list_elem_of_filter)%list_elem_of_fmap. apply Hout. unfold orphans. simpl.
    rewrite <- Et.
    rewrite delete_selected, Em by apply Hs. apply list_elem_of_filter. split; [split; [|done]|].
    + by apply HK in HKm as [_ ?].
    + pose proof (threads_exist s Hs) as Ht. rewrite Forall_forall in Ht. auto.
Qed.

Lemma after_delete_none (K : jsstr * jsstr → Prop) `{!∀ k, Decision (K k)} s s' :
  consistent s → same_tables s s' → (∀ m, m ∈ messages s → ¬ K (msg_key m)) → after_delete K s s'.
Proof.
  intros Hs (E1 & E2 & _) Hno. unfold after_delete. rewrite E1, E2. split; [symmetry; by apply filter_all|].
  split; [|by intros m Hm Hk; destruct (Hno m Hm)]. symmetry. apply filter_all. intros r Hr.
  assert (thread_key r ∈ map msg_key (messages s)) as (m & -> & Hm)%list_elem_of_fmap; [|by apply Hno].
  apply (rows_mirror s Hs). by apply list_elem_of_fmap_2.
Qed.

Lemma after_delete_same (K : jsstr * jsstr → Prop) `{!∀ k, Decision (K k)} s s1 s' :
  same_tables s s1 → after_delete K s1 s' → after_delete K s s'.
Proof. intros (E1 & E2 & E3). unfold after_delete. by rewrite E1, E2. Qed.

Lemma transaction_done {A} (p : proc A) s a : (p s).2 = Done a → transaction p s = p s.
Proof. unfold transaction. destruct (p s) as [s' o]. simpl. by intros ->. Qed.

Lemma empty_in_db_done job s :
  consistent s → dl_emptyAll job = true →
  (empty_in_db (dl_mailboxId job) s).2 = Done tt ∧
  after_delete (deleted job) s (empty_in_db (dl_mailboxId job) s).1.
Proof.
  intros Hs He. set (b := dl_mailboxId job). set (rows := filter (λ m, m_mailboxId m = b) (messages s)).
  change (empty_in_db b s) with (transaction (_ ← delete_messages (map m_id rows);
    match set_of_list (map m_threadId rows) with
    | [] => mret tt
    | _ => _ ← delete_thread_rows b (set_of_list (map m_threadId rows));
           delete_orphans (set_of_list (map m_threadId rows))
    end) s).
  assert (∀ m, deleted job (msg_key m) ↔ m_mailboxId m = b) as Hd.
  { intros m. unfold deleted. simpl. naive_solver. }
  assert (∀ m, m ∈ messages s → m_mailboxId m = b → m ∈ rows) as Hrows by (intros; by apply list_elem_of_filter).
  destruct (set_of_list (map m_threadId rows)) as [|t ids] eqn:E.
  - split; [done|]. apply after_delete_none; [done| |].
    + split; [|done]. simpl. apply filter_all. intros m Hm. destruct rows as [|r rows']; [set_solver|].
      assert (m_threadId r ∈ set_of_list (map m_threadId (r :: rows'))) as Hin.
      { apply elem_of_set_of_list. set_solver. }
      rewrite E in Hin. set_solver.
    + intros m Hm Hk%Hd. assert (m_threadId m ∈ set_of_list (map m_threadId rows)) as Hin.
      { apply elem_of_set_of_list, list_elem_of_fmap_2. auto. }
      rewrite E in Hin. set_solver.
  - rewrite <- E. subst rows.
    destruct (delete_groups_done (λ m, m_mailboxId m = b) (deleted job) b
      (set_of_list (map m_threadId (filter (λ m, m_mailboxId m = b) (messages s)))) s Hs) as [E1 E2].
    + intros m _. by rewrite Hd.
    + intros m Hm. rewrite Hd, elem_of_set_of_list. split; [|tauto]. intros Hb. split; [done|].
      apply list_elem_of_fmap_2. auto.
    + by rewrite (transaction_done _ _ tt).
Qed.

Lemma delete_with_done job box o s :
  consistent s →
  (delete_with job box o s).2 = Done tt ∧ after_delete (deleted job) s (delete_with job box o s).1.
Proof.
  intros Hs. unfold delete_with. destruct (dl_emptyAll job) eqn:He.
  - set (p := match o with Some c => empty_on_server c (mailbox_path box) | None => mret tt end).
    assert (steps same_tables p) as Hp by (pose proof same_empty_on_server; subst p; run_steps).
    assert (total p) as Ht.
    { subst p. destruct o as [c|]; [apply total_catch|]; intros s0; by exists tt. }
    specialize (Hp s). destruct (Ht s) as [u Hu]. unfold mbind, proc_bind. destruct (p s) as [s1 o1].
    simpl in *. subst o1. destruct (empty_in_db_done job s1) as [E1 E2]; [by eapply consistent_same|done|].
    split; [done|]. by eapply after_delete_same.
  - destruct (filter (λ t, truthy t = true) (dl_threadId job)) as [|t ids'] eqn:E.
    { split; [done|]. apply after_delete_none; [done..|]. intros m _ [_ [?|Hin]]; [congruence|].
      rewrite E in Hin. set_solver. }
    set (ids := t :: ids') in *. unfold read. unfold mbind at 1 5, proc_bind at 1 5.
    set (rows := filter _ (messages s)). set (p := match o with Some _ => _ | None => _ end).
    assert (steps same_tables p) as Hp by (subst p; unfold deleteUids; run_steps).
    assert (total p) as Ht.
    { subst p. destruct o as [c|]; [apply total_catch|]; intros s0; by exists tt. }
    specialize (Hp s). destruct (Ht s) as [u Hu]. unfold mbind at 1 4, proc_bind at 1 4.
    destruct (p s) as [s1 o1]. simpl in Hp, Hu. subst o1. pose proof Hp as (Hm & _). subst rows. rewrite <- Hm.
    destruct (delete_groups_done (λ r, m_mailboxId r = dl_mailboxId job ∧ m_threadId r ∈ ids) (deleted job)
      (dl_mailboxId job) ids s1) as [E1 E2].
    + by eapply consistent_same.
    + intros m _. unfold deleted. rewrite E, He. simpl. intuition discriminate.
    + intros m _. unfold deleted. rewrite E, He. simpl. intuition discriminate.
    + rewrite (transaction_done _ _ tt E1). split; [done|]. by eapply after_delete_same.
Qed.

(** Deleting threads from a mailbox, or emptying it.  The job never throws.  If the server has to
    be asked and cannot be reached nothing changes; otherwise exactly the messages of the job's
    groups and their rows are gone, and so are the threads left without a message, whatever the
    server answered. *)
Theorem deleteMail_spec job s mb :
  consistent s → find_mailbox (dl_mailboxId job) s = Some mb →
  let r := deleteMail credentials_of job s in
  let reached := ∃ c, (ready_client credentials_of (mb_identityId mb) s).2 = Done (Some c) in
  r.2 = Done tt ∧
  (dl_imapDelete job = true → ¬ reached → same_tables s r.1) ∧
  (dl_mailboxId job ≠ [] → (dl_imapDelete job = true → reached) → after_delete (deleted job) s r.1).
Proof.
  intros Hs Hmb r reached. subst r. unfold deleteMail.
  destruct (truthy (dl_mailboxId job)) eqn:Hb; cbn [negb].
  2: { apply truthy_false in Hb. by rewrite Hb. }
  unfold read, mbind, proc_bind. rewrite Hmb.
  destruct (dl_imapDelete job) eqn:Hi; cbn [andb].
  - pose proof (same_ready_client credentials_of (mb_identityId mb) s) as Hsame.
    destruct (ready_client_total credentials_of (mb_identityId mb) s) as [o Ho]. unfold reached.
    destruct (ready_client _ _ s) as [s1 o1]. simpl in Hsame, Ho |- *. subst o1. destruct o as [c|]; simpl.
    + destruct (delete_with_done job mb (Some c) s1) as [E1 E2]; [by eapply consistent_same|].
      split; [done|]. split; [intros _ Hno; destruct Hno; by exists c|]. intros _ _. by eapply after_delete_same.
    + split; [done|]. split; [done|]. intros _ Hr. by destruct (Hr eq_refl) as [c Hc].
  - destruct (delete_with_done job mb None s) as [E1 E2]; [done|]. simpl. split; [done|]. split; [done|]. done.
Qed.
End Specs.

(** ** Concrete runs *)

(** A server that fulfils every command, and one that refuses all of them. *)
Definition kind_server : ImapServer := {|
  authenticated := λ _ _, true; usable := λ _ _, true; accepts := λ _ _ _, true; search_all := λ _ _, [];
  uidNext := λ _ _ _, None; uidValidity := λ _ _ _, 1%Z; fetched := λ _ _ _ _, ([], true);
  list_boxes := λ _ _, []; rejection := λ _ _ _, [] |}.
Definition dead_server : ImapServer := {|
  authenticated := λ _ _, false; usable := λ _ _, false; accepts := λ _ _ _, false; search_all := λ _ _, [];
  uidNext := λ _ _ _, None; uidValidity := λ _ _ _, 1%Z; fetched := λ _ _ _ _, ([], false);
  list_boxes := λ _ _, []; rejection := λ _ _ _, [] |}.

Definition ex_meta (uid : Z) : option (list (jsstr * jsval)) :=
  Some [("imap"%js, VObj [("uid"%js, VNum (num_of_Z uid)); ("mailboxPath"%js, VStr "INBOX"%js)])].

Definition ex_mail (i t : jsstr) (uid : Z) (seen flagged : bool) : MessageRow := {|
  m_id := i; m_ownerId := "u1"%js; m_mailboxId := "b1"%js; m_threadId := t; m_messageId := i; m_inReplyTo := None;
  m_references := None; m_replyTo := VNull; m_subject := None; m_snippet := None; m_text := None; m_html := None; m_from := VNull; m_to := VNull; m_cc := VNull;
  m_bcc := VNull; m_date := Some uid; m_sizeBytes := None; m_seen := seen; m_answered := false;
  m_flagged := flagged; m_hasAttachments := false; m_headersJson := None; m_metaData := ex_meta uid;
  m_rawStorageKey := None; m_createdAt := 0%Z; m_updatedAt := 0%Z |}.

Definition ex_box (i kind path : jsstr) : MailboxRow := {|
  mb_id := i; mb_identityId := "i1"%js; mb_ownerId := "u1"%js; mb_parentId := None; mb_kind := kind;
  mb_name := Some path; mb_slug := Some kind; mb_isDefault := true;
  mb_metaData := Some [("imap"%js, VObj [("path"%js, VStr path)])] |}.

Definition ex_row (t : jsstr) (n : Z) (starred : bool) : MailboxThreadRow := {|
  mt_threadId := t; mt_mailboxId := "b1"%js; mt_ownerId := "u1"%js; mt_identityId := "i1"%js;
  mt_identityPublicId := "p1"%js; mt_mailboxSlug := Some "inbox"%js; mt_subject := None; mt_previewText := None;
  mt_lastActivityAt := 0%Z; mt_firstMessageAt := None; mt_messageCount := 1%Z; mt_unreadCount := n;
  mt_hasAttachments := false; mt_starred := starred; mt_participants := None;
  mt_snoozedUntil := None; mt_unsnoozedAt := None; mt_updatedAt := 0%Z |}.

Definition ex_thread (i : jsstr) : ThreadRow := {| t_id := i; t_ownerId := "u1"%js; t_lastMessageDate := None |}.

(** Two threads in the inbox, and a client connected. *)
Definition ex_store : MailDb := {|
  messages := [ex_mail "m1" "t1" 3 true false; ex_mail "m2" "t1" 7 false false; ex_mail "m3" "t2" 5 false true]%js;
  mailboxes := [ex_box "b1" "inbox" "INBOX"; ex_box "b2" "trash" "Trash"]%js; threads := [ex_thread "t1"%js; ex_thread "t2"%js];
  identities := [ {| id_id := "i1"%js; id_ownerId := "u1"%js; id_publicId := "p1"%js; id_kind := "email"%js;
                   smtpAccountId := Some "a1"%js; id_metaData := None |} ];
  labels := []; mailRules := []; mailRuleActions := [];
  mailboxThreads := [ex_row "t1"%js 1 false; ex_row "t2"%js 1 true]; mailboxThreadLabels := [];
  mailboxSync := []; jobs := []; imap := []; imapInstances := [("i1"%js, 0)]; timers := []; ticks := 0; ingest := no_ingest |}.

Definition no_credentials : IdentityRow → option jsval := λ _, None.

Lemma ex_store_consistent : consistent ex_store.
Proof.
  constructor.
  - apply (bool_decide_unpack _). vm_compute. exact I.
  - apply (bool_decide_unpack _). vm_compute. exact I.
  - intros k. unfold ex_store. cbn [map messages mailboxThreads]. rewrite !elem_of_cons.
    unfold thread_key, msg_key. simpl. tauto.
  - apply (bool_decide_unpack _). vm_compute. exact I.
  - apply (bool_decide_unpack _). vm_compute. exact I.
Qed.

(** The two uids of the thread, in order, in one session. *)
Lemma mailSetFlags_commands_witness :
  imap (@mailSetFlags kind_server no_credentials Z.of_nat "t1"%js "b1"%js "read"%js ex_store).1 =
  session 0 "INBOX"%js (FlagsAdd [num_of_Z 3; num_of_Z 7] "\Seen"%js).
Proof.
  rewrite (@mailSetFlags_commands kind_server no_credentials Z.of_nat "t1"%js "b1"%js "read"%js ex_store
    (ex_box "b1" "inbox" "INBOX")%js 0 (true, "\Seen"%js)); [vm_compute; reflexivity|done|done|done| |done].
  intros Hg. vm_compute in Hg. discriminate.
Defined.

Definition ex_move : MoveJob := {|
  mv_threadId := "t1"%js; mv_mailboxId := "b1"%js; mv_op := "trash"%js; mv_toMailboxId := None;
  mv_moveImap := true |}.

Lemma kind_server_obliging : @obliging kind_server.
Proof. done. Qed.

Lemma moveMail_spec_witness :
  let s' := (@moveMail kind_server no_credentials Z.of_nat ex_move ex_store).1 in
  group ("t1", "b1")%js (messages s') = [] ∧ map m_id (group ("t1", "b2")%js (messages s')) = ["m1"; "m2"]%js ∧
  imap s' = session 0 "INBOX"%js (Move [num_of_Z 3; num_of_Z 7] (Some "Trash"%js)).
Proof.
  destruct (@moveMail_spec kind_server no_credentials Z.of_nat ex_move ex_store
    (ex_box "b1" "inbox" "INBOX")%js (ex_box "b2" "trash" "Trash")%js ex_store_consistent) as (H & _ & _ & _ & Ht).
  - done.
  - done.
  - done.
  - intros Hg. vm_compute in Hg. discriminate.
  - destruct H as (H1 & H2 & _); [vm_compute; reflexivity|]. split; [exact H1|]. split; [exact H2|].
    cbv zeta. rewrite (Ht 0 eq_refl kind_server_obliging); [vm_compute; reflexivity|reflexivity|].
    intros Hu. vm_compute in Hu. discriminate.
Defined.

(** After the move the first message has the path of the trash and its uid in the inbox. *)
Lemma ex_stale_uid :
  map (λ m, (imap_path (m_metaData m), imap_uid (m_metaData m)))
    (group ("t1", "b2")%js (messages (@moveMail kind_server no_credentials Z.of_nat ex_move ex_store).1)) =
  [(Some "Trash"%js, num_of_Z 3); (Some "Trash"%js, num_of_Z 7)].
Proof. vm_compute. reflexivity. Qed.

Definition ex_delete : DeleteJob := {|
  dl_mailboxId := "b1"%js; dl_threadId := ["t1"%js]; dl_emptyAll := false; dl_imapDelete := true |}.

Lemma deleteMail_spec_witness :
  let s' := (@deleteMail kind_server no_credentials ex_delete ex_store).1 in
  map m_id (messages s') = ["m3"%js] ∧ after_delete (deleted ex_delete) ex_store s'.
Proof.
  destruct (@deleteMail_spec kind_server no_credentials ex_delete ex_store (ex_box "b1" "inbox" "INBOX")%js
    ex_store_consistent eq_refl) as (_ & _ & H).
  split; [vm_compute; reflexivity|]. apply H; [done|]. intros _. by exists 0.
Defined.
