(* ===== verification/ImapSync.v ===== *)
(** * Incremental synchronisation of a mailbox ([apps/worker/lib/imap/imap-sync-mailbox.ts])

    [syncMailbox] asks the server for the uids above the last one seen, window by window, hands
    every message to the function it is given and records the largest uid after each window.
    That function is a parameter, as in the code. *)

From stdpp Require Import base list.
From S2P Require Import Prelude JsString JsNumber JsValue RuleMatcher MailDb Imap ImapOps ImapInvariant ImapSpecs.

Definition set_lastSeen (uid now : Z) (r : MailboxSyncRow) : MailboxSyncRow :=
  {| sy_id := sy_id r; sy_identityId := sy_identityId r; sy_mailboxId := sy_mailboxId r; lastSeenUid := uid;
     backfillCursorUid := backfillCursorUid r; phase := phase r; syncedAt := syncedAt r; sy_updatedAt := now |}.

Definition set_idle (synced now : Z) (r : MailboxSyncRow) : MailboxSyncRow :=
  {| sy_id := sy_id r; sy_identityId := sy_identityId r; sy_mailboxId := sy_mailboxId r;
     lastSeenUid := lastSeenUid r; backfillCursorUid := backfillCursorUid r; phase := "IDLE"%js;
     syncedAt := Some synced; sy_updatedAt := now |}.

Section Sync.
Context `{ImapServer} (clock : nat → Z).
(** [onMessage(msg, path, identityId, mailboxId)] *)
Context (onMessage : FetchMessage → proc unit).

(** [client.fetch]: the messages, and an error after them if the stream breaks. *)
Definition fetch (c : nat) (first last : Z) : proc (list FetchMessage * bool) := λ s,
  let r := fetched (imap s) c first last in
  (set_imap (λ l, l ++ [ {| client := c; command := Fetch first last; fulfilled := r.2 |} ]) s, Done r).

(** The [for await] loop, from the largest uid so far. *)
Fixpoint hand_over (msgs : list FetchMessage) (maxUid : Z) : proc Z :=
  match msgs with
  | [] => mret maxUid
  | msg :: rest =>
      _ ← onMessage msg;
      hand_over rest (if negb (f_uid msg =? 0)%Z && (maxUid <? f_uid msg)%Z then f_uid msg else maxUid)
  end.

Definition record_uid (syncId : jsstr) (uid : Z) : proc unit :=
  now ← new_Date clock;
  modify (set_mailboxSync (update_where (λ r, bool_decide (sy_id r = syncId)) (set_lastSeen uid now))).

(** One window. *)
Definition sync_window (c : nat) (syncId : jsstr) (start last lastSeen : Z) : proc Z :=
  '(msgs, ended) ← fetch c start last;
  maxUid ← hand_over msgs lastSeen;
  _ ← (match ended with true => mret tt | false => throw end);
  if (lastSeen <? maxUid)%Z then
    _ ← record_uid syncId maxUid;
    mret maxUid
  else mret lastSeen.

(** The [while] loop; [None] when the fuel runs out. *)
Fixpoint sync_loop (fuel : nat) (c : nat) (syncId : jsstr) (window currentTop start lastSeen : Z) :
    proc (option Z) :=
  if (start <=? currentTop)%Z then
    match fuel with
    | O => mret None
    | S fuel =>
        let last := Z.min currentTop (start + window - 1) in
        lastSeen ← sync_window c syncId start last lastSeen;
        sync_loop fuel c syncId window currentTop (last + 1)%Z lastSeen
    end
  else mret (Some lastSeen).

Definition find_sync (identityId mailboxId : jsstr) (s : MailDb) : option MailboxSyncRow :=
  List.find (λ r, bool_decide (sy_identityId r = identityId) && bool_decide (sy_mailboxId r = mailboxId))
    (mailboxSync s).

(** The body of the lock; [Some tt] when it ends, [None] when the fuel runs out. *)
Definition sync_body (c : nat) (identityId mailboxId path : jsstr) (window : Z) : proc (option unit) :=
  s ← read;
  match find_sync identityId mailboxId s with
  | None => throw
  | Some sync =>
      let lastSeen := lastSeenUid sync in
      _ ← send c (OpenBox path);
      s ← read;
      let currentTop := Z.max 0 (default 1 (uidNext (imap s) c path) - 1)%Z in
      if (currentTop <=? lastSeen)%Z then mret (Some tt)
      else
        o ← sync_loop (Z.to_nat (currentTop - lastSeen)) c (sy_id sync) window currentTop (lastSeen + 1)%Z lastSeen;
        match o with
        | None => mret None
        | Some _ =>
            synced ← new_Date clock;
            now ← new_Date clock;
            _ ← modify (set_mailboxSync (update_where (λ r, bool_decide (sy_id r = sy_id sync)) (set_idle synced now)));
            mret (Some tt)
        end
  end.

Definition syncMailbox (c : nat) (identityId mailboxId path : jsstr) (window : Z) : proc (option unit) :=
  with_lock c path (sync_body c identityId mailboxId path window).
End Sync.


(** What was taken over stays so, as long as an invariant holds, which stays as well. *)
Definition still_stored (stored : MailDb → FetchMessage → Prop) (I : MailDb → Prop) (s s' : MailDb) : Prop :=
  I s → I s' ∧ ∀ m, stored s m → stored s' m.

#[export] Instance still_stored_preorder stored I : PreOrder (still_stored stored I).
Proof. unfold still_stored. split; [intros s|intros s1 s2 s3]; naive_solver. Qed.

(** ** The loop makes progress *)

(** The mailbox a client has open. *)
Definition open_event (c : nat) (o : option jsstr) (e : ImapEvent) : option jsstr :=
  match command e with
  | OpenBox path => if bool_decide (client e = c) && fulfilled e then Some path else o
  | _ => o
  end.

Definition opened (c : nat) : list ImapEvent → option jsstr := foldl (open_event c) None.

Lemma opened_app c l e : opened c (l ++ [e]) = open_event c (opened c l) e.
Proof. unfold opened. by rewrite foldl_app. Qed.

Section Progress.
Context `{ImapServer} (clock : nat → Z) (onMessage : FetchMessage → proc unit) (c : nat).
(** The messages of the mailbox, which do not change during the run. *)
Context (path : jsstr) (box : list FetchMessage).
(** What it means that a message has been taken over, and an invariant of the store; they do not depend on
    the IMAP traffic, on the rows of [mailbox_sync] or on the clock. *)
Context (stored : MailDb → FetchMessage → Prop) (I : MailDb → Prop).
Abbreviation still_stored := (still_stored stored I).

Definition faithful_fetch : Prop := ∀ log a b msgs,
  opened c log = Some path → fetched log c a b = (msgs, true) → ∀ m, m ∈ msgs ↔ m ∈ box ∧ (a ≤ f_uid m ≤ b)%Z.

Record takes_over : Prop := {
  over_done : ∀ m s s', I s → onMessage m s = (s', Done tt) → stored s' m;
  over_keeps : ∀ m, steps still_stored (onMessage m);
  over_sync : ∀ m s, mailboxSync (onMessage m s).1 = mailboxSync s;
  over_log : ∀ m s, imap (onMessage m s).1 = imap s;
  over_imap : ∀ f s, still_stored s (set_imap f s);
  over_rows : ∀ f s, still_stored s (set_mailboxSync f s);
  over_tick : ∀ s, still_stored s (tick s);
}.

Context (Hfetch : faithful_fetch) (Hover : takes_over).
Context (identityId mailboxId syncId : jsstr).

(** The row of the mailbox and its last uid; the mailbox is open. *)
Definition row_at (s : MailDb) (uid : Z) : Prop :=
  ∃ row, find_sync identityId mailboxId s = Some row ∧ sy_id row = syncId ∧ lastSeenUid row = uid.
Definition at_uid (s : MailDb) (uid : Z) : Prop := row_at s uid ∧ opened c (imap s) = Some path.

Lemma hand_over_spec msgs mx s s' o :
  I s → hand_over onMessage msgs mx s = (s', o) →
  mailboxSync s' = mailboxSync s ∧ imap s' = imap s ∧ still_stored s s' ∧
  match o with
  | Done mx' => Forall (stored s') msgs ∧ (mx ≤ mx')%Z ∧ (mx' = mx ∨ ∃ m, m ∈ msgs ∧ mx' = f_uid m)
  | Threw => True
  end.
Proof.
  revert mx s. induction msgs as [|m msgs IH]; intros mx s Hi; cbn [hand_over].
  - intros [= <- <-]. repeat split; [done..|constructor|lia|by left].
  - unfold mbind, proc_bind. pose proof (over_keeps Hover m s) as Hk. pose proof (over_sync Hover m s) as Hm.
    pose proof (over_log Hover m s) as Hl.
    destruct (onMessage m s) as [s1 [[]|]] eqn:E; simpl in *.
    + intros E1. pose proof (proj1 (Hk Hi)) as Hi1. apply IH in E1 as (H1 & H0 & H2 & H3); [|done]. rewrite H1, Hm, H0, Hl.
      split; [done|]. split; [done|]. split; [by trans s1|].
      destruct o as [mx'|]; [|done]. destruct H3 as (Ha & Hb & Hc).
      assert (stored s' m) as Hst by exact (proj2 (H2 Hi1) m (over_done Hover m s s1 Hi E)).
      split; [by constructor|]. destruct (_ && _) eqn:Et; bool_to_prop.
      * split; [lia|]. right. destruct Hc as [-> |(m' & ? & ->)]; [exists m|exists m']; set_solver.
      * split; [done|]. destruct Hc as [-> |(m' & ? & ->)]; [by left|right; exists m'; set_solver].
    + by intros [= <- <-].
Qed.

Lemma at_uid_same s s' uid :
  mailboxSync s' = mailboxSync s → opened c (imap s') = opened c (imap s) → at_uid s uid → at_uid s' uid.
Proof. unfold at_uid, row_at, find_sync. by intros -> ->. Qed.

Lemma find_update (f : MailboxSyncRow → MailboxSyncRow) s row :
  (∀ r, sy_identityId (f r) = sy_identityId r ∧ sy_mailboxId (f r) = sy_mailboxId r) →
  find_sync identityId mailboxId s = Some row → sy_id row = syncId →
  find_sync identityId mailboxId (set_mailboxSync (update_where (λ r, bool_decide (sy_id r = syncId)) f) s) = Some (f row).
Proof.
  intros Hf. unfold find_sync, update_where. simpl. induction (mailboxSync s) as [|r rows IH]; [done|]. simpl.
  set (p := bool_decide (sy_identityId r = identityId) && bool_decide (sy_mailboxId r = mailboxId)).
  assert (∀ r', sy_identityId r' = sy_identityId r ∧ sy_mailboxId r' = sy_mailboxId r →
    bool_decide (sy_identityId r' = identityId) && bool_decide (sy_mailboxId r' = mailboxId) = p) as Hp.
  { by intros r' [-> ->]. }
  rewrite Hp by (case_bool_decide; [apply Hf|done]). destruct p; [|done].
  intros [= <-] Hid. by rewrite bool_decide_true.
Qed.

Lemma record_uid_spec uid uid0 s :
  at_uid s uid0 →
  (record_uid clock syncId uid s).2 = Done tt ∧ at_uid (record_uid clock syncId uid s).1 uid ∧
  still_stored s (record_uid clock syncId uid s).1.
Proof.
  intros [(row & Hrow & Hid & _) Hop]. unfold record_uid. unfold_proc. simpl. split; [done|]. split.
  - split; [|done]. eexists. split; [by apply find_update|]. done.
  - trans (tick s); [apply (over_tick Hover)|apply (over_rows Hover)].
Qed.

(** Every message of the mailbox between two uids has been taken over. *)
Definition all_stored (s : MailDb) (after upto : Z) : Prop :=
  ∀ m, m ∈ box → (after < f_uid m ≤ upto)%Z → stored s m.

Lemma sync_window_spec start last uid s s' o :
  I s → (uid < start)%Z → at_uid s uid → sync_window clock onMessage c syncId start last uid s = (s', o) →
  still_stored s s' ∧
  match o with
  | Done uid' => at_uid s' uid' ∧ (uid ≤ uid')%Z ∧ (uid' = uid ∨ uid' ≤ last)%Z ∧ all_stored s' (start - 1) last
  | Threw => at_uid s' uid
  end.
Proof.
  intros Hi Hlt Hat. unfold sync_window, fetch, mbind, proc_bind.
  destruct (fetched (imap s) c start last) as [msgs ended] eqn:Ef. cbn -[record_uid]. set (s0 := set_imap _ s).
  assert (still_stored s s0) as H0 by apply (over_imap Hover).
  destruct (hand_over onMessage msgs uid s0) as [s1 o1] eqn:E1.
  apply hand_over_spec in E1 as (Hr & Hlog & Hst & H1); [|by apply H0].
  assert (opened c (imap s1) = opened c (imap s)) as Hopen by (rewrite Hlog; simpl; by rewrite opened_app).
  assert (at_uid s1 uid) as Hat1 by by apply (at_uid_same s).
  assert (still_stored s s1) as Hst1 by by trans s0.
  destruct o1 as [mx|]; [|by intros [= <- <-]]. destruct H1 as (Hall & Hle & Hmx).
  destruct ended; [|by intros [= <- <-]]. cbn -[record_uid].
  pose proof (Hfetch _ _ _ _ (proj2 Hat) Ef) as Hbox.
  assert (all_stored s1 (start - 1) last) as Hwin.
  { intros m Hm Hu. rewrite Forall_forall in Hall. apply Hall, Hbox. split; [done|lia]. }
  destruct (uid <? mx)%Z eqn:Elt; bool_to_prop.
  - destruct (record_uid_spec mx uid s1 Hat1) as (Hd & Hat2 & Hst2).
    destruct (record_uid clock syncId mx s1) as [s2 o2]. simpl in *. subst o2. intros [= <- <-].
    split; [by trans s1|]. split; [done|]. split; [lia|].
    split; [|by intros m Hm Hu; apply (proj2 (Hst2 (proj1 (Hst1 Hi)))), Hwin].
    destruct Hmx as [-> |(m & Hm & ->)]; [by left|right]. by apply Hbox in Hm as [_ ?]; lia.
  - intros [= <- <-]. split; [done|]. split; [done|]. split; [lia|]. split; [by left|done].
Qed.

Lemma sync_loop_spec fuel window top start uid base s s' o :
  (1 ≤ window)%Z → (base ≤ uid < start)%Z → (start ≤ top + 1)%Z → (top - start < Z.of_nat fuel)%Z →
  I s → at_uid s uid → all_stored s base (start - 1) →
  sync_loop clock onMessage fuel c syncId window top start uid s = (s', o) →
  still_stored s s' ∧
  ∃ uid', at_uid s' uid' ∧ (uid ≤ uid')%Z ∧
    match o with
    | Done o' => o' = Some uid' ∧ all_stored s' base top ∧ (uid' ≤ top)%Z
    | Threw => all_stored s' base uid'
    end.
Proof.
  intros Hw. revert start uid s. induction fuel as [|fuel IH]; intros start uid s Hu Hs Hf Hi Hat Hall; cbn [sync_loop].
  - rewrite (proj2 (Z.leb_gt start top)) by lia. intros [= <- <-]. split; [done|]. exists uid.
    split; [done|]. split; [lia|]. split; [done|]. split; [|lia]. replace top with (start - 1)%Z by lia. done.
  - destruct (start <=? top)%Z eqn:Et; bool_to_prop.
    2: { intros [= <- <-]. split; [done|]. exists uid. split; [done|]. split; [lia|]. split; [done|].
         split; [|lia]. replace top with (start - 1)%Z by lia. done. }
    set (last := Z.min top (start + window - 1)). unfold mbind, proc_bind.
    destruct (sync_window clock onMessage c syncId start last uid s) as [s1 o1] eqn:E1.
    apply sync_window_spec in E1 as [Hst H1]; [|done|lia|done]. destruct o1 as [uid1|].
    + destruct H1 as (Hat1 & Hle & Hor & Hwin). intros E2.
      apply IH in E2 as (Hst2 & uid' & Hat' & Hle' & H2); [|lia|lia|lia|by apply Hst|done|].
      * split; [by trans s1|]. exists uid'. split; [done|]. split; [lia|done].
      * replace (last + 1 - 1)%Z with last by lia. intros m Hm Hum.
        destruct (decide (f_uid m ≤ start - 1)%Z); [apply (proj2 (Hst Hi)), Hall|apply Hwin]; (done || lia).
    + intros [= <- <-]. split; [done|]. exists uid. split; [done|]. split; [lia|].
      intros m Hm Hum. apply (proj2 (Hst Hi)), Hall; [done|lia].
Qed.
End Progress.

Arguments over_imap {_ _ _} _.
Arguments over_rows {_ _ _} _.
Arguments over_tick {_ _ _} _.

(** ** [syncMailbox] *)

Section Theorems.
Context `{ImapServer} (clock : nat → Z) (onMessage : FetchMessage → proc unit) (c : nat).
Context (box : list FetchMessage) (stored : MailDb → FetchMessage → Prop) (I : MailDb → Prop).
Context (identityId mailboxId path : jsstr) (window : Z).
Abbreviation run := (syncMailbox clock onMessage c identityId mailboxId path window).

(** The last uid [mailbox_sync] holds for the mailbox. *)
Definition last_uid (s : MailDb) : option Z := lastSeenUid <$> find_sync identityId mailboxId s.

Lemma sync_body_spec s s' o sync :
  faithful_fetch c path box → takes_over onMessage stored I → (1 ≤ window)%Z →
  I s → find_sync identityId mailboxId s = Some sync →
  sync_body clock onMessage c identityId mailboxId path window s = (s', o) →
  still_stored stored I s s' ∧
  ∃ uid', last_uid s' = Some uid' ∧ (lastSeenUid sync ≤ uid')%Z ∧
    all_stored box stored s' (lastSeenUid sync) uid' ∧ o ≠ Done None ∧
    (o = Done (Some tt) → let top := (default 1 (uidNext (imap s ++
        [ {| client := c; command := OpenBox path; fulfilled := true |} ]) c path) - 1)%Z in
      all_stored box stored s' (lastSeenUid sync) top).
Proof.
  intros Hfetch Hover Hw Hi Hsync. set (base := lastSeenUid sync).
  assert (∀ s1, row_at identityId mailboxId (sy_id sync) s1 base → last_uid s1 = Some base) as Hlast.
  { intros s1 (row & Hrow & _ & Hl). unfold last_uid. by rewrite Hrow, <- Hl. }
  assert (row_at identityId mailboxId (sy_id sync) s base) as Hat by by exists sync.
  assert (∀ s1, all_stored box stored s1 base base) as Hnone by (intros s1 m _ ?; lia).
  unfold sync_body, read, send, mbind, proc_bind. rewrite Hsync. fold base.
  destruct (accepts (imap s) c (OpenBox path)).
  2: { intros [= <- <-]. split; [apply (over_imap Hover)|]. exists base. split; [by apply Hlast|]. split; [lia|].
       by split; [apply Hnone|]. }
  set (s1 := set_imap _ s). assert (still_stored stored I s s1) as H1 by apply (over_imap Hover).
  change (imap s1) with (imap s ++ [ {| client := c; command := OpenBox path; fulfilled := true |} ]).
  set (next := default 1%Z _). cbv zeta. destruct (_ <=? base)%Z eqn:Etop; bool_to_prop.
  { intros [= <- <-]. split; [done|]. exists base. split; [by apply Hlast|]. split; [lia|]. split; [apply Hnone|].
    split; [done|]. intros _ m _ ?. lia. }
  set (top := Z.max 0 (next - 1)) in *.
  destruct (sync_loop _ _ _ _ _ _ _ _ _ s1) as [s2 o2] eqn:E2.
  apply (sync_loop_spec clock onMessage c path box stored I Hfetch Hover identityId mailboxId (sy_id sync) _ _ _ _ _ base) in E2
    as (Hst2 & uid' & Hat2 & Hle & H2); [|lia|lia|lia|lia|by apply H1| |by intros m _ ?; lia].
  2: { split; [done|]. change (imap s1) with (imap s ++ [ {| client := c; command := OpenBox path; fulfilled := true |} ]).
       rewrite opened_app. unfold open_event. simpl. by rewrite bool_decide_eq_true_2. }
  destruct o2 as [o2|]; cycle 1.
  { intros [= <- <-]. split; [by trans s1|]. exists uid'. destruct Hat2 as [(row & Hrow & _ & Hl) _]. unfold last_uid. rewrite Hrow, <- Hl in *.
    by repeat split. }
  destruct H2 as (-> & Hall & Htop). unfold_proc. cbn -[Z.max]. intros [= <- <-].
  assert (∀ f s0, still_stored stored I s0 (set_mailboxSync f (tick (tick s0)))) as Hend.
  { intros f s0. trans (tick (tick s0)); [|apply (over_rows Hover)].
    trans (tick s0); apply (over_tick Hover). }
  assert (I s2) as Hi2 by by apply Hst2, H1.
  assert (∀ f m, stored s2 m → stored (set_mailboxSync f (tick (tick s2))) m) as Hst by (intros f; by apply Hend).
  split; [trans s1; [done|]; by trans s2|]. exists uid'.
  destruct Hat2 as [(row & Hrow & Hid & Hl) _]. split.
  { unfold last_uid. rewrite (find_update identityId mailboxId (sy_id sync) _ (tick (tick s2)) row) by done.
    simpl. by rewrite Hl. }
  split; [done|]. split; [intros m Hm Hu; apply Hst, Hall; [done|lia]|]. split; [done|].
  intros _ m Hm Hu. apply Hst, Hall; [done|lia].
Qed.

(** The lock around the body adds nothing to what has been taken over. *)
Lemma syncMailbox_spec s sync :
  faithful_fetch c path box → takes_over onMessage stored I → (1 ≤ window)%Z →
  I s → find_sync identityId mailboxId s = Some sync →
  still_stored stored I s (run s).1 ∧
  ∃ uid', last_uid (run s).1 = Some uid' ∧ (lastSeenUid sync ≤ uid')%Z ∧
    all_stored box stored (run s).1 (lastSeenUid sync) uid' ∧ (run s).2 ≠ Done None ∧
    ((run s).2 = Done (Some tt) → ∀ next, (∀ log, uidNext log c path = Some next) →
      all_stored box stored (run s).1 (lastSeenUid sync) (next - 1)).
Proof.
  intros Hfetch Hover Hw Hi Hsync. unfold syncMailbox, with_lock, send, mbind, proc_bind.
  destruct (accepts (imap s) c (Lock path)).
  2: { split; [apply (over_imap Hover)|]. exists (lastSeenUid sync). split; [exact (f_equal (fmap lastSeenUid) Hsync)|]. split; [lia|].
       by split; [intros m _ ?; lia|]. }
  set (s0 := set_imap _ s). assert (still_stored stored I s s0) as H0 by apply (over_imap Hover).
  unfold finally. destruct (sync_body _ _ _ _ _ _ _ s0) as [s1 o] eqn:E.
  destruct (sync_body_spec s0 s1 o sync Hfetch Hover Hw (proj1 (H0 Hi)) Hsync E)
    as (Hst & uid' & H1 & H2 & H3 & H4 & H5).
  assert (still_stored stored I s1 (release c path s1).1) as Hrel by apply (over_imap Hover).
  split; [trans s0; [done|]; by trans s1|]. exists uid'. simpl. split; [exact H1|]. split; [done|].
  assert (∀ a b, all_stored box stored s1 a b → all_stored box stored (release c path s1).1 a b) as Hr.
  { intros a b Ha m Hm Hu. apply Hrel; [by apply Hst, H0|by apply Ha]. }
  split; [by apply Hr|]. split; [done|]. intros Hd next Hn. apply Hr. specialize (H5 Hd). cbv zeta in H5.
  by rewrite Hn in H5.
Qed.

(** C9: However a synchronisation ends, also when the server or the storage of a message fails: it
    ends, the last uid recorded for the mailbox has not gone back, and every message of the
    mailbox between the old and the new last uid has been taken over.  So none is skipped. *)
Theorem syncMailbox_no_loss s sync :
  faithful_fetch c path box → takes_over onMessage stored I → (1 ≤ window)%Z →
  I s → find_sync identityId mailboxId s = Some sync →
  (run s).2 ≠ Done None ∧
  ∃ uid', last_uid (run s).1 = Some uid' ∧ (lastSeenUid sync ≤ uid')%Z ∧
    ∀ m, m ∈ box → (lastSeenUid sync < f_uid m ≤ uid')%Z → stored (run s).1 m.
Proof.
  intros H1 H2 H3 H4 H5. destruct (syncMailbox_spec s sync H1 H2 H3 H4 H5) as (_ & uid' & ? & ? & ? & ? & _).
  split; [done|]. by exists uid'.
Qed.
(** *** When nothing fails *)

Record smooth : Prop := {
  all_accepted : ∀ log cmd, accepts log c cmd = true;
  all_fetched : ∀ log a b, (fetched log c a b).2 = true;
  all_taken : ∀ m, total (onMessage m);
}.

Lemma sync_loop_total fuel syncId top start uid :
  smooth → total (sync_loop clock onMessage fuel c syncId window top start uid).
Proof.
  intros [_ Hf Ht]. revert start uid. induction fuel as [|fuel IH]; intros start uid; cbn [sync_loop];
    destruct (start <=? top)%Z; try (intros s; by eexists).
  apply total_bind; [|done]. unfold sync_window. intros s. unfold fetch. unfold mbind at 1, proc_bind at 1.
  pose proof (Hf (imap s) start (Z.min top (start + window - 1))) as Hend.
  destruct (fetched (imap s) c _ _) as [msgs ended]. simpl in Hend |- *. subst ended.
  set (s0 := set_imap _ s). clearbody s0. revert s0. apply total_bind.
  - clear -Ht. revert uid. induction msgs as [|m msgs IH]; intros uid; cbn [hand_over]; [intros s; by eexists|].
    by apply total_bind.
  - intros mx. apply total_bind; [intros s0; by eexists|]. intros _ s0. destruct (uid <? mx)%Z; by eexists.
Qed.

Lemma syncMailbox_done s sync :
  smooth → find_sync identityId mailboxId s = Some sync → ∃ o, (run s).2 = Done o.
Proof.
  intros Hsm Hsync. unfold syncMailbox, with_lock, send, mbind, proc_bind. rewrite (all_accepted Hsm).
  set (s0 := set_imap _ s). unfold finally. assert (∃ o, (sync_body clock onMessage c identityId mailboxId path window s0).2 = Done o) as [o Ho].
  { unfold sync_body, read, send. unfold mbind, proc_bind. change (find_sync _ _ s0) with (find_sync identityId mailboxId s).
    rewrite Hsync, (all_accepted Hsm). destruct (_ <=? _)%Z; [by eexists|].
    match goal with |- context [sync_loop _ _ ?n _ ?i _ ?t ?a ?u ?s1] =>
      destruct (sync_loop_total n i t a u Hsm s1) as [o Ho]; destruct (sync_loop _ _ n _ i _ t a u s1) as [s2 o2] end.
    simpl in Ho. subst o2. destruct o; by eexists. }
  destruct (sync_body _ _ _ _ _ _ _ s0) as [s1 o1]. simpl in *. subst o1. by eexists.
Qed.

(** When the server and the storage do not fail a synchronisation catches up: it ends without an
    error and every message of the mailbox above the last uid has been taken over. *)
Theorem syncMailbox_catches_up s sync next :
  faithful_fetch c path box → takes_over onMessage stored I → (1 ≤ window)%Z → smooth →
  (∀ log, uidNext log c path = Some next) → (∀ m, m ∈ box → (f_uid m < next)%Z) →
  I s → find_sync identityId mailboxId s = Some sync →
  (run s).2 = Done (Some tt) ∧ ∀ m, m ∈ box → (lastSeenUid sync < f_uid m)%Z → stored (run s).1 m.
Proof.
  intros Hfetch Hover Hw Hsm Hnext Hbox Hi Hsync.
  destruct (syncMailbox_spec s sync Hfetch Hover Hw Hi Hsync) as (_ & uid' & _ & _ & _ & Hfuel & Hall).
  destruct (syncMailbox_done s sync Hsm Hsync) as [[[]|] Ho]; [|by destruct (Hfuel Ho)].
  split; [done|]. intros m Hm Hu. apply (Hall Ho next Hnext); [done|]. specialize (Hbox m Hm). lia.
Qed.
End Theorems.

(** ** The rows of the other mailboxes *)

(** Every row keeps its id and its mailbox; those with another id than [y] do not change. *)
Definition touched (y : jsstr) (r r' : MailboxSyncRow) : Prop :=
  sy_id r' = sy_id r ∧ sy_identityId r' = sy_identityId r ∧ sy_mailboxId r' = sy_mailboxId r ∧ (sy_id r ≠ y → r' = r).

Definition touches_only (y : jsstr) (s s' : MailDb) : Prop := Forall2 (touched y) (mailboxSync s) (mailboxSync s').

#[export] Instance touches_only_preorder y : PreOrder (touches_only y).
Proof.
  unfold touches_only, touched. split.
  - intros s. by apply Forall_Forall2_diag, Forall_true.
  - intros s1 s2 s3. generalize (mailboxSync s1) (mailboxSync s2) (mailboxSync s3). clear. intros l1 l2 l3 H12. revert l3.
    induction H12 as [|r1 r2 l1 l2 (E1 & E2 & E3 & E4) _ IH]; intros l3 H23;
      inversion H23 as [|? r3 ? l3' (F1 & F2 & F3 & F4) H23']; subst; constructor; [|auto].
    repeat split; try congruence. intros Hne. rewrite F4, E4; congruence.
Qed.

Lemma touches_update y f s :
  (∀ r, sy_id (f r) = sy_id r ∧ sy_identityId (f r) = sy_identityId r ∧ sy_mailboxId (f r) = sy_mailboxId r) →
  touches_only y s (set_mailboxSync (update_where (λ r, bool_decide (sy_id r = y)) f) s).
Proof.
  intros Hf. unfold touches_only, update_where. simpl. induction (mailboxSync s) as [|r l IH]; [by constructor|].
  constructor; [|exact IH]. destruct (Hf r) as (? & ? & ?). unfold touched. by case_bool_decide.
Qed.

Lemma find_touched y i b s s' row :
  touches_only y s s' → find_sync i b s = Some row →
  ∃ row', find_sync i b s' = Some row' ∧ touched y row row'.
Proof.
  unfold touches_only, find_sync. induction 1 as [|r r' l l' Ht _ IH]; [done|]. simpl. pose proof Ht as (E1 & -> & -> & E4).
  destruct (_ && _); [|done]. intros [= <-]. by exists r'.
Qed.

Lemma touched_ids y s s' : touches_only y s s' → map sy_id (mailboxSync s') = map sy_id (mailboxSync s).
Proof. unfold touches_only. induction 1 as [|r r' l l' (E & _) _ IH]; [done|]. simpl. by rewrite E, IH. Qed.

Section Others.
Context `{ImapServer} (clock : nat → Z) (onMessage : FetchMessage → proc unit).
Context (Hsync : ∀ m s, mailboxSync (onMessage m s).1 = mailboxSync s).

Lemma touches_same y s s' : mailboxSync s' = mailboxSync s → touches_only y s s'.
Proof. intros E. unfold touches_only. rewrite E. by apply (touches_only_preorder y). Qed.

Lemma loop_touches fuel c y window top start uid :
  steps (touches_only y) (sync_loop clock onMessage fuel c y window top start uid).
Proof.
  assert (∀ msgs mx, steps (touches_only y) (hand_over onMessage msgs mx)) as Hh.
  { intros msgs. induction msgs as [|m msgs IH]; intros mx; cbn [hand_over]; [auto with webmail|].
    apply steps_bind; [apply _| |auto]. intros s. by apply touches_same. }
  assert (∀ u, steps (touches_only y) (record_uid clock y u)) as Hr.
  { intros u s. unfold record_uid. unfold_proc. simpl. by apply (touches_update y _ (tick s)). }
  revert start uid. induction fuel as [|fuel IH]; intros start uid; cbn [sync_loop].
  - destruct (_ <=? _)%Z; auto with webmail.
  - unfold sync_window. run_steps; try done. intros s. by apply touches_same.
Qed.

Lemma syncMailbox_touches c i b path window s sync :
  find_sync i b s = Some sync → touches_only (sy_id sync) s (syncMailbox clock onMessage c i b path window s).1.
Proof.
  intros Hf. unfold syncMailbox, with_lock, send. unfold mbind, proc_bind.
  destruct (accepts (imap s) c (Lock path)); [|by apply touches_same]. set (s0 := set_imap _ s). unfold finally.
  assert (touches_only (sy_id sync) s0 (sync_body clock onMessage c i b path window s0).1) as Hb.
  { unfold sync_body, read, send. unfold mbind, proc_bind. change (find_sync _ _ s0) with (find_sync i b s). rewrite Hf.
    destruct (accepts (imap s0) c (OpenBox path)); [|by apply touches_same]. destruct (_ <=? _)%Z; [by apply touches_same|].
    match goal with |- context [sync_loop _ _ ?n _ ?y _ ?t ?a ?u ?s1] =>
      pose proof (loop_touches n c y window t a u s1) as Hl; destruct (sync_loop _ _ n _ y _ t a u s1) as [s2 [[u2|]|]] end;
      simpl in Hl; [|exact Hl..].
    etrans; [exact Hl|]. unfold_proc. simpl. by apply (touches_update _ _ (tick (tick s2))). }
  destruct (sync_body _ _ _ _ _ _ _ s0) as [s1 o]. simpl in *. etrans; [|exact Hb]. by apply touches_same.
Qed.
End Others.

(** ** A concrete run *)

Definition ex_mail_at (uid : Z) : FetchMessage :=
  {| f_uid := uid; f_id := []; f_messageId := None; f_source := None; f_flags := []; f_size := None; f_internalDate := VUndef |}.
Definition ex_box_messages : list FetchMessage := [ex_mail_at 2; ex_mail_at 4; ex_mail_at 9].

Definition ex_range (a b : Z) : list FetchMessage := filter (λ m, a ≤ f_uid m ≤ b)%Z ex_box_messages.

Definition mailbox_server : ImapServer := {|
  authenticated := λ _ _, true; usable := λ _ _, true; accepts := λ _ _ _, true; search_all := λ _ _, [];
  uidNext := λ _ _ _, Some 10%Z; uidValidity := λ _ _ _, 1%Z; fetched := λ _ _ a b, (ex_range a b, true);
  list_boxes := λ _ _, []; rejection := λ _ _ _, [] |}.

(** Taking a message over stores a row; the date of the row is the uid. *)
Definition ex_take (m : FetchMessage) : proc unit :=
  modify (set_messages (λ l, l ++ [ex_mail "m"%js "t"%js (f_uid m) false false])).

Definition ex_taken (s : MailDb) (m : FetchMessage) : Prop := Some (f_uid m) ∈ map m_date (messages s).

Definition ex_sync_store : MailDb := set_mailboxSync (λ _, [ {| sy_id := "y1"%js; sy_identityId := "i1"%js;
  sy_mailboxId := "b1"%js; lastSeenUid := 2; backfillCursorUid := 0; phase := "IDLE"%js; syncedAt := None;
  sy_updatedAt := 0 |} ])%Z ex_store.

Lemma ex_fetch : @faithful_fetch mailbox_server 0 "INBOX"%js ex_box_messages.
Proof. intros log a b msgs _ [= <-] m. unfold ex_range. rewrite list_elem_of_filter. tauto. Qed.

Lemma ex_over : takes_over ex_take ex_taken (λ _, True).
Proof.
  constructor; try done.
  - intros m s s' _ [= <-]. unfold ex_taken. simpl. rewrite map_app. set_solver.
  - intros m s _. split; [done|]. intros m'. unfold ex_taken. simpl. rewrite map_app. set_solver.
Qed.

Definition ex_sync : MailDb :=
  (@syncMailbox mailbox_server Z.of_nat ex_take 0 "i1"%js "b1"%js "INBOX"%js 3%Z ex_sync_store).1.

Lemma syncMailbox_no_loss_witness :
  ∃ uid', last_uid "i1"%js "b1"%js ex_sync = Some uid' ∧ (2 ≤ uid')%Z ∧
    ∀ m, m ∈ ex_box_messages → (2 < f_uid m ≤ uid')%Z → ex_taken ex_sync m.
Proof.
  exact (proj2 (@syncMailbox_no_loss mailbox_server Z.of_nat ex_take 0 ex_box_messages ex_taken (λ _, True) "i1"%js "b1"%js
    "INBOX"%js 3%Z ex_sync_store _ ex_fetch ex_over ltac:(lia) Logic.I eq_refl)).
Defined.

Lemma syncMailbox_catches_up_witness :
  last_uid "i1"%js "b1"%js ex_sync = Some 9%Z ∧
  ∀ m, m ∈ ex_box_messages → (2 < f_uid m)%Z → ex_taken ex_sync m.
Proof.
  split; [vm_compute; reflexivity|].
  refine (proj2 (@syncMailbox_catches_up mailbox_server Z.of_nat ex_take 0 ex_box_messages ex_taken (λ _, True) "i1"%js "b1"%js
    "INBOX"%js 3%Z ex_sync_store _ 10%Z ex_fetch ex_over ltac:(lia) _ _ _ Logic.I eq_refl)).
  - constructor; try done. intros m s. by eexists.
  - done.
  - intros m Hm. unfold ex_box_messages in Hm. rewrite !elem_of_cons in Hm.
    destruct Hm as [-> |[-> |[-> |Hm]]]; simpl; [lia..|set_solver].
Defined.
