(* ===== verification/ImapFolders.v ===== *)
(** * Folders ([apps/worker/lib/imap/imap-new-folder.ts], [imap-delete-folder.ts]) *)

From stdpp Require Import base list.
From S2P Require Import Prelude JsString JsNumber JsValue RuleMatcher MailDb Imap ImapOps ImapInvariant ImapSpecs.

Section Folders.
Context `{ImapServer} (clock : nat → Z).
(** [slugify] of [@sindresorhus/slugify], and the ids the database gives to new rows. *)
Context (slugify : jsstr → jsstr) (new_id : MailDb → jsstr).

(** ** [addNewFolder] *)

Fixpoint first_delimiter (l : list (option jsstr)) : jsstr :=
  match l with
  | [] => "/"%js
  | Some d :: l' => if truthy d then d else first_delimiter l'
  | None :: l' => first_delimiter l'
  end.

Definition detectDelimiter (c : nat) : proc jsstr :=
  _ ← send c ListBoxes;
  s ← read;
  mret (first_delimiter (map bx_delimiter (list_boxes (imap s) c))).

(** [s.replaceAll(d, " ")]: an empty pattern matches before every character and at the end. *)
Fixpoint replace_all_loop (fuel : nat) (d s : jsstr) : jsstr :=
  match fuel with
  | O => s
  | S fuel =>
      match s with
      | [] => []
      | a :: t => if startsWith s d then " "%char :: replace_all_loop fuel d (drop (length d) s)
                  else a :: replace_all_loop fuel d t
      end
  end.

Definition replaceAll_space (d s : jsstr) : jsstr :=
  match d with
  | [] => " "%char :: flat_map (λ a, [a; " "%char]) s
  | _ => replace_all_loop (length s) d s
  end.

Definition sanitizeName (name delimiter : jsstr) : jsstr := replaceAll_space delimiter (trim name).

(** [parentId] is a text, [null] or [undefined]. *)
Record NewFolder := { nf_name : jsstr; nf_parentId : jsval; nf_identityId : jsstr; nf_ownerId : jsstr; nf_kind : option jsstr }.

(** The path of the parent and the delimiter. *)
Definition parent_place (data : NewFolder) (c : nat) : proc (jsstr * jsstr) :=
  if js_truthy (nf_parentId data) then
    s ← read;
    let imap := match find_mailbox (js_to_string (nf_parentId data)) s with
                | Some parent => imap_of (mb_metaData parent)
                | None => VUndef
                end in
    if js_truthy imap then
      let delimiter := get_prop imap "delimiter"%js in
      d ← (if is_nullish delimiter then detectDelimiter c else mret (js_to_string delimiter));
      mret (js_to_string (nullish_or (get_prop imap "path"%js) (VStr [])), d)
    else
      d ← detectDelimiter c;
      mret ([], d)
  else
    d ← detectDelimiter c;
    mret ([], d).

(** [/exists|already/i.test(message)] *)
Definition says_exists (message : jsstr) : bool :=
  includes (toLowerCase message) "exists"%js || includes (toLowerCase message) "already"%js.

(** A command whose error is let through when its message says [p]. *)
Definition send_unless (p : jsstr → bool) (c : nat) (cmd : ImapCommand) : proc unit :=
  s ← read;
  catch (send c cmd) (if p (rejection (imap s) c cmd) then mret tt else throw).

(** [String(data.parentId)?.trim().length > 0 ? String(data.parentId) : null] *)
Definition parent_column (parentId : jsval) : option jsstr :=
  if truthy (trim (js_to_string parentId)) then Some (js_to_string parentId) else None.

Definition slug_key (r : MailboxRow) : option (jsstr * jsstr) := (λ s, (mb_identityId r, s)) <$> mb_slug r.

(** The key of the default mailboxes: one for each identity and kind. *)
Definition default_key (r : MailboxRow) : option (jsstr * jsstr) :=
  if mb_isDefault r then Some (mb_identityId r, mb_kind r) else None.

(** A row with a key that is taken. *)
Definition taken (key : MailboxRow → option (jsstr * jsstr)) (row : MailboxRow) (rows : list MailboxRow) : bool :=
  match key row with Some k => bool_decide (Some k ∈ map key rows) | None => false end.

Definition conflicting (row : MailboxRow) (rows : list MailboxRow) : bool :=
  bool_decide (mb_id row ∈ map mb_id rows) || taken default_key row rows || taken slug_key row rows.

(** [INSERT INTO mailboxes]: the reference to the parent and the unique keys. *)
Definition insert_mailbox (row : MailboxRow) : proc unit :=
  s ← read;
  if (match mb_parentId row with Some p => negb (bool_decide (p ∈ map mb_id (mailboxes s))) | None => false end) ||
     conflicting row (mailboxes s)
  then throw
  else modify (set_mailboxes (λ l, l ++ [row])).

(** [INSERT INTO mailbox_sync]: one row for each mailbox. *)
Definition insert_sync (row : MailboxSyncRow) : proc unit :=
  s ← read;
  if bool_decide (sy_mailboxId row ∈ map sy_mailboxId (mailboxSync s)) then throw
  else modify (set_mailboxSync (λ l, l ++ [row])).

Definition folder_meta (path name parentPath delimiter : jsstr) : list (jsstr * jsval) :=
  [("imap"%js, VObj [("path", VStr path); ("name", VStr name); ("parentPath", VStr parentPath);
                     ("delimiter", VStr delimiter); ("flags", VArr []); ("specialUse", VNull);
                     ("selectable", VBool true)]%js)].

(** The folder on the server: its name, path, the path of its parent and the delimiter. *)
Definition create_folder (data : NewFolder) (c : nat) : proc (jsstr * jsstr * jsstr * jsstr) :=
  '(parentPath, delimiter) ← parent_place data c;
  let safeName := sanitizeName (nf_name data) delimiter in
  let newPath := if truthy parentPath then parentPath ++ delimiter ++ safeName else safeName in
  _ ← send_unless says_exists c (Create newPath);
  _ ← catch (send c (Subscribe newPath)) (mret tt);
  _ ← send c (OpenBox newPath);
  mret (safeName, newPath, parentPath, delimiter).

Definition folder_row (data : NewFolder) (id safeName newPath parentPath delimiter : jsstr) : MailboxRow :=
  {| mb_id := id; mb_identityId := nf_identityId data; mb_ownerId := nf_ownerId data;
     mb_parentId := parent_column (nf_parentId data); mb_kind := default "custom"%js (nf_kind data);
     mb_name := Some safeName; mb_slug := Some (slugify (toLowerCase safeName)); mb_isDefault := false;
     mb_metaData := Some (folder_meta newPath safeName parentPath delimiter) |}.

Definition addNewFolder (data : NewFolder) (c : nat) : proc MailboxRow :=
  if negb (truthy (trim (nf_name data))) then throw else
  '(safeName, newPath, parentPath, delimiter) ← create_folder data c;
  s ← read;
  let row := folder_row data (new_id s) safeName newPath parentPath delimiter in
  _ ← insert_mailbox row;
  now ← new_Date clock;
  _ ← insert_sync {| sy_id := new_id s; sy_identityId := nf_identityId data; sy_mailboxId := mb_id row;
                     lastSeenUid := 0;
                     backfillCursorUid := Z.max 0 (default 1%Z (uidNext (imap s) c newPath) - 1)%Z;
                     phase := "IDLE"%js; syncedAt := Some now; sy_updatedAt := now |};
  mret row.

(** ** [deleteFolder] *)

(** [/not found|no such|does not exist/i.test(message)] *)
Definition says_missing (message : jsstr) : bool :=
  let m := toLowerCase message in
  includes m "not found"%js || includes m "no such"%js || includes m "does not exist"%js.

(** [DELETE FROM mailboxes] and the rows that refer to the mailbox; the threads stay. *)
Definition delete_mailbox (id : jsstr) : proc unit :=
  _ ← modify (set_mailboxes (filter (λ r, mb_id r ≠ id)));
  _ ← modify (set_messages (filter (λ r, m_mailboxId r ≠ id)));
  _ ← modify (set_mailboxThreads (filter (λ r, mt_mailboxId r ≠ id)));
  _ ← modify (set_threadLabels (filter (λ r, tl_mailboxId r ≠ id)));
  modify (set_mailboxSync (filter (λ r, sy_mailboxId r ≠ id))).

Definition deleteFolder (mailboxId identityId : jsstr) (c : nat) : proc (jsstr * jsstr) :=
  s ← read;
  match List.find (λ r, bool_decide (mb_id r = mailboxId) && bool_decide (mb_identityId r = identityId)) (mailboxes s) with
  | None => throw
  | Some mbx =>
      if mb_isDefault mbx then throw else
      let path := js_to_string (nullish_or (get_prop (imap_of (mb_metaData mbx)) "path"%js) (VStr [])) in
      if negb (truthy path) then throw else
      if existsb (λ r, bool_decide (mb_identityId r = identityId) && bool_decide (mb_parentId r = Some (mb_id mbx)))
           (mailboxes s)
      then throw
      else
        _ ← send_unless says_missing c (DeleteBox path);
        _ ← transaction
              (_ ← modify (set_mailboxSync (filter (λ r, sy_mailboxId r ≠ mb_id mbx)));
               delete_mailbox (mb_id mbx));
        mret (mb_id mbx, path)
  end.
End Folders.

(** ** Theorems *)

(** The rows of mailboxes and of their synchronisation. *)
Definition same_boxes (s s' : MailDb) : Prop :=
  same_tables s s' ∧ mailboxes s' = mailboxes s ∧ mailboxSync s' = mailboxSync s.

#[export] Instance same_boxes_preorder : PreOrder same_boxes.
Proof.
  split; unfold same_boxes; [done|]. intros s1 s2 s3 (H1 & H2) (H3 & H4).
  split; [by trans s2|intuition congruence].
Qed.

Section Theorems.
Context `{ImapServer} (clock : nat → Z) (slugify : jsstr → jsstr) (new_id : MailDb → jsstr).

Lemma boxes_send c cmd : steps same_boxes (send c cmd).
Proof. done. Qed.

Hint Resolve boxes_send : webmail.

Lemma boxes_send_unless p c cmd : steps same_boxes (send_unless p c cmd).
Proof. unfold send_unless. run_steps. Qed.

Lemma boxes_parent_place data c : steps same_boxes (parent_place data c).
Proof. unfold parent_place, detectDelimiter. run_steps. Qed.

Hint Resolve boxes_send_unless boxes_parent_place : webmail.

Lemma boxes_create_folder data c : steps same_boxes (create_folder data c).
Proof. unfold create_folder. run_steps. Qed.

(** Inserting a row: what the constraints guarantee. *)
Lemma insert_mailbox_Done row s s' :
  insert_mailbox row s = (s', Done tt) →
  s' = (set_mailboxes (λ l, l ++ [row]) s) ∧ mb_id row ∉ map mb_id (mailboxes s) ∧
  (∀ p, mb_parentId row = Some p → p ∈ map mb_id (mailboxes s)) ∧
  (∀ k, slug_key row = Some k → Some k ∉ map slug_key (mailboxes s)).
Proof.
  unfold insert_mailbox, conflicting, taken. unfold_proc. destruct (_ || _) eqn:E; [done|]. intros [= <-]. bool_to_prop.
  split; [done|]. split; [done|]. split.
  - intros p Hp. rewrite Hp in *. by bool_to_prop; destruct (decide (p ∈ map mb_id (mailboxes s))).
  - intros k Hk. rewrite Hk in *. by bool_to_prop.
Qed.

(** A folder that was added: its row and the row of its synchronisation are new and are all that
    changed, its parent exists, no other mailbox of the identity has its slug, and the first
    synchronisation starts from the first message. *)
Theorem addNewFolder_spec data c s s' row :
  addNewFolder clock slugify new_id data c s = (s', Done row) →
  ∃ sync,
    mailboxes s' = (mailboxes s ++ [row]) ∧ mailboxSync s' = (mailboxSync s ++ [sync]) ∧ same_tables s s' ∧
    mb_id row ∉ map mb_id (mailboxes s) ∧
    Some (nf_identityId data, default [] (mb_slug row)) ∉ map slug_key (mailboxes s) ∧
    (truthy (trim (js_to_string (nf_parentId data))) = true →
      js_to_string (nf_parentId data) ∈ map mb_id (mailboxes s)) ∧
    sy_mailboxId sync = mb_id row ∧ sy_mailboxId sync ∉ map sy_mailboxId (mailboxSync s) ∧ lastSeenUid sync = 0%Z.
Proof.
  unfold addNewFolder. destruct (negb _); [done|].
  intros ([[[name path] pp] d] & s1 & E1 & Er)%bind_Done.
  pose proof (boxes_create_folder data c s) as H1. rewrite E1 in H1. destruct H1 as (Ht & Hb & Hy). cbn [fst] in *.
  apply bind_Done in Er as (s1' & ? & [= <- <-] & Er).
  apply bind_Done in Er as ([] & s2 & (-> & Hid & Hp & Hk)%insert_mailbox_Done & Er).
  apply bind_Done in Er as (now & s3 & [= <- <-] & Er). apply bind_Done in Er as ([] & s4 & E4 & [= <- <-]).
  unfold insert_sync in E4. revert E4. unfold_proc. case_bool_decide as Hs; [done|]. intros [= <-].
  eexists. rewrite <- Hb, <- Hy. split; [reflexivity|]. split; [reflexivity|]. split; [exact Ht|].
  split; [done|]. split; [by apply Hk|]. split; [|done]. intros Htr. apply Hp. simpl. unfold parent_column.
  by rewrite Htr.
Qed.

(** A folder without a parent is never added: the insertion refers to a mailbox with the id
    "null" or "undefined", after the folder was created on the server. *)
Theorem addNewFolder_top_level data c s :
  nf_parentId data = VNull ∨ nf_parentId data = VUndef →
  js_to_string (nf_parentId data) ∉ map mb_id (mailboxes s) →
  (addNewFolder clock slugify new_id data c s).2 = Threw ∧ same_boxes s (addNewFolder clock slugify new_id data c s).1.
Proof.
  intros Hnull Hno. unfold addNewFolder. destruct (negb _); [done|].
  pose proof (boxes_create_folder data c s) as H1. unfold mbind, proc_bind.
  destruct (create_folder data c s) as [s1 [[[[name path] pp] d]|]]; [|done]. cbn [fst] in H1.
  unfold read, insert_mailbox. pose proof H1 as (_ & Hb & _). unfold read, mbind, proc_bind. rewrite Hb.
  cbn [folder_row mb_parentId]. unfold parent_column. destruct Hnull as [E|E]; rewrite E in *; simpl in *;
    rewrite bool_decide_false by done; done.
Qed.
(** ** [deleteFolder] *)

Lemma delete_mailbox_consistent id : steps (preserving consistent) (delete_mailbox id).
Proof.
  intros s. unfold delete_mailbox. unfold_proc. simpl.
  by apply (consistent_restrict (λ k, k.2 ≠ id)).
Qed.

Lemma deleteFolder_consistent b i c : steps (preserving consistent) (deleteFolder b i c).
Proof.
  assert (∀ p c cmd, steps same_tables (send_unless p c cmd)) as Hs by (intros; unfold send_unless; run_steps).
  unfold deleteFolder. run_steps. apply keeps_transaction. intros s.
  unfold mbind, proc_bind, modify. match goal with |- context [delete_mailbox ?id ?s1] =>
    pose proof (delete_mailbox_consistent id s1) as Hd; destruct (delete_mailbox id s1) as [s2 [[]|]] end; [|done].
  intros Hc. apply Hd. by apply (consistent_same s).
Qed.

Lemma addNewFolder_same data c : steps same_tables (addNewFolder clock slugify new_id data c).
Proof.
  assert (steps same_tables (create_folder data c)) as Hc by (intros s; apply boxes_create_folder).
  unfold addNewFolder, insert_mailbox, insert_sync. run_steps; done.
Qed.

Lemma addNewFolder_consistent data c : steps (preserving consistent) (addNewFolder clock slugify new_id data c).
Proof. apply keeps_same, addNewFolder_same. Qed.

(** Deleting a folder: only a folder of the identity that is not a default mailbox and has no
    subfolder.  If it ends, the mailbox and everything stored in it are gone and the other
    mailboxes are as before; if it throws, the tables are as before. *)
Theorem deleteFolder_spec b i c s s' o :
  deleteFolder b i c s = (s', o) →
  match o with
  | Done _ =>
      (∃ mbx, mbx ∈ mailboxes s ∧ mb_id mbx = b ∧ mb_identityId mbx = i ∧ mb_isDefault mbx = false ∧
        ∀ r, r ∈ mailboxes s → mb_identityId r = i → mb_parentId r ≠ Some b) ∧
      mailboxes s' = filter (λ r, mb_id r ≠ b) (mailboxes s) ∧
      messages s' = filter (λ r, m_mailboxId r ≠ b) (messages s) ∧
      mailboxThreads s' = filter (λ r, mt_mailboxId r ≠ b) (mailboxThreads s) ∧
      mailboxSync s' = filter (λ r, sy_mailboxId r ≠ b) (mailboxSync s)
  | Threw => same_boxes s s'
  end.
Proof.
  unfold deleteFolder, read. unfold mbind at 1, proc_bind at 1.
  destruct (List.find _ (mailboxes s)) as [mbx|] eqn:Ef; [|by intros [= <- <-]].
  apply List.find_some in Ef as [Hin%list_elem_of_In Hk]. bool_to_prop.
  assert (mb_id mbx = b ∧ mb_identityId mbx = i) as [<- <-] by done.
  destruct (mb_isDefault mbx) eqn:Hd; [by intros [= <- <-]|].
  set (path := js_to_string _). destruct (negb (truthy path)); [by intros [= <- <-]|].
  destruct (existsb _ (mailboxes s)) eqn:Ech; [by intros [= <- <-]|].
  unfold mbind, proc_bind. pose proof (boxes_send_unless says_missing c (DeleteBox path) s) as Hs.
  destruct (send_unless _ _ _ s) as [s1 [[]|]]; [|by intros [= <- <-]]. simpl in Hs.
  destruct Hs as ((E1 & E2 & E3) & E4 & E5). unfold transaction, delete_mailbox. unfold_proc. simpl.
  intros [= <- <-]. simpl. rewrite E1, E2, E4, E5. split; [|by rewrite list_filter_filter_l].
  exists mbx. repeat split; try done. intros r Hr Hi Hp. apply not_true_iff_false in Ech. apply Ech.
  apply existsb_exists. exists r. split; [by apply list_elem_of_In|]. by rewrite Hi, Hp, !bool_decide_true.
Qed.
End Theorems.

(** ** Concrete runs *)

Definition ex_new (parent : jsval) : NewFolder := {|
  nf_name := " Bills/2024 "%js; nf_parentId := parent; nf_identityId := "i1"%js; nf_ownerId := "u1"%js; nf_kind := None |}.

Definition ex_added : MailDb * outcome MailboxRow :=
  @addNewFolder kind_server Z.of_nat id (λ _, "b9"%js) (ex_new (VStr "b1"%js)) 0 ex_store.

Lemma addNewFolder_spec_witness :
  ∃ row sync, mailboxes ex_added.1 = (mailboxes ex_store ++ [row]) ∧ mailboxSync ex_added.1 = [sync] ∧
    mb_name row = Some "Bills 2024"%js ∧ mb_parentId row = Some "b1"%js ∧ sy_mailboxId sync = "b9"%js.
Proof.
  unfold ex_added.
  destruct (@addNewFolder kind_server Z.of_nat id (λ _, "b9"%js) (ex_new (VStr "b1"%js)) 0 ex_store) as [s' o] eqn:E.
  assert (∃ row, o = Done row ∧ mb_id row = "b9"%js ∧ mb_name row = Some "Bills 2024"%js ∧ mb_parentId row = Some "b1"%js)
    as (row & -> & Hid & Hn & Hp).
  { apply (f_equal snd) in E. vm_compute in E. subst o. by eexists. }
  destruct (@addNewFolder_spec kind_server Z.of_nat id (λ _, "b9"%js) (ex_new (VStr "b1"%js)) 0 ex_store s' row E)
    as (sync & H1 & H2 & _ & _ & _ & _ & H3 & _).
  exists row, sync. split; [exact H1|]. split; [exact H2|]. by rewrite H3.
Defined.

Lemma addNewFolder_top_level_witness :
  (@addNewFolder kind_server Z.of_nat id (λ _, "b9"%js) (ex_new VNull) 0 ex_store).2 = Threw ∧
  map command (imap (@addNewFolder kind_server Z.of_nat id (λ _, "b9"%js) (ex_new VNull) 0 ex_store).1) =
    [ListBoxes; Create "Bills 2024"; Subscribe "Bills 2024"; OpenBox "Bills 2024"]%js.
Proof.
  split; [|vm_compute; reflexivity].
  apply (@addNewFolder_top_level kind_server Z.of_nat id (λ _, "b9"%js) (ex_new VNull) 0 ex_store).
  - by left.
  - vm_compute. intros H. repeat (apply elem_of_cons in H as [H|H]; [discriminate|]). by apply elem_of_nil in H.
Defined.

Lemma deleteFolder_spec_witness :
  let r := @deleteFolder kind_server "b9"%js "i1"%js 0 ex_added.1 in
  r.2 = Done ("b9"%js, "INBOX/Bills 2024"%js) ∧ mailboxes r.1 = filter (λ b, mb_id b ≠ "b9"%js) (mailboxes ex_added.1).
Proof.
  cbv zeta. destruct (@deleteFolder kind_server "b9"%js "i1"%js 0 ex_added.1) as [s' o] eqn:E.
  pose proof (@deleteFolder_spec kind_server "b9"%js "i1"%js 0 ex_added.1 s' o E) as H.
  assert (o = (@deleteFolder kind_server "b9"%js "i1"%js 0 ex_added.1).2) as Ho by by rewrite E.
  vm_compute in Ho. subst o. split; [reflexivity|]. apply H.
Defined.
