(* ===== verification/Discovery.v ===== *)
(** * Finding the folders of an account ([apps/worker/lib/imap/backfill/discover/])

    [discoverMailboxes] lists the folders of the server, gives each a row of [mailboxes] below
    the row of its parent and a row of [mailbox_sync], marks the rows whose folder is gone, and
    sees to it that there is a trash folder. *)

From stdpp Require Import base list.
From S2P Require Import Prelude JsString JsNumber JsValue RuleMatcher MailDb Imap ImapOps ImapFolders.

(** [s.lastIndexOf(p)] *)
Fixpoint lastIndexOf_text (s p : jsstr) : option nat :=
  match s with
  | [] => if startsWith [] p then Some 0 else None
  | _ :: s' =>
      match lastIndexOf_text s' p with
      | Some n => Some (S n)
      | None => if startsWith s p then Some 0 else None
      end
  end.

(** ** [discover-gmail.ts] *)

Definition isGmailAccountFromBoxes (boxes : list ImapBox) : bool :=
  existsb (λ b, startsWith (bx_path b) "[Gmail]"%js ||
                match bx_specialUse b with
                | Some u => bool_decide (toLowerCase u = "\all"%js)
                | None => false
                end) boxes.

Definition shouldSyncBox (box : ImapBox) (isGmail : bool) : bool :=
  if negb (bx_listed box) then false
  else if bool_decide ("\Noselect"%js ∈ bx_flags box) then false
  else
    let path := toLowerCase (bx_path box) in
    let su := default [] (toLowerCase <$> bx_specialUse box) in
    if isGmail then
      if bool_decide (su = "\all"%js) then false
      else if bool_decide (path = "[gmail]"%js) then false
      else if bool_decide (path = "[gmail]/important"%js) then false
      else if bool_decide (path = "[gmail]/notes"%js) then false
      else if bool_decide (path = "notes"%js) then false
      else true
    else true.

(** ** [discover-helpers.ts] *)

(** The path of the parent and the name. *)
Definition splitParent (path delimiter : jsstr) : jsstr * jsstr :=
  match lastIndexOf_text path delimiter with
  | None => ([], path)
  | Some idx => (slice path 0 (Z.of_nat idx), slice_from path (Z.of_nat idx + 1))
  end.

Definition kind_of_use (specialUse : option jsstr) : option jsstr :=
  if bool_decide (specialUse = Some "\Inbox"%js) then Some "inbox"%js
  else if bool_decide (specialUse = Some "\Sent"%js) then Some "sent"%js
  else if bool_decide (specialUse = Some "\Drafts"%js) then Some "drafts"%js
  else if bool_decide (specialUse = Some "\Junk"%js) then Some "spam"%js
  else if bool_decide (specialUse = Some "\Trash"%js) then Some "trash"%js
  else if bool_decide (specialUse = Some "\Archive"%js) then Some "archive"%js
  else None.

Definition kind_of_name (n : jsstr) : jsstr :=
  if bool_decide (n ∈ ["inbox"%js]) then "inbox"%js
  else if bool_decide (n ∈ ["sent"; "sent mail"; "sent messages"]%js) then "sent"%js
  else if bool_decide (n ∈ ["drafts"; "draft"]%js) then "drafts"%js
  else if bool_decide (n ∈ ["junk"; "spam"]%js) then "spam"%js
  else if bool_decide (n ∈ ["trash"; "deleted items"; "deleted messages"; "bin"]%js) then "trash"%js
  else if bool_decide (n ∈ ["archive"; "all mail"]%js) then "archive"%js
  else "custom"%js.

Definition inferKind (mbxName : jsstr) (specialUse : option jsstr) : jsstr :=
  match kind_of_use specialUse with
  | Some k => k
  | None => kind_of_name (toLowerCase mbxName)
  end.

(** The ids of the rows by path: the [Map] the loop extends. *)
Abbreviation PathIdMap := (jsmap jsstr jsstr).

(** [metaData?.imap?.path ?? null], when it is a text that is truthy *)
Definition local_path (r : MailboxRow) : option jsstr :=
  match get_prop (imap_of (mb_metaData r)) "path"%js with VStr p => or_undefined p | _ => None end.

Definition path_ids (locals : list MailboxRow) : PathIdMap :=
  foldl (λ m r, match local_path r with Some p => jm_set p (mb_id r) m | None => m end) [] locals.

Section Discover.
Context `{ImapServer} (clock : nat → Z) (jsonb_out : jsval → jsstr).
Context (slugify : jsstr → jsstr) (new_id : MailDb → jsstr).

Definition findLocalByPath (identityId path : jsstr) : proc (option MailboxRow) :=
  s ← read;
  mret (mailbox_at jsonb_out identityId path s).

(** The object under [imap] of a folder that only holds others, or of the trash. *)
Definition plain_meta (path : jsval) (name parentPath delimiter : jsstr) (flags : list jsstr) (selectable : bool) :
    list (jsstr * jsval) :=
  [("imap"%js, VObj [("path", path); ("name", VStr name); ("parentPath", VStr parentPath);
                     ("delimiter", VStr delimiter); ("flags", VArr (map VStr flags)); ("specialUse", VNull);
                     ("selectable", VBool selectable)]%js)].

Definition parent_row (identity : IdentityRow) (id : jsstr) (grandId : option jsstr)
    (parentPath parentName pp2 delimiter : jsstr) : MailboxRow :=
  {| mb_id := id; mb_identityId := id_id identity; mb_ownerId := id_ownerId identity; mb_parentId := grandId;
     mb_kind := "custom"%js; mb_name := Some parentName; mb_slug := Some (slugify parentPath); mb_isDefault := false;
     mb_metaData := Some (plain_meta (VStr parentPath) parentName pp2 delimiter ["\Noselect"%js] false) |}.

(** The rows of the ancestors, from the nearest that exists down.  Every call has a shorter path:
    its length is fuel enough ([ensureParentChain_eq]). *)
Fixpoint parent_chain (fuel : nat) (identity : IdentityRow) (parentPath delimiter : jsstr) (pathIdMap : PathIdMap) :
    proc (option jsstr * PathIdMap) :=
  match fuel with
  | O => throw
  | S fuel =>
      if negb (truthy parentPath) then mret (None, pathIdMap) else
      match jm_get parentPath pathIdMap ≫= or_undefined with
      | Some cached => mret (Some cached, pathIdMap)
      | None =>
          existing ← findLocalByPath (id_id identity) parentPath;
          match existing with
          | Some row => mret (Some (mb_id row), jm_set parentPath (mb_id row) pathIdMap)
          | None =>
              let '(pp2, parentName) := splitParent parentPath delimiter in
              '(grandId, pathIdMap) ← parent_chain fuel identity pp2 delimiter pathIdMap;
              s ← read;
              let row := parent_row identity (new_id s) grandId parentPath parentName pp2 delimiter in
              _ ← insert_mailbox row;
              mret (Some (mb_id row), jm_set parentPath (mb_id row) pathIdMap)
          end
      end
  end.

Definition ensureParentChain (identity : IdentityRow) (parentPath delimiter : jsstr) (pathIdMap : PathIdMap) :
    proc (option jsstr * PathIdMap) :=
  parent_chain (S (length parentPath)) identity parentPath delimiter pathIdMap.

(** ** [discover-mailboxes.ts] *)

Definition box_meta (old : list (jsstr * jsval)) (mbx : ImapBox) (name parentPath delimiter : jsstr) (selectable : bool) :
    list (jsstr * jsval) :=
  jm_set "imap"%js
    (VObj [("path", VStr (bx_path mbx)); ("pathAsListed", VStr (default (bx_path mbx) (bx_pathAsListed mbx)));
           ("name", VStr name); ("parentPath", VStr parentPath); ("delimiter", VStr delimiter);
           ("flags", VArr (map VStr (bx_flags mbx))); ("specialUse", nullable (bx_specialUse mbx));
           ("selectable", VBool selectable)]%js) old.

(** [locals.find((l) => l.metaData?.imap?.path === path)?.metaData ?? {}] *)
Definition old_meta (locals : list MailboxRow) (path : jsstr) : list (jsstr * jsval) :=
  match List.find (λ r, match get_prop (imap_of (mb_metaData r)) "path"%js with
                        | VStr p => bool_decide (p = path)
                        | _ => false
                        end) locals with
  | Some r => default [] (mb_metaData r)
  | None => []
  end.

(** The row of [mailbox_sync] of a mailbox: the columns left out have their defaults. *)
Definition open_sync (c : nat) (identityId mailboxId path : jsstr) : proc unit :=
  _ ← send c (OpenBox path);
  s ← read;
  now ← new_Date clock;
  insert_sync {| sy_id := new_id s; sy_identityId := identityId; sy_mailboxId := mailboxId; lastSeenUid := 0;
                 backfillCursorUid := Z.max 0 (default 1%Z (uidNext (imap s) c path) - 1)%Z;
                 phase := "BACKFILL"%js; syncedAt := None; sy_updatedAt := now |}.

Definition box_row (identity : IdentityRow) (id : jsstr) (parentId : option jsstr) (mbx : ImapBox) (name : jsstr)
    (meta : list (jsstr * jsval)) : MailboxRow :=
  {| mb_id := id; mb_identityId := id_id identity; mb_ownerId := id_ownerId identity; mb_parentId := parentId;
     mb_kind := inferKind (bx_name mbx) (bx_specialUse mbx); mb_name := Some name;
     mb_slug := Some (slugify (toLowerCase (bx_name mbx))); mb_isDefault := bool_decide (bx_path mbx = "INBOX"%js);
     mb_metaData := Some meta |}.

(** [SET parentId, name, slug, metaData] *)
Definition with_place (parentId : option jsstr) (name slug : jsstr) (meta : list (jsstr * jsval)) (r : MailboxRow) :
    MailboxRow :=
  {| mb_id := mb_id r; mb_identityId := mb_identityId r; mb_ownerId := mb_ownerId r; mb_parentId := parentId;
     mb_kind := mb_kind r; mb_name := Some name; mb_slug := Some slug; mb_isDefault := mb_isDefault r;
     mb_metaData := Some meta |}.

(** [UPDATE mailboxes]: the reference to the parent and the unique slug. *)
Definition update_mailbox (id : jsstr) (f : MailboxRow → MailboxRow) : proc unit :=
  s ← read;
  let rows := update_where (λ r, bool_decide (mb_id r = id)) f (mailboxes s) in
  if forallb (λ r, match mb_parentId r with Some p => bool_decide (p ∈ map mb_id rows) | None => true end) rows
  then _ ← unique (omap slug_key rows); modify (set_mailboxes (λ _, rows))
  else throw.

Definition discover_box (identity : IdentityRow) (locals : list MailboxRow) (isGmail : bool) (c : nat)
    (pathIdMap : PathIdMap) (mbx : ImapBox) : proc PathIdMap :=
  let path := bx_path mbx in
  let delimiter := opt_or (bx_delimiter mbx) "/"%js in
  let '(parentPath0, name) := splitParent path delimiter in
  let parentPath := if isGmail && bool_decide (parentPath0 = "[Gmail]"%js) then [] else parentPath0 in
  let selectable := negb (bool_decide ("\Noselect"%js ∈ bx_flags mbx)) in
  '(parentId, pathIdMap) ← ensureParentChain identity parentPath delimiter pathIdMap;
  let meta := box_meta (old_meta locals path) mbx name parentPath delimiter selectable in
  existing ← findLocalByPath (id_id identity) path;
  match existing with
  | None =>
      s ← read;
      let row := box_row identity (new_id s) parentId mbx name meta in
      _ ← insert_mailbox row;
      _ ← (if selectable then open_sync c (id_id identity) (mb_id row) path else mret tt);
      mret (jm_set path (mb_id row) pathIdMap)
  | Some row =>
      _ ← new_Date clock;
      _ ← update_mailbox (mb_id row) (with_place parentId name (slugify (toLowerCase path)) meta);
      s ← read;
      _ ← (if selectable && negb (bool_decide (mb_id row ∈ map sy_mailboxId (mailboxSync s)))
           then open_sync c (id_id identity) (mb_id row) path else mret tt);
      mret pathIdMap
  end.

Fixpoint discover_boxes (identity : IdentityRow) (locals : list MailboxRow) (isGmail : bool) (c : nat)
    (pathIdMap : PathIdMap) (boxes : list ImapBox) : proc unit :=
  match boxes with
  | [] => mret tt
  | mbx :: boxes =>
      pathIdMap ← discover_box identity locals isGmail c pathIdMap mbx;
      discover_boxes identity locals isGmail c pathIdMap boxes
  end.

(** A row with a path that was not in the list. *)
Definition vanished (identityId : jsstr) (touched : list jsstr) (r : MailboxRow) : bool :=
  let p := get_prop (imap_of (mb_metaData r)) "path"%js in
  bool_decide (mb_identityId r = identityId) && js_truthy p &&
  negb (match p with VStr t => bool_decide (t ∈ touched) | _ => false end).

(** [jsonb_set(coalesce(meta, '{}'), '{imap,selectable}', 'false', true)]: an array under [imap]
    is an error. *)
Definition set_unselectable (meta : option (list (jsstr * jsval))) : option (list (jsstr * jsval)) :=
  let fs := default [] meta in
  match jm_get "imap"%js fs with
  | Some (VObj im) => Some (jm_set "imap"%js (VObj (jm_set "selectable"%js (VBool false) im)) fs)
  | Some (VArr _) => None
  | _ => Some fs
  end.

Definition with_meta (meta : list (jsstr * jsval)) (r : MailboxRow) : MailboxRow :=
  {| mb_id := mb_id r; mb_identityId := mb_identityId r; mb_ownerId := mb_ownerId r; mb_parentId := mb_parentId r;
     mb_kind := mb_kind r; mb_name := mb_name r; mb_slug := mb_slug r; mb_isDefault := mb_isDefault r;
     mb_metaData := Some meta |}.

Definition mark_vanished (identityId : jsstr) (touched : list jsstr) : proc unit :=
  s ← read;
  match filter (λ r, vanished identityId touched r = true) (mailboxes s) with
  | [] => mret tt
  | gone =>
      _ ← new_Date clock;
      rows ← or_throw (mapM (λ r,
        if bool_decide (mb_id r ∈ map mb_id gone) then (λ meta, with_meta meta r) <$> set_unselectable (mb_metaData r)
        else Some r) (mailboxes s));
      modify (set_mailboxes (λ _, rows))
  end.

(** ** [discover-trash.ts] *)

Definition TRASH_NAME_CANDIDATES : list jsstr :=
  ["trash"; "deleted items"; "deleted messages"; "deleted"; "bin"; "rubbish"; "[gmail]/trash"; "[gmail]/bin";
   "papierkorb"; "corbeille"; "cestino"; "papelera"]%js.

Definition isTrashName (path name : jsstr) : bool :=
  let p := toLowerCase path in
  let n := toLowerCase name in
  existsb (λ c, bool_decide (p = c) || bool_decide (n = c)) TRASH_NAME_CANDIDATES ||
  endsWith p "/trash"%js || endsWith p ".trash"%js || endsWith n "/trash"%js || endsWith n ".trash"%js.

(** [INSERT ... ON CONFLICT DO NOTHING RETURNING] of a row without a parent *)
Definition insert_mailbox_or_nothing (row : MailboxRow) : proc (option MailboxRow) :=
  s ← read;
  if conflicting row (mailboxes s) then mret None
  else _ ← modify (set_mailboxes (λ l, l ++ [row])); mret (Some row).

Definition trash_row (identity : IdentityRow) (id name slug : jsstr) (path : jsval) (selectable : bool) : MailboxRow :=
  {| mb_id := id; mb_identityId := id_id identity; mb_ownerId := id_ownerId identity; mb_parentId := None;
     mb_kind := "trash"%js; mb_name := Some name; mb_slug := Some slug; mb_isDefault := false;
     mb_metaData := Some (plain_meta path name [] "."%js [] selectable) |}.

(** The body of the [try]. *)
Definition create_trash (c : nat) (identity : IdentityRow) (name : jsstr) : proc unit :=
  _ ← send c (Create name);
  _ ← send c (OpenBox name);
  s ← read;
  row ← insert_mailbox_or_nothing (trash_row identity (new_id s) name (slugify name) (VStr name) true);
  match row with
  | None => mret tt
  | Some row =>
      s1 ← read;
      now ← new_Date clock;
      insert_sync {| sy_id := new_id s1; sy_identityId := id_id identity; sy_mailboxId := mb_id row; lastSeenUid := 0;
                     backfillCursorUid := Z.max 0 (default 1%Z (uidNext (imap s) c name) - 1)%Z;
                     phase := "BACKFILL"%js; syncedAt := None; sy_updatedAt := now |}
  end.

(** Whether one of the names succeeded. *)
Fixpoint try_names (c : nat) (identity : IdentityRow) (names : list jsstr) : proc bool :=
  match names with
  | [] => mret false
  | name :: names =>
      done ← catch (_ ← create_trash c identity name; mret true) (mret false);
      if done : bool then mret true else try_names c identity names
  end.

Definition local_trash (identity : IdentityRow) : proc unit :=
  s ← read;
  if existsb (λ r, bool_decide (mb_identityId r = id_id identity) &&
                   (bool_decide (mb_kind r = "trash"%js) || bool_decide (mb_slug r = Some "trash"%js))) (mailboxes s)
  then mret tt
  else insert_mailbox (trash_row identity (new_id s) "Trash"%js "trash"%js VNull false).

Definition ensureTrashFolder (c : nat) (identity : IdentityRow) : proc unit :=
  _ ← send c ListBoxes;
  s ← read;
  let all := list_boxes (imap s) c in
  if existsb (λ m, bool_decide (bx_specialUse m = Some "\Trash"%js)) all ||
     existsb (λ m, isTrashName (bx_path m) (bx_name m)) all
  then mret tt
  else
    created ← try_names c identity ["Trash"; "Deleted Items"]%js;
    if created : bool then mret tt else local_trash identity.

Definition synced_boxes (allBoxes : list ImapBox) : list ImapBox :=
  List.filter (λ mbx, shouldSyncBox mbx (isGmailAccountFromBoxes allBoxes)) allBoxes.

Definition discoverMailboxes (c : nat) (identityId : jsstr) : proc unit :=
  s ← read;
  match List.find (λ r, bool_decide (id_id r = identityId)) (identities s) with
  | None => mret tt
  | Some identity =>
      let locals := filter (λ r, mb_identityId r = id_id identity) (mailboxes s) in
      _ ← send c ListBoxes;
      s ← read;
      let allBoxes := list_boxes (imap s) c in
      let boxes := synced_boxes allBoxes in
      _ ← discover_boxes identity locals (isGmailAccountFromBoxes allBoxes) c (path_ids locals) boxes;
      _ ← mark_vanished (id_id identity) (map bx_path boxes);
      ensureTrashFolder c identity
  end.
End Discover.
