(* ===== verification/DiscoverySpecs.v ===== *)
(** * The tree of folders

    Discovery keeps the mailboxes of an identity a forest that mirrors the paths of the server,
    leaves the other identities alone, and, if it ends without an error, has a row for every
    folder. *)

From stdpp Require Import base list relations.
From S2P Require Import Prelude JsString JsNumber JsValue RuleMatcher MailDb Imap ImapOps ImapInvariant ImapSpecs.
From S2P Require Import ImapFolders Discovery.

(** ** Paths *)

Lemma lastIndexOf_text_Some s p n :
  lastIndexOf_text s p = Some n → n ≤ length s ∧ startsWith (drop n s) p = true.
Proof.
  revert n. induction s as [|a s IH]; intros n; simpl.
  - case_match; [|done]. by intros [= <-].
  - destruct (lastIndexOf_text s p) as [m|].
    + intros [= <-]. destruct (IH m eq_refl). split; [lia|done].
    + case_match; [|done]. intros [= <-]. split; [lia|done].
Qed.

Lemma lastIndexOf_text_one s c : lastIndexOf_text s [c] = lastIndexOf s c.
Proof.
  induction s as [|a s IH]; [done|]. simpl. rewrite IH. destruct (lastIndexOf s c); [done|].
  rewrite andb_true_r. case_bool_decide as E; case_decide; congruence.
Qed.

Lemma slice_prefix s n : slice s 0 (Z.of_nat n) = take n s.
Proof.
  unfold slice, rel_index. rewrite (proj2 (Z.ltb_ge 0 0)), (proj2 (Z.ltb_ge _ 0)) by lia.
  rewrite Nat2Z.id, drop_0, Nat.sub_0_r.
  destruct (Nat.le_gt_cases n (length s)); [by rewrite Nat.min_l|].
  rewrite Nat.min_r, !take_ge by lia. done.
Qed.

Lemma slice_from_drop s n : slice_from s (Z.of_nat n) = drop n s.
Proof.
  unfold slice_from, rel_index. rewrite (proj2 (Z.ltb_ge _ 0)) by lia. rewrite Nat2Z.id.
  destruct (Nat.le_gt_cases n (length s)); [by rewrite Nat.min_l|].
  rewrite Nat.min_r, !drop_ge by lia. done.
Qed.

Lemma splitParent_take p d :
  splitParent p d = match lastIndexOf_text p d with None => ([], p) | Some n => (take n p, drop (S n) p) end.
Proof.
  unfold splitParent. destruct (lastIndexOf_text p d) as [n|]; [|done].
  rewrite slice_prefix. replace (Z.of_nat n + 1)%Z with (Z.of_nat (S n)) by lia. by rewrite slice_from_drop.
Qed.

(** The parent of a path is shorter: the recursion along the ancestors ends. *)
Lemma splitParent_shorter p d : d ≠ [] → p ≠ [] → length (splitParent p d).1 < length p.
Proof.
  intros Hd Hp. rewrite splitParent_take. destruct (lastIndexOf_text p d) as [n|] eqn:E; simpl.
  - apply lastIndexOf_text_Some in E as [Hn Hs]. destruct (decide (n = length p)) as [->|].
    + rewrite drop_all in Hs. by destruct d.
    + rewrite length_take. lia.
  - destruct p; [done|simpl; lia].
Qed.

(** With a delimiter of one character a path is its parent, the delimiter and a name without it;
    a path without the delimiter is a name without a parent. *)
Theorem splitParent_roundtrip p c parent name :
  splitParent p [c] = (parent, name) →
  ¬ c ∈ name ∧ (p = (parent ++ c :: name) ∨ (parent = [] ∧ p = name)).
Proof.
  rewrite splitParent_take, lastIndexOf_text_one. destruct (lastIndexOf p c) as [n|] eqn:E; intros [= <- <-].
  - revert n E. induction p as [|a p IH]; intros n; simpl; [done|].
    destruct (lastIndexOf p c) as [m|] eqn:Ep.
    + intros [= <-]. destruct (IH m eq_refl) as [H1 [H2|[H2 H3]]]; (split; [done|left]).
      * simpl. f_equal. exact H2.
      * apply (f_equal length) in H3. rewrite length_drop in H3.
        destruct p; [done|simpl in H3; lia].
    + case_decide as Ha; [|done]. intros [= <-]. apply lastIndexOf_None in Ep. subst a. by split; [|left].
  - apply lastIndexOf_None in E. by split; [|right].
Qed.

(** ** The chain of parents *)

Section Chain.
Context (jsonb_out : jsval → jsstr) (slugify : jsstr → jsstr) (new_id : MailDb → jsstr).

Lemma findLocalByPath_eq i p s : findLocalByPath jsonb_out i p s = (s, Done (mailbox_at jsonb_out i p s)).
Proof. done. Qed.

(** More fuel than the path is long changes nothing. *)
Lemma parent_chain_fuel d n k identity p m s :
  d ≠ [] → length p < n → length p < k →
  parent_chain jsonb_out slugify new_id n identity p d m s = parent_chain jsonb_out slugify new_id k identity p d m s.
Proof.
  intros Hd. revert k p m s. induction n as [|n IH]; intros k p m s Hn Hk; [lia|]. destruct k as [|k]; [lia|].
  cbn [parent_chain]. destruct p as [|a p]; [done|]. cbn [truthy negb].
  destruct (_ ≫= or_undefined); [done|]. rewrite !(bind_run _ _ _ _ _ (findLocalByPath_eq _ _ _)).
  destruct (mailbox_at _ _ _ _) as [row|]; [done|].
  pose proof (splitParent_shorter (a :: p) d Hd ltac:(done)) as Hlt.
  destruct (splitParent (a :: p) d) as [pp2 name]. cbn [fst] in Hlt. simpl in Hlt, Hn, Hk.
  unfold mbind, proc_bind. rewrite (IH k) by lia. done.
Qed.

(** The chain of parents ends: with a delimiter that is not empty [ensureParentChain] satisfies the
    equation of the code, whose recursive call is for the parent's path. *)
Theorem ensureParentChain_eq identity p d m s :
  d ≠ [] →
  ensureParentChain jsonb_out slugify new_id identity p d m s =
  (if negb (truthy p) then mret (None, m) else
   match jm_get p m ≫= or_undefined with
   | Some cached => mret (Some cached, m)
   | None =>
       existing ← findLocalByPath jsonb_out (id_id identity) p;
       match existing with
       | Some row => mret (Some (mb_id row), jm_set p (mb_id row) m)
       | None =>
           let '(pp2, name) := splitParent p d in
           '(grandId, m) ← ensureParentChain jsonb_out slugify new_id identity pp2 d m;
           s ← read;
           let row := parent_row slugify identity (new_id s) grandId p name pp2 d in
           _ ← insert_mailbox row;
           mret (Some (mb_id row), jm_set p (mb_id row) m)
       end
   end) s.
Proof.
  intros Hd. unfold ensureParentChain at 1. cbn [parent_chain]. destruct p as [|a p]; [done|]. cbn [truthy negb].
  destruct (_ ≫= or_undefined); [done|]. rewrite !(bind_run _ _ _ _ _ (findLocalByPath_eq _ _ _)).
  destruct (mailbox_at _ _ _ _) as [row|]; [done|].
  pose proof (splitParent_shorter (a :: p) d Hd ltac:(done)) as Hlt.
  destruct (splitParent (a :: p) d) as [pp2 name]. cbn [fst] in Hlt.
  unfold ensureParentChain, mbind, proc_bind. rewrite (parent_chain_fuel d _ (S (length pp2))) by (done || lia). done.
Qed.
End Chain.

(** ** The forest of an identity *)

Section Forest.
Context `{ImapServer} (clock : nat → Z) (jsonb_out : jsval → jsstr).
Context (slugify : jsstr → jsstr) (new_id : MailDb → jsstr).
Context (i : jsstr).

(** The path of a row as the database reads it, and an entry of its [imap] object. *)
Definition path_text (r : MailboxRow) : option jsstr :=
  json_text jsonb_out (get_prop (imap_of (mb_metaData r)) "path"%js).
Definition imap_prop (name : jsstr) (r : MailboxRow) : jsval := get_prop (imap_of (mb_metaData r)) name.

(** A row of the identity with that path. *)
Definition at_path (p : jsstr) (s : MailDb) (r : MailboxRow) : Prop :=
  r ∈ mailboxes s ∧ mb_identityId r = i ∧ path_text r = Some p.

(** The row has a parent path. *)
Definition below (pp : jsstr) (r : MailboxRow) : Prop := imap_prop "parentPath"%js r = VStr pp ∧ pp ≠ [].

(** The parent of a row is the mailbox at its [parentPath], which is shorter than its path; without a
    [parentPath] it has none. *)
Definition placed (s : MailDb) (r : MailboxRow) : Prop :=
  (∀ pp, below pp r → (∃ r', at_path pp s r' ∧ mb_parentId r = Some (mb_id r')) ∧
                      (∃ p, path_text r = Some p ∧ length pp < length p)) ∧
  ((∀ pp, ¬ below pp r) → mb_parentId r = None).

(** The invariant. *)
Definition forest (s : MailDb) : Prop :=
  NoDup (map mb_id (mailboxes s)) ∧ ∀ r, r ∈ mailboxes s → mb_identityId r = i → placed s r.

(** The same mailbox at the same place. *)
Definition same_place (r r' : MailboxRow) : Prop :=
  mb_id r' = mb_id r ∧ mb_identityId r' = mb_identityId r ∧ path_text r' = path_text r ∧
  ∀ p, local_path r = Some p → local_path r' = Some p.

Definition others (s : MailDb) : list MailboxRow := filter (λ r, mb_identityId r ≠ i) (mailboxes s).

(** What a discovery may do to the tables. *)
Definition discovers (s s' : MailDb) : Prop :=
  same_tables s s' ∧ others s' = others s ∧
  (∀ r, r ∈ mailboxes s → ∃ r', r' ∈ mailboxes s' ∧ same_place r r') ∧
  mailboxSync s `prefix_of` mailboxSync s'.

#[local] Instance same_place_preorder : PreOrder same_place.
Proof.
  split; unfold same_place; [done|]. intros r1 r2 r3 (H1 & H2 & H3 & H4) (G1 & G2 & G3 & G4).
  split_and!; [congruence..|auto].
Qed.

#[export] Instance discovers_preorder : PreOrder discovers.
Proof.
  split.
  - intros s. repeat split; [|done]. intros r Hr. by exists r.
  - intros s1 s2 s3 (H1 & H2 & H3 & H4) (G1 & G2 & G3 & G4). split_and!; [by trans s2|congruence| |by etrans].
    intros r Hr. destruct (H3 r Hr) as (r2 & Hr2 & E2). destruct (G3 r2 Hr2) as (r3 & Hr3 & E3).
    exists r3. split; [done|by trans r2].
Qed.

Lemma at_path_keeps p s s' r : discovers s s' → at_path p s r → ∃ r', at_path p s' r' ∧ mb_id r' = mb_id r.
Proof.
  intros (_ & _ & Hk & _) (Hr & Hi & Hp). destruct (Hk r Hr) as (r' & Hr' & (E1 & E2 & E3 & _)).
  exists r'. split; [|done]. split_and!; [done|congruence..].
Qed.

Lemma placed_keeps s s' r : discovers s s' → placed s r → placed s' r.
Proof.
  intros Hd [Hr Htop]. split; [|done]. intros pp Hpp. destruct (Hr pp Hpp) as [(r1 & H1 & E1) Hlt]. split; [|done].
  destruct (at_path_keeps pp s s' r1 Hd H1) as (r2 & H2 & E2). exists r2. split; [done|congruence].
Qed.

Lemma same_boxes_discovers s s' : same_boxes s s' → discovers s s'.
Proof.
  intros (H1 & H2 & H3). unfold discovers, others. rewrite H2, H3. split_and!; [done|done| |done].
  intros r Hr. by exists r.
Qed.

Lemma same_boxes_forest s s' : same_boxes s s' → forest s → forest s'.
Proof.
  intros Hs. pose proof (same_boxes_discovers s s' Hs) as Hd. destruct Hs as (_ & E & _).
  unfold forest. rewrite E. intros [Hn Hp]. split; [done|]. intros r Hr Hi. by eapply placed_keeps; [exact Hd|apply Hp].
Qed.

Abbreviation finds := (achieves discovers forest).

Definition finds_ret {A} := achieves_ret (A := A) discovers forest.
Definition finds_throw {A} := achieves_throw (A := A) discovers forest.
Definition finds_bind {A B} := achieves_bind (A := A) (B := B) discovers forest.
Definition finds_catch {A} := achieves_catch (A := A) discovers forest.

(** Commands, the clock and the like. *)
Lemma finds_quiet {A} (p : proc A) s :
  steps same_boxes p → forest s → finds p s (λ _ s', same_boxes s s').
Proof.
  intros Hp Hs. specialize (Hp s). split; [by apply same_boxes_discovers|]. split; [by eapply same_boxes_forest|].
  by destruct (p s).2.
Qed.

(** Rows are added at the end. *)
Lemma append_discovers row s :
  mb_identityId row = i → discovers s (set_mailboxes (λ l, l ++ [row]) s).
Proof.
  intros Hi. unfold discovers, others. simpl. split_and!; [done| |..].
  - rewrite filter_app, filter_cons_False, filter_nil, app_nil_r by (intros Hne; by apply Hne). done.
  - intros r Hr. exists r. split; [set_solver|done].
  - done.
Qed.

Lemma append_forest row s :
  mb_identityId row = i → mb_id row ∉ map mb_id (mailboxes s) → placed s row → forest s →
  forest (set_mailboxes (λ l, l ++ [row]) s).
Proof.
  intros Hi Hid Hp [Hn Hf]. pose proof (append_discovers row s Hi) as Hd. split.
  - simpl. rewrite map_app, NoDup_app. simpl. split; [done|]. split; [set_solver|apply NoDup_singleton].
  - simpl. intros r [Hr| ->%list_elem_of_singleton]%elem_of_app Hr'; eapply placed_keeps; eauto.
Qed.

Lemma finds_insert_mailbox row s :
  forest s → mb_identityId row = i → placed s row →
  finds (insert_mailbox row) s (λ _ s', row ∈ mailboxes s' ∧ mailboxSync s' = mailboxSync s).
Proof.
  intros Hs Hi Hp. destruct (insert_mailbox row s) as [s' [[]|]] eqn:E.
  - apply insert_mailbox_Done in E as E'. destruct E' as (-> & Hid & _). unfold achieves. rewrite E. simpl.
    split; [by apply append_discovers|]. split; [by apply append_forest|]. split; [set_solver|done].
  - unfold achieves. rewrite E. simpl. assert (s' = s) as ->; [|by split].
    revert E. unfold insert_mailbox. unfold_proc. by destruct (_ || _); intros [=].
Qed.

Lemma finds_insert_sync row s :
  forest s → finds (insert_sync row) s (λ _ s', sy_mailboxId row ∈ map sy_mailboxId (mailboxSync s') ∧
                                                mailboxes s' = mailboxes s).
Proof.
  intros Hs. unfold achieves, insert_sync. unfold_proc. case_bool_decide; simpl; [done|].
  assert (discovers s (set_mailboxSync (λ l, l ++ [row]) s)) as Hd.
  { split_and!; [done..| |by apply prefix_app_r]. intros r Hr. by exists r. }
  split; [done|]. split.
  - destruct Hs as [Hn Hf]. split; [done|]. intros r Hr Hi. eapply placed_keeps; [exact Hd|by apply Hf].
  - split; [|done]. rewrite map_app. set_solver.
Qed.

(** ** The operations *)

Lemma imap_of_set v fs : imap_of (Some (jm_set "imap"%js v fs)) = v.
Proof. unfold imap_of, get_prop. by rewrite jm_get_set_eq. Qed.

Lemma mailbox_at_path p s r : mailbox_at jsonb_out i p s = Some r → at_path p s r.
Proof.
  unfold mailbox_at. intros [Hr%list_elem_of_In Hk]%List.find_some. bool_to_prop. by split_and!.
Qed.

(** The map of the loop refers to rows of the identity. *)
Definition mapped (m : PathIdMap) (s : MailDb) : Prop :=
  ∀ p id, jm_get p m = Some id → ∃ r, at_path p s r ∧ mb_id r = id.

Lemma mapped_keeps m s s' : discovers s s' → mapped m s → mapped m s'.
Proof.
  intros Hd Hm p id Hp. destruct (Hm p id Hp) as (r & Hr & <-).
  by destruct (at_path_keeps p s s' r Hd Hr) as (r' & ? & ?); exists r'.
Qed.

Lemma mapped_set p m s r : at_path p s r → mapped m s → mapped (jm_set p (mb_id r) m) s.
Proof.
  intros Hr Hm q id. rewrite jm_get_set. case_decide as E; [subst q|by apply Hm]. intros [= <-]. by exists r.
Qed.

Lemma finds_parent_chain n identity pp d m s :
  id_id identity = i → d ≠ [] → forest s → mapped m s →
  finds (parent_chain jsonb_out slugify new_id n identity pp d m) s
    (λ o s', ((pp ≠ [] → ∃ r, at_path pp s' r ∧ o.1 = Some (mb_id r)) ∧ (pp = [] → o.1 = None)) ∧ mapped o.2 s').
Proof.
  intros Hi Hd. revert pp m s. induction n as [|n IH]; intros pp m s Hs Hm; [by apply finds_throw|].
  cbn [parent_chain]. destruct pp as [|a pp]; [by apply finds_ret|]. cbn [truthy negb].
  destruct (jm_get (a :: pp) m ≫= or_undefined) as [id|] eqn:Ec.
  { apply finds_ret; try done. split; [|done]. split; [|done]. intros _. apply bind_Some in Ec as (id' & Hid & Ho).
    destruct (Hm _ _ Hid) as (r & Hr & <-). exists r. split; [done|]. simpl. revert Ho. unfold or_undefined.
    by destruct (truthy (mb_id r)); intros [= <-]. }
  apply achieves_read. rewrite Hi. destruct (mailbox_at jsonb_out i (a :: pp) s) as [r|] eqn:Er.
  { apply mailbox_at_path in Er. apply finds_ret; try done. split; [split; [intros _; by exists r|done]|by apply mapped_set]. }
  pose proof (splitParent_shorter (a :: pp) d Hd ltac:(done)) as Hlt.
  destruct (splitParent (a :: pp) d) as [pp2 name]. cbn [fst] in Hlt.
  eapply finds_bind; [by apply IH|]. intros [grandId m'] s1 Hd1 Hs1 [[Hg Htop] Hm1]. cbn [fst snd] in *.
  apply achieves_read. set (row := parent_row _ _ _ _ _ _ _ _).
  eapply finds_bind; [apply finds_insert_mailbox; try done|].
  - split.
    + intros q [[= <-] Hq]. destruct (Hg Hq) as (r & Hr & ->). split; [by exists r|]. by exists (a :: pp).
    + intros Hn. apply Htop. destruct (decide (pp2 = [])) as [?|Hne]; [done|]. by destruct (Hn pp2).
  - intros [] s2 Hd2 Hs2 [Hin _]. assert (at_path (a :: pp) s2 row) as Hrow by by split_and!.
    apply finds_ret; [done|]. split; [split; [intros _; by exists row|done]|]. apply mapped_set; [done|].
    by eapply mapped_keeps.
Qed.

Lemma filter_update_outside {A} (P : A → Prop) `{!∀ x, Decision (P x)} p (f : A → A) rows :
  (∀ r, r ∈ rows → p r = true → ¬ P r ∧ ¬ P (f r)) → filter P (update_where p f rows) = filter P rows.
Proof.
  intros Hp. induction rows as [|r rows IH]; [done|]. simpl. rewrite !filter_cons, IH by set_solver.
  destruct (p r) eqn:E; [|done]. destruct (Hp r ltac:(set_solver) E). by rewrite !decide_False.
Qed.

Lemma finds_update_mailbox row f s :
  forest s → row ∈ mailboxes s → mb_identityId row = i → same_place row (f row) → placed s (f row) →
  finds (update_mailbox (mb_id row) f) s (λ _ s', f row ∈ mailboxes s' ∧ mailboxSync s' = mailboxSync s).
Proof.
  intros [Hn Hf] Hrow Hi Hsame Hp. pose proof Hsame as (E1 & E2 & _ & _).
  assert (∀ r, r ∈ mailboxes s → mb_id r = mb_id row → r = row) as Huniq.
  { intros r Hr Er. by apply (NoDup_map_inj mb_id (mailboxes s)). }
  unfold update_mailbox. apply achieves_read. set (rows := update_where _ _ _).
  destruct (forallb _ rows); [|by apply finds_throw].
  assert (∀ r', r' ∈ rows → r' = f row ∨ r' ∈ mailboxes s ∧ mb_id r' ≠ mb_id row) as Hrows.
  { intros r' (r & -> & Hr)%list_elem_of_fmap. case_bool_decide as E; [left|by right]. by rewrite (Huniq r Hr E). }
  assert (map mb_id rows = map mb_id (mailboxes s)) as Hids.
  { unfold rows, update_where. rewrite map_map. apply map_ext_in. intros r Hr%list_elem_of_In.
    case_bool_decide as E; [|done]. by rewrite (Huniq r Hr E). }
  assert (∀ r, r ∈ mailboxes s → ∃ r', r' ∈ rows ∧ same_place r r') as Hkeep.
  { intros r Hr. eexists. split; [by apply list_elem_of_fmap_2|]. case_bool_decide as E; [|done].
    by rewrite (Huniq r Hr E). }
  assert (discovers s (set_mailboxes (λ _, rows) s)) as Hd.
  { split_and!; [done| |done|done]. apply filter_update_outside. intros r Hr E%bool_decide_eq_true.
    rewrite (Huniq r Hr E). split; intros Hne; apply Hne; congruence. }
  unfold unique. case_bool_decide; [|by apply finds_throw].
  apply achieves_modify; [done| |].
  - split; [simpl; by rewrite Hids|]. simpl. intros r' Hr' Hi'. eapply placed_keeps; [exact Hd|].
    destruct (Hrows r' Hr') as [->|[Hr _]]; [done|by apply Hf].
  - split; [|done]. simpl. apply list_elem_of_fmap. exists row. by rewrite bool_decide_true.
Qed.

Lemma finds_open_sync c b path s :
  forest s → finds (open_sync clock new_id c i b path) s
    (λ _ s', b ∈ map sy_mailboxId (mailboxSync s') ∧ mailboxes s' = mailboxes s).
Proof.
  intros Hs. unfold open_sync. eapply finds_bind; [by apply finds_quiet|]. intros [] s1 _ Hs1 (_ & E1 & _).
  apply achieves_read. eapply finds_bind; [by apply finds_quiet|]. intros now s2 _ Hs2 (_ & E2 & _).
  eapply achieves_weaken; [by apply finds_insert_sync|]. intros [] s3 _ _ [Hb E3]. split; [done|congruence].
Qed.

(** The folder has a row and is synchronised. *)
Definition recorded (path : jsstr) (s : MailDb) : Prop :=
  ∃ r, at_path path s r ∧ mb_id r ∈ map sy_mailboxId (mailboxSync s).

Lemma recorded_keeps path s s' : discovers s s' → recorded path s → recorded path s'.
Proof.
  intros Hd (r & Hr & Hb). destruct (at_path_keeps path s s' r Hd Hr) as (r' & Hr' & E). exists r'.
  split; [done|]. rewrite E. destruct Hd as (_ & _ & _ & [l ->]). rewrite map_app. set_solver.
Qed.

Lemma delimiter_nonempty o : opt_or o "/"%js ≠ [].
Proof. destruct o as [[|a d]|]; done. Qed.

(** The row a folder gets lies below its parent. *)
Lemma box_placed s r mbx old name pp parentId path0 :
  mb_metaData r = Some (box_meta old mbx name pp (opt_or (bx_delimiter mbx) "/"%js) true) →
  mb_parentId r = parentId →
  (pp ≠ [] → ∃ r, at_path pp s r ∧ parentId = Some (mb_id r)) ∧ (pp = [] → parentId = None) →
  pp = [] ∨ splitParent (bx_path mbx) (opt_or (bx_delimiter mbx) "/"%js) = (pp, path0) →
  placed s r ∧ path_text r = Some (bx_path mbx).
Proof.
  intros Hm Hpar [Hat Htop] Hpp. unfold placed, below, path_text, imap_prop. rewrite Hm. unfold box_meta.
  rewrite imap_of_set. split; [|done].
  split; [|intros Hn; rewrite Hpar; apply Htop; destruct (decide (pp = [])) as [?|Hne]; [done|]; by destruct (Hn pp)].
  intros q [[= <-] Hq]. destruct (Hat Hq) as (r' & Hr' & E). split; [exists r'; by rewrite Hpar|].
  exists (bx_path mbx). split; [done|]. destruct Hpp as [->|Hpp]; [done|].
  pose proof (splitParent_shorter (bx_path mbx) _ (delimiter_nonempty (bx_delimiter mbx))) as Hlt.
  rewrite Hpp in Hlt. apply Hlt. intros E0. rewrite E0 in Hpp. unfold splitParent in Hpp.
  destruct (opt_or _ _) eqn:Eo; [by destruct (delimiter_nonempty (bx_delimiter mbx))|]. simpl in Hpp. congruence.
Qed.

Lemma finds_discover_box identity locals isGmail c m mbx s :
  id_id identity = i → "\Noselect"%js ∉ bx_flags mbx → forest s → mapped m s →
  finds (discover_box clock jsonb_out slugify new_id identity locals isGmail c m mbx) s
    (λ m' s', mapped m' s' ∧ recorded (bx_path mbx) s').
Proof.
  intros Hi Hsel Hs Hm. unfold discover_box. rewrite (bool_decide_false _ Hsel). cbn [negb].
  set (d := opt_or _ _). destruct (splitParent (bx_path mbx) d) as [pp0 name] eqn:Esp.
  set (pp := if isGmail && _ then _ else pp0).
  assert (pp = [] ∨ splitParent (bx_path mbx) d = (pp, name)) as Hpp by (unfold pp; case_match; auto).
  eapply finds_bind; [by apply finds_parent_chain; [|apply delimiter_nonempty|..]|].
  intros [parentId m'] s1 _ Hs1 [Hpar Hm']. cbn [fst snd] in *.
  set (meta := box_meta _ _ _ _ _ _). apply achieves_read. rewrite Hi.
  destruct (mailbox_at jsonb_out i (bx_path mbx) s1) as [row|] eqn:Erow.
  - apply mailbox_at_path in Erow as (Hrow & Hri & Hrp).
    eapply finds_bind; [by apply finds_quiet|]. intros now s2 Hd2 Hs2 Hsame.
    assert (mailboxes s2 = mailboxes s1) as E2 by apply Hsame.
    set (f := with_place _ _ _ _).
    destruct (box_placed s2 (f row) mbx _ name pp parentId name eq_refl eq_refl) as [Hpl Hpt]; [|done|].
    { split; [|apply Hpar]. intros Hne. destruct (proj1 Hpar Hne) as (r & Hr & Er).
      destruct (at_path_keeps pp s1 s2 r Hd2 Hr) as (r' & Hr' & E'). exists r'. split; [done|congruence]. }
    assert (same_place row (f row)) as Hsp.
    { split_and!; [done..|congruence|]. intros p Hp. unfold local_path in *. cbn [f with_place mb_metaData].
      unfold meta, box_meta. rewrite imap_of_set. unfold path_text in Hrp.
      destruct (get_prop (imap_of (mb_metaData row)) "path"%js); try done. simpl in Hrp. by injection Hrp as ->. }
    eapply finds_bind; [apply finds_update_mailbox; try done; by rewrite E2|].
    intros [] s3 Hd3 Hs3 [Hin E3]. apply achieves_read.
    assert (at_path (bx_path mbx) s3 (f row)) as Hat by by split_and!.
    apply (finds_bind _ _ _
      (λ _ s', mailboxes s' = mailboxes s3 ∧ mb_id row ∈ map sy_mailboxId (mailboxSync s'))).
    + case_bool_decide as Hb; cbn [andb negb]; [by apply finds_ret|].
      eapply achieves_weaken; [by apply finds_open_sync|]. by intros [] s4 _ _ [].
    + intros [] s4 Hd4 Hs4 [E4 Hb4]. apply finds_ret; [done|]. split.
      * eapply mapped_keeps; [|exact Hm']. etrans; [exact Hd2|]. by etrans.
      * exists (f row). split; [|done]. destruct Hat as (? & ? & ?). split_and!; [by rewrite E4|done..].
  - apply achieves_read. set (row := box_row _ _ _ _ _ _ _).
    destruct (box_placed s1 row mbx _ name pp parentId name eq_refl eq_refl Hpar Hpp) as [Hpl Hpt].
    eapply finds_bind; [by apply finds_insert_mailbox|]. intros [] s2 Hd2 Hs2 [Hin _].
    eapply finds_bind; [by apply finds_open_sync|]. intros [] s3 Hd3 Hs3 [Hb E3].
    assert (at_path (bx_path mbx) s3 row) as Hat by by split_and!; [rewrite E3|..].
    apply finds_ret; [done|]. split; [|by exists row]. apply mapped_set; [done|].
    eapply mapped_keeps; [|exact Hm']. by etrans.
Qed.

Lemma finds_discover_boxes identity locals isGmail c boxes m s :
  id_id identity = i → Forall (λ b, "\Noselect"%js ∉ bx_flags b) boxes → forest s → mapped m s →
  finds (discover_boxes clock jsonb_out slugify new_id identity locals isGmail c m boxes) s
    (λ _ s', Forall (λ b, recorded (bx_path b) s') boxes).
Proof.
  intros Hi Hb. revert m s. induction Hb as [|b boxes Hb _ IH]; intros m s Hs Hm; cbn [discover_boxes].
  { by apply finds_ret. }
  eapply finds_bind; [by apply finds_discover_box|]. intros m1 s1 _ Hs1 [Hm1 Hr1].
  eapply achieves_weaken; [by apply IH|]. intros [] s2 Hd2 _ Hall. constructor; [by eapply recorded_keeps|done].
Qed.

Lemma path_ids_mapped s l : (∀ r, r ∈ l → r ∈ mailboxes s ∧ mb_identityId r = i) → mapped (path_ids l) s.
Proof.
  intros Hl. unfold path_ids. assert (mapped [] s) as H0 by done. revert H0. generalize ([] : PathIdMap).
  induction l as [|r l IH]; intros m Hm; [done|]. simpl. apply IH; [set_solver|].
  destruct (local_path r) as [p|] eqn:Ep; [|done]. apply mapped_set; [|done].
  destruct (Hl r ltac:(set_solver)). split_and!; [done..|]. unfold local_path, path_text in *.
  destruct (get_prop _ _); try done. simpl. unfold or_undefined in Ep. by destruct (truthy _).
Qed.

(** ** Folders that are gone, and the trash *)

Lemma set_unselectable_prop meta meta' k :
  set_unselectable meta = Some meta' → k ≠ "selectable"%js →
  get_prop (imap_of (Some meta')) k = get_prop (imap_of meta) k.
Proof.
  unfold set_unselectable. intros Hm Hk.
  assert (imap_of meta = get_prop (VObj (default [] meta)) "imap"%js) as -> by by destruct meta.
  cbn [get_prop]. destruct (jm_get "imap"%js (default [] meta)) as [v|] eqn:Ei.
  - destruct v; simplify_eq; rewrite ?imap_of_set; unfold imap_of; cbn [get_prop]; rewrite ?Ei; try done.
    cbn. by rewrite jm_get_set_ne.
  - simplify_eq. unfold imap_of. cbn [get_prop]. by rewrite Ei.
Qed.

Lemma set_unselectable_done meta meta' p :
  set_unselectable meta = Some meta' → get_prop (imap_of meta) "path"%js = VStr p →
  get_prop (imap_of (Some meta')) "selectable"%js = VBool false.
Proof.
  unfold set_unselectable.
  assert (imap_of meta = get_prop (VObj (default [] meta)) "imap"%js) as -> by by destruct meta.
  cbn [get_prop]. destruct (jm_get "imap"%js (default [] meta)) as [v|]; [|done].
  destruct v; try done. intros [= <-] _. rewrite imap_of_set. cbn [get_prop]. by rewrite jm_get_set_eq.
Qed.

Lemma local_path_prop r p : local_path r = Some p → imap_prop "path"%js r = VStr p ∧ truthy p = true.
Proof.
  unfold local_path, imap_prop. destruct (get_prop _ _); try done. unfold or_undefined.
  destruct (truthy _) eqn:E; [|done]. by intros [= <-].
Qed.

(** A row and what a change of [metaData] outside [path] and [parentPath] makes of it. *)
Definition remarked (r r' : MailboxRow) : Prop :=
  mb_id r' = mb_id r ∧ mb_identityId r' = mb_identityId r ∧ mb_parentId r' = mb_parentId r ∧
  (∀ k, k ≠ "selectable"%js → imap_prop k r' = imap_prop k r) ∧ (mb_identityId r ≠ i → r' = r).

Lemma remarked_same_place r r' : remarked r r' → same_place r r'.
Proof.
  intros (H1 & H2 & _ & H4 & _). specialize (H4 "path"%js ltac:(done)).
  unfold same_place, path_text, local_path. unfold imap_prop in H4. by rewrite H4.
Qed.

Lemma remarked_rows s rows :
  Forall2 remarked (mailboxes s) rows → forest s →
  discovers s (set_mailboxes (λ _, rows) s) ∧ forest (set_mailboxes (λ _, rows) s).
Proof.
  intros Hr [Hn Hf]. assert (discovers s (set_mailboxes (λ _, rows) s)) as Hd.
  { split_and!; [done| |intros r Hin|done]; cbn [mailboxes set_mailboxes].
    - unfold others. simpl. clear Hn Hf. induction Hr as [|r r' l l' (_ & Ei & _ & _ & Eq) _ IH]; [done|].
      rewrite !filter_cons, IH, Ei. case_decide; [|done]. by rewrite Eq.
    - apply list_elem_of_lookup in Hin as [k Hk]. destruct (Forall2_lookup_l _ _ _ _ _ Hr Hk) as (r' & Hk' & Hrr).
      exists r'. split; [by eapply list_elem_of_lookup_2|by apply remarked_same_place]. }
  split; [done|]. split.
  - simpl. replace (map mb_id rows) with (map mb_id (mailboxes s)); [done|]. clear -Hr.
    induction Hr as [|r r' l l' (E & _) _ IH]; [done|]. simpl. by rewrite IH, E.
  - simpl. intros r' [k Hk']%list_elem_of_lookup Hi.
    destruct (Forall2_lookup_r _ _ _ _ _ Hr Hk') as (r & Hk & Hrr). pose proof Hrr as (E1 & E2 & E3 & E4 & _).
    assert (placed s r) as Hp by (apply Hf; [by eapply list_elem_of_lookup_2|congruence]).
    eapply placed_keeps in Hp; [|exact Hd]. destruct (remarked_same_place _ _ Hrr) as (_ & _ & E5 & _).
    unfold placed, below. rewrite E4, E3, E5 by done. exact Hp.
Qed.

Lemma Forall2_impl_elem {A B} (P Q : A → B → Prop) l k :
  Forall2 P l k → (∀ x y, x ∈ l → P x y → Q x y) → Forall2 Q l k.
Proof. induction 1 as [|x y l k Hxy _ IH]; intros Hpq; constructor; [apply Hpq; set_solver|apply IH; set_solver]. Qed.

(** The rows of the identity whose path is not among [touched] cannot be selected. *)
Definition unselected (touched : list jsstr) (r : MailboxRow) : Prop :=
  ∀ p, local_path r = Some p → p ∉ touched → imap_prop "selectable"%js r = VBool false.

Lemma finds_mark_vanished touched s :
  forest s → finds (mark_vanished clock i touched) s
    (λ _ s', ∀ r, r ∈ mailboxes s' → mb_identityId r = i → unselected touched r).
Proof.
  intros Hs. unfold mark_vanished. apply achieves_read.
  assert (∀ r p, mb_identityId r = i → local_path r = Some p → p ∉ touched → vanished i touched r = true) as Hv.
  { intros r p Hi [Hp Ht]%local_path_prop Hn. unfold vanished. unfold imap_prop in Hp. rewrite Hp. simpl.
    by rewrite bool_decide_true, Ht, bool_decide_false. }
  destruct (filter _ (mailboxes s)) as [|g gs] eqn:Eg.
  { apply finds_ret; [done|]. intros r Hr Hi p Hp Hn. exfalso.
    assert (r ∈ []) as []%not_elem_of_nil. rewrite <- Eg. apply list_elem_of_filter. eauto. }
  eapply finds_bind; [by apply finds_quiet|]. intros now s1 _ Hs1 (_ & E1 & _). rewrite <- E1.
  set (gone := g :: gs) in *.
  destruct (mapM _ (mailboxes s1)) as [rows|] eqn:Em; [|by apply finds_throw]. apply mapM_Some_1 in Em.
  assert (∀ r, r ∈ mailboxes s1 → mb_id r ∈ map mb_id gone → r ∈ gone) as Hgone.
  { intros r Hr (r2 & E & H2)%list_elem_of_fmap. assert (r = r2) as ->; [|done].
    apply (NoDup_map_inj mb_id (mailboxes s1)); try done; [apply Hs1|].
    rewrite <- Eg in H2. apply list_elem_of_filter in H2. rewrite E1. apply H2. }
  assert (Forall2 (λ r r', remarked r r' ∧ (mb_identityId r = i → unselected touched r')) (mailboxes s1) rows) as Hall.
  { apply (Forall2_impl_elem _ _ _ _ Em). intros r r' Hr. cbn beta. case_bool_decide as Hin.
    - intros (meta & Hmeta & ->)%fmap_Some. split.
      + split_and!; [done..| |].
        * intros k Hk. by eapply set_unselectable_prop.
        * intros Hi. destruct Hi. apply Hgone in Hin; [|done]. rewrite <- Eg in Hin.
          apply list_elem_of_filter in Hin as [Hin _]. unfold vanished in Hin. by bool_to_prop.
      + intros Hi p [Hp _]%local_path_prop _. unfold imap_prop in Hp. cbn [with_meta mb_metaData] in Hp.
        rewrite (set_unselectable_prop _ _ _ Hmeta) in Hp by done. by eapply set_unselectable_done.
    - intros [= <-]. split; [done|]. intros Hi p Hp Hn. destruct Hin. apply list_elem_of_fmap.
      exists r. split; [done|]. rewrite <- Eg. apply list_elem_of_filter. rewrite <- E1. eauto. }
  destruct (remarked_rows s1 rows) as [Hd Hf]; [by eapply Forall2_impl; [exact Hall|intros ?? []]|done|].
  apply achieves_modify; [done..|]. simpl. intros r' [k Hk]%list_elem_of_lookup Hi.
  destruct (Forall2_lookup_r _ _ _ _ _ Hall Hk) as (r & _ & (_ & E & _) & Hu). apply Hu. congruence.
Qed.

(** Rows are only added. *)
Definition appends (s s' : MailDb) : Prop := mailboxes s `prefix_of` mailboxes s'.

#[local] Instance appends_preorder : PreOrder appends.
Proof. unfold appends. split; [intros s; reflexivity|]. intros s1 s2 s3. by etrans. Qed.

Lemma ensureTrashFolder_appends c identity :
  steps appends (ensureTrashFolder clock slugify new_id c identity).
Proof.
  assert (∀ c cmd, steps appends (send c cmd)) as Hsend by (intros ?? s; unfold appends; reflexivity).
  assert (∀ row, steps appends (modify (set_mailboxes (λ l, l ++ [row])))) as Hadd.
  { intros row s. by apply prefix_app_r. }
  assert (∀ f, steps appends (modify (set_mailboxSync f))) as Hsync by (intros f s; unfold appends; reflexivity).
  assert (steps appends (new_Date clock)) as Hdate by (intros s; unfold appends; reflexivity).
  assert (∀ names, steps appends (try_names clock slugify new_id c identity names)) as Htry.
  { induction names; cbn [try_names]; unfold create_trash, insert_mailbox_or_nothing, insert_sync; run_steps. }
  unfold ensureTrashFolder, local_trash, insert_mailbox. run_steps.
Qed.

Lemma trash_placed s identity id name slug path b :
  placed s (trash_row identity id name slug path b).
Proof. split; [intros pp [[= <-] Hpp]; done|done]. Qed.

Lemma finds_ensureTrashFolder c identity s :
  id_id identity = i → forest s →
  finds (ensureTrashFolder clock slugify new_id c identity) s (λ _ _, True).
Proof.
  intros Hi Hs. unfold ensureTrashFolder. eapply finds_bind; [by apply finds_quiet|]. intros [] s1 _ Hs1 _.
  apply achieves_read. destruct (_ || _); [by apply finds_ret|].
  assert (∀ names s, forest s → finds (try_names clock slugify new_id c identity names) s (λ _ _, True)) as Htry.
  { clear -Hi. intros names. induction names as [|name names IH]; intros s Hs; cbn [try_names]; [by apply finds_ret|].
    eapply (finds_bind _ _ _ (λ _ _, True)); [|by intros [] s1 _ Hs1 _; [apply finds_ret|apply IH]].
    apply (finds_catch _ _ _ (λ _ _, True)); [|by intros; apply finds_ret].
    eapply (finds_bind _ _ _ (λ _ _, True)); [|by intros; apply finds_ret]. unfold create_trash.
    eapply finds_bind; [by apply finds_quiet|]. intros [] s1 _ Hs1 _.
    eapply finds_bind; [by apply finds_quiet|]. intros [] s2 _ Hs2 _. apply achieves_read.
    apply (finds_bind _ _ _ (λ _ _, True)).
    - unfold insert_mailbox_or_nothing. apply achieves_read. destruct (conflicting _ _) eqn:Ec; [by apply finds_ret|].
      unfold conflicting in Ec. bool_to_prop.
      eapply (finds_bind _ _ _ (λ _ _, True)); [|by intros; apply finds_ret].
      apply achieves_modify; [by apply append_discovers| |done]. apply append_forest; try done. apply trash_placed.
    - intros [row|] s3 _ Hs3 _; [|by apply finds_ret]. apply achieves_read.
      eapply finds_bind; [by apply finds_quiet|]. intros now s4 _ Hs4 _.
      eapply achieves_weaken; [by apply finds_insert_sync|done]. }
  eapply finds_bind; [by apply Htry|]. intros [] s2 _ Hs2 _; [by apply finds_ret|].
  unfold local_trash. apply achieves_read. destruct (existsb _ _); [by apply finds_ret|].
  eapply achieves_weaken; [apply finds_insert_mailbox; try done; apply trash_placed|done].
Qed.

(** ** [discoverMailboxes] *)

(** What [client.list()] answers at the beginning. *)
Definition listed (c : nat) (s : MailDb) : list ImapBox :=
  list_boxes (imap s ++ [ {| client := c; command := ListBoxes; fulfilled := true |} ]) c.

(** Every folder that is to be synchronised is recorded, and the mailboxes of the others are
    marked. *)
Definition complete (c : nat) (s s' : MailDb) : Prop :=
  Forall (λ b, recorded (bx_path b) s') (synced_boxes (listed c s)) ∧
  ∀ r p, r ∈ mailboxes s → mb_identityId r = i → local_path r = Some p →
    p ∉ map bx_path (synced_boxes (listed c s)) →
    ∃ r', r' ∈ mailboxes s' ∧ same_place r r' ∧ imap_prop "selectable"%js r' = VBool false.

Lemma synced_selectable all : Forall (λ b, "\Noselect"%js ∉ bx_flags b) (synced_boxes all).
Proof.
  apply Forall_forall. intros b [_ Hb]%list_elem_of_In%List.filter_In. unfold shouldSyncBox in Hb.
  destruct (negb _); [done|]. by case_bool_decide.
Qed.

Lemma finds_discoverMailboxes c s :
  forest s →
  finds (discoverMailboxes clock jsonb_out slugify new_id c i) s
    (λ _ s', i ∈ map id_id (identities s) → complete c s s').
Proof.
  intros Hs. unfold discoverMailboxes. apply achieves_read.
  destruct (List.find _ (identities s)) as [identity|] eqn:Ef.
  2: { apply finds_ret; [done|]. intros (idr & -> & Hin)%list_elem_of_fmap. exfalso.
       pose proof (List.find_none _ _ Ef idr) as Hn. apply list_elem_of_In in Hin. specialize (Hn Hin).
       by apply bool_decide_eq_false in Hn. }
  apply List.find_some in Ef as [_ Hi%bool_decide_eq_true].
  set (s1 := set_imap (λ l, l ++ [ {| client := c; command := ListBoxes; fulfilled := true |} ]) s).
  apply (finds_bind _ _ _ (λ _ s', s' = s1)).
  { destruct (finds_quiet (send c ListBoxes) s) as (H1 & H2 & _); [done..|]. split; [done|]. split; [done|].
    unfold send, s1. by destruct (accepts _ _ _). }
  intros [] s1' _ Hs1 ->. apply achieves_read. change (list_boxes (imap s1) c) with (listed c s).
  set (boxes := synced_boxes (listed c s)).
  eapply finds_bind; [apply finds_discover_boxes; [done|apply synced_selectable|done|]|].
  { apply path_ids_mapped. intros r Hr. apply list_elem_of_filter in Hr as [Hr ?]. split; [done|congruence]. }
  intros [] s2 Hd2 Hs2 Hrec. rewrite Hi.
  eapply finds_bind; [by apply finds_mark_vanished|]. intros [] s3 Hd3 Hs3 Hun.
  eapply achieves_weaken; [apply achieves_steps; [apply ensureTrashFolder_appends|by apply finds_ensureTrashFolder]|].
  intros [] s4 Hd4 Hs4 [_ Happ] _. split.
  - eapply Forall_impl; [exact Hrec|]. intros b Hb. eapply recorded_keeps; [|exact Hb]. by trans s3.
  - intros r p Hr Hri Hp Hn. assert (discovers s s3) as (_ & _ & Hkeep & _).
    { trans s2; [|done]. trans s1; [by apply same_boxes_discovers|done]. }
    destruct (Hkeep r Hr) as (r' & Hr' & Hsame). exists r'. split; [|split; [done|]].
    + destruct Happ as [l ->]. set_solver.
    + destruct Hsame as (_ & Ei & _ & Hl). by apply (Hun r' Hr' ltac:(congruence) p); [apply Hl|].
Qed.

(** A mailbox of the identity and its parent. *)
Definition child_of (s : MailDb) (r r' : MailboxRow) : Prop :=
  r ∈ mailboxes s ∧ mb_identityId r = i ∧ r' ∈ mailboxes s ∧ mb_parentId r = Some (mb_id r').

(** On the way up the paths get shorter. *)
Lemma ancestor_shorter s r r' : forest s → tc (child_of s) r r' →
  mb_identityId r' = i ∧ ∃ p p', path_text r = Some p ∧ path_text r' = Some p' ∧ length p' < length p.
Proof.
  intros [Hn Hf]. assert (∀ x y, child_of s x y →
    mb_identityId y = i ∧ ∃ p p', path_text x = Some p ∧ path_text y = Some p' ∧ length p' < length p) as Hone.
  { intros x y (Hx & Hxi & Hy & Hpar). destruct (Hf x Hx Hxi) as [Hbelow Htop].
    destruct (imap_prop "parentPath"%js x) as [| | | |[|a pp]| |] eqn:E;
      try (rewrite Htop in Hpar; [done|intros q [Hq Hne]; unfold imap_prop in *; simplify_eq]; congruence).
    destruct (Hbelow (a :: pp)) as [(z & (Hz & Hzi & Hzp) & Ez) (p & Hp & Hlt)]; [by split|].
    assert (z = y) as -> by (apply (NoDup_map_inj mb_id (mailboxes s)); try done; congruence).
    split; [done|]. by exists p, (a :: pp). }
  induction 1 as [x y Hxy|x y z Hxy _ [IHi (p & p' & Hp & Hp' & IHl)]]; [by apply Hone|].
  destruct (Hone x y Hxy) as [_ (q & q' & Hq & Hq' & Hl)]. split; [done|]. exists q, p'. split_and!; [done..|].
  assert (q' = p) as -> by congruence. lia.
Qed.

(** C10: The folders of an identity form a forest that mirrors the paths of the server: a mailbox with a
    parentPath has the mailbox of the identity at that path as its parent, and this path is shorter
    than its own; a mailbox without a parentPath has no parent; so no mailbox is its own ancestor.
    Discovery keeps it so however it ends and whatever the server answers; it changes no mailbox of
    another identity, no stored mail, and never moves or removes a mailbox: each keeps its path. *)
Theorem discoverMailboxes_forest c s :
  forest s →
  let s' := (discoverMailboxes clock jsonb_out slugify new_id c i s).1 in
  forest s' ∧ discovers s s' ∧ ∀ r, ¬ tc (child_of s') r r.
Proof.
  intros Hs. destruct (finds_discoverMailboxes c s Hs) as (H1 & H2 & _). cbv zeta. split_and!; [done|done|].
  intros r Hr. destruct (ancestor_shorter _ _ _ H2 Hr) as [_ (p & p' & Hp & Hp' & Hlt)].
  assert (p = p') as -> by congruence. lia.
Qed.

Lemma discoverMailboxes_same b c : steps same_tables (discoverMailboxes clock jsonb_out slugify new_id c b).
Proof.
  assert (∀ A (x : option A), steps same_tables (or_throw x)) as Hor by by intros A [].
  assert (∀ A (keys : list A) (E : EqDecision A), steps same_tables (unique keys)) as Hun.
  { intros A keys E. unfold unique. run_steps. }
  assert (∀ n identity p d m, steps same_tables (parent_chain jsonb_out slugify new_id n identity p d m)) as Hch.
  { intros n identity. induction n as [|n IH]; intros p d m; cbn [parent_chain]; [auto with webmail|].
    unfold findLocalByPath, insert_mailbox. run_steps; by apply same_modify. }
  assert (∀ i b p, steps same_tables (open_sync clock new_id c i b p)) as Hopen.
  { intros. unfold open_sync, insert_sync. run_steps; by apply same_modify. }
  assert (∀ identity l g m mbx, steps same_tables (discover_box clock jsonb_out slugify new_id identity l g c m mbx)) as Hbox.
  { intros. unfold discover_box, ensureParentChain, findLocalByPath, insert_mailbox, update_mailbox.
    run_steps; by apply same_modify. }
  assert (∀ identity l g bs m, steps same_tables (discover_boxes clock jsonb_out slugify new_id identity l g c m bs)) as Hbs.
  { intros identity l g bs. induction bs; intros m; cbn [discover_boxes]; run_steps. }
  assert (∀ identity l, steps same_tables (try_names clock slugify new_id c identity l)) as Htry.
  { intros identity l. induction l; cbn [try_names]; [auto with webmail|].
    unfold create_trash, insert_mailbox_or_nothing, insert_sync. run_steps; by apply same_modify. }
  unfold discoverMailboxes, mark_vanished, ensureTrashFolder, local_trash, insert_mailbox. run_steps; by apply same_modify.
Qed.

(** C11: If discovery ends without an error it is complete: every folder the server lists that is to be
    synchronised has a mailbox of the identity and a row of [mailbox_sync], and the mailboxes whose
    folder is no longer among them cannot be selected. *)
Theorem discoverMailboxes_complete c s s' :
  forest s → i ∈ map id_id (identities s) →
  discoverMailboxes clock jsonb_out slugify new_id c i s = (s', Done tt) → complete c s s'.
Proof.
  intros Hs Hi E. destruct (finds_discoverMailboxes c s Hs) as (_ & _ & H3). rewrite E in H3. by apply H3.
Qed.
End Forest.

(** ** Concrete runs *)

Definition ex_folder (path name : jsstr) (flags : list jsstr) : ImapBox :=
  {| bx_path := path; bx_pathAsListed := None; bx_name := name; bx_delimiter := Some "/"%js; bx_specialUse := None;
     bx_flags := flags; bx_listed := true |}.

Definition listing_server (boxes : list ImapBox) : ImapServer := {|
  authenticated := λ _ _, true; usable := λ _ _, true; accepts := λ _ _ _, true; search_all := λ _ _, [];
  uidNext := λ _ _ _, Some 8%Z; uidValidity := λ _ _ _, 1%Z; fetched := λ _ _ _ _, ([], true);
  list_boxes := λ _ _, boxes; rejection := λ _ _ _, [] |}.

Definition ex_folders : list ImapBox :=
  [ex_folder "INBOX" "INBOX" []; ex_folder "Work" "Work" ["\Noselect"]; ex_folder "Work/Reports" "Reports" [];
   ex_folder "Trash" "Trash" []]%js.

(** An account of which nothing is known but a folder that is gone. *)
Definition ex_account : MailDb :=
  set_mailboxes (λ _, [ {| mb_id := "old"%js; mb_identityId := "i1"%js; mb_ownerId := "u1"%js; mb_parentId := None;
    mb_kind := "custom"%js; mb_name := Some "Gone"%js; mb_slug := Some "gone"%js; mb_isDefault := false;
    mb_metaData := Some (plain_meta (VStr "Gone"%js) "Gone" [] "/" [] true)%js |} ]) ImapSpecs.ex_store.

Definition folder_id (s : MailDb) : jsstr := "f"%js ++ nat_to_str (Z.of_nat (length (mailboxes s))).

Abbreviation ex_discover boxes :=
  (@discoverMailboxes (listing_server boxes) Z.of_nat js_to_string (λ s, s) folder_id 0 "i1"%js).

(** Path, parent, slug and kind of the rows. *)
Definition row_view (r : MailboxRow) : jsval * option jsstr * option jsstr * jsstr :=
  (imap_prop "path"%js r, mb_parentId r, mb_slug r, mb_kind r).

Lemma ex_discover_run :
  let r := ex_discover ex_folders ex_account in
  r.2 = Done tt ∧
  map row_view (mailboxes r.1) =
    [(VStr "Gone", None, Some "gone", "custom"); (VStr "INBOX", None, Some "inbox", "inbox");
     (VStr "Work", None, Some "Work", "custom"); (VStr "Work/Reports", Some "f2", Some "reports", "custom");
     (VStr "Trash", None, Some "trash", "trash")]%js ∧
  map (λ y, (sy_mailboxId y, backfillCursorUid y)) (mailboxSync r.1) = [("f1", 7%Z); ("f3", 7%Z); ("f4", 7%Z)]%js.
Proof. by vm_compute. Qed.

(** Discovering again changes the slug of a folder below another one. *)
Lemma second_discovery_renames :
  let s1 := (ex_discover ex_folders ex_account).1 in
  let s2 := (ex_discover ex_folders s1).1 in
  omap mb_slug (mailboxes s1) = ["gone"; "inbox"; "Work"; "reports"; "trash"]%js ∧
  omap mb_slug (mailboxes s2) = ["gone"; "inbox"; "Work"; "work/reports"; "trash"]%js.
Proof. by vm_compute. Qed.

(** Two folders with the same last name: the second violates the unique slug, discovery throws there
    every time, and the folders after it are never found. *)
Lemma same_name_blocks_discovery :
  let boxes := [ex_folder "Archive" "Archive" []; ex_folder "Work/Archive" "Archive" []; ex_folder "INBOX" "INBOX" []]%js in
  let r1 := ex_discover boxes ex_account in
  let r2 := ex_discover boxes r1.1 in
  r1.2 = Threw ∧ r2.2 = Threw ∧
  map (imap_prop "path"%js) (mailboxes r2.1) = [VStr "Gone"; VStr "Archive"; VStr "Work"]%js.
Proof. by vm_compute. Qed.

(** A folder listed before the one above it leaves that one with the kind custom for good. *)
Lemma late_parent_is_custom :
  let boxes := [ex_folder "INBOX/Work" "Work" []; ex_folder "INBOX" "INBOX" []]%js in
  let s' := (ex_discover boxes (ex_discover boxes ex_account).1).1 in
  map (λ r, (imap_prop "path"%js r, mb_kind r, mb_isDefault r)) (filter (λ r, mb_id r ≠ "old"%js) (mailboxes s')) =
    [(VStr "INBOX", "custom", false); (VStr "INBOX/Work", "custom", false); (VStr "Trash", "trash", false)]%js.
Proof. by vm_compute. Qed.

Lemma ex_account_forest : forest js_to_string "i1"%js ex_account.
Proof.
  split; [apply (bool_decide_unpack _); vm_compute; exact I|].
  intros r Hr Hi. apply list_elem_of_singleton in Hr as ->.
  split; [|by vm_compute]. intros pp [Hpp Hne]. destruct Hne.
  match type of Hpp with ?x = _ => assert (x = VStr []) as E by (vm_compute; reflexivity) end. congruence.
Qed.

Lemma splitParent_roundtrip_witness :
  splitParent "a/b/c"%js "/"%js = ("a/b", "c")%js ∧ "/"%char ∉ "c"%js.
Proof.
  split; [vm_compute; reflexivity|].
  exact (proj1 (splitParent_roundtrip "a/b/c"%js "/"%char "a/b"%js "c"%js ltac:(vm_compute; reflexivity))).
Defined.

Definition ex_owner : IdentityRow :=
  {| id_id := "i1"%js; id_ownerId := "u1"%js; id_publicId := "p1"%js; id_kind := "email"%js; smtpAccountId := None;
     id_metaData := None |}.

Lemma ensureParentChain_eq_witness :
  (ensureParentChain js_to_string (λ s, s) folder_id ex_owner "a/b"%js "/"%js [] ex_account).2 =
    Done (Some "f2"%js, [("a"%js, "f1"%js); ("a/b"%js, "f2"%js)]).
Proof. rewrite ensureParentChain_eq; [vm_compute; reflexivity|done]. Defined.

Lemma discoverMailboxes_forest_witness :
  forest js_to_string "i1"%js (ex_discover ex_folders ex_account).1 ∧
  length (mailboxes (ex_discover ex_folders ex_account).1) = 5.
Proof.
  split; [|vm_compute; reflexivity].
  exact (proj1 (@discoverMailboxes_forest (listing_server ex_folders) Z.of_nat js_to_string (λ s, s) folder_id "i1"%js 0
    ex_account ex_account_forest)).
Defined.

Lemma discoverMailboxes_complete_witness :
  @complete (listing_server ex_folders) js_to_string "i1"%js 0 ex_account (ex_discover ex_folders ex_account).1.
Proof.
  apply (@discoverMailboxes_complete (listing_server ex_folders) Z.of_nat js_to_string (λ s, s) folder_id "i1"%js 0
    ex_account _ ex_account_forest).
  - apply (bool_decide_unpack _). vm_compute. exact I.
  - vm_compute. reflexivity.
Defined.
