(* ===== verification/RulesProcessor.v ===== *)
(** * The worker's rules processor ([apps/worker/lib/rules/rules-processor.ts], [rule-items/*.ts])

    The processor reads the message, its mailbox, thread and identity, selects the identity's
    enabled rules by priority, evaluates each on the message as it was read, and performs the
    actions of the rules that match on the database and the job queues.  Its matcher is a copy
    of the one of [packages/core]: the helpers that are the same text are shared with
    [RuleMatcher]. *)

From stdpp Require Import base list.
From Stdlib Require Import Floats.SpecFloat.
From S2P Require Import Prelude JsString JsNumber JsValue RuleMatcher MailDb.

(** ** The schema's lists ([packages/schema/src/types/mail-rules.ts]) *)

Definition mailRulesLogicList : list jsstr := ["all"; "any"]%js.
Definition mailRulesFieldsList : list jsstr :=
  ["from"; "to"; "cc"; "bcc"; "reply_to"; "subject"; "text"; "snippet"; "list_id";
   "subscription_key"; "has_attachments"; "size_bytes"]%js.
Definition mailRulesOpsList : list jsstr :=
  ["exists"; "not_exists"; "eq"; "not_eq"; "contains"; "not_contains"; "starts_with";
   "ends_with"; "regex"; "gt"; "gte"; "lt"; "lte"; "in"; "not_in"]%js.
Definition mailRulesActionsList : list jsstr := ["mark_read"; "flag"; "add_label"; "trash"]%js.

(** ** The matcher, on a message of any shape *)

(** [a ?? b ?? c ...] over properties of the message *)
Definition first_prop (message : jsval) (names : list jsstr) (default : jsval) : jsval :=
  foldr (λ n rest, nullish_or (get_prop message n) rest) default names.

Definition header_prop (message : jsval) (name : jsstr) : jsval :=
  get_prop (get_prop message "headersJson"%js) name.

Definition getMessageFieldValue (message : jsval) (f : jsstr) : jsval :=
  let addresses names h := VStr (extractEmails (first_prop message names (header_prop message h))) in
  if bool_decide (f = "from"%js) then addresses ["from"%js] "from"%js
  else if bool_decide (f = "to"%js) then addresses ["to"%js] "to"%js
  else if bool_decide (f = "cc"%js) then addresses ["cc"%js] "cc"%js
  else if bool_decide (f = "bcc"%js) then addresses ["bcc"%js] "bcc"%js
  else if bool_decide (f = "reply_to"%js) then addresses ["replyTo"; "reply_to"]%js "reply-to"%js
  else if bool_decide (f = "subject"%js) then first_prop message ["subject"%js] (VStr [])
  else if bool_decide (f = "text"%js) then first_prop message ["text"%js] (VStr [])
  else if bool_decide (f = "snippet"%js) then first_prop message ["snippet"%js] (VStr [])
  else if bool_decide (f = "list_id"%js) then first_prop message ["listId"; "list_id"]%js (VStr [])
  else if bool_decide (f = "subscription_key"%js) then
    first_prop message ["subscriptionKey"; "subscription_key"]%js (VStr [])
  else if bool_decide (f = "has_attachments"%js) then
    first_prop message ["hasAttachments"; "has_attachments"]%js (VBool false)
  else if bool_decide (f = "size_bytes"%js) then
    first_prop message ["sizeBytes"; "size_bytes"; "rawSizeBytes"]%js (VNum num_zero)
  else VStr [].

Section Matcher.
(** [new RegExp(pattern, 'i')] *)
Context (regexp_i : jsstr → option (jsstr → bool)).

Definition evalCondition (message : jsval) (c : RuleCondition) : bool :=
  let left := getMessageFieldValue message (field c) in
  let op := op c in
  let right := value c in
  if bool_decide (op = "exists"%js) then negb (isEmptyValue left)
  else if bool_decide (op = "not_exists"%js) then isEmptyValue left
  else if bool_decide (field c = "has_attachments"%js) then
    let l := toBool left in
    let r := toBool right in
    if bool_decide (op = "eq"%js) then Bool.eqb l r
    else if bool_decide (op = "not_eq"%js) then negb (Bool.eqb l r)
    else false
  else if bool_decide (field c = "size_bytes"%js) then
    let l := toNumber left in
    let r := toNumber right in
    if bool_decide (op = "eq"%js) then num_eqb l r
    else if bool_decide (op = "not_eq"%js) then negb (num_eqb l r)
    else if bool_decide (op = "gt"%js) then num_gtb l r
    else if bool_decide (op = "gte"%js) then num_geb l r
    else if bool_decide (op = "lt"%js) then num_ltb l r
    else if bool_decide (op = "lte"%js) then num_leb l r
    else if bool_decide (op = "in"%js) then
      match right with VArr items => includes_number l items | _ => false end
    else if bool_decide (op = "not_in"%js) then
      match right with VArr items => negb (includes_number l items) | _ => false end
    else false
  else
    let l := asLowerString left in
    let rStr := asLowerString right in
    if bool_decide (op = "eq"%js) then bool_decide (l = rStr)
    else if bool_decide (op = "not_eq"%js) then bool_decide (l ≠ rStr)
    else if bool_decide (op = "contains"%js) then if truthy rStr then includes l rStr else false
    else if bool_decide (op = "not_contains"%js) then if truthy rStr then negb (includes l rStr) else true
    else if bool_decide (op = "starts_with"%js) then if truthy rStr then startsWith l rStr else false
    else if bool_decide (op = "ends_with"%js) then if truthy rStr then endsWith l rStr else false
    else if bool_decide (op = "regex"%js) then
      match (if truthy rStr then regexp_i (js_to_string right) else None) with
      | Some re => re (js_to_string (nullish_or left (VStr [])))
      | None => false
      end
    else if bool_decide (op = "in"%js) then
      match right with VArr items => bool_decide (l ∈ map asLowerString items) | _ => false end
    else if bool_decide (op = "not_in"%js) then
      match right with VArr items => negb (bool_decide (l ∈ map asLowerString items)) | _ => true end
    else false.

Definition evalMatch (message : jsval) (match_ : RuleMatch) : bool :=
  let results := map (evalCondition message) (conditions match_) in
  if bool_decide (logic match_ = "any"%js) then existsb id results else forallb id results.
End Matcher.

(** ** The actions ([rule-items/*.ts]) *)

Definition retry_opts (fail : bool) (id : option jsstr) : JobOptions :=
  {| attempts := 3; backoff_delay := 1500; removeOnComplete := true; removeOnFail := fail; jobId := id |}.

Definition refresh_thread (threadId : jsstr) : Job :=
  {| queue := "searchIngestQueue"%js; job_name := "refresh-thread"%js;
     job_data := [("threadId"%js, VStr threadId)];
     job_opts := retry_opts false (Some ("refresh-"%js ++ threadId)) |}.

Definition flags_job (threadId mailboxId op : jsstr) (fail : bool) : Job :=
  {| queue := "smtpQueue"%js; job_name := "mail:set-flags"%js;
     job_data := [("threadId", VStr threadId); ("mailboxId", VStr mailboxId); ("op", VStr op)]%js;
     job_opts := retry_opts fail None |}.



(** [moveImap] is the account id the caller passes. *)
Definition move_job (threadId mailboxId : jsstr) (messageId : jsstr) (moveImap : option jsstr) : Job :=
  {| queue := "smtpQueue"%js; job_name := "mail:move"%js;
     job_data := [("threadId", VStr threadId); ("mailboxId", VStr mailboxId); ("op", VStr "trash"%js);
                  ("messageId", VStr messageId); ("moveImap", nullable moveImap)]%js;
     job_opts := retry_opts false None |}.

Section Processor.
Context (regexp_i : jsstr → option (jsstr → bool)).
(** The instants [new Date()] returns. *)
Context (clock : nat → Z).

Definition markAsRead (threadId mailboxId : jsstr) (markSmtp : bool) : proc unit :=
  if negb (truthy mailboxId) then mret tt else
  now ← new_Date clock;
  _ ← modify (set_messages (update_where (msg_in threadId mailboxId) (set_seen now)));
  _ ← modify (set_mailboxThreads (update_where (row_in threadId mailboxId) (set_unread 0 now)));
  if markSmtp then
    _ ← add_job (flags_job threadId mailboxId "read"%js false);
    add_job (refresh_thread threadId)
  else mret tt.

(** The parameter [starred] is not used. *)
Definition toggleStar (threadId mailboxId : jsstr) (starred : bool) (imap : bool) : proc unit :=
  if negb (truthy threadId) || negb (truthy mailboxId) then mret tt else
  _ ← (if imap then add_job (flags_job threadId mailboxId "flag"%js true)
       else
         now ← new_Date clock;
         _ ← modify (set_messages (update_where (msg_in threadId mailboxId) (set_flagged now)));
         s ← read;
         now2 ← new_Date clock;
         modify (set_mailboxThreads (update_where (row_in threadId mailboxId)
           (set_aggregates (unread_in threadId mailboxId (messages s))
              (default false (any_flagged threadId mailboxId (messages s))) now2))));
  add_job (refresh_thread threadId).

Definition moveToTrash (threadId mailboxId : jsstr) (moveImap : option jsstr) (messageId : jsstr) :
    proc unit :=
  if negb (truthy mailboxId) then mret tt else
  _ ← add_job (move_job threadId mailboxId messageId moveImap);
  add_job (refresh_thread threadId).

Definition label_key (r : ThreadLabelRow) : jsstr * jsstr * jsstr :=
  (tl_threadId r, tl_mailboxId r, tl_labelId r).

(** [INSERT] into [mailbox_thread_labels]: the primary key and the reference to [labels]. *)
Definition insert_label (row : ThreadLabelRow) : proc unit :=
  s ← read;
  if bool_decide (label_key row ∈ map label_key (mailboxThreadLabels s)) ||
     negb (bool_decide (tl_labelId row ∈ labels s))
  then throw
  else modify (set_threadLabels (λ l, l ++ [row])).

(** ** [processRules] *)

(** What the processor reads before it looks at the rules. *)
Record Ctx := {
  c_message : MessageRow; c_mailbox : MailboxRow; c_thread : ThreadRow; c_identity : IdentityRow;
}.

Definition read_context (messageId : jsstr) (s : MailDb) : option Ctx :=
  message ← List.find (λ r, bool_decide (m_id r = messageId)) (messages s);
  mailbox ← List.find (λ r, bool_decide (mb_id r = m_mailboxId message)) (mailboxes s);
  thread ← List.find (λ t, bool_decide (t_id t = m_threadId message)) (threads s);
  identity ← List.find (λ r, bool_decide (id_id r = mb_identityId mailbox)) (identities s);
  Some {| c_message := message; c_mailbox := mailbox; c_thread := thread; c_identity := identity |}.

(** The row as the object Drizzle returns (the columns the matcher can reach). *)
Definition row_object (r : MessageRow) : jsval :=
  VObj [("id", VStr (m_id r)); ("mailboxId", VStr (m_mailboxId r)); ("threadId", VStr (m_threadId r));
        ("replyTo", m_replyTo r); ("subject", nullable (m_subject r));
        ("snippet", nullable (m_snippet r)); ("text", nullable (m_text r));
        ("from", m_from r); ("to", m_to r); ("cc", m_cc r); ("bcc", m_bcc r);
        ("sizeBytes", match m_sizeBytes r with Some z => VNum (num_of_Z z) | None => VNull end);
        ("seen", VBool (m_seen r)); ("flagged", VBool (m_flagged r));
        ("hasAttachments", VBool (m_hasAttachments r));
        ("headersJson", match m_headersJson r with Some fs => VObj fs | None => VNull end)]%js.

(** The switch on [act.actionType]. *)
Definition perform (x : Ctx) (act : MailRuleActionRow) : proc unit :=
  let thread := t_id (c_thread x) in
  let mailbox := mb_id (c_mailbox x) in
  let account := smtpAccountId (c_identity x) in
  if bool_decide (a_actionType act = "mark_read"%js) then markAsRead thread mailbox (opt_truthy account)
  else if bool_decide (a_actionType act = "flag"%js) then toggleStar thread mailbox true (opt_truthy account)
  else if bool_decide (a_actionType act = "trash"%js) then
    moveToTrash thread mailbox account (m_id (c_message x))
  else if bool_decide (a_actionType act = "add_label"%js) then
    match a_labelId act with
    | Some l =>
        if truthy l then
          insert_label {| tl_threadId := thread; tl_mailboxId := mailbox; tl_labelId := l;
                          tl_ownerId := mb_ownerId (c_mailbox x) |}
        else mret tt
    | None => mret tt
    end
  else mret tt.

Fixpoint run_actions (x : Ctx) (acts : list MailRuleActionRow) : proc unit :=
  match acts with
  | [] => mret tt
  | act :: rest => _ ← perform x act; run_actions x rest
  end.

(** [!match?.conditions?.length] skips the rule, then [evalMatch] decides. *)
Definition rule_matches (message : MessageRow) (rule : MailRuleRow) : bool :=
  match r_match rule with
  | None => false
  | Some match_ =>
      match conditions match_ with
      | [] => false
      | _ => evalMatch regexp_i (row_object message) match_
      end
  end.

Fixpoint run_rules (x : Ctx) (actionsByRuleId : jsmap jsstr (list MailRuleActionRow))
    (rules : list MailRuleRow) : proc unit :=
  match rules with
  | [] => mret tt
  | rule :: rest =>
      if negb (rule_matches (c_message x) rule) then run_rules x actionsByRuleId rest
      else
        _ ← run_actions x (default [] (jm_get (r_id rule) actionsByRuleId));
        if r_stopProcessing rule then mret tt else run_rules x actionsByRuleId rest
  end.

(** [ORDER BY rule_id, order], with the database's order of ids. *)
Definition by_rule_and_order (id_compare : jsstr → jsstr → Z) : MailRuleActionRow → MailRuleActionRow → Z :=
  cmp_or (λ a b, id_compare (a_ruleId a) (a_ruleId b)) (λ a b, a_order a - a_order b)%Z.

Definition select_rules (identityId : jsstr) (s : MailDb) : list MailRuleRow :=
  sort_by (λ a b, r_priority a - r_priority b)%Z
    (filter (λ r, r_identityId r = identityId ∧ r_enabled r = true) (mailRules s)).

Definition select_actions (id_compare : jsstr → jsstr → Z) (ruleIds : list jsstr) (s : MailDb) :
    list MailRuleActionRow :=
  sort_by (by_rule_and_order id_compare) (filter (λ a, a_ruleId a ∈ ruleIds) (mailRuleActions s)).

Definition processRules (id_compare : jsstr → jsstr → Z) (messageId : jsstr) : proc unit :=
  s ← read;
  match read_context messageId s with
  | None => mret tt
  | Some x =>
      let rules := select_rules (id_id (c_identity x)) s in
      match rules with
      | [] => mret tt
      | _ =>
          let actions := select_actions id_compare (map r_id rules) s in
          run_rules x (group_by a_ruleId actions) rules
      end
  end.
End Processor.

(** ** The matcher: theorems *)

(** The row as the matcher of [packages/core] sees it. *)
Definition row_message (r : MessageRow) : MessageForRules :=
  {| from := m_from r; to := m_to r; cc := m_cc r; bcc := m_bcc r; replyTo := m_replyTo r;
     subject := m_subject r; text := m_text r; snippet := m_snippet r;
     listId := None; subscriptionKey := None; hasAttachments := Some (m_hasAttachments r);
     sizeBytes := num_of_Z <$> m_sizeBytes r; headersJson := m_headersJson r |}.

Lemma nullable_or o : nullish_or (nullable o) (VStr []) = str_or_empty o.
Proof. by destruct o. Qed.

Lemma header_row r h : header_prop (row_object r) h = header (row_message r) h.
Proof. unfold header_prop, header. simpl. by destruct (m_headersJson r). Qed.

Lemma row_field r f :
  getMessageFieldValue (row_object r) f = RuleMatcher.getMessageFieldValue (row_message r) f.
Proof.
  unfold getMessageFieldValue, RuleMatcher.getMessageFieldValue. rewrite !header_row.
  repeat (case_bool_decide; [subst; simpl; rewrite ?nullable_or; try done|]); [|done].
  by destruct (m_sizeBytes r).
Qed.

Lemma evalMatch_row regexp_i r match_ :
  evalMatch regexp_i (row_object r) match_ = evaluateMatch regexp_i (row_message r) match_.
Proof.
  assert (∀ c, evalCondition regexp_i (row_object r) c = evaluateCondition regexp_i (row_message r) c) as Hc.
  { intros c. unfold evalCondition, evaluateCondition. rewrite row_field. done. }
  unfold evalMatch, evaluateMatch. by rewrite (map_ext _ _ Hc).
Qed.

(** On the rows of the database the worker's matcher decides every rule as the matcher of
    [packages/core] does, with no list id and no subscription key (the table has no such
    columns). *)
Theorem evalMatch_core regexp_i r match_ :
  evalMatch regexp_i (row_object r) match_ = evaluateMatch regexp_i (row_message r) match_.
Proof. apply evalMatch_row. Qed.

(** A rule about the mailing list never finds its value: [listId] is not a column. *)
Lemma list_id_never_matches regexp_i r v :
  evalCondition regexp_i (row_object r) {| field := "list_id"%js; op := "contains"%js; value := v |} = false.
Proof.
  unfold evalCondition. cbn [field op value]. rewrite row_field.
  change (RuleMatcher.getMessageFieldValue (row_message r) "list_id"%js) with (VStr []).
  cbn -[asLowerString]. destruct (asLowerString v); reflexivity.
Qed.

(** ** The plan *)

#[export] Instance by_rule_and_order_comparator id_compare `{!Comparator id_compare} :
  Comparator (by_rule_and_order id_compare).
Proof.
  apply cmp_or_comparator; [apply (cmp_on a_ruleId id_compare)|apply (cmp_by_key a_order)].
Qed.

Section Plan.
Context (regexp_i : jsstr → option (jsstr → bool)) (clock : nat → Z).
Context (id_compare : jsstr → jsstr → Z).

(** The rules up to the first that stops, that one included. *)
Fixpoint until_stop (rules : list MailRuleRow) : list MailRuleRow :=
  match rules with
  | [] => []
  | r :: rest => if r_stopProcessing r then [r] else r :: until_stop rest
  end.

(** The actions of one rule, in their order. *)
Definition actions_of (s : MailDb) (ruleId : jsstr) : list MailRuleActionRow :=
  sort_by (λ a b, a_order a - a_order b)%Z (filter (λ a, a_ruleId a = ruleId) (mailRuleActions s)).

(** What a message calls for: the actions of the identity's enabled rules that match, by priority,
    up to the first one that stops. *)
Definition plan (s : MailDb) (x : Ctx) : list MailRuleActionRow :=
  flat_map (λ r, actions_of s (r_id r))
    (until_stop (filter (λ r, rule_matches regexp_i (c_message x) r = true)
      (select_rules (id_id (c_identity x)) s))).

Lemma run_actions_app x l k s :
  run_actions clock x (l ++ k) s =
  match run_actions clock x l s with (s', Done _) => run_actions clock x k s' | (s', Threw) => (s', Threw) end.
Proof.
  revert s. induction l as [|a l IH]; intros s; [done|]. cbn [app run_actions].
  unfold mbind, proc_bind. destruct (perform clock x a s) as [s' [u|]]; [apply IH|done].
Qed.

Lemma run_rules_plan x groups rules s0 s :
  (∀ r, r ∈ rules → default [] (jm_get (r_id r) groups) = actions_of s0 (r_id r)) →
  run_rules regexp_i clock x groups rules s =
  run_actions clock x (flat_map (λ r, actions_of s0 (r_id r))
    (until_stop (filter (λ r, rule_matches regexp_i (c_message x) r = true) rules))) s.
Proof.
  revert s. induction rules as [|r rules IH]; intros s Hg; [done|]. cbn [run_rules].
  rewrite filter_cons. destruct (rule_matches regexp_i (c_message x) r); cbn [negb].
  - rewrite decide_True by done. cbn [until_stop flat_map]. rewrite Hg by set_solver.
    destruct (r_stopProcessing r); cbn [flat_map]; rewrite run_actions_app; unfold mbind, proc_bind;
      destruct (run_actions clock x _ s) as [s' [[]|]]; try done. apply IH. set_solver.
  - rewrite decide_False by done. apply IH. set_solver.
Qed.

Context `{!Comparator id_compare}.

Lemma grouped_actions ids s i :
  i ∈ ids →
  default [] (jm_get i (group_by a_ruleId (select_actions id_compare ids s))) = actions_of s i.
Proof.
  intros Hi. rewrite group_by_get.
  assert (items_of a_ruleId i (select_actions id_compare ids s) = actions_of s i) as ->.
  { unfold items_of, select_actions, actions_of. rewrite (filter_sort_by _ _).
    rewrite list_filter_filter.
    rewrite (list_filter_iff _ (λ a, a_ruleId a = i)) by (intros a; split; [tauto|intros ->; auto]).
    apply sort_by_ext_in. intros a b [<- _]%list_elem_of_filter [Hb _]%list_elem_of_filter.
    unfold by_rule_and_order, cmp_or. by rewrite Hb, (cmp_refl id_compare). }
  by case_decide.
Qed.

Lemma processRules_plan_eq messageId s :
  processRules regexp_i clock id_compare messageId s =
  match read_context messageId s with
  | None => (s, Done tt)
  | Some x => run_actions clock x (plan s x) s
  end.
Proof.
  unfold processRules, read, mbind, proc_bind. destruct (read_context messageId s) as [x|]; [|done].
  unfold plan. destruct (select_rules _ s) as [|r rules] eqn:E; [done|]. rewrite <- E.
  apply run_rules_plan. intros r' Hr'. apply grouped_actions. by apply list_elem_of_fmap_2.
Qed.

(** *** The plan without the program's queries and matcher *)

(** [l] holds the elements of [base] with [P], by increasing [key]; those of one key stand in the
    order of [base]. *)
Definition ordered_on {A} (key : A → Z) (P : A → Prop) `{!∀ a, Decision (P a)} (base l : list A) : Prop :=
  StronglySorted (λ a b, key a ≤ key b)%Z l ∧
  ∀ k, filter (λ a, key a = k) l = filter (λ a, P a ∧ key a = k) base.

Lemma sort_by_ordered_on {A} (key : A → Z) (P : A → Prop) `{!∀ a, Decision (P a)} (base : list A) :
  ordered_on key P base (sort_by (λ a b, key a - key b)%Z (filter P base)).
Proof.
  split.
  - pose proof (sort_by_sorted (λ a b, key a - key b)%Z (filter P base)) as Hs. unfold sorted_by in Hs.
    induction Hs as [|x l Hl IH Hx]; constructor; [done|]. eapply Forall_impl; [exact Hx|]. cbv beta. lia.
  - intros k. rewrite sort_by_key_stable, list_filter_filter.
    apply list_filter_iff. intros a. tauto.
Qed.

(** The messages a rule applies to: its match has conditions, and the matcher of [packages/core]
    accepts the message. *)
Definition applies (m : MessageRow) (r : MailRuleRow) : Prop :=
  ∃ match_, r_match r = Some match_ ∧ conditions match_ ≠ [] ∧
    evaluateMatch regexp_i (row_message m) match_ = true.

#[export] Instance applies_dec m r : Decision (applies m r).
Proof.
  unfold applies. destruct (r_match r) as [mt|].
  - destruct (decide (conditions mt ≠ [] ∧ evaluateMatch regexp_i (row_message m) mt = true)).
    + left. by exists mt.
    + right. intros (? & [= <-] & ?). tauto.
  - right. by intros (? & ? & _).
Defined.

Lemma rule_matches_applies m r : rule_matches regexp_i m r = true ↔ applies m r.
Proof.
  unfold rule_matches, applies. split.
  - destruct (r_match r) as [mt|]; [|done]. destruct (conditions mt) eqn:E; [done|].
    rewrite evalMatch_row. intros H. exists mt. by rewrite E.
  - intros (mt & -> & Hc & H). destruct (conditions mt) eqn:E; [done|]. by rewrite evalMatch_row.
Qed.

(** The message of an id, its mailbox, its thread and the identity of the mailbox. *)
Definition context_rows (s : MailDb) (messageId : jsstr) (x : Ctx) : Prop :=
  (c_message x ∈ messages s ∧ m_id (c_message x) = messageId) ∧
  (c_mailbox x ∈ mailboxes s ∧ mb_id (c_mailbox x) = m_mailboxId (c_message x)) ∧
  (c_thread x ∈ threads s ∧ t_id (c_thread x) = m_threadId (c_message x)) ∧
  (c_identity x ∈ identities s ∧ id_id (c_identity x) = mb_identityId (c_mailbox x)).

(** One of them is missing. *)
Definition context_missing (s : MailDb) (messageId : jsstr) : Prop :=
  (∀ m, m ∈ messages s → m_id m ≠ messageId) ∨
  ∃ m, m ∈ messages s ∧ m_id m = messageId ∧
    ((∀ b, b ∈ mailboxes s → mb_id b ≠ m_mailboxId m) ∨
     (∀ t, t ∈ threads s → t_id t ≠ m_threadId m) ∨
     ∃ b, b ∈ mailboxes s ∧ mb_id b = m_mailboxId m ∧
       ∀ i, i ∈ identities s → id_id i ≠ mb_identityId b).

Lemma find_key {A} (key : A → jsstr) (k : jsstr) (l : list A) :
  match List.find (λ a, bool_decide (key a = k)) l with
  | Some a => a ∈ l ∧ key a = k
  | None => ∀ a, a ∈ l → key a ≠ k
  end.
Proof.
  destruct (List.find _ l) as [a|] eqn:E.
  - apply find_some in E as [H1 H2]. split; [by apply list_elem_of_In|by apply bool_decide_eq_true in H2].
  - intros a Ha%list_elem_of_In. pose proof (find_none _ _ E a Ha) as H.
    by apply bool_decide_eq_false in H.
Qed.

Lemma read_context_spec messageId s :
  match read_context messageId s with
  | Some x => context_rows s messageId x
  | None => context_missing s messageId
  end.
Proof.
  unfold read_context, context_rows, context_missing.
  pose proof (find_key m_id messageId (messages s)) as Hm.
  destruct (List.find _ (messages s)) as [m|]; simpl; [|by left]. destruct Hm as [Hm Em].
  pose proof (find_key mb_id (m_mailboxId m) (mailboxes s)) as Hb.
  destruct (List.find _ (mailboxes s)) as [b|]; simpl; [|right; exists m; auto]. destruct Hb as [Hb Eb].
  pose proof (find_key t_id (m_threadId m) (threads s)) as Ht.
  destruct (List.find _ (threads s)) as [t|]; simpl; [|right; exists m; auto].
  pose proof (find_key id_id (mb_identityId b) (identities s)) as Hi.
  destruct (List.find _ (identities s)) as [i|]; simpl; [done|].
  right. exists m. split; [done|]. split; [done|]. right; right. by exists b.
Qed.

(** C4: Processing a message performs exactly the actions it calls for, in their order. Let [rules]
    be the enabled rules of the identity of the message's mailbox, by priority (rules of one
    priority in the table's order); keep those whose match has conditions and accepts, by the
    matcher of packages/core, the message as it was received; cut after the first that stops
    processing; and perform of each rule its own actions, in their order. Without the message, its
    mailbox, its thread or the mailbox's identity nothing happens. *)
Theorem processRules_plan messageId s :
  (context_missing s messageId ∧ processRules regexp_i clock id_compare messageId s = (s, Done tt)) ∨
  ∃ x rules actions,
    context_rows s messageId x ∧
    ordered_on r_priority (λ r, r_identityId r = id_id (c_identity x) ∧ r_enabled r = true)
      (mailRules s) rules ∧
    (∀ r, ordered_on a_order (λ a, a_ruleId a = r_id r) (mailRuleActions s) (actions r)) ∧
    processRules regexp_i clock id_compare messageId s =
      run_actions clock x (flat_map actions (until_stop (filter (applies (c_message x)) rules))) s.
Proof.
  pose proof (read_context_spec messageId s) as Hc. rewrite processRules_plan_eq.
  destruct (read_context messageId s) as [x|]; [right|by left].
  exists x, (select_rules (id_id (c_identity x)) s), (λ r, actions_of s (r_id r)).
  split; [done|]. split; [apply sort_by_ordered_on|]. split; [intros r; apply sort_by_ordered_on|].
  unfold plan. do 3 f_equal. apply list_filter_iff. intros r. apply rule_matches_applies.
Qed.
End Plan.

(** ** What the actions do to the store *)

(** The parts of the store the processor only reads. *)
Definition same_config (s s' : MailDb) : Prop :=
  mailboxes s' = mailboxes s ∧ threads s' = threads s ∧ identities s' = identities s ∧
  labels s' = labels s ∧ mailRules s' = mailRules s ∧ mailRuleActions s' = mailRuleActions s.

#[export] Instance same_config_preorder : PreOrder same_config.
Proof. split; unfold same_config; [done|]. intros s1 s2 s3. intuition congruence. Qed.

(** An update of some messages that keeps every column the rules read. *)
Definition same_row (r r' : MessageRow) : Prop :=
  m_id r' = m_id r ∧ m_mailboxId r' = m_mailboxId r ∧ m_threadId r' = m_threadId r ∧
  row_message r' = row_message r.

#[export] Instance same_row_preorder : PreOrder same_row.
Proof. split; unfold same_row; [done|]. intros s1 s2 s3. intuition congruence. Qed.

Definition keeps (s s' : MailDb) : Prop :=
  same_config s s' ∧ Forall2 same_row (messages s) (messages s').

#[export] Instance keeps_preorder : PreOrder keeps.
Proof.
  split; unfold keeps; [intros s; by split|]. intros s1 s2 s3 [H1 H2] [H3 H4].
  split; [by trans s2|by trans (messages s2)].
Qed.

Lemma update_where_same p f rows :
  (∀ r, same_row r (f r)) → Forall2 same_row rows (update_where p f rows).
Proof.
  intros Hf. induction rows as [|r rows IH]; simpl; constructor; [|done]. by destruct (p r).
Qed.

Section Effects.
Context (clock : nat → Z).
Implicit Types (s : MailDb) (x : Ctx).

Lemma markAsRead_keeps t b smtp s : keeps s (markAsRead clock t b smtp s).1.
Proof.
  unfold markAsRead. unfold_proc. destruct (negb (truthy b)); [done|].
  destruct smtp; split; try done; by apply update_where_same.
Qed.

Lemma toggleStar_keeps t b st imap s : keeps s (toggleStar clock t b st imap s).1.
Proof.
  unfold toggleStar. unfold_proc. destruct (_ || _); [done|].
  destruct imap; [done|]. split; try done; by apply update_where_same.
Qed.

Lemma perform_keeps x act s : keeps s (perform clock x act s).1.
Proof.
  unfold perform. repeat case_bool_decide; try done.
  - apply markAsRead_keeps.
  - apply toggleStar_keeps.
  - unfold moveToTrash. unfold_proc. by destruct (negb _).
  - unfold insert_label. unfold_proc. destruct (a_labelId act) as [l|]; [|done].
    destruct (truthy l); [|done]. by destruct (_ || _).
Qed.

Lemma run_actions_keeps x acts s : keeps s (run_actions clock x acts s).1.
Proof.
  revert s. induction acts as [|a acts IH]; intros s; [done|]. cbn [run_actions].
  unfold mbind, proc_bind. pose proof (perform_keeps x a s) as Hp.
  destruct (perform clock x a s) as [s' [u|]]; [|done]. trans s'; [done|apply IH].
Qed.

(** *** The aggregates *)

Lemma unread_in_seen t b now rows :
  unread_in t b (update_where (msg_in t b) (set_seen now) rows) = 0%Z.
Proof.
  unfold unread_in. rewrite filter_update_same by done. rewrite filter_none; [done|].
  intros r (r' & -> & _)%list_elem_of_fmap. done.
Qed.

Lemma any_flagged_seen t b now p rows :
  any_flagged t b (update_where p (set_seen now) rows) = any_flagged t b rows.
Proof.
  apply any_flagged_rows. unfold update_where. induction rows as [|r rows IH]; simpl; [done|].
  rewrite !filter_cons. assert (msg_in t b (if p r then set_seen now r else r) = msg_in t b r) as ->
    by by destruct (p r).
  case_decide; simpl; rewrite IH; [|done]. by destruct (p r).
Qed.

Lemma perform_aggregates x act s : aggregates s → aggregates (perform clock x act s).1.
Proof.
  intros Hs. unfold perform. repeat case_bool_decide; try done.
  - unfold markAsRead. unfold_proc. destruct (negb _); [done|].
    set (now := clock _). set (t := t_id (c_thread x)). set (b := mb_id _).
    assert (aggregates (set_mailboxThreads (update_where (row_in t b) (set_unread 0 now))
      (set_messages (update_where (msg_in t b) (set_seen now)) (tick s)))) as Ha.
    { apply aggregates_update; try done. intros r _ Hst. simpl.
      by rewrite unread_in_seen, any_flagged_seen. }
    by destruct (opt_truthy _).
  - unfold toggleStar. unfold_proc. destruct (_ || _); [done|].
    destruct (opt_truthy _); [done|]. simpl.
    apply (aggregates_update (t_id (c_thread x)) (mb_id (c_mailbox x)) (set_flagged (clock (ticks s))) _ s); done.
  - unfold moveToTrash. unfold_proc. by destruct (negb _).
  - unfold insert_label. unfold_proc. destruct (a_labelId act) as [l|]; [|done].
    destruct (truthy l); [|done]. by destruct (_ || _).
Qed.

Lemma run_actions_aggregates x acts s : aggregates s → aggregates (run_actions clock x acts s).1.
Proof.
  revert s. induction acts as [|a acts IH]; intros s Hs; [done|]. cbn [run_actions].
  unfold mbind, proc_bind. pose proof (perform_aggregates x a s Hs) as Hp.
  destruct (perform clock x a s) as [s' [u|]]; [by apply IH|done].
Qed.

(** *** Labels *)

Definition action_label (a : MailRuleActionRow) : list jsstr :=
  match a_labelId a with
  | Some l => if bool_decide (a_actionType a = "add_label"%js) && truthy l then [l] else []
  | None => []
  end.

(** The labels a plan adds, in order. *)
Definition plan_labels (acts : list MailRuleActionRow) : list jsstr := flat_map action_label acts.

Definition key_in (x : Ctx) (l : jsstr) : jsstr * jsstr * jsstr := (t_id (c_thread x), mb_id (c_mailbox x), l).

Definition label_keys s : list (jsstr * jsstr * jsstr) := map label_key (mailboxThreadLabels s).

(** A label that can be added: it exists, and the thread does not have it. *)
Definition addable s x (l : jsstr) : Prop := l ∈ labels s ∧ key_in x l ∉ label_keys s.

Lemma perform_other x act s :
  action_label act = [] →
  (perform clock x act s).2 = Done tt ∧ label_keys (perform clock x act s).1 = label_keys s.
Proof.
  unfold action_label, perform. intros Hl.
  destruct (bool_decide (a_actionType act = "add_label"%js)) eqn:Ht.
  { apply bool_decide_eq_true in Ht. rewrite Ht. simpl in *.
    destruct (a_labelId act) as [l|]; [|done]. by destruct (truthy l). }
  repeat case_bool_decide; try done.
  - unfold markAsRead. unfold_proc. destruct (negb _); [done|]. by destruct (opt_truthy _).
  - unfold toggleStar. unfold_proc. destruct (_ || _); [done|]. by destruct (opt_truthy _).
  - unfold moveToTrash. unfold_proc. by destruct (negb _).
Qed.

Lemma perform_label x act s l :
  action_label act = [l] →
  (addable s x l ∧ (perform clock x act s).2 = Done tt ∧
   label_keys (perform clock x act s).1 = label_keys s ++ [key_in x l]) ∨
  (¬ addable s x l ∧ (perform clock x act s).2 = Threw).
Proof.
  unfold action_label, perform. destruct (a_labelId act) as [l'|]; [|done].
  destruct (bool_decide (a_actionType act = "add_label"%js)) eqn:Ht; [|done].
  apply bool_decide_eq_true in Ht. rewrite Ht. cbn [andb].
  destruct (truthy l'); [|done]. intros [= ->].
  unfold insert_label, addable. unfold_proc. 
  rewrite !(bool_decide_false ("add_label"%js = _)) by done. 
  set (row := {| tl_threadId := _; tl_mailboxId := _; tl_labelId := l; tl_ownerId := _ |}).
  change (tl_labelId row) with l. change (label_key row) with (key_in x l).
  fold (label_keys s).
  destruct (decide (l ∈ labels s)) as [Hl|Hl]; destruct (decide (key_in x l ∈ label_keys s)) as [Hk|Hk].
  - rewrite (bool_decide_true (key_in x l ∈ _)) by done. right. split; [tauto|done].
  - rewrite (bool_decide_false (key_in x l ∈ _)), (bool_decide_true (l ∈ _)) by done. left.
    split; [done|]. split; [done|]. unfold label_keys. simpl. by rewrite map_app.
  - rewrite (bool_decide_true (key_in x l ∈ _)) by done. right. split; [tauto|done].
  - rewrite (bool_decide_false (key_in x l ∈ _)), (bool_decide_false (l ∈ _)) by done. right.
    split; [tauto|done].
Qed.

(** After adding [l], the rest can be added exactly when it could before and [l] is not in it. *)
Lemma addable_step s s' x l ls :
  labels s' = labels s → label_keys s' = label_keys s ++ [key_in x l] → addable s x l →
  (NoDup ls ∧ Forall (addable s' x) ls ↔ NoDup (l :: ls) ∧ Forall (addable s x) (l :: ls)).
Proof.
  intros Hlab Hk Hl. rewrite NoDup_cons, Forall_cons, !Forall_forall. unfold addable in *.
  rewrite Hk, Hlab. setoid_rewrite elem_of_app. setoid_rewrite list_elem_of_singleton. split.
  - intros [Hnd Hall]. split; [split; [|done]|split; [done|]].
    + intros Hin. destruct (Hall l Hin) as [_ Hn]. apply Hn. by right.
    + intros l' Hl'. destruct (Hall l' Hl'). tauto.
  - intros ((Hnin & Hnd) & _ & Hall). split; [done|]. intros l' Hl'. destruct (Hall l' Hl').
    split; [done|]. unfold key_in in *. intros [?|[= ->]]; done.
Qed.

Lemma run_actions_labels x acts s :
  ((run_actions clock x acts s).2 = Done tt ↔
    NoDup (plan_labels acts) ∧ Forall (addable s x) (plan_labels acts)) ∧
  ((run_actions clock x acts s).2 = Done tt →
    label_keys (run_actions clock x acts s).1 = label_keys s ++ map (key_in x) (plan_labels acts)).
Proof.
  revert s. induction acts as [|a acts IH]; intros s.
  - cbn. rewrite app_nil_r. split; [|done]. split; [|done]. intros _. repeat constructor.
  - cbn [run_actions plan_labels flat_map]. fold (plan_labels acts). unfold mbind, proc_bind.
    pose proof (proj1 (perform_keeps x a s)) as Hcfg.
    assert (labels (perform clock x a s).1 = labels s) as Hlab by apply Hcfg.
    assert (action_label a = [] ∨ ∃ l, action_label a = [l]) as [Ha|[l Ha]].
    { unfold action_label. destruct (a_labelId a) as [l|]; [|by left]. destruct (_ && _); eauto. }
    + destruct (perform_other x a s Ha) as [Ho Hk]. rewrite Ha. cbn [app].
      destruct (perform clock x a s) as [s1 o1]. cbn [fst snd] in *. subst o1. destruct (IH s1) as [H1 H2].
      rewrite <- Hk. split; [|done]. rewrite H1. unfold addable. by rewrite Hk, Hlab.
    + rewrite Ha. cbn [app].
      destruct (perform_label x a s l Ha) as [(Hadd & Ho & Hk)|(Hadd & Ho)];
        destruct (perform clock x a s) as [s1 o1]; cbn [fst snd] in *; subst o1.
      * destruct (IH s1) as [H1 H2]. split.
        { rewrite H1. by apply addable_step. }
        { intros Hd. rewrite H2, Hk by done. by rewrite <- app_assoc. }
      * split; [|done]. split; [done|]. rewrite Forall_cons. tauto.
Qed.
End Effects.

(** ** Theorems on the whole run *)

Section Runs.
Context (regexp_i : jsstr → option (jsstr → bool)) (clock : nat → Z).
Context (id_compare : jsstr → jsstr → Z) `{!Comparator id_compare}.

(** The stored aggregates stay true: if every row of mailbox_threads holds the unread count
    and the star of its messages before a run, it does after it, whether the run ends or throws. *)
Theorem processRules_aggregates messageId s :
  aggregates s → aggregates (processRules regexp_i clock id_compare messageId s).1.
Proof.
  intros Hs. rewrite processRules_plan_eq by done.
  destruct (read_context messageId s); [by apply run_actions_aggregates|done].
Qed.

(** A run throws exactly when the plan adds a label twice, adds one the thread already has, or
    adds one that does not exist; otherwise the thread ends with the labels of the plan added. *)
Theorem processRules_throws messageId s x :
  read_context messageId s = Some x →
  let s' := (processRules regexp_i clock id_compare messageId s).1 in
  let ls := plan_labels (plan regexp_i s x) in
  ((processRules regexp_i clock id_compare messageId s).2 = Threw ↔
    ¬ (NoDup ls ∧ Forall (addable s x) ls)) ∧
  ((processRules regexp_i clock id_compare messageId s).2 = Done tt →
    label_keys s' = label_keys s ++ map (key_in x) ls).
Proof.
  intros Hx. cbv zeta. rewrite processRules_plan_eq, Hx by done.
  destruct (run_actions_labels clock x (plan regexp_i s x) s) as [H1 H2]. split; [|exact H2].
  rewrite <- H1. destruct (run_actions clock x _ s) as [s' [[]|]]; naive_solver.
Qed.

Lemma read_context_keeps messageId s s' x :
  keeps s s' → read_context messageId s = Some x →
  ∃ m, same_row (c_message x) m ∧ read_context messageId s' =
    Some {| c_message := m; c_mailbox := c_mailbox x; c_thread := c_thread x; c_identity := c_identity x |}.
Proof.
  intros ((Hmb & Ht & Hi & _) & Hm). unfold read_context. rewrite Hmb, Ht, Hi.
  assert (∀ m, List.find (λ r, bool_decide (m_id r = messageId)) (messages s) = Some m →
    ∃ m', List.find (λ r, bool_decide (m_id r = messageId)) (messages s') = Some m' ∧ same_row m m') as Hf.
  { induction Hm as [|r r' rows rows' (Hid & Hr) _ IH]; simpl; [done|]. intros m. rewrite Hid.
    case_bool_decide; [|apply IH]. intros [= <-]. exists r'. split; [done|]. by split. }
  intros (m & Hfm & H)%bind_Some. destruct (Hf m Hfm) as (m' & -> & Hr). exists m'.
  destruct Hr as (Hid & Hb & Htd & Hr). cbn [mbind option_bind].
  rewrite Hb, Htd. apply bind_Some in H as (mb & -> & H). cbn [mbind option_bind].
  apply bind_Some in H as (t & -> & H). cbn [mbind option_bind].
  apply bind_Some in H as (i & -> & H). cbn [mbind option_bind]. injection H as <-. split; [by split|done].
Qed.

Lemma rule_matches_same m m' r :
  same_row m m' → rule_matches regexp_i m' r = rule_matches regexp_i m r.
Proof.
  intros (_ & _ & _ & Hr). unfold rule_matches. destruct (r_match r) as [mt|]; [|done].
  destruct (conditions mt); [done|]. by rewrite !evalMatch_row, Hr.
Qed.

(** Processing the same message a second time throws if the rules add a label: the plan has
    not changed and the labels are already there. *)
Theorem processRules_twice messageId s x :
  read_context messageId s = Some x →
  plan_labels (plan regexp_i s x) ≠ [] →
  let s' := (processRules regexp_i clock id_compare messageId s).1 in
  (processRules regexp_i clock id_compare messageId s).2 = Done tt →
  (processRules regexp_i clock id_compare messageId s').2 = Threw.
Proof.
  intros Hx Hls. cbv zeta. rewrite !processRules_plan_eq, Hx by done. intros Hd.
  destruct (run_actions_labels clock x (plan regexp_i s x) s) as [_ Hk]. specialize (Hk Hd).
  pose proof (run_actions_keeps clock x (plan regexp_i s x) s) as Hkeep.
  destruct (run_actions clock x (plan regexp_i s x) s) as [s1 o1]. cbn [fst snd] in *. clear Hd.
  destruct (read_context_keeps messageId s s1 x Hkeep Hx) as (m & Hm & ->).
  set (x' := {| c_message := m; c_mailbox := c_mailbox x; c_thread := c_thread x; c_identity := c_identity x |}).
  assert (plan regexp_i s1 x' = plan regexp_i s x) as ->.
  { destruct Hkeep as [(_ & _ & _ & _ & Hr & Ha) _]. unfold plan, select_rules, actions_of, x'.
    cbn [c_identity c_message]. rewrite Hr, Ha.
    rewrite (list_filter_iff _ (λ r, rule_matches regexp_i (c_message x) r = true)); [done|]. intros r.
    pose proof (rule_matches_same _ _ r Hm) as ->. reflexivity. }
  destruct (run_actions_labels clock x' (plan regexp_i s x) s1) as [H1 _].
  destruct (run_actions clock x' _ s1) as [s2 [[]|]]; [|done]. exfalso.
  destruct (proj1 H1 eq_refl) as [_ Hall]. destruct (plan_labels _) as [|l ls]; [done|].
  apply Forall_cons in Hall as [[_ Hn] _]. apply Hn. rewrite Hk.
  apply elem_of_app. right. cbn [map]. apply elem_of_cons. by left.
Qed.
End Runs.

(** *** Concrete runs *)

Definition ex_message : MessageRow := {|
  m_id := "m1"%js; m_ownerId := "u1"%js; m_mailboxId := "b1"%js; m_threadId := "t1"%js;
  m_messageId := "<1@shop.com>"%js; m_inReplyTo := None; m_references := None; m_replyTo := VArr [];
  m_subject := Some "Invoice 7"%js; m_snippet := None; m_text := None; m_html := None;
  m_from := VStr "Ann <ann@shop.com>"%js; m_to := VNull; m_cc := VNull; m_bcc := VNull; m_date := None;
  m_sizeBytes := Some 2048%Z; m_seen := false; m_answered := false; m_flagged := false; m_hasAttachments := false;
  m_headersJson := None; m_metaData := None; m_rawStorageKey := None;
  m_createdAt := 0%Z; m_updatedAt := 0%Z |}.

Definition ex_mailbox : MailboxRow := {|
  mb_id := "b1"%js; mb_identityId := "i1"%js; mb_ownerId := "u1"%js; mb_parentId := None;
  mb_kind := "inbox"%js; mb_name := Some "Inbox"%js; mb_slug := Some "inbox"%js; mb_isDefault := true;
  mb_metaData := None |}.

Definition ex_rule_row (i : jsstr) (priority : Z) (stop : bool) (f o v : jsstr) : MailRuleRow := {|
  r_id := i; r_identityId := "i1"%js; r_enabled := true; r_priority := priority; r_stopProcessing := stop;
  r_match := Some {| version := num_of_Z 1; logic := "all"%js;
                     conditions := [ {| field := f; op := o; value := VStr v |} ] |} |}.

Definition ex_act (r t : jsstr) (o : Z) (l : option jsstr) : MailRuleActionRow :=
  {| a_ruleId := r; a_actionType := t; a_order := o; a_labelId := l |}.

Definition ex_thread : ThreadRow := {| t_id := "t1"%js; t_ownerId := "u1"%js; t_lastMessageDate := None |}.

Definition ex_thread_row : MailboxThreadRow := {|
  mt_threadId := "t1"%js; mt_mailboxId := "b1"%js; mt_ownerId := "u1"%js; mt_identityId := "i1"%js;
  mt_identityPublicId := "p1"%js; mt_mailboxSlug := None; mt_subject := None; mt_previewText := None;
  mt_lastActivityAt := 0%Z; mt_firstMessageAt := None; mt_messageCount := 1%Z; mt_unreadCount := 1%Z;
  mt_hasAttachments := false; mt_starred := false; mt_participants := None;
  mt_snoozedUntil := None; mt_unsnoozedAt := None; mt_updatedAt := 0%Z |}.

(** Two rules match the message: the first, by priority, labels it and marks it read. *)
Definition ex_db : MailDb := {|
  messages := [ex_message]; mailboxes := [ ex_mailbox ];
  threads := [ex_thread]; identities := [ {| id_id := "i1"%js; id_ownerId := "u1"%js; id_publicId := "p1"%js; id_kind := "email"%js;
  smtpAccountId := None; id_metaData := None |} ];
  labels := ["work"%js];
  mailRules := [ex_rule_row "r2" 20 false "subject" "contains" "invoice";
                ex_rule_row "r1" 10 false "from" "ends_with" "@shop.com"]%js;
  mailRuleActions := [ex_act "r2" "flag" 0 None; ex_act "r1" "mark_read" 1 None;
                      ex_act "r1" "add_label" 0 (Some "work"%js)]%js;
  mailboxThreads := [ex_thread_row];
  mailboxThreadLabels := []; mailboxSync := []; jobs := []; imap := []; imapInstances := []; timers := [];
  ticks := 0; ingest := no_ingest |}.

Definition no_regexp : jsstr → option (jsstr → bool) := λ _, None.
(** An order of ids: by length. *)
Definition by_length (a b : jsstr) : Z := (Z.of_nat (length a) - Z.of_nat (length b))%Z.

#[export] Instance by_length_comparator : Comparator by_length.
Proof. unfold by_length. apply (cmp_by_key (λ a : jsstr, Z.of_nat (length a))). Defined.

Definition ex_run (s : MailDb) : MailDb * outcome unit := processRules no_regexp Z.of_nat by_length "m1"%js s.

Lemma ex_run_result :
  (ex_run ex_db).2 = Done tt ∧
  map (λ r, (m_seen r, m_flagged r)) (messages (ex_run ex_db).1) = [(true, true)] ∧
  map (λ r, (mt_unreadCount r, mt_starred r)) (mailboxThreads (ex_run ex_db).1) = [(0%Z, true)] ∧
  map tl_labelId (mailboxThreadLabels (ex_run ex_db).1) = ["work"%js].
Proof. vm_compute. done. Qed.

Definition ex_ctx : Ctx := {|
  c_message := ex_message; c_mailbox := ex_mailbox;
  c_thread := ex_thread; c_identity := {| id_id := "i1"%js; id_ownerId := "u1"%js; id_publicId := "p1"%js; id_kind := "email"%js;
  smtpAccountId := None; id_metaData := None |} |}.

Lemma processRules_plan_witness :
  (context_missing ex_db "m1"%js ∧
   processRules no_regexp Z.of_nat by_length "m1"%js ex_db = (ex_db, Done tt)) ∨
  ∃ x rules actions,
    context_rows ex_db "m1"%js x ∧
    ordered_on r_priority (λ r, r_identityId r = id_id (c_identity x) ∧ r_enabled r = true)
      (mailRules ex_db) rules ∧
    (∀ r, ordered_on a_order (λ a, a_ruleId a = r_id r) (mailRuleActions ex_db) (actions r)) ∧
    processRules no_regexp Z.of_nat by_length "m1"%js ex_db =
      run_actions Z.of_nat x
        (flat_map actions (until_stop (filter (applies no_regexp (c_message x)) rules))) ex_db.
Proof. apply (processRules_plan no_regexp Z.of_nat by_length). Defined.

Lemma processRules_aggregates_witness : aggregates ex_db ∧ aggregates (ex_run ex_db).1.
Proof.
  assert (aggregates ex_db) as H by (apply (bool_decide_unpack _); vm_compute; exact I).
  split; [exact H|]. exact (processRules_aggregates no_regexp Z.of_nat by_length "m1"%js ex_db H).
Defined.

Lemma processRules_throws_witness :
  (ex_run ex_db).2 = Threw ↔
    ¬ (NoDup (plan_labels (plan no_regexp ex_db ex_ctx)) ∧
       Forall (addable ex_db ex_ctx) (plan_labels (plan no_regexp ex_db ex_ctx))).
Proof. exact (proj1 (processRules_throws no_regexp Z.of_nat by_length "m1"%js ex_db ex_ctx eq_refl)). Defined.

Lemma processRules_twice_witness : (ex_run (ex_run ex_db).1).2 = Threw.
Proof.
  refine (processRules_twice no_regexp Z.of_nat by_length "m1"%js ex_db ex_ctx _ _ _);
    vm_compute; done.
Defined.
