(* ===== verification/DeltaFetch.v ===== *)
(** * Fetching new mail ([apps/worker/lib/imap/imap-delta-fetch.ts])

    [deltaFetch] synchronises the mailboxes of an identity one after the other.  A message whose
    Message-ID the owner has nowhere is stored; one that is in another mailbox has been moved on
    the server, and its thread is moved after it. *)

From stdpp Require Import base list.
From S2P Require Import Prelude JsString JsRegex JsNumber JsValue RuleMatcher ContactTable MailDb MailRollup.
From S2P Require Import Imap ImapOps ImapInvariant Ingest IngestSpecs ImapSync RulesProcessor.

Definition set_location (mailboxId : jsstr) (meta : option (list (jsstr * jsval))) (r : MessageRow) : MessageRow :=
  with_location mailboxId meta (m_updatedAt r) r.

(** [{ ...meta, imap: { ...(meta?.imap || {}), mailboxPath: path } }]; a spread of a value that is
    not an object adds nothing. *)
Definition moved_meta (path : jsstr) (meta : option (list (jsstr * jsval))) : list (jsstr * jsval) :=
  let inner := match imap_of meta with VObj fs => fs | _ => [] end in
  jm_set "imap"%js (VObj (jm_set "mailboxPath"%js (VStr path) inner)) (default [] meta).

(** [String((row?.metaData as any)?.imap?.path ?? row.name)] *)
Definition sync_path (row : MailboxRow) : jsstr :=
  js_to_string (nullish_or (get_prop (imap_of (mb_metaData row)) "path"%js) (nullable (mb_name row))).

Section Delta.
Context `{ImapServer} (credentials_of : IdentityRow → option jsval) (clock : nat → Z).
Context (new_id : MailDb → jsstr) (simpleParser : jsstr → option ParsedMail) (parse_url : jsstr → option Url).
Context (uuid : MailDb → jsstr) (upload_ok : list jsstr → jsstr → bool) (message_ok : MessageRow → bool).
Context (attachment_ok : AttachmentRow → bool) (row_json : MessageRow → jsval).
Abbreviation parse := (parseAndStoreEmail clock new_id simpleParser parse_url uuid upload_ok message_ok
  attachment_ok row_json).

Definition fetched_options (ownerId mailboxId path : jsstr) (msg : FetchMessage) : StoreOptions := {|
  so_ownerId := ownerId; so_mailboxId := mailboxId;
  so_rawStorageKey := "eml/"%js ++ ownerId ++ "/"%js ++ mailboxId ++ "/"%js ++ int_to_str (f_uid msg) ++ ".eml"%js;
  so_metaData := Some [("imap"%js, VObj [("uid", VNum (num_of_Z (f_uid msg))); ("mailboxPath", VStr path);
                                         ("flags", VArr (map VStr (f_flags msg)))]%js)];
  so_seen := Some (bool_decide ("\Seen"%js ∈ f_flags msg));
  so_answered := Some (bool_decide ("\Answered"%js ∈ f_flags msg));
  so_flagged := Some (bool_decide ("\Flagged"%js ∈ f_flags msg)); so_mode := live |}.

Definition store_fetched (ownerId mailboxId path : jsstr) (msg : FetchMessage) : proc unit :=
  _ ← parse (default [] (f_source msg)) (fetched_options ownerId mailboxId path msg);
  mret tt.

Definition by_message_id (ownerId messageId : jsstr) (m : MessageRow) : bool :=
  bool_decide (m_ownerId m = ownerId) && bool_decide (m_messageId m = messageId).

(** [UPDATE messages SET mailboxId, metaData WHERE id]; an error is caught, and nothing changes. *)
Definition relocate (mailboxId : jsstr) (meta : list (jsstr * jsval)) (id : jsstr) : proc unit :=
  s ← read;
  let rows := update_where (λ r, bool_decide (m_id r = id)) (set_location mailboxId (Some meta)) (messages s) in
  if bool_decide (NoDup (map message_key rows)) then modify (set_messages (λ _, rows)) else mret tt.

(** One message of the thread. *)
Definition move_one (ownerId mailboxId path : jsstr) (m : MessageRow) : proc unit :=
  if bool_decide (m_mailboxId m = mailboxId) then mret tt
  else
    s ← read;
    match List.find (λ r, by_message_id ownerId (m_messageId m) r && bool_decide (m_mailboxId r = mailboxId))
            (messages s) with
    | Some _ => delete_messages [m_id m]
    | None => relocate mailboxId (moved_meta path (m_metaData m)) (m_id m)
    end.

(** [DELETE FROM mailbox_threads WHERE thread_id]: in all mailboxes. *)
Definition forget_thread (threadId : jsstr) : proc unit :=
  modify (set_mailboxThreads (filter (λ r, mt_threadId r ≠ threadId))).

Definition newest_of (threadId : jsstr) (s : MailDb) : option MessageRow :=
  head (sort_by (λ a b, message_time b - message_time a)%Z (filter (λ m, m_threadId m = threadId) (messages s))).

(** The message has been moved on the server. *)
Definition move_thread (ownerId mailboxId path : jsstr) (existing : MessageRow) : proc unit :=
  s ← read;
  let all := filter (λ m, m_threadId m = m_threadId existing ∧ m_mailboxId m = m_mailboxId existing) (messages s) in
  _ ← each (move_one ownerId mailboxId path) all;
  _ ← forget_thread (m_threadId existing);
  s ← read;
  _ ← match newest_of (m_threadId existing) s with
      | Some newest => catch (_ ← upsertMailboxThreadItem clock (m_id newest); mret tt) (mret tt)
      | None => mret tt
      end;
  add_job (refresh_thread (m_threadId existing)).

(** The function given to [syncMailbox]. *)
Definition on_message (ownerId mailboxId path : jsstr) (msg : FetchMessage) : proc unit :=
  match f_messageId msg ≫= λ i, or_undefined (trim i) with
  | None => store_fetched ownerId mailboxId path msg
  | Some messageId =>
      s ← read;
      match List.find (by_message_id ownerId messageId) (messages s) with
      | Some existing =>
          if bool_decide (m_mailboxId existing = mailboxId) then mret tt
          else move_thread ownerId mailboxId path existing
      | None => store_fetched ownerId mailboxId path msg
      end
  end.

(** One mailbox; [Some tt] unless the fuel of [syncMailbox] runs out. *)
Definition delta_mailbox (c : nat) (identityId ownerId : jsstr) (row : MailboxRow) : proc (option unit) :=
  s ← read;
  match find_sync identityId (mb_id row) s with
  | None => mret (Some tt)
  | Some _ =>
      syncMailbox clock (on_message ownerId (mb_id row) (sync_path row)) c identityId (mb_id row) (sync_path row) 500
  end.

Fixpoint delta_mailboxes (c : nat) (identityId ownerId : jsstr) (rows : list MailboxRow) : proc (option unit) :=
  match rows with
  | [] => mret (Some tt)
  | row :: rest =>
      o ← delta_mailbox c identityId ownerId row;
      match o with
      | None => mret None
      | Some _ => delta_mailboxes c identityId ownerId rest
      end
  end.

Definition deltaFetch (identityId : jsstr) : proc (option unit) :=
  o ← ready_client credentials_of identityId;
  match o with
  | None => mret (Some tt)
  | Some c =>
      s ← read;
      match List.find (λ i, bool_decide (id_id i = identityId)) (identities s) with
      | None => mret (Some tt)
      | Some ident =>
          if negb (truthy (id_ownerId ident)) then mret (Some tt)
          else delta_mailboxes c identityId (id_ownerId ident)
                 (filter (λ b, mb_identityId b = identityId) (mailboxes s))
      end
  end.
End Delta.
