(* ===== verification/DeltaSpecs.v ===== *)
(** * No new mail is lost

    [deltaFetch] takes over every message of the mailboxes it goes through, whatever fails on the
    way: a message of the owner, in a mailbox of the identity, has its Message-ID, or it has none. *)

From stdpp Require Import base list.
From S2P Require Import Prelude JsString JsRegex JsNumber JsValue RuleMatcher ContactTable MailDb MailRollup.
From S2P Require Import Imap ImapOps ImapInvariant Ingest IngestSpecs IngestTheorems ImapSpecs ImapSync RulesProcessor.
From S2P Require Import DeltaFetch.

(** What the tables hold, with the mailboxes [bs] of the owner [o]: an id for each message, one
    message for a mailbox and a Message-ID (the unique index), in one mailbox the messages of one
    owner, in those of [bs] the messages of [o]. *)
Record kept_apart (o : jsstr) (bs : list jsstr) (s : MailDb) : Prop := {
  ka_ids : NoDup (map m_id (messages s));
  ka_keys : NoDup (map message_key (messages s));
  ka_boxes : ∀ m m', m ∈ messages s → m' ∈ messages s → m_mailboxId m = m_mailboxId m' → m_ownerId m = m_ownerId m';
  ka_owner : ∀ m, m ∈ messages s → m_mailboxId m ∈ bs → m_ownerId m = o;
}.

(** A message of the owner, in one of the mailboxes. *)
Definition in_boxes (o : jsstr) (bs : list jsstr) (m : MessageRow) : Prop := m_ownerId m = o ∧ m_mailboxId m ∈ bs.

(** The Message-IDs of the owner stay with the owner, and in the mailboxes. *)
Definition keeps (o : jsstr) (bs : list jsstr) (s s' : MailDb) : Prop :=
  kept_apart o bs s → kept_apart o bs s' ∧ ∀ m, m ∈ messages s →
    ∃ m', m' ∈ messages s' ∧ m_messageId m' = m_messageId m ∧
      (m_ownerId m = o → m_ownerId m' = o) ∧ (in_boxes o bs m → in_boxes o bs m').

#[export] Instance keeps_preorder o bs : PreOrder (keeps o bs).
Proof.
  unfold keeps. split; [intros s Hs; split; [done|]; intros m Hm; by exists m|].
  intros s1 s2 s3 H12 H23 H1. destruct (H12 H1) as [H2 K2]. destruct (H23 H2) as [H3 K3]. split; [done|].
  intros m Hm. destruct (K2 m Hm) as (m2 & Hm2 & E2 & O2 & B2). destruct (K3 m2 Hm2) as (m3 & Hm3 & E3 & O3 & B3).
  exists m3. split; [done|]. split; [congruence|auto].
Qed.

Lemma kept_apart_unchanged o bs s s' : messages s' = messages s → kept_apart o bs s → kept_apart o bs s'.
Proof. intros E []. split; by rewrite ?E. Qed.

Lemma keeps_unchanged o bs s s' : messages s' = messages s → keeps o bs s s'.
Proof.
  intros E Hs. split; [by eapply kept_apart_unchanged|]. rewrite E. intros m Hm. by exists m.
Qed.

Lemma keeps_grow o bs m s s' :
  m_id m ∉ map m_id (messages s) → message_key m ∉ map message_key (messages s) →
  in_boxes o bs m → messages s' = messages s ++ [m] → keeps o bs s s'.
Proof.
  intros Hid Hkey [Ho Hb] E [H1 H2 H3 H4]. split.
  - assert (∀ A (f : MessageRow → A), NoDup (map f (messages s)) → f m ∉ map f (messages s) →
      NoDup (map f (messages s ++ [m]))) as Hnd.
    { intros A f Hn Hf. rewrite map_app. apply NoDup_app. split; [done|]. split; [|apply NoDup_singleton].
      by intros i Hi ->%list_elem_of_singleton. }
    split; rewrite E; auto.
    + intros x y [Hx| ->%list_elem_of_singleton]%elem_of_app [Hy| ->%list_elem_of_singleton]%elem_of_app Hxy; auto.
      * rewrite Ho. apply H4; [done|]. by rewrite Hxy.
      * rewrite Ho. symmetry. apply H4; [done|]. by rewrite <- Hxy.
    + intros x [Hx| ->%list_elem_of_singleton]%elem_of_app; auto.
  - intros x Hx. exists x. rewrite E, elem_of_app. auto.
Qed.

(** ** A thread that moves *)

Lemma elem_of_update (p : MessageRow → bool) f rows r :
  r ∈ rows → (if p r then f r else r) ∈ update_where p f rows.
Proof. intros Hr. unfold update_where. apply list_elem_of_fmap. by exists r. Qed.

Lemma map_update_where {A} (g : MessageRow → A) (p : MessageRow → bool) f rows :
  (∀ r, g (f r) = g r) → map g (update_where p f rows) = map g rows.
Proof. intros Hg. unfold update_where. rewrite map_map. apply map_ext. intros r. by destruct (p r). Qed.

Lemma kept_apart_filter o bs (P : MessageRow → Prop) `{!∀ m, Decision (P m)} s s' :
  messages s' = filter P (messages s) → kept_apart o bs s → kept_apart o bs s'.
Proof.
  intros E [H1 H2 H3 H4]. split; rewrite E.
  - by apply NoDup_map_filter.
  - by apply NoDup_map_filter.
  - intros x y [_ Hx]%list_elem_of_filter [_ Hy]%list_elem_of_filter. by apply H3.
  - intros x [_ Hx]%list_elem_of_filter. by apply H4.
Qed.

Section Move.
Context (o b path : jsstr) (bs : list jsstr) (Hb : b ∈ bs).

(** The rows that have moved are in the mailbox, the others are what they were. *)
Lemma relocated_row m meta s r :
  let rows := update_where (λ r, bool_decide (m_id r = m_id m)) (set_location b meta) (messages s) in
  r ∈ rows → (r ∈ messages s ∧ m_id r ≠ m_id m) ∨
    ∃ x, x ∈ messages s ∧ m_id x = m_id m ∧ r = set_location b meta x.
Proof.
  cbv zeta. unfold update_where. intros (x & -> & Hx)%list_elem_of_fmap. case_bool_decide; [right|left; done]. by exists x.
Qed.

Lemma relocate_apart m meta s :
  kept_apart o bs s → m ∈ messages s → m_ownerId m = o →
  NoDup (map message_key (update_where (λ r, bool_decide (m_id r = m_id m)) (set_location b meta) (messages s))) →
  kept_apart o bs (set_messages (λ _, update_where (λ r, bool_decide (m_id r = m_id m)) (set_location b meta) (messages s)) s).
Proof.
  intros [H1 H2 H3 H4] Hm Ho Hnd.
  assert (∀ x, x ∈ messages s → m_id x = m_id m → x = m) as Hsame.
  { intros x Hx E. by apply (NoDup_map_inj m_id (messages s)). }
  split; cbn [messages set_messages].
  - by rewrite map_update_where.
  - done.
  - intros x y [[Hx _]|(x' & Hx' & Ex & ->)]%relocated_row [[Hy _]|(y' & Hy' & Ey & ->)]%relocated_row E; auto.
    + rewrite (Hsame y' Hy' Ey). cbn in *. rewrite Ho. apply H4; [done|]. by rewrite E.
    + rewrite (Hsame x' Hx' Ex). cbn in *. rewrite Ho. symmetry. apply H4; [done|]. by rewrite <- E.
    + by rewrite (Hsame x' Hx' Ex), (Hsame y' Hy' Ey).
  - intros x [[Hx _]|(x' & Hx' & Ex & ->)]%relocated_row Hin; [by apply H4|].
    by rewrite (Hsame x' Hx' Ex).
Qed.

(** No other message has the key of the row that moves, so that it moves. *)
Lemma relocate_unique m meta s :
  kept_apart o bs s → m ∈ messages s → m_ownerId m = o →
  List.find (λ r, by_message_id o (m_messageId m) r && bool_decide (m_mailboxId r = b)) (messages s) = None →
  NoDup (map message_key (update_where (λ r, bool_decide (m_id r = m_id m)) (set_location b meta) (messages s))).
Proof.
  intros [H1 H2 H3 H4] Hm Ho Hf.
  assert (∀ x, x ∈ messages s → message_key x ≠ (b, m_messageId m)) as Hfree.
  { intros x Hx [= E1 E2]. apply list_elem_of_In in Hx as Hx'. pose proof (List.find_none _ _ Hf x Hx') as Hn.
    cbv beta in Hn. unfold by_message_id in Hn. rewrite !bool_decide_eq_true_2 in Hn; try done.
    apply H4; [done|]. by rewrite E1. }
  clear Hf. revert H1 H2 Hm Hfree. generalize (messages s) as l. intros l.
  induction l as [|x l IH]; intros Hi Hk Hm Hfree; [by constructor|]. cbn [map update_where] in *.
  apply NoDup_cons in Hi as [Hx Hi]. apply NoDup_cons in Hk as [Hkx Hk].
  case_bool_decide as E.
  - assert (update_where (λ r, bool_decide (m_id r = m_id m)) (set_location b meta) l = l) as El.
    { unfold update_where. rewrite <- (map_id l) at 2. apply map_ext_in. intros y Hy%list_elem_of_In.
      rewrite bool_decide_eq_false_2; [done|]. intros Ey. apply Hx. rewrite E, <- Ey. by apply list_elem_of_fmap_2. }
    unfold update_where in El. rewrite El. apply NoDup_cons. split; [|done].
    assert (x = m) as ->.
    { apply elem_of_cons in Hm as [-> | Hm]; [done|]. exfalso. apply Hx. rewrite E. by apply list_elem_of_fmap_2. }
    intros (y & Ey & Hy)%list_elem_of_fmap. apply (Hfree y); [by apply list_elem_of_further|]. by rewrite <- Ey.
  - apply elem_of_cons in Hm as [-> | Hm]; [done|]. apply NoDup_cons. split.
    + intros (y & Ey & Hy)%list_elem_of_fmap. apply list_elem_of_fmap in Hy as (z & -> & Hz).
      case_bool_decide as Ez.
      * apply (Hfree x); [apply list_elem_of_here|]. rewrite Ey. unfold message_key. cbn.
        f_equal. f_equal. by apply (NoDup_map_inj m_id l).
      * apply Hkx. rewrite Ey. by apply list_elem_of_fmap_2.
    + apply IH; try done. intros y Hy. apply Hfree. by apply list_elem_of_further.
Qed.

Lemma move_one_keeps m s :
  kept_apart o bs s → m ∈ messages s → m_ownerId m = o →
  keeps o bs s (move_one o b path m s).1 ∧
  (∃ m', m' ∈ messages (move_one o b path m s).1 ∧ m_messageId m' = m_messageId m ∧ in_boxes o bs m') ∧
  ∀ x, x ∈ messages s → m_id x ≠ m_id m → x ∈ messages (move_one o b path m s).1.
Proof.
  intros Hs Hm Ho. unfold move_one. case_bool_decide as Hbox.
  { split; [by apply keeps_unchanged|]. split; [|done]. exists m. split; [done|]. split; [done|]. split; [done|by rewrite Hbox]. }
  unfold_proc. destruct (List.find _ (messages s)) as [d|] eqn:E.
  - apply List.find_some in E as [Hd%list_elem_of_In [Hd1 Hd2%bool_decide_eq_true]%andb_true_iff].
    unfold by_message_id in Hd1. apply andb_true_iff in Hd1 as [Hdo%bool_decide_eq_true Hid%bool_decide_eq_true].
    assert (m_id d ≠ m_id m) as Hne.
    { intros Hdm. apply Hbox. rewrite <- Hd2. symmetry. f_equal. by apply (NoDup_map_inj m_id (messages s)), Hdm; [apply Hs|..]. }
    assert (d ∈ filter (λ r, m_id r ∉ [m_id m]) (messages s) ∧ in_boxes o bs d) as [Hd' Hdb].
    { split; [by rewrite list_elem_of_filter, list_elem_of_singleton|]. split; [done|by rewrite Hd2]. }
    unfold delete_messages. unfold_proc. simpl. split; [|split].
    + intros _. split; [by eapply kept_apart_filter|]. intros x Hx. destruct (decide (m_id x = m_id m)) as [Hxm|Hxm].
      * exists d. replace x with m by (apply (NoDup_map_inj m_id (messages s)); try done; apply Hs). auto.
      * exists x. simpl. rewrite list_elem_of_filter, list_elem_of_singleton. auto.
    + by exists d.
    + intros x Hx Hxm. by rewrite list_elem_of_filter, list_elem_of_singleton.
  - unfold relocate. unfold_proc. set (rows := update_where _ _ _).
    pose proof (relocate_unique m (Some (moved_meta path (m_metaData m))) s Hs Hm Ho E) as Hnd. fold rows in Hnd.
    rewrite bool_decide_eq_true_2 by done. simpl.
    assert (∀ x, x ∈ messages s → (if bool_decide (m_id x = m_id m) then set_location b (Some (moved_meta path (m_metaData m))) x else x) ∈ rows) as Hin.
    { intros x Hx. exact (elem_of_update (λ r, bool_decide (m_id r = m_id m)) _ _ x Hx). }
    split; [|split].
    + intros _. split; [by apply relocate_apart|]. intros x Hx. eexists. split; [by apply Hin|].
      unfold in_boxes. case_bool_decide; [|done]. split; [done|]. split; [done|]. intros [? _]. done.
    + eexists. split; [by apply Hin|]. rewrite bool_decide_eq_true_2 by done. by split_and!.
    + intros x Hx Hxm. pose proof (Hin x Hx) as H. by rewrite bool_decide_eq_false_2 in H.
Qed.

Lemma move_all_keeps l s :
  kept_apart o bs s → NoDup (map m_id l) → (∀ m, m ∈ l → m ∈ messages s ∧ m_ownerId m = o) →
  let r := each (move_one o b path) l s in
  keeps o bs s r.1 ∧
  (r.2 = Done tt → ∀ m, m ∈ l → ∃ m', m' ∈ messages r.1 ∧ m_messageId m' = m_messageId m ∧ in_boxes o bs m').
Proof.
  cbv zeta. revert s. induction l as [|m l IH]; intros s Hs Hnd Hl; cbn [each].
  { split; [done|]. intros _ m Hm. by apply not_elem_of_nil in Hm. }
  cbn [map] in Hnd. apply NoDup_cons in Hnd as [Hm Hnd]. unfold mbind, proc_bind.
  destruct (Hl m) as [Hin Ho]; [apply list_elem_of_here|].
  destruct (move_one_keeps m s Hs Hin Ho) as (Hk & Hthere & Hrest).
  destruct (move_one o b path m s) as [s1 [u|]]; simpl in *; [|done]. destruct (Hk Hs) as [Hs1 _].
  destruct (IH s1 Hs1 Hnd) as [Hk' Hall].
  { intros x Hx. destruct (Hl x) as [Hx1 Hx2]; [by apply list_elem_of_further|]. split; [|done].
    apply Hrest; [done|]. intros E. apply Hm. rewrite <- E. by apply list_elem_of_fmap_2. }
  split; [by trans s1|]. intros Hout x [-> | Hx]%elem_of_cons; [|by apply Hall].
  destruct Hthere as (y & Hy & Ey & Hby). destruct (Hk' Hs1) as [_ Hkept].
  destruct (Hkept y Hy) as (z & Hz & Ez & _ & Hbz). exists z. split_and!; [done|congruence|auto..].
Qed.
End Move.

Section Delta.
Context `{ImapServer} (credentials_of : IdentityRow → option jsval) (clock : nat → Z).
Context (new_id : MailDb → jsstr) (simpleParser : jsstr → option ParsedMail) (parse_url : jsstr → option Url).
Context (uuid : MailDb → jsstr) (upload_ok : list jsstr → jsstr → bool) (message_ok : MessageRow → bool).
Context (attachment_ok : AttachmentRow → bool) (row_json : MessageRow → jsval).
Context (Hfresh : ∀ s, new_id s ∉ map m_id (messages s)).
Abbreviation parse := (parseAndStoreEmail clock new_id simpleParser parse_url uuid upload_ok message_ok
  attachment_ok row_json).
Abbreviation on_message := (on_message clock new_id simpleParser parse_url uuid upload_ok message_ok
  attachment_ok row_json).

(** The rest of the store, as far as the synchronisation looks at it. *)
Definition same_sync (s s' : MailDb) : Prop :=
  mailboxSync s' = mailboxSync s ∧ imap s' = imap s ∧ identityQuotaMap (ingest s') = identityQuotaMap (ingest s).

#[local] Instance same_sync_preorder : PreOrder same_sync.
Proof. split; unfold same_sync; [done|]. intros s1 s2 s3 (-> & -> & ->) (-> & -> & ->). done. Qed.

Lemma parse_same_sync raw o : steps same_sync (parse raw o).
Proof.
  assert (∀ f, (∀ s, same_sync s (f s)) → steps same_sync (modify f)) as Hmod by (intros f Hf s; apply Hf).
  assert (∀ b, steps same_sync (flush_or_schedule row_json b)) as Hfl.
  { intros b. unfold flush_or_schedule, flushBatches, scheduleFlush, flush_search, flush_ics, flush_webhook, flush_rules, batch_job.
    run_steps; done. }
  assert (∀ path, steps same_sync (upload upload_ok path)) as Hup by (intros path; unfold upload; run_steps; done).
  assert (∀ m seen l, steps same_sync (store_attachments new_id uuid upload_ok attachment_ok row_json o m seen l)) as Hatt.
  { intros m seen l. revert seen. induction l as [|a l IH]; intros seen; cbn [store_attachments]; [auto with webmail|].
    unfold store_attachment. run_steps; done || apply Hmod; done. }
  assert (∀ A (x : option A), steps same_sync (or_throw x)) as Hor by by intros A [].
  assert (∀ A (q : proc A), steps same_sync q → steps same_sync (transaction q)) as Htr.
  { intros A q. apply steps_transaction. by intros s s' (? & ? & ?). }
  assert (steps same_sync (new_Date clock)) as Hdate by done.
  unfold parseAndStoreEmail, createOrInitializeThread, insert_message, after_insert,
    ingestMailSubscriptionFromMessage, upsertContactsFromMessage, upsertMailboxThreadItem, touch_thread, announce.
  run_steps; try done. apply Htr. run_steps; done.
Qed.

Lemma on_message_same_sync o b path msg : steps same_sync (on_message o b path msg).
Proof.
  assert (∀ A (x : option A), steps same_sync (or_throw x)) as Hor by by intros A [].
  assert (steps same_sync (new_Date clock)) as Hdate by done.
  pose proof parse_same_sync. unfold DeltaFetch.on_message, store_fetched, move_thread, move_one, relocate,
    delete_messages, forget_thread, upsertMailboxThreadItem. run_steps; done.
Qed.

Lemma parse_keeps o bs raw opts : so_ownerId opts = o → so_mailboxId opts ∈ bs → steps (keeps o bs) (parse raw opts).
Proof.
  intros Ho Hb s. destruct (parse_adds clock new_id simpleParser parse_url uuid upload_ok message_ok attachment_ok row_json
    Hfresh raw opts s) as [_ [[E _]|(p & m & _ & _ & Eo & Eb & Hkey & Hid & E)]].
  - by apply keeps_unchanged.
  - eapply keeps_grow; [done|done| |done]. split; [congruence|by rewrite Eb].
Qed.

Lemma move_thread_keeps o b path bs e s :
  kept_apart o bs s → b ∈ bs → e ∈ messages s → m_ownerId e = o →
  let r := move_thread clock o b path e s in
  keeps o bs s r.1 ∧
  (r.2 = Done tt → ∃ m, m ∈ messages r.1 ∧ m_messageId m = m_messageId e ∧ in_boxes o bs m).
Proof.
  intros Hs Hb He Ho. cbv zeta.
  set (rest := _ ← forget_thread (m_threadId e); s ← read;
     _ ← match newest_of (m_threadId e) s with
         | Some newest => catch (_ ← upsertMailboxThreadItem clock (m_id newest); mret tt) (mret tt)
         | None => mret tt end;
     add_job (refresh_thread (m_threadId e))).
  assert (steps (λ s s' : MailDb, messages s' = messages s) rest) as Hrest.
  { unfold rest. assert (PreOrder (λ s s' : MailDb, messages s' = messages s)) as Hpre by (split; [done|congruence]).
    assert (∀ f, (∀ s, messages (f s) = messages s) → steps (λ s s', messages s' = messages s) (modify f)) as Hmod by done.
    assert (∀ A (x : option A), steps (λ s s' : MailDb, messages s' = messages s) (or_throw x)) as Hor by by intros A [].
    assert (steps (λ s s' : MailDb, messages s' = messages s) (new_Date clock)) as Hdate by done.
    unfold forget_thread, upsertMailboxThreadItem, add_job. run_steps; by apply Hmod. }
  set (all := filter (λ m, m_threadId m = m_threadId e ∧ m_mailboxId m = m_mailboxId e) (messages s)).
  change (move_thread clock o b path e s) with ((each (move_one o b path) all ≫= λ _, rest) s).
  destruct (move_all_keeps o b path bs Hb all s Hs) as [Hk Hall].
  { by apply NoDup_map_filter, Hs. }
  { intros m [[_ Hm] Hin]%list_elem_of_filter. split; [done|]. rewrite <- Ho. by apply (ka_boxes _ _ _ Hs). }
  unfold mbind, proc_bind. clearbody rest. clear Hfresh.
  destruct (each (move_one o b path) all s) as [s1 [u|]]; [|by split].
  specialize (Hrest s1). split.
  - trans s1; [done|]. by apply keeps_unchanged.
  - intros _. rewrite Hrest. destruct u. apply Hall; [done|]. by apply list_elem_of_filter.
Qed.

(** ** What it means that a message is taken over *)

Definition envelope_id (msg : FetchMessage) : option jsstr := f_messageId msg ≫= λ i, or_undefined (trim i).

(** A message of the owner in one of the mailboxes [bs] has the Message-ID of the envelope, or that
    of the mail; or the mail has no Message-ID. *)
Definition taken (o : jsstr) (bs : list jsstr) (s : MailDb) (msg : FetchMessage) : Prop :=
  (∃ m, m ∈ messages s ∧ in_boxes o bs m ∧ envelope_id msg = Some (m_messageId m)) ∨
  ∃ p, simpleParser (default [] (f_source msg)) = Some p ∧
    (truthy (message_id_of p) = false ∨
     ∃ m, m ∈ messages s ∧ in_boxes o bs m ∧ pm_messageId p = Some (m_messageId m)).

Lemma taken_keeps o bs s s' msg : kept_apart o bs s → keeps o bs s s' → taken o bs s msg → taken o bs s' msg.
Proof.
  intros Hs Hk. destruct (Hk Hs) as [_ Hm]. intros [(m & Hin & Hb & Hi)|(p & Hp & Hr)].
  - left. destruct (Hm m Hin) as (m' & Hin' & Ei & _ & Eb). exists m'. rewrite Ei. auto.
  - right. exists p. split; [done|]. destruct Hr as [Hr|(m & Hin & Hb & Hi)]; [by left|right].
    destruct (Hm m Hin) as (m' & Hin' & Ei & _ & Eb). exists m'. rewrite Ei. auto.
Qed.

Lemma parse_taken o bs raw opts s s' r :
  kept_apart o bs s → so_ownerId opts = o → so_mailboxId opts ∈ bs →
  parse raw opts s = (s', Done r) → ∀ msg, default [] (f_source msg) = raw → taken o bs s' msg.
Proof.
  intros Hs Ho Hb E msg <-. set (raw := default [] (f_source msg)) in *.
  destruct (parse_adds clock new_id simpleParser parse_url uuid upload_ok message_ok attachment_ok row_json
    Hfresh raw opts s) as [_ Hadds].
  rewrite E in Hadds. simpl in Hadds. right.
  destruct Hadds as [[Em [[_ (p & Hp & Hsk)]|Hthrew]]|(p & m & Hp & Hcy & Eo & Eb & _ & _ & Em)]; [|done|].
  - exists p. split; [done|]. destruct Hsk as [?|(mid & Hmid & Hin)]; [by left|right].
    apply list_elem_of_fmap in Hin as (m & Hk & Hin). unfold message_key in Hk. injection Hk as Ebox ->.
    exists m. rewrite Em. split; [done|]. split; [|done]. rewrite Ebox in Hb.
    split; [by apply (ka_owner _ _ _ Hs)|done].
  - exists p. split; [done|]. right. exists m. rewrite Em. split; [|split; [|apply Hcy]].
    + apply elem_of_app. right. by apply list_elem_of_singleton.
    + split; [congruence|by rewrite Eb].
Qed.

Lemma on_message_spec o b path bs msg s :
  kept_apart o bs s → b ∈ bs →
  keeps o bs s (on_message o b path msg s).1 ∧
  ((on_message o b path msg s).2 = Done tt → taken o bs (on_message o b path msg s).1 msg).
Proof.
  intros Hs Hb.
  assert (keeps o bs s (store_fetched clock new_id simpleParser parse_url uuid upload_ok message_ok attachment_ok row_json o b path msg s).1 ∧
    ((store_fetched clock new_id simpleParser parse_url uuid upload_ok message_ok attachment_ok row_json o b path msg s).2 = Done tt →
      taken o bs (store_fetched clock new_id simpleParser parse_url uuid upload_ok message_ok attachment_ok row_json o b path msg s).1 msg)) as Hstore.
  { unfold store_fetched. unfold mbind, proc_bind.
    pose proof (parse_keeps o bs (default [] (f_source msg)) (fetched_options o b path msg) eq_refl Hb s) as Hk.
    destruct (parse (default [] (f_source msg)) (fetched_options o b path msg) s) as [s1 [r|]] eqn:E; [|done].
    split; [done|]. intros _. by eapply (parse_taken o bs _ (fetched_options o b path msg)). }
  unfold DeltaFetch.on_message. fold (envelope_id msg). destruct (envelope_id msg) as [i|] eqn:Ei; [|done].
  unfold mbind, proc_bind. cbn [read]. destruct (List.find _ _) as [e|] eqn:E; [|done].
  apply List.find_some in E as [He%list_elem_of_In Hid]. unfold by_message_id in Hid. bool_to_prop.
  case_bool_decide as Hbox.
  - split; [done|]. intros _. left. exists e.
    split; [done|]. split; [split; [congruence|by rewrite Hbox]|]. rewrite Ei. congruence.
  - destruct (move_thread_keeps o b path bs e s Hs Hb He) as [Hk Hmoved]; [done|]. split; [exact Hk|].
    intros Hout. destruct (Hmoved Hout) as (m & Hm & Em & Hin). left. exists m.
    split; [done|]. split; [done|]. rewrite Ei. f_equal. congruence.
Qed.

Lemma on_message_takes_over o b path bs :
  b ∈ bs → takes_over (on_message o b path) (taken o bs) (kept_apart o bs).
Proof.
  intros Hb.
  assert (∀ s s', messages s' = messages s → still_stored (taken o bs) (kept_apart o bs) s s') as Hsame.
  { intros s s' E Hs. split; [by eapply kept_apart_unchanged|]. intros m. apply taken_keeps; [done|].
    by apply keeps_unchanged. }
  constructor; try (intros; by apply Hsame); try (intros; apply on_message_same_sync).
  - intros msg s s' Hs E. destruct (on_message_spec o b path bs msg s Hs Hb) as [_ H']. rewrite E in H'. by apply H'.
  - intros msg s Hs. destruct (on_message_spec o b path bs msg s Hs Hb) as [Hk _]. split; [by apply Hk|].
    intros m. by apply taken_keeps.
Qed.

(** ** The mailboxes, one after the other *)

Section Mailboxes.
(** The messages the server has in each mailbox. *)
Context (box : jsstr → list FetchMessage) (Hfetch : ∀ c path, faithful_fetch c path (box path)).
Context (i o : jsstr) (bs : list jsstr).
Abbreviation delta_mailbox := (delta_mailbox clock new_id simpleParser parse_url uuid upload_ok message_ok
  attachment_ok row_json).
Abbreviation delta_mailboxes := (delta_mailboxes clock new_id simpleParser parse_url uuid upload_ok message_ok
  attachment_ok row_json).
Abbreviation still := (still_stored (taken o bs) (kept_apart o bs)).

(** The last uid of the mailbox has not gone back and what it has passed is taken over. *)
Definition caught_up (row : MailboxRow) (s s' : MailDb) : Prop :=
  ∀ sync, find_sync i (mb_id row) s = Some sync →
    ∃ uid', last_uid i (mb_id row) s' = Some uid' ∧ (lastSeenUid sync ≤ uid')%Z ∧
      all_stored (box (sync_path row)) (taken o bs) s' (lastSeenUid sync) uid'.

Definition syncs_kept (bs : list jsstr) (s s' : MailDb) : Prop :=
  ∀ b sync, b ∉ bs → find_sync i b s = Some sync → find_sync i b s' = Some sync.

Lemma caught_up_here row s : caught_up row s s.
Proof.
  intros sync Hs. exists (lastSeenUid sync). unfold last_uid. rewrite Hs. split; [done|]. split; [lia|].
  intros m _ ?. lia.
Qed.

Lemma caught_up_kept row s s' : syncs_kept [] s s' → caught_up row s s'.
Proof.
  intros Hk sync Hs. exists (lastSeenUid sync). unfold last_uid. rewrite (Hk _ _ (not_elem_of_nil _) Hs).
  split; [done|]. split; [lia|]. intros m _ ?. lia.
Qed.

Lemma find_sync_in b s sync : find_sync i b s = Some sync → sync ∈ mailboxSync s ∧ sy_mailboxId sync = b.
Proof.
  unfold find_sync. intros [Hin%list_elem_of_In Hb]%List.find_some. by bool_to_prop.
Qed.

Lemma delta_mailbox_spec c row s :
  kept_apart o bs s → mb_id row ∈ bs → NoDup (map sy_id (mailboxSync s)) →
  let s' := (delta_mailbox c i o row s).1 in
  (delta_mailbox c i o row s).2 ≠ Done None ∧ still s s' ∧ caught_up row s s' ∧ syncs_kept [mb_id row] s s' ∧
  map sy_id (mailboxSync s') = map sy_id (mailboxSync s).
Proof.
  intros Hs Hbs Hnd. unfold DeltaFetch.delta_mailbox. unfold mbind, proc_bind. cbn [read].
  destruct (find_sync i (mb_id row) s) as [sync|] eqn:E.
  2: { split; [done|]. split; [done|]. split; [apply caught_up_here|]. split; [by intros ? ? ? ?|done]. }
  destruct (syncMailbox_spec clock (on_message o (mb_id row) (sync_path row)) c (box (sync_path row)) (taken o bs) (kept_apart o bs)
    i (mb_id row) (sync_path row) 500 s sync (Hfetch c _) (on_message_takes_over _ _ _ _ Hbs) ltac:(lia) Hs E)
    as (Hst & uid' & Huid & Hle & Hall & Hfuel & _).
  pose proof (syncMailbox_touches clock (on_message o (mb_id row) (sync_path row))
    (λ m s, proj1 (on_message_same_sync _ _ _ m s)) c i (mb_id row) (sync_path row) 500 s sync E) as Ht.
  split; [done|]. split; [done|]. split; [|split; [|by eapply touched_ids]].
  - intros sync' Hs'. rewrite E in Hs'. injection Hs' as <-. by exists uid'.
  - intros b sync' Hb Hs'. destruct (find_touched _ _ _ _ _ _ Ht Hs') as (r & Hr & _ & _ & _ & Hsame).
    rewrite Hr, Hsame; [done|]. intros Heq. apply Hb, list_elem_of_singleton.
    apply find_sync_in in E as [Hin <-]. apply find_sync_in in Hs' as [Hin' <-]. f_equal.
    by apply (NoDup_map_inj sy_id (mailboxSync s)).
Qed.

Lemma delta_mailboxes_spec c rows s :
  kept_apart o bs s → (∀ row, row ∈ rows → mb_id row ∈ bs) → NoDup (map sy_id (mailboxSync s)) →
  NoDup (map mb_id rows) →
  let s' := (delta_mailboxes c i o rows s).1 in
  (delta_mailboxes c i o rows s).2 ≠ Done None ∧ still s s' ∧ (∀ row, row ∈ rows → caught_up row s s') ∧
  syncs_kept (map mb_id rows) s s'.
Proof.
  revert s. induction rows as [|row rows IH]; intros s Hs Hbs Hnd Hrows; cbn [DeltaFetch.delta_mailboxes].
  { split; [done|]. split; [done|]. split; [intros row Hrow; by apply not_elem_of_nil in Hrow|]. by intros ? ? ? ?. }
  cbn [map] in Hrows. apply NoDup_cons in Hrows as [Hrow Hrows]. unfold mbind, proc_bind.
  destruct (delta_mailbox_spec c row s Hs (Hbs row (list_elem_of_here _ _)) Hnd) as (Hfuel & Hst & Hup & Hkept & Hids).
  destruct (delta_mailbox c i o row s) as [s1 [[u|]|]] eqn:E; simpl in *; [| |].
  - destruct (IH s1 (proj1 (Hst Hs))) as (Hfuel' & Hst' & Hup' & Hkept');
      [by intros row' Hin; apply Hbs, list_elem_of_further|by rewrite Hids|done|].
    split; [done|]. split; [by trans s1|]. split.
    + intros row' Hrow'%elem_of_cons. destruct Hrow' as [-> |Hin].
      * intros sync Hsync. destruct (Hup sync Hsync) as (uid' & Hu & Hle & Hall). exists uid'.
        unfold last_uid in *. apply fmap_Some in Hu as (sync1 & Hs1 & ->). rewrite (Hkept' _ _ Hrow Hs1).
        split; [done|]. split; [done|]. intros m Hm Hr. by apply Hst'; [apply Hst|apply Hall].
      * intros sync Hsync. apply (Hup' row' Hin), Hkept; [|done].
        rewrite list_elem_of_singleton. intros Heq. apply Hrow. rewrite <- Heq. by apply list_elem_of_fmap_2.
    + intros b sync Hb Hsync. apply not_elem_of_cons in Hb as [Hb1 Hb2].
      apply Hkept'; [done|]. apply Hkept; [|done]. by rewrite list_elem_of_singleton.
  - done.
  - split; [done|]. split; [done|]. split.
    + intros row' Hrow'%elem_of_cons. destruct Hrow' as [-> |Hin]; [done|]. intros sync Hsync.
      assert (mb_id row' ∉ [mb_id row]) as Hne.
      { rewrite list_elem_of_singleton. intros Heq. apply Hrow. rewrite <- Heq. by apply list_elem_of_fmap_2. }
      exists (lastSeenUid sync). unfold last_uid. rewrite (Hkept _ _ Hne Hsync). split; [done|]. split; [lia|].
      intros m _ ?. lia.
    + intros b sync Hb Hsync. apply not_elem_of_cons in Hb as [Hb1 Hb2]. apply Hkept; [|done].
      by rewrite list_elem_of_singleton.
Qed.
End Mailboxes.

(** The connection. *)
Definition offline (s s' : MailDb) : Prop :=
  messages s' = messages s ∧ mailboxSync s' = mailboxSync s ∧ mailboxes s' = mailboxes s ∧ identities s' = identities s.

#[local] Instance offline_preorder : PreOrder offline.
Proof. split; unfold offline; [done|]. intros s1 s2 s3 (->&->&->&->) (->&->&->&->). done. Qed.

Lemma offline_ready_client i : steps offline (ready_client credentials_of i).
Proof.
  assert (∀ c cmd, steps offline (send c cmd)) as Hsend by done.
  assert (∀ o, steps offline (ready o)) as Hready by done.
  assert (∀ f, (∀ s, offline s (f s)) → steps offline (modify f)) as Hmod by (intros f Hf s; apply Hf).
  unfold ready_client, initSmtpClient, connect, safeReconnect, or_throw. run_steps; by apply Hmod.
Qed.

(** The mailboxes of an identity. *)
Definition boxes_of (i : jsstr) (s : MailDb) : list jsstr := map mb_id (filter (λ b, mb_identityId b = i) (mailboxes s)).

(** C5: Fetching new mail loses none.  In tables with unique ids and Message-IDs per mailbox, where a
    mailbox holds the messages of one owner and those of the identity's mailboxes are the identity's
    owner's, and with a server that answers a fetch with what the mailbox holds: however the run
    ends, also when the server, the storage or a mail makes it fail, it ends, no mailbox's last uid
    has gone back, and for every message the server has between the old and the new last uid of a
    mailbox there is a message of the same owner, in a mailbox of the same identity, with the
    Message-ID of the envelope or of the mail; except for mails without a Message-ID. *)
Theorem deltaFetch_no_loss box i s ident :
  (∀ c path, faithful_fetch c path (box path)) → kept_apart (id_ownerId ident) (boxes_of i s) s →
  NoDup (map sy_id (mailboxSync s)) → NoDup (map mb_id (mailboxes s)) →
  List.find (λ r, bool_decide (id_id r = i)) (identities s) = Some ident →
  let r := deltaFetch credentials_of clock new_id simpleParser parse_url uuid upload_ok message_ok attachment_ok
             row_json i s in
  r.2 ≠ Done None ∧
  ∀ row sync, row ∈ mailboxes s → mb_identityId row = i → find_sync i (mb_id row) s = Some sync →
    ∃ uid', last_uid i (mb_id row) r.1 = Some uid' ∧ (lastSeenUid sync ≤ uid')%Z ∧
      ∀ m, m ∈ box (sync_path row) → (lastSeenUid sync < f_uid m ≤ uid')%Z →
        taken (id_ownerId ident) (boxes_of i s) r.1 m.
Proof.
  intros Hfetch Hs Hnd Hmb Hident. cbv zeta. unfold deltaFetch. unfold mbind, proc_bind.
  pose proof (offline_ready_client i s) as (E1 & E2 & E3 & E4).
  destruct (ready_client credentials_of i s) as [s1 out] eqn:E. simpl in E1, E2, E3, E4.
  assert (∀ s' row sync, mailboxSync s' = mailboxSync s → find_sync i (mb_id row) s = Some sync →
    ∃ uid', last_uid i (mb_id row) s' = Some uid' ∧ (lastSeenUid sync ≤ uid')%Z ∧
      ∀ m, m ∈ box (sync_path row) → (lastSeenUid sync < f_uid m ≤ uid')%Z →
        taken (id_ownerId ident) (boxes_of i s) s' m) as Hnone.
  { intros s' row sync Es Hsync. exists (lastSeenUid sync). unfold last_uid, find_sync in *. rewrite Es, Hsync.
    split; [done|]. split; [lia|]. intros m _ ?. lia. }
  destruct out as [[c|]|]; [|split; [done|]; intros row sync _ _; by apply Hnone..].
  cbn [read]. rewrite E4, Hident. destruct (truthy _); cbn [negb]; [|split; [done|]; intros row sync _ _; by apply Hnone].
  destruct (delta_mailboxes_spec box Hfetch i (id_ownerId ident) (boxes_of i s) c
    (filter (λ b, mb_identityId b = i) (mailboxes s1)) s1) as (Hfuel & _ & Hup & _).
  - by eapply kept_apart_unchanged.
  - intros row Hrow. unfold boxes_of. rewrite <- E3. by apply list_elem_of_fmap_2.
  - by rewrite E2.
  - rewrite E3. by apply NoDup_map_filter.
  - split; [done|]. intros row sync Hrow Hi Hsync. apply (Hup row).
    + apply list_elem_of_filter. by rewrite E3.
    + unfold find_sync in *. by rewrite E2.
Qed.
End Delta.

(** ** Concrete runs *)

(** A mail whose Message-ID is its text. *)
Definition new_mail (uid : Z) (text : jsstr) (envelope : option jsstr) : FetchMessage :=
  {| f_uid := uid; f_id := text; f_messageId := envelope; f_source := Some text; f_flags := ["\Seen"%js];
     f_size := None; f_internalDate := VUndef |}.

Definition delta_box (path : jsstr) : list FetchMessage :=
  if bool_decide (path = "INBOX"%js) then [new_mail 8 "n8" (Some "n8"); new_mail 9 "m1" (Some "m1")]%js
  else if bool_decide (path = "Trash"%js) then [new_mail 4 "n4" None]%js else [].

Definition delta_server : ImapServer := {|
  authenticated := λ _ _, true; usable := λ _ _, true; accepts := λ _ _ _, true; search_all := λ _ _, [];
  uidNext := λ _ _ _, Some 10%Z; uidValidity := λ _ _ _, 1%Z;
  fetched := λ log c a b,
    (match opened c log with Some p => filter (λ m, a ≤ f_uid m ≤ b)%Z (delta_box p) | None => [] end, true);
  list_boxes := λ _ _, []; rejection := λ _ _ _, [] |}.

Definition delta_sync (b : jsstr) (uid : Z) : MailboxSyncRow := {|
  sy_id := b; sy_identityId := "i1"%js; sy_mailboxId := b; lastSeenUid := uid; backfillCursorUid := 0;
  phase := "IDLE"%js; syncedAt := None; sy_updatedAt := 0 |}%Z.

Definition delta_store : MailDb := set_mailboxSync (λ _, [delta_sync "b1"%js 7; delta_sync "b2"%js 2]) ImapSpecs.ex_store.

Abbreviation ex_delta := (@deltaFetch delta_server no_credentials Z.of_nat ex_new_id
  (λ raw, Some (ex_parsed (Some raw) None NoReferences [])) (λ _, None) ex_new_id all_uploads (λ _, true) (λ _, true)
  (λ _, VNull) "i1"%js delta_store).

Lemma delta_faithful c path : @faithful_fetch delta_server c path (delta_box path).
Proof.
  intros log a b msgs Ho. cbn [fetched delta_server]. rewrite Ho. intros [= <-] m. rewrite list_elem_of_filter. tauto.
Qed.

(** The new mails are stored, the known one is not stored again, the uids are recorded. *)
Lemma ex_delta_run :
  map (λ m, (m_messageId m, m_mailboxId m)) (messages ex_delta.1) =
    [("m1", "b1"); ("m2", "b1"); ("m3", "b1"); ("n8", "b1"); ("n4", "b2")]%js ∧
  map lastSeenUid (mailboxSync ex_delta.1) = [9; 4]%Z.
Proof. by vm_compute. Qed.

(** What the lemma on the tables asks for, as a computation. *)
Lemma apart_by_computation o bs s :
  NoDup (map m_id (messages s)) → NoDup (map message_key (messages s)) →
  Forall (λ m, m_ownerId m = o) (messages s) → kept_apart o bs s.
Proof.
  intros H1 H2 H3. rewrite Forall_forall in H3. split; [done|done| |].
  - intros m m' Hm Hm' _. by rewrite (H3 m Hm), (H3 m' Hm').
  - intros m Hm _. by apply H3.
Qed.

Definition delta_identity : IdentityRow := {| id_id := "i1"%js; id_ownerId := "u1"%js; id_publicId := "p1"%js;
  id_kind := "email"%js; smtpAccountId := Some "a1"%js; id_metaData := None |}.

Lemma delta_store_apart : kept_apart "u1"%js (boxes_of "i1"%js delta_store) delta_store.
Proof. apply apart_by_computation; apply (bool_decide_unpack _); vm_compute; exact I. Qed.

Lemma deltaFetch_no_loss_witness :
  ∃ uid', last_uid "i1"%js "b2"%js ex_delta.1 = Some uid' ∧ (2 ≤ uid')%Z ∧
    ∀ m, m ∈ delta_box "Trash"%js → (2 < f_uid m ≤ uid')%Z →
      taken (λ raw, Some (ex_parsed (Some raw) None NoReferences [])) "u1"%js (boxes_of "i1"%js delta_store) ex_delta.1 m.
Proof.
  destruct (@deltaFetch_no_loss delta_server no_credentials Z.of_nat ex_new_id
    (λ raw, Some (ex_parsed (Some raw) None NoReferences [])) (λ _, None) ex_new_id all_uploads (λ _, true) (λ _, true)
    (λ _, VNull) ex_fresh delta_box "i1"%js delta_store delta_identity delta_faithful delta_store_apart
    ltac:(apply (bool_decide_unpack _); vm_compute; exact I)
    ltac:(apply (bool_decide_unpack _); vm_compute; exact I) eq_refl) as [_ H].
  apply (H (ex_box "b2" "trash" "Trash")%js (delta_sync "b2"%js 2)); [|reflexivity|reflexivity].
  apply list_elem_of_further, list_elem_of_here.
Defined.

(** A message of a thread that is also in a third mailbox is moved: its new mailbox gets no row. *)
Definition spread_store : MailDb :=
  set_mailboxThreads (λ _, [ex_row "t1"%js 0 false; with_row "b3"%js None 0 false 0 (ex_row "t1"%js 0 false)])
    (set_messages (λ _, [ex_mail "m1"%js "t1"%js 3 true false;
                         with_location "b3"%js None 0 (ex_mail "m2"%js "t1"%js 7 true false)])
       (set_mailboxes (λ l, l ++ [ex_box "b3" "sent" "Sent"]%js) ImapSpecs.ex_store)).

Lemma spread_store_consistent : consistent spread_store.
Proof.
  constructor.
  - apply (bool_decide_unpack _). vm_compute. exact I.
  - apply (bool_decide_unpack _). vm_compute. exact I.
  - intros k. unfold thread_key, msg_key. simpl. set_solver.
  - apply (bool_decide_unpack _). vm_compute. exact I.
  - apply (bool_decide_unpack _). vm_compute. exact I.
Qed.

Lemma moved_thread_loses_a_row :
  let s' := (on_message Z.of_nat ex_new_id (λ _, None) (λ _, None) ex_new_id all_uploads (λ _, true) (λ _, true)
               (λ _, VNull) "u1" "b2" "Trash" (new_mail 5 "m1" (Some "m1")) spread_store)%js.1 in
  map msg_key (messages s') = [("t1", "b2"); ("t1", "b3")]%js ∧
  map thread_key (mailboxThreads s') = [("t1", "b3")]%js ∧ ¬ consistent s'.
Proof.
  cbv zeta. split; [by vm_compute|]. split; [by vm_compute|]. intros Hc.
  assert (("t1", "b2")%js ∈ [("t1", "b3")]%js) as Hin; [|set_solver].
  pose proof (rows_mirror _ Hc ("t1", "b2")%js) as [_ H]. vm_compute in H. apply H. by left.
Qed.
