(* ===== verification/Backfill.v ===== *)
(** * Fetching old mail ([apps/worker/lib/imap/backfill/backfill-full.ts])

    Every two minutes each mailbox of each account is taken back one window of uids, from the
    cursor [mailbox_sync] holds down to 1, as long as the identity's quota of bytes lasts. *)

From stdpp Require Import base list.
From Stdlib Require Import Floats.SpecFloat.
From S2P Require Import Prelude JsString JsRegex JsNumber JsValue RuleMatcher ContactTable MailDb MailRollup.
From S2P Require Import Imap ImapOps Ingest ImapSync.

(** ** Quotas *)

(** [500 * 1024 * 1024] *)
Definition defaultImapQuota : num := num_of_Z 524288000.

Definition getDailyQuota (r : IdentityRow) : num :=
  let val := js_number (get_prop (VObj (default [] (id_metaData r))) "dailyQuota"%js) in
  if is_finite_num val && num_gtb val num_zero then val else defaultImapQuota.

(** [now.add(2, "minute").toString()] has no milliseconds. *)
Definition quota_expiry (now : Z) : Z := ((now + 120000) / 1000 * 1000)%Z.

Definition getOrInitQuota (clock : nat → Z) (identityId : jsstr) (dailyLimitBytes : num) : proc unit :=
  now ← new_Date clock;
  s ← read;
  match jm_get identityId (identityQuotaMap (ingest s)) with
  | Some existing =>
      if (now <? expiresAt existing)%Z then mret tt
      else modify (set_quotas (jm_set identityId {| limit := dailyLimitBytes; expiresAt := quota_expiry now |}))
  | None => modify (set_quotas (jm_set identityId {| limit := dailyLimitBytes; expiresAt := quota_expiry now |}))
  end.

(** [quota.limit] of the object in the map, and its assignment. *)
Definition quota_limit (identityId : jsstr) (s : MailDb) : num :=
  from_option limit num_zero (jm_get identityId (identityQuotaMap (ingest s))).

Definition set_limit (identityId : jsstr) (l : num) : proc unit :=
  modify (set_quotas (λ q, match jm_get identityId q with
                           | Some e => jm_set identityId {| limit := l; expiresAt := expiresAt e |} q
                           | None => q
                           end)).

(** [Math.max(0, x)] *)
Definition max_zero (x : num) : num := match x with S754_nan => S754_nan | _ => if num_gtb x num_zero then x else num_zero end.

(** ** Messages *)

(** [mapImapFlags]: seen, answered, flagged, draft. *)
Definition has_flag (flags : list jsstr) (x : jsstr) : bool :=
  existsb (λ v, bool_decide (toLowerCase v = toLowerCase x)) flags.

Definition mapImapFlags (flags : list jsstr) : bool * bool * bool * bool :=
  (has_flag flags "\seen"%js, has_flag flags "\answered"%js, has_flag flags "\flagged"%js, has_flag flags "\draft"%js).

(** [Buffer.byteLength(raw, "utf8")]: characters from 128 on take two bytes. *)
Definition byteLength (raw : jsstr) : Z := foldr (λ a n, (if (code a <? 128)%Z then 1 else 2) + n)%Z 0%Z raw.

Definition message_size (m : FetchMessage) : num := num_of_Z (default (byteLength (default [] (f_source m))) (f_size m)).

Definition backfill_options (ownerId mailboxId path : jsstr) (m : FetchMessage) : StoreOptions :=
  let '(seen, answered, flagged, _) := mapImapFlags (f_flags m) in
  {| so_ownerId := ownerId; so_mailboxId := mailboxId;
     so_rawStorageKey := "eml/"%js ++ ownerId ++ "/"%js ++ mailboxId ++ "/"%js ++ f_id m ++ ".eml"%js;
     so_metaData := Some [("imap"%js, VObj [("uid", VNum (num_of_Z (f_uid m))); ("mailboxPath", VStr path);
       ("flags", VArr (map VStr (f_flags m))); ("sizeBytes", from_option (λ n, VNum (num_of_Z n)) VNull (f_size m));
       ("internalDate", nullish_or (f_internalDate m) VNull)]%js)];
     so_seen := Some seen; so_answered := Some answered; so_flagged := Some flagged; so_mode := backfill |}.

(** ** One mailbox *)

Definition set_cursor (cursor : Z) (ph : jsstr) (now : Z) (r : MailboxSyncRow) : MailboxSyncRow :=
  {| sy_id := sy_id r; sy_identityId := sy_identityId r; sy_mailboxId := sy_mailboxId r; lastSeenUid := lastSeenUid r;
     backfillCursorUid := cursor; phase := ph; syncedAt := syncedAt r; sy_updatedAt := now |}.

Section Backfill.
Context `{ImapServer} (credentials_of : IdentityRow → option jsval) (clock : nat → Z).
Context (new_id : MailDb → jsstr) (simpleParser : jsstr → option ParsedMail) (parse_url : jsstr → option Url).
Context (uuid : MailDb → jsstr) (upload_ok : list jsstr → jsstr → bool) (message_ok : MessageRow → bool).
Context (attachment_ok : AttachmentRow → bool) (row_json : MessageRow → jsval).
Abbreviation parse := (parseAndStoreEmail clock new_id simpleParser parse_url uuid upload_ok message_ok
  attachment_ok row_json).

Definition DEFAULT_WINDOW : Z := 300.
Definition TAIL_WINDOW : Z := 200.

(** The [for await] loop: the bytes of the batch, and whether it was left by [break]. *)
Fixpoint backfill_loop (identityId ownerId mailboxId path : jsstr) (msgs : list FetchMessage) (batchBytes : num) :
    proc (num * bool) :=
  match msgs with
  | [] => mret (batchBytes, false)
  | m :: rest =>
      s ← read;
      let l := quota_limit identityId s in
      if num_leb l num_zero then mret (batchBytes, true)
      else
        let raw := default [] (f_source m) in
        if negb (truthy raw) then backfill_loop identityId ownerId mailboxId path rest batchBytes
        else if num_gtb (message_size m) l then
          _ ← set_limit identityId num_zero;
          mret (batchBytes, true)
        else
          _ ← parse raw (backfill_options ownerId mailboxId path m);
          backfill_loop identityId ownerId mailboxId path rest (num_add batchBytes (message_size m))
  end.

Definition update_sync (syncId : jsstr) (f : Z → MailboxSyncRow → MailboxSyncRow) : proc unit :=
  now ← new_Date clock;
  modify (set_mailboxSync (update_where (λ r, bool_decide (sy_id r = syncId)) (f now))).

(** The window below the cursor. *)
Definition backfill_window (c : nat) (identityId ownerId mailboxId path syncId : jsstr) (cursor : Z) : proc unit :=
  _ ← update_sync syncId (λ now r, set_cursor (backfillCursorUid r) "BACKFILL"%js now r);
  let start := Z.max 1 (cursor - DEFAULT_WINDOW + 1) in
  '(msgs, ended) ← fetch c start cursor;
  '(batchBytes, broke) ← backfill_loop identityId ownerId mailboxId path msgs num_zero;
  _ ← (if broke || ended then mret tt else throw);
  s ← read;
  _ ← (if num_gtb batchBytes num_zero
       then set_limit identityId (max_zero (num_sub (quota_limit identityId s) batchBytes)) else mret tt);
  let cursor' := (start - 1)%Z in
  update_sync syncId (λ now r, set_cursor cursor' (if (cursor' <=? 0)%Z then "IDLE"%js else "BACKFILL"%js) now r).

Definition backfillMailboxFull (c : nat) (identityId ownerId mailboxId path : jsstr) : proc unit :=
  s ← read;
  if num_leb (quota_limit identityId s) num_zero then mret tt
  else
    _ ← send c (OpenBox path);
    s ← read;
    let top := Z.max 0 (default 1 (uidNext (imap s) c path) - 1)%Z in
    match find_sync identityId mailboxId s with
    | None => mret tt
    | Some sync =>
        _ ← (if (lastSeenUid sync =? 0)%Z
             then update_sync (sy_id sync) (λ now r, set_lastSeen (Z.max 0 (top - TAIL_WINDOW + 1)) now r)
             else mret tt);
        let cursor := backfillCursorUid sync in
        if (cursor <=? 0)%Z then update_sync (sy_id sync) (λ now r, set_cursor 0 "IDLE"%js now r)
        else backfill_window c identityId ownerId mailboxId path (sy_id sync) cursor
    end.

(** ** All mailboxes *)

(** [toUpperCase() === "INBOX"] and the like. *)
Definition isInbox (row : MailboxRow) : bool :=
  let text k := match get_prop (imap_of (mb_metaData row)) k with VStr t => t | _ => [] end in
  mb_isDefault row || bool_decide (toUpperCase (text "path"%js) = "INBOX"%js) ||
  bool_decide (toUpperCase (text "specialUse"%js) = "\INBOX"%js).

Definition inboxFirst (rows : list MailboxRow) : list MailboxRow :=
  filter (λ r, isInbox r = true) rows ++ filter (λ r, isInbox r = false) rows.

Fixpoint backfill_mailboxes (c : nat) (identityId ownerId : jsstr) (rows : list MailboxRow) : proc unit :=
  match rows with
  | [] => mret tt
  | row :: rest =>
      s ← read;
      if num_leb (quota_limit identityId s) num_zero then mret tt
      else
        _ ← match get_prop (imap_of (mb_metaData row)) "path"%js with
            | VStr path =>
                if truthy path then backfillMailboxFull c identityId ownerId (mb_id row) path else mret tt
            | _ => mret tt
            end;
        backfill_mailboxes c identityId ownerId rest
  end.

Definition startFullBackfillForIdentity (c : nat) (identityId : jsstr) : proc unit :=
  catch
    (s ← read;
     if num_leb (quota_limit identityId s) num_zero then mret tt
     else
       match List.find (λ i, bool_decide (id_id i = identityId)) (identities s) with
       | None => mret tt
       | Some ident =>
           backfill_mailboxes c identityId (id_ownerId ident)
             (inboxFirst (filter (λ b, mb_identityId b = identityId) (mailboxes s)))
       end)
    (mret tt).

Definition backfill_identity (r : IdentityRow) : proc unit :=
  _ ← getOrInitQuota clock (id_id r) (getDailyQuota r);
  s ← read;
  if num_leb (quota_limit (id_id r) s) num_zero then mret tt
  else
    o ← initSmtpClient credentials_of (id_id r);
    match o with
    | None => mret tt
    | Some c => startFullBackfillForIdentity c (id_id r)
    end.

Definition startFullBackfill : proc unit :=
  s ← read;
  each backfill_identity (filter (λ r, id_kind r = "email"%js ∧ opt_truthy (smtpAccountId r) = true) (identities s)).
End Backfill.
