(* ===== verification/BackfillSpecs.v ===== *)
(** * What a backfill reaches

    A window that ends without an error and within the quota has taken over every message in it,
    and enough windows take over the whole mailbox.  A window that meets the end of the quota
    leaves messages behind that no later one returns to. *)

From stdpp Require Import base list.
From Stdlib Require Import Floats.SpecFloat.
From S2P Require Import Prelude JsString JsRegex JsNumber JsValue RuleMatcher ContactTable MailDb MailRollup.
From S2P Require Import Imap ImapOps ImapInvariant Ingest IngestSpecs IngestTheorems ImapSpecs ImapSync RulesProcessor.
From S2P Require Import DeltaFetch DeltaSpecs Backfill.

(** ** The quota *)

Lemma set_limit_zero i s : quota_limit i (set_limit i num_zero s).1 = num_zero.
Proof.
  unfold quota_limit, set_limit, modify. simpl. destruct (jm_get i (identityQuotaMap (ingest s))) as [e|] eqn:E.
  - by rewrite jm_get_set_eq.
  - by rewrite E.
Qed.

(** Nothing is left after zero. *)
Lemma max_zero_spent b : num_gtb b num_zero = true → num_leb (max_zero (num_sub num_zero b)) num_zero = true.
Proof. by destruct b as [[]|[]| |[] m e]. Qed.

Lemma limit_spent i b s :
  quota_limit i s = num_zero → num_gtb b num_zero = true →
  num_leb (quota_limit i (set_limit i (max_zero (num_sub (quota_limit i s) b)) s).1) num_zero = true.
Proof.
  intros E Hb. rewrite E. unfold set_limit, quota_limit, modify in *. simpl.
  destruct (jm_get i (identityQuotaMap (ingest s))) as [e|] eqn:Ej.
  - rewrite jm_get_set_eq. by apply max_zero_spent.
  - by rewrite Ej.
Qed.

Section Specs.
Context `{ImapServer} (clock : nat → Z).
Context (new_id : MailDb → jsstr) (simpleParser : jsstr → option ParsedMail) (parse_url : jsstr → option Url).
Context (uuid : MailDb → jsstr) (upload_ok : list jsstr → jsstr → bool) (message_ok : MessageRow → bool).
Context (attachment_ok : AttachmentRow → bool) (row_json : MessageRow → jsval).
Context (Hfresh : ∀ s, new_id s ∉ map m_id (messages s)).
Abbreviation parse := (parseAndStoreEmail clock new_id simpleParser parse_url uuid upload_ok message_ok
  attachment_ok row_json).
Abbreviation backfill_loop := (backfill_loop clock new_id simpleParser parse_url uuid upload_ok message_ok
  attachment_ok row_json).
Context (c : nat) (i o b path : jsstr) (box : list FetchMessage) (Hfetch : faithful_fetch c path box).
(** Mailboxes of the owner, with the one that is filled. *)
Context (bs : list jsstr) (Hb : b ∈ bs).
Abbreviation run := (backfillMailboxFull clock new_id simpleParser parse_url uuid upload_ok message_ok
  attachment_ok row_json c i o b path).
Abbreviation still := (still_stored (taken simpleParser o bs) (kept_apart o bs)).

(** The quota has run out. *)
Definition exhausted (s : MailDb) : Prop := num_leb (quota_limit i s) num_zero = true.

Definition has_source (m : FetchMessage) : Prop := truthy (default [] (f_source m)) = true.

Lemma still_unchanged s s' : messages s' = messages s → still s s'.
Proof.
  intros E Hs. split; [by eapply kept_apart_unchanged|]. intros m. apply taken_keeps; [done|].
  by apply keeps_unchanged.
Qed.

Lemma parse_still raw opts s : so_ownerId opts = o → so_mailboxId opts = b → still s (parse raw opts s).1.
Proof.
  intros Ho Hob Hs. pose proof (parse_keeps clock new_id simpleParser parse_url uuid upload_ok message_ok attachment_ok
    row_json Hfresh o bs raw opts Ho ltac:(by rewrite Hob) s) as Hk. split; [by apply Hk|]. intros m. by apply taken_keeps.
Qed.

(** The loop: either it went through all messages, or the quota is spent. *)
Lemma backfill_loop_spec msgs batch s s' out :
  kept_apart o bs s → ¬ exhausted s → backfill_loop i o b path msgs batch s = (s', out) →
  still s s' ∧ mailboxSync s' = mailboxSync s ∧ imap s' = imap s ∧
  match out with
  | Done (_, false) => quota_limit i s' = quota_limit i s ∧ ∀ m, m ∈ msgs → has_source m → taken simpleParser o bs s' m
  | Done (_, true) => quota_limit i s' = num_zero
  | Threw => True
  end.
Proof.
  unfold exhausted. revert batch s. induction msgs as [|m msgs IH]; intros batch s Hs Hq; cbn [Backfill.backfill_loop].
  - intros [= <- <-]. do 4 (split; [done|]). intros m Hm. by apply not_elem_of_nil in Hm.
  - unfold mbind, proc_bind. cbn [read]. rewrite (not_true_is_false _ Hq).
    destruct (truthy (default [] (f_source m))) eqn:Esrc; cbn [negb].
    2: { intros E. destruct (IH _ _ Hs Hq E) as (H1 & H2 & H3 & H4). split; [done|]. split; [done|]. split; [done|].
         destruct out as [[b' []]|]; [done| |done]. destruct H4 as [H4 H5]. split; [done|].
         intros m' [-> |Hm']%elem_of_cons Hm; [|by apply H5]. unfold has_source in Hm. congruence. }
    destruct (num_gtb _ _).
    { unfold set_limit, modify. intros [= <- <-]. split; [by apply still_unchanged|]. split; [done|]. split; [done|].
      exact (set_limit_zero i s). }
    set (opts := backfill_options o b path m). pose proof (parse_still (default [] (f_source m)) opts s eq_refl eq_refl) as Hst.
    pose proof (parse_same_sync clock new_id simpleParser parse_url uuid upload_ok message_ok attachment_ok row_json
      (default [] (f_source m)) opts s) as (Es & Ei & Eq).
    destruct (parse _ opts s) as [s1 [r|]] eqn:Ep; simpl in *; [|by intros [= <- <-]].
    assert (quota_limit i s1 = quota_limit i s) as El by (unfold quota_limit; by rewrite Eq).
    intros E. destruct (IH _ s1 (proj1 (Hst Hs)) ltac:(by rewrite El) E) as (H1 & H2 & H3 & H4).
    rewrite H2, H3, Es, Ei. split; [by trans s1|]. split; [done|]. split; [done|].
    destruct out as [[b' []]|]; [done| |done]. rewrite <- El. destruct H4 as [H4 H5]. split; [done|].
    intros m' [-> |Hm']%elem_of_cons Hm; [|by apply H5].
    apply H1; [by apply Hst|]. eapply (parse_taken clock new_id simpleParser parse_url uuid upload_ok message_ok
      attachment_ok row_json Hfresh o bs _ opts s); [exact Hs|done|exact Hb|exact Ep|done].
Qed.

(** The row of the mailbox, its cursor and its last uid; the mailbox is open. *)
Definition cursor_at (y : jsstr) (s : MailDb) (cursor last : Z) : Prop :=
  (∃ row, find_sync i b s = Some row ∧ sy_id row = y ∧ backfillCursorUid row = cursor ∧ lastSeenUid row = last) ∧
  opened c (imap s) = Some path.

Lemma update_sync_spec y f s row :
  find_sync i b s = Some row → sy_id row = y →
  (∀ now r, sy_identityId (f now r) = sy_identityId r ∧ sy_mailboxId (f now r) = sy_mailboxId r) →
  ∃ s', update_sync clock y f s = (s', Done tt) ∧ find_sync i b s' = Some (f (clock (ticks s)) row) ∧ still s s' ∧
    imap s' = imap s ∧ identityQuotaMap (ingest s') = identityQuotaMap (ingest s).
Proof.
  intros Hrow Hy Hf. unfold update_sync. unfold_proc. eexists. split; [reflexivity|].
  split; [by apply (find_update i b y _ (tick s) row)|]. split; [by apply still_unchanged|done].
Qed.

Lemma set_limit_spec l s :
  ∃ s', set_limit i l s = (s', Done tt) ∧ still s s' ∧ mailboxSync s' = mailboxSync s ∧ imap s' = imap s.
Proof. unfold set_limit, modify. eexists. split; [reflexivity|]. split; [by apply still_unchanged|done]. Qed.

(** A window: an error leaves the cursor where it is; otherwise it moves down by the window, and what
    it has passed is taken over or the quota is spent. *)
Lemma backfill_window_spec y cursor last s s' out :
  kept_apart o bs s → ¬ exhausted s → (0 < cursor)%Z → cursor_at y s cursor last →
  backfill_window clock new_id simpleParser parse_url uuid upload_ok message_ok attachment_ok row_json
    c i o b path y cursor s = (s', out) →
  let start := Z.max 1 (cursor - DEFAULT_WINDOW + 1) in
  still s s' ∧
  match out with
  | Done _ =>
      (∃ row, find_sync i b s' = Some row ∧ backfillCursorUid row = (start - 1)%Z ∧ lastSeenUid row = last ∧
        phase row = (if (start - 1 <=? 0)%Z then "IDLE" else "BACKFILL")%js) ∧
      (exhausted s' ∨ ∀ m, m ∈ box → (start ≤ f_uid m ≤ cursor)%Z → has_source m → taken simpleParser o bs s' m)
  | Threw => ∃ row, find_sync i b s' = Some row ∧ backfillCursorUid row = cursor ∧ lastSeenUid row = last
  end.
Proof.
  intros Hs Hq Hc [(row & Hrow & Hy & Hcur & Hlast) Hop]. unfold backfill_window.
  destruct (update_sync_spec y (λ now r, set_cursor (backfillCursorUid r) "BACKFILL"%js now r) s row Hrow Hy)
    as (s1 & E1 & Hrow1 & Hst1 & Ei1 & Eq1); [done|].
  set (start := Z.max 1 (cursor - DEFAULT_WINDOW + 1)). unfold mbind, proc_bind. rewrite E1. clear E1.
  set (row1 := set_cursor _ _ _ row) in *. unfold fetch.
  destruct (fetched (imap s1) c start cursor) as [msgs ended] eqn:Ef. cbn -[update_sync Backfill.backfill_loop].
  set (s2 := set_imap _ s1). assert (still s s2) as Hst2 by (trans s1; [done|by apply still_unchanged]).
  assert (find_sync i b s2 = Some row1) as Hrow2 by done.
  assert (¬ exhausted s2) as Hq2 by (unfold exhausted, quota_limit in *; simpl; by rewrite Eq1).
  destruct (backfill_loop i o b path msgs num_zero s2) as [s3 o3] eqn:El.
  apply backfill_loop_spec in El as (Hst3 & Es3 & Ei3 & H3); [|by apply Hst2|done].
  assert (still s s3) as Hst3' by by trans s2.
  assert (find_sync i b s3 = Some row1) as Hrow3 by by unfold find_sync in *; rewrite Es3.
  destruct o3 as [[bytes broke]|]; [|intros [= <- <-]; split; [done|]; by exists row1].
  destruct (broke || ended) eqn:Ebe; cbn -[update_sync]; [|intros [= <- <-]; split; [done|]; by exists row1].
  set (q := if num_gtb bytes num_zero then _ else _).
  assert (∃ s4, q s3 = (s4, Done tt) ∧ still s3 s4 ∧ mailboxSync s4 = mailboxSync s3 ∧
    (broke = true → exhausted s4)) as (s4 & -> & Hst4 & Es4 & Hex).
  { subst q. unfold exhausted. destruct (num_gtb bytes num_zero) eqn:Eb.
    - destruct (set_limit_spec (max_zero (num_sub (quota_limit i s3) bytes)) s3) as (s4 & E4 & Hst4 & Es4 & _).
      exists s4. repeat (split; [done|]). intros ->.
      pose proof (limit_spent i bytes s3 H3 Eb) as Hl. by rewrite E4 in Hl.
    - exists s3. repeat (split; [done|]). intros ->. by rewrite H3. }
  assert (find_sync i b s4 = Some row1) as Hrow4 by by unfold find_sync in *; rewrite Es4.
  destruct (update_sync_spec y (λ now r, set_cursor (start - 1) (if (start - 1 <=? 0)%Z then "IDLE"%js else "BACKFILL"%js) now r)
    s4 row1 Hrow4 Hy) as (s5 & -> & Hrow5 & Hst5 & _ & Eq5); [done|]. intros [= <- <-].
  assert (still s3 s5) as Hst5' by by trans s4.
  split; [by trans s3|]. split; [eexists; by split|].
  destruct broke; [left|right].
  - unfold exhausted, quota_limit in *. rewrite Eq5. by apply Hex.
  - destruct ended; [|done]. intros m Hm Hr Hsrc. apply Hst5'; [by apply Hst3'|]. apply (proj2 H3); [|done].
    apply (Hfetch (imap s1) start cursor msgs); [by rewrite Ei1|done|done].
Qed.

(** One call for a mailbox. *)
Lemma backfillMailboxFull_run s sync s' out :
  kept_apart o bs s → find_sync i b s = Some sync → run s = (s', out) →
  still s s' ∧ ∃ row, find_sync i b s' = Some row ∧
  match out with
  | Threw => backfillCursorUid row = backfillCursorUid sync
  | Done _ =>
      ( exhausted s ∧ s' = s )
      ∨ ( (backfillCursorUid sync ≤ 0)%Z ∧ backfillCursorUid row = 0%Z ∧ phase row = "IDLE"%js )
      ∨ let start := Z.max 1 (backfillCursorUid sync - DEFAULT_WINDOW + 1) in
        (0 < backfillCursorUid sync)%Z ∧ backfillCursorUid row = (start - 1)%Z ∧
        phase row = (if (start - 1 <=? 0)%Z then "IDLE" else "BACKFILL")%js ∧
        (exhausted s' ∨ ∀ m, m ∈ box → (start ≤ f_uid m ≤ backfillCursorUid sync)%Z → has_source m →
                          taken simpleParser o bs s' m)
  end.
Proof.
  intros Hs Hsync. unfold backfillMailboxFull. unfold mbind at 1, proc_bind at 1. cbn [read].
  destruct (num_leb (quota_limit i s) num_zero) eqn:Eq.
  { intros [= <- <-]. split; [done|]. exists sync. split; [done|]. by left. }
  unfold send. unfold mbind at 1, proc_bind at 1. set (s0 := set_imap _ s).
  assert (still s s0) as Hst0 by by apply still_unchanged.
  destruct (accepts (imap s) c (OpenBox path)) eqn:Ea; [|intros [= <- <-]; split; [done|]; by exists sync].
  assert (opened c (imap s0) = Some path) as Hop.
  { subst s0. simpl. rewrite opened_app. unfold open_event. simpl. by rewrite bool_decide_eq_true_2. }
  unfold mbind at 1, proc_bind at 1. cbn [read]. set (top := Z.max 0 (default 1%Z (uidNext (imap s0) c path) - 1)).
  change (find_sync i b s0) with (find_sync i b s). rewrite Hsync. unfold mbind, proc_bind.
  set (q := if (lastSeenUid sync =? 0)%Z then _ else _).
  assert (∃ s1 row1, q s0 = (s1, Done tt) ∧ find_sync i b s1 = Some row1 ∧ sy_id row1 = sy_id sync ∧
    backfillCursorUid row1 = backfillCursorUid sync ∧ still s0 s1 ∧ imap s1 = imap s0 ∧
    identityQuotaMap (ingest s1) = identityQuotaMap (ingest s0))
    as (s1 & row1 & -> & Hrow1 & Hy1 & Hc1 & Hst1 & Ei1 & Eq1).
  { subst q. destruct (_ =? 0)%Z; [|by exists s0, sync].
    destruct (update_sync_spec (sy_id sync) (λ now r, set_lastSeen (Z.max 0 (top - TAIL_WINDOW + 1)) now r) s0 sync Hsync)
      as (s1 & -> & Hr & ? & ? & ?); [done..|]. by exists s1, (set_lastSeen (Z.max 0 (top - TAIL_WINDOW + 1)) (clock (ticks s0)) sync). }
  destruct (backfillCursorUid sync <=? 0)%Z eqn:Ec; bool_to_prop.
  - destruct (update_sync_spec (sy_id sync) (λ now r, set_cursor 0 "IDLE"%js now r) s1 row1 Hrow1 Hy1)
      as (s2 & -> & Hr & Hst2 & _); [done|]. intros [= <- <-].
    split; [trans s1; [by trans s0|done]|]. eexists. split; [exact Hr|]. right; left. by split.
  - intros E. rewrite <- Hc1 in E. apply (backfill_window_spec (sy_id sync) (backfillCursorUid row1) (lastSeenUid row1)) in E
      as [Hst2 Hout]; [|by apply Hst1, Hst0| |lia|].
    + split; [trans s1; [by trans s0|done]|]. rewrite Hc1 in Hout. destruct out as [u|].
      * destruct Hout as [(row & ? & ? & ? & ?) Hall]. exists row. split; [done|]. right; right. by split.
      * destruct Hout as (row & ? & ? & ?). by exists row.
    + unfold exhausted, quota_limit in *. rewrite Eq1. simpl. congruence.
    + split; [by exists row1|]. by rewrite Ei1.
Qed.

(** A call never skips mail as long as the quota lasts: an error leaves the cursor where it was, and
    otherwise the cursor moves down by one window, to 0 at the lowest, and every message it has
    passed that has a text is taken over. *)
Theorem backfillMailboxFull_no_loss s sync :
  kept_apart o bs s → find_sync i b s = Some sync → (0 < backfillCursorUid sync)%Z →
  ∃ row, find_sync i b (run s).1 = Some row ∧
  match (run s).2 with
  | Threw => backfillCursorUid row = backfillCursorUid sync
  | Done _ => exhausted (run s).1 ∨
      backfillCursorUid row = Z.max 0 (backfillCursorUid sync - 300) ∧
      (phase row = "IDLE"%js ↔ backfillCursorUid row = 0%Z) ∧
      ∀ m, m ∈ box → (backfillCursorUid row < f_uid m ≤ backfillCursorUid sync)%Z → has_source m →
        taken simpleParser o bs (run s).1 m
  end.
Proof.
  intros Hs Hsync Hpos. destruct (run s) as [s' out] eqn:E. simpl.
  destruct (backfillMailboxFull_run s sync s' out Hs Hsync E) as (_ & row & Hrow & Hout). exists row. split; [done|].
  destruct out as [u|]; [|done]. destruct Hout as [[Hex ->]|[[? _]|(_ & Hc & Hp & Hall)]]; [by left|lia|].
  destruct Hall as [?|Hall]; [by left|right]. unfold DEFAULT_WINDOW in *. split; [lia|].
  split; [|intros m Hm Hr; apply Hall; [done|lia]].
  rewrite Hp, Hc. destruct (_ <=? 0)%Z eqn:Ez; bool_to_prop; split; done || lia.
Qed.

(** Calls for the mailbox, one after the other, that end without an error and within the quota; in
    between anything may happen that leaves the row of the mailbox and the stored mail. *)
Inductive passes : nat → MailDb → MailDb → Prop :=
| passes_O s : passes 0 s s
| passes_S n s s1 s2 s3 :
    run s = (s1, Done tt) → ¬ exhausted s1 → still s1 s2 → find_sync i b s2 = find_sync i b s1 →
    passes n s2 s3 → passes (S n) s s3.

Lemma passes_spec n s s' sync :
  kept_apart o bs s → find_sync i b s = Some sync → passes n s s' →
  still s s' ∧ ∃ row, find_sync i b s' = Some row ∧
    (n = 0 → row = sync) ∧
    (0 < n → backfillCursorUid row = Z.max 0 (backfillCursorUid sync - 300 * Z.of_nat n) ∧
             (backfillCursorUid row = 0%Z → phase row = "IDLE"%js)) ∧
    ∀ m, m ∈ box → (Z.max 0 (backfillCursorUid sync - 300 * Z.of_nat n) < f_uid m ≤ backfillCursorUid sync)%Z →
      has_source m → taken simpleParser o bs s' m.
Proof.
  intros Hs Hsync Hp. revert sync Hs Hsync.
  induction Hp as [s|n s s1 s2 s3 E Hex Hst Hf _ IH]; intros sync Hs Hsync.
  { split; [done|]. exists sync. split; [done|]. split; [done|]. split; [lia|]. intros m _ ?. lia. }
  destruct (backfillMailboxFull_run s sync s1 _ Hs Hsync E) as (Hst1 & row & Hrow & Hout). rewrite <- Hf in Hrow.
  assert (still s s2) as Hst2 by by trans s1.
  destruct (IH row (proj1 (Hst2 Hs)) Hrow) as (Hst3 & row3 & Hrow3 & H0 & HS & Hall).
  split; [by trans s2|]. exists row3. split; [done|]. split; [done|].
  assert (backfillCursorUid row = Z.max 0 (backfillCursorUid sync - 300) ∧
    (backfillCursorUid row = 0%Z → phase row = "IDLE"%js) ∧
    ∀ m, m ∈ box → (backfillCursorUid row < f_uid m ≤ backfillCursorUid sync)%Z → has_source m → taken simpleParser o bs s1 m)
    as (Hc & Hp & Hwin).
  { unfold DEFAULT_WINDOW in Hout. destruct Hout as [[? ->]|[(? & -> & ->)|(? & Hc & Hp & [?|Hall'])]]; [done| |done|].
    - split; [lia|]. split; [done|]. intros m _ ?. lia.
    - split; [lia|]. split; [|intros m Hm Hr; apply Hall'; [done|lia]]. intros Hz. rewrite Hp.
      destruct (_ <=? 0)%Z eqn:Ez; bool_to_prop; [done|lia]. }
  split.
  - intros _. destruct n as [|n]; [rewrite (H0 eq_refl); split; [lia|done]|]. destruct (HS ltac:(lia)) as [Hcn Hpn].
    split; [lia|done].
  - intros m Hm Hr Hsrc. destruct (decide (f_uid m ≤ backfillCursorUid row)%Z) as [Hle|Hgt].
    + apply Hall; [done|lia|done].
    + apply Hst3; [by apply Hst2|]. apply Hst; [by apply Hst1|]. apply Hwin; [done|lia|done].
Qed.

(** C7: Enough windows finish a backfill, if none of them fails or meets the end of the quota.  Take
    calls for a mailbox, one after the other, each of which ends without an error and with quota
    left, while what happens in between keeps the cursor and the stored mail; the ids and Message-IDs
    of the tables unique and the messages of a mailbox one owner's; and a server that answers a fetch
    with what the mailbox holds.  After as many calls as the cursor has windows of 300 the cursor is
    at 0, the mailbox is idle, and for every message up to the first cursor that the server gives
    with its source there is a message of the owner, in one of the mailboxes, with its Message-ID,
    unless it has none. *)
Theorem backfill_completes n s s' sync :
  kept_apart o bs s → find_sync i b s = Some sync → passes n s s' → 0 < n →
  (backfillCursorUid sync ≤ 300 * Z.of_nat n)%Z →
  (∃ row, find_sync i b s' = Some row ∧ backfillCursorUid row = 0%Z ∧ phase row = "IDLE"%js) ∧
  ∀ m, m ∈ box → (0 < f_uid m ≤ backfillCursorUid sync)%Z → has_source m → taken simpleParser o bs s' m.
Proof.
  intros Hs Hsync Hp Hn Hle. destruct (passes_spec n s s' sync Hs Hsync Hp) as (_ & row & Hrow & _ & HS & Hall).
  destruct (HS Hn) as [Hc Hi]. assert (backfillCursorUid row = 0%Z) as Hz by lia.
  split; [by exists row; auto|]. intros m Hm Hr. apply Hall; [done|lia].
Qed.
End Specs.

(** ** Concrete runs *)

(** A mailbox with mails 5 and 8, the cursor at 9, and a quota. *)
Definition old_mail (uid size : Z) (text : jsstr) : FetchMessage :=
  {| f_uid := uid; f_id := text; f_messageId := None; f_source := Some text; f_flags := ["\seen"%js]; f_size := Some size;
     f_internalDate := VUndef |}.

Definition old_box : list FetchMessage := [old_mail 5 10 "n5"; old_mail 8 20 "n8"]%js.

Definition backfill_server : ImapServer := {|
  authenticated := λ _ _, true; usable := λ _ _, true; accepts := λ _ _ _, true; search_all := λ _ _, [];
  uidNext := λ _ _ _, Some 10%Z; uidValidity := λ _ _ _, 1%Z;
  fetched := λ _ _ a b, (filter (λ m, a ≤ f_uid m ≤ b)%Z old_box, true);
  list_boxes := λ _ _, []; rejection := λ _ _ _, [] |}.

Lemma old_faithful c path : @faithful_fetch backfill_server c path old_box.
Proof. intros log a b msgs _ [= <-] m. rewrite list_elem_of_filter. tauto. Qed.

Definition backfill_store (quota uidNext cursor last : Z) : MailDb :=
  set_quotas (λ _, [("i1"%js, {| limit := num_of_Z quota; expiresAt := 0%Z |})])
    (set_mailboxSync (λ _, [ {| sy_id := "y"%js; sy_identityId := "i1"%js; sy_mailboxId := "b1"%js; lastSeenUid := last;
       backfillCursorUid := cursor; phase := "BACKFILL"%js; syncedAt := None; sy_updatedAt := 0 |} ])%Z
     ImapSpecs.ex_store).

Lemma backfill_store_apart quota uidNext cursor last :
  kept_apart "u1"%js ["b1"%js] (backfill_store quota uidNext cursor last).
Proof. apply apart_by_computation; apply (bool_decide_unpack _); vm_compute; exact I. Qed.

Abbreviation ex_backfill := (@backfillMailboxFull backfill_server Z.of_nat ex_new_id
  (λ raw, Some (ex_parsed (Some raw) None NoReferences [])) (λ _, None) ex_new_id all_uploads (λ _, true) (λ _, true)
  (λ _, VNull) 0 "i1"%js "u1"%js "b1"%js "INBOX"%js).

Lemma ex_backfill_run :
  let s' := (ex_backfill (backfill_store 1000 10 9 1)).1 in
  map m_messageId (messages s') = ["m1"; "m2"; "m3"; "n5"; "n8"]%js ∧
  map (λ r, (backfillCursorUid r, phase r)) (mailboxSync s') = [(0%Z, "IDLE"%js)] ∧
  quota_limit "i1"%js s' = num_of_Z 970.
Proof. by vm_compute. Qed.

Lemma backfillMailboxFull_no_loss_witness :
  (0 < 9)%Z ∧ ∀ m, m ∈ old_box → (0 < f_uid m ≤ 9)%Z → has_source m →
    taken (λ raw, Some (ex_parsed (Some raw) None NoReferences [])) "u1"%js ["b1"%js] (ex_backfill (backfill_store 1000 10 9 1)).1 m.
Proof.
  split; [lia|].
  destruct (@backfillMailboxFull_no_loss backfill_server Z.of_nat ex_new_id
    (λ raw, Some (ex_parsed (Some raw) None NoReferences [])) (λ _, None) ex_new_id all_uploads (λ _, true) (λ _, true)
    (λ _, VNull) ex_fresh 0 "i1"%js "u1"%js "b1"%js "INBOX"%js old_box (old_faithful _ _) ["b1"%js] (list_elem_of_here _ _) (backfill_store 1000 10 9 1) _
    (backfill_store_apart 1000 10 9 1) eq_refl ltac:(vm_compute; reflexivity)) as (row & Hrow & H).
  assert (is_Done : ∃ u, (ex_backfill (backfill_store 1000 10 9 1)).2 = Done u) by (eexists; vm_compute; reflexivity).
  destruct is_Done as [u Hu]. rewrite Hu in H. destruct H as [Hex|(Hc & _ & Hall)]; [vm_compute in Hex; discriminate Hex|].
  intros m Hm Hr. apply Hall; [done|]. rewrite Hc. exact Hr.
Defined.

Lemma backfill_completes_witness :
  ∃ row, find_sync "i1"%js "b1"%js (ex_backfill (backfill_store 1000 10 9 1)).1 = Some row ∧ phase row = "IDLE"%js.
Proof.
  destruct (@backfill_completes backfill_server Z.of_nat ex_new_id
    (λ raw, Some (ex_parsed (Some raw) None NoReferences [])) (λ _, None) ex_new_id all_uploads (λ _, true) (λ _, true)
    (λ _, VNull) ex_fresh 0 "i1"%js "u1"%js "b1"%js "INBOX"%js old_box (old_faithful _ _) ["b1"%js] (list_elem_of_here _ _) 1 (backfill_store 1000 10 9 1)
    (ex_backfill (backfill_store 1000 10 9 1)).1 _ (backfill_store_apart 1000 10 9 1) eq_refl)
    as [(row & Hrow & _ & Hp) _]; [|lia|vm_compute; discriminate|exists row; split; [exact Hrow|exact Hp]].
  eapply passes_S; [vm_compute; reflexivity| |reflexivity|reflexivity|vm_compute; constructor].
  intros Hex. vm_compute in Hex. discriminate Hex.
Defined.

(** ** What goes wrong *)

(** A mail larger than what is left of the quota ends the window, and the cursor passes it. *)
Lemma quota_loses_mail :
  let s' := (ex_backfill (backfill_store 15 10 9 1)).1 in
  map m_messageId (messages s') = ["m1"; "m2"; "m3"; "n5"]%js ∧
  map (λ r, (backfillCursorUid r, phase r)) (mailboxSync s') = [(0%Z, "IDLE"%js)].
Proof. by vm_compute. Qed.

(** Mail that came between the discovery of a mailbox, when its cursor was set, and its first backfill
    is reached by neither direction if there are more than 199 of them. *)
Lemma first_backfill_leaves_a_gap :
  let server := {| authenticated := λ _ _, true; usable := λ _ _, true; accepts := λ _ _ _, true; search_all := λ _ _, [];
    uidNext := λ _ _ _, Some 301%Z; uidValidity := λ _ _ _, 1%Z; fetched := λ _ _ _ _, ([], true);
    list_boxes := λ _ _, []; rejection := λ _ _ _, [] |} in
  let s' := (@backfillMailboxFull server Z.of_nat ex_new_id (λ _, None) (λ _, None) ex_new_id all_uploads (λ _, true)
    (λ _, true) (λ _, VNull) 0 "i1"%js "u1"%js "b1"%js "INBOX"%js (backfill_store 1000 10 9 0)).1 in
  map (λ r, (backfillCursorUid r, lastSeenUid r)) (mailboxSync s') = [(0, 101)]%Z.
Proof. by vm_compute. Qed.
