(* ===== verification/ImapWorker.v ===== *)
(** * The worker of the SMTP queue ([apps/worker/server/plugins/smtp-worker.ts])

    The jobs other components add to [smtpQueue] are run one after the other by the handler
    below; between them the notifications of the servers, the rules of incoming messages and the
    reconnections run.  The theorems are about every such sequence. *)

From stdpp Require Import base list relations.
From S2P Require Import Prelude JsString JsNumber JsValue RuleMatcher MailDb.
From S2P Require Import Imap ImapOps ImapInvariant ImapSpecs ImapFolders Discovery DiscoverySpecs RulesProcessor.

Definition data_text (j : Job) (name : jsstr) : option jsstr :=
  match get_prop (VObj (job_data j)) name with VStr t => Some t | _ => None end.

Section Worker.
Context `{ImapServer} (credentials_of : IdentityRow → option jsval) (clock : nat → Z).
Context (jsonb_out : jsval → jsstr).

(** [job.data] as the arguments of [moveMail]; [moveImap] is only tested. *)
Definition move_data (j : Job) : option MoveJob :=
  t ← data_text j "threadId"%js;
  b ← data_text j "mailboxId"%js;
  o ← data_text j "op"%js;
  Some {| mv_threadId := t; mv_mailboxId := b; mv_op := o; mv_toMailboxId := data_text j "toMailboxId"%js;
          mv_moveImap := js_truthy (get_prop (VObj (job_data j)) "moveImap"%js) |}.

Definition flags_data (j : Job) : option (jsstr * jsstr * jsstr) :=
  t ← data_text j "threadId"%js;
  b ← data_text j "mailboxId"%js;
  o ← data_text j "op"%js;
  Some (t, b, o).

(** [threadId] is a text, an array of texts, or absent. *)
Definition delete_data (j : Job) : option DeleteJob :=
  b ← data_text j "mailboxId"%js;
  let texts := match get_prop (VObj (job_data j)) "threadId"%js with
               | VStr t => [t]
               | VArr l => omap (λ v, match v with VStr t => Some t | _ => None end) l
               | _ => []
               end in
  Some {| dl_mailboxId := b; dl_threadId := texts;
          dl_emptyAll := js_truthy (get_prop (VObj (job_data j)) "emptyAll"%js);
          dl_imapDelete := js_truthy (get_prop (VObj (job_data j)) "imapDelete"%js) |}.

Definition move_handler (m : MoveJob) : proc unit :=
  if bool_decide (mv_op m = "move"%js) && negb (opt_truthy (mv_toMailboxId m)) then throw
  else
    _ ← moveMail credentials_of clock m;
    add_job (refresh_thread (mv_threadId m)).

Definition flags_handler (d : jsstr * jsstr * jsstr) : proc unit :=
  _ ← mailSetFlags credentials_of clock d.1.1 d.1.2 d.2;
  add_job (refresh_thread d.1.1).

(** The handler of the jobs on messages; [None] for the jobs that are not modelled. *)
Definition run_job (j : Job) : option (proc unit) :=
  if bool_decide (job_name j = "mail:move"%js) then move_handler <$> move_data j
  else if bool_decide (job_name j = "mail:set-flags"%js) then flags_handler <$> flags_data j
  else if bool_decide (job_name j = "mail:delete-permanent"%js) then deleteMail credentials_of <$> delete_data j
  else None.

(** The handlers of the jobs on folders. *)
Definition add_folder_handler (slugify : jsstr → jsstr) (new_id : MailDb → jsstr) (data : NewFolder) : proc unit :=
  o ← initSmtpClient credentials_of (nf_identityId data);
  match o with
  | Some c => _ ← addNewFolder clock slugify new_id data c; mret tt
  | None => mret tt
  end.

Definition delete_folder_handler (mailboxId identityId : jsstr) : proc unit :=
  o ← initSmtpClient credentials_of identityId;
  match o with
  | Some c => _ ← deleteFolder mailboxId identityId c; mret tt
  | None => mret tt
  end.

Definition discover_handler (slugify : jsstr → jsstr) (new_id : MailDb → jsstr) (identityId : jsstr) : proc unit :=
  o ← ready_client credentials_of identityId;
  match o with
  | Some c => discoverMailboxes clock jsonb_out slugify new_id c identityId
  | None => mret tt
  end.

(** The listener of the event [flags]: without a uid the client is asked for it. *)
Definition on_flags (identityId : jsstr) (uid fetched : option Z) (path : jsstr) (flags : list jsstr) : proc unit :=
  match (if bool_decide (uid = None ∨ uid = Some 0%Z) then fetched else uid) with
  | None | Some 0%Z => mret tt
  | Some n =>
      handleFlagsUpdate clock jsonb_out identityId n path
        (bool_decide ("\Flagged"%js ∈ flags)) (bool_decide ("\Seen"%js ∈ flags)) (bool_decide ("\Answered"%js ∈ flags))
  end.

(** The listener of the event [expunge]. *)
Definition on_expunge (identityId path : jsstr) (uid : option Z) : proc unit :=
  match uid with
  | None | Some 0%Z => mret tt
  | Some n => handleExpunge clock jsonb_out identityId path n
  end.

Context (regexp_i : jsstr → option (jsstr → bool)) (id_compare : jsstr → jsstr → Z).

(** What can happen next, of the operations that keep to the locks: the jobs on flags, moves and
    deletions, the notifications, the rules, connections made and lost.  The jobs on folders and the
    discovery are [folder_step] below; the delta-fetch, the backfill, the sending of mail and the
    storing of incoming mail have steps of their own in the files that model them. *)
Inductive worker_step : MailDb → MailDb → Prop :=
| step_job j p s : run_job j = Some p → worker_step s (p s).1
| step_flags i uid fetched path flags s : worker_step s (on_flags i uid fetched path flags s).1
| step_expunge i path uid s : worker_step s (on_expunge i path uid s).1
| step_rules messageId s : worker_step s (processRules regexp_i clock id_compare messageId s).1
| step_reconnect i s : worker_step s (initSmtpClient credentials_of i s).1
| step_disconnect i s : worker_step s (cleanup i s).1.

(** The jobs on folders, apart: they open folders without a lock. *)
Inductive folder_step : MailDb → MailDb → Prop :=
| step_add_folder slugify new_id data s : folder_step s (add_folder_handler slugify new_id data s).1
| step_delete_folder b i s : folder_step s (delete_folder_handler b i s).1
| step_discover slugify new_id i s : folder_step s (discover_handler slugify new_id i s).1.

(** ** The traffic *)

Lemma tidy_mailSetFlags t b op : steps tidily (mailSetFlags credentials_of clock t b op).
Proof.
  assert (steps tidily (set_thread_flags clock t b op)) as Hdb.
  { apply tidy_transaction. unfold refresh_aggregates. run_steps. }
  assert (∀ c a g, steps tidily (send_flags c a g)) as Hg.
  { intros c a g. unfold send_flags. destruct (sort_by num_cmp _); [auto with webmail|].
    apply steps_catch; auto with webmail. apply tidy_with_lock, inside_send. by destruct a.1. }
  unfold mailSetFlags. run_steps.
Qed.

Lemma tidy_moveMail m : steps tidily (moveMail credentials_of clock m).
Proof.
  assert (∀ d, steps tidily (move_in_db clock m d)) as Hdb.
  { intros d. apply tidy_transaction. unfold or_throw, unique. run_steps. }
  assert (∀ c p g, steps tidily (move_group c p g)) as Hg.
  { intros c p g. unfold move_group. destruct (map e_uid g.2); [auto with webmail|].
    by apply tidy_with_lock, inside_send. }
  unfold moveMail, move_on_server. run_steps.
Qed.

Lemma tidy_deleteMail d : steps tidily (deleteMail credentials_of d).
Proof.
  assert (∀ ids, steps tidily (delete_orphans ids)) as Ho by (intros; unfold delete_orphans; run_steps).
  assert (∀ ids, steps tidily (delete_messages ids)) as Hm by (intros; by apply tidy_modify).
  assert (∀ b ids, steps tidily (delete_thread_rows b ids)) as Ht by (intros; by apply tidy_modify).
  assert (∀ c g, steps tidily (deleteUids c g)) as Hd.
  { intros c g. unfold deleteUids. destruct g.2; [auto with webmail|]. by apply tidy_with_lock, inside_send. }
  assert (∀ c p, steps tidily (empty_on_server c p)) as He.
  { intros c p. unfold empty_on_server. apply steps_catch; auto with webmail. apply tidy_with_lock. run_steps. }
  assert (∀ b, steps tidily (empty_in_db b)) as Hb.
  { intros b. unfold empty_in_db. apply steps_bind_read. intros s.
    apply (tidy_transaction (A := unit)). run_steps. }
  assert (∀ b o, steps tidily (delete_with d b o)) as Hw.
  { intros b o. unfold delete_with. run_steps; apply (tidy_transaction (A := unit)); run_steps. }
  unfold deleteMail. run_steps.
Qed.
Lemma tidy_on_flags i uid fetched path flags : steps tidily (on_flags i uid fetched path flags).
Proof.
  assert (∀ i uid p f s a, steps tidily (handleFlagsUpdate clock jsonb_out i uid p f s a)) as Hf.
  { intros. apply tidy_transaction. unfold message_at, refresh_aggregates. run_steps. }
  unfold on_flags. run_steps.
Qed.

Lemma tidy_on_expunge i path uid : steps tidily (on_expunge i path uid).
Proof.
  assert (∀ i p uid, steps tidily (handleExpunge clock jsonb_out i p uid)) as He.
  { intros. apply tidy_transaction. unfold message_at, refresh_aggregates, delete_messages. run_steps. }
  unfold on_expunge. run_steps.
Qed.

Lemma tidy_perform x act : steps tidily (perform clock x act).
Proof.
  unfold perform, markAsRead, toggleStar, moveToTrash, insert_label, add_job. run_steps.
Qed.

Lemma tidy_run_actions x acts : steps tidily (run_actions clock x acts).
Proof. induction acts; cbn [run_actions]; pose proof tidy_perform; run_steps. Qed.

Lemma tidy_run_job j p : run_job j = Some p → steps tidily p.
Proof.
  unfold run_job. repeat case_bool_decide; try done; intros (d & _ & ->)%fmap_Some.
  - unfold move_handler, add_job. pose proof tidy_moveMail. run_steps.
  - unfold flags_handler, add_job. pose proof tidy_mailSetFlags. run_steps.
  - apply tidy_deleteMail.
Qed.

Context `{!Comparator id_compare}.

Lemma worker_step_tidy s s' : worker_step s s' → tidily s s'.
Proof.
  destruct 1 as [j p s Hj|i uid fe path flags s|i path uid s|m s|i s|i s].
  - by apply tidy_run_job in Hj.
  - apply tidy_on_flags.
  - apply tidy_on_expunge.
  - rewrite processRules_plan_eq by done. destruct (read_context m s); [apply tidy_run_actions|done].
  - apply tidy_initSmtpClient.
  - pose proof tidy_safeReconnect. unfold cleanup.
    apply steps_bind; [apply _|by apply tidy_modify|done].
Qed.

(** C37: Whatever runs of these operations there are and whatever the servers answer, the commands
    sent form a sequence of sessions: every command on messages is sent by the client that holds
    the lock of a mailbox, and no lock is held when an operation ends, also when one of its
    commands failed, if none is held at the beginning.  The operations are the jobs [mail:set-flags], [mail:move] and
    [mail:delete-permanent], the notifications of changed flags and of expunged messages, the
    rules, and connections made and lost.  No other operation is: the jobs on folders, the discovery
    of mailboxes and the backfill open mailboxes without a lock; the delta-fetch takes the lock of
    each mailbox it fetches, which is modelled in ImapSync, but is not one of the operations here;
    the clients that wait for notifications keep the lock of their inbox and are not modelled. *)
Theorem worker_locks s s' :
  rtc worker_step s s' → held (imap s) = [] →
  tidily s s' ∧ held (imap s') = [].
Proof.
  intros Hr Hh. assert (tidily s s') as Ht.
  { induction Hr as [|s1 s2 s3 H1 _ IH]; [done|]. trans s2; [by apply worker_step_tidy|].
    apply IH. destruct (worker_step_tidy _ _ H1) as (l & -> & Hl). by apply tidy_releases. }
  split; [done|]. destruct Ht as (l & -> & Hl). by apply tidy_releases.
Qed.
(** ** The stored threads *)

(** An action keeps the messages' columns and the keys of the rows. *)
Lemma perform_rows x act s :
  map thread_key (mailboxThreads (perform clock x act s).1) = map thread_key (mailboxThreads s).
Proof.
  assert (∀ p f rows, (∀ r, thread_key (f r) = thread_key r) →
    map thread_key (update_where p f rows) = map thread_key rows) as Hu.
  { intros p f rows Hf. unfold update_where. rewrite map_map. apply map_ext. intros r. by destruct (p r). }
  unfold perform. repeat case_bool_decide; try done.
  - unfold markAsRead. unfold_proc. destruct (negb _); [done|]. by destruct (opt_truthy _); apply Hu.
  - unfold toggleStar. unfold_proc. destruct (_ || _); [done|]. destruct (opt_truthy _); [done|by apply Hu].
  - unfold moveToTrash. unfold_proc. by destruct (negb _).
  - unfold insert_label. unfold_proc. destruct (a_labelId act) as [l|]; [|done].
    destruct (truthy l); [|done]. by destruct (_ || _).
Qed.

Lemma perform_consistent x act : steps (preserving consistent) (perform clock x act).
Proof.
  intros s Hs. pose proof (perform_rows x act s) as Hr.
  destruct (perform_keeps clock x act s) as [(_ & Ht & _) Hm].
  pose proof (perform_aggregates clock x act s (proj2 (aggregates_summarise s) (rows_summarise s Hs))) as Ha.
  constructor.
  - erewrite Forall2_map_eq; [apply Hs|]. eapply Forall2_impl; [exact Hm|]. intros r r' Hrr. apply Hrr.
  - rewrite Hr. apply Hs.
  - intros k. rewrite Hr. erewrite (Forall2_map_eq msg_key msg_key); [apply Hs|].
    eapply Forall2_impl; [exact Hm|]. intros r r' (_ & E1 & E2 & _). unfold msg_key. by rewrite E1, E2.
  - rewrite Ht. eapply Forall2_Forall_r; [exact Hm|]. eapply Forall_impl; [apply Hs|].
    intros r Hin r' (_ & _ & -> & _). done.
  - by apply aggregates_summarise.
Qed.

Lemma run_actions_consistent x acts : steps (preserving consistent) (run_actions clock x acts).
Proof. induction acts; cbn [run_actions]; pose proof perform_consistent; run_steps. Qed.

Lemma add_job_same j : steps same_tables (add_job j).
Proof. done. Qed.

Lemma run_job_consistent j p : run_job j = Some p → steps (preserving consistent) p.
Proof.
  pose proof (λ j, keeps_same _ (add_job_same j)).
  unfold run_job. repeat case_bool_decide; try done; intros (d & _ & ->)%fmap_Some.
  - unfold move_handler. pose proof moveMail_consistent. run_steps.
  - unfold flags_handler. pose proof mailSetFlags_consistent. run_steps.
  - apply deleteMail_consistent.
Qed.

Lemma initSmtpClient_same i : steps same_tables (initSmtpClient credentials_of i).
Proof.
  pose proof same_safeReconnect. unfold initSmtpClient, connect, or_throw. run_steps; by apply same_modify.
Qed.

Lemma cleanup_same i : steps same_tables (cleanup i).
Proof. pose proof same_safeReconnect. unfold cleanup. run_steps; by apply same_modify. Qed.

Lemma worker_step_consistent s s' : worker_step s s' → preserving consistent s s'.
Proof.
  destruct 1 as [j p s Hj|i uid fe path flags s|i path uid s|m s|i s|i s].
  - by apply run_job_consistent in Hj.
  - unfold on_flags. pose proof handleFlagsUpdate_consistent.
    assert (steps (preserving consistent) (on_flags i uid fe path flags)) as Hk; [|apply Hk].
    unfold on_flags. run_steps.
  - pose proof handleExpunge_consistent.
    assert (steps (preserving consistent) (on_expunge i path uid)) as Hk; [|apply Hk].
    unfold on_expunge. run_steps.
  - rewrite processRules_plan_eq by done. destruct (read_context m s); [apply run_actions_consistent|done].
  - by apply consistent_same, initSmtpClient_same.
  - by apply consistent_same, cleanup_same.
Qed.

Lemma folder_step_consistent s s' : folder_step s s' → preserving consistent s s'.
Proof.
  pose proof (λ i, keeps_same _ (initSmtpClient_same i)) as Hc.
  destruct 1 as [slugify new_id data s|b i s|slugify new_id i s].
  - assert (steps (preserving consistent) (add_folder_handler slugify new_id data)) as Hk; [|apply Hk].
    pose proof addNewFolder_consistent. unfold add_folder_handler. run_steps.
  - assert (steps (preserving consistent) (delete_folder_handler b i)) as Hk; [|apply Hk].
    pose proof deleteFolder_consistent. unfold delete_folder_handler. run_steps.
  - assert (steps same_tables (discover_handler slugify new_id i)) as Hk; [|by apply consistent_same].
    pose proof (discoverMailboxes_same clock jsonb_out). unfold discover_handler. run_steps.
Qed.

(** The stored threads stay true to the messages in every state the worker can reach, whatever
    the order of jobs, rules and notifications and whatever the servers answer: one row for each
    thread and mailbox that has a message, with the number of its unread messages and its star,
    and no message of a deleted thread. *)
Theorem worker_reachable_consistent s s' :
  rtc (λ s1 s2, worker_step s1 s2 ∨ folder_step s1 s2) s s' → consistent s → consistent s'.
Proof.
  induction 1 as [|s1 s2 s3 H1 _ IH]; [done|]. intros Hs. apply IH.
  destruct H1; [by apply (worker_step_consistent s1)|by apply (folder_step_consistent s1)].
Qed.
End Worker.

(** ** The star, directly and through the queue *)

(** Without the time of the change. *)
Definition undated (r : MessageRow) : MessageRow := with_flags None None None 0 r.
Definition undated_row (r : MailboxThreadRow) : MailboxThreadRow :=
  set_aggregates (mt_unreadCount r) (mt_starred r) 0 r.

Section Composition.
Context `{ImapServer} (credentials_of : IdentityRow → option jsval) (clock : nat → Z).

Lemma undated_update p f g (rows : list MessageRow) :
  (∀ r, undated (f r) = undated (g r)) → map undated (update_where p f rows) = map undated (update_where p g rows).
Proof. intros Hfg. unfold update_where. rewrite !map_map. apply map_ext. intros r. by destruct (p r). Qed.

Lemma undated_rows p n m b d t t' rows :
  n = m → b = d →
  map undated_row (update_where p (set_aggregates n b t) rows) =
  map undated_row (update_where p (set_aggregates m d t') rows).
Proof. intros -> ->. unfold update_where. rewrite !map_map. apply map_ext. intros r. by destruct (p r). Qed.

(** The group of a thread, up to the dates. *)
Lemma group_undated rows rows' :
  map undated rows = map undated rows' →
  ∀ t b, unread_in t b rows = unread_in t b rows' ∧
  default false (any_flagged t b rows) = default false (any_flagged t b rows').
Proof.
  intros E t b. assert (∀ rows, summary (group (t, b) rows) = summary (group (t, b) (map undated rows))) as Hs.
  { intros l. symmetry. apply summary_ext. unfold group. induction l as [|r l IH]; [constructor|]. simpl.
    rewrite !filter_cons. change (msg_in t b (undated r)) with (msg_in t b r).
    case_decide; [by constructor|done]. }
  pose proof (Hs rows) as H1. rewrite E, <- Hs in H1. unfold summary in H1. injection H1 as H1 H2.
  split; [exact H1|]. by rewrite !(any_flagged_group (t, b)).
Qed.

(** Starring a thread of an identity with an IMAP account puts a job in the queue; when the
    worker reaches the server, running that job does to the tables what starring the thread
    directly would have done. *)
Theorem star_through_queue t b s mb c :
  t ≠ [] → b ≠ [] → find_mailbox b s = Some mb → group (t, b) (messages s) ≠ [] →
  let direct := (toggleStar clock t b true false s).1 in
  let queued := (toggleStar clock t b true true s).1 in
  (ready_client credentials_of (mb_identityId mb) queued).2 = Done (Some c) →
  ∃ j p, jobs queued = jobs s ++ [j; refresh_thread t] ∧ run_job credentials_of clock j = Some p ∧
    (p queued).2 = Done tt ∧
    map undated (messages (p queued).1) = map undated (messages direct) ∧
    map undated_row (mailboxThreads (p queued).1) = map undated_row (mailboxThreads direct).
Proof.
  intros Ht Hb Hmb Hg direct queued Hc.
  assert (truthy t = true ∧ truthy b = true) as [Ht' Hb'] by (by rewrite !truthy_spec).
  assert (queued = set_jobs (λ l, (l ++ [flags_job t b "flag"%js true]) ++ [refresh_thread t]) s) as Hq.
  { unfold queued, toggleStar. rewrite Ht', Hb'. unfold_proc. done. }
  exists (flags_job t b "flag"%js true), (flags_handler credentials_of clock (t, b, "flag"%js)).
  destruct (mailSetFlags_run credentials_of clock t b "flag"%js queued mb c) as (s1 & (E1 & E2 & _) & Hrun);
    [by rewrite Hq|done|by rewrite Hq|by eexists|].
  assert (flags_handler credentials_of clock (t, b, "flag"%js) queued =
    add_job (refresh_thread t) (set_thread_flags clock t b "flag"%js s1).1) as ->.
  { unfold flags_handler. unfold mbind, proc_bind. cbn [fst snd]. rewrite Hrun. done. }
  rewrite Hq in E1, E2. simpl in E1, E2. rewrite Hq. split; [simpl; by rewrite <- app_assoc|].
  split; [done|]. split; [done|].
  unfold direct, toggleStar. rewrite Ht', Hb'. unfold set_thread_flags, transaction, refresh_aggregates.
  unfold_proc. simpl. rewrite E1, E2.
  assert (map undated (update_where (msg_in t b) (flag_update "flag"%js (clock (ticks s1))) (messages s)) =
    map undated (update_where (msg_in t b) (set_flagged (clock (ticks s))) (messages s))) as Eu
    by by apply undated_update.
  split; [exact Eu|]. destruct (group_undated _ _ Eu t b) as [En Ef]. by apply undated_rows.
Qed.
End Composition.

(** ** Concrete runs *)

Definition ex_star : MailDb := (toggleStar Z.of_nat "t1"%js "b1"%js true true ex_store).1.

Lemma star_through_queue_witness :
  ∃ j p, jobs ex_star = [j; refresh_thread "t1"%js] ∧
    @run_job kind_server no_credentials Z.of_nat j = Some p ∧
    map undated_row (mailboxThreads (p ex_star).1) =
    map undated_row (mailboxThreads (toggleStar Z.of_nat "t1"%js "b1"%js true false ex_store).1).
Proof.
  destruct (@star_through_queue kind_server no_credentials Z.of_nat "t1"%js "b1"%js ex_store
    (ex_box "b1" "inbox" "INBOX")%js 0) as (j & p & H1 & H2 & _ & _ & H3).
  - done.
  - done.
  - done.
  - intros Hg. vm_compute in Hg. discriminate.
  - vm_compute. reflexivity.
  - exists j, p. split; [exact H1|]. split; [exact H2|exact H3].
Defined.

(** With a server that cannot be reached the job ends and the star is lost. *)
Lemma star_lost_without_server :
  let r := @flags_handler dead_server no_credentials Z.of_nat ("t1", "b1", "flag")%js ex_star in
  r.2 = Done tt ∧ messages r.1 = messages ex_store ∧ mailboxThreads r.1 = mailboxThreads ex_store.
Proof. vm_compute. done. Qed.

(** The worker moves the first thread to the trash, then the server says a message of the other
    is read. *)
Definition ex_moved : MailDb := (@move_handler kind_server no_credentials Z.of_nat ex_move ex_store).1.
Definition ex_read : MailDb :=
  (on_flags Z.of_nat js_to_string "i1"%js (Some 5%Z) None "INBOX"%js ["\Seen"%js] ex_moved).1.

Definition ex_steps : MailDb → MailDb → Prop :=
  @worker_step kind_server no_credentials Z.of_nat js_to_string no_regexp by_length.

Definition ex_move_job : Job :=
  {| queue := "smtpQueue"%js; job_name := "mail:move"%js;
     job_data := [("threadId", VStr "t1"%js); ("mailboxId", VStr "b1"%js); ("op", VStr "trash"%js);
                  ("moveImap", VBool true)]%js;
     job_opts := retry_opts false None |}.

Lemma ex_run_steps : rtc ex_steps ex_store ex_read.
Proof.
  eapply rtc_l; [|apply rtc_once; by apply step_flags].
  apply (@step_job kind_server no_credentials Z.of_nat js_to_string no_regexp by_length ex_move_job
    (@move_handler kind_server no_credentials Z.of_nat ex_move)). reflexivity.
Qed.

Lemma worker_reachable_consistent_witness :
  consistent ex_read ∧ map (λ r, (mt_threadId r, mt_mailboxId r, stored r)) (mailboxThreads ex_read) =
    [("t1"%js, "b2"%js, (1%Z, false)); ("t2"%js, "b1"%js, (0%Z, false))].
Proof.
  split; [|vm_compute; reflexivity].
  exact (@worker_reachable_consistent kind_server no_credentials Z.of_nat js_to_string no_regexp by_length _
    ex_store ex_read (rtc_subrel _ _ _ _ (λ _ _ H, or_introl H) ex_run_steps) ex_store_consistent).
Defined.

Lemma worker_locks_witness : tidily ex_store ex_read ∧ held (imap ex_read) = [] ∧ length (imap ex_read) = 3.
Proof.
  destruct (@worker_locks kind_server no_credentials Z.of_nat js_to_string no_regexp by_length _
    ex_store ex_read ex_run_steps eq_refl) as [H1 H2].
  split; [exact H1|]. split; [exact H2|vm_compute; reflexivity].
Defined.
