(* ===== verification/ITip.v ===== *)
(** * Attendees in iCalendar ([apps/worker/lib/dav/calendar/dav-itip-processor.ts],
    [dav-itip-notify.ts], [dav-build-cal-event.ts])

    How roles, participation and addresses are written into the properties of an event and read
    back from an invitation.  A property of [ical.js] is its value and its parameters. *)

From stdpp Require Import base list.
From S2P Require Import Prelude JsString JsNumber JsValue RuleMatcher.

(** ** Participation and roles *)

Inductive DbPartstat := accepted | declined | tentative | delegated | in_process | completed | needs_action.
Inductive DbRole := chair | opt_participant | non_participant | req_participant.

#[export] Instance DbPartstat_eq_dec : EqDecision DbPartstat.
Proof. solve_decision. Defined.
#[export] Instance DbRole_eq_dec : EqDecision DbRole.
Proof. solve_decision. Defined.

(** The texts the database stores. *)
Definition partstat_text (p : DbPartstat) : jsstr :=
  match p with
  | accepted => "accepted" | declined => "declined" | tentative => "tentative" | delegated => "delegated"
  | in_process => "in_process" | completed => "completed" | needs_action => "needs_action"
  end%js.

Definition role_text (r : DbRole) : jsstr :=
  match r with
  | chair => "chair" | opt_participant => "opt_participant" | non_participant => "non_participant"
  | req_participant => "req_participant"
  end%js.

Definition icsPartstatToDb (partstatRaw : option jsstr) : DbPartstat :=
  let v := toUpperCase (default [] partstatRaw) in
  if bool_decide (v = "ACCEPTED"%js) then accepted
  else if bool_decide (v = "DECLINED"%js) then declined
  else if bool_decide (v = "TENTATIVE"%js) then tentative
  else if bool_decide (v = "DELEGATED"%js) then delegated
  else if bool_decide (v = "IN-PROCESS"%js) then in_process
  else if bool_decide (v = "COMPLETED"%js) then completed
  else needs_action.

Definition icsRoleToDb (roleRaw : option jsstr) : DbRole :=
  let v := toUpperCase (opt_or roleRaw "REQ-PARTICIPANT"%js) in
  if bool_decide (v = "CHAIR"%js) then chair
  else if bool_decide (v = "OPT-PARTICIPANT"%js) then opt_participant
  else if bool_decide (v = "NON-PARTICIPANT"%js) then non_participant
  else req_participant.

(** [dav-itip-notify.ts] *)
Definition roleToIcs (role : option jsstr) : jsstr :=
  if bool_decide (role = Some "opt_participant"%js) then "OPT-PARTICIPANT"%js
  else if bool_decide (role = Some "non_participant"%js) then "NON-PARTICIPANT"%js
  else if bool_decide (role = Some "chair"%js) then "CHAIR"%js
  else "REQ-PARTICIPANT"%js.

Definition partstatToIcs (partstat : option jsstr) : jsstr :=
  if bool_decide (partstat = Some "accepted"%js) then "ACCEPTED"%js
  else if bool_decide (partstat = Some "declined"%js) then "DECLINED"%js
  else if bool_decide (partstat = Some "tentative"%js) then "TENTATIVE"%js
  else if bool_decide (partstat = Some "delegated"%js) then "DELEGATED"%js
  else if bool_decide (partstat = Some "in_process"%js) then "IN-PROCESS"%js
  else if bool_decide (partstat = Some "completed"%js) then "COMPLETED"%js
  else "NEEDS-ACTION"%js.

(** [dav-build-cal-event.ts] *)
Definition mapRoleToIcal (role : option jsstr) : jsstr :=
  if bool_decide (role = Some "chair"%js) then "CHAIR"%js
  else if bool_decide (role = Some "opt_participant"%js) then "OPT-PARTICIPANT"%js
  else if bool_decide (role = Some "non_participant"%js) then "NON-PARTICIPANT"%js
  else "REQ-PARTICIPANT"%js.

Definition mapPartstatToIcal (partstat : option jsstr) : jsstr :=
  match partstat with
  | Some p =>
      if truthy p then toUpperCase (map (λ a, if is_ch "_" a then "-"%char else a) p) else "NEEDS-ACTION"%js
  | None => "NEEDS-ACTION"%js
  end.

(** ** Properties *)

Record Property := { p_name : jsstr; p_value : jsval; p_params : list (jsstr * jsval) }.

Definition new_property (name : jsstr) : Property := {| p_name := name; p_value := VUndef; p_params := [] |}.
Definition setValue (v : jsval) (p : Property) : Property :=
  {| p_name := p_name p; p_value := v; p_params := p_params p |}.
Definition setParameter (n : jsstr) (v : jsval) (p : Property) : Property :=
  {| p_name := p_name p; p_value := p_value p; p_params := jm_set n v (p_params p) |}.
Definition getParameter (n : jsstr) (p : Property) : jsval := default VUndef (jm_get n (p_params p)).

(** [typeof x === "string" ? x : Array.isArray(x) ? x[0] : fallback]; [None] is a value that is
    not a text. *)
Definition first_text (v : jsval) (fallback : option jsstr) : option jsstr :=
  match v with
  | VStr s => Some s
  | VArr (VStr s :: _) => Some s
  | VArr _ => None
  | _ => fallback
  end.

(** [String(v ?? "")] *)
Definition text_or_empty (v : jsval) : jsstr := js_to_string (nullish_or v (VStr [])).

Definition mailto : jsstr := "mailto:"%js.

(** [raw.startsWith("mailto:") ? raw.slice(7) : raw] on the text in lower case *)
Definition reply_address (v : jsval) : jsstr :=
  let raw := toLowerCase (text_or_empty v) in
  if startsWith raw mailto then slice_from raw 7 else raw.

(** [.replace(/^mailto:/i, "").trim().toLowerCase()] *)
Definition request_address (v : jsval) : jsstr :=
  let s := text_or_empty v in
  toLowerCase (trim (if startsWith (toLowerCase s) mailto then drop 7 s else s)).

(** ** Reading an attendee of an invitation *)

Record Attendee := {
  at_email : jsstr; at_name : option jsstr; at_role : DbRole; at_partstat : DbPartstat; at_rsvp : bool;
}.

(** [None] is the error of [undefined.toUpperCase()]. *)
Definition read_attendee (p : Property) : option Attendee :=
  (λ rsvp, {|
     at_email := request_address (p_value p);
     at_name := first_text (getParameter "cn"%js p) None;
     at_role := icsRoleToDb (first_text (getParameter "role"%js p) (Some "REQ-PARTICIPANT"%js));
     at_partstat := icsPartstatToDb (first_text (getParameter "partstat"%js p) (Some "NEEDS-ACTION"%js));
     at_rsvp := bool_decide (toUpperCase rsvp = "TRUE"%js) |})
  <$> first_text (getParameter "rsvp"%js p) (Some []).

(** ** Writing the guests of an event *)

Record Guest := {
  g_email : option jsstr; g_name : option jsstr; g_role : DbRole; g_partstat : DbPartstat; g_rsvp : bool;
  g_isOrganizer : bool;
}.

Record EventHead := { eh_organizerEmail : option jsstr; eh_organizerName : option jsstr; eh_isExternal : bool }.

Definition organizer_guest (guests : list Guest) : option Guest := List.find g_isOrganizer guests.

(** [(organizerEmail ?? organizerGuest?.email ?? "").trim().toLowerCase() || null] *)
Definition organizer_email (e : EventHead) (guests : list Guest) : option jsstr :=
  let raw := match eh_organizerEmail e with
             | Some o => o
             | None => default [] (organizer_guest guests ≫= g_email)
             end in
  or_undefined (toLowerCase (trim raw)).

Definition organizer_name (e : EventHead) (guests : list Guest) : option jsstr :=
  match eh_organizerName e with Some n => Some n | None => organizer_guest guests ≫= g_name end.

Definition with_text (n : jsstr) (o : option jsstr) (p : Property) : Property :=
  match o with Some s => if truthy s then setParameter n (VStr s) p else p | None => p end.

Definition organizer_property (e : EventHead) (guests : list Guest) : option Property :=
  (λ o,
     let p := with_text "cn"%js (organizer_name e guests) (setValue (VStr (mailto ++ o)) (new_property "organizer"%js)) in
     if eh_isExternal e then p else setParameter "schedule-agent"%js (VStr "SERVER"%js) p)
  <$> organizer_email e guests.

Definition attendee_property (e : EventHead) (g : Guest) (email : jsstr) : Property :=
  let p := with_text "cn"%js (g_name g) (setValue (VStr (mailto ++ email)) (new_property "attendee"%js)) in
  let p := setParameter "role"%js (VStr (mapRoleToIcal (Some (role_text (g_role g))))) p in
  let p := setParameter "partstat"%js (VStr (mapPartstatToIcal (Some (partstat_text (g_partstat g))))) p in
  let p := if g_rsvp g then setParameter "rsvp"%js (VStr "TRUE"%js) p else p in
  if eh_isExternal e then p else setParameter "schedule-agent"%js (VStr "SERVER"%js) p.

(** The guests that get a property: those with an address other than the organizer's. *)
Definition guest_address (e : EventHead) (guests : list Guest) (g : Guest) : option jsstr :=
  match g_email g with
  | Some raw =>
      let email := trim raw in
      if negb (truthy email) then None
      else if bool_decide (toLowerCase email = default [] (organizer_email e guests)) then None
      else Some email
  | None => None
  end.

Definition attendee_properties (e : EventHead) (guests : list Guest) : list Property :=
  omap (λ g, attendee_property e g <$> guest_address e guests g) guests.

(** ** The stored copy of an invitation ([normaliseItipRequestToVevent])

    A component of [ical.js] is its name, its properties and its components. *)

Inductive Component := Comp (c_name : jsstr) (c_props : list Property) (c_subs : list Component).

Definition c_name (c : Component) : jsstr := let (n, _, _) := c in n.
Definition c_props (c : Component) : list Property := let (_, ps, _) := c in ps.
Definition c_subs (c : Component) : list Component := let (_, _, cs) := c in cs.

Definition named (n : jsstr) (p : Property) : bool := bool_decide (p_name p = n).

(** [getFirstProperty], [getFirstSubcomponent], [removeAllProperties], [removeParameter] *)
Definition getFirstProperty (n : jsstr) (ps : list Property) : option Property := List.find (named n) ps.
Definition getFirstSubcomponent (n : jsstr) (c : Component) : option Component :=
  List.find (λ s, bool_decide (c_name s = n)) (c_subs c).
Definition removeAllProperties (n : jsstr) : list Property → list Property := filter (λ p, p_name p ≠ n).
Definition removeParameter (n : jsstr) (p : Property) : Property :=
  {| p_name := p_name p; p_value := p_value p; p_params := filter (λ e, e.1 ≠ n) (p_params p) |}.

(** A change of the property [getFirstProperty] returns. *)
Fixpoint update_first (n : jsstr) (f : Property → Property) (ps : list Property) : list Property :=
  match ps with
  | [] => []
  | p :: ps' => if named n p then f p :: ps' else p :: update_first n f ps'
  end.

(** [updatePropertyWithValue]: the first property, or a new one. *)
Definition updatePropertyWithValue (n : jsstr) (v : jsval) (ps : list Property) : list Property :=
  match getFirstProperty n ps with
  | Some _ => update_first n (setValue v) ps
  | None => ps ++ [setValue v (new_property n)]
  end.

Definition is_number (v : jsval) : bool := match v with VNum _ => true | _ => false end.

(** [event.sequence], a number or not *)
Definition has_sequence (ps : list Property) : bool :=
  match getFirstProperty "sequence"%js ps with Some p => is_number (p_value p) | None => false end.

Definition fix_organizer (p : Property) : Property :=
  let value := p_value p in
  if js_truthy value && negb (startsWith (js_to_string value) mailto)
  then setValue (VStr (mailto ++ js_to_string value)) p else p.

Definition drop_rsvp (p : Property) : Property := if named "attendee"%js p then removeParameter "rsvp"%js p else p.

Definition normalise_event (ps : list Property) : list Property :=
  let ps := if has_sequence ps then ps else updatePropertyWithValue "sequence"%js (VNum (num_of_Z 0)) ps in
  let ps := map drop_rsvp ps in
  update_first "organizer"%js fix_organizer ps.

Definition default_prodid : jsstr := "-//LurusMail//Calendar//EN"%js.

Definition normalise_calendar (vcal : Component) : Component :=
  let props := removeAllProperties "method"%js (c_props vcal) in
  match getFirstSubcomponent "vevent"%js vcal with
  | None => Comp (c_name vcal) props (c_subs vcal)
  | Some vevent =>
      let incomingProdid := from_option p_value VUndef (getFirstProperty "prodid"%js props) in
      Comp "vcalendar"%js
        [ setValue (if js_truthy incomingProdid then incomingProdid else VStr default_prodid) (new_property "prodid"%js);
          setValue (VStr "2.0"%js) (new_property "version"%js) ]
        [ Comp (c_name vevent) (normalise_event (c_props vevent)) (c_subs vevent) ]
  end.

(** [ICAL.parse] and [toString] are outside the repository; [None] is the error of the parser. *)
Definition normaliseItipRequestToVevent (parse : jsstr → option Component) (print : Component → jsstr)
    (itip : jsstr) : option jsstr := (λ c, print (normalise_calendar c)) <$> parse itip.

(** ** Theorems *)

Lemma participation_values (p : DbPartstat) (r : DbRole) :
  partstatToIcs (Some (partstat_text p)) = mapPartstatToIcal (Some (partstat_text p)) ∧
  roleToIcs (Some (role_text r)) = mapRoleToIcal (Some (role_text r)) ∧
  icsPartstatToDb (Some (partstatToIcs (Some (partstat_text p)))) = p ∧
  icsRoleToDb (Some (roleToIcs (Some (role_text r)))) = r.
Proof. destruct p, r; vm_compute; done. Qed.

(** Participation and roles survive: both writers give the same texts, and reading them gives the
    value back. *)
Theorem participation_roundtrip (p : DbPartstat) (r : DbRole) :
  partstatToIcs (Some (partstat_text p)) = mapPartstatToIcal (Some (partstat_text p)) ∧
  roleToIcs (Some (role_text r)) = mapRoleToIcal (Some (role_text r)) ∧
  icsPartstatToDb (Some (partstatToIcs (Some (partstat_text p)))) = p ∧
  icsRoleToDb (Some (roleToIcs (Some (role_text r)))) = r.
Proof. apply participation_values. Qed.

Lemma request_address_mailto email : request_address (VStr (mailto ++ email)) = toLowerCase (trim email).
Proof.
  unfold request_address, text_or_empty. cbn [nullish_or is_nullish js_to_string]. rewrite toLowerCase_app.
  assert (startsWith (toLowerCase mailto ++ toLowerCase email) mailto = true) as ->; [|done].
  apply startsWith_spec. by exists (toLowerCase email).
Qed.

Lemma reply_address_mailto email : reply_address (VStr (mailto ++ email)) = toLowerCase email.
Proof.
  unfold reply_address, text_or_empty. cbn [nullish_or is_nullish js_to_string]. rewrite toLowerCase_app.
  assert (startsWith (toLowerCase mailto ++ toLowerCase email) mailto = true) as -> by
    (apply startsWith_spec; by exists (toLowerCase email)).
  unfold slice_from, rel_index. rewrite length_app. simpl. done.
Qed.

(** What a reader of the event learns about a guest. *)
Definition guest_attendee (g : Guest) (email : jsstr) : Attendee := {|
  at_email := toLowerCase email; at_name := match g_name g with Some n => or_undefined n | None => None end;
  at_role := g_role g; at_partstat := g_partstat g; at_rsvp := g_rsvp g |}.

Lemma getParameter_set_ne n m v p : n ≠ m → getParameter m (setParameter n v p) = getParameter m p.
Proof. intros Hne. unfold getParameter, setParameter. simpl. by rewrite jm_get_set_ne. Qed.

Lemma getParameter_set_eq n v p : getParameter n (setParameter n v p) = v.
Proof. unfold getParameter, setParameter. simpl. by rewrite jm_get_set_eq. Qed.

(** The parameters of a guest's property. *)
Lemma attendee_property_params e g email :
  let p := attendee_property e g email in
  p_value p = VStr (mailto ++ email) ∧
  getParameter "cn"%js p = match g_name g ≫= or_undefined with Some n => VStr n | None => VUndef end ∧
  getParameter "role"%js p = VStr (mapRoleToIcal (Some (role_text (g_role g)))) ∧
  getParameter "partstat"%js p = VStr (mapPartstatToIcal (Some (partstat_text (g_partstat g)))) ∧
  getParameter "rsvp"%js p = if g_rsvp g then VStr "TRUE"%js else VUndef.
Proof.
  unfold attendee_property, with_text, or_undefined. destruct (g_name g) as [n|]; simpl; [destruct (truthy n) eqn:En|];
    destruct (g_rsvp g), (eh_isExternal e); repeat split; rewrite ?getParameter_set_eq, ?getParameter_set_ne by done;
    try done; rewrite ?getParameter_set_eq, ?getParameter_set_ne by done; done.
Qed.

Lemma read_attendee_property e g email :
  no_edge_space email → read_attendee (attendee_property e g email) = Some (guest_attendee g email).
Proof.
  intros He. destruct (attendee_property_params e g email) as (Hv & Hcn & Hrole & Hps & Hrsvp).
  unfold read_attendee. rewrite Hv, Hcn, Hrole, Hps, Hrsvp, request_address_mailto, (trim_no_edge email He).
  destruct (participation_values (g_partstat g) (g_role g)) as (E1 & E2 & E3 & E4).
  assert (∀ r, roleToIcs (Some (role_text r)) = mapRoleToIcal (Some (role_text r))) as E2' by by intros [].
  rewrite E1 in E3. rewrite E2 in E4. unfold guest_attendee.
  destruct (g_rsvp g); cbn [first_text fmap option_fmap option_map]; rewrite E3, E4; f_equal; f_equal;
    destruct (g_name g ≫= or_undefined) eqn:En; destruct (g_name g); simpl in *; congruence.
Qed.

(** The guests written into an event are read back from it as attendees: each guest with an
    address other than the organizer's, in order, with the address in lower case, and the name,
    role, participation and answer wanted of the guest. *)
Theorem guests_roundtrip e guests :
  mapM read_attendee (attendee_properties e guests) =
  Some (omap (λ g, guest_attendee g <$> guest_address e guests g) guests).
Proof.
  unfold attendee_properties. generalize guests at 1 3. intros all. induction guests as [|g guests IH]; [done|].
  cbn [omap list_omap]. destruct (guest_address e all g) as [email|] eqn:E; [|done].
  cbn [fmap option_fmap option_map mapM]. rewrite read_attendee_property, IH; [done|].
  unfold guest_address in E. destruct (g_email g) as [raw|]; [|done].
  cbv zeta in E. destruct (negb _); [done|]. destruct (bool_decide (_ = _)); [done|]. injection E as <-. apply trim_edges.
Qed.

(** ** The stored copy *)

Lemma first_update_ne n m f ps :
  (∀ p, p_name (f p) = p_name p) → n ≠ m → getFirstProperty n (update_first m f ps) = getFirstProperty n ps.
Proof.
  intros Hf Hne. unfold getFirstProperty. induction ps as [|p ps IH]; [done|]. cbn [update_first].
  destruct (named m p) eqn:E; cbn [List.find]; [|by rewrite IH].
  apply bool_decide_eq_true in E. unfold named. rewrite Hf, E. by rewrite !bool_decide_eq_false_2.
Qed.

Lemma first_update_eq n f ps :
  (∀ p, p_name (f p) = p_name p) → getFirstProperty n (update_first n f ps) = f <$> getFirstProperty n ps.
Proof.
  intros Hf. unfold getFirstProperty. induction ps as [|p ps IH]; [done|]. cbn [update_first].
  destruct (named n p) eqn:E; cbn [List.find]; [|by rewrite E].
  unfold named in *. by rewrite Hf, E.
Qed.

Lemma update_first_id n f ps : (∀ p, p ∈ ps → named n p = true → f p = p) → update_first n f ps = ps.
Proof.
  induction ps as [|p ps IH]; [done|]. intros Hf. cbn [update_first]. destruct (named n p) eqn:E.
  - by rewrite Hf by set_solver.
  - rewrite IH by set_solver. done.
Qed.

Lemma filter_update_ne n m f ps :
  (∀ p, p_name (f p) = p_name p) → n ≠ m →
  filter (λ p, named n p = true) (update_first m f ps) = filter (λ p, named n p = true) ps.
Proof.
  intros Hf Hne. induction ps as [|p ps IH]; [done|]. cbn [update_first]. destruct (named m p) eqn:E.
  - apply bool_decide_eq_true in E. rewrite !filter_cons. unfold named. rewrite Hf, E.
    by rewrite !bool_decide_eq_false_2.
  - by rewrite !filter_cons, IH.
Qed.

Lemma drop_rsvp_name p : p_name (drop_rsvp p) = p_name p.
Proof. unfold drop_rsvp. by destruct (named _ p). Qed.

Lemma fix_organizer_name p : p_name (fix_organizer p) = p_name p.
Proof. unfold fix_organizer. cbv zeta. by destruct (_ && _). Qed.

Lemma first_map n f ps :
  (∀ p, p_name (f p) = p_name p) → getFirstProperty n (map f ps) = f <$> getFirstProperty n ps.
Proof.
  intros Hf. unfold getFirstProperty. induction ps as [|p ps IH]; [done|]. cbn [map List.find].
  unfold named at 1. rewrite Hf. fold (named n p). by destruct (named n p).
Qed.

(** The attendees. *)
Definition attendee_props : list Property → list Property := filter (λ p, named "attendee"%js p = true).

Lemma normalise_event_attendees ps :
  attendee_props (normalise_event ps) = map (removeParameter "rsvp"%js) (attendee_props ps).
Proof.
  unfold normalise_event, attendee_props. rewrite filter_update_ne by (done || apply fix_organizer_name).
  assert (∀ qs, filter (λ p, named "attendee"%js p = true) (map drop_rsvp qs) =
    map (removeParameter "rsvp"%js) (filter (λ p, named "attendee"%js p = true) qs)) as Hd.
  { intros qs. induction qs as [|q qs IH]; [done|]. cbn [map]. rewrite !filter_cons, IH. unfold drop_rsvp.
    by destruct (named _ q) eqn:E; cbn [named removeParameter p_name] in *; unfold named in *; cbn [p_name removeParameter];
      rewrite E. }
  rewrite Hd. f_equal. destruct (has_sequence ps); [done|]. unfold updatePropertyWithValue.
  destruct (getFirstProperty _ ps); [by apply filter_update_ne|]. rewrite filter_app. simpl. by rewrite app_nil_r.
Qed.

Lemma normalise_event_sequence ps : has_sequence (normalise_event ps) = true.
Proof.
  unfold normalise_event, has_sequence at 1. rewrite first_update_ne by (done || apply fix_organizer_name).
  rewrite first_map by apply drop_rsvp_name. destruct (has_sequence ps) eqn:E.
  - unfold has_sequence in E. destruct (getFirstProperty _ ps) as [p|]; [|done]. simpl. unfold drop_rsvp. by destruct (named _ p).
  - unfold updatePropertyWithValue. destruct (getFirstProperty "sequence"%js ps) as [p|] eqn:Ep.
    + rewrite first_update_eq, Ep by done. simpl. unfold drop_rsvp. by destruct (named _ _).
    + assert (getFirstProperty "sequence"%js (ps ++ [setValue (VNum (num_of_Z 0)) (new_property "sequence"%js)]) =
        Some (setValue (VNum (num_of_Z 0)) (new_property "sequence"%js))) as ->; [|done].
      unfold getFirstProperty in *. induction ps as [|q ps IH]; [done|]. cbn [app List.find] in *.
      destruct (named _ q); [done|]. apply IH; [|done].
      by unfold has_sequence, getFirstProperty; rewrite Ep.
Qed.

Lemma removeParameter_again n p : removeParameter n (removeParameter n p) = removeParameter n p.
Proof.
  unfold removeParameter. simpl. f_equal. apply filter_all. intros e He. by apply list_elem_of_filter in He as [? _].
Qed.

Lemma drop_rsvp_again p : drop_rsvp (drop_rsvp p) = drop_rsvp p.
Proof.
  unfold drop_rsvp at 2 3. destruct (named _ p) eqn:E; [|by unfold drop_rsvp; rewrite E].
  unfold drop_rsvp, named in *. simpl. rewrite E. apply removeParameter_again.
Qed.

Lemma fix_organizer_again p : fix_organizer (fix_organizer p) = fix_organizer p.
Proof.
  unfold fix_organizer at 2 3. cbv zeta. destruct (js_truthy (p_value p) && _) eqn:E; unfold fix_organizer; cbv zeta.
  - cbn [p_value setValue js_to_string]. unfold mailto at 1 3. by rewrite andb_false_r.
  - by rewrite E.
Qed.

Lemma organizer_fixed ps : 
  update_first "organizer"%js fix_organizer (update_first "organizer"%js fix_organizer ps) =
  update_first "organizer"%js fix_organizer ps.
Proof.
  induction ps as [|p ps IH]; [done|]. cbn [update_first]. destruct (named _ p) eqn:E; cbn [update_first].
  - unfold named in *. rewrite fix_organizer_name, E. by rewrite fix_organizer_again.
  - by rewrite E, IH.
Qed.

Lemma map_drop_organizer ps :
  map drop_rsvp (update_first "organizer"%js fix_organizer ps) = update_first "organizer"%js fix_organizer (map drop_rsvp ps).
Proof.
  induction ps as [|p ps IH]; [done|]. cbn [update_first map]. unfold named. rewrite drop_rsvp_name.
  case_bool_decide as E; cbn [map]; [|by rewrite IH]. f_equal. unfold drop_rsvp, named. rewrite fix_organizer_name, E. done.
Qed.

Lemma normalise_event_again ps : normalise_event (normalise_event ps) = normalise_event ps.
Proof.
  unfold normalise_event at 1. rewrite normalise_event_sequence. unfold normalise_event.
  rewrite map_drop_organizer, organizer_fixed, map_map. f_equal. apply map_ext, drop_rsvp_again.
Qed.

(** An attendee whose answer is no longer asked for. *)
Definition unanswered (a : Attendee) : Attendee :=
  {| at_email := at_email a; at_name := at_name a; at_role := at_role a; at_partstat := at_partstat a; at_rsvp := false |}.

Lemma getParameter_removed n m p : n ≠ m → getParameter n (removeParameter m p) = getParameter n p.
Proof.
  intros Hne. unfold getParameter, removeParameter. simpl. f_equal. induction (p_params p) as [|[k v] l IH]; [done|].
  rewrite filter_cons. cbn [fst]. destruct (decide (k ≠ m)); cbn [jm_get]; rewrite IH; [done|].
  destruct (decide (n = k)); [|done]. subst. by destruct n0.
Qed.

Lemma getParameter_gone n p : getParameter n (removeParameter n p) = VUndef.
Proof.
  unfold getParameter, removeParameter. simpl. replace (jm_get n _) with (@None jsval); [done|].
  induction (p_params p) as [|[k v] l IH]; [done|]. rewrite filter_cons. cbn [fst].
  destruct (decide (k ≠ n)); [|done]. cbn [jm_get]. by rewrite decide_False.
Qed.

Lemma read_attendee_removed p a :
  read_attendee p = Some a → read_attendee (removeParameter "rsvp"%js p) = Some (unanswered a).
Proof.
  unfold read_attendee. rewrite getParameter_gone, !getParameter_removed by done.
  destruct (first_text (getParameter "rsvp"%js p) _); [|done]. by intros [= <-].
Qed.

Lemma read_attendees_removed ps guests :
  mapM read_attendee ps = Some guests →
  mapM read_attendee (map (removeParameter "rsvp"%js) ps) = Some (map unanswered guests).
Proof.
  rewrite !mapM_Some. induction 1 as [|p a ps guests Hp _ IH]; constructor; [by apply read_attendee_removed|done].
Qed.

(** [mailto:] written in capitals is not recognised. *)
Definition lower_mailto (p : Property) : Prop :=
  startsWith (toLowerCase (text_or_empty (p_value p))) mailto = startsWith (text_or_empty (p_value p)) mailto.

Lemma fix_organizer_address p : lower_mailto p → request_address (p_value (fix_organizer p)) = request_address (p_value p).
Proof.
  unfold lower_mailto, fix_organizer. cbv zeta. destruct (js_truthy (p_value p)) eqn:Et; [|done].
  assert (text_or_empty (p_value p) = js_to_string (p_value p)) as Ht.
  { unfold text_or_empty, nullish_or. by destruct (p_value p). }
  rewrite Ht. intros Hl. destruct (startsWith (js_to_string (p_value p)) mailto) eqn:Es; [done|].
  cbn [negb andb p_value setValue]. rewrite request_address_mailto. unfold request_address. by rewrite Ht, Hl.
Qed.

Lemma normalise_event_organizer ps :
  getFirstProperty "organizer"%js (normalise_event ps) = fix_organizer <$> getFirstProperty "organizer"%js ps.
Proof.
  unfold normalise_event. rewrite first_update_eq, first_map by (apply fix_organizer_name || apply drop_rsvp_name).
  assert (∀ p, getFirstProperty "organizer"%js ps = Some p → drop_rsvp p = p) as Hd.
  { intros p [_ Hp]%List.find_some. unfold drop_rsvp, named in *. by rewrite (bool_decide_eq_true_1 _ Hp). }
  assert (getFirstProperty "organizer"%js (if has_sequence ps then ps
    else updatePropertyWithValue "sequence"%js (VNum (num_of_Z 0)) ps) = getFirstProperty "organizer"%js ps) as ->.
  { destruct (has_sequence ps); [done|]. unfold updatePropertyWithValue.
    destruct (getFirstProperty "sequence"%js ps); [by apply first_update_ne|].
    unfold getFirstProperty. clear Hd. induction ps as [|q qs IH]; [done|]. cbn [app List.find].
    by destruct (named _ q). }
  destruct (getFirstProperty _ ps) as [p|]; [|done]. cbn. by rewrite Hd.
Qed.

Lemma normalise_calendar_vevent vcal vevent :
  getFirstSubcomponent "vevent"%js vcal = Some vevent →
  ∃ prodid, normalise_calendar vcal = Comp "vcalendar"%js
      [setValue prodid (new_property "prodid"%js); setValue (VStr "2.0"%js) (new_property "version"%js)]
      [Comp "vevent"%js (normalise_event (c_props vevent)) (c_subs vevent)] ∧
    (if js_truthy prodid then prodid else VStr default_prodid) = prodid.
Proof.
  intros H. assert (c_name vevent = "vevent"%js) as Hn.
  { apply List.find_some in H as [_ H]. by apply bool_decide_eq_true in H. }
  unfold normalise_calendar. rewrite H, Hn. eexists. split; [reflexivity|].
  generalize (from_option p_value VUndef (getFirstProperty "prodid"%js (removeAllProperties "method"%js (c_props vcal)))).
  intros v. destruct (js_truthy v) eqn:E; [by rewrite E|done].
Qed.

(** The stored copy of an invitation is a calendar with the program's name, the version and the
    event: the event keeps its attendees without the question for an answer, its organizer, and
    has a sequence number.  Storing the copy again changes nothing. *)
Theorem normalise_calendar_spec vcal vevent (H : getFirstSubcomponent "vevent"%js vcal = Some vevent) :
  let r := normalise_calendar vcal in
  normalise_calendar r = r ∧ map p_name (c_props r) = ["prodid"; "version"]%js ∧
  ∃ ps, c_subs r = [Comp "vevent"%js ps (c_subs vevent)] ∧ has_sequence ps = true ∧
    (∀ guests, mapM read_attendee (attendee_props (c_props vevent)) = Some guests →
       mapM read_attendee (attendee_props ps) = Some (map unanswered guests)) ∧
    ∀ p, getFirstProperty "organizer"%js (c_props vevent) = Some p → lower_mailto p →
      (request_address ∘ p_value) <$> getFirstProperty "organizer"%js ps = Some (request_address (p_value p)).
Proof.
  intros r. subst r. destruct (normalise_calendar_vevent vcal vevent H) as (prodid & -> & Hid). split; [|split; [done|]].
  - set (props := [setValue prodid _; _]). assert (removeAllProperties "method"%js props = props) as Hp by reflexivity.
    assert (∀ ps subs, getFirstSubcomponent "vevent"%js (Comp "vcalendar"%js props [Comp "vevent"%js ps subs]) =
      Some (Comp "vevent"%js ps subs)) as Hs by reflexivity.
    unfold normalise_calendar. rewrite Hs. cbn [c_name c_props c_subs]. rewrite Hp.
    assert (getFirstProperty "prodid"%js props = Some (setValue prodid (new_property "prodid"%js))) as -> by reflexivity.
    cbn [from_option p_value setValue]. by rewrite Hid, normalise_event_again.
  - eexists. split; [done|]. split; [apply normalise_event_sequence|]. split.
    + intros guests Hg. rewrite normalise_event_attendees. by apply read_attendees_removed.
    + intros p Hp Hl. rewrite normalise_event_organizer, Hp. cbn. f_equal. by apply fix_organizer_address.
Qed.

Definition ex_component : Component :=
  Comp "vcalendar"%js [setValue (VStr "REQUEST"%js) (new_property "method"%js)]
    [Comp "vtimezone"%js [] [];
     Comp "vevent"%js
       [ setValue (VStr "mailto:ann@x.org"%js) (new_property "organizer"%js);
         setParameter "rsvp"%js (VStr "TRUE"%js) (setValue (VStr "mailto:bob@x.org"%js) (new_property "attendee"%js)) ] []].

Lemma normalise_calendar_spec_witness :
  normalise_calendar (normalise_calendar ex_component) = normalise_calendar ex_component ∧
  map p_name (c_props (normalise_calendar ex_component)) = ["prodid"; "version"]%js.
Proof.
  destruct (normalise_calendar_spec ex_component (default ex_component (getFirstSubcomponent "vevent"%js ex_component))
    eq_refl) as (H1 & H2 & _). exact (conj H1 H2).
Defined.

(** An organizer written in capitals gets a second scheme, and the address that is read back is
    not the organizer's; the time zones of the invitation are not in the copy. *)
Lemma capital_mailto_doubled :
  let p := setValue (VStr "MAILTO:ann@x.org"%js) (new_property "organizer"%js) in
  request_address (p_value p) = "ann@x.org"%js ∧
  p_value (fix_organizer p) = VStr "mailto:MAILTO:ann@x.org"%js ∧
  request_address (p_value (fix_organizer p)) = "mailto:ann@x.org"%js ∧
  getFirstSubcomponent "vtimezone"%js ex_component ≠ None ∧
  getFirstSubcomponent "vtimezone"%js (normalise_calendar ex_component) = None.
Proof. by vm_compute. Qed.
