(* ===== verification/ITipProcessor.v ===== *)
(** * Incoming invitations ([apps/worker/lib/dav/calendar/dav-itip-processor.ts])

    A message with a calendar attachment invites, cancels or replies.  The attachment is
    downloaded and parsed by services outside the repository: they are parameters, and what the
    code reads from a parsed event is a record. *)

From stdpp Require Import base list.
From S2P Require Import Prelude JsString JsNumber JsValue RuleMatcher Proc ContactTable ITip.

(** ** What is read from a parsed calendar *)

Record Vevent := {
  v_uid : option jsstr; v_summary : option jsstr; v_description : option jsstr;
  (** the start with [isDate], the end: [None] is [null] *)
  v_start : option (Z * bool); v_end : option Z;
  v_rrule : jsval; v_organizer : option Property; v_attendees : list Property;
}.

(** [None] for the event: no VEVENT. *)
Record Vcalendar := { v_method : option jsstr; v_event : option Vevent }.

(** ** The tables *)

Record CalMessage := { cm_id : jsstr; cm_ownerId : jsstr }.
Record CalMailbox := { cb_id : jsstr; cb_slug : option jsstr; cb_identityId : jsstr }.
Record CalIdentity := { ci_id : jsstr; ci_value : jsstr }.
Record Calendar := { ca_id : jsstr; ca_ownerId : jsstr; ca_isDefault : bool }.

(** The columns a request sets. *)
Record EventFields := {
  ef_title : jsstr; ef_description : option jsstr; ef_startsAt : Z; ef_endsAt : Z; ef_isAllDay : bool;
  ef_recurrenceRule : option jsstr; ef_organizerEmail : option jsstr; ef_organizerName : option jsstr;
  ef_rawIcs : jsstr;
}.

Record EventRow := {
  ev_id : jsstr; ev_ownerId : jsstr; ev_calendarId : jsstr; ev_davUri : option jsstr; ev_icalUid : option jsstr;
  ev_isExternal : bool; ev_fields : EventFields;
}.

Record AttendeeRow := {
  aw_ownerId : jsstr; aw_eventId : jsstr; aw_attendee : Attendee; aw_contactId : option jsstr; aw_isOrganizer : bool;
}.

Record CalJob := { cj_name : jsstr; cj_data : list (jsstr * jsval) }.

Record CalStore := {
  messages : list CalMessage; mailboxes : list CalMailbox; identities : list CalIdentity;
  attachments : list jsstr; calendars : list Calendar; events : list EventRow; attendees : list AttendeeRow;
  contacts : list ContactRow; jobs : list CalJob;
}.

Definition set_events (f : list EventRow → list EventRow) (s : CalStore) : CalStore :=
  {| messages := messages s; mailboxes := mailboxes s; identities := identities s; attachments := attachments s;
     calendars := calendars s; events := f (events s); attendees := attendees s; contacts := contacts s;
     jobs := jobs s |}.
Definition set_attendees (f : list AttendeeRow → list AttendeeRow) (s : CalStore) : CalStore :=
  {| messages := messages s; mailboxes := mailboxes s; identities := identities s; attachments := attachments s;
     calendars := calendars s; events := events s; attendees := f (attendees s); contacts := contacts s;
     jobs := jobs s |}.
Definition set_contacts (f : list ContactRow → list ContactRow) (s : CalStore) : CalStore :=
  {| messages := messages s; mailboxes := mailboxes s; identities := identities s; attachments := attachments s;
     calendars := calendars s; events := events s; attendees := attendees s; contacts := f (contacts s);
     jobs := jobs s |}.
Definition set_jobs (f : list CalJob → list CalJob) (s : CalStore) : CalStore :=
  {| messages := messages s; mailboxes := mailboxes s; identities := identities s; attachments := attachments s;
     calendars := calendars s; events := events s; attendees := attendees s; contacts := contacts s;
     jobs := f (jobs s) |}.

Definition cal_job (name : jsstr) (data : list (jsstr * jsval)) : prog CalStore unit :=
  modify (set_jobs (λ l, l ++ [ {| cj_name := name; cj_data := data |} ])).

Section Processor.
(** The storage and [ICAL.parse]: the calendar of an attachment; [None] when the download or the
    parser fails. *)
Context (read_ics : jsstr → option (jsstr * Vcalendar)).
(** [ICAL.parse] and [toString] on components. *)
Context (parse : jsstr → option Component) (print : Component → jsstr).
(** [dayjsExtended(t).add(1, 'day')], [.subtract(1, 'day')], [.startOf('day')], [.endOf('day')] *)
Context (add_day subtract_day start_of_day end_of_day : Z → Z).
(** The schemas generated from the tables. *)
Context (insert_ok update_ok : EventFields → bool) (attendee_ok : AttendeeRow → bool).
(** Whether the database reads a text as a uuid; the ids it gives to new rows. *)
Context (is_uuid : jsstr → bool) (new_id : CalStore → jsstr).

(** ** [ensureContactsForAttendees] *)

Definition contact_key (email : jsstr) : jsstr := toLowerCase (trim email).

(** The first attendee of each address. *)
Definition contact_add (m : jsmap jsstr (option jsstr)) (a : Attendee) : jsmap jsstr (option jsstr) :=
  let email := contact_key (at_email a) in
  if negb (truthy email) then m
  else if jm_has email m then m
  else jm_set email (at_name a) m.

Definition by_email (l : list Attendee) : jsmap jsstr (option jsstr) := foldl contact_add [] l.

(** First and last name for a new contact. *)
Definition local_part (email : jsstr) : jsstr :=
  js_or (default [] (head (split "@"%char email))) "Unknown"%js.

Definition contact_names (email : jsstr) (name : option jsstr) : jsstr * option jsstr :=
  let rawName := trim (default [] name) in
  if truthy rawName then
    match runs is_space rawName [] with
    | [] => (local_part email, None)
    | w :: ws => (js_or w (local_part email), match ws with [] => None | _ => Some (join " "%js ws) end)
    end
  else (local_part email, None).

Definition has_email (ownerId email : jsstr) (c : ContactRow) : bool :=
  bool_decide (ct_ownerId c = ownerId) && bool_decide (email ∈ map toLowerCase (ct_emails c)).

Definition ensure_contact (ownerId email : jsstr) (name : option jsstr) : prog CalStore jsstr :=
  s ← read;
  match List.find (has_email ownerId email) (contacts s) with
  | Some existing => mret (ct_id existing)
  | None =>
      let names := contact_names email name in
      let row := {| ct_id := new_id s; ct_ownerId := ownerId; ct_firstName := names.1; ct_lastName := names.2;
                    ct_emails := [email] |} in
      _ ← modify (set_contacts (λ l, l ++ [row]));
      mret (ct_id row)
  end.

(** The ids by address; the code keeps them in an object, which differs from a map only for the
    address [__proto__]. *)
Fixpoint ensure_all (ownerId : jsstr) (l : list (jsstr * option jsstr)) (acc : jsmap jsstr jsstr) :
    prog CalStore (jsmap jsstr jsstr) :=
  match l with
  | [] => mret acc
  | (email, name) :: rest =>
      id ← ensure_contact ownerId email name;
      ensure_all ownerId rest (jm_set email id acc)
  end.

Definition ensureContactsForAttendees (ownerId : jsstr) (l : list Attendee) : prog CalStore (jsmap jsstr jsstr) :=
  ensure_all ownerId (by_email l) [].

(** ** [applyIncomingRequest] *)

(** The days of an all-day event, or its instants; [None] when a date is missing. *)
Definition event_times (ev : Vevent) : option (Z * Z * bool) :=
  match v_start ev with
  | None => None
  | Some (start, true) =>
      let endExclusive := default (add_day start) (v_end ev) in
      Some (start_of_day start, end_of_day (subtract_day endExclusive), true)
  | Some (start, false) => (λ e, (start, e, false)) <$> v_end ev
  end.

Definition ics_uri (uid : jsstr) : jsstr := uid ++ ".ics"%js.

(** An event of the owner with that uid. *)
Definition same_uid (ownerId uid : jsstr) (r : EventRow) : bool :=
  bool_decide (ev_ownerId r = ownerId) &&
  (bool_decide (ev_davUri r = Some (ics_uri uid)) || bool_decide (ev_davUri r = Some uid) ||
   bool_decide (ev_icalUid r = Some uid)).

Definition set_fields (id : jsstr) (f : EventFields) : list EventRow → list EventRow :=
  map (λ r, if bool_decide (ev_id r = id) then
    {| ev_id := ev_id r; ev_ownerId := ev_ownerId r; ev_calendarId := ev_calendarId r; ev_davUri := ev_davUri r;
       ev_icalUid := ev_icalUid r; ev_isExternal := ev_isExternal r; ev_fields := f |} else r).

Definition organizer_text (ev : Vevent) : option jsstr := (λ p, request_address (p_value p)) <$> v_organizer ev.
Definition organizer_cn (ev : Vevent) : option jsstr := v_organizer ev ≫= λ p, first_text (getParameter "cn"%js p) None.

Definition recurrence_text (ev : Vevent) : option jsstr :=
  if js_truthy (v_rrule ev) then Some (js_to_string (v_rrule ev)) else None.

Definition request_fields (ev : Vevent) (times : Z * Z * bool) (title : jsstr) (description : option jsstr)
    (raw : jsstr) : EventFields :=
  {| ef_title := title; ef_description := description; ef_startsAt := times.1.1; ef_endsAt := times.1.2;
     ef_isAllDay := times.2; ef_recurrenceRule := recurrence_text ev; ef_organizerEmail := organizer_text ev;
     ef_organizerName := organizer_cn ev; ef_rawIcs := raw |}.

(** Insert the event, or update it: its id; [None] when the schema refuses the values. *)
Definition store_event (ownerId calendarId uid ics : jsstr) (ev : Vevent) (times : Z * Z * bool) :
    prog CalStore (option jsstr) :=
  s ← read;
  match List.find (same_uid ownerId uid) (events s) with
  | None =>
      raw ← or_throw (normaliseItipRequestToVevent parse print ics);
      let f := request_fields ev times (opt_or (v_summary ev) "(no title)"%js) (v_description ev ≫= or_undefined) raw in
      if negb (insert_ok f) then mret None
      else
        let row := {| ev_id := new_id s; ev_ownerId := ownerId; ev_calendarId := calendarId;
                      ev_davUri := Some (ics_uri uid); ev_icalUid := Some uid; ev_isExternal := true; ev_fields := f |} in
        _ ← modify (set_events (λ l, l ++ [row]));
        _ ← cal_job "dav:calendar:create-event"%js
              [("eventId", VStr (ev_id row)); ("notifyAttendees", VBool false); ("uid", VStr uid)]%js;
        mret (Some (ev_id row))
  | Some existing =>
      raw ← or_throw (normaliseItipRequestToVevent parse print ics);
      let f := request_fields ev times (opt_or (v_summary ev) (ef_title (ev_fields existing)))
                 (match v_description ev with Some d => Some d | None => ef_description (ev_fields existing) end) raw in
      if negb (update_ok f) then mret None
      else
        _ ← modify (set_events (set_fields (ev_id existing) f));
        _ ← cal_job "dav:calendar:update-event"%js
              [("eventId", VStr (ev_id existing)); ("notifyAttendees", VBool false)]%js;
        mret (Some (ev_id existing))
  end.

Definition attendee_key (r : AttendeeRow) : jsstr * jsstr := (aw_eventId r, at_email (aw_attendee r)).

(** A row the schema refuses is skipped; the key [(event_id, email)] is unique. *)
Definition insert_attendee (row : AttendeeRow) : prog CalStore unit :=
  if negb (attendee_ok row) then mret tt
  else
    s ← read;
    if bool_decide (attendee_key row ∈ map attendee_key (attendees s)) then throw
    else modify (set_attendees (λ l, l ++ [row])).

Definition applyIncomingRequest (ownerId calendarId ics : jsstr) (ev : Vevent) : prog CalStore unit :=
  times ← or_throw (event_times ev);
  match v_uid ev with
  | None => mret tt
  | Some uid =>
      if negb (truthy uid) then mret tt
      else
        guests ← or_throw (mapM read_attendee (v_attendees ev));
        ids ← ensureContactsForAttendees ownerId guests;
        o ← store_event ownerId calendarId uid ics ev times;
        match o with
        | None => mret tt
        | Some eventId =>
            _ ← modify (set_attendees (filter (λ r, aw_eventId r ≠ eventId)));
            each (λ a, insert_attendee {|
              aw_ownerId := ownerId; aw_eventId := eventId; aw_attendee := a;
              aw_contactId := jm_get (contact_key (at_email a)) ids;
              aw_isOrganizer := bool_decide (Some (at_email a) = organizer_text ev) |}) guests
        end
  end.

(** ** The three methods *)

(** One of the attendees is the identity the mailbox belongs to; [None] without mailbox or identity. *)
Definition is_for_me (mailboxId : jsstr) (ev : Vevent) (s : CalStore) : option bool :=
  mailbox ← List.find (λ r, bool_decide (cb_id r = mailboxId)) (mailboxes s);
  if negb (truthy (cb_identityId mailbox)) then None else
  identity ← List.find (λ r, bool_decide (ci_id r = cb_identityId mailbox)) (identities s);
  Some (existsb (λ p, bool_decide (reply_address (p_value p) = toLowerCase (trim (ci_value identity)))) (v_attendees ev)).

Definition handleIncomingRequest (msg : CalMessage) (mailboxId ics : jsstr) (ev : Vevent) : prog CalStore unit :=
  s ← read;
  match is_for_me mailboxId ev s with
  | Some true =>
      match List.find (λ c, bool_decide (ca_ownerId c = cm_ownerId msg) && ca_isDefault c) (calendars s) with
      | Some calendar => applyIncomingRequest (cm_ownerId msg) (ca_id calendar) ics ev
      | None => mret tt
      end
  | _ => mret tt
  end.

Definition handleIncomingCancel (mailboxId : jsstr) (ev : Vevent) : prog CalStore unit :=
  s ← read;
  match is_for_me mailboxId ev s, v_uid ev with
  | Some true, Some uid =>
      if negb (truthy uid) then mret tt
      else
        match List.find (λ r, bool_decide (ev_icalUid r = Some uid)) (events s) with
        | Some existing =>
            cal_job "dav:calendar:delete-event"%js
              [("eventId", VStr (ev_id existing)); ("notifyAttendees", VBool false); ("deleteEvent", VBool true)]%js
        | None => mret tt
        end
  | _, _ => mret tt
  end.

(** What a reply says: the addresses and their participation. *)
Definition reply_updates (ev : Vevent) : list (jsstr * DbPartstat) :=
  omap (λ p,
    let email := reply_address (p_value p) in
    if truthy email then Some (email, icsPartstatToDb (first_text (getParameter "partstat"%js p) None)) else None)
    (v_attendees ev).

Definition set_partstat (st : DbPartstat) (r : AttendeeRow) : AttendeeRow :=
  {| aw_ownerId := aw_ownerId r; aw_eventId := aw_eventId r;
     aw_attendee := {| at_email := at_email (aw_attendee r); at_name := at_name (aw_attendee r);
                       at_role := at_role (aw_attendee r); at_partstat := st; at_rsvp := at_rsvp (aw_attendee r) |};
     aw_contactId := aw_contactId r; aw_isOrganizer := aw_isOrganizer r |}.

Definition is_attendee (eventId email : jsstr) (r : AttendeeRow) : bool :=
  bool_decide (aw_eventId r = eventId) && bool_decide (at_email (aw_attendee r) = email).

(** The loop over the updates: whether a row was changed. *)
Fixpoint apply_reply (eventId : jsstr) (l : list (jsstr * DbPartstat)) (anyUpdated : bool) : prog CalStore bool :=
  match l with
  | [] => mret anyUpdated
  | (email, st) :: rest =>
      s ← read;
      _ ← modify (set_attendees (map (λ r, if is_attendee eventId email r then set_partstat st r else r)));
      apply_reply eventId rest (anyUpdated || existsb (is_attendee eventId email) (attendees s))
  end.

(** The query compares the uid with the id column too: a text that is not a uuid is an error. *)
Definition reply_event (ownerId uid : jsstr) (r : EventRow) : bool :=
  bool_decide (ev_ownerId r = ownerId) &&
  (bool_decide (ev_davUri r = Some uid) || bool_decide (ev_id r = uid) || bool_decide (ev_icalUid r = Some uid)).

Definition handle_reply (msg : CalMessage) (ev : Vevent) : prog CalStore unit :=
  match v_uid ev with
  | None => mret tt
  | Some uid =>
      if negb (truthy uid) then mret tt
      else
        match reply_updates ev with
        | [] => mret tt
        | updates =>
            if negb (is_uuid uid) then throw
            else
              s ← read;
              match List.find (reply_event (cm_ownerId msg) uid) (events s) with
              | None => mret tt
              | Some event =>
                  anyUpdated ← apply_reply (ev_id event) updates false;
                  match anyUpdated with
                  | true => cal_job "dav:calendar:update-event"%js
                              [("eventId", VStr (ev_id event)); ("notifyAttendees", VBool false)]%js
                  | false => mret tt
                  end
              end
        end
  end.

(** ** [processSingleItem] and [davItipProcessor] *)

Record DavItipIngestItem := { it_messageId : jsstr; it_attachmentId : jsstr; it_mailboxId : jsstr }.

Definition processSingleItem (item : DavItipIngestItem) : prog CalStore unit :=
  s ← read;
  match List.find (λ m, bool_decide (cm_id m = it_messageId item)) (messages s),
        List.find (λ b, bool_decide (cb_id b = it_mailboxId item)) (mailboxes s) with
  | Some msg, Some mb =>
      if bool_decide (cb_slug mb = Some "sent"%js) then mret tt
      else if negb (bool_decide (it_attachmentId item ∈ attachments s)) then mret tt
      else
        match read_ics (it_attachmentId item) with
        | None => mret tt
        | Some (ics, vcal) =>
            match v_event vcal with
            | None => mret tt
            | Some ev =>
                let method := toUpperCase (opt_or (v_method vcal) "REQUEST"%js) in
                if bool_decide (method = "REQUEST"%js) then handleIncomingRequest msg (it_mailboxId item) ics ev
                else if bool_decide (method = "CANCEL"%js) then handleIncomingCancel (it_mailboxId item) ev
                else if bool_decide (method = "REPLY"%js) then handle_reply msg ev
                else mret tt
            end
        end
  | _, _ => mret tt
  end.

Definition davItipProcessor (items : list DavItipIngestItem) : prog CalStore unit :=
  each (λ item, catch (processSingleItem item) (mret tt)) items.
End Processor.

(** ** Contacts *)

Section Contacts.
Context (new_id : CalStore → jsstr).

Lemma contact_key_lower e : toLowerCase (contact_key e) = contact_key e.
Proof. apply toLowerCase_idemp. Qed.

Lemma contact_add_keys m a :
  (contact_add m a).*1 = if truthy (contact_key (at_email a)) then set_add (contact_key (at_email a)) m.*1 else m.*1.
Proof.
  unfold contact_add, jm_has. destruct (truthy (contact_key (at_email a))); [|done]. cbn [negb]. unfold set_add.
  case_bool_decide as Hg.
  - rewrite decide_True; [done|]. destruct Hg as [v Hv]. apply jm_get_elem_of in Hv.
    apply list_elem_of_fmap. by exists (contact_key (at_email a), v).
  - rewrite decide_False.
    + rewrite jm_set_fresh; [by rewrite fmap_app|]. apply jm_get_None.
      by destruct (jm_get _ m); [destruct Hg|].
    + apply jm_get_None. by destruct (jm_get _ m); [destruct Hg|].
Qed.

(** The addresses, each once, in the order of their first attendee. *)
Definition addresses (l : list Attendee) : list jsstr :=
  set_of_list (filter (λ e, truthy e = true) (map (λ a, contact_key (at_email a)) l)).

Lemma by_email_keys l : (by_email l).*1 = addresses l.
Proof.
  assert (∀ m, (foldl contact_add m l).*1 = foldl (λ s x, set_add x s) m.*1
    (filter (λ e, truthy e = true) (map (λ a, contact_key (at_email a)) l))) as H; [|apply (H [])].
  induction l as [|a l IH]; intros m; [done|]. cbn [foldl map].
  rewrite IH, contact_add_keys, filter_cons. destruct (truthy _) eqn:E.
  - by rewrite decide_True.
  - by rewrite decide_False by congruence.
Qed.

(** A contact of the owner with the address. *)
Definition known (ownerId email id : jsstr) (s : CalStore) : Prop :=
  ∃ c, List.find (has_email ownerId email) (contacts s) = Some c ∧ ct_id c = id.

Lemma find_app_Some {A} (p : A → bool) l k x : List.find p l = Some x → List.find p (l ++ k) = Some x.
Proof. by rewrite find_app; intros ->. Qed.

Lemma find_app_None {A} (p : A → bool) l k : List.find p l = None → List.find p (l ++ k) = List.find p k.
Proof. by rewrite find_app; intros ->. Qed.

Lemma set_contacts_nil s : set_contacts (λ l, l ++ []) s = s.
Proof. destruct s. unfold set_contacts. simpl. by rewrite app_nil_r. Qed.

Lemma set_contacts_app new new' s :
  set_contacts (λ l, l ++ new') (set_contacts (λ l, l ++ new) s) = set_contacts (λ l, l ++ (new ++ new')) s.
Proof. unfold set_contacts. simpl. by rewrite app_assoc. Qed.

Lemma known_app ownerId email id s new :
  known ownerId email id s → known ownerId email id (set_contacts (λ l, l ++ new) s).
Proof. intros (c & Hc & Hid). exists c. split; [|done]. simpl. by apply find_app_Some. Qed.

Lemma ensure_contact_spec ownerId email name s :
  toLowerCase email = email →
  ∃ id new, ensure_contact new_id ownerId email name s = (set_contacts (λ l, l ++ new) s, Done id) ∧
    known ownerId email id (set_contacts (λ l, l ++ new) s) ∧
    Forall (λ c, ct_ownerId c = ownerId ∧ ct_emails c = [email]) new ∧
    (is_Some (List.find (has_email ownerId email) (contacts s)) → new = []).
Proof.
  intros He. unfold ensure_contact. unfold read, modify, mret, proc_ret, mbind, proc_bind.
  destruct (List.find (has_email ownerId email) (contacts s)) as [c|] eqn:E.
  - exists (ct_id c), []. rewrite set_contacts_nil. split; [done|]. split; [by exists c|]. split; [constructor|done].
  - set (row := {| ct_id := new_id s; ct_ownerId := ownerId; ct_firstName := _; ct_lastName := _; ct_emails := _ |}).
    exists (ct_id row), [row]. split; [done|]. split; [|split; [by repeat constructor|by intros [? ?]]].
    exists row. split; [|done]. simpl. rewrite find_app_None by done. simpl. unfold has_email. simpl.
    rewrite bool_decide_true by done. by rewrite bool_decide_true by (rewrite He; set_solver).
Qed.

Lemma ensure_all_spec ownerId l acc s :
  Forall (λ e, toLowerCase e.1 = e.1) l →
  ∃ ids new, ensure_all new_id ownerId l acc s = (set_contacts (λ l, l ++ new) s, Done ids) ∧
    (∀ email, email ∈ l.*1 → ∃ id, jm_get email ids = Some id ∧ known ownerId email id (set_contacts (λ l, l ++ new) s)) ∧
    (∀ email, email ∉ l.*1 → jm_get email ids = jm_get email acc) ∧
    Forall (λ c, ct_ownerId c = ownerId ∧ ∃ email, email ∈ l.*1 ∧ ct_emails c = [email]) new ∧
    ((∀ email, email ∈ l.*1 → is_Some (List.find (has_email ownerId email) (contacts s))) → new = []).
Proof.
  revert acc s. induction l as [|[email name] l IH]; intros acc s Hl.
  - exists acc, []. rewrite set_contacts_nil. split; [done|]. split; [set_solver|]. split; [done|]. split; [constructor|done].
  - apply Forall_cons in Hl as [He Hl]. cbn [ensure_all fst] in *.
    destruct (ensure_contact_spec ownerId email name s He) as (id & new & E & Hk & Hnew & Hnone).
    unfold mbind, proc_bind. rewrite E. set (s1 := set_contacts _ s) in *.
    destruct (IH (jm_set email id acc) s1 Hl) as (ids & new' & -> & Hin & Hout & Hnew' & Hnone').
    exists ids, (new ++ new'). subst s1. rewrite set_contacts_app in *. split; [done|]. split; [|split; [|split]].
    + intros e He'. destruct (decide (e ∈ l.*1)) as [Hel|Hel]; [auto|].
      assert (e = email) as -> by (apply elem_of_cons in He' as [?|?]; done). exists id.
      rewrite Hout, jm_get_set_eq by done. split; [done|]. rewrite <- set_contacts_app. by apply known_app.
    + intros e He'. apply not_elem_of_cons in He' as [Hne Hel]. rewrite Hout, jm_get_set_ne by done. done.
    + apply Forall_app. split.
      * eapply Forall_impl; [exact Hnew|]. intros c [? ?]. split; [done|]. exists email. set_solver.
      * eapply Forall_impl; [exact Hnew'|]. intros c (? & e & ? & ?). split; [done|]. exists e. set_solver.
    + intros Hall. rewrite Hnone by (apply Hall; set_solver). apply Hnone'. intros e Hel.
      destruct (Hall e) as [c Hc]; [set_solver|]. exists c. simpl. by apply find_app_Some.
Qed.

(** Contacts for the attendees of an event: each address gets the id of a contact of the owner
    that has it; the contacts added belong to the owner and have one of the addresses; none is
    added for an address that has a contact, so a second run adds nothing. *)
Lemma ensureContacts_spec ownerId l s :
  let r := ensureContactsForAttendees new_id ownerId l s in
  ∃ ids new, r.2 = Done ids ∧ r.1 = set_contacts (λ c, c ++ new) s ∧
    (∀ email, is_Some (jm_get email ids) ↔ email ∈ addresses l) ∧
    (∀ email id, jm_get email ids = Some id → known ownerId email id r.1) ∧
    Forall (λ c, ct_ownerId c = ownerId ∧ ∃ email, email ∈ addresses l ∧ ct_emails c = [email]) new ∧
    (ensureContactsForAttendees new_id ownerId l r.1).1 = r.1.
Proof.
  assert (Forall (λ e, toLowerCase e.1 = e.1) (by_email l)) as Hlow.
  { apply Forall_forall. intros e He. assert (e.1 ∈ addresses l) as Ha.
    { rewrite <- by_email_keys. by apply list_elem_of_fmap_2. }
    unfold addresses in Ha. rewrite elem_of_set_of_list, list_elem_of_filter, list_elem_of_fmap in Ha.
    destruct Ha as (_ & a & -> & _). apply contact_key_lower. }
  unfold ensureContactsForAttendees. destruct (ensure_all_spec ownerId (by_email l) [] s Hlow)
    as (ids & new & E & Hin & Hout & Hnew & _). rewrite by_email_keys in *. rewrite E. cbv zeta. cbn [fst snd].
  exists ids, new. split; [done|]. split; [done|]. split; [|split; [|split; [done|]]].
  - intros email. split; [|intros (id & -> & _)%Hin; by eexists]. intros [id Hid].
    destruct (decide (email ∈ addresses l)) as [|Hn]; [done|]. by rewrite Hout in Hid.
  - intros email id Hid. destruct (decide (email ∈ addresses l)) as [Ha|Hn]; [|by rewrite Hout in Hid].
    destruct (Hin email Ha) as (id' & Hid' & Hk). congruence.
  - set (s1 := set_contacts _ s) in *. destruct (ensure_all_spec ownerId (by_email l) [] s1 Hlow)
      as (ids' & new' & -> & _ & _ & _ & Hnone). rewrite by_email_keys in Hnone. cbn [fst].
    rewrite Hnone; [apply set_contacts_nil|]. intros email (id & _ & c & Hc & _)%Hin. by exists c.
Qed.
End Contacts.

(** ** Attendees *)

Section Requests.
Context (attendee_ok : AttendeeRow → bool).

(** The rows of an event. *)
Definition rows_of (eventId : jsstr) (s : CalStore) : list AttendeeRow :=
  filter (λ r, aw_eventId r = eventId) (attendees s).

(** The rows inserted one after the other: all of them, or those before the first address that
    comes twice. *)
Fixpoint before_repeat (seen : list (jsstr * jsstr)) (l : list AttendeeRow) : list AttendeeRow * bool :=
  match l with
  | [] => ([], true)
  | r :: l' =>
      if negb (attendee_ok r) then before_repeat seen l'
      else if bool_decide (attendee_key r ∈ seen) then ([], false)
      else let q := before_repeat (seen ++ [attendee_key r]) l' in (r :: q.1, q.2)
  end.

Lemma set_attendees_nil s : set_attendees (λ a, a ++ []) s = s.
Proof. destruct s. unfold set_attendees. simpl. by rewrite app_nil_r. Qed.

Lemma insert_attendee_eq r s :
  insert_attendee attendee_ok r s =
  if negb (attendee_ok r) then (s, Done tt)
  else if bool_decide (attendee_key r ∈ map attendee_key (attendees s)) then (s, Threw)
  else (set_attendees (λ l, l ++ [r]) s, Done tt).
Proof.
  unfold insert_attendee. destruct (negb _); [done|]. unfold mbind, proc_bind, read. by case_bool_decide.
Qed.

Lemma insert_all l s :
  each (insert_attendee attendee_ok) l s =
  let q := before_repeat (map attendee_key (attendees s)) l in
  (set_attendees (λ a, a ++ q.1) s, if q.2 then Done tt else Threw).
Proof.
  revert s. induction l as [|r l IH]; intros s.
  - cbn [each before_repeat]. cbv zeta. cbn [fst snd]. by rewrite set_attendees_nil.
  - cbn [each before_repeat]. unfold mbind, proc_bind. rewrite insert_attendee_eq.
    destruct (attendee_ok r); cbn [negb]; [|apply IH].
    case_bool_decide; [cbn [fst snd]; by rewrite set_attendees_nil|].
    rewrite IH. cbv zeta. cbn [attendees set_attendees fst snd]. rewrite map_app. cbn [map].
    unfold set_attendees. cbn [attendees]. f_equal. f_equal. by rewrite <- app_assoc.
Qed.

Definition accepted_rows : list AttendeeRow → list AttendeeRow := filter (λ r, attendee_ok r = true).

Lemma before_repeat_spec seen l :
  NoDup seen →
  ((before_repeat seen l).2 = true ↔ NoDup (seen ++ map attendee_key (accepted_rows l))) ∧
  ((before_repeat seen l).2 = true → (before_repeat seen l).1 = accepted_rows l).
Proof.
  revert seen. unfold accepted_rows. induction l as [|r l IH]; intros seen Hs; cbn [before_repeat].
  - simpl. by rewrite app_nil_r.
  - rewrite filter_cons. destruct (attendee_ok r); cbn [negb].
    + rewrite decide_True by done. cbn [map]. case_bool_decide as Hin.
      * split; [|done]. split; [done|]. intros (_ & Hno & _)%NoDup_app. exfalso. apply (Hno _ Hin). set_solver.
      * assert (NoDup (seen ++ [attendee_key r])) as Hs'.
        { apply NoDup_app. split; [done|]. split; [|apply NoDup_singleton]. intros x Hx.
          rewrite list_elem_of_singleton. by intros ->. }
        destruct (IH _ Hs') as [H1 H2]. cbv zeta. cbn [fst snd]. rewrite <- app_assoc in H1. split; [done|].
        intros E. by rewrite H2.
    + rewrite decide_False by done. by apply IH.
Qed.

(** Keys of other events do not matter. *)
Lemma before_repeat_foreign id other seen l :
  Forall (λ k, k.1 ≠ id) other → Forall (λ r, aw_eventId r = id) l →
  before_repeat (other ++ seen) l = before_repeat seen l.
Proof.
  intros Ho. revert seen. induction l as [|r l IH]; intros seen Hl; [done|]. apply Forall_cons in Hl as [Hr Hl].
  cbn [before_repeat]. destruct (negb _); [by apply IH|]. rewrite <- app_assoc, IH by done.
  replace (bool_decide (attendee_key r ∈ other ++ seen)) with (bool_decide (attendee_key r ∈ seen)); [done|].
  apply bool_decide_ext. rewrite elem_of_app. split; [tauto|]. intros [Hin|]; [|done].
  rewrite Forall_forall in Ho. by destruct (Ho _ Hin).
Qed.

Lemma before_repeat_short seen l :
  (before_repeat seen l).2 = false → length (before_repeat seen l).1 < length (accepted_rows l).
Proof.
  unfold accepted_rows. revert seen. induction l as [|r l IH]; intros seen; [done|]. cbn [before_repeat].
  rewrite filter_cons. destruct (attendee_ok r); cbn [negb]; [|rewrite decide_False by done; apply IH].
  rewrite decide_True by done. case_bool_decide; simpl; [lia|]. intros Hl%IH. lia.
Qed.

Lemma before_repeat_event id seen l :
  Forall (λ r, aw_eventId r = id) l → Forall (λ r, aw_eventId r = id) (before_repeat seen l).1.
Proof.
  revert seen. induction l as [|r l IH]; intros seen Hl; [done|]. apply Forall_cons in Hl as [Hr Hl].
  cbn [before_repeat]. destruct (negb _); [by apply IH|]. case_bool_decide; [done|]. constructor; [done|by apply IH].
Qed.
End Requests.

(** ** [applyIncomingRequest] *)

Section Apply.
Context (parse : jsstr → option Component) (print : Component → jsstr) (add_day subtract_day start_of_day end_of_day : Z → Z).
Context (insert_ok update_ok : EventFields → bool) (attendee_ok : AttendeeRow → bool) (new_id : CalStore → jsstr).

Abbreviation apply_request := (applyIncomingRequest parse print add_day subtract_day start_of_day end_of_day
  insert_ok update_ok attendee_ok new_id).

(** The row of a guest. *)
Definition guest_row (ownerId eventId : jsstr) (ids : jsmap jsstr jsstr) (ev : Vevent) (a : Attendee) : AttendeeRow := {|
  aw_ownerId := ownerId; aw_eventId := eventId; aw_attendee := a;
  aw_contactId := jm_get (contact_key (at_email a)) ids;
  aw_isOrganizer := bool_decide (Some (at_email a) = organizer_text ev) |}.

Lemma store_event_spec ownerId calendarId uid ics ev times s s' o :
  store_event parse print insert_ok update_ok new_id ownerId calendarId uid ics ev times s = (s', o) →
  attendees s' = attendees s ∧ contacts s' = contacts s ∧
  match o with
  | Done (Some id) => ∃ e, e ∈ events s' ∧ ev_id e = id ∧ ev_ownerId e = ownerId ∧ same_uid ownerId uid e = true ∧
      ef_startsAt (ev_fields e) = times.1.1 ∧ ef_endsAt (ev_fields e) = times.1.2 ∧
      ef_organizerEmail (ev_fields e) = organizer_text ev ∧
      Some (ef_rawIcs (ev_fields e)) = normaliseItipRequestToVevent parse print ics
  | Done None => s' = s ∧ ∃ f, insert_ok f = false ∨ update_ok f = false
  | Threw => s' = s ∧ parse ics = None
  end.
Proof.
  unfold store_event, normaliseItipRequestToVevent, read, modify, cal_job. unfold mbind, proc_bind.
  destruct (parse ics) as [c|]; cbn [fmap option_fmap option_map or_throw].
  2:{ by destruct (List.find _ (events s)); intros [= <- <-]. }
  unfold mret, proc_ret. destruct (List.find (same_uid ownerId uid) (events s)) as [e|] eqn:E.
  - apply List.find_some in E as [Hin%list_elem_of_In Hu]. destruct (update_ok _) eqn:Eo; cbn [negb]; intros [= <- <-].
    2:{ split; [done|]. split; [done|]. split; [done|]. eexists. by right. }
    split; [done|]. split; [done|]. eexists. split.
    { simpl. unfold set_fields. apply list_elem_of_fmap. exists e. split; [reflexivity|done]. }
    rewrite bool_decide_true by done. simpl.
    assert (ev_ownerId e = ownerId) as Ho by (apply andb_true_iff in Hu as [Hu _]; by apply bool_decide_eq_true in Hu).
    by repeat split.
  - destruct (insert_ok _) eqn:Eo; cbn [negb]; intros [= <- <-].
    2:{ split; [done|]. split; [done|]. split; [done|]. eexists. by left. }
    split; [done|]. split; [done|]. eexists. split.
    { simpl. apply elem_of_app. right. by apply list_elem_of_singleton. }
    simpl. unfold same_uid. simpl. rewrite !bool_decide_true by done. by repeat split.
Qed.

(** The rows of an event replaced. *)
Lemma replace_rows id l s :
  Forall (λ r, aw_eventId r = id) l →
  let s1 := set_attendees (filter (λ r, aw_eventId r ≠ id)) s in
  let q := before_repeat attendee_ok [] l in
  ∃ s2, each (insert_attendee attendee_ok) l s1 = (s2, if q.2 then Done tt else Threw) ∧
    events s2 = events s ∧ contacts s2 = contacts s ∧ rows_of id s2 = q.1 ∧ ∀ id', id' ≠ id → rows_of id' s2 = rows_of id' s.
Proof.
  intros Hl s1 q. rewrite insert_all. cbv zeta. rewrite <- (app_nil_r (map _ (attendees s1))).
  rewrite (before_repeat_foreign _ id); [|subst s1; simpl|done].
  2:{ apply Forall_forall. intros k (r & -> & Hr)%list_elem_of_fmap. by apply list_elem_of_filter in Hr as [? _]. }
  fold q. eexists. split; [reflexivity|]. split; [done|]. split; [done|].
  assert (∀ r, r ∈ q.1 → aw_eventId r = id) as Hq.
  { apply Forall_forall. by apply before_repeat_event. }
  unfold rows_of. subst s1. simpl. split; [|intros id' Hne]; rewrite filter_app, list_filter_filter.
  - rewrite filter_none by (intros ? ? [? ?]; done). by rewrite filter_all.
  - rewrite (filter_none _ q.1) by (intros r ->%Hq; congruence). rewrite app_nil_r. apply filter_ext_in.
    intros r _. split; [by intros []|]. intros <-. by split.
Qed.

Lemma guests_of_event ownerId eventId ids ev guests :
  Forall (λ r, aw_eventId r = eventId) (map (guest_row ownerId eventId ids ev) guests).
Proof. apply Forall_fmap, Forall_true. by intros. Qed.

Lemma each_map {S A B} (f : B → prog S unit) (g : A → B) l : each f (map g l) = each (λ a, f (g a)) l.
Proof. induction l as [|a l IH]; [done|]. cbn [map each]. by rewrite IH. Qed.

(** An invitation that the schemas accept is stored as an event of the owner with the times and
    the organizer of the invitation, and its guests replace the attendees of the event.  The
    guests come through when their addresses differ; when an address is repeated the run throws
    after the attendees of the event were deleted, and those before the repetition remain.  The
    attendees of other events stay. *)
Theorem applyIncomingRequest_spec ownerId calendarId uid ics ev times guests s
    (Ht : event_times add_day subtract_day start_of_day end_of_day ev = Some times)
    (Hu : v_uid ev = Some uid) (Hne : truthy uid = true)
    (Hg : mapM read_attendee (v_attendees ev) = Some guests) (Hp : is_Some (parse ics))
    (Hi : ∀ f, insert_ok f = true) (Hup : ∀ f, update_ok f = true) :
  let r := apply_request ownerId calendarId ics ev s in
  ∃ e ids, e ∈ events r.1 ∧ same_uid ownerId uid e = true ∧ ef_startsAt (ev_fields e) = times.1.1 ∧
    ef_endsAt (ev_fields e) = times.1.2 ∧ ef_organizerEmail (ev_fields e) = organizer_text ev ∧
    Some (ef_rawIcs (ev_fields e)) = normaliseItipRequestToVevent parse print ics ∧
    (∀ email, email ∈ addresses guests → ∃ id, jm_get email ids = Some id ∧ known ownerId email id r.1) ∧
    let rows := accepted_rows attendee_ok (map (guest_row ownerId (ev_id e) ids ev) guests) in
    (r.2 = Done tt ↔ NoDup (map attendee_key rows)) ∧
    (r.2 = Done tt → rows_of (ev_id e) r.1 = rows) ∧
    (r.2 ≠ Done tt → length (rows_of (ev_id e) r.1) < length rows) ∧
    ∀ id, id ≠ ev_id e → rows_of id r.1 = rows_of id s.
Proof.
  destruct (ensureContacts_spec new_id ownerId guests s) as (ids & new & Er & Es & Hids & Hknown & _).
  intros r. subst r. unfold applyIncomingRequest. rewrite Ht, Hu, Hne, Hg. cbn [or_throw negb].
  unfold mbind, mret, proc_ret, proc_bind. destruct (ensureContactsForAttendees _ _ _ s) as [s1 o1].
  simpl in Er, Es, Hknown. subst o1 s1. set (s1 := set_contacts _ s) in *.
  destruct (store_event _ _ _ _ _ ownerId calendarId uid ics ev times s1) as [s2 o2] eqn:E2.
  pose proof (store_event_spec _ _ _ _ _ _ _ _ _ E2) as (Ha & Hc & Ho).
  destruct o2 as [[id|]|]; [| |destruct Ho as [_ Ho]; by rewrite Ho in Hp; destruct Hp].
  2:{ destruct Ho as (_ & f & [Hf|Hf]); [by rewrite Hi in Hf|by rewrite Hup in Hf]. }
  destruct Ho as (e & He & <- & _ & Hsame & Hst & Hen & Hor & Hraw).
  destruct (replace_rows (ev_id e) (map (guest_row ownerId (ev_id e) ids ev) guests) s2 (guests_of_event _ _ _ _ _))
    as (s3 & E3 & He3 & Hc3 & Hrows & Hother). unfold modify. rewrite each_map in E3.
  change (each _ guests) with (each (λ a, insert_attendee attendee_ok (guest_row ownerId (ev_id e) ids ev a)) guests).
  rewrite E3. cbn [fst snd]. set (rows := map _ guests) in *. 
  destruct (before_repeat_spec attendee_ok [] rows (NoDup_nil_2)) as [Hnd Hall].
  exists e, ids. rewrite He3, Hrows. split; [done|]. do 5 (split; [done|]). split.
  { intros email [id Hid]%Hids. exists id. split; [done|]. destruct (Hknown _ _ Hid) as (c & ? & ?). exists c.
    by rewrite Hc3, Hc. }
  assert (∀ id, id ≠ ev_id e → rows_of id s3 = rows_of id s) as Hrest.
  { intros id Hid. rewrite (Hother id Hid). unfold rows_of. by rewrite Ha. }
  cbv zeta. destruct (before_repeat attendee_ok [] rows).2 eqn:Eq.
  - split; [|split; [by intros _; apply Hall|split; [by intros []|done]]]. split; [intros _; by apply Hnd|done].
  - split; [|split; [done|split; [intros _; by apply before_repeat_short|done]]].
    split; [done|]. intros Hno. by apply Hnd in Hno.
Qed.
End Apply.

(** ** Replies *)

(** The participation a reply gives an address: that of its last line. *)
Definition last_status (email : jsstr) (l : list (jsstr * DbPartstat)) : option DbPartstat :=
  foldl (λ o u, if bool_decide (u.1 = email) then Some u.2 else o) None l.

(** The row of an attendee after the reply. *)
Definition replied (eventId : jsstr) (l : list (jsstr * DbPartstat)) (r : AttendeeRow) : AttendeeRow :=
  if bool_decide (aw_eventId r = eventId) then
    match last_status (at_email (aw_attendee r)) l with Some st => set_partstat st r | None => r end
  else r.

Definition answers (eventId : jsstr) (l : list (jsstr * DbPartstat)) (r : AttendeeRow) : bool :=
  bool_decide (aw_eventId r = eventId) && bool_decide (at_email (aw_attendee r) ∈ l.*1).

Definition reply_row (eventId : jsstr) (r : AttendeeRow) (u : jsstr * DbPartstat) : AttendeeRow :=
  if is_attendee eventId u.1 r then set_partstat u.2 r else r.

Lemma reply_row_key eventId r u : attendee_key (reply_row eventId r u) = attendee_key r.
Proof. unfold reply_row. by destruct (is_attendee _ _ _). Qed.

Lemma is_attendee_key eventId email r r' :
  attendee_key r = attendee_key r' → is_attendee eventId email r = is_attendee eventId email r'.
Proof. unfold attendee_key, is_attendee. by intros [= -> ->]. Qed.

Lemma answers_cons eventId u l r : answers eventId (u :: l) r = is_attendee eventId u.1 r || answers eventId l r.
Proof.
  unfold answers, is_attendee. rewrite fmap_cons. case_bool_decide; simpl; [|done].
  apply eq_iff_eq_true. rewrite orb_true_iff, !bool_decide_eq_true. apply elem_of_cons.
Qed.

Lemma answers_row eventId l u r : answers eventId l (reply_row eventId r u) = answers eventId l r.
Proof. pose proof (reply_row_key eventId r u) as [= E1 E2]. unfold answers. by rewrite E1, E2. Qed.

Lemma existsb_answers_cons eventId u l rows :
  existsb (answers eventId (u :: l)) rows =
  existsb (is_attendee eventId u.1) rows || existsb (answers eventId l) (map (λ r, reply_row eventId r u) rows).
Proof.
  induction rows as [|r rows IH]; [done|]. cbn [existsb map]. rewrite IH, answers_cons, answers_row.
  by destruct (is_attendee eventId u.1 r), (existsb (is_attendee eventId u.1) rows), (answers eventId l r).
Qed.

Lemma apply_reply_eq eventId l b s :
  apply_reply eventId l b s =
  (set_attendees (map (λ r, foldl (reply_row eventId) r l)) s,
   Done (b || existsb (answers eventId l) (attendees s))).
Proof.
  revert b s. induction l as [|[email st] l IH]; intros b s.
  - simpl. replace (existsb _ (attendees s)) with false.
    + rewrite orb_false_r. destruct s. unfold set_attendees. simpl. by rewrite map_id.
    + induction (attendees s) as [|r rs IHr]; [done|]. simpl. rewrite <- IHr, orb_false_r. unfold answers.
      destruct (bool_decide (aw_eventId r = eventId)); [|done]. symmetry. apply bool_decide_eq_false_2, not_elem_of_nil.
  - cbn [apply_reply]. unfold mbind, proc_bind, read, modify. rewrite IH. f_equal.
    + unfold set_attendees. simpl. by rewrite map_map.
    + f_equal. by rewrite existsb_answers_cons, orb_assoc.
Qed.

Lemma last_status_snoc email l u :
  last_status email (l ++ [u]) = if bool_decide (u.1 = email) then Some u.2 else last_status email l.
Proof. unfold last_status. by rewrite foldl_app. Qed.

Lemma set_partstat_again st st' r : set_partstat st (set_partstat st' r) = set_partstat st r.
Proof. done. Qed.

Lemma reply_rows eventId l r : foldl (reply_row eventId) r l = replied eventId l r.
Proof.
  induction l as [|u l IH] using rev_ind.
  - unfold replied. simpl. by case_bool_decide.
  - rewrite foldl_app. simpl. rewrite IH. unfold replied, reply_row. rewrite last_status_snoc.
    unfold is_attendee. destruct (decide (aw_eventId r = eventId)) as [He|He].
    + rewrite !(bool_decide_eq_true_2 _ He). destruct (last_status _ l); simpl; rewrite (bool_decide_eq_true_2 _ He); simpl.
      all: destruct (decide (u.1 = at_email (aw_attendee r))) as [Ha|Ha].
      all: rewrite ?(bool_decide_eq_true_2 _ Ha), ?(bool_decide_eq_false_2 _ Ha), ?(bool_decide_eq_true_2 _ (eq_sym Ha)),
        ?(bool_decide_eq_false_2 _ (not_eq_sym Ha)); done.
    + by rewrite !(bool_decide_eq_false_2 _ He); simpl; rewrite ?(bool_decide_eq_false_2 _ He).
Qed.

Lemma set_attendees_ext f g s : (∀ r, f r = g r) → set_attendees (map f) s = set_attendees (map g) s.
Proof. intros Hfg. unfold set_attendees. simpl. by rewrite (map_ext _ _ Hfg). Qed.

Section Reply.
Context (is_uuid : jsstr → bool).

(** A reply with a uid the database reads as a uuid changes the participation of the addresses
    it lists, on the attendees of the event of the owner it names, to what its last line for the
    address says, and nothing else; the calendar server is told when such an attendee exists.
    With any other uid (what other programs write) the run throws and the reply is lost. *)
Theorem handle_reply_spec msg ev uid s (Hu : v_uid ev = Some uid) (Hne : truthy uid = true)
    (Hl : reply_updates ev ≠ []) :
  handle_reply is_uuid msg ev s =
  if is_uuid uid then
    match List.find (reply_event (cm_ownerId msg) uid) (events s) with
    | None => (s, Done tt)
    | Some e =>
        let s' := set_attendees (map (replied (ev_id e) (reply_updates ev))) s in
        (if existsb (answers (ev_id e) (reply_updates ev)) (attendees s) then
           set_jobs (λ l, l ++ [ {| cj_name := "dav:calendar:update-event"%js;
             cj_data := [("eventId", VStr (ev_id e)); ("notifyAttendees", VBool false)]%js |} ]) s'
         else s', Done tt)
    end
  else (s, Threw).
Proof.
  unfold handle_reply. rewrite Hu, Hne. cbn [negb]. destruct (reply_updates ev) as [|u l]; [done|].
  destruct (is_uuid uid); [|done]. cbn [negb]. unfold mbind, proc_bind, read.
  destruct (List.find _ (events s)) as [e|]; [|done]. rewrite apply_reply_eq. cbn [orb].
  rewrite (set_attendees_ext _ (replied (ev_id e) (u :: l))) by (intros r; apply reply_rows).
  by destruct (existsb _ (attendees s)).
Qed.
End Reply.

(** ** The batch *)

Section Batch.
Context (read_ics : jsstr → option (jsstr * Vcalendar)) (parse : jsstr → option Component) (print : Component → jsstr).
Context (add_day subtract_day start_of_day end_of_day : Z → Z).
Context (insert_ok update_ok : EventFields → bool) (attendee_ok : AttendeeRow → bool).
Context (is_uuid : jsstr → bool) (new_id : CalStore → jsstr).

(** The batch never throws: each item runs on what the items before it left, those that failed
    half way included. *)
Theorem davItipProcessor_isolates items s :
  davItipProcessor read_ics parse print add_day subtract_day start_of_day end_of_day insert_ok update_ok attendee_ok
    is_uuid new_id items s =
  (foldl (λ s item, (processSingleItem read_ics parse print add_day subtract_day start_of_day end_of_day
     insert_ok update_ok attendee_ok is_uuid new_id item s).1) s items, Done tt).
Proof.
  revert s. unfold davItipProcessor. induction items as [|i items IH]; intros s; [done|].
  cbn [each foldl]. unfold mbind, proc_bind, catch. rewrite <- IH. by destruct (processSingleItem _ _ _ _ _ _ _ _ _ _ _ _ i s) as [s' [[]|]].
Qed.

End Batch.

(** ** Owners

    What a message changes belongs to the owner of the message. *)

Section Owners.
Context (read_ics : jsstr → option (jsstr * Vcalendar)) (parse : jsstr → option Component) (print : Component → jsstr).
Context (add_day subtract_day start_of_day end_of_day : Z → Z).
Context (insert_ok update_ok : EventFields → bool) (attendee_ok : AttendeeRow → bool).
Context (is_uuid : jsstr → bool) (new_id : CalStore → jsstr).

(** Events and contacts of other owners, and the attendees of their events. *)
Definition isolated (owner : jsstr) (s s' : CalStore) : Prop :=
  filter (λ e, ev_ownerId e ≠ owner) (events s') = filter (λ e, ev_ownerId e ≠ owner) (events s) ∧
  filter (λ c, ct_ownerId c ≠ owner) (contacts s') = filter (λ c, ct_ownerId c ≠ owner) (contacts s) ∧
  ∀ e, e ∈ events s → ev_ownerId e ≠ owner → rows_of (ev_id e) s' = rows_of (ev_id e) s.

#[export] Instance isolated_preorder owner : PreOrder (isolated owner).
Proof.
  split; [done|]. intros s1 s2 s3 (E1 & C1 & A1) (E2 & C2 & A2). split; [congruence|]. split; [congruence|].
  intros e He Ho. rewrite A2, A1; [done..| |done].
  assert (e ∈ filter (λ e, ev_ownerId e ≠ owner) (events s2)) as Hin
    by (rewrite E1; by apply list_elem_of_filter).
  by apply list_elem_of_filter in Hin as [_ ?].
Qed.

(** Ids are a key of the events. *)
Definition keyed (s : CalStore) : Prop := NoDup (map ev_id (events s)).

Lemma keyed_eq s e e' : keyed s → e ∈ events s → e' ∈ events s → ev_id e = ev_id e' → e = e'.
Proof. intros Hk. by apply NoDup_map_inj. Qed.

Lemma isolated_contacts owner s new :
  Forall (λ c, ct_ownerId c = owner) new → isolated owner s (set_contacts (λ l, l ++ new) s).
Proof.
  intros Hn. split; [done|]. split; [|done]. simpl. rewrite filter_app, (filter_none _ new); [by rewrite app_nil_r|].
  rewrite Forall_forall in Hn. intros c Hc%Hn Hne. done.
Qed.

Lemma isolated_set_fields owner s e f :
  keyed s → e ∈ events s → ev_ownerId e = owner → isolated owner s (set_events (set_fields (ev_id e) f) s).
Proof.
  intros Hk He Ho. split; [|done]. simpl. unfold set_fields.
  assert (∀ e', e' ∈ events s → ev_ownerId e' ≠ owner → ev_id e' ≠ ev_id e) as Hne.
  { intros e' He' Hno Heq. apply Hno. by rewrite (keyed_eq s e' e). }
  revert Hne. generalize (events s). intros l. induction l as [|e' l IH]; intros Hne; [done|]. cbn [map].
  rewrite !filter_cons, IH by (intros; apply Hne; set_solver). specialize (Hne e').
  destruct (decide (ev_ownerId e' = owner)) as [Ho'|Ho'].
  - rewrite (decide_False (P := ev_ownerId e' ≠ owner)) by tauto. rewrite decide_False; [done|].
    case_bool_decide; simpl; tauto.
  - rewrite (bool_decide_eq_false_2 _ (Hne (list_elem_of_here _ _) Ho')). done.
Qed.

Lemma set_fields_ids id f l : map ev_id (set_fields id f l) = map ev_id l.
Proof. unfold set_fields. rewrite map_map. apply map_ext. intros e. by case_bool_decide. Qed.

Lemma store_event_owner owner calendarId uid ics ev times s :
  keyed s → new_id s ∉ map ev_id (events s) →
  let s' := (store_event parse print insert_ok update_ok new_id owner calendarId uid ics ev times s).1 in
  keyed s' ∧ isolated owner s s'.
Proof.
  intros Hk Hn. unfold store_event, normaliseItipRequestToVevent, read, modify, cal_job. unfold mbind, proc_bind.
  destruct (parse ics) as [c|]; cbn [fmap option_fmap option_map or_throw]; [|by destruct (List.find _ (events s))].
  unfold mret, proc_ret. destruct (List.find (same_uid owner uid) (events s)) as [e|] eqn:E.
  - apply List.find_some in E as [Hin%list_elem_of_In Hu]. apply andb_true_iff in Hu as [Ho%bool_decide_eq_true _].
    destruct (negb _); [by split|]. split.
    + unfold keyed. simpl. by rewrite set_fields_ids.
    + by apply (isolated_set_fields owner s e).
  - destruct (negb _); [by split|]. split.
    + unfold keyed. simpl. rewrite map_app. apply NoDup_app. split; [done|]. split; [|apply NoDup_singleton].
      intros x Hx ->%list_elem_of_singleton. done.
    + split; [|done]. simpl. rewrite filter_app, (filter_none _ [_]); [by rewrite app_nil_r|].
      intros e ->%list_elem_of_singleton. by intros [].
Qed.

(** Rows of one event of the owner do not touch the events of the others. *)
Lemma isolated_rows owner e s s' :
  keyed s → e ∈ events s → ev_ownerId e = owner → events s' = events s → contacts s' = contacts s →
  (∀ id, id ≠ ev_id e → rows_of id s' = rows_of id s) → isolated owner s s'.
Proof.
  intros Hk He Ho Hes Hcs Hrows. split; [by rewrite Hes|]. split; [by rewrite Hcs|]. intros e' He' Hno.
  apply Hrows. intros Heq. apply Hno. by rewrite (keyed_eq s e' e).
Qed.

Lemma applyIncomingRequest_owner owner calendarId ics ev s :
  keyed s → (∀ s, new_id s ∉ map ev_id (events s)) →
  isolated owner s (applyIncomingRequest parse print add_day subtract_day start_of_day end_of_day
    insert_ok update_ok attendee_ok new_id owner calendarId ics ev s).1.
Proof.
  intros Hk Hn. unfold applyIncomingRequest. destruct (event_times _ _ _ _ ev) as [times|]; [|done].
  destruct (v_uid ev) as [uid|]; [|done]. cbn [or_throw]. unfold mbind, mret, proc_ret, proc_bind.
  destruct (truthy uid); [|done]. cbn [negb]. destruct (mapM read_attendee (v_attendees ev)) as [guests|]; [|done].
  cbn [or_throw]. destruct (ensureContacts_spec new_id owner guests s) as (ids & new & Er & Es & _ & _ & Hnew & _).
  unfold mret, proc_ret. destruct (ensureContactsForAttendees new_id owner guests s) as [s1 o1]. simpl in Er, Es. subst o1 s1.
  set (s1 := set_contacts (λ c, c ++ new) s).
  assert (isolated owner s s1) as H1.
  { apply isolated_contacts. eapply Forall_impl; [exact Hnew|]. by intros c [? _]. }
  destruct (store_event_owner owner calendarId uid ics ev times s1 Hk (Hn s1)) as [Hk2 H2].
  destruct (store_event _ _ _ _ _ owner calendarId uid ics ev times s1) as [s2 o2] eqn:E2. cbn [fst] in Hk2, H2.
  pose proof (store_event_spec _ _ _ _ _ _ _ _ _ _ _ _ _ _ E2) as (_ & _ & Ho). etrans; [exact H1|]. etrans; [exact H2|].
  destruct o2 as [[id|]|]; [|done|done]. destruct Ho as (e & He & <- & Hown & _). cbn -[each].
  destruct (replace_rows attendee_ok (ev_id e) (map (guest_row owner (ev_id e) ids ev) guests) s2
    (guests_of_event _ _ _ _ _)) as (s3 & E3 & He3 & Hc3 & _ & Hother). rewrite each_map in E3.
  change (each _ guests) with (each (λ a, insert_attendee attendee_ok (guest_row owner (ev_id e) ids ev a)) guests).
  rewrite E3. by apply (isolated_rows owner e).
Qed.

Lemma isolated_jobs owner f s : isolated owner s (set_jobs f s).
Proof. done. Qed.

Lemma handle_reply_owner msg ev s : keyed s → isolated (cm_ownerId msg) s (handle_reply is_uuid msg ev s).1.
Proof.
  intros Hk. unfold handle_reply. destruct (v_uid ev) as [uid|]; [|done]. destruct (truthy uid); [|done]. cbn [negb].
  destruct (reply_updates ev) as [|u l]; [done|]. destruct (is_uuid uid); [|done]. cbn [negb].
  unfold mbind, proc_bind, read. destruct (List.find _ (events s)) as [e|] eqn:E; [|done].
  apply List.find_some in E as [He%list_elem_of_In Hr]. apply andb_true_iff in Hr as [Ho%bool_decide_eq_true _].
  rewrite apply_reply_eq, (set_attendees_ext _ (replied (ev_id e) (u :: l))) by (intros r; apply reply_rows).
  cbn [orb]. set (s1 := set_attendees _ s).
  assert (isolated (cm_ownerId msg) s s1) as H1.
  { apply (isolated_rows _ e); try done. intros id Hne. unfold rows_of. subst s1. cbn [attendees set_attendees].
    induction (attendees s) as [|r rows IH]; [done|]. cbn [map]. rewrite !filter_cons, IH. unfold replied.
    case_bool_decide as Hr; [|done]. destruct (last_status _ _); [|done]. by rewrite !decide_False by (simpl; congruence). }
  destruct (existsb _ _); [|exact H1]. etrans; [exact H1|apply isolated_jobs].
Qed.

(** *** The jobs *)

(** The jobs added are about events of the owner, which all stay. *)
Definition own_jobs (owner : jsstr) (s s' : CalStore) : Prop :=
  (∀ e, e ∈ events s → ev_ownerId e = owner → ∃ e', e' ∈ events s' ∧ ev_id e' = ev_id e ∧ ev_ownerId e' = owner) ∧
  ∃ new, jobs s' = jobs s ++ new ∧
    Forall (λ j, ∃ e, e ∈ events s' ∧ ev_ownerId e = owner ∧ ("eventId"%js, VStr (ev_id e)) ∈ cj_data j) new.

#[export] Instance own_jobs_preorder owner : PreOrder (own_jobs owner).
Proof.
  split.
  - intros s. split; [intros e He Ho; by exists e|]. exists []. by rewrite app_nil_r.
  - intros s1 s2 s3 (E1 & new1 & J1 & F1) (E2 & new2 & J2 & F2). split.
    + intros e He Ho. destruct (E1 e He Ho) as (e' & He' & Ei & Eo). destruct (E2 e' He' Eo) as (e2 & ? & ? & ?).
      exists e2. split_and!; [done|congruence|done].
    + exists (new1 ++ new2). split; [by rewrite J2, J1, app_assoc|]. apply Forall_app. split; [|done].
      eapply Forall_impl; [exact F1|]. intros j (e & He & Ho & Hd). destruct (E2 e He Ho) as (e' & He' & Ei & Eo).
      exists e'. by rewrite Ei.
Qed.

Lemma own_jobs_same owner s s' : events s' = events s → jobs s' = jobs s → own_jobs owner s s'.
Proof.
  intros E J. split; [intros e He Ho; exists e; by rewrite E|]. exists []. by rewrite app_nil_r.
Qed.

Lemma own_jobs_modify owner f : (∀ s, events (f s) = events s ∧ jobs (f s) = jobs s) → steps (own_jobs owner) (modify f).
Proof. intros Hf s. by apply own_jobs_same; apply Hf. Qed.

Lemma own_jobs_event owner s s' e name data :
  (∀ e, e ∈ events s → ev_ownerId e = owner → ∃ e', e' ∈ events s' ∧ ev_id e' = ev_id e ∧ ev_ownerId e' = owner) →
  e ∈ events s' → ev_ownerId e = owner →
  jobs s' = jobs s ++ [ {| cj_name := name; cj_data := ("eventId"%js, VStr (ev_id e)) :: data |} ] → own_jobs owner s s'.
Proof.
  intros Hall He Ho Hj. split; [done|]. eexists. split; [exact Hj|]. apply Forall_singleton. exists e.
  split_and!; [done|done|]. apply list_elem_of_here.
Qed.

Lemma store_event_jobs owner calendarId uid ics ev times :
  steps (own_jobs owner) (store_event parse print insert_ok update_ok new_id owner calendarId uid ics ev times).
Proof.
  intros s. unfold store_event, normaliseItipRequestToVevent, read, modify, cal_job. unfold mbind, proc_bind.
  destruct (parse ics) as [c|]; cbn [fmap option_fmap option_map or_throw]; [|by destruct (List.find _ (events s))].
  unfold mret, proc_ret. destruct (List.find (same_uid owner uid) (events s)) as [e|] eqn:E.
  - apply List.find_some in E as [Hin%list_elem_of_In Hu]. apply andb_true_iff in Hu as [Ho%bool_decide_eq_true _].
    destruct (negb _); [done|]. set (f := request_fields _ _ _ _ _).
    assert (∀ x, x ∈ events s → ev_ownerId x = owner →
      ∃ x', x' ∈ set_fields (ev_id e) f (events s) ∧ ev_id x' = ev_id x ∧ ev_ownerId x' = owner) as Hall.
    { intros x Hx Hxo. eexists. split; [by apply list_elem_of_fmap_2|]. by case_bool_decide. }
    destruct (Hall e Hin Ho) as (e' & He' & Ei & Eo).
    apply (own_jobs_event owner s _ e' "dav:calendar:update-event"%js [("notifyAttendees"%js, VBool false)]); try done.
    cbn. by rewrite Ei.
  - destruct (negb _); [done|]. set (row := {| ev_id := new_id s |}).
    apply (own_jobs_event owner s _ row "dav:calendar:create-event"%js [("notifyAttendees", VBool false); ("uid", VStr uid)]%js); try done.
    + intros x Hx Hxo. exists x. split; [cbn; set_solver|done].
    + cbn. set_solver.
Qed.

Lemma applyIncomingRequest_jobs owner calendarId ics ev :
  steps (own_jobs owner) (applyIncomingRequest parse print add_day subtract_day start_of_day end_of_day
    insert_ok update_ok attendee_ok new_id owner calendarId ics ev).
Proof.
  assert (∀ A (o : option A), steps (own_jobs owner) (or_throw o)) as Hor by (intros A [a|] s; reflexivity).
  assert (∀ e n, steps (own_jobs owner) (ensure_contact new_id owner e n)) as Hone.
  { intros e n. unfold ensure_contact. run_steps; by apply own_jobs_modify. }
  assert (∀ l acc, steps (own_jobs owner) (ensure_all new_id owner l acc)) as Hens.
  { induction l as [|[e n] l IH]; intros acc; cbn [ensure_all]; run_steps. }
  assert (∀ row, steps (own_jobs owner) (insert_attendee attendee_ok row)) as Hrow.
  { intros row. unfold insert_attendee. run_steps; by apply own_jobs_modify. }
  unfold applyIncomingRequest. apply steps_bind; [apply _|apply Hor|]. intros times.
  destruct (v_uid ev) as [uid|]; [|apply steps_ret, _]. destruct (negb _); [apply steps_ret, _|].
  apply steps_bind; [apply _|apply Hor|]. intros guests. apply steps_bind; [apply _|apply Hens|]. intros ids.
  apply steps_bind; [apply _|apply store_event_jobs|]. intros [eventId|]; [|apply steps_ret, _].
  apply steps_bind; [apply _|by apply own_jobs_modify|]. intros _. apply steps_each; [apply _|]. intros a _. apply Hrow.
Qed.

Lemma handle_reply_jobs msg ev : steps (own_jobs (cm_ownerId msg)) (handle_reply is_uuid msg ev).
Proof.
  intros s. unfold handle_reply. destruct (v_uid ev) as [uid|]; [|done]. destruct (truthy uid); [|done]. cbn [negb].
  destruct (reply_updates ev) as [|u l]; [done|]. destruct (is_uuid uid); [|done]. cbn [negb].
  unfold mbind, proc_bind, read. destruct (List.find _ (events s)) as [e|] eqn:E; [|done].
  apply List.find_some in E as [He%list_elem_of_In Hr]. apply andb_true_iff in Hr as [Ho%bool_decide_eq_true _].
  rewrite apply_reply_eq. cbn [orb]. destruct (existsb _ _); [|by apply own_jobs_same].
  apply (own_jobs_event _ s _ e "dav:calendar:update-event"%js [("notifyAttendees"%js, VBool false)]); try done.
  intros x Hx Hxo. by exists x.
Qed.

(** A cancellation is read, and queues the deletion of an event with its uid, whose it may be. *)
Definition cancels (item : DavItipIngestItem) (s s' : CalStore) : Prop :=
  ∃ ics vcal ev uid e, read_ics (it_attachmentId item) = Some (ics, vcal) ∧ v_event vcal = Some ev ∧
    toUpperCase (opt_or (v_method vcal) "REQUEST"%js) = "CANCEL"%js ∧ v_uid ev = Some uid ∧
    e ∈ events s ∧ ev_icalUid e = Some uid ∧
    s' = set_jobs (λ l, l ++ [ {| cj_name := "dav:calendar:delete-event"%js;
      cj_data := [("eventId", VStr (ev_id e)); ("notifyAttendees", VBool false); ("deleteEvent", VBool true)]%js |} ]) s.

(** C31: Whatever a message carries, the rows it changes belong to its owner: the events and contacts
    of the other owners, and the attendees of their events, stay.  The jobs it queues for the calendar
    server are about events of the owner too, with one exception: a cancellation changes no row, but
    queues the deletion of an event with its uid, and the query asks for neither the owner nor the
    organizer (cancel_reaches_other_owners). *)
Theorem processSingleItem_owner item msg s
    (Hm : List.find (λ m, bool_decide (cm_id m = it_messageId item)) (messages s) = Some msg)
    (Hk : keyed s) (Hn : ∀ s, new_id s ∉ map ev_id (events s)) :
  let s' := (processSingleItem read_ics parse print add_day subtract_day start_of_day end_of_day
    insert_ok update_ok attendee_ok is_uuid new_id item s).1 in
  isolated (cm_ownerId msg) s s' ∧ (own_jobs (cm_ownerId msg) s s' ∨ cancels item s s').
Proof.
  cbv zeta. unfold processSingleItem, mbind at 1 2 3, proc_bind, read. rewrite Hm.
  destruct (List.find _ (mailboxes s)) as [mb|]; [|by split; [|left]]. case_bool_decide; [by split; [|left]|].
  destruct (negb _); [by split; [|left]|]. destruct (read_ics _) as [[ics vcal]|] eqn:Er; [|by split; [|left]].
  destruct (v_event vcal) as [ev|] eqn:Ev; [|by split; [|left]]. case_bool_decide.
  { unfold handleIncomingRequest, mbind, proc_bind, read. destruct (is_for_me _ ev s) as [[]|]; [|by split; [|left]..].
    destruct (List.find _ (calendars s)); [|by split; [|left]].
    split; [by apply applyIncomingRequest_owner|left; apply applyIncomingRequest_jobs]. }
  case_bool_decide; [|case_bool_decide; [split; [by apply handle_reply_owner|left; apply handle_reply_jobs]|by split; [|left]]].
  unfold handleIncomingCancel, mbind, proc_bind, read.
  destruct (is_for_me _ ev s) as [[]|], (v_uid ev) as [uid|] eqn:Eu; try by split; [|left].
  destruct (negb _); [by split; [|left]|]. destruct (List.find _ (events s)) as [e|] eqn:Ee; [|by split; [|left]].
  apply List.find_some in Ee as [He%list_elem_of_In Hu%bool_decide_eq_true].
  split; [done|right]. by exists ics, vcal, ev, uid, e.
Qed.
End Owners.

(** ** Examples *)

Definition ex_guest (email st : jsstr) : Property := {|
  p_name := "attendee"%js; p_value := VStr (mailto ++ email); p_params := [("partstat"%js, VStr st)] |}.

Definition ex_invitation (uid : jsstr) (guests : list Property) : Vevent := {|
  v_uid := Some uid; v_summary := Some "Review"%js; v_description := None;
  v_start := Some (1000%Z, false); v_end := Some 2000%Z; v_rrule := VNull;
  v_organizer := Some {| p_name := "organizer"%js; p_value := VStr "mailto:ann@x.org"%js; p_params := [] |};
  v_attendees := guests |}.

Definition ex_me : Property := ex_guest "me@x.org"%js "NEEDS-ACTION"%js.
Definition ex_bob : Property := ex_guest "bob@x.org"%js "ACCEPTED"%js.

Definition ex_event (id owner uid : jsstr) : EventRow := {|
  ev_id := id; ev_ownerId := owner; ev_calendarId := "c"%js; ev_davUri := None; ev_icalUid := Some uid;
  ev_isExternal := false;
  ev_fields := {| ef_title := "Lunch"%js; ef_description := None; ef_startsAt := 1; ef_endsAt := 2; ef_isAllDay := false;
    ef_recurrenceRule := None; ef_organizerEmail := None; ef_organizerName := None; ef_rawIcs := [] |} |}.

Definition ex_row (id email : jsstr) (st : DbPartstat) : AttendeeRow := {|
  aw_ownerId := "me"%js; aw_eventId := id; aw_contactId := None; aw_isOrganizer := false;
  aw_attendee := {| at_email := email; at_name := None; at_role := req_participant; at_partstat := st; at_rsvp := true |} |}.

Definition ex_calendar : CalStore := {|
  messages := [ {| cm_id := "m"%js; cm_ownerId := "me"%js |} ];
  mailboxes := [ {| cb_id := "b"%js; cb_slug := Some "inbox"%js; cb_identityId := "i"%js |} ];
  identities := [ {| ci_id := "i"%js; ci_value := "me@x.org"%js |} ];
  attachments := ["a"%js]; calendars := [ {| ca_id := "c"%js; ca_ownerId := "me"%js; ca_isDefault := true |} ];
  events := [ex_event "7"%js "you"%js "u7"%js; ex_event "8"%js "me"%js "u8"%js];
  attendees := [ex_row "8"%js "bob@x.org"%js needs_action]; contacts := []; jobs := [] |}.

(** An id no row has: one longer than all of them. *)
Definition ex_new_id (s : CalStore) : jsstr := "n"%js ++ concat (map ev_id (events s)).

Lemma ex_new_id_fresh s : ex_new_id s ∉ map ev_id (events s).
Proof. apply longer_fresh. Qed.

Definition ex_parse (ics : jsstr) : option Component := Some ex_component.
Definition ex_print (c : Component) : jsstr := concat (map p_name (c_props c)).

(** The parameters: a day in milliseconds, schemas that accept, uuids that start with a digit. *)
Abbreviation ex_apply := (applyIncomingRequest ex_parse ex_print (Z.add 86400000) id id id (λ _, true) (λ _, true) (λ _, true)
  ex_new_id "me"%js "c"%js []).
Definition ex_uuid (x : jsstr) : bool := match x with c :: _ => negb (Ascii.eqb c "u"%char) | [] => false end.
Definition ex_item : DavItipIngestItem := {|
  it_messageId := "m"%js; it_attachmentId := "a"%js; it_mailboxId := "b"%js |}.
Abbreviation ex_process method ev := (processSingleItem
  (λ _, Some ([], {| v_method := Some method; v_event := Some ev |})) ex_parse ex_print (Z.add 86400000) id id id
  (λ _, true) (λ _, true) (λ _, true) ex_uuid ex_new_id ex_item ex_calendar).

Lemma applyIncomingRequest_spec_witness :
  let r := ex_apply (ex_invitation "u8"%js [ex_me; ex_bob]) ex_calendar in
  r.2 = Done tt ∧
  ∃ e (ids : jsmap jsstr jsstr), e ∈ events r.1 ∧ ef_startsAt (ev_fields e) = 1000%Z ∧
    map (λ w, at_email (aw_attendee w)) (rows_of (ev_id e) r.1) = ["me@x.org"%js; "bob@x.org"%js] ∧
    ∃ id, jm_get "bob@x.org"%js ids = Some id.
Proof.
  split; [vm_compute; reflexivity|].
  assert (mapM read_attendee [ex_me; ex_bob] = Some (default [] (mapM read_attendee [ex_me; ex_bob]))) as Hg
    by (vm_compute; reflexivity).
  destruct (applyIncomingRequest_spec ex_parse ex_print (Z.add 86400000) id id id (λ _, true) (λ _, true) (λ _, true)
    ex_new_id "me"%js "c"%js "u8"%js [] (ex_invitation "u8"%js [ex_me; ex_bob]) (1000, 2000, false)%Z
    (default [] (mapM read_attendee [ex_me; ex_bob])) ex_calendar eq_refl eq_refl eq_refl Hg (mk_is_Some _ _ eq_refl)
    (λ _, eq_refl) (λ _, eq_refl)) as (e & ids & He & _ & Hst & _ & _ & _ & Hids & Hok & Hrows & _).
  exists e, ids. split; [exact He|]. split; [exact Hst|]. split.
  - rewrite Hrows by (vm_compute; reflexivity). reflexivity.
  - destruct (Hids "bob@x.org"%js) as (id & Hid & _); [|by exists id].
    apply (bool_decide_unpack _). vm_compute. exact I.
Defined.

(** A repeated address: the run throws, and of the attendees the event had none is left. *)
Lemma repeated_guest_throws :
  let r := ex_apply (ex_invitation "u8"%js [ex_me; ex_me; ex_bob]) ex_calendar in
  r.2 = Threw ∧ map (λ w, at_email (aw_attendee w)) (rows_of "8"%js r.1) = ["me@x.org"%js].
Proof. by vm_compute. Qed.

Lemma handle_reply_spec_witness :
  let ev := ex_invitation "u8"%js [ex_bob] in
  let msg := {| cm_id := "m"%js; cm_ownerId := "me"%js |} in
  attendees (handle_reply (λ _, true) msg ev ex_calendar).1 = [ex_row "8"%js "bob@x.org"%js accepted] ∧
  handle_reply ex_uuid msg ev ex_calendar = (ex_calendar, Threw).
Proof.
  split.
  - rewrite (handle_reply_spec (λ _, true) _ (ex_invitation "u8"%js [ex_bob]) "u8"%js) by done. vm_compute. reflexivity.
  - rewrite (handle_reply_spec ex_uuid _ (ex_invitation "u8"%js [ex_bob]) "u8"%js) by done. reflexivity.
Defined.

Lemma processSingleItem_owner_witness :
  let s' := (ex_process "REQUEST"%js (ex_invitation "u8"%js [ex_me; ex_bob])).1 in
  isolated "me"%js ex_calendar s' ∧ (own_jobs "me"%js ex_calendar s' ∨
    cancels (λ _, Some ([], {| v_method := Some "REQUEST"%js; v_event := Some (ex_invitation "u8"%js [ex_me; ex_bob]) |}))
      ex_item ex_calendar s').
Proof.
  apply (processSingleItem_owner _ ex_parse ex_print (Z.add 86400000) id id id (λ _, true) (λ _, true) (λ _, true) ex_uuid
    ex_new_id ex_item {| cm_id := "m"%js; cm_ownerId := "me"%js |} ex_calendar).
  - reflexivity.
  - apply (bool_decide_unpack _). vm_compute. exact I.
  - exact ex_new_id_fresh.
Defined.

(** A cancellation that names the uid of another owner's event asks the calendar server to
    delete that event: the query asks for neither the owner nor the organizer. *)
Lemma cancel_reaches_other_owners :
  map cj_data (jobs (ex_process "CANCEL"%js (ex_invitation "u7"%js [ex_me])).1) =
  [[("eventId", VStr "7"%js); ("notifyAttendees", VBool false); ("deleteEvent", VBool true)]%js].
Proof. by vm_compute. Qed.
