(* ===== verification/MailActions.v ===== *)
(** * What the web application does to mail ([apps/web/lib/actions/mailbox.ts])

    The server actions of a signed-in user work on the tables the worker fills, under row level
    security, and ask the worker for the rest with jobs.  Actions that wait for a job are
    modelled up to the job. *)

From stdpp Require Import base list.
From S2P Require Import Prelude JsString JsRegex JsNumber JsValue RuleMatcher MailDb MailRollup Ingest RulesProcessor.
From S2P Require Import Imap ImapOps ImapFolders.

(** [.map(String).filter(Boolean)] *)
Definition given (threadIds : list jsstr) : list jsstr := List.filter truthy threadIds.

(** The answer of a form. *)
Record FormState := { success : bool; error : option jsstr }.
Definition succeeded : FormState := {| success := true; error := None |}.
Definition refused (e : jsstr) : FormState := {| success := false; error := Some e |}.

(** ** Jobs *)

Definition trash_job (threadId mailboxId : jsstr) (moveImap : bool) (messageId : option jsstr) : Job :=
  {| queue := "smtpQueue"%js; job_name := "mail:move"%js;
     job_data := [("threadId", VStr threadId); ("mailboxId", VStr mailboxId); ("op", VStr "trash"%js)]%js ++
                 match messageId with Some m => [("messageId"%js, VStr m)] | None => [] end ++
                 [("moveImap"%js, VBool moveImap)];
     job_opts := retry_opts false None |}.

Definition folder_job (threadId from to : jsstr) (moveImap : bool) (messageId : option jsstr) : Job :=
  {| queue := "smtpQueue"%js; job_name := "mail:move"%js;
     job_data := [("threadId", VStr threadId); ("mailboxId", VStr from); ("op", VStr "move"%js);
                  ("toMailboxId", VStr to)]%js ++
                 match messageId with Some m => [("messageId"%js, VStr m)] | None => [] end ++
                 [("moveImap"%js, VBool moveImap)];
     job_opts := retry_opts false (Some ("move:"%js ++ threadId ++ ":"%js ++ from ++ "->"%js ++ to)) |}.

Definition delete_job (fields : list (jsstr * jsval)) (imapDelete : bool) : Job :=
  {| queue := "smtpQueue"%js; job_name := "mail:delete-permanent"%js;
     job_data := fields ++ [("imapDelete"%js, VBool imapDelete)]; job_opts := retry_opts true None |}.

Definition refresh_threads (ids : list jsstr) : proc unit := each (λ t, add_job (refresh_thread t)) ids.

Definition moveToTrash (threadIds : list jsstr) (mailboxId : jsstr) (moveImap : bool) (messageId : option jsstr) :
    proc unit :=
  let ids := given threadIds in
  if bool_decide (ids = []) || negb (truthy mailboxId) then mret tt
  else
    _ ← each (λ t, add_job (trash_job t mailboxId moveImap messageId)) ids;
    refresh_threads ids.

Definition moveToFolder (threadIds : list jsstr) (from to : jsstr) (moveImap : bool) (messageId : option jsstr) :
    proc unit :=
  let ids := given threadIds in
  if bool_decide (ids = []) || negb (truthy from) || negb (truthy to) || bool_decide (from = to) then mret tt
  else
    _ ← each (λ t, add_job (folder_job t from to moveImap messageId)) ids;
    refresh_threads ids.

Definition deleteForever (threadIds : list jsstr) (mailboxId : jsstr) (imapDelete emptyAll : bool) : proc unit :=
  if emptyAll then add_job (delete_job [("mailboxId", VStr mailboxId); ("emptyAll", VBool true)]%js imapDelete)
  else
    let ids := given threadIds in
    if bool_decide (ids = []) || negb (truthy mailboxId) then mret tt
    else
      each (λ t, _ ← add_job (delete_job [("threadId", VStr t); ("mailboxId", VStr mailboxId)]%js imapDelete);
                 add_job (refresh_thread t)) ids.

(** ** Flags *)

Section User.
(** The signed-in user; what row level security lets through are the rows of this owner. *)
Context (uid : jsstr) (clock : nat → Z).

Definition own_message (r : MessageRow) : bool := bool_decide (m_ownerId r = uid).
Definition own_row (r : MailboxThreadRow) : bool := bool_decide (mt_ownerId r = uid).

(** [thread_id IN ids AND mailbox_id = b] *)
Definition message_of (ids : list jsstr) (b : jsstr) (r : MessageRow) : bool :=
  own_message r && bool_decide (m_threadId r ∈ ids) && bool_decide (m_mailboxId r = b).
Definition row_of (ids : list jsstr) (b : jsstr) (r : MailboxThreadRow) : bool :=
  own_row r && bool_decide (mt_threadId r ∈ ids) && bool_decide (mt_mailboxId r = b).

(** The queries of [rls] run in a transaction. *)
Definition rls {A} (p : proc A) : proc A := transaction p.

Definition smtp_and_search (ids : list jsstr) (mailboxId op : jsstr) : proc unit :=
  _ ← each (λ t, add_job (flags_job t mailboxId op false)) ids;
  refresh_threads ids.

Definition markAsRead (threadIds : list jsstr) (mailboxId : jsstr) (markSmtp : bool) : proc unit :=
  let ids := given threadIds in
  if bool_decide (ids = []) || negb (truthy mailboxId) then mret tt
  else
    now ← new_Date clock;
    _ ← rls (_ ← modify (set_messages (update_where (message_of ids mailboxId) (with_flags (Some true) None None now)));
             modify (set_mailboxThreads (update_where (row_of ids mailboxId) (set_unread 0 now))));
    if markSmtp then smtp_and_search ids mailboxId "read"%js else mret tt.

(** [countMap.get(tid) ?? 1]: a thread without unread messages is not in the map. *)
Definition unread_or_one (tid mailboxId : jsstr) (rows : list MessageRow) : Z :=
  match List.filter (λ r, message_of [tid] mailboxId r && negb (m_seen r)) rows with
  | [] => 1
  | l => Z.of_nat (length l)
  end.

Definition markAsUnread (threadIds : list jsstr) (mailboxId : jsstr) (markSmtp : bool) : proc unit :=
  let ids := given threadIds in
  if bool_decide (ids = []) || negb (truthy mailboxId) then mret tt
  else
    now ← new_Date clock;
    _ ← rls (_ ← modify (set_messages (update_where (message_of ids mailboxId) (with_flags (Some false) None None now)));
             s ← read;
             each (λ tid, modify (set_mailboxThreads (update_where (row_of [tid] mailboxId)
                            (set_unread (unread_or_one tid mailboxId (messages s)) now)))) ids);
    if markSmtp then smtp_and_search ids mailboxId "unread"%js else mret tt.

Definition toggleStar (threadId mailboxId : jsstr) (starred starImap : bool) : proc unit :=
  if negb (truthy threadId) || negb (truthy mailboxId) then mret tt
  else
    _ ← (if starImap
         then add_job (flags_job threadId mailboxId (if starred then "unflag"%js else "flag"%js) true)
         else rls
           (now ← new_Date clock;
            _ ← modify (set_messages (update_where (message_of [threadId] mailboxId)
                          (with_flags None (Some (negb starred)) None now)));
            s ← read;
            let mine := List.filter (message_of [threadId] mailboxId) (messages s) in
            now2 ← new_Date clock;
            modify (set_mailboxThreads (update_where (row_of [threadId] mailboxId)
              (set_aggregates (Z.of_nat (length (List.filter (λ r, negb (m_seen r)) mine))) (existsb m_flagged mine) now2)))));
    add_job (refresh_thread threadId).

(** ** Snoozing *)

Definition set_snooze (until unsnoozed : option Z) (now : Z) (r : MailboxThreadRow) : MailboxThreadRow :=
  {| mt_threadId := mt_threadId r; mt_mailboxId := mt_mailboxId r; mt_ownerId := mt_ownerId r;
     mt_identityId := mt_identityId r; mt_identityPublicId := mt_identityPublicId r; mt_mailboxSlug := mt_mailboxSlug r;
     mt_subject := mt_subject r; mt_previewText := mt_previewText r; mt_lastActivityAt := mt_lastActivityAt r;
     mt_firstMessageAt := mt_firstMessageAt r; mt_messageCount := mt_messageCount r; mt_unreadCount := mt_unreadCount r;
     mt_hasAttachments := mt_hasAttachments r; mt_starred := mt_starred r; mt_participants := mt_participants r;
     mt_snoozedUntil := until; mt_unsnoozedAt := unsnoozed; mt_updatedAt := now |}.

(** [snoozedUntil] is the instant of the text given, [Some None] is an invalid date, which the
    driver refuses: [handleAction] answers with the [message] of the error. *)
Definition snoozeThread (message : jsstr) (threadId mailboxId : jsstr) (snoozedUntil : option (option Z)) :
    proc FormState :=
  catch
    (_ ← rls
       (until ← match snoozedUntil with
                | None => mret None
                | Some None => throw
                | Some (Some t) => mret (Some t)
                end;
        unsnoozed ← match snoozedUntil with None => t ← new_Date clock; mret (Some t) | Some _ => mret None end;
        now ← new_Date clock;
        modify (set_mailboxThreads (update_where (row_of [threadId] mailboxId) (set_snooze until unsnoozed now))));
     mret succeeded)
    (mret (refused message)).

Definition due (now : Z) (r : MailboxThreadRow) : bool :=
  match mt_snoozedUntil r with Some t => (t <=? now)%Z | None => false end.

(** [fetchIdentitySnoozedThreads]; the identity is not used. *)
Definition fetchIdentitySnoozedThreads (now : Z) (s : MailDb) : list MailboxThreadRow :=
  sort_by (cmp_or (λ a b, default 0 (mt_snoozedUntil b) - default 0 (mt_snoozedUntil a))%Z
                  (λ a b, mt_lastActivityAt b - mt_lastActivityAt a)%Z)
    (List.filter (λ r, own_row r && bool_decide (mt_snoozedUntil r ≠ None) && negb (due now r)) (mailboxThreads s)).

(** ** Lists *)

Definition PAGE_SIZE : nat := 50.

(** [COALESCE(unsnoozed_at, last_activity_at)] *)
Definition effectiveActivityAt (r : MailboxThreadRow) : Z := default (mt_lastActivityAt r) (mt_unsnoozedAt r).

Definition in_slug (identityPublicId mailboxSlug : jsstr) (r : MailboxThreadRow) : bool :=
  own_row r && bool_decide (mt_identityPublicId r = identityPublicId) && bool_decide (mt_mailboxSlug r = Some mailboxSlug).

Definition visible (now : Z) (r : MailboxThreadRow) : bool := bool_decide (mt_snoozedUntil r = None) || due now r.

(** [OFFSET (page - 1) * PAGE_SIZE LIMIT PAGE_SIZE]; pages start at 1. *)
Definition page_of {A} (page : Z) (l : list A) : list A :=
  take PAGE_SIZE (drop (Z.to_nat (Z.max 1 page - 1) * PAGE_SIZE) l).

Section Lists.
(** The order of ids in the database. *)
Context (id_compare : jsstr → jsstr → Z).

Definition thread_order : MailboxThreadRow → MailboxThreadRow → Z :=
  cmp_or (λ a b, effectiveActivityAt b - effectiveActivityAt a)%Z
    (cmp_or (λ a b, mt_lastActivityAt b - mt_lastActivityAt a)%Z
            (λ a b, id_compare (mt_threadId b) (mt_threadId a))).

Definition listed (identityPublicId mailboxSlug : jsstr) (now : Z) (s : MailDb) : list MailboxThreadRow :=
  sort_by thread_order
    (List.filter (λ r, in_slug identityPublicId mailboxSlug r && visible now r) (mailboxThreads s)).

Definition fetchMailboxThreads (identityPublicId mailboxSlug : jsstr) (page now : Z) (s : MailDb) : list MailboxThreadRow :=
  page_of page (listed identityPublicId mailboxSlug now s).
End Lists.

Definition fetchMailboxThreadsOld (identityPublicId mailboxSlug : jsstr) (page : Z) (s : MailDb) : list MailboxThreadRow :=
  page_of page (sort_by (λ a b, mt_lastActivityAt b - mt_lastActivityAt a)%Z
    (List.filter (in_slug identityPublicId mailboxSlug) (mailboxThreads s))).

(** [new Map(threadIds.map((id, i) => [id, i]))]: the last place of an id; others come last. *)
Fixpoint rank_from (i : nat) (threadIds : list jsstr) (t : jsstr) : option nat :=
  match threadIds with
  | [] => None
  | x :: l => match rank_from (S i) l t with
              | Some j => Some j
              | None => if bool_decide (x = t) then Some i else None
              end
  end.

Definition rank (threadIds : list jsstr) (t : jsstr) : Z :=
  match rank_from 0 threadIds t with Some i => Z.of_nat i | None => 9007199254740991 end.

Definition fetchMailboxThreadsList (mailboxId : jsstr) (threadIds : list jsstr) (s : MailDb) :
    list MailboxThreadRow * list jsstr :=
  match threadIds with
  | [] => ([], [])
  | _ =>
      let rows := List.filter (row_of threadIds mailboxId) (mailboxThreads s) in
      (sort_by (λ a b, rank threadIds (mt_threadId a) - rank threadIds (mt_threadId b))%Z rows,
       List.filter (λ t, negb (bool_decide (t ∈ map mt_threadId rows))) threadIds)
  end.

(** The threads with unread messages and all unread messages. *)
Definition unread_of (rows : list MailboxThreadRow) : Z * Z :=
  (Z.of_nat (length (List.filter (λ r, 0 <? mt_unreadCount r)%Z rows)),
   foldr (λ r n, mt_unreadCount r + n)%Z 0%Z rows).

(** [GROUP BY mailbox_id] *)
Definition fetchMailboxUnreadCounts (s : MailDb) : jsmap jsstr (Z * Z) :=
  map (λ g, (g.1, unread_of g.2)) (group_by mt_mailboxId (List.filter own_row (mailboxThreads s))).

Definition fetchWebMailThreadDetail (threadId : jsstr) (s : MailDb) : option ThreadRow * list MessageRow :=
  let msgs := sort_by (λ a b, message_time a - message_time b)%Z
                (List.filter (λ r, own_message r && bool_decide (m_threadId r = threadId)) (messages s)) in
  match List.find (λ t, bool_decide (t_id t = threadId) && bool_decide (t_ownerId t = uid)) (threads s), msgs with
  | Some t, _ :: _ => (Some t, msgs)
  | _, _ => (None, [])
  end.
End User.

(** [mail:snooze-tick] of the worker ([apps/worker/server/plugins/common-worker.ts]). *)
Definition snooze_tick (clock : nat → Z) : proc unit :=
  now ← new_Date clock;
  modify (set_mailboxThreads (update_where (λ r, due now r && bool_decide (mt_unsnoozedAt r = None))
                                (set_snooze None (Some now) now))).

(** ** Folders *)

Section Folders.
Context (slugify : jsstr → jsstr) (new_id : MailDb → jsstr).

(** The fields of the form; an absent one is [undefined]. *)
Record FolderForm := { ff_imapOp : jsval; ff_name : jsval; ff_parentId : jsval; ff_identityId : jsval }.

Definition new_folder_job (form : FolderForm) (ownerId : option jsstr) : Job :=
  {| queue := "smtpQueue"%js; job_name := "mailbox:add-new"%js;
     job_data := [("name", ff_name form); ("parentId", ff_parentId form); ("identityId", ff_identityId form)]%js ++
                 match ownerId with Some u => [("ownerId"%js, VStr u)] | None => [] end ++
                 [("kind", VStr "custom"); ("slug", VStr (slugify (js_to_string (ff_name form))))]%js;
     job_opts := retry_opts true None |}.

Definition local_folder (form : FolderForm) (ownerId name id : jsstr) (parentId : option jsstr) : MailboxRow :=
  {| mb_id := id; mb_identityId := js_to_string (ff_identityId form); mb_ownerId := ownerId; mb_parentId := parentId;
     mb_kind := "custom"%js; mb_name := Some name; mb_slug := Some (slugify (toLowerCase name)); mb_isDefault := false;
     mb_metaData := Some [] |}.

(** [user] is the id of the session's user. *)
Definition addNewMailboxFolder (form : FolderForm) (user : option jsstr) : proc FormState :=
  if truthy (trim (js_to_string (ff_imapOp form))) then
    _ ← add_job (new_folder_job form user);
    mret succeeded
  else
    let name := trim (js_to_string (nullish_or (ff_name form) (VStr []))) in
    if negb (truthy name) then mret (refused "Folder name is required"%js)
    else
      let parentId := if js_truthy (ff_parentId form) && negb (bool_decide (js_to_string (ff_parentId form) = "none"%js))
                      then Some (js_to_string (ff_parentId form)) else None in
      s ← read;
      let valid := match parentId with
                   | None => true
                   | Some p => match find_mailbox p s with
                               | Some parent => bool_decide (mb_identityId parent = js_to_string (ff_identityId form))
                               | None => false
                               end
                   end in
      if negb valid then mret (refused "Invalid parent folder"%js)
      else
        _ ← insert_mailbox (local_folder form (default [] user) name (new_id s) parentId);
        mret succeeded.
End Folders.

(** The ids that are deleted with some mailboxes: those below them. *)
Definition with_children : nat → list MailboxRow → list jsstr → list jsstr := cascade mb_id mb_parentId.

(** [DELETE FROM mailboxes] with the rows that refer to them. *)
Definition delete_mailboxes (ids : list jsstr) : proc unit :=
  s ← read;
  let gone := with_children (length (mailboxes s)) (mailboxes s) ids in
  let lost := map m_id (filter (λ r, m_mailboxId r ∈ gone) (messages s)) in
  _ ← modify (set_mailboxes (filter (λ r, mb_id r ∉ gone)));
  _ ← modify (set_messages (filter (λ r, m_mailboxId r ∉ gone)));
  _ ← modify (set_attachments (filter (λ a, att_messageId a ∉ lost)));
  _ ← modify (set_mailboxThreads (filter (λ r, mt_mailboxId r ∉ gone)));
  _ ← modify (set_threadLabels (filter (λ r, tl_mailboxId r ∉ gone)));
  modify (set_mailboxSync (filter (λ r, sy_mailboxId r ∉ gone))).

Definition delete_folder_job (mailboxId identityId : jsstr) (user : option jsstr) : Job :=
  {| queue := "smtpQueue"%js; job_name := "mailbox:delete-folder"%js;
     job_data := [("mailboxId", VStr mailboxId); ("identityId", VStr identityId)]%js ++
                 match user with Some u => [("ownerId"%js, VStr u)] | None => [] end;
     job_opts := retry_opts true None |}.

Definition deleteMailboxFolder (imapOp : bool) (identityId mailboxId : jsstr) (user : option jsstr) : proc FormState :=
  s ← read;
  if negb imapOp then
    match find_mailbox mailboxId s with
    | None => mret (refused "Folder not found"%js)
    | Some mailbox =>
        if mb_isDefault mailbox then mret (refused "Cannot delete a default folder"%js)
        else
          _ ← delete_mailboxes (map mb_id (filter (λ r, mb_parentId r = Some mailboxId) (mailboxes s)));
          _ ← modify (set_mailboxSync (filter (λ r, sy_mailboxId r ≠ mailboxId)));
          _ ← delete_mailboxes [mailboxId];
          mret succeeded
    end
  else
    match List.find (λ r, bool_decide (id_publicId r = identityId)) (identities s) with
    | None => throw
    | Some ident =>
        _ ← add_job (delete_folder_job mailboxId (id_id ident) user);
        mret succeeded
    end.

(** ** Mailing lists *)

Section Lists.
(** [new URL(text)] *)
Context (parse_url : jsstr → option Url).

(** [/^https?:/i] *)
Definition http_re : regex := rseq [RBegin; rlit_ci "http"%js; ropt (rlit_ci "s"%js); rchar ":"].

Definition header_urls (fromHeader : jsval) : option jsstr :=
  match fromHeader with
  | VStr s => List.find (re_test http_re) (map (λ p, re_replace_all angle_re (λ _, []) (trim p)) (split "," s))
  | _ => None
  end.

Definition web_url (headersJson : jsval) : option jsstr :=
  let u := get_prop (nullish_or (get_prop headersJson "list"%js) VNull) "unsubscribe"%js in
  let fromList := if js_truthy (get_prop u "url"%js) then get_prop u "url"%js else get_prop u "href"%js in
  match fromList with
  | VStr s => if truthy s then Some s else header_urls (get_prop headersJson "list-unsubscribe"%js)
  | _ => header_urls (get_prop headersJson "list-unsubscribe"%js)
  end.

Definition web_url_key (url : jsstr) : option jsstr :=
  (λ u, let p := js_or (re_replace_first slashes_re (λ _, []) (js_or (u_pathname u) "/"%js)) "/"%js in
        u_protocol u ++ "//"%js ++ toLowerCase (u_host u) ++ p) <$> parse_url url.

Definition subscriptionKeyFromHeadersJson (headersJson : jsval) : option jsstr :=
  let rawListId := trim (js_to_string (nullish_or (get_prop headersJson "list-id"%js) (VStr []))) in
  if truthy rawListId then
    let cleaned := clean_list_id rawListId in
    if truthy cleaned then Some ("list-id:"%js ++ cleaned) else None
  else match web_url headersJson with Some url => web_url_key url | None => None end.

(** The key of each message that has one, and the subscription stored for it. *)
Definition fetchThreadMailSubscriptions (ownerId : jsstr) (msgs : list (jsstr * jsval)) (s : MailDb) :
    jsmap jsstr jsstr * jsmap jsstr (option SubscriptionRow) :=
  let keys := foldl (λ m x, match subscriptionKeyFromHeadersJson x.2 with
                            | Some k => jm_set x.1 k m
                            | None => m
                            end) [] msgs in
  let rows := List.filter (λ r, bool_decide (su_ownerId r = ownerId) && bool_decide (su_subscriptionKey r ∈ keys.*2))
                (mailSubscriptions (ingest s)) in
  (keys, match keys with
         | [] => []
         | _ => map (λ p, (p.1, List.find (λ r, bool_decide (su_subscriptionKey r = p.2)) rows)) keys
         end).
End Lists.
