(* ===== verification/MailActionsSpecs.v ===== *)
(** * Web application and worker on the same tables

    What the user does keeps the summaries of threads true, together with everything the worker
    does; the counts and lists that are shown are those of the messages. *)

From stdpp Require Import base list.
From S2P Require Import Prelude JsString JsRegex JsNumber JsValue RuleMatcher MailDb MailRollup Ingest RulesProcessor.
From S2P Require Import Imap ImapOps ImapInvariant ImapSpecs ImapFolders MailActions.

(** Messages and the row of their thread in a mailbox have the same owner: row level security
    shows all of a thread or nothing. *)
Definition owned (s : MailDb) : Prop :=
  ∀ r m, r ∈ mailboxThreads s → m ∈ messages s → msg_key m = thread_key r → m_ownerId m = mt_ownerId r.

(** The flags of messages change one by one, and their rows are set to what they should hold. *)
Lemma consistent_maps f g s s' :
  messages s' = map f (messages s) → mailboxThreads s' = map g (mailboxThreads s) → threads s' = threads s →
  (∀ m, m_id (f m) = m_id m ∧ msg_key (f m) = msg_key m ∧ m_ownerId (f m) = m_ownerId m) →
  (∀ r, thread_key (g r) = thread_key r ∧ mt_ownerId (g r) = mt_ownerId r) →
  (∀ r, r ∈ mailboxThreads s → stored r = summary (group (thread_key r) (messages s)) →
        stored (g r) = summary (map f (group (thread_key r) (messages s)))) →
  consistent s ∧ owned s → consistent s' ∧ owned s'.
Proof.
  intros Hm Hr Ht Hf Hg Hs [[H1 H2 H3 H4 H5] Ho].
  assert (map msg_key (map f (messages s)) = map msg_key (messages s)) as Ek.
  { rewrite map_map. apply map_ext. intros m. apply Hf. }
  assert (map thread_key (map g (mailboxThreads s)) = map thread_key (mailboxThreads s)) as Er.
  { rewrite map_map. apply map_ext. intros r. apply Hg. }
  assert (∀ k l, group k (map f l) = map f (group k l)) as Hgr.
  { intros k l. unfold group. induction l as [|m l IH]; [done|]. simpl. rewrite !filter_cons, IH.
    destruct (Hf m) as (_ & E & _). destruct (decide (msg_key m = k)) as [Hk|Hk].
    - by rewrite !decide_True by (rewrite msg_in_key; congruence).
    - by rewrite !decide_False by (rewrite msg_in_key; congruence). }
  split.
  - constructor; rewrite ?Hm, ?Hr, ?Ht.
    + rewrite map_map, (map_ext _ m_id); [done|]. intros m. apply Hf.
    + by rewrite Er.
    + intros k. by rewrite Er, Ek.
    + apply Forall_map. eapply Forall_impl; [exact H4|]. intros m Hmt. simpl.
      destruct (Hf m) as (_ & [= -> _] & _). done.
    + apply Forall_map, Forall_forall. intros r Hin. simpl. destruct (Hg r) as [-> _]. rewrite Hgr.
      apply Hs; [done|]. by apply (proj1 (Forall_forall _ _) H5).
  - intros r' m'. rewrite Hm, Hr. intros (r & -> & Hin)%list_elem_of_fmap (m & -> & Hmin)%list_elem_of_fmap.
    destruct (Hf m) as (_ & -> & ->), (Hg r) as [-> ->]. by apply Ho.
Qed.

Section Flags.
Context (uid : jsstr) (clock : nat → Z).

(** A row and its messages are both selected, or neither. *)
Lemma selected_together s ids b r m :
  owned s → r ∈ mailboxThreads s → m ∈ group (thread_key r) (messages s) →
  message_of uid ids b m = row_of uid ids b r.
Proof.
  intros Ho Hr [Hm Hk]%group_spec. unfold message_of, row_of, own_message, own_row.
  rewrite (Ho r m Hr Hm Hk). by injection Hk as -> ->.
Qed.

Lemma group_update s ids b f r :
  owned s → r ∈ mailboxThreads s →
  map (λ m, if message_of uid ids b m then f m else m) (group (thread_key r) (messages s)) =
  if row_of uid ids b r then map f (group (thread_key r) (messages s)) else group (thread_key r) (messages s).
Proof.
  intros Ho Hr. destruct (row_of uid ids b r) eqn:E.
  - apply map_ext_in. intros m Hm%list_elem_of_In. by rewrite (selected_together s ids b r m), E.
  - rewrite <- map_id. apply map_ext_in. intros m Hm%list_elem_of_In. by rewrite (selected_together s ids b r m), E.
Qed.

Lemma summary_seen (b : bool) now l :
  summary (map (with_flags (Some b) None None now) l) = ((if b then 0 else Z.of_nat (length l))%Z, existsb m_flagged l).
Proof.
  unfold summary. f_equal; [|induction l as [|m l IH]; [done|]; simpl; by rewrite IH].
  destruct b; [by rewrite filter_none by (intros ? (m & -> & _)%list_elem_of_fmap; done)|].
  rewrite filter_all by by (intros ? (m & -> & _)%list_elem_of_fmap). by rewrite length_map.
Qed.

(** ** What every action keeps *)

Definition sound (s : MailDb) : Prop := consistent s ∧ owned s.

Lemma sound_same s s' : same_tables s s' → preserving sound s s'.
Proof.
  intros Hs [Hc Ho]. split; [by apply (consistent_same s)|]. destruct Hs as (Hm & Hr & _). unfold owned.
  rewrite Hm, Hr. exact Ho.
Qed.

Lemma sound_steps {A} (p : proc A) : steps same_tables p → steps (preserving sound) p.
Proof. intros Hp s. exact (sound_same _ _ (Hp s)). Qed.

Lemma sound_transaction {A} (p : proc A) :
  (∀ s, match p s with (s', Done _) => preserving sound s s' | (_, Threw) => True end) →
  steps (preserving sound) (transaction p).
Proof.
  intros Hp s. specialize (Hp s). unfold transaction. destruct (p s) as [s' [a|]]; [done|]. by apply sound_same.
Qed.

Lemma sound_smtp ids b op : steps (preserving sound) (smtp_and_search ids b op).
Proof. apply sound_steps. unfold smtp_and_search, refresh_threads. run_steps; done. Qed.

Lemma markAsRead_sound ids b smtp : steps (preserving sound) (markAsRead uid clock ids b smtp).
Proof.
  unfold markAsRead. destruct (_ || _); [apply steps_ret, _|]. apply steps_bind; [apply _|by apply sound_steps|]. intros now.
  apply steps_bind; [apply _| |intros _; destruct smtp; [apply sound_smtp|apply steps_ret, _]].
  apply sound_transaction. intros s. unfold_proc. intros Hs. set (ids' := given ids).
  eapply (consistent_maps (λ m, if message_of uid ids' b m then with_flags (Some true) None None now m else m)
    (λ r, if row_of uid ids' b r then set_unread 0 now r else r)); [done..| | | |exact Hs].
  - intros m. by destruct (message_of _ _ _ m).
  - intros r. by destruct (row_of _ _ _ r).
  - intros r Hr Hst. rewrite (group_update s) by (done || apply Hs). destruct (row_of _ _ _ r); [|done].
    rewrite summary_seen. unfold stored, summary in *. simpl in *. injection Hst as _ ->. done.
Qed.

(** The loop over the threads is one update of their rows. *)
Lemma each_set_unread (u : jsstr → Z) ids b now s :
  each (λ tid, modify (set_mailboxThreads (update_where (row_of uid [tid] b) (set_unread (u tid) now)))) ids s =
  (set_mailboxThreads (update_where (row_of uid ids b) (λ r, set_unread (u (mt_threadId r)) now r)) s, Done tt).
Proof.
  revert s. induction ids as [|tid ids IH]; intros s; cbn [each].
  - unfold_proc. f_equal. destruct s; unfold set_mailboxThreads; simpl. f_equal. unfold update_where.
    rewrite (map_ext _ id); [by rewrite map_id|]. intros r. unfold row_of. rewrite bool_decide_false by by apply not_elem_of_nil.
    by rewrite andb_false_r.
  - unfold mbind, proc_bind, modify. rewrite IH. f_equal. unfold set_mailboxThreads; simpl. f_equal. unfold update_where.
    rewrite map_map. apply map_ext. intros r. unfold row_of, own_row.
    destruct (decide (mt_threadId r = tid)) as [E|E].
    + rewrite (bool_decide_true (mt_threadId r ∈ [tid])) by set_solver.
      rewrite (bool_decide_true (mt_threadId r ∈ tid :: ids)) by set_solver. rewrite <- E.
      destruct (bool_decide (mt_ownerId r = uid)) eqn:Eo, (bool_decide (mt_mailboxId r = b)) eqn:Eb; simpl;
        rewrite ?Eo, ?Eb, ?andb_false_r; [|done..]. simpl. by destruct (bool_decide (mt_threadId r ∈ ids)).
    + rewrite (bool_decide_false (mt_threadId r ∈ [tid])) by set_solver. rewrite andb_false_r. simpl.
      by rewrite (bool_decide_ext (mt_threadId r ∈ tid :: ids) (mt_threadId r ∈ ids)) by set_solver.
Qed.

(** The own messages of a thread in a mailbox, found again after the update. *)
Lemma own_group s ids b f (q : MessageRow → bool) r :
  owned s → r ∈ mailboxThreads s → row_of uid ids b r = true →
  (∀ m, message_of uid [mt_threadId r] b (f m) = message_of uid [mt_threadId r] b m) → (∀ m, q (f m) = true) →
  List.filter (λ m, message_of uid [mt_threadId r] b m && q m) (update_where (message_of uid ids b) f (messages s)) =
  map f (group (thread_key r) (messages s)).
Proof.
  intros Ho Hr Hrow Hf Hq. pose proof (selected_together s ids b r) as Hsel.
  assert (b = mt_mailboxId r ∧ mt_threadId r ∈ ids ∧ mt_ownerId r = uid) as (-> & Hids & Hown).
  { revert Hrow. unfold row_of, own_row. by intros [[?%bool_decide_eq_true ?%bool_decide_eq_true]%andb_prop ?%bool_decide_eq_true]%andb_prop. }
  assert (∀ m, m ∈ messages s → message_of uid [mt_threadId r] (mt_mailboxId r) m = msg_in (mt_threadId r) (mt_mailboxId r) m) as Hone.
  { intros m Hm. apply eq_true_iff_eq. rewrite (msg_in_key (thread_key r)). split.
    - unfold message_of. intros [[_ H%bool_decide_eq_true%list_elem_of_singleton]%andb_prop ?%bool_decide_eq_true]%andb_prop.
      unfold msg_key, thread_key. by f_equal.
    - intros Hk. unfold message_of, own_message. rewrite (Ho r m Hr Hm Hk), Hown. injection Hk as -> ->.
      rewrite !bool_decide_true; [done|done|by apply list_elem_of_singleton|done]. }
  assert (∀ l, (∀ m, m ∈ l → m ∈ messages s) →
    List.filter (λ m, message_of uid [mt_threadId r] (mt_mailboxId r) m && q m)
      (update_where (message_of uid ids (mt_mailboxId r)) f l) = map f (group (thread_key r) l)) as H; [|by apply H].
  induction l as [|m l IH]; intros Hl; [done|]. simpl. unfold group. rewrite filter_cons.
  fold (group (thread_key r) l). specialize (Hone m (Hl m ltac:(by left))). specialize (IH (λ m Hm, Hl m (list_elem_of_further _ _ _ Hm))).
  destruct (decide (msg_in (thread_key r).1 (thread_key r).2 m = true)) as [E|E].
  - assert (message_of uid ids (mt_mailboxId r) m = true) as ->.
    { rewrite (Hsel m Ho Hr); [done|]. apply group_spec. split; [apply Hl; by left|by apply msg_in_key]. }
    rewrite Hf, Hone, Hq. simpl in E. rewrite E. simpl. by rewrite IH.
  - simpl in E. apply not_true_is_false in E. destruct (message_of uid ids _ m); rewrite ?Hf, Hone, E; simpl; exact IH.
Qed.
Lemma group_not_empty s r : consistent s → r ∈ mailboxThreads s → group (thread_key r) (messages s) ≠ [].
Proof.
  intros Hc Hr. assert (thread_key r ∈ map msg_key (messages s)) as Hk.
  { apply (rows_mirror s Hc). by apply list_elem_of_fmap_2. }
  apply list_elem_of_fmap in Hk as (m & Hk & Hm). intros E.
  assert (m ∈ group (thread_key r) (messages s)) as Hg by by apply group_spec. rewrite E in Hg. by apply elem_of_nil in Hg.
Qed.

Lemma markAsUnread_sound ids b smtp : steps (preserving sound) (markAsUnread uid clock ids b smtp).
Proof.
  unfold markAsUnread. destruct (_ || _); [apply steps_ret, _|]. apply steps_bind; [apply _|by apply sound_steps|]. intros now.
  apply steps_bind; [apply _| |intros _; destruct smtp; [apply sound_smtp|apply steps_ret, _]].
  apply sound_transaction. intros s. unfold mbind, proc_bind, modify, read. set (ids' := given ids).
  set (f := with_flags (Some false) None None now).
  set (u := λ tid, unread_or_one uid tid b (update_where (message_of uid ids' b) f (messages s))).
  rewrite (each_set_unread u ids' b now). simpl. intros Hs. pose proof Hs as [Hc Ho].
  eapply (consistent_maps (λ m, if message_of uid ids' b m then f m else m)
    (λ r, if row_of uid ids' b r then set_unread (u (mt_threadId r)) now r else r)); [done..| | | |exact Hs].
  - intros m. by destruct (message_of _ _ _ m).
  - intros r. by destruct (row_of _ _ _ r).
  - intros r Hr Hst. rewrite (group_update s) by done. destruct (row_of uid ids' b r) eqn:E; [|done].
    unfold f at 1. rewrite summary_seen.
    assert (u (mt_threadId r) = Z.of_nat (length (group (thread_key r) (messages s)))) as Eu.
    { unfold u, unread_or_one.
      rewrite (own_group s ids' b f (λ m, negb (m_seen m)) r Ho Hr E (λ m, eq_refl) (λ m, eq_refl)).
      pose proof (group_not_empty s r Hc Hr) as Hne. destruct (group _ _) as [|m l]; [done|].
      cbn [map]. by rewrite <- (length_map f (m :: l)). }
    unfold stored, summary in *. simpl in *. injection Hst as _ ->. by rewrite Eu.
Qed.
Lemma summary_list l :
  summary l = (Z.of_nat (length (List.filter (λ m, negb (m_seen m)) l)), existsb m_flagged l).
Proof.
  unfold summary. f_equal. f_equal. induction l as [|m l IH]; [done|]. simpl. rewrite filter_cons.
  destruct (m_seen m); simpl; [done|by rewrite IH].
Qed.

Lemma toggleStar_sound t b starred imap : steps (preserving sound) (toggleStar uid clock t b starred imap).
Proof.
  unfold toggleStar. destruct (_ || _); [apply steps_ret, _|].
  apply steps_bind; [apply _| |intros _; by apply sound_steps]. destruct imap; [by apply sound_steps|].
  apply sound_transaction. intros s. unfold_proc. intros Hs. pose proof Hs as [Hc Ho].
  set (now := clock (ticks s)). set (f := with_flags None (Some (negb starred)) None now).
  cbn [messages set_messages tick]. set (mine := List.filter (message_of uid [t] b) (update_where _ _ _)).
  eapply (consistent_maps (λ m, if message_of uid [t] b m then f m else m)
    (λ r, if row_of uid [t] b r then set_aggregates (Z.of_nat (length (List.filter (λ m, negb (m_seen m)) mine)))
       (existsb m_flagged mine) (clock (S (ticks s))) r else r) s); [done..| | | |exact Hs].
  - intros m. by destruct (message_of _ _ _ m).
  - intros r. by destruct (row_of _ _ _ r).
  - intros r Hr Hst. rewrite (group_update s) by done. destruct (row_of uid [t] b r) eqn:E; [|done].
    assert (mt_threadId r = t) as Et.
    { revert E. unfold row_of. by intros [[_ ?%bool_decide_eq_true%list_elem_of_singleton]%andb_prop _]%andb_prop. }
    pose proof (own_group s [t] b f (λ m, true) r Ho Hr E (λ m, eq_refl) (λ m, eq_refl)) as Hg. rewrite Et in Hg.
    assert (mine = map f (group (thread_key r) (messages s))) as ->.
    { rewrite <- Hg. apply filter_ext. intros m. by rewrite andb_true_r. }
    by rewrite summary_list.
Qed.

(** Rows change, but not what the invariant speaks of. *)
Lemma sound_rows g s s' :
  messages s' = messages s → mailboxThreads s' = map g (mailboxThreads s) → threads s' = threads s →
  (∀ r, thread_key (g r) = thread_key r ∧ mt_ownerId (g r) = mt_ownerId r ∧ stored (g r) = stored r) →
  preserving sound s s'.
Proof.
  intros Hm Hr Ht Hg Hs. refine (consistent_maps id g s s' _ Hr Ht _ _ _ Hs); [by rewrite map_id|done| |].
  - intros r. destruct (Hg r) as (? & ? & _). done.
  - intros r _ Hst. rewrite map_id. destruct (Hg r) as (_ & _ & ->). done.
Qed.

Lemma snoozeThread_sound msg t b until : steps (preserving sound) (snoozeThread uid clock msg t b until).
Proof.
  unfold snoozeThread. apply steps_catch; [apply _| |apply steps_ret, _].
  apply steps_bind; [apply _| |intros _; apply steps_ret, _]. apply sound_transaction. intros s.
  destruct until as [[u|]|]; unfold_proc; [..|done|];
    (eapply (sound_rows (λ r, if row_of uid [t] b r then set_snooze _ _ _ r else r) s); [done..|]); intros r;
    by destruct (row_of uid [t] b r).
Qed.

Lemma snooze_tick_sound : steps (preserving sound) (snooze_tick clock).
Proof.
  intros s. unfold snooze_tick. unfold_proc. simpl.
  eapply (sound_rows (λ r, if due (clock (ticks s)) r && bool_decide (mt_unsnoozedAt r = None) then _ r else r) s); [done..|].
  intros r. by destruct (_ && _).
Qed.

Lemma moveToTrash_sound ids b m i : steps (preserving sound) (moveToTrash ids b m i).
Proof. apply sound_steps. unfold moveToTrash, refresh_threads. run_steps; done. Qed.

Lemma moveToFolder_sound ids b c m i : steps (preserving sound) (moveToFolder ids b c m i).
Proof. apply sound_steps. unfold moveToFolder, refresh_threads. run_steps; done. Qed.

Lemma deleteForever_sound ids b d e : steps (preserving sound) (deleteForever ids b d e).
Proof. apply sound_steps. unfold deleteForever. run_steps; done. Qed.
End Flags.

(** ** Folders *)

Lemma addNewMailboxFolder_sound slugify new_id form user :
  steps (preserving sound) (addNewMailboxFolder slugify new_id form user).
Proof. apply sound_steps. unfold addNewMailboxFolder, insert_mailbox. run_steps; done. Qed.

(** The rows of some mailboxes go, and all that refers to them. *)
Lemma delete_mailboxes_sound ids : steps (preserving sound) (delete_mailboxes ids).
Proof.
  intros s [Hc Ho]. unfold delete_mailboxes. unfold_proc. simpl. set (gone := with_children _ _ _). split.
  - revert Hc. apply (consistent_restrict (λ k, k.2 ∉ gone)); [done..|]. auto.
  - intros r m [_ Hr]%list_elem_of_filter [_ Hm]%list_elem_of_filter. by apply Ho.
Qed.

Lemma deleteMailboxFolder_sound imap i b user : steps (preserving sound) (deleteMailboxFolder imap i b user).
Proof.
  pose proof delete_mailboxes_sound. unfold deleteMailboxFolder. run_steps; by apply sound_steps.
Qed.

(** No mailbox below a deleted one is left. *)
Lemma with_children_closed boxes ids : downwards_closed mb_id mb_parentId boxes (with_children (length boxes) boxes ids).
Proof. apply cascade_closed. Qed.

(** ** Unread counts *)

(** Each element is counted under one key. *)
Lemma count_by_keys {A K} `{EqDecision K} (key : A → K) (ks : list K) (l : list A) :
  NoDup ks →
  foldr (λ k n, Z.of_nat (length (filter (λ a, key a = k) l)) + n)%Z 0%Z ks =
  Z.of_nat (length (filter (λ a, key a ∈ ks) l)).
Proof.
  intros Hnd. induction l as [|a l IH].
  - clear. induction ks as [|k ks IH]; [done|]. simpl in *. lia.
  - rewrite filter_cons. transitivity ((if decide (key a ∈ ks) then 1 else 0) +
      foldr (λ k n, Z.of_nat (length (filter (λ a, key a = k) l)) + n) 0 ks)%Z; [clear IH|rewrite IH; case_decide; simpl; lia].
    induction ks as [|k ks IHk]; [done|]. apply NoDup_cons in Hnd as [Hk Hnd]. specialize (IHk Hnd).
    cbn [foldr]. rewrite IHk, filter_cons. destruct (decide (key a = k)) as [E|E].
    + rewrite decide_False by (rewrite E; done). rewrite decide_True by (rewrite E; by left). simpl. lia.
    + rewrite (decide_ext (key a ∈ k :: ks) (key a ∈ ks)) by set_solver. lia.
Qed.

Section Counts.
Context (uid : jsstr) (s : MailDb) (b : jsstr) (Hs : sound s).

(** The user's rows of the mailbox, and the unread messages there. *)
Definition my_rows : list MailboxThreadRow := filter (λ r, mt_mailboxId r = b) (List.filter (own_row uid) (mailboxThreads s)).
Definition my_unread : list MessageRow :=
  filter (λ m, m_ownerId m = uid ∧ m_mailboxId m = b ∧ m_seen m = false) (messages s).

Lemma my_rows_spec r : r ∈ my_rows ↔ r ∈ mailboxThreads s ∧ mt_ownerId r = uid ∧ mt_mailboxId r = b.
Proof.
  unfold my_rows. rewrite list_elem_of_filter, list_elem_of_In, filter_In, <- list_elem_of_In.
  unfold own_row. rewrite bool_decide_eq_true. tauto.
Qed.

Lemma my_rows_unique : NoDup (map thread_key my_rows).
Proof.
  unfold my_rows. apply NoDup_map_filter. pose proof (unique_rows s (proj1 Hs)) as Hu. revert Hu.
  induction (mailboxThreads s) as [|r l IH]; simpl; [done|]. intros [Hr Hl]%NoDup_cons.
  destruct (own_row uid r); simpl; [|by apply IH]. apply NoDup_cons. split; [|by apply IH].
  intros (q & E & [Hq _]%list_elem_of_In%filter_In)%list_elem_of_fmap. apply Hr. rewrite E.
  by apply list_elem_of_fmap_2, list_elem_of_In.
Qed.

Lemma my_key m : m ∈ messages s → msg_key m ∈ map thread_key my_rows ↔ m_ownerId m = uid ∧ m_mailboxId m = b.
Proof.
  intros Hm. pose proof Hs as [Hc Ho]. rewrite list_elem_of_fmap. setoid_rewrite my_rows_spec. split.
  - intros (r & Hk & Hr & Hu & Hb). rewrite (Ho r m Hr Hm Hk). injection Hk as _ ->. done.
  - intros [Hu Hb]. assert (msg_key m ∈ map thread_key (mailboxThreads s)) as Hin
      by (apply (rows_mirror s Hc); by apply list_elem_of_fmap_2).
    apply list_elem_of_fmap in Hin as (r & Hk & Hr). exists r. split; [done|]. split; [done|].
    rewrite <- (Ho r m Hr Hm Hk). injection Hk as _ <-. done.
Qed.

Lemma row_unread r :
  r ∈ mailboxThreads s →
  mt_unreadCount r = Z.of_nat (length (filter (λ m, msg_key m = thread_key r) (filter (λ m, m_seen m = false) (messages s)))).
Proof.
  intros Hr. pose proof (rows_summarise s (proj1 Hs)) as Hsum. rewrite Forall_forall in Hsum.
  specialize (Hsum r Hr). injection Hsum as -> _. f_equal. f_equal. unfold group. rewrite !list_filter_filter.
  apply list_filter_iff. intros m. rewrite msg_in_key. tauto.
Qed.

Lemma total_unread : foldr (λ r n, mt_unreadCount r + n)%Z 0%Z my_rows = Z.of_nat (length my_unread).
Proof.
  transitivity (foldr (λ k n, Z.of_nat (length (filter (λ m, msg_key m = k) (filter (λ m, m_seen m = false) (messages s)))) + n)%Z
    0%Z (map thread_key my_rows)).
  - assert (∀ r, r ∈ my_rows → r ∈ mailboxThreads s) as Hin by by intros r [? _]%my_rows_spec.
    induction my_rows as [|r l IH]; [done|]. simpl. rewrite IH by (intros; apply Hin; by right).
    by rewrite (row_unread r) by (apply Hin; by left).
  - rewrite count_by_keys by apply my_rows_unique. f_equal. f_equal. unfold my_unread. rewrite list_filter_filter.
    apply filter_ext_in. intros m Hm. rewrite my_key by done. tauto.
Qed.

Lemma unread_threads :
  length (List.filter (λ r, 0 <? mt_unreadCount r)%Z my_rows) = length (set_of_list (map m_threadId my_unread)).
Proof.
  rewrite <- (length_map mt_threadId). apply Permutation_length, NoDup_Permutation.
  - pose proof my_rows_unique as Hu. assert (∀ r, r ∈ my_rows → mt_mailboxId r = b) as Hb by by intros r (_ & _ & ?)%my_rows_spec.
    induction my_rows as [|r l IH]; [constructor|]. simpl in *. apply NoDup_cons in Hu as [Hr Hl].
    assert (∀ q, q ∈ l → mt_mailboxId q = b) as Hb' by (intros; apply Hb; by right).
    destruct (0 <? mt_unreadCount r)%Z; simpl; [|by apply IH]. apply NoDup_cons. split; [|by apply IH].
    intros (q & E & [Hq _]%list_elem_of_In%filter_In)%list_elem_of_fmap. apply list_elem_of_In in Hq. apply Hr.
    apply list_elem_of_fmap. exists q. split; [|done]. unfold thread_key. rewrite (Hb r) by by left. rewrite (Hb' q) by done. congruence.
  - apply set_of_list_NoDup.
  - intros t. rewrite elem_of_set_of_list, !list_elem_of_fmap. split.
    + intros (r & -> & [Hr Hn%Z.ltb_lt]%list_elem_of_In%filter_In). apply list_elem_of_In in Hr as Hr'.
      assert (r ∈ mailboxThreads s) as Hin by by apply my_rows_spec in Hr' as [? _].
      rewrite (row_unread r Hin) in Hn.
      destruct (filter (λ m, msg_key m = thread_key r) _) as [|m l] eqn:E; [simpl in Hn; lia|].
      assert (m ∈ m :: l) as Hm by by left. rewrite <- E in Hm.
      apply list_elem_of_filter in Hm as [Hk [Hseen Hm]%list_elem_of_filter].
      assert (msg_key m ∈ map thread_key my_rows) as Hk' by (rewrite Hk; by apply list_elem_of_fmap_2).
      apply my_key in Hk' as [? ?]; [|done]. exists m. injection Hk as -> _. split; [done|].
      by apply list_elem_of_filter.
    + intros (m & -> & [(Hu & Hb & Hseen) Hm]%list_elem_of_filter).
      assert (msg_key m ∈ map thread_key my_rows) as Hk by by apply my_key.
      apply list_elem_of_fmap in Hk as (r & Hk & Hr). exists r. pose proof Hk as Hk0. injection Hk0 as -> _. split; [done|].
      apply list_elem_of_In, filter_In. split; [by apply list_elem_of_In|]. apply Z.ltb_lt.
      apply my_rows_spec in Hr as [Hin Hor]. rewrite (row_unread r Hin).
      destruct (filter (λ m, msg_key m = thread_key r) _) as [|m' l] eqn:E; [|simpl; lia].
      assert (m ∈ @nil MessageRow) as []%elem_of_nil. rewrite <- E. apply list_elem_of_filter.
      split; [exact Hk|by apply list_elem_of_filter].
Qed.

(** The user's messages of the mailbox. *)
Definition my_messages : list MessageRow := filter (λ m, m_ownerId m = uid ∧ m_mailboxId m = b) (messages s).

Lemma my_rows_nil : my_rows = [] ↔ my_messages = [].
Proof.
  split; intros E.
  - destruct my_messages as [|m l] eqn:Em; [done|]. exfalso. assert (m ∈ my_messages) as Hm by (rewrite Em; by left).
    apply list_elem_of_filter in Hm as [Hu Hm]. apply my_key in Hu; [|done]. rewrite E in Hu. by apply elem_of_nil in Hu.
  - destruct my_rows as [|r l] eqn:Er; [done|]. exfalso. assert (r ∈ my_rows) as Hr by (rewrite Er; by left).
    pose proof Hr as (Hin & _)%my_rows_spec. destruct (group (thread_key r) (messages s)) as [|m k] eqn:Eg.
    + by apply (group_not_empty s r (proj1 Hs) Hin).
    + assert (m ∈ group (thread_key r) (messages s)) as Hm by (rewrite Eg; by left). apply group_spec in Hm as [Hm Hk].
      assert (m ∈ my_messages) as Hmm; [|rewrite E in Hmm; by apply elem_of_nil in Hmm].
      apply list_elem_of_filter. split; [|done]. apply my_key; [done|]. rewrite Hk. by apply list_elem_of_fmap_2.
Qed.
End Counts.

(** The counts in the sidebar are those of the messages: a mailbox is listed if the user has a
    message in it, with the number of threads that have an unread message and the number of
    unread messages. *)
Theorem fetchMailboxUnreadCounts_spec uid s b :
  sound s →
  jm_get b (fetchMailboxUnreadCounts uid s) =
  if decide (my_messages uid s b = []) then None
  else Some (Z.of_nat (length (set_of_list (map m_threadId (my_unread uid s b)))), Z.of_nat (length (my_unread uid s b))).
Proof.
  intros Hs. unfold fetchMailboxUnreadCounts. rewrite jm_get_map, group_by_get. change (items_of _ _ _) with (my_rows uid s b).
  pose proof (my_rows_nil uid s b Hs) as Hn. rewrite (decide_ext (my_rows uid s b = []) (my_messages uid s b = [])) by done.
  case_decide; [done|]. simpl. unfold unread_of. by rewrite unread_threads, total_unread.
Qed.

(** ** Pages *)

Lemma page_concat {A} (l : list A) (n : nat) :
  concat (map (λ i, page_of (Z.of_nat (S i)) l) (seq 0 n)) = take (n * PAGE_SIZE) l.
Proof.
  induction n as [|n IH]; [done|]. rewrite seq_S, map_app, concat_app, IH. cbn [map concat]. rewrite app_nil_r.
  unfold page_of. replace (Z.to_nat (Z.max 1 (Z.of_nat (S (0 + n))) - 1)) with n by lia.
  rewrite take_take_drop. f_equal. lia.
Qed.

(** The pages one after the other are the whole list; nothing is listed twice and nothing is
    missed. *)
Lemma fetchMailboxThreads_pages uid cmp ident slug now s n :
  length (listed uid cmp ident slug now s) ≤ n * PAGE_SIZE →
  concat (map (λ i, fetchMailboxThreads uid cmp ident slug (Z.of_nat (S i)) now s) (seq 0 n)) =
  listed uid cmp ident slug now s.
Proof. intros Hn. unfold fetchMailboxThreads. rewrite page_concat. by apply take_ge. Qed.

(** ** Snoozing *)

Lemma listed_spec uid cmp ident slug now s r :
  r ∈ listed uid cmp ident slug now s ↔ r ∈ mailboxThreads s ∧ in_slug uid ident slug r = true ∧ visible now r = true.
Proof.
  unfold listed. rewrite elem_of_sort_by, list_elem_of_In, filter_In, andb_true_iff, <- list_elem_of_In.
  tauto.
Qed.

(** Never both snoozed and woken. *)
Definition snooze_state (r : MailboxThreadRow) : Prop := mt_snoozedUntil r = None ∨ mt_unsnoozedAt r = None.

Lemma snooze_states_kept uid clock msg t b until s :
  Forall snooze_state (mailboxThreads s) →
  Forall snooze_state (mailboxThreads (snoozeThread uid clock msg t b until s).1) ∧
  Forall snooze_state (mailboxThreads (snooze_tick clock s).1).
Proof.
  intros Hs. split.
  - unfold snoozeThread, rls, transaction, catch. destruct until as [[u|]|]; unfold_proc; simpl; [..|exact Hs| ];
      unfold update_where; apply Forall_map; eapply Forall_impl; try exact Hs; intros r Hr; simpl;
      destruct (row_of uid [t] b r); try done; [by right|by left].
  - unfold snooze_tick. unfold_proc. simpl. unfold update_where. apply Forall_map. eapply Forall_impl; [exact Hs|].
    intros r Hr. simpl. destruct (_ && _); [by left|done].
Qed.

(** C28: A snoozed thread is not listed before its time and listed from then on, also if the worker
    is late; the first tick at or after it wakes the thread, whose row then sorts by that instant. *)
Theorem snooze_wakes uid clock msg t b until s r cmp ident slug :
  r ∈ mailboxThreads s → row_of uid [t] b r = true → in_slug uid ident slug r = true →
  ∃ r' s', snoozeThread uid clock msg t b (Some (Some until)) s = (s', Done succeeded) ∧
    r' ∈ mailboxThreads s' ∧ thread_key r' = thread_key r ∧ stored r' = stored r ∧
    (∀ now, r' ∈ listed uid cmp ident slug now s' ↔ (until <= now)%Z) ∧
    ((until <= clock (ticks s'))%Z →
       ∃ w, w ∈ mailboxThreads (snooze_tick clock s').1 ∧ thread_key w = thread_key r ∧
         effectiveActivityAt w = clock (ticks s') ∧
         ∀ now, w ∈ listed uid cmp ident slug now (snooze_tick clock s').1).
Proof.
  intros Hr Hrow Hslug. unfold snoozeThread, rls, transaction, catch. unfold_proc. simpl.
  set (f := set_snooze (Some until) None (clock (ticks s))).
  set (s' := set_mailboxThreads _ _).
  assert (f r ∈ mailboxThreads s') as Hin.
  { simpl. unfold update_where. apply list_elem_of_fmap. exists r. by rewrite Hrow. }
  exists (f r), s'. split; [done|]. split; [done|]. split; [done|]. split; [done|]. split.
  - intros now. rewrite listed_spec. unfold visible, due. simpl. rewrite Z.leb_le. split; [tauto|]. intros Hle.
    split; [done|]. split; [exact Hslug|done].
  - intros Hdue. exists (set_snooze None (Some (clock (ticks s'))) (clock (ticks s')) (f r)).
    assert (set_snooze None (Some (clock (ticks s'))) (clock (ticks s')) (f r) ∈ mailboxThreads (snooze_tick clock s').1) as Hw.
    { unfold snooze_tick. unfold_proc. simpl. unfold update_where. apply list_elem_of_fmap. exists (f r).
      split; [|exact Hin]. assert ((until <=? clock (ticks s'))%Z = true) as Hb by by apply Z.leb_le.
      unfold due. simpl in Hb |- *. by rewrite Hb. }
    split; [done|]. split; [done|]. split; [done|]. intros now. rewrite listed_spec. done.
Qed.

(** ** Lists by ids *)

Lemma fetchMailboxThreadsList_spec uid b ids s :
  let '(rows, missing) := fetchMailboxThreadsList uid b ids s in
  (∀ r, r ∈ rows ↔ r ∈ mailboxThreads s ∧ row_of uid ids b r = true) ∧
  sorted_by (λ x y, rank ids (mt_threadId x) - rank ids (mt_threadId y))%Z rows ∧
  (∀ t, t ∈ missing ↔ t ∈ ids ∧ ¬ ∃ r, r ∈ mailboxThreads s ∧ row_of uid ids b r = true ∧ mt_threadId r = t).
Proof.
  unfold fetchMailboxThreadsList. destruct ids as [|t0 ids0].
  - split; [|split; [constructor|]].
    + intros r. split; [by intros ?%elem_of_nil|]. intros [_ Hr]. unfold row_of in Hr.
      rewrite bool_decide_false, andb_false_r in Hr by by apply not_elem_of_nil. done.
    + intros t. split; [by intros ?%elem_of_nil|by intros [?%elem_of_nil _]].
  - set (ids := t0 :: ids0). set (rows := List.filter _ _).
    assert (∀ r, r ∈ rows ↔ r ∈ mailboxThreads s ∧ row_of uid ids b r = true) as Hrows.
    { intros r. unfold rows. by rewrite list_elem_of_In, filter_In, <- list_elem_of_In. }
    split; [|split; [apply sort_by_sorted, _|]].
    + intros r. by rewrite elem_of_sort_by, Hrows.
    + intros t. rewrite list_elem_of_In, filter_In, <- list_elem_of_In, negb_true_iff, bool_decide_eq_false, list_elem_of_fmap.
      setoid_rewrite Hrows. naive_solver.
Qed.

(** ** Mailing lists *)

(** A value that is a text if it is truthy. *)
Lemma text_value v :
  (js_truthy v = true → ∃ t, v = VStr t) →
  (∃ t, v = VStr t ∧ truthy t = true) ∨ (js_truthy v = false ∧ text_or_null v = None).
Proof.
  intros Hv. destruct (js_truthy v) eqn:E.
  - destruct (Hv eq_refl) as [t ->]. left. by exists t.
  - right. split; [done|]. destruct v; try done. simpl in *. unfold or_undefined. by rewrite E.
Qed.

(** The web application finds the subscription the worker stored for a message: from the stored
    headers it computes the same key, if the message has a list id or an address to unsubscribe
    from; [new URL] gives the host in lower case, and the parser puts [List-Unsubscribe] under
    [list], as texts, and leaves no text of the header itself. *)
Theorem subscription_keys_agree parse_url p :
  (∀ t u, parse_url t = Some u → toLowerCase (u_host u) = u_host u) →
  (∀ t, header p "list-unsubscribe"%js ≠ VStr t) →
  (∀ k, js_truthy (get_prop (get_prop (header p "list"%js) "unsubscribe"%js) k) = true →
        ∃ t, get_prop (get_prop (header p "list"%js) "unsubscribe"%js) k = VStr t) →
  raw_list_id p ≠ None ∨ unsubscribe_url p ≠ None →
  subscriptionKeyFromHeadersJson parse_url (VObj (pm_headers p)) = subscription_key parse_url p.
Proof.
  intros Hhost Htext Hstr Hsome. unfold subscriptionKeyFromHeadersJson, subscription_key.
  change (get_prop (VObj (pm_headers p)) "list-id"%js) with (header p "list-id"%js).
  assert (web_url (VObj (pm_headers p)) = unsubscribe_url p) as ->.
  { unfold web_url, unsubscribe_url. change (get_prop (VObj (pm_headers p)) "list"%js) with (header p "list"%js).
    change (get_prop (VObj (pm_headers p)) "list-unsubscribe"%js) with (header p "list-unsubscribe"%js).
    assert (header_urls (header p "list-unsubscribe"%js) = None) as ->.
    { unfold header_urls. destruct (header p "list-unsubscribe"%js) eqn:E; try done. exfalso. by apply (Htext s). }
    assert (get_prop (nullish_or (header p "list"%js) VNull) "unsubscribe"%js = get_prop (header p "list"%js) "unsubscribe"%js) as ->
      by by destruct (header p "list"%js).
    set (u := get_prop (header p "list"%js) "unsubscribe"%js) in *.
    destruct (text_value _ (Hstr "url"%js)) as [(t & -> & Ht)|[-> ->]].
    - simpl. unfold or_undefined. by rewrite !Ht.
    - destruct (text_value _ (Hstr "href"%js)) as [(t & -> & Ht)|[Hf ->]]; [simpl; unfold or_undefined; by rewrite !Ht|].
      by destruct (get_prop u "href"%js); try done; simpl in Hf; rewrite Hf. }
  unfold raw_list_id in *. set (raw := trim _) in *. unfold or_undefined in *.
  destruct (truthy raw) eqn:Er; [by destruct (truthy (clean_list_id raw))|].
  destruct (unsubscribe_url p) as [url|]; [|by destruct Hsome]. unfold web_url_key, url_key.
  destruct (parse_url url) as [u|] eqn:Eu; [|done]. simpl. by rewrite (Hhost _ _ Eu).
Qed.
