(* ===== verification/WebWorker.v ===== *)
(** * Web application and worker, interleaved

    The actions of all users on stored mail, the worker's jobs on flags, moves, deletions and
    folders, its notifications, rules and reconnections, and the storing of incoming mail, in any
    order: the summaries of threads stay true. *)

From stdpp Require Import base list.
From S2P Require Import Prelude JsString JsRegex JsNumber JsValue RuleMatcher MailDb MailRollup Ingest RulesProcessor.
From S2P Require Import Imap ImapOps ImapInvariant ImapSpecs ImapFolders Discovery DiscoverySpecs ImapWorker.
From S2P Require Import IngestSpecs IngestQueues IngestTheorems.
From S2P Require Import MailActions MailActionsSpecs.

(** An action of a user that has ended, and the tick of the snoozed threads. *)
Inductive web_step (clock : nat → Z) : MailDb → MailDb → Prop :=
| web_read uid ids b smtp s : web_step clock s (markAsRead uid clock ids b smtp s).1
| web_unread uid ids b smtp s : web_step clock s (markAsUnread uid clock ids b smtp s).1
| web_star uid t b starred imap s : web_step clock s (toggleStar uid clock t b starred imap s).1
| web_trash ids b imap m s : web_step clock s (moveToTrash ids b imap m s).1
| web_move ids b c imap m s : web_step clock s (moveToFolder ids b c imap m s).1
| web_delete ids b imap all s : web_step clock s (deleteForever ids b imap all s).1
| web_snooze uid msg t b until s : web_step clock s (snoozeThread uid clock msg t b until s).1
| web_add_folder slugify new_id form user s : web_step clock s (addNewMailboxFolder slugify new_id form user s).1
| web_delete_folder imap i b user s : web_step clock s (deleteMailboxFolder imap i b user s).1
| snooze_due s : web_step clock s (snooze_tick clock s).1.

Lemma web_step_sound clock s s' : web_step clock s s' → preserving sound s s'.
Proof.
  destruct 1.
  - apply markAsRead_sound.
  - apply markAsUnread_sound.
  - apply toggleStar_sound.
  - apply moveToTrash_sound.
  - apply moveToFolder_sound.
  - apply deleteForever_sound.
  - apply snoozeThread_sound.
  - apply addNewMailboxFolder_sound.
  - apply deleteMailboxFolder_sound.
  - apply snooze_tick_sound.
Qed.

(** ** The worker keeps the owners *)

(** Every message and row comes from one with the same owner, thread and mailbox. *)
Definition inherits (s s' : MailDb) : Prop :=
  (∀ m', m' ∈ messages s' → ∃ m, m ∈ messages s ∧ msg_key m' = msg_key m ∧ m_ownerId m' = m_ownerId m) ∧
  (∀ r', r' ∈ mailboxThreads s' → ∃ r, r ∈ mailboxThreads s ∧ thread_key r' = thread_key r ∧ mt_ownerId r' = mt_ownerId r).

#[export] Instance inherits_preorder : PreOrder inherits.
Proof.
  split; [intros s; split; eauto|]. intros s1 s2 s3 [A1 A2] [B1 B2]. split.
  - intros m3 (m2 & H2 & -> & ->)%B1. destruct (A1 m2 H2) as (m1 & ? & -> & ->). eauto.
  - intros r3 (r2 & H2 & -> & ->)%B2. destruct (A2 r2 H2) as (r1 & ? & -> & ->). eauto.
Qed.

Lemma inherits_owned s s' : inherits s s' → owned s → owned s'.
Proof.
  intros [Hm Hr] Ho r' m' (r & Hrin & Hk & ->)%Hr (m & Hmin & Hk' & ->)%Hm E. apply Ho; congruence.
Qed.

Lemma inherits_same s s' : same_tables s s' → inherits s s'.
Proof. intros (Hm & Hr & _). split; rewrite ?Hm, ?Hr; eauto. Qed.

Lemma steps_inherits {A} (p : proc A) : steps same_tables p → steps inherits p.
Proof. intros Hp s. exact (inherits_same _ _ (Hp s)). Qed.

Lemma inherits_transaction {A} (p : proc A) : steps inherits p → steps inherits (transaction p).
Proof.
  intros Hp s. specialize (Hp s). unfold transaction. destruct (p s) as [s' [a|]]; [done|]. by apply inherits_same.
Qed.

Lemma inherits_messages f :
  (∀ l m', m' ∈ f l → ∃ m, m ∈ l ∧ msg_key m' = msg_key m ∧ m_ownerId m' = m_ownerId m) →
  steps inherits (modify (set_messages f)).
Proof. intros Hf s. split; [apply Hf|]. simpl. eauto. Qed.

Lemma inherits_rows f :
  (∀ l r', r' ∈ f l → ∃ r, r ∈ l ∧ thread_key r' = thread_key r ∧ mt_ownerId r' = mt_ownerId r) →
  steps inherits (modify (set_mailboxThreads f)).
Proof. intros Hf s. split; [simpl; eauto|apply Hf]. Qed.

Lemma inherits_update_messages p f :
  (∀ m, msg_key (f m) = msg_key m ∧ m_ownerId (f m) = m_ownerId m) →
  steps inherits (modify (set_messages (update_where p f))).
Proof.
  intros Hf. apply inherits_messages. intros l m' (m & -> & Hm)%list_elem_of_fmap. exists m. split; [done|].
  by destruct (p m).
Qed.

Lemma inherits_update_rows p f :
  (∀ r, thread_key (f r) = thread_key r ∧ mt_ownerId (f r) = mt_ownerId r) →
  steps inherits (modify (set_mailboxThreads (update_where p f))).
Proof.
  intros Hf. apply inherits_rows. intros l r' (r & -> & Hr)%list_elem_of_fmap. exists r. split; [done|].
  by destruct (p r).
Qed.

Lemma inherits_filter_messages (P : MessageRow → Prop) `{!∀ m, Decision (P m)} :
  steps inherits (modify (set_messages (filter P))).
Proof. apply inherits_messages. intros l m [_ Hm]%list_elem_of_filter. eauto. Qed.

Lemma inherits_filter_rows (P : MailboxThreadRow → Prop) `{!∀ r, Decision (P r)} :
  steps inherits (modify (set_mailboxThreads (filter P))).
Proof. apply inherits_rows. intros l r [_ Hr]%list_elem_of_filter. eauto. Qed.

Lemma inherits_other f :
  (∀ s, messages (f s) = messages s ∧ mailboxThreads (f s) = mailboxThreads s) → steps inherits (modify f).
Proof. intros Hf s. destruct (Hf s) as [Hm Hr]. split; simpl; rewrite ?Hm, ?Hr; eauto. Qed.

#[local] Hint Resolve steps_inherits inherits_transaction inherits_filter_messages inherits_filter_rows : webmail.
#[local] Hint Extern 1 (steps inherits (modify (set_messages (update_where _ _)))) =>
  apply inherits_update_messages : webmail.
#[local] Hint Extern 1 (steps inherits (modify (set_mailboxThreads (update_where _ _)))) =>
  apply inherits_update_rows : webmail.

Section Worker.
Context `{ImapServer} (credentials_of : IdentityRow → option jsval) (clock : nat → Z).
Context (jsonb_out : jsval → jsstr).

Lemma inherits_refresh t b now : steps inherits (refresh_aggregates t b now).
Proof. unfold refresh_aggregates. apply (steps_bind_read _). intros s. by apply inherits_update_rows. Qed.

Hint Resolve inherits_refresh : webmail.

Lemma mailSetFlags_inherits t b op : steps inherits (mailSetFlags credentials_of clock t b op).
Proof.
  assert (steps inherits (set_thread_flags clock t b op)) as Hdb.
  { apply inherits_transaction. run_steps. }
  unfold mailSetFlags, send_flags. run_steps.
Qed.

Lemma handleFlagsUpdate_inherits i uid p f sn a : steps inherits (handleFlagsUpdate clock jsonb_out i uid p f sn a).
Proof. apply inherits_transaction. unfold message_at. run_steps. Qed.

Lemma delete_messages_inherits ids : steps inherits (delete_messages ids).
Proof.
  intros s. split; [|simpl; eauto]. intros m. simpl. intros [_ Hm]%list_elem_of_filter. eauto.
Qed.

Hint Resolve delete_messages_inherits : webmail.

Lemma handleExpunge_inherits i p uid : steps inherits (handleExpunge clock jsonb_out i p uid).
Proof. apply inherits_transaction. unfold message_at. run_steps. Qed.

Lemma deleteMail_inherits d : steps inherits (deleteMail credentials_of d).
Proof.
  assert (∀ ids, steps inherits (delete_orphans ids)) as Ho.
  { intros ids. unfold delete_orphans. run_steps; by apply inherits_other. }
  assert (∀ b ids, steps inherits (delete_thread_rows b ids)) as Ht by (intros; apply inherits_filter_rows).
  unfold deleteMail, delete_with, empty_on_server, empty_in_db, deleteUids.
  run_steps; solve [by apply steps_inherits|apply inherits_transaction; run_steps].
Qed.

Lemma perform_inherits x act : steps inherits (perform clock x act).
Proof.
  unfold perform, RulesProcessor.markAsRead, RulesProcessor.toggleStar, RulesProcessor.moveToTrash, insert_label.
  run_steps; by apply steps_inherits.
Qed.

Lemma run_actions_inherits x acts : steps inherits (run_actions clock x acts).
Proof. induction acts; cbn [run_actions]; pose proof perform_inherits; run_steps. Qed.

Lemma deleteFolder_inherits b i c : steps inherits (deleteFolder b i c).
Proof.
  assert (∀ p c cmd, steps same_tables (send_unless p c cmd)) as Hs by (intros; unfold send_unless; run_steps).
  unfold deleteFolder, delete_mailbox.
  run_steps; solve [by apply inherits_other|apply inherits_transaction; run_steps; by apply inherits_other].
Qed.

(** ** Moves *)

Lemma sound_inherits {A} (p : proc A) :
  steps (preserving consistent) p → steps inherits p → steps (preserving sound) p.
Proof. intros Hc Hi s [Hs Ho]. split; [by apply Hc|]. exact (inherits_owned _ _ (Hi s) Ho). Qed.

Lemma move_in_db_owned job dest s :
  consistent s → owned s → owned (move_in_db clock job dest s).1.
Proof.
  intros Hc Ho. unfold move_in_db, transaction, or_throw, unique. unfold_proc. simpl.
  destruct (mapM _ _) as [rows|] eqn:Erows; [|exact Ho].
  destruct (bool_decide (NoDup (map message_key rows))); [|exact Ho]. case_bool_decide as Hnd; [|exact Ho].
  set (t := mv_threadId job) in *. set (b := mv_mailboxId job) in *.
  intros r' m' Hr' Hm'. simpl in Hr', Hm'. apply mapM_Some in Erows.
  set (g := λ k, if decide (k = (t, b)) then (t, mb_id dest) else k).
  assert (∃ m, m ∈ messages s ∧ m_ownerId m' = m_ownerId m ∧ msg_key m' = g (msg_key m)) as (m & Hm & Eo & Ek).
  { apply list_elem_of_lookup in Hm' as [j Hj]. destruct (Forall2_lookup_r _ _ _ _ _ Erows Hj) as (m & Hm & Em).
    exists m. split; [by apply list_elem_of_lookup_2 in Hm|]. unfold g. destruct (msg_in t b m) eqn:E in Em.
    - apply (msg_in_key (t, b)) in E. rewrite decide_True by done. injection E as E _.
      unfold move_row in Em. apply fmap_Some in Em as (meta & _ & ->). unfold msg_key; simpl. by rewrite E.
    - injection Em as <-. split; [done|]. rewrite decide_False; [done|]. intros Hk%(msg_in_key (t, b)). simpl in Hk. congruence. }
  set (mv := move_thread_row _ _ _) in *.
  assert (∀ r, thread_key (if row_in t b r then mv r else r) = g (thread_key r)) as Hg.
  { intros r. unfold g. destruct (row_in t b r) eqn:E.
    - apply (row_in_key (t, b)) in E. rewrite decide_True by done. injection E as E _. unfold thread_key; simpl. by rewrite E.
    - rewrite decide_False; [done|]. intros Hk%(row_in_key (t, b)). simpl in Hk. congruence. }
  unfold update_where in Hr', Hnd. apply list_elem_of_fmap in Hr' as (r & -> & Hr).
  rewrite map_map, (map_ext _ (λ r, g (thread_key r)) Hg), <- map_map in Hnd.
  assert (∀ r, mt_ownerId (if row_in t b r then mv r else r) = mt_ownerId r) as -> by (intros q; by destruct (row_in t b q)).
  rewrite Eo, Ek, Hg. intros Hk. apply Ho; [done..|].
  apply (NoDup_map_inj g (map thread_key (mailboxThreads s))); [done| |by apply list_elem_of_fmap_2|done].
  apply (rows_mirror s Hc). by apply list_elem_of_fmap_2.
Qed.

Lemma moveMail_sound job : steps (preserving sound) (moveMail credentials_of clock job).
Proof.
  assert (∀ dest, steps (preserving sound) (move_in_db clock job dest)) as Hdb.
  { intros dest s [Hc Ho]. split; [|by apply move_in_db_owned].
    by apply move_in_db_consistent. }
  assert (∀ i p rows, steps (preserving sound) (move_on_server credentials_of i p rows)) as Hs.
  { intros. apply sound_steps. unfold move_on_server, move_group. run_steps. }
  unfold moveMail. run_steps.
Qed.

(** ** All runs *)

Context (regexp_i : jsstr → option (jsstr → bool)) (id_compare : jsstr → jsstr → Z) `{!Comparator id_compare}.

Lemma run_job_sound j p : run_job credentials_of clock j = Some p → steps (preserving sound) p.
Proof.
  pose proof (λ j, sound_steps _ (add_job_same j)).
  unfold run_job. repeat case_bool_decide; try done; intros (d & _ & ->)%fmap_Some.
  - unfold move_handler. pose proof moveMail_sound. run_steps.
  - unfold flags_handler.
    pose proof (λ t b op, sound_inherits _ (mailSetFlags_consistent credentials_of clock t b op) (mailSetFlags_inherits t b op)).
    run_steps.
  - apply sound_inherits; [apply deleteMail_consistent|apply deleteMail_inherits].
Qed.

Lemma worker_step_sound s s' :
  worker_step credentials_of clock jsonb_out regexp_i id_compare s s' → preserving sound s s'.
Proof.
  intros Hstep [Hc Ho]. split; [by eapply worker_step_consistent|]. revert Hc Ho.
  destruct Hstep as [j p s Hj|i uid fe path flags s|i path uid s|m s|i s|i s]; intros Hc Ho.
  - by apply (run_job_sound j p Hj s).
  - refine (inherits_owned s _ _ Ho). unfold on_flags. pose proof handleFlagsUpdate_inherits.
    assert (steps inherits (on_flags clock jsonb_out i uid fe path flags)) as Hk; [|apply Hk]. unfold on_flags. run_steps.
  - refine (inherits_owned s _ _ Ho). pose proof handleExpunge_inherits.
    assert (steps inherits (on_expunge clock jsonb_out i path uid)) as Hk; [|apply Hk]. unfold on_expunge. run_steps.
  - refine (inherits_owned s _ _ Ho). rewrite processRules_plan_eq by done.
    destruct (read_context m s); [apply run_actions_inherits|reflexivity].
  - by apply (inherits_owned s), Ho; apply inherits_same, initSmtpClient_same.
  - by apply (inherits_owned s), Ho; apply inherits_same, cleanup_same.
Qed.

Lemma folder_step_sound s s' :
  folder_step credentials_of clock jsonb_out s s' → preserving sound s s'.
Proof.
  intros Hstep [Hc Ho]. split; [by eapply folder_step_consistent|]. refine (inherits_owned s _ _ Ho).
  pose proof (λ i, steps_inherits _ (initSmtpClient_same credentials_of i)) as Hi.
  destruct Hstep as [slugify new_id data s|b i s|slugify new_id i s].
  - assert (steps inherits (add_folder_handler credentials_of clock slugify new_id data)) as Hk; [|apply Hk].
    pose proof (λ data c, steps_inherits _ (addNewFolder_same clock slugify new_id data c)).
    unfold add_folder_handler. run_steps.
  - assert (steps inherits (delete_folder_handler credentials_of b i)) as Hk; [|apply Hk].
    pose proof deleteFolder_inherits. unfold delete_folder_handler. run_steps.
  - assert (steps inherits (discover_handler credentials_of clock jsonb_out slugify new_id i)) as Hk; [|apply Hk].
    pose proof (λ c i, steps_inherits _ (discoverMailboxes_same clock jsonb_out slugify new_id c i)).
    unfold discover_handler. run_steps.
Qed.

(** *** Incoming mail *)

Context (new_id : MailDb → jsstr) (simpleParser : jsstr → option ParsedMail).
Context (parse_url : jsstr → option Url) (uuid : MailDb → jsstr) (upload_ok : list jsstr → jsstr → bool).
Context (message_ok : MessageRow → bool) (attachment_ok : AttachmentRow → bool) (row_json : MessageRow → jsval).

Abbreviation parse := (parseAndStoreEmail clock new_id simpleParser parse_url uuid upload_ok message_ok
  attachment_ok row_json).

(** Mail is stored for the owner of a mailbox, where all mail is that owner's. *)
Record own_box (o : StoreOptions) (s : MailDb) : Prop := {
  ob_can_store : can_store o s;
  ob_owner : ∀ b, b ∈ mailboxes s → mb_id b = so_mailboxId o → mb_ownerId b = so_ownerId o;
}.

Lemma rows_from_owned o m s s' :
  own_box o s → sound s → m_mailboxId m = so_mailboxId o → m_ownerId m = so_ownerId o →
  messages s' = messages s ++ [m] → rows_from m s s' → owned s'.
Proof.
  intros [[_ Hmsgs] Hbox] [Hc Ho] Hb Hown Em Hr r m' Hin Hm' Hk. rewrite Em in Hm'.
  assert (∀ x, x ∈ messages s ++ [m] → m_mailboxId x = so_mailboxId o → m_ownerId x = so_ownerId o) as Hall.
  { intros x [Hx| ->%list_elem_of_singleton]%elem_of_app Hxb; [by apply Hmsgs|done]. }
  destruct (Hr r Hin) as [(r0 & Hr0 & Hk0 & <-)|(Hkr & b & Hbin & Hbid & ->)].
  - assert (thread_key r0 ∈ map msg_key (messages s)) as (x & Hx & Hxin)%list_elem_of_fmap.
    { apply (rows_mirror s Hc). by apply list_elem_of_fmap_2. }
    apply elem_of_app in Hm' as [Hm'| ->%list_elem_of_singleton]; [apply Ho; congruence|].
    rewrite <- (Ho r0 x) by done. rewrite Hown. symmetry. apply Hmsgs; [done|].
    assert (msg_key x = msg_key m) as [= _ E] by congruence. congruence.
  - rewrite (Hbox b) by congruence. apply Hall; [done|].
    assert (msg_key m' = msg_key m) as [= _ E] by congruence. congruence.
Qed.

Lemma parse_sound raw o s : fresh_ids new_id → own_box o s → preserving sound s (parse raw o s).1.
Proof.
  intros Hfresh Hob Hs. pose proof Hob as [Hcs _]. destruct (parse_cases clock new_id simpleParser parse_url uuid
    upload_ok message_ok attachment_ok row_json Hfresh raw o s Hcs) as [[Hr _]|(p & m & c & s1 & _ & Hac & ->)].
  - split; [apply (refused_consistent s); [done|apply Hs]|]. unfold owned.
    rewrite (rf_messages _ _ Hr), (rf_rows _ _ Hr). apply Hs.
  - apply (sound_same s1); [apply (finish_spec clock)|]. split; [apply (ac_rows _ _ _ _ _ Hac), Hs|].
    by apply (rows_from_owned o m s); try apply Hac.
Qed.

(** One step of either side: a job of the worker on flags, moves or deletions, a notification of a
    mail server, a run of the rules, a connection made or lost; a folder job or a discovery; an
    action of a user or the tick of the snoozed threads; a mail stored in a mailbox of its owner.

    Left out: the delta-fetch and backfill jobs as wholes (the mails they store are the last kind of
    step; the path a delta-fetch gives a message that has moved is not one, and breaks the rows:
    [DeltaSpecs.moved_thread_loses_a_row]), the sending of mail and its copies, and the jobs of
    calendars and contacts, which write none of these tables. *)
Definition mail_step (s s' : MailDb) : Prop :=
  worker_step credentials_of clock jsonb_out regexp_i id_compare s s' ∨
  folder_step credentials_of clock jsonb_out s s' ∨ web_step clock s s' ∨
  ∃ raw o, own_box o s ∧ s' = (parse raw o s).1.

Lemma mail_steps_sound s s' : fresh_ids new_id → rtc mail_step s s' → sound s → sound s'.
Proof.
  intros Hf. induction 1 as [|s1 s2 s3 H1 _ IH]; [done|]. intros Hs. apply IH.
  destruct H1 as [H1|[H1|[H1|(raw & o & Ho & ->)]]].
  - by apply (worker_step_sound s1).
  - by apply (folder_step_sound s1).
  - by apply (web_step_sound clock s1).
  - by apply parse_sound.
Qed.
End Worker.

Section Theorems.
Context `{ImapServer} (credentials_of : IdentityRow → option jsval) (clock : nat → Z) (jsonb_out : jsval → jsstr).
Context (regexp_i : jsstr → option (jsstr → bool)) (id_compare : jsstr → jsstr → Z) `{!Comparator id_compare}.
Context (new_id : MailDb → jsstr) (simpleParser : jsstr → option ParsedMail).
Context (parse_url : jsstr → option Url) (uuid : MailDb → jsstr) (upload_ok : list jsstr → jsstr → bool).
Context (message_ok : MessageRow → bool) (attachment_ok : AttachmentRow → bool) (row_json : MessageRow → jsval).

End Theorems.

(** ** Concrete runs *)

Lemma ex_store_sound : sound ex_store.
Proof.
  split; [exact ex_store_consistent|]. intros r m Hr Hm _.
  repeat (apply elem_of_cons in Hr as [-> | Hr]; [by repeat (apply elem_of_cons in Hm as [-> | Hm]; [done|]); apply elem_of_nil in Hm|]).
  by apply elem_of_nil in Hr.
Qed.

(** The user marks both threads as unread, then the worker moves the first to the trash. *)
Definition ex_unread : MailDb := (markAsUnread "u1"%js Z.of_nat ["t1"; "t2"]%js "b1"%js true ex_store).1.
Definition ex_trashed : MailDb := (@move_handler kind_server no_credentials Z.of_nat ex_move ex_unread).1.

(** A mail for the inbox comes in. *)
Definition ex_incoming : StoreOptions := {|
  so_ownerId := "u1"%js; so_mailboxId := "b1"%js; so_rawStorageKey := "eml/1"%js; so_metaData := None;
  so_seen := Some false; so_answered := None; so_flagged := None; so_mode := live |}.

Abbreviation ex_mail_step := (@mail_step kind_server no_credentials Z.of_nat js_to_string no_regexp by_length ex_new_id
  (λ _, Some ex_mail4) (λ _, None) ex_new_id all_uploads (λ _, true) (λ _, true) (λ _, VNull)).

Definition ex_received : MailDb := (parseAndStoreEmail Z.of_nat ex_new_id (λ _, Some ex_mail4) (λ _, None) ex_new_id
  all_uploads (λ _, true) (λ _, true) (λ _, VNull) [] ex_incoming ex_trashed).1.

Lemma ex_own_box : own_box ex_incoming ex_trashed.
Proof.
  split; [split|].
  - by eexists _, _.
  - apply (Forall_forall (λ m, m_mailboxId m = _ → m_ownerId m = _)). vm_compute. by repeat constructor.
  - apply (Forall_forall (λ b, mb_id b = _ → mb_ownerId b = _)). vm_compute. by repeat constructor.
Qed.

Lemma ex_mail_run : rtc ex_mail_step ex_store ex_received.
Proof.
  apply (rtc_l _ _ ex_unread); [right; right; left; apply (web_unread Z.of_nat "u1"%js ["t1"; "t2"]%js "b1"%js true)|].
  apply (rtc_l _ _ ex_trashed).
  { left. apply (@step_job kind_server no_credentials Z.of_nat js_to_string no_regexp by_length ex_move_job
      (@move_handler kind_server no_credentials Z.of_nat ex_move)). reflexivity. }
  apply rtc_once. right; right; right. exists [], ex_incoming. split; [exact ex_own_box|].
  unfold ex_received. reflexivity.
Qed.


Lemma fetchMailboxUnreadCounts_spec_witness :
  jm_get "b1"%js (fetchMailboxUnreadCounts "u1"%js ex_unread) = Some (2, 3)%Z ∧ length (my_unread "u1"%js ex_unread "b1"%js) = 3.
Proof.
  split; [|vm_compute; reflexivity].
  rewrite (fetchMailboxUnreadCounts_spec "u1"%js ex_unread "b1"%js
    (markAsUnread_sound "u1"%js Z.of_nat ["t1"; "t2"]%js "b1"%js true ex_store ex_store_sound)).
  vm_compute. reflexivity.
Defined.

Lemma snooze_wakes_witness :
  ∃ r' s', snoozeThread "u1"%js Z.of_nat [] "t1"%js "b1"%js (Some (Some 1%Z)) ex_store = (s', Done succeeded) ∧
    (∀ now, r' ∈ listed "u1"%js by_length "p1"%js "inbox"%js now s' ↔ (1 <= now)%Z).
Proof.
  destruct (snooze_wakes "u1"%js Z.of_nat [] "t1"%js "b1"%js 1 ex_store (ex_row "t1"%js 1 false) by_length "p1"%js "inbox"%js)
    as (r' & s' & E & _ & _ & _ & H & _); [by left|reflexivity|reflexivity|].
  exists r', s'. split; [exact E|exact H].
Defined.

(** A thread that was woken sorts by the instant it was woken for ever: new mail does not bring it up. *)
Definition ex_dated (t : jsstr) (activity : Z) (woken : option Z) : MailboxThreadRow :=
  let r := ex_row t 1 false in
  {| mt_threadId := t; mt_mailboxId := mt_mailboxId r; mt_ownerId := mt_ownerId r; mt_identityId := mt_identityId r;
     mt_identityPublicId := mt_identityPublicId r; mt_mailboxSlug := mt_mailboxSlug r; mt_subject := None;
     mt_previewText := None; mt_lastActivityAt := activity; mt_firstMessageAt := None; mt_messageCount := 1;
     mt_unreadCount := 1; mt_hasAttachments := false; mt_starred := false; mt_participants := None;
     mt_snoozedUntil := None; mt_unsnoozedAt := woken; mt_updatedAt := 0 |}.

Lemma woken_thread_sinks :
  map mt_threadId (fetchMailboxThreads "u1"%js by_length "p1"%js "inbox"%js 1 1000
    (set_mailboxThreads (λ _, [ex_dated "woken"%js 900 (Some 100%Z); ex_dated "other"%js 500 None]) ex_store)) =
  ["other"; "woken"]%js.
Proof. by vm_compute. Qed.

Definition ex_box_id (s : MailDb) : jsstr := "b"%js ++ concat (map mb_id (mailboxes s)).

(** A form without the field [imapOp] asks for a folder on the server. *)
Lemma absent_imapOp_is_imap :
  let form := {| ff_imapOp := VUndef; ff_name := VStr "Work"%js; ff_parentId := VUndef; ff_identityId := VStr "i1"%js |} in
  let r := addNewMailboxFolder id ex_box_id form (Some "u1"%js) ex_store in
  mailboxes r.1 = mailboxes ex_store ∧ length (jobs r.1) = 1.
Proof. by vm_compute. Qed.

(** Folders are deleted whoever asks: nothing compares the owner with the user. *)
Definition ex_custom : MailboxRow := {| mb_id := "b3"%js; mb_identityId := "i1"%js; mb_ownerId := "u1"%js; mb_parentId := None;
  mb_kind := "custom"%js; mb_name := Some "Work"%js; mb_slug := Some "work"%js; mb_isDefault := false; mb_metaData := None |}.

Lemma stranger_deletes_folder :
  let s := set_mailboxes (λ l, l ++ [ex_custom]) ex_store in
  let r := deleteMailboxFolder false "p1"%js "b3"%js (Some "stranger"%js) s in
  r.2 = Done succeeded ∧ mailboxes r.1 = mailboxes ex_store.
Proof. by vm_compute. Qed.

Definition ex_list_mail : ParsedMail :=
  {| pm_messageId := None; pm_inReplyTo := None; pm_references := NoReferences; pm_subject := None; pm_text := None;
     pm_html := None; pm_from := VUndef; pm_to := VUndef; pm_cc := VUndef; pm_bcc := VUndef; pm_replyTo := VUndef;
     pm_date := None; pm_attachments := [];
     pm_headers := [("list", VObj [("unsubscribe", VObj [("url", VStr "https://x.org/u")])])]%js |}.

Definition ex_url (t : jsstr) : option Url :=
  Some {| u_protocol := "https:"%js; u_host := "x.org"%js; u_pathname := "/u/"%js |}.

Lemma subscription_keys_agree_witness :
  subscriptionKeyFromHeadersJson ex_url (VObj (pm_headers ex_list_mail)) = subscription_key ex_url ex_list_mail ∧
  subscription_key ex_url ex_list_mail = Some "https://x.org/u"%js.
Proof.
  split; [|vm_compute; reflexivity]. apply subscription_keys_agree.
  - intros t u [= <-]. vm_compute. reflexivity.
  - intros t Ht. vm_compute in Ht. discriminate Ht.
  - intros k. unfold ex_list_mail, header. simpl. case_decide; [by eexists|done].
  - right. intros Hn. vm_compute in Hn. discriminate Hn.
Defined.
