(* ===== verification/DavCard.v ===== *)
(** * Contacts on a CardDAV server ([apps/worker/lib/dav/sync/dav-vcard.ts], [lib/dav/dav-build-card.ts])

    How a contact is written as a vCard for the server and read back from one.  The parser [vcf]
    and the tables of [mime-types] and [countries-list] are not under [src/]: they are
    parameters. *)

From stdpp Require Import base list.
From S2P Require Import Prelude JsString JsRegex JsNumber JsValue.

(** ** What a contact holds *)

(** The parts of an address, as they come from the parser. *)
Record DavAddress := {
  da_streetAddressLine2 : jsval; da_streetAddress : jsval; da_city : jsval; da_state : jsval; da_code : jsval;
  da_country : jsval;
}.

Record DavPhone := { dp_code : option jsstr; dp_number : jsstr }.

(** [emails] is the list of the addresses. *)
Record ContactFields := {
  cf_firstName : jsstr; cf_lastName : option jsstr; cf_company : option jsstr; cf_jobTitle : option jsstr;
  cf_emails : list jsstr; cf_phones : list DavPhone; cf_addresses : list DavAddress; cf_notes : option jsstr;
  cf_dob : option jsstr;
}.

Record ParsedPhoto := {
  ph_type : jsval; ph_mime : jsstr; ph_ext : jsstr; ph_base64 : option jsstr; ph_url : option jsstr;
}.

(** ** Escapes *)

Definition escapeVCardValue (value : jsstr) : jsstr :=
  re_replace_all (rchar ";") (λ _, "\;"%js)
    (re_replace_all (rchar ",") (λ _, "\,"%js)
      (re_replace_all (rchar newline) (λ _, "\n"%js)
        (re_replace_all (rchar "\") (λ _, "\\"%js) value))).

Definition unescapeVCardValue (v : jsstr) : jsstr :=
  re_replace_all (rlit "\;"%js) (λ _, ";"%js)
    (re_replace_all (rlit "\,"%js) (λ _, ","%js)
      (re_replace_all (rlit_ci "\n"%js) (λ _, [newline])
        (re_replace_all (rlit "\\"%js) (λ _, "\"%js) v))).

(** ** [parseVCardToContact] *)

(** A property of a jCard: its name, parameters and value. *)
Record JProp := { jp_name : jsstr; jp_params : jsval; jp_value : jsval }.

Definition named (name : jsstr) (p : JProp) : bool := bool_decide (toLowerCase (jp_name p) = toLowerCase name).
Definition findFirst (props : list JProp) (name : jsstr) : option JProp := List.find (named name) props.
Definition findAll (props : list JProp) (name : jsstr) : list JProp := List.filter (named name) props.

(** [Array.isArray(v) ? v : []], and [v[i]] *)
Definition item (v : jsval) (i : nat) : jsval := match v with VArr l => default VUndef (l !! i) | _ => VUndef end.

(** [x || null] on a text. *)
Definition or_null (s : jsstr) : option jsstr := or_undefined s.

(** [String(v ?? [])] *)
Definition value_text (v : jsval) : jsstr := js_to_string (nullish_or v (VStr [])).

Definition name_part (v : jsval) (i : nat) : jsstr :=
  if js_truthy (item v i) then unescapeVCardValue (js_to_string (item v i)) else [].

Definition names_of_n (v : jsval) : option jsstr * option jsstr :=
  let rawFamily := name_part v 0 in
  let rawGiven := name_part v 1 in
  let rawAdditional := name_part v 2 in
  if (bool_decide (rawFamily = "\"%js) || negb (truthy (trim rawFamily))) && truthy rawAdditional
  then (or_null rawGiven, or_null rawAdditional)
  else (or_null rawGiven, or_null rawFamily).

(** First and last name of a full name. *)
Definition names_of_fn (v : jsval) : option jsstr * option jsstr :=
  let fnVal := trim (unescapeVCardValue (value_text v)) in
  if truthy fnVal then
    match re_split (rplus (RChr is_space)) fnVal with
    | [] => (None, None)
    | [w] => (Some w, None)
    | parts => (Some (join " "%js (removelast parts)), last parts)
    end
  else (None, None).

Definition names_of (props : list JProp) : option jsstr * option jsstr :=
  let n := from_option (λ p, names_of_n (jp_value p)) (None, None) (findFirst props "n"%js) in
  match n with
  | (None, None) => from_option (λ p, names_of_fn (jp_value p)) (None, None) (findFirst props "fn"%js)
  | _ => n
  end.

Definition company_of (v : jsval) : option jsstr :=
  match v with
  | VStr s => or_null s
  | VArr (x :: _) => Some (unescapeVCardValue (js_to_string x))
  | _ => None
  end.

(** [v || null] *)
Definition val_or_null (v : jsval) : jsval := if js_truthy v then v else VNull.

Definition address_of (v : jsval) : DavAddress := {|
  da_streetAddressLine2 := val_or_null (item v 1); da_streetAddress := val_or_null (item v 2);
  da_city := val_or_null (item v 3); da_state := val_or_null (item v 4); da_code := val_or_null (item v 5);
  da_country := val_or_null (item v 6) |}.

Definition address_parts (a : DavAddress) : list jsval :=
  [da_streetAddressLine2 a; da_streetAddress a; da_city a; da_state a; da_code a; da_country a].

Definition has_part (a : DavAddress) : bool :=
  existsb (λ x, js_truthy x && truthy (trim (js_to_string x))) (address_parts a).

(** [/^\d{8}$/] *)
Definition compact_day_re : regex := rseq [RBegin; rtimes 8 (RChr is_digit); REnd].

Definition dob_of (v : jsval) : option jsstr :=
  let rawDob := trim (value_text v) in
  if re_test compact_day_re rawDob
  then Some (slice rawDob 0 4 ++ "-"%js ++ slice rawDob 4 6 ++ "-"%js ++ slice rawDob 6 8)
  else or_null rawDob.

Section Card.
(** [mime-types]; the [vcf] parser, [None] when it throws. *)
Context (mimeLookup mimeExtension : jsstr → option jsstr) (vcf_parse : jsstr → option (list JProp)).

Definition mime_of (t : jsstr) : jsstr :=
  match mimeLookup t with
  | Some m => m
  | None =>
      if bool_decide (t ∈ ["jpeg"; "jpg"]%js) then "image/jpeg"%js
      else if bool_decide (t = "png"%js) then "image/png"%js
      else if bool_decide (t = "gif"%js) then "image/gif"%js
      else "image/jpeg"%js
  end.

(** [None]: [toLowerCase] of something that is not a text throws. *)
Definition normalizePhotoType (rawType : jsval) : option (jsstr * jsstr) :=
  mime ← (if js_truthy rawType then
            match rawType with VStr t => Some (mime_of (toLowerCase t)) | _ => None end
          else Some "image/jpeg"%js);
  Some (mime, default "jpg"%js (mimeExtension mime)).

Definition photo_of (p : JProp) : option (option ParsedPhoto) :=
  let params := if js_truthy (jp_params p) then jp_params p else VObj [] in
  let encoding := toLowerCase (js_to_string
    (nullish_or (get_prop params "encoding"%js) (nullish_or (get_prop params "ENCODING"%js) (VStr [])))) in
  let rawType := nullish_or (get_prop params "type"%js) (nullish_or (get_prop params "TYPE"%js) VNull) in
  '(mime, ext) ← normalizePhotoType rawType;
  let photo b u := {| ph_type := rawType; ph_mime := mime; ph_ext := ext; ph_base64 := b; ph_url := u |} in
  if bool_decide (encoding ∈ ["b"; "base64"]%js)
  then Some (Some (photo (match jp_value p with VStr s => Some s | _ => None end) None))
  else match jp_value p with
       | VStr s => if startsWith s "http://"%js || startsWith s "https://"%js then Some (Some (photo None (Some s)))
                   else Some None
       | _ => Some None
       end.

Definition contact_of (props : list JProp) : ContactFields :=
  let '(firstName, lastName) := names_of props in
  let text name := findFirst props name ≫= λ p, or_null (value_text (jp_value p)) in
  let texts name := List.filter truthy (map (λ p, trim (value_text (jp_value p))) (findAll props name)) in
  {| cf_firstName := default [] firstName; cf_lastName := lastName;
     cf_company := findFirst props "org"%js ≫= λ p, company_of (jp_value p); cf_jobTitle := text "title"%js;
     cf_emails := texts "email"%js; cf_phones := map (λ v, {| dp_code := None; dp_number := v |}) (texts "tel"%js);
     cf_addresses := List.filter has_part (map (λ p, address_of (jp_value p)) (findAll props "adr"%js));
     cf_notes := text "note"%js; cf_dob := findFirst props "bday"%js ≫= λ p, dob_of (jp_value p) |}.

(** [None]: it throws. *)
Definition parseVCardToContact (raw : jsstr) : option (ContactFields * option ParsedPhoto) :=
  props ← vcf_parse raw;
  photo ← match findFirst props "photo"%js with Some p => photo_of p | None => Some None end;
  Some (contact_of props, photo).

(** ** [buildVCard] *)

(** [phoneByCountry] *)
Context (phoneByCountry : jsstr → option jsstr).

Definition phone_number (p : DavPhone) : jsstr :=
  match dp_code p with
  | Some code =>
      if truthy code then
        match phoneByCountry (toUpperCase code) with
        | Some dial => if truthy dial then "+"%js ++ dial ++ dp_number p else code ++ dp_number p
        | None => code ++ dp_number p
        end
      else dp_number p
  | None => dp_number p
  end.

(** [escapeVCardValue(x ?? [])]; [None]: a part that is neither text nor null throws. *)
Definition escape_part (v : jsval) : option jsstr :=
  match v with VUndef | VNull => Some [] | VStr s => Some (escapeVCardValue s) | _ => None end.

Definition address_line (a : DavAddress) : option jsstr :=
  parts ← mapM escape_part (VStr [] :: address_parts a);
  Some ("ADR;TYPE=HOME:"%js ++ join ";"%js parts).

Definition text_line (key : jsstr) (f : jsstr → jsstr) (o : option jsstr) : list jsstr :=
  match o with Some s => if truthy s then [key ++ f s] else [] | None => [] end.

(** The line of the photo and the department come from other columns. *)
Definition buildVCard (id : jsstr) (department : option jsstr) (photo : option jsstr) (c : ContactFields)
    (labelItems : list (option jsstr)) : option jsstr :=
  let lastName := default [] (cf_lastName c) in
  let fn := join " "%js (List.filter truthy [cf_firstName c; lastName]) in
  addresses ← mapM address_line (cf_addresses c);
  let lines :=
    ["BEGIN:VCARD"; "VERSION:3.0"]%js ++ ["FN:"%js ++ escapeVCardValue fn] ++
    ["N:"%js ++ join ";"%js (map escapeVCardValue [lastName; cf_firstName c; []; []; []])] ++
    (if opt_truthy (cf_company c) || opt_truthy department
     then ["ORG:"%js ++ join ";"%js (map escapeVCardValue [default [] (cf_company c); default [] department])]
     else []) ++
    text_line "TITLE:"%js escapeVCardValue (cf_jobTitle c) ++
    map (λ e, "EMAIL;TYPE=INTERNET:"%js ++ escapeVCardValue e) (List.filter truthy (cf_emails c)) ++
    map (λ p, "TEL;TYPE=CELL:"%js ++ escapeVCardValue (phone_number p))
      (List.filter (λ p, truthy (dp_number p)) (cf_phones c)) ++
    addresses ++
    text_line "BDAY:"%js (re_replace_all (rchar "-") (λ _, [])) (cf_dob c) ++
    text_line "NOTE:"%js escapeVCardValue (cf_notes c) ++
    match photo with Some l => [l] | None => [] end ++
    (if bool_decide (labelItems = []) then []
     else ["CATEGORIES:"%js ++ join ","%js (map (default []) labelItems)]) ++
    ["UID:"%js ++ id; "END:VCARD"%js] in
  Some (join [creturn; newline] lines).
End Card.

(** ** Concrete runs *)

(** The escapes are undone one after the other, so a backslash before an [n] becomes a line end. *)
Lemma escaped_backslash_is_lost :
  unescapeVCardValue (escapeVCardValue "C:\new"%js) = "C:"%js ++ [newline] ++ "ew"%js.
Proof. by vm_compute. Qed.

Lemma ex_unescape : unescapeVCardValue (escapeVCardValue ("a,b;c"%js ++ [newline])) = "a,b;c"%js ++ [newline].
Proof. by vm_compute. Qed.

(** A full name is split at its last blank; the names of N win if there is one. *)
Lemma ex_names :
  names_of [ {| jp_name := "FN"%js; jp_params := VUndef; jp_value := VStr "Ada  King Lovelace"%js |} ] =
    (Some "Ada King"%js, Some "Lovelace"%js) ∧
  names_of [ {| jp_name := "fn"%js; jp_params := VUndef; jp_value := VStr "Ada Lovelace"%js |};
             {| jp_name := "n"%js; jp_params := VUndef; jp_value := VArr [VStr "King"%js; VStr "Ada"%js] |} ] =
    (Some "Ada"%js, Some "King"%js).
Proof. by vm_compute. Qed.

(** A number with a country goes out with the dialling code and comes back without its country. *)
Lemma ex_phone :
  phone_number (λ c, if bool_decide (c = "DE"%js) then Some "49"%js else None)
    {| dp_code := Some "de"%js; dp_number := "30123"%js |} = "+4930123"%js.
Proof. by vm_compute. Qed.
