(* ===== verification/DavMirror.v ===== *)
(** * Tables that follow a remote collection

    The lemmas shared by the synchronisation of contacts and of calendars: a table of rows with an
    id, where some rows belong to a collection and carry the uri and the etag of a remote
    object. *)

From stdpp Require Import base list.
From S2P Require Import Prelude JsString.
From S2P Require Import Proc.

Lemma filter_andb {A} (P Q : A → bool) l : List.filter P (List.filter Q l) = List.filter (λ a, Q a && P a) l.
Proof. induction l as [|a l IH]; [done|]. simpl. destruct (Q a); simpl; [destruct (P a)|]; by rewrite ?IH. Qed.

Lemma filter_implied {A} (P Q : A → bool) l :
  (∀ a, P a = true → Q a = true) → List.filter P (List.filter Q l) = List.filter P l.
Proof.
  intros HPQ. rewrite filter_andb. apply filter_ext. intros a. destruct (P a) eqn:E; [|apply andb_false_r].
  by rewrite (HPQ a E).
Qed.

Lemma filter_true_id {A} (P : A → bool) l : (∀ a, a ∈ l → P a = true) → List.filter P l = l.
Proof.
  induction l as [|a l IH]; intros HP; [done|]. simpl. rewrite HP by set_solver. by rewrite IH by set_solver.
Qed.

Lemma list_filter_bool {A} (P : A → Prop) `{!∀ a, Decision (P a)} l : filter P l = List.filter (λ a, bool_decide (P a)) l.
Proof.
  induction l as [|a l IH]; [done|]. rewrite filter_cons, IH. simpl. by case_decide; case_bool_decide.
Qed.

Section Table.
Context {Row : Type} (id : Row → jsstr) (uri etag : Row → option jsstr) (mine : Row → bool).

(** The rows of the collection with a uri, as they are looked up. *)
Definition at_uri (u : jsstr) (r : Row) : bool := mine r && bool_decide (uri r = Some u).
Definition found (u : jsstr) (l : list Row) : option Row := List.find (at_uri u) l.

(** Change the row with an id. *)
Definition put (i : jsstr) (f : Row → Row) : list Row → list Row :=
  map (λ r, if bool_decide (id r = i) then f r else r).

Lemma found_filter u l : found u l = head (List.filter (at_uri u) l).
Proof.
  unfold found. induction l as [|r l IH]; [done|]. simpl. by destruct (at_uri u r).
Qed.

Lemma found_Some u l r : found u l = Some r → r ∈ l ∧ at_uri u r = true.
Proof. intros [Hr Hu]%List.find_some. split; [by apply list_elem_of_In|done]. Qed.

Lemma found_None u l r : found u l = None → r ∈ l → at_uri u r = false.
Proof. intros Hn Hr. apply (List.find_none _ _ Hn). by apply list_elem_of_In. Qed.

Lemma at_uri_other u u' r : u ≠ u' → at_uri u r = true → at_uri u' r = false.
Proof.
  unfold at_uri. intros Hne [-> H%bool_decide_eq_true]%andb_prop. simpl. apply bool_decide_eq_false. congruence.
Qed.

Lemma at_uri_not_mine u r : mine r = false → at_uri u r = false.
Proof. unfold at_uri. by intros ->. Qed.

Lemma ids_filter (P : Row → bool) l : NoDup (map id l) → NoDup (map id (List.filter P l)).
Proof.
  induction l as [|r l IH]; simpl; [done|]. intros [Hr Hl]%NoDup_cons.
  destruct (P r); simpl; [|by apply IH]. apply NoDup_cons. split; [|by apply IH].
  intros (r' & E & [H _]%list_elem_of_In%filter_In)%list_elem_of_fmap. apply Hr. rewrite E.
  by apply list_elem_of_fmap_2, list_elem_of_In.
Qed.

Lemma unique_row l r r' : NoDup (map id l) → r ∈ l → r' ∈ l → id r = id r' → r = r'.
Proof.
  induction l as [|x l IH]; simpl; [set_solver|]. intros [Hx Hl]%NoDup_cons Hr Hr' E.
  assert (∀ y, y ∈ l → id y ∈ map id l) as Hm by (intros y Hy; by apply list_elem_of_fmap_2).
  apply elem_of_cons in Hr as [-> | Hr]; apply elem_of_cons in Hr' as [-> | Hr']; [done|..].
  - destruct Hx. rewrite E. by apply Hm.
  - destruct Hx. rewrite <- E. by apply Hm.
  - by apply IH.
Qed.

Lemma put_ids i f l : (∀ r, id r = i → id (f r) = i) → map id (put i f l) = map id l.
Proof.
  intros Hf. unfold put. rewrite map_map. apply map_ext_in. intros r _. case_bool_decide as E; [|done].
  by rewrite Hf.
Qed.

Lemma put_filter (P : Row → bool) i f l :
  (∀ r, r ∈ l → id r = i → P r = false ∧ P (f r) = false) → List.filter P (put i f l) = List.filter P l.
Proof.
  induction l as [|r l IH]; intros H; [done|]. simpl. rewrite IH by (intros; apply H; [by right|done]).
  case_bool_decide as E; [|done]. destruct (H r) as [-> ->]; [by left|done|done].
Qed.

Lemma put_found u l r f :
  NoDup (map id l) → found u l = Some r → at_uri u (f r) = true → found u (put (id r) f l) = Some (f r).
Proof.
  unfold found. induction l as [|x l IH]; [done|]. simpl. intros [Hx Hl]%NoDup_cons Hr Hf.
  destruct (at_uri u x) eqn:Ex.
  - injection Hr as ->. by rewrite bool_decide_true, Hf by done.
  - rewrite bool_decide_false, Ex; [by apply IH|]. intros E. apply Hx. rewrite E.
    apply list_elem_of_fmap_2. by apply found_Some in Hr as [? _].
Qed.

(** ** One object *)

(** The collection has a row with the uri and the etag, the rows that are not of that uri are the
    same in the same order, and ids are unique. *)
Record tracks (u : jsstr) (e : option jsstr) (l l' : list Row) : Prop := {
  tr_found : ∃ r, found u l' = Some r ∧ etag r = e;
  tr_kept : ∀ P : Row → bool, (∀ r, P r = true → at_uri u r = false) → List.filter P l' = List.filter P l;
  tr_ids : NoDup (map id l');
}.

Lemma tracks_same u l r : found u l = Some r → NoDup (map id l) → tracks u (etag r) l l.
Proof. split; [by exists r|done..]. Qed.

Lemma tracks_add u l row :
  found u l = None → at_uri u row = true → id row ∉ map id l → NoDup (map id l) →
  tracks u (etag row) l (l ++ [row]).
Proof.
  intros Hn Hrow Hid Hl. split.
  - exists row. split; [|done]. rewrite found_filter, List.filter_app. unfold found in Hn.
    assert (List.filter (at_uri u) l = []) as ->.
    { clear -Hn. induction l as [|x l IH]; [done|]. simpl in *. destruct (at_uri u x); [done|auto]. }
    simpl. by rewrite Hrow.
  - intros P HP. rewrite List.filter_app. simpl. destruct (P row) eqn:E; [|by rewrite app_nil_r].
    apply HP in E. congruence.
  - rewrite map_app. apply NoDup_app. split; [done|]. split; [|apply NoDup_singleton]. set_solver.
Qed.

Lemma tracks_put u l r f :
  found u l = Some r → at_uri u (f r) = true → id (f r) = id r → NoDup (map id l) →
  tracks u (etag (f r)) l (put (id r) f l).
Proof.
  intros Hr Hf Hi Hl. destruct (found_Some _ _ _ Hr) as [Hin Hu].
  assert (∀ r', r' ∈ l → id r' = id r → r' = r) as Hone by (intros; by eapply unique_row).
  split.
  - exists (f r). split; [by apply put_found|done].
  - intros P HP. apply put_filter. intros r' Hr' E. apply Hone in E as ->; [|done]. split.
    + apply not_true_is_false. intros HT%HP. congruence.
    + apply not_true_is_false. intros HT%HP. congruence.
  - replace (map id (put (id r) f l)) with (map id l); [done|]. unfold put. rewrite map_map.
    apply map_ext_in. intros r' Hr'%list_elem_of_In. case_bool_decide as E; [|done].
    apply Hone in E as ->; [congruence|done].
Qed.

(** ** A collection *)

Section Objects.
Context {Obj : Type} (ou : Obj → jsstr) (oe : Obj → option jsstr).

Definition mirrors (objs : list Obj) (l : list Row) : Prop :=
  ∀ o, o ∈ objs → ∃ r, found (ou o) l = Some r ∧ etag r = oe o.

(** The rows of other uris, and those that are not of the collection. *)
Definition keeps (objs : list Obj) (l l' : list Row) : Prop :=
  ∀ P : Row → bool, (∀ r o, P r = true → o ∈ objs → at_uri (ou o) r = false) → List.filter P l' = List.filter P l.

Lemma mirrors_kept objs l (P : Row → bool) :
  (∀ r o, o ∈ objs → at_uri (ou o) r = true → P r = true) →
  mirrors objs l → mirrors objs (List.filter P l).
Proof.
  intros HP Hm o Ho. destruct (Hm o Ho) as (r & Hr & He). exists r. split; [|done]. rewrite <- Hr, !found_filter.
  f_equal. clear -HP Ho. induction l as [|x l IH]; [done|]. simpl. destruct (at_uri (ou o) x) eqn:E.
  - rewrite (HP x o Ho E). simpl. by rewrite E, IH.
  - destruct (P x); simpl; by rewrite ?E.
Qed.

Lemma found_put_only u c f l :
  NoDup (map id l) → c ∈ l → (∀ r, r ∈ l → at_uri u r = true → id r = id c) → at_uri u (f c) = true →
  found u (put (id c) f l) = Some (f c).
Proof.
  unfold found, put. induction l as [|x l IH]; [set_solver|]. cbn [map]. intros [Hx Hl]%NoDup_cons Hc Hone Hf. simpl.
  destruct (decide (id x = id c)) as [E|E].
  - assert (x = c) as ->.
    { apply elem_of_cons in Hc as [->|Hc]; [done|]. destruct Hx. rewrite E. by apply list_elem_of_fmap_2. }
    rewrite bool_decide_true by done. by rewrite Hf.
  - rewrite bool_decide_false by done. assert (at_uri u x = false) as ->.
    { apply not_true_is_false. intros H. apply E, Hone; [set_solver|done]. }
    apply IH; [done| |intros r Hr; apply Hone; set_solver|done]. apply elem_of_cons in Hc as [->|Hc]; [done|done].
Qed.

(** The row of one object is written, or deleted with it. *)
Lemma mirrors_put objs objs' u c f l :
  NoDup (map id l) → c ∈ l → (∀ r, r ∈ l → at_uri u r = true → id r = id c) → at_uri u (f c) = true →
  (∀ v, v ≠ u → at_uri v c = false) →
  (∀ o, o ∈ objs' → (ou o = u ∧ oe o = etag (f c)) ∨ (ou o ≠ u ∧ o ∈ objs)) →
  mirrors objs l → mirrors objs' (put (id c) f l).
Proof.
  intros Hid Hc Hone Hf Hother Hobjs Hm o Ho. destruct (Hobjs o Ho) as [[-> ->]|[Hu Hin]].
  - exists (f c). split; [by apply found_put_only|done].
  - destruct (Hm o Hin) as (r & Hr & He). exists r. split; [|done]. rewrite <- Hr, !found_filter. f_equal.
    apply put_filter. intros r' Hr' E. apply (unique_row l) in E as ->; [|done..].
    split; [by apply Hother|]. by apply (at_uri_other u).
Qed.

Lemma mirrors_delete objs objs' u c l :
  NoDup (map id l) → c ∈ l → (∀ v, v ≠ u → at_uri v c = false) → (∀ o, o ∈ objs' → ou o ≠ u ∧ o ∈ objs) →
  mirrors objs l → mirrors objs' (List.filter (λ r, negb (bool_decide (id r = id c))) l).
Proof.
  intros Hid Hc Hother Hobjs Hm. assert (mirrors objs' l) as Hm' by (intros o Ho; apply Hm; by apply Hobjs).
  intros o Ho. destruct (Hm' o Ho) as (r & Hr & He). exists r. split; [|done]. rewrite <- Hr, !found_filter. f_equal.
  rewrite filter_andb. apply List.filter_ext_in. intros x Hx%list_elem_of_In. destruct (bool_decide (id x = id c)) eqn:E; [|done].
  apply bool_decide_eq_true in E. apply (unique_row l) in E as ->; [|done..]. simpl. symmetry. apply Hother. by apply Hobjs.
Qed.

Context {S : Type} (rows : S → list Row) (visit : Obj → prog S unit) (J : S → Prop).

Definition visited (objs : list Obj) (s s' : S) : Prop :=
  mirrors objs (rows s') ∧ keeps objs (rows s) (rows s') ∧ NoDup (map id (rows s')) ∧ J s'.

Lemma each_visited objs s :
  NoDup (map ou objs) →
  (∀ o s, o ∈ objs → J s → NoDup (map id (rows s)) → ∃ s', visit o s = (s', Done tt) ∧
     tracks (ou o) (oe o) (rows s) (rows s') ∧ J s') →
  J s → NoDup (map id (rows s)) → ∃ s', each visit objs s = (s', Done tt) ∧ visited objs s s'.
Proof.
  revert s. induction objs as [|o objs IH]; intros s Hnd Hv Hj Hid.
  - exists s. split; [done|]. split; [by intros o ?%elem_of_nil|]. split; [|done]. by intros P HP.
  - cbn [map] in Hnd. apply NoDup_cons in Hnd as [Ho Hnd].
    destruct (Hv o s) as (s1 & E1 & Ht & Hj1); [set_solver|done..|].
    destruct (IH s1 Hnd) as (s2 & E2 & Hm & Hk & Hid2 & Hj2);
      [intros; apply Hv; [set_solver|done..]|done|apply Ht|].
    exists s2. split; [cbn [each]; by rewrite (bind_run _ _ _ _ _ E1)|]. split; [|split; [|done]].
    + intros o' [-> | Ho']%elem_of_cons; [|by apply Hm].
      destruct (tr_found _ _ _ _ Ht) as (r & Hr & He). exists r. split; [|done].
      rewrite <- Hr, !found_filter. f_equal. apply Hk. intros r' o' Hr' Ho'. eapply at_uri_other; [|done].
      intros E. apply Ho. rewrite E. by apply list_elem_of_fmap_2.
    + intros P HP. rewrite (Hk P) by (intros; apply HP; [done|set_solver]).
      apply (tr_kept _ _ _ _ Ht). intros; apply HP; [done|set_solver].
Qed.
End Objects.

(** ** Rows that are gone

    One row after the other is deleted by its id. *)

Definition doomed (g : Row → bool) (locals : list Row) (r : Row) : bool :=
  existsb (λ x, g x && bool_decide (id x = id r)) locals.

Lemma doomed_unique g (held : Row → bool) l r :
  NoDup (map id l) → r ∈ l → doomed g (List.filter held l) r = held r && g r.
Proof.
  intros Hid Hr. apply eq_true_iff_eq. unfold doomed. rewrite existsb_exists, andb_true_iff. split.
  - intros (x & [Hx Hh]%filter_In & [Hg E%bool_decide_eq_true]%andb_prop).
    rewrite <- list_elem_of_In in Hx. by rewrite <- (unique_row l x r).
  - intros [Hh Hg]. exists r. rewrite filter_In, <- list_elem_of_In, Hg. by rewrite bool_decide_true.
Qed.

Section Deletion.
Context {S : Type} (rows : S → list Row) (g : Row → bool) (drop : Row → prog S unit).
Context (drop_run : ∀ x s, ∃ s', drop x s = (s', Done tt) ∧
  rows s' = List.filter (λ r, negb (g x && bool_decide (id x = id r))) (rows s)).

Lemma each_dropped locals s :
  ∃ s', each drop locals s = (s', Done tt) ∧ rows s' = List.filter (λ r, negb (doomed g locals r)) (rows s).
Proof.
  revert s. induction locals as [|x locals IH]; intros s.
  - exists s. split; [done|]. by rewrite filter_true_id by done.
  - destruct (drop_run x s) as (s1 & E1 & H1). destruct (IH s1) as (s2 & E2 & H2). exists s2.
    split; [cbn [each]; by rewrite (bind_run _ _ _ _ _ E1)|]. rewrite H2, H1, filter_andb.
    apply filter_ext. intros r. unfold doomed. cbn [existsb]. by rewrite negb_orb.
Qed.
End Deletion.
End Table.
