(* ===== verification/DavSync.v ===== *)
(** * Mirroring a DAV server ([apps/worker/lib/dav/sync/dav-sync-db.ts],
    [lib/dav/sync/dav-profile-image.ts], [lib/dav/calendar/dav-sync-calendar-db.ts])

    The cards and calendar objects of the server's database are compared by their etags with the
    contacts and events, which follow them.  [ical.js], [dayjs] and the schemas generated from the
    tables are parameters. *)

From stdpp Require Import base list.
From S2P Require Import Prelude JsString JsRegex JsNumber JsValue DavCard.
From S2P Require Import Proc.

(** ** The tables *)

Record DavContact := {
  dc_id : jsstr; dc_ownerId : jsstr; dc_publicId : jsstr; dc_addressBookId : option jsstr;
  dc_davUri : option jsstr; dc_davEtag : option jsstr; dc_profilePicture : option jsstr;
  dc_profilePictureXs : option jsstr; dc_fields : ContactFields;
}.

Record AddressBook := {
  bk_id : jsstr; bk_ownerId : jsstr; bk_remotePath : jsstr; bk_davAddressBookId : option Z; bk_isDefault : bool;
}.

(** A card of the server; [carddata] as text. *)
Record DavCardRow := { cd_addressbookid : Z; cd_uri : jsstr; cd_etag : option jsstr; cd_data : jsstr }.

(** The columns read from a calendar object; status and busy status are texts, [None] is an invalid
    date. *)
Record DavEventFields := {
  df_title : jsstr; df_description : option jsstr; df_location : option jsstr; df_isAllDay : bool;
  df_startsAt : option Z; df_endsAt : option Z; df_status : jsstr; df_busyStatus : jsstr;
}.

Record DavEvent := {
  de_id : jsstr; de_ownerId : jsstr; de_calendarId : jsstr; de_davUri : option jsstr; de_davEtag : option jsstr;
  de_rawIcs : option jsstr; de_fields : DavEventFields;
}.

Record DavCalendar := {
  cl_id : jsstr; cl_ownerId : jsstr; cl_remotePath : jsstr; cl_davCalendarId : option Z; cl_timezone : jsstr;
  cl_isDefault : bool;
}.

Record DavObjectRow := { ob_calendarid : Z; ob_uri : jsstr; ob_etag : jsstr; ob_data : jsstr }.

(** [uploads] are the paths of the objects put into the storage. *)
Record DavStore := {
  addressBooks : list AddressBook; contacts : list DavContact; davCards : list DavCardRow;
  calendars : list DavCalendar; events : list DavEvent; davObjects : list DavObjectRow; uploads : list jsstr;
}.

Definition set_contacts (f : list DavContact → list DavContact) (s : DavStore) : DavStore :=
  {| addressBooks := addressBooks s; contacts := f (contacts s); davCards := davCards s; calendars := calendars s;
     events := events s; davObjects := davObjects s; uploads := uploads s |}.
Definition set_events (f : list DavEvent → list DavEvent) (s : DavStore) : DavStore :=
  {| addressBooks := addressBooks s; contacts := contacts s; davCards := davCards s; calendars := calendars s;
     events := f (events s); davObjects := davObjects s; uploads := uploads s |}.
Definition set_uploads (f : list jsstr → list jsstr) (s : DavStore) : DavStore :=
  {| addressBooks := addressBooks s; contacts := contacts s; davCards := davCards s; calendars := calendars s;
     events := events s; davObjects := davObjects s; uploads := f (uploads s) |}.

Abbreviation dav := (prog DavStore).

(** ** [normalizeEtag] *)

(** A quotation mark as a pattern. *)
Definition quote_re : regex := rchar dquote.
(** [/^W\/"(.+)"$/]; a dot is no line end. *)
Definition weak_re : regex :=
  rseq [RBegin; rlit "W/"%js; quote_re; RGroup 1 (rplus (RChr (λ a, negb (bool_decide (a = newline ∨ a = creturn)))));
        quote_re; REnd].

Definition normalizeEtag (etag : option jsstr) : option jsstr :=
  match etag with
  | None => None
  | Some t =>
      if negb (truthy t) then None
      else
        let e0 := trim t in
        let e := if startsWith e0 [dquote] && endsWith e0 [dquote] then slice e0 1 (-1) else e0 in
        match re_exec weak_re e with
        | Some m => Some (default [] (group 1 (rm_caps m)))
        | None =>
            Some (re_replace_all quote_re (λ _, [])
                    (re_replace_first (rseq [RBegin; rlit "W/"%js]) (λ _, []) e))
        end
  end.

(** [a || b] on ids *)
Definition id_or (a b : option Z) : option Z := match a with Some 0%Z | None => b | _ => a end.

(** ** Contacts *)

Section Contacts.
Context (mimeLookup mimeExtension : jsstr → option jsstr) (vcf_parse : jsstr → option (list JProp)).
(** What the database and [nanoid] give to new rows and files. *)
Context (new_id nanoid : DavStore → jsstr).
(** [fetch] of a picture: [None] when it fails, otherwise [response.ok]; whether an upload to the
    storage succeeds. *)
Context (fetch_ok : jsstr → option bool) (upload_ok : list jsstr → jsstr → bool).

Abbreviation read_card := (parseVCardToContact mimeLookup mimeExtension vcf_parse).

Definition upload (path : jsstr) : dav (option jsstr) :=
  s ← read;
  if upload_ok (uploads s) path then _ ← modify (set_uploads (λ l, l ++ [path])); mret (Some path) else mret None.

(** [davParsePhoto]: the two paths put into the payload; [None] when it is left alone. *)
Definition davParsePhoto (photo : option ParsedPhoto) (ownerId publicId : jsstr) :
    dav (option (option jsstr * option jsstr)) :=
  match photo with
  | None => mret None
  | Some p =>
      s ← read;
      let basePath := "private/"%js ++ ownerId ++ "/contacts/"%js ++ publicId ++ "/"%js in
      let mainPath := basePath ++ nanoid s ++ "."%js ++ ph_ext p in
      let thumbPath := basePath ++ nanoid s ++ "_xs."%js ++ ph_ext p in
      mainFile ← (if opt_truthy (ph_base64 p) then mret true
                  else match ph_url p with
                       | Some u => if truthy u then or_throw (fetch_ok u) else mret false
                       | None => mret false
                       end);
      if mainFile : bool then
        main ← upload mainPath;
        thumb ← upload thumbPath;
        mret (Some (main, thumb))
      else mret None
  end.

(** The unique keys [(owner_id, public_id)] and [(owner_id, dav_uri)]. *)
Definition contact_conflict (row : DavContact) (rows : list DavContact) : bool :=
  existsb (λ r, bool_decide (dc_ownerId r = dc_ownerId row) &&
                (bool_decide (dc_publicId r = dc_publicId row) ||
                 (bool_decide (dc_davUri row ≠ None) && bool_decide (dc_davUri r = dc_davUri row)))) rows.

Definition createContact (card : DavCardRow) (book : AddressBook) : dav unit :=
  '(parsed, photo) ← or_throw (read_card (cd_data card));
  s ← read;
  let publicId := nanoid s in
  pictures ← davParsePhoto photo (bk_ownerId book) publicId;
  s ← read;
  let row := {| dc_id := new_id s; dc_ownerId := bk_ownerId book; dc_publicId := publicId;
                dc_addressBookId := Some (bk_id book); dc_davUri := Some (cd_uri card);
                dc_davEtag := normalizeEtag (cd_etag card); dc_profilePicture := pictures ≫= fst;
                dc_profilePictureXs := pictures ≫= snd; dc_fields := parsed |} in
  if contact_conflict row (contacts s) then mret tt else modify (set_contacts (λ l, l ++ [row])).

(** [SET] of the payload: the pictures stay unless there is a new one. *)
Definition with_card (card : DavCardRow) (book : AddressBook) (parsed : ContactFields)
    (pictures : option (option jsstr * option jsstr)) (r : DavContact) : DavContact :=
  {| dc_id := dc_id r; dc_ownerId := bk_ownerId book; dc_publicId := dc_publicId r;
     dc_addressBookId := Some (bk_id book); dc_davUri := Some (cd_uri card);
     dc_davEtag := normalizeEtag (cd_etag card);
     dc_profilePicture := match pictures with Some p => p.1 | None => dc_profilePicture r end;
     dc_profilePictureXs := match pictures with Some p => p.2 | None => dc_profilePictureXs r end;
     dc_fields := parsed |}.

Definition updateContact (card : DavCardRow) (book : AddressBook) (localContact : DavContact) : dav unit :=
  '(parsed, photo) ← or_throw (read_card (cd_data card));
  pictures ← davParsePhoto photo (bk_ownerId book) (dc_publicId localContact);
  modify (set_contacts (map (λ r, if bool_decide (dc_id r = dc_id localContact)
                                  then with_card card book parsed pictures r else r))).

Definition local_contact (book : AddressBook) (uri : jsstr) (s : DavStore) : option DavContact :=
  List.find (λ r, bool_decide (dc_ownerId r = bk_ownerId book) && bool_decide (dc_davUri r = Some uri)) (contacts s).

(** The body of the first loop. *)
Definition visit_card (book : AddressBook) (card : DavCardRow) : dav unit :=
  s ← read;
  match local_contact book (cd_uri card) s with
  | Some localContact =>
      if bool_decide (normalizeEtag (cd_etag card) = dc_davEtag localContact) then mret tt
      else updateContact card book localContact
  | None => createContact card book
  end.

(** A local row whose remote one is gone. *)
Definition gone (remoteUris : list jsstr) (davUri : option jsstr) : bool :=
  match davUri with Some u => truthy u && negb (bool_decide (u ∈ remoteUris)) | None => false end.

Definition drop_contact (remoteUris : list jsstr) (local : DavContact) : dav unit :=
  if gone remoteUris (dc_davUri local) then modify (set_contacts (filter (λ r, dc_id r ≠ dc_id local))) else mret tt.

Definition remote_path_ok (kind path : jsstr) : bool :=
  match split "/" path with [a; _; _] => bool_decide (a = kind) | _ => false end.

Definition syncBook (book : AddressBook) (defaultDavBookId : option Z) : dav unit :=
  if negb (remote_path_ok "addressbooks"%js (bk_remotePath book)) then mret tt
  else match id_or (bk_davAddressBookId book) defaultDavBookId with
       | None | Some 0%Z => mret tt
       | Some davBookId =>
           s ← read;
           let cards := filter (λ c, cd_addressbookid c = davBookId) (davCards s) in
           _ ← each (visit_card book) cards;
           s ← read;
           let localContacts := filter (λ r, dc_addressBookId r = Some (bk_id book)) (contacts s) in
           each (drop_contact (map cd_uri cards)) localContacts
       end.

Definition davSyncDb : dav unit :=
  s ← read;
  let books := List.filter bk_isDefault (addressBooks s) in
  let defaultDavBookId := match books with [b] => bk_davAddressBookId b | _ => None end in
  each (λ book, catch (syncBook book defaultDavBookId) (mret tt)) books.
End Contacts.

(** ** Calendars *)

(** A date of [ical.js]: its parts, [isDate], its zone with the zone's id ([None] when it has no
    zone), whether that is the local zone, and [toJSDate()]. *)
Record IcalTime := {
  it_year : Z; it_month : Z; it_day : Z; it_hour : Z; it_minute : Z; it_second : Z; it_isDate : bool;
  it_zone : option (option jsstr); it_isLocal : bool; it_js : Z;
}.

(** What is read from the first VEVENT. *)
Record IcsEvent := {
  ie_startDate : option IcalTime; ie_endDate : option IcalTime; ie_summary : option jsstr;
  ie_description : option jsstr; ie_location : option jsstr; ie_status : option jsstr; ie_transp : option jsstr;
}.

Section Calendars.
(** [ICAL.parse]: [None] when it throws, [Some None] without a VEVENT. *)
Context (read_ics : jsstr → option (option IcsEvent)).
(** The instant of [dayjs({ year, month, day, hour, minute, second })], [None]: an invalid date;
    the zones [Intl] knows. *)
Context (dayjs : Z → Z → Z → Z → Z → Z → option Z) (known_zone : jsstr → bool).
Context (insert_ok update_ok : DavEventFields → bool) (new_id : DavStore → jsstr).

(** [getDayjsTz]: the zone is one to show the instant in; [None]: an unknown one throws. *)
Definition getDayjsTz (defaultTz : jsstr) (input : option Z) : option (option Z) :=
  if bool_decide (input ≠ None) && negb (known_zone defaultTz) then None else Some input.

Definition instant_of (tzId : jsstr) (allDay : bool) (t : IcalTime) : option (option Z) :=
  getDayjsTz tzId
    (if allDay then dayjs (it_year t) (it_month t - 1) (it_day t) 0 0 0
     else dayjs (it_year t) (it_month t - 1) (it_day t) (it_hour t) (it_minute t) (it_second t)).

Definition isFloating (t : IcalTime) : bool :=
  match it_zone t with
  | None => true
  | Some tzid => it_isLocal t || bool_decide (tzid = Some "floating"%js)
  end.

Definition event_status (rawStatus : option jsstr) : jsstr :=
  match rawStatus with
  | Some r =>
      let u := toUpperCase r in
      if bool_decide (u = "CONFIRMED"%js) then "confirmed"%js
      else if bool_decide (u = "TENTATIVE"%js) then "tentative"%js
      else if bool_decide (u = "CANCELLED"%js) then "cancelled"%js
      else "confirmed"%js
  | None => "confirmed"%js
  end.

Definition times_of (tzId : jsstr) (startTime endTime : IcalTime) : option (option Z * option Z) :=
  let isAllDay := it_isDate startTime in
  if isAllDay || isFloating startTime then
    startsAt ← instant_of tzId isAllDay startTime;
    endsAt ← instant_of tzId isAllDay endTime;
    Some (startsAt, endsAt)
  else Some (Some (it_js startTime), Some (it_js endTime)).

(** [None]: it throws; [Some None]: [null]. *)
Definition parseIcsToEvent (icsData calendarTz : jsstr) : option (option DavEventFields) :=
  vevent ← read_ics icsData;
  match vevent with
  | None => Some None
  | Some ev =>
      match ie_startDate ev, ie_endDate ev with
      | Some startTime, Some endTime =>
          let eventTzid := match it_zone startTime with Some (Some z) => z | _ => [] end in
          let tzId := js_or calendarTz (js_or eventTzid "UTC"%js) in
          '(startsAt, endsAt) ← times_of tzId startTime endTime;
          Some (Some {|
            df_title := default [] (ie_summary ev); df_description := Some (default [] (ie_description ev));
            df_location := ie_location ev; df_isAllDay := it_isDate startTime; df_startsAt := startsAt;
            df_endsAt := endsAt; df_status := event_status (ie_status ev);
            df_busyStatus := if bool_decide (toUpperCase (default [] (ie_transp ev)) = "TRANSPARENT"%js)
                             then "free"%js else "busy"%js |})
      | _, _ => Some None
      end
  end.

Definition event_conflict (row : DavEvent) (rows : list DavEvent) : bool :=
  existsb (λ r, bool_decide (de_ownerId r = de_ownerId row) && bool_decide (de_davUri r = de_davUri row)) rows.

Definition createEventFromDav (obj : DavObjectRow) (calendar : DavCalendar) : dav unit :=
  parsed ← or_throw (parseIcsToEvent (ob_data obj) (cl_timezone calendar));
  match parsed with
  | None => mret tt
  | Some fields =>
      if negb (insert_ok fields) then mret tt
      else
        s ← read;
        let row := {| de_id := new_id s; de_ownerId := cl_ownerId calendar; de_calendarId := cl_id calendar;
                      de_davUri := Some (ob_uri obj); de_davEtag := normalizeEtag (Some (ob_etag obj));
                      de_rawIcs := Some (ob_data obj); de_fields := fields |} in
        if event_conflict row (events s) then mret tt else modify (set_events (λ l, l ++ [row]))
  end.

Definition with_object (obj : DavObjectRow) (fields : DavEventFields) (r : DavEvent) : DavEvent :=
  {| de_id := de_id r; de_ownerId := de_ownerId r; de_calendarId := de_calendarId r;
     de_davUri := Some (ob_uri obj); de_davEtag := normalizeEtag (Some (ob_etag obj));
     de_rawIcs := Some (ob_data obj); de_fields := fields |}.

Definition updateEventFromDav (obj : DavObjectRow) (calendar : DavCalendar) (localEvent : DavEvent) : dav unit :=
  parsed ← or_throw (parseIcsToEvent (ob_data obj) (cl_timezone calendar));
  match parsed with
  | None => mret tt
  | Some fields =>
      if negb (update_ok fields) then mret tt
      else modify (set_events (map (λ r, if bool_decide (de_id r = de_id localEvent) then with_object obj fields r else r)))
  end.

Definition local_event (calendar : DavCalendar) (uri : jsstr) (s : DavStore) : option DavEvent :=
  List.find (λ r, bool_decide (de_calendarId r = cl_id calendar) && bool_decide (de_davUri r = Some uri)) (events s).

Definition visit_object (calendar : DavCalendar) (obj : DavObjectRow) : dav unit :=
  s ← read;
  match local_event calendar (ob_uri obj) s with
  | Some localEvent =>
      if bool_decide (normalizeEtag (Some (ob_etag obj)) = de_davEtag localEvent) then mret tt
      else updateEventFromDav obj calendar localEvent
  | None => createEventFromDav obj calendar
  end.

Definition drop_event (remoteUris : list jsstr) (local : DavEvent) : dav unit :=
  if gone remoteUris (de_davUri local) then modify (set_events (filter (λ r, de_id r ≠ de_id local))) else mret tt.

Definition syncCalendar (calendar : DavCalendar) (defaultDavCalendarId : option Z) : dav unit :=
  if negb (remote_path_ok "calendars"%js (cl_remotePath calendar)) then mret tt
  else match id_or (cl_davCalendarId calendar) defaultDavCalendarId with
       | None | Some 0%Z => mret tt
       | Some davCalendarId =>
           s ← read;
           let objs := filter (λ o, ob_calendarid o = davCalendarId) (davObjects s) in
           _ ← each (visit_object calendar) objs;
           s ← read;
           let localEvents := filter (λ r, de_calendarId r = cl_id calendar) (events s) in
           each (drop_event (map ob_uri objs)) localEvents
       end.

Definition davSyncCalendarsDb : dav unit :=
  s ← read;
  each (λ cal, catch (syncCalendar cal (cl_davCalendarId cal)) (mret tt)) (List.filter cl_isDefault (calendars s)).
End Calendars.
