(* ===== verification/DavSyncSpecs.v ===== *)
(** * The mirrored collections

    After the synchronisation of a calendar or an address book that meets nothing it cannot take,
    the rows follow the objects of the server, nothing else has changed, and a second run does
    nothing.  A calendar that fails does not keep the others from this. *)

From stdpp Require Import base list.
From S2P Require Import Prelude JsString JsRegex JsNumber JsValue DavCard.
From S2P Require Import Proc DavMirror DavSync.

(** ** Calendars *)

Section Calendar.
Context (read_ics : jsstr → option (option IcsEvent)) (dayjs : Z → Z → Z → Z → Z → Z → option Z).
Context (known_zone : jsstr → bool).
Context (insert_ok update_ok : DavEventFields → bool) (new_id : DavStore → jsstr).
Context (new_id_fresh : ∀ s, new_id s ∉ map de_id (events s)).

Abbreviation parse := (parseIcsToEvent read_ics dayjs known_zone).
Abbreviation visit := (visit_object read_ics dayjs known_zone insert_ok update_ok new_id).
Abbreviation sync := (syncCalendar read_ics dayjs known_zone insert_ok update_ok new_id).

Definition of_calendar (cal : DavCalendar) (r : DavEvent) : bool := bool_decide (de_calendarId r = cl_id cal).
Definition objects_of (i : Z) (s : DavStore) : list DavObjectRow := filter (λ o, ob_calendarid o = i) (davObjects s).
Definition obj_etag (o : DavObjectRow) : option jsstr := normalizeEtag (Some (ob_etag o)).

Abbreviation ev_at cal := (at_uri de_davUri (of_calendar cal)).

Lemma local_event_found cal u s : local_event cal u s = found de_davUri (of_calendar cal) u (events s).
Proof. done. Qed.

(** No other calendar of the owner has one of the uris. *)
Definition uris_free (cal : DavCalendar) (objs : list DavObjectRow) (l : list DavEvent) : Prop :=
  ∀ r o, r ∈ l → o ∈ objs → de_ownerId r = cl_ownerId cal → de_davUri r = Some (ob_uri o) → de_calendarId r = cl_id cal.

Definition acceptable (cal : DavCalendar) (o : DavObjectRow) : Prop :=
  ∃ f, parse (ob_data o) (cl_timezone cal) = Some (Some f) ∧ insert_ok f = true ∧ update_ok f = true.

(** The events alone differ. *)
Definition same_dav (s s' : DavStore) : Prop := calendars s' = calendars s ∧ davObjects s' = davObjects s.

#[local] Instance same_dav_preorder : PreOrder same_dav.
Proof. unfold same_dav. split; [done|]. intros s1 s2 s3 [-> ->] [-> ->]. done. Qed.

(** A row after a run is one from before with the same owner, calendar and uri, or it is a new one
    of an object. *)
Definition traced (cal : DavCalendar) (objs : list DavObjectRow) (l l' : list DavEvent) : Prop :=
  ∀ r', r' ∈ l' →
    (∃ r, r ∈ l ∧ de_ownerId r = de_ownerId r' ∧ de_calendarId r = de_calendarId r' ∧ de_davUri r = de_davUri r') ∨
    (de_ownerId r' = cl_ownerId cal ∧ de_calendarId r' = cl_id cal ∧ ∃ o, o ∈ objs ∧ de_davUri r' = Some (ob_uri o)).

Lemma traced_refl cal objs l : traced cal objs l l.
Proof. intros r' Hr'. left. by exists r'. Qed.

Lemma traced_trans cal objs l1 l2 l3 : traced cal objs l1 l2 → traced cal objs l2 l3 → traced cal objs l1 l3.
Proof.
  intros H1 H2 r' Hr'. destruct (H2 r' Hr') as [(r & Hr & Eo & Ec & Eu)|Hn]; [|by right].
  destruct (H1 r Hr) as [(q & Hq & Fo & Fc & Fu)|(Fo & Fc & o & Ho & Fu)].
  - left. exists q. by rewrite Fo, Fc, Fu.
  - right. rewrite <- Eo, <- Ec, <- Eu. eauto.
Qed.

Lemma traced_free cal cal' objs objs' l l' :
  traced cal' objs' l l' →
  (cl_id cal' ≠ cl_id cal → cl_ownerId cal' = cl_ownerId cal → ∀ o o', o ∈ objs → o' ∈ objs' → ob_uri o ≠ ob_uri o') →
  uris_free cal objs l → uris_free cal objs l'.
Proof.
  intros Ht Hd Hf r' o Hr' Ho Eo Eu. destruct (Ht r' Hr') as [(r & Hr & Fo & Fc & Fu)|(Fo & Fc & o' & Ho' & Fu)].
  - rewrite <- Fc. apply (Hf r o); congruence.
  - destruct (decide (cl_id cal' = cl_id cal)) as [E|E]; [congruence|]. exfalso.
    apply (Hd E) with (o := o) (o' := o'); [congruence|done|done|congruence].
Qed.

(** What a run for [cal] may do to the store, also when it fails. *)
Record within (cal : DavCalendar) (objs : list DavObjectRow) (s s' : DavStore) : Prop := {
  wi_dav : same_dav s s';
  wi_ids : NoDup (map de_id (events s)) → NoDup (map de_id (events s'));
  wi_kept : NoDup (map de_id (events s)) → ∀ P : DavEvent → bool,
    (∀ r, P r = true → de_calendarId r ≠ cl_id cal) → List.filter P (events s') = List.filter P (events s);
  wi_traced : NoDup (map de_id (events s)) → traced cal objs (events s) (events s');
}.

#[local] Instance within_preorder cal objs : PreOrder (within cal objs).
Proof.
  split.
  - intros s. split; [reflexivity|done|done|intros; apply traced_refl].
  - intros s1 s2 s3 [A1 A2 A3 A4] [B1 B2 B3 B4]. split; [by etrans|by auto| |].
    + intros Hid P HP. rewrite (B3 (A2 Hid) P HP). by apply A3.
    + intros Hid. eapply traced_trans; eauto.
Qed.

(** The row a new object gets. *)
Definition new_event (cal : DavCalendar) (o : DavObjectRow) (f : DavEventFields) (s : DavStore) : DavEvent :=
  {| de_id := new_id s; de_ownerId := cl_ownerId cal; de_calendarId := cl_id cal; de_davUri := Some (ob_uri o);
     de_davEtag := obj_etag o; de_rawIcs := Some (ob_data o); de_fields := f |}.

Lemma visit_object_run cal o s :
  visit cal o s =
  match found de_davUri (of_calendar cal) (ob_uri o) (events s) with
  | Some r =>
      if bool_decide (obj_etag o = de_davEtag r) then (s, Done tt)
      else match parse (ob_data o) (cl_timezone cal) with
           | None => (s, Threw)
           | Some None => (s, Done tt)
           | Some (Some f) =>
               if update_ok f then (set_events (put de_id (de_id r) (with_object o f)) s, Done tt) else (s, Done tt)
           end
  | None =>
      match parse (ob_data o) (cl_timezone cal) with
      | None => (s, Threw)
      | Some None => (s, Done tt)
      | Some (Some f) =>
          if insert_ok f && negb (event_conflict (new_event cal o f s) (events s))
          then (set_events (λ l, l ++ [new_event cal o f s]) s, Done tt) else (s, Done tt)
      end
  end.
Proof.
  unfold visit_object. unfold mbind at 1, proc_bind at 1, read. rewrite local_event_found.
  destruct (found _ _ _ _) as [r|].
  - unfold obj_etag. case_bool_decide; [done|]. unfold updateEventFromDav, mbind, proc_bind.
    destruct (parse _ _) as [[f|]|]; simpl; [|done..]. by destruct (update_ok f).
  - unfold createEventFromDav, mbind, proc_bind. destruct (parse _ _) as [[f|]|]; simpl; [|done..].
    destruct (insert_ok f); simpl; [|done]. unfold new_event, obj_etag. by destruct (event_conflict _ _).
Qed.

Lemma at_calendar cal u r : ev_at cal u r = true ↔ de_calendarId r = cl_id cal ∧ de_davUri r = Some u.
Proof. unfold at_uri, of_calendar. by rewrite andb_true_iff, !bool_decide_eq_true. Qed.

Lemma visit_object_within cal objs o : o ∈ objs → steps (within cal objs) (visit cal o).
Proof.
  intros Ho s. rewrite visit_object_run. destruct (found _ _ _ _) as [r|] eqn:Hr.
  - case_bool_decide; [reflexivity|]. destruct (parse _ _) as [[f|]|]; [|reflexivity..].
    destruct (update_ok f); [|reflexivity]. apply found_Some in Hr as [Hin [Hc Hu]%at_calendar].
    assert (NoDup (map de_id (events s)) → ∀ q, q ∈ events s → de_id q = de_id r → q = r) as Hone
      by (intros; by eapply unique_row).
    split; [done| | |]; cbn [fst events set_events].
    + by rewrite (put_ids de_id (de_id r)).
    + intros Hid P HP. apply (put_filter de_id). intros q Hq E. rewrite (Hone Hid q Hq E).
      split; apply not_true_is_false; intros HT%HP; by apply HT.
    + intros Hid q (q0 & -> & Hq0)%list_elem_of_fmap. left. exists q0. split; [done|].
      case_bool_decide as E; [|done]. by rewrite (Hone Hid q0 Hq0 E).
  - destruct (parse _ _) as [[f|]|]; [|reflexivity..]. destruct (insert_ok f && _); [|reflexivity].
    split; [done| | |]; cbn [fst events set_events].
    + intros Hid. rewrite map_app. apply NoDup_app. split; [done|]. split; [|apply NoDup_singleton].
      pose proof (new_id_fresh s). set_solver.
    + intros _ P HP. rewrite List.filter_app. simpl. destruct (P _) eqn:HT; [|by rewrite app_nil_r].
      by apply HP in HT.
    + intros _ q [Hq | ->%list_elem_of_singleton]%elem_of_app; [left; by exists q|]. right.
      split; [done|]. split; [done|]. by exists o.
Qed.
Lemma no_conflict cal objs o f s :
  o ∈ objs → uris_free cal objs (events s) → found de_davUri (of_calendar cal) (ob_uri o) (events s) = None →
  event_conflict (new_event cal o f s) (events s) = false.
Proof.
  intros Ho Hf Hn. unfold event_conflict. apply not_true_is_false. intros (r & Hr & HT)%existsb_exists.
  apply list_elem_of_In in Hr. revert HT. simpl.
  intros [E1%bool_decide_eq_true E2%bool_decide_eq_true]%andb_prop.
  apply (not_true_iff_false (ev_at cal (ob_uri o) r)); [by eapply found_None|]. apply at_calendar.
  split; [by apply (Hf r o)|done].
Qed.

Lemma visit_object_tracks cal objs o s :
  o ∈ objs → acceptable cal o → uris_free cal objs (events s) → NoDup (map de_id (events s)) →
  ∃ s', visit cal o s = (s', Done tt) ∧
    tracks de_id de_davUri de_davEtag (of_calendar cal) (ob_uri o) (obj_etag o) (events s) (events s').
Proof.
  intros Ho (f & Hp & Hi & Hu) Hf Hid. rewrite visit_object_run, Hp. destruct (found _ _ _ _) as [r|] eqn:Hr.
  - case_bool_decide as E.
    + exists s. split; [done|]. rewrite E. by apply tracks_same.
    + rewrite Hu. eexists. split; [done|]. apply (tracks_put de_id de_davUri de_davEtag _ _ _ r (with_object o f)); [done| |done|done].
      apply at_calendar. split; [|done]. by apply found_Some in Hr as [_ [Hc _]%at_calendar].
  - rewrite Hi, (no_conflict cal objs) by done. simpl. eexists. split; [done|].
    apply (tracks_add de_id de_davUri de_davEtag _ _ _ (new_event cal o f s)); [done| |apply new_id_fresh|done].
    by apply at_calendar.
Qed.

(** The zones are only to show the instants in: those of a calendar and of the event make no
    difference. *)
Lemma parse_ignores_zone ics z z' : (∀ z, known_zone z = true) → parse ics z = parse ics z'.
Proof.
  intros Hz. unfold parseIcsToEvent, times_of, instant_of, getDayjsTz. destruct (read_ics ics) as [[ev|]|]; [|done..]. simpl.
  destruct (ie_startDate ev), (ie_endDate ev); [|done..]. by rewrite !Hz, andb_false_r.
Qed.

(** An object is no date for [dayjs] unless its plugin [objectSupport] is loaded; with schemas that
    refuse invalid dates, events of whole days and without a zone are never stored. *)
Lemma whole_days_are_lost cal o ev t t' s :
  (∀ y m d h mi sec, dayjs y m d h mi sec = None) →
  (∀ f, df_startsAt f = None → insert_ok f = false ∧ update_ok f = false) →
  read_ics (ob_data o) = Some (Some ev) → ie_startDate ev = Some t → ie_endDate ev = Some t' →
  it_isDate t || isFloating t = true → visit cal o s = (s, Done tt).
Proof.
  intros Hd Hf Hr Hs He Ht. rewrite visit_object_run. unfold parseIcsToEvent. rewrite Hr. simpl. rewrite Hs, He.
  unfold times_of, instant_of, getDayjsTz. rewrite Ht. destruct (it_isDate t); rewrite !Hd; simpl;
    (destruct (found _ _ _ _); [case_bool_decide; [done|]|]);
    match goal with |- context [update_ok ?f] => destruct (Hf f) as [_ ->] | |- context [insert_ok ?f] => destruct (Hf f) as [-> _] end;
    done.
Qed.

(** ** One calendar *)

(** The collection of the server that is synchronised, if there is one. *)
Definition target (cal : DavCalendar) (defaultId : option Z) : option Z :=
  if remote_path_ok "calendars"%js (cl_remotePath cal) then
    match id_or (cl_davCalendarId cal) defaultId with None | Some 0%Z => None | Some i => Some i end
  else None.

(** Every object can be read and none has the uri of another object or of another calendar. *)
Record ready (cal : DavCalendar) (i : Z) (s : DavStore) : Prop := {
  rd_ids : NoDup (map de_id (events s));
  rd_uris : NoDup (map ob_uri (objects_of i s));
  rd_accept : ∀ o, o ∈ objects_of i s → acceptable cal o;
  rd_free : uris_free cal (objects_of i s) (events s);
}.

(** The rows of the calendar follow the objects, and none is left of an object that is gone. *)
Definition synced (cal : DavCalendar) (objs : list DavObjectRow) (s : DavStore) : Prop :=
  mirrors de_davUri de_davEtag (of_calendar cal) ob_uri obj_etag objs (events s) ∧
  ∀ r, r ∈ events s → of_calendar cal r = true → gone (map ob_uri objs) (de_davUri r) = false.

(** The other rows, and those that were made here, are as before. *)
Definition untouched (cal : DavCalendar) (s s' : DavStore) : Prop :=
  ∀ P : DavEvent → bool, (∀ r, P r = true → of_calendar cal r = false ∨ de_davUri r = None) →
    List.filter P (events s') = List.filter P (events s).

Lemma drop_event_run uris x s :
  ∃ s', drop_event uris x s = (s', Done tt) ∧ same_dav s s' ∧
    events s' = List.filter (λ r, negb (gone uris (de_davUri x) && bool_decide (de_id x = de_id r))) (events s).
Proof.
  unfold drop_event. destruct (gone _ _); simpl.
  - eexists. split; [done|]. split; [done|]. simpl. rewrite list_filter_bool. apply filter_ext. intros r.
    case_bool_decide; case_bool_decide; done || congruence.
  - exists s. split; [done|]. split; [done|]. by rewrite filter_true_id.
Qed.
Lemma drop_events_run cal uris s :
  NoDup (map de_id (events s)) →
  ∃ s', each (drop_event uris) (filter (λ r, de_calendarId r = cl_id cal) (events s)) s = (s', Done tt) ∧ same_dav s s' ∧
    events s' = List.filter (λ r, negb (of_calendar cal r && gone uris (de_davUri r))) (events s).
Proof.
  intros Hid. rewrite list_filter_bool.
  destruct (each_dropped de_id events (λ x, gone uris (de_davUri x)) (drop_event uris)) with
    (locals := List.filter (of_calendar cal) (events s)) (s := s) as (s' & E & H).
  { intros x q. destruct (drop_event_run uris x q) as (q' & Eq & _ & Hq). eauto. }
  exists s'. split; [exact E|]. split.
  - change s' with (s', @Done unit tt).1. rewrite <- E. apply (steps_each same_dav). intros x _ q.
    destruct (drop_event_run uris x q) as (q' & Eq & Hd & _). by rewrite Eq.
  - rewrite H. apply List.filter_ext_in. intros r Hr. f_equal. by apply (doomed_unique de_id (λ x, gone uris (de_davUri x))), list_elem_of_In.
Qed.

Lemma syncCalendar_unfold cal d i s :
  target cal d = Some i →
  sync cal d s =
    (_ ← each (visit cal) (objects_of i s);
     s1 ← read;
     each (drop_event (map ob_uri (objects_of i s))) (filter (λ r, de_calendarId r = cl_id cal) (events s1))) s.
Proof.
  unfold target, syncCalendar. destruct (remote_path_ok _ _); [|done]. simpl.
  by destruct (id_or _ _) as [[|q|q]|]; try done; intros [= <-].
Qed.

Lemma syncCalendar_run cal d i s :
  target cal d = Some i → ready cal i s →
  ∃ s', sync cal d s = (s', Done tt) ∧ synced cal (objects_of i s) s' ∧ untouched cal s s' ∧ same_dav s s' ∧
    NoDup (map de_id (events s')).
Proof.
  intros Ht Hr. pose proof Hr as [Hid Hnd Hacc Hfree]. rewrite (syncCalendar_unfold _ _ _ _ Ht).
  set (objs := objects_of i s) in *.
  destruct (each_visited de_id de_davUri de_davEtag (of_calendar cal) ob_uri obj_etag events (visit cal)
    (λ q, uris_free cal objs (events q) ∧ same_dav s q) objs s) as (s1 & E1 & Hm & Hk & Hid1 & Hf1 & Hd1); [done| |done..|].
  { intros o q Ho [Hf Hd] Hq. destruct (visit_object_tracks cal objs o q) as (q' & E & HT); [auto..|].
    exists q'. split; [done|]. split; [done|].
    pose proof (visit_object_within cal objs o Ho q) as W. rewrite E in W. destruct W as [Wd _ _ Wt].
    split; [by eapply traced_free; [apply Wt| |done]|by etrans]. }
  destruct (drop_events_run cal (map ob_uri objs) s1 Hid1) as (s2 & E2 & Hd2 & H2).
  exists s2. split; [rewrite (bind_run _ _ _ _ _ E1); exact E2|]. rewrite !H2. split; [|split; [|split]].
  - split.
    + rewrite H2. apply mirrors_kept; [|done]. intros r o Ho [_ ->]%at_calendar. apply negb_true_iff.
      apply andb_false_intro2. simpl. rewrite bool_decide_true by by apply list_elem_of_fmap_2. apply andb_false_r.
    + intros r. rewrite H2, list_elem_of_In, filter_In. intros [_ Hn] Hc. rewrite Hc in Hn. by apply negb_true_iff in Hn.
  - intros P HP. rewrite H2, filter_andb. rewrite <- (Hk P).
    + apply filter_ext. intros r. destruct (P r) eqn:E; [|by rewrite andb_false_r]. rewrite andb_true_r.
      by destruct (HP r E) as [-> | ->]; rewrite ?andb_false_r.
    + intros r o Hp _. apply not_true_is_false. rewrite at_calendar. intros [Hc Hu].
      destruct (HP r Hp) as [H%bool_decide_eq_false|H]; congruence.
  - by etrans.
  - by apply ids_filter.
Qed.
Lemma each_idle {A} (f : A → prog DavStore unit) l s : (∀ x, x ∈ l → f x s = (s, Done tt)) → each f l s = (s, Done tt).
Proof.
  induction l as [|x l IH]; intros Hf; [done|]. cbn [each]. rewrite (bind_run _ _ s s tt) by (apply Hf; by left).
  apply IH. intros y Hy. apply Hf. by right.
Qed.

Lemma syncCalendar_idle cal d i s :
  target cal d = Some i → synced cal (objects_of i s) s → sync cal d s = (s, Done tt).
Proof.
  intros Ht [Hm Hg]. rewrite (syncCalendar_unfold _ _ _ _ Ht). erewrite bind_run; [|apply each_idle].
  - apply each_idle. intros r [Hc Hr]%list_elem_of_filter. unfold drop_event. rewrite Hg; [done|done|].
    by apply bool_decide_eq_true.
  - intros o Ho. rewrite visit_object_run. destruct (Hm o Ho) as (r & -> & ->). by rewrite bool_decide_true.
Qed.

(** C12: A calendar whose objects can all be read, with uris of their own, is synchronised to the
    end: every object has a row with its uri and its etag, rows of objects that are gone are
    deleted, and the rows of other calendars and those made here are left as they are.  A second
    run changes nothing. *)
Theorem syncCalendar_mirrors cal d i s :
  target cal d = Some i → ready cal i s →
  ∃ s', sync cal d s = (s', Done tt) ∧ synced cal (objects_of i s) s' ∧ untouched cal s s' ∧
    sync cal d s' = (s', Done tt).
Proof.
  intros Ht Hr. destruct (syncCalendar_run cal d i s Ht Hr) as (s' & E & Hs & Hu & [_ Hd] & _).
  exists s'. split; [done|]. split; [done|]. split; [done|]. apply (syncCalendar_idle _ _ i); [done|].
  unfold objects_of. by rewrite Hd.
Qed.

(** ** All calendars *)

Definition target_objects (cal : DavCalendar) (d : option Z) (s : DavStore) : list DavObjectRow :=
  match target cal d with Some i => objects_of i s | None => [] end.

Lemma within_drops cal objs uris s s' :
  same_dav s s' → events s' = List.filter (λ r, negb (of_calendar cal r && gone uris (de_davUri r))) (events s) →
  within cal objs s s'.
Proof.
  intros Hd He. split; [done| | |]; rewrite He.
  - apply ids_filter.
  - intros _ P HP. rewrite filter_andb. apply filter_ext. intros r. destruct (P r) eqn:E; [|by rewrite andb_false_r].
    unfold of_calendar. by rewrite bool_decide_false by by apply HP.
  - intros _ r [Hr _]%list_elem_of_In%filter_In. left. exists r. by apply list_elem_of_In in Hr.
Qed.

Lemma syncCalendar_within cal d s :
  NoDup (map de_id (events s)) → within cal (target_objects cal d s) s (sync cal d s).1.
Proof.
  intros Hid. unfold target_objects. destruct (target cal d) as [i|] eqn:Ht.
  - rewrite (syncCalendar_unfold _ _ _ _ Ht).
    pose proof (steps_each _ (visit cal) (objects_of i s) (λ o, visit_object_within cal _ o) s) as W.
    unfold mbind, proc_bind. destruct (each (visit cal) _ s) as [s1 [u|]]; [|done]. simpl in W.
    etrans; [exact W|]. destruct (drop_events_run cal (map ob_uri (objects_of i s)) s1) as (s2 & E & Hd & H2).
    { by apply W. }
    unfold read. rewrite E. by eapply within_drops.
  - unfold target, syncCalendar in *. destruct (remote_path_ok _ _); [|reflexivity]. simpl.
    destruct (id_or _ _) as [[|?|?]|]; [reflexivity|done..|reflexivity].
Qed.
(** What the runs for other calendars leave of this one, as long as the objects are [objs0]. *)
Record leaves (cal : DavCalendar) (objs : list DavObjectRow) (s s' : DavStore) : Prop := {
  le_dav : same_dav s s';
  le_ids : NoDup (map de_id (events s)) → NoDup (map de_id (events s'));
  le_rows : NoDup (map de_id (events s)) →
    List.filter (of_calendar cal) (events s') = List.filter (of_calendar cal) (events s);
  le_free : NoDup (map de_id (events s)) → uris_free cal objs (events s) → uris_free cal objs (events s');
}.

#[local] Instance leaves_preorder cal objs : PreOrder (leaves cal objs).
Proof.
  split; [by split|]. intros s1 s2 s3 [A1 A2 A3 A4] [B1 B2 B3 B4].
  split; [by etrans|by auto| |by auto]. intros H. rewrite B3 by auto. by apply A3.
Qed.

(** Calendars of one owner have objects of different uris. *)
Definition disjoint_uris (cal cal' : DavCalendar) (s : DavStore) : Prop :=
  cl_ownerId cal' = cl_ownerId cal → ∀ o o', o ∈ target_objects cal (cl_davCalendarId cal) s →
    o' ∈ target_objects cal' (cl_davCalendarId cal') s → ob_uri o ≠ ob_uri o'.

Definition sync_one (cal : DavCalendar) : prog DavStore unit := catch (sync cal (cl_davCalendarId cal)) (mret tt).

Lemma target_objects_same cal d s s' : same_dav s s' → target_objects cal d s' = target_objects cal d s.
Proof. intros [_ Hd]. unfold target_objects, objects_of. by rewrite Hd. Qed.

Lemma sync_one_leaves cal cal' s :
  cl_id cal' ≠ cl_id cal → disjoint_uris cal cal' s → NoDup (map de_id (events s)) →
  leaves cal (target_objects cal (cl_davCalendarId cal) s) s (sync_one cal' s).1.
Proof.
  intros Hne Hdis Hid. pose proof (syncCalendar_within cal' (cl_davCalendarId cal') s Hid) as [W1 W2 W3 W4].
  assert ((sync_one cal' s).1 = (sync cal' (cl_davCalendarId cal') s).1) as ->
    by (unfold sync_one, catch; by destruct (sync cal' _ s) as [? [?|]]).
  split; [done|done| |].
  - intros _. apply (W3 Hid). intros r Hr%bool_decide_eq_true. congruence.
  - intros _. eapply traced_free; [by apply W4|]. intros _ Ho. by apply Hdis.
Qed.

Lemma sync_others_leave cal cals s :
  (∀ cal', cal' ∈ cals → cl_id cal' ≠ cl_id cal ∧ disjoint_uris cal cal' s) → NoDup (map de_id (events s)) →
  ∃ s', each sync_one cals s = (s', Done tt) ∧ leaves cal (target_objects cal (cl_davCalendarId cal) s) s s'.
Proof.
  revert s. induction cals as [|c cals IH]; intros s Hc Hid; [by exists s|]. cbn [each].
  destruct (Hc c) as [Hne Hdis]; [by left|]. pose proof (sync_one_leaves cal c s Hne Hdis Hid) as L.
  assert (∃ s1, sync_one c s = (s1, Done tt)) as [s1 E1].
  { unfold sync_one, catch. destruct (sync c _ s) as [q [[]|]]; by eexists. }
  rewrite E1 in L. simpl in L. rewrite (bind_run _ _ _ _ _ E1). pose proof L as [L1 L2 _ _].
  pose proof (target_objects_same cal (cl_davCalendarId cal) _ _ L1) as E.
  destruct (IH s1) as (s2 & E2 & M).
  - intros c' Hc'. destruct (Hc c') as [Hne' Hdis']; [by right|]. split; [done|]. unfold disjoint_uris.
    by rewrite E, (target_objects_same c' _ _ _ L1).
  - by apply L2.
  - exists s2. split; [exact E2|]. rewrite E in M. by etrans.
Qed.

Lemma synced_rows cal objs s s' :
  List.filter (of_calendar cal) (events s') = List.filter (of_calendar cal) (events s) →
  synced cal objs s → synced cal objs s'.
Proof.
  intros E [Hm Hg]. split.
  - intros o Ho. destruct (Hm o Ho) as (r & Hr & He). exists r. split; [|done]. rewrite <- Hr, !found_filter.
    rewrite <- (filter_implied (ev_at cal (ob_uri o)) (of_calendar cal) (events s)) by by intros q [? _]%andb_prop.
    rewrite <- (filter_implied (ev_at cal (ob_uri o)) (of_calendar cal) (events s')) by by intros q [? _]%andb_prop.
    by rewrite E.
  - intros r Hr Hc. apply Hg; [|done].
    assert (In r (List.filter (of_calendar cal) (events s'))) as H by by apply filter_In; rewrite <- list_elem_of_In.
    rewrite E in H. by apply filter_In in H as [?%list_elem_of_In _].
Qed.

Lemma other_calendar cal c l1 l2 :
  NoDup (map cl_id (l1 ++ cal :: l2)) → c ∈ l1 ∨ c ∈ l2 → cl_id c ≠ cl_id cal ∧ c ∈ l1 ++ cal :: l2.
Proof.
  rewrite map_app. cbn [map]. intros (_ & Hd & [Hn _]%NoDup_cons)%NoDup_app Hc. split; [|set_solver].
  intros E. destruct Hc as [Hc | Hc]; apply (list_elem_of_fmap_2 cl_id) in Hc; rewrite E in Hc.
  - apply (Hd _ Hc). by left.
  - done.
Qed.

(** C14: Calendars do not get in each other's way: a default calendar whose objects can be read and
    have uris of their own follows the server after the run over all calendars, whatever the
    others hold and also when their synchronisation fails; the run itself does not fail. *)
Theorem davSyncCalendarsDb_mirrors cal i s :
  cal ∈ calendars s → cl_isDefault cal = true → NoDup (map cl_id (calendars s)) →
  target cal (cl_davCalendarId cal) = Some i → ready cal i s →
  (∀ cal', cal' ∈ calendars s → cal' ≠ cal → disjoint_uris cal cal' s) →
  ∃ s', davSyncCalendarsDb read_ics dayjs known_zone insert_ok update_ok new_id s = (s', Done tt) ∧
    synced cal (objects_of i s) s'.
Proof.
  intros Hin Hdef Hnd Ht Hr Hdis. unfold davSyncCalendarsDb. unfold mbind at 1, proc_bind at 1, read.
  assert (In cal (List.filter cl_isDefault (calendars s))) as Hf by by apply filter_In; rewrite <- list_elem_of_In.
  apply in_split in Hf as (l1 & l2 & Hl). rewrite Hl.
  assert (NoDup (map cl_id (l1 ++ cal :: l2))) as Hnd' by (rewrite <- Hl; by apply (ids_filter cl_id)).
  assert (∀ c, c ∈ l1 ∨ c ∈ l2 → cl_id c ≠ cl_id cal ∧ disjoint_uris cal c s) as Hoth.
  { intros c Hc. destruct (other_calendar cal c l1 l2 Hnd' Hc) as [Hne Hc']. split; [done|]. apply Hdis; [|congruence].
    rewrite <- Hl in Hc'. by apply list_elem_of_In, filter_In in Hc' as [?%list_elem_of_In _]. }
  pose proof (rd_ids _ _ _ Hr) as Hid.
  assert (target_objects cal (cl_davCalendarId cal) s = objects_of i s) as Hobj by (unfold target_objects; by rewrite Ht).
  destruct (sync_others_leave cal l1 s) as (s1 & E1 & L1); [by auto|done|]. rewrite Hobj in L1.
  destruct L1 as [Hd1 Hi1 _ Hf1]. pose proof Hd1 as [_ Ho1].
  destruct (syncCalendar_run cal (cl_davCalendarId cal) i s1 Ht) as (s2 & E2 & Hs2 & _ & Hd2 & Hid2).
  { unfold objects_of in *. destruct Hr as [_ R2 R3 R4]. split; unfold objects_of; rewrite ?Ho1; auto. }
  destruct (sync_others_leave cal l2 s2) as (s3 & E3 & L3); [|done|].
  { intros c Hc. destruct (Hoth c) as [Hne Hdc]; [by right|]. split; [done|]. unfold disjoint_uris.
    assert (same_dav s s2) as Hd by by etrans.
    by rewrite (target_objects_same cal _ _ _ Hd), (target_objects_same c _ _ _ Hd). }
  exists s3. split.
  - change (each sync_one (l1 ++ cal :: l2) s = (s3, Done tt)). rewrite (each_app_run _ _ _ _ _ E1). cbn [each].
    rewrite (bind_run _ _ _ s2 tt) by (unfold sync_one, catch; by rewrite E2). done.
  - eapply synced_rows; [by apply L3|]. unfold objects_of in *. by rewrite <- Ho1.
Qed.
End Calendar.

(** ** Address books *)

Section Book.
Context (mimeLookup mimeExtension : jsstr → option jsstr) (vcf_parse : jsstr → option (list JProp)).
Context (new_id nanoid : DavStore → jsstr) (fetch_ok : jsstr → option bool) (upload_ok : list jsstr → jsstr → bool).
Context (new_contact_fresh : ∀ s, new_id s ∉ map dc_id (contacts s)).
Context (nanoid_fresh : ∀ s r, r ∈ contacts s → dc_publicId r ≠ nanoid s).

Abbreviation read_card := (parseVCardToContact mimeLookup mimeExtension vcf_parse).
Abbreviation parse_photo := (davParsePhoto nanoid fetch_ok upload_ok).
Abbreviation visit := (visit_card mimeLookup mimeExtension vcf_parse new_id nanoid fetch_ok upload_ok).
Abbreviation sync := (syncBook mimeLookup mimeExtension vcf_parse new_id nanoid fetch_ok upload_ok).

(** Contacts are looked up by the owner, and deleted by the book. *)
Definition of_owner (book : AddressBook) (r : DavContact) : bool := bool_decide (dc_ownerId r = bk_ownerId book).
Definition in_book (book : AddressBook) (r : DavContact) : bool :=
  bool_decide (dc_addressBookId r = Some (bk_id book)).
Definition cards_of (i : Z) (s : DavStore) : list DavCardRow := filter (λ c, cd_addressbookid c = i) (davCards s).
Definition card_etag (c : DavCardRow) : option jsstr := normalizeEtag (cd_etag c).

(** The picture is in the card, or its address answers. *)
Definition photo_answers (photo : option ParsedPhoto) : Prop :=
  match photo with
  | Some p => opt_truthy (ph_base64 p) = true ∨ ∀ u, ph_url p = Some u → fetch_ok u ≠ None
  | None => True
  end.

Definition card_acceptable (c : DavCardRow) : Prop :=
  ∃ f photo, read_card (cd_data c) = Some (f, photo) ∧ photo_answers photo.

Definition same_cards (s s' : DavStore) : Prop := contacts s' = contacts s ∧ davCards s' = davCards s.

Lemma upload_run path s : ∃ s' r, upload upload_ok path s = (s', Done r) ∧ same_cards s s'.
Proof.
  unfold upload, mbind, proc_bind, read. destruct (upload_ok _ _); simpl; do 2 eexists; split; done.
Qed.

Lemma davParsePhoto_run photo o p s :
  photo_answers photo → ∃ s' r, parse_photo photo o p s = (s', Done r) ∧ same_cards s s'.
Proof.
  destruct photo as [q|]; [|by intros; do 2 eexists]. intros Hp. unfold davParsePhoto.
  set (main := (if opt_truthy (ph_base64 q) then _ else _) : prog DavStore bool).
  assert (∃ b, main s = (s, Done b)) as [b Hb].
  { unfold main. destruct (opt_truthy _) eqn:E; [by eexists|]. destruct (ph_url q) as [u|] eqn:Eu; [|by eexists].
    destruct (truthy u); [|by eexists]. destruct Hp as [Hp|Hp]; [simpl in Hp; congruence|].
    specialize (Hp u Eu). destruct (fetch_ok u) as [b|]; [by exists b|done]. }
  unfold mbind at 1, proc_bind at 1, read. rewrite (bind_run main _ s s b Hb).
  destruct b; [|by do 2 eexists].
  set (base := "private/"%js ++ o ++ "/contacts/"%js ++ p ++ "/"%js).
  destruct (upload_run (base ++ nanoid s ++ "."%js ++ ph_ext q) s) as (s1 & r1 & E1 & A1 & B1).
  destruct (upload_run (base ++ nanoid s ++ "_xs."%js ++ ph_ext q) s1) as (s2 & r2 & E2 & A2 & B2).
  exists s2, (Some (r1, r2)). split; [|split; congruence].
  by rewrite (bind_run _ _ _ _ _ E1), (bind_run _ _ _ _ _ E2).
Qed.

Lemma at_owner book u r :
  at_uri dc_davUri (of_owner book) u r = true ↔ dc_ownerId r = bk_ownerId book ∧ dc_davUri r = Some u.
Proof. unfold at_uri, of_owner. by rewrite andb_true_iff, !bool_decide_eq_true. Qed.

Lemma visit_card_tracks book c s :
  card_acceptable c → NoDup (map dc_id (contacts s)) →
  ∃ s', visit book c s = (s', Done tt) ∧
    tracks dc_id dc_davUri dc_davEtag (of_owner book) (cd_uri c) (card_etag c) (contacts s) (contacts s') ∧
    davCards s' = davCards s.
Proof.
  intros (f & photo & Hp & Hph) Hid. unfold visit_card. unfold mbind at 1, proc_bind at 1, read.
  change (local_contact book (cd_uri c) s) with (found dc_davUri (of_owner book) (cd_uri c) (contacts s)).
  destruct (found _ _ _ _) as [r|] eqn:Hr.
  - case_bool_decide as E.
    + exists s. split; [done|]. unfold card_etag. rewrite E. split; [by apply tracks_same|done].
    + unfold updateContact. rewrite Hp.
      destruct (davParsePhoto_run photo (bk_ownerId book) (dc_publicId r) s Hph) as (s1 & pics & E1 & H1 & H2).
      eexists. split; [|split].
      * cbn [or_throw]. unfold mbind at 1, proc_bind at 1, mret, proc_ret. by rewrite (bind_run _ _ _ _ _ E1).
      * simpl. rewrite H1.
        apply (tracks_put dc_id dc_davUri dc_davEtag _ _ _ r (with_card c book f pics)); [done| |done|done].
        by apply at_owner.
      * done.
  - unfold createContact. rewrite Hp.
    destruct (davParsePhoto_run photo (bk_ownerId book) (nanoid s) s Hph) as (s1 & pics & E1 & H1 & H2).
    set (row := {| dc_id := new_id s1; dc_ownerId := bk_ownerId book; dc_publicId := nanoid s;
                dc_addressBookId := Some (bk_id book); dc_davUri := Some (cd_uri c);
                dc_davEtag := normalizeEtag (cd_etag c); dc_profilePicture := pics ≫= fst;
                dc_profilePictureXs := pics ≫= snd; dc_fields := f |}).
    assert (contact_conflict row (contacts s1) = false) as Hc.
    { rewrite H1. apply not_true_is_false. intros (q & Hq & HT)%existsb_exists. apply list_elem_of_In in Hq.
      revert HT. simpl. intros [Ho%bool_decide_eq_true [HT | HT]%orb_prop]%andb_prop.
      - apply bool_decide_eq_true in HT. by apply (nanoid_fresh s q).
      - apply bool_decide_eq_true in HT. apply (found_None _ _ _ _ _ Hr), not_true_iff_false in Hq.
        apply Hq. by apply at_owner. }
    exists (set_contacts (λ l, l ++ [row]) s1). split; [|split].
    + cbn [or_throw]. unfold mbind at 1, proc_bind at 1, mret, proc_ret.
      unfold mbind at 1, proc_bind at 1, read. rewrite (bind_run _ _ _ _ _ E1).
      unfold mbind at 1, proc_bind at 1. fold row. by rewrite Hc.
    + simpl. rewrite H1. apply (tracks_add dc_id dc_davUri dc_davEtag _ _ _ row); [done|by apply at_owner| |done].
      rewrite <- H1. apply new_contact_fresh.
    + done.
Qed.
Definition target_book (book : AddressBook) (defaultId : option Z) : option Z :=
  if remote_path_ok "addressbooks"%js (bk_remotePath book) then
    match id_or (bk_davAddressBookId book) defaultId with None | Some 0%Z => None | Some i => Some i end
  else None.

Lemma syncBook_unfold book d i s :
  target_book book d = Some i →
  sync book d s =
    (_ ← each (visit book) (cards_of i s);
     s1 ← read;
     each (drop_contact (map cd_uri (cards_of i s)))
       (filter (λ r, dc_addressBookId r = Some (bk_id book)) (contacts s1))) s.
Proof.
  unfold target_book, syncBook. destruct (remote_path_ok _ _); [|done]. simpl.
  by destruct (id_or _ _) as [[|q|q]|]; try done; intros [= <-].
Qed.

Lemma drop_contact_run uris x s :
  ∃ s', drop_contact uris x s = (s', Done tt) ∧ davCards s' = davCards s ∧
    contacts s' = List.filter (λ r, negb (gone uris (dc_davUri x) && bool_decide (dc_id x = dc_id r))) (contacts s).
Proof.
  unfold drop_contact. destruct (gone _ _); simpl.
  - eexists. split; [done|]. split; [done|]. simpl. rewrite list_filter_bool. apply filter_ext. intros r.
    case_bool_decide; case_bool_decide; done || congruence.
  - exists s. split; [done|]. split; [done|]. by rewrite filter_true_id.
Qed.

Lemma drop_contacts_run book uris s :
  NoDup (map dc_id (contacts s)) →
  ∃ s', each (drop_contact uris) (filter (λ r, dc_addressBookId r = Some (bk_id book)) (contacts s)) s = (s', Done tt) ∧
    davCards s' = davCards s ∧
    contacts s' = List.filter (λ r, negb (in_book book r && gone uris (dc_davUri r))) (contacts s).
Proof.
  intros Hid. rewrite list_filter_bool.
  destruct (each_dropped dc_id contacts (λ x, gone uris (dc_davUri x)) (drop_contact uris)) with
    (locals := List.filter (in_book book) (contacts s)) (s := s) as (s' & E & H).
  { intros x q. destruct (drop_contact_run uris x q) as (q' & Eq & _ & Hq). eauto. }
  exists s'. split; [exact E|]. split.
  - change s' with (s', @Done unit tt).1. rewrite <- E.
    apply (steps_each (preserving (λ q, davCards q = davCards s))); [|done]. intros x _ q Hq.
    destruct (drop_contact_run uris x q) as (q' & -> & Hd & _). by rewrite <- Hq.
  - rewrite H. apply List.filter_ext_in. intros r Hr. f_equal.
    by apply (doomed_unique dc_id (λ x, gone uris (dc_davUri x))), list_elem_of_In.
Qed.

(** The contacts follow the cards, and none of the book is left of a card that is gone. *)
Definition book_synced (book : AddressBook) (cards : list DavCardRow) (s : DavStore) : Prop :=
  mirrors dc_davUri dc_davEtag (of_owner book) cd_uri card_etag cards (contacts s) ∧
  ∀ r, r ∈ contacts s → in_book book r = true → gone (map cd_uri cards) (dc_davUri r) = false.

Lemma syncBook_idle book d i s :
  target_book book d = Some i → book_synced book (cards_of i s) s → sync book d s = (s, Done tt).
Proof.
  intros Ht [Hm Hg]. rewrite (syncBook_unfold _ _ _ _ Ht). erewrite bind_run; [|apply each_idle].
  - apply each_idle. intros r [Hc Hr]%list_elem_of_filter. unfold drop_contact. rewrite Hg; [done|done|].
    by apply bool_decide_eq_true.
  - intros c Hc. unfold visit_card. unfold mbind at 1, proc_bind at 1, read.
    change (local_contact book (cd_uri c) s) with (found dc_davUri (of_owner book) (cd_uri c) (contacts s)).
    destruct (Hm c Hc) as (r & -> & ->). by rewrite bool_decide_true.
Qed.

(** C13: An address book whose cards can all be read is synchronised to the end: its owner has a
    contact with the uri and the etag of every card, contacts of the book whose cards are gone are
    deleted, and the contacts of other owners and those without a card are left as they are.  A
    second run changes nothing, not even a picture is stored again. *)
Theorem syncBook_mirrors book d i s :
  target_book book d = Some i →
  NoDup (map dc_id (contacts s)) → NoDup (map cd_uri (cards_of i s)) →
  (∀ c, c ∈ cards_of i s → card_acceptable c) →
  ∃ s', sync book d s = (s', Done tt) ∧ book_synced book (cards_of i s) s' ∧
    (∀ P : DavContact → bool,
       (∀ r, P r = true → (of_owner book r = false ∧ in_book book r = false) ∨ dc_davUri r = None) →
       List.filter P (contacts s') = List.filter P (contacts s)) ∧
    sync book d s' = (s', Done tt).
Proof.
  intros Ht Hid Hnd Hacc. rewrite (syncBook_unfold _ _ _ _ Ht). set (cards := cards_of i s) in *.
  destruct (each_visited dc_id dc_davUri dc_davEtag (of_owner book) cd_uri card_etag contacts (visit book)
    (λ q, davCards q = davCards s) cards s) as (s1 & E1 & Hm & Hk & Hid1 & Hd1); [done| |done..|].
  { intros c q Hc Hd Hq. destruct (visit_card_tracks book c q) as (q' & E & HT & Hd'); [by auto|done|].
    exists q'. split; [done|]. split; [done|congruence]. }
  destruct (drop_contacts_run book (map cd_uri cards) s1 Hid1) as (s2 & E2 & Hd2 & H2).
  assert (book_synced book cards s2) as Hs.
  { split; rewrite H2.
    - apply mirrors_kept; [|done]. intros r c Hc [_ ->]%at_owner. apply negb_true_iff, andb_false_intro2. simpl.
      rewrite bool_decide_true by by apply list_elem_of_fmap_2. apply andb_false_r.
    - intros r. rewrite list_elem_of_In, filter_In. intros [_ Hn] Hc. rewrite Hc in Hn. by apply negb_true_iff in Hn. }
  exists s2. split; [rewrite (bind_run _ _ _ _ _ E1); exact E2|]. split; [done|]. split.
  - intros P HP. rewrite H2, filter_andb. rewrite <- (Hk P).
    + apply filter_ext. intros r. destruct (P r) eqn:E; [|by rewrite andb_false_r]. rewrite andb_true_r.
      by destruct (HP r E) as [[_ ->] | ->]; rewrite ?andb_false_r.
    + intros r c Hp _. apply not_true_is_false. rewrite at_owner. intros [Hc Hu].
      destruct (HP r Hp) as [[H%bool_decide_eq_false _]|H]; congruence.
  - apply (syncBook_idle _ _ i); [done|]. assert (cards_of i s2 = cards) as -> by (unfold cards_of; by rewrite Hd2, Hd1). done.
Qed.
End Book.

(** ** Concrete runs *)

Definition ex_event_id (s : DavStore) : jsstr := "e"%js ++ concat (map de_id (events s)).
Definition ex_contact_id (s : DavStore) : jsstr := "c"%js ++ concat (map dc_id (contacts s)).
Definition ex_nanoid (s : DavStore) : jsstr := "n"%js ++ concat (map dc_publicId (contacts s)).

Lemma ex_nanoid_fresh s r : r ∈ contacts s → dc_publicId r ≠ ex_nanoid s.
Proof.
  intros Hr E. apply (longer_fresh "n"%char (map dc_publicId (contacts s))).
  change (ex_nanoid s ∈ map dc_publicId (contacts s)). rewrite <- E. by apply list_elem_of_fmap_2.
Qed.

(** Texts are read as one event, empty ones not at all. *)
Definition ex_time : IcalTime := {| it_year := 2024; it_month := 3; it_day := 1; it_hour := 9; it_minute := 0;
  it_second := 0; it_isDate := false; it_zone := Some (Some "Europe/Berlin"%js); it_isLocal := false; it_js := 1709280000000 |}.
Definition ex_read_ics (ics : jsstr) : option (option IcsEvent) :=
  if truthy ics then Some (Some {| ie_startDate := Some ex_time; ie_endDate := Some ex_time; ie_summary := Some ics;
    ie_description := None; ie_location := None; ie_status := None; ie_transp := None |}) else None.
(** Objects are no dates for [dayjs]. *)
Definition ex_dayjs (_ _ _ _ _ _ : Z) : option Z := None.
Definition ex_zone (z : jsstr) : bool := bool_decide (z = "UTC"%js).

Definition ex_calendar_row (i p : jsstr) (d : Z) : DavCalendar := {| cl_id := i; cl_ownerId := "u"%js; cl_remotePath := p;
  cl_davCalendarId := Some d; cl_timezone := []; cl_isDefault := true |}.
Definition ex_object (i : Z) (u e d : jsstr) : DavObjectRow := {| ob_calendarid := i; ob_uri := u; ob_etag := e; ob_data := d |}.
Definition ex_fields : DavEventFields := {| df_title := "old"%js; df_description := None; df_location := None;
  df_isAllDay := false; df_startsAt := Some 0%Z; df_endsAt := Some 0%Z; df_status := "confirmed"%js; df_busyStatus := "busy"%js |}.
Definition ex_row (i c : jsstr) (u e : option jsstr) : DavEvent := {| de_id := i; de_ownerId := "u"%js; de_calendarId := c;
  de_davUri := u; de_davEtag := e; de_rawIcs := None; de_fields := ex_fields |}.

(** Two calendars; the second has an object that cannot be read. *)
Definition ex_dav : DavStore := {|
  addressBooks := []; contacts := []; davCards := []; uploads := [];
  calendars := [ex_calendar_row "w"%js "calendars/u/work"%js 1; ex_calendar_row "h"%js "calendars/u/home"%js 2];
  events := [ex_row "1"%js "w"%js (Some "a.ics"%js) (Some "1"%js); ex_row "2"%js "w"%js (Some "gone.ics"%js) (Some "1"%js);
             ex_row "3"%js "w"%js None None; ex_row "4"%js "h"%js (Some "x.ics"%js) (Some "1"%js)];
  davObjects := [ex_object 1 "a.ics"%js [dquote; "2"%char; dquote] "A"%js; ex_object 1 "b.ics"%js "3"%js "B"%js;
                 ex_object 2 "broken.ics"%js "9"%js []] |}.

Abbreviation ex_sync := (davSyncCalendarsDb ex_read_ics ex_dayjs ex_zone (λ _, true) (λ _, true) ex_event_id).

Lemma ex_ready : ready ex_read_ics ex_dayjs ex_zone (λ _, true) (λ _, true) (ex_calendar_row "w"%js "calendars/u/work"%js 1) 1 ex_dav.
Proof.
  split.
  - apply (bool_decide_unpack _). by vm_compute.
  - apply (bool_decide_unpack _). by vm_compute.
  - intros o Ho. assert (truthy (ob_data o) = true) as Hd.
    { repeat (apply elem_of_cons in Ho as [-> | Ho]; [done|]). by apply elem_of_nil in Ho. }
    eexists. unfold parseIcsToEvent, ex_read_ics. by rewrite Hd.
  - intros r o Hr Ho _. repeat (apply elem_of_cons in Hr as [-> | Hr]; [|]); [done..| |by apply elem_of_nil in Hr].
    repeat (apply elem_of_cons in Ho as [-> | Ho]; [done|]). by apply elem_of_nil in Ho.
Qed.

(** After the run the changed object is renewed, the new one is there, the one that is gone is
    deleted and the event made here stays; the calendar that fails keeps its rows. *)
Lemma ex_sync_run :
  map (λ r, (de_id r, de_davUri r, de_davEtag r)) (events (ex_sync ex_dav).1) =
  [("1", Some "a.ics", Some "2"); ("3", None, None); ("4", Some "x.ics", Some "1"); ("e1234", Some "b.ics", Some "3")]%js.
Proof. by vm_compute. Qed.

Lemma syncCalendar_mirrors_witness :
  ∃ s', syncCalendar ex_read_ics ex_dayjs ex_zone (λ _, true) (λ _, true) ex_event_id
    (ex_calendar_row "w"%js "calendars/u/work"%js 1) None ex_dav = (s', Done tt).
Proof.
  destruct (syncCalendar_mirrors ex_read_ics ex_dayjs ex_zone (λ _, true) (λ _, true) ex_event_id (λ s, longer_fresh _ _)
    (ex_calendar_row "w"%js "calendars/u/work"%js 1) None 1 ex_dav) as (s' & E & _); [reflexivity|exact ex_ready|].
  exists s'. exact E.
Defined.

Lemma davSyncCalendarsDb_mirrors_witness : ∃ s', ex_sync ex_dav = (s', Done tt).
Proof.
  destruct (davSyncCalendarsDb_mirrors ex_read_ics ex_dayjs ex_zone (λ _, true) (λ _, true) ex_event_id (λ s, longer_fresh _ _)
    (ex_calendar_row "w"%js "calendars/u/work"%js 1) 1 ex_dav) as (s' & E & _);
    [by left|reflexivity|apply (bool_decide_unpack _); by vm_compute|reflexivity|exact ex_ready| |by exists s'].
  intros c Hc Hne _ o o' Ho Ho'. repeat (apply elem_of_cons in Hc as [-> | Hc]; [|]); [done| |by apply elem_of_nil in Hc].
  apply list_elem_of_singleton in Ho' as ->.
  repeat (apply elem_of_cons in Ho as [-> | Ho]; [done|]). by apply elem_of_nil in Ho.
Defined.

Definition ex_vcf (raw : jsstr) : option (list JProp) :=
  Some [ {| jp_name := "fn"%js; jp_params := VUndef; jp_value := VStr raw |} ].
Definition ex_book : AddressBook := {| bk_id := "k"%js; bk_ownerId := "u"%js; bk_remotePath := "addressbooks/u/main"%js;
  bk_davAddressBookId := None; bk_isDefault := true |}.
Definition ex_books : DavStore := {|
  addressBooks := [ex_book]; calendars := []; events := []; davObjects := []; uploads := [];
  contacts := [ {| dc_id := "1"%js; dc_ownerId := "u"%js; dc_publicId := "p"%js; dc_addressBookId := Some "k"%js;
    dc_davUri := Some "gone.vcf"%js; dc_davEtag := None; dc_profilePicture := None; dc_profilePictureXs := None;
    dc_fields := contact_of [] |} ];
  davCards := [ {| cd_addressbookid := 5; cd_uri := "a.vcf"%js; cd_etag := Some "W/1"%js; cd_data := "Ada King"%js |} ] |}.

Lemma syncBook_mirrors_witness :
  ∃ s', syncBook (λ _, None) (λ _, None) ex_vcf ex_contact_id ex_nanoid (λ _, None) (λ _ _, true)
    ex_book (Some 5%Z) ex_books = (s', Done tt) ∧ book_synced ex_book (cards_of 5 ex_books) s'.
Proof.
  destruct (syncBook_mirrors (λ _, None) (λ _, None) ex_vcf ex_contact_id ex_nanoid (λ _, None) (λ _ _, true)
    (λ s, longer_fresh _ _) ex_nanoid_fresh ex_book (Some 5%Z) 5 ex_books) as (s' & E & H & _);
    [reflexivity|apply (bool_decide_unpack _); by vm_compute..| |by exists s'].
  intros c ->%list_elem_of_singleton. eexists _, None. split; [reflexivity|done].
Defined.
