(* ===== verification/DavWrite.v ===== *)
(** * Writing to a DAV server ([apps/worker/lib/dav/dav-create-contact.ts], [dav-update-contact.ts],
    [dav-delete-contact.ts], [lib/dav/calendar/dav-create-calendar-event.ts],
    [dav-update-calendar-event.ts], [dav-delete-calendar-event.ts], [server/plugins/dav-worker.ts])

    The jobs that bring contacts and events made here to the server, whose database the
    synchronisation of [DavSync.v] reads.  The server is a parameter: what it answers to a request. *)

From stdpp Require Import base list.
From S2P Require Import Prelude JsString JsRegex JsNumber JsValue DavCard DavSync.
From S2P Require Import Proc.

(** ** Requests *)

Inductive Method := PUT | DELETE.

Record Request := {
  rq_method : Method; rq_url : jsstr; rq_contentType : option jsstr; rq_ifMatch : option jsstr;
  rq_ifNoneMatch : option jsstr; rq_body : jsstr;
}.

Record Response := { rs_status : Z; rs_etag : option jsstr }.

(** [encodeURIComponent]: the bytes of UTF-8 but for the letters, the digits and nine marks. *)
Definition unreserved (a : ascii) : bool :=
  let c := code a in
  ((48 <=? c) && (c <=? 57))%Z || ((65 <=? c) && (c <=? 90))%Z || ((97 <=? c) && (c <=? 122))%Z ||
  bool_decide (a ∈ "-_.!~*'()"%js).

Definition hex_digit (d : Z) : ascii := of_code (if (d <? 10)%Z then 48 + d else 55 + d).
Definition percent (byte : Z) : jsstr := ["%"%char; hex_digit (byte / 16); hex_digit (byte mod 16)].

Definition encode_char (a : ascii) : jsstr :=
  let c := code a in
  if unreserved a then [a]
  else if (c <? 128)%Z then percent c
  else percent (192 + c / 64) ++ percent (128 + c mod 64).

Definition encodeURIComponent (s : jsstr) : jsstr := flat_map encode_char s.

(** [base.replace(/\/$/, [])], [path.replace(/^\//, [])] *)
Definition object_url (davBaseUrl collectionPath davUri : jsstr) : jsstr :=
  re_replace_first (RSeq (rchar "/") REnd) (λ _, []) davBaseUrl ++ "/"%js ++
  re_replace_first (RSeq RBegin (rchar "/")) (λ _, []) collectionPath ++ "/"%js ++ encodeURIComponent davUri.

Definition json_quoted (s : jsstr) : jsstr := [dquote] ++ s ++ [dquote].

Section Http.
(** The server: what it does, and its answer, [None] when there is none; and the URL it is known by. *)
Context (http : Request → DavStore → DavStore * option Response) (davBaseUrl : jsstr).

Definition fetch (r : Request) : dav Response := λ s,
  match http r s with (s', Some resp) => (s', Done resp) | (s', None) => (s', Threw) end.

Definition status_in (l : list Z) (r : Response) : bool := bool_decide (rs_status r ∈ l).

(** [createContactViaHttp], [createCalendarObjectViaHttp]: the etag. *)
Definition createViaHttp (contentType data collectionPath davUri : jsstr) : dav (option jsstr) :=
  res ← fetch {| rq_method := PUT; rq_url := object_url davBaseUrl collectionPath davUri; rq_contentType := Some contentType;
                 rq_ifMatch := None; rq_ifNoneMatch := Some "*"%js; rq_body := data |};
  if status_in [200; 201; 204]%Z res then mret (rs_etag res) else throw.

(** Without the condition, if it fails. *)
Definition fetch_again (r : Request) : dav Response :=
  res ← fetch r;
  if status_in [412]%Z res && bool_decide (rq_ifMatch r ≠ None) then
    fetch {| rq_method := rq_method r; rq_url := rq_url r; rq_contentType := rq_contentType r; rq_ifMatch := None;
             rq_ifNoneMatch := None; rq_body := rq_body r |}
  else mret res.

(** [updateContactViaHttp], [updateCalendarObjectViaHttp]: a failure is only logged. *)
Definition updateViaHttp (contentType data collectionPath davUri : jsstr) (ifMatch : option jsstr) : dav (option jsstr) :=
  res ← fetch_again {| rq_method := PUT; rq_url := object_url davBaseUrl collectionPath davUri;
                       rq_contentType := Some contentType; rq_ifMatch := ifMatch; rq_ifNoneMatch := None; rq_body := data |};
  mret (normalizeEtag (rs_etag res)).

(** [deleteContactViaHttp], [deleteCalendarObjectViaHttp]: no answer is an error. *)
Definition deleteViaHttp (collectionPath davUri : jsstr) (etag : option jsstr) : dav unit :=
  _ ← fetch_again {| rq_method := DELETE; rq_url := object_url davBaseUrl collectionPath davUri; rq_contentType := None;
                     rq_ifMatch := if opt_truthy etag then json_quoted <$> etag else None; rq_ifNoneMatch := None; rq_body := [] |};
  mret tt.

(** ** Contacts *)

(** The password in the vault of the account of a book or a calendar; [None] when it throws. *)
Context (book_password : AddressBook → option (option jsstr)) (calendar_password : DavCalendar → option (option jsstr)).
(** The card of a contact ([buildVCard] with its photo and its labels); [None] when it throws. *)
Context (card_of : DavStore → DavContact → bool → option jsstr).

Definition vcard_type : jsstr := "text/vcard; charset=utf-8"%js.

Definition own_contact (contactId ownerId : jsstr) (s : DavStore) : option DavContact :=
  List.find (λ r, bool_decide (dc_id r = contactId) && bool_decide (dc_ownerId r = ownerId)) (contacts s).

Definition default_book (ownerId : jsstr) (s : DavStore) : option AddressBook :=
  List.find (λ b, bool_decide (bk_ownerId b = ownerId) && bk_isDefault b) (addressBooks s).

Definition vcf_uri (c : DavContact) : jsstr := default (dc_id c ++ ".vcf"%js) (dc_davUri c).

Definition with_dav (davUri : jsstr) (davEtag : option jsstr) (r : DavContact) : DavContact :=
  {| dc_id := dc_id r; dc_ownerId := dc_ownerId r; dc_publicId := dc_publicId r; dc_addressBookId := dc_addressBookId r;
     dc_davUri := Some davUri; dc_davEtag := davEtag; dc_profilePicture := dc_profilePicture r;
     dc_profilePictureXs := dc_profilePictureXs r; dc_fields := dc_fields r |}.

(** [UPDATE contacts SET dav_uri, dav_etag]: the unique key is [(owner_id, dav_uri)]. *)
Definition store_dav (c : DavContact) (davUri : jsstr) (davEtag : option jsstr) : dav unit :=
  s ← read;
  if existsb (λ r, negb (bool_decide (dc_id r = dc_id c)) && bool_decide (dc_ownerId r = dc_ownerId c) &&
                   bool_decide (dc_davUri r = Some davUri)) (contacts s)
  then throw
  else modify (set_contacts (map (λ r, if bool_decide (dc_id r = dc_id c) then with_dav davUri davEtag r else r))).

(** The contact and its book, when both are there and there is a password. *)
Definition contact_target (contactId ownerId : jsstr) : dav (option (DavContact * AddressBook)) :=
  s ← read;
  match own_contact contactId ownerId s, default_book ownerId s with
  | Some contact, Some book =>
      if negb (remote_path_ok "addressbooks"%js (bk_remotePath book)) then mret None
      else
        password ← or_throw (book_password book);
        mret (if opt_truthy password then Some (contact, book) else None)
  | _, _ => mret None
  end.

(** The vCard is built before the password is looked for. *)
Definition createContact (contactId ownerId : jsstr) : dav unit :=
  s ← read;
  target ← (match own_contact contactId ownerId s with
            | Some contact =>
                match default_book ownerId s with
                | Some book =>
                    if negb (remote_path_ok "addressbooks"%js (bk_remotePath book)) then mret None
                    else
                      carddata ← or_throw (card_of s contact false);
                      password ← or_throw (book_password book);
                      mret (if opt_truthy password then Some (contact, book, carddata) else None)
                | None => mret None
                end
            | None => mret None
            end);
  match target with
  | None => mret tt
  | Some (contact, book, carddata) =>
      let davUri := dc_id contact ++ ".vcf"%js in
      etag ← createViaHttp vcard_type carddata (bk_remotePath book) davUri;
      store_dav contact davUri (normalizeEtag etag)
  end.

(** [If-Match] is always given: [null] in quotation marks when there is no etag. *)
Definition updateContact (contactId ownerId : jsstr) : dav unit :=
  target ← contact_target contactId ownerId;
  match target with
  | None => mret tt
  | Some (contact, book) =>
      s ← read;
      carddata ← or_throw (card_of s contact true);
      newEtag ← updateViaHttp vcard_type carddata (bk_remotePath book) (vcf_uri contact)
                  (Some (json_quoted (default "null"%js (dc_davEtag contact))));
      store_dav contact (vcf_uri contact) (match newEtag with Some e => Some e | None => dc_davEtag contact end)
  end.

Definition deleteContact (contactId ownerId : jsstr) : dav unit :=
  target ← contact_target contactId ownerId;
  match target with
  | None => mret tt
  | Some (contact, book) =>
      _ ← deleteViaHttp (bk_remotePath book) (vcf_uri contact) (dc_davEtag contact);
      modify (set_contacts (filter (λ r, dc_id r ≠ dc_id contact)))
  end.

(** The job [dav:create-contacts-batch]: whether each succeeded. *)
Fixpoint create_contacts_batch (ownerId : jsstr) (contactIds : list jsstr) : dav (list bool) :=
  match contactIds with
  | [] => mret []
  | i :: rest =>
      ok ← catch (_ ← createContact i ownerId; mret true) (mret false);
      oks ← create_contacts_batch ownerId rest;
      mret (ok :: oks)
  end.
(** ** Events *)

(** The calendar object of an event ([buildICalEvent], whose properties are those of [ITip.v]), with the
    guests of the event; [None] when it throws. *)
Context (ics_of : DavStore → DavEvent → DavCalendar → option jsstr).

Definition ics_type : jsstr := "text/calendar; charset=utf-8"%js.

(** The action of the job [dav:calendar:itip-notify] added for the event, if any. *)
Inductive ItipAction := create | update | cancel.

Definition notify (notifyAttendees : bool) (a : ItipAction) : option ItipAction := if notifyAttendees then Some a else None.

Definition find_event (eventId : jsstr) (s : DavStore) : option DavEvent :=
  List.find (λ r, bool_decide (de_id r = eventId)) (events s).

Definition ics_uri (e : DavEvent) : jsstr := default (de_id e ++ ".ics"%js) (de_davUri e).

Definition with_ics (davUri ics : jsstr) (davEtag : option jsstr) (r : DavEvent) : DavEvent :=
  {| de_id := de_id r; de_ownerId := de_ownerId r; de_calendarId := de_calendarId r; de_davUri := Some davUri;
     de_davEtag := davEtag; de_rawIcs := Some ics; de_fields := de_fields r |}.

(** The unique key is [(owner_id, dav_uri)]. *)
Definition store_ics (e : DavEvent) (davUri ics : jsstr) (davEtag : option jsstr) : dav unit :=
  s ← read;
  if existsb (λ r, negb (bool_decide (de_id r = de_id e)) && bool_decide (de_ownerId r = de_ownerId e) &&
                   bool_decide (de_davUri r = Some davUri)) (events s)
  then throw
  else modify (set_events (map (λ r, if bool_decide (de_id r = de_id e) then with_ics davUri ics davEtag r else r))).

(** The event and a calendar, when both are there and there is a password. *)
Definition event_target (calendar_of : DavEvent → DavStore → option DavCalendar) (eventId : jsstr) :
    dav (option (DavEvent * DavCalendar)) :=
  s ← read;
  match find_event eventId s with
  | Some event =>
      match calendar_of event s with
      | Some calendar =>
          if negb (remote_path_ok "calendars"%js (cl_remotePath calendar)) then mret None
          else
            password ← or_throw (calendar_password calendar);
            mret (if opt_truthy password then Some (event, calendar) else None)
      | None => mret None
      end
  | None => mret None
  end.

Definition default_calendar (e : DavEvent) (s : DavStore) : option DavCalendar :=
  List.find (λ c, bool_decide (cl_ownerId c = de_ownerId e) && cl_isDefault c) (calendars s).

Definition calendar_of_event (e : DavEvent) (s : DavStore) : option DavCalendar :=
  List.find (λ c, bool_decide (cl_id c = de_calendarId e)) (calendars s).

(** It goes to the default calendar of its owner.  The column [icalUid] is left out. *)
Definition createCalendarEvent (eventId : jsstr) (notifyAttendees : bool) : dav (option ItipAction) :=
  target ← event_target default_calendar eventId;
  match target with
  | None => mret None
  | Some (event, calendar) =>
      s ← read;
      icalData ← or_throw (ics_of s event calendar);
      let davUri := de_id event ++ ".ics"%js in
      etag ← createViaHttp ics_type icalData (cl_remotePath calendar) davUri;
      _ ← store_ics event davUri icalData (normalizeEtag etag);
      mret (notify notifyAttendees create)
  end.

Definition updateCalendarEvent (eventId : jsstr) (notifyAttendees : bool) : dav (option ItipAction) :=
  target ← event_target calendar_of_event eventId;
  match target with
  | None => mret None
  | Some (event, calendar) =>
      s ← read;
      icalData ← or_throw (ics_of s event calendar);
      newEtag ← updateViaHttp ics_type icalData (cl_remotePath calendar) (ics_uri event)
                  (if opt_truthy (de_davEtag event) then json_quoted <$> de_davEtag event else None);
      _ ← store_ics event (ics_uri event) icalData (match newEtag with Some e => Some e | None => de_davEtag event end);
      mret (notify notifyAttendees update)
  end.

Definition deleteCalendarEvent (eventId : jsstr) (notifyAttendees deleteEvent : bool) : dav (option ItipAction) :=
  target ← event_target calendar_of_event eventId;
  match target with
  | None => mret None
  | Some (event, calendar) =>
      _ ← deleteViaHttp (cl_remotePath calendar) (ics_uri event) (de_davEtag event);
      _ ← (if deleteEvent then modify (set_events (filter (λ r, de_id r ≠ de_id event))) else mret tt);
      mret (notify notifyAttendees cancel)
  end.
End Http.
