(* ===== verification/DavWriteSpecs.v ===== *)
(** * Writes and the synchronisation that reads them back

    What the worker writes to the server it does not read back: after the job of a contact the address
    book is as synchronised as before, and the next run changes nothing.  The server is known by the
    conditions of HTTP its answers follow. *)

From stdpp Require Import base list.
From S2P Require Import Prelude JsString JsRegex JsNumber JsValue DavCard DavMirror DavSync DavSyncSpecs DavWrite.
From S2P Require Import Proc.

(** ** [encodeURIComponent] *)

(** No code of a character begins the code of another. *)
Definition overlap (x y : jsstr) : bool := let n := Nat.min (length x) (length y) in bool_decide (take n x = take n y).

Lemma encode_char_overlap a b : overlap (encode_char a) (encode_char b) = true → a = b.
Proof.
  assert (∀ a, forallb (λ b, implb (overlap (encode_char a) (encode_char b)) (bool_decide (a = b)))
                 (map Ascii.ascii_of_nat (seq 0 256)) = true) as H by (apply ascii_check; by vm_compute).
  intros Ho. pose proof (ascii_check _ (H a) b) as Hab. cbv beta in Hab. rewrite Ho in Hab. by apply bool_decide_eq_true in Hab.
Qed.

Lemma encode_char_app a b (s t : jsstr) : encode_char a ++ s = encode_char b ++ t → a = b ∧ s = t.
Proof.
  intros E. assert (a = b) as ->; [|split; [done|by apply app_inv_head in E]]. apply encode_char_overlap. unfold overlap.
  apply bool_decide_eq_true. apply (f_equal (take (Nat.min (length (encode_char a)) (length (encode_char b))))) in E.
  rewrite !take_app_le in E by lia. done.
Qed.

Lemma encode_char_nil a : encode_char a ≠ [].
Proof. unfold encode_char. destruct (unreserved a); [done|]. by case_match. Qed.

Lemma encodeURIComponent_inj s t : encodeURIComponent s = encodeURIComponent t → s = t.
Proof.
  revert t. induction s as [|a s IH]; intros [|b t]; cbn [encodeURIComponent flat_map]; [done| | |].
  - intros E. symmetry in E. apply app_nil in E as [E _]. by destruct (encode_char_nil b).
  - intros E. apply app_nil in E as [E _]. by destruct (encode_char_nil a).
  - intros [-> E]%encode_char_app. f_equal. by apply IH.
Qed.

(** ** The server *)

Definition set_cards (f : list DavCardRow → list DavCardRow) (s : DavStore) : DavStore :=
  {| addressBooks := addressBooks s; contacts := contacts s; davCards := f (davCards s); calendars := calendars s;
     events := events s; davObjects := davObjects s; uploads := uploads s |}.

Definition card_at (i : Z) (u : jsstr) (c : DavCardRow) : bool :=
  bool_decide (cd_addressbookid c = i) && bool_decide (cd_uri c = u).

(** The conditions of a request, on the card that is there. *)
Definition condition (r : Request) (there : option DavCardRow) : bool :=
  match rq_ifNoneMatch r, there with Some _, Some _ => false | _, _ => true end &&
  match rq_ifMatch r, there with
  | None, _ => true
  | Some t, Some c => bool_decide (normalizeEtag (Some t) = normalizeEtag (cd_etag c))
  | Some _, None => false
  end.

Definition new_card (i : Z) (u : jsstr) (e : option jsstr) (data : jsstr) : DavCardRow :=
  {| cd_addressbookid := i; cd_uri := u; cd_etag := e; cd_data := data |}.

Definition put_card (i : Z) (u : jsstr) (e : option jsstr) (data : jsstr) (l : list DavCardRow) : list DavCardRow :=
  if existsb (card_at i u) l then map (λ c, if card_at i u c then new_card i u e data else c) l
  else l ++ [new_card i u e data].

Definition drop_card (i : Z) (u : jsstr) : list DavCardRow → list DavCardRow := List.filter (λ c, negb (card_at i u c)).

(** A server that knows the address books [i] by the paths that [serves] gives, and follows the
    conditions (RFC 9110): a request whose condition fails changes nothing, a PUT stores a card under an
    etag, a DELETE takes it away.  What a PUT stores may differ from what was sent, and the answer may
    be without an etag; but one with an etag says that the card is stored as it was sent (9.3.4). *)
Class CardServer (http : Request → DavStore → DavStore * option Response) (base : jsstr) (serves : jsstr → Z → Prop) : Prop := {
  server_refuses path i u r s :
    serves path i → rq_url r = object_url base path u → condition r (List.find (card_at i u) (davCards s)) = false →
    ∃ resp, http r s = (s, Some resp) ∧ rs_status resp = 412%Z;
  server_puts path i u r s :
    serves path i → rq_url r = object_url base path u → condition r (List.find (card_at i u) (davCards s)) = true →
    rq_method r = PUT →
    ∃ resp e data, http r s = (set_cards (put_card i u e data) s, Some resp) ∧ rs_status resp ∈ [200; 201; 204]%Z ∧
      (rs_etag resp ≠ None → data = rq_body r ∧ normalizeEtag (rs_etag resp) = normalizeEtag e ∧ normalizeEtag e ≠ None);
  server_deletes path i u r s :
    serves path i → rq_url r = object_url base path u → condition r (List.find (card_at i u) (davCards s)) = true →
    rq_method r = DELETE →
    ∃ resp, http r s = (set_cards (drop_card i u) s, Some resp) ∧ rs_status resp ∈ [200; 204; 404]%Z;
}.

(** Every answer to a successful PUT has an etag: the server stores what it is sent. *)
Definition tags_puts (http : Request → DavStore → DavStore * option Response) : Prop :=
  ∀ r s s' resp, http r s = (s', Some resp) → rq_method r = PUT → rs_status resp ∈ [200; 201; 204]%Z → rs_etag resp ≠ None.

Section Writes.
Context {http : Request → DavStore → DavStore * option Response} {base : jsstr} {serves : jsstr → Z → Prop}.
Context `{!CardServer http base serves}.

Lemma unconditional r c : rq_ifMatch r = None → rq_ifNoneMatch r = None → condition r c = true.
Proof. intros E1 E2. unfold condition. rewrite E1, E2. by destruct c. Qed.

Lemma no_412 : 412%Z ∉ [200; 201; 204]%Z ∧ 412%Z ∉ [200; 204; 404]%Z.
Proof. split; apply (bool_decide_unpack _); by vm_compute. Qed.

Lemma create_run path i u contentType data s :
  serves path i →
  match List.find (card_at i u) (davCards s) with
  | Some _ => createViaHttp http base contentType data path u s = (s, Threw)
  | None => ∃ e t data', createViaHttp http base contentType data path u s = (set_cards (put_card i u e data') s, Done t) ∧
      (tags_puts http → data' = data ∧ normalizeEtag t = normalizeEtag e)
  end.
Proof.
  intros Hs. unfold createViaHttp. set (r := {| rq_method := PUT |}). unfold fetch, mbind, proc_bind.
  destruct (List.find _ _) as [c|] eqn:E.
  - destruct (server_refuses path i u r s) as (resp & -> & Est); [done|done|by rewrite E|].
    unfold status_in. by rewrite Est.
  - destruct (server_puts path i u r s) as (resp & e & data' & Hr & Est & He); [done|done|by rewrite E|done|].
    rewrite Hr. exists e, (rs_etag resp), data'. unfold status_in. rewrite bool_decide_true by done. split; [done|].
    intros Htag. destruct He as (-> & Ht & _); [by eapply Htag|done].
Qed.

(** The condition, if there is one, is given up when it fails. *)
Lemma put_again_run path i u contentType data ifMatch s :
  serves path i →
  ∃ e t data', updateViaHttp http base contentType data path u ifMatch s = (set_cards (put_card i u e data') s, Done t) ∧
    (tags_puts http → data' = data ∧ t = normalizeEtag e ∧ t ≠ None).
Proof.
  intros Hs. unfold updateViaHttp, fetch_again. set (r := {| rq_method := PUT |}). set (r0 := {| rq_ifMatch := None |}).
  unfold fetch, mbind, proc_bind.
  assert (∀ r', rq_url r' = object_url base path u → rq_method r' = PUT → rq_body r' = data →
    condition r' (List.find (card_at i u) (davCards s)) = true →
    ∃ resp e data', http r' s = (set_cards (put_card i u e data') s, Some resp) ∧ rs_status resp ∈ [200; 201; 204]%Z ∧
      (tags_puts http → data' = data ∧ normalizeEtag (rs_etag resp) = normalizeEtag e ∧ normalizeEtag (rs_etag resp) ≠ None)) as Hput.
  { intros r' Hu Hm Hb Hc. destruct (server_puts path i u r' s) as (resp & e & data' & Hr & Est & He); [done..|].
    exists resp, e, data'. split; [done|]. split; [done|]. intros Htag.
    destruct He as (-> & Ht & Hn); [by eapply Htag|]. split; [done|]. split; [done|congruence]. }
  destruct (condition r (List.find (card_at i u) (davCards s))) eqn:Ec.
  - destruct (Hput r) as (resp & e & data' & -> & Est & He); [done..|].
    exists e, (normalizeEtag (rs_etag resp)), data'. unfold status_in. rewrite bool_decide_false; [by split|].
    intros H. clear -Est H. apply list_elem_of_singleton in H. rewrite H in Est. by destruct no_412.
  - destruct (Hput r0) as (resp0 & e0 & data0 & H0 & _ & He0); [done..|].
    destruct (server_refuses path i u r s) as (resp & -> & Est); [done..|].
    exists e0, (normalizeEtag (rs_etag resp0)), data0. unfold status_in. rewrite Est. cbn [rq_ifMatch r].
    destruct ifMatch as [t|]; [|by rewrite unconditional in Ec].
    rewrite !bool_decide_true by (done || apply list_elem_of_here). simpl. fold r0. rewrite H0. by split.
Qed.
Lemma delete_run path i u etag s :
  serves path i → deleteViaHttp http base path u etag s = (set_cards (drop_card i u) s, Done tt).
Proof.
  intros Hs. unfold deleteViaHttp, fetch_again. set (r := {| rq_method := DELETE |}). set (r0 := {| rq_ifMatch := None |}).
  unfold fetch, mbind, proc_bind.
  assert (∃ resp, http r0 s = (set_cards (drop_card i u) s, Some resp)) as (resp0 & H0).
  { destruct (server_deletes path i u r0 s) as (resp & H & _); [done|done|by apply unconditional|done|]. by exists resp. }
  destruct (condition r (List.find (card_at i u) (davCards s))) eqn:Ec.
  - destruct (server_deletes path i u r s) as (resp & -> & Est); [done..|]. unfold status_in. rewrite bool_decide_false; [done|].
    intros H. apply list_elem_of_singleton in H. rewrite H in Est. by destruct no_412.
  - destruct (server_refuses path i u r s) as (resp & -> & Est); [done..|]. unfold status_in. rewrite Est.
    destruct (rq_ifMatch r) as [t|] eqn:Em; [|by rewrite unconditional in Ec].
    rewrite !bool_decide_true by (done || apply list_elem_of_here). simpl. fold r0. by rewrite H0.
Qed.

(** ** Contacts *)

Context (book_password : AddressBook → option (option jsstr)) (card_of : DavStore → DavContact → bool → option jsstr).

(** The address book is synchronised, and the keys of the contacts hold. *)
Record settled (book : AddressBook) (i : Z) (s : DavStore) : Prop := {
  se_synced : book_synced book (cards_of i s) s;
  se_ids : NoDup (map dc_id (contacts s));
  se_uris : ∀ u r r', r ∈ contacts s → r' ∈ contacts s → at_uri dc_davUri (of_owner book) u r = true →
    at_uri dc_davUri (of_owner book) u r' = true → dc_id r = dc_id r';
  se_owner : ∀ r, r ∈ contacts s → in_book book r = true → of_owner book r = true;
}.

Inductive ContactJob := CreateJob | UpdateJob | DeleteJob.

Definition run_contact_job (j : ContactJob) : jsstr → jsstr → dav unit :=
  match j with
  | CreateJob => createContact http base book_password card_of
  | UpdateJob => DavWrite.updateContact http base book_password card_of
  | DeleteJob => deleteContact http base book_password
  end.

(** What a job is for: a contact that is not on the server, or one that is; its uri there and the text
    of its card. *)
Definition job_uri (j : ContactJob) (c : DavContact) (book : AddressBook) (i : Z) (s : DavStore) (u data : jsstr) : Prop :=
  match j with
  | CreateJob => dc_davUri c = None ∧ u = dc_id c ++ ".vcf"%js ∧ List.find (card_at i u) (davCards s) = None ∧
      (∀ r, r ∈ contacts s → at_uri dc_davUri (of_owner book) u r = false) ∧ card_of s c false = Some data
  | UpdateJob => dc_davUri c = Some u ∧ card_of s c true = Some data
  | DeleteJob => dc_davUri c = Some u
  end.

Definition job_done (j : ContactJob) (c : DavContact) (i : Z) (u data : jsstr) (s : DavStore) : Prop :=
  match j with
  | DeleteJob => u ∉ map cd_uri (cards_of i s) ∧ dc_id c ∉ map dc_id (contacts s)
  | _ => (∃ o, o ∈ cards_of i s ∧ cd_uri o = u) ∧ ∀ o, o ∈ cards_of i s → cd_uri o = u → cd_data o = data
  end.

(** What holds after it whatever the server makes of the card: it has one, under the uri of the contact,
    or none any more. *)
Definition job_ended (j : ContactJob) (c : DavContact) (i : Z) (u : jsstr) (s : DavStore) : Prop :=
  match j with
  | DeleteJob => u ∉ map cd_uri (cards_of i s) ∧ dc_id c ∉ map dc_id (contacts s)
  | _ => u ∈ map cd_uri (cards_of i s) ∧ ∃ r, r ∈ contacts s ∧ dc_id r = dc_id c ∧ dc_davUri r = Some u
  end.

(** The other contacts. *)
Definition others (c : DavContact) (s : DavStore) : list DavContact :=
  List.filter (λ r, negb (bool_decide (dc_id r = dc_id c))) (contacts s).

Lemma cards_of_put i u e data s o :
  o ∈ cards_of i (set_cards (put_card i u e data) s) →
  (cd_uri o = u ∧ card_etag o = normalizeEtag e) ∨ (cd_uri o ≠ u ∧ o ∈ cards_of i s).
Proof.
  unfold cards_of. simpl. intros [Hi Ho]%list_elem_of_filter. destruct (decide (cd_uri o = u)) as [Hu|Hu].
  - left. split; [done|]. assert (card_at i u o = true) as Hat by (unfold card_at; by rewrite !bool_decide_true).
    unfold put_card in Ho. destruct (existsb _ _) eqn:E.
    + apply list_elem_of_fmap in Ho as (x & -> & Hx). destruct (card_at i u x) eqn:Ex; [done|]. congruence.
    + apply elem_of_app in Ho as [Ho| ->%list_elem_of_singleton]; [|done].
      rewrite (existsb_false _ _ E o Ho) in Hat. done.
  - right. split; [done|]. apply list_elem_of_filter. split; [done|]. unfold put_card in Ho. destruct (existsb _ _).
    + apply list_elem_of_fmap in Ho as (x & -> & Hx). by destruct (card_at i u x).
    + apply elem_of_app in Ho as [Ho| ->%list_elem_of_singleton]; [done|]. by destruct Hu.
Qed.

Lemma cards_of_drop i u s o : o ∈ cards_of i (set_cards (drop_card i u) s) → cd_uri o ≠ u ∧ o ∈ cards_of i s.
Proof.
  unfold cards_of, drop_card. simpl. rewrite !list_elem_of_filter, list_elem_of_In, List.filter_In, <- list_elem_of_In.
  intros (Hi & Ho & Hn). split; [|done]. intros Hu. unfold card_at in Hn. by rewrite !bool_decide_true in Hn.
Qed.

(** The uris of a book are still there after a card was put. *)
Lemma uris_put i u e data s v :
  v ∈ map cd_uri (cards_of i s) ∨ v = u → v ∈ map cd_uri (cards_of i (set_cards (put_card i u e data) s)).
Proof.
  unfold cards_of. simpl. intros Hv. unfold put_card. destruct (existsb _ _) eqn:E.
  - assert (∃ x, x ∈ davCards s ∧ cd_addressbookid x = i ∧ cd_uri x = v) as (x & Hx & Hi & <-).
    { destruct Hv as [(x & -> & [Hi Hx]%list_elem_of_filter)%list_elem_of_fmap| ->]; [by exists x|].
      apply existsb_exists in E as (x & Hx%list_elem_of_In & Hat). unfold card_at in Hat. bool_to_prop. by exists x. }
    apply list_elem_of_fmap. exists (if card_at i u x then new_card i u e data else x). split.
    + destruct (card_at i u x) eqn:Ex; [|done]. unfold card_at in Ex. bool_to_prop. done.
    + apply list_elem_of_filter. split; [by destruct (card_at i u x)|]. apply list_elem_of_fmap. by exists x.
  - rewrite filter_app, map_app, elem_of_app. destruct Hv as [Hv| ->]; [by left|]. right.
    rewrite filter_cons_True by done. simpl. set_solver.
Qed.

Lemma put_uri i u e data s : u ∈ map cd_uri (cards_of i (set_cards (put_card i u e data) s)).
Proof. apply uris_put. by right. Qed.

(** The card that was put has its text. *)
Lemma data_put i u e data s o : o ∈ cards_of i (set_cards (put_card i u e data) s) → cd_uri o = u → cd_data o = data.
Proof.
  unfold cards_of. simpl. intros [Hi Ho]%list_elem_of_filter Hu.
  assert (card_at i u o = true) as Hat by (unfold card_at; by rewrite !bool_decide_true).
  unfold put_card in Ho. destruct (existsb _ _) eqn:E.
  - apply list_elem_of_fmap in Ho as (x & -> & Hx). destruct (card_at i u x) eqn:Ex; [done|]. congruence.
  - apply elem_of_app in Ho as [Ho| ->%list_elem_of_singleton]; [|done]. rewrite (existsb_false _ _ E o Ho) in Hat. done.
Qed.

Lemma own_contact_Some contactId ownerId s c :
  own_contact contactId ownerId s = Some c → c ∈ contacts s ∧ dc_id c = contactId ∧ dc_ownerId c = ownerId.
Proof. intros [Hc H]%List.find_some. bool_to_prop. by rewrite list_elem_of_In. Qed.

(** What the contact of a job may have as a uri: that of its card, or none yet. *)
Definition uri_of (book : AddressBook) (c : DavContact) (u : jsstr) (s : DavStore) : Prop :=
  dc_davUri c = Some u ∨ (dc_davUri c = None ∧ ∀ r, r ∈ contacts s → at_uri dc_davUri (of_owner book) u r = false).

Lemma uri_of_other book c u s v : uri_of book c u s → v ≠ u → at_uri dc_davUri (of_owner book) v c = false.
Proof. intros H Hv. unfold at_uri. apply andb_false_intro2, bool_decide_eq_false. destruct H as [->|[-> _]]; congruence. Qed.

Lemma uri_of_only book i c u s r :
  settled book i s → c ∈ contacts s → of_owner book c = true → uri_of book c u s →
  r ∈ contacts s → at_uri dc_davUri (of_owner book) u r = true → dc_id r = dc_id c.
Proof.
  intros Hs Hc Ho [Hu|[_ Hn]] Hr Hat; [|by rewrite (Hn r Hr) in Hat].
  apply (se_uris _ _ _ Hs u); [done..|]. unfold at_uri. by rewrite Ho, Hu, bool_decide_true.
Qed.

Definition with_row (c : DavContact) (u : jsstr) (e : option jsstr) : DavStore → DavStore :=
  set_contacts (put dc_id (dc_id c) (with_dav u e)).

Lemma store_dav_run book i c u e s cards :
  settled book i s → c ∈ contacts s → of_owner book c = true → uri_of book c u s →
  store_dav c u e (set_cards cards s) = (with_row c u e (set_cards cards s), Done tt).
Proof.
  intros Hs Hc Ho Hu. unfold store_dav. unfold mbind, proc_bind, read. cbn [contacts set_cards].
  destruct (existsb _ _) eqn:E; [|done]. apply existsb_exists in E as (r & Hr%list_elem_of_In & H). bool_to_prop.
  match goal with Hn : dc_id r ≠ dc_id c |- _ => destruct Hn end. eapply uri_of_only; [done..|]. unfold at_uri, of_owner in *.
  bool_to_prop. rewrite !bool_decide_true by congruence. done.
Qed.

(** The card of a contact was put, and its etag stored. *)
Lemma settle_put book i c u e data t s :
  settled book i s → c ∈ contacts s → of_owner book c = true → uri_of book c u s → t = normalizeEtag e →
  settled book i (with_row c u t (set_cards (put_card i u e data) s)).
Proof.
  intros Hs Hc Ho Hu ->. pose proof (uri_of_only book i c u s) as Hone. set (t := normalizeEtag e).
  assert (at_uri dc_davUri (of_owner book) u (with_dav u t c) = true) as Hat.
  { unfold at_uri, of_owner in *. simpl. by rewrite Ho, bool_decide_true. }
  assert (∀ r, r ∈ contacts (with_row c u t (set_cards (put_card i u e data) s)) →
    r = with_dav u t c ∨ (r ∈ contacts s ∧ dc_id r ≠ dc_id c)) as Hrows.
  { intros r (x & -> & Hx)%list_elem_of_fmap. case_bool_decide as E; [|by right]. left.
    by rewrite (unique_row dc_id (contacts s) x c) by (apply Hs || done). }
  split.
  - split.
    + eapply mirrors_put; [apply Hs|done|intros; by eapply Hone|done|intros; by eapply uri_of_other| |apply Hs].
      intros o. apply cards_of_put.
    + intros r Hr Hb. unfold gone. destruct (Hrows r Hr) as [->|[Hr' _]]; simpl.
      * rewrite bool_decide_true; [apply andb_false_r|apply put_uri].
      * pose proof (proj2 (se_synced _ _ _ Hs) r Hr' Hb) as Hg. unfold gone in Hg. destruct (dc_davUri r) as [v|]; [|done].
        destruct (truthy v); [|done]. simpl in Hg |- *. apply negb_false_iff, bool_decide_eq_true in Hg.
        apply negb_false_iff, bool_decide_eq_true, uris_put. by left.
  - simpl. rewrite put_ids; [apply Hs|done].
  - intros v r r' Hr Hr' Hv Hv'. apply Hrows in Hr as [->|[Hr Hn]], Hr' as [->|[Hr' Hn']]; [done|..|by eapply (se_uris _ _ _ Hs)].
    + assert (v = u) as ->; [|symmetry; by apply Hone]. unfold at_uri in Hv. bool_to_prop. simpl in *. congruence.
    + assert (v = u) as ->; [|by apply Hone]. unfold at_uri in Hv'. bool_to_prop. simpl in *. congruence.
  - intros r Hr Hb. apply Hrows in Hr as [->|[Hr _]]; [done|by eapply se_owner].
Qed.

Lemma set_contacts_drop c s :
  contacts (set_contacts (filter (λ r, dc_id r ≠ dc_id c)) s) =
  List.filter (λ r, negb (bool_decide (dc_id r = dc_id c))) (contacts s).
Proof. simpl. rewrite list_filter_bool. apply List.filter_ext. intros r. apply bool_decide_not. Qed.

Lemma settle_delete book i c u s :
  settled book i s → c ∈ contacts s → of_owner book c = true → uri_of book c u s →
  settled book i (set_contacts (filter (λ r, dc_id r ≠ dc_id c)) (set_cards (drop_card i u) s)).
Proof.
  intros Hs Hc Ho Hu. pose proof (uri_of_only book i c u s) as Hone.
  assert (∀ r, r ∈ contacts (set_contacts (filter (λ r, dc_id r ≠ dc_id c)) (set_cards (drop_card i u) s)) →
    r ∈ contacts s ∧ dc_id r ≠ dc_id c) as Hrows by (intros r [? ?]%list_elem_of_filter; done).
  split.
  - split.
    + rewrite set_contacts_drop. eapply mirrors_delete; [apply Hs|done|intros; by eapply uri_of_other| |apply Hs].
      intros o. apply cards_of_drop.
    + intros r [Hr Hn]%Hrows Hb. pose proof (proj2 (se_synced _ _ _ Hs) r Hr Hb) as Hg. unfold gone in *.
      destruct (dc_davUri r) as [v|] eqn:Ev; [|done]. destruct (truthy v); [|done]. simpl in Hg |- *.
      apply negb_false_iff, bool_decide_eq_true in Hg. apply negb_false_iff, bool_decide_eq_true.
      apply list_elem_of_fmap in Hg as (o & -> & [Hi Hin]%list_elem_of_filter). apply list_elem_of_fmap. exists o. split; [done|].
      apply list_elem_of_filter. split; [done|]. simpl. unfold drop_card. rewrite list_elem_of_In, List.filter_In, <- list_elem_of_In.
      split; [done|]. unfold card_at. apply negb_true_iff, andb_false_intro2, bool_decide_eq_false. intros E. apply Hn.
      eapply Hone; [done..|]. unfold at_uri. rewrite (se_owner _ _ _ Hs r Hr Hb), Ev. by rewrite E, bool_decide_true.
  - rewrite set_contacts_drop. by apply ids_filter, Hs.
  - intros v r r' [Hr _]%Hrows [Hr' _]%Hrows. by apply (se_uris _ _ _ Hs).
  - intros r [Hr _]%Hrows. by apply (se_owner _ _ _ Hs).
Qed.

Lemma target_path book d i : target_book book d = Some i → remote_path_ok "addressbooks"%js (bk_remotePath book) = true.
Proof. unfold target_book. by destruct (remote_path_ok _ _). Qed.

Lemma target_run contactId ownerId c book d i p s :
  own_contact contactId ownerId s = Some c → default_book ownerId s = Some book → target_book book d = Some i →
  book_password book = Some p → opt_truthy p = true → contact_target book_password contactId ownerId s = (s, Done (Some (c, book))).
Proof.
  intros Hc Hb Ht Hp Hp'. unfold contact_target. rewrite read_bind, Hc, Hb, (target_path _ _ _ Ht). cbn [negb].
  by rewrite Hp, or_throw_bind, Hp'.
Qed.

Lemma put_done c i u t e data s j :
  j ≠ DeleteJob → job_done j c i u data (with_row c u t (set_cards (put_card i u e data) s)).
Proof.
  intros Hj. assert ((∃ o, o ∈ cards_of i (set_cards (put_card i u e data) s) ∧ cd_uri o = u) ∧
    ∀ o, o ∈ cards_of i (set_cards (put_card i u e data) s) → cd_uri o = u → cd_data o = data) as H.
  { split; [|intros o; apply data_put]. pose proof (put_uri i u e data s) as Hu. apply list_elem_of_fmap in Hu as (o & Hu & Ho). by exists o. }
  by destruct j.
Qed.

Lemma others_put c u t cards s : others c (with_row c u t (set_cards cards s)) = others c s.
Proof. unfold others, with_row. simpl. apply put_filter. intros r _ E. simpl. by rewrite bool_decide_true. Qed.

Lemma others_drop c cards s : others c (set_contacts (filter (λ r, dc_id r ≠ dc_id c)) (set_cards cards s)) = others c s.
Proof. unfold others. rewrite set_contacts_drop. by apply filter_implied. Qed.

Lemma put_ended c i u t e data s j :
  j ≠ DeleteJob → c ∈ contacts s → job_ended j c i u (with_row c u t (set_cards (put_card i u e data) s)).
Proof.
  intros Hj Hc. assert (job_ended CreateJob c i u (with_row c u t (set_cards (put_card i u e data) s))) as H.
  { split; [apply put_uri|]. exists (with_dav u t c). split; [|done]. unfold with_row. simpl. apply list_elem_of_fmap.
    exists c. split; [by rewrite bool_decide_true|done]. }
  by destruct j.
Qed.

Lemma job_run j contactId ownerId c book d i p u data s :
  own_contact contactId ownerId s = Some c → default_book ownerId s = Some book → target_book book d = Some i →
  serves (bk_remotePath book) i → book_password book = Some p → opt_truthy p = true →
  settled book i s → job_uri j c book i s u data →
  ∃ s', run_contact_job j contactId ownerId s = (s', Done tt) ∧ job_ended j c i u s' ∧ others c s' = others c s ∧
    (j = DeleteJob ∨ tags_puts http → settled book i s' ∧ job_done j c i u data s').
Proof.
  intros Hc Hb Ht Hs Hp Hp' Hset Hj. destruct (own_contact_Some _ _ _ _ Hc) as (Hin & Hid & Ho).
  assert (of_owner book c = true) as Hown.
  { apply List.find_some in Hb as [_ Hb]. bool_to_prop. unfold of_owner. apply bool_decide_eq_true. congruence. }
  pose proof (target_run _ _ _ _ _ _ _ _ Hc Hb Ht Hp Hp') as Hrun.
  destruct j; cbn [run_contact_job job_uri] in *.
  - destruct Hj as (Hu & -> & Hfree & Hn & Hcard). assert (uri_of book c (dc_id c ++ ".vcf"%js) s) as Huri by by right.
    pose proof (create_run (bk_remotePath book) i (dc_id c ++ ".vcf"%js) vcard_type data s Hs) as Hput.
    rewrite Hfree in Hput. destruct Hput as (e & t & data' & E & Het).
    eexists. split.
    { unfold createContact. rewrite read_bind. erewrite bind_run.
      2: { rewrite Hc, Hb, (target_path _ _ _ Ht). cbn [negb]. by rewrite Hcard, or_throw_bind, Hp, or_throw_bind, Hp'. }
      cbv beta iota zeta. rewrite (bind_run _ _ _ _ _ E). by eapply store_dav_run. }
    split; [by apply put_ended|]. split; [apply others_put|]. intros [?|Htag]; [done|]. destruct (Het Htag) as [-> ?].
    split; [by eapply settle_put|by apply put_done].
  - destruct Hj as (Hu & Hcard). assert (uri_of book c u s) as Huri by by left.
    destruct (put_again_run (bk_remotePath book) i u vcard_type data (Some (json_quoted (default "null"%js (dc_davEtag c)))) s Hs)
      as (e & t & data' & E & Het).
    eexists. split.
    { unfold DavWrite.updateContact. rewrite (bind_run _ _ _ _ _ Hrun), read_bind, Hcard, or_throw_bind.
      assert (vcf_uri c = u) as -> by (unfold vcf_uri; by rewrite Hu).
      rewrite (bind_run _ _ _ _ _ E). by eapply store_dav_run. }
    split; [by apply put_ended|]. split; [apply others_put|]. intros [?|Htag]; [done|].
    destruct (Het Htag) as (-> & Het' & Hn). destruct t as [t|]; [|done].
    split; [by eapply settle_put|by apply put_done].
  - assert (uri_of book c u s) as Huri by by left. eexists. split.
    { unfold deleteContact. rewrite (bind_run _ _ _ _ _ Hrun). assert (vcf_uri c = u) as -> by (unfold vcf_uri; by rewrite Hj).
      rewrite (bind_run _ _ _ _ _ (delete_run _ _ _ _ _ Hs)). reflexivity. }
    assert (u ∉ map cd_uri (cards_of i (set_cards (drop_card i u) s)) ∧
      dc_id c ∉ map dc_id (filter (λ r, dc_id r ≠ dc_id c) (contacts (set_cards (drop_card i u) s)))) as Hgone.
    { split.
      - intros (o & Hu & [Hn _]%cards_of_drop)%list_elem_of_fmap. by destruct Hn.
      - intros (r & E & [Hn _]%list_elem_of_filter)%list_elem_of_fmap. by destruct Hn. }
    split; [exact Hgone|]. split; [apply others_drop|]. intros _. split; [by apply settle_delete|exact Hgone].
Qed.
End Writes.

Section Settled.
Context {http : Request → DavStore → DavStore * option Response} {base : jsstr} {serves : jsstr → Z → Prop}.
Context `{!CardServer http base serves}.
Context (book_password : AddressBook → option (option jsstr)) (card_of : DavStore → DavContact → bool → option jsstr).
Context (mimeLookup mimeExtension : jsstr → option jsstr) (vcf_parse : jsstr → option (list JProp)).
Context (new_id nanoid : DavStore → jsstr) (fetch_ok : jsstr → option bool) (upload_ok : list jsstr → jsstr → bool).

End Settled.

(** ** A server *)

Definition hex_value (a : ascii) : Z := let c := code a in if (c <? 58)%Z then c - 48 else c - 55.
Definition byte_of (a b : ascii) : Z := hex_value a * 16 + hex_value b.

Fixpoint decodeURIComponent (s : jsstr) : jsstr :=
  match s with
  | [] => []
  | x :: rest =>
      match bool_decide (x = "%"%char), rest with
      | true, a :: b :: rest2 =>
          match (byte_of a b <? 128)%Z, rest2 with
          | false, _ :: c :: d :: rest3 => of_code (64 * (byte_of a b - 192) + (byte_of c d - 128)) :: decodeURIComponent rest3
          | _, _ => of_code (byte_of a b) :: decodeURIComponent rest2
          end
      | _, _ => x :: decodeURIComponent rest
      end
  end.

Lemma decode_encode_char a s : decodeURIComponent (encode_char a ++ s) = a :: decodeURIComponent s.
Proof. destruct a as [[] [] [] [] [] [] [] []]; reflexivity. Qed.

Lemma decode_encode s : decodeURIComponent (encodeURIComponent s) = s.
Proof.
  induction s as [|a s IH]; [done|].
  change (decodeURIComponent (encode_char a ++ encodeURIComponent s) = a :: s). by rewrite decode_encode_char, IH.
Qed.

(** One address book at a path, whose etags are made of the texts. *)
Definition server_etag (data : jsstr) : option jsstr := Some ("e"%char :: data).

Definition book_server (base path : jsstr) (i : Z) (r : Request) (s : DavStore) : DavStore * option Response :=
  let prefix := object_url base path [] in
  if startsWith (rq_url r) prefix then
    let u := decodeURIComponent (drop (length prefix) (rq_url r)) in
    if negb (condition r (List.find (card_at i u) (davCards s))) then (s, Some {| rs_status := 412; rs_etag := None |})
    else match rq_method r with
         | PUT => (set_cards (put_card i u (server_etag (rq_body r)) (rq_body r)) s,
                        Some {| rs_status := 201; rs_etag := server_etag (rq_body r) |})
         | DELETE => (set_cards (drop_card i u) s, Some {| rs_status := 204; rs_etag := None |})
         end
  else (s, None).

Lemma object_url_app base path u : object_url base path u = object_url base path [] ++ encodeURIComponent u.
Proof. unfold object_url. rewrite !app_assoc. by rewrite app_nil_r. Qed.

Lemma book_server_at base path i u r s :
  rq_url r = object_url base path u →
  book_server base path i r s =
    if negb (condition r (List.find (card_at i u) (davCards s))) then (s, Some {| rs_status := 412; rs_etag := None |})
    else match rq_method r with
         | PUT => (set_cards (put_card i u (server_etag (rq_body r)) (rq_body r)) s,
                        Some {| rs_status := 201; rs_etag := server_etag (rq_body r) |})
         | DELETE => (set_cards (drop_card i u) s, Some {| rs_status := 204; rs_etag := None |})
         end.
Proof.
  intros Hu. unfold book_server. rewrite Hu, object_url_app, drop_app_length, decode_encode.
  by rewrite (proj2 (startsWith_spec _ _)) by (by eexists).
Qed.

#[export] Instance book_server_laws base path i :
  CardServer (book_server base path i) base (λ p j, p = path ∧ j = i).
Proof.
  split; intros p j u r s [-> ->] Hu Hc; rewrite (book_server_at _ _ _ _ _ _ Hu), Hc; simpl.
  - by eexists.
  - intros ->. eexists _, _, _. split; [done|]. split; [simpl; apply (bool_decide_unpack _); by vm_compute|].
    intros _. split; [done|]. split; [done|]. unfold server_etag, normalizeEtag. simpl. by case_match.
  - intros ->. eexists. split; [done|]. simpl. apply (bool_decide_unpack _). by vm_compute.
Qed.

Lemma book_server_tags base path i : tags_puts (book_server base path i).
Proof.
  intros r s s' resp. unfold book_server. destruct (startsWith _ _); [|done].
  destruct (negb _); [intros [= <- <-] _ Hst|intros E Hm _; rewrite Hm in E; by injection E as <- <-].
  exfalso. revert Hst. by apply (bool_decide_unpack _); vm_compute.
Qed.

(** ** Runs *)

Definition ex_contact (i : jsstr) (u e : option jsstr) : DavContact :=
  {| dc_id := i; dc_ownerId := "u"%js; dc_publicId := i; dc_addressBookId := Some "k"%js; dc_davUri := u; dc_davEtag := e;
     dc_profilePicture := None; dc_profilePictureXs := None; dc_fields := contact_of [] |}.
Definition ex_card (u : jsstr) : DavCardRow :=
  {| cd_addressbookid := 5; cd_uri := u; cd_etag := Some "1"%js; cd_data := "Ada"%js |}.

(** A contact that is on the server as [a.vcf], and another that is not. *)
Definition ex_writes : DavStore := {|
  addressBooks := [ex_book]; calendars := []; events := []; davObjects := []; uploads := [];
  contacts := [ex_contact "1"%js (Some "a.vcf"%js) (Some "1"%js); ex_contact "2"%js None None];
  davCards := [ex_card "a.vcf"%js] |}.

Definition ex_base : jsstr := "http://dav/dav.php"%js.
Definition ex_http := book_server ex_base "addressbooks/u/main"%js 5.
Definition ex_password (_ : AddressBook) : option (option jsstr) := Some (Some "pw"%js).
Definition ex_card_of (_ : DavStore) (c : DavContact) (_ : bool) : option jsstr := Some (dc_id c).
Abbreviation ex_job := (run_contact_job (http := ex_http) (base := ex_base) ex_password ex_card_of).
Abbreviation ex_syncBook := (syncBook (λ _, None) (λ _, None) ex_vcf ex_contact_id ex_nanoid (λ _, None) (λ _ _, true)).

Lemma ex_settled : settled ex_book 5 ex_writes.
Proof.
  split.
  - split; [|intros r Hr _; repeat (apply elem_of_cons in Hr as [-> | Hr]; [done|]); by apply elem_of_nil in Hr].
    intros o ->%list_elem_of_singleton. eexists. by split.
  - apply (bool_decide_unpack _). by vm_compute.
  - intros v r r' Hr Hr' Hv Hv'. repeat (apply elem_of_cons in Hr as [-> | Hr]; [|]);
      repeat (apply elem_of_cons in Hr' as [-> | Hr']; [|]); try done; by apply elem_of_nil in Hr || apply elem_of_nil in Hr'.
  - intros r Hr _. repeat (apply elem_of_cons in Hr as [-> | Hr]; [done|]). by apply elem_of_nil in Hr.
Qed.


(** A contact that came from the server is created there once more, as the incoming mail of a known sender
    asks for; the synchronisation makes a contact of the second card. *)
Lemma imported_contact_is_doubled :
  let s := (ex_syncBook ex_book (Some 5%Z) (ex_job CreateJob "1"%js "u"%js ex_writes).1).1 in
  (map cd_uri (davCards s), map dc_davUri (contacts s)) =
  (["a.vcf"; "1.vcf"], [Some "1.vcf"; None; Some "a.vcf"])%js.
Proof. by vm_compute. Qed.

(** The card was put, but not stored with the contact: every retry throws, and the synchronisation makes
    a second contact of the card. *)
Definition ex_crashed : DavStore := set_cards (λ l, l ++ [ex_card "2.vcf"%js]) ex_writes.

Lemma interrupted_create_never_ends :
  ex_job CreateJob "2"%js "u"%js ex_crashed = (ex_crashed, Threw) ∧
  map dc_davUri (contacts (ex_syncBook ex_book (Some 5%Z) ex_crashed).1) = [Some "a.vcf"; None; Some "2.vcf"]%js.
Proof. split; by vm_compute. Qed.

(** The server fails, and the job ends well; the etag stays, so neither side learns of the change. *)
Lemma failed_update_is_lost :
  run_contact_job (http := λ _ s, (s, Some {| rs_status := 500; rs_etag := None |})) (base := ex_base) ex_password ex_card_of
    UpdateJob "1"%js "u"%js ex_writes = (ex_writes, Done tt) ∧
  ex_syncBook ex_book (Some 5%Z) ex_writes = (ex_writes, Done tt).
Proof. split; by vm_compute. Qed.

(** An event of the calendar [h] is put into the default calendar [w]: the synchronisation of [h] deletes
    it as gone, and that of [w] makes another event of it. *)
Definition ex_two_calendars : DavStore := {|
  addressBooks := []; contacts := []; davCards := []; uploads := []; davObjects := [];
  calendars := [ex_calendar_row "w"%js "calendars/u/work"%js 1;
    {| cl_id := "h"%js; cl_ownerId := "u"%js; cl_remotePath := "calendars/u/home"%js; cl_davCalendarId := Some 2%Z;
       cl_timezone := []; cl_isDefault := false |}];
  events := [ex_row "1"%js "h"%js None None] |}.

Definition ex_put_object (r : Request) (s : DavStore) : DavStore * option Response :=
  ({| addressBooks := addressBooks s; contacts := contacts s; davCards := davCards s; calendars := calendars s;
           events := events s; uploads := uploads s; davObjects := davObjects s ++ [ex_object 1 "1.ics"%js "7"%js (rq_body r)] |},
   Some {| rs_status := 201; rs_etag := Some "7"%js |}).

Lemma event_of_other_calendar_moves :
  let r := createCalendarEvent ex_put_object ex_base (λ _, Some (Some "pw"%js)) (λ _ _ _, Some "A"%js) "1"%js true ex_two_calendars in
  map (λ e, (de_id e, de_calendarId e, de_davUri e)) (events r.1) = [("1", "h", Some "1.ics")]%js ∧
  events (syncCalendar ex_read_ics ex_dayjs ex_zone (λ _, true) (λ _, true) ex_event_id
    {| cl_id := "h"%js; cl_ownerId := "u"%js; cl_remotePath := "calendars/u/home"%js; cl_davCalendarId := Some 2%Z;
       cl_timezone := []; cl_isDefault := false |} None r.1).1 = [].
Proof. split; by vm_compute. Qed.
