(* ===== verification/DayLayout.v ===== *)
(** * The day view's layout ([apps/web/components/dashboard/calendars/client-helpers.ts])

    The fragments of a day are sorted by their top, cut into clusters that do not overlap, and
    each cluster is laid out in columns: a fragment goes into the first column whose last
    fragment ends before it starts.  Percentages are JavaScript numbers.  A difference of two
    finite numbers is used only for its sign, which is that of their comparison. *)

From stdpp Require Import base list.
From S2P Require Import Prelude JsString JsNumber.
From Stdlib Require Import Floats.SpecFloat.

(** [EventSlotFragment]; the event and the date are carried along unread. *)
Record Fragment := {
  event : jsstr; date : jsstr; hour : Z; topPercent : num; heightPercent : num;
  isStart : bool; isEnd : bool;
}.

(** [EventSlotRenderFragment] *)
Record RenderFragment := { base : Fragment; columnIndex : nat; columnCount : nat }.

Definition bottom (f : Fragment) : num := num_add (topPercent f) (heightPercent f).

(** ** [clusterByOverlap] *)

Definition compareFragments : Fragment → Fragment → Z :=
  cmp_or (λ a b, num_cmp (topPercent a) (topPercent b)) (λ a b, num_cmp (heightPercent b) (heightPercent a)).

(** The loop: [current] is the open cluster ([[]]: none yet). *)
Fixpoint cluster_loop (frags current : list Fragment) (currentMaxBottom : num) : list (list Fragment) :=
  match frags with
  | [] => match current with [] => [] | _ => [current] end
  | frag :: rest =>
      match current with
      | [] => cluster_loop rest [frag] (bottom frag)
      | _ =>
          if num_geb (topPercent frag) currentMaxBottom
          then current :: cluster_loop rest [frag] (bottom frag)
          else cluster_loop rest (current ++ [frag])
                 (if num_gtb (bottom frag) currentMaxBottom then bottom frag else currentMaxBottom)
      end
  end.

Definition clusterByOverlap (fragments : list Fragment) : list (list Fragment) :=
  cluster_loop (sort_by compareFragments fragments) [] (S754_infinity true).

(** ** [layoutDayFragments] *)

(** The first column that is free from the top of [frag] on. *)
Fixpoint free_column (frag : Fragment) (columns : list (list Fragment)) : option nat :=
  match columns with
  | [] => None
  | col :: rest =>
      match last col with
      | Some l => if num_geb (topPercent frag) (bottom l) then Some 0 else S <$> free_column frag rest
      | None => S <$> free_column frag rest
      end
  end.

(** The fragments with the column each is placed in, and the columns. *)
Fixpoint place_loop (group : list Fragment) (columns : list (list Fragment)) :
    list (Fragment * nat) * list (list Fragment) :=
  match group with
  | [] => ([], columns)
  | frag :: rest =>
      let i := default (length columns) (free_column frag columns) in
      let columns' :=
        if decide (i < length columns) then alter (λ col, col ++ [frag]) i columns else columns ++ [[frag]] in
      let '(placed, final) := place_loop rest columns' in
      ((frag, i) :: placed, final)
  end.

(** The column count is filled in at the end, in the objects both lists share. *)
Definition layout_group (group : list Fragment) : list RenderFragment :=
  let '(placed, columns) := place_loop group [] in
  map (λ p, {| base := p.1; columnIndex := p.2; columnCount := length columns |}) placed.

Definition layoutDayFragments (fragments : list Fragment) : list RenderFragment :=
  flat_map layout_group (clusterByOverlap fragments).

(** ** [splitFragmentIntoHours] *)

Definition num100 : num := num_of_Z 100.
Definition num60 : num := num_of_Z 60.

(** [for (let h = firstHour; h <= lastHour; h++)] over the floors of two numbers; [None]: the
    loop does not end. *)
Definition hour_range (first last : num) : option (list Z) :=
  match num_floor first, num_floor last with
  | Some f, Some l => Some (map (λ k, f + Z.of_nat k)%Z (seq 0 (Z.to_nat (l - f + 1))))
  | _, _ => if num_leb first last then None else Some []
  end.

(** [Math.max], [Math.min] of two numbers that are not NaN *)
Definition num_max (x y : num) : num := if num_ltb x y then y else x.
Definition num_min (x y : num) : num := if num_ltb y x then y else x.

Definition hour_piece (b : RenderFragment) (startMinute endMinute : num) (hours : list Z) (h : Z) :
    list RenderFragment :=
  let hourStart := num_of_Z (h * 60) in
  let hourEnd := num_of_Z ((h + 1) * 60) in
  let overlapStart := num_max startMinute hourStart in
  let overlapEnd := num_min endMinute hourEnd in
  if num_leb overlapEnd overlapStart then []
  else
    [{| base := {| event := event (base b); date := date (base b); hour := h;
                   topPercent := num_mul (num_div (num_sub overlapStart hourStart) num60) num100;
                   heightPercent := num_mul (num_div (num_sub overlapEnd overlapStart) num60) num100;
                   isStart := if bool_decide (Some h = head hours) then isStart (base b) else false;
                   isEnd := if bool_decide (Some h = last hours) then isEnd (base b) else false |};
        columnIndex := columnIndex b; columnCount := columnCount b |}].

Definition splitFragmentIntoHours (b : RenderFragment) : option (list RenderFragment) :=
  let totalMinutes := num_of_Z (24 * 60) in
  let startMinute := num_mul (num_div (topPercent (base b)) num100) totalMinutes in
  let durationMinutes := num_mul (num_div (heightPercent (base b)) num100) totalMinutes in
  let endMinute := num_add startMinute durationMinutes in
  hours ← hour_range (num_div startMinute num60) (num_div (num_sub endMinute (num_of_Z 1)) num60);
  Some (flat_map (hour_piece b startMinute endMinute hours) hours).

(** ** Specification *)

Definition frag_ok (f : Fragment) : Prop :=
  is_number (topPercent f) = true ∧ is_number (heightPercent f) = true ∧ is_number (bottom f) = true.

(** The first ends where the second starts, or before. *)
Definition ends_before (f g : Fragment) : Prop := num_leb (bottom f) (topPercent g) = true.

(** The fragment occupies the position [p]. *)
Definition covers (p : num) (f : Fragment) : bool := num_leb (topPercent f) p && num_ltb p (bottom f).

Definition positive_height (f : Fragment) : Prop := num_ltb (topPercent f) (bottom f) = true.

(** ** Clusters *)

#[export] Instance compareFragments_comparator : Comparator compareFragments.
Proof.
  apply cmp_or_comparator; [apply (cmp_on topPercent num_cmp)|].
  split; intros; [apply (cmp_flip (cmp := num_cmp))|].
  by eapply (cmp_le_trans (cmp := num_cmp)).
Qed.

Definition top_le (f g : Fragment) : Prop := (num_cmp (topPercent f) (topPercent g) ≤ 0)%Z.

Lemma ends_before_cmp f g :
  frag_ok f → frag_ok g → ends_before f g ↔ (num_cmp (bottom f) (topPercent g) ≤ 0)%Z.
Proof. intros (_ & _ & Hb) (Ht & _ & _). unfold ends_before. by rewrite num_leb_cmp, Z.leb_le. Qed.

Lemma ends_before_top_le f g h :
  frag_ok f → frag_ok g → frag_ok h → ends_before f g → top_le g h → ends_before f h.
Proof. intros Hf Hg Hh. rewrite !ends_before_cmp by done. apply cmp_le_trans. Qed.

Lemma sorted_tops l : StronglySorted top_le (sort_by compareFragments l).
Proof.
  pose proof (sort_by_sorted compareFragments l) as H. unfold sorted_by in H.
  induction H as [|f k Hs IH Hf]; constructor; [done|].
  eapply Forall_impl; [exact Hf|]. intros g. unfold compareFragments, cmp_or, top_le.
  destruct (_ =? 0)%Z eqn:E; zsolve.
Qed.

Lemma cluster_loop_concat frags current m : concat (cluster_loop frags current m) = current ++ frags.
Proof.
  revert current m. induction frags as [|f rest IH]; intros current m; simpl.
  - destruct current; simpl; by rewrite ?app_nil_r.
  - destruct current as [|c cs]; [by rewrite IH|].
    destruct (num_geb _ _); simpl; rewrite IH; simpl; [done|]. by rewrite <- app_assoc.
Qed.

(** [m] bounds the bottoms of the open cluster. *)
Definition bounds (m : num) (current : list Fragment) : Prop :=
  is_number m = true ∧ Forall (λ f, (num_cmp (bottom f) m ≤ 0)%Z) current.

(** Every fragment of a cluster ends before each one of the later clusters starts. *)
Inductive separated : list (list Fragment) → Prop :=
| separated_nil : separated []
| separated_cons g gs :
    g ≠ [] → (∀ f h, f ∈ g → h ∈ concat gs → ends_before f h) → separated gs → separated (g :: gs).

Lemma cluster_loop_separated frags current m :
  Forall frag_ok (current ++ frags) → StronglySorted top_le frags → bounds m current →
  separated (cluster_loop frags current m).
Proof.
  revert current m. induction frags as [|f rest IH]; intros current m Hok Hs (Hm & Hb); simpl.
  { destruct current; repeat constructor; [done|]. set_solver. }
  inversion Hs as [|? ? Hs' Hf]; subst.
  assert (frag_ok f) as Hfok by (rewrite Forall_forall in Hok; apply Hok; set_solver).
  assert (bounds (bottom f) [f]) as Hbf.
  { split; [apply Hfok|]. repeat constructor. by rewrite (cmp_refl num_cmp). }
  destruct current as [|c cs]; [by apply IH|].
  destruct (num_geb (topPercent f) m) eqn:E.
  - constructor; [done| |].
    + rewrite cluster_loop_concat. cbn [app]. intros g h Hg Hh. rewrite Forall_forall in Hok, Hb, Hf.
      apply ends_before_cmp; [apply Hok; set_solver..|].
      unfold num_geb in E. change (num_leb m (topPercent f) = true) in E.
      rewrite num_leb_cmp, Z.leb_le in E by (done || apply Hfok).
      apply cmp_le_trans with m; [by apply Hb|]. apply cmp_le_trans with (topPercent f); [done|].
      apply elem_of_cons in Hh as [-> |Hh]; [by rewrite (cmp_refl num_cmp)|by apply Hf].
    + apply IH; [|done|done]. apply Forall_app in Hok as [_ ?]. done.
  - apply IH; [by rewrite <- app_assoc|done|].
    destruct (num_gtb (bottom f) m) eqn:G; unfold num_gtb in G;
      change (num_ltb m (bottom f)) with (SFltb m (bottom f)) in *.
    + split; [apply Hfok|]. change (num_ltb m (bottom f) = true) in G.
      rewrite num_ltb_cmp, Z.ltb_lt in G by (done || apply Hfok).
      apply Forall_app. split; [|apply Hbf]. eapply Forall_impl; [exact Hb|]. intros g Hg.
      apply cmp_le_trans with m; [done|lia].
    + split; [done|]. change (num_ltb m (bottom f) = false) in G.
      rewrite num_ltb_cmp, Z.ltb_ge in G by (done || apply Hfok).
      apply Forall_app. split; [done|]. repeat constructor. by apply (cmp_flip (cmp := num_cmp)).
Qed.

(** ** Columns *)

Implicit Types (placed : list (Fragment * nat)) (columns : list (list Fragment)).

Definition col_of (i : nat) placed : list Fragment := (filter (λ p, p.2 = i) placed).*1.

(** [columns] holds what was placed, column by column. *)
Definition col_inv placed columns : Prop :=
  (∀ i col, columns !! i = Some col → col = col_of i placed ∧ col ≠ []) ∧
  Forall (λ p, p.2 < length columns) placed.

(** Two fragments in the same column: the earlier one ends first. *)
Definition no_clash : list (Fragment * nat) → Prop :=
  StronglySorted (λ p q, p.2 = q.2 → ends_before p.1 q.1).

(** At some position [n] of the fragments meet. *)
Definition crowded (n : nat) (frags : list Fragment) : Prop :=
  ∃ p, n ≤ length (filter (λ f, covers p f = true) frags).

Lemma col_of_snoc i placed f j :
  col_of i (placed ++ [(f, j)]) = col_of i placed ++ (if decide (j = i) then [f] else []).
Proof.
  unfold col_of. rewrite filter_app, fmap_app, filter_cons, filter_nil. simpl. by case_decide.
Qed.

Lemma elem_of_col_of f i placed : f ∈ col_of i placed ↔ (f, i) ∈ placed.
Proof.
  unfold col_of. rewrite list_elem_of_fmap. setoid_rewrite list_elem_of_filter. split.
  - intros ([g j] & -> & [<- Hp]). done.
  - intros Hp. by exists (f, i).
Qed.

Lemma free_column_Some f columns i :
  free_column f columns = Some i →
  ∃ col l, columns !! i = Some col ∧ last col = Some l ∧ num_geb (topPercent f) (bottom l) = true.
Proof.
  revert i. induction columns as [|col columns IH]; intros i; simpl; [done|].
  destruct (last col) as [l|] eqn:El.
  - destruct (num_geb _ _) eqn:E; [intros [= <-]; eauto|].
    intros (j & Hj & ->)%fmap_Some. destruct (IH j Hj) as (c & l' & ?). eauto.
  - intros (j & Hj & ->)%fmap_Some. destruct (IH j Hj) as (c & l' & ?). eauto.
Qed.

Lemma free_column_None f columns i col l :
  free_column f columns = None → columns !! i = Some col → last col = Some l →
  num_geb (topPercent f) (bottom l) = false.
Proof.
  revert i. induction columns as [|c columns IH]; intros i; simpl; [done|]. intros H.
  destruct i as [|i]; simpl.
  - intros [= ->] Hl. revert H. rewrite Hl. by destruct (num_geb _ _).
  - apply IH. clear IH. revert H. destruct (last c) as [k|]; [|by intros ?%fmap_None].
    destruct (num_geb _ _); [done|by intros ?%fmap_None].
Qed.

#[export] Instance crowded_proper n : Proper ((≡ₚ) ==> iff) (crowded n).
Proof. intros l k H. unfold crowded. by setoid_rewrite H. Qed.

Lemma crowded_app n frags more : crowded n frags → crowded n (frags ++ more).
Proof. intros [p Hp]. exists p. rewrite filter_app, length_app. lia. Qed.

(** Fragments in [n] different columns that all cover [p]. *)
Lemma crowded_columns n p placed :
  (∀ i, i < n → ∃ f, (f, i) ∈ placed ∧ covers p f = true) → crowded n placed.*1.
Proof.
  intros H. exists p. set (k := filter (λ q, covers p q.1 = true) placed).
  assert (filter (λ f, covers p f = true) placed.*1 = k.*1) as ->.
  { unfold k. clear. induction placed as [|q placed IH]; [done|]. csimpl. rewrite !filter_cons, IH.
    by case_decide. }
  rewrite length_fmap, <- (length_fmap snd). rewrite <- (length_seq n 0) at 1.
  apply submseteq_length, NoDup_submseteq; [apply NoDup_seq|]. intros i Hi%elem_of_seq.
  destruct (H i ltac:(lia)) as (f & Hf & Hc). apply list_elem_of_fmap. exists (f, i).
  split; [done|]. unfold k. by apply list_elem_of_filter.
Qed.

Lemma col_sorted i placed : no_clash placed → StronglySorted ends_before (col_of i placed).
Proof.
  unfold no_clash, col_of. induction 1 as [|p placed Hs IH Hp]; [constructor|].
  rewrite filter_cons. case_decide as Hi; [|done]. simpl. constructor; [done|].
  apply Forall_forall. intros f ([g j] & -> & [Hj Hg]%list_elem_of_filter)%list_elem_of_fmap.
  apply (proj1 (Forall_forall _ _) Hp (g, j) Hg). simpl in *. congruence.
Qed.

Section Place.
Context (frag : Fragment) (placed : list (Fragment * nat)) (columns : list (list Fragment)).
Context (Hinv : col_inv placed columns) (Hclash : no_clash placed).
Context (Hok : Forall frag_ok (frag :: placed.*1)).
Context (Htop : Forall (λ p, top_le p.1 frag) placed).

Let i := default (length columns) (free_column frag columns).
Let columns' :=
  if decide (i < length columns) then alter (λ col, col ++ [frag]) i columns else columns ++ [[frag]].

Lemma placed_ok f j : (f, j) ∈ placed → frag_ok f ∧ top_le f frag.
Proof.
  intros Hf. rewrite Forall_forall in Hok. rewrite Forall_forall in Htop.
  split; [|by apply (Htop (f, j))].
  apply Hok, elem_of_cons. right. by apply (list_elem_of_fmap_2 fst _ (f, j)).
Qed.

Lemma place_col_inv : col_inv (placed ++ [(frag, i)]) columns'.
Proof.
  destruct Hinv as [Hc Hl]. unfold columns'. destruct (decide (i < length columns)) as [Hi|Hi].
  - split.
    + intros j col. rewrite col_of_snoc, list_lookup_alter. case_decide as Hij; [subst j|].
      * intros (c & Hcol & ->)%fmap_Some. destruct (Hc _ _ Hcol) as [-> _]. split; [done|].
        by intros [_ ?]%app_eq_nil.
      * rewrite app_nil_r. apply Hc.
    + rewrite length_alter. apply Forall_app. split; [done|]. by repeat constructor.
  - assert (i = length columns) as Hn.
    { unfold i in *. destruct (free_column frag columns) as [j|] eqn:E; [|done]. simpl in *.
      apply free_column_Some in E as (c & ? & ?%lookup_lt_Some & _). lia. }
    split.
    + intros j col. rewrite col_of_snoc. rewrite lookup_app_Some. intros [Hcol|[Hj Hcol]].
      * rewrite decide_False, app_nil_r; [by apply Hc|]. apply lookup_lt_Some in Hcol. lia.
      * apply list_lookup_singleton_Some in Hcol as [Hj' <-]. rewrite decide_True by lia.
        split; [|done]. unfold col_of. rewrite filter_none; [done|]. intros [f k] Hf Hk. cbn in Hk.
        rewrite Forall_forall in Hl. specialize (Hl _ Hf). simpl in Hl. lia.
    + rewrite length_app. apply Forall_app. split; [|repeat constructor; simpl; lia].
      eapply Forall_impl; [exact Hl|]. simpl. intros. lia.
Qed.

Lemma place_no_clash : no_clash (placed ++ [(frag, i)]).
Proof.
  unfold no_clash. apply StronglySorted_app_2; [|done|by repeat constructor].
  intros [f j] q Hf ->%list_elem_of_singleton. simpl. intros ->.
  destruct (placed_ok f i Hf) as [Hfok Hft].
  unfold i in Hf. destruct (free_column frag columns) as [k|] eqn:E; simpl in Hf.
  - apply free_column_Some in E as (col & l & Hcol & Hl & Hge).
    destruct (proj1 Hinv _ _ Hcol) as [-> _].
    change (ends_before l frag) in Hge.
    assert ((l, k) ∈ placed) as Hlp by by apply elem_of_col_of, last_Some_elem_of.
    destruct (placed_ok l k Hlp) as [Hlok Hlt]. rewrite Forall_cons in Hok.
    pose proof (col_sorted k placed Hclash) as Hsort.
    apply elem_of_col_of in Hf. apply last_Some in Hl as [k' Hk'].
    rewrite Hk' in Hf, Hsort. apply elem_of_app in Hf as [Hf| ->%list_elem_of_singleton]; [|done].
    apply (ends_before_top_le f l frag); [done|done|tauto| |done].
    eapply StronglySorted_app_1_elem_of; [exact Hsort|done|set_solver].
  - exfalso. destruct Hinv as [_ Hl]. rewrite Forall_forall in Hl. specialize (Hl _ Hf). simpl in Hl. lia.
Qed.

(** A new column is opened only where the last fragments of all columns cover the top of [frag]. *)
Lemma place_crowded :
  positive_height frag → crowded (length columns) placed.*1 →
  crowded (length columns') (placed ++ [(frag, i)]).*1.
Proof.
  intros Hpos Hcr. unfold columns'. destruct (decide (i < length columns)) as [Hi|Hi].
  - rewrite length_alter, fmap_app. by apply crowded_app.
  - destruct (free_column frag columns) as [j|] eqn:E.
    { exfalso. unfold i in Hi. simpl in Hi.
      apply free_column_Some in E as (? & ? & ?%lookup_lt_Some & _). done. }
    rewrite length_app. simpl. rewrite Nat.add_1_r.
    assert (is_number (topPercent frag) = true) as Hnum by by apply Forall_cons in Hok as [[? _] _].
    apply crowded_columns with (topPercent frag). intros k Hk.
    destruct (decide (k = length columns)) as [-> |Hne].
    + exists frag. split; [unfold i; simpl; set_solver|]. unfold covers. rewrite Hpos.
      by rewrite num_leb_cmp, (cmp_refl num_cmp) by done.
    + destruct (lookup_lt_is_Some_2 columns k ltac:(lia)) as [col Hcol].
      destruct (proj1 Hinv _ _ Hcol) as [-> Hnil].
      destruct (last (col_of k placed)) as [l|] eqn:El; [|by apply last_None in El].
      pose proof (free_column_None _ _ _ _ _ E Hcol El) as Hge.
      assert ((l, k) ∈ placed) as Hlp by by apply elem_of_col_of, last_Some_elem_of.
      destruct (placed_ok l k Hlp) as [(Hlt & _ & Hlb) Htl].
      exists l. split; [set_solver|]. unfold covers.
      change (num_leb (bottom l) (topPercent frag) = false) in Hge.
      rewrite num_leb_cmp in Hge |- * by done. rewrite num_ltb_cmp by done.
      apply Z.leb_gt in Hge. apply andb_true_iff. split; [by apply Z.leb_le|].
      apply Z.ltb_lt. pose proof (cmp_flip (cmp := num_cmp) (topPercent frag) (bottom l)).
      pose proof (cmp_flip (cmp := num_cmp) (bottom l) (topPercent frag)). lia.
Qed.
End Place.

Lemma place_loop_spec group placed columns :
  col_inv placed columns → no_clash placed → Forall frag_ok (group ++ placed.*1) →
  StronglySorted top_le (placed.*1 ++ group) →
  let '(more, final) := place_loop group columns in
  more.*1 = group ∧ col_inv (placed ++ more) final ∧ no_clash (placed ++ more) ∧
  (Forall positive_height group → crowded (length columns) placed.*1 →
   crowded (length final) (placed.*1 ++ group)).
Proof.
  revert placed columns. induction group as [|f rest IH]; intros placed columns Hinv Hcl Hok Hs; simpl.
  { by rewrite !app_nil_r. }
  set (i := default _ _). set (columns' := if decide _ then _ else _).
  assert (Forall frag_ok (f :: placed.*1)) as Hok1.
  { rewrite Forall_forall in Hok |- *. intros g Hg. apply Hok. set_solver. }
  assert (Forall (λ p, top_le p.1 f) placed) as Htop.
  { apply Forall_forall. intros p Hp. eapply StronglySorted_app_1_elem_of; [exact Hs| |set_solver].
    by apply list_elem_of_fmap_2. }
  specialize (IH (placed ++ [(f, i)]) columns'). rewrite fmap_app in IH. cbn [fmap list_fmap fst] in IH.
  destruct (place_loop rest columns') as [more final].
  destruct IH as (Hm & Hinv' & Hcl' & Hcr').
  - by apply place_col_inv.
  - by apply place_no_clash.
  - rewrite Forall_forall in Hok |- *. intros g Hg. apply Hok. set_solver.
  - by rewrite <- app_assoc.
  - rewrite <- !app_assoc in *. cbn [app] in *. split; [csimpl; by rewrite Hm|]. split; [done|].
    split; [done|]. intros [Hp Hps]%Forall_cons Hcr. apply Hcr'; [done|].
    pose proof (place_crowded f placed columns Hinv Hcl Hok1 Htop Hp Hcr) as H.
    by rewrite fmap_app in H.
Qed.

Definition same_column_in_order (a b : RenderFragment) : Prop :=
  columnIndex a = columnIndex b → ends_before (base a) (base b).

Lemma layout_group_spec group :
  Forall frag_ok group → StronglySorted top_le group →
  map base (layout_group group) = group ∧
  StronglySorted same_column_in_order (layout_group group) ∧
  Forall (λ r, columnIndex r < columnCount r) (layout_group group) ∧
  (Forall positive_height group → Forall (λ r, crowded (columnCount r) group) (layout_group group)).
Proof.
  intros Hok Hs. unfold layout_group. pose proof (place_loop_spec group [] []) as H.
  cbn [fmap list_fmap] in H. rewrite app_nil_r in H.
  destruct (place_loop group []) as [placed columns]. cbn [app] in H.
  destruct H as (Hm & [Hc Hl] & Hcl & Hcr); [split; [done|constructor]|constructor|done|done|].
  rewrite map_map. cbn [base]. split; [exact Hm|]. split; [|split].
  - clear -Hcl. unfold no_clash in Hcl. induction Hcl as [|p placed _ IH Hp]; simpl; constructor; [done|].
    apply Forall_map. eapply Forall_impl; [exact Hp|]. done.
  - by apply Forall_map.
  - intros Hpos. apply Forall_map, Forall_forall. intros p _. simpl. apply Hcr; [done|].
    exists num60. simpl. lia.
Qed.

Lemma crowded_sub n l k : l ⊆+ k → crowded n l → crowded n k.
Proof.
  intros [more ->]%submseteq_Permutation. apply crowded_app.
Qed.

Lemma layout_clusters groups :
  Forall frag_ok (concat groups) → StronglySorted top_le (concat groups) → separated groups →
  let out := flat_map layout_group groups in
  map base out = concat groups ∧ StronglySorted same_column_in_order out ∧
  Forall (λ r, columnIndex r < columnCount r) out ∧
  (Forall positive_height (concat groups) → Forall (λ r, crowded (columnCount r) (concat groups)) out).
Proof.
  intros Hok Hs Hsep. revert Hok Hs. induction Hsep as [|g gs Hne Hg Hsep IH]; intros Hok Hs; simpl.
  { repeat split; constructor. }
  simpl in *. apply Forall_app in Hok as [Hok1 Hok2]. apply StronglySorted_app in Hs as (Ht & Hs1 & Hs2).
  destruct (layout_group_spec g Hok1 Hs1) as (Hm1 & Hc1 & Hi1 & Hp1).
  destruct (IH Hok2 Hs2) as (Hm2 & Hc2 & Hi2 & Hp2).
  split; [by rewrite map_app, Hm1, Hm2|]. split; [|split; [by apply Forall_app|]].
  - apply StronglySorted_app_2; [|done|done]. intros a b Ha Hb _. apply Hg.
    + rewrite <- Hm1. by apply (list_elem_of_fmap_2 base).
    + rewrite <- Hm2. by apply (list_elem_of_fmap_2 base).
  - intros [Hpos1 Hpos2]%Forall_app. apply Forall_app. split; eapply Forall_impl.
    + by apply Hp1.
    + intros r. apply crowded_sub, submseteq_inserts_r. done.
    + by apply Hp2.
    + intros r. apply crowded_sub, submseteq_inserts_l. done.
Qed.

(** C32: The layout of a day shows every fragment once, in the order of the sort; two fragments in
    the same column never overlap; the column of a fragment is one of its column count; and no
    fragment gets more columns than there are fragments that meet at one moment. *)
Theorem layoutDayFragments_spec fragments :
  Forall frag_ok fragments →
  let out := layoutDayFragments fragments in
  map base out = sort_by compareFragments fragments ∧
  StronglySorted same_column_in_order out ∧
  Forall (λ r, columnIndex r < columnCount r) out ∧
  (Forall positive_height fragments → Forall (λ r, crowded (columnCount r) fragments) out).
Proof.
  intros Hok. pose proof (sort_by_perm compareFragments fragments) as Hperm.
  assert (Forall frag_ok (sort_by compareFragments fragments)) as Hok' by by rewrite Hperm.
  pose proof (sorted_tops fragments) as Hs.
  assert (concat (clusterByOverlap fragments) = sort_by compareFragments fragments) as Hc
    by apply cluster_loop_concat.
  assert (separated (clusterByOverlap fragments)) as Hsep.
  { by apply cluster_loop_separated; [done|done|]; split; [|constructor]. }
  pose proof (layout_clusters (clusterByOverlap fragments)) as H. cbv zeta in *. rewrite Hc in H.
  destruct (H Hok' Hs Hsep) as (H1 & H2 & H3 & H4).
  split; [exact H1|]. split; [exact H2|]. split; [exact H3|]. intros Hpos.
  eapply Forall_impl; [by apply H4; rewrite Hperm|]. intros r. apply crowded_sub. by rewrite Hperm.
Qed.

Definition ex_fragment (e : jsstr) (top height : Z) : Fragment := {|
  event := e; date := "2024-03-01"%js; hour := 0; topPercent := num_of_Z top;
  heightPercent := num_of_Z height; isStart := true; isEnd := true |}.

Definition ex_day : list Fragment :=
  [ex_fragment "a"%js 10 20; ex_fragment "b"%js 15 5; ex_fragment "c"%js 22 10; ex_fragment "d"%js 50 5].

Lemma layoutDayFragments_spec_witness :
  map base (layoutDayFragments ex_day) = sort_by compareFragments ex_day ∧
  map (λ r, (event (base r), columnIndex r, columnCount r)) (layoutDayFragments ex_day) =
    [("a", 0, 2); ("b", 1, 2); ("c", 1, 2); ("d", 0, 1)]%js.
Proof.
  split; [|vm_compute; reflexivity].
  refine (proj1 (layoutDayFragments_spec ex_day _)). by repeat constructor.
Defined.

(** ** Splitting by hours *)

(** [480 / 1440 * 100], the percentage the page computes for eight o'clock. *)
Definition percent_of_minutes (m : Z) : num :=
  num_mul (num_div (num_of_Z m) (num_of_Z 1440)) num100.

Definition one_hour_at (minute : Z) : RenderFragment := {|
  base := {| event := "e"%js; date := "2024-03-01"%js; hour := minute / 60;
             topPercent := percent_of_minutes minute; heightPercent := percent_of_minutes 60;
             isStart := true; isEnd := true |};
  columnIndex := 0; columnCount := 1 |}.

(** An event from eight to nine is cut in two: the product of the percentage is a little under
    480 minutes, so it starts in the hour before, and the piece at eight is not marked as the
    start. *)
Lemma eight_o_clock_is_split :
  map (λ r, (hour (base r), isStart (base r), isEnd (base r)))
    <$> splitFragmentIntoHours (one_hour_at 480) = Some [(7, true, false); (8, false, true)]%Z.
Proof. vm_compute. reflexivity. Qed.

Lemma seven_o_clock_is_not_split :
  map (λ r, (hour (base r), isStart (base r), isEnd (base r)))
    <$> splitFragmentIntoHours (one_hour_at 420) = Some [(7, true, true)]%Z.
Proof. vm_compute. reflexivity. Qed.
