(* ===== verification/CalActions.v ===== *)
(** * What the web application does to calendars ([apps/web/lib/actions/calendar.ts])

    The server actions of a signed-in user work on the tables of events and guests under row level
    security, and leave the rest to the jobs of the DAV worker.  The columns of an event that no action
    reads are kept as values by name. *)

From stdpp Require Import base list.
From S2P Require Import Prelude JsString JsRegex JsNumber JsValue ITip MailDb.
From S2P Require Import Proc.

(** ** Tables *)

Record GuestRow := {
  gr_id : jsstr; gr_ownerId : jsstr; gr_eventId : jsstr; gr_contactId : option jsstr; gr_email : jsstr;
  gr_name : option jsstr; gr_role : DbRole; gr_partstat : DbPartstat; gr_rsvp : bool; gr_isOrganizer : bool;
}.

Record CalEventRow := {
  ce_id : jsstr; ce_ownerId : jsstr; ce_calendarId : jsstr; ce_organizerEmail : option jsstr;
  ce_organizerName : option jsstr; ce_isAllDay : bool; ce_startsAt : Z; ce_endsAt : Z;
  ce_recurrenceRule : option jsstr; ce_isExternal : bool; ce_icalUid : option jsstr;
  ce_others : jsmap jsstr jsval;
}.

Record CalIdentityRow := { ci_id : jsstr; ci_ownerId : jsstr; ci_publicId : jsstr; ci_value : jsstr; ci_displayName : option jsstr }.
Record CalendarRow := { cal_id : jsstr; cal_ownerId : jsstr; cal_timezone : jsstr; cal_isDefault : bool }.

(** The jobs of the DAV queue. *)
Inductive DavJob :=
| CreateEvent (eventId : jsstr) (notifyAttendees : bool)
| UpdateEvent (eventId : jsstr) (notifyAttendees : bool)
| DeleteEvent (eventId : jsstr) (notifyAttendees : bool)
| ItipReply (eventId attendeeId : jsstr) (partstat : DbPartstat).

Record CalDb := {
  cal_events : list CalEventRow; guests : list GuestRow; cal_identities : list CalIdentityRow;
  cal_calendars : list CalendarRow; contact_ids : list jsstr; davJobs : list DavJob;
}.

Definition set_cal_events f s : CalDb :=
  {| cal_events := f (cal_events s); guests := guests s; cal_identities := cal_identities s;
     cal_calendars := cal_calendars s; contact_ids := contact_ids s; davJobs := davJobs s |}.
Definition set_guests f s : CalDb :=
  {| cal_events := cal_events s; guests := f (guests s); cal_identities := cal_identities s;
     cal_calendars := cal_calendars s; contact_ids := contact_ids s; davJobs := davJobs s |}.
Definition set_identities f s : CalDb :=
  {| cal_events := cal_events s; guests := guests s; cal_identities := f (cal_identities s);
     cal_calendars := cal_calendars s; contact_ids := contact_ids s; davJobs := davJobs s |}.
Definition set_calendars f s : CalDb :=
  {| cal_events := cal_events s; guests := guests s; cal_identities := cal_identities s;
     cal_calendars := f (cal_calendars s); contact_ids := contact_ids s; davJobs := davJobs s |}.
Definition add_dav_job j s : CalDb :=
  {| cal_events := cal_events s; guests := guests s; cal_identities := cal_identities s;
     cal_calendars := cal_calendars s; contact_ids := contact_ids s; davJobs := davJobs s ++ [j] |}.

Abbreviation cal := (prog CalDb).

(** ** Guests *)

Record UiGuest := { ug_email : jsstr; ug_name : option jsstr; ug_contactId : option jsstr; ug_isOrganizer : bool }.
Record AttendeePayload := { initialGuests : option (list UiGuest); newGuests : option (list UiGuest) }.

Definition guest_key (g : UiGuest) : jsstr := toLowerCase (ug_email g).
Definition row_key (r : GuestRow) : jsstr := toLowerCase (gr_email r).

(** [new Map(l.map((x) => [key(x), x]))]: a later one takes the place of an earlier one. *)
Definition map_by {A} (key : A → jsstr) (l : list A) : jsmap jsstr A := foldl (λ m x, jm_set (key x) x m) [] l.

Definition dedupedGuests (p : AttendeePayload) : list UiGuest :=
  (map_by guest_key (default [] (initialGuests p) ++ default [] (newGuests p))).*2.

(** [a ?? b] *)
Definition nullish {A} (a b : option A) : option A := match a with Some _ => a | None => b end.

Section Organizer.
Context (organizerEmail organizerName : option jsstr) (deduped : list UiGuest) (existing : list GuestRow).

Definition existingOrganizer : option GuestRow := List.find gr_isOrganizer existing.
Definition given_organizer : option jsstr := toLowerCase <$> organizerEmail.

Definition organizerGuestFromPayload : option UiGuest :=
  nullish (List.find ug_isOrganizer deduped)
    (if opt_truthy given_organizer then List.find (λ g, bool_decide (Some (guest_key g) = given_organizer)) deduped else None).

(** The address of the organizer; [None] and the empty text when there is none. *)
Definition normalizedOrganizer : option jsstr :=
  let n := if opt_truthy given_organizer then given_organizer
           else match organizerGuestFromPayload with Some g => Some (guest_key g) | None => given_organizer end in
  if opt_truthy n then n else match existingOrganizer with Some a => Some (row_key a) | None => n end.

Definition desiredOrganizerName : option jsstr :=
  nullish organizerName (nullish (organizerGuestFromPayload ≫= ug_name) (existingOrganizer ≫= gr_name)).
Definition desiredOrganizerContactId : option jsstr :=
  nullish (organizerGuestFromPayload ≫= ug_contactId) (existingOrganizer ≫= gr_contactId).
End Organizer.

Section User.
(** The signed-in user, new ids, and what the database reads as a uuid. *)
Context (uid : jsstr) (new_id : CalDb → jsstr) (is_uuid : jsstr → bool).

(** A transaction of the user: an error takes everything back. *)
Definition rls {A} (p : cal A) : cal A := λ s, match p s with (s', Done a) => (s', Done a) | (_, Threw) => (s, Threw) end.

Definition event_guests (eventId : jsstr) (s : CalDb) : list GuestRow :=
  List.filter (λ r, bool_decide (gr_ownerId r = uid) && bool_decide (gr_eventId r = eventId)) (guests s).

Definition contact_known (s : CalDb) (c : option jsstr) : bool :=
  match c with Some i => bool_decide (i ∈ contact_ids s) | None => true end.

(** The foreign keys, and the unique key [(event_id, email)]. *)
Definition insert_guest (eventId email : jsstr) (name contactId : option jsstr) (isOrganizer : bool) (role : DbRole)
    (partstat : DbPartstat) : cal unit :=
  s ← read;
  if negb (existsb (λ e, bool_decide (ce_id e = eventId)) (cal_events s)) || negb (contact_known s contactId) ||
     existsb (λ r, bool_decide (gr_eventId r = eventId) && bool_decide (gr_email r = email)) (guests s)
  then throw
  else modify (set_guests (λ l, l ++
         [{| gr_id := new_id s; gr_ownerId := uid; gr_eventId := eventId; gr_contactId := contactId; gr_email := email;
             gr_name := name; gr_role := role; gr_partstat := partstat; gr_rsvp := false; gr_isOrganizer := isOrganizer |}])).

Definition with_id (ids : list jsstr) (r : GuestRow) : bool :=
  bool_decide (gr_ownerId r = uid) && bool_decide (gr_id r ∈ ids).

Definition demote (r : GuestRow) : GuestRow :=
  {| gr_id := gr_id r; gr_ownerId := gr_ownerId r; gr_eventId := gr_eventId r; gr_contactId := gr_contactId r;
     gr_email := gr_email r; gr_name := gr_name r; gr_role := req_participant; gr_partstat := gr_partstat r;
     gr_rsvp := gr_rsvp r; gr_isOrganizer := false |}.
Definition promote (name contactId : option jsstr) (r : GuestRow) : GuestRow :=
  {| gr_id := gr_id r; gr_ownerId := gr_ownerId r; gr_eventId := gr_eventId r; gr_contactId := contactId;
     gr_email := gr_email r; gr_name := name; gr_role := chair; gr_partstat := gr_partstat r;
     gr_rsvp := gr_rsvp r; gr_isOrganizer := true |}.

(** The organizer takes the place of another. *)
Definition put_organizer (eventId organizer : jsstr) (name contactId : option jsstr) (existing : list GuestRow) : cal unit :=
  _ ← modify (set_guests (update_where
        (with_id (map gr_id (List.filter (λ a, gr_isOrganizer a && negb (bool_decide (row_key a = organizer))) existing))) demote));
  match jm_get organizer (map_by row_key existing) with
  | None => insert_guest eventId organizer name contactId true chair accepted
  | Some m =>
      s ← read;
      if contact_known s contactId then modify (set_guests (update_where (with_id [gr_id m]) (promote name contactId))) else throw
  end.

(** The guests that are no longer named, as they were before the organizer was put. *)
Definition to_delete (desired : list jsstr) (existing : list GuestRow) : list jsstr :=
  map gr_id (List.filter (λ a, negb (gr_isOrganizer a) && negb (bool_decide (row_key a ∈ desired))) existing).

Definition add_guest (eventId : jsstr) (existing : list GuestRow) (g : UiGuest) : cal unit :=
  match jm_get (guest_key g) (map_by row_key existing) with
  | Some _ => mret tt
  | None => insert_guest eventId (ug_email g) (ug_name g) (ug_contactId g) false req_participant needs_action
  end.

Definition syncEventAttendees (eventId : jsstr) (organizerEmail organizerName : option jsstr)
    (attendeePayload : option AttendeePayload) : cal unit :=
  match attendeePayload with
  | None => mret tt
  | Some p =>
      s ← read;
      let deduped := dedupedGuests p in
      let existing := event_guests eventId s in
      let organizer := normalizedOrganizer organizerEmail deduped existing in
      if negb (opt_truthy organizer) then mret tt
      else
        let o := default [] organizer in
        _ ← put_organizer eventId o (desiredOrganizerName organizerEmail organizerName deduped existing)
              (desiredOrganizerContactId organizerEmail deduped existing) existing;
        let others := List.filter (λ g, negb (bool_decide (guest_key g = o))) deduped in
        _ ← modify (set_guests (List.filter (λ r, negb (with_id (to_delete (map guest_key others) existing) r))));
        each (add_guest eventId existing) others
  end.

(** ** Events *)

(** The fields of the form; [decode] and [JSON.parse] made them. *)
Record EventForm := {
  ef_tz : jsstr; ef_startsAt : jsstr; ef_endsAt : jsstr; ef_eventId : option jsstr; ef_notifyAttendees : jsval;
  ef_attendeePayload : option AttendeePayload; ef_isAllDay : jsval; ef_recurrenceRule : jsval;
  ef_organizerIdentityId : jsval; ef_newOrganizerName : option jsstr; ef_rest : list (jsstr * jsval);
}.

(** The texts of a form read in a zone ([dayjs]): the start and the end of their day, or the time itself;
    [None] is the invalid date. *)
Context (day_start day_end local_time : jsstr → jsstr → option Z).
(** What the schemas of an insert and of an update let through of the other fields: the calendar, when it
    is given, and columns by name; [None] is an error. *)
Context (insert_schema update_schema : list (jsstr * jsval) → option (option jsstr * list (jsstr * jsval))).

Definition checked (on_true : bool) (v : jsval) : bool :=
  match v with
  | VStr s => bool_decide (s = "on"%js) || (on_true && bool_decide (s = "true"%js))
  | VBool b => b
  | _ => false
  end.

Definition rule_of (v : jsval) : option jsstr :=
  match v with VStr s => if truthy (trim s) then Some (trim s) else None | _ => None end.

Definition times_of (f : EventForm) : option (Z * Z) :=
  if checked true (ef_isAllDay f) then
    s ← day_start (ef_startsAt f) (ef_tz f); e ← day_end (ef_endsAt f) (ef_tz f); Some (s, e)
  else s ← local_time (ef_startsAt f) (ef_tz f); e ← local_time (ef_endsAt f) (ef_tz f); Some (s, e).

Definition set_columns (cs : list (jsstr * jsval)) (m : jsmap jsstr jsval) : jsmap jsstr jsval :=
  foldl (λ m c, jm_set c.1 c.2 m) m cs.

Definition updated_event (calendarId : option jsstr) (columns : list (jsstr * jsval)) (times : Z * Z) (isAllDay : bool)
    (organizerEmail organizerName recurrenceRule : option jsstr) (r : CalEventRow) : CalEventRow :=
  {| ce_id := ce_id r; ce_ownerId := ce_ownerId r; ce_calendarId := default (ce_calendarId r) calendarId;
     ce_organizerEmail := organizerEmail; ce_organizerName := organizerName; ce_isAllDay := isAllDay;
     ce_startsAt := times.1; ce_endsAt := times.2; ce_recurrenceRule := recurrenceRule; ce_isExternal := ce_isExternal r;
     ce_icalUid := ce_icalUid r; ce_others := set_columns columns (ce_others r) |}.

(** The columns of a new event that have a default value are not in the form. *)
Definition new_event (i calendarId : jsstr) : CalEventRow :=
  {| ce_id := i; ce_ownerId := uid; ce_calendarId := calendarId; ce_organizerEmail := None; ce_organizerName := None;
     ce_isAllDay := false; ce_startsAt := 0; ce_endsAt := 0; ce_recurrenceRule := None; ce_isExternal := false;
     ce_icalUid := None; ce_others := [] |}.

Definition own_event (i : jsstr) (r : CalEventRow) : bool := bool_decide (ce_ownerId r = uid) && bool_decide (ce_id r = i).
Definition calendar_known (s : CalDb) (i : jsstr) : bool := existsb (λ c, bool_decide (cal_id c = i)) (cal_calendars s).

Definition with_displayName (n : jsstr) (r : CalIdentityRow) : CalIdentityRow :=
  {| ci_id := ci_id r; ci_ownerId := ci_ownerId r; ci_publicId := ci_publicId r; ci_value := ci_value r;
     ci_displayName := Some n |}.

(** [eventId && String(eventId).length > 0] *)
Definition given_id (f : EventForm) : option jsstr :=
  match ef_eventId f with Some i => if truthy i then Some i else None | None => None end.

Definition own_identity (i : jsstr) (r : CalIdentityRow) : bool :=
  bool_decide (ci_ownerId r = uid) && bool_decide (ci_id r = i).

(** The transaction: the id of the event. *)
Definition store_event (f : EventForm) (times : option (Z * Z)) : cal jsstr :=
  let identityId := js_to_string (ef_organizerIdentityId f) in
  if negb (is_uuid identityId) then throw
  else
    s ← read;
    let identity := List.find (own_identity identityId) (cal_identities s) in
    let organizerEmail := ci_value <$> identity in
    let organizerName := match identity with Some r => ci_displayName r | None => ef_newOrganizerName f end in
    let isAllDay := checked true (ef_isAllDay f) in
    let columns p t := updated_event p.1 p.2 t isAllDay organizerEmail organizerName (rule_of (ef_recurrenceRule f)) in
    times ← or_throw times;
    finalEventId ← (match given_id f with
      | Some i =>
          parsed ← or_throw (update_schema (ef_rest f));
          if negb (is_uuid i) || negb (default true (calendar_known s <$> parsed.1)) then throw
          else _ ← modify (set_cal_events (update_where (own_event i) (columns parsed times))); mret i
      | None =>
          parsed ← or_throw (insert_schema (ef_rest f));
          calendarId ← or_throw (parsed.1);
          if negb (calendar_known s calendarId) then throw
          else
            let i := new_id s in
            _ ← modify (set_cal_events (λ l, l ++ [columns parsed times (new_event i calendarId)]));
            _ ← (if opt_truthy (ef_newOrganizerName f)
                 then modify (set_identities (update_where (own_identity identityId) (with_displayName (default [] (ef_newOrganizerName f)))))
                 else mret tt);
            mret i
      end);
    _ ← syncEventAttendees finalEventId organizerEmail organizerName (ef_attendeePayload f);
    mret finalEventId.

Definition upsertCalendarEvent (f : EventForm) : cal unit :=
  finalEventId ← rls (store_event f (times_of f));
  let notify := checked false (ef_notifyAttendees f) in
  modify (add_dav_job (if opt_truthy (ef_eventId f) then UpdateEvent finalEventId notify else CreateEvent finalEventId notify)).

(** Actions that wait for the worker: what it does until their job has ended. *)
Context (worker : DavJob → cal unit).

Definition run_dav_job (j : DavJob) : cal unit := _ ← modify (add_dav_job j); worker j.

Definition deleteCalendarEvent (i : jsstr) : cal unit :=
  _ ← run_dav_job (DeleteEvent i true);
  modify (set_cal_events (List.filter (λ r, negb (own_event i r)))).

Definition yesCalendarInvite (eventId attendeeId : jsstr) : cal unit := run_dav_job (ItipReply eventId attendeeId accepted).
Definition noCalendarInvite (eventId attendeeId : jsstr) : cal unit := run_dav_job (ItipReply eventId attendeeId declined).
Definition maybeCalendarInvite (eventId attendeeId : jsstr) : cal unit := run_dav_job (ItipReply eventId attendeeId tentative).

Definition with_timezone (z : jsstr) (c : CalendarRow) : CalendarRow :=
  {| cal_id := cal_id c; cal_ownerId := cal_ownerId c; cal_timezone := z; cal_isDefault := cal_isDefault c |}.

(** Whether it succeeded. *)
Definition updateCalendarTimezone (calendarId : jsval) (timezone : option jsstr) : cal bool :=
  let i := js_to_string calendarId in
  if negb (truthy i) then mret false
  else
    _ ← modify (set_calendars (update_where (λ c, bool_decide (cal_ownerId c = uid) && bool_decide (cal_id c = i))
          (with_timezone (opt_or timezone "UTC"%js))));
    mret true.

(** ** Reading *)

Definition own_calendar_event (calendarId : jsstr) (r : CalEventRow) : bool :=
  bool_decide (ce_ownerId r = uid) && bool_decide (ce_calendarId r = calendarId).

Definition fetchDefaultCalendar (s : CalDb) : option CalendarRow :=
  List.find (λ c, bool_decide (cal_ownerId c = uid) && cal_isDefault c) (cal_calendars s).

Definition fetchCalendarEvents (calendarId : jsstr) (from to : option Z) (s : CalDb) : list CalEventRow :=
  List.filter (λ r, own_calendar_event calendarId r &&
    default true ((λ t, t <=? ce_endsAt r)%Z <$> from) && default true ((λ t, ce_startsAt r <=? t)%Z <$> to)) (cal_events s).

Definition fetchCalendarEventsForRange (calendarId : jsstr) (from to : Z) (s : CalDb) : list CalEventRow :=
  List.filter (λ r, own_calendar_event calendarId r &&
    match ce_recurrenceRule r with
    | None => (ce_startsAt r <=? to)%Z && (from <=? ce_endsAt r)%Z
    | Some _ => (ce_startsAt r <=? to)%Z
    end) (cal_events s).

Definition fetchEventAttendees (eventIds : list jsstr) (s : CalDb) : jsmap jsstr (list GuestRow) :=
  match eventIds with
  | [] => []
  | _ => group_by gr_eventId (List.filter (λ r, bool_decide (gr_ownerId r = uid) && bool_decide (gr_eventId r ∈ eventIds)) (guests s))
  end.

Definition organizer_label (r : CalIdentityRow) : jsstr :=
  if opt_truthy (ci_displayName r) then default [] (ci_displayName r) ++ " <"%js ++ ci_value r ++ ">"%js else ci_value r.

(** The value, the name and the label of each identity. *)
Definition fetchOrganizers (s : CalDb) : list (jsstr * option jsstr * jsstr) :=
  map (λ r, (ci_id r, ci_displayName r, organizer_label r)) (List.filter (λ r, bool_decide (ci_ownerId r = uid)) (cal_identities s)).
End User.

(** ** Invitations in a message *)

Record CalAttachment := { ca_contentType : option jsstr; ca_filenameOriginal : option jsstr; ca_path : jsstr }.

Definition isCalendar (a : CalAttachment) : bool :=
  let ct := toLowerCase (opt_or (ca_contentType a) []) in
  let fn := toLowerCase (opt_or (ca_filenameOriginal a) []) in
  includes ct "text/calendar"%js || includes ct "application/ics"%js ||
  (includes ct "application/octet-stream"%js && endsWith fn ".ics"%js) || endsWith fn ".ics"%js || endsWith fn ".calendar"%js.

(** [/\r?\n[ \t]/g] *)
Definition fold_re : regex :=
  rseq [ropt (rchar creturn); rchar newline; RChr (λ a, bool_decide (a = " "%char ∨ a = "009"%char))].

(** A multi-line pattern reads line by line; [.] is no line end. *)
Definition uid_line (l : jsstr) : option jsstr :=
  if startsWith l "UID:"%js && negb (bool_decide (drop 4 l = [])) then Some (trim (drop 4 l)) else None.

Fixpoint text_lines (s : jsstr) : list jsstr :=
  match s with
  | [] => [[]]
  | a :: s' =>
      if bool_decide (a = newline ∨ a = creturn) then [] :: text_lines s'
      else match text_lines s' with l :: ls => (a :: l) :: ls | [] => [[a]] end
  end.

Fixpoint first_some {A B} (f : A → option B) (l : list A) : option B :=
  match l with [] => None | x :: l' => match f x with Some b => Some b | None => first_some f l' end end.

Definition extractIcalUid (icsText : jsstr) : option jsstr :=
  first_some uid_line (text_lines (re_replace_all fold_re (λ _, []) icsText)).

(** The stored object at a path, as text. *)
Definition fetchEventPreviewItems (uid : jsstr) (download : jsstr → option jsstr) (attachments : list CalAttachment)
    (identityPublicId : jsstr) (s : CalDb) : option (CalEventRow * list GuestRow * option CalIdentityRow) :=
  match List.find isCalendar attachments with
  | None => None
  | Some a =>
      let icalUid := match download (ca_path a) with
                     | Some raw => if truthy raw then extractIcalUid raw else None
                     | None => None
                     end in
      match List.find (λ r, bool_decide (ce_ownerId r = uid) && bool_decide (ce_icalUid r = Some (default "null"%js icalUid)))
              (cal_events s) with
      | None => None
      | Some e => Some (e, event_guests uid (ce_id e) s,
                        List.find (λ r, bool_decide (ci_ownerId r = uid) && bool_decide (ci_publicId r = identityPublicId)) (cal_identities s))
      end
  end.
