(* ===== verification/CalActionsSpecs.v ===== *)
(** * The guests of an event

    The form of an event sends the guests it had and the new ones; what the table holds afterwards, and
    what the worker is asked to do. *)

From stdpp Require Import base list.
From S2P Require Import Prelude JsString JsRegex JsNumber JsValue ITip MailDb DavMirror CalActions.
From S2P Require Import Proc.

(** ** Guests by address *)

Lemma map_by_snoc {A} (key : A → jsstr) l x : map_by key (l ++ [x]) = jm_set (key x) x (map_by key l).
Proof. unfold map_by. by rewrite foldl_app. Qed.

Lemma map_by_keys {A} (key : A → jsstr) l k x : (k, x) ∈ map_by key l → k = key x ∧ x ∈ l.
Proof.
  revert k x. induction l as [|y l IH] using rev_ind; intros k x; [by intros ?%elem_of_nil|]. rewrite map_by_snoc. intros H.
  assert (NoDup (map_by key l).*1) as Hnd.
  { clear. induction l as [|z l IH] using rev_ind; [constructor|]. rewrite map_by_snoc. by apply jm_set_NoDup. }
  apply jm_elem_of_get in H; [|by apply jm_set_NoDup]. rewrite jm_get_set in H. case_decide as E.
  - injection H as ->. set_solver.
  - apply jm_get_elem_of, IH in H. set_solver.
Qed.

Lemma map_by_NoDup {A} (key : A → jsstr) l : NoDup (map_by key l).*1.
Proof. induction l as [|x l IH] using rev_ind; [constructor|]. rewrite map_by_snoc. by apply jm_set_NoDup. Qed.

Lemma map_by_dom {A} (key : A → jsstr) l k : k ∈ (map_by key l).*1 ↔ k ∈ map key l.
Proof.
  induction l as [|x l IH] using rev_ind; [done|]. rewrite map_by_snoc, jm_set_keys, map_app. simpl.
  case_decide; set_solver.
Qed.

Lemma map_by_Some {A} (key : A → jsstr) l k x : jm_get k (map_by key l) = Some x → key x = k ∧ x ∈ l.
Proof. intros [-> H]%jm_get_elem_of%map_by_keys. done. Qed.

Lemma map_by_None {A} (key : A → jsstr) l k : jm_get k (map_by key l) = None ↔ k ∉ map key l.
Proof. by rewrite jm_get_None, map_by_dom. Qed.

Lemma deduped_keys p : map guest_key (dedupedGuests p) = (map_by guest_key (default [] (initialGuests p) ++ default [] (newGuests p))).*1.
Proof.
  unfold dedupedGuests. set (l := _ ++ _). unfold fmap. rewrite map_map. apply map_ext_in. intros [k x] H%list_elem_of_In.
  by apply map_by_keys in H as [-> _].
Qed.

Lemma deduped_NoDup p : NoDup (map guest_key (dedupedGuests p)).
Proof. rewrite deduped_keys. apply map_by_NoDup. Qed.

(** ** The organizer *)

Lemma normalized_lower organizerEmail deduped existing o :
  normalizedOrganizer organizerEmail deduped existing = Some o → toLowerCase o = o.
Proof.
  assert (∀ x, Some (toLowerCase x) = Some o → toLowerCase o = o) as H by (intros x [= <-]; apply toLowerCase_idemp).
  assert (given_organizer organizerEmail = Some o → toLowerCase o = o) as Hg.
  { unfold given_organizer. destruct organizerEmail; simpl; [apply H|done]. }
  unfold normalizedOrganizer. repeat case_match; eauto.
Qed.

Lemma filter_comm {A} (P Q : A → bool) l : List.filter P (List.filter Q l) = List.filter Q (List.filter P l).
Proof. rewrite !filter_andb. apply List.filter_ext. intros x. apply andb_comm. Qed.

Lemma filter_update {A} (P Q : A → bool) f (l : list A) :
  (∀ x, Q (f x) = Q x) → List.filter Q (update_where P f l) = update_where P f (List.filter Q l).
Proof.
  intros Hf. unfold update_where. induction l as [|x l IH]; [done|]. simpl. rewrite IH.
  assert (Q (if P x then f x else x) = Q x) as -> by (destruct (P x); [apply Hf|done]). by destruct (Q x).
Qed.

Lemma update_where_ext {A} (P Q : A → bool) f l : (∀ x, x ∈ l → P x = Q x) → update_where P f l = update_where Q f l.
Proof. intros H. apply map_ext_in. intros x Hx. by rewrite H by by apply list_elem_of_In. Qed.

Lemma update_where_map {A B} (g : A → B) P f l : (∀ x, g (f x) = g x) → map g (update_where P f l) = map g l.
Proof. intros Hf. unfold update_where. rewrite map_map. apply map_ext. intros x. by destruct (P x). Qed.

(** The row with a key, when keys are different. *)
Lemma filter_one_key {A} (key : A → jsstr) l x k :
  NoDup (map key l) → x ∈ l → key x = k → List.filter (λ y, bool_decide (key y = k)) l = [x].
Proof.
  intros Hnd Hx <-. induction l as [|y l IH]; [set_solver|]. cbn [map] in Hnd. apply NoDup_cons in Hnd as [Hy Hnd]. simpl.
  apply elem_of_cons in Hx as [-> | Hx].
  - rewrite bool_decide_true by done. f_equal. rewrite <- (list_filter_bool (λ z, key z = key y)).
    apply filter_none. intros z Hz E. apply Hy. rewrite <- E. by apply list_elem_of_fmap_2.
  - rewrite bool_decide_false; [by apply IH|]. intros E. apply Hy. rewrite E. by apply list_elem_of_fmap_2.
Qed.

Section Guests.
Context (uid : jsstr) (new_id : CalDb → jsstr) (fresh : ∀ s, new_id s ∉ map gr_id (guests s)).
Context (e : jsstr).

Definition mine (r : GuestRow) : bool := bool_decide (gr_ownerId r = uid) && bool_decide (gr_eventId r = e).
Definition keys (s : CalDb) : list jsstr := map row_key (event_guests uid e s).
Definition elsewhere (s : CalDb) : list GuestRow := List.filter (λ r, negb (bool_decide (gr_eventId r = e))) (guests s).

(** The event is there, its guests belong to the user and have different addresses, and the keys of the
    table hold. *)
Record guests_ok (s : CalDb) : Prop := {
  go_event : existsb (λ r, bool_decide (ce_id r = e)) (cal_events s) = true;
  go_own : ∀ r, r ∈ guests s → gr_eventId r = e → gr_ownerId r = uid;
  go_ids : NoDup (map gr_id (guests s));
  go_keys : NoDup (keys s);
  go_contacts : ∀ r, r ∈ guests s → contact_known s (gr_contactId r) = true;
}.

Lemma elem_of_guests s r : r ∈ event_guests uid e s ↔ r ∈ guests s ∧ mine r = true.
Proof. unfold event_guests. by rewrite !filter_elem. Qed.

Lemma insert_run email name contactId isOrganizer role partstat s :
  guests_ok s → toLowerCase email ∉ keys s → contact_known s contactId = true →
  ∃ row s', insert_guest uid new_id e email name contactId isOrganizer role partstat s = (s', Done tt) ∧ guests_ok s' ∧
    event_guests uid e s' = event_guests uid e s ++ [row] ∧ elsewhere s' = elsewhere s ∧ contact_ids s' = contact_ids s ∧
    row_key row = toLowerCase email ∧ gr_isOrganizer row = isOrganizer ∧ gr_id row ∉ map gr_id (event_guests uid e s).
Proof.
  intros Hok Hk Hc. unfold insert_guest. rewrite read_bind, (go_event _ Hok), Hc. cbn [negb orb].
  destruct (existsb _ (guests s)) eqn:E.
  - exfalso. apply existsb_exists in E as (r & Hr%list_elem_of_In & H). bool_to_prop. apply Hk. apply list_elem_of_fmap.
    exists r. split; [unfold row_key; congruence|]. apply elem_of_guests. split; [done|]. unfold mine.
    rewrite !bool_decide_true; [done..|]. by apply (go_own _ Hok).
  - set (row := {| gr_id := new_id s |}). eexists row, _. split; [done|].
    assert (event_guests uid e (set_guests (λ l, l ++ [row]) s) = event_guests uid e s ++ [row]) as Hev.
    { unfold event_guests. simpl. rewrite List.filter_app. simpl. by rewrite !bool_decide_true. }
    split; [|split; [exact Hev|split; [|repeat split]]].
    + split; simpl.
      * apply (go_event _ Hok).
      * intros r [Hr| ->%list_elem_of_singleton]%elem_of_app; [by apply (go_own _ Hok)|done].
      * rewrite map_app. apply NoDup_app. split; [apply (go_ids _ Hok)|]. split; [|apply NoDup_singleton].
        intros x Hx ->%list_elem_of_singleton. by apply (fresh s).
      * unfold keys. rewrite Hev, map_app. apply NoDup_app. split; [apply (go_keys _ Hok)|]. split; [|apply NoDup_singleton].
        intros x Hx ->%list_elem_of_singleton. by apply Hk.
      * intros r [Hr| ->%list_elem_of_singleton]%elem_of_app; [by apply (go_contacts _ Hok)|done].
    + unfold elsewhere. simpl. rewrite List.filter_app. simpl. rewrite bool_decide_true by done. apply app_nil_r.
    + intros (r & E' & [Hr _]%elem_of_guests)%list_elem_of_fmap. apply (fresh s). simpl in E'. rewrite E'.
      by apply list_elem_of_fmap_2.
Qed.

(** Rows named by their ids are those of a selection. *)
Lemma with_ids P s r :
  guests_ok s → r ∈ guests s → with_id uid (map gr_id (List.filter P (event_guests uid e s))) r = mine r && P r.
Proof.
  intros Hok Hr. unfold with_id. apply eq_true_iff_eq. rewrite !andb_true_iff, !bool_decide_eq_true. split.
  - intros [Ho (x & E & [[Hx Hm]%elem_of_guests HP]%filter_elem)%list_elem_of_fmap].
    by rewrite (unique_row gr_id (guests s) r x (go_ids _ Hok) Hr Hx E).
  - intros [Hm HP]. unfold mine in Hm. split; [by bool_to_prop|]. apply list_elem_of_fmap. exists r. split; [done|].
    rewrite filter_elem, elem_of_guests. done.
Qed.

Definition keeps_identity (f : GuestRow → GuestRow) : Prop :=
  ∀ r, gr_id (f r) = gr_id r ∧ gr_ownerId (f r) = gr_ownerId r ∧ gr_eventId (f r) = gr_eventId r ∧ gr_email (f r) = gr_email r ∧
    gr_partstat (f r) = gr_partstat r ∧ gr_rsvp (f r) = gr_rsvp r.

(** An update of a selection of the guests. *)
Lemma update_run P f s :
  guests_ok s → keeps_identity f → (∀ r, r ∈ guests s → contact_known s (gr_contactId (f r)) = true) →
  let s' := set_guests (update_where (with_id uid (map gr_id (List.filter P (event_guests uid e s)))) f) s in
  guests_ok s' ∧ event_guests uid e s' = update_where P f (event_guests uid e s) ∧ elsewhere s' = elsewhere s.
Proof.
  intros Hok Hf Hc s'. set (ids := map gr_id _) in *.
  assert (event_guests uid e s' = update_where P f (event_guests uid e s)) as Hev.
  { unfold event_guests at 1. simpl. rewrite filter_update by (intros x; destruct (Hf x) as (_ & -> & -> & _); done).
    apply update_where_ext. intros x [Hx Hm]%elem_of_guests. unfold ids. by rewrite with_ids, Hm. }
  assert (∀ r, r ∈ guests s' → ∃ x, x ∈ guests s ∧ (r = x ∨ r = f x)) as Hrows.
  { intros r (x & -> & Hx)%list_elem_of_fmap. exists x. split; [done|]. destruct (with_id _ _ _); auto. }
  split; [|split; [exact Hev|]].
  - split.
    + apply (go_event _ Hok).
    + intros r (x & Hx & [->| ->])%Hrows; [by apply (go_own _ Hok)|]. destruct (Hf x) as (_ & -> & -> & _). by apply (go_own _ Hok).
    + simpl. rewrite update_where_map by (intros x; apply Hf). apply (go_ids _ Hok).
    + unfold keys. rewrite Hev, update_where_map; [apply (go_keys _ Hok)|]. intros x. unfold row_key. by destruct (Hf x) as (_ & _ & _ & -> & _).
    + intros r (x & Hx & [->| ->])%Hrows; [by apply (go_contacts _ Hok)|by apply Hc].
  - unfold elsewhere. simpl. rewrite filter_update by (intros x; destruct (Hf x) as (_ & _ & -> & _); done).
    apply update_where_none. intros x Hx%filter_elem. destruct Hx as [Hx Hne].
    unfold ids. rewrite with_ids by done. unfold mine. bool_to_prop. rewrite (bool_decide_false (gr_eventId x = e)) by done. by rewrite andb_false_r.
Qed.

Lemma demote_identity : keeps_identity demote.
Proof. by intros r. Qed.
Lemma promote_identity name contactId : keeps_identity (promote name contactId).
Proof. by intros r. Qed.

Definition demoted (o : jsstr) (r : GuestRow) : bool := gr_isOrganizer r && negb (bool_decide (row_key r = o)).

(** What one step leaves of the guests: it keeps the rows with their ids, addresses and answers. *)
Definition carries (rows rows' : list GuestRow) (r : GuestRow) : Prop :=
  r ∈ rows → ∃ r', r' ∈ rows' ∧ gr_id r' = gr_id r ∧ row_key r' = row_key r ∧ gr_partstat r' = gr_partstat r ∧ gr_rsvp r' = gr_rsvp r.

Lemma carries_trans l1 l2 l3 r :
  carries l1 l2 r → (∀ r', gr_id r' = gr_id r → row_key r' = row_key r → carries l2 l3 r') → carries l1 l3 r.
Proof.
  intros H1 H2 Hr. destruct (H1 Hr) as (r' & Hr' & Ei & Ek & Ep & Ev). destruct (H2 r' Ei Ek Hr') as (x & Hx & ? & ? & ? & ?).
  exists x. split; [done|]. repeat split; congruence.
Qed.

Lemma carries_update P f l r : keeps_identity f → carries l (update_where P f l) r.
Proof.
  intros Hf Hr. exists (if P r then f r else r). split; [by apply (list_elem_of_fmap_2 (λ r, if P r then f r else r))|].
  destruct (P r); [|done]. destruct (Hf r) as (? & _ & _ & Hem & ? & ?). unfold row_key. by rewrite Hem.
Qed.

Lemma carries_app l k r : carries l (l ++ k) r.
Proof. intros Hr. exists r. split; [apply elem_of_app; by left|done]. Qed.

(** The other organizers are none any more. *)
Definition demote_others (o : jsstr) (s : CalDb) : CalDb :=
  set_guests (update_where (with_id uid (map gr_id (List.filter (demoted o) (event_guests uid e s)))) demote) s.

Lemma demote_run o s :
  guests_ok s →
  let s1 := demote_others o s in
  guests_ok s1 ∧ event_guests uid e s1 = update_where (demoted o) demote (event_guests uid e s) ∧
  elsewhere s1 = elsewhere s ∧ keys s1 = keys s ∧
  (∀ r, r ∈ event_guests uid e s1 → ∃ x, x ∈ event_guests uid e s ∧ gr_id x = gr_id r ∧ row_key x = row_key r ∧
    (row_key r ≠ o → gr_isOrganizer r = false)).
Proof.
  intros Hok s1. pose proof (update_run (demoted o) demote s Hok demote_identity (go_contacts _ Hok)) as (Hok1 & Hev1 & Hel1).
  change (set_guests _ s) with s1 in Hok1, Hev1, Hel1. do 3 (split; [done|]). split.
  - unfold keys. rewrite Hev1. by apply update_where_map.
  - rewrite Hev1. intros r (x & -> & Hx)%list_elem_of_fmap. exists x. split; [done|]. destruct (demoted o x) eqn:D; [done|].
    repeat split. intros Hne. unfold demoted in D. rewrite bool_decide_false in D by done. by rewrite andb_true_r in D.
Qed.

(** The organizer is put: nobody else is one, and all the guests stay. *)
Lemma put_organizer_run o name contactId s :
  guests_ok s → toLowerCase o = o → contact_known s contactId = true →
  ∃ s', put_organizer uid new_id e o name contactId (event_guests uid e s) s = (s', Done tt) ∧
    guests_ok s' ∧ elsewhere s' = elsewhere s ∧ contact_ids s' = contact_ids s ∧
    (∀ k, k ∈ keys s' ↔ k = o ∨ k ∈ keys s) ∧
    (∀ r, r ∈ event_guests uid e s' → gr_isOrganizer r = bool_decide (row_key r = o)) ∧
    (∀ r, carries (event_guests uid e s) (event_guests uid e s') r) ∧
    (∀ r, r ∈ event_guests uid e s' → row_key r = o → ∀ x, x ∈ event_guests uid e s → gr_id x = gr_id r → row_key x = o).
Proof.
  intros Hok Ho Hc. unfold put_organizer. set (E := event_guests uid e s).
  destruct (demote_run o s Hok) as (Hok1 & Hev1 & Hel1 & Hk1 & Hd). fold E in Hev1, Hd.
  erewrite bind_run; [|reflexivity]. change (set_guests _ s) with (demote_others o s). set (s1 := demote_others o s) in *.
  destruct (jm_get o (map_by row_key E)) as [m|] eqn:Em.
  - apply map_by_Some in Em as [Hkm Hm]. rewrite read_bind. change (contact_known s1 contactId) with (contact_known s contactId).
    rewrite Hc. pose proof (go_keys _ Hok1) as Hnd1.
    assert (∀ r, r ∈ guests s1 → contact_known s1 (gr_contactId (promote name contactId r)) = true) as Hc1 by (intros; done).
    pose proof (update_run (λ r, bool_decide (row_key r = o)) (promote name contactId) s1 Hok1 (promote_identity _ _) Hc1)
      as (Hok2 & Hev2 & Hel2).
    assert (map gr_id (List.filter (λ r, bool_decide (row_key r = o)) (event_guests uid e s1)) = [gr_id m]) as Hids.
    { assert (∃ x, x ∈ event_guests uid e s1 ∧ gr_id x = gr_id m ∧ row_key x = o) as (x & Hx & Ex & Kx).
      { rewrite Hev1. destruct (carries_update (demoted o) demote E m demote_identity Hm) as (x & ? & ? & ? & _).
        exists x. split; [done|]. split; [done|congruence]. }
      rewrite (filter_one_key row_key (event_guests uid e s1) x o) by done. by rewrite <- Ex. }
    rewrite Hids in Hok2, Hev2, Hel2. eexists. split; [reflexivity|]. set (s2 := set_guests _ s1) in *.
    assert (keys s2 = keys s) as Hk2 by (unfold keys at 1; rewrite Hev2, <- Hk1; by apply update_where_map).
    split; [done|]. split; [congruence|]. split; [done|]. split; [|split; [|split]].
    + intros k. rewrite Hk2. split; [by right|]. intros [->|]; [|done]. apply list_elem_of_fmap. by exists m.
    + rewrite Hev2. intros r (x & -> & Hx)%list_elem_of_fmap. case_bool_decide as D; simpl.
      * by rewrite bool_decide_true.
      * destruct (Hd x Hx) as (_ & _ & _ & _ & Hn). by rewrite bool_decide_false, Hn.
    + intros r. rewrite Hev2, Hev1. apply (carries_trans _ (update_where (demoted o) demote E)).
      { by apply carries_update. } intros. by apply carries_update.
    + rewrite Hev2. intros r (x & -> & Hx)%list_elem_of_fmap Hr y Hy Ey. destruct (Hd x Hx) as (z & Hz & Ez & Kz & _).
      assert (gr_id y = gr_id x ∧ row_key x = o) as [Ey' Kx] by (case_bool_decide; done).
      rewrite (unique_row gr_id (guests s) y z); [congruence|apply (go_ids _ Hok)|..|congruence].
      * by apply elem_of_guests in Hy as [? _].
      * by apply elem_of_guests in Hz as [? _].
  - apply map_by_None in Em. destruct (insert_run o name contactId true chair accepted s1 Hok1) as
      (row & s2 & E2 & Hok2 & Hev2 & Hel2 & Hci & Hkr & Hor & Hir); [by rewrite Hk1, Ho|done|].
    rewrite Ho in Hkr. exists s2. split; [exact E2|]. split; [done|]. split; [congruence|]. split; [done|]. split; [|split; [|split]].
    + intros k. unfold keys at 1. rewrite Hev2, map_app, elem_of_app. change (map row_key (event_guests uid e s1)) with (keys s1).
      rewrite Hk1. simpl. rewrite Hkr. set_solver.
    + rewrite Hev2. intros r [Hr| ->%list_elem_of_singleton]%elem_of_app; [|by rewrite Hor, bool_decide_true].
      destruct (Hd r Hr) as (x & Hx & _ & Kx & Hn). assert (row_key r ≠ o) as Hne.
      { intros Hk. apply Em. rewrite <- Hk, <- Kx. by apply list_elem_of_fmap_2. }
      by rewrite bool_decide_false, Hn.
    + intros r. rewrite Hev2, Hev1. apply (carries_trans _ (update_where (demoted o) demote E)).
      { by apply carries_update. } intros. apply carries_app.
    + rewrite Hev2. intros r [Hr| ->%list_elem_of_singleton]%elem_of_app Hk y Hy Ey.
      * exfalso. destruct (Hd r Hr) as (x & Hx & _ & Kx & _). apply Em. rewrite <- Hk, <- Kx. by apply list_elem_of_fmap_2.
      * exfalso. apply Hir. rewrite <- Ey, Hev1, update_where_map by done. by apply list_elem_of_fmap_2.
Qed.

Lemma delete_guests_run ids s :
  guests_ok s → (∀ r, r ∈ elsewhere s → gr_id r ∉ ids) →
  let s' := set_guests (List.filter (λ r, negb (with_id uid ids r))) s in
  guests_ok s' ∧ elsewhere s' = elsewhere s ∧
  event_guests uid e s' = List.filter (λ r, negb (bool_decide (gr_id r ∈ ids))) (event_guests uid e s).
Proof.
  intros Hok He s'.
  assert (event_guests uid e s' = List.filter (λ r, negb (bool_decide (gr_id r ∈ ids))) (event_guests uid e s)) as Hev.
  { unfold event_guests. simpl. rewrite filter_comm, !filter_andb. apply List.filter_ext. intros r. unfold with_id.
    by destruct (bool_decide (gr_ownerId r = uid)), (bool_decide (gr_eventId r = e)), (bool_decide (gr_id r ∈ ids)). }
  assert (∀ r, r ∈ guests s' → r ∈ guests s) as Hsub.
  { intros r Hr. simpl in Hr. rewrite filter_elem in Hr. by destruct Hr. }
  split; [split|split; [|exact Hev]].
  - apply (go_event _ Hok).
  - intros r Hr. apply (go_own _ Hok). by apply Hsub.
  - apply ids_filter, (go_ids _ Hok).
  - unfold keys. rewrite Hev. apply ids_filter, (go_keys _ Hok).
  - intros r Hr. apply (go_contacts _ Hok). by apply Hsub.
  - unfold elsewhere. simpl. rewrite filter_comm. apply filter_true_id. intros r Hr. unfold with_id.
    rewrite (bool_decide_false (gr_id r ∈ ids)) by by apply He. by rewrite andb_false_r.
Qed.

(** The guests that are not there yet are added. *)
Lemma add_guests_run existing l s :
  guests_ok s → NoDup (map guest_key l) → (∀ g, g ∈ l → contact_known s (ug_contactId g) = true) →
  (∀ g, g ∈ l → guest_key g ∉ map row_key existing → guest_key g ∉ keys s) →
  ∃ rows s', each (add_guest uid new_id e existing) l s = (s', Done tt) ∧ guests_ok s' ∧ elsewhere s' = elsewhere s ∧
    event_guests uid e s' = event_guests uid e s ++ rows ∧
    (∀ k, k ∈ map row_key rows ↔ k ∈ map guest_key l ∧ k ∉ map row_key existing) ∧
    ∀ r, r ∈ rows → gr_isOrganizer r = false.
Proof.
  revert s. induction l as [|g l IH]; intros s Hok Hnd Hc Hk.
  - exists [], s. rewrite app_nil_r. split; [done|]. split; [done|]. split; [done|]. split; [done|]. split; set_solver.
  - cbn [map] in Hnd. apply NoDup_cons in Hnd as [Hg Hnd]. cbn [each].
    destruct (jm_get (guest_key g) (map_by row_key existing)) as [m|] eqn:Em.
    + assert (add_guest uid new_id e existing g = mret tt) as -> by (unfold add_guest; by rewrite Em).
      apply map_by_Some in Em as [Hkm Hm]. destruct (IH s) as (rows & s' & E & Hok' & Hel & Hev & Hkeys & Hor);
        [done|done|set_solver|set_solver|].
      exists rows, s'. split; [exact E|]. do 3 (split; [done|]). split; [|done]. intros k. rewrite Hkeys. cbn [map].
      rewrite elem_of_cons. split; [tauto|]. intros [[->|?] Hn]; [|done]. destruct Hn. rewrite <- Hkm. by apply list_elem_of_fmap_2.
    + assert (add_guest uid new_id e existing g = insert_guest uid new_id e (ug_email g) (ug_name g) (ug_contactId g) false
        req_participant needs_action) as -> by (unfold add_guest; by rewrite Em).
      apply map_by_None in Em.
      destruct (insert_run (ug_email g) (ug_name g) (ug_contactId g) false req_participant needs_action s Hok)
        as (row & s1 & E1 & Hok1 & Hev1 & Hel1 & Hci & Hkr & Hor & _); [apply Hk; [by left|done]|apply Hc; by left|].
      destruct (IH s1) as (rows & s' & E & Hok' & Hel & Hev & Hkeys & Hor'); [done|done|..].
      { intros g' Hg'. unfold contact_known. rewrite Hci. apply Hc. by right. }
      { intros g' Hg' Hn. unfold keys. rewrite Hev1, map_app, not_elem_of_app. split; [apply Hk; [by right|done]|].
        simpl. rewrite list_elem_of_singleton, Hkr. intros E. apply Hg. unfold guest_key at 1. rewrite <- E. by apply list_elem_of_fmap_2. }
      exists (row :: rows), s'. rewrite (bind_run _ _ _ _ _ E1). split; [exact E|]. split; [done|]. split; [congruence|].
      split; [rewrite Hev, Hev1; by rewrite <- app_assoc|]. split; [|set_solver].
      intros k. cbn [map]. rewrite !elem_of_cons, Hkeys, Hkr. fold (guest_key g). split; [|tauto].
      intros [->|[? ?]]; [by split; [left|]|tauto].
Qed.

Lemma with_key s k : k ∈ keys s → ∃ r, r ∈ event_guests uid e s ∧ row_key r = k.
Proof. intros (r & -> & Hr)%list_elem_of_fmap. by exists r. Qed.

Lemma same_key s r r' :
  guests_ok s → r ∈ event_guests uid e s → r' ∈ event_guests uid e s → row_key r = row_key r' → r = r'.
Proof. intros Hok. apply (unique_row row_key). apply (go_keys _ Hok). Qed.

Lemma same_id s r r' :
  guests_ok s → r ∈ event_guests uid e s → r' ∈ event_guests uid e s → gr_id r = gr_id r' → r = r'.
Proof. intros Hok [Hr _]%elem_of_guests [Hr' _]%elem_of_guests. apply (unique_row gr_id (guests s)); [apply (go_ids _ Hok)|done..]. Qed.

Lemma to_delete_spec desired s r :
  guests_ok s → r ∈ event_guests uid e s →
  gr_id r ∈ to_delete desired (event_guests uid e s) ↔ gr_isOrganizer r = false ∧ row_key r ∉ desired.
Proof.
  intros Hok Hr. unfold to_delete. split.
  - intros (x & E & [Hx H]%filter_elem)%list_elem_of_fmap.
    rewrite (same_id s r x) by done. by bool_to_prop.
  - intros [Ho Hk]. apply list_elem_of_fmap. exists r. split; [done|]. rewrite filter_elem, Ho.
    by rewrite bool_decide_false.
Qed.

Definition payload_known (p : AttendeePayload) (s : CalDb) : Prop :=
  ∀ g, g ∈ dedupedGuests p → contact_known s (ug_contactId g) = true.

Lemma organizer_contact_known organizerEmail p s :
  guests_ok s → payload_known p s →
  contact_known s (desiredOrganizerContactId organizerEmail (dedupedGuests p) (event_guests uid e s)) = true.
Proof.
  intros Hok Hp. unfold desiredOrganizerContactId.
  assert (∀ g, organizerGuestFromPayload organizerEmail (dedupedGuests p) = Some g → contact_known s (ug_contactId g) = true) as Hg.
  { intros g H. apply Hp. unfold organizerGuestFromPayload, nullish in H.
    destruct (List.find ug_isOrganizer _) eqn:E; [injection H as <-; by apply List.find_some in E as [E%list_elem_of_In _]|].
    destruct (opt_truthy _); [|done]. by apply List.find_some in H as [H%list_elem_of_In _]. }
  assert (∀ a, existingOrganizer (event_guests uid e s) = Some a → contact_known s (gr_contactId a) = true) as Ha.
  { intros a H. apply (go_contacts _ Hok). apply List.find_some in H as [H%list_elem_of_In _]. by apply elem_of_guests in H as [H _]. }
  destruct (organizerGuestFromPayload _ _) as [g|]; simpl.
  - destruct (ug_contactId g) eqn:E; simpl; [specialize (Hg g eq_refl); by rewrite E in Hg|].
    destruct (existingOrganizer _) eqn:E'; simpl; [by apply Ha|done].
  - destruct (existingOrganizer _) eqn:E'; simpl; [by apply Ha|done].
Qed.
Lemma deleted_here desired s r :
  guests_ok s → r ∈ elsewhere s → gr_id r ∉ to_delete desired (event_guests uid e s).
Proof.
  intros Hok [Hr Hne]%filter_elem (x & Ex & [Hx _]%filter_elem)%list_elem_of_fmap.
  apply elem_of_guests in Hx as [Hx Hm].
  rewrite (unique_row gr_id (guests s) r x) in Hne; [|apply (go_ids _ Hok)|done..]. unfold mine in Hm. bool_to_prop. done.
Qed.

(** Who is left when the organizer was put and the guests that are not desired were deleted. *)
Lemma left_over s s2 o desired :
  guests_ok s → guests_ok s2 → (∀ k, k ∈ keys s2 ↔ k = o ∨ k ∈ keys s) →
  (∀ r, carries (event_guests uid e s) (event_guests uid e s2) r) →
  (∀ r, r ∈ event_guests uid e s2 → row_key r = o → ∀ x, x ∈ event_guests uid e s → gr_id x = gr_id r → row_key x = o) →
  (∀ r, r ∈ event_guests uid e s → row_key r = o → gr_isOrganizer r = true) →
  let E := event_guests uid e s in
  let rows := List.filter (λ r, negb (bool_decide (gr_id r ∈ to_delete desired E))) (event_guests uid e s2) in
  (∀ k, k ∈ map row_key rows ↔ k = o ∨ ∃ x, x ∈ E ∧ (gr_isOrganizer x = true ∨ row_key x ∈ desired) ∧ row_key x = k) ∧
  ∀ x, (gr_isOrganizer x = true ∨ row_key x ∈ desired) → carries E rows x.
Proof.
  intros Hok Hok2 Hk2 Hca2 Hid2 Hpro E rows.
  pose proof (λ r, to_delete_spec desired s r Hok) as Hdel. fold E in Hdel.
  assert (∀ r, r ∈ rows ↔ r ∈ event_guests uid e s2 ∧ gr_id r ∉ to_delete desired E) as Hrows.
  { intros r. unfold rows. by rewrite filter_elem, negb_true_iff, bool_decide_eq_false. }
  assert (∀ x, (gr_isOrganizer x = true ∨ row_key x ∈ desired) → carries E rows x) as Hcar.
  { intros x Hx HxE. destruct (Hca2 x HxE) as (r & Hr & Ei & Ek & Ep & Ev). exists r. split; [|done]. apply Hrows. split; [done|].
    rewrite Ei, Hdel by done. intros [Ho Hd]. destruct Hx; congruence. }
  split; [|done]. intros k. split.
  - intros (r & -> & [Hr Hd]%Hrows)%list_elem_of_fmap. assert (row_key r ∈ keys s2) as Hk by by apply list_elem_of_fmap_2.
    apply Hk2 in Hk as [?|(x & HxE & Ek)%with_key]; [by left|]. right. exists x. split; [done|]. split; [|done].
    destruct (Hca2 x HxE) as (r' & Hr' & Ei & Ek' & _). rewrite (same_key s2 r r') in Hd by (done || congruence).
    rewrite Ei, Hdel in Hd by done. destruct (gr_isOrganizer x); [by left|]. right. apply dec_stable. naive_solver.
  - intros [->|(x & HxE & Hx & <-)].
    + destruct (with_key s2 o) as (r & Hr & Ek); [apply Hk2; by left|]. apply list_elem_of_fmap. exists r. split; [done|].
      apply Hrows. split; [done|]. intros Hd. pose proof Hd as (x & Ex & [Hx _]%filter_elem)%list_elem_of_fmap.
      rewrite Ex, Hdel in Hd by done. destruct Hd as [Hd _].
      rewrite Hpro in Hd; [done|done|]. by apply (Hid2 r).
    + destruct (Hcar x Hx HxE) as (r & Hr & _ & Ek & _). rewrite <- Ek. by apply list_elem_of_fmap_2.
Qed.
End Guests.

Section Sync.
Context (uid : jsstr) (new_id : CalDb → jsstr) (fresh : ∀ s, new_id s ∉ map gr_id (guests s)).

(** C25: When the guests of an event are stored, and its organizer is no guest yet that was not one, the event
    has exactly one organizer, the guests that were sent, each once whatever the case of the address, and those
    who were the organizer before; a guest that was already there keeps the row and the answer, and no guest
    of another event is touched. *)
Theorem syncEventAttendees_spec e organizerEmail organizerName p o s :
  guests_ok uid e s → payload_known p s →
  normalizedOrganizer organizerEmail (dedupedGuests p) (event_guests uid e s) = Some o → truthy o = true →
  (∀ r, r ∈ event_guests uid e s → row_key r = o → gr_isOrganizer r = true) →
  ∃ s', syncEventAttendees uid new_id e organizerEmail organizerName (Some p) s = (s', Done tt) ∧ guests_ok uid e s' ∧
    (∀ k, k ∈ keys uid e s' ↔ k = o ∨ k ∈ map guest_key (dedupedGuests p) ∨
       ∃ r, r ∈ event_guests uid e s ∧ gr_isOrganizer r = true ∧ row_key r = k) ∧
    (∀ r, r ∈ event_guests uid e s' → gr_isOrganizer r = bool_decide (row_key r = o)) ∧
    (∀ r, row_key r ∈ map guest_key (dedupedGuests p) → carries (event_guests uid e s) (event_guests uid e s') r) ∧
    elsewhere e s' = elsewhere e s.
Proof.
  intros Hok Hp Hn Ht Hpro. unfold syncEventAttendees. rewrite read_bind, Hn. cbn [opt_truthy negb default]. rewrite Ht. cbn [negb].
  set (deduped := dedupedGuests p) in *. set (E := event_guests uid e s) in *.
  pose proof (normalized_lower _ _ _ _ Hn) as Hlow. pose proof (organizer_contact_known uid e organizerEmail p s Hok Hp) as Hc.
  destruct (put_organizer_run uid new_id fresh e o (desiredOrganizerName organizerEmail organizerName deduped E)
    _ s Hok Hlow Hc) as (s2 & E2 & Hok2 & Hel2 & Hci2 & Hk2 & Hor2 & Hca2 & Hid2). fold deduped E in E2, Hca2, Hid2.
  rewrite (bind_run _ _ _ _ _ E2). set (others := List.filter _ deduped).
  assert (∀ k, k ∈ map guest_key others ↔ k ∈ map guest_key deduped ∧ k ≠ o) as Hoth.
  { intros k. unfold others. rewrite !list_elem_of_fmap. setoid_rewrite filter_elem.
    setoid_rewrite negb_true_iff. setoid_rewrite bool_decide_eq_false. naive_solver. }
  destruct (left_over uid e s s2 o (map guest_key others) Hok Hok2 Hk2 Hca2 Hid2 Hpro) as [Hk3 Hca3].
  destruct (delete_guests_run uid e (to_delete (map guest_key others) E) s2 Hok2) as (Hok3 & Hel3 & Hev3).
  { intros r. rewrite Hel2. by apply deleted_here. }
  erewrite bind_run; [|reflexivity]. set (s3 := set_guests _ s2) in *. fold E in Hk3, Hca3. rewrite <- Hev3 in Hk3, Hca3.
  destruct (add_guests_run uid new_id fresh e E others s3 Hok3) as (rows & s' & E4 & Hok4 & Hel4 & Hev4 & Hkr & Hro).
  - apply ids_filter, deduped_NoDup.
  - intros g [Hg _]%filter_elem. unfold contact_known. change (contact_ids s3) with (contact_ids s2). rewrite Hci2.
    by apply Hp.
  - intros g Hg HnE Hg3. apply (list_elem_of_fmap_2 guest_key), Hoth in Hg as [_ Hg].
    apply Hk3 in Hg3 as [?|(x & Hx & _ & Ex)]; [done|]. apply HnE. rewrite <- Ex. by apply list_elem_of_fmap_2.
  - exists s'. split; [exact E4|]. split; [done|]. split; [|split; [|split; [|congruence]]].
    + intros k. unfold keys. rewrite Hev4, map_app, elem_of_app, Hk3, Hkr, Hoth. split; [setoid_rewrite Hoth; naive_solver|].
      intros [->|[Hk|(r & Hr & Ho & <-)]]; [by left; left| |left; right; exists r; by split; [|split; [left|]]].
      destruct (decide (k = o)) as [->|Hne]; [by left; left|]. destruct (decide (k ∈ map row_key E)) as [HkE|HkE]; [|by right].
      apply list_elem_of_fmap in HkE as (x & -> & Hx). left. right. exists x. split; [done|]. split; [|done]. right. by apply Hoth.
    + rewrite Hev4. intros r [Hr|Hr]%elem_of_app; [apply Hor2; rewrite Hev3 in Hr; rewrite filter_elem in Hr; by destruct Hr|].
      rewrite (Hro r Hr). symmetry. apply bool_decide_eq_false. apply (list_elem_of_fmap_2 row_key), Hkr in Hr as [[_ Hr]%Hoth _]. done.
    + intros r Hr. rewrite Hev4. intros HrE. assert (gr_isOrganizer r = true ∨ row_key r ∈ map guest_key others) as Hd.
      { destruct (decide (row_key r = o)) as [Hk|Hk]; [left; by apply Hpro|right; by apply Hoth]. }
      eapply carries_trans; [apply (Hca3 r Hd)|intros; apply carries_app|exact HrE].
Qed.
End Sync.

(** ** Concrete runs *)

Definition ex_fresh_id (s : CalDb) : jsstr := "n"%js ++ concat (map gr_id (guests s)).

Definition ex_guest (i o ev em : jsstr) (p : DbPartstat) (org : bool) : GuestRow :=
  {| gr_id := i; gr_ownerId := o; gr_eventId := ev; gr_contactId := None; gr_email := em; gr_name := None;
     gr_role := if org then chair else req_participant; gr_partstat := p; gr_rsvp := false; gr_isOrganizer := org |}.
Definition ex_ui (em : jsstr) (org : bool) : UiGuest :=
  {| ug_email := em; ug_name := None; ug_contactId := None; ug_isOrganizer := org |}.
Definition ex_cal_event : CalEventRow :=
  {| ce_id := "e"%js; ce_ownerId := "u"%js; ce_calendarId := "k"%js; ce_organizerEmail := None; ce_organizerName := None;
     ce_isAllDay := false; ce_startsAt := 0; ce_endsAt := 3600000; ce_recurrenceRule := None; ce_isExternal := false;
     ce_icalUid := Some "x"%js; ce_others := [] |}.
Definition ex_party : CalDb := {|
  cal_events := [ex_cal_event]; contact_ids := []; davJobs := [];
  cal_identities := [{| ci_id := "i"%js; ci_ownerId := "u"%js; ci_publicId := "p"%js; ci_value := "ada@x"%js; ci_displayName := None |}];
  cal_calendars := [{| cal_id := "k"%js; cal_ownerId := "u"%js; cal_timezone := "UTC"%js; cal_isDefault := true |}];
  guests := [ex_guest "1"%js "u"%js "e"%js "Me@x"%js accepted true; ex_guest "2"%js "u"%js "e"%js "Ada@x"%js accepted false;
             ex_guest "3"%js "u"%js "e"%js "bob@x"%js declined false] |}.

Abbreviation ex_sync_guests := (syncEventAttendees "u"%js ex_fresh_id).
Definition ex_list (s : CalDb) : list (jsstr * DbPartstat * bool) :=
  map (λ r, (gr_email r, gr_partstat r, gr_isOrganizer r)) (event_guests "u"%js "e"%js s).

Definition ex_payload : AttendeePayload :=
  {| initialGuests := Some [ex_ui "me@x"%js true; ex_ui "ada@x"%js false]; newGuests := Some [ex_ui "cyd@x"%js false; ex_ui "ADA@x"%js false] |}.

Lemma ex_party_ok : guests_ok "u"%js "e"%js ex_party.
Proof.
  split; [done|..].
  - intros r Hr _. repeat (apply elem_of_cons in Hr as [-> | Hr]; [done|]). by apply elem_of_nil in Hr.
  - apply (bool_decide_unpack _). by vm_compute.
  - apply (bool_decide_unpack _). by vm_compute.
  - intros r Hr. repeat (apply elem_of_cons in Hr as [-> | Hr]; [done|]). by apply elem_of_nil in Hr.
Qed.

Lemma syncEventAttendees_spec_witness :
  ∃ s', ex_sync_guests "e"%js (Some "Me@X"%js) None (Some ex_payload) ex_party = (s', Done tt) ∧
    ∀ k, k ∈ keys "u"%js "e"%js s' ↔ k ∈ ["me@x"; "ada@x"; "cyd@x"]%js.
Proof.
  destruct (syncEventAttendees_spec "u"%js ex_fresh_id (λ s, longer_fresh _ _) "e"%js (Some "Me@X"%js) None ex_payload "me@x"%js ex_party)
    as (s' & E & _ & Hk & _); [exact ex_party_ok| |by vm_compute|done| |].
  - intros g Hg. assert (∀ g, g ∈ dedupedGuests ex_payload → ug_contactId g = None) as H.
    { apply Forall_forall. apply (bool_decide_unpack _). by vm_compute. }
    by rewrite (H g Hg).
  - intros r Hr Hk. repeat (apply elem_of_cons in Hr as [-> | Hr]; [by vm_compute in Hk |- *|]). by apply elem_of_nil in Hr.
  - exists s'. split; [exact E|]. intros k. rewrite Hk.
    change (map guest_key (dedupedGuests ex_payload)) with (["me@x"; "ada@x"; "cyd@x"]%js). split; [|set_solver].
    intros [-> | [H | (r & Hr & Ho & <-)]]; [by left|done|]. repeat (apply elem_of_cons in Hr as [-> | Hr]; [by left||done|]).
    by apply elem_of_nil in Hr.
Defined.

Lemma ex_party_run :
  ex_list (ex_sync_guests "e"%js (Some "Me@X"%js) None (Some ex_payload) ex_party).1 =
  [("Me@x", accepted, true); ("Ada@x", accepted, false); ("cyd@x", needs_action, false)]%js.
Proof. by vm_compute. Qed.

(** A guest becomes the organizer, and is deleted with the guests that are not named: nobody is left who
    organizes. *)
Lemma promoted_guest_is_lost :
  ex_list (ex_sync_guests "e"%js (Some "ada@x"%js) None
    (Some {| initialGuests := Some [ex_ui "ada@x"%js true; ex_ui "bob@x"%js false]; newGuests := None |}) ex_party).1 =
  [("Me@x", accepted, false); ("bob@x", declined, false)]%js.
Proof. by vm_compute. Qed.

(** Who was the organizer stays as a guest nobody named, until the event is stored once more. *)
Lemma former_organizer_stays_once :
  let p := Some {| initialGuests := Some [ex_ui "new@x"%js true]; newGuests := None |} in
  let s1 := (ex_sync_guests "e"%js (Some "new@x"%js) None p ex_party).1 in
  ex_list s1 = [("Me@x", accepted, false); ("new@x", accepted, true)]%js ∧
  ex_list (ex_sync_guests "e"%js (Some "new@x"%js) None p s1).1 = [("new@x", accepted, true)]%js.
Proof. split; by vm_compute. Qed.

(** Without an organizer no guest is stored, and the action succeeds. *)
Lemma guests_without_organizer_are_lost :
  let s := set_guests (λ _, []) ex_party in
  ex_sync_guests "e"%js None None (Some {| initialGuests := None; newGuests := Some [ex_ui "cyd@x"%js false] |}) s = (s, Done tt).
Proof. by vm_compute. Qed.

(** A stranger stores guests for the event of another user and has the worker write it, and has it
    deleted. *)
Definition ex_form : EventForm :=
  {| ef_tz := "UTC"%js; ef_startsAt := []; ef_endsAt := []; ef_eventId := Some "e"%js; ef_notifyAttendees := VStr "on"%js;
     ef_attendeePayload := Some {| initialGuests := None; newGuests := Some [ex_ui "spam@x"%js false; ex_ui "spy@x"%js true] |};
     ef_isAllDay := VUndef; ef_recurrenceRule := VUndef; ef_organizerIdentityId := VStr "i"%js; ef_newOrganizerName := None;
     ef_rest := [] |}.

Lemma stranger_adds_guests :
  let r := upsertCalendarEvent "v"%js ex_fresh_id (λ _, true) (λ _ _, Some 0%Z) (λ _ _, Some 0%Z) (λ _ _, Some 0%Z)
    (λ _, None) (λ _, Some (None, [])) ex_form ex_party in
  r.2 = Done tt ∧ davJobs r.1 = [UpdateEvent "e"%js true] ∧ cal_events r.1 = cal_events ex_party ∧
  map (λ g, (gr_ownerId g, gr_email g, gr_isOrganizer g)) (drop 3 (guests r.1)) = [("v", "spy@x", true); ("v", "spam@x", false)]%js.
Proof. repeat split; by vm_compute. Qed.

Lemma stranger_asks_to_delete worker :
  (∀ j s, worker j s = (s, Done tt)) →
  CalActions.deleteCalendarEvent "v"%js worker "e"%js ex_party = (add_dav_job (DeleteEvent "e"%js true) ex_party, Done tt).
Proof. intros Hw. unfold CalActions.deleteCalendarEvent, run_dav_job, mbind, proc_bind. cbn [modify]. by rewrite Hw. Qed.
