(* ===== verification/CalViews.v ===== *)
(** * Events on the views of the calendar ([apps/web/lib/actions/calendar.ts])

    An event is cut into the fragments of the hours and of the days it touches, which the client lays out
    ([DayLayout.v]), and a repeated event becomes its instances.  [dayjs] and [rrule] are packages: their
    operations are the fields of classes, and what the theorems use of their documentation are laws. *)

From stdpp Require Import base list.
From S2P Require Import Prelude JsString JsNumber JsDate DayLayout CalActions.

#[local] Open Scope Z_scope.

(** ** [dayjs] in a zone *)

(** Objects of [dayjs] are not told from each other by their instant only. *)
Class ZonedDayjs (M : Type) := {
  zd_at : jsstr → Z → M;                  (* getDayjsTz(zone)(date) *)
  zd_now : jsstr → M;                     (* getDayjsTz(zone)() *)
  valueOf : M → Z;
  zd_startOf : M → jsstr → M;
  zd_endOf : M → jsstr → M;
  zd_add : M → Z → jsstr → M;
  zd_set : jsstr → Z → M → M;             (* .year(y), .month(m), ... *)
  zd_get : jsstr → M → Z;
  zd_format : M → jsstr → jsstr;
  zd_diff : M → M → jsstr → Z;
  zd_isSameOrBefore : M → M → jsstr → bool;
}.

Section Views.
Context {M : Type} {D : ZonedDayjs M}.

Definition isAfter (a b : M) : bool := valueOf b <? valueOf a.
Definition isBefore (a b : M) : bool := valueOf a <? valueOf b.
Definition isSame (a b : M) : bool := valueOf a =? valueOf b.

Inductive CalendarView := day_view | week_view | month_view | year_view.

Definition view_unit (v : CalendarView) : jsstr :=
  match v with day_view => "day" | week_view => "week" | month_view => "month" | year_view => "year" end%js.

(** Year, month and day are numbers that are not zero. *)
Definition getRangeForCalendarView (tz : jsstr) (view : CalendarView) (params : option Z * option Z * option Z) : M * M :=
  let given (o : option Z) := match o with Some 0 | None => None | Some n => Some n end in
  let base := match given params.1.1, given params.1.2, given params.2 with
              | Some y, Some m, Some d => zd_set "date"%js d (zd_set "month"%js (m - 1) (zd_set "year"%js y (zd_now tz)))
              | _, _, _ => zd_now tz
              end in
  (zd_startOf base (view_unit view), zd_endOf base (view_unit view)).

Definition fetchCalendarEventsForView (uid calendarId tz : jsstr) (view : CalendarView) (params : option Z * option Z * option Z)
    (s : CalDb) : list CalEventRow :=
  let range := getRangeForCalendarView tz view params in
  fetchCalendarEvents uid calendarId (Some (valueOf range.1)) (Some (valueOf range.2)) s.

(** ** Hours *)

(** [(part / whole) * 100] *)
Definition percent_of (part whole : Z) : num := num_mul (num_div (num_of_Z part) (num_of_Z whole)) num100.

Definition slot_fragment (ev : CalEventRow) (start end_ slotStart slotEnd overlapStart overlapEnd : M) : Fragment :=
  let totalMs := valueOf slotEnd - valueOf slotStart in
  {| event := ce_id ev; date := zd_format slotStart "YYYY-MM-DD"%js; hour := zd_get "hour"%js slotStart;
     topPercent := percent_of (valueOf overlapStart - valueOf slotStart) totalMs;
     heightPercent := percent_of (valueOf overlapEnd - valueOf overlapStart) totalMs;
     isStart := isSame overlapStart start; isEnd := isSame overlapEnd end_ |}.

(** The loop; [None] when the fuel is used up. *)
Fixpoint slot_loop (fuel : nat) (ev : CalEventRow) (start end_ slotStart : M) : option (list Fragment) :=
  if isBefore slotStart end_ then
    match fuel with
    | O => None
    | S fuel =>
        let slotEnd := zd_add slotStart 1 "hour"%js in
        let overlapStart := if isAfter start slotStart then start else slotStart in
        let overlapEnd := if isBefore end_ slotEnd then end_ else slotEnd in
        rest ← slot_loop fuel ev start end_ (zd_add slotStart 1 "hour"%js);
        Some (if isAfter overlapEnd overlapStart
              then slot_fragment ev start end_ slotStart slotEnd overlapStart overlapEnd :: rest
              else rest)
    end
  else Some [].

Definition slots_of (fuel : nat) (tz : jsstr) (ev : CalEventRow) : option (list Fragment) :=
  let start := zd_at tz (ce_startsAt ev) in
  let end_ := zd_at tz (ce_endsAt ev) in
  if negb (isAfter end_ start) then Some []
  else slot_loop fuel ev start end_ (zd_startOf start "hour"%js).

Definition slot_key (f : Fragment) : jsstr := date f ++ ":"%js ++ int_to_str (hour f).

(** A fragment with its event. *)
Definition EventFragment : Type := CalEventRow * Fragment.
Definition with_event (ev : CalEventRow) (fs : list Fragment) : list EventFragment := map (λ f, (ev, f)) fs.

(** Fragments are pushed into the bucket of their key. *)
Definition eventsBySlot (fuel : nat) (tz : jsstr) (events : list CalEventRow) : option (jsmap jsstr (list EventFragment)) :=
  frs ← mapM (λ ev, with_event ev <$> slots_of fuel tz ev) events;
  Some (group_by (λ p, slot_key p.2) (concat frs)).

(** ** Days *)

Definition day_fragment (ev : CalEventRow) (eventStart eventEnd dayStart visibleStart visibleEnd : M) : Fragment :=
  let minutesFromMidnight := zd_diff visibleStart dayStart "minute"%js in
  let durationMinutes := Z.max 5 (zd_diff visibleEnd visibleStart "minute"%js) in
  {| event := ce_id ev; date := zd_format dayStart "YYYY-MM-DD"%js; hour := zd_get "hour"%js visibleStart;
     topPercent := percent_of minutesFromMidnight (24 * 60); heightPercent := percent_of durationMinutes (24 * 60);
     isStart := isSame visibleStart eventStart; isEnd := isSame visibleEnd eventEnd |}.

Fixpoint day_loop (fuel : nat) (ev : CalEventRow) (eventStart eventEnd lastDay cursor : M) : option (list Fragment) :=
  if zd_isSameOrBefore cursor lastDay "day"%js then
    match fuel with
    | O => None
    | S fuel =>
        let dayEnd := zd_endOf cursor "day"%js in
        let visibleStart := if isAfter eventStart cursor then eventStart else cursor in
        let visibleEnd := if isBefore eventEnd dayEnd then eventEnd else dayEnd in
        rest ← day_loop fuel ev eventStart eventEnd lastDay (zd_add cursor 1 "day"%js);
        Some (if isAfter visibleEnd visibleStart
              then day_fragment ev eventStart eventEnd cursor visibleStart visibleEnd :: rest
              else rest)
    end
  else Some [].

Definition days_of (fuel : nat) (tz : jsstr) (ev : CalEventRow) : option (list Fragment) :=
  let eventStart := zd_at tz (ce_startsAt ev) in
  let eventEnd := zd_at tz (ce_endsAt ev) in
  day_loop fuel ev eventStart eventEnd (zd_startOf eventEnd "day"%js) (zd_startOf eventStart "day"%js).

Definition eventsByDay (fuel : nat) (tz : jsstr) (events : list CalEventRow) : option (jsmap jsstr (list EventFragment)) :=
  frs ← mapM (λ ev, with_event ev <$> days_of fuel tz ev) events;
  Some (group_by (λ p, date p.2) (concat frs)).

Record AllDayFragment := { ad_event : CalEventRow; ad_date : jsstr; ad_isStart : bool; ad_isEnd : bool }.

Definition all_day (dayKey : jsstr) (p : EventFragment) : AllDayFragment :=
  {| ad_event := p.1; ad_date := dayKey; ad_isStart := isStart p.2; ad_isEnd := isEnd p.2 |}.

(** The fragments of a day are divided, in their order; a day without fragments of a kind has no bucket. *)
Definition eventsByDayWithAllDay (fuel : nat) (tz : jsstr) (events : list CalEventRow) :
    option (jsmap jsstr (list EventFragment) * jsmap jsstr (list AllDayFragment)) :=
  base ← eventsByDay fuel tz events;
  Some (group_by (λ p, date p.2) (List.filter (λ p, negb (ce_isAllDay p.1)) (concat base.*2)),
        group_by ad_date (concat (map (λ b, map (all_day b.1) (List.filter (λ p, ce_isAllDay p.1) b.2)) base))).

(** ** Repeated events *)

(** [RRule.parseString], which throws, and the dates of a rule between two dates, both included. *)
Context {Options : Type} (parseString : jsstr → option Options) (between : Options → Z → Z → Z → list Z).

(** A time of the zone as if it were one of UTC, and back. *)
Definition toRRuleLocal (t : Z) (tz : jsstr) : Z :=
  let d := zd_at tz t in
  msPerDay * days_of_civil (Civil (zd_get "year"%js d) (zd_get "month"%js d + 1) (zd_get "date"%js d)) +
  3600000 * zd_get "hour"%js d + 60000 * zd_get "minute"%js d + 1000 * zd_get "second"%js d + zd_get "millisecond"%js d.

Definition fromRRuleLocal (t : Z) (tz : jsstr) : Z :=
  let c := civil_of_time t in
  let r := TimeWithinDay t in
  valueOf (zd_set "millisecond"%js (r mod 1000) (zd_set "second"%js (r / 1000 mod 60) (zd_set "minute"%js (r / 60000 mod 60)
    (zd_set "hour"%js (r / 3600000) (zd_set "date"%js (c_day c) (zd_set "month"%js (c_month c - 1)
      (zd_set "year"%js (c_year c) (zd_now tz)))))))).

Record CalendarEventInstance := {
  in_event : CalEventRow; in_instanceId : jsstr; in_recurrenceMasterId : option jsstr; in_startsAt : Z; in_endsAt : Z;
}.

(** Of the years from 0 to 9999. *)
Definition toISOString (t : Z) : jsstr :=
  let r := TimeWithinDay t in
  iso_date t ++ "T"%js ++ pad2 (r / 3600000) ++ ":"%js ++ pad2 (r / 60000 mod 60) ++ ":"%js ++ pad2 (r / 1000 mod 60) ++
  "."%js ++ padStart 3 "0" (nat_to_str (r mod 1000)) ++ "Z"%js.

Definition instance_of (ev : CalEventRow) (index : nat) (startInstant : Z) : CalendarEventInstance :=
  {| in_event := ev; in_instanceId := ce_id ev ++ "__"%js ++ toISOString startInstant ++ "__"%js ++ int_to_str (Z.of_nat index);
     in_recurrenceMasterId := Some (ce_id ev); in_startsAt := startInstant;
     in_endsAt := startInstant + (ce_endsAt ev - ce_startsAt ev) |}.

(** [None] when the rule cannot be read. *)
Definition expandEventForRange (ev : CalEventRow) (rangeStart rangeEnd : Z) (tz : jsstr) : option (list CalendarEventInstance) :=
  if negb (opt_truthy (ce_recurrenceRule ev)) then
    Some [{| in_event := ev; in_instanceId := ce_id ev; in_recurrenceMasterId := None; in_startsAt := ce_startsAt ev;
             in_endsAt := ce_endsAt ev |}]
  else
    opts ← parseString (default [] (ce_recurrenceRule ev));
    let local t := if ce_isExternal ev then t else toRRuleLocal t tz in
    let dates := between opts (local (ce_startsAt ev)) (local rangeStart) (local rangeEnd) in
    Some (imap (λ i d, instance_of ev i (if ce_isExternal ev then d else fromRRuleLocal d tz)) dates).

Definition expandEventsForRange (events : list CalEventRow) (rangeStart rangeEnd : Z) (tz : jsstr) : option (list CalendarEventInstance) :=
  all ← mapM (λ ev, expandEventForRange ev rangeStart rangeEnd tz) events; Some (concat all).
End Views.
