(* ===== verification/CalViewsSpecs.v ===== *)
(** * The fragments of events

    What is cut into hours covers the event without a gap, and what is cut into days can be laid out. *)

From stdpp Require Import base list.
From S2P Require Import Prelude JsString JsNumber JsDate Dayjs DayLayout DavMirror CalActions CalViews.

#[local] Open Scope Z_scope.

(** ** Hours *)

(** What is used of the documentation of [dayjs] for the objects of a zone whose shifts are whole hours: an
    object keeps its zone; an hour begins at or before its times, at the same instant for all of them; and the one after it
    is 3600000 milliseconds later. *)
Class HourLaws {M} (D : ZonedDayjs M) (tz : jsstr) (in_zone : M → Prop) : Prop := {
  hl_zone_at t : in_zone (zd_at tz t);
  hl_zone_start m : in_zone m → in_zone (zd_startOf m "hour"%js);
  hl_zone_add m : in_zone m → in_zone (zd_add m 1 "hour"%js);
  hl_hour m m' : in_zone m → in_zone m' → valueOf (zd_startOf m "hour"%js) ≤ valueOf m' < valueOf (zd_startOf m "hour"%js) + 3600000 →
    valueOf (zd_startOf m' "hour"%js) = valueOf (zd_startOf m "hour"%js);
  hl_next m : in_zone m → valueOf (zd_startOf (zd_add m 1 "hour"%js) "hour"%js) = valueOf (zd_startOf m "hour"%js) + 3600000;
  hl_at z t : valueOf (zd_at z t) = t;
  hl_start m : in_zone m → valueOf (zd_startOf m "hour"%js) ≤ valueOf m < valueOf (zd_startOf m "hour"%js) + 3600000;
  hl_add m : valueOf (zd_add m 1 "hour"%js) = valueOf m + 3600000;
}.

Section Views.
Context {M : Type} {D : ZonedDayjs M} (tz : jsstr) (in_zone : M → Prop).

(** An hour, and the part of it an event takes. *)
Definition piece : Type := M * M * M.

(** The pieces follow each other from [a] to [b]; the hour of a piece is the one of the zone in which it begins. *)
Fixpoint tiles (a b : Z) (l : list piece) : Prop :=
  match l with
  | [] => a = b
  | (h, s, e) :: l' =>
      valueOf s = a ∧ valueOf s < valueOf e ∧ in_zone h ∧ in_zone s ∧ valueOf h = valueOf (zd_startOf s "hour"%js) ∧
      valueOf e ≤ valueOf h + 3600000 ∧ tiles (valueOf e) b l'
  end.

Definition fragment_of (ev : CalEventRow) (start end_ : M) (p : piece) : Fragment :=
  let '(h, s, e) := p in slot_fragment ev start end_ h (zd_add h 1 "hour"%js) s e.

Lemma slot_loop_spec `{!HourLaws D tz in_zone} ev start end_ n slot fuel :
  in_zone start → in_zone slot → valueOf (zd_startOf slot "hour"%js) = valueOf slot →
  valueOf start < valueOf end_ → valueOf start < valueOf slot + 3600000 → valueOf end_ ≤ valueOf slot + Z.of_nat n * 3600000 →
  (n ≤ fuel)%nat →
  ∃ l, slot_loop fuel ev start end_ slot = Some (map (fragment_of ev start end_) l) ∧
    tiles (Z.min (valueOf end_) (Z.max (valueOf start) (valueOf slot))) (valueOf end_) l.
Proof.
  intros Hz. revert slot fuel. induction n as [|n IH]; intros slot fuel Hzs Hwhole Hev Hslot Hn Hf.
  - exists []. simpl in *. assert (isBefore slot end_ = false) as E by (unfold isBefore; apply Z.ltb_ge; lia).
    split; [destruct fuel; cbn [slot_loop]; by rewrite E|lia].
  - destruct (isBefore slot end_) eqn:E; unfold isBefore in E.
    + destruct fuel as [|fuel]; [lia|]. apply Z.ltb_lt in E. pose proof (hl_add slot) as Hadd.
      destruct (IH (zd_add slot 1 "hour"%js) fuel) as (l & El & Hl); [by apply hl_zone_add|rewrite hl_next by done; lia|done|lia|lia|lia|].
      cbn [slot_loop]. unfold isBefore, isAfter in *. rewrite (proj2 (Z.ltb_lt _ _) E), El.
      set (s := if valueOf slot <? valueOf start then start else slot).
      set (e := if valueOf end_ <? valueOf (zd_add slot 1 "hour"%js) then end_ else zd_add slot 1 "hour"%js).
      assert (valueOf s = Z.max (valueOf start) (valueOf slot)) as Hs by (unfold s; destruct (Z.ltb_spec (valueOf slot) (valueOf start)); lia).
      assert (valueOf e = Z.min (valueOf end_) (valueOf slot + 3600000)) as He
        by (unfold e; destruct (Z.ltb_spec (valueOf end_) (valueOf (zd_add slot 1 "hour"%js))); lia).
      exists ((slot, s, e) :: l). rewrite (proj2 (Z.ltb_lt (valueOf s) (valueOf e))) by lia. split; [done|].
      assert (in_zone s) as Hzone by (unfold s; by destruct (valueOf slot <? valueOf start)).
      assert (valueOf (zd_startOf s "hour"%js) = valueOf slot) as Hh by (rewrite (hl_hour slot s) by (done || lia); done).
      cbn [tiles]. repeat split; try lia; try done. replace (valueOf e) with (Z.min (valueOf end_) (Z.max (valueOf start) (valueOf (zd_add slot 1 "hour"%js)))); [done|lia].
    + exists []. apply Z.ltb_ge in E. split; [|simpl; lia]. destruct fuel; cbn [slot_loop]; unfold isBefore;
        by rewrite (proj2 (Z.ltb_ge _ _)).
Qed.

Definition covers_event (ev : CalEventRow) (l : list piece) : Prop :=
  if ce_startsAt ev <? ce_endsAt ev then tiles (ce_startsAt ev) (ce_endsAt ev) l else l = [].

Definition fragments_of (ev : CalEventRow) (l : list piece) : list Fragment :=
  map (fragment_of ev (zd_at tz (ce_startsAt ev)) (zd_at tz (ce_endsAt ev))) l.

(** One round for each hour the event touches. *)
Definition hours (ev : CalEventRow) : nat := Z.to_nat ((ce_endsAt ev - ce_startsAt ev) / 3600000 + 2).

Lemma slots_of_spec `{!HourLaws D tz in_zone} ev fuel :
  (hours ev ≤ fuel)%nat → ∃ l, slots_of fuel tz ev = Some (fragments_of ev l) ∧ covers_event ev l.
Proof.
  intros Hf. unfold slots_of, covers_event, isAfter. rewrite !hl_at. destruct (ce_startsAt ev <? ce_endsAt ev) eqn:E; [|by exists []].
  apply Z.ltb_lt in E. pose proof (hl_zone_at (ce_startsAt ev)) as Hin. pose proof (hl_start _ Hin) as Hh. rewrite hl_at in Hh.
  destruct (slot_loop_spec ev (zd_at tz (ce_startsAt ev)) (zd_at tz (ce_endsAt ev)) (hours ev)
    (zd_startOf (zd_at tz (ce_startsAt ev)) "hour"%js) fuel) as (l & El & Hl); rewrite ?hl_at in *; [done|by apply hl_zone_start| |lia|lia| |done|].
  - apply hl_hour; [done|by apply hl_zone_start|lia].
  - unfold hours. pose proof (Z.div_mod (ce_endsAt ev - ce_startsAt ev) 3600000 ltac:(lia)).
    pose proof (Z.mod_pos_bound (ce_endsAt ev - ce_startsAt ev) 3600000 ltac:(lia)).
    assert (0 ≤ (ce_endsAt ev - ce_startsAt ev) / 3600000) by (apply Z.div_pos; lia). lia.
  - exists l. split; [exact El|]. by replace (ce_startsAt ev) with (Z.min (ce_endsAt ev) (Z.max (ce_startsAt ev)
      (valueOf (zd_startOf (zd_at tz (ce_startsAt ev)) "hour"%js)))) at 1 by lia.
Qed.

(** A map over a list whose function gives a result with enough fuel. *)
Lemma mapM_enough {A B C} (f : nat → A → option B) (g : A → C → B) (P : A → C → Prop) (need : A → nat) fuel l :
  (∀ a, (need a ≤ fuel)%nat → ∃ c, f fuel a = Some (g a c) ∧ P a c) → (∀ a, a ∈ l → (need a ≤ fuel)%nat) →
  ∃ cs, mapM (f fuel) l = Some (zip_with g l cs) ∧ Forall2 P l cs.
Proof.
  intros Hf. induction l as [|a l IH]; intros Hl; [by exists []|].
  destruct (Hf a) as (c & Hc & HP); [apply Hl; by left|]. destruct IH as (cs & Hcs & HPs); [intros; apply Hl; by right|].
  exists (c :: cs). split; [|by constructor]. simpl. by rewrite Hc, Hcs.
Qed.

(** C26: The hours of the calendar show every event from its start to its end, in a zone whose shifts are
    whole hours: the fragments of an event that ends after it starts follow each other without a gap or an
    overlap; each is in the full hour of the zone in which it begins, and ends with it at the latest; and
    each is in the bucket of its day and hour, after those of the events before it.  The loop ends: one
    round for each hour of the longest event, and two, are enough. *)
Theorem eventsBySlot_tiles `{!HourLaws D tz in_zone} events fuel :
  (∀ ev, ev ∈ events → (hours ev ≤ fuel)%nat) →
  ∃ pieces slots, Forall2 (covers_event) events pieces ∧ eventsBySlot fuel tz events = Some slots ∧
    ∀ k, jm_get k slots =
      let here := filter (λ p, slot_key p.2 = k) (concat (zip_with (λ ev l, with_event ev (fragments_of ev l)) events pieces)) in
      if decide (here = []) then None else Some here.
Proof.
  intros Hf. destruct (mapM_enough (λ fuel ev, with_event ev <$> slots_of fuel tz ev)
    (λ ev l, with_event ev (fragments_of ev l)) covers_event hours fuel events) as (pieces & E & Hp); [|done|].
  - intros ev Hev. destruct (slots_of_spec ev fuel Hev) as (l & El & Hl). exists l. by rewrite El.
  - exists pieces. eexists. split; [done|]. unfold eventsBySlot. rewrite E. split; [done|]. intros k. apply group_by_get.
Qed.
End Views.

(** ** Days *)

(** A day begins at or before its times and has at most 25 hours, the next one is at least 23 hours later; and
    differences in minutes are cut off. *)
Class DayLaws {M} (D : ZonedDayjs M) : Prop := {
  dl_at z t : valueOf (zd_at z t) = t;
  dl_day m : valueOf (zd_startOf m "day"%js) ≤ valueOf m;
  dl_end m : valueOf m ≤ valueOf (zd_endOf m "day"%js) < valueOf (zd_startOf m "day"%js) + 90000000;
  dl_add m : valueOf m + 82800000 ≤ valueOf (zd_add m 1 "day"%js);
  dl_before a b : zd_isSameOrBefore a b "day"%js = true → valueOf (zd_startOf a "day"%js) ≤ valueOf b;
  dl_diff a b : zd_diff a b "minute"%js = Z.quot (valueOf a - valueOf b) 60000;
}.

(** The minutes of a day of 25 hours have percentages, whose sums are numbers. *)
Lemma percent_of_minutes m : 0 ≤ m ≤ 1500 → is_finite_num (percent_of m (24 * 60)) = true.
Proof.
  intros Hm. assert (forallb (λ n, is_finite_num (percent_of n (24 * 60))) (zrange 1501) = true) as H by by vm_compute.
  rewrite List.forallb_forall in H. apply H. unfold zrange. apply in_map_iff. exists (Z.to_nat m). rewrite in_seq. lia.
Qed.

Section Days.
Context {M : Type} {D : ZonedDayjs M} `{!DayLaws D}.

Lemma day_fragment_ok ev eventStart eventEnd cursor s e :
  valueOf cursor ≤ valueOf s < valueOf e → valueOf e ≤ valueOf cursor + 90000000 →
  frag_ok (day_fragment ev eventStart eventEnd cursor s e).
Proof.
  intros Hs He. unfold frag_ok, bottom. simpl. rewrite !dl_diff.
  assert (∀ x, 0 ≤ x ≤ 90000000 → 0 ≤ Z.quot x 60000 ≤ 1500) as Hq.
  { intros x Hx. rewrite Z.quot_div_nonneg by lia. split; [apply Z.div_pos; lia|]. apply Z.div_le_upper_bound; lia. }
  pose proof (Hq (valueOf s - valueOf cursor)). pose proof (Hq (valueOf e - valueOf s)).
  pose proof (percent_of_minutes (Z.quot (valueOf s - valueOf cursor) 60000)) as Ht.
  pose proof (percent_of_minutes (Z.max 5 (Z.quot (valueOf e - valueOf s) 60000))) as Hh.
  split; [|split]; [apply finite_is_number, Ht; lia|apply finite_is_number, Hh; lia|].
  apply num_add_number; [apply Ht; lia|apply Hh; lia].
Qed.

(** The days that are left, at least 23 hours each, with one more in between for a day of 25 hours. *)
Lemma day_loop_spec ev eventStart eventEnd lastDay n cursor fuel :
  valueOf lastDay + 90000000 < valueOf cursor + Z.of_nat n * 82800000 → (n ≤ fuel)%nat →
  ∃ l, day_loop fuel ev eventStart eventEnd lastDay cursor = Some l ∧ Forall frag_ok l.
Proof.
  revert cursor fuel. induction n as [|n IH]; intros cursor fuel Hn Hf; pose proof (dl_end cursor) as Hend.
  - exists []. assert (zd_isSameOrBefore cursor lastDay "day"%js = false) as E.
    { apply not_true_is_false. intros H%dl_before. lia. }
    destruct fuel; cbn [day_loop]; by rewrite E.
  - destruct (zd_isSameOrBefore cursor lastDay "day"%js) eqn:E.
    + destruct fuel as [|fuel]; [lia|]. pose proof (dl_add cursor) as Hadd.
      destruct (IH (zd_add cursor 1 "day"%js) fuel) as (l & El & Hl); [lia|lia|]. cbn [day_loop]. rewrite E, El.
      eexists. split; [done|]. unfold isAfter, isBefore. set (s := if _ <? valueOf eventStart then _ else _).
      set (e := if valueOf eventEnd <? _ then _ else _). destruct (Z.ltb_spec (valueOf s) (valueOf e)) as [Hse|]; [|done].
      constructor; [|done]. pose proof (dl_day cursor).
      assert (valueOf cursor ≤ valueOf s) as Hs by (unfold s; destruct (Z.ltb_spec (valueOf cursor) (valueOf eventStart)); lia).
      assert (valueOf e ≤ valueOf (zd_endOf cursor "day"%js)) as He
        by (unfold e; destruct (Z.ltb_spec (valueOf eventEnd) (valueOf (zd_endOf cursor "day"%js))); lia).
      apply day_fragment_ok; lia.
    + exists []. destruct fuel; cbn [day_loop]; by rewrite E.
Qed.
End Days.

(** ** Buckets *)

Section Buckets.
Context {K A : Type} `{!EqDecision K} (key : A → K).

(** A map whose buckets hold what has their key, read as one list. *)
Lemma filter_buckets (m : jsmap K (list A)) k :
  NoDup m.*1 → (∀ k' b a, (k', b) ∈ m → a ∈ b → key a = k') →
  filter (λ a, key a = k) (concat m.*2) = default [] (jm_get k m).
Proof.
  induction m as [|[k' b] m IH]; [done|]. rewrite !fmap_cons, NoDup_cons. intros [Hk Hnd] Hkey. cbn [concat fst snd jm_get] in *.
  rewrite filter_app.
  assert (∀ a, a ∈ b → key a = k') as Hb by (intros a; apply Hkey; by left). case_decide as E.
  - subst k'. rewrite IH by (done || (intros; eapply Hkey; [by right|done])).
    rewrite (proj2 (jm_get_None k m)) by done. rewrite filter_all by done. apply app_nil_r.
  - rewrite filter_none by (intros a Ha Hka; rewrite (Hb a Ha) in Hka; done). cbn [app]. apply IH; [done|].
    intros; eapply Hkey; [by right|done].
Qed.

Lemma group_by_buckets (l : list A) k' b a : (k', b) ∈ group_by key l → a ∈ b → key a = k'.
Proof.
  intros Hb Ha. apply jm_elem_of_get in Hb; [|rewrite group_by_keys; apply set_of_list_NoDup]. rewrite group_by_get in Hb.
  destruct (decide _); [done|]. injection Hb as <-. by apply list_elem_of_filter in Ha as [? _].
Qed.

Lemma filter_group_by (l : list A) k : filter (λ a, key a = k) (concat (group_by key l).*2) = items_of key k l.
Proof.
  rewrite filter_buckets; [|rewrite group_by_keys; apply set_of_list_NoDup|intros k' b a; apply group_by_buckets].
  rewrite group_by_get. by destruct (decide _) as [->|].
Qed.
End Buckets.

Lemma filter_swap {A} (P : A → Prop) `{!∀ a, Decision (P a)} (Q : A → bool) l :
  filter P (List.filter Q l) = List.filter Q (filter P l).
Proof.
  induction l as [|a l IH]; [done|]. simpl. rewrite filter_cons. destruct (Q a) eqn:EQ; rewrite ?filter_cons; case_decide; simpl;
    rewrite ?EQ; by rewrite IH.
Qed.

(** The map of a kind of fragments, from the fragments of all days. *)
Lemma jm_get_keyed {K A B} `{!EqDecision K} (f : K → A → B) k (m : jsmap K A) :
  jm_get k (map (λ b, (b.1, f b.1 b.2)) m) = f k <$> jm_get k m.
Proof. induction m as [|[k' b] m IH]; [done|]. simpl. case_decide as E; [by subst|done]. Qed.

Section AllDays.
Context {M : Type} {D : ZonedDayjs M} `{!DayLaws D}.

(** One round for each day the event touches. *)
Definition days (ev : CalEventRow) : nat := Z.to_nat ((ce_endsAt ev - ce_startsAt ev) / 82800000 + 4).

Lemma days_of_spec tz ev fuel : (days ev ≤ fuel)%nat → ∃ l, days_of fuel tz ev = Some l ∧ Forall frag_ok l.
Proof.
  intros Hf. unfold days_of. set (s := zd_at tz (ce_startsAt ev)). set (e := zd_at tz (ce_endsAt ev)).
  pose proof (dl_at tz (ce_startsAt ev)) as Hs. pose proof (dl_at tz (ce_endsAt ev)) as He. fold s in Hs. fold e in He.
  pose proof (dl_day e). pose proof (dl_end s).
  destruct (day_loop_spec ev s e (zd_startOf e "day"%js) (days ev) (zd_startOf s "day"%js) fuel) as (l & El & Hl); [|done|by exists l].
  unfold days in *. pose proof (Z.div_mod (ce_endsAt ev - ce_startsAt ev) 82800000 ltac:(lia)).
  pose proof (Z.mod_pos_bound (ce_endsAt ev - ce_startsAt ev) 82800000 ltac:(lia)). lia.
Qed.

Definition on_day (k : jsstr) (allDay : bool) (p : EventFragment) : bool :=
  bool_decide (date p.2 = k) && Bool.eqb (ce_isAllDay p.1) allDay.

Definition bucket {A} (l : list A) : option (list A) := match l with [] => None | _ => Some l end.

Lemma bucket_decide {A} (l : list A) : (if decide (l = []) then None else Some l) = bucket l.
Proof. destruct l; by case_decide. Qed.

Lemma on_day_filter k b (Q : EventFragment → bool) (l : list EventFragment) :
  (∀ p, Q p = Bool.eqb (ce_isAllDay p.1) b) → List.filter Q (items_of (λ p, date p.2) k l) = List.filter (on_day k b) l.
Proof.
  intros HQ. unfold items_of. rewrite list_filter_bool, filter_andb. apply List.filter_ext. intros p. by rewrite HQ.
Qed.

Lemma get_timed (base : list EventFragment) k :
  jm_get k (group_by (λ p, date p.2) (List.filter (λ p, negb (ce_isAllDay p.1)) (concat (group_by (λ p, date p.2) base).*2))) =
  bucket (List.filter (on_day k false) base).
Proof.
  rewrite group_by_get, bucket_decide. f_equal. unfold items_of at 1. rewrite filter_swap, (filter_group_by (λ p, date p.2)).
  apply on_day_filter. intros p. by destruct (ce_isAllDay p.1).
Qed.

Lemma get_all_day (base : list EventFragment) k :
  jm_get k (group_by ad_date (concat (map (λ b, map (all_day b.1) (List.filter (λ p, ce_isAllDay p.1) b.2))
    (group_by (λ p, date p.2) base)))) = bucket (map (all_day k) (List.filter (on_day k true) base)).
Proof.
  rewrite group_by_get, bucket_decide. f_equal. unfold items_of at 1. set (m := group_by (λ p : EventFragment, date p.2) base).
  replace (map _ m) with ((map (λ b, (b.1, map (all_day b.1) (List.filter (λ p, ce_isAllDay p.1) b.2))) m).*2)
    by (unfold fmap; by rewrite map_map).
  rewrite filter_buckets.
  - rewrite (jm_get_keyed (λ k b, map (all_day k) (List.filter (λ p, ce_isAllDay p.1) b))). unfold m. rewrite group_by_get.
    assert (List.filter (λ p, ce_isAllDay p.1) (items_of (λ p, date p.2) k base) = List.filter (on_day k true) base) as <-
      by (apply on_day_filter; intros p; by destruct (ce_isAllDay p.1)).
    set (here := items_of (λ p : EventFragment, date p.2) k base). change (items_of _ k base) with here.
    case_decide as E; [by rewrite E|done].
  - unfold fmap. rewrite map_map. change (map _ m) with (m.*1). unfold m. rewrite group_by_keys. apply set_of_list_NoDup.
  - intros k' b a (x & [= -> ->] & Hx)%list_elem_of_fmap Ha. by apply list_elem_of_fmap in Ha as (p & -> & _).
Qed.

(** The days of the calendar hold every event, those of whole days apart from the others: each event is cut
    into fragments the client can lay out, each fragment is in the bucket of its day, in the order of the events,
    and no bucket is empty; the loop ends. *)
Theorem eventsByDay_buckets tz events fuel :
  (∀ ev, ev ∈ events → (days ev ≤ fuel)%nat) →
  ∃ frs timed allDay, Forall2 (λ ev l, days_of fuel tz ev = Some l ∧ Forall frag_ok l) events frs ∧
    eventsByDayWithAllDay fuel tz events = Some (timed, allDay) ∧
    let base := concat (zip_with with_event events frs) in
    ∀ k, jm_get k timed = bucket (List.filter (on_day k false) base) ∧
         jm_get k allDay = bucket (map (all_day k) (List.filter (on_day k true) base)).
Proof.
  intros Hf. destruct (mapM_enough (λ fuel ev, with_event ev <$> days_of fuel tz ev) with_event
    (λ ev l, days_of fuel tz ev = Some l ∧ Forall frag_ok l) days fuel events) as (frs & E & Hp); [|done|].
  - intros ev Hev. destruct (days_of_spec tz ev fuel Hev) as (l & El & Hl). exists l. by rewrite El.
  - exists frs. eexists _, _. split; [done|]. unfold eventsByDayWithAllDay, eventsByDay. rewrite E. split; [done|].
    intros k. split; [apply get_timed|apply get_all_day].
Qed.
End AllDays.

(** ** Repeated events *)

(** An instance is shown when it starts in the range: one that started before it and still lasts is not, though
    a single event would be. *)
Lemma instances_start_in_range {M} {D : ZonedDayjs M} {Options} (parseString : jsstr → option Options) between ev rangeStart rangeEnd tz l :
  (∀ o s a b d, d ∈ between o s a b → a ≤ d ≤ b) → ce_isExternal ev = true → opt_truthy (ce_recurrenceRule ev) = true →
  expandEventForRange parseString between ev rangeStart rangeEnd tz = Some l →
  ∀ i, i ∈ l → rangeStart ≤ in_startsAt i ≤ rangeEnd ∧ in_endsAt i - in_startsAt i = ce_endsAt ev - ce_startsAt ev.
Proof.
  intros Hb Hx Hr. unfold expandEventForRange. rewrite Hr, Hx. cbn [negb]. destruct (parseString _) as [o|]; [|done].
  intros [= <-] i (n & d & -> & Hd)%elem_of_lookup_imap. simpl. split; [|lia].
  apply list_elem_of_lookup_2 in Hd. by eapply Hb.
Qed.

(** ** A zone *)

(** UTC: the objects are instants. *)
#[export] Instance utc_zoned : ZonedDayjs Z := {|
  zd_at _ t := t; zd_now _ := 0; valueOf m := m;
  zd_startOf m u := if bool_decide (u = "hour"%js) then 3600000 * (m / 3600000) else msPerDay * Day m;
  zd_endOf m _ := msPerDay * Day m + (msPerDay - 1);
  zd_add m n u := if bool_decide (u = "hour"%js) then m + n * 3600000 else m + n * msPerDay;
  zd_set _ _ m := m;
  zd_get u m := if bool_decide (u = "hour"%js) then TimeWithinDay m / 3600000 else 0;
  zd_format m _ := iso_date m;
  zd_diff a b _ := Z.quot (a - b) 60000;
  zd_isSameOrBefore a b _ := Day a <=? Day b;
|}.

#[export] Instance utc_hours tz : HourLaws utc_zoned tz (λ _, True).
Proof.
  assert (∀ m, 3600000 * (m / 3600000) ≤ m < 3600000 * (m / 3600000) + 3600000) as H.
  { intros m. pose proof (Z.div_mod m 3600000 ltac:(lia)). pose proof (Z.mod_pos_bound m 3600000 ltac:(lia)). lia. }
  split; try done; cbn [zd_startOf zd_add valueOf utc_zoned]; rewrite ?bool_decide_eq_true_2 by done.
  - intros m m' _ _ Hm. f_equal. symmetry. apply (Z.div_unique_pos m' 3600000 (m / 3600000) (m' - 3600000 * (m / 3600000))); lia.
  - intros m _. rewrite Z.div_add by lia. lia.
  - intros m _. apply H.
Qed.

#[export] Instance utc_days : DayLaws utc_zoned.
Proof.
  assert (∀ m, msPerDay * Day m ≤ m < msPerDay * Day m + msPerDay) as H.
  { intros m. unfold Day, msPerDay. pose proof (Z.div_mod m 86400000 ltac:(lia)). pose proof (Z.mod_pos_bound m 86400000 ltac:(lia)). lia. }
  split; [done|..]; intros m; simpl; try (specialize (H m); unfold msPerDay in *; lia).
  - intros b Hb%Z.leb_le. specialize (H b). unfold msPerDay in *. lia.
Qed.

Definition ex_view_event (i : jsstr) (allDay : bool) (s e : Z) : CalEventRow :=
  {| ce_id := i; ce_ownerId := "u"%js; ce_calendarId := "k"%js; ce_organizerEmail := None; ce_organizerName := None;
     ce_isAllDay := allDay; ce_startsAt := s; ce_endsAt := e; ce_recurrenceRule := None; ce_isExternal := false;
     ce_icalUid := None; ce_others := [] |}.

(** From a quarter past eight to ten past ten, a whole day, and one that never was. *)
Definition ex_view : list CalEventRow :=
  [ex_view_event "a"%js false 29700000 36600000; ex_view_event "b"%js true 0 86399999; ex_view_event "c"%js false 5 5].

Lemma eventsBySlot_tiles_witness :
  ∃ pieces slots, Forall2 (covers_event (D := utc_zoned) (λ _, True)) ex_view pieces ∧ eventsBySlot 30 "UTC"%js ex_view = Some slots ∧
    map fst slots ≠ [].
Proof.
  destruct (eventsBySlot_tiles (D := utc_zoned) "UTC"%js (λ _, True) ex_view 30) as (pieces & slots & Hp & E & _).
  - intros ev Hev. repeat (apply elem_of_cons in Hev as [-> | Hev]; [apply (bool_decide_unpack _); by vm_compute|]). by apply elem_of_nil in Hev.
  - exists pieces, slots. split; [exact Hp|]. split; [exact E|]. intros Hs.
    assert (map fst (default [] (eventsBySlot 30 "UTC"%js ex_view)) = []) as H by (rewrite E; exact Hs). by vm_compute in H.
Defined.

Lemma eventsByDay_buckets_witness :
  ∃ timed allDay, eventsByDayWithAllDay 5 "UTC"%js ex_view = Some (timed, allDay) ∧
    map fst timed = ["1970-01-01"%js] ∧ map fst allDay = ["1970-01-01"%js].
Proof.
  destruct (eventsByDay_buckets (D := utc_zoned) "UTC"%js ex_view 5) as (frs & timed & allDay & _ & E & _).
  - intros ev Hev. repeat (apply elem_of_cons in Hev as [-> | Hev]; [apply (bool_decide_unpack _); by vm_compute|]). by apply elem_of_nil in Hev.
  - exists timed, allDay. split; [exact E|].
    assert (eventsByDayWithAllDay 5 "UTC"%js ex_view = Some (timed, allDay)) as H by exact E. clear E.
    assert ((λ p, (map fst p.1, map fst p.2)) <$> eventsByDayWithAllDay 5 "UTC"%js ex_view = Some (["1970-01-01"%js], ["1970-01-01"%js])) as H'
      by by vm_compute.
    rewrite H in H'. simpl in H'. injection H' as H1 H2. by split.
Defined.

(** The hours of the first event. *)
Lemma ex_slots :
  (λ m, map (λ b, (b.1, map (λ p, ce_id p.1) b.2)) m) <$> eventsBySlot 30 "UTC"%js (take 1 ex_view) =
  Some [("1970-01-01:8", ["a"]); ("1970-01-01:9", ["a"]); ("1970-01-01:10", ["a"])]%js.
Proof. by vm_compute. Qed.
