(* ===== verification/ItipMail.v ===== *)
(** * Invitations and answers by mail ([apps/worker/lib/dav/calendar/dav-itip-notify.ts], [dav-itip-reply.ts])

    The organizer's worker mails the guests of an event, a guest's worker mails the answer back: the
    calendar object of the event is changed and attached.  [ical.js] parses and prints objects, which are
    the components of [ITip.v]; the storage and the schema of addresses are parameters.  The dash between
    two times is written as a hyphen. *)

From stdpp Require Import base list.
From S2P Require Import Prelude JsString JsNumber JsValue ITip CalActions CalViews.
From S2P Require Import Proc.

(** ** Tables *)

Record MailEvent := {
  me_id : jsstr; me_ownerId : jsstr; me_calendarId : jsstr; me_rawIcs : option jsstr; me_isExternal : bool;
  me_organizerEmail : option jsstr; me_organizerName : option jsstr; me_organizerIdentityId : option jsstr;
  me_title : jsstr; me_startsAt : Z; me_endsAt : Z; me_isAllDay : bool; me_davUri : option jsstr;
}.

Record SentBox := { sb_id : jsstr; sb_identityId : jsstr; sb_slug : option jsstr }.

Record StoredFile := { st_path : jsstr; st_messageId : jsstr; st_filenameOriginal : jsstr; st_contentType : jsstr }.

(** The payload of the job [send-and-reconcile]; its message is composed, and its mailbox is the box of sent
    mail. *)
Record SendPayload := {
  sp_newMessageId : jsstr; sp_sentMailboxId : jsstr; sp_identityId : jsstr; sp_to : jsstr; sp_subject : jsstr;
  sp_text : jsstr; sp_html : jsstr; sp_attachments : list StoredFile;
}.

(** [objects]: what was uploaded, by path. *)
Record ItipDb := {
  it_events : list MailEvent; it_guests : list GuestRow; it_identities : list CalIdentityRow; it_boxes : list SentBox;
  it_calendars : list CalendarRow; objects : list (jsstr * jsstr); sendMailQueue : list SendPayload;
}.

Definition set_it_guests f s : ItipDb :=
  {| it_events := it_events s; it_guests := f (it_guests s); it_identities := it_identities s; it_boxes := it_boxes s;
     it_calendars := it_calendars s; objects := objects s; sendMailQueue := sendMailQueue s |}.
Definition add_object o s : ItipDb :=
  {| it_events := it_events s; it_guests := it_guests s; it_identities := it_identities s; it_boxes := it_boxes s;
     it_calendars := it_calendars s; objects := objects s ++ [o]; sendMailQueue := sendMailQueue s |}.
Definition add_mail m s : ItipDb :=
  {| it_events := it_events s; it_guests := it_guests s; it_identities := it_identities s; it_boxes := it_boxes s;
     it_calendars := it_calendars s; objects := objects s; sendMailQueue := sendMailQueue s ++ [m] |}.

Abbreviation itip := (prog ItipDb).

(** ** Changing the object *)

Definition newProperty (n : jsstr) (v : jsval) : Property := setValue v (new_property n).
Definition addPropertyWithValue (n : jsstr) (v : jsval) (ps : list Property) : list Property := ps ++ [newProperty n v].

(** The component [getFirstSubcomponent] returns is changed in its place. *)
Fixpoint update_sub (n : jsstr) (f : list Property → list Property) (cs : list Component) : list Component :=
  match cs with
  | [] => []
  | c :: cs' => if bool_decide (c_name c = n) then Comp (c_name c) (f (c_props c)) (c_subs c) :: cs' else c :: update_sub n f cs'
  end.

Definition property_value (n : jsstr) (ps : list Property) : jsval := from_option p_value VUndef (getFirstProperty n ps).

(** [if (!icalEvent.uid) icalEvent.uid = ...] *)
Definition ensure_uid (e : MailEvent) (ps : list Property) : list Property :=
  if js_truthy (property_value "uid"%js ps) then ps
  else updatePropertyWithValue "uid"%js (VStr (opt_or (me_davUri e) (me_id e))) ps.

Definition with_cn (name : option jsstr) (p : Property) : Property := with_text "cn"%js name p.

Section Reply.
Context (now : jsval) (e : MailEvent) (responderEmail responderName : jsstr) (partstat : DbPartstat).

Definition reply_organizer (ps : list Property) : list Property :=
  match getFirstProperty "organizer"%js ps, me_organizerEmail e with
  | None, Some o => if truthy o then ps ++ [with_cn (me_organizerName e) (newProperty "organizer"%js (VStr (mailto ++ o)))] else ps
  | _, _ => ps
  end.

Definition reply_attendee (ps : list Property) : Property :=
  let original := List.find (λ p, named "attendee"%js p && bool_decide (reply_address (p_value p) = toLowerCase responderEmail)) ps in
  let p := match original with
           | Some p => p
           | None => with_cn (Some responderName) (newProperty "attendee"%js (VStr (mailto ++ responderEmail)))
           end in
  setParameter "rsvp"%js (VStr "FALSE"%js) (setParameter "partstat"%js (VStr (partstatToIcs (Some (partstat_text partstat)))) p).

Definition reply_vevent (ps : list Property) : list Property :=
  let ps := reply_organizer (ensure_uid e (updatePropertyWithValue "dtstamp"%js now ps)) in
  removeAllProperties "attendee"%js ps ++ [reply_attendee ps].

Definition reply_calendar (vcal : Component) : Component :=
  let props := addPropertyWithValue "calscale"%js (VStr "GREGORIAN"%js)
                 (addPropertyWithValue "version"%js (VStr "2.0"%js)
                    (addPropertyWithValue "prodid"%js (VStr "-//LurusMail//Calendar 1.0//EN"%js) (c_props vcal))) in
  Comp (c_name vcal) (addPropertyWithValue "method"%js (VStr "REPLY"%js) (removeAllProperties "method"%js props))
    (update_sub "vevent"%js reply_vevent (c_subs vcal)).
End Reply.

Inductive ItipAction := create | update | cancel.

#[export] Instance ItipAction_eq_dec : EqDecision ItipAction.
Proof. solve_decision. Defined.

Definition is_cancel (a : ItipAction) : bool := bool_decide (a = cancel).

(** [if (!vcal.getFirstProperty(n)) vcal.addPropertyWithValue(n, v)] *)
Definition ensure_property (n : jsstr) (v : jsstr) (ps : list Property) : list Property :=
  match getFirstProperty n ps with Some _ => ps | None => addPropertyWithValue n (VStr v) ps end.

Section Notify.
Context (now : jsval) (e : MailEvent) (organizerEmail : jsstr) (organizerName : option jsstr) (realAttendees : list GuestRow) (action : ItipAction).

Definition itip_method : jsstr := if is_cancel action then "CANCEL"%js else "REQUEST"%js.

Definition guest_property (a : GuestRow) : option Property :=
  let addr := trim (gr_email a) in
  if negb (truthy addr) then None
  else Some (setParameter "rsvp"%js (VStr (if gr_rsvp a then "TRUE" else "FALSE")%js)
              (setParameter "partstat"%js (VStr (partstatToIcs (Some (partstat_text (gr_partstat a)))))
                (setParameter "role"%js (VStr (roleToIcs (Some (role_text (gr_role a)))))
                  (with_cn (gr_name a) (newProperty "attendee"%js (VStr (mailto ++ addr))))))).

Definition notify_vevent (ps : list Property) : list Property :=
  let ps := ensure_uid e (updatePropertyWithValue "dtstamp"%js now ps) in
  let ps := if is_cancel action then updatePropertyWithValue "status"%js (VStr "CANCELLED"%js) ps else ps in
  removeAllProperties "attendee"%js (removeAllProperties "organizer"%js ps) ++
  [with_cn organizerName (newProperty "organizer"%js (VStr (mailto ++ organizerEmail)))] ++ omap guest_property realAttendees.

Definition notify_calendar (vcal : Component) : Component :=
  let props := ensure_property "calscale"%js "GREGORIAN"%js
                 (ensure_property "version"%js "2.0"%js (ensure_property "prodid"%js "-//LurusMail//Calendar 1.0//EN"%js (c_props vcal))) in
  Comp (c_name vcal) (addPropertyWithValue "method"%js (VStr itip_method) (removeAllProperties "method"%js props))
    (update_sub "vevent"%js notify_vevent (c_subs vcal)).
End Notify.

(** ** Mails *)

Section Mail.
Context (parse : jsstr → option Component) (print : Component → jsstr).
(** [ICAL.Time.fromJSDate(new Date())], the random texts of a mail, the new id of a message, what [mime-types] knows and
    whether the storage takes a file. *)
Context (now : jsval) (cleanId : ItipDb → nat → jsstr) (randomUUID : ItipDb → jsstr) (extension : jsstr → option jsstr)
  (upload_ok : jsstr → bool).
(** [z.string().email()] *)
Context (is_email : jsstr → bool).
(** [dayjs] in a zone. *)
Context (same_day : jsstr → Z → Z → bool) (format : jsstr → Z → jsstr → jsstr).

Definition newline_text : jsstr := [newline].

(** What both kinds of mail have in common: the checks of [EmailSendSchema], the upload of the object and the
    job.  The object travels as base64 and is stored as it was. *)
Definition enqueue (kind : jsstr) (identity : CalIdentityRow) (to subject introLine humanWhen contentType icsText : jsstr) : itip unit :=
  s ← read;
  match List.find (λ b, bool_decide (sb_identityId b = ci_id identity) && bool_decide (sb_slug b = Some "sent"%js)) (it_boxes s) with
  | None => mret tt
  | Some sentMailbox =>
      let filename := kind ++ "-"%js ++ cleanId s 0 ++ ".ics"%js in
      if negb (truthy (ci_id identity) && is_email (trim to) && truthy subject && truthy icsText) then mret tt
      else
        let newMessageId := randomUUID s in
        let path := "private/"%js ++ ci_ownerId identity ++ "/"%js ++ newMessageId ++ "/"%js ++ kind ++ "-"%js ++ cleanId s 1 ++
                    "."%js ++ opt_or (extension contentType) "dat"%js in
        stored ← (if upload_ok path
                  then _ ← modify (add_object (path, icsText));
                       mret [{| st_path := path; st_messageId := newMessageId; st_filenameOriginal := filename; st_contentType := contentType |}]
                  else mret []);
        modify (add_mail {|
          sp_newMessageId := newMessageId; sp_sentMailboxId := sb_id sentMailbox; sp_identityId := ci_id identity; sp_to := trim to;
          sp_subject := subject; sp_text := introLine ++ newline_text ++ newline_text ++ "When: "%js ++ humanWhen;
          sp_html := "<p>"%js ++ introLine ++ "</p><p><strong>When:</strong> "%js ++ humanWhen ++ "</p>"%js; sp_attachments := stored |})
  end.

Definition title_of (e : MailEvent) : jsstr := js_or (me_title e) "(no title)"%js.
Definition quoted (s : jsstr) : jsstr := [dquote] ++ s ++ [dquote].

Definition find_mail_event (eventId : jsstr) (s : ItipDb) : option MailEvent :=
  List.find (λ r, bool_decide (me_id r = eventId)) (it_events s).

(** *** [davItipReply] *)

Definition reply_subject (partstat : DbPartstat) : jsstr :=
  match partstat with accepted => "Accepted: " | declined => "Declined: " | _ => "Tentative: " end%js.

Definition reply_intro (partstat : DbPartstat) (displayName title : jsstr) : jsstr :=
  match partstat with
  | accepted => displayName ++ " has accepted the invitation "%js ++ quoted title ++ "."%js
  | declined => displayName ++ " has declined the invitation "%js ++ quoted title ++ "."%js
  | _ => displayName ++ " has marked the invitation "%js ++ quoted title ++ " as tentative."%js
  end.

Definition set_guest_partstat (partstat : DbPartstat) (r : GuestRow) : GuestRow :=
  {| gr_id := gr_id r; gr_ownerId := gr_ownerId r; gr_eventId := gr_eventId r; gr_contactId := gr_contactId r;
     gr_email := gr_email r; gr_name := gr_name r; gr_role := gr_role r; gr_partstat := partstat; gr_rsvp := gr_rsvp r;
     gr_isOrganizer := gr_isOrganizer r |}.

Definition reply_identity (e : MailEvent) (responderEmail : jsstr) (s : ItipDb) : option CalIdentityRow :=
  List.find (λ i, bool_decide (ci_ownerId i = me_ownerId e) && bool_decide (toLowerCase (ci_value i) = responderEmail)) (it_identities s).

(** The mail with the answer; nothing when the object cannot be read. *)
Definition mail_reply (e : MailEvent) (attendee : GuestRow) (organizer ics : jsstr) (partstat : DbPartstat) : itip unit :=
  s ← read;
  let responderEmail := toLowerCase (trim (gr_email attendee)) in
  if negb (truthy responderEmail) then mret tt
  else match reply_identity e responderEmail s with
  | None => mret tt
  | Some identity =>
      let responderName := opt_or (gr_name attendee) (opt_or (ci_displayName identity) responderEmail) in
      match parse ics with
      | Some vcal =>
          match getFirstSubcomponent "vevent"%js vcal with
          | Some _ =>
              enqueue "reply"%js identity organizer (reply_subject partstat ++ title_of e)
                (reply_intro partstat responderName (title_of e))
                (toISOString (me_startsAt e) ++ " - "%js ++ toISOString (me_endsAt e))
                "text/calendar; charset=utf-8; method=REPLY"%js
                (print (reply_calendar now e responderEmail responderName partstat vcal))
          | None => mret tt
          end
      | None => mret tt
      end
  end.

Definition davItipReply (eventId attendeeId : jsstr) (partstat : DbPartstat) : itip unit :=
  s ← read;
  match find_mail_event eventId s with
  | None => mret tt
  | Some e =>
      if negb (opt_truthy (me_rawIcs e)) || negb (me_isExternal e) || negb (opt_truthy (me_organizerEmail e)) then mret tt
      else match List.find (λ r, bool_decide (gr_id r = attendeeId) && bool_decide (gr_eventId r = eventId)) (it_guests s) with
      | None => mret tt
      | Some attendee =>
          _ ← modify (set_it_guests (map (λ r, if bool_decide (gr_id r = attendeeId) then set_guest_partstat partstat r else r)));
          mail_reply e attendee (default [] (me_organizerEmail e)) (default [] (me_rawIcs e)) partstat
      end
  end.

(** *** [davItipNotify] *)

Definition date_format : jsstr := "D MMM YYYY"%js.
Definition time_format : jsstr := "h:mm A"%js.

Definition human_when (tzid : jsstr) (e : MailEvent) : jsstr :=
  let start f := format tzid (me_startsAt e) f in
  let end_ f := format tzid (me_endsAt e) f in
  let same := same_day tzid (me_startsAt e) (me_endsAt e) in
  if me_isAllDay e then
    if same then start date_format ++ " (all day)"%js
    else start date_format ++ " - "%js ++ end_ date_format ++ " (all day)"%js
  else if same then start date_format ++ " "%js ++ start time_format ++ " - "%js ++ end_ time_format ++ " ("%js ++ tzid ++ ")"%js
  else start "D MMM YYYY h:mm A"%js ++ " - "%js ++ end_ "D MMM YYYY h:mm A"%js ++ " ("%js ++ tzid ++ ")"%js.

Definition notify_subject (action : ItipAction) : jsstr :=
  match action with cancel => "Cancelled: " | update => "Updated invitation: " | create => "Invitation: " end%js.

Definition notify_intro (action : ItipAction) (displayName title : jsstr) : jsstr :=
  match action with
  | cancel => "The event "%js ++ title ++ " has been cancelled by "%js ++ displayName ++ "."%js
  | update => "The event "%js ++ quoted title ++ " has been updated by "%js ++ displayName ++ "."%js
  | create => "You have been invited to: "%js ++ title ++ " by "%js ++ displayName ++ "."%js
  end.

Definition identity_of (e : MailEvent) (s : ItipDb) : option CalIdentityRow :=
  match me_organizerIdentityId e with
  | Some i => if truthy i then List.find (λ r, bool_decide (ci_id r = i)) (it_identities s) else None
  | None => None
  end.

Definition realAttendees (eventId : jsstr) (s : ItipDb) : list GuestRow :=
  List.filter (λ a, bool_decide (gr_eventId a = eventId) && negb (gr_isOrganizer a)) (it_guests s).

Definition timezone_of (e : MailEvent) (s : ItipDb) : jsstr :=
  opt_or (cal_timezone <$> List.find (λ c, bool_decide (cal_id c = me_calendarId e)) (it_calendars s)) "UTC"%js.

Definition mail_invitation (e : MailEvent) (action : ItipAction) (displayName humanWhen ics : jsstr) (a : GuestRow) : itip unit :=
  if negb (truthy (trim (gr_email a))) then mret tt
  else
    s ← read;
    match identity_of e s with
    | None => mret tt
    | Some identity =>
        enqueue "invite"%js identity (trim (gr_email a)) (notify_subject action ++ title_of e) (notify_intro action displayName (title_of e))
          humanWhen ("text/calendar; charset=utf-8; method="%js ++ itip_method action) ics
    end.

Definition davItipNotify (eventId : jsstr) (action : ItipAction) : itip unit :=
  s ← read;
  match find_mail_event eventId s with
  | None => mret tt
  | Some e =>
      let guests := realAttendees eventId s in
      let organizerEmail := nullish (me_organizerEmail e) (ci_value <$> identity_of e s) in
      let organizerName := nullish (me_organizerName e) (nullish (identity_of e s ≫= ci_displayName) organizerEmail) in
      if negb (opt_truthy (me_rawIcs e)) || bool_decide (guests = []) || negb (opt_truthy organizerEmail) then mret tt
      else match parse (default [] (me_rawIcs e)) with
      | Some vcal =>
          match getFirstSubcomponent "vevent"%js vcal with
          | Some _ =>
              let o := default [] organizerEmail in
              let ics := print (notify_calendar now e o organizerName guests action vcal) in
              each (mail_invitation e action (opt_or organizerName o) (human_when (timezone_of e s) e) ics) guests
          | None => mret tt
          end
      | None => mret tt
      end
  end.
End Mail.
