(* ===== verification/ItipMailSpecs.v ===== *)
(** * Answers that arrive

    The object a guest's worker mails is read by the organizer's worker ([ITipProcessor.v]), and the object
    the organizer's worker mails lists the guests. *)

From stdpp Require Import base list.
From S2P Require Import Prelude JsString JsNumber JsValue ITip ITipProcessor CalActions CalViews ItipMail.
From S2P Require Import Proc.

(** ** What is read from a component *)

Definition text_value (v : jsval) : option jsstr := match v with VStr s => Some s | _ => None end.

(** The getters of [ical.js], as far as an answer is concerned. *)
Definition reads (rc : Component) (cal : Vcalendar) : Prop :=
  v_method cal = text_value (property_value "method"%js (c_props rc)) ∧
  match getFirstSubcomponent "vevent"%js rc with
  | Some ve => ∃ v, v_event cal = Some v ∧ v_uid v = text_value (property_value "uid"%js (c_props ve)) ∧
      v_attendees v = List.filter (named "attendee"%js) (c_props ve)
  | None => v_event cal = None
  end.

(** ** Properties *)

Lemma first_app n ps qs :
  getFirstProperty n (ps ++ qs) = match getFirstProperty n ps with Some p => Some p | None => getFirstProperty n qs end.
Proof. apply find_app. Qed.

Lemma named_iff n p : named n p = true ↔ p_name p = n.
Proof. unfold named. apply bool_decide_eq_true. Qed.

Lemma named_other n m p : n ≠ m → p_name p = m → named n p = false.
Proof. intros Hne E. apply bool_decide_eq_false. congruence. Qed.

Lemma named_remove_ne n m ps : n ≠ m → List.filter (named n) (removeAllProperties m ps) = List.filter (named n) ps.
Proof.
  intros Hne. unfold removeAllProperties. induction ps as [|p ps IH]; [done|]. rewrite filter_cons.
  case_decide as E; simpl; [by rewrite IH|]. by rewrite (named_other n m p).
Qed.

Lemma named_remove_eq n ps : List.filter (named n) (removeAllProperties n ps) = [].
Proof.
  unfold removeAllProperties. induction ps as [|p ps IH]; [done|]. rewrite filter_cons. case_decide as E; [|done].
  simpl. assert (named n p = false) as ->; [by apply bool_decide_eq_false|done].
Qed.

(** The first property is the first of those of the name. *)
Lemma first_filter n ps : getFirstProperty n ps = head (List.filter (named n) ps).
Proof. unfold getFirstProperty. induction ps as [|p ps IH]; [done|]. simpl. by destruct (named n p). Qed.

Lemma first_remove_ne n m ps : n ≠ m → getFirstProperty n (removeAllProperties m ps) = getFirstProperty n ps.
Proof. intros Hne. by rewrite !first_filter, named_remove_ne. Qed.

Lemma first_remove_eq n ps : getFirstProperty n (removeAllProperties n ps) = None.
Proof. by rewrite first_filter, named_remove_eq. Qed.

Lemma first_update_value n m v ps :
  n ≠ m → getFirstProperty n (updatePropertyWithValue m v ps) = getFirstProperty n ps.
Proof.
  intros Hne. unfold updatePropertyWithValue. destruct (getFirstProperty m ps); [by apply first_update_ne|]. rewrite first_app.
  destruct (getFirstProperty n ps); [done|]. unfold getFirstProperty. simpl. by rewrite (named_other n m).
Qed.

Lemma first_ensure_uid n e ps : n ≠ "uid"%js → getFirstProperty n (ensure_uid e ps) = getFirstProperty n ps.
Proof. intros Hn. unfold ensure_uid. destruct (js_truthy _); [done|by apply first_update_value]. Qed.

Lemma ensure_uid_id e ps u : property_value "uid"%js ps = VStr u → truthy u = true → ensure_uid e ps = ps.
Proof. intros E Hu. unfold ensure_uid. rewrite E. by destruct u. Qed.

Lemma first_sub n f cs : List.find (λ c, bool_decide (c_name c = n)) (update_sub n f cs) =
  (λ c, Comp (c_name c) (f (c_props c)) (c_subs c)) <$> List.find (λ c, bool_decide (c_name c = n)) cs.
Proof.
  induction cs as [|c cs IH]; [done|]. cbn [update_sub List.find]. destruct (bool_decide (c_name c = n)) eqn:E; cbn [List.find].
  - cbn [c_name]. by rewrite E.
  - by rewrite E.
Qed.

Lemma set_parameter_name n v p : p_name (setParameter n v p) = p_name p.
Proof. done. Qed.
Lemma set_parameter_value n v p : p_value (setParameter n v p) = p_value p.
Proof. done. Qed.
Lemma with_cn_name o p : p_name (with_cn o p) = p_name p.
Proof. unfold with_cn, with_text. destruct o; [|done]. by destruct (truthy _). Qed.
Lemma with_cn_value o p : p_value (with_cn o p) = p_value p.
Proof. unfold with_cn, with_text. destruct o; [|done]. by destruct (truthy _). Qed.

(** ** The answer *)

Section Answer.
Context (now : jsval) (e : MailEvent) (responderEmail responderName : jsstr) (partstat : DbPartstat).

Lemma reply_attendee_name ps : p_name (reply_attendee responderEmail responderName partstat ps) = "attendee"%js.
Proof.
  unfold reply_attendee. rewrite !set_parameter_name. destruct (List.find _ ps) as [p|] eqn:E.
  - apply List.find_some in E as [_ E]. unfold named in E. by bool_to_prop.
  - by rewrite with_cn_name.
Qed.

Lemma reply_attendee_says ps :
  reply_address (p_value (reply_attendee responderEmail responderName partstat ps)) = toLowerCase responderEmail ∧
  icsPartstatToDb (first_text (getParameter "partstat"%js (reply_attendee responderEmail responderName partstat ps)) None) = partstat.
Proof.
  unfold reply_attendee. set (p := match List.find _ ps with Some _ => _ | None => _ end). split.
  - change (reply_address (p_value p) = toLowerCase responderEmail). unfold p. destruct (List.find _ ps) as [q|] eqn:E.
    + apply List.find_some in E as [_ E]. by bool_to_prop.
    + rewrite with_cn_value. apply reply_address_mailto.
  - unfold getParameter. simpl. rewrite !jm_get_set. rewrite decide_False by done. rewrite decide_True by done. simpl.
    apply (participation_values partstat chair).
Qed.

(** What the organizer reads: the method, the uid, and one answer. *)
Lemma reply_reads vcal ve u cal :
  getFirstSubcomponent "vevent"%js vcal = Some ve → property_value "uid"%js (c_props ve) = VStr u → truthy u = true →
  reads (reply_calendar now e responderEmail responderName partstat vcal) cal →
  truthy (toLowerCase responderEmail) = true →
  v_method cal = Some "REPLY"%js ∧ ∃ v, v_event cal = Some v ∧ v_uid v = Some u ∧
    reply_updates v = [(toLowerCase responderEmail, partstat)].
Proof.
  intros Hve Hu Htu [Hm Hev] Hr. split.
  - rewrite Hm. unfold reply_calendar, property_value. cbn [c_props]. unfold addPropertyWithValue at 1. rewrite first_app, first_remove_eq.
    unfold getFirstProperty. simpl. unfold named. simpl. done.
  - unfold getFirstSubcomponent, reply_calendar in Hev. cbn [c_subs] in Hev. rewrite first_sub in Hev.
    unfold getFirstSubcomponent in Hve. rewrite Hve in Hev. cbn [fmap option_fmap option_map c_props] in Hev.
    destruct Hev as (v & Hv & Hvu & Hva). exists v. split; [done|].
    set (ps1 := updatePropertyWithValue "dtstamp"%js now (c_props ve)) in *.
    assert (property_value "uid"%js ps1 = VStr u) as Hu1 by (unfold property_value, ps1; by rewrite first_update_value).
    unfold reply_vevent in Hvu, Hva. fold ps1 in Hvu, Hva. rewrite (ensure_uid_id e ps1 u Hu1 Htu) in Hvu, Hva.
    set (ps2 := reply_organizer e ps1) in *. split.
    + rewrite Hvu. unfold property_value. rewrite first_app, first_remove_ne by done. unfold property_value in Hu1.
      destruct (getFirstProperty "uid"%js ps1) as [q|] eqn:Eq; [|done]. simpl in Hu1.
      assert (getFirstProperty "uid"%js ps2 = Some q) as ->; [|simpl; by rewrite Hu1].
      unfold ps2, reply_organizer. destruct (getFirstProperty "organizer"%js ps1); [done|].
      destruct (me_organizerEmail e) as [o|]; [|done]. destruct (truthy o); [|done]. by rewrite first_app, Eq.
    + unfold reply_updates. rewrite Hva, List.filter_app, named_remove_eq. cbn [List.filter app].
      assert (named "attendee"%js (reply_attendee responderEmail responderName partstat ps2) = true) as ->
        by apply named_iff, reply_attendee_name.
      cbn [omap list_omap]. destruct (reply_attendee_says ps2) as [-> ->]. by rewrite Hr.
Qed.
End Answer.

(** ** The queue of mails *)

Section Queue.
Context (cleanId : ItipDb → nat → jsstr) (randomUUID : ItipDb → jsstr) (extension : jsstr → option jsstr) (upload_ok is_email : jsstr → bool).

Definition sent_box (i : CalIdentityRow) (s : ItipDb) : option SentBox :=
  List.find (λ b, bool_decide (sb_identityId b = ci_id i) && bool_decide (sb_slug b = Some "sent"%js)) (it_boxes s).

(** A mail to [to] in the queue, with the object [txt] under the path it names. *)
Definition carries (i : CalIdentityRow) (to txt : jsstr) (m : SendPayload) (o : jsstr * jsstr) : Prop :=
  sp_to m = trim to ∧ sp_identityId m = ci_id i ∧ o.2 = txt ∧ (∃ f, sp_attachments m = [f] ∧ st_path f = o.1).

Lemma enqueue_sends kind i to subject intro humanWhen contentType txt s :
  is_Some (sent_box i s) → truthy (ci_id i) = true → is_email (trim to) = true → truthy subject = true → truthy txt = true →
  (∀ path, upload_ok path = true) →
  ∃ m o, enqueue cleanId randomUUID extension upload_ok is_email kind i to subject intro humanWhen contentType txt s =
           (add_mail m (add_object o s), Done tt) ∧ carries i to txt m o.
Proof.
  intros [b Hb] Hi Hto Hsub Htxt Hup. unfold enqueue. unfold mbind at 1, proc_bind at 1, read at 1. cbn beta iota.
  unfold sent_box in Hb. rewrite Hb, Hi, Hto, Hsub, Htxt. cbn [andb negb]. cbv zeta. rewrite Hup.
  eexists _, (_, _). split; [reflexivity|]. repeat split. eexists. split; reflexivity.
Qed.
End Queue.

(** ** From the guest to the organizer *)

Section Delivery.
Context (parse : jsstr → option Component) (print : Component → jsstr).
Context (now : jsval) (cleanId : ItipDb → nat → jsstr) (randomUUID : ItipDb → jsstr) (extension : jsstr → option jsstr) (upload_ok is_email : jsstr → bool).
(** The organizer's side: what [ical.js] reads from an attachment, and the parameters of the processor. *)
Context (read_ics : jsstr → option (jsstr * Vcalendar)) (add_day subtract_day start_of_day end_of_day : Z → Z).
Context (insert_ok update_ok : EventFields → bool) (attendee_ok : AttendeeRow → bool) (is_uuid : jsstr → bool) (new_id : CalStore → jsstr).

Definition answer_address (g : GuestRow) : jsstr := toLowerCase (trim (gr_email g)).

(** The guest can answer: the event is one of another organizer with an object that has a uid, the guest's
    address is an identity of the account with a box of sent mail, and the mail passes the checks. *)
Record answerable (s : ItipDb) (eventId attendeeId : jsstr) (e : MailEvent) (g : GuestRow) (i : CalIdentityRow)
    (vcal ve : Component) (u : jsstr) : Prop := {
  ab_event : find_mail_event eventId s = Some e;
  ab_external : opt_truthy (me_rawIcs e) && me_isExternal e && opt_truthy (me_organizerEmail e) = true;
  ab_guest : List.find (λ r, bool_decide (gr_id r = attendeeId) && bool_decide (gr_eventId r = eventId)) (it_guests s) = Some g;
  ab_address : truthy (answer_address g) = true;
  ab_identity : reply_identity e (answer_address g) s = Some i;
  ab_identity_id : truthy (ci_id i) = true;
  ab_sent : is_Some (sent_box i s);
  ab_parse : parse (default [] (me_rawIcs e)) = Some vcal;
  ab_vevent : getFirstSubcomponent "vevent"%js vcal = Some ve;
  ab_uid : property_value "uid"%js (c_props ve) = VStr u;
  ab_uid_text : truthy u = true;
  ab_email : is_email (trim (default [] (me_organizerEmail e))) = true;
  ab_upload path : upload_ok path = true;
}.

Definition answer_object (e : MailEvent) (g : GuestRow) (i : CalIdentityRow) (vcal : Component) (st : DbPartstat) : Component :=
  reply_calendar now e (answer_address g) (opt_or (gr_name g) (opt_or (ci_displayName i) (answer_address g))) st vcal.

Definition guest_answers (attendeeId : jsstr) (st : DbPartstat) : ItipDb → ItipDb :=
  set_it_guests (map (λ r, if bool_decide (gr_id r = attendeeId) then set_guest_partstat st r else r)).

(** One mail to the organizer, with the object. *)
Lemma davItipReply_sends s eventId attendeeId st e g i vcal ve u :
  answerable s eventId attendeeId e g i vcal ve u → truthy (print (answer_object e g i vcal st)) = true →
  ∃ m o, davItipReply parse print now cleanId randomUUID extension upload_ok is_email eventId attendeeId st s =
           (add_mail m (add_object o (guest_answers attendeeId st s)), Done tt) ∧
         carries i (default [] (me_organizerEmail e)) (print (answer_object e g i vcal st)) m o.
Proof.
  intros H Htxt. destruct H. unfold davItipReply. unfold mbind at 1, proc_bind at 1, read at 1. cbn beta iota. rewrite ab_event0.
  apply andb_true_iff in ab_external0 as [Hx Ho]. apply andb_true_iff in Hx as [Hraw Hx]. rewrite Hraw, Hx, Ho. cbn [negb orb].
  rewrite ab_guest0. unfold mbind at 1, proc_bind at 1, modify at 1. cbn beta iota. fold (guest_answers attendeeId st s).
  unfold mail_reply. unfold mbind at 1, proc_bind at 1, read at 1. cbn beta iota.
  fold (answer_address g). rewrite ab_address0. cbn [negb]. change (reply_identity e (answer_address g) (guest_answers attendeeId st s))
    with (reply_identity e (answer_address g) s). rewrite ab_identity0, ab_parse0, ab_vevent0. cbv zeta.
  apply enqueue_sends; try done. by destruct st.
Qed.

(** The attachment reached a mailbox of the organizer's that is not the one of sent mail. *)
Record arrived (so : CalStore) (item : DavItipIngestItem) (msg : CalMessage) (mb : CalMailbox) (txt : jsstr) (cal : Vcalendar) : Prop := {
  ar_message : List.find (λ m, bool_decide (cm_id m = it_messageId item)) (messages so) = Some msg;
  ar_mailbox : List.find (λ b, bool_decide (cb_id b = it_mailboxId item)) (mailboxes so) = Some mb;
  ar_not_sent : cb_slug mb ≠ Some "sent"%js;
  ar_attachment : it_attachmentId item ∈ attachments so;
  ar_read : read_ics (it_attachmentId item) = Some (txt, cal);
}.

(** The rows of one address at an event. *)
Definition answer_row (eventId addr : jsstr) (st : DbPartstat) (r : AttendeeRow) : AttendeeRow :=
  if is_attendee eventId addr r then set_partstat st r else r.

(** The organizer's calendar after the answer of one address to the event of the uid. *)
Definition answered (owner u addr : jsstr) (st : DbPartstat) (so : CalStore) : CalStore :=
  match List.find (reply_event owner u) (events so) with
  | Some ev =>
      let so' := set_attendees (map (answer_row (ev_id ev) addr st)) so in
      if existsb (is_attendee (ev_id ev) addr) (attendees so) then
        set_jobs (λ l, l ++ [ {| cj_name := "dav:calendar:update-event"%js;
          cj_data := [("eventId", VStr (ev_id ev)); ("notifyAttendees", VBool false)]%js |} ]) so'
      else so'
  | None => so
  end.

Lemma replied_one eventId addr st r : replied eventId [(addr, st)] r = answer_row eventId addr st r.
Proof.
  unfold replied, answer_row, is_attendee, last_status. cbn [foldl fst snd]. destruct (bool_decide (aw_eventId r = eventId)); [|done].
  cbn [andb]. rewrite (bool_decide_ext _ (at_email (aw_attendee r) = addr)) by (split; congruence). by destruct (bool_decide _).
Qed.

Lemma answers_one eventId addr st r : answers eventId [(addr, st)] r = is_attendee eventId addr r.
Proof. unfold answers, is_attendee. f_equal. apply bool_decide_ext. cbn. by rewrite list_elem_of_singleton. Qed.

Lemma handle_reply_one msg v u addr st so :
  v_uid v = Some u → truthy u = true → reply_updates v = [(addr, st)] → is_uuid u = true →
  handle_reply is_uuid msg v so = (answered (cm_ownerId msg) u addr st so, Done tt).
Proof.
  intros Hv Hu Hl Hid. rewrite (handle_reply_spec is_uuid msg v u) by (done || by rewrite Hl). rewrite Hid, Hl. unfold answered.
  destruct (List.find _ (events so)) as [ev|]; [|done]. cbv zeta.
  rewrite (set_attendees_ext _ (answer_row (ev_id ev) addr st)) by (intros r; apply replied_one).
  assert (existsb (answers (ev_id ev) [(addr, st)]) (attendees so) = existsb (is_attendee (ev_id ev) addr) (attendees so)) as ->;
    [|by destruct (existsb _ _)]. induction (attendees so) as [|r l IH]; [done|]. cbn [existsb]. by rewrite answers_one, IH.
Qed.

Lemma process_reply so item msg mb txt cal v :
  arrived so item msg mb txt cal → v_method cal = Some "REPLY"%js → v_event cal = Some v →
  processSingleItem read_ics parse print add_day subtract_day start_of_day end_of_day insert_ok update_ok attendee_ok is_uuid new_id item so =
  handle_reply is_uuid msg v so.
Proof.
  intros [H1 H2 H3 H4 H5] Hm Hv. unfold processSingleItem. unfold mbind at 1, proc_bind at 1, read at 1. cbn beta iota.
  rewrite H1, H2, bool_decide_false by done. rewrite bool_decide_true by done. cbn [negb]. rewrite H5, Hv, Hm. reflexivity.
Qed.

(** *** What the organizer's calendar is after an answer *)

(** The event of the uid in a calendar of the owner. *)
Definition of_uid (owner u : jsstr) (r : EventRow) : Prop :=
  ev_ownerId r = owner ∧ (ev_id r = u ∨ ev_icalUid r = Some u ∨ ev_davUri r = Some u).

(** The row of a guest with the address. *)
Definition guest_at (eventId addr : jsstr) (r : AttendeeRow) : Prop :=
  aw_eventId r = eventId ∧ at_email (aw_attendee r) = addr.

(** The row says the answer if it is of the guest, and nothing else of it changes. *)
Record says (eventId addr : jsstr) (st : DbPartstat) (r r' : AttendeeRow) : Prop := {
  sy_event : aw_eventId r' = aw_eventId r; sy_owner : aw_ownerId r' = aw_ownerId r;
  sy_contact : aw_contactId r' = aw_contactId r; sy_organizer : aw_isOrganizer r' = aw_isOrganizer r;
  sy_email : at_email (aw_attendee r') = at_email (aw_attendee r); sy_name : at_name (aw_attendee r') = at_name (aw_attendee r);
  sy_role : at_role (aw_attendee r') = at_role (aw_attendee r); sy_rsvp : at_rsvp (aw_attendee r') = at_rsvp (aw_attendee r);
  sy_guest : guest_at eventId addr r → at_partstat (aw_attendee r') = st;
  sy_other : ¬ guest_at eventId addr r → at_partstat (aw_attendee r') = at_partstat (aw_attendee r);
}.

Definition written_job (eventId : jsstr) : CalJob :=
  {| cj_name := "dav:calendar:update-event"%js; cj_data := [("eventId", VStr eventId); ("notifyAttendees", VBool false)]%js |}.

(** The answer is recorded at the first event of the uid, if there is one, and the event is to be written
    to the calendar server if it has the guest. *)
Definition recorded (owner u addr : jsstr) (st : DbPartstat) (so so' : CalStore) : Prop :=
  (messages so' = messages so ∧ mailboxes so' = mailboxes so ∧ identities so' = identities so ∧
   attachments so' = attachments so ∧ calendars so' = calendars so ∧ events so' = events so ∧ contacts so' = contacts so) ∧
  (((∀ r, r ∈ events so → ¬ of_uid owner u r) ∧ attendees so' = attendees so ∧ jobs so' = jobs so) ∨
   ∃ before ev after, events so = before ++ ev :: after ∧ of_uid owner u ev ∧ (∀ r, r ∈ before → ¬ of_uid owner u r) ∧
     Forall2 (says (ev_id ev) addr st) (attendees so) (attendees so') ∧
     ((∃ r, r ∈ attendees so ∧ guest_at (ev_id ev) addr r) ∧ jobs so' = jobs so ++ [written_job (ev_id ev)] ∨
      (∀ r, r ∈ attendees so → ¬ guest_at (ev_id ev) addr r) ∧ jobs so' = jobs so)).

Lemma reply_event_spec owner u r : reply_event owner u r = true ↔ of_uid owner u r.
Proof. unfold reply_event, of_uid. rewrite andb_true_iff, !orb_true_iff, !bool_decide_eq_true. tauto. Qed.

Lemma is_attendee_spec eventId addr r : is_attendee eventId addr r = true ↔ guest_at eventId addr r.
Proof. unfold is_attendee, guest_at. by rewrite andb_true_iff, !bool_decide_eq_true. Qed.

Lemma find_first {A} (f : A → bool) l a :
  List.find f l = Some a → ∃ before after, l = before ++ a :: after ∧ f a = true ∧ ∀ x, x ∈ before → f x = false.
Proof.
  induction l as [|x l IH]; [done|]. cbn [List.find]. destruct (f x) eqn:E.
  - intros [= ->]. exists [], l. split_and!; [done|done|]. intros y Hy. by apply not_elem_of_nil in Hy.
  - intros (before & after & -> & Ha & Hb)%IH. exists (x :: before), after. split_and!; [done|done|].
    intros y [-> |Hy]%elem_of_cons; auto.
Qed.

Lemma answer_row_says eventId addr st r : says eventId addr st r (answer_row eventId addr st r).
Proof.
  unfold answer_row. pose proof (is_attendee_spec eventId addr r) as H.
  destruct (is_attendee eventId addr r); split; try done; intros Hg; [by destruct Hg; apply H|]. by apply H in Hg.
Qed.

Lemma answered_recorded owner u addr st so : recorded owner u addr st so (answered owner u addr st so).
Proof.
  unfold answered. destruct (List.find (reply_event owner u) (events so)) as [ev|] eqn:E.
  - split; [by destruct (existsb _ _)|]. right. apply find_first in E as (before & after & Ee & Hev & Hb).
    exists before, ev, after. split; [done|]. split; [by apply reply_event_spec|]. split.
    { intros r Hr. rewrite <- reply_event_spec, Hb by done. done. }
    assert (attendees (set_attendees (map (answer_row (ev_id ev) addr st)) so) = map (answer_row (ev_id ev) addr st) (attendees so)) as Ea by done.
    split.
    { assert (Forall2 (says (ev_id ev) addr st) (attendees so) (map (answer_row (ev_id ev) addr st) (attendees so))) as HF.
      { clear Ea. induction (attendees so) as [|r l IH]; [constructor|]. constructor; [apply answer_row_says|done]. }
      by destruct (existsb _ _). }
    destruct (existsb _ _) eqn:Ex; [left|right]; (split; [|done]).
    + apply existsb_exists in Ex as (r & Hr%list_elem_of_In & Hat%is_attendee_spec). by exists r.
    + intros r Hr Hat%is_attendee_spec. assert (existsb (is_attendee (ev_id ev) addr) (attendees so) = true); [|congruence].
      apply existsb_exists. exists r. split; [by apply list_elem_of_In|done].
  - split; [done|]. left. split; [|done]. intros r Hr%list_elem_of_In Hu%reply_event_spec.
    pose proof (List.find_none _ _ E r Hr). congruence.
Qed.

(** C23: An answer to an event whose uid is a uuid arrives.  A guest who can answer leaves one mail to the
    organizer in the queue, with one object stored under the path of its attachment, and the own row of
    the guest says the answer.  When that object reaches a mailbox of the organizer and is read as it was
    written, the organizer's worker records the answer for the guest's address in lower case at the event
    of the uid, and for nobody else, changes nothing else, and has the event written to the calendar
    server exactly when it has such a guest.  (With another uid the worker throws: the query compares it
    with a column of uuids.) *)
Theorem answer_arrives s eventId attendeeId st e g i vcal ve u
    (H : answerable s eventId attendeeId e g i vcal ve u)
    (Htxt : truthy (print (answer_object e g i vcal st)) = true)
    (Hread : ∀ att txt cal, read_ics att = Some (txt, cal) → txt = print (answer_object e g i vcal st) →
       reads (answer_object e g i vcal st) cal)
    (Hid : is_uuid u = true) :
  ∃ m o, davItipReply parse print now cleanId randomUUID extension upload_ok is_email eventId attendeeId st s =
           (add_mail m (add_object o (guest_answers attendeeId st s)), Done tt) ∧
    (∀ r, r ∈ it_guests (guest_answers attendeeId st s) → gr_id r = attendeeId → gr_partstat r = st) ∧
    sp_to m = trim (default [] (me_organizerEmail e)) ∧ (∃ f, sp_attachments m = [f] ∧ st_path f = o.1) ∧
    ∀ so item msg mb cal, arrived so item msg mb o.2 cal →
      ∃ so', processSingleItem read_ics parse print add_day subtract_day start_of_day end_of_day insert_ok update_ok attendee_ok is_uuid new_id item so =
        (so', Done tt) ∧ recorded (cm_ownerId msg) u (toLowerCase (trim (gr_email g))) st so so'.
Proof.
  destruct (davItipReply_sends s eventId attendeeId st e g i vcal ve u H Htxt) as (m & o & E & Hto & _ & Ho & Hf).
  exists m, o. split; [done|]. split.
  { intros r (x & -> & Hx)%list_elem_of_fmap Hr. case_bool_decide; [done|]. by destruct (bool_decide_reflect (gr_id x = attendeeId)). }
  split; [done|]. split; [done|]. intros so item msg mb cal Har. rewrite Ho in Har.
  pose proof (Hread _ _ _ (ar_read _ _ _ _ _ _ Har) eq_refl) as Hr. destruct H.
  change (toLowerCase (trim (gr_email g))) with (answer_address g).
  assert (toLowerCase (answer_address g) = answer_address g) as Elow by apply toLowerCase_idemp.
  destruct (reply_reads _ e (answer_address g) _ st vcal ve u cal ab_vevent0 ab_uid0 ab_uid_text0 Hr) as (Hm & v & Hv & Hvu & Hl).
  { by rewrite Elow. }
  rewrite Elow in Hl. eexists. split; [|apply answered_recorded].
  rewrite (process_reply so item msg mb _ cal v Har Hm Hv). by apply handle_reply_one.
Qed.
End Delivery.

(** ** From the organizer to the guests *)

(** What a guest's worker reads of a guest that has an address. *)
Definition guest_reading (g : GuestRow) : option Attendee :=
  if truthy (trim (gr_email g)) then
    Some {| at_email := toLowerCase (trim (gr_email g)); at_name := gr_name g ≫= or_undefined; at_role := gr_role g;
            at_partstat := gr_partstat g; at_rsvp := gr_rsvp g |}
  else None.

Lemma with_cn_parameter o p n : n ≠ "cn"%js → getParameter n (with_cn o p) = getParameter n p.
Proof. intros Hn. unfold with_cn, with_text. destruct o as [t|]; [|done]. destruct (truthy t); [|done]. by rewrite getParameter_set_ne. Qed.

Lemma with_cn_first o n v :
  first_text (getParameter "cn"%js (with_cn o (newProperty n v))) None = o ≫= or_undefined.
Proof.
  unfold with_cn, with_text, or_undefined. destruct o as [t|]; [|done]. cbn [mbind option_bind]. destruct (truthy t) eqn:E; [|done].
  rewrite getParameter_set_eq. done.
Qed.

Lemma guest_property_name g p : guest_property g = Some p → p_name p = "attendee"%js.
Proof. unfold guest_property. destruct (negb _); [done|]. intros [= <-]. by rewrite !set_parameter_name, with_cn_name. Qed.

Lemma guest_property_read g : guest_property g ≫= read_attendee = guest_reading g.
Proof.
  unfold guest_property, guest_reading. destruct (truthy (trim (gr_email g))) eqn:Et; [|done]. cbn [negb mbind option_bind].
  unfold read_attendee. rewrite !getParameter_set_eq.
  rewrite !(getParameter_set_ne "rsvp"%js), !(getParameter_set_ne "partstat"%js), !(getParameter_set_ne "role"%js) by done.
  rewrite !getParameter_set_eq, with_cn_first.
  destruct (participation_values (gr_partstat g) (gr_role g)) as (E1 & E2 & E3 & E4).
  rewrite !set_parameter_value, with_cn_value. change (p_value (newProperty "attendee"%js (VStr (mailto ++ trim (gr_email g))))) with (VStr (mailto ++ trim (gr_email g))).
  rewrite request_address_mailto, trim_idemp. cbn [first_text]. rewrite E3, E4. by destruct (gr_rsvp g).
Qed.

Lemma guests_read l : mapM read_attendee (omap guest_property l) = Some (omap guest_reading l).
Proof.
  induction l as [|g l IH]; [done|]. cbn [omap list_omap]. pose proof (guest_property_read g) as Hg.
  destruct (guest_property g) as [p|] eqn:Ep; cbn [mbind option_bind] in Hg.
  - assert (∃ a, guest_reading g = Some a) as [a Ha].
    { unfold guest_property in Ep. unfold guest_reading. destruct (truthy (trim (gr_email g))); [by eexists|done]. }
    rewrite Ha in Hg |- *. change (mapM read_attendee (p :: ?l)) with (a ← read_attendee p; k ← mapM read_attendee l; Some (a :: k)).
    rewrite Hg, IH. done.
  - by rewrite <- Hg.
Qed.

Lemma guests_are_attendees l : List.filter (named "attendee"%js) (omap guest_property l) = omap guest_property l.
Proof.
  induction l as [|g l IH]; [done|]. cbn [omap list_omap]. destruct (guest_property g) as [p|] eqn:Ep; [|done]. cbn [List.filter].
  by rewrite (proj2 (named_iff _ _) (guest_property_name g p Ep)), IH.
Qed.

Section Invitation.
Context (now : jsval) (e : MailEvent) (organizerEmail : jsstr) (organizerName : option jsstr) (guests : list GuestRow) (action : ItipAction).

Lemma notify_vevent_attendees ps :
  List.filter (named "attendee"%js) (notify_vevent now e organizerEmail organizerName guests action ps) = omap guest_property guests.
Proof.
  unfold notify_vevent. cbv zeta. rewrite List.filter_app, named_remove_eq. cbn [app List.filter].
  rewrite (named_other _ "organizer"%js) by (done || apply with_cn_name). apply guests_are_attendees.
Qed.

Lemma notify_vevent_uid ps u :
  property_value "uid"%js ps = VStr u → truthy u = true →
  property_value "uid"%js (notify_vevent now e organizerEmail organizerName guests action ps) = VStr u.
Proof.
  intros Hu Htu. unfold notify_vevent. cbv zeta.
  set (ps1 := updatePropertyWithValue "dtstamp"%js now ps).
  assert (property_value "uid"%js ps1 = VStr u) as Hu1 by (unfold property_value, ps1; by rewrite first_update_value).
  rewrite (ensure_uid_id e ps1 u Hu1 Htu). unfold property_value in *. rewrite first_app, !first_remove_ne by done.
  assert (getFirstProperty "uid"%js (if is_cancel action then updatePropertyWithValue "status"%js (VStr "CANCELLED"%js) ps1 else ps1) =
    getFirstProperty "uid"%js ps1) as ->; [|by destruct (getFirstProperty _ ps1)].
  destruct (is_cancel action); [by apply first_update_value|done].
Qed.

(** What a guest's worker reads. *)
Lemma invitation_reads vcal ve u cal :
  getFirstSubcomponent "vevent"%js vcal = Some ve → property_value "uid"%js (c_props ve) = VStr u → truthy u = true →
  reads (notify_calendar now e organizerEmail organizerName guests action vcal) cal →
  v_method cal = Some (itip_method action) ∧ ∃ v, v_event cal = Some v ∧ v_uid v = Some u ∧
    mapM read_attendee (v_attendees v) = Some (omap guest_reading guests).
Proof.
  intros Hve Hu Htu [Hm Hev]. split.
  - rewrite Hm. unfold notify_calendar, property_value. cbn [c_props]. unfold addPropertyWithValue at 1. rewrite first_app, first_remove_eq.
    done.
  - unfold getFirstSubcomponent, notify_calendar in Hev. cbn [c_subs] in Hev. rewrite first_sub in Hev.
    unfold getFirstSubcomponent in Hve. rewrite Hve in Hev. cbn [fmap option_fmap option_map c_props] in Hev.
    destruct Hev as (v & Hv & Hvu & Hva). exists v. split_and!; [done| |].
    + by rewrite Hvu, (notify_vevent_uid _ u).
    + rewrite Hva, notify_vevent_attendees. apply guests_read.
Qed.
End Invitation.

(** The store after some mails were queued and their objects stored. *)
Definition delivered (mos : list (SendPayload * (jsstr * jsstr))) (s : ItipDb) : ItipDb :=
  {| it_events := it_events s; it_guests := it_guests s; it_identities := it_identities s; it_boxes := it_boxes s;
     it_calendars := it_calendars s; objects := objects s ++ mos.*2; sendMailQueue := sendMailQueue s ++ mos.*1 |}.

Lemma delivered_nil s : delivered [] s = s.
Proof. destruct s. unfold delivered. by rewrite !app_nil_r. Qed.

Lemma delivered_cons m o mos s : delivered mos (add_mail m (add_object o s)) = delivered ((m, o) :: mos) s.
Proof. unfold delivered. simpl. by rewrite <- !app_assoc. Qed.

Section Invitations.
Context (parse : jsstr → option Component) (print : Component → jsstr).
Context (now : jsval) (cleanId : ItipDb → nat → jsstr) (randomUUID : ItipDb → jsstr) (extension : jsstr → option jsstr) (upload_ok is_email : jsstr → bool).
Context (same_day : jsstr → Z → Z → bool) (format : jsstr → Z → jsstr → jsstr).

(** The guests that have an address. *)
Definition addressed : list GuestRow → list jsstr :=
  omap (λ g, let to := trim (gr_email g) in if truthy to then Some to else None).

Lemma mail_invitation_eq e action name hw i txt g s :
  identity_of e s = Some i →
  mail_invitation cleanId randomUUID extension upload_ok is_email e action name hw txt g s =
  if negb (truthy (trim (gr_email g))) then (s, Done tt)
  else enqueue cleanId randomUUID extension upload_ok is_email "invite"%js i (trim (gr_email g)) (notify_subject action ++ title_of e)
         (notify_intro action name (title_of e)) hw ("text/calendar; charset=utf-8; method="%js ++ itip_method action) txt s.
Proof.
  intros Hi. unfold mail_invitation. destruct (negb _); [done|]. unfold mbind at 1, proc_bind at 1, read at 1. cbn beta iota. by rewrite Hi.
Qed.

Lemma mail_invitations e action name hw i txt l s
    (Hi : identity_of e s = Some i) (Hid : truthy (ci_id i) = true) (Hbox : is_Some (sent_box i s)) (Htxt : truthy txt = true)
    (Hup : ∀ path, upload_ok path = true) (Hmail : ∀ to, to ∈ addressed l → is_email to = true) :
  ∃ mos, each (mail_invitation cleanId randomUUID extension upload_ok is_email e action name hw txt) l s = (delivered mos s, Done tt) ∧
    Forall2 (λ to mo, carries i to txt mo.1 mo.2) (addressed l) mos.
Proof.
  revert s Hi Hbox. induction l as [|g l IH]; intros s Hi Hbox.
  { exists []. split; [by rewrite delivered_nil|constructor]. }
  cbn [each]. cbn [addressed omap list_omap] in Hmail |- *.
  destruct (truthy (trim (gr_email g))) eqn:Et.
  - destruct (enqueue_sends cleanId randomUUID extension upload_ok is_email "invite"%js i (trim (gr_email g))
      (notify_subject action ++ title_of e) (notify_intro action name (title_of e)) hw
      ("text/calendar; charset=utf-8; method="%js ++ itip_method action) txt s) as (m & o & E & Hc); try done.
    { rewrite trim_idemp. apply Hmail. left. }
    { by destruct action. }
    destruct (IH (λ to Hto, Hmail to (list_elem_of_further _ _ _ Hto)) (add_mail m (add_object o s))) as (mos & E' & HF); try done.
    exists ((m, o) :: mos). split; [|by constructor].
    unfold mbind at 1, proc_bind at 1. rewrite (mail_invitation_eq e action name hw i txt g s Hi), Et. cbn [negb].
    rewrite E, E'. by rewrite delivered_cons.
  - destruct (IH Hmail s Hi Hbox) as (mos & E' & HF). exists mos. split; [|done]. unfold mbind at 1, proc_bind at 1.
    rewrite (mail_invitation_eq e action name hw i txt g s Hi), Et. cbn [negb]. by rewrite E'.
Qed.

(** The organizer can invite: the event has guests and an object with a uid, the organizer is an identity with
    a box of sent mail, and the addresses are such for the schema. *)
Record invitable (s : ItipDb) (eventId : jsstr) (e : MailEvent) (i : CalIdentityRow) (vcal ve : Component) (u : jsstr) : Prop := {
  in_event : find_mail_event eventId s = Some e;
  in_raw : opt_truthy (me_rawIcs e) = true;
  in_identity : identity_of e s = Some i;
  in_organizer : opt_truthy (nullish (me_organizerEmail e) (Some (ci_value i))) = true;
  in_identity_id : truthy (ci_id i) = true;
  in_sent : is_Some (sent_box i s);
  in_parse : parse (default [] (me_rawIcs e)) = Some vcal;
  in_vevent : getFirstSubcomponent "vevent"%js vcal = Some ve;
  in_uid : property_value "uid"%js (c_props ve) = VStr u;
  in_uid_text : truthy u = true;
  in_emails to : to ∈ addressed (realAttendees eventId s) → is_email to = true;
  in_upload path : upload_ok path = true;
}.

Definition organizer_address (e : MailEvent) (i : CalIdentityRow) : jsstr := default (ci_value i) (me_organizerEmail e).

Definition invitation (s : ItipDb) (eventId : jsstr) (e : MailEvent) (i : CalIdentityRow) (vcal : Component) (action : ItipAction) : Component :=
  notify_calendar now e (organizer_address e i) (nullish (me_organizerName e) (nullish (ci_displayName i) (Some (organizer_address e i))))
    (realAttendees eventId s) action vcal.

(** C24: Invitations go out.  When the organizer can invite, each guest other than the organizer that has an address gets one
    mail, in order, from the identity of the event, with the object stored under the path of its
    attachment; no other row changes.  Whoever reads the object back learns the method of the action, the
    uid of the event and all these guests with their names, roles, participation and whether an answer
    is wanted. *)
Theorem invitations_go_out s eventId action e i vcal ve u (H : invitable s eventId e i vcal ve u)
    (Htxt : truthy (print (invitation s eventId e i vcal action)) = true) :
  (∃ mos, davItipNotify parse print now cleanId randomUUID extension upload_ok is_email same_day format eventId action s =
            (delivered mos s, Done tt) ∧
     Forall2 (λ to mo, carries i to (print (invitation s eventId e i vcal action)) mo.1 mo.2) (addressed (realAttendees eventId s)) mos) ∧
  ∀ cal, reads (invitation s eventId e i vcal action) cal →
    v_method cal = Some (itip_method action) ∧ ∃ v, v_event cal = Some v ∧ v_uid v = Some u ∧
    mapM read_attendee (v_attendees v) = Some (omap guest_reading (realAttendees eventId s)).
Proof.
  destruct H. split; [|intros cal Hr; by eapply invitation_reads].
  unfold davItipNotify. unfold mbind at 1, proc_bind at 1, read at 1. cbn beta iota. rewrite in_event0. cbv beta iota zeta.
  rewrite in_identity0, in_raw0. cbn [fmap option_fmap option_map mbind option_bind]. rewrite in_organizer0, in_parse0, in_vevent0.
  assert (nullish (me_organizerEmail e) (Some (ci_value i)) = Some (organizer_address e i)) as ->
    by (unfold organizer_address; by destruct (me_organizerEmail e)). cbn [default].
  fold (invitation s eventId e i vcal action). cbn [negb orb]. rewrite orb_false_r.
  case_bool_decide as Eg.
  - exists []. rewrite Eg, delivered_nil. split; [done|constructor].
  - by apply mail_invitations.
Qed.
End Invitations.

(** ** Examples: Bob answers Ann's invitation *)

Definition mx_guest (email : jsstr) : Property := newProperty "attendee"%js (VStr (mailto ++ email)).
Definition mx_object : Component :=
  Comp "vcalendar"%js [newProperty "method"%js (VStr "REQUEST"%js); newProperty "version"%js (VStr "2.0"%js)]
    [Comp "vevent"%js [newProperty "uid"%js (VStr "8"%js); newProperty "organizer"%js (VStr "mailto:me@x.org"%js);
                       mx_guest "Bob@x.org"%js; mx_guest "cy@x.org"%js] []].

Definition mx_event : MailEvent := {|
  me_id := "3"%js; me_ownerId := "bob"%js; me_calendarId := "k"%js; me_rawIcs := Some "raw"%js; me_isExternal := true;
  me_organizerEmail := Some "me@x.org"%js; me_organizerName := None; me_organizerIdentityId := Some "bi"%js; me_title := "Lunch"%js;
  me_startsAt := 0; me_endsAt := 3600000; me_isAllDay := false; me_davUri := None |}.
Definition mx_row (i email : jsstr) (organizer : bool) : GuestRow := {|
  gr_id := i; gr_ownerId := "bob"%js; gr_eventId := "3"%js; gr_contactId := None; gr_email := email; gr_name := None;
  gr_role := req_participant; gr_partstat := needs_action; gr_rsvp := true; gr_isOrganizer := organizer |}.
Definition mx_identity : CalIdentityRow :=
  {| ci_id := "bi"%js; ci_ownerId := "bob"%js; ci_publicId := "pi"%js; ci_value := "Bob@x.org"%js; ci_displayName := None |}.
Definition mx_store : ItipDb := {|
  it_events := [mx_event]; it_guests := [mx_row "g1"%js "Bob@x.org"%js false; mx_row "g2"%js "cy@x.org"%js false; mx_row "g0"%js "me@x.org"%js true];
  it_identities := [mx_identity]; it_boxes := [ {| sb_id := "sb"%js; sb_identityId := "bi"%js; sb_slug := Some "sent"%js |} ];
  it_calendars := []; objects := []; sendMailQueue := [] |}.

(** What the worker reads of a component. *)
Definition read_component (rc : Component) : Vcalendar := {|
  v_method := text_value (property_value "method"%js (c_props rc));
  v_event := (λ ve, {| v_uid := text_value (property_value "uid"%js (c_props ve)); v_summary := None; v_description := None;
    v_start := None; v_end := None; v_rrule := VUndef; v_organizer := getFirstProperty "organizer"%js (c_props ve);
    v_attendees := List.filter (named "attendee"%js) (c_props ve) |}) <$> getFirstSubcomponent "vevent"%js rc |}.

Lemma read_component_reads rc : reads rc (read_component rc).
Proof. split; [done|]. simpl. destruct (getFirstSubcomponent _ rc) as [ve|]; [by eexists|done]. Qed.

Definition mx_parse (ics : jsstr) : option Component := Some mx_object.
Definition mx_print (c : Component) : jsstr := concat (map p_name (c_props c)).
Abbreviation mx_reply := (davItipReply mx_parse mx_print VNull (λ _ _, "c"%js) (λ _, "n"%js) (λ _, None) (λ _, true) truthy "3"%js "g1"%js).
Abbreviation mx_notify := (davItipNotify mx_parse mx_print VNull (λ _ _, "c"%js) (λ _, "n"%js) (λ _, None) (λ _, true) truthy (λ _ _ _, true)
  (λ _ _ f, f) "3"%js).
Definition mx_answer : Component := answer_object VNull mx_event (mx_row "g1"%js "Bob@x.org"%js false) mx_identity mx_object accepted.
Abbreviation mx_process := (processSingleItem (λ _, Some (mx_print mx_answer, read_component mx_answer)) mx_parse mx_print (Z.add 86400000)
  id id id (λ _, true) (λ _, true) (λ _, true) ex_uuid ex_new_id ex_item).

Lemma mx_answerable : answerable mx_parse (λ _, true) truthy mx_store "3"%js "g1"%js mx_event (mx_row "g1"%js "Bob@x.org"%js false)
  mx_identity mx_object (Comp "vevent"%js (c_props (default mx_object (head (c_subs mx_object)))) []) "8"%js.
Proof. by split. Defined.

Lemma answer_arrives_witness :
  truthy (mx_print mx_answer) = true ∧ ∃ so, mx_process ex_calendar = (so, Done tt) ∧ attendees so = [ex_row "8"%js "bob@x.org"%js accepted].
Proof.
  split; [reflexivity|]. destruct (answer_arrives mx_parse mx_print VNull (λ _ _, "c"%js) (λ _, "n"%js) (λ _, None) (λ _, true) truthy
    (λ _, Some (mx_print mx_answer, read_component mx_answer)) (Z.add 86400000) id id id (λ _, true) (λ _, true) (λ _, true) ex_uuid ex_new_id
    mx_store "3"%js "g1"%js accepted _ _ _ _ _ _ mx_answerable eq_refl) as (m & o & E & _ & _ & _ & H).
  - intros att txt cal [= <- <-] _. apply read_component_reads.
  - reflexivity.
  - assert (o.2 = mx_print mx_answer) as Ho.
    { apply (f_equal (λ r, last (objects r.1))) in E. cbn [fst add_mail add_object objects] in E. rewrite last_snoc in E.
      vm_compute in E. injection E as <-. reflexivity. }
    destruct (H ex_calendar ex_item {| cm_id := "m"%js; cm_ownerId := "me"%js |}
      {| cb_id := "b"%js; cb_slug := Some "inbox"%js; cb_identityId := "i"%js |} (read_component mx_answer)) as (so' & Eso & _).
    { rewrite Ho. split; try done. left. }
    exists so'. split; [exact Eso|]. change (attendees so') with (attendees (so', Done tt).1). rewrite <- Eso. reflexivity.
Defined.

Lemma mx_invitable : invitable mx_parse (λ _, true) truthy mx_store "3"%js mx_event mx_identity mx_object
  (Comp "vevent"%js (c_props (default mx_object (head (c_subs mx_object)))) []) "8"%js.
Proof.
  split; try done. intros to Hto.
  change (addressed (realAttendees "3"%js mx_store)) with ["Bob@x.org"%js; "cy@x.org"%js] in Hto.
  rewrite !elem_of_cons in Hto. destruct Hto as [-> | [-> |Hto]]; [done|done|]. by apply not_elem_of_nil in Hto.
Defined.

Lemma invitations_go_out_witness :
  map sp_to (sendMailQueue (mx_notify update mx_store).1) = ["Bob@x.org"%js; "cy@x.org"%js] ∧
  ∃ v, v_event (read_component (invitation VNull mx_store "3"%js mx_event mx_identity mx_object update)) = Some v ∧
    omap read_attendee (v_attendees v) = omap guest_reading (realAttendees "3"%js mx_store).
Proof.
  destruct (invitations_go_out mx_parse mx_print VNull (λ _ _, "c"%js) (λ _, "n"%js) (λ _, None) (λ _, true) truthy (λ _ _ _, true)
    (λ _ _ f, f) mx_store "3"%js update _ _ _ _ _ mx_invitable eq_refl) as [(mos & E & HF) Hr]. split.
  - rewrite E. cbn [fst delivered sendMailQueue]. change (sendMailQueue mx_store) with (@nil SendPayload).
    change (addressed (realAttendees "3"%js mx_store)) with ["Bob@x.org"%js; "cy@x.org"%js] in HF.
    inversion HF as [|? [m1 o1] ? ? H1 HF1]; subst. inversion HF1 as [|? [m2 o2] ? ? H2 HF2]; subst. inversion HF2; subst.
    destruct H1 as [E1 _], H2 as [E2 _]. cbn in E1, E2 |- *. by rewrite E1, E2.
  - destruct (Hr _ (read_component_reads _)) as (_ & v & Hv & _ & Hm). exists v. split; [exact Hv|]. revert Hm.
    injection Hv as <-. by vm_compute.
Defined.

(** The organizer's row holds the address as it was typed: the answer of a guest typed with a capital is lost. *)
Example answer_of_capitals_is_lost :
  let so := set_attendees (λ _, [ex_row "8"%js "Bob@x.org"%js needs_action]) ex_calendar in mx_process so = (so, Done tt).
Proof. reflexivity. Qed.

(** The guest's row is changed before the identity is looked up: whoever has none sees the answer, and nobody
    hears of it. *)
Example answer_without_identity_is_local :
  let (s', o) := davItipReply mx_parse mx_print VNull (λ _ _, "c"%js) (λ _, "n"%js) (λ _, None) (λ _, true) truthy "3"%js "g2"%js accepted mx_store in
  (map gr_partstat (it_guests s'), sendMailQueue s', o) = ([needs_action; accepted; needs_action], [], Done tt).
Proof. reflexivity. Qed.

(** The properties of the calendar object are added a second time. *)
Example answer_repeats_version : length (List.filter (named "version"%js) (c_props mx_answer)) = 2.
Proof. reflexivity. Qed.
