(* ===== verification/WebRules.v ===== *)
(** * Rules made with a form ([apps/web/lib/actions/mail-rules.ts])

    The form of the settings becomes a rule and its actions, in the tables the worker reads
    ([RulesProcessor.v]); a query sees the rows of the signed-in user.  [decode-formdata] is a parameter.
    A file in the form is any value that is not a text. *)

From stdpp Require Import base list.
From S2P Require Import Prelude JsString JsNumber JsValue RuleMatcher MailDb RulesProcessor.
From S2P Require Import Proc.

(** ** Tables *)

Record WebRuleRow := { ru_ownerId : jsstr; ru_name : jsstr; ru_row : MailRuleRow }.
Record WebActionRow := { ac_ownerId : jsstr; ac_row : MailRuleActionRow }.

Record LabelRow := { la_id : jsstr; la_ownerId : jsstr; la_isSystem : bool }.

(** [ru_identities] are the ids of all identities: a reference is checked without the policies. *)
Record RuleDb := { ru_rules : list WebRuleRow; ru_actions : list WebActionRow; ru_identities : list jsstr; ru_labels : list LabelRow }.

Definition set_rules f s : RuleDb :=
  {| ru_rules := f (ru_rules s); ru_actions := ru_actions s; ru_identities := ru_identities s; ru_labels := ru_labels s |}.
Definition set_actions f s : RuleDb :=
  {| ru_rules := ru_rules s; ru_actions := f (ru_actions s); ru_identities := ru_identities s; ru_labels := ru_labels s |}.

Abbreviation ruling := (prog RuleDb).

(** ** The form *)

(** [if (b) l.push(x)] *)
Definition push_when {A} (b : bool) (x : A) : list A := if b then [x] else [].

Definition FormData : Type := list (jsstr * jsval).

(** [formData.get(k)] *)
Definition form_get (k : jsstr) (f : FormData) : jsval := default VNull (jm_get k f).

Definition asString (v : jsval) : jsstr := match v with VStr s => s | _ => [] end.
Definition asBool (v : jsval) : bool := bool_decide (asString v = "true"%js).
Definition asNumber (v : jsval) : num :=
  let n := string_to_number (asString v) in if is_finite_num n then n else num_zero.

Definition math_floor (x : num) : num := match num_floor x with Some z => num_of_Z z | None => x end.
Definition math_max (x y : num) : num := if negb (is_number x && is_number y) then y else if num_ltb x y then y else x.

Definition bytesFromSize (n : num) (unit : jsstr) : num :=
  let mul := if bool_decide (unit = "MB"%js) then num_of_Z (1024 * 1024) else num_of_Z 1024 in
  math_max num_zero (math_floor (num_mul n mul)).

Definition buildContains (field : jsstr) (value : jsstr) : option RuleCondition :=
  let v := trim value in
  if negb (truthy v) then None else Some {| field := field; op := "contains"%js; value := VStr v |}.

Record RuleAction := { ra_actionType : jsstr; ra_order : Z; ra_params : option (list (jsstr * jsval)) }.

(** The texts of the errors, by field, in the order they are set. *)
Definition FieldErrors : Type := list (jsstr * list jsstr).

Record RulePayload := {
  p_identityId : jsstr; p_name : jsstr; p_priority : num; p_enabled : bool; p_match : RuleMatch; p_actions : list RuleAction;
}.

Definition validateRulePayload (p : RulePayload) (applyLabel : bool) (labelId : jsstr) : FieldErrors :=
  push_when (negb (truthy (trim (p_name p)))) ("name"%js, ["Rule name is required."%js]) ++
  push_when (negb (is_finite_num (p_priority p)) || num_ltb (p_priority p) num_zero)
    ("priority"%js, ["Priority must be a non-negative number."%js]) ++
  push_when (bool_decide (conditions (p_match p) = [])) ("match"%js, ["Add at least one criteria field."%js]) ++
  push_when (bool_decide (length (p_actions p) = 0)) ("actions"%js, ["Select at least one action."%js]) ++
  push_when (applyLabel && negb (truthy (trim labelId))) ("labelId"%js, ["Label ID is required when Apply label is enabled."%js]).

Section Form.
Context (f : FormData).

Definition text_of (k : jsstr) : jsstr := asString (form_get k f).
Definition ticked (k : jsstr) : bool := asBool (form_get k f).

Definition sizeOp : jsstr := js_or (text_of "sizeOp"%js) "gt"%js.
Definition sizeUnit : jsstr := js_or (text_of "sizeUnit"%js) "MB"%js.
Definition sizeValue : num := asNumber (form_get "sizeValue"%js f).
Definition form_labelId : jsstr := trim (text_of "labelId"%js).

Definition form_conditions : list RuleCondition :=
  omap (λ k, buildContains k (text_of k)) ["from"; "to"; "subject"]%js ++
  push_when (truthy (trim (text_of "hasWords"%js)))
    {| field := "text"%js; op := "contains"%js; value := VStr (trim (text_of "hasWords"%js)) |} ++
  push_when (truthy (trim (text_of "doesntHave"%js)))
    {| field := "text"%js; op := "not_contains"%js; value := VStr (trim (text_of "doesntHave"%js)) |} ++
  push_when (ticked "hasAttachment"%js) {| field := "has_attachments"%js; op := "eq"%js; value := VBool true |} ++
  push_when (num_gtb sizeValue num_zero)
    {| field := "size_bytes"%js; op := sizeOp; value := VNum (bytesFromSize sizeValue sizeUnit) |}.

(** The actions that were ticked, before they get their numbers. *)
Definition ticked_actions : list (jsstr * option (list (jsstr * jsval))) :=
  push_when (ticked "markRead"%js) ("mark_read"%js, None) ++ push_when (ticked "flag"%js) ("flag"%js, None) ++
  push_when (ticked "trash"%js) ("trash"%js, None) ++
  push_when (ticked "applyLabel"%js) ("add_label"%js, Some [("labelId"%js, VStr form_labelId)]).

(** [order++] *)
Fixpoint numbered (order : Z) (l : list (jsstr * option (list (jsstr * jsval)))) : list RuleAction :=
  match l with
  | [] => []
  | (t, params) :: l' => {| ra_actionType := t; ra_order := order; ra_params := params |} :: numbered (order + 1) l'
  end.

Definition buildRulePayloadFromFormData : RulePayload * option FieldErrors :=
  let match_ := {| version := num_of_Z 1; logic := "all"%js; conditions := form_conditions |} in
  let payload := {| p_identityId := text_of "identityId"%js; p_name := text_of "name"%js;
                    p_priority := asNumber (form_get "priority"%js f); p_enabled := ticked "enabled"%js;
                    p_match := match_; p_actions := numbered 0 ticked_actions |} in
  match validateRulePayload payload (ticked "applyLabel"%js) form_labelId with
  | [] => (payload, None)
  | errors => (payload, Some errors)
  end.
End Form.

(** ** Columns *)

(** A number as PostgreSQL reads it for a column of integers. *)
Definition int4 (x : num) : option Z :=
  match num_floor x with
  | Some z => if num_eqb (num_of_Z z) x && (-2147483648 <=? z)%Z && (z <=? 2147483647)%Z then Some z else None
  | None => None
  end.

(** A condition as it is read back from JSON: a number that is not finite is null. *)
Definition json_condition (c : RuleCondition) : RuleCondition :=
  {| field := field c; op := op c;
     value := match value c with VNum n => if is_finite_num n then VNum n else VNull | v => v end |}.
Definition json_match (m : RuleMatch) : RuleMatch :=
  {| version := version m; logic := logic m; conditions := map json_condition (conditions m) |}.

Definition action_row (ruleId : jsstr) (a : RuleAction) : MailRuleActionRow :=
  {| a_ruleId := ruleId; a_actionType := ra_actionType a; a_order := ra_order a;
     a_labelId := match ra_params a ≫= jm_get "labelId"%js with Some (VStr l) => Some l | _ => None end |}.

(** ** Actions of the server *)

Inductive RuleAnswer :=
| RuleDone (ruleId : option jsstr)
| RuleRefused (error : jsstr) (errors : FieldErrors)
| RuleError.

Definition handleAction (p : ruling RuleAnswer) : ruling RuleAnswer := catch p (mret RuleError).

Section User.
(** The signed-in user; whether a text is a uuid; the id of a new row. *)
Context (uid : jsstr) (is_uuid : jsstr → bool) (new_id : RuleDb → jsstr) (decode : FormData → jsval).

(** A transaction: an error takes everything back. *)
Definition rls {A} (p : ruling A) : ruling A := λ s, match p s with (s', Done a) => (s', Done a) | (_, Threw) => (s, Threw) end.

Definition own_rule (r : WebRuleRow) : bool := bool_decide (ru_ownerId r = uid).
Definition has_id (i : jsstr) (r : WebRuleRow) : bool := bool_decide (r_id (ru_row r) = i).

(** What a column of [uuid] is compared with. *)
Definition uuid_or_throw (i : jsstr) : ruling unit := if is_uuid i then mret tt else throw.

Definition name_taken : RuleAnswer :=
  RuleRefused "A rule with this name already exists for this identity."%js [("name"%js, ["Rule name must be unique per identity."%js])].

(** The only unique key is that of the actions, [(rule_id, order)]. *)
Definition createMailRule (p : RulePayload) : ruling RuleAnswer :=
  rls (
    _ ← uuid_or_throw (p_identityId p);
    s ← read;
    match int4 (p_priority p) with
    | None => throw
    | Some priority =>
        if negb (bool_decide (p_identityId p ∈ ru_identities s)) then throw
        else
          let i := new_id s in
          let rule := {| r_id := i; r_identityId := p_identityId p; r_enabled := p_enabled p; r_priority := priority;
                         r_stopProcessing := false; r_match := Some (json_match (p_match p)) |} in
          if negb (forallb (λ a, bool_decide (ra_actionType a ∈ mailRulesActionsList)) (p_actions p)) then throw
          else if bool_decide (NoDup (map ra_order (p_actions p))) then
            _ ← modify (set_rules (λ l, l ++ [ {| ru_ownerId := uid; ru_name := p_name p; ru_row := rule |} ]));
            _ ← modify (set_actions (λ l, l ++ map (λ a, {| ac_ownerId := uid; ac_row := action_row i a |}) (p_actions p)));
            mret (RuleDone (Some i))
          else mret name_taken
    end).

Definition createRule (f : FormData) : ruling RuleAnswer :=
  handleAction (
    match buildRulePayloadFromFormData f with
    | (_, Some errors) => mret (RuleRefused (default "Validation errors occurred."%js (head errors ≫= λ e, head e.2)) errors)
    | (payload, None) => createMailRule payload
    end).

(** [DELETE]; the actions of a rule go with it. *)
Definition delete_rules (p : WebRuleRow → bool) (s : RuleDb) : RuleDb :=
  let gone := map (λ r, r_id (ru_row r)) (List.filter p (ru_rules s)) in
  set_actions (filter (λ a, a_ruleId (ac_row a) ∉ gone)) (set_rules (List.filter (λ r, negb (p r))) s).

Definition deleteRule (f : FormData) : ruling RuleAnswer :=
  handleAction (
    let v := form_get "ruleId"%js f in
    let ruleId := if js_truthy v then js_to_string v else [] in
    if negb (truthy ruleId) then mret (RuleRefused "Missing ruleId"%js [])
    else
      _ ← rls (_ ← uuid_or_throw ruleId; modify (delete_rules (λ r, own_rule r && has_id ruleId r)));
      mret (RuleDone None)).

Definition with_enabled (b : bool) (r : WebRuleRow) : WebRuleRow :=
  {| ru_ownerId := ru_ownerId r; ru_name := ru_name r;
     ru_row := {| r_id := r_id (ru_row r); r_identityId := r_identityId (ru_row r); r_enabled := b; r_priority := r_priority (ru_row r);
                  r_stopProcessing := r_stopProcessing (ru_row r); r_match := r_match (ru_row r) |} |}.

Definition toggleRule (f : FormData) : ruling RuleAnswer :=
  handleAction (
    let ruleId := js_to_string (get_prop (decode f) "ruleId"%js) in
    _ ← rls (
      _ ← uuid_or_throw ruleId;
      s ← read;
      rule ← or_throw (List.find (λ r, own_rule r && has_id ruleId r) (ru_rules s));
      modify (set_rules (update_where (λ r, own_rule r && has_id ruleId r) (with_enabled (negb (r_enabled (ru_row rule)))))));
    mret (RuleDone None)).

(** *** [fetchMailRules] *)

Record RuleWithActions := { rw_rule : WebRuleRow; rw_actions : list WebActionRow }.

(** The rows of the left join. *)
Definition join_actions (actions : list WebActionRow) (r : WebRuleRow) : list (WebRuleRow * option WebActionRow) :=
  match List.filter (λ a, bool_decide (ac_ownerId a = uid) && bool_decide (a_ruleId (ac_row a) = r_id (ru_row r))) actions with
  | [] => [(r, None)]
  | l => map (λ a, (r, Some a)) l
  end.

(** [asc(order)], null last. *)
Definition compare_order (a b : option WebActionRow) : Z :=
  match a, b with
  | Some a, Some b => a_order (ac_row a) - a_order (ac_row b)
  | Some _, None => -1 | None, Some _ => 1 | None, None => 0
  end.

Definition compare_rows : WebRuleRow * option WebActionRow → WebRuleRow * option WebActionRow → Z :=
  cmp_or (λ x y, r_priority (ru_row x.1) - r_priority (ru_row y.1))%Z (λ x y, compare_order x.2 y.2).

Definition add_row (byId : jsmap jsstr RuleWithActions) (row : WebRuleRow * option WebActionRow) : jsmap jsstr RuleWithActions :=
  let i := r_id (ru_row row.1) in
  let existing := default {| rw_rule := row.1; rw_actions := [] |} (jm_get i byId) in
  let existing := match row.2 with
                  | Some a => {| rw_rule := rw_rule existing; rw_actions := rw_actions existing ++ [a] |}
                  | None => existing
                  end in
  jm_set i existing byId.

Definition fetchMailRules (identityId : jsstr) (s : RuleDb) : list RuleWithActions :=
  let rules := List.filter (λ r, own_rule r && bool_decide (r_identityId (ru_row r) = identityId)) (ru_rules s) in
  (foldl add_row [] (sort_by compare_rows (flat_map (join_actions (ru_actions s)) rules))).*2.

Definition getAppLabels (s : RuleDb) : list LabelRow :=
  List.filter (λ l, bool_decide (la_ownerId l = uid) && negb (la_isSystem l)) (ru_labels s).
End User.
