(* ===== verification/WebRulesSpecs.v ===== *)
(** * What the form says is what the worker does

    A rule of the form matches the messages that meet every line of it, and its actions are those that were
    ticked, in the order of the form. *)

From stdpp Require Import base list.
From S2P Require Import Prelude JsString JsNumber JsValue RuleMatcher MailDb RulesProcessor WebRules.
From S2P Require Import Proc.

(** ** What a form asks of a message *)

(** Without regard to case; an empty line asks nothing. *)
Definition says (text line : jsstr) : bool :=
  negb (truthy (trim line)) || includes (toLowerCase (trim text)) (toLowerCase (trim line)).
Definition lacks (text line : jsstr) : bool :=
  negb (truthy (trim line)) || negb (includes (toLowerCase (trim text)) (toLowerCase (trim line))).

Definition size_says (op : jsstr) (size bytes : num) : bool :=
  if bool_decide (op = "gt"%js) then num_gtb size bytes else num_ltb size bytes.

Definition meets (f : FormData) (m : MessageForRules) : bool :=
  says (extractEmails (nullish_or (from m) (header m "from"%js))) (text_of f "from"%js) &&
  says (extractEmails (nullish_or (to m) (header m "to"%js))) (text_of f "to"%js) &&
  says (default [] (subject m)) (text_of f "subject"%js) &&
  says (default [] (text m)) (text_of f "hasWords"%js) &&
  lacks (default [] (text m)) (text_of f "doesntHave"%js) &&
  (negb (ticked f "hasAttachment"%js) || default false (hasAttachments m)) &&
  (negb (num_gtb (sizeValue f) num_zero) ||
     size_says (sizeOp f) (toNumber (VNum (default num_zero (sizeBytes m)))) (bytesFromSize (sizeValue f) (sizeUnit f))).

(** ** The conditions *)

Section Conditions.
Context (regexp_i : jsstr → option (jsstr → bool)) (m : MessageForRules).

Definition holds (l : list RuleCondition) : bool := forallb (λ c, evaluateCondition regexp_i m (json_condition c)) l.

Lemma holds_app l k : holds (l ++ k) = holds l && holds k.
Proof. apply forallb_app. Qed.

Lemma holds_when b c : holds (push_when b c) = negb b || evaluateCondition regexp_i m (json_condition c).
Proof. destruct b; [|done]. cbn. by rewrite andb_true_r. Qed.

Lemma truthy_lower s : truthy (toLowerCase s) = truthy s.
Proof. by destruct s. Qed.

Lemma field_text k : k ∈ ["from"; "to"; "subject"; "text"]%js → ∃ t, RuleMatcher.getMessageFieldValue m k = VStr t.
Proof.
  intros Hk. repeat (apply elem_of_cons in Hk as [-> | Hk]; [unfold RuleMatcher.getMessageFieldValue; decide_closed; by eexists|]).
  by apply not_elem_of_nil in Hk.
Qed.

(** The text of a field. *)
Definition field_of (k : jsstr) : jsstr := js_to_string (RuleMatcher.getMessageFieldValue m k).

Lemma text_condition k o v :
  k ∉ ["has_attachments"; "size_bytes"]%js → o ∉ ["exists"; "not_exists"]%js →
  evaluateCondition regexp_i m {| field := k; op := o; value := v |} = evaluateText regexp_i o (RuleMatcher.getMessageFieldValue m k) v.
Proof. intros Hk Ho. unfold evaluateCondition. cbn [field op value]. rewrite !bool_decide_false by set_solver. done. Qed.

Lemma evaluateText_contains l r :
  evaluateText regexp_i "contains"%js l r =
    (if truthy (asLowerString r) then includes (asLowerString l) (asLowerString r) else false) ∧
  evaluateText regexp_i "not_contains"%js l r =
    (if truthy (asLowerString r) then negb (includes (asLowerString l) (asLowerString r)) else true).
Proof. done. Qed.

Lemma contains_says k line :
  k ∈ ["from"; "to"; "subject"; "text"]%js →
  evaluateCondition regexp_i m {| field := k; op := "contains"%js; value := VStr (trim line) |} =
    truthy (trim line) && includes (toLowerCase (trim (field_of k))) (toLowerCase (trim line)) ∧
  evaluateCondition regexp_i m {| field := k; op := "not_contains"%js; value := VStr (trim line) |} = lacks (field_of k) line.
Proof.
  intros Hk. unfold field_of, lacks. rewrite !text_condition by set_solver. destruct (field_text k Hk) as [t ->].
  rewrite (proj1 (evaluateText_contains _ _)), (proj2 (evaluateText_contains _ _)).
  change (asLowerString (VStr (trim line))) with (toLowerCase (trim (trim line))). rewrite trim_idemp, truthy_lower.
  by destruct (truthy (trim line)).
Qed.

Lemma holds_contains k line :
  k ∈ ["from"; "to"; "subject"; "text"]%js →
  holds (push_when (truthy (trim line)) {| field := k; op := "contains"%js; value := VStr (trim line) |}) = says (field_of k) line.
Proof. intros Hk. rewrite holds_when. unfold says, json_condition. cbn [field op value]. rewrite (proj1 (contains_says k line Hk)). by destruct (truthy _). Qed.

Definition contains_line (k line : jsstr) : list RuleCondition :=
  push_when (truthy (trim line)) {| field := k; op := "contains"%js; value := VStr (trim line) |}.

Lemma omap_contains f ks :
  omap (λ k, buildContains k (text_of f k)) ks = flat_map (λ k, contains_line k (text_of f k)) ks.
Proof. induction ks as [|k ks IH]; [done|]. cbn. unfold contains_line, buildContains in *. rewrite <- IH. by destruct (truthy _). Qed.

Lemma condition_attachments :
  evaluateCondition regexp_i m {| field := "has_attachments"%js; op := "eq"%js; value := VBool true |} = default false (hasAttachments m).
Proof. change (Bool.eqb (default false (hasAttachments m)) true = default false (hasAttachments m)). by destruct (default _ _). Qed.

Lemma condition_size o b :
  o ∈ ["gt"; "lt"]%js → is_finite_num b = true →
  evaluateCondition regexp_i m {| field := "size_bytes"%js; op := o; value := VNum b |} =
  size_says o (toNumber (VNum (default num_zero (sizeBytes m)))) b.
Proof.
  intros Ho Hb. assert (toNumber (VNum b) = b) as E by (unfold toNumber; by rewrite Hb).
  apply elem_of_cons in Ho as [-> | Ho%list_elem_of_singleton]; [|subst o];
    match goal with |- context [size_says ?o ?l _] =>
      change (evaluateNumeric o l (toNumber (VNum b)) (VNum b) = size_says o l b) end; by rewrite E.
Qed.

(** The conditions of the form hold of the messages that meet it. *)
Lemma form_holds f :
  sizeOp f ∈ ["gt"; "lt"]%js → is_finite_num (bytesFromSize (sizeValue f) (sizeUnit f)) = true →
  holds (form_conditions f) = meets f m.
Proof.
  intros Hop Hfin. unfold form_conditions. rewrite omap_contains. cbn [flat_map]. unfold contains_line. rewrite app_nil_r, <- !app_assoc, !holds_app.
  rewrite !holds_contains, !holds_when by set_solver. unfold json_condition. cbn [field op value]. rewrite Hfin.
  rewrite (proj2 (contains_says "text"%js _ ltac:(set_solver))). unfold meets. rewrite <- !andb_assoc. repeat f_equal.
  - unfold lacks. by destruct (truthy _).
  - by apply condition_attachments.
  - by apply condition_size.
Qed.
End Conditions.

(** ** The actions *)

Lemma numbered_order k l a : a ∈ numbered k l → (k ≤ ra_order a)%Z.
Proof.
  revert k. induction l as [|[t ps] l IH]; intros k Ha; [by apply not_elem_of_nil in Ha|]. cbn [numbered] in Ha.
  apply elem_of_cons in Ha as [-> | Ha]; [done|]. pose proof (IH _ Ha). lia.
Qed.

Lemma numbered_NoDup k l : NoDup (map ra_order (numbered k l)).
Proof.
  revert k. induction l as [|[t ps] l IH]; intros k; [constructor|]. cbn [numbered map]. constructor; [|apply IH].
  intros (a & Ea & Ha)%list_elem_of_fmap. apply numbered_order in Ha. cbn in Ea. lia.
Qed.

(** The rows of the ticked actions are in their order. *)
Lemma numbered_sorted i k l : sorted_by (λ a b, a_order a - a_order b)%Z (map (action_row i) (numbered k l)).
Proof.
  revert k. induction l as [|[t ps] l IH]; intros k; [constructor|]. cbn [numbered map]. constructor; [apply IH|].
  apply Forall_forall. intros y (a & -> & Ha)%list_elem_of_fmap. apply numbered_order in Ha. cbn. lia.
Qed.

Lemma ticked_types f k : forallb (λ a, bool_decide (ra_actionType a ∈ mailRulesActionsList)) (numbered k (ticked_actions f)) = true.
Proof.
  unfold ticked_actions. destruct (ticked f "markRead"%js), (ticked f "flag"%js), (ticked f "trash"%js), (ticked f "applyLabel"%js); done.
Qed.

(** ** What the worker sees *)

(** The tables of the form as the worker reads them. *)
Definition worker_view (w : RuleDb) (s : MailDb) : MailDb :=
  {| messages := messages s; mailboxes := mailboxes s; threads := threads s; identities := identities s; labels := labels s;
     mailRules := map ru_row (ru_rules w); mailRuleActions := map ac_row (ru_actions w); mailboxThreads := mailboxThreads s;
     mailboxThreadLabels := mailboxThreadLabels s; mailboxSync := mailboxSync s; jobs := jobs s; imap := imap s;
     imapInstances := imapInstances s; timers := timers s; ticks := ticks s; ingest := ingest s |}.

(** The references of the table of actions. *)
Definition actions_have_rules (w : RuleDb) : Prop :=
  ∀ a, a ∈ ru_actions w → a_ruleId (ac_row a) ∈ map (λ r, r_id (ru_row r)) (ru_rules w).

Section Created.
Context (uid : jsstr) (is_uuid : jsstr → bool) (new_id : RuleDb → jsstr).

(** The row of the form. *)
Definition form_rule (f : FormData) (i : jsstr) (priority : Z) : MailRuleRow :=
  {| r_id := i; r_identityId := text_of f "identityId"%js; r_enabled := ticked f "enabled"%js; r_priority := priority;
     r_stopProcessing := false; r_match := Some (json_match (p_match (buildRulePayloadFromFormData f).1)) |}.

Definition form_actions (f : FormData) (i : jsstr) : list MailRuleActionRow := map (action_row i) (numbered 0 (ticked_actions f)).

(** The store with the rule of the form. *)
Definition with_form (f : FormData) (i : jsstr) (priority : Z) (w : RuleDb) : RuleDb :=
  set_actions (λ l, l ++ map (λ a, {| ac_ownerId := uid; ac_row := a |}) (form_actions f i))
    (set_rules (λ l, l ++ [ {| ru_ownerId := uid; ru_name := text_of f "name"%js; ru_row := form_rule f i priority |} ]) w).

Lemma build_payload f :
  let p := (buildRulePayloadFromFormData f).1 in
  p_identityId p = text_of f "identityId"%js ∧ p_name p = text_of f "name"%js ∧ p_enabled p = ticked f "enabled"%js ∧
  p_priority p = asNumber (form_get "priority"%js f) ∧ conditions (p_match p) = form_conditions f ∧
  logic (p_match p) = "all"%js ∧ p_actions p = numbered 0 (ticked_actions f).
Proof. unfold buildRulePayloadFromFormData. cbv zeta. by destruct (validateRulePayload _ _ _). Qed.

(** Every branch. *)
Lemma createRule_eq f w :
  createRule uid is_uuid new_id f w =
  match (buildRulePayloadFromFormData f).2 with
  | Some errors => (w, Done (RuleRefused (default "Validation errors occurred."%js (head errors ≫= λ e, head e.2)) errors))
  | None =>
      match is_uuid (text_of f "identityId"%js) && bool_decide (text_of f "identityId"%js ∈ ru_identities w),
            int4 (asNumber (form_get "priority"%js f)) with
      | true, Some priority => (with_form f (new_id w) priority w, Done (RuleDone (Some (new_id w))))
      | _, _ => (w, Done RuleError)
      end
  end.
Proof.
  destruct (build_payload f) as (E1 & E2 & E3 & E4 & _ & _ & E7). unfold createRule, handleAction, catch.
  destruct (buildRulePayloadFromFormData f) as [p [errors|]] eqn:Ep; cbn [fst snd] in *; [done|].
  unfold createMailRule, rls, uuid_or_throw. rewrite E1, E4, E7. destruct (is_uuid _); [|done]. cbn [andb].
  unfold mbind at 1, proc_bind at 1, mret at 1, proc_ret at 1. unfold mbind at 1, proc_bind at 1, read at 1. cbv beta iota.
  destruct (int4 _) as [z|]; [|by destruct (bool_decide _)]. destruct (bool_decide (_ ∈ ru_identities w)); [|done]. cbn [negb].
  rewrite ticked_types, bool_decide_true by apply numbered_NoDup. cbn [negb]. unfold mbind, proc_bind, modify, mret, proc_ret.
  do 2 f_equal. unfold with_form, form_actions, form_rule. rewrite E2, E3, Ep, map_map. done.
Qed.

(** *** The rule at work *)

Lemma actions_of_with_form f i z w s j :
  actions_of (worker_view (with_form f i z w) s) j =
  sort_by (λ a b, a_order a - a_order b)%Z
    (filter (λ a, a_ruleId a = j) (map ac_row (ru_actions w)) ++ filter (λ a, a_ruleId a = j) (form_actions f i)).
Proof.
  unfold actions_of, worker_view, with_form. cbn [mailRuleActions ru_actions set_actions set_rules].
  by rewrite map_app, map_map, map_id, filter_app.
Qed.

Lemma form_actions_rule f i a : a ∈ form_actions f i → a_ruleId a = i.
Proof. by intros (b & -> & _)%list_elem_of_fmap. Qed.

Lemma actions_of_form f i z w s :
  actions_have_rules w → i ∉ map (λ r, r_id (ru_row r)) (ru_rules w) →
  actions_of (worker_view (with_form f i z w) s) i = form_actions f i.
Proof.
  intros Hw Hi. rewrite actions_of_with_form, filter_none.
  - rewrite filter_all by apply form_actions_rule. apply sort_by_sorted_id, numbered_sorted.
  - intros a (b & -> & Hb)%list_elem_of_fmap Ea. apply Hi. rewrite <- Ea. by apply Hw.
Qed.

Lemma actions_of_others f i z w s j :
  j ≠ i → actions_of (worker_view (with_form f i z w) s) j = actions_of (worker_view w s) j.
Proof.
  intros Hj. rewrite actions_of_with_form, (filter_none _ (form_actions f i)), app_nil_r; [done|].
  intros a Ha Ea. apply form_actions_rule in Ha. congruence.
Qed.

Lemma form_rule_matches regexp_i f i z m :
  (buildRulePayloadFromFormData f).2 = None → sizeOp f ∈ ["gt"; "lt"]%js →
  is_finite_num (bytesFromSize (sizeValue f) (sizeUnit f)) = true →
  rule_matches regexp_i m (form_rule f i z) = meets f (row_message m).
Proof.
  intros Hok Hop Hfin. unfold rule_matches, form_rule. cbn [r_match json_match conditions].
  destruct (build_payload f) as (_ & _ & _ & _ & Ec & El & _). rewrite Ec. destruct (form_conditions f) as [|c l] eqn:Ef.
  - exfalso. revert Hok. unfold buildRulePayloadFromFormData, validateRulePayload. cbv zeta. cbn [p_match conditions p_name p_priority p_actions].
    rewrite Ef, (bool_decide_true ([] = [])) by done. change (push_when true ?e) with [e]. destruct (push_when _ _), (push_when _ _); done.
  - rewrite <- (form_holds regexp_i (row_message m) f) by done. rewrite Ef. cbn [map].
    rewrite evalMatch_row. unfold evaluateMatch, json_match. cbn [logic conditions]. rewrite El, bool_decide_false by done.
    rewrite Ec, map_map. unfold holds. generalize (c :: l). intros k. induction k as [|c' k IH]; [done|]. cbn. by rewrite IH.
Qed.

(** C16: A form becomes the rule it describes.  When the form has no errors, names an identity and a whole number as
    priority, the tables get one rule of the signed-in user and its actions; the worker finds that it matches
    exactly the messages that meet every line of the form, and its actions are those that were ticked, in the
    order of the form; the actions of every other rule stay as they are. *)
Theorem form_becomes_rule regexp_i f w s z (Hok : (buildRulePayloadFromFormData f).2 = None)
    (Hid : is_uuid (text_of f "identityId"%js) = true) (Hin : text_of f "identityId"%js ∈ ru_identities w)
    (Hz : int4 (asNumber (form_get "priority"%js f)) = Some z) (Hop : sizeOp f ∈ ["gt"; "lt"]%js)
    (Hfin : is_finite_num (bytesFromSize (sizeValue f) (sizeUnit f)) = true)
    (Hfresh : new_id w ∉ map (λ r, r_id (ru_row r)) (ru_rules w)) (Hw : actions_have_rules w) :
  ∃ w' rule, createRule uid is_uuid new_id f w = (w', Done (RuleDone (Some (r_id rule)))) ∧
    ru_rules w' = ru_rules w ++ [ {| ru_ownerId := uid; ru_name := text_of f "name"%js; ru_row := rule |} ] ∧
    r_identityId rule = text_of f "identityId"%js ∧ r_enabled rule = ticked f "enabled"%js ∧ r_priority rule = z ∧
    (∀ m, rule_matches regexp_i m rule = meets f (row_message m)) ∧
    map (λ a, (a_actionType a, a_labelId a)) (actions_of (worker_view w' s) (r_id rule)) =
      push_when (ticked f "markRead"%js) ("mark_read"%js, None) ++ push_when (ticked f "flag"%js) ("flag"%js, None) ++
      push_when (ticked f "trash"%js) ("trash"%js, None) ++
      push_when (ticked f "applyLabel"%js) ("add_label"%js, Some (form_labelId f)) ∧
    (∀ j, j ≠ r_id rule → actions_of (worker_view w' s) j = actions_of (worker_view w s) j).
Proof.
  exists (with_form f (new_id w) z w), (form_rule f (new_id w) z).
  rewrite createRule_eq, Hok, Hid, Hz, bool_decide_true by done. split_and!; try done.
  - intros m. by apply form_rule_matches.
  - cbn [r_id form_rule]. rewrite actions_of_form by done. unfold form_actions, ticked_actions.
    by destruct (ticked f "markRead"%js), (ticked f "flag"%js), (ticked f "trash"%js), (ticked f "applyLabel"%js).
  - intros j Hj. by apply actions_of_others.
Qed.
End Created.

(** ** The tables stay sound, and users stay apart *)

(** What a user can do with the form and the list of rules. *)
Inductive rule_step (is_uuid : jsstr → bool) (new_id : RuleDb → jsstr) (decode : FormData → jsval) (uid : jsstr) : RuleDb → RuleDb → Prop :=
| step_create f w : rule_step is_uuid new_id decode uid w (createRule uid is_uuid new_id f w).1
| step_delete f w : rule_step is_uuid new_id decode uid w (deleteRule uid is_uuid f w).1
| step_toggle f w : rule_step is_uuid new_id decode uid w (toggleRule uid is_uuid decode f w).1.

(** The ids of the rules differ, and every action has its rule and a number of its own in it. *)
Definition action_key (a : WebActionRow) : jsstr * Z := (a_ruleId (ac_row a), a_order (ac_row a)).

Definition rules_sound (w : RuleDb) : Prop :=
  NoDup (map (λ r, r_id (ru_row r)) (ru_rules w)) ∧ actions_have_rules w ∧ NoDup (map action_key (ru_actions w)).

(** The rules of another user, and the actions of these rules. *)
Definition rules_of (owner : jsstr) (w : RuleDb) : list WebRuleRow := List.filter (own_rule owner) (ru_rules w).
Definition actions_under (owner : jsstr) (w : RuleDb) : list WebActionRow :=
  filter (λ a, a_ruleId (ac_row a) ∈ map (λ r, r_id (ru_row r)) (rules_of owner w)) (ru_actions w).

Definition apart (uid : jsstr) (w w' : RuleDb) : Prop :=
  ∀ owner, owner ≠ uid → rules_of owner w' = rules_of owner w ∧ actions_under owner w' = actions_under owner w.

Lemma apart_refl uid w : apart uid w w.
Proof. done. Qed.

Section Steps.
Context (uid : jsstr) (is_uuid : jsstr → bool) (new_id : RuleDb → jsstr) (decode : FormData → jsval).
Context (Hnew : ∀ w, new_id w ∉ map (λ r, r_id (ru_row r)) (ru_rules w)).

Lemma form_action_keys f i : map action_key (map (λ a, {| ac_ownerId := uid; ac_row := a |}) (form_actions f i)) =
  map (λ n, (i, n)) (map ra_order (numbered 0 (ticked_actions f))).
Proof. unfold form_actions. by rewrite !map_map. Qed.

Lemma with_form_sound f z w : rules_sound w → rules_sound (with_form uid f (new_id w) z w).
Proof.
  intros (H1 & H2 & H3). unfold rules_sound, actions_have_rules, with_form. cbn [ru_rules ru_actions set_actions set_rules].
  rewrite !map_app. cbn [map]. split_and!.
  - apply NoDup_app. split_and!; [done| |apply NoDup_singleton]. intros x Hx ->%list_elem_of_singleton. by apply (Hnew w).
  - intros a [Ha|(b & -> & Hb)%list_elem_of_fmap]%elem_of_app; rewrite elem_of_app; [left; by apply H2|right].
    apply form_actions_rule in Hb. cbn. rewrite Hb. by apply list_elem_of_singleton.
  - rewrite form_action_keys. apply NoDup_app. split_and!; [done| |apply (NoDup_fmap_2 (λ n, (new_id w, n))), numbered_NoDup].
    intros x (a & -> & Ha)%list_elem_of_fmap (n & E & _)%list_elem_of_fmap. injection E as E _. apply H2 in Ha. rewrite E in Ha.
    by apply (Hnew w).
Qed.

Lemma rule_ids_of owner w i : i ∈ map (λ r, r_id (ru_row r)) (rules_of owner w) → i ∈ map (λ r, r_id (ru_row r)) (ru_rules w).
Proof.
  intros (r & -> & Hr)%list_elem_of_fmap. apply list_elem_of_fmap. exists r. split; [done|].
  apply list_elem_of_In, List.filter_In in Hr as [Hr _]. by apply list_elem_of_In.
Qed.

Lemma with_form_apart f z w : apart uid w (with_form uid f (new_id w) z w).
Proof.
  intros owner Ho. assert (rules_of owner (with_form uid f (new_id w) z w) = rules_of owner w) as E.
  { unfold with_form, rules_of. cbn [ru_rules set_actions set_rules]. rewrite List.filter_app. cbn [List.filter].
    unfold own_rule at 2. cbn [ru_ownerId]. by rewrite bool_decide_false, app_nil_r by done. }
  split; [done|]. unfold actions_under. rewrite E. unfold with_form. cbn [ru_actions set_actions set_rules]. rewrite filter_app.
  set (P := λ a, _). rewrite (filter_none P (map _ _)), app_nil_r; [done|]. intros a (b & -> & Hb)%list_elem_of_fmap Ha.
  unfold P in Ha. cbn in Ha. rewrite (form_actions_rule _ _ _ Hb) in Ha. apply rule_ids_of in Ha. by apply (Hnew w).
Qed.

(** A filter on owners does not see an update or a deletion of the user's rows. *)
Lemma rules_of_delete owner p w :
  owner ≠ uid → (∀ r, p r = true → own_rule uid r = true) → rules_of owner (delete_rules p w) = rules_of owner w.
Proof.
  intros Ho Hp. unfold rules_of, delete_rules. cbn [ru_rules set_actions set_rules].
  induction (ru_rules w) as [|r l IH]; [done|]. cbn [List.filter]. destruct (p r) eqn:E; cbn [negb List.filter]; rewrite IH; [|done].
  apply Hp in E. unfold own_rule in E |- *. apply bool_decide_eq_true in E. by rewrite E, bool_decide_false by congruence.
Qed.

Lemma delete_sound p w : rules_sound w → rules_sound (delete_rules p w).
Proof.
  intros (H1 & H2 & H3). unfold rules_sound, delete_rules, actions_have_rules. cbn [ru_rules ru_actions set_actions set_rules]. split_and!.
  - eapply sublist_NoDup; [exact H1|]. apply fmap_sublist. clear. induction (ru_rules w) as [|r l IH]; [constructor|].
    cbn [List.filter]. destruct (negb (p r)); by constructor.
  - intros a [Hgone Ha]%list_elem_of_filter. apply H2 in Ha as (r & E & Hr)%list_elem_of_fmap. apply list_elem_of_fmap. exists r. split; [done|].
    apply list_elem_of_In, List.filter_In. split; [by apply list_elem_of_In|]. destruct (p r) eqn:Ep; [|done]. exfalso. apply Hgone. rewrite E.
    apply list_elem_of_fmap. exists r. split; [done|]. apply list_elem_of_In, List.filter_In. split; [by apply list_elem_of_In|done].
  - eapply sublist_NoDup; [exact H3|]. apply fmap_sublist, sublist_filter.
Qed.

(** A rule of another user is not deleted, as its id is not that of a rule that is. *)
Lemma delete_apart p w :
  rules_sound w → (∀ r, p r = true → own_rule uid r = true) → apart uid w (delete_rules p w).
Proof.
  intros (H1 & _) Hp owner Ho. pose proof (rules_of_delete owner p w Ho Hp) as E. split; [done|]. unfold actions_under. rewrite E.
  unfold delete_rules. cbn [ru_actions set_actions set_rules]. rewrite list_filter_filter. apply list_filter_iff. intros a. split; [tauto|].
  intros Ha. split; [done|]. intros (r & Er & Hr)%list_elem_of_fmap. apply list_elem_of_In, List.filter_In in Hr as [Hr Hpr].
  apply list_elem_of_fmap in Ha as (r' & Er' & Hr'). apply list_elem_of_In, List.filter_In in Hr' as [Hr' Hown].
  apply Hp in Hpr. unfold own_rule in Hpr, Hown. bool_to_prop. assert (r = r') as ->; [|congruence].
  apply (NoDup_map_inj (λ r, r_id (ru_row r)) (ru_rules w)); [done|by apply list_elem_of_In|by apply list_elem_of_In|congruence].
Qed.

Lemma toggle_ids p b w : map (λ r, r_id (ru_row r)) (update_where p (with_enabled b) (ru_rules w)) = map (λ r, r_id (ru_row r)) (ru_rules w).
Proof. unfold update_where. rewrite map_map. apply map_ext. intros r. by destruct (p r). Qed.

Lemma toggle_sound p b w : rules_sound w → rules_sound (set_rules (update_where p (with_enabled b)) w).
Proof. unfold rules_sound, actions_have_rules. cbn [ru_rules ru_actions set_rules]. by rewrite toggle_ids. Qed.

Lemma toggle_apart p b w :
  (∀ r, p r = true → own_rule uid r = true) → apart uid w (set_rules (update_where p (with_enabled b)) w).
Proof.
  intros Hp owner Ho. assert (rules_of owner (set_rules (update_where p (with_enabled b)) w) = rules_of owner w) as E.
  { unfold rules_of. cbn [ru_rules set_rules]. induction (ru_rules w) as [|r l IH]; [done|]. unfold update_where in *. cbn [map List.filter].
    rewrite IH. destruct (p r) eqn:E; [|done]. apply Hp in E. unfold own_rule in E |- *. bool_to_prop. cbn [with_enabled ru_ownerId].
    rewrite !bool_decide_false by congruence. done. }
  split; [done|]. unfold actions_under. by rewrite E.
Qed.

(** C17: Users stay apart.  Whatever a user does with the form and the list of rules, the ids of rules stay different, every
    action keeps its rule and a number of its own in it, and the rules of every other user and the actions
    under them stay as they are. *)
Theorem rules_stay_apart w w' (Hstep : rule_step is_uuid new_id decode uid w w') (Hw : rules_sound w) :
  rules_sound w' ∧ apart uid w w'.
Proof.
  destruct Hstep as [f w|f w|f w].
  - rewrite createRule_eq. destruct (buildRulePayloadFromFormData f).2; [done|].
    destruct (_ && _), (int4 (asNumber (form_get "priority"%js f))) as [z|]; try done. split; [by apply with_form_sound|apply with_form_apart].
  - unfold deleteRule, handleAction, catch. destruct (negb _); [done|]. unfold rls, uuid_or_throw.
    destruct (is_uuid _); [|done]. cbn -[delete_rules]. split; [by apply delete_sound|]. apply delete_apart; [done|]. intros r H. by bool_to_prop.
  - unfold toggleRule, handleAction, catch, rls, uuid_or_throw. destruct (is_uuid _); [|done]. unfold mbind, proc_bind, read, or_throw. cbn.
    destruct (List.find _ (ru_rules w)) as [rule|]; [|done]. cbn -[update_where].
    split; [by apply toggle_sound|]. apply toggle_apart. intros r H. by bool_to_prop.
Qed.
End Steps.

(** ** Examples *)

Definition wr_new_id (w : RuleDb) : jsstr := "n"%js ++ concat (map (λ r, r_id (ru_row r)) (ru_rules w)).

Lemma wr_new_id_fresh w : wr_new_id w ∉ map (λ r, r_id (ru_row r)) (ru_rules w).
Proof. apply longer_fresh. Qed.

Definition wr_tables : RuleDb := {| ru_rules := []; ru_actions := []; ru_identities := ["i1"%js]; ru_labels := [] |}.
Definition wr_lines (l : list (jsstr * jsstr)) : FormData := map (λ kv, (kv.1, VStr kv.2)) l.
Definition wr_form : FormData := wr_lines [("identityId", "i1"); ("name", "Shop"); ("priority", "5"); ("enabled", "true");
  ("from", " Ann@SHOP.com "); ("sizeValue", "1"); ("sizeUnit", "KB"); ("markRead", "true"); ("applyLabel", "true"); ("labelId", "work")]%js.
Abbreviation wr_create uid := (createRule uid (λ _, true) wr_new_id).

Lemma wr_sound : rules_sound wr_tables.
Proof. split_and!; [constructor|intros a Ha; by apply not_elem_of_nil in Ha|constructor]. Defined.

Lemma form_becomes_rule_witness :
  ∃ w' rule, wr_create "u1"%js wr_form wr_tables = (w', Done (RuleDone (Some (r_id rule)))) ∧
    rule_matches no_regexp ex_message rule = true ∧
    map (λ a, (a_actionType a, a_labelId a)) (actions_of (worker_view w' ex_db) (r_id rule)) =
      [("mark_read"%js, None); ("add_label"%js, Some "work"%js)].
Proof.
  destruct (form_becomes_rule "u1"%js (λ _, true) wr_new_id no_regexp wr_form wr_tables ex_db 5 eq_refl eq_refl ltac:(left) eq_refl
    ltac:(left) eq_refl (wr_new_id_fresh _) (proj1 (proj2 wr_sound))) as (w' & rule & E & _ & _ & _ & _ & Hm & Ha & _).
  exists w', rule. split_and!; [done|by rewrite Hm|by rewrite Ha].
Defined.

Lemma rules_stay_apart_witness :
  let w := (wr_create "u1"%js wr_form wr_tables).1 in
  rules_sound w ∧ let w' := (wr_create "eve"%js wr_form w).1 in rules_sound w' ∧ apart "eve"%js w w' ∧ length (rules_of "u1"%js w') = 1.
Proof.
  assert (rules_sound (wr_create "u1"%js wr_form wr_tables).1) as Hw.
  { apply (rules_stay_apart "u1"%js (λ _, true) wr_new_id (λ _, VUndef) wr_new_id_fresh wr_tables); [apply step_create|exact wr_sound]. }
  split; [exact Hw|]. cbv zeta.
  destruct (rules_stay_apart "eve"%js (λ _, true) wr_new_id (λ _, VUndef) wr_new_id_fresh _ _ (step_create _ _ _ _ wr_form _) Hw) as [H1 H2].
  split_and!; [exact H1|exact H2|]. rewrite (proj1 (H2 "u1"%js ltac:(done))). reflexivity.
Defined.

(** The worker asks for the identity and not for the owner: the rule of a stranger moves Ann's mail to the trash. *)
Example rule_of_a_stranger_runs :
  let w := (wr_create "eve"%js (wr_lines [("identityId", "i1"); ("name", "Hello"); ("priority", "0"); ("enabled", "true");
    ("from", "@"); ("trash", "true")]%js) wr_tables).1 in
  map job_name (MailDb.jobs (ex_run (worker_view w ex_db)).1) = ["mail:move"%js; "refresh-thread"%js].
Proof. vm_compute. reflexivity. Qed.

(** Two rules of one name: the key that was unique is not there any more. *)
Example names_repeat :
  let w := (wr_create "u1"%js wr_form wr_tables).1 in
  let (w', o) := wr_create "u1"%js wr_form w in (map ru_name (ru_rules w'), o) = (["Shop"%js; "Shop"%js], Done (RuleDone (Some "nn"%js))).
Proof. vm_compute. reflexivity. Qed.

(** What is left of the unique keys is that of the actions, and the answer speaks of the name. *)
Example repeated_order_is_called_a_name :
  let p := (buildRulePayloadFromFormData wr_form).1 in
  let twice := {| p_identityId := p_identityId p; p_name := p_name p; p_priority := p_priority p; p_enabled := true; p_match := p_match p;
                  p_actions := p_actions p ++ p_actions p |} in
  createMailRule "u1"%js (λ _, true) wr_new_id twice wr_tables = (wr_tables, Done name_taken).
Proof. vm_compute. reflexivity. Qed.

(** A size beyond the numbers is stored as null, which counts as 0: the rule for huge messages matches every message
    that has a size. *)
Example huge_size_is_no_size :
  let w := (wr_create "u1"%js (wr_lines [("identityId", "i1"); ("name", "Huge"); ("priority", "0"); ("enabled", "true");
    ("sizeValue", "1e308"); ("flag", "true")]%js) wr_tables).1 in
  map (λ r, rule_matches no_regexp ex_message (ru_row r)) (ru_rules w) = [true].
Proof. vm_compute. reflexivity. Qed.

(** A fraction passes the check of the priority and is refused by the column. *)
Example fraction_fails_late :
  let f := wr_lines [("identityId", "i1"); ("name", "Half"); ("priority", "1.5"); ("from", "@"); ("trash", "true")]%js in
  (buildRulePayloadFromFormData f).2 = None ∧ wr_create "u1"%js f wr_tables = (wr_tables, Done RuleError).
Proof. vm_compute. done. Qed.
