(* ===== verification/WebLabels.v ===== *)
(** * Labels of threads and contacts ([apps/web/lib/actions/labels.ts])

    The labels of a user form trees; threads and contacts carry them.  A query sees the rows of the signed-in
    user, references and unique keys see all rows.  [slugify], [decode-formdata], the schema made of the table
    and the collation of names are parameters. *)

From stdpp Require Import base list.
From S2P Require Import Prelude JsString JsNumber JsValue MailDb MailActions.
From S2P Require Import Proc.

(** ** Tables *)

Record LabelEntity := {
  lb_id : jsstr; lb_ownerId : jsstr; lb_name : jsstr; lb_slug : jsstr; lb_parentId : option jsstr; lb_colorBg : option jsstr;
  lb_isSystem : bool; lb_scope : jsstr; lb_updatedAt : Z;
}.

Record ContactLabelRow := { cl_contactId : jsstr; cl_labelId : jsstr; cl_ownerId : jsstr }.

(** [known_threads], [known_boxes], [known_contacts]: the ids references can name. *)
Record LabelDb := {
  lt_labels : list LabelEntity; lt_threads : list ThreadLabelRow; lt_contacts : list ContactLabelRow;
  lt_rows : list MailboxThreadRow; known_threads : list jsstr; known_boxes : list jsstr; known_contacts : list jsstr;
}.

Definition set_labels f s : LabelDb :=
  {| lt_labels := f (lt_labels s); lt_threads := lt_threads s; lt_contacts := lt_contacts s; lt_rows := lt_rows s;
     known_threads := known_threads s; known_boxes := known_boxes s; known_contacts := known_contacts s |}.
Definition set_thread_labels f s : LabelDb :=
  {| lt_labels := lt_labels s; lt_threads := f (lt_threads s); lt_contacts := lt_contacts s; lt_rows := lt_rows s;
     known_threads := known_threads s; known_boxes := known_boxes s; known_contacts := known_contacts s |}.
Definition set_contact_labels f s : LabelDb :=
  {| lt_labels := lt_labels s; lt_threads := lt_threads s; lt_contacts := f (lt_contacts s); lt_rows := lt_rows s;
     known_threads := known_threads s; known_boxes := known_boxes s; known_contacts := known_contacts s |}.

Abbreviation labelling := (prog LabelDb).

(** What the schema is given, and what it gives for a new row. *)
Record LabelInput := {
  li_name : jsval; li_colorBg : jsval; li_scope : jsval; li_slug : jsstr; li_parentId : option jsstr; li_isSystem : option bool;
}.
Record LabelCreate := {
  lc_name : jsstr; lc_slug : jsstr; lc_scope : option jsstr; lc_parentId : option jsstr; lc_colorBg : option jsstr; lc_isSystem : option bool;
}.

(** The answers; [Failed] is that of an error. *)
Inductive LabelAnswer := Ok | OkLabel (l : LabelEntity) | OkFavorite (isFavorite : bool) | Failed.

Definition handleAction (p : labelling LabelAnswer) : labelling LabelAnswer := catch p (mret Failed).

Definition label_key (l : LabelEntity) : jsstr * jsstr * jsstr := (lb_ownerId l, lb_scope l, lb_slug l).
Definition thread_label_key (r : ThreadLabelRow) : jsstr * jsstr * jsstr := (tl_threadId r, tl_mailboxId r, tl_labelId r).
Definition contact_label_key (r : ContactLabelRow) : jsstr * jsstr := (cl_contactId r, cl_labelId r).
Definition label_ids (s : LabelDb) : list jsstr := map lb_id (lt_labels s).

Section User.
Context (uid : jsstr) (is_uuid : jsstr → bool) (new_id : LabelDb → jsstr) (now : Z).
Context (slugify : jsstr → jsstr) (parse : LabelInput → option LabelCreate) (name_compare : jsstr → jsstr → Z).

(** A transaction: an error takes everything back. *)
Definition rls {A} (p : labelling A) : labelling A := λ s, match p s with (s', Done a) => (s', Done a) | (_, Threw) => (s, Threw) end.

Definition uuid_or_throw (i : jsstr) : labelling unit := if is_uuid i then mret tt else throw.

Definition own_label (l : LabelEntity) : bool := bool_decide (lb_ownerId l = uid).
Definition own_thread_label (r : ThreadLabelRow) : bool := bool_decide (tl_ownerId r = uid).
Definition own_contact_label (r : ContactLabelRow) : bool := bool_decide (cl_ownerId r = uid).

(** [INSERT INTO labels] *)
Definition new_label (c : LabelCreate) (s : LabelDb) : LabelEntity := {|
  lb_id := new_id s; lb_ownerId := uid; lb_name := lc_name c; lb_slug := lc_slug c; lb_parentId := lc_parentId c;
  lb_colorBg := lc_colorBg c; lb_isSystem := default false (lc_isSystem c); lb_scope := default "thread"%js (lc_scope c);
  lb_updatedAt := now |}.

Definition parent_known (p : option jsstr) (s : LabelDb) : bool :=
  match p with Some p => bool_decide (p ∈ label_ids s) | None => true end.

Definition insert_label (c : LabelCreate) : labelling LabelEntity :=
  s ← read;
  let l := new_label c s in
  if bool_decide (label_key l ∈ map label_key (lt_labels s)) || negb (parent_known (lb_parentId l) s) then throw
  else _ ← modify (set_labels (λ ls, ls ++ [l])); mret l.

(** ** Lists *)

Definition fetchLabels (scope : option jsstr) (s : LabelDb) : list LabelEntity :=
  let selectedScope := opt_or scope "thread"%js in
  sort_by (λ a b, name_compare (lb_name a) (lb_name b))
    (List.filter (λ l, own_label l && bool_decide (lb_scope l = selectedScope)) (lt_labels s)).

(** [countsById.get(id) ?? 0] *)
Definition count_of {A} (key : A → jsstr) (rows : list A) (i : jsstr) : nat :=
  default 0 (length <$> jm_get i (group_by key rows)).

Definition fetchLabelsWithCounts (s : LabelDb) : list (LabelEntity * nat) :=
  map (λ l, (l, count_of tl_labelId (List.filter own_thread_label (lt_threads s)) (lb_id l))) (fetchLabels (Some "thread"%js) s).

Definition fetchContactLabelsWithCounts (s : LabelDb) : list (LabelEntity * nat) :=
  map (λ l, (l, count_of cl_labelId (List.filter own_contact_label (lt_contacts s)) (lb_id l))) (fetchLabels (Some "contact"%js) s).

(** An inner join with the labels. *)
Definition with_label {A} (labelId : A → jsstr) (s : LabelDb) (rows : list A) : list (A * LabelEntity) :=
  flat_map (λ r, map (λ l, (r, l)) (List.filter (λ l, own_label l && bool_decide (lb_id l = labelId r)) (lt_labels s))) rows.

Definition fetchMailboxThreadLabels (threads : list MailboxThreadRow) (s : LabelDb) : jsmap jsstr (list (ThreadLabelRow * LabelEntity)) :=
  let threadIds := map mt_threadId threads in
  match threadIds with
  | [] => []
  | _ => group_by (λ x, tl_threadId x.1)
           (with_label tl_labelId s (List.filter (λ r, own_thread_label r && bool_decide (tl_threadId r ∈ threadIds)) (lt_threads s)))
  end.

Definition fetchContactLabelsByContactIds (contactIds : list jsstr) (s : LabelDb) : jsmap jsstr (list (ContactLabelRow * LabelEntity)) :=
  match contactIds with
  | [] => []
  | _ => group_by (λ x, cl_contactId x.1)
           (with_label cl_labelId s (List.filter (λ r, own_contact_label r && bool_decide (cl_contactId r ∈ contactIds)) (lt_contacts s)))
  end.

(** The rows of threads that carry a label of the slug, once for each such label. *)
Definition labelled_rows (identityPublicId mailboxSlug labelSlug : jsstr) (s : LabelDb) : list MailboxThreadRow :=
  flat_map (λ r, map (λ _, r)
    (List.filter (λ x : ThreadLabelRow * LabelEntity, bool_decide (lb_slug x.2 = labelSlug))
      (with_label tl_labelId s
        (List.filter (λ t, own_thread_label t && bool_decide (tl_threadId t = mt_threadId r) && bool_decide (tl_mailboxId t = mt_mailboxId r))
          (lt_threads s)))))
    (List.filter (in_slug uid identityPublicId mailboxSlug) (lt_rows s)).

Definition fetchMailboxThreadsByLabel (identityPublicId mailboxSlug labelSlug : jsstr) (page : Z) (s : LabelDb) :
    list MailboxThreadRow * nat :=
  let rows := labelled_rows identityPublicId mailboxSlug labelSlug s in
  (page_of page (sort_by (λ a b, mt_lastActivityAt b - mt_lastActivityAt a)%Z rows), length rows).

(** ** Changes *)

Definition addNewLabel (name color scope : jsval) (parentId : jsval) : labelling LabelAnswer :=
  handleAction (
    payload ← or_throw (parse {| li_name := name; li_colorBg := color; li_scope := scope; li_slug := slugify (js_to_string name);
      li_parentId := if js_truthy parentId then Some (js_to_string parentId) else None; li_isSystem := None |});
    l ← rls (insert_label payload);
    mret (OkLabel l)).

Definition addLabelToThread (threadId mailboxId labelId : jsstr) : labelling LabelAnswer :=
  handleAction (
    _ ← rls (
      s ← read;
      let row := {| tl_threadId := threadId; tl_mailboxId := mailboxId; tl_labelId := labelId; tl_ownerId := uid |} in
      if bool_decide (threadId ∈ known_threads s) && bool_decide (mailboxId ∈ known_boxes s) && bool_decide (labelId ∈ label_ids s) &&
         negb (bool_decide (thread_label_key row ∈ map thread_label_key (lt_threads s)))
      then modify (set_thread_labels (λ l, l ++ [row]))
      else throw);
    mret Ok).

Definition removeLabelFromThread (threadId mailboxId labelId : jsstr) : labelling LabelAnswer :=
  handleAction (
    _ ← rls (
      _ ← uuid_or_throw threadId; _ ← uuid_or_throw mailboxId; _ ← uuid_or_throw labelId;
      modify (set_thread_labels (List.filter (λ r,
        negb (own_thread_label r && bool_decide (thread_label_key r = (threadId, mailboxId, labelId)))))));
    mret Ok).

Definition insert_contact_label (contactId labelId : jsstr) : labelling unit :=
  s ← read;
  let row := {| cl_contactId := contactId; cl_labelId := labelId; cl_ownerId := uid |} in
  if bool_decide (contactId ∈ known_contacts s) && bool_decide (labelId ∈ label_ids s) &&
     negb (bool_decide (contact_label_key row ∈ map contact_label_key (lt_contacts s)))
  then modify (set_contact_labels (λ l, l ++ [row]))
  else throw.

(** The own row of a contact and a label. *)
Definition contact_label_of (contactId labelId : jsstr) (r : ContactLabelRow) : bool :=
  own_contact_label r && bool_decide (contact_label_key r = (contactId, labelId)).

Definition delete_contact_label (contactId labelId : jsstr) : labelling unit :=
  modify (set_contact_labels (List.filter (λ r, negb (contact_label_of contactId labelId r)))).

Definition addLabelToContact (contactId labelId : jsstr) : labelling LabelAnswer :=
  handleAction (_ ← rls (insert_contact_label contactId labelId); mret Ok).

Definition removeLabelFromContact (contactId labelId : jsstr) : labelling LabelAnswer :=
  handleAction (_ ← rls (_ ← uuid_or_throw contactId; _ ← uuid_or_throw labelId; delete_contact_label contactId labelId); mret Ok).

(** [DELETE FROM labels]: the labels below go too, with the rows that name them, whoever owns them. *)
Definition delete_labels (p : LabelEntity → bool) (s : LabelDb) : LabelDb :=
  let gone := cascade lb_id lb_parentId (length (lt_labels s)) (lt_labels s) (map lb_id (List.filter p (lt_labels s))) in
  set_contact_labels (filter (λ r, cl_labelId r ∉ gone))
    (set_thread_labels (filter (λ r, tl_labelId r ∉ gone)) (set_labels (filter (λ l, lb_id l ∉ gone)) s)).

Definition has_label_id (i : jsstr) (l : LabelEntity) : bool := own_label l && bool_decide (lb_id l = i).

Definition deleteLabel (id : jsstr) : labelling LabelAnswer :=
  handleAction (_ ← rls (_ ← uuid_or_throw id; modify (delete_labels (has_label_id id))); mret Ok).

Definition with_columns (name : jsstr) (parentId : option jsstr) (color : jsstr) (l : LabelEntity) : LabelEntity :=
  {| lb_id := lb_id l; lb_ownerId := lb_ownerId l; lb_name := name; lb_slug := lb_slug l; lb_parentId := parentId;
     lb_colorBg := Some color; lb_isSystem := lb_isSystem l; lb_scope := lb_scope l; lb_updatedAt := now |}.

(** The reference is checked when a row changes. *)
Definition updateLabel (id name : jsstr) (parentId : option jsstr) (color : jsstr) : labelling LabelAnswer :=
  handleAction (
    _ ← rls (
      _ ← uuid_or_throw id;
      _ ← (match parentId with Some p => uuid_or_throw p | None => mret tt end);
      s ← read;
      if existsb (has_label_id id) (lt_labels s) && negb (parent_known parentId s) then throw
      else modify (set_labels (update_where (has_label_id id) (with_columns name parentId color))));
    mret Ok).

(** The throw is not caught. *)
Definition getOrCreateSystemLabel (name scope : jsstr) (colorBg : option jsstr) : labelling LabelEntity :=
  s ← read;
  match List.find (λ l, own_label l && bool_decide (lb_slug l = slugify name) && bool_decide (lb_scope l = scope)) (lt_labels s) with
  | Some existing => mret existing
  | None =>
      payload ← or_throw (parse {| li_name := VStr name; li_colorBg := nullable colorBg; li_scope := VStr scope; li_slug := slugify name;
        li_parentId := None; li_isSystem := Some true |});
      rls (insert_label payload)
  end.

Definition favorite_label : LabelCreate := {|
  lc_name := "Favorite"%js; lc_slug := "favorite"%js; lc_scope := Some "contact"%js; lc_parentId := None; lc_colorBg := Some "#eab308"%js;
  lc_isSystem := Some true |}.

Definition is_favorite_label (l : LabelEntity) : bool :=
  own_label l && bool_decide (lb_slug l = "favorite"%js) && bool_decide (lb_scope l = "contact"%js).

Definition toggleFavoriteContact (contactId : jsstr) : labelling LabelAnswer :=
  handleAction (
    s ← read;
    favorite ← (match List.find is_favorite_label (lt_labels s) with
                | Some l => mret l
                | None => rls (insert_label favorite_label)
                end);
    existing ← rls (_ ← uuid_or_throw contactId; s ← read; mret (List.find (contact_label_of contactId (lb_id favorite)) (lt_contacts s)));
    match existing with
    | Some _ => _ ← rls (delete_contact_label contactId (lb_id favorite)); mret (OkFavorite false)
    | None => _ ← rls (insert_contact_label contactId (lb_id favorite)); mret (OkFavorite true)
    end).
End User.
