(* ===== verification/WebLabelsSpecs.v ===== *)
(** * The tables of labels stay sound, whatever users do *)

From stdpp Require Import base list.
From S2P Require Import Prelude JsString JsNumber JsValue MailDb MailActions WebLabels.
From S2P Require Import Proc.

(** Every label has an id and a slug of its own for its owner and scope, and a parent that exists; every row
    names a label that exists, once. *)
Record labels_sound (s : LabelDb) : Prop := {
  ls_ids : NoDup (label_ids s);
  ls_keys : NoDup (map label_key (lt_labels s));
  ls_parents l p : l ∈ lt_labels s → lb_parentId l = Some p → p ∈ label_ids s;
  ls_thread_keys : NoDup (map thread_label_key (lt_threads s));
  ls_threads r : r ∈ lt_threads s → tl_labelId r ∈ label_ids s;
  ls_contact_keys : NoDup (map contact_label_key (lt_contacts s));
  ls_contacts r : r ∈ lt_contacts s → cl_labelId r ∈ label_ids s;
}.

Lemma NoDup_snoc_map {A B} (f : A → B) l x : NoDup (map f l) → f x ∉ map f l → NoDup (map f (l ++ [x])).
Proof. intros Hl Hx. rewrite map_app. apply NoDup_app. split_and!; [done| |apply NoDup_singleton]. by intros y Hy ->%list_elem_of_singleton. Qed.

Lemma elem_of_bool_filter {A} (p : A → bool) l x : x ∈ List.filter p l ↔ x ∈ l ∧ p x = true.
Proof. by rewrite !list_elem_of_In, List.filter_In. Qed.

Lemma NoDup_map_bool_filter {A B} (f : A → B) (p : A → bool) l : NoDup (map f l) → NoDup (map f (List.filter p l)).
Proof.
  induction l as [|x l IH]; [done|]. cbn [map List.filter]. intros [Hx Hl]%NoDup_cons. destruct (p x); [|by apply IH]. cbn [map].
  apply NoDup_cons. split; [|by apply IH]. intros (y & E & Hy)%list_elem_of_fmap. apply elem_of_bool_filter in Hy as [Hy _].
  apply Hx. rewrite E. by apply list_elem_of_fmap_2.
Qed.

Section Sound.
Context (uid : jsstr) (is_uuid : jsstr → bool) (new_id : LabelDb → jsstr) (now : Z).
Context (slugify : jsstr → jsstr) (parse : LabelInput → option LabelCreate) (name_compare : jsstr → jsstr → Z).
Context (Hnew : ∀ s, new_id s ∉ label_ids s).

Abbreviation keeps_sound := (steps (preserving labels_sound)).

Lemma rls_sound {A} (p : labelling A) : keeps_sound p → keeps_sound (rls p).
Proof. intros Hp s Hs. unfold rls. pose proof (Hp s Hs) as H. by destruct (p s) as [s' [a|]]. Qed.

Lemma uuid_sound i : keeps_sound (uuid_or_throw is_uuid i).
Proof. unfold uuid_or_throw. run_steps. Qed.

Lemma insert_label_sound c : keeps_sound (insert_label uid new_id now c).
Proof.
  intros s Hs. unfold insert_label, mbind, proc_bind, read. cbv beta iota zeta. set (l := new_label _ _ _ _ _).
  destruct (bool_decide _) eqn:Ek; [done|]. destruct (parent_known _ s) eqn:Ep; [|done]. cbn. bool_to_prop. destruct Hs.
  assert (∀ i, i ∈ label_ids s → i ∈ label_ids (set_labels (λ ls, ls ++ [l]) s)) as Hmono.
  { intros i Hi. unfold label_ids. cbn. rewrite map_app. by apply elem_of_app; left. }
  split; cbn [lt_labels lt_threads lt_contacts set_labels]; auto.
  - apply NoDup_snoc_map; [done|apply Hnew].
  - by apply NoDup_snoc_map.
  - intros l' p [Hl|Hl%list_elem_of_singleton]%elem_of_app Hp; [by eapply Hmono, ls_parents0|]. subst l'. apply Hmono.
    unfold parent_known in Ep. rewrite Hp in Ep. by bool_to_prop.
Qed.

Lemma thread_labels_sound f s :
  labels_sound s → NoDup (map thread_label_key (f (lt_threads s))) → (∀ r, r ∈ f (lt_threads s) → tl_labelId r ∈ label_ids s) →
  labels_sound (set_thread_labels f s).
Proof. intros [] H1 H2. by split. Qed.

Lemma contact_labels_sound f s :
  labels_sound s → NoDup (map contact_label_key (f (lt_contacts s))) → (∀ r, r ∈ f (lt_contacts s) → cl_labelId r ∈ label_ids s) →
  labels_sound (set_contact_labels f s).
Proof. intros [] H1 H2. by split. Qed.

Lemma delete_contact_label_sound c l : keeps_sound (delete_contact_label uid c l).
Proof.
  intros s Hs. apply contact_labels_sound; [done|apply NoDup_map_bool_filter, Hs|]. intros r [Hr _]%elem_of_bool_filter. by apply Hs.
Qed.

Lemma insert_contact_label_sound c l : keeps_sound (insert_contact_label uid c l).
Proof.
  intros s Hs. unfold insert_contact_label, mbind, proc_bind, read. cbv beta iota zeta. set (row := Build_ContactLabelRow _ _ _).
  destruct (_ && _) eqn:E; [|done]. bool_to_prop. apply contact_labels_sound; [done|by apply NoDup_snoc_map; [apply Hs|]|].
  intros r [Hr|Hr%list_elem_of_singleton]%elem_of_app; [by apply Hs|by subst r].
Qed.

Lemma delete_labels_sound p s : labels_sound s → labels_sound (delete_labels p s).
Proof.
  intros []. unfold delete_labels. set (gone := cascade _ _ _ _ _).
  assert (downwards_closed lb_id lb_parentId (lt_labels s) gone) as Hdown by apply cascade_closed.
  assert (∀ i, i ∈ label_ids s → i ∉ gone → i ∈ map lb_id (filter (λ l, lb_id l ∉ gone) (lt_labels s))) as Hleft.
  { intros i (l & -> & Hl)%list_elem_of_fmap Hi. apply list_elem_of_fmap_2, list_elem_of_filter. done. }
  split; unfold label_ids; cbn [lt_labels lt_threads lt_contacts set_labels set_thread_labels set_contact_labels].
  - by apply NoDup_map_filter.
  - by apply NoDup_map_filter.
  - intros l q [Hg Hl]%list_elem_of_filter Hq. apply Hleft; [by eapply ls_parents0|]. intros Hin. by apply Hg, (Hdown l q).
  - by apply NoDup_map_filter.
  - intros r [Hg Hr]%list_elem_of_filter. apply Hleft; [by apply ls_threads0|done].
  - by apply NoDup_map_filter.
  - intros r [Hg Hr]%list_elem_of_filter. apply Hleft; [by apply ls_contacts0|done].
Qed.
Lemma update_columns {B} (h : LabelEntity → B) p name parentId color l :
  (∀ r, h (with_columns now name parentId color r) = h r) → map h (update_where p (with_columns now name parentId color) l) = map h l.
Proof. intros Hh. unfold update_where. rewrite map_map. apply map_ext. intros r. by destruct (p r). Qed.

Lemma update_label_sound p name parentId color s :
  labels_sound s → (existsb p (lt_labels s) = true → parent_known parentId s = true) →
  labels_sound (set_labels (update_where p (with_columns now name parentId color)) s).
Proof.
  intros [] Hp. assert (label_ids (set_labels (update_where p (with_columns now name parentId color)) s) = label_ids s) as Hids by
    by apply update_columns.
  split; rewrite ?Hids; cbn [lt_labels lt_threads lt_contacts set_labels]; try done; [by rewrite update_columns|].
  intros l q (r & -> & Hr)%list_elem_of_fmap Hq. destruct (p r) eqn:Epr; [|by eapply ls_parents0]. cbn in Hq. subst parentId.
  assert (existsb p (lt_labels s) = true) as He by (apply existsb_exists; exists r; by rewrite <- list_elem_of_In).
  specialize (Hp He). cbn in Hp. by bool_to_prop.
Qed.

Lemma thread_label_insert_sound t b l : keeps_sound (
  s ← read;
  let row := {| tl_threadId := t; tl_mailboxId := b; tl_labelId := l; tl_ownerId := uid |} in
  if bool_decide (t ∈ known_threads s) && bool_decide (b ∈ known_boxes s) && bool_decide (l ∈ label_ids s) &&
     negb (bool_decide (thread_label_key row ∈ map thread_label_key (lt_threads s)))
  then modify (set_thread_labels (λ l, l ++ [row])) else throw).
Proof.
  intros s Hs. unfold mbind, proc_bind, read. cbv beta iota zeta. set (row := Build_ThreadLabelRow _ _ _ _).
  destruct (_ && _) eqn:E; [|done]. bool_to_prop. apply thread_labels_sound; [done|by apply NoDup_snoc_map; [apply Hs|]|].
  intros r [Hr|Hr%list_elem_of_singleton]%elem_of_app; [by apply Hs|by subst r].
Qed.

Lemma remove_thread_label_sound (p : ThreadLabelRow → bool) : keeps_sound (modify (set_thread_labels (List.filter p))).
Proof.
  intros s Hs. apply thread_labels_sound; [done|apply NoDup_map_bool_filter, Hs|]. intros r [Hr _]%elem_of_bool_filter. by apply Hs.
Qed.

Lemma update_step_sound id name parentId color : keeps_sound (
  s ← read;
  if existsb (has_label_id uid id) (lt_labels s) && negb (parent_known parentId s) then throw
  else modify (set_labels (update_where (has_label_id uid id) (with_columns now name parentId color)))).
Proof.
  intros s Hs. unfold mbind, proc_bind, read. cbv beta iota. destruct (_ && _) eqn:E; [done|]. apply update_label_sound; [done|].
  intros He. rewrite He in E. by apply negb_false_iff in E.
Qed.
Lemma delete_step_sound p : keeps_sound (modify (delete_labels p)).
Proof. intros s Hs. by apply delete_labels_sound. Qed.
End Sound.

#[export] Hint Resolve rls_sound uuid_sound insert_label_sound delete_contact_label_sound insert_contact_label_sound thread_label_insert_sound
  remove_thread_label_sound update_step_sound delete_step_sound : webmail.

(** What a user can do with labels. *)
Inductive label_step (is_uuid : jsstr → bool) (new_id : LabelDb → jsstr) (slugify : jsstr → jsstr) (parse : LabelInput → option LabelCreate) :
    LabelDb → LabelDb → Prop :=
| do_add uid now name color scope parent s :
    label_step is_uuid new_id slugify parse s (addNewLabel uid new_id now slugify parse name color scope parent s).1
| do_label_thread uid t b l s : label_step is_uuid new_id slugify parse s (addLabelToThread uid t b l s).1
| do_unlabel_thread uid t b l s : label_step is_uuid new_id slugify parse s (removeLabelFromThread uid is_uuid t b l s).1
| do_label_contact uid c l s : label_step is_uuid new_id slugify parse s (addLabelToContact uid c l s).1
| do_unlabel_contact uid c l s : label_step is_uuid new_id slugify parse s (removeLabelFromContact uid is_uuid c l s).1
| do_delete uid i s : label_step is_uuid new_id slugify parse s (deleteLabel uid is_uuid i s).1
| do_update uid now i name p color s : label_step is_uuid new_id slugify parse s (updateLabel uid is_uuid now i name p color s).1
| do_system uid now name scope color s :
    label_step is_uuid new_id slugify parse s (getOrCreateSystemLabel uid new_id now slugify parse name scope color s).1
| do_favorite uid now c s : label_step is_uuid new_id slugify parse s (toggleFavoriteContact uid is_uuid new_id now c s).1.

(** C18: The tables of labels stay sound.  Whatever users do, in any order: ids are different, a label has a slug of its own for
    its owner and scope and its parent exists, a thread or a contact carries a label once, and only labels that
    exist; deleting a label leaves none of those below it and no row that names one of them. *)
Theorem labels_stay_sound is_uuid new_id slugify parse s s' (Hnew : ∀ s, new_id s ∉ label_ids s) (Hs : labels_sound s)
    (Hsteps : rtc (label_step is_uuid new_id slugify parse) s s') : labels_sound s'.
Proof.
  induction Hsteps as [s|s s1 s2 H _ IH]; [done|]. apply IH. revert Hs. clear IH. destruct H.
  all: match goal with |- labels_sound ?s → labels_sound (?p ?s).1 => assert (steps (preserving labels_sound) p) as Hp; [|apply Hp] end.
  all: unfold addNewLabel, addLabelToThread, removeLabelFromThread, addLabelToContact, removeLabelFromContact, deleteLabel, updateLabel,
    getOrCreateSystemLabel, toggleFavoriteContact, handleAction, or_throw.
  all: run_steps; apply rls_sound; run_steps.
Qed.

(** ** Favorites *)

Section Favorite.
Context (uid : jsstr) (is_uuid : jsstr → bool) (new_id : LabelDb → jsstr) (now : Z).

(** Whether the user sees the contact as a favorite. *)
Definition favorite (c : jsstr) (s : LabelDb) : bool :=
  match List.find (is_favorite_label uid) (lt_labels s) with
  | Some l => existsb (contact_label_of uid c (lb_id l)) (lt_contacts s)
  | None => false
  end.

(** The rows that say something else. *)
Definition others (c l : jsstr) (s : LabelDb) : list ContactLabelRow := filter (λ r, contact_label_key r ≠ (c, l)) (lt_contacts s).

Lemma find_existsb {A} (p : A → bool) l : existsb p l = match List.find p l with Some _ => true | None => false end.
Proof. induction l as [|x l IH]; [done|]. cbn. by destruct (p x). Qed.

Lemma favorite_slot s :
  List.find (is_favorite_label uid) (lt_labels s) = None →
  insert_label uid new_id now favorite_label s =
    (set_labels (λ ls, ls ++ [new_label uid new_id now favorite_label s]) s, Done (new_label uid new_id now favorite_label s)).
Proof.
  intros Hn. unfold insert_label, mbind, proc_bind, read. cbv beta iota zeta. cbn [parent_known lb_parentId new_label lc_parentId favorite_label negb].
  rewrite bool_decide_false; [done|]. intros (l & E & Hl)%list_elem_of_fmap. cbn in E. unfold label_key in E. injection E as E1 E2 E3.
  apply list_elem_of_In in Hl. pose proof (List.find_none _ _ Hn l Hl) as Hf. unfold is_favorite_label, own_label in Hf.
  rewrite !bool_decide_true in Hf by done. done.
Qed.

Lemma others_delete c l k :
  filter (λ r, contact_label_key r ≠ (c, l)) (List.filter (λ r, negb (contact_label_of uid c l r)) k) =
  filter (λ r, contact_label_key r ≠ (c, l)) k.
Proof.
  induction k as [|x k IH]; [done|]. cbn [List.filter]. rewrite (filter_cons _ x k).
  destruct (contact_label_of uid c l x) eqn:E; cbn [negb]; rewrite ?filter_cons, IH; [|done].
  unfold contact_label_of in E. bool_to_prop. by rewrite decide_False by tauto.
Qed.

Lemma none_left {A} (p : A → bool) k : existsb p (List.filter (λ r, negb (p r)) k) = false.
Proof. induction k as [|x k IH]; [done|]. cbn. destruct (p x) eqn:E; cbn; rewrite ?E; done. Qed.

(** What follows when the label is there. *)
Lemma toggle_link c l s :
  is_uuid c = true → c ∈ known_contacts s → l ∈ label_ids s →
  (∀ r, r ∈ lt_contacts s → contact_label_key r = (c, l) → cl_ownerId r = uid) →
  ∃ s', (existing ← rls (_ ← uuid_or_throw is_uuid c; s ← read; mret (List.find (contact_label_of uid c l) (lt_contacts s)));
         match existing with
         | Some _ => _ ← rls (delete_contact_label uid c l); mret (OkFavorite false)
         | None => _ ← rls (insert_contact_label uid c l); mret (OkFavorite true)
         end) s = (s', Done (OkFavorite (negb (existsb (contact_label_of uid c l) (lt_contacts s))))) ∧
    lt_labels s' = lt_labels s ∧ others c l s' = others c l s ∧
    existsb (contact_label_of uid c l) (lt_contacts s') = negb (existsb (contact_label_of uid c l) (lt_contacts s)).
Proof.
  intros Hu Hc Hl Hown. unfold rls, uuid_or_throw. rewrite Hu, find_existsb.
  unfold mbind at 1, proc_bind at 1. unfold mbind at 1, proc_bind at 1, mret at 1, proc_ret at 1. unfold mbind at 1, proc_bind at 1, read at 1.
  cbv beta iota. unfold mret at 1, proc_ret at 1. cbv beta iota. destruct (List.find _ (lt_contacts s)) as [r|] eqn:Ef.
  - eexists. split; [reflexivity|]. split_and!; [done|apply others_delete|apply none_left].
  - unfold insert_contact_label, mbind, proc_bind, read. cbv beta iota zeta.
    set (row := {| cl_contactId := c; cl_labelId := l; cl_ownerId := uid |}).
    assert (contact_label_key row ∉ map contact_label_key (lt_contacts s)) as Hk.
    { intros (r & E & Hr)%list_elem_of_fmap. assert (contact_label_of uid c l r = true) as Ht; [|].
      - unfold contact_label_of, own_contact_label. by rewrite (Hown r Hr), <- E, !bool_decide_true by done.
      - apply list_elem_of_In in Hr. by rewrite (List.find_none _ _ Ef r Hr) in Ht. }
    rewrite !bool_decide_true, bool_decide_false by done. eexists. split; [reflexivity|]. split_and!; [done| |].
    + unfold others. cbn [lt_contacts set_contact_labels]. rewrite filter_app, filter_cons, decide_False, filter_nil, app_nil_r by (intros H; by apply H).
      done.
    + cbn [lt_contacts set_contact_labels negb]. rewrite existsb_app. cbn [existsb]. unfold contact_label_of at 2, own_contact_label.
      rewrite !bool_decide_true by done. by rewrite orb_true_r.
Qed.

(** A click on the star of a contact turns it over: the label is made when the user has none, the answer says what the user now
    sees, and no other row of a contact changes. *)
Theorem toggleFavoriteContact_spec c s (Hs : labels_sound s) (Hc : c ∈ known_contacts s) (Hu : is_uuid c = true)
    (Hown : ∀ r l, r ∈ lt_contacts s → l ∈ lt_labels s → is_favorite_label uid l = true → contact_label_key r = (c, lb_id l) → cl_ownerId r = uid) :
  (∀ s, new_id s ∉ label_ids s) →
  ∃ s' fav, toggleFavoriteContact uid is_uuid new_id now c s = (s', Done (OkFavorite (negb (favorite c s)))) ∧
    favorite c s' = negb (favorite c s) ∧ List.find (is_favorite_label uid) (lt_labels s') = Some fav ∧
    others c (lb_id fav) s' = others c (lb_id fav) s.
Proof.
  intros Hnew. unfold toggleFavoriteContact, handleAction, catch, favorite. unfold mbind at 1, proc_bind at 1, read at 1. cbv beta iota.
  destruct (List.find (is_favorite_label uid) (lt_labels s)) as [l|] eqn:El.
  - assert (l ∈ lt_labels s ∧ is_favorite_label uid l = true) as [Hl Hf] by (apply List.find_some in El; by rewrite list_elem_of_In).
    destruct (toggle_link c (lb_id l) s Hu Hc) as (s' & E & E1 & E2 & E3); [by apply list_elem_of_fmap_2|intros r Hr Ek; by apply (Hown r l)|].
    exists s', l. unfold mbind at 1, proc_bind at 1, mret at 1, proc_ret at 1. cbv beta iota. rewrite E. by rewrite E1, El.
  - pose proof (favorite_slot s El) as Es. set (l := new_label _ _ _ _ s) in Es. set (s1 := set_labels _ s) in Es.
    assert (∀ r, r ∈ lt_contacts s1 → contact_label_key r ≠ (c, lb_id l)) as Hno.
    { intros r Hr Ek. assert (lb_id l ∈ label_ids s) as Hin; [|by apply (Hnew s)]. assert (cl_labelId r = lb_id l) as <- by (by injection Ek). by apply Hs. }
    destruct (toggle_link c (lb_id l) s1 Hu Hc) as (s' & E & E1 & E2 & E3);
      [unfold label_ids; cbn; rewrite map_app; apply elem_of_app; right; by left|intros r Hr Ek; by destruct (Hno r Hr)|].
    assert (existsb (contact_label_of uid c (lb_id l)) (lt_contacts s1) = false) as Hx.
    { apply not_true_is_false. intros (r & Hr & Ht)%existsb_exists. apply list_elem_of_In in Hr. unfold contact_label_of in Ht. bool_to_prop.
      by destruct (Hno r Hr). }
    assert (List.find (is_favorite_label uid) (lt_labels s1) = Some l) as Ef.
    { cbn [lt_labels s1 set_labels]. unfold s1. cbn [lt_labels set_labels]. rewrite find_app, El. cbn. unfold is_favorite_label, own_label. cbn.
      by rewrite bool_decide_true. }
    exists s', l. unfold mbind at 1, proc_bind at 1, rls at 1. rewrite Es. cbv beta iota. rewrite E, E1, Ef, Hx in *. done.
Qed.
End Favorite.

(** ** Examples *)

Definition wl_new_id (s : LabelDb) : jsstr := "n"%js ++ concat (label_ids s).
Lemma wl_new_id_fresh s : wl_new_id s ∉ label_ids s.
Proof. apply longer_fresh. Qed.

Definition wl_label (i name : jsstr) (parent : option jsstr) : LabelEntity := {|
  lb_id := i; lb_ownerId := "ann"%js; lb_name := name; lb_slug := toLowerCase name; lb_parentId := parent; lb_colorBg := None;
  lb_isSystem := false; lb_scope := "thread"%js; lb_updatedAt := 0 |}.

Definition wl_store : LabelDb := {|
  lt_labels := [wl_label "w"%js "Work"%js None; wl_label "b"%js "Bills"%js (Some "w"%js)];
  lt_threads := [ {| tl_threadId := "t"%js; tl_mailboxId := "m"%js; tl_labelId := "b"%js; tl_ownerId := "ann"%js |} ];
  lt_contacts := []; lt_rows := []; known_threads := ["t"%js]; known_boxes := ["m"%js]; known_contacts := ["c"%js] |}.

(** A schema that takes a text as the name, and a slug in small letters. *)
Definition wl_parse (i : LabelInput) : option LabelCreate :=
  match li_name i with
  | VStr n => Some {| lc_name := n; lc_slug := li_slug i; lc_scope := None; lc_parentId := li_parentId i; lc_colorBg := None; lc_isSystem := li_isSystem i |}
  | _ => None
  end.

Lemma wl_sound : labels_sound wl_store.
Proof.
  split; try (apply (bool_decide_unpack _); vm_compute; exact I).
  - intros l p Hl Hp. cbn in Hl. rewrite !elem_of_cons in Hl. destruct Hl as [-> | [-> | Hl]]; [done| |by apply not_elem_of_nil in Hl].
    cbn in Hp. injection Hp as <-. left.
  - intros r Hr%list_elem_of_singleton. subst r. right. left.
  - intros r Hr. by apply not_elem_of_nil in Hr.
Defined.

Lemma labels_stay_sound_witness :
  let s := (deleteLabel "ann"%js (λ _, true) "w"%js (addLabelToThread "ann"%js "t"%js "m"%js "w"%js wl_store).1).1 in
  labels_sound s ∧ lt_labels s = [] ∧ lt_threads s = [].
Proof.
  split; [|done]. apply (labels_stay_sound (λ _, true) wl_new_id toLowerCase wl_parse wl_store); [apply wl_new_id_fresh|exact wl_sound|].
  eapply rtc_l; [apply do_label_thread|]. eapply rtc_l; [apply do_delete|]. apply rtc_refl.
Defined.

Lemma toggleFavoriteContact_spec_witness :
  ∃ s', (toggleFavoriteContact "ann"%js (λ _, true) wl_new_id 7 "c"%js wl_store) = (s', Done (OkFavorite true)) ∧ favorite "ann"%js "c"%js s' = true.
Proof.
  destruct (toggleFavoriteContact_spec "ann"%js (λ _, true) wl_new_id 7 "c"%js wl_store wl_sound ltac:(left) eq_refl
    ltac:(intros r l Hr; by apply not_elem_of_nil in Hr) wl_new_id_fresh) as (s' & fav & E & Hf & _). by exists s'.
Defined.

(** A label can be put below one that is below it: nothing looks for a circle. *)
Example labels_in_a_circle :
  map (λ l, (lb_id l, lb_parentId l)) (lt_labels (updateLabel "ann"%js (λ _, true) 7 "w"%js "Work"%js (Some "b"%js) "#fff"%js wl_store).1) =
  [("w"%js, Some "b"%js); ("b"%js, Some "w"%js)].
Proof. reflexivity. Qed.

(** A label that is renamed keeps its slug: its old name cannot be used again. *)
Example old_name_stays_taken :
  let s := (updateLabel "ann"%js (λ _, true) 7 "w"%js "Home"%js None "#fff"%js wl_store).1 in
  addNewLabel "ann"%js wl_new_id 7 toLowerCase wl_parse (VStr "Work"%js) VUndef VUndef VUndef s = (s, Done Failed).
Proof. reflexivity. Qed.

(** The key of a thread's label has no owner: a stranger's row, which Ann does not see, keeps her from the label. *)
Example stranger_takes_the_label :
  let s := (addLabelToThread "eve"%js "t"%js "m"%js "w"%js wl_store).1 in
  addLabelToThread "ann"%js "t"%js "m"%js "w"%js s = (s, Done Failed).
Proof. reflexivity. Qed.
