(* ===== verification/S3Store.v ===== *)
(** * The object store ([packages/providers/src/store/s3.ts], [StorageProvider] of [core.ts])

    Folders of the user interface are prefixes of keys.  The client of S3 is a parameter: what it does with a
    bucket and what it answers or throws.  Laws of it are hypotheses of the theorems in [S3StoreSpecs]. *)

From stdpp Require Import base list.
From S2P Require Import Prelude JsString JsNumber.

(** ** What is stored, errors and programs *)

Record S3Object := { so_bucket : jsstr; so_key : jsstr; so_size : num; so_etag : option jsstr; so_modified : option jsstr }.
Record S3World := { w_buckets : list jsstr; w_objects : list S3Object; w_blocked : list jsstr; w_cors : list (jsstr * list jsstr) }.

(** The properties of an error that are read: [code], [name], [Code], [message], [bucketRegion], the region in a header and as
    [BucketRegion], [httpStatus] and the status in [$metadata]. *)
Record S3Error := {
  er_code : option jsstr; er_name : option jsstr; er_Code : option jsstr; er_message : option jsstr; er_bucketRegion : option jsstr;
  er_header : option jsstr; er_BucketRegion : option jsstr; er_httpStatus : option Z; er_metaStatus : option Z;
}.

Definition s3 (A : Type) : Type := S3World → S3World * (S3Error + A).
#[export] Instance s3_ret : MRet s3 := λ A a s, (s, inr a).
#[export] Instance s3_bind : MBind s3 := λ A B f p s, match p s with (s', inl e) => (s', inl e) | (s', inr a) => f a s' end.
Definition raise {A} (e : S3Error) : s3 A := λ s, (s, inl e).
(** [try { p } catch (e) { h(e) }] *)
Definition try_catch {A} (p : s3 A) (h : S3Error → s3 A) : s3 A := λ s,
  match p s with (s', inl e) => h e s' | (s', inr a) => (s', inr a) end.

Fixpoint for_each {A} (f : A → s3 unit) (l : list A) : s3 unit :=
  match l with [] => mret tt | x :: l' => _ ← f x; for_each f l' end.

(** ** The client *)

Record Listed := { li_key : option jsstr; li_size : option num; li_etag : option jsstr; li_modified : option jsstr }.
Record Page := { pg_prefixes : list (option jsstr); pg_contents : list Listed; pg_truncated : bool; pg_next : option jsstr }.
Record ListRequest := { lr_bucket : jsstr; lr_prefix : jsstr; lr_delimiter : option jsstr; lr_maxKeys : Z; lr_token : option jsstr }.
Record PutRequest := {
  pr_bucket : jsstr; pr_key : jsstr; pr_contentType : jsstr; pr_cacheControl : option jsstr; pr_contentDisposition : option jsstr;
  pr_metadata : option (list (jsstr * jsstr));
}.

(** [DeleteObjects] answers the keys it could not delete. *)
Record S3Client := {
  GetCallerIdentity : s3 (jsstr * jsstr);
  HeadBucket : jsstr → s3 unit;
  CreateBucket : jsstr → option jsstr → s3 unit;
  PutPublicAccessBlock : jsstr → s3 unit;
  PutBucketCors : jsstr → list jsstr → s3 unit;
  ListObjectsV2 : ListRequest → s3 Page;
  DeleteObject : jsstr → jsstr → s3 unit;
  DeleteObjects : jsstr → list jsstr → s3 (list jsstr);
  PutObject : PutRequest → s3 unit;
  signGet : jsstr → jsstr → jsstr → Z → s3 jsstr;
  signPut : PutRequest → Z → s3 jsstr;
}.

(** ** Paths and keys *)

Definition slash : ascii := "/"%char.
Definition is_slash (a : ascii) : bool := bool_decide (a = slash).
(** [.replace(/^\/+/, [])], [.replace(/\/+$/, [])] *)
Fixpoint drop_slashes (s : jsstr) : jsstr :=
  match s with a :: s' => if is_slash a then drop_slashes s' else s | [] => [] end.
Definition drop_last_slashes (s : jsstr) : jsstr := reverse (drop_slashes (reverse s)).
(** [.split(/).filter(Boolean)] *)
Definition segments_of (p : jsstr) : list jsstr := List.filter truthy (split slash p).

Definition uiPathToKey (uiPath : jsstr) : jsstr :=
  let p := trim uiPath in
  if negb (truthy p) || bool_decide (p = "/"%js) then [] else drop_slashes p.

Definition normalizeUiPath (p : jsstr) : jsstr :=
  let s := trim p in
  if negb (truthy s) || bool_decide (s = "/"%js) then "/"%js
  else "/"%js ++ drop_last_slashes (drop_slashes s) ++ "/"%js.

Definition uiPathToPrefix (uiPath : jsstr) : jsstr := if bool_decide (uiPath = "/"%js) then [] else drop_slashes uiPath.
Definition folderUiPathToPrefix (uiPath : jsstr) : jsstr := uiPathToPrefix (normalizeUiPath uiPath).
Definition prefixToUiPath (prefix : jsstr) : jsstr := if truthy prefix then "/"%js ++ prefix else "/"%js.
Definition lastSegment (s : jsstr) : jsstr := default s (last (segments_of s)).

(** [BucketNameSchema], of a name in lower case. *)
Definition alnum (a : ascii) : bool := is_ascii_lower a || is_digit a.
Definition valid_bucket (s : jsstr) : bool :=
  (3 <=? length s)%nat && (length s <=? 63)%nat && forallb (λ a, alnum a || is_one_of ".-"%js a) s &&
  match head s with Some a => alnum a | None => false end && match last s with Some a => alnum a | None => false end &&
  negb (includes s ".."%js) && negb (includes s ".-"%js) && negb (includes s "-."%js).

(** ** Errors *)

(** [a || b || ...] *)
Definition first_truthy (l : list (option jsstr)) : option jsstr := head (omap (λ o, o ≫= or_undefined) l).

Definition getBucketRegionFromError (e : S3Error) : option jsstr := first_truthy [er_header e; er_BucketRegion e].
Definition code_of (e : S3Error) : jsstr := default "Unknown"%js (first_truthy [er_name e; er_Code e]).
Definition isNotFound (e : S3Error) : bool :=
  bool_decide (er_metaStatus e = Some 404%Z) ||
  bool_decide (first_truthy [er_name e; er_Code e] ∈ [Some "NotFound"%js; Some "NoSuchBucket"%js]).

(** ** Results: [ok], [message] and what [meta] and [data] tell *)

Record StoreResult (A : Type) := { r_ok : bool; r_message : jsstr; r_code : option jsstr; r_data : option A }.
Arguments r_ok {A}. Arguments r_message {A}. Arguments r_code {A}. Arguments r_data {A}.

Definition ok_with {A} (message : jsstr) (a : A) : StoreResult A := {| r_ok := true; r_message := message; r_code := None; r_data := Some a |}.
Definition refused {A} (message : jsstr) : StoreResult A := {| r_ok := false; r_message := message; r_code := None; r_data := None |}.
Definition failed {A} (message : jsstr) (e : S3Error) : StoreResult A :=
  {| r_ok := false; r_message := default message (first_truthy [er_message e]); r_code := Some (code_of e); r_data := None |}.

(** A path of a listing; the bucket that was made; what was deleted. *)
Record ListPathEntry := { le_folder : bool; le_name : jsstr; le_path : jsstr; le_sizeBytes : option num; le_etag : option jsstr; le_lastModified : option jsstr }.
Record Listing := { ls_path : jsstr; ls_prefix : jsstr; ls_entries : list ListPathEntry; ls_nextToken : option jsstr }.
Record BucketMade := { bm_bucket : jsstr; bm_created : bool; bm_blocked : bool }.
Inductive Deletion := DeletedKey (key : jsstr) | DeletedFolder (prefix : jsstr) (deleted : nat).
Record UploadForm := { uf_url : jsstr; uf_expiresIn : Z; uf_headers : list (jsstr * jsstr) }.
Record FolderMade := { fm_bucket : jsstr; fm_path : jsstr; fm_prefix : jsstr }.

Section Store.
(** The client with its region, what zod throws, the order of names and the origins of the web application. *)
Context (c : S3Client) (region : jsstr) (zod_error : jsstr → S3Error) (localeCompare : jsstr → jsstr → Z).
Context (WEB_URL : option jsstr) (url_origin : jsstr → option jsstr).

Definition BucketNameSchema (s : jsstr) : s3 jsstr :=
  let t := toLowerCase (trim s) in if valid_bucket t then mret t else raise (zod_error t).

Definition verify (bucket : option jsstr) : s3 (StoreResult (jsstr * jsstr)) :=
  try_catch
    (ident ← GetCallerIdentity c;
     _ ← (if opt_truthy bucket then HeadBucket c (default [] bucket) else mret tt);
     mret (ok_with "OK"%js ident))
    (λ e, mret {| r_ok := false; r_message := default "S3 verify failed"%js (er_message e); r_code := er_name e; r_data := None |}).

Definition buildDefaultCorsOrigins : list jsstr :=
  let webUrl := match WEB_URL with Some u => trim u | None => [] end in
  List.filter truthy (set_of_list (["http://localhost"%js; "http://localhost:3000"%js] ++
    (if truthy webUrl then [default webUrl (url_origin webUrl)] else []))).

Definition ensureCors (bucket : jsstr) : s3 unit := PutBucketCors c bucket buildDefaultCorsOrigins.
Definition ensurePublicAccessBlocked (bucket : jsstr) : s3 unit := PutPublicAccessBlock c bucket.

(** The sentence of [addBucket] for a region it may not know. *)
Definition region_text (bucketRegion : option jsstr) : jsstr :=
  "Bucket exists in region "%js ++ default "null"%js bucketRegion ++ ". Provider is set to "%js ++ region ++ "."%js.

Definition region_mismatch (bucketRegion : jsstr) : S3Error := {|
  er_code := Some "BucketRegionMismatch"%js; er_name := None; er_Code := None;
  er_message := Some ("Bucket exists in region "%js ++ bucketRegion ++ ". Provider is set to "%js ++ region ++ "."%js);
  er_bucketRegion := Some bucketRegion; er_header := None; er_BucketRegion := None; er_httpStatus := Some 301%Z; er_metaStatus := None |}.

(** Whether the bucket exists. *)
Definition headBucketStrict (bucket : jsstr) : s3 bool :=
  try_catch (_ ← HeadBucket c bucket; mret true) (λ e,
    if isNotFound e then mret false
    else match getBucketRegionFromError e with
         | Some r => if bool_decide (er_metaStatus e = Some 301%Z) then raise (region_mismatch r) else raise e
         | None => raise e
         end).

Definition addBucket (bucket : jsstr) (makePublicBlocked : option bool) : s3 (StoreResult BucketMade) :=
  let makePublicBlocked := default true makePublicBlocked in
  try_catch
    (bucket ← BucketNameSchema bucket;
     exists_ ← headBucketStrict bucket;
     _ ← (if (exists_ : bool) then mret tt else CreateBucket c bucket (if bool_decide (region = "us-east-1"%js) then None else Some region));
     _ ← (if makePublicBlocked then ensurePublicAccessBlocked bucket else mret tt);
     _ ← ensureCors bucket;
     mret (ok_with (if (exists_ : bool) then "Bucket already exists"%js else "Bucket created"%js)
       {| bm_bucket := bucket; bm_created := negb exists_; bm_blocked := makePublicBlocked |}))
    (λ e,
     let code := default "Unknown"%js (first_truthy [er_code e; er_name e; er_Code e]) in
     mret {| r_ok := false;
             r_message := if bool_decide (code = "BucketAlreadyExists"%js) then "Bucket name is already taken globally."%js
                          else default (if bool_decide (code = "BucketRegionMismatch"%js) then region_text (first_truthy [er_bucketRegion e; getBucketRegionFromError e])
                                        else "Failed to add bucket"%js) (first_truthy [er_message e]);
             r_code := Some code; r_data := None |}).

Definition compare_listed (a b : ListPathEntry) : Z :=
  if bool_decide (le_folder a = le_folder b) then localeCompare (le_name a) (le_name b) else if le_folder a then -1 else 1.

Definition folder_of (p : jsstr) : ListPathEntry := {|
  le_folder := true; le_name := lastSegment (slice p 0 (-1)); le_path := prefixToUiPath p; le_sizeBytes := None; le_etag := None; le_lastModified := None |}.
Definition file_of (o : Listed) (key : jsstr) : ListPathEntry := {|
  le_folder := false; le_name := lastSegment key; le_path := prefixToUiPath key; le_sizeBytes := li_size o; le_etag := li_etag o;
  le_lastModified := li_modified o |}.

Definition entries_of_page (prefix : jsstr) (res : Page) : list ListPathEntry :=
  let folders := omap (λ p, p ≫= or_undefined) (pg_prefixes res) in
  let files := omap (λ o, key ← li_key o ≫= or_undefined; if bool_decide (key = prefix) then None else Some (file_of o key)) (pg_contents res) in
  sort_by compare_listed (map folder_of folders ++ files).

(** A bucket that is blank is refused, one that is no name is thrown. *)
Definition listPath (bucket : jsstr) (path : option jsstr) (maxKeys : option Z) (continuationToken : option jsstr) : s3 (StoreResult Listing) :=
  if negb (truthy (trim bucket)) then
    mret {| r_ok := false; r_message := "Bucket is required"%js; r_code := Some "BucketMissing"%js; r_data := None |}
  else
    bucket ← BucketNameSchema bucket;
    let normalizedPath := normalizeUiPath (default "/"%js path) in
    let prefix := uiPathToPrefix normalizedPath in
    try_catch
      (res ← ListObjectsV2 c {| lr_bucket := bucket; lr_prefix := prefix; lr_delimiter := Some "/"%js;
                                lr_maxKeys := default 200%Z maxKeys; lr_token := continuationToken |};
       mret (ok_with "OK"%js {| ls_path := normalizedPath; ls_prefix := prefix; ls_entries := entries_of_page prefix res;
                                ls_nextToken := if pg_truncated res then pg_next res else None |}))
      (λ e, mret (failed "Failed to list path"%js e)).

(** Batches of a thousand keys. *)
Fixpoint batches (fuel : nat) (keys : list jsstr) : list (list jsstr) :=
  match fuel, keys with
  | S fuel, _ :: _ => take 1000 keys :: batches fuel (drop 1000 keys)
  | _, _ => []
  end.

(** The loop over the pages; [None] when the fuel is out. *)
Fixpoint delete_pages (fuel : nat) (bucket prefix : jsstr) (token : option jsstr) (deleted : nat) : s3 (option nat) :=
  match fuel with
  | O => mret None
  | S fuel =>
      res ← ListObjectsV2 c {| lr_bucket := bucket; lr_prefix := prefix; lr_delimiter := None; lr_maxKeys := 1000; lr_token := token |};
      let keys := omap (λ o, li_key o ≫= or_undefined) (pg_contents res) in
      _ ← for_each (λ batch, _ ← DeleteObjects c bucket batch; mret tt) (batches (length keys) keys);
      let deleted := (deleted + length keys)%nat in
      if pg_truncated res then delete_pages fuel bucket prefix (pg_next res) deleted else mret (Some deleted)
  end.

Definition deleteEntry (fuel : nat) (bucket uiPath : jsstr) (folder : bool) : s3 (option (StoreResult Deletion)) :=
  bucket ← BucketNameSchema bucket;
  try_catch
    (if negb folder then
       let key := uiPathToKey uiPath in
       if negb (truthy key) then mret (Some (refused "Invalid file path"%js))
       else _ ← DeleteObject c bucket key; mret (Some (ok_with "Deleted"%js (DeletedKey key)))
     else
       let prefix := folderUiPathToPrefix uiPath in
       if negb (truthy prefix) then mret (Some (refused "Invalid folder path"%js))
       else
         deleted ← delete_pages fuel bucket prefix None 0;
         mret ((λ n, ok_with "Folder deleted"%js (DeletedFolder prefix n)) <$> deleted))
    (λ e, mret (Some (failed "Failed to delete"%js e))).

Definition clamp_expiry (expiresIn : option Z) : Z := Z.max 10 (Z.min (default 60 expiresIn) 3600)%Z.

Definition unsafe_char (a : ascii) : bool := bool_decide (a ∈ [creturn; newline; dquote]).

Definition content_disposition (encodeURIComponent : jsstr → jsstr) (key : jsstr) : jsstr :=
  let filename := default "download"%js (last (segments_of key)) in
  "attachment; filename="%js ++ quoted (List.filter (λ a, negb (unsafe_char a)) filename) ++ "; filename*=UTF-8''"%js ++ encodeURIComponent filename.

Definition downloadUrl (encodeURIComponent : jsstr → jsstr) (bucket uiPath : jsstr) (expiresIn : option Z) : s3 (StoreResult (jsstr * Z)) :=
  bucket ← BucketNameSchema bucket;
  let key := uiPathToKey uiPath in
  let expiresIn := clamp_expiry expiresIn in
  if negb (truthy key) then mret (refused "Invalid file path"%js)
  else try_catch
    (url ← signGet c bucket key (content_disposition encodeURIComponent key) expiresIn; mret (ok_with "OK"%js (url, expiresIn)))
    (λ e, mret (failed "Failed to generate download URL"%js e)).

Definition uploadUrl (bucket uiPath : jsstr) (expiresIn : option Z) (contentType cacheControl contentDisposition : option jsstr)
    (metadata : option (list (jsstr * jsstr))) : s3 (StoreResult UploadForm) :=
  bucket ← BucketNameSchema bucket;
  let key := uiPathToKey uiPath in
  let expiresIn := clamp_expiry expiresIn in
  if negb (truthy key) then mret (refused "Invalid file path"%js)
  else
    let contentType := default "application/octet-stream"%js (contentType ≫= or_undefined) in
    let cacheControl := cacheControl ≫= or_undefined in
    let contentDisposition := contentDisposition ≫= or_undefined in
    let meta := (λ l, foldl (λ m kv, jm_set (toLowerCase kv.1) kv.2 m) [] l) <$> metadata in
    try_catch
      (url ← signPut c {| pr_bucket := bucket; pr_key := key; pr_contentType := contentType; pr_cacheControl := cacheControl;
                          pr_contentDisposition := contentDisposition; pr_metadata := meta |} expiresIn;
       mret (ok_with "OK"%js {| uf_url := url; uf_expiresIn := expiresIn;
         uf_headers := ("content-type"%js, contentType) ::
           (match cacheControl with Some v => [("cache-control"%js, v)] | None => [] end) ++
           (match contentDisposition with Some v => [("content-disposition"%js, v)] | None => [] end) |}))
      (λ e, mret (failed "Failed to generate upload URL"%js e)).

Definition addFolder (bucket uiPath : jsstr) : s3 (StoreResult FolderMade) :=
  bucket ← BucketNameSchema bucket;
  let normalized := normalizeUiPath uiPath in
  let prefix := uiPathToPrefix normalized in
  if negb (truthy prefix) then mret (refused "Invalid folder path"%js)
  else
    let key := if endsWith prefix "/"%js then prefix else prefix ++ "/"%js in
    try_catch
      (_ ← PutObject c {| pr_bucket := bucket; pr_key := key; pr_contentType := "application/x-directory"%js; pr_cacheControl := None;
                          pr_contentDisposition := None; pr_metadata := None |};
       mret (ok_with "Folder created"%js {| fm_bucket := bucket; fm_path := normalized; fm_prefix := key |}))
      (λ e, mret (failed "Failed to create folder"%js e)).
End Store.

(** ** [StorageProvider], the interface, and the store as one; a deletion that is cut off has no answer *)

Record StorageProvider := {
  sp_verify : option jsstr → s3 (StoreResult (jsstr * jsstr));
  sp_addBucket : jsstr → option bool → s3 (StoreResult BucketMade);
  sp_listPath : jsstr → option jsstr → option Z → option jsstr → s3 (StoreResult Listing);
  sp_deleteEntry : jsstr → jsstr → bool → s3 (option (StoreResult Deletion));
  sp_downloadUrl : jsstr → jsstr → option Z → s3 (StoreResult (jsstr * Z));
  sp_uploadUrl : jsstr → jsstr → option Z → option jsstr → option jsstr → option jsstr → option (list (jsstr * jsstr)) → s3 (StoreResult UploadForm);
  sp_addFolder : jsstr → jsstr → s3 (StoreResult FolderMade);
}.

Definition s3_store (c : S3Client) (region : jsstr) (zod_error : jsstr → S3Error) (localeCompare : jsstr → jsstr → Z) (WEB_URL : option jsstr)
    (url_origin : jsstr → option jsstr) (encodeURIComponent : jsstr → jsstr) (fuel : nat) : StorageProvider := {|
  sp_verify := verify c;
  sp_addBucket := addBucket c region zod_error WEB_URL url_origin;
  sp_listPath := listPath c zod_error localeCompare;
  sp_deleteEntry := deleteEntry c zod_error fuel;
  sp_downloadUrl := downloadUrl c zod_error encodeURIComponent;
  sp_uploadUrl := uploadUrl c zod_error;
  sp_addFolder := addFolder c zod_error;
|}.
