(* ===== verification/S3StoreSpecs.v ===== *)
(** * The object store: what is deleted, and paths that lead back

    The laws of the client are records; the examples have a bucket that obeys them, and one that does not. *)

From stdpp Require Import base list.
From S2P Require Import Prelude JsString JsNumber S3Store.

(** ** Slashes *)

Lemma drop_slashes_id s : head s ≠ Some slash → drop_slashes s = s.
Proof. destruct s as [|a s]; [done|]. cbn. intros H. unfold is_slash. rewrite bool_decide_false; [done|]. intros ->. done. Qed.

Lemma drop_last_slashes_id s : last s ≠ Some slash → drop_last_slashes s = s.
Proof.
  intros H. unfold drop_last_slashes. rewrite drop_slashes_id; [apply reverse_involutive|]. by rewrite head_reverse.
Qed.

(** A folder that is named has a prefix that ends with a slash, and is not the whole bucket. *)
Lemma folder_prefix uiPath : truthy (folderUiPathToPrefix uiPath) = true → ∃ p, p ≠ [] ∧ folderUiPathToPrefix uiPath = p ++ "/"%js.
Proof.
  unfold folderUiPathToPrefix, normalizeUiPath. destruct (negb (truthy (trim uiPath)) || _); [done|].
  set (q := drop_last_slashes (drop_slashes (trim uiPath))). unfold uiPathToPrefix. rewrite bool_decide_false by by destruct q.
  intros Ht.
  assert (∀ r, drop_slashes (r ++ "/"%js) = [] ∨ ∃ p, p ≠ [] ∧ drop_slashes (r ++ "/"%js) = p ++ "/"%js) as Hs.
  { induction r as [|a r IH]; [by left|]. cbn. destruct (is_slash a); [apply IH|]. right. by exists (a :: r). }
  destruct (Hs q) as [E | (p & Hp & E)].
  - change (drop_slashes ("/"%js ++ q ++ "/"%js)) with (drop_slashes (q ++ "/"%js)) in Ht. by rewrite E in Ht.
  - exists p. by split.
Qed.

(** ** Runs *)

Definition runs {A} (R : S3World → S3World → Prop) (p : s3 A) : Prop := ∀ s, R s (p s).1.

Section Runs.
Context (R : S3World → S3World → Prop) `{!PreOrder R}.

Lemma runs_ret {A} (a : A) : runs R (mret a).
Proof. intros s. cbn. reflexivity. Qed.

Lemma runs_raise {A} e : runs R (raise e : s3 A).
Proof. intros s. cbn. reflexivity. Qed.

Lemma runs_bind_at {A B} (p : s3 A) (f : A → s3 B) s :
  R s (p s).1 → (∀ a s', p s = (s', inr a) → R s' (f a s').1) → R s ((p ≫= f) s).1.
Proof.
  intros Hp Hf. unfold mbind, s3_bind. destruct (p s) as [s' [e|a]]; [done|]. cbn in Hp. etrans; [exact Hp|by apply Hf].
Qed.

Lemma runs_bind {A B} (p : s3 A) (f : A → s3 B) : runs R p → (∀ a, runs R (f a)) → runs R (p ≫= f).
Proof. intros Hp Hf s. apply runs_bind_at; [apply Hp|]. intros a s' _. apply Hf. Qed.

Lemma runs_catch {A} (p : s3 A) h : runs R p → (∀ e, runs R (h e)) → runs R (try_catch p h).
Proof.
  intros Hp Hh s. unfold try_catch. pose proof (Hp s) as H. destruct (p s) as [s' [e|a]]; [|done]. etrans; [exact H|apply Hh].
Qed.

Lemma runs_for_each {A} (f : A → s3 unit) l : (∀ x, x ∈ l → runs R (f x)) → runs R (for_each f l).
Proof.
  induction l as [|x l IH]; intros Hf; [apply runs_ret|]. apply runs_bind; [apply Hf; by left|]. intros _. apply IH.
  intros y Hy. apply Hf. by right.
Qed.
End Runs.

(** ** The keys of a page *)

Definition page_keys (p : Page) : list jsstr := omap (λ o, li_key o ≫= or_undefined) (pg_contents p).

Lemma batches_elem fuel keys batch k : batch ∈ batches fuel keys → k ∈ batch → k ∈ keys.
Proof.
  revert keys. induction fuel as [|fuel IH]; intros keys; [by intros ?%not_elem_of_nil|]. destruct keys as [|k0 keys]; [by intros ?%not_elem_of_nil|].
  cbn [batches]. intros [-> | Hb]%elem_of_cons Hk.
  - rewrite <- (take_drop 1000 (k0 :: keys)). apply elem_of_app. by left.
  - rewrite <- (take_drop 1000 (k0 :: keys)). apply elem_of_app. right. by apply (IH _ Hb).
Qed.

(** ** Deletion of a folder stays in the folder *)

Record local_client (c : S3Client) : Prop := {
  lists_pure : ∀ r s, (ListObjectsV2 c r s).1 = s;
  lists_below : ∀ r s s' p k, ListObjectsV2 c r s = (s', inr p) → k ∈ page_keys p → startsWith k (lr_prefix r) = true;
  deletes_named : ∀ b ks s o, o ∈ w_objects s → ¬ (so_bucket o = b ∧ so_key o ∈ ks) → o ∈ w_objects (DeleteObjects c b ks s).1;
}.

(** No object outside of a prefix of a bucket is lost. *)
Definition spares (b prefix : jsstr) (s s' : S3World) : Prop :=
  ∀ o, o ∈ w_objects s → ¬ (so_bucket o = b ∧ startsWith (so_key o) prefix = true) → o ∈ w_objects s'.

#[export] Instance spares_preorder b prefix : PreOrder (spares b prefix).
Proof. split; [by intros s o|]. intros s1 s2 s3 H1 H2 o Ho Hn. apply H2; [by apply H1|done]. Qed.

Lemma delete_pages_spares c fuel b prefix token n : local_client c → runs (spares b prefix) (delete_pages c fuel b prefix token n).
Proof.
  intros Hc. revert token n. induction fuel as [|fuel IH]; intros token n; [apply runs_ret, _|]. intros s. cbn [delete_pages].
  apply (runs_bind_at _); [rewrite (lists_pure _ Hc); reflexivity|]. intros p s' Hp.
  assert (∀ k, k ∈ page_keys p → startsWith k prefix = true) as Hk by (intros k; by apply (lists_below _ Hc _ _ _ _ k Hp)).
  apply (runs_bind _); [|intros _; destruct (pg_truncated p); [apply IH|apply runs_ret, _]].
  apply (runs_for_each _). intros batch Hb. apply (runs_bind _); [|intros; apply runs_ret, _]. intros s1 o Ho Hn.
  apply (deletes_named _ Hc); [done|]. intros [Eb Hin]. apply Hn. split; [done|]. apply Hk. by apply (batches_elem _ _ _ _ Hb).
Qed.

(** Deleting a folder stays in the folder.  Whatever the client of S3 throws on the way, an object survives unless it is in the
    bucket and its key begins with the name of the folder and a slash; a path that names no folder deletes nothing. *)
Theorem folder_deletion_is_local c zod_error fuel bucket uiPath s o (Hc : local_client c) (Ho : o ∈ w_objects s)
    (Hn : ∀ p, p ≠ [] → folderUiPathToPrefix uiPath = p ++ "/"%js →
      ¬ (so_bucket o = toLowerCase (trim bucket) ∧ startsWith (so_key o) (p ++ "/"%js) = true)) :
  o ∈ w_objects (deleteEntry c zod_error fuel bucket uiPath true s).1.
Proof.
  unfold deleteEntry, BucketNameSchema. destruct (valid_bucket _); [|done].
  unfold mbind at 1, s3_bind at 1. cbn [mret s3_ret negb]. destruct (truthy (folderUiPathToPrefix uiPath)) eqn:Et; [|done].
  destruct (folder_prefix uiPath Et) as (p & Hp & E). rewrite E.
  assert (runs (spares (toLowerCase (trim bucket)) (p ++ "/"%js)) (try_catch
    (deleted ← delete_pages c fuel (toLowerCase (trim bucket)) (p ++ "/"%js) None 0;
     mret ((λ n, ok_with "Folder deleted"%js (DeletedFolder (p ++ "/"%js) n)) <$> deleted))
    (λ e, mret (Some (failed "Failed to delete"%js e))))) as H.
  { apply (runs_catch _); [apply (runs_bind _); [by apply delete_pages_spares|]|]; intros; apply runs_ret, _. }
  apply H; [done|]. by apply Hn.
Qed.

(** ** Deletion of a folder leaves nothing in it *)

Definition named (b : jsstr) (ks : list jsstr) (o : S3Object) : bool := bool_decide (so_bucket o = b) && bool_decide (so_key o ∈ ks).
Definition in_folder (b prefix : jsstr) (o : S3Object) : bool := bool_decide (so_bucket o = b) && startsWith (so_key o) prefix.

Definition set_objects (l : list S3Object) (s : S3World) : S3World :=
  {| w_buckets := w_buckets s; w_objects := l; w_blocked := w_blocked s; w_cors := w_cors s |}.
Definition without (f : S3Object → bool) (s : S3World) : S3World := set_objects (List.filter (λ o, negb (f o)) (w_objects s)) s.

(** [after t k]: a listing that goes on at the token comes to the key.  A page that is not the last one has a key. *)
Record full_client (c : S3Client) (after : option jsstr → jsstr → bool) : Prop := {
  after_none : ∀ k, after None k = true;
  lists_pages : ∀ r s, lr_delimiter r = None → lr_prefix r ≠ [] → ∃ p, ListObjectsV2 c r s = (s, inr p) ∧
    (∀ k, k ∈ page_keys p → ∃ o, o ∈ w_objects s ∧ in_folder (lr_bucket r) (lr_prefix r) o = true ∧ so_key o = k) ∧
    (∀ o, o ∈ w_objects s → in_folder (lr_bucket r) (lr_prefix r) o = true → after (lr_token r) (so_key o) = true →
      so_key o ∈ page_keys p ∨ pg_truncated p = true ∧ after (pg_next p) (so_key o) = true) ∧
    (pg_truncated p = true → page_keys p ≠ []);
  deletes_all : ∀ b ks s, ∃ refused, DeleteObjects c b ks s = (without (named b ks) s, inr refused);
}.

Lemma filter_filter_imp {A} (p q : A → bool) l : (∀ x, p x = true → q x = true) → List.filter p (List.filter q l) = List.filter p l.
Proof.
  intros H. induction l as [|x l IH]; [done|]. cbn. destruct (q x) eqn:Eq; cbn; [by rewrite IH|].
  destruct (p x) eqn:Ep; [|done]. apply H in Ep. congruence.
Qed.

Lemma without_imp f g s : (∀ o, f o = true → g o = true) → without g (without f s) = without g s.
Proof.
  intros H. unfold without, set_objects. cbn. rewrite filter_filter_imp; [done|]. intros o Hg.
  destruct (f o) eqn:E; [|done]. by rewrite (H o E) in Hg.
Qed.

Lemma without_none f s : (∀ o, f o = false) → without f s = s.
Proof.
  intros H. destruct s as [bs os bl co]. unfold without, set_objects. cbn. f_equal. induction os as [|o os IH]; [done|]. cbn. by rewrite H, IH.
Qed.

Lemma without_without f g s : without g (without f s) = without (λ o, f o || g o) s.
Proof.
  unfold without, set_objects. cbn. f_equal. induction (w_objects s) as [|o os IH]; [done|]. cbn. destruct (f o); cbn; [done|].
  destruct (g o); cbn; [done|by f_equal].
Qed.

Lemma without_ext f g s : (∀ o, o ∈ w_objects s → f o = g o) → without f s = without g s.
Proof.
  intros H. unfold without. f_equal. apply List.filter_ext_in. intros o Ho%list_elem_of_In. by rewrite H.
Qed.

Lemma named_app b ks ks' o : named b (ks ++ ks') o = named b ks o || named b ks' o.
Proof.
  unfold named. rewrite <- andb_orb_distrib_r. f_equal. rewrite <- bool_decide_or. apply bool_decide_ext, elem_of_app.
Qed.

Lemma delete_batches c after b l s : full_client c after →
  for_each (λ batch, _ ← DeleteObjects c b batch; mret tt) l s = (without (named b (List.concat l)) s, inr tt).
Proof.
  intros Hc. revert s. induction l as [|ks l IH]; intros s.
  - cbn. rewrite without_none; [done|]. intros o. unfold named. cbn. apply andb_false_r.
  - cbn [for_each List.concat]. unfold mbind at 1, s3_bind at 1. unfold mbind at 1, s3_bind at 1.
    destruct (deletes_all _ _ Hc b ks s) as [refused ->]. cbn [mret s3_ret]. rewrite IH, without_without. f_equal.
    apply without_ext. intros o _. by rewrite named_app.
Qed.

Lemma batches_concat fuel keys : (length keys ≤ fuel)%nat → List.concat (batches fuel keys) = keys.
Proof.
  revert keys. induction fuel as [|fuel IH]; intros [|k keys] H; try done; [cbn in H; lia|]. cbn [batches List.concat].
  rewrite IH by (rewrite length_drop; cbn [length] in *; lia). apply take_drop.
Qed.

Definition folder_size (b prefix : jsstr) (s : S3World) : nat := length (List.filter (in_folder b prefix) (w_objects s)).

(** A page that has a key leaves fewer. *)
Lemma folder_shrinks b prefix ks o s :
  o ∈ w_objects s → in_folder b prefix o = true → named b ks o = true → (folder_size b prefix (without (named b ks) s) < folder_size b prefix s)%nat.
Proof.
  unfold folder_size, without. cbn. induction (w_objects s) as [|x os IH]; [by intros ?%not_elem_of_nil|].
  assert (length (List.filter (in_folder b prefix) (List.filter (λ o, negb (named b ks o)) os)) ≤ length (List.filter (in_folder b prefix) os))%nat as Hle.
  { clear IH. induction os as [|y os IH]; [done|]. cbn. destruct (named b ks y); cbn; destruct (in_folder b prefix y); cbn; lia. }
  intros [-> | Ho]%elem_of_cons Hf Hk; cbn.
  - rewrite Hk, Hf. cbn. lia.
  - specialize (IH Ho Hf Hk). destruct (named b ks x); cbn; destruct (in_folder b prefix x); cbn; lia.
Qed.

Lemma delete_pages_all c after fuel b prefix token n s :
  full_client c after → prefix ≠ [] → (folder_size b prefix s < fuel)%nat →
  (∀ o, o ∈ w_objects s → in_folder b prefix o = true → after token (so_key o) = true) →
  ∃ m, delete_pages c fuel b prefix token n s = (without (in_folder b prefix) s, inr (Some m)).
Proof.
  intros Hc Hp. revert token n s. induction fuel as [|fuel IH]; intros token n s Hf Ha; [lia|]. cbn [delete_pages].
  edestruct (lists_pages c after Hc) as (p & Hl & Hin & Hall & Hmore); [| |unfold mbind at 1, s3_bind at 1; rewrite Hl]; [done|done|].
  cbn [lr_bucket lr_prefix lr_token] in *. fold (page_keys p). set (ks := page_keys p) in *.
  unfold mbind at 1, s3_bind at 1. rewrite (delete_batches c after) by done. rewrite batches_concat by done.
  assert (∀ o, o ∈ w_objects s → named b ks o = true → in_folder b prefix o = true) as Hsub.
  { intros o Ho Hn. unfold named in Hn. bool_to_prop. destruct (Hin (so_key o)) as (o' & _ & Hf' & E); [done|].
    unfold in_folder in *. rewrite E in Hf'. bool_to_prop. rewrite bool_decide_true by done. done. }
  destruct (pg_truncated p) eqn:Et.
  - destruct ks as [|k ks'] eqn:Ek; [by destruct (Hmore eq_refl)|]. rewrite <- Ek in *.
    destruct (Hin k) as (o & Ho & Hfo & Hko); [rewrite Ek; by left|].
    destruct (IH (pg_next p) (n + length ks)%nat (without (named b ks) s)) as [m Hm].
    + assert (named b ks o = true) as Hn.
      { unfold named, in_folder in *. bool_to_prop. rewrite Hko, Ek. by rewrite !bool_decide_true by (done || by left). }
      pose proof (folder_shrinks b prefix ks o s Ho Hfo Hn). lia.
    + intros o' Ho' Hf'. unfold without in Ho'. cbn in Ho'. apply list_elem_of_In, List.filter_In in Ho' as [Ho' Hn].
      apply list_elem_of_In in Ho'. destruct (Hall o' Ho' Hf' (Ha o' Ho' Hf')) as [Hk | [_ Hk]]; [|done]. unfold named, in_folder in *.
      bool_to_prop. by rewrite !bool_decide_true in Hn by done.
    + exists m. rewrite Hm, without_without. f_equal. apply without_ext. intros o' Ho'. destruct (named b ks o') eqn:E; [|done].
      by rewrite (Hsub o' Ho' E).
  - exists (n + length ks)%nat. assert (without (named b ks) s = without (in_folder b prefix) s) as ->; [|done].
    apply without_ext. intros o Ho. destruct (in_folder b prefix o) eqn:E.
    + destruct (Hall o Ho E (Ha o Ho E)) as [Hk | [? _]]; [|done]. unfold named, in_folder in *. bool_to_prop. by rewrite !bool_decide_true by done.
    + destruct (named b ks o) eqn:En; [|done]. by rewrite (Hsub o Ho En) in E.
Qed.

(** The name of a folder: it neither begins nor ends with a slash or a blank. *)
Definition folder_name (f : jsstr) : Prop :=
  f ≠ [] ∧ (∀ a, head f = Some a → a ≠ slash ∧ is_space a = false) ∧ (∀ a, last f = Some a → a ≠ slash ∧ is_space a = false).

(** The path of the user interface, with or without a slash on either side. *)
Definition path_to (f uiPath : jsstr) : Prop :=
  ∃ before after : jsstr, before ∈ [[]; "/"%js] ∧ after ∈ [[]; "/"%js] ∧ uiPath = before ++ f ++ after.

(** The object lies in the folder, or deeper. *)
Definition lies_in (b f : jsstr) (o : S3Object) : Prop := so_bucket o = b ∧ ∃ rest, so_key o = f ++ "/"%js ++ rest.

Lemma lies_in_spec b f o : in_folder b (f ++ "/"%js) o = true ↔ lies_in b f o.
Proof.
  unfold in_folder, lies_in. rewrite andb_true_iff, bool_decide_eq_true, startsWith_spec.
  split; intros [Hb [rest Hr]]; (split; [done|]); exists rest; by rewrite Hr, <- ?app_assoc.
Qed.

#[export] Instance lies_in_dec b f o : Decision (lies_in b f o).
Proof. destruct (in_folder b (f ++ "/"%js) o) eqn:E; [left|right]; rewrite <- lies_in_spec; congruence. Defined.

Lemma path_to_prefix f uiPath : folder_name f → path_to f uiPath → folderUiPathToPrefix uiPath = f ++ "/"%js.
Proof.
  intros (Hne & Hh & Hl) (before & after & Hb & Ha & ->). destruct f as [|x f]; [done|]. clear Hne.
  destruct (Hh x eq_refl) as [Hx Hsp]. set (k := x :: f) in *.
  assert (last k ≠ Some slash) as Hlast by (intros E; by destruct (Hl _ E)).
  assert (last (k ++ after) = Some slash ∨ last (k ++ after) = last k) as Hend.
  { repeat (apply elem_of_cons in Ha as [-> | Ha]); [right|left|by apply elem_of_nil in Ha].
    - by rewrite app_nil_r.
    - by rewrite last_app. }
  assert (trim (before ++ k ++ after) = before ++ k ++ after) as Htrim.
  { apply trim_no_edge. split.
    - intros a. repeat (apply elem_of_cons in Hb as [-> | Hb]); [by intros [= <-]..|by apply elem_of_nil in Hb].
    - intros a E. rewrite last_app in E. destruct (last (k ++ after)) as [z|] eqn:Ez; [|by apply last_None in Ez].
      injection E as ->. destruct Hend as [[= ->] | Hend]; [done|]. symmetry in Hend. by apply Hl. }
  assert (drop_slashes (before ++ k ++ after) = k ++ after) as Hdrop.
  { assert (drop_slashes (k ++ after) = k ++ after) as E by (apply drop_slashes_id; simpl; congruence).
    repeat (apply elem_of_cons in Hb as [-> | Hb]); [done|exact E|by apply elem_of_nil in Hb]. }
  assert (drop_last_slashes (k ++ after) = k) as Hdrop'.
  { repeat (apply elem_of_cons in Ha as [-> | Ha]); [|..|by apply elem_of_nil in Ha].
    - rewrite app_nil_r. by apply drop_last_slashes_id.
    - unfold drop_last_slashes. rewrite reverse_app. change (reverse (drop_slashes (reverse k)) = k). by apply drop_last_slashes_id. }
  assert (truthy (before ++ k ++ after) = true ∧ before ++ k ++ after ≠ "/"%js) as [Ht Hn].
  { repeat (apply elem_of_cons in Hb as [-> | Hb]); [by split; [|intros [=]]..|by apply elem_of_nil in Hb]. }
  unfold folderUiPathToPrefix, normalizeUiPath. rewrite Htrim, Ht, bool_decide_false by done. cbn [negb orb].
  rewrite Hdrop, Hdrop'. unfold uiPathToPrefix. rewrite bool_decide_false by done.
  apply (drop_slashes_id (k ++ "/"%js)). simpl. congruence.
Qed.

(** C21: Deleting a folder empties it, and nothing else.  The folder is given by its name, which neither begins nor ends with a slash or
    a blank, with or without a slash before and after it.  With a client that lists all keys, page after page, and deletes the keys it is
    given, the loop ends, the answer is a success, and the objects left are those of other buckets and those whose key does not begin with
    the name and a slash. *)
Theorem folder_deletion_empties c zod_error after fuel bucket folder uiPath s
    (Hc : full_client c after) (Hb : valid_bucket (toLowerCase (trim bucket)) = true) (Hf : folder_name folder) (Hp : path_to folder uiPath)
    (Hfuel : (length (w_objects s) < fuel)%nat) :
  ∃ n, deleteEntry c zod_error fuel bucket uiPath true s =
    (set_objects (filter (λ o, ¬ lies_in (toLowerCase (trim bucket)) folder o) (w_objects s)) s,
     inr (Some (ok_with "Folder deleted"%js (DeletedFolder (folder ++ "/"%js) n)))).
Proof.
  pose proof (path_to_prefix folder uiPath Hf Hp) as E. set (b := toLowerCase (trim bucket)).
  assert (set_objects (filter (λ o, ¬ lies_in b folder o) (w_objects s)) s = without (in_folder b (folder ++ "/"%js)) s) as ->.
  { unfold without. f_equal. generalize (w_objects s) as l. intros l. induction l as [|o l IH]; [done|].
    rewrite filter_cons, IH. cbn [List.filter]. pose proof (lies_in_spec b folder o) as Ho.
    destruct (in_folder b (folder ++ "/"%js) o); case_decide; naive_solver. }
  assert (truthy (folder ++ "/"%js) = true) as Ht by by destruct folder.
  unfold deleteEntry, BucketNameSchema. rewrite E, Hb. unfold mbind at 1, s3_bind at 1. cbn [mret s3_ret negb]. rewrite Ht. cbn [negb].
  fold b. edestruct (delete_pages_all c after fuel b (folder ++ "/"%js) None 0 s) as [m Hm]; try done.
  - by destruct folder.
  - eapply Nat.le_lt_trans; [apply List.filter_length_le|done].
  - intros o _ _. by apply (after_none c).
  - exists m. unfold try_catch, mbind, s3_bind. by rewrite Hm.
Qed.

(** ** Paths of a listing lead back *)

Definition edge_ok (k : jsstr) : Prop := k ≠ [] ∧ head k ≠ Some slash ∧ ∀ a, last k = Some a → is_space a = false.

Lemma trim_slash_path k : edge_ok k → trim ("/"%js ++ k) = "/"%js ++ k.
Proof.
  intros (H1 & _ & H3). apply trim_no_edge. split; [by intros a [= <-]|]. intros a Ha. rewrite last_app in Ha.
  destruct (last k) as [b|] eqn:E; [|by apply last_None in E]. injection Ha as <-. by apply H3.
Qed.

(** A path of a listing leads back.  For a key without an edge blank and without a slash in front, the path of the file is that of the key
    again, and the path of a folder that of its prefix, when its name does not end with a slash. *)
Theorem listed_paths_lead_back :
  (∀ o key, edge_ok key → uiPathToKey (le_path (file_of o key)) = key) ∧
  (∀ name, edge_ok name → last name ≠ Some slash → folderUiPathToPrefix (le_path (folder_of (name ++ "/"%js))) = name ++ "/"%js).
Proof.
  split.
  - intros o key Hk. pose proof Hk as (H1 & H2 & H3). unfold file_of, prefixToUiPath, uiPathToKey. cbn [le_path].
    assert (truthy key = true) as -> by by destruct key. rewrite trim_slash_path by done. cbn [app truthy negb orb].
    rewrite bool_decide_false by (intros [=]; done). apply (drop_slashes_id key H2).
  - intros name Hn Hl. assert (edge_ok (name ++ "/"%js)) as Hn'.
    { destruct Hn as (H1 & H2 & H3). split_and!; [by destruct name|by destruct name|]. intros a. rewrite last_app. by intros [= <-]. }
    unfold folderUiPathToPrefix, folder_of, prefixToUiPath. cbn [le_path]. assert (truthy (name ++ "/"%js) = true) as -> by by destruct name.
    unfold normalizeUiPath. rewrite trim_slash_path by done. cbn [app truthy negb orb]. rewrite bool_decide_false by by destruct name.
    assert (drop_slashes ("/"%char :: (name ++ "/"%js)) = name ++ "/"%js) as -> by (apply (drop_slashes_id (name ++ "/"%js)), Hn').
    assert (drop_last_slashes (name ++ "/"%js) = name) as ->.
    { unfold drop_last_slashes. rewrite reverse_app. change (reverse (drop_slashes (reverse name)) = name). by apply drop_last_slashes_id. }
    unfold uiPathToPrefix. rewrite bool_decide_false by by destruct name. apply (drop_slashes_id (name ++ "/"%js)), Hn'.
Qed.

(** ** A store with one key to a page *)

Definition error_at (status : Z) : S3Error := {| er_code := None; er_name := None; er_Code := None; er_message := None; er_bucketRegion := None;
  er_header := None; er_BucketRegion := None; er_httpStatus := None; er_metaStatus := Some status |}.

Definition one_page (r : ListRequest) (s : S3World) : Page :=
  let l := List.filter (in_folder (lr_bucket r) (lr_prefix r)) (w_objects s) in
  {| pg_prefixes := []; pg_truncated := (1 <? length l)%nat; pg_next := Some "more"%js;
     pg_contents := map (λ o, {| li_key := Some (so_key o); li_size := Some (so_size o); li_etag := None; li_modified := None |}) (take 1 l) |}.

(** [deletes]: the keys a request does delete. *)
Definition small_store (deletes : list jsstr → list jsstr) : S3Client := {|
  GetCallerIdentity := mret ("1"%js, "arn"%js);
  HeadBucket := λ b s, if bool_decide (b ∈ w_buckets s) then (s, inr tt) else (s, inl (error_at 404));
  CreateBucket := λ b _ s, ({| w_buckets := b :: w_buckets s; w_objects := w_objects s; w_blocked := w_blocked s; w_cors := w_cors s |}, inr tt);
  PutPublicAccessBlock := λ b s, ({| w_buckets := w_buckets s; w_objects := w_objects s; w_blocked := b :: w_blocked s; w_cors := w_cors s |}, inr tt);
  PutBucketCors := λ b l s, ({| w_buckets := w_buckets s; w_objects := w_objects s; w_blocked := w_blocked s; w_cors := (b, l) :: w_cors s |}, inr tt);
  ListObjectsV2 := λ r s, (s, inr (one_page r s));
  DeleteObject := λ b k s, (without (named b (deletes [k])) s, inr tt);
  DeleteObjects := λ b ks s, (without (named b (deletes ks)) s, inr (List.filter (λ k, bool_decide (k ∉ deletes ks)) ks));
  PutObject := λ r s, (set_objects (w_objects s ++ [{| so_bucket := pr_bucket r; so_key := pr_key r; so_size := num_zero; so_etag := None; so_modified := None |}]) s, inr tt);
  signGet := λ b k _ _, mret ("https://"%js ++ b ++ "/"%js ++ k);
  signPut := λ r _, mret ("https://"%js ++ pr_bucket r ++ "/"%js ++ pr_key r);
|}.

Lemma in_page r s k : k ∈ page_keys (one_page r s) → ∃ o, o ∈ w_objects s ∧ in_folder (lr_bucket r) (lr_prefix r) o = true ∧ so_key o = k.
Proof.
  unfold page_keys, one_page. cbn [pg_contents]. destruct (List.filter _ (w_objects s)) as [|o l] eqn:E; cbn; [by intros ?%not_elem_of_nil|].
  assert (In o (List.filter (in_folder (lr_bucket r) (lr_prefix r)) (w_objects s))) as Hin by (rewrite E; by left).
  apply List.filter_In in Hin as [Ho Hf]. apply list_elem_of_In in Ho. destruct (or_undefined (so_key o)) eqn:Ek; [|by intros ?%not_elem_of_nil].
  intros ->%list_elem_of_singleton. exists o. split_and!; try done. unfold or_undefined in Ek. destruct (truthy (so_key o)); [by simplify_eq|done].
Qed.

Lemma small_store_local deletes : (∀ ks, deletes ks ⊆ ks) → local_client (small_store deletes).
Proof.
  intros Hd. split.
  - done.
  - intros r s s' p k [= _ <-] Hk. apply in_page in Hk as (o & _ & Hf & <-). unfold in_folder in Hf. by bool_to_prop.
  - intros b ks s o Ho Hn. cbn. unfold without. cbn. apply list_elem_of_In, List.filter_In. split; [by apply list_elem_of_In|].
    unfold named. destruct (bool_decide _) eqn:E1; [|done]. destruct (bool_decide (so_key o ∈ _)) eqn:E2; [|done]. bool_to_prop. exfalso. apply Hn. split; [done|by apply (Hd ks)].
Qed.

Lemma small_store_full : full_client (small_store id) (λ _ _, true).
Proof.
  split; [done| |intros b ks s; by eexists].
  intros r s _ Hp. exists (one_page r s). split; [done|]. split; [by apply in_page|]. split.
  - intros o Ho Hf _. assert (In o (List.filter (in_folder (lr_bucket r) (lr_prefix r)) (w_objects s))) as Hin
      by (apply List.filter_In; split; [by apply list_elem_of_In|done]).
    unfold one_page, page_keys. cbn [pg_truncated pg_contents]. destruct (List.filter _ _) as [|x [|y l]] eqn:E; [done| |by right].
    left. destruct Hin as [-> | []]. cbn. unfold in_folder in Hf. bool_to_prop. destruct (so_key o) as [|a k] eqn:Ek; [|cbn; by left].
    by destruct (lr_prefix r).
  - unfold one_page, page_keys. cbn [pg_truncated pg_contents]. destruct (List.filter _ _) as [|o l] eqn:E; [done|]. intros _.
    assert (In o (List.filter (in_folder (lr_bucket r) (lr_prefix r)) (w_objects s))) as Hin by (rewrite E; by left).
    apply List.filter_In in Hin as [_ Hf]. unfold in_folder in Hf. bool_to_prop. cbn. destruct (so_key o) as [|a k] eqn:Ek; [|done].
    by destruct (lr_prefix r).
Qed.

Definition object_at (k : jsstr) : S3Object := {| so_bucket := "files"%js; so_key := k; so_size := num_zero; so_etag := None; so_modified := None |}.

(** A folder with two files and another whose name goes on. *)
Definition ex_bucket : S3World :=
  {| w_buckets := ["files"%js]; w_objects := map object_at ["a/1"%js; "ab/1"%js; "a/b/2"%js]; w_blocked := []; w_cors := [] |}.

Lemma folder_deletion_is_local_witness :
  object_at "ab/1"%js ∈ w_objects (deleteEntry (small_store id) (λ _, error_at 400) 9 "files"%js "/a/"%js true ex_bucket).1.
Proof.
  apply folder_deletion_is_local; [by apply small_store_local|right; by left|].
  intros p _ E. vm_compute in E. destruct p as [|x [|y p]]; [done| |by destruct p]. injection E as <-. intros [_ H]. by vm_compute in H.
Defined.

Lemma folder_deletion_empties_witness :
  (∃ n, deleteEntry (small_store id) (λ _, error_at 400) 4 "files"%js "/a/"%js true ex_bucket =
    (set_objects (filter (λ o, ¬ lies_in "files"%js "a"%js o) (w_objects ex_bucket)) ex_bucket,
     inr (Some (ok_with "Folder deleted"%js (DeletedFolder "a/"%js n))))) ∧
  map so_key (filter (λ o, ¬ lies_in "files"%js "a"%js o) (w_objects ex_bucket)) = ["ab/1"%js].
Proof.
  split; [|by vm_compute].
  apply (folder_deletion_empties (small_store id) (λ _, error_at 400) (λ _ _, true) 4 "files"%js "a"%js "/a/"%js ex_bucket small_store_full).
  - by vm_compute.
  - split; [done|]. split; intros a [= <-]; done.
  - exists "/"%js, "/"%js. split_and!; [set_solver|set_solver|done].
  - cbn. lia.
Defined.

(** A folder is reported deleted although S3 refused every key: the answer of [DeleteObjects] is not read. *)
Example refused_keys_count :
  deleteEntry (small_store (λ _, [])) (λ _, error_at 400) 2 "files"%js "/ab"%js true ex_bucket =
  (ex_bucket, inr (Some (ok_with "Folder deleted"%js (DeletedFolder "ab/"%js 1)))).
Proof. vm_compute. reflexivity. Qed.

(** A file whose key ends with a blank: deleting it deletes another. *)
Example blank_deletes_another :
  deleteEntry (small_store id) (λ _, error_at 400) 1 "files"%js (prefixToUiPath "a/1 "%js) false ex_bucket =
  (without (named "files"%js ["a/1"%js]) ex_bucket, inr (Some (ok_with "Deleted"%js (DeletedKey "a/1"%js)))).
Proof. vm_compute. reflexivity. Qed.

(** A bucket is made, blocked and open to the web application. *)
Example bucket_is_made :
  addBucket (small_store id) "eu"%js (λ _, error_at 400) (Some " https://w.io/x "%js) (λ _, Some "https://w.io"%js) " My-Files "%js None ex_bucket =
  ({| w_buckets := ["my-files"%js; "files"%js]; w_objects := w_objects ex_bucket; w_blocked := ["my-files"%js];
      w_cors := [("my-files"%js, ["http://localhost"%js; "http://localhost:3000"%js; "https://w.io"%js])] |},
   inr (ok_with "Bucket created"%js {| bm_bucket := "my-files"%js; bm_created := true; bm_blocked := true |})).
Proof. vm_compute. reflexivity. Qed.
