(* ===== verification/DriveFiles.v ===== *)
(** * Files of the drive ([apps/web/lib/actions/drive.ts], [apps/worker/lib/dav/drive/], [apps/worker/server/routes/webdav/])

    The home volume of a user is a directory on the disk of the worker.  The web application makes tokens to
    write and read a file, the worker's routes redeem them; listing, making and deleting go over WebDAV.
    A volume in the cloud is a bucket of the object store ([S3Store], whose secrets are parameters).
    The client of WebDAV and [new URL] are parameters; the disk takes every file; no header asks for a range.
    A decoded character is one of the code units of the library, any other is an error. *)

From stdpp Require Import base list.
From S2P Require Import Prelude JsString JsNumber JsValue.
From S2P Require Import S3Store.
From S2P Require Import Proc.

(** ** Paths *)

Definition trimSlashes (s : jsstr) : jsstr := drop_last_slashes (drop_slashes s).
Definition ensureTrailingSlash (p : jsstr) : jsstr := if endsWith p "/"%js then p else p ++ "/"%js.
Definition slash_join (l : list jsstr) : jsstr := join "/"%js l.
Definition joinUrlPath (a b : jsstr) : jsstr :=
  let left := if endsWith a "/"%js then slice a 0 (-1) else a in
  let right := if startsWith b "/"%js then slice_from b 1 else b in
  left ++ "/"%js ++ right.

Definition toVolumeRelativePath (withinVolumeSegments : list jsstr) (nameOrFolder : jsstr) : jsstr :=
  let base := slash_join (map trimSlashes (List.filter truthy withinVolumeSegments)) in
  let full := if truthy base then base ++ "/"%js ++ nameOrFolder else nameOrFolder in
  "/"%js ++ trimSlashes full.

(** *** [decodeURIComponent] and [decodeURI] *)

Definition hex_digit (a : ascii) : option Z := if is_hex a then Some (hex_val a) else None.

(** The characters [decodeURI] leaves encoded. *)
Definition uri_reserved : list ascii := [";"; "/"; "?"; ":"; "@"; "&"; "="; "+"; "$"; ","; "#"]%char.

Fixpoint decode_uri (keep : list ascii) (s : jsstr) : option jsstr :=
  match s with
  | [] => Some []
  | "%"%char :: a :: b :: rest =>
      h ← hex_digit a; l ← hex_digit b;
      let byte := (16 * h + l)%Z in
      if (byte <? 128)%Z then
        t ← decode_uri keep rest;
        Some (if bool_decide (of_code byte ∈ keep) then "%"%char :: a :: b :: t else of_code byte :: t)
      else
        match rest with
        | "%"%char :: c :: d :: rest' =>
            h' ← hex_digit c; l' ← hex_digit d;
            let byte' := (16 * h' + l')%Z in
            if bool_decide (byte = 194 ∨ byte = 195)%Z && (128 <=? byte')%Z && (byte' <? 192)%Z
            then t ← decode_uri keep rest'; Some (of_code (64 * (byte - 192) + (byte' - 128)) :: t)
            else None
        | _ => None
        end
  | "%"%char :: _ => None
  | a :: rest => cons a <$> decode_uri keep rest
  end.

Definition decodeURIComponent (s : jsstr) : option jsstr := decode_uri [] s.
Definition decodeURI (s : jsstr) : option jsstr := decode_uri uri_reserved s.

(** *** [path.posix] of Node *)

(** The segments that are left, those read so far in reverse. *)
Fixpoint resolve_dots (allowAboveRoot : bool) (acc segs : list jsstr) : list jsstr :=
  match segs with
  | [] => reverse acc
  | s :: rest =>
      if bool_decide (s = [] ∨ s = "."%js) then resolve_dots allowAboveRoot acc rest
      else if bool_decide (s = ".."%js) then
        match acc with
        | x :: acc' => if bool_decide (x = ".."%js) then resolve_dots allowAboveRoot (".."%js :: acc) rest
                       else resolve_dots allowAboveRoot acc' rest
        | [] => resolve_dots allowAboveRoot (if allowAboveRoot then [".."%js] else []) rest
        end
      else resolve_dots allowAboveRoot (s :: acc) rest
  end.

Definition posix_normalize (p : jsstr) : jsstr :=
  match p with
  | [] => "."%js
  | _ =>
      let isAbsolute := startsWith p "/"%js in
      let trailing := endsWith p "/"%js in
      match slash_join (resolve_dots (negb isAbsolute) [] (split slash p)) with
      | [] => if isAbsolute then "/"%js else if trailing then "./"%js else "."%js
      | q => (if isAbsolute then "/"%js else []) ++ q ++ (if trailing then "/"%js else [])
      end
  end.

Definition posix_join (args : list jsstr) : jsstr :=
  match List.filter truthy args with
  | [] => "."%js
  | l => posix_normalize (slash_join l)
  end.

(** ** Tables *)

(** [dv_bucket] is [metaData.bucket]; a text. *)
Record DriveVolume := {
  dv_id : jsstr; dv_ownerId : jsstr; dv_publicId : jsstr; dv_kind : jsstr; dv_code : jsstr; dv_basePath : option jsstr;
  dv_providerId : option jsstr; dv_bucket : option jsstr;
}.
Record StoreProvider := { pv_id : jsstr; pv_ownerId : jsstr }.
Record DriveEntry := {
  de_id : jsstr; de_ownerId : jsstr; de_volumeId : jsstr; de_type : jsstr; de_path : jsstr; de_name : jsstr; de_sizeBytes : num;
  de_mimeType : option jsstr; de_href : option jsstr;
}.
Record UploadIntent := {
  ui_id : jsstr; ui_ownerId : jsstr; ui_volumeId : jsstr; ui_token : jsstr; ui_targetPath : jsstr; ui_singleUse : bool;
  ui_usedAt : option Z; ui_expiresAt : Z;
}.

(** [disk]: the files by absolute path; [dav_log]: the requests to the WebDAV server; [cloud]: the object store. *)
Record DriveDb := {
  dr_providers : list StoreProvider; dr_volumes : list DriveVolume; dr_entries : list DriveEntry; dr_intents : list UploadIntent;
  disk : jsmap jsstr jsstr; dav_log : list (jsstr * jsstr); cloud : S3World;
}.

Definition set_volumes f s : DriveDb := {|
  dr_providers := dr_providers s; dr_volumes := f (dr_volumes s); dr_entries := dr_entries s; dr_intents := dr_intents s; disk := disk s; dav_log := dav_log s; cloud := cloud s |}.
Definition set_entries f s : DriveDb := {|
  dr_providers := dr_providers s; dr_volumes := dr_volumes s; dr_entries := f (dr_entries s); dr_intents := dr_intents s; disk := disk s; dav_log := dav_log s; cloud := cloud s |}.
Definition set_intents f s : DriveDb := {|
  dr_providers := dr_providers s; dr_volumes := dr_volumes s; dr_entries := dr_entries s; dr_intents := f (dr_intents s); disk := disk s; dav_log := dav_log s; cloud := cloud s |}.
Definition set_disk f s : DriveDb := {|
  dr_providers := dr_providers s; dr_volumes := dr_volumes s; dr_entries := dr_entries s; dr_intents := dr_intents s; disk := f (disk s); dav_log := dav_log s; cloud := cloud s |}.
Definition log_request r s : DriveDb := {|
  dr_providers := dr_providers s; dr_volumes := dr_volumes s; dr_entries := dr_entries s; dr_intents := dr_intents s; disk := disk s; dav_log := dav_log s ++ [r]; cloud := cloud s |}.
Definition set_cloud w s : DriveDb := {|
  dr_providers := dr_providers s; dr_volumes := dr_volumes s; dr_entries := dr_entries s; dr_intents := dr_intents s; disk := disk s; dav_log := dav_log s; cloud := w |}.

Abbreviation driving := (prog DriveDb).

(** A call of the object store. *)
Definition calling {A} (p : s3 A) : driving A := λ s,
  match p (cloud s) with (w, inr a) => (set_cloud w s, Done a) | (w, inl _) => (set_cloud w s, Threw) end.

Definition find_volume (i : jsstr) (s : DriveDb) : option DriveVolume := List.find (λ v, bool_decide (dv_id v = i)) (dr_volumes s).

(** ** Targets of tokens *)

Definition bad_segment (seg : jsstr) : bool :=
  bool_decide (seg = "."%js) || bool_decide (seg = ".."%js) || includes seg [Ascii.zero].

Definition normalizeTargetPath (p : jsstr) : option jsstr :=
  parts ← mapM decodeURIComponent (segments_of (trim p));
  if existsb bad_segment parts then None else Some ("/"%js ++ slash_join parts).

Definition LOCAL_ROOT : jsstr := "/data"%js.

Section Tokens.
(** The clock, the random texts, and the store that the secrets of a provider open. *)
Context (now : Z) (new_id nanoid : DriveDb → jsstr) (store_of : DriveDb → jsstr → option StorageProvider).

Definition ten_minutes : Z := 10 * 60 * 1000.

(** The unique key of the table is the token. *)
Definition insert_intent (uid volumeId targetPath : jsstr) (singleUse : bool) : driving UploadIntent :=
  s ← read;
  let row := {| ui_id := new_id s; ui_ownerId := uid; ui_volumeId := volumeId; ui_token := nanoid s; ui_targetPath := targetPath;
                ui_singleUse := singleUse; ui_usedAt := None; ui_expiresAt := (now + ten_minutes)%Z |} in
  if bool_decide (nanoid s ∈ map ui_token (dr_intents s)) then throw
  else _ ← modify (set_intents (λ l, l ++ [row])); mret row.

Definition own_volume (uid : jsstr) (v : DriveVolume) : bool := bool_decide (dv_ownerId v = uid).

Definition generateUploadToken (uid targetPath : jsstr) (volumeId : option jsstr) (scope : jsstr) : driving UploadIntent :=
  s ← read;
  let volume :=
    match volumeId with
    | Some i => if truthy i then List.find (λ v, own_volume uid v && bool_decide (dv_id v = i)) (dr_volumes s)
                else if bool_decide (scope = "home"%js) then List.find (λ v, own_volume uid v && bool_decide (dv_code v = "home"%js)) (dr_volumes s) else None
    | None => if bool_decide (scope = "home"%js) then List.find (λ v, own_volume uid v && bool_decide (dv_code v = "home"%js)) (dr_volumes s) else None
    end in
  volume ← or_throw volume;
  normalizedTargetPath ← or_throw (normalizeTargetPath targetPath);
  insert_intent uid (dv_id volume) normalizedTargetPath true.

(** The answer of a form: the address of the download. *)
Inductive DriveAnswer := DriveOk | DriveUrl (url : jsstr) | DriveRefused (error : jsstr) | DriveError.

Definition handleAction (p : driving DriveAnswer) : driving DriveAnswer := catch p (mret DriveError).

(** [String(volume.providerId)], [String(volume?.metaData?.bucket)] *)
Definition provider_text (v : DriveVolume) : jsstr := default "null"%js (dv_providerId v).
Definition bucket_text (v : DriveVolume) : jsstr := default "undefined"%js (dv_bucket v).

Definition fetchDownloadLink (uid entryId : jsstr) : driving DriveAnswer :=
  handleAction (
    if negb (truthy entryId) then mret (DriveRefused "Missing entryId"%js)
    else
      s ← read;
      match List.find (λ e, bool_decide (de_ownerId e = uid) && bool_decide (de_id e = entryId)) (dr_entries s) with
      | None => mret (DriveRefused "Entry not found"%js)
      | Some entry =>
          match List.find (λ v, own_volume uid v && bool_decide (dv_id v = de_volumeId entry)) (dr_volumes s) with
          | None => mret (DriveRefused "Volume not found"%js)
          | Some volume =>
              if negb (bool_decide (dv_kind volume = "cloud"%js)) then
                target ← or_throw (normalizeTargetPath (de_path entry));
                intent ← insert_intent uid (dv_id volume) target false;
                mret (DriveUrl ("/webdav/tokens/"%js ++ ui_id intent))
              else
                store ← or_throw (store_of s (provider_text volume));
                res ← calling (sp_downloadUrl store (bucket_text volume) (de_path entry) None);
                if negb (r_ok res) then mret (DriveRefused "Failed to create cloud download URL"%js)
                else mret (match r_data res with Some (url, _) => DriveUrl url | None => DriveOk end)
          end
      end).

(** *** The routes of the worker *)

Record HttpAnswer := { status : Z; answer : jsstr }.
Definition refuse (z : Z) (t : jsstr) : HttpAnswer := {| status := z; answer := t |}.

(** What a transaction finds: the intent with the volume of it. *)
Inductive Claim := Missing | Expired | Used | Granted (intent : UploadIntent) (volume : DriveVolume).

Definition mark_used (i : jsstr) : list UploadIntent → list UploadIntent :=
  map (λ r, if bool_decide (ui_id r = i) && bool_decide (ui_usedAt r = None) then
    {| ui_id := ui_id r; ui_ownerId := ui_ownerId r; ui_volumeId := ui_volumeId r; ui_token := ui_token r; ui_targetPath := ui_targetPath r;
       ui_singleUse := ui_singleUse r; ui_usedAt := Some now; ui_expiresAt := ui_expiresAt r |} else r).

Definition claim (wanted : UploadIntent → bool) : driving Claim :=
  s ← read;
  match List.find wanted (dr_intents s) with
  | None => mret Missing
  | Some row =>
      match find_volume (ui_volumeId row) s with
      | None => mret Missing
      | Some volume =>
          if (ui_expiresAt row <=? now)%Z then mret Expired
          else if ui_singleUse row then
            if existsb (λ r, bool_decide (ui_id r = ui_id row) && bool_decide (ui_usedAt r = None)) (dr_intents s)
            then _ ← modify (set_intents (mark_used (ui_id row))); mret (Granted row volume)
            else mret Used
          else mret (Granted row volume)
      end
  end.

(** [path.join(LOCAL_ROOT, path.posix.join(basePath, target))] *)
Definition upload_path (basePath target : jsstr) : jsstr := posix_join [LOCAL_ROOT; posix_join [basePath; trimSlashes target]].

(** A body: what arrived, and whether that is all. *)
Definition save (granted : Claim) (body : jsstr) (complete : bool) : driving HttpAnswer :=
  match granted with
  | Missing => mret (refuse 404 "Invalid token"%js)
  | Expired => mret (refuse 410 "Token expired"%js)
  | Used => mret (refuse 409 "Token already used"%js)
  | Granted intent volume =>
      match dv_basePath volume with
      | None => mret (refuse 404 "Volume missing basePath"%js)
      | Some basePath =>
          if negb (truthy basePath) then mret (refuse 404 "Volume missing basePath"%js)
          else match normalizeTargetPath (ui_targetPath intent) with
          | None => mret (refuse 400 "Invalid targetPath"%js)
          | Some target =>
              _ ← modify (set_disk (jm_set (upload_path basePath target) body));
              mret (if complete then refuse 200 "ok"%js else refuse 500 "upload failed"%js)
          end
      end
  end.

Definition upload (token : jsstr) (body : jsstr) (complete : bool) : driving HttpAnswer :=
  if negb (truthy token) then mret (refuse 400 "Missing token"%js)
  else granted ← claim (λ r, bool_decide (ui_token r = token)); save granted body complete.

(** [normalizedTargetPath.replace(/^\/+/, "")], all in one join *)
Definition download_path (basePath target : jsstr) : jsstr := posix_join [LOCAL_ROOT; basePath; drop_slashes target].

Definition serve (granted : Claim) : driving HttpAnswer :=
  match granted with
  | Missing => mret (refuse 404 "Invalid token"%js)
  | Expired => mret (refuse 410 "Token expired"%js)
  | Used => mret (refuse 409 "Token already used"%js)
  | Granted intent volume =>
      s ← read;
      match List.find (λ e, bool_decide (de_ownerId e = ui_ownerId intent) && bool_decide (de_volumeId e = ui_volumeId intent) &&
                            bool_decide (de_path e = ui_targetPath intent)) (dr_entries s), dv_basePath volume with
      | None, _ => mret (refuse 404 "Entry not found"%js)
      | Some _, None => mret (refuse 404 "Volume missing basePath"%js)
      | Some entry, Some basePath =>
          if negb (truthy basePath) then mret (refuse 404 "Volume missing basePath"%js)
          else match normalizeTargetPath (de_path entry) with
          | None => mret (refuse 400 "Invalid targetPath"%js)
          | Some target =>
              match jm_get (download_path basePath target) (disk s) with
              | None => mret (refuse 404 "Not Found"%js)
              | Some content => mret (refuse 200 content)
              end
          end
      end
  end.

Definition download (tokenId : jsstr) : driving HttpAnswer :=
  if negb (truthy tokenId) then mret (refuse 400 "Missing token id"%js)
  else granted ← claim (λ r, bool_decide (ui_id r = tokenId)); serve granted.
End Tokens.

(** ** WebDAV *)

(** [LIKE]: a percent sign is any text, an underscore any character, a backslash takes the next one as it is. *)
Fixpoint like (p : jsstr) : jsstr → bool :=
  match p with
  | [] => λ s, bool_decide (s = [])
  | "%"%char :: p' => fix any (s : jsstr) : bool := like p' s || match s with _ :: s' => any s' | [] => false end
  | "_"%char :: p' => λ s, match s with _ :: s' => like p' s' | [] => false end
  | "\"%char :: c :: p' => λ s, match s with a :: s' => bool_decide (a = c) && like p' s' | [] => false end
  | c :: p' => λ s, match s with a :: s' => bool_decide (a = c) && like p' s' | [] => false end
  end.

(** What a PROPFIND tells of a file or folder; [di_size] is a number or a text. *)
Record DavItem := { di_href : jsstr; di_isCollection : bool; di_displayName : option jsstr; di_size : jsval; di_mimeType : option jsstr }.

Section Dav.
Context (new_id nanoid : DriveDb → jsstr).
(** [new URL(p, WEB_DAV_URL).pathname]; the status of a request and the items of a listing, [None] when [fetch] throws
    or the listing is refused. *)
Context (url_path : jsstr → jsstr) (fetch : DriveDb → jsstr → jsstr → option Z) (propfind : DriveDb → jsstr → option (list DavItem)).
Context (locale_compare : jsstr → jsstr → Z) (store_of : DriveDb → jsstr → option StorageProvider).

Definition request (method path : jsstr) : driving Z :=
  s ← read;
  _ ← modify (log_request (method, url_path path));
  or_throw (fetch s method (url_path path)).

Definition home_path (ownerId : jsstr) : jsstr := "/users/"%js ++ ownerId.

Definition is_home (ownerId : jsstr) (v : DriveVolume) : bool := bool_decide (dv_ownerId v = ownerId) && bool_decide (dv_code v = "home"%js).

Definition with_basePath (p : jsstr) (v : DriveVolume) : DriveVolume :=
  {| dv_id := dv_id v; dv_ownerId := dv_ownerId v; dv_publicId := dv_publicId v; dv_kind := dv_kind v; dv_code := dv_code v; dv_basePath := Some p;
     dv_providerId := dv_providerId v; dv_bucket := dv_bucket v |}.

Definition new_home (ownerId : jsstr) (s : DriveDb) : DriveVolume := {|
  dv_id := new_id s; dv_ownerId := ownerId; dv_publicId := nanoid s; dv_kind := "local"%js; dv_code := "home"%js;
  dv_basePath := Some (home_path ownerId); dv_providerId := None; dv_bucket := None |}.

Definition ensureHomeVolume (ownerId : jsstr) : driving DriveVolume :=
  s ← read;
  match List.find (is_home ownerId) (dr_volumes s) with
  | Some existing =>
      if bool_decide (dv_basePath existing = Some (home_path ownerId)) then mret existing
      else
        let fresh := with_basePath (home_path ownerId) existing in
        _ ← modify (set_volumes (map (λ v, if bool_decide (dv_id v = dv_id existing) then with_basePath (home_path ownerId) v else v)));
        mret fresh
  | None => _ ← modify (set_volumes (λ l, l ++ [new_home ownerId s])); mret (new_home ownerId s)
  end.

Definition discoverVolumesForOwner (ownerId : jsstr) : driving (list DriveVolume) :=
  _ ← ensureHomeVolume ownerId;
  s ← read;
  mret (List.filter (λ v, bool_decide (dv_ownerId v = ownerId)) (dr_volumes s)).

(** [ON CONFLICT (owner_id, volume_id, path) DO UPDATE SET name = drive_entries.name, ...]: the columns are set to what
    they are. *)
Definition entry_key (e : DriveEntry) : jsstr * jsstr * jsstr := (de_ownerId e, de_volumeId e, de_path e).

Definition upsert_entry (e : jsstr → DriveEntry) : driving unit :=
  s ← read;
  if bool_decide (entry_key (e []) ∈ map entry_key (dr_entries s)) then mret tt
  else modify (set_entries (λ l, l ++ [e (new_id s)])).

Definition parentDavPath (volume : DriveVolume) (ownerId : jsstr) (within : list jsstr) : jsstr :=
  let davBase := ensureTrailingSlash (default (home_path ownerId) (dv_basePath volume)) in
  ensureTrailingSlash (match within with [] => davBase | _ => joinUrlPath davBase (slash_join within) end).

Definition addFolderPath (ownerId : jsstr) (withinPath name : jsstr) : driving unit :=
  let folderName := trim name in
  if negb (truthy folderName) || includes folderName "/"%js || bool_decide (folderName = "."%js) || bool_decide (folderName = ".."%js) then throw
  else
    let within := map trimSlashes (segments_of (trimSlashes withinPath)) in
    volume ← ensureHomeVolume ownerId;
    let folderDavPath := ensureTrailingSlash (joinUrlPath (parentDavPath volume ownerId within) folderName) in
    status ← request "MKCOL"%js folderDavPath;
    if negb (bool_decide (status = 201 ∨ status = 405)%Z) then throw
    else upsert_entry (λ i, {| de_id := i; de_ownerId := ownerId; de_volumeId := dv_id volume; de_type := "folder"%js;
      de_path := toVolumeRelativePath within folderName; de_name := folderName; de_sizeBytes := num_zero; de_mimeType := None;
      de_href := Some folderDavPath |}).

Definition stripQueryHash (s : jsstr) : jsstr :=
  default s (head (split "#"%char (default [] (head (split "?"%char s))))).

(** [None] is the error. *)
Definition toHomeRelativePath (ownerId href : jsstr) : option jsstr :=
  clean ← decodeURI (stripQueryHash href);
  let base := home_path ownerId in
  let prefix := base ++ "/"%js in
  if bool_decide (clean = base) || bool_decide (clean = prefix) then Some "/"%js
  else if negb (startsWith clean prefix) then None
  else Some ("/"%js ++ trimSlashes (drop (length prefix) clean)).

Definition below (targetPath p : jsstr) : bool :=
  bool_decide (p = targetPath) || like ((if bool_decide (targetPath = "/"%js) then [] else targetPath) ++ "/%"%js) p.

Definition deletePath (ownerId volumeId href : jsstr) : driving unit :=
  let ownerId := trim ownerId in let volumeId := trim volumeId in let href := trim href in
  if negb (truthy ownerId) || negb (truthy volumeId) || negb (startsWith href "/"%js) then throw
  else
    s ← read;
    match List.find (λ v, bool_decide (dv_id v = volumeId) && bool_decide (dv_ownerId v = ownerId)) (dr_volumes s) with
    | None => throw
    | Some vol =>
        if negb (bool_decide (dv_kind vol = "local"%js)) || negb (bool_decide (dv_code vol = "home"%js)) then throw
        else
          targetPath ← or_throw (toHomeRelativePath ownerId href);
          status ← request "DELETE"%js href;
          if negb ((200 <=? status)%Z && (status <? 300)%Z) && negb (bool_decide (status = 404%Z)) then throw
          else modify (set_entries (List.filter (λ e,
                 negb (bool_decide (de_ownerId e = ownerId) && bool_decide (de_volumeId e = volumeId) && below targetPath (de_path e)))))
    end.

(** *** [webdavListPath] *)

Definition normalizeHrefPath (href : jsstr) : option jsstr := trimSlashes <$> decodeURI href.

Definition parsedSize (v : jsval) : num :=
  let n := match v with
           | VNum n => n
           | VStr t => if truthy (trim t) then string_to_number t else num_zero
           | _ => num_zero
           end in
  if is_finite_num n then n else num_zero.

(** The row of an item; none for the folder itself and for an item without a name. *)
Definition entry_of (ownerId volumeId : jsstr) (within : list jsstr) (requested : jsstr) (r : DavItem) : option (option (jsstr → DriveEntry)) :=
  if negb (truthy (di_href r)) then Some None
  else
    hrefNorm ← normalizeHrefPath (di_href r);
    if bool_decide (hrefNorm = requested) then Some None
    else
      let hrefLeaf := default [] (last (segments_of hrefNorm)) in
      let name := js_or (default [] (trim <$> di_displayName r)) hrefLeaf in
      if negb (truthy name) then Some None
      else Some (Some (λ i, {| de_id := i; de_ownerId := ownerId; de_volumeId := volumeId;
        de_type := if di_isCollection r then "folder"%js else "file"%js; de_path := toVolumeRelativePath within name; de_name := name;
        de_sizeBytes := if di_isCollection r then num_zero else parsedSize (di_size r);
        de_mimeType := if di_isCollection r then None else (di_mimeType r ≫= or_undefined); de_href := Some (di_href r) |})).

Definition compare_entries (a b : DriveEntry) : Z :=
  if bool_decide (de_type a = de_type b) then locale_compare (de_name a) (de_name b)
  else if bool_decide (de_type a = "folder"%js) then -1 else 1.

(** The same path twice in one statement is an error. *)
Definition webdavListPath (ownerId : jsstr) (segments : list jsstr) : driving (list DriveEntry) :=
  let within := map trimSlashes (List.filter truthy segments) in
  volume ← ensureHomeVolume ownerId;
  let davPath := parentDavPath volume ownerId within in
  s ← read;
  _ ← modify (log_request ("PROPFIND"%js, url_path davPath));
  responses ← or_throw (propfind s (url_path davPath));
  requested ← or_throw (normalizeHrefPath (url_path davPath));
  upserts ← or_throw (mapM (entry_of ownerId (dv_id volume) within requested) responses);
  let upserts := omap id upserts in
  match upserts with
  | [] => mret []
  | _ =>
      let paths := map (λ e : jsstr → DriveEntry, de_path (e [])) upserts in
      if negb (bool_decide (NoDup paths)) then throw
      else
        _ ← each upsert_entry upserts;
        s ← read;
        mret (sort_by compare_entries (List.filter (λ e,
          bool_decide (de_ownerId e = ownerId) && bool_decide (de_volumeId e = dv_id volume) && bool_decide (de_path e ∈ paths)) (dr_entries s)))
  end.

(** *** [listVolumes]: the disks of the server *)

Record Disk := { dk_code : jsstr; dk_label : jsstr; dk_basePath : jsstr }.

(** [None] when an address cannot be decoded. *)
Fixpoint volumes_of (volumes : list Disk) (items : list DavItem) : option (list Disk) :=
  match items with
  | [] => Some volumes
  | r :: rest =>
      if negb (truthy (di_href r)) then volumes_of volumes rest
      else
        cleaned ← normalizeHrefPath (di_href r);
        match split slash cleaned with
        | [d; code] =>
            if negb (bool_decide (d = "disks"%js)) || negb (truthy code) || existsb (λ v, bool_decide (dk_code v = code)) volumes
            then volumes_of volumes rest
            else volumes_of (volumes ++ [{| dk_code := code; dk_label := default code (di_displayName r ≫= or_undefined);
                                            dk_basePath := "/disks/"%js ++ code |}]) rest
        | _ => volumes_of volumes rest
        end
  end.

Definition listVolumes : driving (list Disk) :=
  s ← read;
  _ ← modify (log_request ("PROPFIND"%js, url_path "/disks"%js));
  responses ← or_throw (propfind s (url_path "/disks"%js));
  or_throw (volumes_of [] responses).

(** ** The actions of the web application that lead here *)

(** [normalizeWithinPath]: the segments below the volume, the path of them and the volume. *)
Definition normalizeWithinPath (uid : jsstr) (segments : list jsstr) : driving (list jsstr * jsstr * option DriveVolume) :=
  cleaned ← or_throw (mapM (λ s, trimSlashes <$> decodeURIComponent s) (List.filter truthy segments));
  let publicId := match cleaned with
                  | v :: p :: _ => if bool_decide (v = "volumes"%js) && truthy p then Some p else None
                  | _ => None
                  end in
  let within := match publicId with Some _ => drop 2 cleaned | None => cleaned end in
  let withinPath := "/"%js ++ slash_join (List.filter truthy within) in
  s ← read;
  mret (within, withinPath,
    publicId ≫= λ p, List.find (λ v, own_volume uid v && bool_decide (dv_publicId v = p)) (dr_volumes s)).

Definition fetchListPath (uid : jsstr) (path : list jsstr) : driving (list DriveEntry) := webdavListPath uid path.

Definition normalizeWithinPathString (path : jsval) : option jsstr :=
  cleaned ← decodeURIComponent (match path with VStr s => s | _ => "/"%js end);
  Some ("/"%js ++ trimSlashes cleaned).

Definition joinUiFolderPath (withinPath name : jsstr) : jsstr :=
  let out := ensureTrailingSlash (js_or withinPath "/"%js) ++ trimSlashes name in
  ensureTrailingSlash (if startsWith out "/"%js then out else "/"%js ++ out).

Definition form_text (v : jsval) : jsstr := match v with VStr s => trim s | _ => [] end.

(** The fields of the form: [name], [path], [scope] and [publicId].  [ON CONFLICT DO NOTHING] is what [upsert_entry] does. *)
Definition addNewFolder (uid : jsstr) (name path scope publicId : jsval) : driving DriveAnswer :=
  handleAction (
    let name := form_text name in
    if negb (truthy name) then mret (DriveRefused "Folder name is required"%js)
    else
      withinPath ← or_throw (normalizeWithinPathString path);
      if (match scope with VStr t => bool_decide (t = "cloud"%js) | _ => false end) then
        let publicId := form_text publicId in
        if negb (truthy publicId) then mret (DriveRefused "Missing volume"%js)
        else
          s ← read;
          match List.find (λ v, own_volume uid v && bool_decide (dv_publicId v = publicId)) (dr_volumes s) with
          | None => mret (DriveRefused "Volume not found"%js)
          | Some vol =>
              let bucket := trim (default [] (dv_bucket vol)) in
              let providerId := trim (default [] (dv_providerId vol)) in
              if negb (bool_decide (dv_kind vol = "cloud"%js)) then mret (DriveRefused "Invalid volume type"%js)
              else if negb (truthy bucket) then mret (DriveRefused "Cloud volume missing bucket"%js)
              else if negb (truthy providerId) then mret (DriveRefused "Cloud volume missing providerId"%js)
              else if negb (existsb (λ p, bool_decide (pv_ownerId p = uid) && bool_decide (pv_id p = providerId)) (dr_providers s))
              then mret (DriveRefused "Storage provider not found"%js)
              else
                store ← or_throw (store_of s providerId);
                res ← calling (sp_addFolder store bucket (joinUiFolderPath withinPath name));
                if negb (r_ok res) then mret (DriveRefused (js_or (r_message res) "Failed to create folder"%js))
                else
                  let withinSegs := map trimSlashes (segments_of (trimSlashes withinPath)) in
                  _ ← upsert_entry (λ i, {| de_id := i; de_ownerId := uid; de_volumeId := dv_id vol; de_type := "folder"%js;
                    de_path := toVolumeRelativePath withinSegs name; de_name := name; de_sizeBytes := num_zero; de_mimeType := None; de_href := None |});
                  mret DriveOk
          end
      else _ ← addFolderPath uid withinPath name; mret DriveOk).

(** [deletePath] of the actions.  An entry or a volume that is not found is an error when its columns are read; what the store
    answers is not looked at. *)
Definition deletePathAction (uid entryId : jsstr) : driving DriveAnswer :=
  handleAction (
    s ← read;
    entry ← or_throw (List.find (λ e, bool_decide (de_ownerId e = uid) && bool_decide (de_id e = entryId)) (dr_entries s));
    volume ← or_throw (List.find (λ v, own_volume uid v && bool_decide (dv_id v = de_volumeId entry)) (dr_volumes s));
    if bool_decide (dv_kind volume = "cloud"%js) then
      store ← or_throw (store_of s (provider_text volume));
      _ ← calling (sp_deleteEntry store (bucket_text volume) (de_path entry) (bool_decide (de_type entry = "folder"%js)));
      _ ← modify (set_entries (List.filter (λ e, negb (bool_decide (de_ownerId e = uid) && bool_decide (de_id e = de_id entry)))));
      mret DriveOk
    else _ ← deletePath uid (de_volumeId entry) (default [] (de_href entry)); mret DriveOk).

(** *** Volumes in the cloud *)

(** [mime.contentType] *)
Context (contentType : jsstr → option jsstr).

Definition fetchVolumes (uid : jsstr) : driving (list DriveVolume * list DriveVolume) :=
  vols ← discoverVolumesForOwner uid;
  mret (List.filter (λ v, bool_decide (dv_kind v = "local"%js) && negb (bool_decide (dv_code v = "home"%js))) vols,
        List.filter (λ v, bool_decide (dv_kind v = "cloud"%js)) vols).

Definition toDriveEntryRow (uid volumeId : jsstr) (e : ListPathEntry) (i : jsstr) : DriveEntry := {|
  de_id := i; de_ownerId := uid; de_volumeId := volumeId; de_type := if le_folder e then "folder"%js else "file"%js; de_path := le_path e;
  de_name := le_name e; de_sizeBytes := if le_folder e then num_zero else default num_zero (le_sizeBytes e);
  de_mimeType := if le_folder e then None else contentType (le_name e) ≫= or_undefined; de_href := None |}.

(** The rows that are made or were there, in the order of the listing. *)
Definition fetchCloudListPath (uid : jsstr) (driveVolume : option DriveVolume) (withinPath : jsstr) : driving (list DriveEntry) :=
  volume ← or_throw driveVolume;
  let bucket := default [] (dv_bucket volume) in
  if negb (truthy bucket) then throw
  else
    s ← read;
    store ← or_throw (store_of s (provider_text volume));
    list ← calling (sp_listPath store bucket (Some (js_or withinPath "/"%js)) (Some 200%Z) None);
    data ← or_throw (if r_ok list then r_data list else None);
    let rows := map (toDriveEntryRow uid (dv_id volume)) (ls_entries data) in
    let keys := map (λ e : jsstr → DriveEntry, entry_key (e [])) rows in
    if negb (bool_decide (NoDup keys)) then throw
    else
      _ ← each upsert_entry rows;
      s ← read;
      mret (omap (λ k, List.find (λ e, bool_decide (entry_key e = k)) (dr_entries s)) keys).

Definition joinPaths (base leaf : jsstr) : jsstr := drop_last_slashes (js_or base "/"%js) ++ "/"%js ++ drop_slashes leaf.

Record CloudUpload := { cu_providerId : jsstr; cu_bucket : jsstr; cu_path : jsstr; cu_form : option UploadForm }.

Definition getCloudUploadUrl (uid : jsstr) (driveVolume : option DriveVolume) (withinPath filename : jsstr) (contentType : option jsstr) : driving CloudUpload :=
  volume ← or_throw driveVolume;
  let providerId := default [] (dv_providerId volume) in
  let bucket := default [] (dv_bucket volume) in
  let filename := trim filename in
  if negb (truthy uid) || negb (truthy providerId) || negb (truthy bucket) || negb (truthy filename) then throw
  else
    let fullPath := joinPaths (js_or withinPath "/"%js) filename in
    s ← read;
    store ← or_throw (store_of s providerId);
    res ← calling (sp_uploadUrl store bucket fullPath (Some (60 * 5)%Z) contentType None None
                     (Some [("ownerId"%js, uid); ("volumeId"%js, dv_id volume)]));
    if negb (r_ok res) then throw
    else mret {| cu_providerId := providerId; cu_bucket := bucket; cu_path := fullPath; cu_form := r_data res |}.

(** ** What happens to the drive

    Any of the operations by any user, at any time. *)

Inductive drive_step (s : DriveDb) : DriveDb → Prop :=
  | step_token now uid targetPath volumeId scope :
      drive_step s (generateUploadToken now new_id nanoid uid targetPath volumeId scope s).1
  | step_link now uid entryId : drive_step s (fetchDownloadLink now new_id nanoid store_of uid entryId s).1
  | step_upload now token body complete : drive_step s (upload now token body complete s).1
  | step_download now tokenId : drive_step s (download now tokenId s).1
  | step_volumes ownerId : drive_step s (fetchVolumes ownerId s).1
  | step_list ownerId path : drive_step s (fetchListPath ownerId path s).1
  | step_cloud ownerId volume path : drive_step s (fetchCloudListPath ownerId volume path s).1
  | step_folder ownerId name path scope publicId : drive_step s (addNewFolder ownerId name path scope publicId s).1
  | step_delete ownerId entryId : drive_step s (deletePathAction ownerId entryId s).1
  | step_upload_url ownerId volume path filename mime : drive_step s (getCloudUploadUrl ownerId volume path filename mime s).1.
End Dav.
