(* ===== verification/DriveFilesSpecs.v ===== *)
(** * What a token can reach

    Without percent signs a target stays below the home of its volume, and what is uploaded there is served
    again; a token for one use is granted once.  The examples show what percent signs and dots do. *)

From stdpp Require Import base list relations.
From S2P Require Import Prelude JsString JsNumber JsValue.
From S2P Require Import S3Store.
From S2P Require Import DriveFiles.
From S2P Require Import Proc.

(** ** Paths of plain segments *)

Definition plain (seg : jsstr) : Prop := seg ≠ [] ∧ slash ∉ seg ∧ seg ≠ "."%js ∧ seg ≠ ".."%js.

Definition abs_path (segs : list jsstr) : jsstr := "/"%js ++ slash_join segs.

Lemma decode_plain keep s : "%"%char ∉ s → decode_uri keep s = Some s.
Proof.
  induction s as [|a s IH]; [done|]. rewrite not_elem_of_cons. intros [Ha Hs].
  assert (decode_uri keep (a :: s) = cons a <$> decode_uri keep s) as ->; [|by rewrite IH].
  destruct a as [[] [] [] [] [] [] [] []]; try reflexivity. done.
Qed.

Lemma segments_plain p : Forall (λ w, w ≠ [] ∧ slash ∉ w) (segments_of p).
Proof.
  apply Forall_forall. intros w Hw. apply list_elem_of_In, List.filter_In in Hw as [Hw Ht]. split; [by destruct w|].
  pose proof (split_Forall_no_sep slash p) as Hf. rewrite Forall_forall in Hf. apply Hf. by apply list_elem_of_In.
Qed.

Lemma segments_chars p w a : w ∈ segments_of p → a ∈ w → a ∈ p.
Proof.
  intros Hw Ha. apply list_elem_of_In, List.filter_In in Hw as [Hw _]. apply list_elem_of_In in Hw. revert w Hw Ha.
  induction p as [|b p IH]; intros w Hw Ha; cbn [split] in Hw.
  - apply list_elem_of_singleton in Hw as ->. done.
  - case_decide.
    + apply elem_of_cons in Hw as [-> | Hw]; [by apply not_elem_of_nil in Ha|]. right. by eapply IH.
    + destruct (split slash p) as [|u us] eqn:E; [apply list_elem_of_singleton in Hw as ->; by apply list_elem_of_singleton in Ha as ->; left|].
      apply elem_of_cons in Hw as [-> | Hw]; [|right; eapply IH; [right; exact Hw|done]].
      apply elem_of_cons in Ha as [-> | Ha]; [left|]. right. eapply IH; [left|done].
Qed.

Lemma mapM_decode l : Forall (λ w, "%"%char ∉ w) l → mapM decodeURIComponent l = Some l.
Proof.
  induction 1 as [|w l Hw Hl IH]; [done|]. apply mapM_cons_Some; [|done]. by apply decode_plain.
Qed.

Lemma trim_start_elem s a : a ∈ trim_start s → a ∈ s.
Proof. intros Ha. destruct (trim_start_split s) as (w & E & _). rewrite E. apply elem_of_app. by right. Qed.

Lemma trim_elem s a : a ∈ trim s → a ∈ s.
Proof. unfold trim, trim_end. rewrite elem_of_reverse. intros Ha%trim_start_elem. rewrite elem_of_reverse in Ha. by apply trim_start_elem. Qed.

(** Without percent signs the target consists of plain segments. *)
Lemma normalizeTargetPath_plain p q :
  "%"%char ∉ p → normalizeTargetPath p = Some q → ∃ segs, Forall plain segs ∧ q = abs_path segs ∧ segs = segments_of (trim p).
Proof.
  intros Hp. unfold normalizeTargetPath. rewrite mapM_decode.
  - cbn [mbind option_bind]. destruct (existsb bad_segment _) eqn:E; [done|]. intros [= <-]. eexists. split; [|by split].
    apply Forall_forall. intros w Hw. pose proof (segments_plain (trim p)) as Hs. rewrite Forall_forall in Hs. destruct (Hs w Hw) as [H1 H2].
    assert (bad_segment w = false) as Hb.
    { apply not_true_is_false. intros Ht. assert (existsb bad_segment (segments_of (trim p)) = true); [|congruence].
      apply existsb_exists. exists w. split; [by apply list_elem_of_In|done]. }
    unfold bad_segment in Hb. bool_to_prop. repeat split; try done.
  - apply Forall_forall. intros w Hw Hin. apply Hp. apply (segments_chars _ _ _ Hw) in Hin. by apply trim_elem.
Qed.

Lemma split_slash_abs segs : Forall (λ w, slash ∉ w) segs → segs ≠ [] → split slash (abs_path segs) = [] :: segs.
Proof.
  intros Hs Hne. assert (abs_path segs = slash :: join [slash] segs) as -> by done. cbn [split]. rewrite decide_True by done.
  by rewrite split_join.
Qed.

Definition plain_or_empty (w : jsstr) : Prop := w = [] ∨ plain w.

Lemma resolve_plain above acc segs :
  Forall plain_or_empty segs → resolve_dots above acc segs = reverse acc ++ List.filter truthy segs.
Proof.
  intros H. revert acc. induction H as [|w segs Hw Hs IH]; intros acc; cbn [resolve_dots List.filter]; [by rewrite app_nil_r|].
  destruct Hw as [-> | (H1 & H2 & H3 & H4)].
  - rewrite bool_decide_true by by left. apply IH.
  - rewrite bool_decide_false by tauto. rewrite bool_decide_false by done. rewrite IH, reverse_cons, <- app_assoc. by destruct w.
Qed.

Lemma plain_truthy w : plain w → truthy w = true.
Proof. intros [H _]. by destruct w. Qed.

Lemma filter_plain segs : Forall plain segs → List.filter truthy segs = segs.
Proof. induction 1 as [|w segs Hw Hs IH]; [done|]. cbn. by rewrite (plain_truthy w Hw), IH. Qed.

(** The last character of a path. *)
Lemma last_not_slash segs s : Forall plain segs → segs ≠ [] → endsWith (s ++ slash_join segs) "/"%js = false.
Proof.
  intros Hs Hne. assert (∃ a, last (slash_join segs) = Some a ∧ a ≠ slash) as (a & Ha & Hsl).
  { induction Hs as [|w segs Hw Hs IH]; [done|]. unfold slash_join in *. rewrite join_cons. destruct segs as [|w' segs].
    - rewrite app_nil_r. destruct Hw as (H1 & H2 & _). destruct (last w) as [a|] eqn:E; [|by apply last_None in E].
      exists a. split; [done|]. intros ->. apply H2. by apply last_Some_elem_of.
    - destruct (IH ltac:(done)) as (a & Ha & Hn). exists a. split; [|done]. rewrite !last_app, Ha. done. }
  unfold endsWith. destruct (reverse (s ++ slash_join segs)) as [|b t] eqn:E; [done|].
  assert (last (s ++ slash_join segs) = Some b) as Hb by (by rewrite <- head_reverse, E).
  rewrite last_app, Ha in Hb. injection Hb as <-. cbn. rewrite bool_decide_false; [done|]. intros E2. by apply Hsl.
Qed.

Lemma slash_join_cons w segs : segs ≠ [] → slash_join (w :: segs) = w ++ "/"%js ++ slash_join segs.
Proof. intros Hne. unfold slash_join. rewrite join_cons. by destruct segs. Qed.

Lemma posix_normalize_abs ws s tail :
  Forall plain_or_empty ws → abs_path ws = s ++ slash_join tail → Forall plain tail → tail ≠ [] → List.filter truthy ws ≠ [] →
  posix_normalize (abs_path ws) = abs_path (List.filter truthy ws).
Proof.
  intros Hws Es Ht Hne Hf. assert (endsWith (abs_path ws) "/"%js = false) as Hend by (rewrite Es; by apply last_not_slash).
  assert (posix_normalize (abs_path ws) = match slash_join (resolve_dots false [] (split slash (abs_path ws))) with
    | [] => "/"%js | q => "/"%js ++ q ++ (if endsWith (abs_path ws) "/"%js then "/"%js else []) end) as -> by done.
  rewrite Hend, split_slash_abs, resolve_plain.
  - rewrite reverse_nil. cbn [app List.filter truthy]. unfold abs_path. destruct (slash_join (List.filter truthy ws)) as [|a q] eqn:E.
    + exfalso. destruct (List.filter truthy ws) as [|w segs] eqn:Ef; [done|]. assert (truthy w = true) as Hw.
      { assert (In w (w :: segs)) as Hin by by left. rewrite <- Ef in Hin. by apply List.filter_In in Hin as [_ ?]. }
      unfold slash_join in E. rewrite join_cons in E. by destruct w.
    + cbn [app]. by rewrite app_nil_r.
  - constructor; [by left|done].
  - eapply Forall_impl; [exact Hws|]. intros w [-> | (_ & H & _)]; [by apply not_elem_of_nil|done].
  - intros ->. done.
Qed.

Lemma trimSlashes_plain segs : Forall plain segs → trimSlashes (abs_path segs) = slash_join segs ∧ drop_slashes (abs_path segs) = slash_join segs.
Proof.
  intros Hs. assert (drop_slashes (abs_path segs) = slash_join segs) as Hd.
  { unfold abs_path. change (drop_slashes (slash_join segs) = slash_join segs). destruct Hs as [|w segs Hw Hs]; [done|].
    destruct Hw as (H1 & H2 & _). unfold slash_join. rewrite join_cons. destruct w as [|a w]; [done|]. cbn. unfold is_slash.
    rewrite bool_decide_false by (intros ->; apply H2; left). done. }
  split; [|done]. unfold trimSlashes, drop_last_slashes. rewrite Hd. destruct (decide (segs = [])) as [->|Hne]; [done|].
  pose proof (last_not_slash segs [] Hs Hne) as Hl. cbn [app] in Hl. unfold endsWith in Hl.
  assert (drop_slashes (reverse (slash_join segs)) = reverse (slash_join segs)) as ->; [|apply reverse_involutive].
  destruct (reverse (slash_join segs)) as [|a t]; [done|]. cbn in Hl |- *. unfold is_slash. rewrite bool_decide_false; [done|].
  intros ->. by rewrite bool_decide_true in Hl.
Qed.

(** The home of a user, by name. *)
Lemma home_abs u : home_path u = abs_path ["users"%js; u].
Proof. done. Qed.

Lemma plain_word w : bool_decide (w = []) || includes w "/"%js || bool_decide (w = "."%js) || bool_decide (w = ".."%js) = false → plain w.
Proof.
  intros H. bool_to_prop. repeat split; try done. intros Hin. apply list_elem_of_split in Hin as (x & y & ->).
  assert (includes (x ++ slash :: y) "/"%js = true) as Ht; [|congruence]. apply includes_spec. by exists x, y.
Qed.

Lemma users_plain : plain "users"%js. Proof. by apply plain_word. Qed.
Lemma data_plain : plain "data"%js. Proof. by apply plain_word. Qed.

Lemma Forall_plain_or_empty segs : Forall plain segs → Forall plain_or_empty segs.
Proof. intros H. eapply Forall_impl; [exact H|]. intros w Hw. by right. Qed.

(** The path in the home of a user. *)
Definition home_file (u : jsstr) (segs : list jsstr) : jsstr := abs_path ("data"%js :: "users"%js :: u :: segs).

Lemma slash_join_truthy segs : Forall plain segs → segs ≠ [] → truthy (slash_join segs) = true.
Proof. intros Hs Hne. destruct Hs as [|w segs [Hw _] Hs]; [done|]. unfold slash_join. rewrite join_cons. by destruct w. Qed.

Lemma posix_normalize_plain segs : Forall plain segs → segs ≠ [] → posix_normalize (abs_path segs) = abs_path segs.
Proof.
  intros Hs Hne. rewrite (posix_normalize_abs segs "/"%js segs); rewrite ?filter_plain by done; try done. by apply Forall_plain_or_empty.
Qed.

(** An absolute path below the root of the disk. *)
Lemma posix_normalize_root segs :
  Forall plain segs → segs ≠ [] → posix_normalize ("/data/"%js ++ abs_path segs) = abs_path ("data"%js :: segs).
Proof.
  intros Hs Hne. assert ("/data/"%js ++ abs_path segs = abs_path ("data"%js :: [] :: segs)) as E.
  { unfold abs_path. rewrite !slash_join_cons by done. done. }
  rewrite E, (posix_normalize_abs _ "/data//"%js segs); [cbn [List.filter truthy]; by rewrite filter_plain| |by rewrite <- E|done|done|done].
  constructor; [right; apply data_plain|]. constructor; [by left|]. by apply Forall_plain_or_empty.
Qed.

Lemma posix_join_snoc l j : truthy j = true → posix_join (l ++ [j]) = posix_normalize (slash_join (List.filter truthy l ++ [j])).
Proof. intros Hj. unfold posix_join. rewrite List.filter_app. cbn [List.filter]. rewrite Hj. by destruct (List.filter truthy l). Qed.

Lemma join_home u w segs : slash_join [home_path u; slash_join (w :: segs)] = abs_path ("users"%js :: u :: w :: segs).
Proof.
  rewrite home_abs. unfold abs_path. rewrite !slash_join_cons by done. unfold slash_join at 1. cbn [join]. by rewrite <- !app_assoc.
Qed.

(** What is put below a home, before and after it is normalized. *)
Lemma below_home u segs : plain u → Forall plain segs →
  posix_join [home_path u; slash_join segs] = abs_path ("users"%js :: u :: segs) ∧
  posix_join [LOCAL_ROOT; home_path u; slash_join segs] = home_file u segs.
Proof.
  intros Hu Hs. assert (Forall plain ("users"%js :: u :: segs)) as Hall by (constructor; [apply users_plain|by constructor]).
  destruct segs as [|w tail].
  - split; [by apply (posix_normalize_plain ["users"%js; u])|by apply (posix_normalize_root ["users"%js; u])].
  - assert (truthy (slash_join (w :: tail)) = true) as Hj by by apply slash_join_truthy. split.
    + assert (posix_join [home_path u; slash_join (w :: tail)] = posix_normalize (slash_join [home_path u; slash_join (w :: tail)])) as ->
        by by apply (posix_join_snoc [home_path u]).
      rewrite join_home. by apply posix_normalize_plain.
    + assert (posix_join [LOCAL_ROOT; home_path u; slash_join (w :: tail)] =
        posix_normalize (slash_join [LOCAL_ROOT; home_path u; slash_join (w :: tail)])) as -> by by apply (posix_join_snoc [LOCAL_ROOT; home_path u]).
      rewrite slash_join_cons, join_home by done. by apply (posix_normalize_root ("users"%js :: u :: w :: tail)).
Qed.

Lemma upload_path_plain u segs : plain u → Forall plain segs → upload_path (home_path u) (abs_path segs) = home_file u segs.
Proof.
  intros Hu Hs. unfold upload_path. rewrite (proj1 (trimSlashes_plain segs Hs)), (proj1 (below_home u segs Hu Hs)).
  change (posix_join [LOCAL_ROOT; abs_path ("users"%js :: u :: segs)]) with (posix_normalize ("/data/"%js ++ abs_path ("users"%js :: u :: segs))).
  apply posix_normalize_root; [|done]. constructor; [apply users_plain|by constructor].
Qed.

Lemma download_path_plain u segs : plain u → Forall plain segs → download_path (home_path u) (abs_path segs) = home_file u segs.
Proof. intros Hu Hs. unfold download_path. rewrite (proj2 (trimSlashes_plain segs Hs)). by apply below_home. Qed.

(** ** Uploads stay in the home *)

Lemma ret_same {A} (a : A) (s s' : DriveDb) o : (mret a : driving A) s = (s', o) → s' = s.
Proof. by intros [= <- _]. Qed.

Lemma claim_granted now wanted s s' r v :
  claim now wanted s = (s', Done (Granted r v)) →
  r ∈ dr_intents s ∧ wanted r = true ∧ find_volume (ui_volumeId r) s = Some v ∧ (now < ui_expiresAt r)%Z.
Proof.
  unfold claim, mbind, proc_bind, read. destruct (List.find wanted (dr_intents s)) as [x|] eqn:Ef; [|done].
  destruct (find_volume (ui_volumeId x) s) as [w|] eqn:Ev; [|done]. destruct (ui_expiresAt x <=? now)%Z eqn:Et; [done|].
  apply List.find_some in Ef as [Hin Hw]. intros H.
  assert (x = r ∧ w = v) as [-> ->].
  { destruct (ui_singleUse x); [destruct (existsb _ _)|]; cbv [modify mret proc_ret] in H; by inversion H. }
  split_and!; [by apply list_elem_of_In|done|done|]. by bool_to_prop.
Qed.

Lemma claim_disk now wanted s : disk (claim now wanted s).1 = disk s ∧ dr_volumes (claim now wanted s).1 = dr_volumes s ∧
  dr_entries (claim now wanted s).1 = dr_entries s.
Proof.
  unfold claim, mbind, proc_bind, read. destruct (List.find _ _) as [x|]; [|done]. destruct (find_volume _ _); [|done].
  destruct (_ <=? _)%Z; [done|]. destruct (ui_singleUse x); [|done]. by destruct (existsb _ _).
Qed.

Lemma claim_total now wanted s : ∃ c, (claim now wanted s).2 = Done c.
Proof.
  unfold claim, mbind, proc_bind, read. destruct (List.find _ _) as [x|]; [|by eexists]. destruct (find_volume _ _); [|by eexists].
  destruct (_ <=? _)%Z; [by eexists|]. destruct (ui_singleUse x); [|by eexists]. destruct (existsb _ _); by eexists.
Qed.

(** Uploads stay in the home of their volume.  When no target of a token has a percent sign and every volume is the home of a
    user, an upload, whatever the token and the body, changes no file or writes the body to one file: that of
    plain segments below the home the token was made for. *)
Theorem upload_stays_home now token body complete s s' o
    (Hv : ∀ v, v ∈ dr_volumes s → ∃ u, plain u ∧ dv_basePath v = Some (home_path u))
    (Ht : ∀ r, r ∈ dr_intents s → "%"%char ∉ ui_targetPath r)
    (Hup : upload now token body complete s = (s', o)) :
  disk s' = disk s ∨
  ∃ r v u segs, r ∈ dr_intents s ∧ ui_token r = token ∧ (now < ui_expiresAt r)%Z ∧ find_volume (ui_volumeId r) s = Some v ∧
    dv_basePath v = Some (home_path u) ∧ Forall plain segs ∧ disk s' = jm_set (home_file u segs) body (disk s).
Proof.
  unfold upload in Hup. destruct (negb (truthy token)); [left; by apply ret_same in Hup as ->|].
  set (wanted := λ r, bool_decide (ui_token r = token)) in Hup. unfold mbind at 1, proc_bind at 1 in Hup.
  pose proof (claim_disk now wanted s) as (Hd & _ & _). pose proof (claim_granted now wanted s) as Hg.
  destruct (claim now wanted s) as [s1 [c|]]; [|left; cbn in Hd; by injection Hup as <- _]. cbn [fst] in Hd.
  destruct c as [| | |r v]; try (left; by apply ret_same in Hup as ->).
  destruct (Hg s1 r v eq_refl) as (Hr & Hw & Hf & Hex).
  assert (v ∈ dr_volumes s) as Hin by (apply List.find_some in Hf as [Hf _]; by apply list_elem_of_In).
  destruct (Hv v Hin) as (u & Hu & Hb). unfold save in Hup. rewrite Hb in Hup. assert (truthy (home_path u) = true) as Htr by done.
  rewrite Htr in Hup. cbn [negb] in Hup. destruct (normalizeTargetPath (ui_targetPath r)) as [q|] eqn:Eq; [|left; by apply ret_same in Hup as ->].
  destruct (normalizeTargetPath_plain _ _ (Ht r Hr) Eq) as (segs & Hs & -> & _). right. exists r, v, u, segs.
  unfold wanted in Hw. bool_to_prop. rewrite upload_path_plain in Hup by done.
  cbv [modify mbind proc_bind mret proc_ret] in Hup. injection Hup as <- _. split_and!; try done. cbn. by rewrite Hd.
Qed.

(** ** A token for one use is granted once *)

(** The ids and the tokens of the intents are keys. *)
Definition keys_ok (s : DriveDb) : Prop := NoDup (map ui_id (dr_intents s)) ∧ NoDup (map ui_token (dr_intents s)).

Definition later (r r' : UploadIntent) : Prop :=
  ui_id r' = ui_id r ∧ ui_token r' = ui_token r ∧ ui_singleUse r' = ui_singleUse r ∧ (ui_usedAt r ≠ None → ui_usedAt r' ≠ None).

(** No intent is lost, and none that was used is unused again. *)
Definition keeps_intents (s s' : DriveDb) : Prop :=
  (keys_ok s → keys_ok s') ∧ ∀ r, r ∈ dr_intents s → ∃ r', r' ∈ dr_intents s' ∧ later r r'.

#[export] Instance later_preorder : PreOrder later.
Proof.
  split; [done|]. intros a b c (H1 & H2 & H3 & H4) (K1 & K2 & K3 & K4). unfold later. split_and!; try congruence. tauto.
Qed.

#[export] Instance keeps_intents_preorder : PreOrder keeps_intents.
Proof.
  split.
  - intros s. split; [done|]. intros r Hr. exists r. by split.
  - intros a b c [H1 H2] [K1 K2]. split; [tauto|]. intros r (r' & Hr & L)%H2. apply K2 in Hr as (r'' & Hr & L'). exists r''. split; [done|by etrans].
Qed.

Lemma same_intents s s' : dr_intents s' = dr_intents s → keeps_intents s s'.
Proof. intros E. unfold keeps_intents, keys_ok. rewrite E. split; [done|]. intros r Hr. exists r. by split. Qed.

Lemma mark_later now i l r : r ∈ l → ∃ r', r' ∈ mark_used now i l ∧ later r r'.
Proof.
  intros Hr. eexists. split; [apply (list_elem_of_fmap_2 _ _ _ Hr)|]. cbn beta.
  destruct (bool_decide (ui_id r = i) && bool_decide (ui_usedAt r = None)); [|done]. by unfold later.
Qed.

Lemma mark_keys now i l : map ui_id (mark_used now i l) = map ui_id l ∧ map ui_token (mark_used now i l) = map ui_token l.
Proof.
  unfold mark_used. rewrite !List.map_map. split; apply List.map_ext; intros r; by destruct (_ && _).
Qed.

Lemma keys_set f s : NoDup (map ui_id (f (dr_intents s))) ∧ NoDup (map ui_token (f (dr_intents s))) → keys_ok (set_intents f s).
Proof. done. Qed.

Lemma keeps_claim now wanted : steps keeps_intents (claim now wanted).
Proof.
  unfold claim. apply (steps_bind_read keeps_intents). intros s. destruct (List.find _ _) as [x|]; [|done]. destruct (find_volume _ _); [|done].
  destruct (_ <=? _)%Z; [done|]. destruct (ui_singleUse x); [|done]. destruct (existsb _ _); [|done]. split.
  - destruct (mark_keys now (ui_id x) (dr_intents s)) as [E1 E2]. intros [H1 H2].
    apply keys_set. by rewrite E1, E2.
  - intros r Hr. by apply mark_later.
Qed.

Section Runs.
Context (new_id nanoid : DriveDb → jsstr) (url_path : jsstr → jsstr) (fetch : DriveDb → jsstr → jsstr → option Z).
Context (propfind : DriveDb → jsstr → option (list DavItem)) (locale_compare : jsstr → jsstr → Z).
Context (store_of : DriveDb → jsstr → option StorageProvider) (contentType : jsstr → option jsstr).
(** An id that is made is new. *)
Context (Hnew : ∀ s, new_id s ∉ map ui_id (dr_intents s)).

Lemma keeps_insert now uid v t b : steps keeps_intents (insert_intent now new_id nanoid uid v t b).
Proof.
  unfold insert_intent. apply (steps_bind_read keeps_intents). intros s. case_bool_decide as Hn; [done|]. split.
  - intros [H1 H2]. apply keys_set. rewrite !List.map_app. split; apply NoDup_app; split_and!; try done; try apply NoDup_singleton.
    + intros x Hx ->%list_elem_of_singleton. by apply (Hnew s).
    + intros x Hx ->%list_elem_of_singleton. done.
  - intros r Hr. exists r. split; [|done]. apply elem_of_app. by left.
Qed.

Lemma keeps_modify f : (∀ s, dr_intents (f s) = dr_intents s) → steps keeps_intents (modify f).
Proof. intros H s. apply same_intents, H. Qed.

#[local] Hint Resolve keeps_claim keeps_insert keeps_modify : webmail.

Lemma drive_step_keeps s s' : drive_step new_id nanoid url_path fetch propfind locale_compare store_of contentType s s' → keeps_intents s s'.
Proof.
  assert (∀ {A} (p : driving A), steps keeps_intents p → keeps_intents s (p s).1) as run by (intros A p H; apply H).
  assert (∀ {A} (o : option A), steps keeps_intents (or_throw o)) as Ho by (intros A o s0; by destruct o).
  assert (∀ m p, steps keeps_intents (request url_path fetch m p)) as Hr by (unfold request; run_steps).
  assert (∀ e, steps keeps_intents (upsert_entry new_id e)) as Hu by (unfold upsert_entry; run_steps).
  assert (∀ o, steps keeps_intents (ensureHomeVolume new_id nanoid o)) as He by (unfold ensureHomeVolume; run_steps).
  assert (∀ {A} (p : s3 A), steps keeps_intents (calling p)) as Hcall.
  { intros A p s0. unfold calling. destruct (p (cloud s0)) as [w [x|x]]; by apply same_intents. }
  intros [now uid p v sc|now uid e|now t b c|now i|o|o p|o v p|o n p sc v|o e|o v p f m]; apply run.
  - unfold generateUploadToken. run_steps.
  - unfold fetchDownloadLink, handleAction. run_steps.
  - unfold upload, save. run_steps.
  - unfold download, serve. run_steps.
  - unfold fetchVolumes, discoverVolumesForOwner. run_steps.
  - unfold fetchListPath, webdavListPath. run_steps.
  - unfold fetchCloudListPath. run_steps.
  - unfold addNewFolder, handleAction, addFolderPath. run_steps.
  - unfold deletePathAction, handleAction, deletePath. run_steps.
  - unfold getCloudUploadUrl. run_steps.
Qed.

Lemma drive_run_keeps s s' : rtc (drive_step new_id nanoid url_path fetch propfind locale_compare store_of contentType) s s' → keeps_intents s s'.
Proof. induction 1 as [|s1 s2 s3 H1 _ IH]; [done|]. apply drive_step_keeps in H1. by etrans. Qed.
End Runs.

(** The row found by a key. *)
Lemma find_by_key {A} (f : A → jsstr) l x : NoDup (map f l) → x ∈ l → List.find (λ r, bool_decide (f r = f x)) l = Some x.
Proof.
  intros Hn Hx. destruct (List.find _ l) as [y|] eqn:E.
  - apply List.find_some in E as [Hy E]. bool_to_prop. f_equal. apply (NoDup_map_inj f l); [done|by apply list_elem_of_In|done|done].
  - apply list_elem_of_In, (List.find_none _ _ E) in Hx. by rewrite bool_decide_true in Hx.
Qed.

Lemma existsb_key (l : list UploadIntent) r :
  NoDup (map ui_id l) → r ∈ l → existsb (λ x, bool_decide (ui_id x = ui_id r) && bool_decide (ui_usedAt x = None)) l = bool_decide (ui_usedAt r = None).
Proof.
  intros Hn Hr. case_bool_decide as Hu.
  - apply existsb_exists. exists r. split; [by apply list_elem_of_In|]. by rewrite !bool_decide_true.
  - apply not_true_is_false. intros (x & Hx & H)%existsb_exists. apply list_elem_of_In in Hx. bool_to_prop.
    apply Hu. by rewrite <- (NoDup_map_inj ui_id l x r) by done.
Qed.

Definition by_token (t : jsstr) (r : UploadIntent) : bool := bool_decide (ui_token r = t).

(** What a transaction finds for a token of one use. *)
Lemma claim_by_token now s r : keys_ok s → r ∈ dr_intents s → ui_singleUse r = true →
  claim now (by_token (ui_token r)) s =
  match find_volume (ui_volumeId r) s with
  | None => (s, Done Missing)
  | Some v => if (ui_expiresAt r <=? now)%Z then (s, Done Expired)
              else if bool_decide (ui_usedAt r = None) then (set_intents (mark_used now (ui_id r)) s, Done (Granted r v)) else (s, Done Used)
  end.
Proof.
  intros [Hi Ht] Hr Hs. unfold claim. rewrite read_bind. unfold by_token. rewrite (find_by_key ui_token) by done.
  destruct (find_volume _ s) as [v|]; [|done]. destruct (_ <=? _)%Z; [done|]. rewrite Hs, existsb_key by done. by case_bool_decide.
Qed.

Lemma used_refused now s r body complete : keys_ok s → r ∈ dr_intents s → ui_singleUse r = true → ui_usedAt r ≠ None →
  ∃ a, upload now (ui_token r) body complete s = (s, Done a) ∧ (status a ∈ [400; 404; 409; 410])%Z.
Proof.
  intros Hk Hr Hs Hu. unfold upload. destruct (negb (truthy (ui_token r))); [exists (refuse 400 "Missing token"%js); split; [done|set_solver]|].
  fold (by_token (ui_token r)). unfold mbind, proc_bind. rewrite claim_by_token, bool_decide_false by done.
  destruct (find_volume _ s) as [v|]; [|by eexists; split; [done|set_solver]]. destruct (_ <=? _)%Z; by eexists; split; [done|set_solver].
Qed.

(** C19: A token for one use writes once.  When an upload with such a token was answered with [ok], then, whatever happened to the
    drive since, by any user and at any time, an upload with it is refused and changes nothing. *)
Theorem token_writes_once new_id nanoid url_path fetch propfind locale_compare store_of contentType s s1 s2 r now body complete now' body' complete'
    (Hnew : ∀ s, new_id s ∉ map ui_id (dr_intents s)) (Hk : keys_ok s) (Hr : r ∈ dr_intents s) (Hs : ui_singleUse r = true)
    (Hfirst : upload now (ui_token r) body complete s = (s1, Done (refuse 200 "ok"%js)))
    (Hrun : rtc (drive_step new_id nanoid url_path fetch propfind locale_compare store_of contentType) s1 s2) :
  ∃ a, upload now' (ui_token r) body' complete' s2 = (s2, Done a) ∧ (status a ∈ [400; 404; 409; 410])%Z.
Proof.
  assert (keys_ok s1 ∧ ∃ q, q ∈ dr_intents s1 ∧ later r q ∧ ui_usedAt q ≠ None) as (Hk1 & q & Hq & (_ & Et & Es & _) & Hu).
  { unfold upload in Hfirst. destruct (negb (truthy (ui_token r))); [by injection Hfirst|]. fold (by_token (ui_token r)) in Hfirst.
    unfold mbind at 1, proc_bind at 1 in Hfirst. rewrite claim_by_token in Hfirst by done.
    destruct (find_volume _ s) as [v|]; [|by injection Hfirst]. destruct (_ <=? _)%Z; [by injection Hfirst|].
    case_bool_decide as Hu; [|by injection Hfirst]. unfold save in Hfirst.
    destruct (dv_basePath v) as [b|]; [|by injection Hfirst]. destruct (negb (truthy b)); [by injection Hfirst|].
    destruct (normalizeTargetPath _) as [t|]; [|by injection Hfirst]. injection Hfirst as <- _. split.
    - destruct (mark_keys now (ui_id r) (dr_intents s)) as [E1 E2]. destruct Hk. unfold keys_ok. cbn [dr_intents set_disk set_intents]. by rewrite E1, E2.
    - eexists. split; [apply (list_elem_of_fmap_2 _ _ _ Hr)|]. cbn beta. by rewrite !bool_decide_true. }
  destruct (drive_run_keeps _ _ _ _ _ _ _ _ Hnew s1 s2 Hrun) as [Hk2 H2]. destruct (H2 q Hq) as (q' & Hq' & (_ & Et' & Es' & Hu')).
  rewrite <- Et, <- Et'. apply used_refused; [by apply Hk2|done|congruence|by apply Hu'].
Qed.

(** ** What is uploaded is served *)

(** A path as the browser makes it from names without percent signs and zeros; [trim] leaves it. *)
Definition clean_path (segs : list jsstr) : Prop :=
  segs ≠ [] ∧ Forall plain segs ∧ Forall (λ w, "%"%char ∉ w ∧ Ascii.zero ∉ w) segs ∧ trim (abs_path segs) = abs_path segs.

Lemma includes_char a s : a ∉ s → includes s [a] = false.
Proof.
  intros Ha. apply not_true_is_false. intros (x & y & ->)%includes_spec. apply Ha. apply elem_of_app. right. left.
Qed.

Lemma normalizeTargetPath_clean segs : clean_path segs → normalizeTargetPath (abs_path segs) = Some (abs_path segs).
Proof.
  intros (Hne & Hp & Hc & Ht). unfold normalizeTargetPath. rewrite Ht. unfold segments_of. rewrite split_slash_abs by
    (done || (eapply Forall_impl; [exact Hp|by intros w (_ & H & _)])).
  cbn [List.filter truthy]. rewrite filter_plain, mapM_decode by (done || (eapply Forall_impl; [exact Hc|by intros w [H _]])).
  cbn [mbind option_bind]. assert (existsb bad_segment segs = false) as ->; [|done].
  apply not_true_is_false. intros (w & Hw & Hb)%existsb_exists. apply list_elem_of_In in Hw. rewrite Forall_forall in Hp, Hc.
  destruct (Hp w Hw) as (_ & _ & H1 & H2), (Hc w Hw) as [_ H3]. unfold bad_segment in Hb.
  rewrite (includes_char _ _ H3) in Hb. by rewrite !bool_decide_false in Hb.
Qed.

Lemma find_snoc_key {A} (f : A → jsstr) l x : f x ∉ map f l → List.find (λ r, bool_decide (f r = f x)) (l ++ [x]) = Some x.
Proof.
  intros Hn. rewrite find_app. destruct (List.find _ l) as [y|] eqn:E.
  - apply List.find_some in E as [Hy E]. bool_to_prop. exfalso. apply Hn. rewrite <- E. by apply list_elem_of_In, List.in_map.
  - cbn. by rewrite bool_decide_true.
Qed.

Section Served.
Context (new_id nanoid : DriveDb → jsstr).
Context (Hnew : ∀ s, new_id s ∉ map ui_id (dr_intents s)) (Hnano : ∀ s, nanoid s ∉ map ui_token (dr_intents s)).
Context (Hid : ∀ s, truthy (new_id s) = true) (Htoken : ∀ s, truthy (nanoid s) = true).
Context (store_of : DriveDb → jsstr → option StorageProvider).

Definition fresh_intent (now : Z) (s : DriveDb) (uid volumeId target : jsstr) (once : bool) : UploadIntent :=
  {| ui_id := new_id s; ui_ownerId := uid; ui_volumeId := volumeId; ui_token := nanoid s; ui_targetPath := target;
     ui_singleUse := once; ui_usedAt := None; ui_expiresAt := (now + ten_minutes)%Z |}.

Definition with_intent (r : UploadIntent) (s : DriveDb) : DriveDb := set_intents (λ l, l ++ [r]) s.

Lemma insert_intent_run now uid volumeId target once s :
  insert_intent now new_id nanoid uid volumeId target once s =
  (with_intent (fresh_intent now s uid volumeId target once) s, Done (fresh_intent now s uid volumeId target once)).
Proof. unfold insert_intent. rewrite read_bind, bool_decide_false by apply Hnano. done. Qed.

(** A token for a path in the home of its maker. *)
Lemma generateUploadToken_home now uid segs s v :
  clean_path segs → List.find (is_home uid) (dr_volumes s) = Some v →
  generateUploadToken now new_id nanoid uid (abs_path segs) None "home"%js s =
  (with_intent (fresh_intent now s uid (dv_id v) (abs_path segs) true) s, Done (fresh_intent now s uid (dv_id v) (abs_path segs) true)).
Proof.
  intros Hc Hv. unfold generateUploadToken. rewrite read_bind, bool_decide_true by done.
  change (λ v0, own_volume uid v0 && bool_decide (dv_code v0 = "home"%js)) with (is_home uid). rewrite Hv.
  rewrite !or_throw_bind, normalizeTargetPath_clean by done. apply insert_intent_run.
Qed.

(** The rows that the handlers find. *)
Lemma find_own {A} (g : A → bool) (f : A → jsstr) l x :
  NoDup (map f l) → x ∈ l → g x = true → List.find (λ y, g y && bool_decide (f y = f x)) l = Some x.
Proof.
  intros Hn Hx Hg. destruct (List.find _ l) as [y|] eqn:E.
  - apply List.find_some in E as [Hy E]. bool_to_prop. f_equal. apply (NoDup_map_inj f l); [done|by apply list_elem_of_In|done|done].
  - apply list_elem_of_In, (List.find_none _ _ E) in Hx. by rewrite Hg, bool_decide_true in Hx.
Qed.

Lemma claim_found now wanted s r v :
  List.find wanted (dr_intents s) = Some r → find_volume (ui_volumeId r) s = Some v → (now < ui_expiresAt r)%Z → ui_usedAt r = None →
  claim now wanted s = (if ui_singleUse r then set_intents (mark_used now (ui_id r)) s else s, Done (Granted r v)).
Proof.
  intros Hf Hv Ht Hu. unfold claim. rewrite read_bind, Hf, Hv. assert ((ui_expiresAt r <=? now)%Z = false) as -> by lia.
  destruct (ui_singleUse r); [|done]. assert (existsb (λ x, bool_decide (ui_id x = ui_id r) && bool_decide (ui_usedAt x = None)) (dr_intents s) = true) as ->.
  { apply existsb_exists. apply List.find_some in Hf as [Hin _]. exists r. by rewrite !bool_decide_true. }
  done.
Qed.

Lemma upload_fresh now now' uid v segs s body :
  plain uid → clean_path segs → find_volume (dv_id v) s = Some v → dv_basePath v = Some (home_path uid) → (now' < now + ten_minutes)%Z →
  let r := fresh_intent now s uid (dv_id v) (abs_path segs) true in
  upload now' (nanoid s) body true (with_intent r s) =
  (set_disk (jm_set (home_file uid segs) body) (set_intents (mark_used now' (ui_id r)) (with_intent r s)), Done (refuse 200 "ok"%js)).
Proof.
  intros Hu Hc Hv Hb Ht r. unfold upload. rewrite Htoken. cbn [negb].
  rewrite (bind_run _ _ _ _ _ (claim_found now' (λ x, bool_decide (ui_token x = nanoid s)) (with_intent r s) r v
    (find_snoc_key ui_token (dr_intents s) r (Hnano s)) Hv Ht eq_refl)).
  unfold save. rewrite Hb. assert (truthy (home_path uid) = true) as -> by done. cbn [negb ui_targetPath r fresh_intent].
  change (ui_targetPath r) with (abs_path segs). rewrite normalizeTargetPath_clean, upload_path_plain by (done || apply Hc). done.
Qed.

Lemma fetchDownloadLink_run now uid segs e v s :
  clean_path segs → NoDup (map de_id (dr_entries s)) → NoDup (map dv_id (dr_volumes s)) → e ∈ dr_entries s → v ∈ dr_volumes s →
  truthy (de_id e) = true → de_ownerId e = uid → de_volumeId e = dv_id v → de_path e = abs_path segs → dv_ownerId v = uid → dv_kind v ≠ "cloud"%js →
  let r := fresh_intent now s uid (dv_id v) (abs_path segs) false in
  fetchDownloadLink now new_id nanoid store_of uid (de_id e) s = (with_intent r s, Done (DriveUrl ("/webdav/tokens/"%js ++ new_id s))).
Proof.
  intros Hc He Hv Hin Hvin Hid' Ho Hvol Hpath Hvo Hkind r. unfold fetchDownloadLink, handleAction, catch. rewrite Hid'. cbn [negb].
  rewrite read_bind, (find_own (λ e, bool_decide (de_ownerId e = uid)) de_id) by (done || by apply bool_decide_true).
  rewrite Hvol, (find_own (own_volume uid) dv_id) by (done || by apply bool_decide_true).
  rewrite bool_decide_false by done. cbn [negb].
  rewrite or_throw_bind, Hpath, normalizeTargetPath_clean by done. unfold mbind, proc_bind. by rewrite insert_intent_run.
Qed.

Lemma download_fresh now now' uid v segs s body :
  plain uid → clean_path segs → find_volume (dv_id v) s = Some v → dv_basePath v = Some (home_path uid) → (now' < now + ten_minutes)%Z →
  (∃ e, e ∈ dr_entries s ∧ de_ownerId e = uid ∧ de_volumeId e = dv_id v ∧ de_path e = abs_path segs) →
  jm_get (home_file uid segs) (disk s) = Some body →
  let s' := with_intent (fresh_intent now s uid (dv_id v) (abs_path segs) false) s in
  download now' (new_id s) s' = (s', Done (refuse 200 body)).
Proof.
  intros Hu Hc Hv Hb Ht (e & He & E1 & E2 & E3) Hd s'. set (r := fresh_intent now s uid (dv_id v) (abs_path segs) false) in s'.
  unfold download. rewrite Hid. cbn [negb].
  rewrite (bind_run _ _ _ _ _ (claim_found now' (λ x, bool_decide (ui_id x = new_id s)) s' r v
    (find_snoc_key ui_id (dr_intents s) r (Hnew s)) Hv Ht eq_refl)).
  cbn [ui_singleUse r fresh_intent]. unfold serve. rewrite read_bind. change (dr_entries s') with (dr_entries s).
  destruct (List.find _ (dr_entries s)) as [x|] eqn:Ef.
  - apply List.find_some in Ef as [_ [_ ->%bool_decide_eq_true]%andb_true_iff]. rewrite Hb. assert (truthy (home_path uid) = true) as -> by done. cbn [negb].
    change (ui_targetPath r) with (abs_path segs).
    rewrite normalizeTargetPath_clean, download_path_plain by (done || apply Hc). change (disk s') with (disk s). by rewrite Hd.
  - apply list_elem_of_In, (List.find_none _ _ Ef) in He. by rewrite !bool_decide_true in He.
Qed.
End Served.

(** C20: What is uploaded is served, when the names are plain.  A user has a home that is a local volume at the user's path, and in it an
    entry for a file whose path is made of names that are not empty, a dot or two dots, and have no slash, percent sign or NUL,
    and that is the same after trim; the user's id is such a name too; keys are used once, and fresh ids and tokens are neither used already nor empty.  The user uploads the
    file again, with a token, and asks for the link to it, each before its ten minutes are over and with nobody else at work: every answer
    is a success, and the link gives the body that was uploaded last.  (A file
    whose name has a percent sign may not be served: percent_is_not_served.) *)
Theorem uploaded_file_is_served new_id nanoid store_of now now1 now2 now3 uid segs e v s body
    (Hnew : ∀ s, new_id s ∉ map ui_id (dr_intents s)) (Hnano : ∀ s, nanoid s ∉ map ui_token (dr_intents s))
    (Hid : ∀ s, truthy (new_id s) = true) (Htoken : ∀ s, truthy (nanoid s) = true)
    (Hu : plain uid) (Hc : clean_path segs) (Hv : v ∈ dr_volumes s) (Hhome : List.find (is_home uid) (dr_volumes s) = Some v)
    (Hkind : dv_kind v = "local"%js) (Hb : dv_basePath v = Some (home_path uid)) (Hvs : NoDup (map dv_id (dr_volumes s))) (Hes : NoDup (map de_id (dr_entries s)))
    (He : e ∈ dr_entries s) (Heid : truthy (de_id e) = true) (Hown : de_ownerId e = uid) (Hvol : de_volumeId e = dv_id v)
    (Hpath : de_path e = abs_path segs) (Ht1 : (now1 < now + ten_minutes)%Z) (Ht3 : (now3 < now2 + ten_minutes)%Z) :
  ∃ s1 token s2 s3 link, generateUploadToken now new_id nanoid uid (abs_path segs) None "home"%js s = (s1, Done token) ∧
    upload now1 (ui_token token) body true s1 = (s2, Done (refuse 200 "ok"%js)) ∧
    fetchDownloadLink now2 new_id nanoid store_of uid (de_id e) s2 = (s3, Done (DriveUrl ("/webdav/tokens/"%js ++ link))) ∧
    download now3 link s3 = (s3, Done (refuse 200 body)).
Proof.
  assert (find_volume (dv_id v) s = Some v) as Hf by by apply (find_by_key dv_id).
  assert (dv_ownerId v = uid) as Hvo by (apply List.find_some in Hhome as [_ Hh]; unfold is_home in Hh; by bool_to_prop).
  do 5 eexists. split_and!.
  - by apply generateUploadToken_home.
  - by apply upload_fresh.
  - apply (fetchDownloadLink_run _ _ Hnano store_of now2 uid segs e v); try done. by rewrite Hkind.
  - apply download_fresh; try done; [by exists e|]. apply jm_get_set_eq.
Qed.

(** ** Two homes *)

Definition next_id (s : DriveDb) : jsstr := List.concat (map ui_id (dr_intents s)) ++ "i"%js.
Definition next_token (s : DriveDb) : jsstr := List.concat (map ui_token (dr_intents s)) ++ "t"%js.

Lemma concat_fresh (l : list jsstr) a : List.concat l ++ [a] ∉ l.
Proof.
  assert (∀ x, x ∈ l → (length x ≤ length (List.concat l))%nat) as H.
  { induction l as [|y l IH]; [by intros x ?%not_elem_of_nil|]. intros x [-> | Hx]%elem_of_cons; cbn; rewrite length_app; [lia|].
    specialize (IH x Hx). lia. }
  intros Hin%H. rewrite length_app in Hin. cbn in Hin. lia.
Qed.

Lemma next_id_fresh s : next_id s ∉ map ui_id (dr_intents s). Proof. apply concat_fresh. Qed.
Lemma next_token_fresh s : next_token s ∉ map ui_token (dr_intents s). Proof. apply concat_fresh. Qed.
Lemma absent (a : ascii) (s : jsstr) : bool_decide (a ∈ s) = false → a ∉ s. Proof. apply bool_decide_eq_false_1. Qed.
Lemma distinct (l : list jsstr) : bool_decide (NoDup l) = true → NoDup l. Proof. apply bool_decide_eq_true_1. Qed.
Lemma snoc_truthy (u : jsstr) a : truthy (u ++ [a]) = true. Proof. by destruct u. Qed.

Definition home_of (i u : jsstr) : DriveVolume := {| dv_id := i; dv_ownerId := u; dv_publicId := i; dv_kind := "local"%js; dv_code := "home"%js;
  dv_basePath := Some (home_path u); dv_providerId := None; dv_bucket := None |}.
Definition cloud_of (i u : jsstr) : DriveVolume := {| dv_id := i; dv_ownerId := u; dv_publicId := i; dv_kind := "cloud"%js; dv_code := i;
  dv_basePath := None; dv_providerId := Some "p"%js; dv_bucket := Some "files"%js |}.
Definition entry_at (i u v p : jsstr) : DriveEntry := {| de_id := i; de_ownerId := u; de_volumeId := v; de_type := "file"%js; de_path := p;
  de_name := p; de_sizeBytes := num_zero; de_mimeType := None; de_href := Some (home_path u ++ p) |}.

Definition ex_drive (entries : list DriveEntry) : DriveDb := {|
  dr_providers := [{| pv_id := "p"%js; pv_ownerId := "u1"%js |}];
  dr_volumes := [home_of "v1"%js "u1"%js; home_of "v2"%js "u2"%js; cloud_of "c1"%js "u1"%js]; dr_entries := entries; dr_intents := []; disk := [];
  dav_log := []; cloud := {| w_buckets := ["files"%js]; w_objects := []; w_blocked := []; w_cors := [] |} |}.

(** A token of the first user for a path. *)
Definition with_token (p : jsstr) : DriveDb := (generateUploadToken 0 next_id next_token "u1"%js p None "home"%js (ex_drive [])).1.
Definition ex_intent : UploadIntent := fresh_intent next_id next_token 0 (ex_drive []) "u1"%js "v1"%js "/a"%js true.

Definition no_store (s : DriveDb) (p : jsstr) : option StorageProvider := None.
Definition answering (z : Z) (s : DriveDb) (method path : jsstr) : option Z := Some z.
Definition no_items (s : DriveDb) (p : jsstr) : option (list DavItem) := Some [].
Definition by_code (a b : jsstr) : Z := 0.

Lemma upload_stays_home_witness :
  disk (upload 5 "t"%js "body"%js true (with_intent ex_intent (set_volumes (take 2) (ex_drive [])))).1 = [] ∨
  ∃ r v u segs, r ∈ [ex_intent] ∧ ui_token r = "t"%js ∧ (5 < ui_expiresAt r)%Z ∧
    find_volume (ui_volumeId r) (with_intent ex_intent (set_volumes (take 2) (ex_drive []))) = Some v ∧
    dv_basePath v = Some (home_path u) ∧ Forall plain segs ∧
    disk (upload 5 "t"%js "body"%js true (with_intent ex_intent (set_volumes (take 2) (ex_drive [])))).1 = jm_set (home_file u segs) "body"%js [].
Proof.
  apply (upload_stays_home 5 "t"%js "body"%js true (with_intent ex_intent (set_volumes (take 2) (ex_drive []))) _
    (upload 5 "t"%js "body"%js true (with_intent ex_intent (set_volumes (take 2) (ex_drive [])))).2).
  - intros v Hv. cbn in Hv. apply elem_of_cons in Hv as [-> | ->%list_elem_of_singleton];
      [exists "u1"%js|exists "u2"%js]; (split; [by apply plain_word|done]).
  - intros r ->%list_elem_of_singleton. by apply absent.
  - by destruct (upload _ _ _ _ _).
Defined.

Definition ex_uploaded : DriveDb := (upload 5 "t"%js "body"%js true (with_intent ex_intent (ex_drive []))).1.

Lemma token_writes_once_witness :
  ∃ a, upload 9 "t"%js "other"%js true ex_uploaded = (ex_uploaded, Done a) ∧ (status a ∈ [400; 404; 409; 410])%Z.
Proof.
  apply (token_writes_once next_id next_token id (answering 201) no_items by_code no_store (λ _, None)
    (with_intent ex_intent (ex_drive [])) ex_uploaded ex_uploaded ex_intent 5 "body"%js true 9 "other"%js true).
  - apply next_id_fresh.
  - split; apply NoDup_singleton.
  - by left.
  - done.
  - vm_compute. reflexivity.
  - apply rtc_refl.
Defined.

Lemma uploaded_file_is_served_witness :
  ∃ s1 token s2 s3 link,
    generateUploadToken 0 next_id next_token "u1"%js (abs_path ["a"%js; "b c"%js]) None "home"%js (ex_drive [entry_at "e"%js "u1"%js "v1"%js "/a/b c"%js]) = (s1, Done token) ∧
    upload 1 (ui_token token) "body"%js true s1 = (s2, Done (refuse 200 "ok"%js)) ∧
    fetchDownloadLink 2 next_id next_token no_store "u1"%js "e"%js s2 = (s3, Done (DriveUrl ("/webdav/tokens/"%js ++ link))) ∧
    download 3 link s3 = (s3, Done (refuse 200 "body"%js)).
Proof.
  apply (uploaded_file_is_served next_id next_token no_store 0 1 2 3 "u1"%js ["a"%js; "b c"%js] (entry_at "e"%js "u1"%js "v1"%js "/a/b c"%js)
    (home_of "v1"%js "u1"%js) (ex_drive [entry_at "e"%js "u1"%js "v1"%js "/a/b c"%js]) "body"%js next_id_fresh next_token_fresh);
    try done; try (intros; apply snoc_truthy); try by apply plain_word.
  - split; [done|]. split; [repeat constructor; by apply plain_word|]. split; [|by vm_compute].
    repeat constructor; by apply absent.
  - by left.
  - by apply distinct.
  - apply NoDup_singleton.
  - by left.
Defined.

(** *** What percent signs, dots and wildcards do *)

(** Encoded twice, the way up is let through: the token of the first user writes into the home of the second. *)
Example encoded_dots_escape :
  disk (upload 5 "t"%js "body"%js true (with_token "..%252Fu2%252Fa"%js)).1 = [(home_file "u2"%js ["a"%js], "body"%js)].
Proof. vm_compute. reflexivity. Qed.

(** A file whose name has an encoded blank is not found again; one whose name ends with a percent sign has no link. *)
Example percent_is_not_served :
  (download 3 "i"%js (fetchDownloadLink 2 next_id next_token no_store "u1"%js "e"%js (ex_drive [entry_at "e"%js "u1"%js "v1"%js "/a%20b"%js])).1).2 =
    Done (refuse 404 "Entry not found"%js) ∧
  (fetchDownloadLink 2 next_id next_token no_store "u1"%js "e"%js (ex_drive [entry_at "e"%js "u1"%js "v1"%js "/100%"%js])).2 = Done DriveError.
Proof. vm_compute. split; reflexivity. Qed.

(** Dots in the path of a folder, or of a listing, that the URL resolves: a request for the home of another user. *)
Example dots_leave_the_home :
  dav_log (addNewFolder next_id next_token posix_normalize (answering 201) no_store "u1"%js (VStr "x"%js) (VStr "/../u2"%js) VUndef VUndef (ex_drive [])).1 =
    [("MKCOL"%js, "/users/u2/x/"%js)] ∧
  dav_log (fetchListPath next_id next_token posix_normalize no_items by_code "u1"%js [".."%js; "u2"%js] (ex_drive [])).1 =
    [("PROPFIND"%js, "/users/u2/"%js)].
Proof. vm_compute. split; reflexivity. Qed.

(** An underscore in the name of a folder: the rows of another folder go with it. *)
Example wildcards_delete_others :
  dr_entries (deletePath posix_normalize (answering 204) "u1"%js "v1"%js "/users/u1/a_b/"%js (ex_drive [entry_at "e"%js "u1"%js "v1"%js "/axb/c"%js])).1 = [].
Proof. vm_compute. reflexivity. Qed.

(** A file that has grown keeps the size that was first seen. *)
Example sizes_stay :
  map de_sizeBytes <$> (match (fetchListPath next_id next_token id
    (λ _ _, Some [{| di_href := "/users/u1/f"%js; di_isCollection := false; di_displayName := None; di_size := VStr "7"%js; di_mimeType := None |}])
    by_code "u1"%js [] (ex_drive [entry_at "e"%js "u1"%js "v1"%js "/f"%js])).2 with Done l => Some l | Threw => None end) = Some [num_zero].
Proof. vm_compute. reflexivity. Qed.

(** *** Volumes in the cloud *)

(** A store that lists one folder and refuses to delete. *)
Definition stubborn : StorageProvider := {|
  sp_verify := λ b, mret (ok_with "OK"%js ("1"%js, "arn"%js));
  sp_addBucket := λ b m, mret (refused "AccessDenied"%js);
  sp_listPath := λ b p m t, mret (ok_with "OK"%js {| ls_path := "/"%js; ls_prefix := []; ls_entries := [folder_of "docs/"%js]; ls_nextToken := None |});
  sp_deleteEntry := λ b p f, mret (Some (refused "AccessDenied"%js));
  sp_downloadUrl := λ b p e, mret (refused "AccessDenied"%js);
  sp_uploadUrl := λ b p e ct cc cd m, mret (refused "AccessDenied"%js);
  sp_addFolder := λ b p, mret (ok_with "Folder created"%js {| fm_bucket := b; fm_path := p; fm_prefix := p |});
|}.

(** The folder that was made and the folder that is listed are two rows. *)
Example cloud_folder_twice :
  let s := (addNewFolder next_id next_token id (answering 201) (λ _ _, Some stubborn) "u1"%js (VStr "docs"%js) VUndef (VStr "cloud"%js) (VStr "c1"%js) (ex_drive [])).1 in
  map de_path (dr_entries (fetchCloudListPath next_id (λ _ _, Some stubborn) (λ _, None) "u1"%js (Some (cloud_of "c1"%js "u1"%js)) "/"%js s).1) =
  ["/docs"%js; "/docs/"%js].
Proof. vm_compute. reflexivity. Qed.

(** The row goes although the store kept the file. *)
Example refused_deletion_is_success :
  let s := ex_drive [entry_at "e"%js "u1"%js "c1"%js "/f"%js] in
  let r := deletePathAction id (answering 201) (λ _ _, Some stubborn) "u1"%js "e"%js s in
  r.2 = Done DriveOk ∧ dr_entries r.1 = [].
Proof. vm_compute. split; reflexivity. Qed.
