(* ===== verification/InboundHooks.v ===== *)
(** * Hooks for incoming mail ([apps/worker/server/routes/api/v1/hooks/])

    Mailgun, Postmark and SendGrid post a mail, SES the notice of one in a bucket.  Each looks up an identity,
    judges the mail by its headers and calls [parseAndStoreEmail].  Parsing, the vault and the bucket are
    parameters; the broadcast to open windows is not modelled. *)

From stdpp Require Import base list.
From S2P Require Import Prelude JsString JsRegex JsNumber JsValue.
From S2P Require Import S3Store DriveFiles.
From S2P Require Import MailDb Ingest.
From S2P Require Import Proc.

(** What a hook answers. *)
Record HookAnswer := { ok : bool; error : option jsstr }.
Definition answer_ok : HookAnswer := {| ok := true; error := None |}.
Definition answer_failed : HookAnswer := {| ok := false; error := None |}.
Definition answer_error (t : jsstr) : HookAnswer := {| ok := false; error := Some t |}.

(** ** The addresses and the verdict *)

(** [None] is the error of an address object without a list. *)
Definition addresses_of (addrObj : jsval) : option (list jsval) :=
  match get_prop addrObj "value"%js with
  | VArr l => Some (List.filter js_truthy (map (λ email, get_prop email "address"%js) l))
  | _ => None
  end.

Definition getToEmails (parsed : ParsedMail) : option (list jsval) :=
  if negb (js_truthy (pm_to parsed)) then Some []
  else (λ l, List.concat l) <$> mapM addresses_of (match pm_to parsed with VArr l => l | v => [v] end).

(** [String(headers.get(name) ?? [])] *)
Definition header_text (p : ParsedMail) (name : jsstr) : jsstr := js_to_string (nullish_or (header p name) (VStr [])).

(** [/name=\s*fail/i] *)
Definition fail_re (name : jsstr) : regex := RSeq (rlit_ci (name ++ "="%js)) (RSeq (rstar (RChr is_space)) (rlit_ci "fail"%js)).
Definition fails (p : ParsedMail) (name : jsstr) : bool := re_test (fail_re name) (header_text p "authentication-results"%js).

Definition authSaysJunk (p : ParsedMail) : bool :=
  (fails p "spf"%js && fails p "dkim"%js && fails p "dmarc"%js) || fails p "dmarc"%js.

Definition mailgunSaysSpam (p : ParsedMail) : bool := bool_decide (toLowerCase (header_text p "x-mailgun-sflag"%js) = "yes"%js).

(** [/^yes\b/i] *)
Definition yes_re : regex := RSeq RBegin (RSeq (rlit_ci "yes"%js) (RAlt REnd (RAhead (rnot is_word)))).
Definition spamStatus (p : ParsedMail) : bool := re_test yes_re (header_text p "x-spam-status"%js).

(** A verdict that is given and does not pass. *)
Definition not_passed (p : ParsedMail) (name : jsstr) : bool :=
  let verdict := toUpperCase (trim (header_text p name)) in
  negb (bool_decide (verdict = [])) && negb (bool_decide (verdict = "PASS"%js)).
Definition sesSaysSpam (p : ParsedMail) : bool := not_passed p "x-ses-spam-verdict"%js || not_passed p "x-ses-virus-verdict"%js.

(** ** The hooks *)

(** What is posted: the field [body-mime], the field [RawEmail], the parts of a form by name. *)
Inductive Inbound :=
  | Mailgun (bodyMime : option jsstr)
  | Postmark (RawEmail : option jsstr)
  | SendGrid (parts : option (list (jsstr * jsstr))).

Section Hooks.
Context (clock : nat → Z) (new_id : MailDb → jsstr) (simpleParser : jsstr → option ParsedMail).
Context (parse_url : jsstr → option Url) (uuid : MailDb → jsstr) (upload_ok : list jsstr → jsstr → bool).
Context (message_ok : MessageRow → bool) (attachment_ok : AttachmentRow → bool) (row_json : MessageRow → jsval).
(** The column [value] of an identity. *)
Context (address_of : IdentityRow → jsstr).

Abbreviation parse := (parseAndStoreEmail clock new_id simpleParser parse_url uuid upload_ok message_ok
  attachment_ok row_json).

Definition options (ownerId mailboxId rawStorageKey : jsstr) : StoreOptions :=
  {| so_ownerId := ownerId; so_mailboxId := mailboxId; so_rawStorageKey := rawStorageKey; so_metaData := None; so_seen := None;
     so_answered := None; so_flagged := None; so_mode := live |}.

(** The first mailbox of a kind. *)
Definition box_of (identityId kind : jsstr) (s : MailDb) : option MailboxRow :=
  List.find (λ b, bool_decide (mb_identityId b = identityId) && bool_decide (mb_kind b = kind)) (mailboxes s).

(** [String(box?.id)] *)
Definition box_text (b : option MailboxRow) : jsstr := from_option mb_id "undefined"%js b.

(** The identity of the first recipient; [eq] with [null] finds none. *)
Definition identity_at (toAddress : option jsval) (s : MailDb) : option IdentityRow :=
  match toAddress with
  | Some (VStr a) => List.find (λ i, bool_decide (address_of i = a)) (identities s)
  | _ => None
  end.

Definition deliver (rawMime : jsstr) (identity : IdentityRow) (junk : bool) : proc unit :=
  s ← read;
  let path := "eml/"%js ++ id_ownerId identity ++ "/"%js ++ uuid s in
  stored ← Ingest.upload upload_ok path;
  s ← read;
  let box := box_of (id_id identity) (if junk : bool then "spam"%js else "inbox"%js) s in
  _ ← parse rawMime (options (id_ownerId identity) (box_text box) (if stored : bool then path else "undefined"%js));
  mret tt.

(** The mail and the identity it is for. *)
Definition recipient (rawMime : jsstr) : proc (ParsedMail * option IdentityRow) :=
  parsed ← or_throw (simpleParser rawMime);
  tos ← or_throw (getToEmails parsed);
  s ← read;
  mret (parsed, identity_at (head tos) s).

Definition mailgun (bodyMime : option jsstr) : proc HookAnswer :=
  catch (
    rawMime ← or_throw bodyMime;
    found ← recipient rawMime;
    match found.2 with
    | None => mret (answer_error "No identity found for toAddress"%js)
    | Some identity => _ ← deliver rawMime identity (mailgunSaysSpam found.1 || authSaysJunk found.1); mret answer_ok
    end) (mret answer_failed).

Definition postmark (RawEmail : option jsstr) : proc HookAnswer :=
  catch (
    rawMime ← or_throw RawEmail;
    found ← recipient rawMime;
    identity ← or_throw found.2;
    _ ← deliver rawMime identity (authSaysJunk found.1 || spamStatus found.1);
    mret answer_ok) (mret answer_ok).

Definition sendgrid (parts : option (list (jsstr * jsstr))) : proc HookAnswer :=
  catch (
    match parts with
    | None => mret (answer_error "No multipart body"%js)
    | Some l =>
        match List.find (λ p, bool_decide (p.1 = "email"%js)) l with
        | None => mret (answer_error "No email field in inbound payload"%js)
        | Some (_, rawMime) =>
            found ← recipient rawMime;
            identity ← or_throw found.2;
            _ ← deliver rawMime identity (authSaysJunk found.1);
            mret answer_ok
        end
    end) (mret answer_ok).

Definition inbound (w : Inbound) : proc HookAnswer :=
  match w with Mailgun b => mailgun b | Postmark r => postmark r | SendGrid l => sendgrid l end.

(** *** SES *)

(** [JSON.parse], a request to an address, the secret of a provider, an object of its bucket, the type of a provider. *)
Context (json_parse : jsstr → option jsval) (http_get : jsval → bool) (decrypted_secret : jsstr → jsstr → option jsstr).
Context (get_object : jsval → jsstr → jsstr → option jsstr) (provider_type : MailDb → jsstr → option jsstr).

(** [v === t] *)
Definition is_text (t : jsstr) (v : jsval) : bool := match v with VStr x => bool_decide (x = t) | _ => false end.

(** From the key of the object on. *)
Definition ses_object (bucket key : jsstr) (vaultValues : jsval) : proc HookAnswer :=
  let parts := split slash key in
  let at_ (n : nat) := default "undefined"%js (parts !! n) in
  rawEmail ← or_throw (get_object vaultValues bucket key);
  _ ← Ingest.upload upload_ok ("eml/"%js ++ at_ 1 ++ "/"%js ++ at_ 4);
  parsed ← or_throw (simpleParser rawEmail);
  s ← read;
  inbox ← or_throw (box_of (at_ 3) "inbox"%js s);
  spamMb ← or_throw (box_of (at_ 3) "spam"%js s);
  type ← or_throw (provider_type s (at_ 2));
  let providerSaysSpam := bool_decide (type = "ses"%js) && sesSaysSpam parsed in
  _ ← parse rawEmail (options (at_ 1) (mb_id (if providerSaysSpam then spamMb else inbox)) key);
  mret answer_ok.

Definition ses_notice (msg : jsval) : proc HookAnswer :=
  let rec_ := match get_prop msg "Records"%js with VArr (r :: _) => r | _ => VUndef end in
  if negb (js_truthy rec_) || negb (is_text "aws:s3"%js (get_prop rec_ "eventSource"%js)) then mret answer_ok
  else
    let s3 := get_prop rec_ "s3"%js in
    let name := get_prop (get_prop s3 "bucket"%js) "name"%js in
    let bucket := js_to_string (nullish_or name (VStr [])) in
    let k := get_prop (get_prop s3 "object"%js) "key"%js in
    key ← or_throw (decodeURIComponent (if js_truthy k then js_to_string k else []));
    if negb (truthy bucket) || negb (truthy key) then mret (answer_error "Missing S3 bucket or key"%js)
    else
      let parts := split slash key in
      match decrypted_secret (default "undefined"%js (parts !! 1)) (default "undefined"%js (parts !! 2)) ≫= or_undefined with
      | None => ses_object bucket key (VObj [])
      | Some text =>
          match json_parse text with
          | None => mret (answer_error "Invalid vault secret format"%js)
          | Some vaultValues => ses_object bucket key vaultValues
          end
      end.

Definition ses (raw : jsstr) : proc HookAnswer :=
  catch (
    match json_parse raw with
    | None => mret (answer_error "Invalid JSON payload"%js)
    | Some sns =>
        let type t := is_text t (get_prop sns "Type"%js) in
        let message := get_prop sns "Message"%js in
        if type "SubscriptionConfirmation"%js && js_truthy (get_prop sns "SubscribeURL"%js) then
          if http_get (get_prop sns "SubscribeURL"%js) then mret answer_ok else throw
        else if type "Notification"%js && js_truthy message then
          match message with
          | VStr t => match json_parse t with
                      | None => mret (answer_error "Invalid SNS Message JSON"%js)
                      | Some msg => ses_notice msg
                      end
          | msg => ses_notice msg
          end
        else mret answer_ok
    end) (mret answer_ok).
End Hooks.
