(* ===== verification/InboundSpecs.v ===== *)
(** * Incoming mail goes to its recipient

    A hook stores a mail at most once, for the owner of the identity it is for, in the box its headers
    choose, and keeps the rows of threads what they should be.  The examples show which mail is lost. *)

From stdpp Require Import base list.
From S2P Require Import Prelude JsString JsRegex JsNumber JsValue.
From S2P Require Import MailDb MailRollup ImapInvariant.
From S2P Require Import Ingest IngestSpecs IngestTheorems.
From S2P Require Import InboundHooks.
From S2P Require Import Proc.

(** The mail that is posted, and the verdict of the hook on it. *)
Definition raw_of (w : Inbound) : option jsstr :=
  match w with
  | Mailgun b => b
  | Postmark r => r
  | SendGrid l => snd <$> (l ≫= List.find (λ p, bool_decide (p.1 = "email"%js)))
  end.

Definition junk_of (w : Inbound) (p : ParsedMail) : bool :=
  match w with
  | Mailgun _ => mailgunSaysSpam p || authSaysJunk p
  | Postmark _ => authSaysJunk p || spamStatus p
  | SendGrid _ => authSaysJunk p
  end.

(** The keys of the tables; no mailbox is called [undefined]; mail in a box is its owner's. *)
Record sound_mail (s : MailDb) : Prop := {
  sm_boxes : NoDup (map mb_id (mailboxes s)); sm_named : "undefined"%js ∉ map mb_id (mailboxes s);
  sm_identities : NoDup (map id_id (identities s));
  sm_owner : ∀ b i m, b ∈ mailboxes s → i ∈ identities s → mb_identityId b = id_id i →
    m ∈ messages s → m_mailboxId m = mb_id b → m_ownerId m = id_ownerId i;
}.

Lemma find_row {A} (f : A → jsstr) l x : NoDup (map f l) → x ∈ l → List.find (λ r, bool_decide (f r = f x)) l = Some x.
Proof.
  intros Hn Hx. destruct (List.find _ l) as [y|] eqn:E.
  - apply List.find_some in E as [Hy E%bool_decide_eq_true]. f_equal. apply (NoDup_map_inj f l); [done|by apply list_elem_of_In|done|done].
  - apply list_elem_of_In, (List.find_none _ _ E) in Hx. by rewrite bool_decide_true in Hx.
Qed.

Section Hooks.
Context (clock : nat → Z) (new_id : MailDb → jsstr) (simpleParser : jsstr → option ParsedMail).
Context (parse_url : jsstr → option Url) (uuid : MailDb → jsstr) (upload_ok : list jsstr → jsstr → bool).
Context (message_ok : MessageRow → bool) (attachment_ok : AttachmentRow → bool) (row_json : MessageRow → jsval).
Context (address_of : IdentityRow → jsstr) (Hfresh : fresh_ids new_id).

Abbreviation parse := (parseAndStoreEmail clock new_id simpleParser parse_url uuid upload_ok message_ok
  attachment_ok row_json).
Abbreviation deliver := (deliver clock new_id simpleParser parse_url uuid upload_ok message_ok attachment_ok row_json).
Abbreviation inbound := (inbound clock new_id simpleParser parse_url uuid upload_ok message_ok attachment_ok row_json address_of).

Lemma box_of_some i kind s b : box_of i kind s = Some b → b ∈ mailboxes s ∧ mb_identityId b = i ∧ mb_kind b = kind.
Proof.
  unfold box_of. intros [Hb [H1%bool_decide_eq_true H2%bool_decide_eq_true]%andb_true_iff]%List.find_some.
  split_and!; [by apply list_elem_of_In|done|done].
Qed.

Lemma box_can_store i kind key s b : sound_mail s → i ∈ identities s → box_of (id_id i) kind s = Some b →
  can_store (options (id_ownerId i) (mb_id b) key) s.
Proof.
  intros Hs Hi Hb. apply box_of_some in Hb as (Hb & Ei & _). split.
  - exists b, i. split; [by apply (find_row mb_id); [apply Hs|]|]. rewrite Ei. by apply (find_row id_id); [apply Hs|].
  - intros m Hm Em. by apply (sm_owner s Hs b i m).
Qed.

(** A call for a box that there is, and for one that there is not. *)
Lemma parse_in_box raw o s : can_store o s →
  preserving consistent s (parse raw o s).1 ∧
  (messages (parse raw o s).1 = messages s ∨ ∃ p m, simpleParser raw = Some p ∧ carries p m ∧
     m_mailboxId m = so_mailboxId o ∧ m_ownerId m = so_ownerId o ∧
     messages (parse raw o s).1 = messages s ++ [m]).
Proof.
  intros Hcs. split.
  - destruct (parse_cases clock new_id simpleParser parse_url uuid upload_ok message_ok attachment_ok
      row_json Hfresh raw o s Hcs) as [[Hr _]|(p & m & c & s1 & _ & Hac & ->)]; [by apply refused_consistent|].
    intros Hs. eapply quiet_consistent; [apply (finish_spec clock)|]. by apply (ac_rows _ _ _ _ _ Hac).
  - destruct (parse_adds clock new_id simpleParser parse_url uuid upload_ok message_ok attachment_ok row_json Hfresh raw o s)
      as [_ [[E _]|(p & m & Hp & Hm & Ho & Hb & _ & _ & E)]]; [by left|]. right. by exists p, m.
Qed.

Lemma parse_no_box raw o s : so_mailboxId o ∉ map mb_id (mailboxes s) →
  preserving consistent s (parse raw o s).1 ∧ messages (parse raw o s).1 = messages s.
Proof.
  intros Hn. destruct (parse_head clock new_id simpleParser parse_url uuid upload_ok message_ok attachment_ok row_json Hfresh raw o s)
    as [[Hr _]|(p & m & s1 & _ & Hin & _)].
  - split; [by apply refused_consistent|apply Hr].
  - exfalso. apply Hn. rewrite <- (in_box _ _ _ _ _ Hin). apply (in_known _ _ _ _ _ Hin).
Qed.

Lemma deliver_run raw i junk s : ∃ s0 key, calm s s0 ∧
  (deliver raw i junk s).1 =
  (parse raw (options (id_ownerId i) (box_text (box_of (id_id i) (if junk : bool then "spam"%js else "inbox"%js) s0)) key) s0).1.
Proof.
  unfold InboundHooks.deliver. rewrite read_bind. set (path := "eml/"%js ++ _). pose proof (calm_upload upload_ok path s) as Hup.
  assert (∃ b, (Ingest.upload upload_ok path s).2 = Done b) as [stored Hst]
    by (unfold Ingest.upload; rewrite read_bind; destruct (upload_ok _ _); by eexists).
  destruct (Ingest.upload upload_ok path s) as [s0 o0] eqn:E. cbn [fst snd] in Hst, Hup. subst o0. rewrite (bind_run _ _ _ _ _ E).
  exists s0, (if stored then path else "undefined"%js). split; [done|]. rewrite read_bind. unfold mbind, proc_bind.
  by destruct (parse _ _ s0) as [s1 [x|]].
Qed.

Lemma calm_consistent s s' : calm s s' → preserving consistent s s' ∧ messages s' = messages s ∧ mailboxes s' = mailboxes s ∧ identities s' = identities s.
Proof. intros [Hq _]. split; [by apply quiet_consistent|]. by destruct Hq as ((Em & Er & Et) & Eb & Ei & _). Qed.

Lemma deliver_outcome raw i junk s : sound_mail s → i ∈ identities s →
  preserving consistent s (deliver raw i junk s).1 ∧
  (messages (deliver raw i junk s).1 = messages s ∨
   ∃ p b m, simpleParser raw = Some p ∧ carries p m ∧
     b ∈ mailboxes s ∧ mb_identityId b = id_id i ∧ mb_kind b = (if junk : bool then "spam"%js else "inbox"%js) ∧
     m_mailboxId m = mb_id b ∧ m_ownerId m = id_ownerId i ∧ messages (deliver raw i junk s).1 = messages s ++ [m]).
Proof.
  intros Hs Hi. destruct (deliver_run raw i junk s) as (s0 & key & (Hc & Em & Eb & Ei)%calm_consistent & ->).
  assert (sound_mail s0) as Hs0 by (destruct Hs; split; by rewrite ?Em, ?Eb, ?Ei). rewrite <- Ei in Hi. rewrite <- Em, <- Eb.
  destruct (box_of _ _ s0) as [b|] eqn:E; cbn [box_text from_option].
  - destruct (parse_in_box raw (options (id_ownerId i) (mb_id b) key) s0) as [Hp Hm]; [by eapply box_can_store|].
    split; [intros H; by apply Hp, Hc|]. destruct Hm as [Hm | (p & m & Hpp & Hy & H1 & H2 & H3)]; [by left|]. right. exists p, b, m.
    apply box_of_some in E as (H4 & H5 & H6). done.
  - destruct (parse_no_box raw (options (id_ownerId i) "undefined"%js key) s0) as [Hp Hm]; [apply Hs0|].
    split; [intros H; by apply Hp, Hc|by left].
Qed.

(** A hook leaves the store as it is, or delivers the mail to the identity of its first recipient. *)
Lemma inbound_run w s :
  (inbound w s).1 = s ∨
  ∃ raw p a rest i, raw_of w = Some raw ∧ simpleParser raw = Some p ∧ getToEmails p = Some (VStr a :: rest) ∧
    i ∈ identities s ∧ address_of i = a ∧ (inbound w s).1 = (deliver raw i (junk_of w p) s).1.
Proof.
  assert (∀ raw, recipient simpleParser address_of raw s = (s, Threw) ∨
    (∃ p, recipient simpleParser address_of raw s = (s, Done (p, None))) ∨
    ∃ p a rest i, simpleParser raw = Some p ∧ getToEmails p = Some (VStr a :: rest) ∧ i ∈ identities s ∧ address_of i = a ∧
      recipient simpleParser address_of raw s = (s, Done (p, Some i))) as Hrec.
  { intros raw. unfold recipient. rewrite or_throw_bind. destruct (simpleParser raw) as [p|]; [|by left].
    rewrite or_throw_bind. destruct (getToEmails p) as [tos|] eqn:Et; [|by left]. rewrite read_bind. right.
    destruct (identity_at address_of (head tos) s) as [i|] eqn:Ei; [|left; by exists p]. right.
    destruct tos as [|[| | | |a| |] rest]; try done. apply List.find_some in Ei as [Hi Ea%bool_decide_eq_true].
    exists p, a, rest, i. split_and!; try done. by apply list_elem_of_In. }
  assert (∀ raw (h : HookAnswer) (k : ParsedMail * option IdentityRow → proc HookAnswer) junk,
    (inbound w s).1 = (catch (recipient simpleParser address_of raw ≫= k) (mret h) s).1 → raw_of w = Some raw →
    (∀ p, (k (p, None) s).1 = s) → (∀ p i, (k (p, Some i) s).1 = (deliver raw i (junk p) s).1) → (∀ p, junk p = junk_of w p) →
    (inbound w s).1 = s ∨
    ∃ raw p a rest i, raw_of w = Some raw ∧ simpleParser raw = Some p ∧ getToEmails p = Some (VStr a :: rest) ∧
      i ∈ identities s ∧ address_of i = a ∧ (inbound w s).1 = (deliver raw i (junk_of w p) s).1) as Hcatch.
  { intros raw h k junk -> Hr Hn Hk Hj. unfold catch, mbind, proc_bind.
    destruct (Hrec raw) as [-> | [[p ->] | (p & a & rest & i & H1 & H2 & H3 & H4 & H5)]]; [by left| |].
    - left. specialize (Hn p). by destruct (k (p, None) s) as [s1 [x|]].
    - right. exists raw, p, a, rest, i. split_and!; try done. rewrite H5, <- Hj, <- Hk. by destruct (k (p, Some i) s) as [s1 [x|]]. }
  assert (∀ raw i junk, ((_ ← deliver raw i junk; mret answer_ok) s).1 = (deliver raw i junk s).1) as Hd.
  { intros raw i junk. unfold mbind, proc_bind. by destruct (deliver raw i junk s) as [s1 [x|]]. }
  destruct w as [[raw|]|[raw|]|[l|]]; try (by left).
  - by apply (Hcatch raw answer_failed (λ found, match found.2 with
      | None => mret (answer_error "No identity found for toAddress"%js)
      | Some i => _ ← deliver raw i (mailgunSaysSpam found.1 || authSaysJunk found.1); mret answer_ok end)
      (λ p, mailgunSaysSpam p || authSaysJunk p)); try intros; try apply Hd.
  - by apply (Hcatch raw answer_ok (λ found, i ← or_throw found.2; _ ← deliver raw i (authSaysJunk found.1 || spamStatus found.1); mret answer_ok)
      (λ p, authSaysJunk p || spamStatus p)); try intros; try apply Hd.
  - destruct (List.find (λ p, bool_decide (p.1 = "email"%js)) l) as [[n raw]|] eqn:E;
      [|left; cbn [InboundHooks.inbound]; unfold sendgrid; by rewrite E].
    apply (Hcatch raw answer_ok (λ found, i ← or_throw found.2; _ ← deliver raw i (authSaysJunk found.1); mret answer_ok) authSaysJunk); try intros;
      try apply Hd; try done.
    + cbn [InboundHooks.inbound]. unfold sendgrid. by rewrite E.
    + cbn. by rewrite E.
Qed.

(** C22: The hooks of Mailgun, Postmark and SendGrid bring incoming mail to its recipient.  In a store where no key is used twice,
    no mailbox is called undefined and the mail of a box is its owner's, whatever is posted, a hook changes no message or adds
    one: it carries the sender, the recipients, the subject, the texts, the date and the headers of the mail posted, and belongs
    to the owner of an identity that has the address of the first recipient, in the mailbox of this identity that the verdict on
    its headers chooses, spam or inbox.  The rows of threads stay consistent with the messages.  (The hook of SES, which takes
    the owner from the key of the object, is not meant.) *)
Theorem hook_delivers w s (Hs : sound_mail s) :
  (consistent s → consistent (inbound w s).1) ∧
  (messages (inbound w s).1 = messages s ∨
   ∃ raw p a rest i b m, raw_of w = Some raw ∧ simpleParser raw = Some p ∧ carries p m ∧
     getToEmails p = Some (VStr a :: rest) ∧
     i ∈ identities s ∧ address_of i = a ∧ b ∈ mailboxes s ∧ mb_identityId b = id_id i ∧
     mb_kind b = (if junk_of w p then "spam"%js else "inbox"%js) ∧
     m_mailboxId m = mb_id b ∧ m_ownerId m = id_ownerId i ∧ messages (inbound w s).1 = messages s ++ [m]).
Proof.
  destruct (inbound_run w s) as [-> | (raw & p & a & rest & i & H1 & H2 & H3 & H4 & H5 & ->)]; [by split; [|left]|].
  destruct (deliver_outcome raw i (junk_of w p) s Hs H4) as [Hc Hm]. split; [exact Hc|].
  destruct Hm as [Hm | (p' & b & m & Hpp & Hb)]; [by left|]. right. exists raw, p, a, rest, i, b, m.
  replace p' with p in * by congruence. tauto.
Qed.
End Hooks.

(** ** Concrete runs *)

Definition ex_to (address : jsstr) : jsval := VObj [("value", VArr [VObj [("address", VStr address)]])]%js.

Definition ex_posted (to : jsval) (headers : list (jsstr * jsval)) : ParsedMail := {|
  pm_messageId := Some "n9"%js; pm_inReplyTo := None; pm_references := NoReferences; pm_subject := Some "Hi"%js;
  pm_text := Some "hello"%js; pm_html := None; pm_from := VUndef; pm_to := to; pm_cc := VUndef; pm_bcc := VUndef; pm_replyTo := VUndef;
  pm_date := Some 50%Z; pm_headers := headers; pm_attachments := [] |}.

Definition ex_kind_box (i kind : jsstr) : MailboxRow := {| mb_id := i; mb_identityId := "i"%js; mb_ownerId := "u"%js; mb_parentId := None; mb_kind := kind;
  mb_name := None; mb_slug := None; mb_isDefault := false; mb_metaData := None |}.

(** The store of [IngestTheorems] with an inbox, and with the other boxes given. *)
Definition ex_office (more : list MailboxRow) : MailDb := set_mailboxes (λ _, ex_kind_box "b"%js "inbox"%js :: more) ex_start.

Abbreviation ex_run hook p := (hook Z.of_nat ex_new_id (λ _, Some p) (λ _, None) ex_new_id all_uploads (λ _, true) (λ _, true) (λ _, VNull) (λ _, "a@x"%js)).
Definition ex_added (s : MailDb) : list (jsstr * jsstr) := map (λ m, (m_mailboxId m, m_ownerId m)) (drop 3 (messages s)).

Lemma ex_office_sound : sound_mail (ex_office [ex_kind_box "j"%js "spam"%js]).
Proof.
  split.
  - apply (bool_decide_unpack _). vm_compute. exact I.
  - apply (bool_decide_unpack _). vm_compute. exact I.
  - apply (bool_decide_unpack _). vm_compute. exact I.
  - intros b i m _ Hi%list_elem_of_singleton Ei Hm _. subst i.
    apply (Forall_forall (λ m, m_ownerId m = "u"%js) (messages ex_start)); [|exact Hm]. repeat constructor.
Qed.

Lemma hook_delivers_witness :
  consistent (ex_run inbound (ex_posted (ex_to "a@x"%js) []) (Mailgun (Some "m"%js)) (ex_office [ex_kind_box "j"%js "spam"%js])).1.
Proof.
  apply (hook_delivers Z.of_nat ex_new_id (λ _, Some (ex_posted (ex_to "a@x"%js) [])) (λ _, None) ex_new_id all_uploads (λ _, true) (λ _, true)
    (λ _, VNull) (λ _, "a@x"%js) ex_fresh (Mailgun (Some "m"%js)) (ex_office [ex_kind_box "j"%js "spam"%js]) ex_office_sound).
  destruct ex_start_consistent as [H1 H2 H3 H4 H5]. by split.
Defined.

(** A good mail goes to the inbox, one that fails DMARC to spam. *)
Example mail_is_sorted :
  let s := ex_office [ex_kind_box "j"%js "spam"%js] in
  let r h := ex_run inbound (ex_posted (ex_to "a@x"%js) h) (SendGrid (Some [("email", "m")]))%js s in
  ex_added (r []).1 = [("b", "u")]%js ∧ ex_added (r [("authentication-results", VStr "spf=pass; DMARC= Fail")]%js).1 = [("j", "u")]%js.
Proof. vm_compute. split; reflexivity. Qed.

(** Without a spam box it is lost, and the provider is told that all is well. *)
Example junk_without_a_box_is_lost :
  let r := ex_run inbound (ex_posted (ex_to "a@x"%js) [("authentication-results", VStr "dmarc=fail")]%js) (Postmark (Some "m"%js)) (ex_office []) in
  ex_added r.1 = [] ∧ r.2 = Done answer_ok.
Proof. vm_compute. split; reflexivity. Qed.

(** A mail whose first recipient is another one is lost too; so is one that writes the address in other letters. *)
Example second_recipient_is_forgotten :
  let r a := ex_run inbound (ex_posted (VArr a) []) (SendGrid (Some [("email", "m")]))%js (ex_office []) in
  ex_added (r [ex_to "z@y"; ex_to "a@x"]%js).1 = [] ∧ (r [ex_to "z@y"; ex_to "a@x"]%js).2 = Done answer_ok ∧ ex_added (r [ex_to "A@x"]%js).1 = [].
Proof. vm_compute. split_and!; reflexivity. Qed.

(** *** SES *)

(** The notice of an object. *)
Definition ex_notice (key : jsstr) : jsval := VObj [("Type", VStr "Notification"); ("Message", VObj [("Records", VArr [VObj
  [("eventSource", VStr "aws:s3"); ("s3", VObj [("bucket", VObj [("name", VStr "mail")]); ("object", VObj [("key", VStr key)])])]])])]%js.

Abbreviation ex_ses p key := (ses Z.of_nat ex_new_id (λ _, Some p) (λ _, None) ex_new_id all_uploads (λ _, true) (λ _, true) (λ _, VNull)
  (λ _, Some (ex_notice key)) (λ _, true) (λ _ _, None) (λ _ _ _, Some "m"%js) (λ _ _, Some "ses"%js) []).

(** What SES says of spam counts; DMARC, which is read, does not. *)
Example ses_ignores_dmarc :
  let s := ex_office [ex_kind_box "j"%js "spam"%js] in
  let r h := ex_ses (ex_posted VUndef h) "inbound/u/p/i/e"%js s in
  ex_added (r [("x-ses-spam-verdict", VStr "FAIL")]%js).1 = [("j", "u")]%js ∧
  ex_added (r [("authentication-results", VStr "spf=fail dkim=fail dmarc=fail")]%js).1 = [("b", "u")]%js.
Proof. vm_compute. split; reflexivity. Qed.

(** The owner is read from the key, whoever owns the mailbox. *)
Example ses_trusts_the_key :
  ex_added (ex_ses (ex_posted VUndef []) "inbound/u2/p/i/e"%js (ex_office [ex_kind_box "j"%js "spam"%js])).1 = [("b", "u2")]%js.
Proof. vm_compute. reflexivity. Qed.
