(* ===== verification/SmtpRouter.v ===== *)
(** * Outbound mail: the channel router and the SendCloud relay
    ([apps/worker/lib/smtp/router.ts], [sendcloud.ts])

    The transport (nodemailer) is a parameter of the relay: what it answers to a mail. *)

From stdpp Require Import base list.
From S2P Require Import Prelude JsString.

(** ** Domains *)

Definition CHINA_DOMAINS : list jsstr :=
  ["qq.com"; "foxmail.com"; "vip.qq.com"; "163.com"; "126.com"; "yeah.net"; "188.com"; "vip.163.com";
   "vip.126.com"; "sina.com"; "sina.cn"; "sohu.com"; "aliyun.com"; "alimail.com"; "mxhichina.com";
   "exmail.qq.com"; "139.com"; "wo.cn"; "189.cn"; "tom.com"; "21cn.com"]%js.

Definition extractDomain (email : jsstr) : jsstr :=
  match lastIndexOf email "@" with
  | None => []
  | Some atIndex => trim (toLowerCase (slice_from email (Z.of_nat atIndex + 1)))
  end.

Definition isChinaDomain (domain : jsstr) : bool := bool_decide (toLowerCase domain ∈ CHINA_DOMAINS).

(** ** Routing *)

Inductive SmtpChannel := ChSendcloud | ChStalwart.

Record StalwartConfig := { st_host : jsstr; st_port : Z; st_secure : bool }.
Record SendCloudConfig := {
  sc_host : jsstr; sc_port : option Z; sc_secure : bool; sc_apiUser : jsstr; sc_apiKey : jsstr;
}.
(** [Partial<RouterConfig>] *)
Record RouterConfig := { stalwart : option StalwartConfig; sendcloud : option SendCloudConfig }.

Record RouteResult := {
  channel : SmtpChannel; host : jsstr; port : option Z; secure : bool; requiresAuth : bool;
}.

Definition DEFAULT_STALWART : StalwartConfig :=
  {| st_host := "stalwart.mail.svc.cluster.local"%js; st_port := 587; st_secure := false |}.
Definition DEFAULT_SENDCLOUD : SendCloudConfig :=
  {| sc_host := "smtp.sendcloud.net"%js; sc_port := Some 587%Z; sc_secure := false;
     sc_apiUser := []; sc_apiKey := [] |}.

Definition routeEmail (recipients : list jsstr) (config : option RouterConfig) : RouteResult :=
  let stalwartCfg := default DEFAULT_STALWART (config ≫= stalwart) in
  let sendcloudCfg := default DEFAULT_SENDCLOUD (config ≫= sendcloud) in
  if existsb (λ r, isChinaDomain (extractDomain r)) recipients then
    {| channel := ChSendcloud; host := sc_host sendcloudCfg; port := sc_port sendcloudCfg;
       secure := sc_secure sendcloudCfg; requiresAuth := true |}
  else
    {| channel := ChStalwart; host := st_host stalwartCfg; port := Some (st_port stalwartCfg);
       secure := st_secure stalwartCfg; requiresAuth := true |}.

Record Classified := { china : list jsstr; international : list jsstr }.

Fixpoint classify_loop (recipients : list jsstr) (acc : Classified) : Classified :=
  match recipients with
  | [] => acc
  | r :: rest =>
      classify_loop rest
        (if isChinaDomain (extractDomain r)
         then {| china := china acc ++ [r]; international := international acc |}
         else {| china := china acc; international := international acc ++ [r] |})
  end.

Definition classifyRecipients (recipients : list jsstr) : Classified :=
  classify_loop recipients {| china := []; international := [] |}.

(** ** The relay *)

(** Attachments are passed through unread. *)
Record SendCloudEmailOptions := {
  o_from : jsstr; o_to : list jsstr; o_subject : jsstr; o_text : option jsstr; o_html : option jsstr;
  o_inReplyTo : option jsstr; o_references : option (list jsstr);
}.

(** What [sendMail] is called with. *)
Record MailOptions := {
  ml_from : jsstr; ml_to : jsstr; ml_subject : jsstr; ml_text : option jsstr; ml_html : option jsstr;
  ml_headers : list (jsstr * jsstr);
}.

Record SendCloudResult := { success : bool; messageId : option jsstr; sc_error : option jsstr }.

(** What the transport answers: the id in its [info], or an exception with its message. *)
Inductive sent := Sent (id : option jsstr) | SendError (message : option jsstr) (as_string : jsstr).

(** [s || undefined] *)
Definition or_undefined (o : option jsstr) : option jsstr := if opt_truthy o then o else None.

Definition mail_options (opts : SendCloudEmailOptions) : MailOptions :=
  {| ml_from := o_from opts; ml_to := join ","%js (o_to opts); ml_subject := o_subject opts;
     ml_text := or_undefined (o_text opts); ml_html := or_undefined (o_html opts);
     ml_headers :=
       match or_undefined (o_inReplyTo opts) with Some s => [("In-Reply-To"%js, s)] | None => [] end ++
       match o_references opts with
       | Some ((_ :: _) as l) => [("References"%js, join " "%js l)]
       | _ => []
       end |}.

Definition send (sendMail : MailOptions → sent) (opts : SendCloudEmailOptions) : SendCloudResult :=
  match sendMail (mail_options opts) with
  | Sent id => {| success := true; messageId := Some (default [] id); sc_error := None |}
  | SendError message as_string =>
      {| success := false; messageId := None; sc_error := Some (default as_string message) |}
  end.

(** The transport's [verify], [None] when it throws. *)
Definition verify (verified : option bool) : bool := default false verified.

Record Env := {
  SENDCLOUD_HOST : option jsstr; SENDCLOUD_PORT : option jsstr;
  SENDCLOUD_API_USER : option jsstr; SENDCLOUD_API_KEY : option jsstr;
}.

(** A port of [None] is NaN. *)
Definition createSendCloudMailer (e : Env) : SendCloudConfig :=
  {| sc_host := opt_or (SENDCLOUD_HOST e) "smtp.sendcloud.net"%js;
     sc_port := parseInt (opt_or (SENDCLOUD_PORT e) "587"%js); sc_secure := false;
     sc_apiUser := opt_or (SENDCLOUD_API_USER e) []; sc_apiKey := opt_or (SENDCLOUD_API_KEY e) [] |}.

(** ** Theorems *)

Lemma slice_from_app (u v : jsstr) : slice_from (u ++ v) (Z.of_nat (length u)) = v.
Proof.
  unfold slice_from, rel_index. rewrite (proj2 (Z.ltb_ge _ _)) by lia. rewrite length_app, Nat2Z.id.
  rewrite Nat.min_l by lia. by rewrite drop_app_length.
Qed.

(** The domain of an address: what follows the last at sign, without case and blanks. *)
Lemma extractDomain_address u d :
  "@"%char ∉ d → extractDomain (u ++ "@"%char :: d) = trim (toLowerCase d).
Proof.
  intros Hd. unfold extractDomain. rewrite lastIndexOf_app by done.
  replace (Z.of_nat (length u) + 1)%Z with (Z.of_nat (length (u ++ ["@"%char])))
    by (rewrite length_app; simpl; lia).
  by rewrite cons_middle, app_assoc, slice_from_app.
Qed.

Definition domestic (r : jsstr) : Prop := isChinaDomain (extractDomain r) = true.

#[export] Instance domestic_dec r : Decision (domestic r).
Proof. unfold domestic. apply _. Defined.

Lemma classify_loop_spec recipients acc :
  classify_loop recipients acc =
  {| china := china acc ++ filter domestic recipients;
     international := international acc ++ filter (λ r, ¬ domestic r) recipients |}.
Proof.
  revert acc. induction recipients as [|r rest IH]; intros acc; simpl.
  - rewrite !filter_nil, !app_nil_r. by destruct acc.
  - rewrite IH, !filter_cons.
    destruct (isChinaDomain (extractDomain r)) eqn:E; simpl.
    + rewrite decide_True by done. rewrite decide_False by (intros H; by apply H).
      by rewrite <- app_assoc.
    + rewrite decide_False by (unfold domestic; congruence).
      rewrite decide_True by (unfold domestic; congruence). by rewrite <- app_assoc.
Qed.

(** A mail goes to the SendCloud relay exactly when one of its recipients is at a domestic
    provider, whatever their order; the classification splits the recipients into the domestic and
    the other ones, each in order and with none lost, and agrees with the routing. *)
Theorem routeEmail_spec recipients config :
  let c := classifyRecipients recipients in
  (channel (routeEmail recipients config) = ChSendcloud ↔ Exists domestic recipients) ∧
  (channel (routeEmail recipients config) = ChSendcloud ↔ china c ≠ []) ∧
  (∀ recipients', recipients ≡ₚ recipients' → routeEmail recipients' config = routeEmail recipients config) ∧
  china c = filter domestic recipients ∧ international c = filter (λ r, ¬ domestic r) recipients ∧
  china c ++ international c ≡ₚ recipients.
Proof.
  cbv zeta. unfold classifyRecipients. rewrite classify_loop_spec. cbn [china international app].
  assert (∀ rs, existsb (λ r, isChinaDomain (extractDomain r)) rs = true ↔ Exists domestic rs) as He.
  { intros rs. rewrite existsb_exists, Exists_exists. by setoid_rewrite list_elem_of_In. }
  assert (channel (routeEmail recipients config) = ChSendcloud ↔ Exists domestic recipients) as Hr.
  { rewrite <- He. unfold routeEmail. by destruct (existsb _ _). }
  split; [done|]. split; [|split].
  - rewrite Hr, Exists_exists. split.
    + intros (r & Hin & Hd) Hnil. assert (r ∈ filter domestic recipients) as H
        by by apply list_elem_of_filter. rewrite Hnil in H. set_solver.
    + intros Hne. destruct (filter domestic recipients) as [|r l] eqn:E; [done|].
      assert (r ∈ filter domestic recipients) as H by (rewrite E; set_solver).
      apply list_elem_of_filter in H as [??]. eauto.
  - intros rs Hp. unfold routeEmail.
    assert (existsb (λ r, isChinaDomain (extractDomain r)) rs =
            existsb (λ r, isChinaDomain (extractDomain r)) recipients) as ->; [|done].
    apply eq_true_iff_eq. rewrite !He. by rewrite Hp.
  - split; [done|]. split; [done|]. apply filter_app_complement.
Qed.

(** An address in angle brackets is not recognised: its domain ends in [>]. *)
Lemma bracketed_recipient_not_domestic :
  channel (routeEmail ["Li <li@qq.com>"%js] None) = ChStalwart ∧
  channel (routeEmail ["li@QQ.com "%js] None) = ChSendcloud.
Proof. vm_compute. done. Qed.
