(* ===== verification/SendMail.v ===== *)
(** * Outgoing mail ([apps/worker/server/plugins/send-mail.ts])

    The worker of the queue [send-mail]: it hands a mail to the mailer of the identity or to the
    SendCloud relay, stores a copy in the sent folder, and keeps the state of scheduled drafts.
    The mailers, the vault, the storage and [addressparser] are not under [src/] or call other
    hosts: they are parameters. *)

From stdpp Require Import base list.
From S2P Require Import Prelude JsString JsRegex JsNumber JsValue RuleMatcher MailDb MailRollup Ingest RulesProcessor.
From S2P Require Import ImapOps SmtpRouter.

(** ** The store *)

Record OutAttachment := { oa_name : jsstr; oa_content : jsstr; oa_contentType : jsstr }.

(** A mail as it is handed over; [om_relay]: to the SendCloud relay.  It has no [cc] and no [bcc]. *)
Record OutMail := {
  om_relay : bool; om_from : jsstr; om_to : list jsval; om_subject : jsstr; om_text : option jsstr;
  om_html : option jsstr; om_inReplyTo : option jsstr; om_references : option (list jsstr);
  om_attachments : list OutAttachment;
}.

Record MailerResponse := { rs_success : bool; rs_MessageId : option jsstr; rs_error : option jsstr }.

(** A mailer: what it answers to a mail, after the mails handed over so far; [None] when it throws. *)
Definition Mailer := list OutMail → OutMail → option MailerResponse.

(** A decoded form: the fields the code casts to [string] are texts, or absent; [fm_error] is [__error]. *)
Record Form := {
  fm_to : jsval; fm_cc : jsval; fm_bcc : jsval; fm_subject : option jsstr; fm_text : option jsstr;
  fm_html : option jsstr; fm_mode : option jsstr; fm_attachments : option jsstr; fm_mailboxId : option jsstr;
  fm_sentMailboxId : option jsstr; fm_originalMessageId : option jsstr; fm_scheduledAt : option jsstr;
  fm_error : option jsstr;
}.

Record Draft := {
  dr_id : jsstr; dr_ownerId : jsstr; dr_mailboxId : jsstr; dr_identityId : option jsstr; dr_status : jsstr;
  dr_scheduledAt : option Z; dr_payload : Form;
}.

(** The jobs of the queue [send-mail]; a draft's job waits for a delay, in milliseconds. *)
Inductive MailJob := SendScheduledDraft (draftMessageId : jsstr) (delay : Z) | SendAndReconcile (form : Form).

(** The tables, the drafts, the jobs added, and the mails handed to a mailer so far. *)
Record SendStore := {
  db : MailDb; draftMessages : list Draft; sendMailQueue : list MailJob; handed : list OutMail;
}.

Definition set_db (d : MailDb) (s : SendStore) : SendStore :=
  {| db := d; draftMessages := draftMessages s; sendMailQueue := sendMailQueue s; handed := handed s |}.
Definition set_drafts (f : list Draft → list Draft) (s : SendStore) : SendStore :=
  {| db := db s; draftMessages := f (draftMessages s); sendMailQueue := sendMailQueue s; handed := handed s |}.
Definition add_mail_job (j : MailJob) (s : SendStore) : SendStore :=
  {| db := db s; draftMessages := draftMessages s; sendMailQueue := sendMailQueue s ++ [j]; handed := handed s |}.
Definition set_handed (f : list OutMail → list OutMail) (s : SendStore) : SendStore :=
  {| db := db s; draftMessages := draftMessages s; sendMailQueue := sendMailQueue s; handed := f (handed s) |}.

Abbreviation sending := (prog SendStore).

(** A procedure on the tables. *)
Definition on_db {A} (p : proc A) : sending A := λ s, let (d, o) := p (db s) in (set_db d s, o).

(** [db.transaction]: only the tables go back. *)
Definition db_transaction {A} (p : sending A) : sending A := λ s,
  match p s with (s', Done a) => (s', Done a) | (s', Threw) => (set_db (rollback (db s) (db s')) s', Threw) end.

(** ** The text of replies and forwarded mail *)

Record MailComposeInput := {
  mc_to : list jsval; mc_cc : list jsval; mc_bcc : list jsval; mc_subject : option jsstr; mc_text : option jsstr;
  mc_html : option jsstr; mc_mode : jsstr;
}.

(** [getMessageName], [getMessageAddress] of [packages/common/src/mail-client.ts] *)
Definition first_value (v : jsval) (key : jsstr) : jsval :=
  match get_prop v "value"%js with VArr (x :: _) => nullish_or (get_prop x key) VNull | _ => VNull end.

Definition getMessageName (v : jsval) : jsval :=
  if negb (js_truthy v) then VNull
  else match v with VStr s => nullable (or_undefined (Some (default [] (head (split "@" s))))) | _ => first_value v "name"%js end.

Definition getMessageAddress (v : jsval) : jsval :=
  if negb (js_truthy v) then VNull else match v with VStr s => VStr s | _ => first_value v "address"%js end.

(** [x || []] in a text *)
Definition or_blank (v : jsval) : jsstr := if js_truthy v then js_to_string v else [].

Definition prefixed (prefix : jsstr) (subject : option jsstr) : jsstr :=
  let s := trim (default [] subject) in
  if startsWith s prefix then s else prefix ++ " "%js ++ js_or s "(no subject)"%js.

Section Text.
(** [toLocaleString] of a date, and the column [text_as_html]. *)
Context (date_label : Z → jsstr) (textAsHtml : MessageRow → option jsstr).

Definition quotedText (m : MessageRow) : jsstr :=
  "On "%js ++ date_label (message_time m) ++ ", "%js ++ or_blank (getMessageName (m_from m)) ++ " <"%js ++
  or_blank (getMessageAddress (m_from m)) ++ "> wrote:"%js ++ [newline] ++ default [] (m_text m).

Definition style (s : jsstr) : jsstr := " style="%js ++ [dquote] ++ s ++ [dquote].

Definition quotedHtml (m : MessageRow) : jsstr :=
  let origText := default [] (m_text m) in
  let origHtml := opt_or (m_html m) (default [] (textAsHtml m)) in
  "<hr>"%js ++ [newline] ++
  "<p>On "%js ++ date_label (message_time m) ++ ", "%js ++ or_blank (getMessageName (m_from m)) ++ " &lt;"%js ++
  or_blank (getMessageAddress (m_from m)) ++ "&gt; wrote:</p>"%js ++ [newline] ++
  "<blockquote"%js ++ style "border-left:2px solid #ccc;margin:0;padding-left:8px;"%js ++ ">"%js ++ [newline] ++ "  "%js ++
  js_or origHtml ("<pre"%js ++ style "white-space:pre-wrap;margin:0;"%js ++ ">"%js ++ origText ++ "</pre>"%js) ++
  [newline] ++ "</blockquote>"%js.

(** The subject, text and HTML. *)
Definition generateMailAttrs (data : MailComposeInput) (orig : option MessageRow) : jsstr * jsstr * jsstr :=
  match orig with
  | None => (default "(no subject)"%js (mc_subject data), default [] (mc_text data), default [] (mc_html data))
  | Some m =>
      let isReply := bool_decide (mc_mode data = "reply"%js) in
      let isForward := bool_decide (mc_mode data = "forward"%js) in
      let baseSubj := trim (default [] (mc_subject data)) in
      let subject :=
        if isReply then prefixed "Re:"%js (m_subject m)
        else if isForward then prefixed "Fwd:"%js (m_subject m)
        else js_or baseSubj "(no subject)"%js in
      let text := default [] (mc_text data) in
      let html := default [] (mc_html data) in
      if isReply then (subject, text ++ [newline; newline] ++ quotedText m, html ++ quotedHtml m)
      else if isForward then
        (subject, text ++ [newline; newline] ++ "Forwarded message:"%js ++ [newline] ++ quotedText m,
         html ++ "<p>Forwarded message:</p>"%js ++ quotedHtml m)
      else (subject, text, html)
  end.
End Text.

(** The identifiers of the conversation: at most the last thirty. *)
Definition reply_references (m : MessageRow) : list jsstr :=
  let ids := set_of_list (List.filter truthy (default [] (m_references m) ++ [m_messageId m])) in
  drop (length ids - 30) ids.


(** ** The recipients *)

(** [Array.isArray(input) ? input.join(",") : input || ""] on arrays *)
Definition joined (input : list jsval) : jsstr :=
  join ","%js (map (λ v, if is_nullish v then [] else js_to_string v) input).

(** [routeEmail(data.to)] on values that may be no strings; [None] when [extractDomain] throws. *)
Fixpoint route_values (l : list jsval) : option SmtpChannel :=
  match l with
  | [] => Some ChStalwart
  | VStr r :: rest => if isChinaDomain (extractDomain r) then Some ChSendcloud else route_values rest
  | VArr items :: rest =>
      if existsb (λ v, match v with VStr s => bool_decide (s = "@"%js) | _ => false end) items then None
      else route_values rest
  | _ :: _ => None
  end.

(** What [addressparser] returns for an address. *)
Record Parsed := { pa_address : option jsstr; pa_name : option jsstr }.

Section Addresses.
Context (addressparser : jsstr → list Parsed).

Definition toAddressObj (input : list jsval) : jsval :=
  let value := map (λ p, (pa_address p ≫= JsString.or_undefined, opt_or (pa_name p) [])) (addressparser (joined input)) in
  let shown := join ", "%js (map (λ v : option jsstr * jsstr,
    if truthy v.2 then v.2 ++ " <"%js ++ default [] v.1 ++ ">"%js else default [] v.1) value) in
  VObj [("value"%js, VArr (map (λ v : option jsstr * jsstr,
           VObj [("address", nullable v.1); ("name", VStr v.2)]%js) value));
        ("html"%js, VStr shown); ("text"%js, VStr shown)].
End Addresses.

(** ** Attachments *)

Record AttachmentDownload := { item : AttachmentRow; blob : jsstr; name : jsstr }.

Section Attachments.
(** [JSON.parse], the storage's [download] and the schema of the table; [None] where they throw or
    answer with an error.  [att_id] is empty when the object has no id; a content type is given. *)
Context (json_parse : jsstr → option jsval) (download : jsstr → jsstr → option jsstr).
Context (attachment_item : jsval → option AttachmentRow).

Definition has_object (a : jsval) : bool :=
  js_truthy a && js_truthy (get_prop a "bucketId"%js) && js_truthy (get_prop a "path"%js).

Definition fetch_one (a : jsval) : option AttachmentDownload :=
  content ← download (js_to_string (get_prop a "bucketId"%js)) (js_to_string (get_prop a "path"%js));
  row ← attachment_item a;
  let shown := get_prop a "filenameOriginal"%js in
  Some {| item := row; blob := content;
          name := js_to_string (if js_truthy shown then shown else VStr "attachment"%js) |}.

Definition fetchAttachmentBlobs (attachmentsString : option jsstr) : list AttachmentDownload :=
  let attachments := match attachmentsString ≫= JsString.or_undefined with
                     | Some s => default (VArr []) (json_parse s)
                     | None => VArr []
                     end in
  let list := match attachments with VArr l => l | _ => [] end in
  default [] (mapM fetch_one (List.filter has_object list)).
End Attachments.

Definition out_attachment (a : AttachmentDownload) : OutAttachment :=
  {| oa_name := name a; oa_content := blob a; oa_contentType := att_contentType (item a) |}.

(** [unique (bucket_id, path)] *)
Definition bucket_path (a : AttachmentRow) : jsstr * jsstr := (att_bucketId a, att_path a).

Definition owned_attachment (id ownerId messageId : jsstr) (a : AttachmentRow) : AttachmentRow :=
  {| att_id := js_or (att_id a) id; att_ownerId := ownerId; att_messageId := messageId; att_bucketId := att_bucketId a;
     att_path := att_path a; att_filenameOriginal := att_filenameOriginal a; att_contentType := att_contentType a;
     att_sizeBytes := att_sizeBytes a; att_cid := att_cid a; att_isInline := att_isInline a;
     att_checksum := att_checksum a |}.

(** ** [send] *)

Section Send.
Context (clock : nat → Z) (new_id : MailDb → jsstr).
(** Columns and tables only this component reads: the address and the provider of an identity, the
    types of the providers. *)
Context (value : IdentityRow → jsstr) (providerId : IdentityRow → option jsstr) (provider_type : jsstr → option jsstr).
(** [decryptAdminSecrets] of the secrets of a provider or an account: the first decrypted secret, if
    any; the outer [None] when it throws.  [createMailer]. *)
Context (decryptAdminSecrets : jsstr → jsstr → jsstr → option (option jsstr)) (createMailer : jsstr → jsval → option Mailer).
(** Whether the relay is configured, and what its transport answers. *)
Context (relay_configured : bool) (relay : list OutMail → MailOptions → SmtpRouter.sent).
Context (json_parse : jsstr → option jsval) (download : jsstr → jsstr → option jsstr).
Context (attachment_item : jsval → option AttachmentRow) (message_ok : MessageRow → bool).
Context (addressparser : jsstr → list Parsed) (toArray : jsval → list jsval).
Context (date_label : Z → jsstr) (textAsHtml : MessageRow → option jsstr).

Definition open_mailer (identity : IdentityRow) : option Mailer :=
  secret ← match providerId identity ≫= JsString.or_undefined with
           | Some p => decryptAdminSecrets "provider_secrets"%js (id_ownerId identity) p
           | None => decryptAdminSecrets "smtp_account_secrets"%js (id_ownerId identity)
                       (default "null"%js (smtpAccountId identity))
           end;
  credentials ← match secret ≫= JsString.or_undefined with Some s => json_parse s | None => Some (VObj []) end;
  createMailer (default "smtp"%js (providerId identity ≫= provider_type)) credentials.

Definition ensureThreadId (ownerId : jsstr) : proc jsstr :=
  now ← new_Date clock;
  s ← read;
  _ ← modify (set_threads (λ l, l ++ [ {| t_id := new_id s; t_ownerId := ownerId; t_lastMessageDate := Some now |} ]));
  mret (new_id s).

Definition compose_data (form : Form) : MailComposeInput :=
  {| mc_to := toArray (fm_to form); mc_cc := toArray (fm_cc form); mc_bcc := toArray (fm_bcc form);
     mc_subject := fm_subject form ≫= JsString.or_undefined; mc_text := fm_text form ≫= JsString.or_undefined;
     mc_html := fm_html form ≫= JsString.or_undefined; mc_mode := opt_or (fm_mode form) "new"%js |}.

Definition is_reply (data : MailComposeInput) : bool := bool_decide (mc_mode data = "reply"%js).

(** [getOriginalMessage], for replies and forwarded mail. *)
Definition original_of (form : Form) (s : MailDb) : option MessageRow :=
  let data := compose_data form in
  if (is_reply data || bool_decide (mc_mode data = "forward"%js)) && opt_truthy (fm_originalMessageId form) then
    List.find (λ m, bool_decide (Some (m_id m) = fm_originalMessageId form)) (messages s)
  else None.

Definition thread_for (form : Form) (ownerId : jsstr) (orig : option MessageRow) : proc jsstr :=
  if is_reply (compose_data form) then or_throw (m_threadId <$> orig) else ensureThreadId ownerId.

Definition replied_to (form : Form) (orig : option MessageRow) : option MessageRow :=
  if is_reply (compose_data form) then orig else None.

Definition sent_message (form : Form) (identity : IdentityRow) (orig : option MessageRow) (attachments : nat)
    (now : Z) (threadId id mid : jsstr) : MessageRow :=
  let data := compose_data form in
  let '(subject, text, html) := generateMailAttrs date_label textAsHtml data orig in {|
    m_id := id; m_ownerId := id_ownerId identity; m_mailboxId := default "undefined"%js (fm_sentMailboxId form);
    m_threadId := threadId; m_messageId := mid; m_inReplyTo := m_messageId <$> replied_to form orig;
    m_references := Some (from_option reply_references [] (replied_to form orig)); m_replyTo := VArr [];
    m_subject := Some subject; m_snippet := generateSnippet (js_or text html); m_text := Some text;
    m_html := Some html; m_from := VStr (value identity); m_to := toAddressObj addressparser (mc_to data);
    m_cc := toAddressObj addressparser (mc_cc data); m_bcc := toAddressObj addressparser (mc_bcc data);
    m_date := None; m_sizeBytes := None; m_seen := true; m_answered := false; m_flagged := false;
    m_hasAttachments := 0 <? attachments; m_headersJson := None; m_metaData := None; m_rawStorageKey := None;
    m_createdAt := now; m_updatedAt := now |}.

(** The mail for the mailer and the one for the relay. *)
Definition out_mail (to_relay : bool) (form : Form) (identity : IdentityRow) (orig : option MessageRow)
    (blobs : list AttachmentDownload) : OutMail :=
  let data := compose_data form in
  let '(subject, text, html) := generateMailAttrs date_label textAsHtml data orig in
  let reply := replied_to form orig in
  let references := from_option reply_references [] reply in
  {| om_relay := to_relay; om_from := value identity; om_to := mc_to data; om_subject := subject;
     om_text := Some text; om_html := Some html;
     om_inReplyTo := if to_relay then m_messageId <$> reply else Some (from_option m_messageId [] reply);
     om_references := if to_relay && (length references =? 0) then None else Some references;
     om_attachments := map out_attachment blobs |}.

(** What the relay ([sendcloud.ts]) is called with. *)
Definition relay_options (m : OutMail) : SendCloudEmailOptions :=
  {| o_from := om_from m; o_to := map (λ v, joined [v]) (om_to m); o_subject := om_subject m; o_text := om_text m;
     o_html := om_html m; o_inReplyTo := om_inReplyTo m; o_references := om_references m |}.

Definition relay_response (r : SendCloudResult) : MailerResponse :=
  {| rs_success := SmtpRouter.success r; rs_MessageId := messageId r; rs_error := sc_error r |}.

(** The mail leaves before the answer is known. *)
Definition hand_over (mailer : Mailer) (ch : SmtpChannel) (mail : bool → OutMail) : sending MailerResponse :=
  s ← read;
  let to_relay := match ch with ChSendcloud => relay_configured | ChStalwart => false end in
  _ ← modify (set_handed (λ l, l ++ [mail to_relay]));
  if to_relay then mret (relay_response (SmtpRouter.send (relay (handed s)) (relay_options (mail true))))
  else or_throw (mailer (handed s) (mail false)).

(** [INSERT ... RETURNING]: the unique key is not left to a conflict clause. *)
Definition insert_sent (row : MessageRow) : proc unit :=
  inserted ← insert_message row;
  match inserted with Some _ => mret tt | None => throw end.

Definition insert_attachment (ownerId messageId : jsstr) (a : AttachmentDownload) : proc unit :=
  s ← read;
  let row := owned_attachment (new_id s) ownerId messageId (item a) in
  if bool_decide (bucket_path row ∈ map bucket_path (messageAttachments (ingest s))) then throw
  else modify (set_attachments (λ l, l ++ [row])).

(** The copy in the sent folder. *)
Definition store_sent (row : MessageRow) (blobs : list AttachmentDownload) : proc unit :=
  _ ← insert_sent row;
  _ ← each (insert_attachment (m_ownerId row) (m_id row)) blobs;
  _ ← upsertMailboxThreadItem clock (m_id row);
  batch_job "search-ingest"%js "add"%js [("messageId"%js, VStr (m_id row))] true false.

(** [String(MessageId) || `msg-${Date.now()}`] *)
Definition sent_id (r : MailerResponse) (now : Z) : jsstr :=
  js_or (default "undefined"%js (rs_MessageId r)) ("msg-"%js ++ int_to_str now).

(** The body of the transaction, in the mailbox and the identity found. *)
Definition send_from (form : Form) (identity : IdentityRow) : sending bool :=
  mailer ← or_throw (open_mailer identity);
  let blobs := fetchAttachmentBlobs json_parse download attachment_item (fm_attachments form) in
  s ← read;
  let orig := original_of form (db s) in
  created ← on_db (new_Date clock);
  threadId ← on_db (thread_for form (id_ownerId identity) orig);
  let row := sent_message form identity orig (length blobs) created threadId in
  if negb (message_ok (row [] "PLACEHOLDER"%js)) then throw
  else
    ch ← or_throw (route_values (mc_to (compose_data form)));
    answer ← hand_over mailer ch (λ to_relay, out_mail to_relay form identity orig blobs);
    if rs_success answer then
      now ← on_db (new_Date clock);
      s ← read;
      let stored := row (new_id (db s)) (sent_id answer now) in
      if negb (message_ok stored) then throw
      else
        _ ← on_db (store_sent stored blobs);
        mret true
    else mret (negb (opt_truthy (rs_error answer))).

(** [success] of the answer. *)
Definition send (form : Form) : sending bool :=
  db_transaction
    (s ← read;
     mailbox ← or_throw (List.find (λ b, bool_decide (mb_id b = default "undefined"%js (fm_sentMailboxId form)))
                           (mailboxes (db s)));
     identity ← or_throw (List.find (λ i, bool_decide (id_id i = mb_identityId mailbox)) (identities (db s)));
     send_from form identity).
(** ** Scheduled drafts *)

Definition has_draft_id (i : jsstr) (d : Draft) : bool := bool_decide (dr_id d = i).

Definition with_status (status : jsstr) (d : Draft) : Draft :=
  {| dr_id := dr_id d; dr_ownerId := dr_ownerId d; dr_mailboxId := dr_mailboxId d; dr_identityId := dr_identityId d;
     dr_status := status; dr_scheduledAt := dr_scheduledAt d; dr_payload := dr_payload d |}.

(** [{...draft.payload, __error}], from the payload that was read. *)
Definition with_failure (payload : Form) (error : jsstr) (d : Draft) : Draft :=
  {| dr_id := dr_id d; dr_ownerId := dr_ownerId d; dr_mailboxId := dr_mailboxId d; dr_identityId := dr_identityId d;
     dr_status := "failed"%js; dr_scheduledAt := dr_scheduledAt d;
     dr_payload := {| fm_to := fm_to payload; fm_cc := fm_cc payload; fm_bcc := fm_bcc payload;
       fm_subject := fm_subject payload; fm_text := fm_text payload; fm_html := fm_html payload;
       fm_mode := fm_mode payload; fm_attachments := fm_attachments payload; fm_mailboxId := fm_mailboxId payload;
       fm_sentMailboxId := fm_sentMailboxId payload; fm_originalMessageId := fm_originalMessageId payload;
       fm_scheduledAt := fm_scheduledAt payload; fm_error := Some error |} |}.

Definition load_draft (i : jsstr) : sending Draft :=
  s ← read;
  or_throw (List.find (has_draft_id i) (draftMessages s)).

(** [UPDATE ... WHERE id = ... AND status = 'scheduled' RETURNING]: whether there is a row. *)
Definition claimable (i : jsstr) (d : Draft) : bool := has_draft_id i d && bool_decide (dr_status d = "scheduled"%js).

Definition claim (draft : Draft) : sending bool :=
  s ← read;
  _ ← modify (set_drafts (update_where (claimable (dr_id draft)) (with_status "sending"%js)));
  mret (existsb (claimable (dr_id draft)) (draftMessages s)).

(** The text of the error that was thrown, which the outcomes do not carry. *)
Context (error_text : SendStore → jsstr).

Definition settle (draft : Draft) (o : outcome bool) : sending unit :=
  match o with
  | Done _ => modify (set_drafts (update_where (has_draft_id (dr_id draft)) (with_status "sent"%js)))
  | Threw =>
      s ← read;
      _ ← modify (set_drafts (update_where (has_draft_id (dr_id draft)) (with_failure (dr_payload draft) (error_text s))));
      throw
  end.

(** The outcome of [p], which the [try] statement looks at. *)
Definition attempt {A} (p : sending A) : sending (outcome A) := λ s, let (s', o) := p s in (s', Done o).

Definition processDraft (draftMessageId : jsstr) : sending unit :=
  draft ← load_draft draftMessageId;
  claimed ← claim draft;
  match claimed with
  | true => o ← attempt (send (dr_payload draft)); settle draft o
  | false => mret tt
  end.

(** The handler of the queue: what [send] answers is dropped. *)
Definition handle_mail_job (j : MailJob) : sending unit :=
  match j with
  | SendScheduledDraft i _ => processDraft i
  | SendAndReconcile form => _ ← send form; mret tt
  end.
End Send.

(** ** The web application ([apps/web/lib/actions/mailbox.ts]) *)

(** [toArray] of [apps/web/lib/utils.ts] *)
Definition form_recipients (v : jsval) : list jsstr :=
  List.filter truthy (map trim (match v with
    | VArr l => map js_to_string l
    | _ => split ","%char (js_to_string (nullish_or v (VStr [])))
    end)).

Inductive SendAnswer := Refused (error : jsstr) | Scheduled (draftMessageId : jsstr) | Queued.

Section Web.
Context (clock : nat → Z) (new_id : SendStore → jsstr) (userId : jsstr).
(** [dayjs(text)], [None] when it is not valid; the schema of the table. *)
Context (dayjs : jsstr → option Z) (draft_ok : Draft → bool).

Definition schedule_draft (form : Form) (at_ : Z) : sending SendAnswer :=
  s ← read;
  let seen := List.find (λ b, bool_decide (Some (mb_id b) = fm_mailboxId form) && bool_decide (mb_ownerId b = userId))
                (mailboxes (db s)) in
  let draft := {| dr_id := new_id s; dr_ownerId := userId; dr_mailboxId := default [] (fm_mailboxId form);
                  dr_identityId := mb_identityId <$> seen; dr_status := "scheduled"%js; dr_scheduledAt := Some at_;
                  dr_payload := form |} in
  if negb (draft_ok draft) then mret (Refused "There was an error trying to schedule your mail."%js)
  else if bool_decide (dr_mailboxId draft ∉ map mb_id (mailboxes (db s))) then throw
  else
    _ ← modify (set_drafts (λ l, l ++ [draft]));
    now ← on_db (new_Date clock);
    _ ← modify (add_mail_job (SendScheduledDraft (dr_id draft) (Z.max 0 (at_ - now))));
    mret (Scheduled (dr_id draft)).

(** Up to the job, when the mail is to go at once. *)
Definition sendMail (form : Form) : sending SendAnswer :=
  match form_recipients (fm_to form), fm_scheduledAt form ≫= JsString.or_undefined with
  | [], _ => mret (Refused "Please provide at least one recipient in the To field."%js)
  | _ :: _, Some raw =>
      match dayjs raw with
      | Some at_ => schedule_draft form at_
      | None => mret (Refused "Invalid scheduled time."%js)
      end
  | _ :: _, None =>
      _ ← modify (add_mail_job (SendAndReconcile form));
      mret Queued
  end.

Definition own_draft (d : Draft) : bool := bool_decide (dr_ownerId d = userId).

Definition fetchScheduledDraftCounts (s : SendStore) : list Draft :=
  List.filter (λ d, own_draft d && bool_decide (dr_status d = "scheduled"%js)) (draftMessages s).

Definition fetchScheduledDrafts (identityPublicId : jsstr) : sending (list Draft) :=
  s ← read;
  identity ← or_throw (List.find (λ i, bool_decide (id_publicId i = identityPublicId) && bool_decide (id_ownerId i = userId))
                         (identities (db s)));
  mret (List.filter (λ d, bool_decide (dr_identityId d = Some (id_id identity))) (fetchScheduledDraftCounts s)).

Definition deleteScheduledDraft (draftId : jsstr) : sending unit :=
  modify (set_drafts (List.filter (λ d, negb (own_draft d && has_draft_id draftId d)))).
End Web.

(** ** Jobs that run side by side *)

(** How far a job of a draft has come. *)
Inductive Running := Loaded (d : Draft) | Claimed (d : Draft) | Answered (d : Draft) (o : outcome bool).

(** [used] are the ids given to drafts, [sends] the drafts [send] was called for and [directs] the
    number of other mails sent. *)
Record System := { store : SendStore; running : list Running; used : list jsstr; sends : list jsstr; directs : nat }.

Section Interleaving.
Context (send : Form → sending bool) (error_text : SendStore → jsstr) (sendMail : jsstr → Form → sending SendAnswer).

(** A job goes from one statement that waits to the next; between them other jobs, users and the other
    components have their turn, and a job may vanish with its process. *)
Inductive mail_system_step : System → System → Prop :=
| step_load s i d st :
    load_draft i (store s) = (st, Done d) →
    mail_system_step s {| store := st; running := Loaded d :: running s; used := used s; sends := sends s; directs := directs s |}
| step_claim s l r d st b :
    running s = l ++ Loaded d :: r → claim d (store s) = (st, Done b) →
    mail_system_step s {| store := st; running := l ++ (if b then [Claimed d] else []) ++ r; used := used s; sends := sends s;
                  directs := directs s |}
| step_send s l r d st o :
    running s = l ++ Claimed d :: r → send (dr_payload d) (store s) = (st, o) →
    mail_system_step s {| store := st; running := l ++ Answered d o :: r; used := used s; sends := sends s ++ [dr_id d];
                  directs := directs s |}
| step_settle s l r d st o o' :
    running s = l ++ Answered d o :: r → settle error_text d o (store s) = (st, o') →
    mail_system_step s {| store := st; running := l ++ r; used := used s; sends := sends s; directs := directs s |}
| step_crash s l r j :
    running s = l ++ j :: r →
    mail_system_step s {| store := store s; running := l ++ r; used := used s; sends := sends s; directs := directs s |}
| step_direct s form st o :
    send form (store s) = (st, o) →
    mail_system_step s {| store := st; running := running s; used := used s; sends := sends s; directs := S (directs s) |}
| step_compose s userId form st i :
    sendMail userId form (store s) = (st, Done (Scheduled i)) → i ∉ used s →
    mail_system_step s {| store := st; running := running s; used := i :: used s; sends := sends s; directs := directs s |}
| step_delete s userId i st :
    deleteScheduledDraft userId i (store s) = (st, Done tt) →
    mail_system_step s {| store := st; running := running s; used := used s; sends := sends s; directs := directs s |}
| step_other s d :
    mail_system_step s {| store := set_db d (store s); running := running s; used := used s; sends := sends s; directs := directs s |}.

Inductive mail_system_reachable : System → Prop :=
| system_start d : mail_system_reachable {| store := {| db := d; draftMessages := []; sendMailQueue := []; handed := [] |};
                            running := []; used := []; sends := []; directs := 0 |}
| system_next s s' : mail_system_reachable s → mail_system_step s s' → mail_system_reachable s'.
End Interleaving.
