(* ===== verification/SendMailSpecs.v ===== *)
(** * What the worker does with outgoing mail

    One call of [send] hands over at most one mail, and keeps the rows of [mailbox_threads] what they
    should be; the jobs of a scheduled draft send it at most once, whatever else runs. *)

From stdpp Require Import base list.
From S2P Require Import Prelude JsString JsNumber JsValue RuleMatcher MailDb MailRollup Ingest RulesProcessor.
From S2P Require Import ImapOps ImapInvariant IngestSpecs IngestTheorems SmtpRouter SendMail.

(** ** References, recipients *)

Lemma set_of_list_snoc {A} `{EqDecision A} (l : list A) x : set_of_list (l ++ [x]) = set_add x (set_of_list l).
Proof. unfold set_of_list. by rewrite foldl_app. Qed.

(** C40: A reply names at most thirty messages of the conversation, none twice and none that was not
    among the references or the message answered, which is the last unless it was there before. *)
Theorem reply_references_spec m :
  let l := reply_references m in
  length l ≤ 30 ∧ NoDup l ∧ (∀ i, i ∈ l → truthy i = true ∧ (i = m_messageId m ∨ i ∈ default [] (m_references m))) ∧
  (truthy (m_messageId m) = true → m_messageId m ∉ default [] (m_references m) → last l = Some (m_messageId m)).
Proof.
  cbv zeta. unfold reply_references. set (ids := set_of_list _). split; [rewrite length_drop; lia|].
  split; [eapply sublist_NoDup; [apply set_of_list_NoDup|apply sublist_drop]|]. split.
  - intros i Hi. eapply elem_of_sublist in Hi; [|apply sublist_drop]. apply elem_of_set_of_list, list_elem_of_In, List.filter_In in Hi as [Hi Ht].
    split; [done|]. apply list_elem_of_In, elem_of_app in Hi as [|Hi]; [by right|]. left. set_solver.
  - intros Ht Hn. unfold ids. rewrite List.filter_app. simpl. rewrite Ht, set_of_list_snoc. unfold set_add.
    rewrite decide_False.
    + rewrite length_app, drop_app_le by (simpl; lia). by rewrite last_snoc.
    + rewrite elem_of_set_of_list, list_elem_of_In, List.filter_In, <- list_elem_of_In. tauto.
Qed.

(** On recipients that are texts the router is asked. *)
Lemma route_values_texts (l : list jsstr) : route_values (map VStr l) = Some (channel (routeEmail l None)).
Proof.
  unfold routeEmail. induction l as [|r l IH]; [done|]. simpl. rewrite IH. destruct (isChinaDomain _); [done|].
  by destruct (existsb _ l).
Qed.

(** ** What leaves *)

(** At most [k] mails, all of them as [P] says; the drafts and the queue stay. *)
Definition hands (k : nat) (P : OutMail → Prop) (s s' : SendStore) : Prop :=
  draftMessages s' = draftMessages s ∧ sendMailQueue s' = sendMailQueue s ∧
  ∃ l, handed s' = handed s ++ l ∧ length l ≤ k ∧ Forall P l.

Lemma hands_none P s s' : draftMessages s' = draftMessages s → sendMailQueue s' = sendMailQueue s → handed s' = handed s → hands 0 P s s'.
Proof. intros H1 H2 H3. split; [done|]. split; [done|]. exists []. by rewrite app_nil_r. Qed.

Lemma hands_weaken j k P s s' : j ≤ k → hands j P s s' → hands k P s s'.
Proof. intros Hj (H1 & H2 & l & H3 & Hl & HP). split; [done|]. split; [done|]. exists l. split; [done|]. split; [lia|done]. Qed.

Lemma hands_bind {A B} j k P (p : sending A) (f : A → sending B) s :
  hands j P s (p s).1 → (∀ a s, hands k P s (f a s).1) → hands (j + k) P s ((p ≫= f) s).1.
Proof.
  intros (H1 & H2 & l & H3 & Hl & HP) Hf. unfold mbind, proc_bind. destruct (p s) as [s1 [a|]]; simpl in *.
  - destruct (Hf a s1) as (F1 & F2 & k' & F3 & Fl & FP). split; [congruence|]. split; [congruence|].
    exists (l ++ k'). rewrite F3, H3, app_assoc, length_app, Forall_app. split; [done|]. split; [lia|done].
  - split; [done|]. split; [done|]. exists l. split; [done|]. split; [lia|done].
Qed.

Lemma hands_on_db {A} P (p : proc A) s : hands 0 P s (on_db p s).1.
Proof. unfold on_db. destruct (p (db s)). by apply hands_none. Qed.

(** ** Scheduled drafts *)

(** No draft is there that was not, and none has become scheduled. *)
Definition settles (l l' : list Draft) : Prop :=
  ∀ d', d' ∈ l' → ∃ d, d ∈ l ∧ dr_id d' = dr_id d ∧ (dr_status d' = "scheduled"%js → dr_status d = "scheduled"%js).

Lemma settles_update p f l :
  (∀ d, dr_id (f d) = dr_id d ∧ dr_status (f d) ≠ "scheduled"%js) → settles l (update_where p f l).
Proof.
  intros Hf d' (d & Hd & ->)%elem_of_update_where. exists d. destruct (Hf d) as [Hi Hs]. by destruct (p d).
Qed.

Lemma settles_settle error_text d o s : settles (draftMessages s) (draftMessages (settle error_text d o s).1).
Proof. destruct o; by apply settles_update. Qed.

Lemma settles_delete userId i s : settles (draftMessages s) (draftMessages (deleteScheduledDraft userId i s).1).
Proof. intros d' [Hd _]%list_elem_of_In%List.filter_In. exists d'. by rewrite list_elem_of_In. Qed.

(** A job has a draft only if it was scheduled, and after that no draft of that id is. *)
Lemma claim_run d s :
  let '(s', o) := claim d s in
  settles (draftMessages s) (draftMessages s') ∧ handed s' = handed s ∧
  ∃ b, o = Done b ∧ (b = true → ∃ d', d' ∈ draftMessages s ∧ dr_id d' = dr_id d ∧ dr_status d' = "scheduled"%js) ∧
    ∀ d', d' ∈ draftMessages s' → dr_id d' = dr_id d → dr_status d' ≠ "scheduled"%js.
Proof.
  simpl. split; [by apply settles_update|]. split; [done|]. eexists. split; [done|]. split.
  - intros (d' & Hin%list_elem_of_In & Hc)%existsb_exists. unfold claimable, has_draft_id in Hc. bool_to_prop. by exists d'.
  - intros d' (x & _ & ->)%elem_of_update_where. destruct (claimable _ x) eqn:E; [done|].
    intros Hi Hs. unfold claimable, has_draft_id in E. by rewrite !bool_decide_eq_true_2 in E.
Qed.

Section Drafts.
Context (send : Form → sending bool) (error_text : SendStore → jsstr) (clock : nat → Z) (new_id : SendStore → jsstr).
Context (dayjs : jsstr → option Z) (draft_ok : Draft → bool).
Context (Hsend : ∀ form s, hands 1 (λ _, True) s (send form s).1).

Local Abbreviation compose u := (sendMail clock new_id u dayjs draft_ok).
Local Abbreviation reachable := (mail_system_reachable send error_text (λ u, compose u)).

Lemma compose_run u form s s' i :
  compose u form s = (s', Done (Scheduled i)) →
  handed s' = handed s ∧ ∃ d, dr_id d = i ∧ draftMessages s' = draftMessages s ++ [d].
Proof.
  unfold sendMail. destruct (form_recipients _); [done|]. destruct (fm_scheduledAt form ≫= _); [|done].
  destruct (dayjs _); [|done]. unfold schedule_draft. rewrite read_bind. cbv zeta. destruct (negb _); [done|].
  case_bool_decide; [done|]. intros [= <- <-]. split; [done|]. eexists. split; [|reflexivity]. done.
Qed.

(** The drafts [send] was called for, or is about to be. *)
Definition claimed_id (j : Running) : option jsstr := match j with Claimed d => Some (dr_id d) | _ => None end.
Definition busy (s : System) : list jsstr := sends s ++ omap claimed_id (running s).

Record once (s : System) : Prop := {
  once_nodup : NoDup (busy s);
  once_used : ∀ i, i ∈ busy s → i ∈ used s;
  once_drafts : ∀ d, d ∈ draftMessages (store s) → dr_id d ∈ used s;
  once_status : ∀ d, d ∈ draftMessages (store s) → dr_id d ∈ busy s → dr_status d ≠ "scheduled"%js;
  once_handed : length (handed (store s)) ≤ length (sends s) + directs s;
}.

(** The drafts are settled, and jobs end. *)
Lemma once_settles s s' :
  settles (draftMessages (store s)) (draftMessages (store s')) → busy s' `sublist_of` busy s → used s' = used s →
  length (handed (store s')) ≤ length (sends s') + directs s' → once s → once s'.
Proof.
  intros Hd Hb Hu Hh [H1 H2 H3 H4 H5]. constructor; [by eapply sublist_NoDup|..|done]; rewrite ?Hu.
  - intros i Hi. apply H2. by eapply elem_of_sublist.
  - intros d (d0 & Hin & -> & _)%Hd. auto.
  - intros d (d0 & Hin & Hi & Hst)%Hd Hbusy Hs. apply (H4 d0 Hin); [|auto]. rewrite <- Hi. by eapply elem_of_sublist.
Qed.

Lemma settles_refl l : settles l l.
Proof. intros d Hd. by exists d. Qed.
Lemma busy_split s l r j :
  running s = l ++ j :: r → busy s = sends s ++ omap claimed_id l ++ option_list (claimed_id j) ++ omap claimed_id r.
Proof. unfold busy. intros ->. rewrite omap_app. simpl. by destruct (claimed_id j). Qed.

Lemma drop_job s l r j st :
  running s = l ++ j :: r → settles (draftMessages (store s)) (draftMessages st) → length (handed st) ≤ length (handed (store s)) →
  once s → once {| store := st; running := l ++ r; used := used s; sends := sends s; directs := directs s |}.
Proof.
  intros Hr Hd Hh Ho. apply (once_settles s); [done| |done|pose proof (once_handed s Ho); simpl; lia|done].
  rewrite (busy_split s l r j Hr). unfold busy. simpl. rewrite omap_app. by apply sublist_app, sublist_app, sublist_inserts_l.
Qed.

Lemma once_claim s l r d st o :
  running s = l ++ Loaded d :: r → claim d (store s) = (st, o) → once s →
  ∃ b, o = Done b ∧ once {| store := st; running := l ++ (if b : bool then [Claimed d] else []) ++ r; used := used s; sends := sends s;
                            directs := directs s |}.
Proof.
  intros Hr Hc Ho. pose proof (claim_run d (store s)) as H. rewrite Hc in H. destruct H as (Hd & Hh & b & -> & Hwin & Hlost).
  exists b. split; [done|]. destruct b; [|apply (drop_job s l r (Loaded d)); [done|done|by rewrite Hh|done]].
  destruct (Hwin eq_refl) as (d0 & Hin & Hi & Hst). clear Hwin. pose proof Ho as [H1 H2 H3 H4 H5].
  assert (dr_id d ∉ busy s) as Hn by (intros Hb; apply (H4 d0 Hin); [by rewrite Hi|done]).
  set (s' := {| store := st |}). assert (busy s' ≡ₚ dr_id d :: busy s) as Eb.
  { rewrite (busy_split s _ _ _ Hr). unfold busy. simpl. rewrite omap_app. simpl. solve_Permutation. }
  constructor; cbn [used].
  - rewrite Eb. by constructor.
  - intros i. rewrite Eb, elem_of_cons. intros [-> |Hb]; [|auto]. rewrite <- Hi. auto.
  - intros x (d1 & Hx & -> & _)%Hd. auto.
  - intros x Hx. rewrite Eb, elem_of_cons. intros [Hid|Hb]; [auto|]. destruct (Hd x Hx) as (d1 & Hx1 & Hi1 & Hs1).
    intros Hs. apply (H4 d1 Hx1); [by rewrite <- Hi1|auto].
  - simpl. rewrite Hh. done.
Qed.

Lemma once_step s s' : mail_system_step send error_text (λ u, compose u) s s' → once s → once s'.
Proof.
  intros Hstep Ho. destruct Hstep as [s i d st Hl|s l r d st b Hr Hc|s l r d st o Hr Hs|s l r d st o o' Hr Hs|s l r j Hr|
    s form st o Hs|s u form st i Hs Hi|s u i st Hs|s d].
  - assert (st = store s) as -> by (unfold load_draft in Hl; cbv [mbind proc_bind read] in Hl; by destruct (List.find _ _); injection Hl).
    apply (once_settles s); [apply settles_refl|done|done|apply Ho|done].
  - destruct (once_claim s l r d st _ Hr Hc Ho) as (b' & [= <-] & H). exact H.
  - pose proof (Hsend (dr_payload d) (store s)) as (Hd & _ & k & Hk & Hlen & _). rewrite Hs in Hd, Hk. simpl in Hd, Hk.
    set (s' := {| store := st |}). assert (busy s' ≡ₚ busy s) as Eb.
    { rewrite (busy_split s _ _ _ Hr). unfold busy. simpl. rewrite omap_app. simpl. solve_Permutation. }
    destruct Ho as [H1 H2 H3 H4 H5]. constructor.
    + by rewrite Eb.
    + intros i. rewrite Eb. apply H2.
    + intros x. cbn. rewrite Hd. apply H3.
    + intros x Hx. rewrite Eb. apply H4. by rewrite <- Hd.
    + cbn. rewrite Hk, !length_app. simpl. lia.
  - pose proof (settles_settle error_text d o (store s)) as Hd. assert (handed st = handed (store s)) as Hh.
    { by destruct o; injection Hs as <-. }
    rewrite Hs in Hd. by apply (drop_job s l r (Answered d o)); rewrite ?Hh.
  - by apply (drop_job s l r j); [done|apply settles_refl|..].
  - pose proof (Hsend form (store s)) as (Hd & _ & k & Hk & Hlen & _). rewrite Hs in Hd, Hk. simpl in Hd, Hk.
    apply (once_settles s); cbn [store]; rewrite ?Hd; [apply settles_refl|done|done| |done].
    simpl. rewrite Hk, length_app. pose proof (once_handed s Ho). lia.
  - apply compose_run in Hs as (Hh & d & <- & Hd). destruct Ho as [H1 H2 H3 H4 H5].
    constructor; cbn [used store]; rewrite ?Hd, ?Hh; [done|set_solver| | |done].
    + intros x [Hx| ->%list_elem_of_singleton]%elem_of_app; set_solver.
    + intros x [Hx| ->%list_elem_of_singleton]%elem_of_app Hb; [by apply H4|]. by destruct Hi; apply H2.
  - pose proof (settles_delete u i (store s)) as Hd. rewrite Hs in Hd.
    apply (once_settles s); [done|done|done| |done]. injection Hs as <-. apply Ho.
  - apply (once_settles s); [apply settles_refl|done|done|apply Ho|done].
Qed.

Lemma reachable_once s : reachable s → once s.
Proof.
  induction 1 as [d|s s' _ IH Hstep]; [|by eapply once_step].
  constructor; simpl; [constructor|set_solver|set_solver|set_solver|lia].
Qed.
End Drafts.

(** ** Storing the copy *)

Section Sending.
Context (clock : nat → Z) (new_id : MailDb → jsstr) (value : IdentityRow → jsstr) (providerId : IdentityRow → option jsstr).
Context (provider_type : jsstr → option jsstr) (decryptAdminSecrets : jsstr → jsstr → jsstr → option (option jsstr)).
Context (createMailer : jsstr → jsval → option Mailer) (relay_configured : bool) (relay : list OutMail → MailOptions → SmtpRouter.sent).
Context (json_parse : jsstr → option jsval) (download : jsstr → jsstr → option jsstr).
Context (attachment_item : jsval → option AttachmentRow) (message_ok : MessageRow → bool).
Context (addressparser : jsstr → list Parsed) (toArray : jsval → list jsval).
Context (date_label : Z → jsstr) (textAsHtml : MessageRow → option jsstr).

Local Abbreviation mail_of := (out_mail value toArray date_label textAsHtml).
Local Abbreviation row_of := (sent_message value addressparser toArray date_label textAsHtml).
Local Abbreviation send_from := (SendMail.send_from clock new_id value providerId provider_type decryptAdminSecrets createMailer
  relay_configured relay json_parse download attachment_item message_ok addressparser toArray date_label textAsHtml).
Local Abbreviation send := (SendMail.send clock new_id value providerId provider_type decryptAdminSecrets createMailer
  relay_configured relay json_parse download attachment_item message_ok addressparser toArray date_label textAsHtml).

(** The row of an attachment: under the message and its owner, and the object that was sent. *)
Definition stored_attachment (ownerId messageId : jsstr) (a : AttachmentDownload) (r : AttachmentRow) : Prop :=
  att_messageId r = messageId ∧ att_ownerId r = ownerId ∧
  (att_bucketId r, att_path r, att_filenameOriginal r, att_contentType r, att_sizeBytes r, att_checksum r) =
  (att_bucketId (item a), att_path (item a), att_filenameOriginal (item a), att_contentType (item a), att_sizeBytes (item a), att_checksum (item a)).

(** The attachments stored are those of the mail, in order, under the message and its owner. *)
Lemma insert_attachments_run ownerId i l s s' :
  each (insert_attachment new_id ownerId i) l s = (s', Done tt) →
  quiet s s' ∧ jobs s' = jobs s ∧ ∃ rows, messageAttachments (ingest s') = messageAttachments (ingest s) ++ rows ∧
    Forall2 (stored_attachment ownerId i) l rows.
Proof.
  revert s. induction l as [|a l IH]; intros s; cbn [each].
  { intros [= <-]. split; [done|]. split; [done|]. exists []. by rewrite app_nil_r. }
  intros (u & s1 & Ha & Hl)%bind_Done. unfold insert_attachment in Ha. cbv [mbind proc_bind read] in Ha.
  case_bool_decide as Hb; [done|]. injection Ha as <- _. destruct (IH _ Hl) as (Hq & Hj & rows & Hr & Hf).
  split; [exact Hq|]. split; [exact Hj|]. simpl in Hr. rewrite <- app_assoc in Hr. eexists; split; [exact Hr|].
  by constructor.
Qed.

(** The job that puts a message into the index. *)
Definition index_job (i : jsstr) : Job :=
  {| queue := "search-ingest"%js; job_name := "add"%js; job_data := [("messageId"%js, VStr i)];
     job_opts := {| attempts := 0; backoff_delay := 0; removeOnComplete := true; removeOnFail := false; jobId := None |} |}.

Lemma store_sent_run row blobs o s s' :
  can_store o s → so_mailboxId o = m_mailboxId row → so_ownerId o = m_ownerId row →
  m_id row ∉ map m_id (messages s) → m_threadId row ∈ map t_id (threads s) →
  store_sent clock new_id row blobs s = (s', Done tt) →
  message_key row ∉ map message_key (messages s) ∧ messages s' = messages s ++ [row] ∧
  preserving consistent s s' ∧ jobs s' = jobs s ++ [index_job (m_id row)] ∧
  ∃ rows, messageAttachments (ingest s') = messageAttachments (ingest s) ++ rows ∧
    Forall2 (stored_attachment (m_ownerId row) (m_id row)) blobs rows.
Proof.
  intros Hcs Hb Ho Hid Ht. unfold store_sent. intros (u & s1 & Hi & (u2 & s2 & He & (k & s3 & Hu & Hj)%bind_Done)%bind_Done)%bind_Done.
  unfold insert_sent, insert_message in Hi. cbv [mbind proc_bind read] in Hi. destruct (negb _); [done|].
  case_bool_decide as Hk; [done|]. injection Hi as <- _. split; [done|].
  destruct u2. destruct (insert_attachments_run _ _ _ _ _ He) as (Hq & Hjobs & rows & Hr & Hp).
  destruct (insert_and_upsert clock o row s s2 Hcs (eq_sym Hb) (eq_sym Ho) Hid Ht Hq) as (s4 & k' & Hrun & Hm & _ & Hin & Hj4 & _ & Hc & _).
  rewrite Hrun in Hu. injection Hu as <- _. injection Hj as <-. simpl. split; [exact Hm|]. split.
  - intros Hs. apply (consistent_same s4); [done|auto].
  - rewrite Hj4, Hjobs. split; [done|]. exists rows. by rewrite Hin.
Qed.
(** ** The mails of a call *)

Definition is_mail (form : Form) (identity : IdentityRow) (s : SendStore) (m : OutMail) : Prop :=
  ∃ to_relay, m = mail_of to_relay form identity (original_of toArray form (db s))
                    (fetchAttachmentBlobs json_parse download attachment_item (fm_attachments form)).

Lemma hand_over_hands P mailer ch mail s : P (mail true) → P (mail false) → hands 1 P s (hand_over relay_configured relay mailer ch mail s).1.
Proof.
  intros Ht Hf. unfold hand_over. cbv [mbind proc_bind read modify]. set (r := match ch with ChSendcloud => _ | _ => _ end).
  assert (P (mail r)) by by destruct r.
  assert (hands 1 P s (set_handed (λ l, l ++ [mail r]) s)) as H'.
  { split; [done|]. split; [done|]. exists [mail r]. split; [done|]. split; [done|]. by constructor. }
  destruct r; [exact H'|]. by destruct (mailer _ _).
Qed.

Lemma send_from_hands form identity s : hands 1 (is_mail form identity s) s (send_from form identity s).1.
Proof.
  unfold SendMail.send_from. set (P := is_mail form identity s). rewrite or_throw_bind.
  destruct (open_mailer _ _ _ _ _ identity) as [mailer|]; [|by apply hands_weaken with 0; [lia|apply hands_none]].
  rewrite read_bind. cbv zeta. change 1 with (0 + (0 + 1)).
  apply hands_bind; [apply hands_on_db|]. intros created s1. apply hands_bind; [apply hands_on_db|]. intros threadId s2.
  destruct (negb _); [by apply hands_weaken with 0; [lia|apply hands_none]|].
  rewrite or_throw_bind. destruct (route_values _) as [ch|]; [|by apply hands_weaken with 0; [lia|apply hands_none]].
  change 1 with (1 + (0 + 0)). apply hands_bind; [apply hand_over_hands; by eexists|]. intros answer s3.
  destruct (rs_success answer); [|by apply hands_none]. apply hands_bind; [apply hands_on_db|]. intros now s4.
  rewrite read_bind. cbv zeta. destruct (negb _); [by apply hands_none|].
  change 0 with (0 + 0). apply hands_bind; [apply hands_on_db|]. intros u s5. by apply hands_none.
Qed.
(** ** What is kept *)

(** Threads are added; the rest of the tables, the queues and the attachments stay. *)
Definition prepared (d d' : MailDb) : Prop :=
  messages d' = messages d ∧ mailboxThreads d' = mailboxThreads d ∧ mailboxes d' = mailboxes d ∧
  identities d' = identities d ∧ jobs d' = jobs d ∧ ingest d' = ingest d ∧ ∃ l, threads d' = threads d ++ l.

Lemma prepared_consistent d d' : prepared d d' → preserving consistent d d'.
Proof.
  intros (Em & Er & _ & _ & _ & _ & l & Et) Hs. eapply (consistent_restrict (λ _, True) d); [| | |exact Hs].
  - rewrite Em. symmetry. by apply filter_all.
  - rewrite Er. symmetry. by apply filter_all.
  - intros r _. rewrite Et, map_app, elem_of_app. by left.
Qed.

Lemma thread_for_run form ownerId orig d d' t :
  thread_for clock new_id toArray form ownerId orig d = (d', Done t) →
  prepared d d' ∧ match replied_to toArray form orig with
                  | Some m => orig = Some m ∧ t = m_threadId m
                  | None => t ∈ map t_id (threads d')
                  end.
Proof.
  unfold thread_for, replied_to. destruct (is_reply _).
  - destruct orig as [m|]; [|done]. intros [= <- <-]. split; [|done]. repeat (split; [done|]). exists []. by rewrite app_nil_r.
  - intros [= <- <-]. split; [repeat (split; [done|]); by eexists|]. simpl. rewrite map_app. set_solver.
Qed.

Lemma original_of_elem form d m : original_of toArray form d = Some m → m ∈ messages d.
Proof. unfold original_of. destruct (_ && _); [|done]. intros [H _]%List.find_some. by apply list_elem_of_In. Qed.

(** The copy of a mail, in the folder the form names. *)
Definition stored_copy (form : Form) (identity : IdentityRow) (mail : OutMail) (d d' : MailDb) : Prop :=
  ∃ row, messages d' = messages d ++ [row] ∧ message_key row ∉ map message_key (messages d) ∧
    m_mailboxId row = default "undefined"%js (fm_sentMailboxId form) ∧ m_ownerId row = id_ownerId identity ∧
    m_seen row = true ∧ m_subject row = Some (om_subject mail) ∧ m_text row = om_text mail ∧ m_html row = om_html mail ∧
    (∀ orig, replied_to toArray form (original_of toArray form d) = Some orig →
       m_threadId row = m_threadId orig ∧ m_inReplyTo row = Some (m_messageId orig)) ∧
    jobs d' = jobs d ++ [index_job (m_id row)] ∧
    ∃ blobs rows, om_attachments mail = map out_attachment blobs ∧
      blobs = fetchAttachmentBlobs json_parse download attachment_item (fm_attachments form) ∧
      messageAttachments (ingest d') = messageAttachments (ingest d) ++ rows ∧
      Forall2 (stored_attachment (id_ownerId identity) (m_id row)) blobs rows.

(** The messages of the folder are the sender's. *)
Definition sender_options (form : Form) (identity : IdentityRow) : StoreOptions :=
  {| so_ownerId := id_ownerId identity; so_mailboxId := default "undefined"%js (fm_sentMailboxId form); so_rawStorageKey := [];
     so_metaData := None; so_seen := None; so_answered := None; so_flagged := None; so_mode := live |}.

Lemma hand_over_run mailer ch mail s s' r :
  hand_over relay_configured relay mailer ch mail s = (s', Done r) →
  db s' = db s ∧ ∃ b, (b = true ↔ relay_configured = true ∧ ch = ChSendcloud) ∧ handed s' = handed s ++ [mail b].
Proof.
  unfold hand_over. cbv [mbind proc_bind read modify]. destruct ch, relay_configured; simpl.
  1: intros [= <- _]; split; [done|]; exists true; intuition done.
  all: destruct (mailer _ _); [|done]; intros [= <- _]; split; [done|]; exists false; intuition done.
Qed.
Lemma can_store_prepared o d d' : prepared d d' → can_store o d → can_store o d'.
Proof. intros (Em & _ & Eb & Ei & _). by apply can_store_quiet. Qed.

(** What the answer of the mailer leads to. *)
Definition sent_or_refused (form : Form) (identity : IdentityRow) (mail : OutMail) (ok : bool) (d d' : MailDb) : Prop :=
  (ok = true ∧ stored_copy form identity mail d d') ∨ (messages d' = messages d ∧ jobs d' = jobs d).

Lemma copy_stored form identity b blobs created t mid d d2 d4 :
  let orig := original_of toArray form d in
  let row := row_of form identity orig (length blobs) created t (new_id d2) mid in
  blobs = fetchAttachmentBlobs json_parse download attachment_item (fm_attachments form) →
  fresh_ids new_id → can_store (sender_options form identity) d → consistent d → prepared d d2 →
  match replied_to toArray form orig with Some m => orig = Some m ∧ t = m_threadId m | None => t ∈ map t_id (threads d2) end →
  store_sent clock new_id row blobs d2 = (d4, Done tt) →
  stored_copy form identity (mail_of b form identity orig blobs) d d4 ∧ consistent d4.
Proof.
  cbv zeta. intros Hblobs Hfresh Hcs Hs Hp Ht Hst. set (orig := original_of _ _ _) in *.
  pose proof (prepared_consistent _ _ Hp Hs) as Hc. pose proof Hp as (Em & _ & _ & _ & Ej & Ei & l & Eth).
  apply (store_sent_run _ _ (sender_options form identity)) in Hst as (Hk & Hm & Hc4 & Hj & rows & Hr & Hpr).
  2: by apply (can_store_prepared _ d).
  2, 3: by unfold sent_message; destruct (generateMailAttrs _ _ _ _) as [[] ?].
  2: { replace (m_id _) with (new_id d2); [apply Hfresh|]. unfold sent_message. by destruct (generateMailAttrs _ _ _ _) as [[] ?]. }
  - split; [|by apply Hc4]. rewrite Em in Hm, Hk. rewrite Ei in Hr. eexists. split; [exact Hm|]. split; [exact Hk|].
    revert Hj Hpr. unfold sent_message, out_mail. destruct (generateMailAttrs _ _ _ _) as [[] ?]. simpl. intros Hj Hpr.
    repeat (split; [done|]). split; [|split; [by rewrite Hj, Ej|]].
    + intros m Hrep. fold orig in Hrep. rewrite Hrep in Ht |- *. by destruct Ht as [_ ->].
    + exists blobs, rows. by repeat split.
  - replace (m_threadId _) with t by (unfold sent_message; by destruct (generateMailAttrs _ _ _ _) as [[] ?]).
    destruct (replied_to _ _ _) as [m|]; [|done]. destruct Ht as [Ho ->]. rewrite Eth, map_app, elem_of_app. left.
    pose proof (threads_exist d Hs) as H4. rewrite Forall_forall in H4. apply H4. by eapply original_of_elem.
Qed.

Lemma send_from_done form identity s s' ok :
  fresh_ids new_id → can_store (sender_options form identity) (db s) → consistent (db s) →
  send_from form identity s = (s', Done ok) →
  consistent (db s') ∧ ∃ b mail, is_mail form identity s mail ∧ handed s' = handed s ++ [mail] ∧ om_relay mail = b ∧
    (b = true ↔ relay_configured = true ∧ route_values (om_to mail) = Some ChSendcloud) ∧
    sent_or_refused form identity mail ok (db s) (db s').
Proof.
  intros Hfresh Hcs Hs. unfold SendMail.send_from. rewrite or_throw_bind. destruct (open_mailer _ _ _ _ _ _) as [mailer|]; [|done].
  rewrite read_bind. cbv zeta. set (orig := original_of _ _ _). set (blobs := fetchAttachmentBlobs _ _ _ _).
  intros (created & s1 & [= <- <-] & (t & s2 & Ht & Hk)%bind_Done)%bind_Done. unfold on_db in Ht. simpl in Ht.
  destruct (thread_for _ _ _ _ _ _ _) as [d2 o2] eqn:Eth. injection Ht as <- ->.
  apply thread_for_run in Eth as [Hp Ht]. change (prepared (db s) d2) in Hp.
  destruct (negb _); [done|]. rewrite or_throw_bind in Hk. destruct (route_values _) as [ch|] eqn:Ech; [|done].
  apply bind_Done in Hk as (answer & s3 & Hh & Hk). apply hand_over_run in Hh as (Ed & b & Hb & Eh). simpl in Ed, Eh.
  assert (om_to (mail_of b form identity orig blobs) = mc_to (compose_data toArray form) ∧ om_relay (mail_of b form identity orig blobs) = b)
    as [Eto Er] by (unfold out_mail; destruct (generateMailAttrs _ _ _ _) as [[] ?]; done).
  assert (∀ d, sent_or_refused form identity (mail_of b form identity orig blobs) ok (db s) d → consistent d → s' = set_db d s3 →
    consistent (db s') ∧ ∃ b mail, is_mail form identity s mail ∧ handed s' = handed s ++ [mail] ∧ om_relay mail = b ∧
    (b = true ↔ relay_configured = true ∧ route_values (om_to mail) = Some ChSendcloud) ∧
    sent_or_refused form identity mail ok (db s) (db s')) as Hend.
  { intros d Hd Hc ->. split; [done|]. exists b, (mail_of b form identity orig blobs). split; [by eexists|]. split; [done|]. split; [done|].
    rewrite Eto, Ech. split; [|done]. rewrite Hb. intuition congruence. }
  pose proof (prepared_consistent _ _ Hp Hs) as Hc2. pose proof (can_store_prepared _ _ _ Hp Hcs) as Hcs2.
  destruct (rs_success answer).
  - apply bind_Done in Hk as (now & s4 & [= <- <-] & Hk). rewrite read_bind in Hk. cbv zeta in Hk. simpl in Hk. rewrite Ed in Hk.
    destruct (negb _); [done|]. apply bind_Done in Hk as (u & s5 & Hst & [= <- <-]). unfold on_db in Hst. simpl in Hst.
    destruct (store_sent _ _ _ _ _) as [d4 o4] eqn:Est. injection Hst as <- ->. destruct u.
    apply (copy_stored form identity b blobs _ t _ (db s) (tick d2)) in Est as [Hcopy Hc4]; [|done..].
    apply (Hend d4); [by left|done|done].
  - injection Hk as <- _. apply (Hend d2); [|done|destruct s3; simpl in Ed; by rewrite Ed].
    right. destruct Hp as (Em & _ & _ & _ & Ej & _). done.
Qed.
(** The mailbox and the identity the form names. *)
Definition sender (form : Form) (d : MailDb) (mailbox : MailboxRow) (identity : IdentityRow) : Prop :=
  List.find (λ b, bool_decide (mb_id b = default "undefined"%js (fm_sentMailboxId form))) (mailboxes d) = Some mailbox ∧
  List.find (λ i, bool_decide (id_id i = mb_identityId mailbox)) (identities d) = Some identity.

Lemma send_cases form s :
  (∃ mailbox identity, sender form (db s) mailbox identity ∧ send form s = db_transaction (send_from form identity) s) ∨
  send form s = (set_db (rollback (db s) (db s)) s, Threw).
Proof.
  unfold SendMail.send, sender, db_transaction. rewrite read_bind, or_throw_bind. destruct (List.find _ (mailboxes _)) as [mbx|]; [|by right].
  rewrite or_throw_bind. destruct (List.find _ (identities _)) as [ident|] eqn:E; [|by right]. left. by exists mbx, ident.
Qed.

Lemma send_hands form s : hands 1 (λ m, ∃ identity, is_mail form identity s m) s (send form s).1.
Proof.
  destruct (send_cases form s) as [(mbx & ident & _ & ->)| ->]; [|by apply hands_weaken with 0; [lia|apply hands_none]].
  pose proof (send_from_hands form ident s) as (H1 & H2 & l & H3 & H4 & H5). unfold db_transaction.
  destruct (send_from form ident s) as [s1 o]. simpl in *.
  assert (Forall (λ m, ∃ identity, is_mail form identity s m) l) by (eapply Forall_impl; [exact H5|eauto]).
  destruct o; (split; [done|]; split; [done|]; by exists l).
Qed.

(** ** The jobs of drafts *)

Context (error_text : SendStore → jsstr) (new_draft : SendStore → jsstr) (dayjs : jsstr → option Z) (draft_ok : Draft → bool).

Local Abbreviation reachable := (mail_system_reachable send error_text (λ u, sendMail clock new_draft u dayjs draft_ok)).

Local Abbreviation processDraft := (SendMail.processDraft clock new_id value providerId provider_type decryptAdminSecrets
  createMailer relay_configured relay json_parse download attachment_item message_ok addressparser toArray date_label textAsHtml error_text).

(** What the job of a scheduled draft does.  It throws when there is no draft.  A draft that is not
    scheduled is left alone, so one left at sending by a crash stays so.  Otherwise it ends as sent when
    [send] answers, whatever the answer, and as failed, with the error, when [send] throws, which is
    thrown again. *)
Theorem processDraft_spec i s :
  match List.find (has_draft_id i) (draftMessages s) with
  | None => processDraft i s = (s, Threw)
  | Some d =>
      if existsb (claimable i) (draftMessages s) then
        let s0 := set_drafts (update_where (claimable i) (with_status "sending"%js)) s in
        let (s1, o) := send (dr_payload d) s0 in
        let mark := match o with Done _ => with_status "sent"%js | Threw => with_failure (dr_payload d) (error_text s1) end in
        let (s', o') := processDraft i s in
        o' = match o with Done _ => Done tt | Threw => Threw end ∧ db s' = db s1 ∧ handed s' = handed s1 ∧
        draftMessages s' = update_where (has_draft_id i) mark (draftMessages s)
      else processDraft i s = (s, Done tt)
  end.
Proof.
  unfold SendMail.processDraft, load_draft. destruct (List.find _ _) as [d|] eqn:E.
  2: { cbv [mbind proc_bind read]. by rewrite E. }
  pose proof E as [_ Hi]%List.find_some. unfold has_draft_id in Hi. bool_to_prop. cbv [mbind proc_bind read or_throw].
  rewrite E. cbv [mret proc_ret]. cbv beta iota. unfold claim. rewrite Hi. cbv [mbind proc_bind read modify mret proc_ret].
  destruct (existsb _ _) eqn:Eb.
  - unfold attempt. set (s0 := set_drafts _ s). cbv beta iota zeta. pose proof (send_hands (dr_payload d) s0) as (Hd & _).
    destruct (send (dr_payload d) s0) as [s1 o] eqn:Es. simpl in Hd. unfold settle. rewrite Hi.
    destruct o; cbv [mbind proc_bind read modify mret proc_ret throw]; simpl; rewrite Hd; (split; [done|split; [done|split; [done|]]]).
    all: apply update_where_twice; [|done]; intros x; unfold claimable; intros Hx; bool_to_prop; by destruct x.
  - pose proof (existsb_false _ _ Eb) as Hn. destruct s as [d0 drafts q h]. unfold set_drafts. simpl in *. by rewrite update_where_none.
Qed.

(** C2: However the jobs of drafts, their repetition after a crash, users who schedule and delete drafts
    and the other components interleave, [send] is called at most once for a draft, and no more mails
    leave than drafts were sent and mails were sent directly. *)
Theorem draft_sent_at_most_once s :
  reachable s → NoDup (sends s) ∧ length (handed (store s)) ≤ length (sends s) + directs s.
Proof.
  intros Hr. apply reachable_once in Hr as [H1 _ _ _ H5].
  2: { intros form s0. destruct (send_hands form s0) as (Hd & Hq & l & Hl & Hlen & _). split; [done|]. split; [done|].
       exists l. split; [done|]. split; [done|]. by apply Forall_forall. }
  split; [|done]. unfold busy in H1. by apply NoDup_app in H1 as [H1 _].
Qed.
End Sending.

(** ** Examples *)

Definition ex_mailer (answer : MailerResponse) : Mailer := λ _ _, Some answer.
Definition ex_accepted : MailerResponse := {| rs_success := true; rs_MessageId := Some "m1"%js; rs_error := None |}.
Definition ex_nameless : MailerResponse := {| rs_success := true; rs_MessageId := None; rs_error := None |}.
Definition ex_refusal : MailerResponse := {| rs_success := false; rs_MessageId := None; rs_error := Some "quota"%js |}.

Abbreviation ex_with f answer := (f Z.of_nat ex_new_id (λ _ : IdentityRow, "u@x.org"%js) (λ _ : IdentityRow, None) (λ _ : jsstr, None)
  (λ _ _ _ : jsstr, Some None) (λ (_ : jsstr) (_ : jsval), Some (ex_mailer answer)) false (λ _ _, Sent None) (λ _, None)
  (λ _ _, None) (λ _, None) (λ _, true) (λ a, [ {| pa_address := Some a; pa_name := None |} ])
  (λ v, match v with VArr l => l | v => [v] end) (λ _, []) (λ _, None)).
Definition ex_send (answer : MailerResponse) : Form → sending bool := ex_with send answer.

Definition ex_form : Form := {|
  fm_to := VArr [VStr "ann@x.org"%js]; fm_cc := VUndef; fm_bcc := VUndef; fm_subject := None; fm_text := Some "yes"%js;
  fm_html := None; fm_mode := Some "reply"%js; fm_attachments := None; fm_mailboxId := Some "b"%js;
  fm_sentMailboxId := Some "b"%js; fm_originalMessageId := Some "1"%js; fm_scheduledAt := Some "soon"%js; fm_error := None |}.

Definition ex_outbox : SendStore := {|
  db := ex_start; sendMailQueue := []; handed := [];
  draftMessages := [ {| dr_id := "d"%js; dr_ownerId := "u"%js; dr_mailboxId := "b"%js; dr_identityId := Some "i"%js;
                        dr_status := "scheduled"%js; dr_scheduledAt := None; dr_payload := ex_form |} ] |}.

Lemma ex_reply :
  let r := ex_send ex_accepted ex_form ex_outbox in
  r.2 = Done true ∧ map om_subject (handed r.1) = ["Re: Hi"%js] ∧
  map om_references (handed r.1) = [Some (option_list (m_messageId <$> head (messages ex_start)))] ∧
  map m_messageId (drop 3 (messages (db r.1))) = ["m1"%js] ∧ map mt_messageCount (mailboxThreads (db r.1)) = [4]%Z.
Proof. by vm_compute. Qed.

(** A mail the mailer refuses is marked as sent, and the job succeeds. *)
Lemma refused_draft_is_sent :
  let r := ex_with processDraft ex_refusal (λ _, []) "d"%js ex_outbox in
  r.2 = Done tt ∧ map dr_status (draftMessages r.1) = ["sent"%js] ∧ messages (db r.1) = messages ex_start.
Proof. by vm_compute. Qed.

(** Without an identifier from the mailer the copy is called undefined: the second one of a folder is
    refused by the table after its mail has left. *)
Lemma second_copy_is_lost :
  let r1 := ex_send ex_nameless ex_form ex_outbox in
  let r2 := ex_send ex_nameless ex_form r1.1 in
  map m_messageId (drop 3 (messages (db r1.1))) = ["undefined"%js] ∧
  r2.2 = Threw ∧ length (handed r2.1) = 2 ∧ messages (db r2.1) = messages (db r1.1).
Proof. by vm_compute. Qed.


(** A draft that was scheduled, loaded, claimed and sent. *)
Definition ex_compose : jsstr → Form → sending SendAnswer :=
  λ u, sendMail Z.of_nat (λ _, "d"%js) u (λ _, Some 0%Z) (λ _, true).
Definition ex_blank : SendStore := {| db := ex_start; draftMessages := []; sendMailQueue := []; handed := [] |}.
Definition ex_scheduled : SendStore := (ex_compose "u"%js ex_form ex_blank).1.
Definition ex_draft : Draft := {|
  dr_id := "d"%js; dr_ownerId := "u"%js; dr_mailboxId := "b"%js; dr_identityId := Some "i"%js;
  dr_status := "scheduled"%js; dr_scheduledAt := Some 0%Z; dr_payload := ex_form |}.
Definition ex_claimed : SendStore := (claim ex_draft ex_scheduled).1.

Definition ex_system : System := {|
  store := (ex_send ex_accepted ex_form ex_claimed).1; running := [Answered ex_draft (Done true)]; used := ["d"%js];
  sends := ["d"%js]; directs := 0 |}.

Lemma ex_system_reachable : mail_system_reachable (ex_send ex_accepted) (λ _, []) ex_compose ex_system.
Proof.
  pose proof (system_start (ex_send ex_accepted) (λ _, []) ex_compose ex_start) as H.
  eapply system_next in H; [|eapply (step_compose _ _ _ _ "u"%js ex_form ex_scheduled "d"%js); [by vm_compute|set_solver]].
  eapply system_next in H; [|eapply (step_load _ _ _ _ "d"%js ex_draft); reflexivity].
  eapply system_next in H; [|eapply (step_claim _ _ _ _ [] [] ex_draft ex_claimed true); [reflexivity|by vm_compute]].
  eapply system_next in H; [|eapply (step_send _ _ _ _ [] [] ex_draft _ (Done true)); [reflexivity|]]; [exact H|by vm_compute].
Qed.

Lemma draft_sent_at_most_once_witness : NoDup (sends ex_system) ∧ length (handed (store ex_system)) ≤ 1.
Proof.
  exact (ex_with draft_sent_at_most_once ex_accepted (λ _, []) (λ _, "d"%js) (λ _, Some 0%Z) (λ _, true) ex_system ex_system_reachable).
Defined.
