(* ===== verification/SearchIndex.v ===== *)
(** * The search index ([apps/worker/lib/search/*.ts], [server/plugins/search.ts])

    The jobs of the queue [search-ingest] keep a collection of documents, one per message, which the
    web application searches ([initSearch]).  The collection is Typesense's: [upsert] and [import]
    replace the document of an id, and fail when there is no collection.  The documents have the types
    of the schema, so none is refused. *)

From stdpp Require Import base list.
From S2P Require Import Prelude JsString JsRegex JsNumber JsValue RuleMatcher MailDb MailRollup SendMail.

(** ** Documents *)

Record Doc := {
  d_id : jsstr; d_ownerId : jsstr; d_mailboxId : jsstr; d_threadId : jsstr; d_subject : jsstr; d_snippet : jsstr;
  d_text : jsstr; d_html : jsstr; d_fromName : jsstr; d_fromEmail : jsstr; d_fromDomain : jsstr;
  d_participants : list jsstr; d_labels : list jsstr; d_hasAttachment : Z; d_unread : Z; d_sizeBytes : Z;
  d_starred : Z; d_createdAt : Z; d_lastInThreadAt : Z;
}.

(** [/[<>\s]+/g] *)
Definition brackets_re : regex := rplus (RChr (λ a, is_ch "<"%char a || is_ch ">"%char a || is_space a)).

Definition normalizeEmail (s : option jsstr) : option jsstr :=
  t ← s ≫= or_undefined;
  or_undefined (re_replace_all brackets_re (λ _, []) (toLowerCase (trim t))).

(** The groups of an address hold addresses. *)
Fixpoint flatten_item (item : jsval) : list jsstr :=
  match item with
  | VObj fields =>
      option_list (text_or_null (get_prop item "address"%js)) ++
      (fix in_group (fs : list (jsstr * jsval)) : list jsstr :=
         match fs with
         | [] => []
         | (k, v) :: rest =>
             if decide (k = "group"%js) then
               match v with VArr l => flat_map flatten_item l | _ => [] end
             else in_group rest
         end) fields
  | _ => []
  end.

Definition flattenEmails (l : list jsval) : list jsstr := flat_map flatten_item l.
Definition emailsFromAddressObj (obj : jsval) : list jsstr := flattenEmails (address_values obj).

Definition normalized (l : list jsstr) : list jsstr := set_of_list (omap (λ e, normalizeEmail (Some e)) l).

Definition collectParticipants (from to cc bcc : jsval) : list jsstr :=
  normalized (emailsFromAddressObj from ++ emailsFromAddressObj to ++ emailsFromAddressObj cc ++ emailsFromAddressObj bcc).

(** [/@([^> ]+)/] *)
Definition domain_re : regex :=
  RSeq (rchar "@") (RGroup 1 (rplus (RChr (λ a, negb (is_ch ">"%char a || is_ch " "%char a))))).

Definition emailDomain (email : jsstr) : jsstr :=
  default [] (re_exec domain_re (toLowerCase email) ≫= λ m, group 1 (rm_caps m)).

Definition thread_participants (p : Participants) : list jsstr :=
  normalized (map e (p_from p ++ p_to p ++ p_cc p ++ p_bcc p)).

(** A message and the row of its thread, if there is one. *)
Abbreviation JoinedRow := (MessageRow * option MailboxThreadRow)%type.

(** [x ?? []] on a text *)
Definition text_or_blank (v : jsval) : jsstr := js_to_string (nullish_or v (VStr [])).

(** [toSearchDoc] of the fields [rowToDoc] puts together; [createdAt] is the date of the message, or the
    instant of the call. *)
Definition toSearchDoc (createdAt : Z) (row : JoinedRow) : Doc :=
  let (m, mt) := row in
  let fromEmail := toLowerCase (text_or_blank (getMessageAddress (m_from m))) in
  let from_thread := from_option thread_participants [] (mt ≫= mt_participants) in
  {| d_id := m_id m; d_ownerId := m_ownerId m; d_mailboxId := m_mailboxId m; d_threadId := m_threadId m;
     d_subject := default (default [] (mt ≫= mt_subject)) (m_subject m);
     d_snippet := js_or (trim (default [] (mt ≫= mt_previewText))) (slice (default [] (m_text m)) 0 200);
     d_text := default [] (m_text m); d_html := default [] (m_html m);
     d_fromName := text_or_blank (getMessageName (m_from m)); d_fromEmail := fromEmail; d_fromDomain := emailDomain fromEmail;
     d_participants := if bool_decide (from_thread = []) then collectParticipants (m_from m) (m_to m) (m_cc m) (m_bcc m)
                       else from_thread;
     d_labels := []; d_hasAttachment := if m_hasAttachments m || default false (mt_hasAttachments <$> mt) then 1 else 0;
     d_unread := if m_seen m then 0 else 1; d_sizeBytes := default 0%Z (m_sizeBytes m);
     d_starred := if default false (mt_starred <$> mt) then 1 else 0; d_createdAt := createdAt;
     d_lastInThreadAt := match mt with
                         | Some r => mt_lastActivityAt r
                         | None => default createdAt (m_date m)
                         end |}.

(** ** The store *)

(** [collection] is [None] before it was made. *)
Record SearchStore := { db : MailDb; collection : option (jsmap jsstr Doc); collectionReady : bool }.

Definition set_db (d : MailDb) (s : SearchStore) : SearchStore :=
  {| db := d; collection := collection s; collectionReady := collectionReady s |}.
Definition set_collection (c : option (jsmap jsstr Doc)) (s : SearchStore) : SearchStore :=
  {| db := db s; collection := c; collectionReady := collectionReady s |}.
Definition set_ready (s : SearchStore) : SearchStore :=
  {| db := db s; collection := collection s; collectionReady := true |}.

Abbreviation searching := (prog SearchStore).

Definition put_docs (l : list Doc) (c : jsmap jsstr Doc) : jsmap jsstr Doc := foldl (λ c d, jm_set (d_id d) d c) c l.

(** [documents().import(docs, {action: "upsert"})], and [upsert] with one document *)
Definition import_docs (l : list Doc) : searching unit :=
  s ← read;
  c ← or_throw (collection s);
  modify (set_collection (Some (put_docs l c))).

Definition ensureCollection : searching unit :=
  s ← read;
  if collectionReady s then mret tt
  else
    _ ← (match collection s with Some _ => mret tt | None => modify (set_collection (Some [])) end);
    modify set_ready.

(** ** The operations *)

(** [LEFT JOIN] on the thread and the mailbox, for the messages of [p] *)
Definition joined_row (s : MailDb) (m : MessageRow) : list JoinedRow :=
  match filter (λ r, thread_key r = (m_threadId m, m_mailboxId m)) (mailboxThreads s) with
  | [] => [(m, None)]
  | rows => map (λ r, (m, Some r)) rows
  end.

Definition joined_rows (p : MessageRow → bool) (s : MailDb) : list JoinedRow :=
  flat_map (joined_row s) (List.filter p (messages s)).

Section Search.
Context (clock : nat → Z).

Definition rowToDoc (row : JoinedRow) : searching Doc :=
  createdAt ← match m_date row.1 with
              | Some d => mret d
              | None => λ s, let (d, o) := new_Date clock (db s) in (set_db d s, o)
              end;
  mret (toSearchDoc createdAt row).

Fixpoint rows_to_docs (rows : list JoinedRow) : searching (list Doc) :=
  match rows with
  | [] => mret []
  | row :: rest => d ← rowToDoc row; l ← rows_to_docs rest; mret (d :: l)
  end.

Definition index_rows (rows : list JoinedRow) : searching unit :=
  match rows with
  | [] => mret tt
  | _ => l ← rows_to_docs rows; _ ← ensureCollection; import_docs l
  end.

Definition with_id (ids : list jsstr) (m : MessageRow) : bool := bool_decide (m_id m ∈ ids).

(** [LIMIT 1] *)
Definition indexMessage (messageId : jsstr) : searching unit :=
  s ← read;
  index_rows (take 1 (joined_rows (with_id [messageId]) (db s))).

Definition indexManyMessages (messageIds : list jsstr) : searching unit :=
  s ← read;
  if bool_decide (messageIds = []) then mret tt else index_rows (joined_rows (with_id messageIds) (db s)).

Definition refreshThread (threadId : jsstr) : searching unit :=
  s ← read;
  index_rows (joined_rows (λ m, bool_decide (m_threadId m = threadId)) (db s)).

(** A document that is not there is no error. *)
Definition deleteMessage (messageId : jsstr) : searching unit :=
  _ ← ensureCollection;
  modify (λ s, set_collection (filter (λ p, p.1 ≠ messageId) <$> collection s) s).

Definition BATCH_SIZE : nat := 2000.

(** One turn reads the next page; out of fuel it throws, which it never does. *)
Fixpoint rebuild_loop (fuel offset : nat) : searching unit :=
  match fuel with
  | 0 => throw
  | S fuel =>
      s ← read;
      match take BATCH_SIZE (drop offset (joined_rows (λ _, true) (db s))) with
      | [] => mret tt
      | batch =>
          l ← rows_to_docs batch;
          _ ← import_docs l;
          rebuild_loop fuel (offset + BATCH_SIZE)
      end
  end.

(** The pages are counted by the rows there are at the start. *)
Definition rebuild : searching unit :=
  _ ← modify (set_collection (Some []));
  s ← read;
  rebuild_loop (S (length (joined_rows (λ _, true) (db s)))) 0.

Definition text_of (data : list (jsstr * jsval)) (key : jsstr) : jsstr := js_to_string (default VUndef (jm_get key data)).

Definition texts_of (data : list (jsstr * jsval)) (key : jsstr) : list jsstr :=
  match jm_get key data with Some (VArr l) => map js_to_string l | _ => [] end.

(** The handler of the queue. *)
Definition run_search_job (name : jsstr) (data : list (jsstr * jsval)) : searching unit :=
  if bool_decide (name = "add"%js) then indexMessage (text_of data "messageId"%js)
  else if bool_decide (name = "addBatch"%js) then indexManyMessages (texts_of data "messageIds"%js)
  else if bool_decide (name = "remove"%js) then deleteMessage (text_of data "messageId"%js)
  else if bool_decide (name = "refresh-thread"%js) then refreshThread (text_of data "threadId"%js)
  else if bool_decide (name = "rebuild"%js) then rebuild
  else mret tt.
End Search.

(** ** The search of the web application ([apps/web/lib/actions/mailbox.ts]) *)

Record ThreadHit := {
  th_id : jsval; th_threadId : jsval; th_subject : jsval; th_snippet : jsstr; th_fromName : jsval; th_fromEmail : jsval;
  th_participants : jsval; th_labels : jsval; th_hasAttachment : bool; th_unread : bool; th_starred : bool;
  th_createdAt : jsval; th_lastInThreadAt : jsval;
}.

Record SearchThreadsResponse := { items : list ThreadHit; totalThreads : jsval; totalMessages : jsval }.

Definition array_or_empty (v : jsval) : jsval := match v with VArr _ => v | _ => VArr [] end.
Definition is_one (v : jsval) : bool := num_eqb (js_number v) (num_of_Z 1).

Definition thread_hit (d : jsval) : ThreadHit := {|
  th_id := nullish_or (get_prop d "id"%js) (VStr []); th_threadId := nullish_or (get_prop d "threadId"%js) (VStr []);
  th_subject := nullish_or (get_prop d "subject"%js) VNull;
  th_snippet := slice (js_to_string (nullish_or (get_prop d "snippet"%js) (nullish_or (get_prop d "text"%js) (VStr [])))) 0 200;
  th_fromName := nullish_or (get_prop d "fromName"%js) VNull; th_fromEmail := nullish_or (get_prop d "fromEmail"%js) VNull;
  th_participants := array_or_empty (get_prop d "participants"%js); th_labels := array_or_empty (get_prop d "labels"%js);
  th_hasAttachment := is_one (get_prop d "hasAttachment"%js); th_unread := is_one (get_prop d "unread"%js);
  th_starred := is_one (get_prop d "starred"%js); th_createdAt := nullish_or (get_prop d "createdAt"%js) (VNum (num_of_Z 0));
  th_lastInThreadAt := nullish_or (get_prop d "lastInThreadAt"%js) (nullish_or (get_prop d "createdAt"%js) (VNum (num_of_Z 0))) |}.

Definition or_object (v : jsval) : jsval := nullish_or v (VObj []).

Definition source_hits (result : jsval) : list jsval :=
  match get_prop result "grouped_hits"%js with
  | VArr ((_ :: _) as groups) =>
      map (λ g, match get_prop g "hits"%js with VArr (h :: _) => or_object (get_prop h "document"%js) | _ => VObj [] end) groups
  | _ => match get_prop result "hits"%js with
         | VArr hits => map (λ h, or_object (get_prop h "document"%js)) hits
         | _ => []
         end
  end.

(** [JSON.stringify] of an id, which has no character to escape. *)
Definition search_filters (ownerId : jsstr) (hasAttachment onlyUnread starred : bool) : jsstr :=
  join " && "%js (("ownerId:="%js ++ quoted ownerId) ::
    (if hasAttachment then ["hasAttachment:=1"%js] else []) ++ (if onlyUnread then ["unread:=1"%js] else []) ++
    (if starred then ["starred:=1"%js] else [])).

(** The service: query, filter and page. *)
Definition initSearch (search : jsstr → jsstr → Z → jsval) (query ownerId : jsstr) (hasAttachment onlyUnread starred : bool) (page : Z) :
    SearchThreadsResponse :=
  let result := search query (search_filters ownerId hasAttachment onlyUnread starred) page in
  let hits := source_hits result in
  let count := VNum (num_of_Z (Z.of_nat (length hits))) in
  {| items := map thread_hit hits; totalThreads := nullish_or (get_prop result "found"%js) count;
     totalMessages := nullish_or (get_prop result "found_docs"%js) count |}.

(** A document as the service returns it. *)
Definition doc_json (d : Doc) : jsval :=
  let z (x : Z) := VNum (num_of_Z x) in
  VObj [("id", VStr (d_id d)); ("ownerId", VStr (d_ownerId d)); ("mailboxId", VStr (d_mailboxId d)); ("threadId", VStr (d_threadId d));
        ("subject", VStr (d_subject d)); ("snippet", VStr (d_snippet d)); ("text", VStr (d_text d)); ("html", VStr (d_html d));
        ("fromName", VStr (d_fromName d)); ("fromEmail", VStr (d_fromEmail d)); ("fromDomain", VStr (d_fromDomain d));
        ("participants", VArr (map VStr (d_participants d))); ("labels", VArr (map VStr (d_labels d)));
        ("hasAttachment", z (d_hasAttachment d)); ("unread", z (d_unread d)); ("sizeBytes", z (d_sizeBytes d));
        ("starred", z (d_starred d)); ("createdAt", z (d_createdAt d)); ("lastInThreadAt", z (d_lastInThreadAt d))]%js.
