(* ===== verification/SearchSpecs.v ===== *)
(** * What is found: the index and the tables

    A refresh, a batch and a rebuild put into the index what the tables say; flags set in the web
    application can be searched for once the jobs of the action have run. *)

From stdpp Require Import base list.
From S2P Require Import Prelude JsString JsRegex JsNumber JsValue RuleMatcher MailDb MailRollup RulesProcessor ImapOps ImapInvariant.
From S2P Require Import IngestSpecs IngestTheorems MailActions SearchIndex.

(** ** Documents *)

(** The row of a message's thread, in its mailbox. *)
Definition row_of (s : MailDb) (m : MessageRow) : option MailboxThreadRow :=
  head (filter (λ r, thread_key r = msg_key m) (mailboxThreads s)).

(** A document of the message [m], as the tables are. *)
Definition doc_for (s : MailDb) (m : MessageRow) (d : Doc) : Prop :=
  ∃ c, d = toSearchDoc c (m, row_of s m) ∧ ∀ t, m_date m = Some t → c = t.

Lemma doc_for_id s m d : doc_for s m d → d_id d = m_id m.
Proof. by intros (c & -> & _). Qed.

(** The keys the joins rely on. *)
Definition keyed (s : MailDb) : Prop := NoDup (map m_id (messages s)) ∧ NoDup (map thread_key (mailboxThreads s)).

Lemma consistent_keyed s : consistent s → keyed s.
Proof. intros []. by split. Qed.

Lemma filter_key_le {A K} `{EqDecision K} (f : A → K) k (l : list A) : NoDup (map f l) → length (filter (λ x, f x = k) l) ≤ 1.
Proof.
  induction l as [|x l IH]; cbn [map]; [simpl; lia|]. intros [Hn Hd]%NoDup_cons. rewrite filter_cons. case_decide as E; [|auto].
  assert (filter (λ y, f y = k) l = []) as ->; [|simpl; lia]. apply filter_none. intros y Hy Hk.
  apply Hn. rewrite E, <- Hk. by apply list_elem_of_fmap_2.
Qed.

Lemma joined_row_eq s m : keyed s → joined_row s m = [(m, row_of s m)].
Proof.
  intros [_ Hk]. unfold joined_row, row_of. pose proof (filter_key_le thread_key (msg_key m) _ Hk) as Hlen. unfold msg_key in *.
  destruct (filter _ (mailboxThreads s)) as [|r [|]]; [done|done|]. simpl in Hlen. lia.
Qed.

Lemma joined_rows_eq p s : keyed s → joined_rows p s = map (λ m, (m, row_of s m)) (List.filter p (messages s)).
Proof.
  intros Hk. unfold joined_rows. induction (List.filter p (messages s)) as [|m l IH]; [done|]. simpl. by rewrite joined_row_eq, IH.
Qed.

(** ** Putting documents *)

Lemma put_docs_other i l c : i ∉ map d_id l → jm_get i (put_docs l c) = jm_get i c.
Proof.
  unfold put_docs. revert c. induction l as [|d l IH]; intros c; [done|]. cbn [map foldl]. rewrite not_elem_of_cons. intros [Hd Hl].
  rewrite IH by done. by rewrite jm_get_set_ne.
Qed.

Lemma put_docs_in d l c : NoDup (map d_id l) → d ∈ l → jm_get (d_id d) (put_docs l c) = Some d.
Proof.
  unfold put_docs. revert c. induction l as [|d0 l IH]; intros c; [set_solver|]. cbn [map foldl]. intros [Hn Hnd]%NoDup_cons.
  intros [-> |Hd]%elem_of_cons; [|auto]. pose proof (put_docs_other (d_id d0) l) as Ho. unfold put_docs in Ho.
  by rewrite Ho, jm_get_set_eq.
Qed.

Lemma put_docs_app l1 l2 c : put_docs (l1 ++ l2) c = put_docs l2 (put_docs l1 c).
Proof. unfold put_docs. apply foldl_app. Qed.

(** ** Runs *)

(** What indexing leaves of the tables. *)
Definition same_mail (s s' : SearchStore) : Prop :=
  messages (db s') = messages (db s) ∧ mailboxThreads (db s') = mailboxThreads (db s).

#[export] Instance same_mail_preorder : PreOrder same_mail.
Proof. split; unfold same_mail; [done|]. intros s1 s2 s3 [] []. split; congruence. Qed.

Lemma doc_for_same s s' m d : same_mail s s' → doc_for (db s) m d → doc_for (db s') m d.
Proof. intros [_ E]. unfold doc_for, row_of. by rewrite E. Qed.

Lemma keyed_same s s' : same_mail s s' → keyed (db s) → keyed (db s').
Proof. intros [E1 E2]. unfold keyed. by rewrite E1, E2. Qed.

(** Once the worker has seen the collection it is there. *)
Definition ready_ok (s : SearchStore) : Prop := collectionReady s = true → collection s ≠ None.

Section Runs.
Context (clock : nat → Z).

Lemma rows_to_docs_run rows s :
  ∃ s' l, rows_to_docs clock rows s = (s', Done l) ∧ same_mail s s' ∧ collection s' = collection s ∧
    collectionReady s' = collectionReady s ∧
    Forall2 (λ row d, ∃ c, d = toSearchDoc c row ∧ ∀ t, m_date row.1 = Some t → c = t) rows l.
Proof.
  revert s. induction rows as [|row rows IH]; intros s; cbn [rows_to_docs]; [by exists s, []|].
  unfold rowToDoc. destruct (m_date row.1) as [t|] eqn:E.
  - destruct (IH s) as (s' & l & Hr & H1 & H2 & H3 & H4). exists s', (toSearchDoc t row :: l).
    cbv [mbind proc_bind mret proc_ret] in *. rewrite Hr. split; [done|]. split; [done|]. split; [done|]. split; [done|].
    constructor; [|done]. exists t. split; [done|]. congruence.
  - set (s0 := set_db (tick (db s)) s). destruct (IH s0) as (s' & l & Hr & H1 & H2 & H3 & H4).
    exists s', (toSearchDoc (clock (ticks (db s))) row :: l). cbv [mbind proc_bind mret proc_ret new_Date] in *.
    fold s0. rewrite Hr. split; [done|]. split; [done|]. split; [done|]. split; [done|].
    constructor; [|done]. eexists. split; [done|]. congruence.
Qed.

Lemma docs_of_rows s ms l :
  Forall2 (λ row d, ∃ c, d = toSearchDoc c row ∧ ∀ t, m_date row.1 = Some t → c = t) (map (λ m, (m, row_of s m)) ms) l →
  Forall2 (doc_for s) ms l ∧ map d_id l = map m_id ms.
Proof.
  revert l. induction ms as [|m ms IH]; intros l; cbn [map]; intros H; inversion H as [|? d ? l' Hd Hl]; subst; [by split|].
  destruct (IH l' Hl) as [H1 H2]. split; [by constructor|]. simpl. rewrite H2. f_equal. by apply (doc_for_id s).
Qed.
(** The documents of the messages of [p] are as the tables are, the others as before. *)
Definition indexed (p : MessageRow → bool) (s s' : SearchStore) : Prop :=
  same_mail s s' ∧ ready_ok s' ∧
  (∀ m, m ∈ messages (db s) → p m = true → ∃ c d, collection s' = Some c ∧ jm_get (m_id m) c = Some d ∧ doc_for (db s) m d) ∧
  (∀ i, (∀ m, m ∈ messages (db s) → p m = true → m_id m ≠ i) →
     jm_get i (default [] (collection s')) = jm_get i (default [] (collection s))).

Lemma filter_ids p (l : list MessageRow) : NoDup (map m_id l) → NoDup (map m_id (List.filter p l)).
Proof.
  induction l as [|m l IH]; [done|]. cbn [map List.filter]. intros [Hn Hd]%NoDup_cons. destruct (p m); [|auto]. cbn [map].
  apply NoDup_cons. split; [|auto]. intros (x & E & Hx)%list_elem_of_fmap. apply Hn. rewrite E. apply list_elem_of_fmap_2.
  apply list_elem_of_In, List.filter_In in Hx as [Hx _]. by apply list_elem_of_In.
Qed.

Lemma import_run l s : collection s ≠ None →
  import_docs l s = (set_collection (Some (put_docs l (default [] (collection s)))) s, Done tt).
Proof. unfold import_docs. cbv [mbind proc_bind read or_throw modify]. by destruct (collection s). Qed.

Lemma ensure_run s : ready_ok s →
  ∃ s', ensureCollection s = (s', Done tt) ∧ db s' = db s ∧ ready_ok s' ∧ collection s' = Some (default [] (collection s)).
Proof.
  intros Hr. unfold ensureCollection. cbv [mbind proc_bind read modify mret proc_ret]. destruct (collectionReady s) eqn:E.
  - exists s. split; [done|]. split; [done|]. split; [done|]. specialize (Hr E). by destruct (collection s).
  - destruct (collection s) as [c|] eqn:Ec; eexists; (split; [reflexivity|]); simpl; (split; [done|]); (split; [intros _; simpl; congruence|simpl; congruence]).
Qed.

Lemma index_rows_run p s : keyed (db s) → ready_ok s → ∃ s', index_rows clock (joined_rows p (db s)) s = (s', Done tt) ∧ indexed p s s'.
Proof.
  intros Hk Hr. rewrite joined_rows_eq by done. set (ms := List.filter p (messages (db s))).
  unfold index_rows. set (rows := map _ ms). destruct (decide (ms = [])) as [Hms|Hms].
  { exists s. unfold rows. rewrite Hms. split; [done|]. split; [done|]. split; [done|]. split; [|done].
    intros m Hm Hp. assert (m ∈ ms) as Hin by by apply filter_elem. rewrite Hms in Hin. set_solver. }
  destruct (rows_to_docs_run rows s) as (s1 & l & Hrun & Hs1 & Hc1 & Hr1 & Hl). apply docs_of_rows in Hl as [Hl Hids].
  assert (ready_ok s1) as Hok by (unfold ready_ok; by rewrite Hr1, Hc1).
  destruct (ensure_run s1 Hok) as (s2 & He & Hdb & Hok2 & Hc2).
  exists (set_collection (Some (put_docs l (default [] (collection s2)))) s2). split.
  { assert (rows ≠ []) as Hne by (unfold rows; by destruct ms). destruct rows; [done|]. rewrite (bind_run _ _ _ _ _ Hrun), (bind_run _ _ _ _ _ He).
    apply import_run. by rewrite Hc2. }
  unfold indexed. simpl. unfold same_mail. simpl. rewrite Hdb. split; [exact Hs1|]. split; [done|].
  rewrite Hc2, Hc1. cbn [default from_option id]. split.
  - intros m Hm Hp. assert (m ∈ ms) as Hin by by apply filter_elem.
    apply list_elem_of_lookup in Hin as [k Hin]. destruct (Forall2_lookup_l _ _ _ _ _ Hl Hin) as (d & Hd & Hdoc).
    eexists _, d. split; [reflexivity|]. split; [|done]. rewrite <- (doc_for_id _ _ _ Hdoc). apply put_docs_in.
    + rewrite Hids. apply filter_ids, Hk.
    + by eapply list_elem_of_lookup_2.
  - intros i Hi. rewrite put_docs_other; [done|]. rewrite Hids. intros (m & -> & Hm)%list_elem_of_fmap.
    apply filter_elem in Hm as [Hm Hp]. by destruct (Hi m Hm Hp).
Qed.

(** A refresh never fails.  After it the document of every message of the thread says what the tables
    say, and the other documents are as they were. *)
Lemma refreshThread_spec t s :
  keyed (db s) → ready_ok s →
  ∃ s', refreshThread clock t s = (s', Done tt) ∧ indexed (λ m, bool_decide (m_threadId m = t)) s s'.
Proof. intros Hk Hr. by apply index_rows_run. Qed.
(** ** Several threads *)

Definition in_threads (T : list jsstr) (m : MessageRow) : bool := bool_decide (m_threadId m ∈ T).

Lemma doc_for_iff s s' m d : same_mail s s' → doc_for (db s') m d ↔ doc_for (db s) m d.
Proof. intros [E1 E2]. unfold doc_for, row_of. by rewrite E2. Qed.

Lemma indexed_trans p q r s s1 s2 :
  keyed (db s) → (∀ m, r m = p m || q m) → indexed p s s1 → indexed q s1 s2 → indexed r s s2.
Proof.
  intros [Hk _] Hr (S1 & R1 & F1 & G1) (S2 & R2 & F2 & G2). pose proof S1 as [E1 _]. rewrite E1 in F2, G2.
  split; [by trans s1|]. split; [done|]. split.
  - intros m Hm Hrm. rewrite Hr in Hrm. destruct (q m) eqn:Eq.
    + destruct (F2 m Hm Eq) as (c & d & Hc & Hd & Hdoc). exists c, d. split; [done|]. split; [done|]. by apply (doc_for_iff s s1).
    + rewrite orb_false_r in Hrm. destruct (F1 m Hm Hrm) as (c & d & Hc & Hd & Hdoc). specialize (G2 (m_id m)).
      rewrite Hc in G2. simpl in G2. rewrite Hd in G2.
      assert (jm_get (m_id m) (default [] (collection s2)) = Some d) as H.
      { apply G2. intros x Hx Hq Hid. pose proof (NoDup_map_inj m_id _ _ _ Hk Hx Hm Hid). congruence. }
      destruct (collection s2) as [c2|] eqn:E2; [|done]. exists c2, d. done.
  - intros i Hi. rewrite G2, G1; [done|..]; intros m Hm Hp; apply (Hi m Hm); rewrite Hr, Hp; [done|apply orb_true_r].
Qed.

Lemma refresh_all T s : keyed (db s) → ready_ok s →
  ∃ s', each (refreshThread clock) T s = (s', Done tt) ∧ indexed (in_threads T) s s'.
Proof.
  revert s. induction T as [|t T IH]; intros s Hk Hr; cbn [each].
  - exists s. split; [done|]. split; [done|]. split; [done|]. split; [|done]. intros m _ Hm. unfold in_threads in Hm.
    apply bool_decide_eq_true in Hm. set_solver.
  - destruct (index_rows_run (λ m, bool_decide (m_threadId m = t)) s Hk Hr) as (s1 & H1 & Hi1).
    change (refreshThread clock t s = (s1, Done tt)) in H1. pose proof Hi1 as (Hs1 & Hr1 & _). destruct (IH s1) as (s2 & H2 & Hi2); [by apply (keyed_same s)|done|].
    exists s2. split; [by rewrite (bind_run _ _ _ _ _ H1)|]. apply (indexed_trans (λ m, bool_decide (m_threadId m = t)) (in_threads T) _ s s1 s2 Hk); [|done|done].
    intros m. unfold in_threads. rewrite (bool_decide_ext _ _ (elem_of_cons T (m_threadId m) t)). apply bool_decide_or.
Qed.

(** ** Rebuilding *)

Lemma filter_always {A} (l : list A) : List.filter (λ _, true) l = l.
Proof. induction l as [|x l IH]; [done|]. simpl. by rewrite IH. Qed.

Lemma all_rows d : keyed d → joined_rows (λ _, true) d = map (λ m, (m, row_of d m)) (messages d).
Proof. intros Hk. by rewrite joined_rows_eq, filter_always. Qed.

Lemma rebuild_loop_run fuel offset s c :
  1 ≤ fuel → length (messages (db s)) < fuel + offset → keyed (db s) → collection s = Some c →
  ∃ s' l, rebuild_loop clock fuel offset s = (s', Done tt) ∧ same_mail s s' ∧ collection s' = Some (put_docs l c) ∧
    Forall2 (doc_for (db s)) (drop offset (messages (db s))) l.
Proof.
  revert offset s c. induction fuel as [|fuel IH]; intros offset s c Hf Hlen Hk Hc; [lia|].
  cbn [rebuild_loop]. rewrite read_bind, all_rows by done. rewrite skipn_map, firstn_map.
  set (ms := take BATCH_SIZE (drop offset (messages (db s)))). destruct (decide (ms = [])) as [Hms|Hms].
  { rewrite Hms. exists s, []. split; [done|]. split; [done|]. split; [done|].
    assert (drop offset (messages (db s)) = []) as -> by (unfold ms in Hms; by destruct (drop _ _)). done. }
  destruct (rows_to_docs_run (map (λ m, (m, row_of (db s) m)) ms) s) as (s1 & l & Hrun & Hs1 & Hc1 & _ & Hl).
  apply docs_of_rows in Hl as [Hl _]. set (s2 := set_collection (Some (put_docs l c)) s1).
  assert (offset < length (messages (db s))) as Ho.
  { destruct (decide (length (messages (db s)) ≤ offset)); [|lia]. destruct Hms. unfold ms. by rewrite drop_ge. }
  destruct (IH (offset + BATCH_SIZE) s2 (put_docs l c)) as (s' & l' & Hrun' & Hs' & Hc' & Hl'); [lia| | |done|].
  { simpl. destruct Hs1 as [-> _]. unfold BATCH_SIZE. lia. }
  { by apply (keyed_same s). }
  exists s', (l ++ l'). split.
  { destruct ms as [|m ms']; [done|]. cbn [map] in *. rewrite (bind_run _ _ _ _ _ Hrun).
    rewrite (bind_run _ _ s1 s2 tt); [done|]. by rewrite import_run, Hc1, Hc by (rewrite Hc1, Hc; done). }
  split; [by trans s1|]. split; [by rewrite put_docs_app|].
  rewrite <- (take_drop BATCH_SIZE (drop offset _)), drop_drop. apply Forall2_app; [done|].
  destruct Hs1 as [E1 E2]. simpl in Hl'. rewrite E1 in Hl'. eapply Forall2_impl; [exact Hl'|]. intros m d. by apply (doc_for_iff s s1).
Qed.

Lemma rebuild_run s :
  keyed (db s) →
  ∃ s' l, rebuild clock s = (s', Done tt) ∧ same_mail s s' ∧ collection s' = Some (put_docs l []) ∧
    NoDup (map d_id l) ∧ map d_id l = map m_id (messages (db s)) ∧ Forall2 (doc_for (db s)) (messages (db s)) l.
Proof.
  intros Hk. unfold rebuild. set (s0 := set_collection (Some []) s).
  destruct (rebuild_loop_run (S (length (messages (db s)))) 0 s0 []) as (s' & l & Hrun & Hs & Hc & Hl); [lia|simpl; lia|done|done|].
  exists s', l. split.
  { rewrite (bind_run _ _ s s0 tt), read_bind by done. simpl db. by rewrite all_rows, length_map. }
  split; [done|]. split; [done|]. rewrite drop_0 in Hl. simpl in Hl.
  assert (map d_id l = map m_id (messages (db s))) as Hids.
  { clear -Hl. induction Hl as [|m d ms l Hd _ IH]; [done|]. simpl. by rewrite IH, (doc_for_id _ _ _ Hd). }
  split; [rewrite Hids; apply Hk|done].
Qed.

(** A rebuild ends, and leaves a document for every message, as the tables are, and no other. *)
Theorem rebuild_spec s :
  keyed (db s) →
  ∃ s' c, rebuild clock s = (s', Done tt) ∧ same_mail s s' ∧ collection s' = Some c ∧
    (∀ i d, jm_get i c = Some d → ∃ m, m ∈ messages (db s) ∧ m_id m = i ∧ doc_for (db s) m d) ∧
    (∀ m, m ∈ messages (db s) → is_Some (jm_get (m_id m) c)).
Proof.
  intros Hk. destruct (rebuild_run s Hk) as (s' & l & Hrun & Hs & Hc & Hnd & Hids & Hl).
  exists s', (put_docs l []). split; [done|]. split; [done|]. split; [done|]. split.
  - intros i d Hd. destruct (decide (i ∈ map d_id l)) as [Hi|Hi]; [|by rewrite put_docs_other in Hd].
    apply list_elem_of_fmap in Hi as (d' & -> & Hin). rewrite (put_docs_in d') in Hd by done. injection Hd as <-.
    apply list_elem_of_lookup in Hin as [k Hin]. destruct (Forall2_lookup_r _ _ _ _ _ Hl Hin) as (m & Hm & Hdoc).
    exists m. split; [by eapply list_elem_of_lookup_2|]. split; [|done]. symmetry. by apply (doc_for_id (db s)).
  - intros m Hm. assert (m_id m ∈ map d_id l) as Hi by (rewrite Hids; by apply list_elem_of_fmap_2).
    apply list_elem_of_fmap in Hi as (d & -> & Hin). rewrite put_docs_in by done. by eexists.
Qed.
End Runs.

(** ** Flags set in the web application *)

(** The jobs of the queue among those added. *)
Definition is_search (j : Job) : bool := bool_decide (queue j = "searchIngestQueue"%js) || bool_decide (queue j = "search-ingest"%js).
Definition run_search_jobs (clock : nat → Z) (l : list Job) : searching unit :=
  each (λ j, run_search_job clock (job_name j) (job_data j)) (List.filter is_search l).

(** Every message has a document that says what the tables say. *)
Definition current (s : SearchStore) : Prop :=
  ∀ m, m ∈ messages (db s) → ∃ c d, collection s = Some c ∧ jm_get (m_id m) c = Some d ∧ doc_for (db s) m d.

(** Messages and rows of the threads [T] at most are changed. *)
Definition touches (T : list jsstr) (d d' : MailDb) : Prop :=
  map m_id (messages d') = map m_id (messages d) ∧
  (∀ m, m ∈ messages d' → m_threadId m ∉ T → m ∈ messages d) ∧
  map thread_key (mailboxThreads d') = map thread_key (mailboxThreads d) ∧
  filter (λ r, mt_threadId r ∉ T) (mailboxThreads d') = filter (λ r, mt_threadId r ∉ T) (mailboxThreads d).

#[export] Instance touches_preorder T : PreOrder (touches T).
Proof.
  split; unfold touches; [done|]. intros d1 d2 d3 (I1 & M1 & K1 & R1) (I2 & M2 & K2 & R2).
  split; [congruence|]. split; [auto|]. split; congruence.
Qed.

Lemma touches_messages T p f : (∀ m, p m = true → m_threadId m ∈ T) → (∀ m, m_id (f m) = m_id m ∧ m_threadId (f m) = m_threadId m) →
  steps (touches T) (modify (set_messages (update_where p f))).
Proof.
  intros Hp Hf d. unfold touches. simpl. split; [|split; [|done]].
  - unfold update_where. rewrite map_map. apply map_ext. intros m. destruct (p m); [apply Hf|done].
  - intros m (x & Hx & ->)%elem_of_update_where Hn. destruct (p x) eqn:E; [|done]. destruct Hn.
    destruct (Hf x) as [_ ->]. auto.
Qed.

Lemma touches_rows T p f : (∀ r, p r = true → mt_threadId r ∈ T) → (∀ r, thread_key (f r) = thread_key r) →
  steps (touches T) (modify (set_mailboxThreads (update_where p f))).
Proof.
  intros Hp Hf d. unfold touches. simpl. split; [done|]. split; [done|]. split.
  - unfold update_where. rewrite map_map. apply map_ext. intros r. by destruct (p r).
  - unfold update_where. induction (mailboxThreads d) as [|r l IH]; [done|]. cbn [map]. destruct (p r) eqn:E; rewrite !filter_cons, IH; [|done].
    assert (mt_threadId (f r) = mt_threadId r) as -> by (pose proof (Hf r) as H; unfold thread_key in H; congruence).
    rewrite !decide_False; [done|intros H; by apply H, Hp..].
Qed.

Lemma touches_rollback T d d' : touches T d d' → touches T d (rollback d d').
Proof. done. Qed.

Lemma touched_row T d d' m : touches T d d' → m_threadId m ∉ T → row_of d' m = row_of d m.
Proof.
  intros (_ & _ & _ & R) Hm. unfold row_of.
  assert (∀ l : list MailboxThreadRow, filter (λ r, thread_key r = msg_key m) (filter (λ r, mt_threadId r ∉ T) l) = filter (λ r, thread_key r = msg_key m) l) as H.
  { intros l. induction l as [|r l IH]; [done|]. rewrite !filter_cons. destruct (decide (mt_threadId r ∉ T)) as [Hr|Hr].
    - by rewrite filter_cons, IH.
    - rewrite IH, (decide_False (P := thread_key r = _)); [done|]. unfold thread_key, msg_key. intros [= E _]. by rewrite E in Hr. }
  by rewrite <- (H (mailboxThreads d')), R, H.
Qed.

Lemma refresh_current clock T d' s :
  keyed (db s) → ready_ok s → current s → touches T (db s) d' →
  ∃ s', each (refreshThread clock) T (set_db d' s) = (s', Done tt) ∧ current s' ∧ messages (db s') = messages d'.
Proof.
  intros Hk Hr Hc Ht. pose proof Ht as (I & M & K & _).
  destruct (refresh_all clock T (set_db d' s)) as (s' & Hrun & (E1 & E2) & _ & F & G); [by unfold keyed; simpl; rewrite I, K|done|].
  exists s'. split; [done|]. split; [|done]. intros m. rewrite E1. simpl in *. intros Hm.
  destruct (in_threads T m) eqn:Em.
  - destruct (F m Hm Em) as (c & d & ? & ? & Hd). exists c, d. split; [done|]. split; [done|].
    by apply (doc_for_iff (set_db d' s) s').
  - unfold in_threads in Em. apply bool_decide_eq_false in Em. destruct (Hc m (M m Hm Em)) as (c & d & Hcol & Hd & Hdoc).
    specialize (G (m_id m)). rewrite Hcol in G. simpl in G. rewrite Hd in G.
    assert (jm_get (m_id m) (default [] (collection s')) = Some d) as H.
    { apply G. intros x Hx Hp Hid. assert (NoDup (map m_id (messages d'))) as Hnd by (rewrite I; apply Hk).
      pose proof (NoDup_map_inj m_id _ _ _ Hnd Hx Hm Hid) as ->. unfold in_threads in Hp. by apply bool_decide_eq_true in Hp. }
    destruct (collection s') as [c'|]; [|done]. exists c', d. split; [done|]. split; [done|].
    apply (doc_for_iff (set_db d' s) s'); [done|]. unfold doc_for. simpl. by rewrite (touched_row T (db s) d').
Qed.

(** ** What a search shows *)

Lemma slice_length s n : length (slice s 0 (Z.of_nat n)) ≤ n.
Proof.
  unfold slice, rel_index. simpl (Z.ltb 0 0). rewrite (proj2 (Z.ltb_ge _ _)) by lia. rewrite length_take, Nat2Z.id. lia.
Qed.

(** A document shows the message it was made of: a hit is unread, starred and has an attachment when
    the tables say so, leads to the message and its thread, and its snippet is short. *)
Lemma thread_hit_spec c m mt :
  let h := thread_hit (doc_json (toSearchDoc c (m, mt))) in
  th_id h = VStr (m_id m) ∧ th_threadId h = VStr (m_threadId m) ∧ th_unread h = negb (m_seen m) ∧
  th_starred h = default false (mt_starred <$> mt) ∧
  th_hasAttachment h = m_hasAttachments m || default false (mt_hasAttachments <$> mt) ∧ length (th_snippet h) ≤ 200.
Proof.
  cbv zeta. split; [done|]. split; [done|]. split; [|split; [|split]].
  - change (is_one (VNum (num_of_Z (if m_seen m then 0 else 1))) = negb (m_seen m)). by destruct (m_seen m).
  - change (is_one (VNum (num_of_Z (if default false (mt_starred <$> mt) then 1 else 0))) = default false (mt_starred <$> mt)).
    by destruct (default false _).
  - change (is_one (VNum (num_of_Z (if m_hasAttachments m || default false (mt_hasAttachments <$> mt) then 1 else 0))) =
            m_hasAttachments m || default false (mt_hasAttachments <$> mt)).
    by destruct (_ || _).
  - change (th_snippet _) with (slice (d_snippet (toSearchDoc c (m, mt))) 0 (Z.of_nat 200)). apply slice_length.
Qed.

Inductive FlagAction :=
| MarkRead (threadIds : list jsstr) (mailboxId : jsstr) (markSmtp : bool)
| MarkUnread (threadIds : list jsstr) (mailboxId : jsstr) (markSmtp : bool)
| Star (threadId mailboxId : jsstr) (starred starImap : bool).

(** The mailbox is one of a mail server: the pages pass [markSmtp] for it.  A star has no such condition. *)
Definition on_server (a : FlagAction) : bool :=
  match a with MarkRead _ _ smtp | MarkUnread _ _ smtp => smtp | Star _ _ _ _ => true end.

Section Actions.
Context (uid : jsstr) (clock : nat → Z).

Definition run_action (a : FlagAction) : proc unit :=
  match a with
  | MarkRead ids b smtp => markAsRead uid clock ids b smtp
  | MarkUnread ids b smtp => markAsUnread uid clock ids b smtp
  | Star t b starred imap => toggleStar uid clock t b starred imap
  end.

(** The threads touched are those the search is told to read again. *)
Definition announces (d d' : MailDb) : Prop :=
  ∃ T new, touches T d d' ∧ jobs d' = jobs d ++ new ∧ List.filter is_search new = map refresh_thread T.

Lemma add_jobs_run {A} (f : A → Job) l d : each (λ t, add_job (f t)) l d = (set_jobs (λ js, js ++ map f l) d, Done tt).
Proof.
  revert d. induction l as [|x l IH]; intros d; cbn [each map].
  - destruct d. unfold set_jobs. simpl. by rewrite app_nil_r.
  - rewrite (bind_run _ _ d (set_jobs (λ js, js ++ [f x]) d) tt), IH by done. unfold set_jobs. simpl. by rewrite <- app_assoc.
Qed.

Lemma smtp_and_search_run ids b op d :
  smtp_and_search ids b op d = (set_jobs (λ js, js ++ map (λ t, flags_job t b op false) ids ++ map refresh_thread ids) d, Done tt).
Proof.
  unfold smtp_and_search, refresh_threads. rewrite (bind_run _ _ _ _ _ (add_jobs_run _ _ _)), add_jobs_run.
  unfold set_jobs. simpl. by rewrite <- app_assoc.
Qed.

Lemma search_of_flags (f : jsstr → Job) ids T : (∀ t, is_search (f t) = false) →
  List.filter is_search (map f ids ++ map refresh_thread T) = map refresh_thread T.
Proof.
  intros Hf. rewrite List.filter_app. assert (List.filter is_search (map f ids) = []) as ->.
  { induction ids as [|t ids IH]; [done|]. simpl. by rewrite Hf, IH. }
  simpl. induction T as [|t T IH]; [done|]. simpl. by rewrite IH.
Qed.

(** A transaction that touches threads [T], and the jobs after it. *)
Lemma announces_smtp ids b op (p : proc unit) d d1 :
  (∀ d, ∃ d', p d = (d', Done tt) ∧ touches ids d d' ∧ jobs d' = jobs d) → touches ids d d1 → jobs d1 = jobs d →
  ∃ d', (_ ← rls p; smtp_and_search ids b op) d1 = (d', Done tt) ∧ announces d d'.
Proof.
  intros Hp Ht Hj. destruct (Hp d1) as (d2 & Hrun & Ht2 & Hj2). eexists. split.
  - rewrite (bind_run _ _ _ d2 tt) by (unfold rls, transaction; by rewrite Hrun). apply smtp_and_search_run.
  - exists ids. eexists. split; [|split; [simpl; by rewrite Hj2, Hj|by apply search_of_flags]].
    trans d1; [done|]. trans d2; [done|]. done.
Qed.

Lemma each_rows_run T p f ids d :
  (∀ t r, t ∈ ids → p t r = true → mt_threadId r ∈ T) → (∀ t r, thread_key (f t r) = thread_key r) →
  ∃ d', each (λ t : jsstr, modify (set_mailboxThreads (update_where (p t) (f t)))) ids d = (d', Done tt) ∧
    touches T d d' ∧ jobs d' = jobs d.
Proof.
  intros Hp Hf. revert d. induction ids as [|t ids IH]; intros d; cbn [each]; [by exists d|].
  destruct (IH (λ t' r Ht, Hp t' r (list_elem_of_further _ _ _ Ht)) (set_mailboxThreads (update_where (p t) (f t)) d)) as (d' & Hrun & Ht & Hj).
  exists d'. split; [done|]. split; [|done]. etrans; [|exact Ht].
  apply (touches_rows T (p t) (f t)); [|done]. intros r. apply Hp. set_solver.
Qed.

Lemma message_of_in ids b m : message_of uid ids b m = true → m_threadId m ∈ ids.
Proof. unfold message_of. intros H. by bool_to_prop. Qed.

Lemma row_of_in ids b r : MailActions.row_of uid ids b r = true → mt_threadId r ∈ ids.
Proof. unfold MailActions.row_of. intros H. by bool_to_prop. Qed.

Lemma run_action_announces a d : on_server a = true → ∃ d', run_action a d = (d', Done tt) ∧ announces d d'.
Proof.
  destruct a as [threadIds b smtp|threadIds b smtp|t b starred imap]; cbn [run_action on_server]; [intros ->..|intros _].
  - unfold markAsRead. set (ids := given threadIds). destruct (_ || _); [by exists d; split; [done|]; exists [], []; rewrite app_nil_r|].
    apply (announces_smtp ids b "read"%js _ d (tick d)); [|done..]. generalize (clock (ticks d)) as now. clear d. intros now d.
    eexists. split; [reflexivity|]. split; [|done].
    refine (steps_bind (touches ids) (modify _) (λ _, modify _) _ _ d); [apply touches_messages|intros _; apply touches_rows]; try done.
    + apply message_of_in.
    + apply row_of_in.
  - unfold markAsUnread. set (ids := given threadIds). destruct (_ || _); [by exists d; split; [done|]; exists [], []; rewrite app_nil_r|].
    apply (announces_smtp ids b "unread"%js _ d (tick d)); [|done..]. generalize (clock (ticks d)) as now. clear d. intros now d.
    rewrite (bind_run _ _ d (set_messages (update_where (message_of uid ids b) (with_flags (Some false) None None now)) d) tt), read_bind by done.
    set (d1 := set_messages _ d).
    destruct (each_rows_run ids (λ t, MailActions.row_of uid [t] b) (λ t, set_unread (unread_or_one uid t b (messages d1)) now) ids d1)
      as (d2 & Hrun & Ht & Hj); [|done|].
    { intros t r Hin Hr%row_of_in. by apply list_elem_of_singleton in Hr as ->. }
    exists d2. split; [exact Hrun|]. split; [|done]. trans d1; [|exact Ht].
    apply (touches_messages ids (message_of uid ids b)); [apply message_of_in|done].
  - unfold toggleStar. destruct (_ || _); [by exists d; split; [done|]; exists [], []; rewrite app_nil_r|]. destruct imap.
    + eexists. split; [reflexivity|]. exists [t]. eexists. split; [done|]. simpl. rewrite <- app_assoc. split; [done|].
      by destruct starred.
    + eexists. split; [reflexivity|]. exists [t], [refresh_thread t]. split; [|done]. cbn.
      set (f := with_flags None (Some (negb starred)) None (clock (ticks d))).
      set (g := set_aggregates _ _ _). set (d1 := set_messages (update_where (message_of uid [t] b) f) d).
      trans d1; [apply (touches_messages [t]); [apply message_of_in|done]|].
      pose proof (touches_rows [t] (MailActions.row_of uid [t] b) g (row_of_in [t] b) (λ r, eq_refl) d1) as H. exact H.
Qed.

Lemma run_refreshes T s : run_search_jobs clock (map refresh_thread T) s = each (refreshThread clock) T s.
Proof.
  unfold run_search_jobs. assert (List.filter is_search (map refresh_thread T) = map refresh_thread T) as ->.
  { induction T as [|t T IH]; [done|]. simpl. by rewrite IH. }
  revert s. induction T as [|t T IH]; intros s; [done|]. cbn [map each]. unfold mbind, proc_bind.
  change (run_search_job _ _ _ s) with (refreshThread clock t s). destruct (refreshThread clock t s) as [s1 [u|]]; [apply IH|done].
Qed.

End Actions.

Lemma rebuild_current clock s : keyed (db s) → let s' := (rebuild clock s).1 in keyed (db s') ∧ ready_ok s' ∧ current s'.
Proof.
  intros Hk. destruct (rebuild_run clock s Hk) as (s' & l & -> & Hs & Hc & Hnd & Hids & Hl). simpl.
  split; [by apply (keyed_same s)|]. split; [intros _; congruence|]. intros m. destruct Hs as [E1 E2]. rewrite E1. intros Hm.
  apply list_elem_of_lookup in Hm as [k Hm]. destruct (Forall2_lookup_l _ _ _ _ _ Hl Hm) as (d & Hd & Hdoc).
  eexists _, d. split; [exact Hc|]. rewrite <- (doc_for_id _ _ _ Hdoc). split.
  - apply put_docs_in; [done|by eapply list_elem_of_lookup_2].
  - by apply (doc_for_iff s s').
Qed.

(** ** Examples *)

Definition ex_searched : SearchStore :=
  (rebuild Z.of_nat {| db := ex_start; collection := None; collectionReady := false |}).1.

Lemma ex_searched_ok : keyed (db ex_searched) ∧ ready_ok ex_searched ∧ current ex_searched.
Proof. apply rebuild_current, consistent_keyed, ex_start_consistent. Qed.


(** Without [markSmtp] no job is added: the hit stays unread. *)
Lemma local_flags_are_not_searchable :
  let d' := (run_action "u"%js Z.of_nat (MarkRead ["t"%js] "b"%js false) (db ex_searched)).1 in
  jobs d' = jobs (db ex_searched) ∧
  existsb (λ m, m_seen m && match jm_get (m_id m) (default [] (collection (set_db d' ex_searched))) with
                            | Some d => th_unread (thread_hit (doc_json d))
                            | None => false
                            end) (messages d') = true.
Proof. by vm_compute. Qed.

Lemma rebuild_spec_witness : ∃ s' c, rebuild Z.of_nat ex_searched = (s', Done tt) ∧ collection s' = Some c.
Proof.
  destruct (rebuild_spec Z.of_nat ex_searched (proj1 ex_searched_ok)) as (s' & c & H1 & _ & H2 & _). by exists s', c.
Defined.

(** No job takes a message that is gone out of the index: a refresh of its thread leaves it there, until
    the next rebuild. *)
Lemma deleted_mail_is_found :
  let gone := set_db (set_messages (filter (λ m, m_id m ≠ "1"%js)) (db ex_searched)) ex_searched in
  let refreshed := (refreshThread Z.of_nat "t"%js gone).1 in
  bool_decide (is_Some (jm_get "1"%js (default [] (collection refreshed)))) = true ∧
  bool_decide (is_Some (jm_get "1"%js (default [] (collection (rebuild Z.of_nat refreshed).1)))) = false.
Proof. by vm_compute. Qed.
